(* ===== verification/_CoqProject ===== *)
-Q . S2P
Prelude.v
Scheduler.v
SchedulerSpec.v
SchedulerInv.v
SchedulerProps.v
ThreadLocks.v
ThreadLocksProps.v
AccountLocks.v
AccountLocksProps.v
ComputeBudget.v
ComputeBudgetProps.v
Cost.v
CostProps.v
BTree.v
ForkChoice.v
ForkTree.v
ForkAggregate.v
ForkBatch.v
ForkVotes.v
ForkInv.v
ForkMarks.v
ForkLeaf.v
ForkGrow.v
ForkChoiceProps.v
LatestVotes.v
VoteInterface.v
LockoutProps.v
VoteState.v
VoteScan.v
VoteStateProps.v
Tower.v
TowerProps.v
TowerSwitch.v
TowerStakes.v
TowerRestart.v
Bytes.v
TransactionContext.v
TransactionContextProps.v
TransactionExec.v
TokenState.v
TokenStateProps.v
TokenInstruction.v
TokenAmount.v
TokenProcessor.v
TokenSpec.v
TokenRefine.v
TokenAuth.v
TokenInv.v
TokenConserve.v
TokenMachine.v
TokenTotal.v
TokenTheorems.v
PTokenState.v
PToken.v
PTokenView.v
PTokenEquiv.v
PTokenHandlers.v
PTokenDispatch.v
PTokenInv.v
PTokenTheorems.v
TransactionView.v
TransactionViewSpec.v
TransactionViewProps.v
TransactionViewTheorems.v
SystemProgram.v
SystemProps.v
SystemTheorems.v
RollingBitField.v
RollingBitFieldProps.v
StatusCache.v
StatusCacheProps.v
StatusCacheTheorems.v
BlockhashQueue.v
Bank.v
BankSteps.v
BankInv.v
BankNew.v
BankRoot.v
BankPrune.v
BankTheorems.v
