(* ===== verification/Prelude.v ===== *)
(** * A verification of the scheduling, consensus, runtime and token code of the validator

    The program is a validator of a proof-of-stake chain, written in Rust. This
    library models the parts of it that decide which transactions run together,
    what they cost, which fork is followed, which votes are cast, how a transaction is
    read and whether it was processed before, what a program may do to the accounts of
    a transaction, the system program, and the two token programs that come with it, as
    executable functions, and proves that they do what they are for. Paths below are
    relative to [src/].

    ** The parts of the program and the files that model them

    - _Unified scheduler_ ([unified-scheduler-logic/src/lib.rs]). [Scheduler] has the
      usage queues, the tasks and the state machine; the cells that the two tokens
      own are the heap of the machine. [SchedulerSpec] is the abstract scheduler, a
      list of active tasks in the order of arrival; [SchedulerInv] is the simulation
      invariant.
    - _Locks of the banking stage_ ([core/src/banking_stage/transaction_scheduler/]
      [thread_aware_account_locks.rs]): [ThreadLocks]. The locks of the accounts
      database, the batch-local set and the tracker of batches in flight
      ([accounts-db/src/account_locks.rs], [read_write_account_set.rs],
      [in_flight_tracker.rs]): [AccountLocks].
    - _Compute budget and cost_ ([compute-budget-instruction/], [compute-budget/],
      [builtins-default-costs/], [cost-model/]): [ComputeBudget] and [Cost]. The cost
      tracker takes the costs that the cost model estimates with the compute budget.
    - _Fork choice_ ([core/src/consensus/heaviest_subtree_fork_choice.rs],
      [tree_diff.rs]): [ForkChoice]. [ForkTree], [ForkAggregate], [ForkBatch],
      [ForkVotes], [ForkInv], [ForkMarks], [ForkLeaf] and [ForkGrow] are the theory of
      its tree. It takes its votes from the tracker of the latest votes
      ([latest_validator_votes_for_frozen_banks.rs]): [LatestVotes].
    - _Votes_ ([core/src/consensus/tower_vote_state.rs],
      [programs/vote/src/vote_state/mod.rs]): [VoteInterface] has the stack of votes of
      a validator, [VoteState] what the vote program does with a vote, a vote state
      update or a tower sync. [LockoutProps] and [VoteScan] are their theory.
    - _Tower_ ([core/src/consensus.rs], [vote/src/vote_transaction.rs]): [Tower]. It
      votes on the stack of [VoteInterface], asks the fork choice about duplicate
      blocks, hands the votes it sees to [LatestVotes], and its vote is what the vote
      program receives.
    - _Transaction views_ ([transaction-view/src/]): [TransactionView] parses the bytes
      of a transaction with the offsets of the code at their width; a read without a
      bounds check is one that panics outside of the buffer. [TransactionViewSpec] has
      the serialization, [TransactionViewProps] relates the parser to it.
    - _Banks_ ([runtime/src/bank.rs], [bank/check_transactions.rs], [bank_forks.rs],
      [snapshot_controller.rs], [purge_unconfirmed_duplicate_slot] of
      [core/src/replay_stage.rs]): [Bank] has what decides whether a transaction is
      processed again. Banks are shared and changed in place, so they live in a heap by
      their id. They use the ancestors ([accounts-db/src/rolling_bit_field.rs],
      [ancestors.rs]: [RollingBitField]), the status cache
      ([runtime/src/status_cache.rs]: [StatusCache]) and the blockhash queue
      ([accounts-db/src/blockhash_queue.rs]: [BlockhashQueue]). [BankSteps] runs a node
      as a relation, with the history that the code forgets, and states its invariant;
      [BankInv], [BankNew], [BankRoot] and [BankPrune] show that each step keeps it.
    - _Accounts of a transaction_ ([transaction-context/src/lib.rs], [push] and
      [prepare_instruction] of [program-runtime/src/invoke_context.rs], the write back of
      [program-runtime/src/serialization.rs], the account list of
      [svm/src/message_processor.rs]): [TransactionContext] has the borrowed account with
      its operations, the instruction stack and its lamport sums, the privileges of a
      call and the write back; [TransactionContextProps] is what one operation can
      change. [TransactionExec] runs a transaction as a relation: the message or a
      running program pushes an instruction, a program does any operation on the
      accounts it has, or leaves any buffer to write back, and pops.
    - _System program_ ([programs/system/src/]): [SystemProgram], on the accounts of
      [TransactionContext]; [SystemProps] is what each instruction changes.
    - _Token program_ ([spl-token/program/src/]): [TokenState] (state.rs, error.rs),
      [TokenInstruction] (instruction.rs), [TokenAmount] (lib.rs) and [TokenProcessor]
      (processor.rs), with the store of accounts that all infos of an account share.
      [TokenSpec] is its contract, a relation with one rule per effect; [TokenRefine],
      [TokenAuth] and [TokenTotal] relate the processors to it. [TokenInv] and
      [TokenConserve] are the invariant of a ledger and its proof per effect, and
      [TokenMachine] puts the program on the runtime: its instructions run in the
      transactions of [TransactionExec] next to every other program.
    - _p-token_ ([spl-token/p-token/src/], [spl-token/interface/src/state/]): [PTokenState]
      has the structs that account data is cast to, [PToken] the processors that work on
      them in place. [PTokenView] relates the structs to the packed state, [PTokenEquiv]
      and [PTokenHandlers] every processor to the one of the token program,
      [PTokenDispatch] the reading of instruction data, and [PTokenInv] its batches and
      withdrawals to the invariant of the ledger.

    This file has the vocabulary: the outcome of a call, machine integers, and the
    lemmas and tactics that several components use. [BTree] has the ordered
    collections of the standard library, [Bytes] little-endian numbers and keys.

    ** How the code is represented

    A function that can panic returns an [outcome], a fallible one a [result]; the
    state it mutates is passed in and out. Integers are [Z]; an addition or
    subtraction that the program does not saturate or check panics on overflow
    ([add_], [sub_]), and wraps in p-token, which is built without overflow checks
    ([wrapping_add_u64]). Public keys, hashes and slots are integers, hash maps are
    [gmap], and where a map is iterated over in the order of its keys it is a sorted
    list. Where the order of an iteration over a hash map is not defined it is an
    argument, and the theorems hold for every order. Logging and metrics are left
    out, and so is the clock, whose time is an argument.

    Code outside the repository is a class of operations with a class of the laws its
    documentation states: the lockout arithmetic and the vote state of the vote
    interface crate ([LockoutApi], [VoteApi], [VoteTxApi]), the slot history
    ([SlotHistoryApi]), the program ids and the decoder of instructions ([Sdk]), the
    instructions sysvar and rent of the runtime ([RuntimeSdk]), what the token program
    takes from the program SDK ([PackApi], [TokenSdk]) and p-token from pinocchio
    ([Pinocchio]), the layout of keys and hashes in a transaction ([ViewEnv]), the
    states of nonces and the decoding of system instructions ([SystemSdk]), bit
    vectors ([BitVecOps]), the ages of blockhashes ([ClockConstants]), and the nonce
    accounts that banks read ([BankSdk]). Every theorem that uses such laws has a
    witness with concrete operations.

    ** What the theorems show

    - [SchedulerProps] (C1, C2, C31, C32): the state machine refines the abstract
      scheduler; so running tasks never conflict and conflicting tasks run in their
      order; it never panics and makes progress while a task is active. Further theorems
      of the file say when a task is handed out, and that it ends clean.
    - [ThreadLocksProps] and [AccountLocksProps] (C20, C26): transactions that different
      calls answered with a lock never conflict; further, the answers are exact, unlocking restores the
      table, and counters are the sums they stand for.
    - [ComputeBudgetProps] and [CostProps] (C27, C35, C36): caches and tables are
      transparent, limits are within their bounds, and the tracked costs are the sums
      over the tracked transactions, above a limit by no more than what transactions used
      beyond what they asked for.
    - [ForkChoiceProps] and [LatestVotes] (C8, C29, C38 to C40): in every reachable state
      the weights are those of the latest votes and the best block is the one the greedy
      heaviest-subtree walk ends at; marking forks does exactly what it is for, and so,
      in further theorems, do adding blocks and votes and moving the root. C40 is
      about votes for two versions of a slot: the tracker loses the second one, or makes
      every fork choice that can see it panic.
    - [VoteStateProps] (C28): the vote program never rolls an account back; further, it
      accepts exactly the proposals on the fork of the slot hashes that respect root and
      lockouts, and accepts the tower an honest validator built.
    - [TowerProps], [TowerSwitch], [TowerRestart] (C9, C30, C37) and [TowerStakes]: a
      validator that asks before it votes never violates a lockout; the check of a
      switch does what it is meant to on each of its branches, with the two on which it
      panics, and where it counts stake a switch needs that of validators locked out on
      other forks; a restart keeps the lockouts;
      and the stakes of the slots are those of the supporting accounts.
    - [TransactionViewTheorems] (C7, C17, C25): the parser accepts exactly the
      serializations of well-formed transactions and shows them as they are, with every
      unchecked read in the buffer; sanitizing accepts exactly the valid ones; and the
      writable accounts of a resolved transaction are those the message may write.
    - [BankTheorems] (C5, C21): whatever banks a node creates, fills, roots, snapshots
      and purges, a transaction that was recorded on a bank for its blockhash is not
      accepted for it again above that bank; and a new root keeps exactly the banks on
      its line. [StatusCacheTheorems] (C22, C23) is about snapshots of the status cache
      and the removal of a slot from it, which can panic, and [RollingBitFieldProps]
      (C24) says when a rolling bit field is a set, which is not always.
    - [TransactionExec] (C6, C12, C13): whatever programs do and however they call each
      other, a transaction conserves lamports, leaves readonly accounts as they are, and
      protects the accounts of a program from all others.
    - [SystemTheorems] (C14 to C16): nobody takes lamports from a wallet that has not
      signed, that no program signs for and that no instruction derives from a base that
      signed; every change by the system program is authorized; and a nonce is used once
      per blockhash.
    - [TokenTheorems] (C3, C10, C11, C18, C33, C34): after any transactions on any ledger
      that started without token accounts, supplies are the sums of the balances and
      native tokens are backed by lamports. Every instruction has an effect of the
      contract or fails, and changes an account only with the consent the contract asks
      for; what is written is read back. Further, no instruction panics, and a transfer
      that meets its conditions goes through.
    - [PTokenTheorems] (C4, C19): on such a ledger p-token does exactly what the token
      program does, but for amounts as text that does not fit its buffer, and its batches, which are sequences of instructions, and its
      withdrawals return and keep the supplies too. The hypothesis that accounts of the
      length of a token account, mint or multisignature belong to the program is needed:
      p-token reads other data without a check, and leaves it to the runtime to refuse
      what it writes there.

    ** Bounds

    A loop without a structural argument takes a bound on its iterations and returns
    [OutOfFuel] when it is reached: the walks over the fork choice tree take one more
    than the number of its blocks; the scans of the vote program take the lengths of
    the two lists they walk along; the loops of the scheduler take the length of the
    queue they unblock and the number of active tasks they clear; the loop of a batch
    takes the number of bytes of its data, of which each round takes at least three; the
    walk over the parents of a bank takes the number of banks, and the iterators of a
    transaction view the number of items they count. The theorems state that the calls
    return (those listed at the end excepted), so the bounds
    are enough. Hypotheses on sizes (the number of tasks below the width of a counter,
    total stake below [u64_MAX]) are those under which the arithmetic cannot overflow.
    A view's lookups are shown for buffers of up to [u16::MAX] bytes, beyond which their
    offsets wrap; a packet has 1232. A node's slots leave room for the width of the
    ancestors below [u64_MAX], and the hash of a block is new on its fork.

    ** What is not modelled

    Of the modelled files: formatting, logging, the conversion of saved towers of
    older versions, saving and restoring the file of the tower, the vote instructions
    and transactions built from a vote, and the handlers of the vote program that only
    change authorities, commission or balance; compute units, the program cache, the
    unaligned input format and account data mapped into the virtual machine; and the
    builders of token instructions for clients. Of the ledger, fees, rewards and rent
    are any change that leaves the accounts of the token program alone. The operations
    [add_root_parent], [merge], [split_off], [purge_prune], [select_forks] and
    [heaviest_slot_on_same_voted_fork] of the fork choice are modelled, but no theorem
    is about them. Of a bank, the
    processing of transactions (its results are arguments of the steps), accounts,
    fees, stakes, rewards, sysvars and epochs are not modelled. The rest of the
    validator is not modelled either: storage, network, replay, RPC, the command line,
    and the other programs, which run on a virtual machine that is not in the
    repository. *)

From stdpp Require Export base list gmap sorting.
From Stdlib Require Export ZArith Lia.

#[global] Set Default Goal Selector "!".
#[global] Set Warnings "-clear-no-such-hyp".

Declare Scope rust_scope.
Delimit Scope rust_scope with rust.
Open Scope Z_scope.

(** * Outcomes *)

(** What a call can do: return a value, panic ([panic!], a failed [assert!],
    [unwrap] of [None], an arithmetic overflow), or, for a loop that is modelled
    with a bound on its iterations, not be finished when the bound is reached. *)
Inductive outcome (A : Type) : Type :=
| Ret (a : A)
| Panic
| OutOfFuel.
Arguments Ret {A} _.
Arguments Panic {A}.
Arguments OutOfFuel {A}.

#[global] Instance outcome_ret : MRet outcome := @Ret.
#[global] Instance outcome_bind : MBind outcome := λ A B f m,
  match m with Ret a => f a | Panic => Panic | OutOfFuel => OutOfFuel end.

(** [Result<T, E>]. *)
Inductive result (A E : Type) : Type :=
| Ok (a : A)
| Err (e : E).
Arguments Ok {A E} _.
Arguments Err {A E} _.

Definition is_ok {A E} (r : result A E) : bool :=
  match r with Ok _ => true | Err _ => false end.

(** [.is_some()]. *)
Definition is_some {A} (o : option A) : bool :=
  match o with Some _ => true | None => false end.

(** [assert!(b)]. *)
Definition assert_ (b : bool) : outcome unit := if b then Ret tt else Panic.

(** [.unwrap()] and [.expect(..)] on an [Option]. *)
Definition unwrap {A} (o : option A) : outcome A :=
  match o with Some a => Ret a | None => Panic end.

(** [for x in l { s = f(s, x)? }]. *)
Fixpoint for_each {A S} (f : A → S → outcome S) (l : list A) (s : S) : outcome S :=
  match l with
  | [] => Ret s
  | x :: l => s' ← f x s; for_each f l s'
  end.

(** [m?], in code that can also panic. *)
Definition try_ {A B E} (m : outcome (result A E)) (k : A → outcome (result B E))
    : outcome (result B E) :=
  r ← m; match r with Ok a => k a | Err e => Ret (Err e) end.

Notation "x ←? m ; k" := (try_ m (λ x, k))
  (at level 20, m at level 100, k at level 200, right associativity) : rust_scope.
Notation "' x ←? m ; k" := (try_ m (λ x, k))
  (at level 20, x pattern, m at level 100, k at level 200, right associativity) : rust_scope.

(** [m?], in code that cannot panic. *)
Definition and_then {A B E} (m : result A E) (k : A → result B E) : result B E :=
  match m with Ok a => k a | Err e => Err e end.
Notation "x ←! m ; k" := (and_then m (λ x, k))
  (at level 20, m at level 100, k at level 200, right associativity) : rust_scope.
Notation "' x ←! m ; k" := (and_then m (λ x, k))
  (at level 20, x pattern, m at level 100, k at level 200, right associativity) : rust_scope.

Lemma and_then_Ok_inv {A B E} (m : result A E) (k : A → result B E) b :
  and_then m k = Ok b → ∃ a, m = Ok a ∧ k a = Ok b.
Proof. destruct m; [eauto|done]. Qed.
Open Scope rust_scope.

Lemma try_Ok {A B E} (a : A) (k : A → outcome (result B E)) : try_ (Ret (Ok a)) k = k a.
Proof. done. Qed.

Lemma try_Ok_inv {A B E} (m : outcome (result A E)) (k : A → outcome (result B E)) b :
  try_ m k = Ret (Ok b) → ∃ a, m = Ret (Ok a) ∧ k a = Ret (Ok b).
Proof. destruct m as [[a|e]| |]; simpl; intros; [eauto|discriminate..]. Qed.

Lemma bind_Ret_inv {A B} (m : outcome A) (f : A → outcome B) b :
  m ≫= f = Ret b → ∃ a, m = Ret a ∧ f a = Ret b.
Proof. destruct m; simpl; intros; [eauto|discriminate..]. Qed.

Lemma bind_Ret_l {A B} (a : A) (f : A → outcome B) : Ret a ≫= f = f a.
Proof. done. Qed.

Lemma assert_Ret_inv b u : assert_ b = Ret u → b = true.
Proof. by destruct b. Qed.

Lemma unwrap_Ret_inv {A} (o : option A) a : unwrap o = Ret a → o = Some a.
Proof. destruct o; simpl; congruence. Qed.

Lemma for_each_app {A S} (f : A → S → outcome S) l1 l2 s :
  for_each f (l1 ++ l2) s = (s' ← for_each f l1 s; for_each f l2 s').
Proof.
  revert s. induction l1 as [|x l1 IH]; intros s; simpl; [done|].
  destruct (f x s); simpl; [apply IH|done..].
Qed.

(** Rule for a [for] loop: an invariant indexed by the part already visited. *)
Lemma for_each_inv {A S} (P : list A → S → Prop) (f : A → S → outcome S) l s :
  P [] s →
  (∀ done x todo s, l = done ++ x :: todo → P done s →
     ∃ s', f x s = Ret s' ∧ P (done ++ [x]) s') →
  ∃ s', for_each f l s = Ret s' ∧ P l s'.
Proof.
  intros H0 Hstep.
  enough (∀ todo don s, l = don ++ todo → P don s →
    ∃ s', for_each f todo s = Ret s' ∧ P l s') as H.
  { apply (H l []); done. }
  induction todo as [|x todo IH]; intros don s0 Hl HP; simpl.
  - rewrite app_nil_r in Hl. subst. eauto.
  - destruct (Hstep don x todo s0 Hl HP) as (s1 & -> & HP1). simpl.
    apply (IH (don ++ [x])); [by rewrite <-app_assoc|done].
Qed.

(** Inverts every bind of a computation that returned. *)
Ltac outcome_inv :=
  repeat match goal with
  | H : (_ ≫= _) = Ret _ |- _ =>
      let x := fresh "x" in let H1 := fresh "H" in
      apply bind_Ret_inv in H as (x & H1 & H)
  | H : assert_ _ = Ret _ |- _ => apply assert_Ret_inv in H
  | H : unwrap _ = Ret _ |- _ => apply unwrap_Ret_inv in H
  | H : Ret _ = Ret _ |- _ => injection H as H; try subst
  | H : mret _ = Ret _ |- _ => injection H as H; try subst
  | H : Panic = Ret _ |- _ => discriminate H
  | H : OutOfFuel = Ret _ |- _ => discriminate H
  | H : (_, _) = (_, _) |- _ => injection H as H; try subst
  end.

(** * Machine integers *)

Abbreviation Slot := Z (only parsing).
(** 32-byte identifiers, as the big-endian number they spell: the derived
    lexicographic [Ord] on the bytes is the order of [Z]. *)
Abbreviation Pubkey := Z (only parsing).
Abbreviation Hash := Z (only parsing).

Definition u8_MAX : Z := 2 ^ 8 - 1.
Definition u16_MAX : Z := 2 ^ 16 - 1.
Definition u32_MAX : Z := 2 ^ 32 - 1.
Definition u64_MAX : Z := 2 ^ 64 - 1.
Definition u128_MAX : Z := 2 ^ 128 - 1.
Definition usize_MAX : Z := u64_MAX.

Definition checked_add (max a b : Z) : option Z :=
  if a + b <=? max then Some (a + b) else None.
Definition checked_sub (a b : Z) : option Z :=
  if b <=? a then Some (a - b) else None.
Definition saturating_add (max a b : Z) : Z := Z.min (a + b) max.
Definition saturating_sub (a b : Z) : Z := Z.max (a - b) 0.
Definition saturating_mul (max a b : Z) : Z := Z.min (a * b) max.

(** The operators [+] and [-] of an unsigned type, which panic on overflow (the
    profile with overflow checks; without them they wrap, and the theorems that
    a call returns say that the difference is not observable). *)
Definition add_ (max a b : Z) : outcome Z := unwrap (checked_add max a b).
Definition sub_ (a b : Z) : outcome Z := unwrap (checked_sub a b).

Lemma add_Ret max a b : a + b ≤ max → add_ max a b = Ret (a + b).
Proof. intros. unfold add_, checked_add. by rewrite (proj2 (Z.leb_le _ _)). Qed.
Lemma sub_Ret a b : b ≤ a → sub_ a b = Ret (a - b).
Proof. intros. unfold sub_, checked_sub. by rewrite (proj2 (Z.leb_le _ _)). Qed.
Lemma add_Ret_inv max a b c : add_ max a b = Ret c → c = a + b ∧ a + b ≤ max.
Proof.
  unfold add_, checked_add. destruct (Z.leb_spec (a + b) max); simpl; intros; [|discriminate].
  simplify_eq; lia.
Qed.
Lemma sub_Ret_inv a b c : sub_ a b = Ret c → c = a - b ∧ b ≤ a.
Proof.
  unfold sub_, checked_sub. destruct (Z.leb_spec b a); simpl; intros; [|discriminate].
  simplify_eq; lia.
Qed.

(** Turns the boolean comparisons of the context and of the goal into facts. *)
Ltac bsimp :=
  repeat match goal with
  | H : (_ <=? _) = true |- _ => apply Z.leb_le in H
  | H : (_ <=? _) = false |- _ => apply Z.leb_gt in H
  | H : (_ <? _) = true |- _ => apply Z.ltb_lt in H
  | H : (_ <? _) = false |- _ => apply Z.ltb_ge in H
  | H : (_ =? _) = true |- _ => apply Z.eqb_eq in H
  | H : (_ =? _) = false |- _ => apply Z.eqb_neq in H
  | H : (_ && _) = true |- _ => apply andb_true_iff in H as [? ?]
  | H : (_ || _) = false |- _ => apply orb_false_iff in H as [? ?]
  | H : negb _ = true |- _ => apply negb_true_iff in H
  | H : negb _ = false |- _ => apply negb_false_iff in H
  | H : bool_decide _ = true |- _ => apply bool_decide_eq_true in H
  | H : bool_decide _ = false |- _ => apply bool_decide_eq_false in H
  end.

(** Case analysis on the comparison a conditional of the goal tests. *)
Ltac case_leb :=
  match goal with
  | |- context [?a <=? ?b] => destruct (Z.leb_spec a b)
  | |- context [?a <? ?b] => destruct (Z.ltb_spec a b)
  | |- context [?a =? ?b] => destruct (Z.eqb_spec a b)
  end.

(** * Lists *)

Lemma list_filter_ext_in {A} (P Q : A → Prop) `{∀ x, Decision (P x), ∀ x, Decision (Q x)}
    (l : list A) :
  (∀ x, x ∈ l → P x ↔ Q x) → filter P l = filter Q l.
Proof.
  induction l as [|x l IH]; intros HPQ; [done|].
  rewrite !filter_cons, IH by (intros; apply HPQ; by right).
  pose proof (HPQ x (list_elem_of_here x l)). repeat case_decide; tauto.
Qed.

Lemma list_filter_all_in {A} (P : A → Prop) `{∀ x, Decision (P x)} (l : list A) :
  (∀ x, x ∈ l → P x) → filter P l = l.
Proof.
  induction l as [|x l IH]; intros HP; [done|].
  rewrite filter_cons, decide_True by (apply HP; by left).
  f_equal. apply IH. intros. apply HP. by right.
Qed.

Lemma StronglySorted_filter {A} (R : relation A) (P : A → Prop) `{∀ x, Decision (P x)} l :
  StronglySorted R l → StronglySorted R (filter P l).
Proof.
  induction 1 as [|x l Hl IH Hx]; [constructor|]. rewrite filter_cons. case_decide; [|done].
  constructor; [done|]. rewrite Forall_forall in Hx |- *.
  intros y [_ Hy]%list_elem_of_filter. by apply Hx.
Qed.

Lemma StronglySorted_weaken {A} (R R' : relation A) l :
  (∀ x y, R x y → R' x y) → StronglySorted R l → StronglySorted R' l.
Proof. intros HR. induction 1; constructor; eauto using Forall_impl. Qed.

Lemma StronglySorted_rev {A} (R : relation A) l :
  StronglySorted R l → StronglySorted (flip R) (rev l).
Proof.
  induction 1 as [|x l Hl IH Hx]; simpl; [constructor|]. apply StronglySorted_app_2; [|done|].
  - intros y z Hy%list_elem_of_In%in_rev%list_elem_of_In ->%list_elem_of_singleton.
    rewrite Forall_forall in Hx. by apply Hx.
  - repeat constructor.
Qed.

Lemma list_filter_none_in {A} (P : A → Prop) `{∀ x, Decision (P x)} (l : list A) :
  (∀ x, x ∈ l → ¬ P x) → filter P l = [].
Proof.
  induction l as [|x l IH]; intros HP; [done|].
  rewrite filter_cons, decide_False by (apply HP; by left).
  apply IH. intros. apply HP. by right.
Qed.

(** Lists without duplicates and with the same elements are permutations. *)
Lemma NoDup_same_elements {A} (l1 l2 : list A) :
  NoDup l1 → NoDup l2 → (∀ x, x ∈ l1 ↔ x ∈ l2) → l1 ≡ₚ l2.
Proof. apply NoDup_Permutation. Qed.

Lemma length_filter_out `{EqDecision A} (l : list A) x :
  NoDup l → x ∈ l → length l = S (length (filter (λ y, y ≠ x) l)).
Proof.
  intros Hnd (l1 & l2 & ->)%list_elem_of_split.
  apply NoDup_app in Hnd as (_ & Hd & Hnd). apply NoDup_cons in Hnd as [Hd2 _].
  rewrite filter_app, filter_cons, decide_False by tauto.
  rewrite !(list_filter_all_in (λ y, y ≠ x)) by set_solver.
  rewrite !length_app. simpl. lia.
Qed.

Lemma rev_perm {A} (l : list A) : rev l ≡ₚ l.
Proof. symmetry. apply Permutation_rev. Qed.

Lemma elem_of_rev {A} (x : A) l : x ∈ rev l ↔ x ∈ l.
Proof. by rewrite rev_perm. Qed.

Lemma last_rev {A} (l : list A) : last (rev l) = head l.
Proof. destruct l; simpl; [done|]. by rewrite last_snoc. Qed.

Lemma last_filter {A} (P : A → Prop) `{∀ x, Decision (P x)} l x :
  last l = Some x → P x → last (filter P l) = Some x.
Proof.
  intros (l' & ->)%last_Some Hx. rewrite filter_app, filter_cons, decide_True by done.
  change (filter P []) with (@nil A). by rewrite last_snoc.
Qed.

Lemma elem_of_concat {A} (x : A) ls : x ∈ concat ls ↔ ∃ l, l ∈ ls ∧ x ∈ l.
Proof. induction ls as [|l ls IH]; simpl; [set_solver|]. rewrite elem_of_app, IH. set_solver. Qed.

#[global] Instance concat_Permutation {A} : Proper ((≡ₚ) ==> (≡ₚ)) (@concat A).
Proof.
  induction 1 as [|l ls ls' _ IH|l l' ls|]; simpl; [done|by rewrite IH| |by etrans].
  by rewrite !app_assoc, (Permutation_app_comm l).
Qed.

(** Sums. *)
Definition sumZ (l : list Z) : Z := foldr Z.add 0 l.

Lemma sumZ_cons x l : sumZ (x :: l) = x + sumZ l.
Proof. done. Qed.

Lemma sumZ_app l l' : sumZ (l ++ l') = sumZ l + sumZ l'.
Proof. induction l as [|x l IH]; simpl app; rewrite ?sumZ_cons, ?IH; unfold sumZ; simpl; lia. Qed.

Lemma sumZ_nonneg l : (∀ x, x ∈ l → 0 ≤ x) → 0 ≤ sumZ l.
Proof.
  induction l as [|x l IH]; intros Hl; simpl; [done|].
  assert (0 ≤ x) by (apply Hl; left). assert (0 ≤ sumZ l) by (apply IH; set_solver).
  unfold sumZ in *. lia.
Qed.

#[global] Instance sumZ_proper : Proper ((≡ₚ) ==> (=)) sumZ.
Proof. unfold sumZ. induction 1; simpl; lia. Qed.

(** * Counting in a list *)

(** How often [x] occurs. *)
Definition cnt {A} `{EqDecision A} (l : list A) (x : A) : Z :=
  Z.of_nat (length (filter (λ y, y = x) l)).

Section cnt.
Context {A : Type} `{EqDecision A}.
Implicit Types (l : list A) (x y : A).

Lemma cnt_cons y l x : cnt (y :: l) x = (if decide (y = x) then 1 else 0) + cnt l x.
Proof. unfold cnt. rewrite filter_cons. case_decide; simpl; lia. Qed.

Lemma cnt_cons_ne y l x : x ≠ y → cnt (y :: l) x = cnt l x.
Proof. intros Hne. rewrite cnt_cons, decide_False by congruence. lia. Qed.

Lemma cnt_nonneg l x : 0 ≤ cnt l x.
Proof. unfold cnt. lia. Qed.

Lemma cnt_pos l x : 0 < cnt l x ↔ x ∈ l.
Proof.
  induction l as [|y l IH]; [split; [done|set_solver]|].
  rewrite cnt_cons, elem_of_cons, <-IH. pose proof (cnt_nonneg l x).
  case_decide; naive_solver lia.
Qed.

Lemma cnt_le_length l x : cnt l x ≤ Z.of_nat (length l).
Proof. unfold cnt. pose proof (length_filter (λ y, y = x) l). lia. Qed.

#[global] Instance cnt_proper : Proper ((≡ₚ) ==> (=) ==> (=)) (@cnt A _).
Proof. intros l l' HP x ? <-. unfold cnt. by rewrite HP. Qed.

End cnt.

(** * Running code that returns *)

(** [run] reduces the calls whose outcome is known: a bound call that returned, a
    [Result] that is [Ok], and arithmetic that stays within its width. *)
Create Rewrite HintDb rust.
#[export] Hint Rewrite @bind_Ret_l @try_Ok : rust.
#[export] Hint Rewrite add_Ret sub_Ret using lia : rust.
Ltac run := autorewrite with rust.
