(* ===== verification/Scheduler.v ===== *)
(** The unified scheduler's state machine, [unified-scheduler-logic/src/lib.rs]:
    per-address FIFO usage queues, tasks that lock them, and the operations that
    schedule, buffer and deschedule tasks. *)

From S2P Require Import Prelude.

(** * Internal utilities *)

Module ShortCounter.

(** A [u32] whose increment and decrement panic on overflow. *)
Definition t := Z.
Definition zero : t := 0.
Definition one : t := 1.
Definition is_one (c : t) : bool := c =? 1.
Definition is_zero (c : t) : bool := c =? 0.
Definition current (c : t) : Z := c.
Definition increment (c : t) : outcome t := unwrap (checked_add u32_MAX c 1).
Definition decrement (c : t) : outcome t := unwrap (checked_sub c 1).

Lemma increment_Ret c : c < u32_MAX → increment c = Ret (c + 1).
Proof. intros. apply add_Ret. lia. Qed.
Lemma decrement_Ret c : 0 < c → decrement c = Ret (c - 1).
Proof. intros. apply sub_Ret. lia. Qed.

End ShortCounter.

(** * Data *)

(** [Arc<TaskInner>] and [UsageQueue(Arc<TokenCell<..>>)] are shared pointers; a
    pointer is its address. *)
Abbreviation Task := Z (only parsing).
Abbreviation UsageQueue := Z (only parsing).

Inductive RequestedUsage := Readonly | Writable.

#[global] Instance RequestedUsage_eq_dec : EqDecision RequestedUsage.
Proof. solve_decision. Defined.

Inductive Usage :=
| UReadonly (count : ShortCounter.t)
| UWritable.

Definition Usage_from (requested_usage : RequestedUsage) : Usage :=
  match requested_usage with
  | Readonly => UReadonly ShortCounter.one
  | Writable => UWritable
  end.

Record LockContext := {
  usage_queue : UsageQueue;
  requested_usage : RequestedUsage;
}.

(** The immutable part of a task. Its [blocked_usage_count] is a [TokenCell]: its
    content is in the heap that the state machine's [count_token] owns. *)
Record TaskInner (Tx : Type) := {
  transaction : Tx;
  index : Z;
  lock_contexts : list LockContext;
}.
Arguments transaction {Tx} _.
Arguments index {Tx} _.
Arguments lock_contexts {Tx} _.

Abbreviation UsageFromTask := (RequestedUsage * Task)%type (only parsing).

Record UsageQueueInner := {
  current_usage : option Usage;
  blocked_usages_from_tasks : list UsageFromTask;
}.

Definition UsageQueueInner_default : UsageQueueInner :=
  {| current_usage := None; blocked_usages_from_tasks := [] |}.

(** The state machine. The two tokens are the only way to reach the cells, and
    semantically own them: [count_token] holds the content of every task's
    [blocked_usage_count] and [usage_queue_token] that of every usage queue. A
    cell nobody has written holds what it was created with. *)
Record SchedulingStateMachine := {
  unblocked_task_queue : list Task;
  active_task_count : ShortCounter.t;
  running_task_count : ShortCounter.t;
  max_running_task_count : Z;
  handled_task_count : ShortCounter.t;
  unblocked_task_count : ShortCounter.t;
  total_task_count : ShortCounter.t;
  count_token : gmap Task ShortCounter.t;
  usage_queue_token : gmap UsageQueue UsageQueueInner;
}.

Definition blocked_usage_count (st : SchedulingStateMachine) (t : Task) : ShortCounter.t :=
  default ShortCounter.zero (count_token st !! t).
Definition queue (st : SchedulingStateMachine) (q : UsageQueue) : UsageQueueInner :=
  default UsageQueueInner_default (usage_queue_token st !! q).

(** Assignments to the fields through [&mut self]. *)
Definition set_unblocked_task_queue v st :=
  {| unblocked_task_queue := v; active_task_count := active_task_count st;
     running_task_count := running_task_count st;
     max_running_task_count := max_running_task_count st;
     handled_task_count := handled_task_count st;
     unblocked_task_count := unblocked_task_count st;
     total_task_count := total_task_count st;
     count_token := count_token st; usage_queue_token := usage_queue_token st |}.

Definition set_counters a r h u t st :=
  {| unblocked_task_queue := unblocked_task_queue st; active_task_count := a;
     running_task_count := r; max_running_task_count := max_running_task_count st;
     handled_task_count := h; unblocked_task_count := u; total_task_count := t;
     count_token := count_token st; usage_queue_token := usage_queue_token st |}.

Definition set_active_task_count v st :=
  set_counters v (running_task_count st) (handled_task_count st)
    (unblocked_task_count st) (total_task_count st) st.
Definition set_running_task_count v st :=
  set_counters (active_task_count st) v (handled_task_count st)
    (unblocked_task_count st) (total_task_count st) st.
Definition set_handled_task_count v st :=
  set_counters (active_task_count st) (running_task_count st) v
    (unblocked_task_count st) (total_task_count st) st.
Definition set_unblocked_task_count v st :=
  set_counters (active_task_count st) (running_task_count st)
    (handled_task_count st) v (total_task_count st) st.
Definition set_total_task_count v st :=
  set_counters (active_task_count st) (running_task_count st)
    (handled_task_count st) (unblocked_task_count st) v st.

Definition set_cells (counts : gmap Task ShortCounter.t)
    (queues : gmap UsageQueue UsageQueueInner) st :=
  {| unblocked_task_queue := unblocked_task_queue st;
     active_task_count := active_task_count st;
     running_task_count := running_task_count st;
     max_running_task_count := max_running_task_count st;
     handled_task_count := handled_task_count st;
     unblocked_task_count := unblocked_task_count st;
     total_task_count := total_task_count st;
     count_token := counts; usage_queue_token := queues |}.

Definition set_queue (q : UsageQueue) (uq : UsageQueueInner) st :=
  set_cells (count_token st) (<[q := uq]> (usage_queue_token st)) st.
Definition set_blocked_usage_count (t : Task) (count : ShortCounter.t) st :=
  set_cells (<[t := count]> (count_token st)) (usage_queue_token st) st.

(** * Usage queues *)

Module UsageQueueOps.

Definition try_lock (requested : RequestedUsage) (uq : UsageQueueInner)
    : outcome (result unit unit * UsageQueueInner) :=
  new_usage ← match current_usage uq with
    | None => Ret (Some (Usage_from requested))
    | Some (UReadonly count) =>
        match requested with
        | Readonly => count' ← ShortCounter.increment count; Ret (Some (UReadonly count'))
        | Writable => Ret None
        end
    | Some UWritable => Ret None
    end;
  match new_usage with
  | Some u => Ret (Ok tt, {| current_usage := Some u;
                             blocked_usages_from_tasks := blocked_usages_from_tasks uq |})
  | None => Ret (Err tt, uq)
  end.

(** [VecDeque::pop_front] on the blocked usages. *)
Definition pop_front (uq : UsageQueueInner) : option UsageFromTask * UsageQueueInner :=
  match blocked_usages_from_tasks uq with
  | [] => (None, uq)
  | x :: l => (Some x, {| current_usage := current_usage uq; blocked_usages_from_tasks := l |})
  end.

Definition unlock (requested : RequestedUsage) (uq : UsageQueueInner)
    : outcome (option UsageFromTask * UsageQueueInner) :=
  '(is_unused_now, usage) ← match current_usage uq with
    | Some (UReadonly count) =>
        match requested with
        | Readonly =>
            if ShortCounter.is_one count then Ret (true, UReadonly count)
            else count' ← ShortCounter.decrement count; Ret (false, UReadonly count')
        | Writable => Panic
        end
    | Some UWritable =>
        match requested with
        | Writable => Ret (true, UWritable)
        | Readonly => Panic
        end
    | None => Panic
    end;
  if (is_unused_now : bool) then
    Ret (pop_front {| current_usage := None;
                      blocked_usages_from_tasks := blocked_usages_from_tasks uq |})
  else Ret (None, {| current_usage := Some usage;
                     blocked_usages_from_tasks := blocked_usages_from_tasks uq |}).

Definition push_blocked_usage_from_task (x : UsageFromTask) (uq : UsageQueueInner)
    : outcome UsageQueueInner :=
  assert_ (match current_usage uq with Some _ => true | None => false end) ;;
  Ret {| current_usage := current_usage uq;
         blocked_usages_from_tasks := blocked_usages_from_tasks uq ++ [x] |}.

Definition pop_unblocked_readonly_usage_from_task (uq : UsageQueueInner)
    : outcome (option UsageFromTask * UsageQueueInner) :=
  match blocked_usages_from_tasks uq with
  | (Readonly, _) :: _ =>
      assert_ (match current_usage uq with Some (UReadonly _) => true | _ => false end) ;;
      Ret (pop_front uq)
  | _ => Ret (None, uq)
  end.

Definition has_no_blocked_usage (uq : UsageQueueInner) : bool :=
  match blocked_usages_from_tasks uq with [] => true | _ => false end.

End UsageQueueOps.

(** * The state machine *)

Module Machine.
Import UsageQueueOps.

Definition has_no_running_task (st : SchedulingStateMachine) : bool :=
  ShortCounter.is_zero (running_task_count st).
Definition has_no_active_task (st : SchedulingStateMachine) : bool :=
  ShortCounter.is_zero (active_task_count st).
Definition has_unblocked_task (st : SchedulingStateMachine) : bool :=
  negb (match unblocked_task_queue st with [] => true | _ => false end).
Definition is_task_runnable (st : SchedulingStateMachine) : bool :=
  ShortCounter.current (running_task_count st) <? max_running_task_count st.
Definition has_runnable_task (st : SchedulingStateMachine) : bool :=
  has_unblocked_task st && is_task_runnable st.
Definition unblocked_task_queue_count (st : SchedulingStateMachine) : nat :=
  length (unblocked_task_queue st).

(** [TaskInner::try_unblock]: decrements the task's cell, and returns the task
    when nothing blocks it any more. *)
Definition try_unblock (t : Task) (st : SchedulingStateMachine)
    : outcome (option Task * SchedulingStateMachine) :=
  usage_count ← ShortCounter.decrement (blocked_usage_count st t);
  let st' := set_blocked_usage_count t usage_count st in
  Ret (if ShortCounter.is_zero usage_count then Some t else None, st').

(** [create_task]: one lock context per account key of the transaction. The
    transaction type is an external crate's; what is used of it is an argument. *)
Definition create_task {Tx} (account_keys : Tx → list Pubkey) (is_writable : Tx → nat → bool)
    (tx : Tx) (idx : Z) (usage_queue_loader : Pubkey → UsageQueue) : TaskInner Tx :=
  {| transaction := tx; index := idx;
     lock_contexts := imap (λ i address,
       {| usage_queue := usage_queue_loader address;
          requested_usage := if is_writable tx i then Writable else Readonly |})
       (account_keys tx) |}.

Definition exclusively_initialize_current_thread_for_scheduling
    (max_running : option Z) : outcome SchedulingStateMachine :=
  let m := default u32_MAX max_running in
  max_running_task_count ← unwrap (if m <=? u32_MAX then Some m else None);
  Ret {| unblocked_task_queue := [];
         active_task_count := ShortCounter.zero;
         running_task_count := ShortCounter.zero;
         max_running_task_count := max_running_task_count;
         handled_task_count := ShortCounter.zero;
         unblocked_task_count := ShortCounter.zero;
         total_task_count := ShortCounter.zero;
         count_token := ∅; usage_queue_token := ∅ |}.

Section machine.
(** What the shared pointers of tasks point to. *)
Context {Tx : Type} (deref : Task → TaskInner Tx).

(** One iteration of the [for] loop of [try_lock_usage_queues]. *)
Definition try_lock_usage_queue (t : Task) (context : LockContext)
    (s : ShortCounter.t * SchedulingStateMachine)
    : outcome (ShortCounter.t * SchedulingStateMachine) :=
  let '(blocked_usage_count, st) := s in
  let uq := queue st (usage_queue context) in
  '(lock_result, uq) ←
    (if has_no_blocked_usage uq then try_lock (requested_usage context) uq
     else Ret (Err tt, uq));
  match lock_result with
  | Err _ =>
      blocked_usage_count ← ShortCounter.increment blocked_usage_count;
      uq ← push_blocked_usage_from_task (requested_usage context, t) uq;
      Ret (blocked_usage_count, set_queue (usage_queue context) uq st)
  | Ok _ => Ret (blocked_usage_count, set_queue (usage_queue context) uq st)
  end.

Definition try_lock_usage_queues (t : Task) (st : SchedulingStateMachine)
    : outcome (option Task * SchedulingStateMachine) :=
  '(blocked_usage_count, st) ←
    for_each (try_lock_usage_queue t) (lock_contexts (deref t)) (ShortCounter.zero, st);
  if ShortCounter.is_zero blocked_usage_count then Ret (Some t, st)
  else Ret (None, set_blocked_usage_count t blocked_usage_count st).

(** The [while] loop of [unlock_usage_queues], on the queue [uq] that the closure
    borrows. Every turn removes an element of the blocked usages or ends. *)
Fixpoint unblock_loop (fuel : nat) (unblocked_task_from_queue : option UsageFromTask)
    (uq : UsageQueueInner) (st : SchedulingStateMachine)
    : outcome (UsageQueueInner * SchedulingStateMachine) :=
  match unblocked_task_from_queue with
  | None => Ret (uq, st)
  | Some (requested, task_with_unblocked_queue) =>
      match fuel with
      | O => OutOfFuel
      | S fuel =>
          '(unblocked, st) ← try_unblock task_with_unblocked_queue st;
          let st := match unblocked with
            | Some task =>
                set_unblocked_task_queue (unblocked_task_queue st ++ [task]) st
            | None => st
            end in
          '(lock_result, uq) ← try_lock requested uq;
          match lock_result with
          | Ok _ =>
              '(next, uq) ←
                (match requested with
                 | Readonly => pop_unblocked_readonly_usage_from_task uq
                 | Writable => Ret (None, uq)
                 end);
              unblock_loop fuel next uq st
          | Err _ => Panic
          end
      end
  end.

(** One iteration of the [for] loop of [unlock_usage_queues]. *)
Definition unlock_usage_queue (context : LockContext) (st : SchedulingStateMachine)
    : outcome SchedulingStateMachine :=
  let uq := queue st (usage_queue context) in
  '(unblocked_task_from_queue, uq) ← unlock (requested_usage context) uq;
  '(uq, st) ← unblock_loop (S (length (blocked_usages_from_tasks uq)))
                unblocked_task_from_queue uq st;
  Ret (set_queue (usage_queue context) uq st).

Definition unlock_usage_queues (t : Task) (st : SchedulingStateMachine)
    : outcome SchedulingStateMachine :=
  for_each unlock_usage_queue (lock_contexts (deref t)) st.

Definition schedule_or_buffer_task (t : Task) (force_buffering : bool)
    (st : SchedulingStateMachine) : outcome (option Task * SchedulingStateMachine) :=
  total ← ShortCounter.increment (total_task_count st);
  let st := set_total_task_count total st in
  active ← ShortCounter.increment (active_task_count st);
  let st := set_active_task_count active st in
  '(locked, st) ← try_lock_usage_queues t st;
  match locked with
  | None => Ret (None, st)
  | Some task =>
      if negb (is_task_runnable st) || force_buffering then
        unblocked ← ShortCounter.increment (unblocked_task_count st);
        let st := set_unblocked_task_count unblocked st in
        Ret (None, set_unblocked_task_queue (unblocked_task_queue st ++ [task]) st)
      else
        running ← ShortCounter.increment (running_task_count st);
        Ret (Some task, set_running_task_count running st)
  end.

Definition schedule_task (t : Task) (st : SchedulingStateMachine) :=
  schedule_or_buffer_task t false st.

Definition buffer_task (t : Task) (st : SchedulingStateMachine)
    : outcome SchedulingStateMachine :=
  '(r, st) ← schedule_or_buffer_task t true st;
  match r with None => Ret st | Some _ => Panic end.

Definition schedule_next_unblocked_task (st : SchedulingStateMachine)
    : outcome (option Task * SchedulingStateMachine) :=
  if negb (is_task_runnable st) then Ret (None, st)
  else match unblocked_task_queue st with
  | [] => Ret (None, st)
  | task :: rest =>
      let st := set_unblocked_task_queue rest st in
      running ← ShortCounter.increment (running_task_count st);
      let st := set_running_task_count running st in
      unblocked ← ShortCounter.increment (unblocked_task_count st);
      Ret (Some task, set_unblocked_task_count unblocked st)
  end.

Definition deschedule_task (t : Task) (st : SchedulingStateMachine)
    : outcome SchedulingStateMachine :=
  running ← ShortCounter.decrement (running_task_count st);
  let st := set_running_task_count running st in
  active ← ShortCounter.decrement (active_task_count st);
  let st := set_active_task_count active st in
  handled ← ShortCounter.increment (handled_task_count st);
  let st := set_handled_task_count handled st in
  unlock_usage_queues t st.

Definition reinitialize (st : SchedulingStateMachine) : outcome SchedulingStateMachine :=
  assert_ (has_no_active_task st) ;;
  assert_ (ShortCounter.current (running_task_count st) =? 0) ;;
  assert_ (length (unblocked_task_queue st) =? 0)%nat ;;
  Ret (set_counters ShortCounter.zero (running_task_count st) ShortCounter.zero
         ShortCounter.zero ShortCounter.zero st).

(** The [while] loop of [clear_and_reinitialize]. *)
Fixpoint clear_loop (fuel : nat) (count : ShortCounter.t) (st : SchedulingStateMachine)
    : outcome (ShortCounter.t * SchedulingStateMachine) :=
  '(next, st) ← schedule_next_unblocked_task st;
  match next with
  | None => Ret (count, st)
  | Some task =>
      match fuel with
      | O => OutOfFuel
      | S fuel =>
          st ← deschedule_task task st;
          count ← ShortCounter.increment count;
          clear_loop fuel count st
      end
  end.

(** The loop deschedules a different active task at every turn. *)
Definition clear_and_reinitialize (st : SchedulingStateMachine)
    : outcome (Z * SchedulingStateMachine) :=
  '(count, st) ← clear_loop (Z.to_nat (active_task_count st)) ShortCounter.zero st;
  st ← reinitialize st;
  Ret (ShortCounter.current count, st).

End machine.
End Machine.
