(* ===== verification/SchedulerSpec.v ===== *)
(** The abstract scheduler and the proof that [Scheduler] implements it.

    The abstract state is the list of active tasks in the order of arrival; the
    queue of an address is then the subsequence of the requests for it, of which
    a maximal compatible prefix holds the address and the rest waits. *)

From S2P Require Import Prelude Scheduler.
Import UsageQueueOps Machine.

(** * Holders and waiters of one address *)

Module Admission.

(** The readers at the front of a sequence of requests. *)
Fixpoint readers (l : list UsageFromTask) : list UsageFromTask :=
  match l with
  | (Readonly, t) :: l => (Readonly, t) :: readers l
  | _ => []
  end.

(** Who holds the address: the first request if it is a write, or all the reads
    before the first write. *)
Definition holders (l : list UsageFromTask) : list UsageFromTask :=
  match l with
  | (Writable, t) :: _ => [(Writable, t)]
  | _ => readers l
  end.

Definition waiting (l : list UsageFromTask) : list UsageFromTask :=
  drop (length (holders l)) l.

Definition usage_of (h : list UsageFromTask) : option Usage :=
  match h with
  | [] => None
  | (Writable, _) :: _ => Some UWritable
  | (Readonly, _) :: _ => Some (UReadonly (Z.of_nat (length h)))
  end.

(** The usage queue that a sequence of requests determines. *)
Definition canon (l : list UsageFromTask) : UsageQueueInner :=
  {| current_usage := usage_of (holders l); blocked_usages_from_tasks := waiting l |}.

Definition all_readers (l : list UsageFromTask) : Prop := Forall (λ x, x.1 = Readonly) l.

Lemma readers_all l : all_readers (readers l).
Proof. induction l as [|[[] t] l IH]; simpl; constructor; done. Qed.

Lemma readers_split l : readers l ++ drop (length (readers l)) l = l.
Proof. induction l as [|[[] t] l IH]; simpl; [done|by rewrite IH|done]. Qed.

Lemma holders_waiting l : holders l ++ waiting l = l.
Proof.
  unfold waiting. destruct l as [|[[] t] l]; [done| |done].
  apply (readers_split ((Readonly, t) :: l)).
Qed.

Lemma readers_app_all l l' : all_readers l → readers (l ++ l') = l ++ readers l'.
Proof. induction 1 as [|[u t] l Hx H IH]; simpl in *; [done|]. subst u. by rewrite IH. Qed.

Lemma readers_of_all l : all_readers l → readers l = l.
Proof. intros H. rewrite <-(app_nil_r l) at 1. rewrite readers_app_all by done. apply app_nil_r. Qed.

(** A request that arrives is admitted when the address is free or when only
    readers hold it, nobody waits, and it is a read. *)
Definition admitted (l : list UsageFromTask) (u : RequestedUsage) : Prop :=
  l = [] ∨ (all_readers l ∧ u = Readonly).

#[global] Instance admitted_dec l u : Decision (admitted l u).
Proof. unfold admitted, all_readers. apply _. Defined.

Lemma holders_all_readers l : all_readers l → holders l = l.
Proof.
  intros H. destruct l as [|[[] t] l]; [done|by apply readers_of_all|].
  inversion H; simpl in *; congruence.
Qed.

Lemma waiting_admitted l u t :
  admitted l u → holders (l ++ [(u, t)]) = l ++ [(u, t)] ∧ waiting (l ++ [(u, t)]) = [].
Proof.
  intros Hadm.
  assert (holders (l ++ [(u, t)]) = l ++ [(u, t)]) as Hh.
  { destruct Hadm as [->|[Hl ->]]; [by destruct u|].
    apply holders_all_readers. apply Forall_app. split; [done|by repeat constructor]. }
  split; [done|]. unfold waiting. rewrite Hh. apply drop_all.
Qed.

Lemma readers_snoc_w l t : readers (l ++ [(Writable, t)]) = readers l.
Proof. induction l as [|[[] ?] l IH]; simpl; [done|by rewrite IH|done]. Qed.

Lemma readers_snoc_not_all l x : ¬ all_readers l → readers (l ++ [x]) = readers l.
Proof.
  induction l as [|[[] ?] l IH]; intros Hn; simpl.
  - exfalso. apply Hn. constructor.
  - rewrite IH; [done|]. intros ?. apply Hn. by constructor.
  - done.
Qed.

Lemma waiting_not_admitted l u t :
  ¬ admitted l u →
  holders (l ++ [(u, t)]) = holders l ∧ waiting (l ++ [(u, t)]) = waiting l ++ [(u, t)].
Proof.
  intros Hadm.
  assert (holders (l ++ [(u, t)]) = holders l) as Hh.
  { destruct l as [|[[] t'] l]; [by destruct Hadm; left| |done].
    change (readers (((Readonly, t') :: l) ++ [(u, t)]) = readers ((Readonly, t') :: l)).
    destruct u; [|apply readers_snoc_w].
    apply readers_snoc_not_all. intros ?. apply Hadm. by right. }
  split; [done|]. unfold waiting. rewrite Hh. apply drop_app_le.
  rewrite <-(holders_waiting l) at 2. rewrite length_app. lia.
Qed.

Lemma all_readers_waiting l : all_readers l → waiting l = [].
Proof. intros H. unfold waiting. rewrite holders_all_readers by done. apply drop_all. Qed.

Lemma usage_of_readers l :
  all_readers l → l ≠ [] → usage_of l = Some (UReadonly (Z.of_nat (length l))).
Proof. destruct 1 as [|[u t] l Hu]; [done|]. simpl in Hu. by subst. Qed.

Lemma waiting_nil_cases l :
  waiting l = [] → l = [] ∨ all_readers l ∨ ∃ t, l = [(Writable, t)].
Proof.
  intros Hw. pose proof (holders_waiting l) as Hl. rewrite Hw, app_nil_r in Hl.
  destruct l as [|[[] t] l]; [by left| |].
  - right; left. rewrite <-Hl. apply readers_all.
  - right; right. exists t. done.
Qed.

(** What the queue of an address does with an arriving request. *)
Lemma canon_arrive l u t :
  Z.of_nat (length l) < u32_MAX →
  (if has_no_blocked_usage (canon l) then try_lock u (canon l) else Ret (Err tt, canon l))
    = (if decide (admitted l u)
       then Ret (Ok tt, canon (l ++ [(u, t)])) else Ret (Err tt, canon l)).
Proof.
  intros Hlen. unfold has_no_blocked_usage. simpl.
  destruct (waiting l) as [|y w] eqn:Hw; simpl.
  - case_decide as Hadm.
    + destruct (waiting_admitted l u t Hadm) as [Hh' Hw'].
      unfold try_lock, canon. rewrite Hh', Hw'. simpl.
      destruct Hadm as [->|[Hl ->]]; [by destruct u|].
      rewrite holders_all_readers by done.
      destruct (decide (l = [])) as [->|Hne]; [done|].
      rewrite (usage_of_readers l) by done.
      rewrite ShortCounter.increment_Ret by done. simpl. rewrite Hw.
      rewrite usage_of_readers; [|apply Forall_app; split; [done|by repeat constructor]|by destruct l].
      repeat f_equal. rewrite length_app. simpl. lia.
    + unfold try_lock. simpl.
      destruct (waiting_nil_cases l Hw) as [->|[Hl|[t' ->]]]; [|idtac|done].
      * destruct Hadm. by left.
      * destruct (decide (l = [])) as [->|Hne]; [destruct Hadm; by left|].
        rewrite holders_all_readers, usage_of_readers by done.
        destruct u; [|done]. destruct Hadm. by right.
  - case_decide as Hadm; [|done]. exfalso.
    destruct Hadm as [->|[Hl _]]; [done|].
    by rewrite all_readers_waiting in Hw.
Qed.

Lemma not_admitted_in_use l u : ¬ admitted l u → ∃ v, current_usage (canon l) = Some v.
Proof.
  intros Hadm. destruct l as [|[[] t] l]; simpl; [|by eauto..].
  destruct Hadm. by left.
Qed.

End Admission.

(** * Leaving an address *)

Module Release.
Import Admission.

(** One [try_unblock] of the loop, with the push of a task nothing blocks. *)
Definition unblock1 (t : Task) (st : SchedulingStateMachine) : SchedulingStateMachine :=
  let c := blocked_usage_count st t - 1 in
  let st := set_blocked_usage_count t c st in
  if c =? 0 then set_unblocked_task_queue (unblocked_task_queue st ++ [t]) st else st.

Definition unblock_all (l : list UsageFromTask) (st : SchedulingStateMachine) :=
  foldl (λ st x, unblock1 x.2 st) st l.

Lemma cell_unblock1 t t' st :
  blocked_usage_count (unblock1 t st) t' =
    if decide (t' = t) then blocked_usage_count st t - 1 else blocked_usage_count st t'.
Proof.
  unfold unblock1, blocked_usage_count. case_leb; simpl.
  all: rewrite lookup_insert; repeat case_decide; try congruence; done.
Qed.

(** One turn of the loop, on a task that is blocked. *)
Lemma unblock_loop_step fuel u t uq st :
  0 < blocked_usage_count st t →
  unblock_loop (S fuel) (Some (u, t)) uq st =
    ('(lock_result, uq) ← try_lock u uq;
     match lock_result with
     | Ok _ =>
         '(next, uq) ← (match u with
                        | Readonly => pop_unblocked_readonly_usage_from_task uq
                        | Writable => Ret (None, uq)
                        end);
         unblock_loop fuel next uq (unblock1 t st)
     | Err _ => Panic
     end).
Proof.
  intros. simpl. unfold try_unblock. rewrite ShortCounter.decrement_Ret by done. simpl.
  unfold unblock1, ShortCounter.is_zero. by case_leb.
Qed.

(** The fields that unblocking a task leaves alone. *)
Record same_machine (st st' : SchedulingStateMachine) : Prop := {
  same_active : active_task_count st' = active_task_count st;
  same_running : running_task_count st' = running_task_count st;
  same_max : max_running_task_count st' = max_running_task_count st;
  same_handled : handled_task_count st' = handled_task_count st;
  same_unblocked : unblocked_task_count st' = unblocked_task_count st;
  same_total : total_task_count st' = total_task_count st;
}.

#[global] Instance same_machine_preorder : PreOrder same_machine.
Proof.
  split; [by constructor|]. intros st1 st2 st3 [] []. constructor; congruence.
Qed.

Lemma same_machine_unblock1 t st :
  same_machine st (unblock1 t st) ∧ usage_queue_token (unblock1 t st) = usage_queue_token st.
Proof. unfold unblock1. by case_leb. Qed.

Lemma unblock_all_spec l st :
  NoDup l.*2 →
  same_machine st (unblock_all l st) ∧
  usage_queue_token (unblock_all l st) = usage_queue_token st ∧
  (∀ t, blocked_usage_count (unblock_all l st) t =
     if decide (t ∈ l.*2) then blocked_usage_count st t - 1 else blocked_usage_count st t) ∧
  unblocked_task_queue (unblock_all l st) =
    unblocked_task_queue st ++ filter (λ t, blocked_usage_count st t = 1) l.*2.
Proof.
  revert st. induction l as [|[u t] l IH]; intros st Hnd.
  { split_and!; [done..|by rewrite app_nil_r]. }
  change (unblock_all ((u, t) :: l) st) with (unblock_all l (unblock1 t st)).
  simpl in *. apply NoDup_cons in Hnd as [Ht Hnd].
  destruct (IH (unblock1 t st) Hnd) as (Hs & Hq & Hc & Hu).
  destruct (same_machine_unblock1 t st) as [Hs1 Hq1].
  split_and!; [by etransitivity|by rewrite Hq| |].
  - intros t'. rewrite Hc, cell_unblock1.
    destruct (decide (t' = t)) as [->|Hne].
    + rewrite decide_False by done. rewrite decide_True by (constructor; done). done.
    + destruct (decide (t' ∈ l.*2)).
      * rewrite decide_True by (by constructor). done.
      * rewrite decide_False; [done|]. by intros [?|?]%elem_of_cons.
  - rewrite Hu.
    assert (filter (λ t', blocked_usage_count (unblock1 t st) t' = 1) l.*2 =
            filter (λ t', blocked_usage_count st t' = 1) l.*2) as ->.
    { apply list_filter_ext_in. intros t' Ht'.
      rewrite cell_unblock1. rewrite decide_False; [done|]. by intros ->. }
    unfold unblock1. rewrite filter_cons.
    destruct (Z.eqb_spec (blocked_usage_count st t - 1) 0); simpl.
    + rewrite decide_True by lia. by rewrite <-app_assoc.
    + by rewrite decide_False by lia.
Qed.

(** The queue while readers are being admitted: [k] of them hold it. *)
Definition readers_queue (k : Z) (l : list UsageFromTask) : UsageQueueInner :=
  {| current_usage := if k =? 0 then None else Some (UReadonly k);
     blocked_usages_from_tasks := l |}.

Lemma try_lock_readers_queue k l :
  0 ≤ k < u32_MAX →
  try_lock Readonly (readers_queue k l) = Ret (Ok tt, readers_queue (k + 1) l).
Proof.
  intros. unfold try_lock, readers_queue. simpl.
  destruct (Z.eqb_spec k 0) as [->|]; [done|].
  rewrite ShortCounter.increment_Ret by lia. simpl.
  destruct (Z.eqb_spec (k + 1) 0); [lia|done].
Qed.

Lemma pop_readers_queue k l :
  0 < k →
  pop_unblocked_readonly_usage_from_task (readers_queue k l) =
    Ret (match l with
         | (Readonly, t) :: l => (Some (Readonly, t), readers_queue k l)
         | _ => (None, readers_queue k l)
         end).
Proof.
  intros. unfold pop_unblocked_readonly_usage_from_task, readers_queue. simpl.
  destruct l as [|[[] t] l]; simpl; [done| |done].
  destruct (Z.eqb_spec k 0); [lia|done].
Qed.

Lemma unblock_loop_readers l fuel k t st :
  (length l < fuel)%nat →
  0 ≤ k → k + Z.of_nat (length l) < u32_MAX →
  NoDup (t :: l.*2) →
  (∀ t', t' ∈ t :: (readers l).*2 → 0 < blocked_usage_count st t') →
  unblock_loop fuel (Some (Readonly, t)) (readers_queue k l) st =
    Ret (readers_queue (k + 1 + Z.of_nat (length (readers l))) (drop (length (readers l)) l),
         unblock_all ((Readonly, t) :: readers l) st).
Proof.
  revert fuel k t st. induction l as [|[u t1] l IH]; intros fuel k t st Hf Hk Hlt Hnd Hpos.
  all: destruct fuel as [|fuel]; [simpl in Hf; lia|].
  all: rewrite unblock_loop_step by (apply Hpos; constructor).
  all: rewrite try_lock_readers_queue by (simpl in Hlt; lia); simpl.
  { destruct fuel; simpl; do 3 f_equal; lia. }
  rewrite pop_readers_queue by lia.
  destruct u; simpl in *.
  - apply NoDup_cons in Hnd as [Hn1 Hnd2].
    rewrite IH; [|lia..|done|].
    + do 3 f_equal. lia.
    + intros t' Ht'. rewrite cell_unblock1. rewrite decide_False.
      * apply Hpos. by right.
      * intros ->. apply Hn1. apply elem_of_cons in Ht' as [->|Ht']; [constructor|].
        right. rewrite <-(readers_split l), fmap_app. apply elem_of_app. by left.
  - destruct fuel; simpl; do 3 f_equal; lia.
Qed.

(** Draining a free queue: the requests that become holders are unblocked. *)
Lemma unblock_loop_free l fuel st :
  (length l ≤ fuel)%nat →
  Z.of_nat (length l) ≤ u32_MAX →
  NoDup l.*2 →
  (∀ t, t ∈ (holders l).*2 → 0 < blocked_usage_count st t) →
  (let '(x, uq) := pop_front {| current_usage := None; blocked_usages_from_tasks := l |} in
   unblock_loop fuel x uq st) = Ret (canon l, unblock_all (holders l) st).
Proof.
  intros Hf Hlt Hnd Hpos. destruct l as [|[u t] l]; simpl.
  { by destruct fuel. }
  destruct u.
  - change {| current_usage := None; blocked_usages_from_tasks := l |} with (readers_queue 0 l).
    simpl in *. rewrite unblock_loop_readers; [|lia..|done|done].
    unfold canon. simpl. do 2 f_equal. unfold readers_queue.
    destruct (Z.eqb_spec (0 + 1 + Z.of_nat (length (readers l))) 0); [lia|].
    f_equal. do 2 f_equal. lia.
  - destruct fuel as [|fuel]; [simpl in Hf; lia|].
    rewrite unblock_loop_step by (apply Hpos; constructor). simpl. by destruct fuel.
Qed.

(** The sequence without the request of a task that leaves. *)
Definition leave (t : Task) (l : list UsageFromTask) : list UsageFromTask :=
  filter (λ x, x.2 ≠ t) l.

Lemma leave_not_in t l : t ∉ l.*2 → leave t l = l.
Proof.
  intros H. apply list_filter_all_in. intros x Hx Heq.
  apply H. rewrite <-Heq. by apply list_elem_of_fmap_2.
Qed.

Lemma leave_split t u l1 l2 :
  NoDup (l1 ++ (u, t) :: l2).*2 → leave t (l1 ++ (u, t) :: l2) = l1 ++ l2.
Proof.
  intros Hnd. rewrite fmap_app in Hnd. simpl in Hnd.
  apply NoDup_app in Hnd as (_ & Hd & Hnd2). apply NoDup_cons in Hnd2 as [H2 _].
  unfold leave. rewrite filter_app, filter_cons, decide_False by (simpl; tauto).
  f_equal; apply leave_not_in; [|done].
  intros H1. apply (Hd t H1). constructor.
Qed.

Lemma readers_after l : readers (drop (length (readers l)) l) = [].
Proof. induction l as [|[[] t] l IH]; done. Qed.

Lemma holders_readers_app r w :
  all_readers r → r ≠ [] → readers w = [] → holders (r ++ w) = r ∧ waiting (r ++ w) = w.
Proof.
  intros Hr Hne Hw.
  assert (holders (r ++ w) = r) as Hh.
  { transitivity (readers (r ++ w)); [destruct Hr as [|[] ? Hx]; [done|]; simpl in Hx; by subst|].
    rewrite readers_app_all, Hw by done. apply app_nil_r. }
  split; [done|]. unfold waiting. rewrite Hh. apply drop_app_length.
Qed.

(** What remains when the last holder leaves is a free queue to drain. *)
Lemma drain_spec w st :
  Z.of_nat (length w) ≤ u32_MAX →
  NoDup w.*2 →
  (∀ t', t' ∈ w.*2 → 0 < blocked_usage_count st t') →
  (let '(x, uq) := pop_front {| current_usage := None; blocked_usages_from_tasks := w |} in
   unblock_loop (S (length (blocked_usages_from_tasks uq))) x uq st)
    = Ret (canon w, unblock_all (holders w) st).
Proof.
  intros Hlen Hnd Hpos. rewrite <-(unblock_loop_free w (S (length w - 1)) st); [|lia|lia|done|].
  - destruct w as [|x w]; simpl; [done|]. by rewrite Nat.sub_0_r.
  - intros t' Ht'. apply Hpos. rewrite <-(holders_waiting w), fmap_app.
    apply elem_of_app. by left.
Qed.

Lemma holder_writer l t : (Writable, t) ∈ holders l → ∃ w, l = (Writable, t) :: w.
Proof.
  destruct l as [|[[] t'] w]; simpl; intros Hin.
  - by apply elem_of_nil in Hin.
  - pose proof (readers_all ((Readonly, t') :: w)) as Hall. unfold all_readers in Hall.
    rewrite Forall_forall in Hall. by apply Hall in Hin.
  - apply list_elem_of_singleton in Hin as [= ->]. by exists w.
Qed.

Lemma holder_reader l t :
  (Readonly, t) ∈ holders l →
  all_readers (holders l) ∧ readers (waiting l) = [] ∧
  ∃ r1 r2, holders l = r1 ++ (Readonly, t) :: r2.
Proof.
  intros Hin. assert (holders l = readers l) as Hhr.
  { destruct l as [|[[] ?] ?]; [done..|]. simpl in Hin. by apply list_elem_of_singleton in Hin. }
  unfold waiting. rewrite Hhr in *.
  split_and!; [apply readers_all|apply readers_after|by apply list_elem_of_split].
Qed.

(** Releasing an address that a task holds: the queue becomes the one of the
    remaining requests, and the requests that this admits are unblocked. *)
Definition released (l : list UsageFromTask) (u : RequestedUsage) (t : Task)
    (st : SchedulingStateMachine) : Prop :=
  ∃ N, waiting l = N ++ waiting (leave t l) ∧
    ('(x, uq) ← unlock u (canon l);
     unblock_loop (S (length (blocked_usages_from_tasks uq))) x uq st)
      = Ret (canon (leave t l), unblock_all N st).

Lemma release_reader l t st :
  (Readonly, t) ∈ holders l → NoDup l.*2 → Z.of_nat (length l) ≤ u32_MAX →
  (∀ t', t' ∈ (waiting l).*2 → 0 < blocked_usage_count st t') →
  released l Readonly t st.
Proof.
  intros Hin Hnd Hlen Hpos. pose proof (holders_waiting l) as Hl.
  destruct (holder_reader l t Hin) as (Hall & Hafter & r1 & r2 & Hr).
  assert (leave t l = r1 ++ r2 ++ waiting l) as Hleave.
  { rewrite <-Hl at 1. rewrite Hr, <-app_assoc. simpl.
    rewrite leave_split; [done|]. by rewrite app_comm_cons, app_assoc, <-Hr, Hl. }
  assert (current_usage (canon l) = Some (UReadonly (Z.of_nat (length (holders l))))) as Hcu.
  { simpl. apply usage_of_readers; [done|]. rewrite Hr. by destruct r1. }
  unfold released, unlock. rewrite Hcu. unfold ShortCounter.is_one.
  assert (length (holders l) = S (length (r1 ++ r2))) as Hlen'.
  { rewrite Hr, !length_app. simpl. lia. }
  destruct (decide (r1 ++ r2 = [])) as [He|Hne].
  - rewrite He in Hlen'. rewrite Hlen'. simpl. rewrite app_assoc, He in Hleave.
    exists (holders (waiting l)). rewrite Hleave. split; [by rewrite holders_waiting|].
    rewrite <-Hl, length_app in Hlen. rewrite <-Hl, fmap_app in Hnd.
    apply NoDup_app in Hnd as (_ & _ & Hnd). rewrite <-drain_spec; [done|lia|done|done].
  - assert (all_readers (r1 ++ r2)) as Hall2.
    { rewrite Hr in Hall. apply Forall_app in Hall as [? Hall].
      apply Forall_cons in Hall as [? ?]. by apply Forall_app. }
    destruct (holders_readers_app (r1 ++ r2) (waiting l)) as [Hh' Hw']; [done..|].
    exists []. rewrite Hleave, app_assoc, Hw'. split; [done|].
    assert (0 < Z.of_nat (length (r1 ++ r2))) by (destruct (r1 ++ r2); simpl; [done|lia]).
    destruct (Z.eqb_spec (Z.of_nat (length (holders l))) 1); [lia|].
    rewrite ShortCounter.decrement_Ret by lia. simpl.
    unfold canon. rewrite Hh', Hw', (usage_of_readers (r1 ++ r2)) by done.
    do 5 f_equal. lia.
Qed.

Lemma release_writer l t st :
  (Writable, t) ∈ holders l → NoDup l.*2 → Z.of_nat (length l) ≤ u32_MAX →
  (∀ t', t' ∈ (waiting l).*2 → 0 < blocked_usage_count st t') →
  released l Writable t st.
Proof.
  intros Hin Hnd Hlen Hpos. destruct (holder_writer l t Hin) as [w ->].
  assert (leave t ((Writable, t) :: w) = w) as Hleave by by apply (leave_split t Writable []).
  exists (holders w). rewrite Hleave. split; [by rewrite holders_waiting|].
  simpl in *. apply NoDup_cons in Hnd as [_ Hnd]. rewrite <-drain_spec; [done|lia|done|done].
Qed.

Lemma release_spec l u t st :
  (u, t) ∈ holders l → NoDup l.*2 → Z.of_nat (length l) ≤ u32_MAX →
  (∀ t', t' ∈ (waiting l).*2 → 0 < blocked_usage_count st t') →
  released l u t st.
Proof. destruct u; [apply release_reader|apply release_writer]. Qed.

End Release.
