(* ===== verification/SchedulerInv.v ===== *)
(** The invariant that relates the scheduler's state machine to the abstract
    scheduler, and its preservation by every operation of the machine. *)

From S2P Require Import Prelude Scheduler SchedulerSpec.
Import UsageQueueOps Machine Admission Release.

Section invariant.
Context {Tx : Type} (deref : Task → TaskInner Tx).

Definition contexts (t : Task) : list LockContext := lock_contexts (deref t).

(** The tasks that [validate_account_locks] lets through: no address twice. *)
Definition valid_task (t : Task) : Prop :=
  NoDup (usage_queue <$> contexts t) ∧ Z.of_nat (length (contexts t)) ≤ u32_MAX.

(** The requests of a task for an address, from some of its lock contexts. *)
Definition reqs (cs : list LockContext) (q : UsageQueue) (t : Task) : list UsageFromTask :=
  (λ c, (requested_usage c, t)) <$> filter (λ c, usage_queue c = q) cs.

(** The requests for an address of the active tasks, in order of arrival. *)
Definition requests (A : list Task) (q : UsageQueue) : list UsageFromTask :=
  A ≫= λ t, reqs (contexts t) q t.

(** How many addresses a task waits for. *)
Definition wcount (R : UsageQueue → list UsageFromTask) (t : Task) : Z :=
  Z.of_nat (length (filter (λ c, t ∈ (waiting (R (usage_queue c))).*2) (contexts t))).

(** ** Requests *)

Lemma reqs_snd cs q t x : x ∈ reqs cs q t → x.2 = t.
Proof. unfold reqs. intros (c & -> & _)%list_elem_of_fmap. done. Qed.

Lemma reqs_app cs cs' q t : reqs (cs ++ cs') q t = reqs cs q t ++ reqs cs' q t.
Proof. unfold reqs. by rewrite filter_app, fmap_app. Qed.

Lemma reqs_none cs q t : q ∉ usage_queue <$> cs → reqs cs q t = [].
Proof.
  intros Hq. unfold reqs. rewrite list_filter_none_in; [done|].
  intros c Hc <-. apply Hq. by apply list_elem_of_fmap_2.
Qed.

Lemma reqs_one cs c t :
  NoDup (usage_queue <$> cs) → c ∈ cs →
  reqs cs (usage_queue c) t = [(requested_usage c, t)].
Proof.
  intros Hnd (l1 & l2 & ->)%list_elem_of_split.
  rewrite fmap_app in Hnd. simpl in Hnd. apply NoDup_app in Hnd as (_ & H1 & Hnd).
  apply NoDup_cons in Hnd as [H2 _].
  rewrite reqs_app, reqs_none by (intros ?; eapply H1; [done|constructor]).
  change (c :: l2) with ([c] ++ l2). rewrite reqs_app, (reqs_none l2) by done.
  unfold reqs. rewrite filter_cons, decide_True by done. done.
Qed.

Lemma elem_of_requests A q u t :
  (u, t) ∈ requests A q ↔
  t ∈ A ∧ ∃ c, c ∈ contexts t ∧ usage_queue c = q ∧ requested_usage c = u.
Proof.
  unfold requests, reqs. rewrite list_elem_of_bind. split.
  - intros (t' & (c & Hc & Hin)%list_elem_of_fmap & Ht'). simplify_eq.
    apply list_elem_of_filter in Hin as [<- Hin]. split; [done|]. by exists c.
  - intros (Ht & c & Hc & <- & <-). exists t. split; [|done].
    apply list_elem_of_fmap. exists c. split; [done|]. by apply list_elem_of_filter.
Qed.

Lemma requests_in A q t : t ∈ (requests A q).*2 → t ∈ A.
Proof. intros ([u t'] & -> & Hin)%list_elem_of_fmap. by apply elem_of_requests in Hin as [? _]. Qed.

Lemma requests_app A A' q : requests (A ++ A') q = requests A q ++ requests A' q.
Proof. apply bind_app. Qed.

Lemma requests_cons t A q : requests (t :: A) q = reqs (contexts t) q t ++ requests A q.
Proof. done. Qed.

Lemma requests_snoc A t q : requests (A ++ [t]) q = requests A q ++ reqs (contexts t) q t.
Proof. rewrite requests_app. unfold requests at 2. simpl. by rewrite app_nil_r. Qed.

Lemma reqs_le1 t q : valid_task t → (length (reqs (contexts t) q t) ≤ 1)%nat.
Proof.
  intros [Hnd _]. destruct (decide (q ∈ usage_queue <$> contexts t)) as [Hq|Hq].
  - apply list_elem_of_fmap in Hq as (c & -> & Hc). by rewrite reqs_one.
  - rewrite reqs_none by done. simpl. lia.
Qed.

Lemma length_requests A q :
  Forall valid_task A → (length (requests A q) ≤ length A)%nat.
Proof.
  induction 1 as [|t A Ht HA IH]; [done|].
  rewrite requests_cons, length_app. simpl. pose proof (reqs_le1 t q Ht). lia.
Qed.

Lemma NoDup_requests A q : NoDup A → Forall valid_task A → NoDup (requests A q).*2.
Proof.
  intros Hnd HA. induction Hnd as [|t A Ht Hnd IH]; [constructor|].
  apply Forall_cons in HA as [Hv HA]. rewrite requests_cons, fmap_app.
  apply NoDup_app. split_and!.
  - pose proof (reqs_le1 t q Hv). destruct (reqs (contexts t) q t) as [|x [|y l]]; simpl in *;
      [constructor|apply NoDup_singleton|lia].
  - intros t' (x & -> & Hx%reqs_snd)%list_elem_of_fmap Hin%requests_in. by rewrite Hx in Hin.
  - by apply IH.
Qed.

Lemma leave_requests A q t : leave t (requests A q) = requests (filter (λ t', t' ≠ t) A) q.
Proof.
  unfold leave. induction A as [|t' A IH]; [done|].
  rewrite requests_cons, filter_app, IH, filter_cons.
  case_decide as Ht.
  - rewrite requests_cons. f_equal. apply list_filter_all_in. intros x ->%reqs_snd. done.
  - rewrite list_filter_none_in; [done|]. intros x ->%reqs_snd. tauto.
Qed.

(** ** Waiting counts *)

Lemma wcount_ext R R' t :
  (∀ c, c ∈ contexts t →
     t ∈ (waiting (R (usage_queue c))).*2 ↔ t ∈ (waiting (R' (usage_queue c))).*2) →
  wcount R t = wcount R' t.
Proof. intros H. unfold wcount. do 2 f_equal. by apply list_filter_ext_in. Qed.

Lemma wcount_nonneg R t : 0 ≤ wcount R t.
Proof. unfold wcount. lia. Qed.

Lemma wcount_zero R t c :
  wcount R t = 0 → c ∈ contexts t → t ∉ (waiting (R (usage_queue c))).*2.
Proof.
  unfold wcount. intros H0 Hc Hin.
  assert (c ∈ filter (λ c, t ∈ (waiting (R (usage_queue c))).*2) (contexts t)) as Hf
    by by apply list_elem_of_filter.
  destruct (filter _ _); [by apply elem_of_nil in Hf|simpl in H0; lia].
Qed.

Lemma wcount_pos R t c :
  c ∈ contexts t → t ∈ (waiting (R (usage_queue c))).*2 → 0 < wcount R t.
Proof.
  intros Hc Hin. pose proof (wcount_nonneg R t).
  destruct (decide (wcount R t = 0)) as [H0|]; [|lia].
  by apply (wcount_zero R t c H0 Hc) in Hin.
Qed.

(** One address of a task stops blocking it. *)
Lemma wcount_dec R R' t c :
  valid_task t → c ∈ contexts t →
  (∀ q, q ≠ usage_queue c → R' q = R q) →
  t ∈ (waiting (R (usage_queue c))).*2 →
  t ∉ (waiting (R' (usage_queue c))).*2 →
  wcount R' t = wcount R t - 1.
Proof.
  intros [Hnd _] Hc Hne H1 H2. unfold wcount.
  apply list_elem_of_split in Hc as (l1 & l2 & Hcs). rewrite Hcs in *.
  rewrite fmap_app in Hnd. simpl in Hnd. apply NoDup_app in Hnd as (_ & Hd & Hnd).
  apply NoDup_cons in Hnd as [Hd2 _].
  rewrite !filter_app, !filter_cons, (decide_False (P := _ ∈ (waiting (R' _)).*2)) by done.
  rewrite decide_True by done. rewrite !length_app. simpl.
  rewrite !(list_filter_ext_in (λ c0, t ∈ (waiting (R' (usage_queue c0))).*2)
              (λ c0, t ∈ (waiting (R (usage_queue c0))).*2)).
  - lia.
  - intros c' Hc'. rewrite Hne; [done|]. intros E. apply Hd2. rewrite <-E.
    by apply list_elem_of_fmap_2.
  - intros c' Hc'. rewrite Hne; [done|]. intros E.
    apply (Hd (usage_queue c')); [by apply list_elem_of_fmap_2|rewrite E; constructor].
Qed.

(** A task that is not active waits for nothing. *)
Lemma wcount_inactive A t : t ∉ A → wcount (requests A) t = 0.
Proof.
  intros Ht. unfold wcount. rewrite list_filter_none_in; [done|].
  intros c _ Hin. apply Ht. apply (requests_in A (usage_queue c)).
  rewrite <-(holders_waiting (requests _ _)), fmap_app. apply elem_of_app. by right.
Qed.

(** ** The invariant *)

(** [A] are the active tasks in order of arrival, [running] those the machine has
    handed out and that are not descheduled yet. *)
Record Inv (A running : list Task) (st : SchedulingStateMachine) : Prop := {
  inv_nodup : NoDup A;
  inv_valid : Forall valid_task A;
  inv_queue : ∀ q, queue st q = canon (requests A q);
  inv_cell : ∀ t, blocked_usage_count st t = wcount (requests A) t;
  inv_ready :
    unblocked_task_queue st ++ running ≡ₚ filter (λ t, wcount (requests A) t = 0) A;
  inv_active : active_task_count st = Z.of_nat (length A);
  inv_running : running_task_count st = Z.of_nat (length running);
  inv_max : Z.of_nat (length running) ≤ max_running_task_count st ≤ u32_MAX;
  inv_handled : handled_task_count st + active_task_count st = total_task_count st;
  inv_handled_pos : 0 ≤ handled_task_count st;
  inv_unblocked :
    0 ≤ unblocked_task_count st ∧
    unblocked_task_count st + Z.of_nat (length A) - Z.of_nat (length running)
      ≤ 2 * total_task_count st;
  inv_total : 2 * total_task_count st ≤ u32_MAX;
}.

Lemma Inv_running_ready A running st t :
  Inv A running st → t ∈ running → t ∈ A ∧ wcount (requests A) t = 0.
Proof.
  intros HI Ht.
  assert (t ∈ filter (λ t, wcount (requests A) t = 0) A) as Hf.
  { rewrite <-(inv_ready _ _ _ HI). apply elem_of_app. by right. }
  by apply list_elem_of_filter in Hf as [? ?].
Qed.

Lemma Inv_length_ready A running st :
  Inv A running st → (length (unblocked_task_queue st) + length running ≤ length A)%nat.
Proof.
  intros HI. rewrite <-length_app, (Permutation_length (inv_ready _ _ _ HI)).
  apply length_filter.
Qed.

Lemma Inv_NoDup_ready A running st :
  Inv A running st → NoDup (unblocked_task_queue st ++ running).
Proof. intros HI. rewrite (inv_ready _ _ _ HI). apply NoDup_filter, HI. Qed.

(** A task that is ready holds every address it requests. *)
Lemma ready_holds A t c :
  t ∈ A → wcount (requests A) t = 0 → c ∈ contexts t →
  (requested_usage c, t) ∈ holders (requests A (usage_queue c)).
Proof.
  intros Ht H0 Hc.
  assert ((requested_usage c, t) ∈ requests A (usage_queue c)) as Hin
    by (apply elem_of_requests; eauto).
  rewrite <-(holders_waiting (requests A _)) in Hin. apply elem_of_app in Hin as [?|Hw]; [done|].
  exfalso. apply (wcount_zero _ _ _ H0 Hc). apply list_elem_of_fmap. by exists (requested_usage c, t).
Qed.

(** ** Locking the addresses of a task *)

Lemma queue_set_queue st q uq q' :
  queue (set_queue q uq st) q' = if decide (q' = q) then uq else queue st q'.
Proof.
  unfold queue. simpl. rewrite lookup_insert. repeat case_decide; simplify_eq; done.
Qed.

Lemma waiting_snoc_other l u t t' :
  t' ≠ t → t' ∈ (waiting (l ++ [(u, t)])).*2 ↔ t' ∈ (waiting l).*2.
Proof.
  intros Hne. destruct (decide (admitted l u)) as [Ha|Ha].
  - destruct (waiting_admitted l u t Ha) as [_ ->].
    destruct Ha as [->|[Hl _]]; [done|]. by rewrite all_readers_waiting.
  - destruct (waiting_not_admitted l u t Ha) as [_ ->].
    rewrite fmap_app, elem_of_app. simpl. rewrite list_elem_of_singleton. tauto.
Qed.

Lemma waiting_snoc_self l u t :
  t ∉ l.*2 → t ∈ (waiting (l ++ [(u, t)])).*2 ↔ ¬ admitted l u.
Proof.
  intros Hnt. destruct (decide (admitted l u)) as [Ha|Ha].
  - destruct (waiting_admitted l u t Ha) as [_ ->]. simpl. rewrite elem_of_nil. tauto.
  - destruct (waiting_not_admitted l u t Ha) as [_ ->].
    rewrite fmap_app, elem_of_app. simpl. rewrite list_elem_of_singleton. tauto.
Qed.

(** The state after the contexts [ds] of an arriving task have been handled. *)
Record locking (A : list Task) (t : Task) (st0 : SchedulingStateMachine)
    (ds : list LockContext) (s : ShortCounter.t * SchedulingStateMachine) : Prop := {
  lk_same : same_machine st0 s.2;
  lk_ready : unblocked_task_queue s.2 = unblocked_task_queue st0;
  lk_cells : count_token s.2 = count_token st0;
  lk_queue : ∀ q, queue s.2 q = canon (requests A q ++ reqs ds q t);
  lk_count : s.1 = Z.of_nat (length (filter (λ c,
    ¬ admitted (requests A (usage_queue c)) (requested_usage c)) ds));
}.

Lemma locking_step A t st0 ds c todo s :
  t ∉ A → valid_task t → Forall valid_task A → Z.of_nat (length A) < u32_MAX →
  contexts t = ds ++ c :: todo → locking A t st0 ds s →
  ∃ s', try_lock_usage_queue t c s = Ret s' ∧ locking A t st0 (ds ++ [c]) s'.
Proof.
  intros Ht [Hnd Hlenc] HA Hlen Hcs [Hsame Hready Hcells Hqueue Hcount].
  destruct s as [n st]. simpl in *.
  rewrite Hcs in Hnd, Hlenc. rewrite fmap_app in Hnd. simpl in Hnd.
  apply NoDup_app in Hnd as (_ & Hd & _).
  assert (reqs ds (usage_queue c) t = []) as Hreqs.
  { apply reqs_none. intros ?. eapply Hd; [done|constructor]. }
  pose proof (Hqueue (usage_queue c)) as Hq. rewrite Hreqs, app_nil_r in Hq.
  set (l := requests A (usage_queue c)) in *.
  assert (Z.of_nat (length l) < u32_MAX) as Hl
    by (pose proof (length_requests A (usage_queue c) HA : (length l ≤ _)%nat); lia).
  assert (∀ st' uq, usage_queue_token st' = usage_queue_token st →
    uq = canon (l ++ [(requested_usage c, t)]) →
    ∀ q, queue (set_queue (usage_queue c) uq st') q = canon (requests A q ++ reqs (ds ++ [c]) q t))
    as Hnew.
  { intros st' uq Htok -> q. rewrite queue_set_queue, reqs_app. unfold reqs at 2.
    rewrite filter_cons, filter_nil. case_decide as Hqc.
    - subst q. rewrite decide_True by done. by rewrite Hreqs.
    - rewrite decide_False by done. simpl. rewrite app_nil_r, <-Hqueue. unfold queue.
      by rewrite Htok. }
  rewrite Hq, (canon_arrive l (requested_usage c) t Hl). case_decide as Ha; simpl.
  - eexists. split; [done|].
    constructor; simpl; [by etransitivity|done|done|by apply Hnew|].
    rewrite filter_app, filter_cons, decide_False by tauto. by rewrite app_nil_r.
  - rewrite ShortCounter.increment_Ret.
    2: { rewrite length_app in Hlenc. simpl in Hlenc.
         pose proof (length_filter (λ c, ¬ admitted (requests A (usage_queue c)) (requested_usage c)) ds).
         lia. }
    simpl. unfold push_blocked_usage_from_task.
    destruct (not_admitted_in_use l _ Ha) as [v Hv]. rewrite Hv. simpl.
    destruct (waiting_not_admitted l (requested_usage c) t Ha) as [Hh' Hw'].
    eexists. split; [done|].
    constructor; simpl; [by etransitivity|done|done| |].
    + apply Hnew; [done|]. unfold canon. rewrite Hh', Hw'. f_equal. done.
    + rewrite filter_app, filter_cons, decide_True by done. rewrite length_app. simpl. lia.
Qed.

Lemma try_lock_usage_queues_spec A t st :
  t ∉ A → valid_task t → Forall valid_task A → Z.of_nat (length A) < u32_MAX →
  (∀ q, queue st q = canon (requests A q)) →
  blocked_usage_count st t = 0 →
  ∃ st', try_lock_usage_queues deref t st =
      Ret (if decide (wcount (requests (A ++ [t])) t = 0) then Some t else None, st') ∧
    same_machine st st' ∧
    unblocked_task_queue st' = unblocked_task_queue st ∧
    (∀ q, queue st' q = canon (requests (A ++ [t]) q)) ∧
    (∀ t', blocked_usage_count st' t' =
       if decide (t' = t) then wcount (requests (A ++ [t])) t else blocked_usage_count st t').
Proof.
  intros Ht Hv HA Hlen Hqueue H0. unfold try_lock_usage_queues.
  destruct (for_each_inv (locking A t st) (try_lock_usage_queue t) (contexts t)
              (ShortCounter.zero, st)) as ([n st1] & Hrun & [Hs Hr Hc Hq Hn]); simpl in *.
  { constructor; simpl; [done..| |done]. intros q. by rewrite app_nil_r. }
  { intros. by eapply locking_step. }
  change (lock_contexts (deref t)) with (contexts t). rewrite Hrun. simpl.
  assert (n = wcount (requests (A ++ [t])) t) as Hw.
  { rewrite Hn. unfold wcount. do 2 f_equal. apply list_filter_ext_in. intros c Hin.
    rewrite requests_snoc, reqs_one by (done || apply Hv).
    rewrite waiting_snoc_self; [done|]. by intros ?%requests_in. }
  assert (∀ q, queue st1 q = canon (requests (A ++ [t]) q)) as Hq'
    by (intros q; by rewrite requests_snoc).
  unfold ShortCounter.is_zero. rewrite <-Hw. destruct (Z.eqb_spec n 0) as [Hn0|Hn0].
  - rewrite decide_True by done. eexists. split; [done|]. split_and!; [done..|].
    intros t'. unfold blocked_usage_count. rewrite Hc. case_decide; [|done]. subst t'.
    rewrite Hn0. apply H0.
  - rewrite decide_False by done. eexists. split; [done|].
    split_and!; [by etransitivity|done|done|].
    intros t'. unfold blocked_usage_count at 1. simpl. rewrite Hc, lookup_insert.
    repeat case_decide; simplify_eq; done.
Qed.

Lemma wcount_arrive A t t' :
  t ∉ A → valid_task t → t' ≠ t → wcount (requests (A ++ [t])) t' = wcount (requests A) t'.
Proof.
  intros Ht [Hv _] Hne. apply wcount_ext. intros c Hc. rewrite requests_snoc.
  destruct (decide (usage_queue c ∈ usage_queue <$> contexts t)) as [Hq|Hq].
  - apply list_elem_of_fmap in Hq as (c' & Hcc & Hc'). rewrite Hcc, reqs_one by done.
    by apply waiting_snoc_other.
  - by rewrite reqs_none, app_nil_r.
Qed.

(** ** Releasing the addresses of a task *)

(** The requests once the contexts [ds] of [t] have been released. *)
Definition releasing_requests (A : list Task) (t : Task) (ds : list LockContext)
    (q : UsageQueue) : list UsageFromTask :=
  if decide (q ∈ usage_queue <$> ds) then leave t (requests A q) else requests A q.

Lemma releasing_requests_snoc A t ds c q :
  releasing_requests A t (ds ++ [c]) q =
    if decide (q = usage_queue c) then leave t (requests A q) else releasing_requests A t ds q.
Proof.
  unfold releasing_requests. rewrite fmap_app. simpl.
  destruct (decide (q = usage_queue c)) as [->|Hne].
  - rewrite decide_True; [done|]. apply elem_of_app. right. constructor.
  - destruct (decide (q ∈ usage_queue <$> ds)).
    + rewrite decide_True; [done|]. apply elem_of_app. by left.
    + rewrite decide_False; [done|]. rewrite elem_of_app, list_elem_of_singleton. tauto.
Qed.

Lemma releasing_requests_fresh A t ds q :
  q ∉ usage_queue <$> ds → releasing_requests A t ds q = requests A q.
Proof. intros. unfold releasing_requests. by rewrite decide_False. Qed.

Record releasing (A running : list Task) (t : Task) (st0 : SchedulingStateMachine)
    (ds : list LockContext) (st : SchedulingStateMachine) : Prop := {
  rl_same : same_machine st0 st;
  rl_queue : ∀ q, queue st q = canon (releasing_requests A t ds q);
  rl_cell : ∀ t', t' ∈ A → t' ≠ t →
    blocked_usage_count st t' = wcount (releasing_requests A t ds) t';
  rl_cell_out : ∀ t', t' ∉ A ∨ t' = t → blocked_usage_count st t' = 0;
  rl_ready : unblocked_task_queue st ++ running ≡ₚ
    filter (λ t', t' ≠ t ∧ wcount (releasing_requests A t ds) t' = 0) A;
}.

(** Tasks whose count drops to zero join the ready ones. *)
Lemma ready_grow (A ready N : list Task) (w w' : Task → Z) t :
  NoDup A → NoDup N →
  (∀ t', t' ∈ N → t' ∈ A ∧ t' ≠ t) →
  (∀ t', t' ∈ A → t' ≠ t → w' t' = w t' - if decide (t' ∈ N) then 1 else 0) →
  (∀ t', 0 ≤ w' t') →
  ready ≡ₚ filter (λ t', t' ≠ t ∧ w t' = 0) A →
  ready ++ filter (λ t', w t' = 1) N ≡ₚ filter (λ t', t' ≠ t ∧ w' t' = 0) A.
Proof.
  intros HA HN HNA Hw Hpos Hready. rewrite Hready. apply NoDup_same_elements.
  - apply NoDup_app. split_and!; [by apply NoDup_filter| |by apply NoDup_filter].
    intros t' [[_ ?] _]%list_elem_of_filter [? _]%list_elem_of_filter. lia.
  - by apply NoDup_filter.
  - intros t'. rewrite elem_of_app, !list_elem_of_filter. split.
    + intros [[[Hne H0] Ht']|[H1 Ht']].
      * split; [|done]. split; [done|]. pose proof (Hw t' Ht' Hne).
        specialize (Hpos t'). case_decide; lia.
      * destruct (HNA t' Ht') as [HtA Hne]. pose proof (Hw t' HtA Hne) as Hw'.
        rewrite decide_True in Hw' by done. split; [split; [done|lia]|done].
    + intros [[Hne H0] Ht']. pose proof (Hw t' Ht' Hne).
      case_decide; [right|left]; split; [lia|done|split; [done|lia]|done].
Qed.

Lemma waiting_in A q t : t ∈ (waiting (requests A q)).*2 → t ∈ (requests A q).*2.
Proof.
  intros Ht. rewrite <-(holders_waiting (requests A q)), fmap_app. apply elem_of_app. by right.
Qed.

Lemma in_requests_context A q t :
  t ∈ (requests A q).*2 → t ∈ A ∧ ∃ c, c ∈ contexts t ∧ usage_queue c = q.
Proof.
  intros ([u t'] & -> & Hin)%list_elem_of_fmap. apply elem_of_requests in Hin as (? & c & ? & ? & _).
  eauto.
Qed.

(** Releasing one address takes it off the counts of the tasks it admits. *)
Lemma wcount_release A t ds c N t' :
  NoDup A → Forall valid_task A →
  usage_queue c ∉ usage_queue <$> ds →
  waiting (requests A (usage_queue c)) =
    N ++ waiting (leave t (requests A (usage_queue c))) →
  t' ∈ A →
  wcount (releasing_requests A t (ds ++ [c])) t' =
    wcount (releasing_requests A t ds) t' - if decide (t' ∈ N.*2) then 1 else 0.
Proof.
  intros HA Hv Hc HN Ht'. set (q := usage_queue c) in *.
  pose proof (releasing_requests_snoc A t ds c) as Hsnoc.
  assert (releasing_requests A t (ds ++ [c]) q = leave t (requests A q)) as Hq1
    by by rewrite Hsnoc, decide_True.
  pose proof (releasing_requests_fresh A t ds q Hc) as Hq2.
  pose proof (NoDup_requests A q HA Hv) as Hnd.
  rewrite <-(holders_waiting (requests A q)), fmap_app in Hnd.
  apply NoDup_app in Hnd as (_ & _ & Hnd). rewrite HN, fmap_app in Hnd.
  apply NoDup_app in Hnd as (_ & Hdisj & _).
  case_decide as HtN.
  - assert (t' ∈ (waiting (requests A q)).*2) as Hwait.
    { rewrite HN, fmap_app. apply elem_of_app. by left. }
    destruct (in_requests_context A q t' (waiting_in A q t' Hwait)) as (_ & c' & Hc' & Hqc').
    apply (wcount_dec _ _ t' c').
    + by apply (proj1 (Forall_forall _ _) Hv).
    + done.
    + intros q' ?. rewrite Hsnoc, decide_False; [done|]. unfold q in *. congruence.
    + by rewrite Hqc', Hq2.
    + rewrite Hqc', Hq1. by apply Hdisj.
  - rewrite Z.sub_0_r. apply wcount_ext. intros c' Hc'.
    destruct (decide (usage_queue c' = q)) as [->|Hne]; [|by rewrite Hsnoc, decide_False].
    rewrite Hq1, Hq2, HN, fmap_app, elem_of_app. tauto.
Qed.

Lemma releasing_step A running t st0 ds c todo st :
  NoDup A → Forall valid_task A → Z.of_nat (length A) ≤ u32_MAX →
  t ∈ A → wcount (requests A) t = 0 →
  contexts t = ds ++ c :: todo → releasing A running t st0 ds st →
  ∃ st', unlock_usage_queue c st = Ret st' ∧ releasing A running t st0 (ds ++ [c]) st'.
Proof.
  intros HA Hv Hlen Ht H0 Hcs [Hsame Hqueue Hcell Hout Hready].
  assert (c ∈ contexts t) as Hc by (rewrite Hcs; set_solver).
  assert (usage_queue c ∉ usage_queue <$> ds) as Hnc.
  { pose proof (proj1 (proj1 (Forall_forall _ _) Hv t Ht)) as Hnd. rewrite Hcs, fmap_app in Hnd.
    apply NoDup_app in Hnd as (_ & Hd & _). intros ?. eapply Hd; [done|constructor]. }
  set (q := usage_queue c) in *. set (l := requests A q).
  pose proof (releasing_requests_fresh A t ds q Hnc : _ = l) as Hq2.
  pose proof (NoDup_requests A q HA Hv) as Hnd.
  pose proof (ready_holds A t c Ht H0 Hc) as Hhold.
  assert (t ∉ (waiting l).*2) as Htw by by apply (wcount_zero _ _ _ H0 Hc).
  assert (∀ t', t' ∈ (waiting l).*2 → t' ∈ A ∧ t' ≠ t ∧ 0 < blocked_usage_count st t') as Hpos.
  { intros t' Hw. destruct (in_requests_context A q t' (waiting_in A q t' Hw)) as (HtA & c' & Hc' & Hqc').
    assert (t' ≠ t) by congruence. split_and!; [done..|].
    rewrite Hcell by done. apply (wcount_pos _ _ c'); [done|]. by rewrite Hqc', Hq2. }
  destruct (release_spec l (requested_usage c) t st) as (N & HN & Hrun).
  { done. }
  { done. }
  { pose proof (length_requests A q Hv : (length l ≤ _)%nat). lia. }
  { intros t' Hw. by apply Hpos. }
  assert (NoDup N.*2) as HNnd.
  { fold l in Hnd. rewrite <-(holders_waiting l), fmap_app in Hnd. apply NoDup_app in Hnd as (_ & _ & Hnd).
    rewrite HN, fmap_app in Hnd. by apply NoDup_app in Hnd as (? & _ & _). }
  assert (∀ t', t' ∈ N.*2 → t' ∈ (waiting l).*2) as HNw.
  { intros t' ?. rewrite HN, fmap_app. apply elem_of_app. by left. }
  destruct (unblock_all_spec N st HNnd) as (Hs1 & Hq1 & Hc1 & Hu1).
  unfold unlock_usage_queue. fold q. rewrite (Hqueue q), Hq2.
  destruct (unlock (requested_usage c) (canon l)) as [[x uq]| |]; simpl in *; [|discriminate..].
  rewrite Hrun. simpl. eexists. split; [done|].
  pose proof (wcount_release A t ds c N) as Hwc.
  constructor; simpl.
  - etransitivity; [exact Hsame|]. etransitivity; [exact Hs1|]. by constructor.
  - intros q'. rewrite queue_set_queue, releasing_requests_snoc. fold q.
    destruct (decide (q' = q)) as [->|]; [done|]. unfold queue. rewrite Hq1. apply Hqueue.
  - intros t' Ht' Hne. change (blocked_usage_count (unblock_all N st) t' =
      wcount (releasing_requests A t (ds ++ [c])) t').
    rewrite Hc1, Hwc, Hcell by done. case_decide; lia.
  - intros t' Ho. change (blocked_usage_count (unblock_all N st) t' = 0).
    rewrite Hc1, decide_False by (intros ?%HNw%Hpos; naive_solver). by apply Hout.
  - rewrite Hu1, <-app_assoc, (Permutation_app_comm (filter _ _)), app_assoc.
    rewrite (list_filter_ext_in _ (λ t', wcount (releasing_requests A t ds) t' = 1)).
    2: { intros t' ?%HNw%Hpos. rewrite Hcell by naive_solver. done. }
    apply ready_grow; [done..| | | |done].
    + intros t' ?%HNw%Hpos. naive_solver.
    + intros t' Ht' Hne. by apply Hwc.
    + intros. apply wcount_nonneg.
Qed.

Lemma unlock_usage_queues_spec A running t st0 st :
  Inv A (t :: running) st0 →
  count_token st = count_token st0 →
  usage_queue_token st = usage_queue_token st0 →
  unblocked_task_queue st = unblocked_task_queue st0 →
  ∃ st', unlock_usage_queues deref t st = Ret st' ∧
    releasing A running t st (contexts t) st'.
Proof.
  intros HI Hct Hut Hrd. destruct (Inv_running_ready _ _ _ t HI) as [Ht H0]; [constructor|].
  apply for_each_inv.
  - constructor; unfold queue, blocked_usage_count; rewrite ?Hct, ?Hut, ?Hrd; [done|apply HI|..].
    + intros t' _ _. apply HI.
    + intros t' Ho. change (blocked_usage_count st0 t' = 0). rewrite (inv_cell _ _ _ HI).
      destruct Ho as [?| ->]; [by apply wcount_inactive|done].
    + apply (Permutation_cons_inv (a := t)). etransitivity.
      { rewrite Permutation_middle. apply HI. }
      apply NoDup_same_elements.
      * apply NoDup_filter, HI.
      * apply NoDup_cons. split; [|apply NoDup_filter, HI].
        intros [[? _] _]%list_elem_of_filter. done.
      * intros t'. rewrite elem_of_cons, !list_elem_of_filter.
        destruct (decide (t' = t)) as [->|]; naive_solver.
  - intros ds c todo s Hcs HP. apply (releasing_step _ _ _ _ _ _ todo); try done; try apply HI.
    pose proof (inv_total _ _ _ HI). pose proof (inv_handled _ _ _ HI).
    pose proof (inv_handled_pos _ _ _ HI). rewrite (inv_active _ _ _ HI) in *. lia.
Qed.

(** ** The operations preserve the invariant *)

Lemma Inv_perm A running running' st :
  running ≡ₚ running' → Inv A running st → Inv A running' st.
Proof.
  intros Hp [?????? Hr Hm ?? Hu ?]. pose proof (Permutation_length Hp) as Hlen.
  constructor; try done; rewrite <-?Hp, <-?Hlen; done.
Qed.

Definition option_list {A} (o : option A) : list A :=
  match o with Some a => [a] | None => [] end.

Lemma schedule_Inv A running st t force :
  Inv A running st → t ∉ A → valid_task t → 2 * (total_task_count st + 1) ≤ u32_MAX →
  ∃ r st', schedule_or_buffer_task deref t force st = Ret (r, st') ∧
    Inv (A ++ [t]) (option_list r ++ running) st' ∧
    r = if decide (wcount (requests (A ++ [t])) t = 0 ∧ force = false ∧
                   Z.of_nat (length running) < max_running_task_count st)
        then Some t else None.
Proof.
  intros HI Ht Hv Htot. pose proof (Inv_length_ready _ _ _ HI) as Hlen. destruct HI as [Hnd HA Hq Hc Hready Ha Hr Hm Hh Hh0 [Hu0 Hu] Ht2].
  assert (NoDup (A ++ [t])) as Hnd'.
  { apply NoDup_app. split_and!; [done| |apply NoDup_singleton].
    intros t' ? ->%list_elem_of_singleton. done. }
  assert (Forall valid_task (A ++ [t])) as HA' by (apply Forall_app; auto).
  unfold schedule_or_buffer_task.
  rewrite ShortCounter.increment_Ret by lia. simpl.
  rewrite ShortCounter.increment_Ret by lia. simpl.
  match goal with |- context [try_lock_usage_queues deref t ?s] => set (st1 := s) end.
  destruct (try_lock_usage_queues_spec A t st1) as (st2 & Hlock & Hs & Hun & Hq2 & Hc2);
    try done; [lia|by transitivity (blocked_usage_count st t); [|rewrite Hc, wcount_inactive]|].
  rewrite Hlock. simpl. destruct Hs as [Sa Sr Sm Sh Su St]; simpl in *.
  assert (∀ t', blocked_usage_count st2 t' = wcount (requests (A ++ [t])) t') as Hc'.
  { intros t'. rewrite Hc2. destruct (decide (t' = t)) as [->|]; [done|].
    rewrite wcount_arrive by done. apply Hc. }
  assert (filter (λ t', wcount (requests (A ++ [t])) t' = 0) (A ++ [t]) ≡ₚ
    (if decide (wcount (requests (A ++ [t])) t = 0) then [t] else [])
      ++ filter (λ t', wcount (requests A) t' = 0) A) as Hf.
  { rewrite filter_app, Permutation_app_comm, filter_cons, filter_nil.
    rewrite (list_filter_ext_in _ (λ t', wcount (requests A) t' = 0) A); [done|].
    intros t' Ht'. rewrite wcount_arrive; [done..|]. by intros ->. }
  case_decide as Hw.
  - unfold is_task_runnable, ShortCounter.current. rewrite Sr, Sm, Hr.
    destruct (Z.ltb_spec (Z.of_nat (length running)) (max_running_task_count st)); simpl;
      [destruct force|]; simpl.
    2: rewrite (decide_True (P := _ ∧ _)) by done.
    1,3: rewrite (decide_False (P := _ ∧ _)) by (naive_solver lia).
    all: rewrite ShortCounter.increment_Ret by lia; simpl.
    all: eexists _, _; split; [done|]; split; [|done].
    all: constructor; simpl; rewrite ?Sa, ?Sr, ?Sm, ?Sh, ?Su, ?St, ?length_app; simpl;
      try done; try lia.
    all: rewrite Hf, <-Hready, Hun; simpl.
    all: rewrite <-?app_assoc; simpl; by rewrite <-Permutation_middle.
  - rewrite (decide_False (P := _ ∧ _)) by tauto. eexists _, _; split; [done|]; split; [|done].
    constructor; simpl; rewrite ?Sa, ?Sr, ?Sm, ?Sh, ?Su, ?St, ?length_app; simpl;
      try done; try lia.
    by rewrite Hf, <-Hready, Hun.
Qed.

Lemma next_Inv A running st :
  Inv A running st →
  ∃ r st', schedule_next_unblocked_task st = Ret (r, st') ∧
    Inv A (option_list r ++ running) st' ∧
    total_task_count st' = total_task_count st ∧
    max_running_task_count st' = max_running_task_count st ∧
    r = if Z.of_nat (length running) <? max_running_task_count st
        then head (unblocked_task_queue st) else None.
Proof.
  intros HI. pose proof (Inv_length_ready _ _ _ HI) as Hlen.
  destruct HI as [Hnd HA Hq Hc Hready Ha Hr Hm Hh Hh0 [Hu0 Hu] Ht2] eqn:E. clear E.
  unfold schedule_next_unblocked_task, is_task_runnable, ShortCounter.current. rewrite Hr.
  destruct (Z.ltb_spec (Z.of_nat (length running)) (max_running_task_count st)); simpl;
    [|by eexists _, _].
  destruct (unblocked_task_queue st) as [|t rest] eqn:Hun; [by eexists _, _|].
  simpl in *.
  rewrite ShortCounter.increment_Ret by lia. simpl.
  rewrite ShortCounter.increment_Ret by lia. simpl.
  eexists _, _; split; [done|]. split; [|done].
  constructor; simpl; try done; try lia. by rewrite <-Hready, <-Permutation_middle.
Qed.

Lemma deschedule_Inv A running st t :
  Inv A (t :: running) st →
  ∃ st', deschedule_task deref t st = Ret st' ∧
    Inv (filter (λ t', t' ≠ t) A) running st' ∧
    max_running_task_count st' = max_running_task_count st.
Proof.
  intros HI. destruct (Inv_running_ready _ _ _ t HI) as [Ht H0]; [constructor|].
  destruct HI as [Hnd HA Hq Hc Hready Ha Hr Hm Hh Hh0 [Hu0 Hu] Ht2] eqn:E. clear E.
  pose proof (length_filter_out A t Hnd Ht) as Hlen.
  simpl in *. unfold deschedule_task.
  rewrite ShortCounter.decrement_Ret by lia. simpl.
  rewrite ShortCounter.decrement_Ret by lia. simpl.
  rewrite ShortCounter.increment_Ret by lia. simpl.
  match goal with |- context [unlock_usage_queues deref t ?s] => set (st1 := s) end.
  destruct (unlock_usage_queues_spec A running t st st1) as
    (st2 & Hrun & [[Sa Sr Sm Sh Su St] Hq2 Hc2 Hout Hready2]); [done..|].
  assert (∀ q, releasing_requests A t (contexts t) q = requests (filter (λ t', t' ≠ t) A) q) as HR.
  { intros q. unfold releasing_requests. rewrite <-leave_requests. case_decide as Hqc; [done|].
    symmetry. apply leave_not_in. intros (_ & c & Hc' & <-)%in_requests_context.
    apply Hqc. by apply list_elem_of_fmap_2. }
  assert (∀ t', wcount (releasing_requests A t (contexts t)) t' =
    wcount (requests (filter (λ t', t' ≠ t) A)) t') as HRw.
  { intros t'. apply wcount_ext. intros c _. by rewrite HR. }
  exists st2. split; [done|]. simpl in *.
  split; [|by rewrite Sm]. constructor; rewrite ?Sa, ?Sr, ?Sm, ?Sh, ?Su, ?St; try lia.
  - by apply NoDup_filter.
  - apply Forall_forall. intros t' [_ ?]%list_elem_of_filter. by apply (proj1 (Forall_forall _ _) HA).
  - intros q. by rewrite Hq2, HR.
  - intros t'. destruct (decide (t' ∈ filter (λ t', t' ≠ t) A)) as [Hin|Hnin].
    + rewrite <-HRw. apply list_elem_of_filter in Hin as [??]. by apply Hc2.
    + rewrite wcount_inactive by done. apply Hout. rewrite list_elem_of_filter in Hnin.
      destruct (decide (t' = t)); [by right|left; tauto].
  - rewrite Hready2, list_filter_filter. apply NoDup_same_elements; [by apply NoDup_filter..|].
    intros t'. rewrite !list_elem_of_filter, HRw. tauto.
Qed.

End invariant.
