(* ===== verification/SchedulerProps.v ===== *)
(** What the scheduler promises to its callers, for every state the machine can
    reach: a refinement of the abstract scheduler, exclusion and order of
    conflicting tasks, progress, absence of panics, and cleanup. *)

From S2P Require Import Prelude Scheduler SchedulerSpec SchedulerInv.
Import UsageQueueOps Machine Admission Release.

(** * The abstract scheduler *)

Section spec.
Context {Tx : Type} (deref : Task → TaskInner Tx).

(** Two tasks conflict when they use an address and one of them writes it. *)
Definition conflict (t1 t2 : Task) : Prop :=
  ∃ c1 c2, c1 ∈ contexts deref t1 ∧ c2 ∈ contexts deref t2 ∧
    usage_queue c1 = usage_queue c2 ∧
    (requested_usage c1 = Writable ∨ requested_usage c2 = Writable).

(** [t'] arrived before [t]. *)
Definition before (A : list Task) (t' t : Task) : Prop :=
  ∃ A1 A2 A3, A = A1 ++ t' :: A2 ++ t :: A3.

(** A task may run when no conflicting task that arrived before it is active. *)
Definition may_run (A : list Task) (t : Task) : Prop :=
  t ∈ A ∧ ∀ t', before A t' t → ¬ conflict t' t.

(** The states of the machine under a correct use of it, with the active tasks in
    order of arrival and the tasks handed out to run. *)
Inductive reachable : list Task → list Task → SchedulingStateMachine → Prop :=
| reach_init max_running st :
    (∀ m, max_running = Some m → 0 ≤ m) →
    exclusively_initialize_current_thread_for_scheduling max_running = Ret st →
    reachable [] [] st
| reach_schedule A running st t force r st' :
    reachable A running st →
    t ∉ A → valid_task deref t → 2 * (total_task_count st + 1) ≤ u32_MAX →
    schedule_or_buffer_task deref t force st = Ret (r, st') →
    reachable (A ++ [t]) (option_list r ++ running) st'
| reach_next A running st r st' :
    reachable A running st →
    schedule_next_unblocked_task st = Ret (r, st') →
    reachable A (option_list r ++ running) st'
| reach_deschedule A running running' st t st' :
    reachable A running st →
    running ≡ₚ t :: running' →
    deschedule_task deref t st = Ret st' →
    reachable (filter (λ t', t' ≠ t) A) running' st'
| reach_reinitialize A running st st' :
    reachable A running st →
    reinitialize st = Ret st' →
    reachable A running st'.

(** ** Reachable states satisfy the invariant *)

Lemma Inv_init max_running st :
  (∀ m, max_running = Some m → 0 ≤ m) →
  exclusively_initialize_current_thread_for_scheduling max_running = Ret st →
  Inv deref [] [] st.
Proof.
  intros Hm H. unfold exclusively_initialize_current_thread_for_scheduling in H.
  outcome_inv. destruct (Z.leb_spec (default u32_MAX max_running) u32_MAX); [|discriminate].
  simplify_eq. constructor; simpl; try done.
  - constructor.
  - intros t. rewrite wcount_inactive; [done|apply not_elem_of_nil].
  - destruct max_running; simpl in *; (split; [|lia]); [by apply Hm|done].
Qed.

Lemma Inv_reinitialize A running st :
  Inv deref A running st →
  (∀ st', reinitialize st = Ret st' → A = [] ∧ running = [] ∧ Inv deref [] [] st') ∧
  (A = [] → ∃ st', reinitialize st = Ret st').
Proof.
  intros HI. pose proof (Inv_length_ready _ _ _ _ HI) as Hlen. unfold reinitialize.
  destruct HI as [? ? Hq Hc Hready Ha Hr Hm Hh Hh0 [Hu0 Hu] Ht2].
  unfold has_no_active_task, ShortCounter.is_zero, ShortCounter.current. rewrite Ha, Hr. split.
  - intros st' H. outcome_inv. bsimp.
    destruct A; [|simpl in *; lia]. destruct running; [|simpl in *; lia].
    split_and!; [done..|]. constructor; simpl; try done; lia.
  - intros ->. simpl in *. destruct running; [|simpl in *; lia].
    destruct (unblocked_task_queue st); [|simpl in *; lia]. simpl. eauto.
Qed.

Lemma reachable_Inv A running st : reachable A running st → Inv deref A running st.
Proof.
  induction 1 as [max st Hm H|A running st t force r st' _ IH Ht Hv Htot H
    |A running st r st' _ IH H|A running running' st t st' _ IH Hp H|A running st st' _ IH H].
  - by eapply Inv_init.
  - destruct (schedule_Inv deref A running st t force IH Ht Hv Htot) as (r1 & st1 & E & ? & _).
    congruence.
  - destruct (next_Inv deref A running st IH) as (r1 & st1 & E & ? & _). congruence.
  - destruct (deschedule_Inv deref A running' st t) as (st1 & E & ? & _); [|congruence].
    by eapply Inv_perm.
  - apply (proj1 (Inv_reinitialize _ _ _ IH)) in H as (-> & -> & ?). done.
Qed.

(** ** Ready tasks *)

Lemma before_requests A t' t c' c :
  before A t' t → c' ∈ contexts deref t' → c ∈ contexts deref t →
  usage_queue c' = usage_queue c →
  ∃ l1 l2 l3, requests deref A (usage_queue c) =
    l1 ++ (requested_usage c', t') :: l2 ++ (requested_usage c, t) :: l3.
Proof.
  intros (A1 & A2 & A3 & ->) Hc' Hc Hq.
  rewrite requests_app, requests_cons, requests_app, requests_cons.
  assert ((requested_usage c', t') ∈ reqs (contexts deref t') (usage_queue c) t') as H1.
  { apply list_elem_of_fmap. exists c'. split; [done|]. by apply list_elem_of_filter. }
  assert ((requested_usage c, t) ∈ reqs (contexts deref t) (usage_queue c) t) as H2.
  { apply list_elem_of_fmap. exists c. split; [done|]. by apply list_elem_of_filter. }
  apply list_elem_of_split in H1 as (a1 & a2 & ->). apply list_elem_of_split in H2 as (b1 & b2 & ->).
  exists (requests deref A1 (usage_queue c) ++ a1),
    (a2 ++ requests deref A2 (usage_queue c) ++ b1), (b2 ++ requests deref A3 (usage_queue c)).
  by repeat (rewrite <-!app_assoc || rewrite <-!app_comm_cons).
Qed.

(** Whoever holds an address is compatible with all requests before it. *)
Lemma holder_compatible l1 l2 l3 u' t' u t :
  NoDup (l1 ++ (u', t') :: l2 ++ (u, t) :: l3).*2 →
  (u, t) ∈ holders (l1 ++ (u', t') :: l2 ++ (u, t) :: l3) →
  u' = Readonly ∧ u = Readonly.
Proof.
  intros Hnd Hin. set (l := l1 ++ (u', t') :: l2 ++ (u, t) :: l3) in *.
  assert (∀ y1 y2, l = y1 ++ (u, t) :: y2 → y1 = l1 ++ (u', t') :: l2) as Huniq.
  { intros y1 y2 Hy. unfold l in Hy.
    rewrite app_comm_cons, app_assoc in Hy. unfold l in Hnd.
    rewrite app_comm_cons, app_assoc, fmap_app in Hnd. simpl in Hnd.
    apply NoDup_app in Hnd as (_ & Hd & Hd2). apply NoDup_cons in Hd2 as [Hd2 _].
    assert (t ∉ (l1 ++ (u', t') :: l2).*2) as Hn1 by (intros Hi; eapply Hd; [exact Hi|constructor]).
    revert Hy Hn1. generalize (l1 ++ (u', t') :: l2) as x1. clear -Hd2.
    intros x1. revert y1. induction x1 as [|x x1 IH]; intros [|y y1] Hy Hn1; simplify_eq/=.
    - done.
    - exfalso. apply Hd2. rewrite fmap_app. apply elem_of_app. right. constructor.
    - exfalso. apply Hn1. constructor.
    - f_equal. apply IH; [done|]. intros ?. apply Hn1. by right. }
  destruct u.
  - split; [|done]. destruct (holder_reader l t Hin) as (Hall & _ & r1 & r2 & Hr).
    pose proof (holders_waiting l) as Hl. rewrite Hr, <-app_assoc in Hl. simpl in Hl.
    symmetry in Hl. apply Huniq in Hl. rewrite Hr, Hl in Hall.
    apply Forall_app in Hall as [Hall _]. apply Forall_app in Hall as [_ Hall].
    by apply Forall_cons in Hall as [? _].
  - destruct (holder_writer l t Hin) as [w Hw]. apply (Huniq []) in Hw. by destruct l1.
Qed.

(** A request that nothing before it conflicts with holds the address. *)
Lemma compatible_holder l1 l2 u t :
  Forall (λ x, x.1 = Readonly ∧ u = Readonly) l1 → (u, t) ∈ holders (l1 ++ (u, t) :: l2).
Proof.
  intros Hall. destruct l1 as [|[u1 t1] l1].
  - destruct u; simpl; constructor.
  - apply Forall_cons in Hall as [[Hu1 ->] Hall]. simpl in Hu1. subst u1. simpl. right.
    rewrite readers_app_all.
    + apply elem_of_app. right. simpl. constructor.
    + eapply Forall_impl; [exact Hall|]. by intros ? [? _].
Qed.

Lemma ready_iff A t :
  NoDup A → Forall (valid_task deref) A → t ∈ A →
  wcount deref (requests deref A) t = 0 ↔ ∀ t', before A t' t → ¬ conflict t' t.
Proof.
  intros Hnd Hv Ht. split.
  - intros H0 t' Hb (c' & c & Hc' & Hc & Hq & Hw).
    pose proof (ready_holds deref A t c Ht H0 Hc) as Hh.
    pose proof (NoDup_requests deref A (usage_queue c) Hnd Hv) as Hnd'.
    destruct (before_requests A t' t c' c Hb Hc' Hc Hq) as (l1 & l2 & l3 & E). rewrite E in *.
    destruct (holder_compatible _ _ _ _ _ _ _ Hnd' Hh) as [? ?]. destruct Hw; congruence.
  - intros Hno. unfold wcount. rewrite list_filter_none_in; [done|]. intros c Hc Hin.
    apply list_elem_of_split in Ht as (A1 & A3 & ->).
    pose proof (NoDup_requests deref _ (usage_queue c) Hnd Hv) as Hnd'.
    assert (valid_task deref t) as [Hvt _].
    { apply Forall_app in Hv as [_ Hv]. by apply Forall_cons in Hv as [? _]. }
    rewrite requests_app, requests_cons, (reqs_one (contexts deref t) c t Hvt Hc) in Hin, Hnd'.
    simpl in Hin, Hnd'. set (l1 := requests deref A1 (usage_queue c)) in *.
    assert ((requested_usage c, t) ∈
      holders (l1 ++ (requested_usage c, t) :: requests deref A3 (usage_queue c))) as Hh.
    { apply compatible_holder. apply Forall_forall. intros [u' t'] Hx. simpl.
      apply elem_of_requests in Hx as (Ht' & c' & Hc' & Hq' & Hu').
      assert (before (A1 ++ t :: A3) t' t) as Hb.
      { apply list_elem_of_split in Ht' as (B1 & B2 & ->). exists B1, B2, A3.
        by rewrite <-app_assoc. }
      specialize (Hno t' Hb). unfold conflict in Hno.
      destruct u'; [|exfalso; apply Hno; exists c', c; auto].
      destruct (requested_usage c) eqn:Eu; [done|]. exfalso; apply Hno; exists c', c; auto. }
    rewrite <-(holders_waiting (l1 ++ _)), fmap_app in Hnd'.
    apply NoDup_app in Hnd' as (_ & Hd & _). apply (Hd t); [|done].
    apply list_elem_of_fmap. by exists (requested_usage c, t).
Qed.

Lemma before_last A t t' : t ∉ A → before (A ++ [t]) t' t → t' ∈ A.
Proof using Type.
  intros Ht (A1 & A2 & A3 & E). destruct A3 as [|x A3 _] using rev_ind.
  - rewrite app_comm_cons, app_assoc in E. apply app_inj_tail in E as [-> _].
    apply elem_of_app. right. constructor.
  - rewrite !app_comm_cons, !app_assoc in E.
    apply app_inj_tail in E as [-> _]. destruct Ht. apply elem_of_app. right. constructor.
Qed.

Lemma head_ready t A : Forall (valid_task deref) (t :: A) → NoDup (t :: A) →
  wcount deref (requests deref (t :: A)) t = 0.
Proof.
  intros Hv Hnd. apply ready_iff; [done..|constructor|].
  intros t' (A1 & A2 & A3 & E). destruct A1 as [|x A1]; simplify_eq/=.
  - apply NoDup_cons in Hnd as [Hn _]. exfalso. apply Hn. set_solver.
  - apply NoDup_cons in Hnd as [Hn _]. exfalso. apply Hn. set_solver.
Qed.

(** ** Clearing the machine *)

Lemma ready_nonempty A running st :
  Inv deref A running st → A ≠ [] → unblocked_task_queue st ++ running ≠ [].
Proof.
  intros HI Hne Hnil. destruct A as [|t A]; [done|].
  pose proof (head_ready t A (inv_valid _ _ _ _ HI) (inv_nodup _ _ _ _ HI)) as H0.
  pose proof (inv_ready _ _ _ _ HI) as Hp. rewrite Hnil, filter_cons, decide_True in Hp by done.
  by apply Permutation_nil_cons in Hp.
Qed.

Lemma clear_loop_spec n A st count :
  length A = n → Inv deref A [] st → 0 < max_running_task_count st →
  0 ≤ count → count + Z.of_nat n ≤ u32_MAX →
  ∃ st', clear_loop deref n count st = Ret (count + Z.of_nat n, st') ∧ Inv deref [] [] st'.
Proof.
  revert A st count. induction n as [|n IH]; intros A st count Hn HI Hmax Hc Hle.
  all: destruct (next_Inv deref A [] st HI) as (r & st1 & Hnext & HI1 & _ & Hm1 & Hr).
  all: simpl in Hr; rewrite (proj2 (Z.ltb_lt _ _)) in Hr by lia.
  all: pose proof (Inv_length_ready _ _ _ _ HI) as Hlen; simpl in Hlen.
  - destruct (unblocked_task_queue st) as [|t l]; [|simpl in Hlen; lia]. simpl in Hr. subst r.
    destruct A; [|discriminate]. simpl. rewrite Hnext. simpl. exists st1. split; [|done].
    do 2 f_equal. lia.
  - destruct A as [|a A]; [discriminate|].
    pose proof (ready_nonempty _ _ _ HI ltac:(done)) as Hne. rewrite app_nil_r in Hne.
    destruct (unblocked_task_queue st) as [|t l] eqn:Hun; [done|]. simpl in Hr. subst r.
    simpl option_list in HI1. rewrite app_nil_r in HI1.
    destruct (deschedule_Inv deref (a :: A) [] st1 t HI1) as (st2 & Hd & HI2 & Hm2).
    assert (length (filter (λ t', t' ≠ t) (a :: A)) = n) as Hn2.
    { destruct (Inv_running_ready _ _ _ _ t HI1) as [HtA _]; [constructor|].
      pose proof (length_filter_out (a :: A) t (inv_nodup _ _ _ _ HI1) HtA). simpl in *. lia. }
    simpl. rewrite Hnext. simpl. rewrite Hd. simpl.
    rewrite ShortCounter.increment_Ret by lia. simpl.
    destruct (IH _ st2 (count + 1) Hn2 HI2) as (st' & Hrun & HI'); [lia..|].
    exists st'. rewrite Hrun. split; [|done]. do 2 f_equal. lia.
Qed.

End spec.

(** * Properties *)

(** C1. The machine implements the abstract scheduler: in every reachable state the
    tasks it has handed out or keeps as unblocked are exactly the active tasks
    that may run, that is, those with no conflicting active task of earlier
    arrival, each of them once. *)
Theorem scheduler_refines_spec {Tx} (deref : Task → TaskInner Tx) A running st :
  reachable deref A running st →
  NoDup (unblocked_task_queue st ++ running) ∧
  ∀ t, t ∈ unblocked_task_queue st ++ running ↔ may_run deref A t.
Proof.
  intros HI%reachable_Inv. split; [by eapply Inv_NoDup_ready|]. intros t.
  rewrite (inv_ready _ _ _ _ HI), list_elem_of_filter. unfold may_run.
  destruct (decide (t ∈ A)) as [Ht|]; [|tauto].
  rewrite (ready_iff deref A t (inv_nodup _ _ _ _ HI) (inv_valid _ _ _ _ HI) Ht). tauto.
Qed.

(** C2. Two tasks that run at the same time never conflict. *)
Theorem running_tasks_never_conflict {Tx} (deref : Task → TaskInner Tx) A running st t1 t2 :
  reachable deref A running st → t1 ∈ running → t2 ∈ running → t1 ≠ t2 →
  ¬ conflict deref t1 t2.
Proof.
  intros HI%reachable_Inv H1 H2 Hne Hconf.
  destruct (Inv_running_ready _ _ _ _ t1 HI H1) as [HA1 Hw1].
  destruct (Inv_running_ready _ _ _ _ t2 HI H2) as [HA2 Hw2].
  destruct Hconf as (c1 & c2 & Hc1 & Hc2 & Hq & Hw).
  pose proof (ready_holds deref A t1 c1 HA1 Hw1 Hc1) as Hh1.
  pose proof (ready_holds deref A t2 c2 HA2 Hw2 Hc2) as Hh2. rewrite Hq in Hh1.
  destruct Hw as [Hw|Hw]; rewrite Hw in *.
  - destruct (holder_writer _ _ Hh1) as [w E]. rewrite E in Hh2. simpl in Hh2.
    apply list_elem_of_singleton in Hh2. congruence.
  - destruct (holder_writer _ _ Hh2) as [w E]. rewrite E in Hh1. simpl in Hh1.
    apply list_elem_of_singleton in Hh1. congruence.
Qed.

(** C31. No operation of the machine panics in a reachable state: scheduling a valid
    task that is not active, fetching the next unblocked task, and descheduling a
    running task all return. *)
Theorem scheduler_never_panics {Tx} (deref : Task → TaskInner Tx) A running st :
  reachable deref A running st →
  (∀ t force, t ∉ A → valid_task deref t → 2 * (total_task_count st + 1) ≤ u32_MAX →
     ∃ r st', schedule_or_buffer_task deref t force st = Ret (r, st')) ∧
  (∃ r st', schedule_next_unblocked_task st = Ret (r, st')) ∧
  (∀ t, t ∈ running → ∃ st', deschedule_task deref t st = Ret st').
Proof.
  intros HI%reachable_Inv. split_and!.
  - intros t force Ht Hv Htot.
    destruct (schedule_Inv deref A running st t force HI Ht Hv Htot) as (r & st' & ? & _). eauto.
  - destruct (next_Inv deref A running st HI) as (r & st' & ? & _). eauto.
  - intros t (r1 & r2 & ->)%list_elem_of_split.
    destruct (deschedule_Inv deref A (r1 ++ r2) st t) as (st' & ? & _); [|eauto].
    eapply Inv_perm; [|exact HI]. by rewrite <-Permutation_middle.
Qed.

(** C32. No deadlock: while a task is active, some task is running or can be run
    right away. *)
Theorem scheduler_progress {Tx} (deref : Task → TaskInner Tx) A running st :
  reachable deref A running st → A ≠ [] → 0 < max_running_task_count st →
  running ≠ [] ∨ has_runnable_task st = true.
Proof.
  intros HI%reachable_Inv Hne Hmax. destruct running as [|t running]; [right|by left].
  pose proof (ready_nonempty _ _ _ _ HI Hne) as Hr. rewrite app_nil_r in Hr.
  unfold has_runnable_task, has_unblocked_task, is_task_runnable, ShortCounter.current.
  rewrite (inv_running _ _ _ _ HI). destruct (unblocked_task_queue st); [done|]. simpl.
  by apply Z.ltb_lt.
Qed.

(** A new task is handed out at once exactly when no active task conflicts with
    it and there is room for one more running task; otherwise the machine keeps
    it. *)
Theorem schedule_task_result {Tx} (deref : Task → TaskInner Tx) A running st t :
  reachable deref A running st → t ∉ A → valid_task deref t →
  2 * (total_task_count st + 1) ≤ u32_MAX →
  ∃ r st', schedule_task deref t st = Ret (r, st') ∧
    (r = Some t ∨ r = None) ∧
    (r = Some t ↔ (∀ t', t' ∈ A → ¬ conflict deref t' t) ∧
                  Z.of_nat (length running) < max_running_task_count st).
Proof.
  intros HI%reachable_Inv Ht Hv Htot.
  destruct (schedule_Inv deref A running st t false HI Ht Hv Htot) as (r & st' & Hrun & HI' & Hr).
  exists r, st'. split; [done|]. split; [rewrite Hr; case_decide; auto|].
  assert (wcount deref (requests deref (A ++ [t])) t = 0 ↔
    ∀ t', t' ∈ A → ¬ conflict deref t' t) as Hw.
  { rewrite ready_iff; [|apply HI'..|set_solver]. split.
    - intros Hb t' Ht'. apply Hb. apply list_elem_of_split in Ht' as (A1 & A2 & ->).
      exists A1, A2, []. by rewrite <-app_assoc.
    - intros Hn t' Hb. by apply Hn, (before_last A t t'). }
  rewrite Hr. case_decide; naive_solver.
Qed.

(** When no task is active, nothing of it is left behind: nothing runs or is
    buffered, and every usage queue and every task's count is as newly created. *)
Theorem scheduler_quiescent {Tx} (deref : Task → TaskInner Tx) A running st :
  reachable deref A running st → has_no_active_task st = true →
  running = [] ∧ unblocked_task_queue st = [] ∧
  (∀ q, queue st q = UsageQueueInner_default) ∧
  (∀ t, blocked_usage_count st t = ShortCounter.zero).
Proof.
  intros HI%reachable_Inv Hno. unfold has_no_active_task, ShortCounter.is_zero in Hno.
  rewrite (inv_active _ _ _ _ HI) in Hno. bsimp. destruct A; [|simpl in Hno; lia].
  pose proof (Inv_length_ready _ _ _ _ HI) as Hlen. simpl in Hlen.
  destruct running, (unblocked_task_queue st); simpl in Hlen; try lia. split_and!; [done..| |].
  - apply HI.
  - intros t. rewrite (inv_cell _ _ _ _ HI). apply wcount_inactive, not_elem_of_nil.
Qed.

(** When no task is running, [clear_and_reinitialize] terminates without a panic,
    returns the number of tasks it cleared, which are all the active ones, and
    leaves every usage queue as newly created. *)
Theorem clear_and_reinitialize_clears {Tx} (deref : Task → TaskInner Tx) A st :
  reachable deref A [] st → 0 < max_running_task_count st →
  ∃ st', clear_and_reinitialize deref st = Ret (Z.of_nat (length A), st') ∧
    has_no_active_task st' = true ∧ total_task_count st' = ShortCounter.zero ∧
    unblocked_task_queue st' = [] ∧ (∀ q, queue st' q = UsageQueueInner_default).
Proof.
  intros HI%reachable_Inv Hmax. unfold clear_and_reinitialize.
  pose proof (inv_handled _ _ _ _ HI). pose proof (inv_total _ _ _ _ HI).
  pose proof (inv_handled_pos _ _ _ _ HI). rewrite (inv_active _ _ _ _ HI), Nat2Z.id in *.
  destruct (clear_loop_spec deref (length A) A st ShortCounter.zero)
    as (st1 & Hrun & HI1); [done..|unfold ShortCounter.zero; lia|].
  rewrite Hrun. simpl. pose proof (Inv_reinitialize deref [] [] st1 HI1) as [Hre1 Hre2].
  destruct (Hre2 eq_refl) as (st2 & Hre). rewrite Hre. simpl. exists st2.
  destruct (Hre1 _ Hre) as (_ & _ & HI2). split; [done|].
  pose proof (Inv_length_ready _ _ _ _ HI2) as Hlen. simpl in Hlen. split_and!.
  - unfold has_no_active_task. by rewrite (inv_active _ _ _ _ HI2).
  - unfold reinitialize in Hre. outcome_inv. done.
  - destruct (unblocked_task_queue st2); [done|simpl in Hlen; lia].
  - apply HI2.
Qed.

(** * Witnesses *)

(** Task 1 and 2 write address 10, task 3 reads addresses 10 and 11. *)
Definition ex_deref (t : Task) : TaskInner unit :=
  {| transaction := tt; index := t;
     lock_contexts :=
       if t =? 3 then [{| usage_queue := 10; requested_usage := Readonly |};
                       {| usage_queue := 11; requested_usage := Readonly |}]
       else [{| usage_queue := 10; requested_usage := Writable |}] |}.

Definition ex_state (o : outcome SchedulingStateMachine) : SchedulingStateMachine :=
  match o with
  | Ret st => st
  | _ => set_cells ∅ ∅ {| unblocked_task_queue := []; active_task_count := 0;
           running_task_count := 0; max_running_task_count := 0; handled_task_count := 0;
           unblocked_task_count := 0; total_task_count := 0; count_token := ∅;
           usage_queue_token := ∅ |}
  end.

Definition ex0 : SchedulingStateMachine :=
  ex_state (exclusively_initialize_current_thread_for_scheduling (Some 4)).
Definition ex1 : SchedulingStateMachine :=
  ex_state ('(_, st) ← schedule_task ex_deref 1 ex0; Ret st).
Definition ex2 : SchedulingStateMachine :=
  ex_state ('(_, st) ← schedule_task ex_deref 2 ex1; Ret st).
Definition ex3 : SchedulingStateMachine :=
  ex_state ('(_, st) ← schedule_task ex_deref 3 ex2; Ret st).
(** Task 1 is done: task 2 is unblocked, task 3 still waits for it. *)
Definition ex4 : SchedulingStateMachine := ex_state (deschedule_task ex_deref 1 ex3).
Definition ex_empty : SchedulingStateMachine := ex_state (deschedule_task ex_deref 1 ex1).

Lemma ex_valid t : valid_task ex_deref t.
Proof.
  unfold valid_task, contexts, ex_deref. simpl. destruct (t =? 3); simpl; split; try done.
  - repeat constructor; set_solver.
  - apply NoDup_singleton.
Qed.

Lemma ex1_reachable : reachable ex_deref [1] [1] ex1.
Proof.
  apply (reach_schedule ex_deref [] [] ex0 1 false (Some 1)); try apply ex_valid; try done.
  - apply (reach_init ex_deref (Some 4)); [|done]. intros m [= <-]. done.
  - apply not_elem_of_nil.
Qed.

Lemma ex3_reachable : reachable ex_deref [1; 2; 3] [1] ex3.
Proof.
  apply (reach_schedule ex_deref [1; 2] [1] ex2 3 false None); try apply ex_valid; try done.
  - apply (reach_schedule ex_deref [1] [1] ex1 2 false None); try apply ex_valid; try done.
    + apply ex1_reachable.
    + set_solver.
  - set_solver.
Qed.

Lemma ex4_reachable : reachable ex_deref [2; 3] [] ex4.
Proof. by apply (reach_deschedule ex_deref [1; 2; 3] [1] [] ex3 1); [apply ex3_reachable|..]. Qed.

Lemma ex_empty_reachable : reachable ex_deref [] [] ex_empty.
Proof. by apply (reach_deschedule ex_deref [1] [1] [] ex1 1); [apply ex1_reachable|..]. Qed.

Lemma scheduler_refines_spec_witness :
  NoDup (unblocked_task_queue ex4 ++ []) ∧
  ∀ t, t ∈ unblocked_task_queue ex4 ++ [] ↔ may_run ex_deref [2; 3] t.
Proof. apply (scheduler_refines_spec ex_deref [2; 3] [] ex4), ex4_reachable. Defined.

(** Two readers of the same address run together. *)
Definition ex_readers (t : Task) : TaskInner unit := ex_deref 3.
Definition exr1 : SchedulingStateMachine :=
  ex_state ('(_, st) ← schedule_task ex_readers 1 ex0; Ret st).
Definition exr2 : SchedulingStateMachine :=
  ex_state ('(_, st) ← schedule_task ex_readers 2 exr1; Ret st).

Lemma exr2_reachable : reachable ex_readers [1; 2] [2; 1] exr2.
Proof.
  assert (∀ t, valid_task ex_readers t) as Hv by (intros t; apply (ex_valid 3)).
  apply (reach_schedule ex_readers [1] [1] exr1 2 false (Some 2)); try apply Hv; try done.
  - apply (reach_schedule ex_readers [] [] ex0 1 false (Some 1)); try apply Hv; try done.
    + apply (reach_init ex_readers (Some 4)); [|done]. intros m [= <-]. done.
    + apply not_elem_of_nil.
  - set_solver.
Qed.

Lemma running_tasks_never_conflict_witness : ¬ conflict ex_readers 1 2.
Proof.
  apply (running_tasks_never_conflict ex_readers [1; 2] [2; 1] exr2);
    [apply exr2_reachable|set_solver..].
Defined.

Lemma scheduler_never_panics_witness :
  ∃ st', deschedule_task ex_deref 1 ex3 = Ret st'.
Proof.
  destruct (scheduler_never_panics ex_deref [1; 2; 3] [1] ex3 ex3_reachable) as (_ & _ & H).
  apply H. constructor.
Defined.

Lemma scheduler_progress_witness : has_runnable_task ex4 = true.
Proof.
  destruct (scheduler_progress ex_deref [2; 3] [] ex4 ex4_reachable) as [H|H];
    [done|done|by destruct H|exact H].
Defined.

Lemma schedule_task_result_witness :
  ∃ r st', schedule_task ex_deref 2 ex1 = Ret (r, st') ∧ (r = Some 2 ∨ r = None).
Proof.
  destruct (schedule_task_result ex_deref [1] [1] ex1 2 ex1_reachable)
    as (r & st' & Hrun & Hor & _); [set_solver|apply ex_valid|done|eauto].
Defined.

Lemma scheduler_quiescent_witness :
  has_no_active_task ex_empty = true ∧ ∀ q, queue ex_empty q = UsageQueueInner_default.
Proof.
  split; [done|].
  apply (scheduler_quiescent ex_deref [] [] ex_empty ex_empty_reachable). done.
Defined.

Lemma clear_and_reinitialize_clears_witness :
  ∃ st', clear_and_reinitialize ex_deref ex4 = Ret (2, st').
Proof.
  destruct (clear_and_reinitialize_clears ex_deref [2; 3] ex4 ex4_reachable)
    as (st' & Hrun & _); [done|by exists st'].
Defined.
