(* ===== verification/ThreadLocks.v ===== *)
(** Thread-aware account locks of the banking stage's transaction scheduler,
    [core/src/banking_stage/transaction_scheduler/thread_aware_account_locks.rs]:
    bit sets of threads, and the table of read and write locks per account. *)

From S2P Require Import Prelude.


Definition MAX_THREADS : Z := 64.
Abbreviation ThreadId := Z (only parsing).

(** * Bit sets of threads *)

Module ThreadSet.

(** The [u64] of the struct. *)
Definition t := Z.

Definition none : t := 0.
(** [0b1 << thread_id]: a shift of a [u64] masks its amount to six bits (thread
    identifiers are below 64, so the mask changes none of them). *)
Definition as_flag (thread_id : ThreadId) : t := Z.shiftl 1 (Z.land thread_id 63).
Definition any (num_threads : Z) : t :=
  if num_threads =? MAX_THREADS then u64_MAX else as_flag num_threads - 1.
Definition only (thread_id : ThreadId) : t := as_flag thread_id.

(** The set bits of a word, lowest first; [count_ones] and [trailing_zeros]. *)
Definition bits (s : t) : list Z := filter (λ i, Z.testbit s i = true) (seqZ 0 64).
Definition count_ones (s : t) : Z := Z.of_nat (length (bits s)).
Definition trailing_zeros (s : t) : Z := default 64 (head (bits s)).

Definition num_threads (s : t) : Z := count_ones s.
Definition only_one_contained (s : t) : option ThreadId :=
  if num_threads s =? 1 then Some (trailing_zeros s) else None.
Definition is_empty (s : t) : bool := s =? none.
Definition contains (s : t) (thread_id : ThreadId) : bool :=
  negb (Z.land s (as_flag thread_id) =? 0).
(** [!x] on 64 bits. *)
Definition not64 (x : Z) : Z := Z.lxor x u64_MAX.
Definition insert (s : t) (thread_id : ThreadId) : t := Z.lor s (as_flag thread_id).
Definition remove (s : t) (thread_id : ThreadId) : t := Z.land s (not64 (as_flag thread_id)).
Definition bitand (s rhs : t) : t := Z.land s rhs.
Definition sub (s rhs : t) : t := Z.land s (not64 rhs).

(** [ThreadSetIterator::next]: the lowest thread, and the word without it. *)
Definition next (s : t) : option (ThreadId * t) :=
  if s =? 0 then None else Some (trailing_zeros s, Z.land s (s - 1)).

(** Running the iterator; a word has at most 64 bits to clear. *)
Fixpoint iterate (fuel : nat) (s : t) : list ThreadId :=
  match fuel with
  | O => []
  | S fuel => match next s with Some (i, s') => i :: iterate fuel s' | None => [] end
  end.
Definition contained_threads_iter (s : t) : list ThreadId := iterate 64 s.

End ThreadSet.

(** * The lock table *)

Record AccountWriteLocks := {
  thread_id : ThreadId;
  lock_count : Z;
}.

Record AccountReadLocks := {
  thread_set : ThreadSet.t;
  lock_counts : list Z;
}.

Record AccountLocks := {
  write_locks : option AccountWriteLocks;
  read_locks : option AccountReadLocks;
}.

Definition AccountLocks_default : AccountLocks := {| write_locks := None; read_locks := None |}.

Inductive TryLockError := MultipleConflicts | ThreadNotAllowed.

Record ThreadAwareAccountLocks := {
  num_threads : Z;
  locks : gmap Pubkey AccountLocks;
}.

Module Locks.

Definition new (num_threads : Z) : outcome ThreadAwareAccountLocks :=
  assert_ (0 <? num_threads) ;;
  assert_ (num_threads <=? MAX_THREADS) ;;
  Ret {| num_threads := num_threads; locks := ∅ |}.

Definition set_locks (l : gmap Pubkey AccountLocks) (st : ThreadAwareAccountLocks) :=
  {| num_threads := num_threads st; locks := l |}.

(** [schedulable_threads::<WRITE>]. *)
Definition schedulable_threads (WRITE : bool) (account : Pubkey)
    (st : ThreadAwareAccountLocks) : outcome ThreadSet.t :=
  match locks st !! account with
  | None => Ret (ThreadSet.any (num_threads st))
  | Some {| write_locks := None; read_locks := Some rl |} =>
      if WRITE then
        Ret (match ThreadSet.only_one_contained (thread_set rl) with
             | Some i => ThreadSet.only i
             | None => ThreadSet.none
             end)
      else Ret (ThreadSet.any (num_threads st))
  | Some {| write_locks := Some wl; read_locks := None |} =>
      Ret (ThreadSet.only (thread_id wl))
  | Some {| write_locks := Some wl; read_locks := Some rl |} =>
      assert_ (bool_decide
        (ThreadSet.only_one_contained (thread_set rl) = Some (thread_id wl))) ;;
      Ret (thread_set rl)
  | Some {| write_locks := None; read_locks := None |} => Panic
  end.

Definition write_schedulable_threads := schedulable_threads true.
Definition read_schedulable_threads := schedulable_threads false.

(** The two loops of [accounts_schedulable_threads], with their early return. *)
Fixpoint intersect_schedulable (WRITE : bool) (accounts : list Pubkey)
    (schedulable : ThreadSet.t) (st : ThreadAwareAccountLocks)
    : outcome (option ThreadSet.t) :=
  match accounts with
  | [] => Ret (Some schedulable)
  | account :: accounts =>
      s ← (if WRITE then write_schedulable_threads account st
           else read_schedulable_threads account st);
      let schedulable := ThreadSet.bitand schedulable s in
      if ThreadSet.is_empty schedulable then Ret None
      else intersect_schedulable WRITE accounts schedulable st
  end.

Definition accounts_schedulable_threads (write_account_locks read_account_locks : list Pubkey)
    (st : ThreadAwareAccountLocks) : outcome (option ThreadSet.t) :=
  w ← intersect_schedulable true write_account_locks (ThreadSet.any (num_threads st)) st;
  match w with
  | None => Ret None
  | Some schedulable => intersect_schedulable false read_account_locks schedulable st
  end.

Definition write_lock_account (account : Pubkey) (th : ThreadId)
    (st : ThreadAwareAccountLocks) : outcome ThreadAwareAccountLocks :=
  let entry := default AccountLocks_default (locks st !! account) in
  match read_locks entry with
  | Some rl => assert_ (bool_decide (ThreadSet.only_one_contained (thread_set rl) = Some th))
  | None => Ret tt
  end ;;
  wl ← match write_locks entry with
    | Some wl =>
        assert_ (thread_id wl =? th) ;;
        count ← add_ u32_MAX (lock_count wl) 1;
        Ret {| thread_id := thread_id wl; lock_count := count |}
    | None => Ret {| thread_id := th; lock_count := 1 |}
    end;
  Ret (set_locks (<[account := {| write_locks := Some wl; read_locks := read_locks entry |}]>
                    (locks st)) st).

Definition write_unlock_account (account : Pubkey) (th : ThreadId)
    (st : ThreadAwareAccountLocks) : outcome ThreadAwareAccountLocks :=
  entry ← unwrap (locks st !! account);
  wl ← unwrap (write_locks entry);
  assert_ (thread_id wl =? th) ;;
  count ← sub_ (lock_count wl) 1;
  if count =? 0 then
    match read_locks entry with
    | None => Ret (set_locks (delete account (locks st)) st)
    | Some rl => Ret (set_locks (<[account := {| write_locks := None;
                        read_locks := Some rl |}]> (locks st)) st)
    end
  else Ret (set_locks (<[account := {|
              write_locks := Some {| thread_id := thread_id wl; lock_count := count |};
              read_locks := read_locks entry |}]> (locks st)) st).

(** Indexing an array panics when out of range. *)
Definition index_ (l : list Z) (i : Z) : outcome Z :=
  if (0 <=? i) && (i <? Z.of_nat (length l)) then unwrap (l !! Z.to_nat i) else Panic.

Definition read_lock_account (account : Pubkey) (th : ThreadId)
    (st : ThreadAwareAccountLocks) : outcome ThreadAwareAccountLocks :=
  let entry := default AccountLocks_default (locks st !! account) in
  match write_locks entry with
  | Some wl => assert_ (thread_id wl =? th)
  | None => Ret tt
  end ;;
  rl ← match read_locks entry with
    | Some rl =>
        let set' := ThreadSet.insert (thread_set rl) th in
        count ← index_ (lock_counts rl) th;
        count ← add_ u32_MAX count 1;
        Ret {| thread_set := set'; lock_counts := <[Z.to_nat th := count]> (lock_counts rl) |}
    | None =>
        let counts := replicate (Z.to_nat MAX_THREADS) 0 in
        _ ← index_ counts th;
        Ret {| thread_set := ThreadSet.only th; lock_counts := <[Z.to_nat th := 1]> counts |}
    end;
  Ret (set_locks (<[account := {| write_locks := write_locks entry; read_locks := Some rl |}]>
                    (locks st)) st).

Definition read_unlock_account (account : Pubkey) (th : ThreadId)
    (st : ThreadAwareAccountLocks) : outcome ThreadAwareAccountLocks :=
  entry ← unwrap (locks st !! account);
  rl ← unwrap (read_locks entry);
  assert_ (ThreadSet.contains (thread_set rl) th) ;;
  count ← index_ (lock_counts rl) th;
  count ← sub_ count 1;
  let counts := <[Z.to_nat th := count]> (lock_counts rl) in
  let set_read rl := set_locks (<[account := {| write_locks := write_locks entry;
                                               read_locks := rl |}]> (locks st)) st in
  if count =? 0 then
    let set' := ThreadSet.remove (thread_set rl) th in
    if ThreadSet.is_empty set' then
      match write_locks entry with
      | None => Ret (set_locks (delete account (locks st)) st)
      | Some _ => Ret (set_read None)
      end
    else Ret (set_read (Some {| thread_set := set'; lock_counts := counts |}))
  else Ret (set_read (Some {| thread_set := thread_set rl; lock_counts := counts |})).

Definition lock_accounts (write_account_locks read_account_locks : list Pubkey)
    (th : ThreadId) (st : ThreadAwareAccountLocks) : outcome ThreadAwareAccountLocks :=
  assert_ (th <? num_threads st) ;;
  st ← for_each (λ account, write_lock_account account th) write_account_locks st;
  for_each (λ account, read_lock_account account th) read_account_locks st.

Definition unlock_accounts (write_account_locks read_account_locks : list Pubkey)
    (th : ThreadId) (st : ThreadAwareAccountLocks) : outcome ThreadAwareAccountLocks :=
  st ← for_each (λ account, write_unlock_account account th) write_account_locks st;
  for_each (λ account, read_unlock_account account th) read_account_locks st.

Definition try_lock_accounts (write_account_locks read_account_locks : list Pubkey)
    (allowed_threads : ThreadSet.t) (thread_selector : ThreadSet.t → ThreadId)
    (st : ThreadAwareAccountLocks)
    : outcome (result ThreadId TryLockError * ThreadAwareAccountLocks) :=
  s ← accounts_schedulable_threads write_account_locks read_account_locks st;
  match s with
  | None => Ret (Err MultipleConflicts, st)
  | Some schedulable =>
      let schedulable := ThreadSet.bitand schedulable allowed_threads in
      if ThreadSet.is_empty schedulable then Ret (Err ThreadNotAllowed, st)
      else
        let th := thread_selector schedulable in
        st ← lock_accounts write_account_locks read_account_locks th st;
        Ret (Ok th, st)
  end.

End Locks.
