(* ===== verification/ThreadLocksProps.v ===== *)
(** What the thread-aware account locks guarantee: the bit operations are those
    of finite sets of threads, and the lock table always represents the multiset
    of locks that were granted and not yet released. *)

From S2P Require Import Prelude ThreadLocks.


(** * Words as sets of threads *)

Section words.
Import ThreadSet.

Definition word (s : Z) : Prop := 0 ≤ s < 2 ^ 64.

Lemma word_high s i : word s → 64 ≤ i → Z.testbit s i = false.
Proof. intros [Hs Hlt] Hi. by apply (Z.bounded_iff_bits_nonneg 64 s). Qed.

Lemma word_low s i : i < 0 → Z.testbit s i = false.
Proof. intros Hi. by apply Z.testbit_neg_r. Qed.

Lemma word_intro s : 0 ≤ s → (∀ i, 64 ≤ i → Z.testbit s i = false) → word s.
Proof. intros Hs Hb. split; [done|]. by apply (Z.bounded_iff_bits_nonneg 64 s). Qed.

Lemma word_range s i : word s → Z.testbit s i = true → 0 ≤ i < 64.
Proof.
  intros Hs Hi. destruct (decide (i < 0)); [by rewrite word_low in Hi|].
  destruct (decide (64 ≤ i)); [by rewrite word_high in Hi|lia].
Qed.

Lemma word_zero s : (∀ i, Z.testbit s i = false) ↔ s = 0.
Proof.
  split; [|intros -> i; apply Z.testbit_0_l].
  intros H. apply Z.bits_inj'. intros i _. by rewrite H, Z.testbit_0_l.
Qed.

Lemma word_nonzero s : word s → s ≠ 0 → ∃ i, 0 ≤ i < 64 ∧ Z.testbit s i = true.
Proof.
  intros Hs Hne. destruct (Z.log2_spec s) as [_ _]; [destruct Hs; lia|].
  assert (Z.testbit s (Z.log2 s) = true) as Hb by (apply Z.bit_log2; destruct Hs; lia).
  exists (Z.log2 s). split; [by apply (word_range s)|done].
Qed.

Lemma testbit_as_flag i j : 0 ≤ i < 64 → Z.testbit (as_flag i) j = (i =? j).
Proof.
  intros Hi. unfold as_flag. change 63 with (Z.ones 6).
  rewrite Z.land_ones, Z.mod_small, Z.shiftl_1_l by lia. apply Z.pow2_bits_eqb. lia.
Qed.

Lemma testbit_u64_MAX j : 0 ≤ j → Z.testbit u64_MAX j = (j <? 64).
Proof.
  intros Hj. change u64_MAX with (Z.ones 64). destruct (Z.ltb_spec j 64).
  - by apply Z.ones_spec_low.
  - apply Z.ones_spec_high. lia.
Qed.

Lemma word_land s x : word s → word (Z.land s x).
Proof.
  intros Hs. apply word_intro.
  - apply Z.land_nonneg. destruct Hs; lia.
  - intros i Hi. by rewrite Z.land_spec, (word_high s).
Qed.

Lemma word_only i : 0 ≤ i < 64 → word (only i).
Proof.
  intros Hi. apply word_intro.
  - unfold only, as_flag. by apply Z.shiftl_nonneg.
  - intros j Hj. unfold only. rewrite testbit_as_flag by done. lia.
Qed.

Lemma word_insert s i : word s → 0 ≤ i < 64 → word (insert s i).
Proof.
  intros Hs Hi. destruct (word_only i Hi) as [Ho _]. apply word_intro.
  - apply Z.lor_nonneg. destruct Hs. by split.
  - intros j Hj. unfold insert. rewrite Z.lor_spec, (word_high s), testbit_as_flag by done. lia.
Qed.

Lemma testbit_insert s i j :
  0 ≤ i < 64 → Z.testbit (insert s i) j = Z.testbit s j || (i =? j).
Proof. intros Hi. unfold insert. by rewrite Z.lor_spec, testbit_as_flag. Qed.

Lemma testbit_remove s i j : word s → 0 ≤ i < 64 →
  Z.testbit (remove s i) j = Z.testbit s j && negb (i =? j).
Proof.
  intros Hs Hi. unfold remove, not64. rewrite Z.land_spec.
  destruct (Z.testbit s j) eqn:Hj; [|done]. apply word_range in Hj; [|done].
  rewrite Z.lxor_spec, testbit_as_flag, testbit_u64_MAX by lia.
  destruct (Z.ltb_spec j 64); [|lia]. by rewrite xorb_true_r.
Qed.

Lemma contains_testbit s i : 0 ≤ i < 64 → contains s i = Z.testbit s i.
Proof.
  intros Hi. unfold contains.
  assert (∀ j, Z.testbit (Z.land s (as_flag i)) j = Z.testbit s j && (i =? j)) as Hb.
  { intros j. by rewrite Z.land_spec, testbit_as_flag. }
  destruct (Z.testbit s i) eqn:Hs.
  - destruct (Z.eqb_spec (Z.land s (as_flag i)) 0) as [H0|]; [|done].
    specialize (Hb i). rewrite H0, Z.testbit_0_l, Hs in Hb. lia.
  - replace (Z.land s (as_flag i)) with 0; [done|]. symmetry. apply word_zero. intros j.
    rewrite Hb. destruct (Z.eqb_spec i j) as [<-|]; [by rewrite Hs|apply andb_false_r].
Qed.

Lemma testbit_any n j : 0 < n ≤ 64 → Z.testbit (any n) j = (0 <=? j) && (j <? n).
Proof.
  intros Hn. destruct (Z.leb_spec 0 j); [|by apply word_low]. simpl.
  unfold any, MAX_THREADS. destruct (Z.eqb_spec n 64) as [->|Hne]; [by apply testbit_u64_MAX|].
  unfold as_flag. change 63 with (Z.ones 6).
  rewrite Z.land_ones, Z.mod_small, Z.shiftl_1_l by lia.
  replace (2 ^ n - 1) with (Z.ones n) by (rewrite Z.ones_equiv; lia).
  destruct (Z.ltb_spec j n); [by apply Z.ones_spec_low|apply Z.ones_spec_high; lia].
Qed.

Lemma word_any n : 0 < n ≤ 64 → word (any n).
Proof.
  intros Hn. apply word_intro; [|intros i Hi; rewrite testbit_any by done; lia].
  unfold any. destruct (n =? MAX_THREADS); [done|]. unfold as_flag.
  rewrite Z.shiftl_1_l. pose proof (Z.pow_pos_nonneg 2 (Z.land n 63)) as Hp.
  assert (0 ≤ Z.land n 63) by (apply Z.land_nonneg; lia). lia.
Qed.

Lemma elem_of_bits s i : i ∈ bits s ↔ 0 ≤ i < 64 ∧ Z.testbit s i = true.
Proof.
  unfold bits. rewrite list_elem_of_filter, elem_of_seqZ. split; intros [? ?]; split; auto; lia.
Qed.

Lemma only_one_contained_Some s i : word s →
  only_one_contained s = Some i ↔ ∀ j, Z.testbit s j = true ↔ j = i.
Proof.
  intros Hs. unfold only_one_contained, num_threads, count_ones, trailing_zeros.
  assert (NoDup (bits s)) as Hnd by (apply NoDup_filter, NoDup_seqZ).
  assert (∀ j, j ∈ bits s ↔ Z.testbit s j = true) as Hb.
  { intros j. rewrite elem_of_bits. split; [naive_solver|]. eauto using word_range. }
  split.
  - destruct (bits s) as [|x [|y l]] eqn:E;
      [done| |cbn [length]; case_leb; [lia|done]].
    intros [= <-] j. rewrite <-Hb. set_solver.
  - intros Hi. assert (bits s = [i]) as ->; [|done].
    apply Permutation_singleton_r, NoDup_Permutation; [done|apply NoDup_singleton|].
    intros j. rewrite Hb, Hi. set_solver.
Qed.

Lemma word_insert_nonzero s i : 0 ≤ i < 64 → insert s i ≠ 0.
Proof.
  intros Hi H0. pose proof (testbit_insert s i i Hi) as H.
  rewrite H0, Z.testbit_0_l, Z.eqb_refl, orb_true_r in H. done.
Qed.

(** The lowest bit of a word, and what [s & (s - 1)] does to it. *)
Lemma bits_sorted s : StronglySorted Z.lt (bits s).
Proof.
  apply StronglySorted_filter, Sorted_StronglySorted; [apply _|]. vm_compute. repeat constructor.
Qed.

Lemma bits_head s i l : bits s = i :: l → ∀ j, Z.testbit s j = true → 0 ≤ j < 64 → i ≤ j.
Proof.
  intros Hb j Hj Hr.
  pose proof (bits_sorted s) as Hs.
  rewrite Hb in Hs. apply StronglySorted_inv in Hs as [_ Hall].
  assert (j ∈ bits s) as Hin by (by apply elem_of_bits). rewrite Hb in Hin.
  apply elem_of_cons in Hin as [->|Hin]; [lia|].
  rewrite Forall_forall in Hall. specialize (Hall j Hin). lia.
Qed.

Lemma testbit_clear_lowest s t j :
  0 ≤ t → Z.testbit s t = true → (∀ k, 0 ≤ k < t → Z.testbit s k = false) →
  Z.testbit (Z.land s (s - 1)) j = Z.testbit s j && negb (t =? j).
Proof.
  intros Ht Hst Hlow. rewrite Z.land_spec.
  destruct (decide (j < t)) as [Hjt|Hjt].
  { destruct (decide (j < 0)); [by rewrite !word_low|]. by rewrite Hlow by lia. }
  assert (s mod 2 ^ t = 0) as Hmod.
  { apply Z.bits_inj'. intros k Hk. rewrite Z.testbit_0_l.
    destruct (decide (k < t)); [rewrite Z.mod_pow2_bits_low by lia; apply Hlow; lia|].
    apply Z.mod_pow2_bits_high. lia. }
  assert (0 < 2 ^ t) as Hpos by lia.
  pose proof (Z.div_mod s (2 ^ t) ltac:(lia)) as Hdiv. rewrite Hmod, Z.add_0_r in Hdiv.
  set (m := s / 2 ^ t) in *.
  assert (Z.testbit m 0 = true) as Hodd.
  { unfold m. by rewrite Z.div_pow2_bits, Z.add_0_l by lia. }
  assert ((s - 1) / 2 ^ t = m - 1) as Hdiv1.
  { symmetry. apply (Z.div_unique_pos _ _ _ (2 ^ t - 1)); lia. }
  assert (∀ x, Z.testbit x j = Z.testbit (x / 2 ^ t) (j - t)) as Hsh.
  { intros x. rewrite Z.div_pow2_bits by lia. f_equal. lia. }
  rewrite !Hsh, Hdiv1. fold m.
  rewrite Z.bit0_odd in Hodd. apply Z.odd_spec in Hodd as [h Hh]. rewrite Hh.
  replace (2 * h + 1 - 1) with (2 * h) by lia.
  destruct (Z.eqb_spec t j) as [<-|Hne].
  - by rewrite Z.sub_diag, Z.testbit_even_0, !andb_false_r.
  - replace (j - t) with (Z.succ (j - t - 1)) by lia.
    rewrite Z.testbit_odd_succ, Z.testbit_even_succ by lia.
    by rewrite andb_diag, andb_true_r.
Qed.

Lemma next_spec s : word s →
  match next s with
  | None => bits s = []
  | Some (i, s') => word s' ∧ bits s = i :: bits s'
  end.
Proof.
  intros Hs. unfold next. destruct (Z.eqb_spec s 0) as [->|Hne]; [done|].
  destruct (word_nonzero s Hs Hne) as (k & Hk & Hbk).
  split; [by apply word_land|].
  destruct (bits s) as [|i l] eqn:Hb.
  { assert (k ∈ bits s) as Hin by (by apply elem_of_bits). rewrite Hb in Hin. set_solver. }
  unfold trailing_zeros. rewrite Hb. simpl. f_equal.
  assert (0 ≤ i < 64 ∧ Z.testbit s i = true) as [Hi Hbi].
  { apply elem_of_bits. rewrite Hb. apply elem_of_cons. by left. }
  assert (∀ j, Z.testbit (Z.land s (s - 1)) j = Z.testbit s j && negb (i =? j)) as Hcl.
  { intros j. apply testbit_clear_lowest; [lia|done|]. intros n Hn.
    destruct (Z.testbit s n) eqn:E; [|done].
    pose proof (bits_head s i l Hb n E ltac:(lia)). lia. }
  assert (NoDup (bits s)) as Hnd by (apply NoDup_filter, NoDup_seqZ).
  assert (bits (Z.land s (s - 1)) = filter (λ j, j ≠ i) (bits s)) as ->.
  { unfold bits. rewrite list_filter_filter. apply list_filter_ext_in. intros j _.
    rewrite Hcl, andb_true_iff, negb_true_iff, Z.eqb_neq. naive_solver. }
  rewrite Hb in *. apply NoDup_cons in Hnd as [Hni _]. rewrite filter_cons_False by naive_solver.
  symmetry. apply list_filter_all_in. naive_solver.
Qed.

Lemma iterate_bits fuel s : word s → (length (bits s) ≤ fuel)%nat → iterate fuel s = bits s.
Proof.
  revert s. induction fuel as [|fuel IH]; intros s Hs Hf.
  - simpl. by destruct (bits s); [|simpl in Hf; lia].
  - simpl. pose proof (next_spec s Hs) as Hn. destruct (next s) as [[i s']|]; [|done].
    destruct Hn as [Hs' Hb]. rewrite Hb in Hf |- *. simpl in Hf. rewrite IH by (done || lia). done.
Qed.

Lemma length_bits s : (length (bits s) ≤ 64)%nat.
Proof. unfold bits. etrans; [apply length_filter|]. done. Qed.

End words.

(** * The table represents the locks that are held *)

(** One lock: whether it is a write lock, its account and its thread. *)
Abbreviation Lock := (bool * Pubkey * ThreadId)%type (only parsing).

Definition rep_write (n : Z) (o : option AccountWriteLocks) (cw : ThreadId → Z) : Prop :=
  match o with
  | None => ∀ th, cw th = 0
  | Some wl => 0 < lock_count wl ∧ 0 ≤ thread_id wl < n ∧
      ∀ th, cw th = if th =? thread_id wl then lock_count wl else 0
  end.

Definition rep_read (n : Z) (o : option AccountReadLocks) (cr : ThreadId → Z) : Prop :=
  match o with
  | None => ∀ th, cr th = 0
  | Some rl => word (thread_set rl) ∧ thread_set rl ≠ 0 ∧ length (lock_counts rl) = 64%nat ∧
      (∀ th, 0 ≤ th < 64 → lock_counts rl !! Z.to_nat th = Some (cr th)) ∧
      (∀ th, Z.testbit (thread_set rl) th = (0 <? cr th)) ∧
      (∀ th, 0 ≤ cr th) ∧ (∀ th, 0 < cr th → 0 ≤ th < n)
  end.

Definition rep_account (n : Z) (o : option AccountLocks) (cw cr : ThreadId → Z) : Prop :=
  rep_write n (o ≫= write_locks) cw ∧ rep_read n (o ≫= read_locks) cr ∧
  o ≠ Some AccountLocks_default ∧
  (∀ th th', 0 < cw th → 0 < cr th' → th' = th).

Definition Rep (st : ThreadAwareAccountLocks) (H : list Lock) : Prop :=
  0 < num_threads st ≤ 64 ∧
  ∀ a, rep_account (num_threads st) (locks st !! a)
         (λ th, cnt H (true, a, th)) (λ th, cnt H (false, a, th)).

#[global] Instance Rep_proper : Proper ((=) ==> (≡ₚ) ==> iff) Rep.
Proof.
  assert (∀ st H H', H ≡ₚ H' → Rep st H → Rep st H') as Hg.
  { intros st H H' HP [Hn HR]. split; [done|]. intros a. specialize (HR a).
    destruct HR as (Hw & Hr & Hd & Hx). split_and!; [..|done|].
    - unfold rep_write in *. destruct (_ ≫= write_locks); setoid_rewrite <-HP; done.
    - unfold rep_read in *. destruct (_ ≫= read_locks); setoid_rewrite <-HP; done.
    - setoid_rewrite <-HP. done. }
  intros st ? <- H H' HP. split; by apply Hg.
Qed.

(** The table is determined by the locks that are held. *)
Lemma rep_write_inj n o o' cw : rep_write n o cw → rep_write n o' cw → o = o'.
Proof.
  destruct o as [[t c]|], o' as [[t' c']|]; simpl; try done.
  - intros (Hc & _ & H) (Hc' & _ & H'). pose proof (H t) as H1. pose proof (H' t) as H2.
    rewrite Z.eqb_refl in H1. destruct (Z.eqb_spec t t') as [->|]; [|lia]. do 2 f_equal; lia.
  - intros (Hc & _ & H) H'. specialize (H t). rewrite H', Z.eqb_refl in H. lia.
  - intros H' (Hc & _ & H). specialize (H t'). rewrite H', Z.eqb_refl in H. lia.
Qed.

Lemma rep_read_inj n o o' cr : rep_read n o cr → rep_read n o' cr → o = o'.
Proof.
  assert (∀ rl, rep_read n (Some rl) cr → ∃ th, 0 < cr th) as Hex.
  { intros rl (Hs & Hne & _ & _ & Hb & _). destruct (word_nonzero _ Hs Hne) as (i & _ & Hi).
    exists i. rewrite Hb in Hi. by apply Z.ltb_lt. }
  destruct o as [[s l]|] eqn:Eo, o' as [[s' l']|] eqn:Eo'; try done.
  - intros (_ & _ & Hlen & Hl & Hb & _) (_ & _ & Hlen' & Hl' & Hb' & _). simpl in *. do 2 f_equal.
    + apply Z.bits_inj'. intros i _. by rewrite Hb, Hb'.
    + apply list_eq. intros i. destruct (decide (i < 64)%nat).
      * rewrite <-(Nat2Z.id i), Hl, Hl' by lia. done.
      * rewrite !lookup_ge_None_2 by lia. done.
  - intros [th Hth]%Hex H0. rewrite H0 in Hth. lia.
  - intros H0 [th Hth]%Hex. rewrite H0 in Hth. lia.
Qed.

Lemma Rep_inj st st' H :
  num_threads st = num_threads st' → Rep st H → Rep st' H → st = st'.
Proof.
  destruct st as [n l], st' as [n' l']. intros Hn [_ HR] [_ HR']. simpl in *. subst. f_equal.
  apply map_eq. intros a. destruct (HR a) as (Hw & Hr & Hd & _), (HR' a) as (Hw' & Hr' & Hd' & _).
  pose proof (rep_write_inj _ _ _ _ Hw Hw') as Ew. pose proof (rep_read_inj _ _ _ _ Hr Hr') as Er.
  destruct (l !! a) as [[w r]|], (l' !! a) as [[w' r']|]; simpl in *; naive_solver.
Qed.

(** * Locking and unlocking one account *)

Lemma rep_write_ext n o cw cw' :
  (∀ th, cw' th = cw th) → rep_write n o cw → rep_write n o cw'.
Proof. intros E. unfold rep_write. destruct o; setoid_rewrite E; done. Qed.

Lemma rep_read_ext n o cr cr' :
  (∀ th, cr' th = cr th) → rep_read n o cr → rep_read n o cr'.
Proof. intros E. unfold rep_read. destruct o; setoid_rewrite E; done. Qed.

Lemma Rep_update st H H' a o :
  Rep st H → (∀ w b th, b ≠ a → cnt H' (w, b, th) = cnt H (w, b, th)) →
  rep_account (num_threads st) o (λ th, cnt H' (true, a, th)) (λ th, cnt H' (false, a, th)) →
  Rep (Locks.set_locks (partial_alter (λ _, o) a (locks st)) st) H'.
Proof.
  intros [Hn HR] Hne Ho. split; [done|]. intros b. simpl.
  destruct (decide (b = a)) as [->|Hb]; [by rewrite lookup_partial_alter_eq|].
  rewrite lookup_partial_alter_ne by done. destruct (HR b) as (Hw & Hr & Hd & Hx).
  split_and!; [eapply rep_write_ext, Hw|eapply rep_read_ext, Hr|done|];
    [intros; by apply Hne..|].
  intros th th'. rewrite !Hne by done. apply Hx.
Qed.

Lemma cnt_cons_thread w a th (H : list Lock) th' :
  cnt ((w, a, th) :: H) (w, a, th') = cnt H (w, a, th') + (if th' =? th then 1 else 0).
Proof.
  rewrite cnt_cons. destruct (Z.eqb_spec th' th) as [->|].
  - rewrite decide_True by done. lia.
  - rewrite decide_False by congruence. lia.
Qed.

Lemma rep_read_only n rl cr th : rep_read n (Some rl) cr →
  (∀ th', 0 < cr th' → th' = th) →
  ThreadSet.only_one_contained (thread_set rl) = Some th.
Proof.
  intros (Hs & Hne & _ & _ & Hb & _) Hall. apply only_one_contained_Some; [done|].
  intros j. rewrite Hb, Z.ltb_lt. split; [apply Hall|]. intros ->.
  destruct (word_nonzero _ Hs Hne) as (i & _ & Hi). rewrite Hb, Z.ltb_lt in Hi.
  by rewrite <-(Hall i Hi).
Qed.

Lemma rep_write_holder n wl cw : rep_write n (Some wl) cw → cw (thread_id wl) = lock_count wl.
Proof. intros (_ & _ & Hw). by rewrite Hw, Z.eqb_refl. Qed.

Lemma index_Ret l i x : 0 ≤ i < 64 → length l = 64%nat →
  l !! Z.to_nat i = Some x → Locks.index_ l i = Ret x.
Proof.
  intros Hi Hl Hx. unfold Locks.index_. rewrite Hl, Hx.
  by rewrite (proj2 (Z.leb_le 0 i)), (proj2 (Z.ltb_lt i (Z.of_nat 64))) by lia.
Qed.

(** The counts of one account after one more lock of thread [th]. *)
Definition bump (c : ThreadId → Z) (th : ThreadId) (d : Z) : ThreadId → Z :=
  λ t, c t + (if t =? th then d else 0).

Lemma rep_write_bump n o cw th :
  rep_write n o cw → 0 ≤ th < n → cw th < u32_MAX → (∀ t, 0 < cw t → t = th) →
  ∃ wl, match o with
    | Some wl =>
        assert_ (thread_id wl =? th) ;;
        count ← add_ u32_MAX (lock_count wl) 1;
        Ret {| thread_id := thread_id wl; lock_count := count |}
    | None => Ret {| thread_id := th; lock_count := 1 |}
    end = Ret wl ∧ rep_write n (Some wl) (bump cw th 1).
Proof.
  intros Hw Hth Hmax Hall. destruct o as [wl|].
  - pose proof (rep_write_holder _ _ _ Hw) as Hc. destruct Hw as (Hp & Hr & Hcw).
    assert (thread_id wl = th) as Ht by (apply Hall; lia). subst th.
    rewrite Z.eqb_refl. simpl. run. eexists. split; [done|].
    unfold bump. split_and!; simpl; [lia..|]. intros t. rewrite Hcw. case_leb; lia.
  - eexists. split; [done|]. unfold bump. split_and!; simpl; [lia..|]. intros t.
    rewrite Hw. case_leb; lia.
Qed.

Lemma rep_write_drop n wl cw th :
  rep_write n (Some wl) (bump cw th 1) → (∀ t, 0 ≤ cw t) →
  thread_id wl = th ∧ 1 ≤ lock_count wl ∧
  rep_write n (if lock_count wl - 1 =? 0 then None
               else Some {| thread_id := th; lock_count := lock_count wl - 1 |}) cw.
Proof.
  unfold bump. intros (Hp & Hr & Hcw) Hnn.
  assert (thread_id wl = th) as Ht.
  { specialize (Hcw th). specialize (Hnn th). rewrite Z.eqb_refl in Hcw.
    destruct (Z.eqb_spec th (thread_id wl)); [done|lia]. }
  split_and!; [done|lia|]. subst th. destruct (Z.eqb_spec (lock_count wl - 1) 0).
  - intros t. specialize (Hcw t). destruct (t =? thread_id wl); lia.
  - split_and!; simpl; [lia..|]. intros t. specialize (Hcw t). destruct (t =? thread_id wl); lia.
Qed.

Lemma lookup_counts_insert (l : list Z) c th v t :
  length l = 64%nat → 0 ≤ th < 64 → 0 ≤ t < 64 →
  (∀ t, 0 ≤ t < 64 → l !! Z.to_nat t = Some (c t)) →
  <[Z.to_nat th := v]> l !! Z.to_nat t = Some (if t =? th then v else c t).
Proof.
  intros Hl Hth Ht Hc. destruct (Z.eqb_spec t th) as [->|].
  - apply list_lookup_insert_eq. lia.
  - rewrite list_lookup_insert_ne by lia. by apply Hc.
Qed.

Lemma rep_read_bump n o cr th :
  rep_read n o cr → 0 ≤ th < n → n ≤ 64 → cr th < u32_MAX →
  ∃ rl, match o with
    | Some rl =>
        let set' := ThreadSet.insert (thread_set rl) th in
        count ← Locks.index_ (lock_counts rl) th;
        count ← add_ u32_MAX count 1;
        Ret {| thread_set := set'; lock_counts := <[Z.to_nat th := count]> (lock_counts rl) |}
    | None =>
        let counts := replicate (Z.to_nat MAX_THREADS) 0 in
        _ ← Locks.index_ counts th;
        Ret {| thread_set := ThreadSet.only th; lock_counts := <[Z.to_nat th := 1]> counts |}
    end = Ret rl ∧ rep_read n (Some rl) (bump cr th 1).
Proof.
  intros Hr Hth Hn Hmax. destruct o as [rl|]; cbn zeta.
  - destruct Hr as (Hs & Hne & Hlen & Hc & Hb & Hnn & Hrg).
    rewrite (index_Ret _ _ (cr th)) by (lia || apply Hc; lia). simpl.
    run. eexists. split; [done|]. unfold bump.
    split_and!; simpl.
    + apply word_insert; [done|lia].
    + apply word_insert_nonzero. lia.
    + by rewrite length_insert.
    + intros t Ht. rewrite (lookup_counts_insert _ cr) by (done || lia).
      f_equal. destruct (Z.eqb_spec t th) as [->|]; lia.
    + intros t. rewrite testbit_insert, Hb, Z.eqb_sym by lia. specialize (Hnn t). repeat case_leb; lia.
    + intros t. specialize (Hnn t). case_leb; lia.
    + intros t. specialize (Hrg t). case_leb; lia.
  - assert (∀ t, 0 ≤ t < 64 → replicate (Z.to_nat MAX_THREADS) 0 !! Z.to_nat t = Some 0) as Hz.
    { intros t Ht. apply lookup_replicate_2. unfold MAX_THREADS. lia. }
    rewrite (index_Ret _ _ 0) by (done || lia || apply Hz; lia). simpl.
    eexists. split; [done|]. unfold bump. simpl in Hr. split_and!; simpl.
    + apply word_only. lia.
    + intros H0. pose proof (testbit_as_flag th th ltac:(lia)) as H.
      unfold ThreadSet.only in H0. rewrite H0, Z.testbit_0_l, Z.eqb_refl in H. done.
    + by rewrite length_insert.
    + intros t Ht. rewrite (lookup_counts_insert _ (λ _, 0)) by (done || lia). rewrite Hr.
      f_equal.
    + intros t. unfold ThreadSet.only. rewrite testbit_as_flag, Hr, Z.eqb_sym by lia.
      repeat case_leb; lia.
    + intros t. rewrite Hr. case_leb; lia.
    + intros t. rewrite Hr. case_leb; lia.
Qed.

Lemma rep_read_drop n rl cr th :
  rep_read n (Some rl) (bump cr th 1) → (∀ t, 0 ≤ cr t) → n ≤ 64 →
  let set' := ThreadSet.remove (thread_set rl) th in
  let counts := <[Z.to_nat th := cr th]> (lock_counts rl) in
  ThreadSet.contains (thread_set rl) th = true ∧
  Locks.index_ (lock_counts rl) th = Ret (cr th + 1) ∧
  rep_read n (if cr th =? 0 then
      if ThreadSet.is_empty set' then None
      else Some {| thread_set := set'; lock_counts := counts |}
    else Some {| thread_set := thread_set rl; lock_counts := counts |}) cr.
Proof.
  unfold bump. intros (Hs & Hne & Hlen & Hc & Hb & _ & Hrg) Hnn Hn. cbn zeta.
  assert (0 ≤ th < n) as Hth.
  { apply Hrg. specialize (Hnn th). rewrite Z.eqb_refl. lia. }
  assert (∀ t, 0 < cr t → 0 ≤ t < n) as Hrg'.
  { intros t Ht. apply Hrg. destruct (t =? th); lia. }
  assert (∀ t, 0 ≤ t < 64 → <[Z.to_nat th := cr th]> (lock_counts rl) !! Z.to_nat t = Some (cr t))
    as Hc'.
  { intros t Ht. rewrite (lookup_counts_insert _ _ th _ t Hlen ltac:(lia) Ht Hc).
    f_equal. destruct (Z.eqb_spec t th) as [->|]; lia. }
  split_and!.
  - rewrite contains_testbit, Hb, Z.eqb_refl by lia. specialize (Hnn th). apply Z.ltb_lt. lia.
  - apply index_Ret; [lia|done|]. by rewrite Hc, Z.eqb_refl by lia.
  - assert (∀ t, Z.testbit (ThreadSet.remove (thread_set rl) th) t = (0 <? cr t) && negb (th =? t))
      as Hrm.
    { intros t. rewrite testbit_remove, Hb by (done || lia). rewrite (Z.eqb_sym t).
      destruct (th =? t); simpl; [by rewrite !andb_false_r|by rewrite Z.add_0_r]. }
    destruct (Z.eqb_spec (cr th) 0) as [H0|Hpos].
    + assert (∀ t, Z.testbit (ThreadSet.remove (thread_set rl) th) t = (0 <? cr t)) as Hb'.
      { intros t. rewrite Hrm. destruct (Z.eqb_spec th t) as [<-|]; [by rewrite H0|].
        apply andb_true_r. }
      unfold ThreadSet.is_empty, ThreadSet.none.
      destruct (Z.eqb_spec (ThreadSet.remove (thread_set rl) th) 0) as [E|E].
      * intros t. rewrite E in Hb'. specialize (Hb' t). rewrite Z.testbit_0_l in Hb'.
        specialize (Hnn t). symmetry in Hb'. bsimp. lia.
      * split_and!; simpl; [by apply word_land|done|by rewrite length_insert|done..].
    + split_and!; simpl; [done|done|by rewrite length_insert|done| |done|done].
      intros t. rewrite Hb. specialize (Hnn t). destruct (Z.eqb_spec t th) as [->|]; repeat case_leb; lia.
Qed.

(** A lock may be added when every conflicting holder is the same thread. *)
Definition compatible (H : list Lock) (w : bool) (a : Pubkey) (th : ThreadId) : Prop :=
  (∀ th', (true, a, th') ∈ H → th' = th) ∧ (w = true → ∀ th', (false, a, th') ∈ H → th' = th).

Lemma cnt_bump w a th (H : list Lock) t : cnt ((w, a, th) :: H) (w, a, t) = bump (λ t, cnt H (w, a, t)) th 1 t.
Proof. apply cnt_cons_thread. Qed.

Lemma default_entry (o : option AccountLocks) :
  o ≫= write_locks = write_locks (default AccountLocks_default o) ∧
  o ≫= read_locks = read_locks (default AccountLocks_default o).
Proof. by destruct o. Qed.

Lemma write_lock_account_spec st H a th :
  Rep st H → 0 ≤ th < num_threads st → Z.of_nat (length H) < u32_MAX →
  compatible H true a th →
  ∃ st', Locks.write_lock_account a th st = Ret st' ∧
    num_threads st' = num_threads st ∧ Rep st' ((true, a, th) :: H).
Proof.
  intros HR Hth Hlen [Hcw Hcr]. pose proof (proj2 HR a) as (Hw & Hr & Hd & Hx).
  destruct (default_entry (locks st !! a)) as [Ew Er]. rewrite Ew in Hw. rewrite Er in Hr.
  unfold Locks.write_lock_account. set (e := default _ _) in *.
  pose proof (cnt_le_length H (true, a, th)) as Hle.
  destruct (rep_write_bump _ _ _ th Hw Hth) as (wl & Hwl & Hw'); [lia| |].
  { intros t Ht. by apply Hcw, cnt_pos. }
  rewrite Hwl.
  assert (match read_locks e with
          | Some rl => assert_ (bool_decide
              (ThreadSet.only_one_contained (thread_set rl) = Some th))
          | None => Ret tt end = Ret tt) as ->.
  { destruct (read_locks e) as [rl|]; [|done]. rewrite bool_decide_eq_true_2; [done|].
    apply (rep_read_only _ _ _ _ Hr). intros th' Hp. by apply Hcr, cnt_pos. }
  simpl. eexists. split_and!; [done..|].
  apply (Rep_update _ H); [done|intros; apply cnt_cons_ne; congruence|].
  split_and!; [|eapply rep_read_ext, Hr|done|].
  - eapply rep_write_ext, Hw'. intros. apply cnt_bump.
  - intros. by apply cnt_cons_ne.
  - intros t t' Ht%cnt_pos Ht'%cnt_pos. set_solver.
Qed.

Lemma read_lock_account_spec st H a th :
  Rep st H → 0 ≤ th < num_threads st → Z.of_nat (length H) < u32_MAX →
  compatible H false a th →
  ∃ st', Locks.read_lock_account a th st = Ret st' ∧
    num_threads st' = num_threads st ∧ Rep st' ((false, a, th) :: H).
Proof.
  intros HR Hth Hlen [Hcw _]. pose proof (proj2 HR a) as (Hw & Hr & Hd & Hx).
  destruct (default_entry (locks st !! a)) as [Ew Er]. rewrite Ew in Hw. rewrite Er in Hr.
  unfold Locks.read_lock_account. set (e := default _ _) in *.
  pose proof (cnt_le_length H (false, a, th)) as Hle.
  destruct (rep_read_bump _ _ _ th Hr Hth) as (rl & Hrl & Hr'); [apply HR|lia|].
  cbn zeta in Hrl. rewrite Hrl.
  assert (match write_locks e with
          | Some wl => assert_ (thread_id wl =? th) | None => Ret tt end = Ret tt) as ->.
  { destruct (write_locks e) as [wl|]; [|done]. pose proof (rep_write_holder _ _ _ Hw) as Hc.
    rewrite (Hcw (thread_id wl)), Z.eqb_refl; [done|]. apply cnt_pos. rewrite Hc. apply Hw. }
  simpl. eexists. split_and!; [done..|].
  apply (Rep_update _ H); [done|intros; apply cnt_cons_ne; congruence|].
  split_and!; [eapply rep_write_ext, Hw| |by intros [=]|].
  - intros. by apply cnt_cons_ne.
  - eapply rep_read_ext, Hr'. intros. apply cnt_bump.
  - intros t t' Ht%cnt_pos Ht'%cnt_pos.
    apply elem_of_cons in Ht as [[=]|Ht]. apply elem_of_cons in Ht' as [[= ->]|Ht'].
    + symmetry. by apply Hcw.
    + apply Hx; by apply cnt_pos.
Qed.

Lemma write_unlock_account_spec st H a th :
  Rep st ((true, a, th) :: H) →
  ∃ st', Locks.write_unlock_account a th st = Ret st' ∧
    num_threads st' = num_threads st ∧ Rep st' H.
Proof.
  intros HR. pose proof (proj2 HR a) as (Hw & Hr & Hd & Hx).
  apply (rep_write_ext _ _ _ (bump (λ t, cnt H (true, a, t)) th 1)) in Hw;
    [|intros; symmetry; apply cnt_bump].
  apply (rep_read_ext _ _ _ (λ t, cnt H (false, a, t))) in Hr;
    [|intros; symmetry; by apply cnt_cons_ne].
  assert (∃ e wl, locks st !! a = Some e ∧ write_locks e = Some wl) as (e & wl & He & Hwl).
  { destruct (locks st !! a ≫= write_locks) as [wl|] eqn:E.
    - apply bind_Some in E as (e & ? & ?). eauto.
    - specialize (Hw th). unfold bump in Hw. rewrite Z.eqb_refl in Hw.
      pose proof (cnt_nonneg H (true, a, th)). lia. }
  unfold Locks.write_unlock_account. rewrite He in Hw, Hr |- *. simpl in Hw, Hr |- *.
  rewrite Hwl in Hw |- *. simpl.
  destruct (rep_write_drop _ _ _ _ Hw) as (Ht & Hc & Hw'); [intros; apply cnt_nonneg|].
  rewrite Ht, Z.eqb_refl. simpl. rewrite sub_Ret by done. simpl.
  assert (∀ o, rep_account (num_threads st) o (λ t, cnt H (true, a, t)) (λ t, cnt H (false, a, t)) →
    Rep (Locks.set_locks (partial_alter (λ _, o) a (locks st)) st) H) as Hup.
  { intros o. apply (Rep_update _ ((true, a, th) :: H)); [done|].
    intros. symmetry. apply cnt_cons_ne. congruence. }
  assert (∀ t t', 0 < cnt H (true, a, t) → 0 < cnt H (false, a, t') → t' = t) as Hx'.
  { intros t t' H1 H2. apply Hx; rewrite cnt_cons; case_decide; lia. }
  destruct (lock_count wl - 1 =? 0); [destruct (read_locks e) as [rl|] eqn:Erl|];
    (eexists; split_and!; [done..|]; apply Hup; by split_and!).
Qed.

Lemma read_unlock_account_spec st H a th :
  Rep st ((false, a, th) :: H) →
  ∃ st', Locks.read_unlock_account a th st = Ret st' ∧
    num_threads st' = num_threads st ∧ Rep st' H.
Proof.
  intros HR. pose proof (proj2 HR a) as (Hw & Hr & Hd & Hx).
  apply (rep_read_ext _ _ _ (bump (λ t, cnt H (false, a, t)) th 1)) in Hr;
    [|intros; symmetry; apply cnt_bump].
  apply (rep_write_ext _ _ _ (λ t, cnt H (true, a, t))) in Hw;
    [|intros; symmetry; by apply cnt_cons_ne].
  assert (∃ e rl, locks st !! a = Some e ∧ read_locks e = Some rl) as (e & rl & He & Hrl).
  { destruct (locks st !! a ≫= read_locks) as [rl|] eqn:E.
    - apply bind_Some in E as (e & ? & ?). eauto.
    - specialize (Hr th). unfold bump in Hr. rewrite Z.eqb_refl in Hr.
      pose proof (cnt_nonneg H (false, a, th)). lia. }
  unfold Locks.read_unlock_account. rewrite He in Hw, Hr |- *. simpl in Hw, Hr |- *.
  rewrite Hrl in Hr |- *. simpl.
  destruct (rep_read_drop _ _ _ _ Hr) as (Hct & Hix & Hr'); [intros; apply cnt_nonneg|apply HR|].
  pose proof (cnt_nonneg H (false, a, th)) as Hnn.
  rewrite Hct, Hix. simpl. run. simpl. rewrite Z.add_simpl_r.
  assert (∀ o, rep_account (num_threads st) o (λ t, cnt H (true, a, t)) (λ t, cnt H (false, a, t)) →
    Rep (Locks.set_locks (partial_alter (λ _, o) a (locks st)) st) H) as Hup.
  { intros o. apply (Rep_update _ ((false, a, th) :: H)); [done|].
    intros. symmetry. apply cnt_cons_ne. congruence. }
  assert (∀ t t', 0 < cnt H (true, a, t) → 0 < cnt H (false, a, t') → t' = t) as Hx'.
  { intros t t' H1 H2. apply Hx; rewrite cnt_cons; case_decide; lia. }
  destruct (cnt H (false, a, th) =? 0);
    [destruct (ThreadSet.is_empty _); [destruct (write_locks e) as [wl|] eqn:Ewl|]|];
    (eexists; split_and!; [done..|]; apply Hup; by split_and!).
Qed.

(** * Locking and unlocking a transaction *)

(** The locks of one transaction that was scheduled on [th]. *)
Definition tx_locks (writes reads : list Pubkey) (th : ThreadId) : list Lock :=
  ((λ a, (true, a, th)) <$> writes) ++ ((λ a, (false, a, th)) <$> reads).

(** The threads on which a transaction can run beside the locks held. *)
Definition can_schedule (n : Z) (H : list Lock) (writes reads : list Pubkey) (th : ThreadId) : Prop :=
  0 ≤ th < n ∧ (∀ a, a ∈ writes → compatible H true a th) ∧
  (∀ a, a ∈ reads → compatible H false a th).

Lemma compatible_same H w a th w' b : 
  compatible H w a th → compatible ((w', b, th) :: H) w a th.
Proof. unfold compatible. set_solver. Qed.

Lemma for_each_lock (w : bool) op accounts th st H :
  (∀ st H a, Rep st H → 0 ≤ th < num_threads st → Z.of_nat (length H) < u32_MAX →
     compatible H w a th → ∃ st', op a th st = Ret st' ∧
       num_threads st' = num_threads st ∧ Rep st' ((w, a, th) :: H)) →
  Rep st H → 0 ≤ th < num_threads st →
  Z.of_nat (length accounts + length H) ≤ u32_MAX →
  (∀ a, a ∈ accounts → compatible H w a th) →
  ∃ st', for_each (λ a, op a th) accounts st = Ret st' ∧
    num_threads st' = num_threads st ∧ Rep st' (((λ a, (w, a, th)) <$> accounts) ++ H).
Proof.
  intros Hop. revert st H.
  induction accounts as [|a accounts IH]; intros st H HR Hth Hlen Hc; [by exists st|].
  simpl in Hlen |- *.
  destruct (Hop st H a) as (st1 & -> & Hn1 & HR1); [done|done|lia|apply Hc; set_solver|]. simpl.
  destruct (IH st1 _ HR1) as (st2 & -> & Hn2 & HR2); [lia|simpl; lia| |].
  { intros b Hb. apply compatible_same, Hc. set_solver. }
  exists st2. split_and!; [done|congruence|]. eapply Rep_proper, HR2; [done|].
  apply Permutation_middle.
Qed.

Lemma for_each_unlock (w : bool) op accounts th st H :
  (∀ st H a, Rep st ((w, a, th) :: H) → ∃ st', op a th st = Ret st' ∧
     num_threads st' = num_threads st ∧ Rep st' H) →
  Rep st (((λ a, (w, a, th)) <$> accounts) ++ H) →
  ∃ st', for_each (λ a, op a th) accounts st = Ret st' ∧
    num_threads st' = num_threads st ∧ Rep st' H.
Proof.
  intros Hop. revert st. induction accounts as [|a accounts IH]; intros st HR; [by exists st|].
  simpl in HR |- *. destruct (Hop _ _ _ HR) as (st1 & -> & Hn1 & HR1). simpl.
  destruct (IH st1 HR1) as (st2 & -> & Hn2 & HR2). exists st2. split_and!; congruence || done.
Qed.

Lemma lock_accounts_spec st H writes reads th :
  Rep st H → can_schedule (num_threads st) H writes reads th →
  Z.of_nat (length writes + length reads + length H) ≤ u32_MAX →
  ∃ st', Locks.lock_accounts writes reads th st = Ret st' ∧
    num_threads st' = num_threads st ∧ Rep st' (tx_locks writes reads th ++ H).
Proof.
  intros HR (Hth & Hw & Hr) Hlen. unfold Locks.lock_accounts, assert_.
  rewrite (proj2 (Z.ltb_lt _ _)) by lia. simpl.
  destruct (for_each_lock true Locks.write_lock_account writes th st H)
    as (st1 & -> & Hn1 & HR1); [intros; by apply write_lock_account_spec|done|done|lia|done|]. simpl.
  destruct (for_each_lock false Locks.read_lock_account reads th st1
    (((λ a, (true, a, th)) <$> writes) ++ H)) as (st2 & -> & Hn2 & HR2);
    [intros; by apply read_lock_account_spec|done|lia| | |].
  - rewrite length_app, length_fmap. lia.
  - intros a Ha. destruct (Hr a Ha) as [H1 _]. split; [|done]. intros th'.
    rewrite elem_of_app, list_elem_of_fmap. naive_solver.
  - exists st2. split_and!; [done|congruence|]. eapply Rep_proper, HR2; [done|].
    unfold tx_locks. rewrite !app_assoc. by rewrite (Permutation_app_comm (_ <$> writes)).
Qed.

Lemma unlock_accounts_spec st H writes reads th :
  Rep st (tx_locks writes reads th ++ H) →
  ∃ st', Locks.unlock_accounts writes reads th st = Ret st' ∧
    num_threads st' = num_threads st ∧ Rep st' H.
Proof.
  unfold tx_locks, Locks.unlock_accounts. intros HR. rewrite <-app_assoc in HR.
  destruct (for_each_unlock true Locks.write_unlock_account writes th _ _
    ltac:(intros; by apply write_unlock_account_spec) HR) as (st1 & -> & Hn1 & HR1). simpl.
  destruct (for_each_unlock false Locks.read_unlock_account reads th _ _
    ltac:(intros; by apply read_unlock_account_spec) HR1) as (st2 & -> & Hn2 & HR2).
  exists st2. split_and!; congruence || done.
Qed.

(** * Which threads are schedulable *)

Lemma rep_read_ex n rl cr : rep_read n (Some rl) cr → ∃ th, 0 < cr th.
Proof.
  intros (Hs & Hne & _ & _ & Hb & _). destruct (word_nonzero _ Hs Hne) as (i & _ & Hi).
  exists i. rewrite Hb in Hi. by apply Z.ltb_lt.
Qed.

Lemma schedulable_threads_spec st H w a : Rep st H →
  ∃ s, Locks.schedulable_threads w a st = Ret s ∧ word s ∧
    ∀ th, Z.testbit s th = true ↔ 0 ≤ th < num_threads st ∧ compatible H w a th.
Proof.
  intros [Hn HR]. destruct (HR a) as (Hw & Hr & Hd & Hx).
  assert (∀ th, compatible H w a th ↔
    (∀ t, 0 < cnt H (true, a, t) → t = th) ∧ (w = true → ∀ t, 0 < cnt H (false, a, t) → t = th))
    as Hcomp by (intros th; unfold compatible; by setoid_rewrite cnt_pos).
  unfold Locks.schedulable_threads. setoid_rewrite Hcomp. clear Hcomp.
  assert (∀ th, Z.testbit (ThreadSet.any (num_threads st)) th = true ↔ 0 ≤ th < num_threads st)
    as Hany.
  { intros th. rewrite testbit_any, andb_true_iff, Z.leb_le, Z.ltb_lt by done. done. }
  pose proof (word_any _ Hn) as Hwany.
  destruct (locks st !! a) as [[[wl|] [rl|]]|]; simpl in *; [..|done|].
  - pose proof (rep_write_holder _ _ _ Hw) as Hc. simpl in Hc. destruct Hw as (Hp & Hrg & Hcw).
    assert (∀ t, 0 < cnt H (false, a, t) → t = thread_id wl) as Honly.
    { intros t Ht. apply (Hx (thread_id wl)); [lia|done]. }
    pose proof (rep_read_only _ _ _ _ Hr Honly) as Hone.
    rewrite bool_decide_eq_true_2 by done. eexists. split_and!; [done|apply Hr|].
    rewrite only_one_contained_Some in Hone by apply Hr. intros th. rewrite Hone.
    split; [intros ->|intros (_ & H1 & _); symmetry; apply H1; lia].
    split_and!; [lia..| |done]. intros t. rewrite Hcw. case_leb; lia.
  - pose proof (rep_write_holder _ _ _ Hw) as Hc. simpl in Hc. destruct Hw as (Hp & Hrg & Hcw).
    eexists. split_and!; [done|apply word_only; lia|]. intros th. unfold ThreadSet.only.
    rewrite testbit_as_flag, Z.eqb_eq by lia.
    split; [intros <-|intros (_ & H1 & _); apply H1; lia].
    split_and!; [lia..| |]; [intros t; rewrite Hcw; case_leb; lia|]. intros _ t. rewrite Hr. lia.
  - destruct w.
    + eexists. split; [done|].
      destruct (ThreadSet.only_one_contained (thread_set rl)) as [i|] eqn:Hone.
      * rewrite only_one_contained_Some in Hone by apply Hr.
        destruct Hr as (Hs & Hne & _ & _ & Hb & _ & Hrg). setoid_rewrite Hb in Hone.
        setoid_rewrite Z.ltb_lt in Hone. pose proof (Hrg i (proj2 (Hone i) eq_refl)) as Hi.
        split; [apply word_only; lia|]. intros th. unfold ThreadSet.only.
        rewrite testbit_as_flag, Z.eqb_eq by lia. setoid_rewrite Hw. setoid_rewrite Hone.
        split; [intros <-; split_and!; [lia..|lia|done]|naive_solver].
      * split; [done|]. intros th. unfold ThreadSet.none. rewrite Z.testbit_0_l.
        split; [done|]. intros (_ & _ & H1). 
        rewrite (rep_read_only _ _ _ th Hr (H1 eq_refl)) in Hone. done.
    + eexists. split_and!; [done..|]. intros th. rewrite Hany. setoid_rewrite Hw.
      naive_solver lia.
  - eexists. split_and!; [done..|]. intros th. rewrite Hany. setoid_rewrite Hw.
    setoid_rewrite Hr. naive_solver lia.
Qed.

Lemma intersect_schedulable_spec w accounts st H s :
  Rep st H → word s → s ≠ 0 → (∀ th, Z.testbit s th = true → 0 ≤ th < num_threads st) →
  ∃ r, Locks.intersect_schedulable w accounts s st = Ret r ∧
    match r with
    | Some s' => word s' ∧ s' ≠ 0 ∧ ∀ th, Z.testbit s' th = true ↔
        Z.testbit s th = true ∧ ∀ a, a ∈ accounts → compatible H w a th
    | None => ∀ th, Z.testbit s th = true → ¬ ∀ a, a ∈ accounts → compatible H w a th
    end.
Proof.
  intros HR. revert s. induction accounts as [|a accounts IH]; intros s Hs Hne Hrg; simpl.
  { exists (Some s). split_and!; [done..|]. set_solver. }
  destruct (schedulable_threads_spec st H w a HR) as (s1 & Hs1 & _ & Hb1).
  replace (if w then Locks.write_schedulable_threads a st else Locks.read_schedulable_threads a st)
    with (Ret (A := ThreadSet.t) s1) by (by destruct w). simpl.
  assert (∀ th, Z.testbit (ThreadSet.bitand s s1) th = true ↔
    Z.testbit s th = true ∧ compatible H w a th) as Hb.
  { intros th. unfold ThreadSet.bitand. rewrite Z.land_spec, andb_true_iff, Hb1. naive_solver. }
  unfold ThreadSet.is_empty, ThreadSet.none.
  destruct (Z.eqb_spec (ThreadSet.bitand s s1) 0) as [E|E].
  - exists None. split; [done|]. intros th Hth Hall.
    assert (Z.testbit (ThreadSet.bitand s s1) th = true) as Hc by set_solver.
    by rewrite E, Z.testbit_0_l in Hc.
  - destruct (IH (ThreadSet.bitand s s1)) as (r & -> & Hr); [by apply word_land|done|naive_solver|].
    exists r. split; [done|]. destruct r as [s'|].
    + destruct Hr as (Hs' & Hne' & Hr). split_and!; [done..|]. intros th. rewrite Hr, Hb.
      setoid_rewrite elem_of_cons. naive_solver.
    + intros th Hth Hall. apply (Hr th); [|set_solver]. apply Hb. set_solver.
Qed.

Lemma accounts_schedulable_threads_spec st H writes reads : Rep st H →
  ∃ r, Locks.accounts_schedulable_threads writes reads st = Ret r ∧
    match r with
    | Some s => word s ∧ s ≠ 0 ∧
        ∀ th, Z.testbit s th = true ↔ can_schedule (num_threads st) H writes reads th
    | None => ∀ th, ¬ can_schedule (num_threads st) H writes reads th
    end.
Proof.
  intros HR. pose proof HR as [Hn _].
  assert (∀ th, Z.testbit (ThreadSet.any (num_threads st)) th = true ↔ 0 ≤ th < num_threads st)
    as Hany.
  { intros th. rewrite testbit_any, andb_true_iff, Z.leb_le, Z.ltb_lt by done. done. }
  unfold Locks.accounts_schedulable_threads, can_schedule.
  destruct (intersect_schedulable_spec true writes st H _ HR (word_any _ Hn)) as (w & -> & Hw).
  { intros E. specialize (Hany 0). rewrite E, Z.testbit_0_l in Hany.
    by assert (false = true) by (apply Hany; lia). }
  { intros th. apply Hany. }
  simpl. destruct w as [s|].
  - destruct Hw as (Hs & Hne & Hb).
    destruct (intersect_schedulable_spec false reads st H s HR Hs Hne) as (r & -> & Hr);
      [intros th; rewrite Hb, Hany; naive_solver|].
    exists r. split; [done|]. destruct r as [s'|].
    + destruct Hr as (Hs' & Hne' & Hr). split_and!; [done..|]. intros th.
      rewrite Hr, Hb, Hany. naive_solver.
    + intros th (? & ? & ?). apply (Hr th); [|done]. rewrite Hb, Hany. naive_solver.
  - exists None. split; [done|]. intros th (? & ? & _). apply (Hw th); [|done]. by rewrite Hany.
Qed.

(** A thread selector returns a thread of the non-empty set it is given. *)
Definition selects (selector : ThreadSet.t → ThreadId) : Prop :=
  ∀ s, word s → s ≠ 0 → Z.testbit s (selector s) = true.

Lemma try_lock_accounts_run st H writes reads allowed (selector : ThreadSet.t → ThreadId) :
  Rep st H → selects selector →
  Z.of_nat (length writes + length reads + length H) ≤ u32_MAX →
  ∃ r st', Locks.try_lock_accounts writes reads allowed selector st = Ret (r, st') ∧
    num_threads st' = num_threads st ∧
    match r with
    | Ok th => can_schedule (num_threads st) H writes reads th ∧ Z.testbit allowed th = true ∧
        Rep st' (tx_locks writes reads th ++ H)
    | Err MultipleConflicts => st' = st ∧ ∀ th, ¬ can_schedule (num_threads st) H writes reads th
    | Err ThreadNotAllowed => st' = st ∧
        (∃ th, can_schedule (num_threads st) H writes reads th) ∧
        ∀ th, can_schedule (num_threads st) H writes reads th → Z.testbit allowed th = false
    end.
Proof.
  intros HR Hsel Hlen. unfold Locks.try_lock_accounts.
  destruct (accounts_schedulable_threads_spec st H writes reads HR) as (o & -> & Ho). simpl.
  destruct o as [s|]; [|by eexists (Err MultipleConflicts), st].
  destruct Ho as (Hs & Hne & Hb).
  assert (∀ th, Z.testbit (ThreadSet.bitand s allowed) th = true ↔
    can_schedule (num_threads st) H writes reads th ∧ Z.testbit allowed th = true) as Hb'.
  { intros th. unfold ThreadSet.bitand. by rewrite Z.land_spec, andb_true_iff, Hb. }
  unfold ThreadSet.is_empty, ThreadSet.none.
  destruct (Z.eqb_spec (ThreadSet.bitand s allowed) 0) as [E|E].
  - eexists (Err ThreadNotAllowed), st. split_and!; [done..| |].
    + destruct (word_nonzero s Hs Hne) as (i & _ & Hi). exists i. by apply Hb.
    + intros th Hth. rewrite E in Hb'. specialize (Hb' th). rewrite Z.testbit_0_l in Hb'.
      destruct (Z.testbit allowed th); naive_solver.
  - set (th := selector (ThreadSet.bitand s allowed)).
    destruct (proj1 (Hb' th) (Hsel _ (word_land _ _ Hs) E)) as [Hcan Hall].
    destruct (lock_accounts_spec st H writes reads th HR Hcan Hlen) as (st' & -> & Hn & HR').
    simpl. by eexists (Ok th), st'.
Qed.

(** * Runs of the lock table *)

(** A transaction that was scheduled: its write and read accounts, its thread. *)
Definition Grant : Type := list Pubkey * list Pubkey * ThreadId.

Definition held (G : list Grant) : list Lock :=
  G ≫= λ g, tx_locks g.1.1 g.1.2 g.2.

#[global] Instance held_proper : Proper ((≡ₚ) ==> (≡ₚ)) held.
Proof. intros G G' HG. unfold held. by rewrite HG. Qed.

(** The states that calls of the two public operations lead to, with the
    transactions scheduled and not yet unlocked; only those are unlocked. *)
Inductive locks_reachable (n : Z) : list Grant → ThreadAwareAccountLocks → Prop :=
| locks_new st : Locks.new n = Ret st → locks_reachable n [] st
| locks_try G st writes reads allowed selector r st' :
    locks_reachable n G st → selects selector →
    Z.of_nat (length writes + length reads + length (held G)) ≤ u32_MAX →
    Locks.try_lock_accounts writes reads allowed selector st = Ret (r, st') →
    locks_reachable n (match r with Ok th => (writes, reads, th) :: G | Err _ => G end) st'
| locks_unlock G G' st writes reads th st' :
    locks_reachable n G st → G ≡ₚ (writes, reads, th) :: G' →
    Locks.unlock_accounts writes reads th st = Ret st' →
    locks_reachable n G' st'.

Lemma Rep_empty n :
  0 < n ≤ 64 → Rep {| num_threads := n; locks := ∅ |} [].
Proof. intros Hn. split; [done|]. intros a. simpl. rewrite lookup_empty. by split_and!. Qed.

Lemma locks_reachable_Rep n G st :
  locks_reachable n G st → num_threads st = n ∧ Rep st (held G).
Proof.
  induction 1 as [st Hnew|G st ws rs al sel r st' _ [IHn IH] Hsel Hlen Hrun
    |G G' st ws rs th st' _ [IHn IH] HG Hrun].
  - unfold Locks.new in Hnew. outcome_inv. bsimp. unfold MAX_THREADS in *.
    split; [done|]. apply Rep_empty. lia.
  - destruct (try_lock_accounts_run st _ ws rs al sel IH Hsel Hlen)
      as (r' & st1 & Hrun' & Hn & Hr). rewrite Hrun in Hrun'. injection Hrun' as <- <-.
    split; [congruence|]. destruct r as [th|[]]; [apply Hr|by destruct Hr as [-> _]..].
  - destruct (unlock_accounts_spec st (held G') ws rs th) as (st1 & Hrun' & Hn & HR).
    { eapply Rep_proper, IH; [done|]. by rewrite HG. }
    rewrite Hrun in Hrun'. injection Hrun' as <-. split; [congruence|done].
Qed.

Lemma elem_of_held (G : list Grant) (w : bool) a th : (w, a, th) ∈ held G ↔
  ∃ ws rs : list Pubkey, (ws, rs, th) ∈ G ∧ a ∈ (if w then ws else rs).
Proof.
  unfold held, tx_locks. rewrite list_elem_of_bind. split.
  - intros ([[ws rs] th'] & Hin & Hg). simpl in Hin. exists ws, rs.
    rewrite elem_of_app, !list_elem_of_fmap in Hin. destruct w; naive_solver.
  - intros (ws & rs & Hg & Ha). exists (ws, rs, th). split; [|done]. simpl.
    rewrite elem_of_app, !list_elem_of_fmap. destruct w; naive_solver.
Qed.

Lemma Rep_exclusive st H w a th th' :
  Rep st H → (true, a, th) ∈ H → (w, a, th') ∈ H → th' = th.
Proof.
  intros HR Hw%cnt_pos Hw'. destruct (proj2 HR a) as (Hrw & _ & _ & Hx).
  destruct w; [|by apply Hx; [|apply cnt_pos]]. apply cnt_pos in Hw'.
  destruct (_ ≫= write_locks) as [wl|]; [|rewrite Hrw in Hw; lia].
  destruct Hrw as (_ & _ & Hc). rewrite Hc in Hw, Hw'. repeat case_leb; try lia.
  repeat case_match; bsimp; congruence || lia.
Qed.

(** C20. Two transactions that hold locks on different threads never conflict: an
    account one of them writes is neither written nor read by the other. *)
Theorem thread_locks_never_conflict n G st ws1 rs1 th1 ws2 rs2 th2 a :
  locks_reachable n G st → (ws1, rs1, th1) ∈ G → (ws2, rs2, th2) ∈ G → th1 ≠ th2 →
  a ∈ ws1 → (a ∉ ws2) ∧ (a ∉ rs2).
Proof.
  intros [_ HR]%locks_reachable_Rep H1 H2 Hne Ha.
  assert ((true, a, th1) ∈ held G) as Hw by (apply elem_of_held; eauto).
  split; intros Hin; apply Hne; symmetry; eapply Rep_exclusive; [done|exact Hw| |done|exact Hw|].
  - apply (elem_of_held _ true). eauto.
  - apply (elem_of_held _ false). eauto.
Qed.

(** [try_lock_accounts] always returns, and decides exactly: it locks the
    accounts on an allowed thread on which the transaction conflicts with no lock
    of another thread, it reports [MultipleConflicts] only if there is no such
    thread at all, and [ThreadNotAllowed] only if none of them is allowed. *)
Theorem try_lock_accounts_exact n G st writes reads allowed selector :
  locks_reachable n G st → selects selector →
  Z.of_nat (length writes + length reads + length (held G)) ≤ u32_MAX →
  ∃ r st', Locks.try_lock_accounts writes reads allowed selector st = Ret (r, st') ∧
    match r with
    | Ok th => can_schedule n (held G) writes reads th ∧ Z.testbit allowed th = true
    | Err e => st' = st ∧ match e with
        | MultipleConflicts => ∀ th, ¬ can_schedule n (held G) writes reads th
        | ThreadNotAllowed => (∃ th, can_schedule n (held G) writes reads th) ∧
            ∀ th, can_schedule n (held G) writes reads th → Z.testbit allowed th = false
        end
    end.
Proof.
  intros [<- HR]%locks_reachable_Rep Hsel Hlen.
  destruct (try_lock_accounts_run st _ writes reads allowed selector HR Hsel Hlen)
    as (r & st' & Hrun & _ & Hr). exists r, st'. split; [done|]. destruct r as [th|[]]; naive_solver.
Qed.

(** Unlocking what was locked gives back exactly the table from before, and
    a table with no transaction left is empty. *)
Theorem unlock_accounts_restores n G st writes reads allowed selector th st' :
  locks_reachable n G st → selects selector →
  Z.of_nat (length writes + length reads + length (held G)) ≤ u32_MAX →
  Locks.try_lock_accounts writes reads allowed selector st = Ret (Ok th, st') →
  Locks.unlock_accounts writes reads th st' = Ret st ∧ (G = [] → locks st = ∅).
Proof.
  intros [<- HR]%locks_reachable_Rep Hsel Hlen Hrun.
  destruct (try_lock_accounts_run st _ writes reads allowed selector HR Hsel Hlen)
    as (r & st1 & Hrun' & Hn & Hr). rewrite Hrun in Hrun'. injection Hrun' as <- <-.
  destruct Hr as (_ & _ & HR').
  destruct (unlock_accounts_spec st' _ _ _ _ HR') as (st2 & -> & Hn2 & HR2). split.
  - f_equal. apply (Rep_inj _ _ (held G)); [congruence|done|done].
  - intros ->.
    by rewrite (Rep_inj st {| num_threads := num_threads st; locks := ∅ |} [] eq_refl HR
      (Rep_empty _ (proj1 HR))).
Qed.

(** The iterator over a thread set yields each contained thread once, in
    increasing order, and [contains] tells which they are. *)
Theorem contained_threads_iter_correct s : word s →
  StronglySorted Z.lt (ThreadSet.contained_threads_iter s) ∧
  ∀ th, th ∈ ThreadSet.contained_threads_iter s ↔
    0 ≤ th < 64 ∧ ThreadSet.contains s th = true.
Proof.
  intros Hs. unfold ThreadSet.contained_threads_iter.
  rewrite iterate_bits by (done || apply length_bits). split; [apply bits_sorted|].
  intros th. rewrite elem_of_bits. split; intros [Hr Hb]; split; try done.
  - by rewrite contains_testbit.
  - by rewrite <-contains_testbit.
Qed.

(** * Examples *)

(** Four threads; transaction 1 writes account 7 and reads 8 on thread 0; then a
    reader of 8 and writer of 9 runs on thread 1. *)
Definition ex_selector : ThreadSet.t → ThreadId := ThreadSet.trailing_zeros.

Lemma ex_selects : selects ex_selector.
Proof.
  intros s Hs Hne. destruct (word_nonzero s Hs Hne) as (i & Hi & Hb).
  assert (i ∈ ThreadSet.bits s) as Hin by (by apply elem_of_bits).
  unfold ex_selector, ThreadSet.trailing_zeros.
  destruct (ThreadSet.bits s) as [|x l] eqn:E; [set_solver|]. simpl.
  assert (x ∈ ThreadSet.bits s) as Hx by (rewrite E; left). by apply elem_of_bits in Hx as [_ Hx].
Qed.

Definition ex_run (o : outcome (result ThreadId TryLockError * ThreadAwareAccountLocks)) :=
  match o with Ret (_, st) => st | _ => {| num_threads := 4; locks := ∅ |} end.
Definition ex_locks0 : ThreadAwareAccountLocks := {| num_threads := 4; locks := ∅ |}.
Definition ex_locks1 := ex_run (Locks.try_lock_accounts [7] [8] 15 ex_selector ex_locks0).
Definition ex_locks2 := ex_run (Locks.try_lock_accounts [9] [8] 14 ex_selector ex_locks1).

Lemma ex_locks0_reachable : locks_reachable 4 [] ex_locks0.
Proof. by apply locks_new. Qed.

Lemma ex_locks1_reachable : locks_reachable 4 [([7], [8], 0)] ex_locks1.
Proof.
  apply (locks_try 4 [] ex_locks0 [7] [8] 15 ex_selector (Ok 0));
    [apply ex_locks0_reachable|apply ex_selects|done|by vm_compute].
Qed.

Lemma ex_locks2_reachable : locks_reachable 4 [([9], [8], 1); ([7], [8], 0)] ex_locks2.
Proof.
  apply (locks_try 4 [([7], [8], 0)] ex_locks1 [9] [8] 14 ex_selector (Ok 1));
    [apply ex_locks1_reachable|apply ex_selects|done|by vm_compute].
Qed.

Lemma thread_locks_never_conflict_witness : ¬ (9 ∈ [7] ∨ 9 ∈ [8]).
Proof.
  destruct (thread_locks_never_conflict 4 _ ex_locks2 [9] [8] 1 [7] [8] 0 9 ex_locks2_reachable)
    as [H1 H2]; [set_solver|set_solver|done|set_solver|tauto].
Defined.

Lemma try_lock_accounts_exact_witness :
  Locks.try_lock_accounts [8] [] 15 ex_selector ex_locks2 = Ret (Err MultipleConflicts, ex_locks2) ∧
  ∀ th, ¬ can_schedule 4 (held [([9], [8], 1); ([7], [8], 0)]) [8] [] th.
Proof.
  assert (Locks.try_lock_accounts [8] [] 15 ex_selector ex_locks2 =
    Ret (Err MultipleConflicts, ex_locks2)) as Hrun by (by vm_compute).
  split; [exact Hrun|].
  destruct (try_lock_accounts_exact 4 _ ex_locks2 [8] [] 15 ex_selector ex_locks2_reachable ex_selects)
    as (r & st' & Hrun' & Hr); [done|].
  rewrite Hrun in Hrun'. injection Hrun' as <- <-. apply Hr.
Defined.

Lemma unlock_accounts_restores_witness :
  Locks.unlock_accounts [9] [8] 1 ex_locks2 = Ret ex_locks1.
Proof.
  apply (unlock_accounts_restores 4 [([7], [8], 0)] ex_locks1 [9] [8] 14 ex_selector 1 ex_locks2
    ex_locks1_reachable ex_selects); [done|by vm_compute].
Defined.

Lemma contained_threads_iter_correct_witness :
  ThreadSet.contained_threads_iter 10 = [1; 3] ∧
  StronglySorted Z.lt (ThreadSet.contained_threads_iter 10).
Proof. split; [done|]. apply (contained_threads_iter_correct 10). done. Defined.
