(* ===== verification/AccountLocks.v ===== *)
(** Account locks outside the thread-aware table: the lock counts the accounts
    database keeps for the transactions of a bank
    ([accounts-db/src/account_locks.rs]), the batch-local set of the banking stage
    ([core/src/banking_stage/read_write_account_set.rs]) and the tracker of batches
    in flight ([.../transaction_scheduler/in_flight_tracker.rs]). *)

From S2P Require Import Prelude.

(** The errors of [TransactionError] these components return. *)
Inductive TransactionError := AccountInUse | TooManyAccountLocks | AccountLoadedTwice.

(** A key with its writable flag. *)
Abbreviation KeyLock := (Pubkey * bool)%type (only parsing).

(** * Lock counts of the accounts database *)

Module DbLocks.

Record AccountLocks := {
  write_locks : gmap Pubkey Z;
  readonly_locks : gmap Pubkey Z;
}.

Definition default_ : AccountLocks := {| write_locks := ∅; readonly_locks := ∅ |}.

Definition is_locked_readonly (self : AccountLocks) (key : Pubkey) : bool :=
  match readonly_locks self !! key with Some count => 0 <? count | None => false end.
Definition is_locked_write (self : AccountLocks) (key : Pubkey) : bool :=
  match write_locks self !! key with Some count => 0 <? count | None => false end.
Definition can_read_lock (self : AccountLocks) (key : Pubkey) : bool :=
  negb (is_locked_write self key).
Definition can_write_lock (self : AccountLocks) (key : Pubkey) : bool :=
  negb (is_locked_readonly self key) && negb (is_locked_write self key).

(** [*map.entry(key).or_default() += 1]. *)
Definition incr (m : gmap Pubkey Z) (key : Pubkey) : outcome (gmap Pubkey Z) :=
  count ← add_ u64_MAX (default 0 (m !! key)) 1;
  Ret (<[key := count]> m).

(** An occupied entry is decremented, and removed at zero; a vacant one fails the
    [debug_assert!]. *)
Definition decr (m : gmap Pubkey Z) (key : Pubkey) : outcome (gmap Pubkey Z) :=
  match m !! key with
  | Some count =>
      count ← sub_ count 1;
      Ret (if count =? 0 then delete key m else <[key := count]> m)
  | None => Panic
  end.

Definition lock_readonly (key : Pubkey) (self : AccountLocks) : outcome AccountLocks :=
  m ← incr (readonly_locks self) key;
  Ret {| write_locks := write_locks self; readonly_locks := m |}.
Definition lock_write (key : Pubkey) (self : AccountLocks) : outcome AccountLocks :=
  m ← incr (write_locks self) key;
  Ret {| write_locks := m; readonly_locks := readonly_locks self |}.
Definition unlock_readonly (key : Pubkey) (self : AccountLocks) : outcome AccountLocks :=
  m ← decr (readonly_locks self) key;
  Ret {| write_locks := write_locks self; readonly_locks := m |}.
Definition unlock_write (key : Pubkey) (self : AccountLocks) : outcome AccountLocks :=
  m ← decr (write_locks self) key;
  Ret {| write_locks := m; readonly_locks := readonly_locks self |}.

Fixpoint can_lock_accounts (self : AccountLocks) (keys : list KeyLock)
    : result unit TransactionError :=
  match keys with
  | [] => Ok tt
  | (key, writable) :: keys =>
      if writable then
        if negb (can_write_lock self key) then Err AccountInUse else can_lock_accounts self keys
      else
        if negb (can_read_lock self key) then Err AccountInUse else can_lock_accounts self keys
  end.

Definition lock_accounts (keys : list KeyLock) (self : AccountLocks) : outcome AccountLocks :=
  for_each (λ '(key, writable), if writable : bool then lock_write key else lock_readonly key)
    keys self.

Definition unlock_accounts (keys : list KeyLock) (self : AccountLocks) : outcome AccountLocks :=
  for_each (λ '(k, writable), if writable : bool then unlock_write k else unlock_readonly k)
    keys self.

Definition try_lock_accounts (keys : list KeyLock) (self : AccountLocks)
    : outcome (result unit TransactionError * AccountLocks) :=
  match can_lock_accounts self keys with
  | Err e => Ret (Err e, self)
  | Ok _ => self ← lock_accounts keys self; Ret (Ok tt, self)
  end.

(** The first pass of a batch: every transaction is checked against the locks
    that are held before the batch. *)
Definition check_batch_keys (self : AccountLocks)
    (validated_keys : result (list KeyLock) TransactionError)
    : result (list KeyLock) TransactionError :=
  match validated_keys with
  | Ok keys => match can_lock_accounts self keys with Ok _ => Ok keys | Err e => Err e end
  | Err e => Err e
  end.

(** The second pass: the transactions that are left are locked, in order. *)
Fixpoint lock_batch (batch : list (result (list KeyLock) TransactionError)) (self : AccountLocks)
    : outcome (list (result unit TransactionError) * AccountLocks) :=
  match batch with
  | [] => Ret ([], self)
  | Ok keys :: batch =>
      self ← lock_accounts keys self;
      '(rs, self) ← lock_batch batch self;
      Ret (Ok tt :: rs, self)
  | Err e :: batch =>
      '(rs, self) ← lock_batch batch self;
      Ret (Err e :: rs, self)
  end.

Definition try_lock_transaction_batch
    (validated_batch_keys : list (result (list KeyLock) TransactionError)) (self : AccountLocks)
    : outcome (list (result unit TransactionError) * AccountLocks) :=
  lock_batch (check_batch_keys self <$> validated_batch_keys) self.

End DbLocks.

(** * Validation of a transaction's account keys *)

Definition USE_ACCOUNT_LOCK_SET_SIZE : Z := 32.

(** [keys.any(|key| !set.insert(key))], which stops at the first duplicate. *)
Fixpoint any_not_inserted (keys : list Pubkey) (set : gset Pubkey) : bool * gset Pubkey :=
  match keys with
  | [] => (false, set)
  | key :: keys =>
      if bool_decide (key ∈ set) then (true, set) else any_not_inserted keys ({[key]} ∪ set)
  end.

(** The two nested loops over the keys and the positions after each. *)
Fixpoint any_pair_equal (keys : list Pubkey) : bool :=
  match keys with
  | [] => false
  | key :: keys => if existsb (Z.eqb key) keys then true else any_pair_equal keys
  end.

(** [has_duplicates], with the thread-local set as its state. *)
Definition has_duplicates (account_keys : list Pubkey) (set : gset Pubkey) : bool * gset Pubkey :=
  if USE_ACCOUNT_LOCK_SET_SIZE <=? Z.of_nat (length account_keys) then
    let '(has_duplicates, _) := any_not_inserted account_keys set in
    (has_duplicates, ∅)
  else (any_pair_equal account_keys, set).

Definition validate_account_locks (account_keys : list Pubkey) (tx_account_lock_limit : Z)
    (set : gset Pubkey) : result unit TransactionError * gset Pubkey :=
  if tx_account_lock_limit <? Z.of_nat (length account_keys) then (Err TooManyAccountLocks, set)
  else
    let '(dup, set) := has_duplicates account_keys set in
    ((if dup then Err AccountLoadedTwice else Ok tt), set).

(** * Locks of a batch under construction *)

Module BatchSet.

Record ReadWriteAccountSet := {
  read_set : gset Pubkey;
  write_set : gset Pubkey;
}.

Definition default_ : ReadWriteAccountSet := {| read_set := ∅; write_set := ∅ |}.

Definition can_read (self : ReadWriteAccountSet) (pubkey : Pubkey) : bool :=
  negb (bool_decide (pubkey ∈ write_set self)).
Definition can_write (self : ReadWriteAccountSet) (pubkey : Pubkey) : bool :=
  negb (bool_decide (pubkey ∈ write_set self)) && negb (bool_decide (pubkey ∈ read_set self)).

Definition add_read (self : ReadWriteAccountSet) (pubkey : Pubkey) : bool * ReadWriteAccountSet :=
  (can_read self pubkey,
   {| read_set := {[pubkey]} ∪ read_set self; write_set := write_set self |}).
Definition add_write (self : ReadWriteAccountSet) (pubkey : Pubkey) : bool * ReadWriteAccountSet :=
  (can_write self pubkey,
   {| read_set := read_set self; write_set := {[pubkey]} ∪ write_set self |}).

(** A message is the list of its account keys with [is_writable] of each. *)
Definition check_locks (self : ReadWriteAccountSet) (message : list KeyLock) : bool :=
  forallb (λ '(pubkey, writable),
    if writable : bool then can_write self pubkey else can_read self pubkey) message.

(** The closure of the fold, whose [&] evaluates both sides. *)
Definition take_lock (acc : bool * ReadWriteAccountSet) (x : KeyLock)
    : bool * ReadWriteAccountSet :=
  let '(all_available, self) := acc in
  let '(pubkey, writable) := x in
  let '(available, self) :=
    if writable : bool then add_write self pubkey else add_read self pubkey in
  (all_available && available, self).

Definition take_locks (self : ReadWriteAccountSet) (message : list KeyLock)
    : bool * ReadWriteAccountSet :=
  fold_left take_lock message (true, self).

Definition clear (self : ReadWriteAccountSet) : ReadWriteAccountSet := default_.

End BatchSet.

(** * Batches in flight *)

Module InFlight.

Record BatchEntry := {
  thread_id : Z;
  num_transactions : Z;
  total_cus : Z;
}.

(** [batch_id_generator] is its [next_id]. *)
Record InFlightTracker := {
  num_in_flight_per_thread : list Z;
  cus_in_flight_per_thread : list Z;
  batches : gmap Z BatchEntry;
  next_id : Z;
}.

Definition new (num_threads : Z) : InFlightTracker := {|
  num_in_flight_per_thread := replicate (Z.to_nat num_threads) 0;
  cus_in_flight_per_thread := replicate (Z.to_nat num_threads) 0;
  batches := ∅;
  next_id := 0;
|}.

(** [BatchIdGenerator::next]: [wrapping_sub] on [u64]. *)
Definition next (id : Z) : Z * Z := (id, (id - 1) mod 2 ^ 64).

(** [v[i] op= x], which panics out of range and on overflow. *)
Definition update_ (op : Z → Z → outcome Z) (v : list Z) (i x : Z) : outcome (list Z) :=
  if 0 <=? i then
    old ← unwrap (v !! Z.to_nat i);
    new ← op old x;
    Ret (<[Z.to_nat i := new]> v)
  else Panic.

Definition track_batch (num_transactions total_cus thread_id : Z) (self : InFlightTracker)
    : outcome (Z * InFlightTracker) :=
  let '(batch_id, next_id) := next (next_id self) in
  nums ← update_ (add_ usize_MAX) (num_in_flight_per_thread self) thread_id num_transactions;
  cus ← update_ (add_ u64_MAX) (cus_in_flight_per_thread self) thread_id total_cus;
  Ret (batch_id, {|
    num_in_flight_per_thread := nums;
    cus_in_flight_per_thread := cus;
    batches := <[batch_id := {| thread_id := thread_id; num_transactions := num_transactions;
                                total_cus := total_cus |}]> (batches self);
    next_id := next_id |}).

Definition complete_batch (batch_id : Z) (self : InFlightTracker)
    : outcome (Z * InFlightTracker) :=
  e ← unwrap (batches self !! batch_id);
  nums ← update_ sub_ (num_in_flight_per_thread self) (thread_id e) (num_transactions e);
  cus ← update_ sub_ (cus_in_flight_per_thread self) (thread_id e) (total_cus e);
  Ret (thread_id e, {|
    num_in_flight_per_thread := nums;
    cus_in_flight_per_thread := cus;
    batches := delete batch_id (batches self);
    next_id := next_id self |}).

End InFlight.
