(* ===== verification/AccountLocksProps.v ===== *)
(** What the lock counts of the accounts database, the batch-local lock set and
    the tracker of batches in flight guarantee. *)

From S2P Require Import Prelude AccountLocks.

(** * Lock counts of the accounts database *)

Section db_locks.
Import DbLocks.

(** A count as the maps store it: absent at zero. *)
Definition stored (n : Z) : option Z := if n =? 0 then None else Some n.

(** The table holds, for every key, the number of locks of each kind. *)
Definition Rep (self : AccountLocks) (H : list KeyLock) : Prop :=
  ∀ k, write_locks self !! k = stored (cnt H (k, true)) ∧
       readonly_locks self !! k = stored (cnt H (k, false)).

#[global] Instance Rep_proper : Proper ((=) ==> (≡ₚ) ==> iff) Rep.
Proof. intros ? st -> H H' HP. unfold Rep. by setoid_rewrite HP. Qed.

Lemma db_Rep_inj st st' H : Rep st H → Rep st' H → st = st'.
Proof.
  destruct st as [w r], st' as [w' r']. intros HR HR'.
  f_equal; apply map_eq; intros k; destruct (HR k), (HR' k); simpl in *; congruence.
Qed.

Lemma default_stored n : default 0 (stored n) = n.
Proof. unfold stored. case_leb; simpl; lia. Qed.

(** Counting one key up or down in the map of the kind [w]. *)
Lemma incr_spec m (H : list KeyLock) w k :
  (∀ k, m !! k = stored (cnt H (k, w))) → Z.of_nat (length H) < u64_MAX →
  ∃ m', incr m k = Ret m' ∧ ∀ k', m' !! k' = stored (cnt ((k, w) :: H) (k', w)).
Proof.
  intros Hm Hlen. unfold incr. rewrite Hm, default_stored.
  pose proof (cnt_le_length H (k, w)). pose proof (cnt_nonneg H (k, w)).
  run. eexists. split; [done|]. intros k'.
  destruct (decide (k' = k)) as [->|Hne].
  - rewrite lookup_insert_eq, cnt_cons, decide_True by done. unfold stored. case_leb; [lia|].
    f_equal. lia.
  - rewrite lookup_insert_ne, Hm, cnt_cons_ne by congruence. done.
Qed.

Lemma decr_spec m (H : list KeyLock) w k :
  (∀ k', m !! k' = stored (cnt ((k, w) :: H) (k', w))) →
  ∃ m', decr m k = Ret m' ∧ ∀ k', m' !! k' = stored (cnt H (k', w)).
Proof.
  intros Hm. unfold decr. pose proof (cnt_nonneg H (k, w)) as Hnn.
  assert (m !! k = Some (cnt H (k, w) + 1)) as ->.
  { rewrite Hm, cnt_cons, decide_True by done. unfold stored. case_leb; [lia|]. f_equal. lia. }
  run. simpl. rewrite Z.add_simpl_r. eexists. split; [done|]. intros k'.
  destruct (decide (k' = k)) as [->|Hne].
  - unfold stored. case_leb; [apply lookup_delete_eq|apply lookup_insert_eq].
  - assert (m !! k' = stored (cnt H (k', w))) as <-.
    { rewrite Hm, cnt_cons_ne by congruence. done. }
    case_leb; [by apply lookup_delete_ne|by apply lookup_insert_ne].
Qed.

Lemma db_lock_accounts_spec keys st H :
  Rep st H → Z.of_nat (length keys + length H) ≤ u64_MAX →
  ∃ st', lock_accounts keys st = Ret st' ∧ Rep st' (keys ++ H).
Proof.
  revert st H. induction keys as [|[k w] keys IH]; intros st H HR Hlen; [by exists st|].
  simpl in Hlen. unfold lock_accounts in *. simpl.
  assert (∃ st1, (if w then lock_write k else lock_readonly k) st = Ret st1 ∧
    Rep st1 ((k, w) :: H)) as (st1 & -> & HR1).
  { unfold lock_write, lock_readonly.
    destruct w; [destruct (incr_spec (write_locks st) H true k) as (m & -> & Hm)
                |destruct (incr_spec (readonly_locks st) H false k) as (m & -> & Hm)];
      [intros; apply HR|lia| |intros; apply HR|lia|]; simpl; (eexists; split; [done|]);
      intros k'; (split; simpl; [|]); first [by apply Hm|rewrite cnt_cons_ne by congruence; apply HR]. }
  simpl. destruct (IH st1 _ HR1) as (st2 & -> & HR2); [simpl; lia|].
  exists st2. split; [done|]. eapply Rep_proper, HR2; [done|]. apply Permutation_middle.
Qed.

Lemma db_unlock_accounts_spec keys st H :
  Rep st (keys ++ H) → ∃ st', unlock_accounts keys st = Ret st' ∧ Rep st' H.
Proof.
  revert st. induction keys as [|[k w] keys IH]; intros st HR; [by exists st|].
  unfold unlock_accounts in *. simpl in HR |- *.
  assert (∃ st1, (if w then unlock_write k else unlock_readonly k) st = Ret st1 ∧
    Rep st1 (keys ++ H)) as (st1 & -> & HR1).
  { unfold unlock_write, unlock_readonly.
    destruct w; [destruct (decr_spec (write_locks st) (keys ++ H) true k) as (m & -> & Hm)
                |destruct (decr_spec (readonly_locks st) (keys ++ H) false k) as (m & -> & Hm)];
      [intros; apply HR| |intros; apply HR|]; simpl; (eexists; split; [done|]);
      intros k'; (split; simpl; [|]); first [by apply Hm|
        destruct (HR k') as [H1 H2]; rewrite cnt_cons_ne in H1, H2 by congruence; done
        |destruct (HR k') as [H1 H2]; (rewrite cnt_cons_ne in H1 by congruence; done) ||
         (rewrite cnt_cons_ne in H2 by congruence; done)]. }
  simpl. by apply IH.
Qed.

(** ** Which transactions can be locked *)

(** No lock that is held conflicts with a lock of kind [w] on [k]. *)
Definition free (H : list KeyLock) (x : KeyLock) : Prop :=
  ((x.1, true) ∉ H) ∧ (x.2 = true → (x.1, false) ∉ H).

#[global] Instance free_dec H x : Decision (free H x).
Proof. unfold free. apply _. Defined.

Lemma is_locked_write_spec st H k : Rep st H → is_locked_write st k = bool_decide ((k, true) ∈ H).
Proof.
  intros HR. unfold is_locked_write. rewrite (proj1 (HR k)). unfold stored.
  pose proof (cnt_nonneg H (k, true)). apply eq_true_iff_eq. rewrite bool_decide_eq_true, <-cnt_pos.
  case_leb; [split; [done|lia]|apply Z.ltb_lt].
Qed.

Lemma is_locked_readonly_spec st H k :
  Rep st H → is_locked_readonly st k = bool_decide ((k, false) ∈ H).
Proof.
  intros HR. unfold is_locked_readonly. rewrite (proj2 (HR k)). unfold stored.
  pose proof (cnt_nonneg H (k, false)). apply eq_true_iff_eq. rewrite bool_decide_eq_true, <-cnt_pos.
  case_leb; [split; [done|lia]|apply Z.ltb_lt].
Qed.

Lemma can_lock_accounts_spec st H keys : Rep st H →
  can_lock_accounts st keys = if decide (Forall (free H) keys) then Ok tt else Err AccountInUse.
Proof.
  intros HR. induction keys as [|[k w] keys IH]; [done|].
  simpl. unfold can_write_lock, can_read_lock.
  rewrite (is_locked_write_spec _ _ _ HR), (is_locked_readonly_spec _ _ _ HR), IH.
  repeat case_bool_decide; destruct w; simpl; repeat case_decide; try done;
    exfalso; rewrite Forall_cons in *; unfold free in *; naive_solver.
Qed.

(** What a transaction of a batch is told, given the locks [H] from before the
    batch, and the keys that are locked for it. *)
Definition verdict (H : list KeyLock) (r : result (list KeyLock) TransactionError)
    : result unit TransactionError :=
  match r with
  | Ok keys => if decide (Forall (free H) keys) then Ok tt else Err AccountInUse
  | Err e => Err e
  end.
Definition granted (H : list KeyLock) (r : result (list KeyLock) TransactionError)
    : list (list KeyLock) :=
  match r with Ok keys => if decide (Forall (free H) keys) then [keys] else [] | Err _ => [] end.

Definition ok_keys (r : result (list KeyLock) TransactionError) : list (list KeyLock) :=
  match r with Ok keys => [keys] | Err _ => [] end.
Definition forget (r : result (list KeyLock) TransactionError) : result unit TransactionError :=
  match r with Ok _ => Ok tt | Err e => Err e end.

Lemma lock_batch_spec batch st H :
  Rep st H → Z.of_nat (length (concat (batch ≫= ok_keys)) + length H) ≤ u64_MAX →
  ∃ st', lock_batch batch st = Ret (forget <$> batch, st') ∧
    Rep st' (concat (batch ≫= ok_keys) ++ H).
Proof.
  revert st H. induction batch as [|[keys|e] batch IH]; intros st H HR Hlen; simpl in *.
  - by exists st.
  - rewrite length_app in Hlen.
    destruct (db_lock_accounts_spec keys st H HR) as (st1 & -> & HR1); [lia|]. simpl.
    destruct (IH st1 _ HR1) as (st2 & -> & HR2); [rewrite length_app; unfold mbind in *; lia|].
    exists st2. split; [done|]. eapply Rep_proper, HR2; [done|].
    by rewrite !app_assoc, (Permutation_app_comm keys).
  - destruct (IH st H HR) as (st1 & -> & HR1); [done|]. by exists st1.
Qed.

Lemma check_batch_keys_spec st H batch : Rep st H →
  forget <$> (check_batch_keys st <$> batch) = verdict H <$> batch ∧
  (check_batch_keys st <$> batch) ≫= ok_keys = batch ≫= granted H.
Proof.
  intros HR. induction batch as [|r batch [IH1 IH2]]; [done|].
  rewrite !fmap_cons, !bind_cons, IH1, IH2. unfold check_batch_keys, verdict, granted.
  destruct r as [keys|e]; [|done]. rewrite (can_lock_accounts_spec _ _ _ HR). by case_decide.
Qed.

Lemma try_lock_transaction_batch_spec batch st H :
  Rep st H → Z.of_nat (length (concat (batch ≫= granted H)) + length H) ≤ u64_MAX →
  ∃ st', try_lock_transaction_batch batch st = Ret (verdict H <$> batch, st') ∧
    Rep st' (concat (batch ≫= granted H) ++ H).
Proof.
  intros HR Hlen. unfold try_lock_transaction_batch.
  destruct (check_batch_keys_spec st H batch HR) as [H1 H2].
  destruct (lock_batch_spec (check_batch_keys st <$> batch) st H HR) as (st' & -> & HR');
    rewrite H2 in *; [done|]. rewrite H1. by exists st'.
Qed.

Lemma try_lock_accounts_spec keys st H :
  Rep st H → Z.of_nat (length keys + length H) ≤ u64_MAX →
  ∃ st', try_lock_accounts keys st = Ret (verdict H (Ok keys), st') ∧
    Rep st' (concat (granted H (Ok keys)) ++ H).
Proof.
  intros HR Hlen. unfold try_lock_accounts, verdict, granted.
  rewrite (can_lock_accounts_spec _ _ _ HR). case_decide; simpl; [|by exists st].
  destruct (db_lock_accounts_spec keys st H HR Hlen) as (st' & -> & HR').
  exists st'. by rewrite app_nil_r.
Qed.

(** ** Runs *)

(** The transactions that a call accepted: those it answered with [Ok]. *)
Fixpoint accepted (batch : list (result (list KeyLock) TransactionError))
    (rs : list (result unit TransactionError)) : list (list KeyLock) :=
  match batch, rs with
  | Ok keys :: batch, Ok _ :: rs => keys :: accepted batch rs
  | _ :: batch, _ :: rs => accepted batch rs
  | _, _ => []
  end.

Lemma accepted_verdict H batch : accepted batch (verdict H <$> batch) = batch ≫= granted H.
Proof.
  induction batch as [|[keys|e] batch IH]; [done|..]; rewrite fmap_cons, bind_cons; simpl; [|done].
  by case_decide; simpl; rewrite IH.
Qed.

Lemma lock_batch_results batch st rs st' :
  lock_batch batch st = Ret (rs, st') → rs = forget <$> batch.
Proof.
  revert st rs st'. induction batch as [|[keys|e] batch IH]; intros st rs st' Hrun; simpl in Hrun.
  - by injection Hrun as <- _.
  - apply bind_Ret_inv in Hrun as (st1 & _ & Hrun).
    apply bind_Ret_inv in Hrun as ([rs' st2] & Hrest%IH & Hrun). by simplify_eq.
  - apply bind_Ret_inv in Hrun as ([rs' st2] & Hrest%IH & Hrun). by simplify_eq.
Qed.

(** What a call answered decides what it accepted. *)
Lemma try_lock_transaction_batch_answers batch st H rs st' :
  Rep st H → try_lock_transaction_batch batch st = Ret (rs, st') →
  accepted batch rs = batch ≫= granted H.
Proof.
  intros HR ->%lock_batch_results. rewrite (proj1 (check_batch_keys_spec st H batch HR)).
  apply accepted_verdict.
Qed.

Lemma try_lock_accounts_answers keys st H r st' :
  Rep st H → try_lock_accounts keys st = Ret (r, st') →
  accepted [Ok keys] [r] = granted H (Ok keys).
Proof.
  intros HR. unfold try_lock_accounts, granted. rewrite (can_lock_accounts_spec _ _ _ HR).
  case_decide; simpl; [|by intros [= <- _]]. intros (st1 & _ & Hr)%bind_Ret_inv. by injection Hr as <- _.
Qed.

(** The states the public operations lead to, with the transactions that hold
    locks, each with the number of the call that locked it: those that the call
    answered with [Ok]. *)
Inductive db_reachable : nat → list (nat * list KeyLock) → AccountLocks → Prop :=
| db_init : db_reachable 0 [] default_
| db_try n G st keys r st' :
    db_reachable n G st → Z.of_nat (length keys + length (concat G.*2)) ≤ u64_MAX →
    try_lock_accounts keys st = Ret (r, st') →
    db_reachable (S n) (((n,.) <$> accepted [Ok keys] [r]) ++ G) st'
| db_batch n G st batch rs st' :
    db_reachable n G st → try_lock_transaction_batch batch st = Ret (rs, st') →
    Z.of_nat (length (concat (accepted batch rs)) + length (concat G.*2)) ≤ u64_MAX →
    db_reachable (S n) (((n,.) <$> accepted batch rs) ++ G) st'
| db_unlock n G G' st i keys st' :
    db_reachable n G st → G ≡ₚ (i, keys) :: G' →
    unlock_accounts keys st = Ret st' →
    db_reachable n G' st'.

(** Two transactions conflict when they share a key that one of them writes. *)
Definition conflict (keys1 keys2 : list KeyLock) : Prop :=
  ∃ k w1 w2, (k, w1) ∈ keys1 ∧ (k, w2) ∈ keys2 ∧ (w1 || w2) = true.

Lemma concat_tags (n : nat) (l : list (list KeyLock)) : ((n,.) <$> l).*2 = l.
Proof. induction l as [|x l IH]; [done|]. by rewrite !fmap_cons, IH. Qed.

Lemma granted_free H (batch : list (result (list KeyLock) TransactionError)) keys :
  keys ∈ (batch ≫= granted H) → Forall (free H) keys.
Proof.
  intros (r & Hk & _)%list_elem_of_bind. unfold granted in Hk. destruct r as [ks|]; [|set_solver].
  case_decide; set_solver.
Qed.

Lemma free_no_conflict (G : list (nat * list KeyLock)) keys i keys' :
  Forall (free (concat G.*2)) keys → (i, keys') ∈ G → ¬ conflict keys keys'.
Proof.
  intros Hf Hin (k & w1 & w2 & H1 & H2 & Hw). rewrite Forall_forall in Hf.
  destruct (Hf _ H1) as [Hn1 Hn2]. simpl in *.
  assert ((k, w2) ∈ concat G.*2) as Hc.
  { apply elem_of_concat. exists keys'. split; [|done]. apply list_elem_of_fmap.
    by exists (i, keys'). }
  destruct w2; [done|]. destruct w1; [by apply Hn2|done].
Qed.

Lemma conflict_sym keys1 keys2 : conflict keys1 keys2 → conflict keys2 keys1.
Proof. intros (k & w1 & w2 & ? & ? & Hw). exists k, w2, w1. by rewrite orb_comm. Qed.

Definition disjoint_calls (n : nat) (G : list (nat * list KeyLock)) : Prop :=
  (∀ i keys, (i, keys) ∈ G → (i < n)%nat) ∧
  ∀ i j keys keys', (i, keys) ∈ G → (j, keys') ∈ G → i ≠ j → ¬ conflict keys keys'.

Lemma disjoint_calls_grant n G new :
  disjoint_calls n G → Forall (Forall (free (concat G.*2))) new →
  disjoint_calls (S n) (((n,.) <$> new) ++ G).
Proof.
  intros [Hlt Hdis] Hnew. rewrite Forall_forall in Hnew.
  assert (∀ i keys, (i, keys) ∈ ((n,.) <$> new) ++ G ↔ (i = n ∧ keys ∈ new) ∨ (i, keys) ∈ G) as Hin.
  { intros i keys. rewrite elem_of_app, list_elem_of_fmap. naive_solver. }
  split.
  - intros i keys [[-> _]|Hg]%Hin; [lia|]. apply Hlt in Hg. lia.
  - intros i j keys keys' [[-> H1]|H1]%Hin [[-> H2]|H2]%Hin Hne; [done| | |by eapply Hdis].
    + eapply free_no_conflict; [by apply Hnew|done].
    + intros Hc%conflict_sym. eapply free_no_conflict, Hc; [by apply Hnew|done].
Qed.

Lemma db_reachable_inv n G st :
  db_reachable n G st → Rep st (concat G.*2) ∧ disjoint_calls n G.
Proof.
  induction 1 as [|n G st keys r st' _ [IH Hd] Hlen Hrun|n G st batch rs st' _ [IH Hd] Hrun Hlen
    |n G G' st i keys st' _ [IH Hd] HG Hrun].
  - split; [|split; set_solver]. intros k. simpl. by rewrite !lookup_empty.
  - rewrite (try_lock_accounts_answers keys st _ r st' IH Hrun).
    destruct (try_lock_accounts_spec keys st _ IH Hlen) as (st1 & Hrun' & HR).
    rewrite Hrun in Hrun'. injection Hrun' as _ <-. split.
    + by rewrite fmap_app, concat_tags, concat_app.
    + apply disjoint_calls_grant; [done|]. apply Forall_forall. intros ks Hks.
      apply (granted_free _ [Ok keys]). simpl. by rewrite app_nil_r.
  - rewrite (try_lock_transaction_batch_answers batch st _ rs st' IH Hrun) in Hlen |- *.
    destruct (try_lock_transaction_batch_spec batch st _ IH Hlen) as (st1 & Hrun' & HR).
    rewrite Hrun in Hrun'. injection Hrun' as _ <-. split.
    + by rewrite fmap_app, concat_tags, concat_app.
    + apply disjoint_calls_grant; [done|]. apply Forall_forall. intros ks Hks.
      by apply (granted_free _ batch).
  - destruct (db_unlock_accounts_spec keys st (concat G'.*2)) as (st1 & Hrun' & HR).
    { eapply Rep_proper, IH; [done|]. by rewrite HG. }
    rewrite Hrun in Hrun'. injection Hrun' as <-. split; [done|]. destruct Hd as [Hlt Hdis].
    assert (∀ x, x ∈ G' → x ∈ G) by (intros; rewrite HG; by right).
    split; [naive_solver|]. intros j j' ks ks' H1 H2. eapply Hdis; eauto.
Qed.

End db_locks.

(** C26. Two transactions that were locked by different calls, that is, that
    [try_lock_accounts] or [try_lock_transaction_batch] answered with [Ok] and that
    are not unlocked yet, never conflict, and unlocking a transaction that holds
    locks does not panic. Within one batch conflicts are allowed, by design. *)
Theorem db_locks_never_conflict n G st i j keys keys' :
  db_reachable n G st → (i, keys) ∈ G → (j, keys') ∈ G →
  (i ≠ j → ¬ conflict keys keys') ∧ ∃ st', DbLocks.unlock_accounts keys st = Ret st'.
Proof.
  intros [HR [_ Hdis]]%db_reachable_inv H1 H2. split; [by apply (Hdis i j)|].
  apply list_elem_of_split in H1 as (G1 & G2 & ->).
  destruct (db_unlock_accounts_spec keys st (concat (G1 ++ G2).*2)) as (st' & Hrun & _);
    [|by exists st'].
  eapply Rep_proper, HR; [done|]. by rewrite <-Permutation_middle.
Qed.

(** A batch is judged against the locks from before the batch only: the
    verdict on a transaction depends neither on the others nor on their order, and
    unlocking the accepted ones gives back exactly the table from before. *)
Theorem try_lock_transaction_batch_exact n G st batch :
  db_reachable n G st →
  Z.of_nat (length (concat (batch ≫= granted (concat G.*2))) + length (concat G.*2)) ≤ u64_MAX →
  ∃ st', DbLocks.try_lock_transaction_batch batch st = Ret (verdict (concat G.*2) <$> batch, st') ∧
    DbLocks.unlock_accounts (concat (batch ≫= granted (concat G.*2))) st' = Ret st.
Proof.
  intros [HR _]%db_reachable_inv Hlen.
  destruct (try_lock_transaction_batch_spec batch st _ HR Hlen) as (st' & Hrun & HR').
  exists st'. split; [done|]. destruct (db_unlock_accounts_spec _ _ _ HR') as (st2 & -> & HR2).
  f_equal. by apply (db_Rep_inj _ _ (concat G.*2)).
Qed.

(** * Validation of account keys *)

Lemma any_not_inserted_spec keys set :
  (any_not_inserted keys set).1 = false ↔ NoDup keys ∧ ∀ k, k ∈ keys → k ∉ set.
Proof.
  revert set. induction keys as [|k keys IH]; intros set; simpl.
  { split; [|done]. split; [constructor|set_solver]. }
  case_bool_decide as Hk; simpl.
  - split; [done|]. intros [_ H]. by destruct (H k); [left|].
  - rewrite IH, NoDup_cons. set_solver.
Qed.

Lemma any_pair_equal_spec keys : any_pair_equal keys = negb (bool_decide (NoDup keys)).
Proof.
  induction keys as [|k keys IH]; [done|]. cbn [any_pair_equal].
  assert (existsb (Z.eqb k) keys = bool_decide (k ∈ keys)) as ->.
  { apply eq_true_iff_eq. rewrite existsb_exists, bool_decide_eq_true.
    setoid_rewrite Z.eqb_eq. setoid_rewrite <-list_elem_of_In. naive_solver. }
  rewrite IH. destruct (decide (k ∈ keys)) as [Hk|Hk].
  - rewrite bool_decide_eq_true_2, bool_decide_eq_false_2; [done| |done].
    by intros [? _]%NoDup_cons.
  - rewrite (bool_decide_eq_false_2 _ Hk). f_equal. apply bool_decide_ext.
    rewrite NoDup_cons. tauto.
Qed.

Lemma has_duplicates_spec keys :
  has_duplicates keys ∅ = (negb (bool_decide (NoDup keys)), ∅).
Proof.
  unfold has_duplicates. destruct (_ <=? _); [|by rewrite any_pair_equal_spec].
  pose proof (any_not_inserted_spec keys ∅) as H. destruct (any_not_inserted keys ∅) as [b s].
  simpl in H. f_equal. case_bool_decide as Hnd; simpl; [apply H; set_solver|].
  destruct b; [done|]. destruct Hnd. apply (proj1 H eq_refl).
Qed.

(** What a key list deserves: the limit is checked before duplicates. *)
Definition key_verdict (keys : list Pubkey) (limit : Z) : result unit TransactionError :=
  if decide (limit < Z.of_nat (length keys)) then Err TooManyAccountLocks
  else if decide (NoDup keys) then Ok tt else Err AccountLoadedTwice.

(** Validation accepts exactly the key lists that are within the limit and
    have no duplicate, whichever of the two searches their length selects, reports
    the length first, and leaves the thread-local set empty for the next call. *)
Theorem validate_account_locks_exact keys limit :
  validate_account_locks keys limit ∅ = (key_verdict keys limit, ∅).
Proof.
  unfold validate_account_locks, key_verdict. rewrite has_duplicates_spec. case_leb.
  - by rewrite decide_True.
  - rewrite decide_False by lia. case_decide; case_bool_decide; done.
Qed.

(** * The batch-local set *)

Section batch_set.
Import BatchSet.

(** The two sets hold what the messages of [M] lock. *)
Definition Sets (st : ReadWriteAccountSet) (M : list KeyLock) : Prop :=
  ∀ k, (k ∈ read_set st ↔ (k, false) ∈ M) ∧ (k ∈ write_set st ↔ (k, true) ∈ M).

Lemma check_locks_spec st M msg : Sets st M →
  check_locks st msg = bool_decide (Forall (free M) msg).
Proof.
  intros HS. apply eq_true_iff_eq. unfold check_locks.
  rewrite forallb_forall, bool_decide_eq_true, Forall_forall.
  apply forall_proper. intros [k w]. rewrite <-list_elem_of_In.
  destruct (HS k) as [Hr Hw]. unfold free, can_write, can_read. simpl.
  destruct w; rewrite ?andb_true_iff, !negb_true_iff, !bool_decide_eq_false, ?Hr, ?Hw; naive_solver.
Qed.

Lemma take_lock_fold b st M msg : Sets st M → NoDup msg.*1 →
  ∃ st', fold_left take_lock msg (b, st) = (b && bool_decide (Forall (free M) msg), st') ∧
    Sets st' (msg ++ M).
Proof.
  revert b st M. induction msg as [|[k w] msg IH]; intros b st M HS Hnd.
  { exists st. by rewrite andb_true_r. }
  apply NoDup_cons in Hnd as [Hk Hnd].
  set (st1 := (if w then add_write st k else add_read st k).2).
  assert (Sets st1 ((k, w) :: M)) as HS1.
  { intros k'. destruct (HS k'). unfold st1. destruct w; simpl; set_solver. }
  destruct (IH (b && bool_decide (free M (k, w))) st1 _ HS1 Hnd) as (st' & Hrun & HS').
  exists st'. split.
  - change (fold_left take_lock ((k, w) :: msg) (b, st))
      with (fold_left take_lock msg (take_lock (b, st) (k, w))).
    replace (take_lock (b, st) (k, w)) with (b && bool_decide (free M (k, w)), st1).
    + rewrite Hrun, <-andb_assoc. do 2 f_equal.
      rewrite <-bool_decide_and. apply bool_decide_ext. rewrite Forall_cons, !Forall_forall.
      apply and_iff_compat_l, forall_proper. intros [k' w']. unfold free. simpl.
      split; intros H Hin; specialize (H Hin); rewrite !elem_of_cons in *;
        assert (k' ≠ k) by (intros ->; apply Hk; by apply (list_elem_of_fmap_2 fst) in Hin);
        naive_solver.
    + pose proof (check_locks_spec st M [(k, w)] HS) as Hc. unfold check_locks in Hc. simpl in Hc.
      rewrite andb_true_r in Hc. unfold st1.
      replace (bool_decide (free M (k, w))) with (if w then can_write st k else can_read st k);
        [by destruct w|]. rewrite Hc. apply bool_decide_ext. by rewrite Forall_singleton.
  - intros k'. specialize (HS' k'). set_solver.
Qed.
End batch_set.

(** Offering the messages of [ms] one after another to an empty set: the set at
    the end, and what [take_locks] answered for each. *)
Fixpoint take_all (ms : list (list KeyLock)) (st : BatchSet.ReadWriteAccountSet)
    : list bool * BatchSet.ReadWriteAccountSet :=
  match ms with
  | [] => ([], st)
  | m :: ms => let '(b, st) := BatchSet.take_locks st m in
      let '(bs, st) := take_all ms st in (b :: bs, st)
  end.

Lemma free_conflict earlier msg :
  Forall (free (concat earlier)) msg ↔ ∀ m, m ∈ earlier → ¬ conflict m msg.
Proof.
  rewrite Forall_forall. unfold free, conflict. setoid_rewrite elem_of_concat. split.
  - intros Hf m Hm (k & w1 & w2 & H1 & H2 & Hw). destruct (Hf _ H2) as [Hn1 Hn2]. simpl in *.
    destruct w1; [naive_solver|]. destruct w2; [naive_solver|done].
  - intros Hc [k w] Hin. split; simpl.
    + intros (m & Hm & H1). apply (Hc m Hm). by exists k, true, w.
    + intros -> (m & Hm & H1). apply (Hc m Hm). by exists k, false, true.
Qed.

Lemma take_all_spec ms earlier st :
  Sets st (concat earlier) → Forall (λ m, NoDup m.*1) ms →
  ∀ i m, ms !! i = Some m →
    (take_all ms st).1 !! i = Some true ↔ ∀ m', m' ∈ earlier ++ take i ms → ¬ conflict m' m.
Proof.
  revert earlier st. induction ms as [|m0 ms IH]; intros earlier st HS Hnd i m Hi; [done|].
  apply Forall_cons in Hnd as [Hnd0 Hnd].
  destruct (take_lock_fold true st _ m0 HS Hnd0) as (st1 & Hrun & HS1).
  simpl. unfold BatchSet.take_locks. rewrite Hrun.
  specialize (IH (m0 :: earlier) st1 HS1 Hnd).
  destruct (take_all ms st1) as [bs st2]. destruct i as [|i]; simpl in *.
  - injection Hi as ->. rewrite app_nil_r, <-free_conflict.
    split; [by intros [= H%bool_decide_eq_true]|intros H; by rewrite bool_decide_eq_true_2].
  - rewrite (IH i m Hi). setoid_rewrite elem_of_cons. setoid_rewrite elem_of_app.
    setoid_rewrite elem_of_cons. naive_solver.
Qed.

(** [take_locks] accepts a message exactly when it conflicts with no message
    offered since the set was empty (whether or not that one was accepted). *)
Theorem take_locks_exact ms i m :
  Forall (λ m, NoDup m.*1) ms → ms !! i = Some m →
  (take_all ms BatchSet.default_).1 !! i = Some true ↔ ∀ m', m' ∈ take i ms → ¬ conflict m' m.
Proof. intros Hnd Hi. apply (take_all_spec ms []); [|done..]. intros k. simpl. set_solver. Qed.

(** * Batches in flight *)

Section in_flight.
Import InFlight.

(** The sum of [f] over the tracked batches of thread [t]. *)
Fixpoint load (f : BatchEntry → Z) (t : Z) (L : list (Z * BatchEntry)) : Z :=
  match L with
  | [] => 0
  | (_, e) :: L => (if thread_id e =? t then f e else 0) + load f t L
  end.

#[global] Instance load_proper f t : Proper ((≡ₚ) ==> (=)) (load f t).
Proof. induction 1 as [|[] ? ? ? IH|[] []|]; simpl; lia. Qed.

Definition loads (n : Z) (f : BatchEntry → Z) (v : list Z) (L : list (Z * BatchEntry)) : Prop :=
  Z.of_nat (length v) = n ∧ ∀ t, 0 ≤ t < n → v !! Z.to_nat t = Some (load f t L).

Definition Tracks (n : Z) (st : InFlightTracker) (L : list (Z * BatchEntry)) : Prop :=
  NoDup L.*1 ∧ batches st = list_to_map L ∧
  (∀ i e, (i, e) ∈ L → 0 ≤ thread_id e < n ∧ 0 ≤ num_transactions e ∧ 0 ≤ total_cus e) ∧
  loads n num_transactions (num_in_flight_per_thread st) L ∧
  loads n total_cus (cus_in_flight_per_thread st) L.

(** The states of a tracker of [n] threads with the batches in flight. A batch id
    is only reused after 2^64 batches, when the old batch is complete. *)
Inductive tracker_reachable (n : Z) : list (Z * BatchEntry) → InFlightTracker → Prop :=
| tracker_new : 0 ≤ n → tracker_reachable n [] (new n)
| tracker_track L st num cus th id st' :
    tracker_reachable n L st → 0 ≤ num → 0 ≤ cus → 0 ≤ th < n → next_id st ∉ L.*1 →
    track_batch num cus th st = Ret (id, st') →
    tracker_reachable n
      ((id, {| thread_id := th; num_transactions := num; total_cus := cus |}) :: L) st'
| tracker_complete L L' st id e th st' :
    tracker_reachable n L st → L ≡ₚ (id, e) :: L' →
    complete_batch id st = Ret (th, st') →
    tracker_reachable n L' st'.

Lemma load_nonneg f t L : (∀ i e, (i, e) ∈ L → 0 ≤ f e) → 0 ≤ load f t L.
Proof.
  induction L as [|[i e] L IH]; intros Hf; simpl; [lia|].
  assert (0 ≤ f e) by (eapply Hf; left). assert (0 ≤ load f t L) by (apply IH; set_solver).
  case_leb; lia.
Qed.

Lemma loads_insert n f v L th y L' :
  loads n f v L → 0 ≤ th < n →
  (∀ t, load f t L' = if t =? th then y else load f t L) →
  loads n f (<[Z.to_nat th := y]> v) L'.
Proof.
  intros [Hl Hv] Hth HL. split; [by rewrite length_insert|]. intros t Ht. rewrite HL.
  destruct (Z.eqb_spec t th) as [->|]; [apply list_lookup_insert_eq; lia|].
  rewrite list_lookup_insert_ne by lia. by apply Hv.
Qed.

Lemma loads_update op n f v L th x :
  loads n f v L → 0 ≤ th < n →
  update_ op v th x = (y ← op (load f th L) x; Ret (<[Z.to_nat th := y]> v)).
Proof.
  intros [Hl Hv] Hth. unfold update_. rewrite (proj2 (Z.leb_le 0 th)) by lia. by rewrite Hv.
Qed.

Lemma loads_track n f v L id e v' max :
  loads n f v L → 0 ≤ thread_id e < n →
  update_ (add_ max) v (thread_id e) (f e) = Ret v' → loads n f v' ((id, e) :: L).
Proof.
  intros HL Hth Hrun. rewrite (loads_update _ _ _ _ _ _ _ HL Hth) in Hrun. outcome_inv.
  apply add_Ret_inv in H as [-> _]. apply (loads_insert _ _ _ L); [done..|]. intros t. simpl.
  rewrite Z.eqb_sym. destruct (Z.eqb_spec t (thread_id e)) as [->|]; lia.
Qed.

Lemma loads_complete n f v L id e :
  loads n f v ((id, e) :: L) → 0 ≤ thread_id e < n → (∀ i e, (i, e) ∈ L → 0 ≤ f e) →
  ∃ v', update_ sub_ v (thread_id e) (f e) = Ret v' ∧ loads n f v' L.
Proof.
  intros HL Hth Hf. rewrite (loads_update _ _ _ _ _ _ _ HL Hth). simpl. rewrite Z.eqb_refl.
  pose proof (load_nonneg f (thread_id e) L Hf). run. eexists. split; [done|].
  apply (loads_insert _ _ _ ((id, e) :: L)); [done..|]. intros t. simpl.
  rewrite (Z.eqb_sym (thread_id e)). destruct (Z.eqb_spec t (thread_id e)) as [->|]; lia.
Qed.

Lemma loads_perm n f v L L' : L ≡ₚ L' → loads n f v L → loads n f v L'.
Proof. intros HP [Hl Hv]. split; [done|]. intros t. rewrite <-HP. apply Hv. Qed.

Lemma Tracks_complete n st L id e L' :
  Tracks n st L → L ≡ₚ (id, e) :: L' →
  ∃ st', complete_batch id st = Ret (thread_id e, st') ∧ Tracks n st' L'.
Proof.
  intros (Hnd & Hb & Hwf & Hn & Hc) HL. rewrite HL in Hnd. apply NoDup_cons in Hnd as [Hid Hnd].
  assert (batches st = <[id := e]> (list_to_map L')) as Hb'.
  { rewrite Hb. change (list_to_map L = list_to_map (M := gmap Z BatchEntry) ((id, e) :: L')).
    apply list_to_map_proper; [|done]. rewrite HL. by apply NoDup_cons. }
  assert (∀ i e', (i, e') ∈ (id, e) :: L' → (i, e') ∈ L) as Hsub by (intros; by rewrite HL).
  destruct (Hwf id e) as (Hth & _); [apply Hsub; left|].
  unfold complete_batch. rewrite Hb', lookup_insert_eq. simpl.
  destruct (loads_complete n num_transactions _ _ _ _ (loads_perm _ _ _ _ _ HL Hn) Hth)
    as (v1 & -> & Hv1); [intros i e' Hin; eapply Hwf, Hsub; by right|].
  destruct (loads_complete n total_cus _ _ _ _ (loads_perm _ _ _ _ _ HL Hc) Hth)
    as (v2 & -> & Hv2); [intros i e' Hin; eapply Hwf, Hsub; by right|].
  simpl. eexists. split; [done|]. split_and!; simpl; [done| | |done|done].
  2: { intros i e' Hin. apply (Hwf i), Hsub. by right. }
  apply delete_insert_id. by apply not_elem_of_list_to_map_1.
Qed.

Lemma tracker_reachable_Tracks n L st : tracker_reachable n L st → Tracks n st L.
Proof.
  induction 1 as [Hn|L st num cus th id st' _ IH Hnum Hcus Hth Hid Hrun
    |L L' st id e th st' _ IH HL Hrun].
  - split_and!; [constructor|done|set_solver|..]; (split; [simpl; rewrite length_replicate; lia|]);
      intros t Ht; apply lookup_replicate_2; lia.
  - destruct IH as (Hnd & Hb & Hwf & Hn & Hc). unfold track_batch, next in Hrun. outcome_inv.
    split_and!; simpl; [by constructor|by rewrite Hb| | |].
    + intros i e [[= -> ->]|Hin]%elem_of_cons; [done|by eapply Hwf].
    + eapply (loads_track n num_transactions); [exact Hn|done|]. exact H.
    + eapply (loads_track n total_cus); [exact Hc|done|]. exact H0.
  - destruct (Tracks_complete n st L id e L' IH HL) as (st1 & Hrun' & HT).
    rewrite Hrun in Hrun'. injection Hrun' as _ <-. done.
Qed.

(** The per-thread counters are always the sums over the batches in flight,
    and completing a batch in flight does not panic and gives its thread. *)
Theorem in_flight_counters_exact n L st id e t :
  tracker_reachable n L st → (id, e) ∈ L → 0 ≤ t < n →
  num_in_flight_per_thread st !! Z.to_nat t = Some (load num_transactions t L) ∧
  cus_in_flight_per_thread st !! Z.to_nat t = Some (load total_cus t L) ∧
  ∃ st', complete_batch id st = Ret (thread_id e, st').
Proof.
  intros HT%tracker_reachable_Tracks Hin Ht. pose proof HT as (_ & _ & _ & [_ Hn] & [_ Hc]).
  split_and!; [by apply Hn|by apply Hc|]. apply list_elem_of_split in Hin as (L1 & L2 & ->).
  destruct (Tracks_complete n st _ id e (L1 ++ L2) HT) as (st' & -> & _); [|by exists st'].
  symmetry. apply Permutation_middle.
Qed.

End in_flight.

(** * Examples *)

(** A batch of two conflicting transactions and a third one; then a transaction
    that conflicts with them is refused. *)
Definition ex_batch : list (result (list KeyLock) TransactionError) :=
  [Ok [(1, true); (2, false)]; Ok [(1, true)]; Err AccountLoadedTwice].
Definition ex_db1 : DbLocks.AccountLocks :=
  match DbLocks.try_lock_transaction_batch ex_batch DbLocks.default_ with
  | Ret (_, st) => st | _ => DbLocks.default_ end.
Definition ex_db2 : DbLocks.AccountLocks :=
  match DbLocks.try_lock_accounts [(2, false); (3, true)] ex_db1 with
  | Ret (_, st) => st | _ => DbLocks.default_ end.

Lemma ex_db1_reachable :
  db_reachable 1 [(0%nat, [(1, true); (2, false)]); (0%nat, [(1, true)])] ex_db1.
Proof.
  apply (db_batch 0 [] DbLocks.default_ ex_batch [Ok tt; Ok tt; Err AccountLoadedTwice]);
    [constructor|by vm_compute..].
Qed.

Lemma ex_db2_reachable :
  db_reachable 2 [(1%nat, [(2, false); (3, true)]);
    (0%nat, [(1, true); (2, false)]); (0%nat, [(1, true)])] ex_db2.
Proof.
  apply (db_try 1 _ ex_db1 [(2, false); (3, true)] (Ok tt) ex_db2 ex_db1_reachable);
    by vm_compute.
Qed.

Lemma db_locks_never_conflict_witness : ¬ conflict [(2, false); (3, true)] [(1, true); (2, false)].
Proof.
  apply (db_locks_never_conflict 2 _ ex_db2 1 0 _ _ ex_db2_reachable); [set_solver..|done].
Defined.

Lemma try_lock_transaction_batch_exact_witness :
  ∃ st', DbLocks.try_lock_transaction_batch [Ok [(3, false)]; Ok [(2, false)]] ex_db2 =
    Ret ([Err AccountInUse; Ok tt], st') ∧ DbLocks.unlock_accounts [(2, false)] st' = Ret ex_db2.
Proof.
  apply (try_lock_transaction_batch_exact 2 _ ex_db2 [Ok [(3, false)]; Ok [(2, false)]]
    ex_db2_reachable). by vm_compute.
Defined.

Lemma take_locks_exact_witness :
  (take_all [[(1, true)]; [(2, false)]] BatchSet.default_).1 !! 1%nat = Some true ↔
  ∀ m', m' ∈ [[(1, true)]] → ¬ conflict m' [(2, false)].
Proof.
  apply (take_locks_exact [[(1, true)]; [(2, false)]] 1); [|done].
  repeat constructor; set_solver.
Defined.

Definition ex_entry : InFlight.BatchEntry :=
  {| InFlight.thread_id := 1; InFlight.num_transactions := 2; InFlight.total_cus := 100 |}.
Definition ex_tracker : InFlight.InFlightTracker :=
  match InFlight.track_batch 2 100 1 (InFlight.new 4) with
  | Ret (_, st) => st | _ => InFlight.new 4 end.

Lemma ex_tracker_reachable : tracker_reachable 4 [(0, ex_entry)] ex_tracker.
Proof.
  apply (tracker_track 4 [] (InFlight.new 4)); [by constructor|done|done|done|set_solver|done].
Qed.

Lemma in_flight_counters_exact_witness :
  InFlight.num_in_flight_per_thread ex_tracker !! 1%nat = Some 2.
Proof.
  apply (in_flight_counters_exact 4 _ ex_tracker 0 ex_entry 1 ex_tracker_reachable);
    [left|done].
Defined.
