(* ===== verification/ComputeBudget.v ===== *)
(** Compute budget of a transaction: the builtin programs and their migration
    features ([builtins-default-costs/src/lib.rs]), the cached filters over program
    ids and the details collected from the compute-budget instructions
    ([compute-budget-instruction/src]), and the limits they convert to
    ([compute-budget/src/compute_budget_limits.rs]). *)

From S2P Require Import Prelude.

(** The instructions of the compute budget interface the code distinguishes. *)
Inductive ComputeBudgetInstruction :=
| RequestHeapFrame (bytes : Z)
| SetComputeUnitLimit (units : Z)
| SetComputeUnitPrice (micro_lamports : Z)
| SetLoadedAccountsDataSizeLimit (bytes : Z).

(** What is defined outside the repository: program and feature ids, constants of
    the interface crates, and the decoder of compute-budget instruction data,
    which yields nothing for data that is malformed or of another kind. *)
Class Sdk := {
  InstructionData : Type;
  stake_id : Pubkey;
  vote_id : Pubkey;
  system_program_id : Pubkey;
  compute_budget_id : Pubkey;
  bpf_loader_upgradeable_id : Pubkey;
  bpf_loader_deprecated_id : Pubkey;
  bpf_loader_id : Pubkey;
  loader_v4_id : Pubkey;
  secp256k1_program_id : Pubkey;
  ed25519_program_id : Pubkey;
  migrate_stake_program_to_core_bpf_id : Pubkey;
  HEAP_LENGTH : Z;
  PACKET_DATA_SIZE : Z;
  try_from_slice_unchecked : InstructionData → option ComputeBudgetInstruction;
}.

(** The instruction data a program receives, with the index of its program. *)
Record SVMInstruction {sdk : Sdk} := {
  program_id_index : Z;
  data : InstructionData;
}.

Abbreviation FeatureSet := (Pubkey → bool) (only parsing).

(** The errors of [TransactionError] that compute-budget processing returns. *)
Inductive BudgetError :=
| InvalidInstructionData (index : Z)
| DuplicateInstruction (index : Z)
| InvalidLoadedAccountsDataSizeLimit.

(** * Builtin programs *)

Module Builtins.

Inductive BuiltinCost :=
| Migrating (native_cost : Z) (core_bpf_migration_feature : Pubkey) (position : Z)
| NotMigrating (native_cost : Z).

Definition native_cost (c : BuiltinCost) : Z :=
  match c with Migrating n _ _ => n | NotMigrating n => n end.
Definition core_bpf_migration_feature (c : BuiltinCost) : option Pubkey :=
  match c with Migrating _ f _ => Some f | NotMigrating _ => None end.
Definition position (c : BuiltinCost) : option Z :=
  match c with Migrating _ _ p => Some p | NotMigrating _ => None end.
Definition has_migrated (c : BuiltinCost) (feature_set : FeatureSet) : bool :=
  match c with Migrating _ f _ => feature_set f | NotMigrating _ => false end.

Section tables.
Context `{sdk : Sdk}.

Definition MIGRATING_BUILTINS_COSTS : list (Pubkey * BuiltinCost) :=
  [(stake_id, Migrating 750 migrate_stake_program_to_core_bpf_id 0)].

Definition NON_MIGRATING_BUILTINS_COSTS : list (Pubkey * BuiltinCost) :=
  [(vote_id, NotMigrating 2100);
   (system_program_id, NotMigrating 150);
   (compute_budget_id, NotMigrating 150);
   (bpf_loader_upgradeable_id, NotMigrating 2370);
   (bpf_loader_deprecated_id, NotMigrating 1140);
   (bpf_loader_id, NotMigrating 570);
   (loader_v4_id, NotMigrating 2000);
   (secp256k1_program_id, NotMigrating 0);
   (ed25519_program_id, NotMigrating 0)].

(** Collecting pairs into a hash map: a later pair overrides an earlier one. *)
Definition BUILTIN_INSTRUCTION_COSTS : gmap Pubkey BuiltinCost :=
  fold_left (λ m '(k, c), <[k := c]> m)
    (MIGRATING_BUILTINS_COSTS ++ NON_MIGRATING_BUILTINS_COSTS) ∅.

(** [key.as_ref()[0]]: the most significant of the 32 bytes. *)
Definition first_byte (key : Pubkey) : Z := Z.shiftr key 248.

Definition MAYBE_BUILTIN_KEY : list bool :=
  fold_left (λ tbl key, <[Z.to_nat (first_byte key) := true]> tbl)
    (map_to_list BUILTIN_INSTRUCTION_COSTS).*1 (replicate 256 false).

Definition maybe_builtin_key (program_id : Pubkey) : outcome bool :=
  unwrap (MAYBE_BUILTIN_KEY !! Z.to_nat (first_byte program_id)).

Definition get_builtin_instruction_cost (program_id : Pubkey) (feature_set : FeatureSet)
    : option Z :=
  match BUILTIN_INSTRUCTION_COSTS !! program_id with
  | Some c => if negb (has_migrated c feature_set) then Some (native_cost c) else None
  | None => None
  end.

Inductive BuiltinMigrationFeatureIndex :=
| NotBuiltin
| BuiltinNoMigrationFeature
| BuiltinWithMigrationFeature (index : Z).

Definition get_builtin_migration_feature_index (program_id : Pubkey)
    : BuiltinMigrationFeatureIndex :=
  match BUILTIN_INSTRUCTION_COSTS !! program_id with
  | None => NotBuiltin
  | Some c => match position c with
      | None => BuiltinNoMigrationFeature
      | Some i => BuiltinWithMigrationFeature i
      end
  end.

Definition get_migration_feature_id (index : Z) : outcome Pubkey :=
  '(_, c) ← unwrap (MIGRATING_BUILTINS_COSTS !! Z.to_nat index);
  unwrap (core_bpf_migration_feature c).

End tables.
#[global] Arguments first_byte : simpl never.
End Builtins.

(** * Filters that cache what they know of each program index *)

Module Filters.
Import Builtins.
Section filters.
Context `{sdk : Sdk}.

(** The number of public keys that fit into a packet, as a [u8]. *)
Definition FILTER_SIZE : Z := (PACKET_DATA_SIZE / 32) mod 256.

(** [slots.get_mut(index).expect(..).get_or_insert_with(check)]. *)
Definition cached {A} (check : outcome A) (slots : list (option A)) (index : Z)
    : outcome (A * list (option A)) :=
  slot ← unwrap (slots !! Z.to_nat index);
  match slot with
  | Some a => Ret (a, slots)
  | None => a ← check; Ret (a, <[Z.to_nat index := Some a]> slots)
  end.

Definition new {A} : list (option A) := replicate (Z.to_nat FILTER_SIZE) None.

Definition check_program_id (program_id : Pubkey) : outcome bool :=
  maybe ← maybe_builtin_key program_id;
  if negb maybe then Ret false else Ret (program_id =? compute_budget_id).

Definition is_compute_budget_program (flags : list (option bool)) (index : Z)
    (program_id : Pubkey) : outcome (bool * list (option bool)) :=
  cached (check_program_id program_id) flags index.

Inductive ProgramKind :=
| KindNotBuiltin
| KindBuiltin
| KindMigratingBuiltin (core_bpf_migration_feature_index : Z).

Definition check_program_kind (program_id : Pubkey) : outcome ProgramKind :=
  maybe ← maybe_builtin_key program_id;
  if negb maybe then Ret KindNotBuiltin else
  Ret (match get_builtin_migration_feature_index program_id with
       | NotBuiltin => KindNotBuiltin
       | BuiltinNoMigrationFeature => KindBuiltin
       | BuiltinWithMigrationFeature i => KindMigratingBuiltin i
       end).

Definition get_program_kind (program_kind : list (option ProgramKind)) (index : Z)
    (program_id : Pubkey) : outcome (ProgramKind * list (option ProgramKind)) :=
  cached (check_program_kind program_id) program_kind index.

End filters.
End Filters.

(** * Limits *)

Module Limits.

Definition MAX_COMPUTE_UNIT_LIMIT : Z := 1400000.
Definition DEFAULT_HEAP_COST : Z := 8.
Definition DEFAULT_INSTRUCTION_COMPUTE_UNIT_LIMIT : Z := 200000.
Definition MAX_BUILTIN_ALLOCATION_COMPUTE_UNIT_LIMIT : Z := 3000.
Definition MAX_HEAP_FRAME_BYTES : Z := 256 * 1024.
Definition MIN_HEAP_FRAME_BYTES `{Sdk} : Z := HEAP_LENGTH.
Definition MAX_LOADED_ACCOUNTS_DATA_SIZE_BYTES : Z := 64 * 1024 * 1024.
Definition MICRO_LAMPORTS_PER_LAMPORT : Z := 1000000.

Record ComputeBudgetLimits := {
  updated_heap_bytes : Z;
  compute_unit_limit : Z;
  compute_unit_price : Z;
  loaded_accounts_bytes : Z;
}.

Definition ComputeBudgetLimits_default `{Sdk} : ComputeBudgetLimits := {|
  updated_heap_bytes := MIN_HEAP_FRAME_BYTES;
  compute_unit_limit := MAX_COMPUTE_UNIT_LIMIT;
  compute_unit_price := 0;
  loaded_accounts_bytes := MAX_LOADED_ACCOUNTS_DATA_SIZE_BYTES;
|}.

Definition get_prioritization_fee (compute_unit_price compute_unit_limit : Z) : Z :=
  let micro_lamport_fee := saturating_mul u128_MAX compute_unit_price compute_unit_limit in
  let fee := saturating_add u128_MAX micro_lamport_fee
               (saturating_sub MICRO_LAMPORTS_PER_LAMPORT 1) / MICRO_LAMPORTS_PER_LAMPORT in
  if fee <=? u64_MAX then fee else u64_MAX.

(** [FeeBudgetLimits] and the conversion to it. *)
Record FeeBudgetLimits := {
  loaded_accounts_data_size_limit : Z;
  heap_cost : Z;
  fee_compute_unit_limit : Z;
  prioritization_fee : Z;
}.

Definition FeeBudgetLimits_from (val : ComputeBudgetLimits) : FeeBudgetLimits := {|
  loaded_accounts_data_size_limit := loaded_accounts_bytes val;
  heap_cost := DEFAULT_HEAP_COST;
  fee_compute_unit_limit := compute_unit_limit val;
  prioritization_fee := get_prioritization_fee (compute_unit_price val) (compute_unit_limit val);
|}.

End Limits.

(** * Details collected from the instructions *)

Module Details.
Import Builtins Filters Limits.

(** The requests hold the index of their instruction and the value it gave. *)
Record ComputeBudgetInstructionDetails := {
  requested_compute_unit_limit : option (Z * Z);
  requested_compute_unit_price : option (Z * Z);
  requested_heap_size : option (Z * Z);
  requested_loaded_accounts_data_size_limit : option (Z * Z);
  num_non_compute_budget_instructions : Z;
  num_non_migratable_builtin_instructions : Z;
  num_non_builtin_instructions : Z;
  migrating_builtin : list Z;
}.

Section details.
Context `{sdk : Sdk}.

Definition default_ : ComputeBudgetInstructionDetails := {|
  requested_compute_unit_limit := None;
  requested_compute_unit_price := None;
  requested_heap_size := None;
  requested_loaded_accounts_data_size_limit := None;
  num_non_compute_budget_instructions := 0;
  num_non_migratable_builtin_instructions := 0;
  num_non_builtin_instructions := 0;
  migrating_builtin := replicate (length MIGRATING_BUILTINS_COSTS) 0;
|}.

Definition set_requests (limit price heap loaded : option (Z * Z))
    (d : ComputeBudgetInstructionDetails) : ComputeBudgetInstructionDetails := {|
  requested_compute_unit_limit := limit;
  requested_compute_unit_price := price;
  requested_heap_size := heap;
  requested_loaded_accounts_data_size_limit := loaded;
  num_non_compute_budget_instructions := num_non_compute_budget_instructions d;
  num_non_migratable_builtin_instructions := num_non_migratable_builtin_instructions d;
  num_non_builtin_instructions := num_non_builtin_instructions d;
  migrating_builtin := migrating_builtin d;
|}.

Definition set_counters (non_budget builtin non_builtin : Z) (migrating : list Z)
    (d : ComputeBudgetInstructionDetails) : ComputeBudgetInstructionDetails := {|
  requested_compute_unit_limit := requested_compute_unit_limit d;
  requested_compute_unit_price := requested_compute_unit_price d;
  requested_heap_size := requested_heap_size d;
  requested_loaded_accounts_data_size_limit := requested_loaded_accounts_data_size_limit d;
  num_non_compute_budget_instructions := non_budget;
  num_non_migratable_builtin_instructions := builtin;
  num_non_builtin_instructions := non_builtin;
  migrating_builtin := migrating;
|}.

Definition process_instruction (index : Z) (instruction : SVMInstruction)
    (d : ComputeBudgetInstructionDetails)
    : result ComputeBudgetInstructionDetails BudgetError :=
  let limit := requested_compute_unit_limit d in
  let price := requested_compute_unit_price d in
  let heap := requested_heap_size d in
  let loaded := requested_loaded_accounts_data_size_limit d in
  match try_from_slice_unchecked (data instruction) with
  | Some (RequestHeapFrame bytes) =>
      if is_some heap then Err (DuplicateInstruction index)
      else Ok (set_requests limit price (Some (index, bytes)) loaded d)
  | Some (SetComputeUnitLimit units) =>
      if is_some limit then Err (DuplicateInstruction index)
      else Ok (set_requests (Some (index, units)) price heap loaded d)
  | Some (SetComputeUnitPrice micro_lamports) =>
      if is_some price then Err (DuplicateInstruction index)
      else Ok (set_requests limit (Some (index, micro_lamports)) heap loaded d)
  | Some (SetLoadedAccountsDataSizeLimit bytes) =>
      if is_some loaded then Err (DuplicateInstruction index)
      else Ok (set_requests limit price heap (Some (index, bytes)) d)
  | None => Err (InvalidInstructionData index)
  end.

(** The first loop of [try_from]; [i as u8] wraps. *)
Fixpoint collect_requests (i : Z) (instructions : list (Pubkey * SVMInstruction))
    (flags : list (option bool)) (d : ComputeBudgetInstructionDetails)
    : outcome (result ComputeBudgetInstructionDetails BudgetError) :=
  match instructions with
  | [] => Ret (Ok d)
  | (program_id, instruction) :: instructions =>
      '(is_budget, flags) ←
        is_compute_budget_program flags (program_id_index instruction) program_id;
      if is_budget : bool then
        match process_instruction (i mod 256) instruction d with
        | Ok d => collect_requests (i + 1) instructions flags d
        | Err e => Ret (Err e)
        end
      else
        collect_requests (i + 1) instructions flags
          (set_counters (saturating_add u16_MAX (num_non_compute_budget_instructions d) 1)
             (num_non_migratable_builtin_instructions d) (num_non_builtin_instructions d)
             (migrating_builtin d) d)
  end.

(** One instruction of the second loop. *)
Definition count_program (kind : ProgramKind) (d : ComputeBudgetInstructionDetails)
    : outcome ComputeBudgetInstructionDetails :=
  let non_budget := num_non_compute_budget_instructions d in
  let builtin := num_non_migratable_builtin_instructions d in
  let non_builtin := num_non_builtin_instructions d in
  match kind with
  | KindBuiltin =>
      Ret (set_counters non_budget (saturating_add u16_MAX builtin 1) non_builtin
             (migrating_builtin d) d)
  | KindNotBuiltin =>
      Ret (set_counters non_budget builtin (saturating_add u16_MAX non_builtin 1)
             (migrating_builtin d) d)
  | KindMigratingBuiltin index =>
      count ← unwrap (migrating_builtin d !! Z.to_nat index);
      Ret (set_counters non_budget builtin non_builtin
             (<[Z.to_nat index := saturating_add u16_MAX count 1]> (migrating_builtin d)) d)
  end.

Fixpoint count_programs (instructions : list (Pubkey * SVMInstruction))
    (program_kind : list (option ProgramKind)) (d : ComputeBudgetInstructionDetails)
    : outcome ComputeBudgetInstructionDetails :=
  match instructions with
  | [] => Ret d
  | (program_id, instruction) :: instructions =>
      '(kind, program_kind) ←
        get_program_kind program_kind (program_id_index instruction) program_id;
      d ← count_program kind d;
      count_programs instructions program_kind d
  end.

Definition try_from (instructions : list (Pubkey * SVMInstruction))
    : outcome (result ComputeBudgetInstructionDetails BudgetError) :=
  r ← collect_requests 0 instructions new default_;
  match r with
  | Err e => Ret (Err e)
  | Ok d =>
      match requested_compute_unit_limit d with
      | None => d ← count_programs instructions new d; Ret (Ok d)
      | Some _ => Ret (Ok d)
      end
  end.

Definition sanitize_requested_heap_size (bytes : Z) : bool :=
  (MIN_HEAP_FRAME_BYTES <=? bytes) && (bytes <=? MAX_HEAP_FRAME_BYTES) && (bytes mod 1024 =? 0).

(** The fold over the migrating builtins: how many instructions are of builtins
    that have migrated, and how many of builtins that have not. *)
Fixpoint count_migrated (feature_set : FeatureSet) (index : Z) (counts : list Z)
    (migrated not_migrated : Z) : outcome (Z * Z) :=
  match counts with
  | [] => Ret (migrated, not_migrated)
  | count :: counts =>
      active ← (if 0 <? count
                then id ← get_migration_feature_id index; Ret (feature_set id)
                else Ret false);
      if active : bool then
        migrated ← add_ u16_MAX migrated count;
        count_migrated feature_set (index + 1) counts migrated not_migrated
      else
        not_migrated ← add_ u16_MAX not_migrated count;
        count_migrated feature_set (index + 1) counts migrated not_migrated
  end.

Definition calculate_default_compute_unit_limit (feature_set : FeatureSet)
    (d : ComputeBudgetInstructionDetails) : outcome Z :=
  '(num_migrated, num_not_migrated) ←
    count_migrated feature_set 0 (migrating_builtin d) 0 0;
  Ret (saturating_add u32_MAX
    (saturating_mul u32_MAX
       (saturating_add u32_MAX (num_non_migratable_builtin_instructions d) num_not_migrated)
       MAX_BUILTIN_ALLOCATION_COMPUTE_UNIT_LIMIT)
    (saturating_mul u32_MAX
       (saturating_add u32_MAX (num_non_builtin_instructions d) num_migrated)
       DEFAULT_INSTRUCTION_COMPUTE_UNIT_LIMIT)).

Definition sanitize_and_convert_to_compute_budget_limits (feature_set : FeatureSet)
    (d : ComputeBudgetInstructionDetails) : outcome (result ComputeBudgetLimits BudgetError) :=
  match
    match requested_heap_size d with
    | Some (index, heap) =>
        if sanitize_requested_heap_size heap then Ok heap else Err (InvalidInstructionData index)
    | None => Ok MIN_HEAP_FRAME_BYTES
    end
  with
  | Err e => Ret (Err e)
  | Ok heap =>
      let updated_heap_bytes := Z.min heap MAX_HEAP_FRAME_BYTES in
      limit ← match requested_compute_unit_limit d with
              | None => calculate_default_compute_unit_limit feature_set d
              | Some (_, units) => Ret units
              end;
      let compute_unit_limit := Z.min limit MAX_COMPUTE_UNIT_LIMIT in
      let compute_unit_price :=
        match requested_compute_unit_price d with Some (_, price) => price | None => 0 end in
      match
        match requested_loaded_accounts_data_size_limit d with
        | Some (_, bytes) =>
            if bytes =? 0 then Err InvalidLoadedAccountsDataSizeLimit else Ok bytes
        | None => Ok MAX_LOADED_ACCOUNTS_DATA_SIZE_BYTES
        end
      with
      | Err e => Ret (Err e)
      | Ok bytes =>
          Ret (Ok {| updated_heap_bytes := updated_heap_bytes;
                     compute_unit_limit := compute_unit_limit;
                     compute_unit_price := compute_unit_price;
                     loaded_accounts_bytes := Z.min bytes MAX_LOADED_ACCOUNTS_DATA_SIZE_BYTES |})
      end
  end.

(** [process_compute_budget_instructions]. *)
Definition process_compute_budget_instructions (instructions : list (Pubkey * SVMInstruction))
    (feature_set : FeatureSet) : outcome (result ComputeBudgetLimits BudgetError) :=
  r ← try_from instructions;
  match r with
  | Err e => Ret (Err e)
  | Ok d => sanitize_and_convert_to_compute_budget_limits feature_set d
  end.

End details.
End Details.
