(* ===== verification/ComputeBudgetProps.v ===== *)
(** What compute-budget processing guarantees: the cached filters and the table of
    first bytes change nothing, every request is honoured or reported, and the
    limits stay within their bounds. *)

From S2P Require Import Prelude ComputeBudget.

Section builtins.
Import Builtins Filters.
Context `{sdk : Sdk}.

Definition is_pubkey (id : Pubkey) : Prop := 0 ≤ id < 2 ^ 256.

Lemma first_byte_range id : is_pubkey id → 0 ≤ first_byte id < 256.
Proof.
  intros [H0 H1]. unfold first_byte. rewrite Z.shiftr_div_pow2 by done.
  split; [by apply Z.div_pos|]. apply Z.div_lt_upper_bound; [done|]. exact H1.
Qed.

#[local] Opaque first_byte.

Lemma fold_mark_length (keys : list Pubkey) (tbl : list bool) :
  length (fold_left (λ tbl key, <[Z.to_nat (first_byte key) := true]> tbl) keys tbl) = length tbl.
Proof.
  revert tbl. induction keys as [|k keys IH]; intros tbl; simpl; [done|].
  by rewrite IH, length_insert.
Qed.

Lemma fold_mark_lookup (keys : list Pubkey) (tbl : list bool) i :
  (i < length tbl)%nat → tbl !! i = Some true ∨ (∃ k, k ∈ keys ∧ Z.to_nat (first_byte k) = i) →
  fold_left (λ tbl key, <[Z.to_nat (first_byte key) := true]> tbl) keys tbl !! i = Some true.
Proof.
  revert tbl. induction keys as [|k keys IH]; intros tbl Hi H; simpl; [set_solver|].
  apply IH; [by rewrite length_insert|].
  destruct (decide (Z.to_nat (first_byte k) = i)) as [<-|Hne].
  - left. by apply list_lookup_insert_eq.
  - rewrite list_lookup_insert_ne by done. set_solver.
Qed.

(** The table never hides a builtin. *)
Lemma maybe_builtin_key_spec id : is_pubkey id →
  ∃ b, maybe_builtin_key id = Ret b ∧ (is_Some (BUILTIN_INSTRUCTION_COSTS !! id) → b = true).
Proof.
  intros Hid. pose proof (first_byte_range id Hid) as Hb.
  assert (length MAYBE_BUILTIN_KEY = 256%nat) as Hlen by (unfold MAYBE_BUILTIN_KEY; by rewrite fold_mark_length).
  unfold maybe_builtin_key.
  destruct (MAYBE_BUILTIN_KEY !! Z.to_nat (first_byte id)) as [b|] eqn:E.
  - exists b. split; [done|]. intros [c Hc].
    enough (MAYBE_BUILTIN_KEY !! Z.to_nat (first_byte id) = Some true) by congruence.
    apply fold_mark_lookup; [rewrite length_replicate; lia|]. right. exists id. split; [|done].
    apply list_elem_of_fmap. exists (id, c). split; [done|]. by apply elem_of_map_to_list.
  - apply lookup_ge_None in E. lia.
Qed.

Lemma compute_budget_builtin : is_Some (BUILTIN_INSTRUCTION_COSTS !! compute_budget_id).
Proof.
  unfold BUILTIN_INSTRUCTION_COSTS. simpl. rewrite !lookup_insert_is_Some.
  destruct (decide (compute_budget_id = ed25519_program_id)) as [->|]; [by left|].
  right. split; [done|].
  repeat match goal with
  | |- ?k = ?k ∨ _ => by left
  | |- ?k = ?k' ∨ _ => destruct (decide (k = k')); [by left|right; split; [done|]]
  end.
Qed.

(** The checks without the table. *)
Definition is_budget (id : Pubkey) : bool := id =? compute_budget_id.
Definition kind_of (id : Pubkey) : ProgramKind :=
  match BUILTIN_INSTRUCTION_COSTS !! id with
  | None => KindNotBuiltin
  | Some c => match position c with None => KindBuiltin | Some i => KindMigratingBuiltin i end
  end.

Lemma check_program_id_spec id : is_pubkey id → check_program_id id = Ret (is_budget id).
Proof.
  intros Hid. destruct (maybe_builtin_key_spec id Hid) as (b & Hb & Hin).
  unfold check_program_id, is_budget. rewrite Hb. destruct b; simpl; [done|].
  case_leb; [|done]. subst. by discriminate Hin; apply compute_budget_builtin.
Qed.

Lemma check_program_kind_spec id : is_pubkey id → check_program_kind id = Ret (kind_of id).
Proof.
  intros Hid. destruct (maybe_builtin_key_spec id Hid) as (b & Hb & Hin).
  unfold check_program_kind, kind_of, get_builtin_migration_feature_index. rewrite Hb.
  destruct (BUILTIN_INSTRUCTION_COSTS !! id) as [c|] eqn:E.
  - rewrite Hin by eauto. simpl. by destruct (position c).
  - by destruct b.
Qed.

(** ** Caches *)

Section cache.
Context {A : Type} (keys : Z → Pubkey) (check : Pubkey → outcome A) (f : Pubkey → A).
Context (Hcheck : ∀ i, 0 ≤ i < FILTER_SIZE → check (keys i) = Ret (f (keys i))).

Definition cache_ok (slots : list (option A)) : Prop :=
  Z.of_nat (length slots) = FILTER_SIZE ∧
  ∀ i a, 0 ≤ i → slots !! Z.to_nat i = Some (Some a) → a = f (keys i).

Lemma cached_spec slots i : cache_ok slots → 0 ≤ i < FILTER_SIZE →
  ∃ slots', cached (check (keys i)) slots i = Ret (f (keys i), slots') ∧ cache_ok slots'.
Proof using Hcheck.
  intros [Hlen Hok] Hi. unfold cached.
  destruct (lookup_lt_is_Some_2 slots (Z.to_nat i)) as [slot Hslot]; [lia|].
  rewrite Hslot. simpl. destruct slot as [a|].
  - rewrite <-(Hok i a) by (done || lia). by exists slots.
  - rewrite Hcheck by done. simpl. eexists. split; [done|].
    split; [by rewrite length_insert|]. intros j a Hj.
    destruct (decide (j = i)) as [->|].
    + rewrite list_lookup_insert_eq by lia. congruence.
    + rewrite list_lookup_insert_ne by lia. by apply Hok.
Qed.

Lemma cache_ok_new : 0 ≤ FILTER_SIZE → cache_ok new.
Proof using Type.
  intros. split; [unfold new; rewrite length_replicate; lia|].
  intros i a _ [Hl _]%lookup_replicate_1. done.
Qed.
End cache.

End builtins.

(** * Collecting the requests *)

Section details.
Import Builtins Filters Limits Details.
Context `{sdk : Sdk}.
#[local] Opaque first_byte.

(** The four kinds of requests, and what an instruction asks for. *)
Inductive Kind := KHeap | KLimit | KPrice | KLoaded.
#[global] Instance Kind_eq_dec : EqDecision Kind.
Proof. solve_decision. Defined.

Definition decode (ins : SVMInstruction) : option (Kind * Z) :=
  match try_from_slice_unchecked (data ins) with
  | Some (RequestHeapFrame v) => Some (KHeap, v)
  | Some (SetComputeUnitLimit v) => Some (KLimit, v)
  | Some (SetComputeUnitPrice v) => Some (KPrice, v)
  | Some (SetLoadedAccountsDataSizeLimit v) => Some (KLoaded, v)
  | None => None
  end.

Definition request (K : Kind) (d : ComputeBudgetInstructionDetails) : option (Z * Z) :=
  match K with
  | KHeap => requested_heap_size d
  | KLimit => requested_compute_unit_limit d
  | KPrice => requested_compute_unit_price d
  | KLoaded => requested_loaded_accounts_data_size_limit d
  end.

(** The requests of one kind, in order, with the index of their instruction. *)
Fixpoint requests_of (K : Kind) (i : Z) (l : list (Pubkey * SVMInstruction)) : list (Z * Z) :=
  match l with
  | [] => []
  | (id, ins) :: l =>
      (if is_budget id then
         match decode ins with
         | Some (K', v) => if decide (K' = K) then [(i mod 256, v)] else []
         | None => []
         end
       else []) ++ requests_of K (i + 1) l
  end.

Definition counters (d : ComputeBudgetInstructionDetails) : Z * Z * list Z :=
  (num_non_migratable_builtin_instructions d, num_non_builtin_instructions d,
   migrating_builtin d).

Lemma process_instruction_spec index ins d :
  match decode ins with
  | None => process_instruction index ins d = Err (InvalidInstructionData index)
  | Some (K, v) =>
      match request K d with
      | Some _ => process_instruction index ins d = Err (DuplicateInstruction index)
      | None => ∃ d', process_instruction index ins d = Ok d' ∧
          request K d' = Some (index, v) ∧ (∀ K', K' ≠ K → request K' d' = request K' d) ∧
          counters d' = counters d
      end
  end.
Proof.
  unfold decode, process_instruction.
  destruct (try_from_slice_unchecked (data ins)) as [[v|v|v|v]|]; simpl; [..|done];
    [destruct (requested_heap_size d)|destruct (requested_compute_unit_limit d)
    |destruct (requested_compute_unit_price d)
    |destruct (requested_loaded_accounts_data_size_limit d)]; simpl; try done;
    (eexists; split_and!; [done..| |done]); by intros [].
Qed.

(** The loop without its cache. *)
Fixpoint plain_collect (i : Z) (l : list (Pubkey * SVMInstruction))
    (d : ComputeBudgetInstructionDetails) : result ComputeBudgetInstructionDetails BudgetError :=
  match l with
  | [] => Ok d
  | (id, ins) :: l =>
      if is_budget id then
        match process_instruction (i mod 256) ins d with
        | Ok d => plain_collect (i + 1) l d
        | Err e => Err e
        end
      else plain_collect (i + 1) l
        (set_counters (saturating_add u16_MAX (num_non_compute_budget_instructions d) 1)
           (num_non_migratable_builtin_instructions d) (num_non_builtin_instructions d)
           (migrating_builtin d) d)
  end.

Lemma plain_collect_spec i l d :
  match plain_collect i l d with
  | Ok d' => (∀ K, option_list (request K d') = option_list (request K d) ++ requests_of K i l) ∧
      counters d' = counters d ∧
      (∀ id ins, (id, ins) ∈ l → is_budget id = true → is_Some (decode ins))
  | Err _ => (∃ id ins, (id, ins) ∈ l ∧ is_budget id = true ∧ decode ins = None) ∨
      (∃ K, (1 < length (option_list (request K d) ++ requests_of K i l))%nat)
  end.
Proof.
  revert i d. induction l as [|[id ins] l IH]; intros i d; simpl.
  { split_and!; [|done|set_solver]. intros K. by rewrite app_nil_r. }
  destruct (is_budget id) eqn:Hid.
  - pose proof (process_instruction_spec (i mod 256) ins d) as Hp.
    destruct (decode ins) as [[K v]|] eqn:Hdec.
    + destruct (request K d) as [x|] eqn:Hreq.
      * rewrite Hp. right. exists K. rewrite decide_True by done. rewrite Hreq. simpl. lia.
      * destruct Hp as (d1 & -> & HK & Hother & Hcnt).
        assert (∀ K', option_list (request K' d1) = option_list (request K' d) ++
          (if decide (K = K') then [(i mod 256, v)] else [])) as Hreq1.
        { intros K'. case_decide as E; [subst; by rewrite HK, Hreq|].
          rewrite Hother by done. by rewrite app_nil_r. }
        specialize (IH (i + 1) d1). destruct (plain_collect (i + 1) l d1).
        -- destruct IH as (H1 & H2 & H3). split_and!; [|congruence|].
           ++ intros K'. by rewrite H1, Hreq1, app_assoc.
           ++ intros id' ins' [[= -> ->]|Hin]%elem_of_cons; [by rewrite Hdec|by apply H3].
        -- destruct IH as [(id' & ins' & ? & ?)|[K' HK']]; [left; set_solver|right].
           exists K'. by rewrite app_assoc, <-Hreq1.
    + rewrite Hp. left. exists id, ins. set_solver.
  - specialize (IH (i + 1) (set_counters (saturating_add u16_MAX
      (num_non_compute_budget_instructions d) 1) (num_non_migratable_builtin_instructions d)
      (num_non_builtin_instructions d) (migrating_builtin d) d)).
    destruct (plain_collect _ _ _).
    + destruct IH as (H1 & H2 & H3). split_and!; [by intros []; apply H1| |];
        [by rewrite H2|]. intros id' ins' [[= -> ->]|Hin]%elem_of_cons; [congruence|by apply H3].
    + destruct IH as [(id' & ins' & ? & ?)|[K' HK']]; [left; set_solver|right].
      exists K'. by destruct K'.
Qed.

Definition valid_instructions (keys : Z → Pubkey) (instrs : list SVMInstruction) : Prop :=
  (∀ i, is_pubkey (keys i)) ∧
  ∀ ins, ins ∈ instrs → 0 ≤ program_id_index ins < FILTER_SIZE.

(** [program_instructions_iter]: each instruction with the key of its program. *)
Definition program_instructions (keys : Z → Pubkey) (instrs : list SVMInstruction)
    : list (Pubkey * SVMInstruction) :=
  (λ ins, (keys (program_id_index ins), ins)) <$> instrs.

Lemma collect_requests_plain keys instrs i flags d :
  valid_instructions keys instrs → cache_ok keys is_budget flags →
  collect_requests i (program_instructions keys instrs) flags d =
  Ret (plain_collect i (program_instructions keys instrs) d).
Proof.
  intros [Hkeys Hidx]. revert i flags d.
  induction instrs as [|ins instrs IH]; intros i flags d Hc; simpl; [done|].
  unfold is_compute_budget_program.
  destruct (cached_spec keys check_program_id is_budget
    ltac:(intros; apply check_program_id_spec, Hkeys) flags (program_id_index ins) Hc)
    as (flags' & -> & Hc'); [apply Hidx; left|]. simpl.
  destruct (is_budget _); [|apply IH; set_solver].
  destruct (process_instruction _ _ _); [apply IH; set_solver|done].
Qed.

Fixpoint plain_count (l : list (Pubkey * SVMInstruction)) (d : ComputeBudgetInstructionDetails)
    : outcome ComputeBudgetInstructionDetails :=
  match l with
  | [] => Ret d
  | (id, _) :: l => d ← count_program (kind_of id) d; plain_count l d
  end.

Lemma count_programs_plain keys instrs kinds d :
  valid_instructions keys instrs → cache_ok keys kind_of kinds →
  count_programs (program_instructions keys instrs) kinds d =
  plain_count (program_instructions keys instrs) d.
Proof.
  intros [Hkeys Hidx]. revert kinds d.
  induction instrs as [|ins instrs IH]; intros kinds d Hc; simpl; [done|].
  unfold get_program_kind.
  destruct (cached_spec keys check_program_kind kind_of
    ltac:(intros; apply check_program_kind_spec, Hkeys) kinds (program_id_index ins) Hc)
    as (kinds' & -> & Hc'); [apply Hidx; left|]. simpl.
  destruct (count_program _ _); simpl; [apply IH; set_solver|done..].
Qed.

(** * Counting the programs *)

#[global] Instance ProgramKind_eq_dec : EqDecision ProgramKind.
Proof. solve_decision. Defined.

Definition num_kind (k : ProgramKind) (l : list (Pubkey * SVMInstruction)) : Z :=
  cnt (kind_of <$> l.*1) k.

Lemma costs_lookup id c : BUILTIN_INSTRUCTION_COSTS !! id = Some c →
  (id, c) ∈ MIGRATING_BUILTINS_COSTS ++ NON_MIGRATING_BUILTINS_COSTS.
Proof.
  unfold BUILTIN_INSTRUCTION_COSTS.
  enough (∀ (l : list (Pubkey * BuiltinCost)) (m : gmap Pubkey BuiltinCost),
    fold_left (λ m '(k, c), <[k := c]> m) l m !! id = Some c → (id, c) ∈ l ∨ m !! id = Some c) as H.
  { intros [?|Hn]%H; [done|]. by rewrite lookup_empty in Hn. }
  induction l as [|[k c'] l IH]; intros m Hl; simpl in Hl; [by right|].
  apply IH in Hl as [Hl|Hl]; [left; by right|].
  apply lookup_insert_Some in Hl as [[-> ->]|[_ Hl]]; [left; by left|by right].
Qed.

Lemma costs_cases id :
  match BUILTIN_INSTRUCTION_COSTS !! id with
  | None => kind_of id = KindNotBuiltin
  | Some (Migrating _ f _) =>
      kind_of id = KindMigratingBuiltin 0 ∧ f = migrate_stake_program_to_core_bpf_id
  | Some (NotMigrating _) => kind_of id = KindBuiltin
  end.
Proof.
  unfold kind_of. destruct (BUILTIN_INSTRUCTION_COSTS !! id) as [c|] eqn:E; [|done].
  apply costs_lookup in E. unfold MIGRATING_BUILTINS_COSTS, NON_MIGRATING_BUILTINS_COSTS in E.
  destruct c; [|done]. set_solver.
Qed.

Lemma num_kind_cons k id ins l :
  num_kind k ((id, ins) :: l) = (if decide (kind_of id = k) then 1 else 0) + num_kind k l.
Proof. unfold num_kind. rewrite !fmap_cons. apply cnt_cons. Qed.

Lemma plain_count_spec l d b n m :
  counters d = (b, n, [m]) → 0 ≤ b → 0 ≤ n → 0 ≤ m →
  b + n + m + Z.of_nat (length l) ≤ u16_MAX →
  ∃ d', plain_count l d = Ret d' ∧ (∀ K, request K d' = request K d) ∧
    counters d' = (b + num_kind KindBuiltin l, n + num_kind KindNotBuiltin l,
                   [m + num_kind (KindMigratingBuiltin 0) l]).
Proof.
  revert d b n m. induction l as [|[id ins] l IH]; intros d b n m Hd Hb Hn Hm Hlen.
  { exists d. split_and!; [done..|]. unfold num_kind, cnt. simpl. by rewrite !Z.add_0_r. }
  cbn [plain_count]. simpl in Hlen. rewrite !num_kind_cons.
  assert (∃ d1, count_program (kind_of id) d = Ret d1 ∧ (∀ K, request K d1 = request K d) ∧
    counters d1 = (b + (if decide (kind_of id = KindBuiltin) then 1 else 0),
                   n + (if decide (kind_of id = KindNotBuiltin) then 1 else 0),
                   [m + (if decide (kind_of id = KindMigratingBuiltin 0) then 1 else 0)]))
    as (d1 & -> & Hr1 & Hd1).
  { pose proof (costs_cases id) as Hc. destruct d as [? ? ? ? nb b' n' mig].
    unfold counters in Hd. simpl in Hd. injection Hd as -> -> ->.
    destruct (BUILTIN_INSTRUCTION_COSTS !! id) as [[? ? ?|?]|];
      [destruct Hc as [-> _]|rewrite Hc..]; simpl; (eexists; split_and!; [done|by intros []|]);
      unfold counters, saturating_add; simpl; repeat f_equal; lia. }
  simpl. destruct (IH d1 _ _ _ Hd1) as (d' & -> & Hr & Hd').
  1-3: clear Hd1; case_decide; lia.
  { clear Hd1. pose proof (costs_cases id) as Hc. destruct (BUILTIN_INSTRUCTION_COSTS !! id) as [[? ? ?|?]|];
      [destruct Hc as [-> _]|rewrite Hc..]; simpl; lia. }
  exists d'. split_and!; [done|intros K; by rewrite Hr|]. rewrite Hd', !Z.add_assoc. done.
Qed.

Lemma cache_new {A} keys (f : Pubkey → A) : cache_ok keys f new.
Proof. apply cache_ok_new. unfold FILTER_SIZE. apply Z.mod_pos_bound. lia. Qed.

Lemma try_from_run keys instrs : valid_instructions keys instrs →
  let l := program_instructions keys instrs in
  try_from l = match plain_collect 0 l default_ with
    | Err e => Ret (Err e)
    | Ok d => match requested_compute_unit_limit d with
        | None => d ← plain_count l d; Ret (Ok d)
        | Some _ => Ret (Ok d)
        end
    end.
Proof.
  intros Hv l. unfold try_from, l. rewrite collect_requests_plain by (done || apply cache_new). simpl.
  destruct (plain_collect 0 _ default_) as [d|e]; [|done].
  destruct (requested_compute_unit_limit d); [done|].
  by rewrite count_programs_plain by (done || apply cache_new).
Qed.

Lemma try_from_spec keys instrs :
  valid_instructions keys instrs → Z.of_nat (length instrs) ≤ u16_MAX →
  let l := program_instructions keys instrs in
  ∃ r, try_from l = Ret r ∧
    match r with
    | Ok d => (∀ K, option_list (request K d) = requests_of K 0 l) ∧
        (∀ ins, ins ∈ instrs → keys (program_id_index ins) = compute_budget_id →
           is_Some (decode ins)) ∧
        (request KLimit d = None → counters d =
          (num_kind KindBuiltin l, num_kind KindNotBuiltin l, [num_kind (KindMigratingBuiltin 0) l]))
    | Err _ =>
        (∃ ins, ins ∈ instrs ∧ keys (program_id_index ins) = compute_budget_id ∧ decode ins = None) ∨
        ∃ K, (1 < length (requests_of K 0 l))%nat
    end.
Proof.
  intros Hv Hlen l. pose proof (try_from_run keys instrs Hv) as Hrun.
  cbn zeta in Hrun. fold l in Hrun. rewrite Hrun. clear Hrun.
  pose proof (plain_collect_spec 0 l default_) as Hc.
  assert (∀ K, option_list (request K default_) = []) as H0 by (by intros []).
  destruct (plain_collect 0 l default_) as [d|e].
  - destruct Hc as (Hr & Hcnt & Hdec). setoid_rewrite H0 in Hr. simpl in Hr.
    assert (∀ ins, ins ∈ instrs → keys (program_id_index ins) = compute_budget_id →
      is_Some (decode ins)) as Hdec'.
    { intros ins Hi E. eapply Hdec; [by apply list_elem_of_fmap; exists ins|].
      unfold is_budget. rewrite E. apply Z.eqb_refl. }
    destruct (requested_compute_unit_limit d) eqn:Hlim; [exists (Ok d); naive_solver|].
    destruct (plain_count_spec l d 0 0 0) as (d' & -> & Hd' & Hc');
      [done|done..|unfold l, program_instructions; rewrite length_fmap; lia|].
    exists (Ok d'). split_and!; [done|intros K; by rewrite Hd'|done|done].
  - exists (Err e). split; [done|]. setoid_rewrite H0 in Hc. destruct Hc as [Hc|Hc]; [left|by right].
    destruct Hc as (id & ins & Hi & Hb & Hn). exists ins.
    apply list_elem_of_fmap in Hi as (ins' & [= -> ->] & Hi).
    unfold is_budget in Hb. apply Z.eqb_eq in Hb. done.
Qed.

(** ** The default limit *)

(** An instruction is charged as a builtin when it has a builtin cost. *)
Definition num_builtin (fs : FeatureSet) (l : list (Pubkey * SVMInstruction)) : Z :=
  Z.of_nat (length (filter (λ id, is_Some (get_builtin_instruction_cost id fs)) l.*1)).

Lemma num_builtin_kinds fs l :
  num_builtin fs l = num_kind KindBuiltin l +
    (if fs migrate_stake_program_to_core_bpf_id then 0 else num_kind (KindMigratingBuiltin 0) l) ∧
  num_kind KindBuiltin l + num_kind KindNotBuiltin l + num_kind (KindMigratingBuiltin 0) l =
    Z.of_nat (length l).
Proof.
  induction l as [|[id ins] l [IH1 IH2]]; [by destruct (fs _)|].
  rewrite !num_kind_cons. unfold num_builtin in *. rewrite fmap_cons, filter_cons.
  assert (is_Some (get_builtin_instruction_cost id fs) ↔
    match kind_of id with
    | KindBuiltin => True
    | KindNotBuiltin => False
    | KindMigratingBuiltin _ => fs migrate_stake_program_to_core_bpf_id = false
    end ∧ kind_of id ∈ [KindBuiltin; KindNotBuiltin; KindMigratingBuiltin 0]) as Hk.
  { pose proof (costs_cases id) as Hc. unfold get_builtin_instruction_cost.
    destruct (BUILTIN_INSTRUCTION_COSTS !! id) as [[? f ?|?]|];
      [destruct Hc as [-> ->]; simpl; destruct (fs _)|rewrite Hc..]; simpl;
      (split; [intros [? [=]]|]); try (split; [done|set_solver]); naive_solver. }
  assert (kind_of id ∈ [KindBuiltin; KindNotBuiltin; KindMigratingBuiltin 0]) as Hin.
  { pose proof (costs_cases id) as Hc. destruct (BUILTIN_INSTRUCTION_COSTS !! id) as [[? ? ?|?]|];
      [destruct Hc as [-> _]|rewrite Hc..]; set_solver. }
  simpl fst. destruct (decide (is_Some (get_builtin_instruction_cost id fs))) as [Hs|Hs];
    rewrite Hk in Hs; clear Hk; rewrite !elem_of_cons in Hin;
    destruct Hin as [E|[E|[E|[]%not_elem_of_nil]]]; rewrite E in *; simpl in *;
    destruct (fs _); simpl in *; first [lia|exfalso; naive_solver set_solver].
Qed.

Lemma default_limit_spec fs d b n m :
  counters d = (b, n, [m]) → 0 ≤ b → 0 ≤ n → 0 ≤ m → b + n + m ≤ u16_MAX →
  ∃ u, calculate_default_compute_unit_limit fs d = Ret u ∧
    Z.min u MAX_COMPUTE_UNIT_LIMIT = Z.min
      (let a := b + (if fs migrate_stake_program_to_core_bpf_id then 0 else m) in
       3000 * a + 200000 * (b + n + m - a)) MAX_COMPUTE_UNIT_LIMIT.
Proof.
  intros Hd Hb Hn Hm Hsum. destruct d as [? ? ? ? nb b' n' mig]. unfold counters in Hd. simpl in Hd.
  injection Hd as -> -> ->. unfold calculate_default_compute_unit_limit. cbn [migrating_builtin].
  assert (count_migrated fs 0 [m] 0 0 =
    Ret (if fs migrate_stake_program_to_core_bpf_id then (m, 0) else (0, m))) as ->.
  { unfold count_migrated. unfold u16_MAX in *. destruct (Z.ltb_spec 0 m); simpl.
    - destruct (fs _); simpl; by run.
    - replace m with 0 by lia. by destruct (fs _). }
  destruct (fs _); simpl; (eexists; split; [done|]);
    unfold saturating_add, saturating_mul, MAX_BUILTIN_ALLOCATION_COMPUTE_UNIT_LIMIT,
      DEFAULT_INSTRUCTION_COMPUTE_UNIT_LIMIT, MAX_COMPUTE_UNIT_LIMIT, u32_MAX, u16_MAX in *; lia.
Qed.

(** C35. Whatever the program indices, the caches and the first-byte table change
    nothing: [try_from] returns, it succeeds exactly when every compute-budget
    instruction decodes and no kind of request occurs twice, and then it holds
    exactly the requests that were made. *)
Theorem try_from_exact keys instrs :
  valid_instructions keys instrs → Z.of_nat (length instrs) ≤ u16_MAX →
  let l := program_instructions keys instrs in
  ∃ r, try_from l = Ret r ∧
    (is_ok r = true ↔
       (∀ ins, ins ∈ instrs → keys (program_id_index ins) = compute_budget_id →
          is_Some (decode ins)) ∧
       ∀ K, (length (requests_of K 0 l) ≤ 1)%nat) ∧
    ∀ d, r = Ok d → ∀ K, request K d = head (requests_of K 0 l).
Proof.
  intros Hv Hlen l. destruct (try_from_spec keys instrs Hv Hlen) as (r & Hrun & Hr).
  exists r. split; [done|]. fold l in Hr. destruct r as [d|e].
  - destruct Hr as (Hreq & Hdec & _). split; [|].
    + split; [|done]. intros _. split; [done|]. intros K. rewrite <-Hreq.
      destruct (request K d); simpl; lia.
    + intros ? [= <-] K. rewrite <-Hreq. by destruct (request K d).
  - split; [|done]. split; [done|]. intros [Hd HK].
    destruct Hr as [(ins & Hi & Hb & Hn)|[K Hgt]].
    + destruct (Hd _ Hi Hb). congruence.
    + specialize (HK K). lia.
Qed.

(** The documented values of the interface crates that the limits rely on: the
    heap of a program is never longer than the largest heap frame, and decoded
    values are those of the unsigned fields. *)
Class SdkLaws : Prop := {
  heap_length_bounds : 0 < HEAP_LENGTH ≤ MAX_HEAP_FRAME_BYTES;
  decode_nonneg : ∀ ins K v, decode ins = Some (K, v) → 0 ≤ v;
}.

Lemma requests_of_nonneg `{!SdkLaws} K i l j v : (j, v) ∈ requests_of K i l → 0 ≤ v.
Proof.
  revert i. induction l as [|[id ins] l IH]; intros i; simpl; [set_solver|].
  rewrite elem_of_app. intros [Hin|Hin]; [|by eapply IH].
  destruct (is_budget id); [|set_solver]. destruct (decode ins) as [[K' v']|] eqn:E; [|set_solver].
  apply decode_nonneg in E. case_decide; set_solver.
Qed.

(** C36. Processing the compute-budget instructions never panics, and the limits
    it returns are within their bounds; without a request for it, the compute unit
    limit is 3000 for each instruction of a builtin that has not migrated and
    200000 for each other one, capped. *)
Theorem compute_budget_limits_exact `{!SdkLaws} keys instrs fs :
  valid_instructions keys instrs → Z.of_nat (length instrs) ≤ u16_MAX →
  let l := program_instructions keys instrs in
  ∃ r, process_compute_budget_instructions l fs = Ret r ∧
    ∀ lim, r = Ok lim →
      HEAP_LENGTH ≤ updated_heap_bytes lim ≤ MAX_HEAP_FRAME_BYTES ∧
      0 < loaded_accounts_bytes lim ≤ MAX_LOADED_ACCOUNTS_DATA_SIZE_BYTES ∧
      compute_unit_limit lim = Z.min (match requests_of KLimit 0 l with
        | (_, units) :: _ => units
        | [] => 3000 * num_builtin fs l + 200000 * (Z.of_nat (length instrs) - num_builtin fs l)
        end) MAX_COMPUTE_UNIT_LIMIT.
Proof.
  intros Hv Hlen l. destruct (try_from_spec keys instrs Hv Hlen) as (r & Hrun & Hr).
  fold l in Hrun, Hr. unfold process_compute_budget_instructions. rewrite Hrun. simpl.
  destruct r as [d|e]; [|by exists (Err e)]. destruct Hr as (Hreq & _ & Hcnt).
  assert (∃ u, match requested_compute_unit_limit d with
      | None => calculate_default_compute_unit_limit fs d | Some (_, units) => Ret units end = Ret u ∧
    Z.min u MAX_COMPUTE_UNIT_LIMIT = Z.min (match requests_of KLimit 0 l with
        | (_, units) :: _ => units
        | [] => 3000 * num_builtin fs l + 200000 * (Z.of_nat (length instrs) - num_builtin fs l)
        end) MAX_COMPUTE_UNIT_LIMIT) as (u & Hu & Humin).
  { rewrite <-Hreq. simpl in *. destruct (requested_compute_unit_limit d) as [[i u]|]; [by exists u|].
    simpl. destruct (num_builtin_kinds fs l) as [Hb Hsum].
    assert (length l = length instrs) as Hl by (unfold l, program_instructions; by rewrite length_fmap).
    pose proof (cnt_nonneg (kind_of <$> l.*1)) as Hnn.
    destruct (default_limit_spec fs d _ _ _ (Hcnt eq_refl)) as (u & -> & Hmin);
      [apply Hnn..|lia|]. exists u. split; [done|]. rewrite Hmin. cbn zeta. f_equal.
    rewrite Hb. lia. }
  unfold sanitize_and_convert_to_compute_budget_limits. rewrite Hu.
  pose proof heap_length_bounds as Hheap. pose proof (Hreq KLoaded) as Hloaded. simpl in Hloaded.
  assert (∀ i v, requested_loaded_accounts_data_size_limit d = Some (i, v) → 0 ≤ v) as Hnn.
  { intros i v E. rewrite E in Hloaded. eapply (requests_of_nonneg KLoaded 0 l i).
    rewrite <-Hloaded. left. }
  unfold sanitize_requested_heap_size, MIN_HEAP_FRAME_BYTES, MAX_LOADED_ACCOUNTS_DATA_SIZE_BYTES.
  destruct (requested_heap_size d) as [[ih h]|];
    [destruct ((HEAP_LENGTH <=? h) && (h <=? MAX_HEAP_FRAME_BYTES) && (h mod 1024 =? 0)) eqn:Eh;
       [bsimp|by eexists]|]; simpl;
    (destruct (requested_loaded_accounts_data_size_limit d) as [[il v]|]; simpl;
       [specialize (Hnn _ _ eq_refl); destruct (Z.eqb_spec v 0); [by eexists|]|]);
    simpl; (eexists; split; [done|]); intros lim [= <-]; simpl; split_and!; lia || done.
Qed.

(** The price of the units in whole lamports, rounded up. *)
Definition lamports_rounded_up (price units : Z) : Z :=
  - (- (price * units) / MICRO_LAMPORTS_PER_LAMPORT).

(** The prioritization fee is the price of the units in lamports, rounded up,
    and saturates at the largest [u64]. *)
Lemma get_prioritization_fee_exact price limit :
  0 ≤ price ≤ u64_MAX → 0 ≤ limit ≤ u64_MAX →
  get_prioritization_fee price limit = Z.min (lamports_rounded_up price limit) u64_MAX.
Proof.
  unfold lamports_rounded_up.
  intros Hp Hl. assert (0 ≤ price * limit) by nia.
  assert (price * limit ≤ u64_MAX * u64_MAX) as Hmax by (apply Z.mul_le_mono_nonneg; lia).
  unfold get_prioritization_fee, saturating_mul, saturating_add, saturating_sub.
  change (u64_MAX * u64_MAX) with (2 ^ 128 - 2 ^ 65 + 1) in Hmax.
  rewrite (Z.min_l (price * limit)), (Z.min_l (price * limit + _))
    by (unfold u128_MAX, MICRO_LAMPORTS_PER_LAMPORT; lia).
  unfold MICRO_LAMPORTS_PER_LAMPORT. change (Z.max (1000000 - 1) 0) with 999999.
  set (x := price * limit) in *. clearbody x.
  replace (- (- x / 1000000)) with ((x + 999999) / 1000000)
    by (Z.to_euclidean_division_equations; lia).
  case_leb; lia.
Qed.

End details.

(** * Examples *)

(** Instruction data is a tag with a value; program ids are small numbers. *)
Definition ex_decoder (x : nat * nat) : option ComputeBudgetInstruction :=
  let '(tag, v) := x in
  match tag with
  | 0%nat => Some (RequestHeapFrame (Z.of_nat v))
  | 1%nat => Some (SetComputeUnitLimit (Z.of_nat v))
  | 2%nat => Some (SetComputeUnitPrice (Z.of_nat v))
  | 3%nat => Some (SetLoadedAccountsDataSizeLimit (Z.of_nat v))
  | _ => None
  end.

#[local] Instance ex_sdk : Sdk := {|
  InstructionData := nat * nat;
  stake_id := 1; vote_id := 2; system_program_id := 3; compute_budget_id := 4;
  bpf_loader_upgradeable_id := 5; bpf_loader_deprecated_id := 6; bpf_loader_id := 7;
  loader_v4_id := 8; secp256k1_program_id := 9; ed25519_program_id := 10;
  migrate_stake_program_to_core_bpf_id := 11;
  HEAP_LENGTH := 32768; PACKET_DATA_SIZE := 1232;
  try_from_slice_unchecked := ex_decoder;
|}.

#[local] Instance ex_laws : SdkLaws.
Proof.
  split; [by vm_compute|]. intros [i [tag v]] K v'. unfold decode. simpl.
  destruct tag as [|[|[|[|tag]]]]; intros [= <- <-]; lia.
Qed.

(** A price request, a stake instruction and one of another program (id 20). *)
Definition ex_keys (i : Z) : Pubkey :=
  if i =? 1 then 4 else if i =? 2 then 1 else 20.
Definition ex_instrs : list SVMInstruction :=
  [{| program_id_index := 1; data := (2, 5)%nat : @InstructionData ex_sdk |};
   {| program_id_index := 2; data := (9, 9)%nat : @InstructionData ex_sdk |};
   {| program_id_index := 3; data := (9, 9)%nat : @InstructionData ex_sdk |}].

Lemma ex_valid_instructions : valid_instructions ex_keys ex_instrs.
Proof.
  split.
  - intros i. unfold ex_keys, is_pubkey. repeat case_match; lia.
  - intros ins. unfold ex_instrs. rewrite !elem_of_cons.
    intros [->|[->|[->|[]%not_elem_of_nil]]]; done.
Qed.

Lemma try_from_exact_witness :
  ∃ r, Details.try_from (program_instructions ex_keys ex_instrs) = Ret r ∧
    ∀ d, r = Ok d → request KPrice d = Some (0, 5).
Proof.
  destruct (try_from_exact ex_keys ex_instrs ex_valid_instructions) as (r & Hrun & _ & Hr); [done|].
  exists r. split; [exact Hrun|]. intros d Hd. rewrite (Hr d Hd KPrice). by vm_compute.
Defined.

(** Two builtins at 3000 each and one other program at 200000. *)
Lemma compute_budget_limits_exact_witness :
  ∃ lim, Details.process_compute_budget_instructions
    (program_instructions ex_keys ex_instrs) (λ _, false) = Ret (Ok lim) ∧
    Limits.compute_unit_limit lim = 206000.
Proof.
  destruct (compute_budget_limits_exact ex_keys ex_instrs (λ _, false) ex_valid_instructions)
    as (r & Hrun & Hr); [done|].
  assert (is_Some (match r with Ok lim => Some lim | Err _ => None end)) as [lim Hlim].
  { revert Hrun. vm_compute. intros [= <-]. eauto. }
  destruct r as [lim'|]; [|done]. exists lim'. split; [exact Hrun|].
  destruct (Hr lim' eq_refl) as (_ & _ & ->). by vm_compute.
Defined.
