(* ===== verification/Cost.v ===== *)
(** Cost of a transaction and of a block: the estimates of [cost-model/src/
    cost_model.rs], the cost structure of [transaction_cost.rs], the limits of
    [block_cost_limits.rs] and the tracker of [cost_tracker.rs]. *)

From S2P Require Import Prelude ComputeBudget.

(** * Limits *)

Definition COMPUTE_UNIT_TO_US_RATIO : Z := 30.
Definition SIGNATURE_COST : Z := COMPUTE_UNIT_TO_US_RATIO * 24.
Definition SECP256K1_VERIFY_COST : Z := COMPUTE_UNIT_TO_US_RATIO * 223.
Definition ED25519_VERIFY_COST : Z := COMPUTE_UNIT_TO_US_RATIO * 76.
Definition ED25519_VERIFY_STRICT_COST : Z := COMPUTE_UNIT_TO_US_RATIO * 80.
Definition SECP256R1_VERIFY_COST : Z := COMPUTE_UNIT_TO_US_RATIO * 160.
Definition WRITE_LOCK_UNITS : Z := COMPUTE_UNIT_TO_US_RATIO * 10.
Definition INSTRUCTION_DATA_BYTES_COST : Z := 140 / COMPUTE_UNIT_TO_US_RATIO.
Definition MAX_BLOCK_UNITS_SIMD_0207 : Z := 50000000.
Definition MAX_BLOCK_UNITS_SIMD_0256 : Z := 60000000.
Definition MAX_BLOCK_UNITS : Z := MAX_BLOCK_UNITS_SIMD_0207.
Definition MAX_WRITABLE_ACCOUNT_UNITS : Z := 12000000.
Definition MAX_VOTE_UNITS : Z := 36000000.
Definition MAX_BLOCK_ACCOUNTS_DATA_SIZE_DELTA : Z := 100000000.
Definition simd_0256_block_limits : Z * Z * Z :=
  (MAX_WRITABLE_ACCOUNT_UNITS, MAX_BLOCK_UNITS_SIMD_0256, MAX_VOTE_UNITS).

Definition SIMPLE_VOTE_USAGE_COST : Z := 3428.
(** [solana_vote_program::vote_processor::DEFAULT_COMPUTE_UNITS]. *)
Definition VOTE_DEFAULT_COMPUTE_UNITS : Z := 2100.

(** * What the cost code asks of a transaction *)

Record TransactionSignatureDetails := {
  num_transaction_signatures : Z;
  num_secp256k1_instruction_signatures : Z;
  num_ed25519_instruction_signatures : Z;
  num_secp256r1_instruction_signatures : Z;
}.

(** The methods of [TransactionWithMeta] and its super-traits that are called;
    [account_keys] has [is_writable] of each key beside it. *)
Class TransactionWithMeta `{Sdk} (Tx : Type) := {
  is_simple_vote_transaction : Tx → bool;
  signature_details : Tx → TransactionSignatureDetails;
  compute_budget_instruction_details : Tx → Details.ComputeBudgetInstructionDetails;
  instruction_data_len : Tx → Z;
  account_keys : Tx → list (Pubkey * bool);
  num_write_locks : Tx → Z;
  program_instructions_iter : Tx → list (Pubkey * SVMInstruction);
}.

(** The system instructions that allocate, with the space they ask for. *)
Inductive SystemInstruction :=
| CreateAccount (space : Z)
| CreateAccountWithSeed (space : Z)
| Allocate (space : Z)
| AllocateWithSeed (space : Z)
| OtherSystemInstruction.

(** What the cost model takes from crates outside the repository. *)
Class CostSdk `{Sdk} := {
  limited_deserialize : InstructionData → option SystemInstruction;
  calculate_memory_usage_cost : Z → Z → Z;
  MAX_PERMITTED_DATA_LENGTH : Z;
  MAX_PERMITTED_ACCOUNTS_DATA_ALLOCATIONS_PER_TRANSACTION : Z;
  ed25519_precompile_verify_strict_id : Pubkey;
  enable_secp256r1_precompile_id : Pubkey;
}.

(** * Cost of a transaction *)

Record UsageCostDetails (Tx : Type) := {
  transaction : Tx;
  details_signature_cost : Z;
  details_write_lock_cost : Z;
  details_data_bytes_cost : Z;
  details_programs_execution_cost : Z;
  details_loaded_accounts_data_size_cost : Z;
  details_allocated_accounts_data_size : Z;
}.
Arguments transaction {Tx} _.
Arguments details_signature_cost {Tx} _.
Arguments details_write_lock_cost {Tx} _.
Arguments details_data_bytes_cost {Tx} _.
Arguments details_programs_execution_cost {Tx} _.
Arguments details_loaded_accounts_data_size_cost {Tx} _.
Arguments details_allocated_accounts_data_size {Tx} _.

Inductive TransactionCost (Tx : Type) :=
| SimpleVote (transaction : Tx)
| Transaction (usage_cost : UsageCostDetails Tx).
Arguments SimpleVote {Tx} _.
Arguments Transaction {Tx} _.

Module TxCost.
Section tx_cost.
Context `{sdk : Sdk} {Tx : Type} `{!TransactionWithMeta Tx}.

Definition details_sum (u : UsageCostDetails Tx) : Z :=
  saturating_add u64_MAX (saturating_add u64_MAX (saturating_add u64_MAX
    (saturating_add u64_MAX (details_signature_cost u) (details_write_lock_cost u))
    (details_data_bytes_cost u)) (details_programs_execution_cost u))
    (details_loaded_accounts_data_size_cost u).

Definition sum (c : TransactionCost Tx) : Z :=
  match c with SimpleVote _ => SIMPLE_VOTE_USAGE_COST | Transaction u => details_sum u end.
Definition programs_execution_cost (c : TransactionCost Tx) : Z :=
  match c with
  | SimpleVote _ => VOTE_DEFAULT_COMPUTE_UNITS
  | Transaction u => details_programs_execution_cost u
  end.
Definition is_simple_vote (c : TransactionCost Tx) : bool :=
  match c with SimpleVote _ => true | Transaction _ => false end.
Definition data_bytes_cost (c : TransactionCost Tx) : Z :=
  match c with SimpleVote _ => 0 | Transaction u => details_data_bytes_cost u end.
Definition allocated_accounts_data_size (c : TransactionCost Tx) : Z :=
  match c with SimpleVote _ => 0 | Transaction u => details_allocated_accounts_data_size u end.
Definition loaded_accounts_data_size_cost (c : TransactionCost Tx) : Z :=
  match c with SimpleVote _ => 8 | Transaction u => details_loaded_accounts_data_size_cost u end.
Definition signature_cost (c : TransactionCost Tx) : Z :=
  match c with SimpleVote _ => SIGNATURE_COST | Transaction u => details_signature_cost u end.
Definition write_lock_cost (c : TransactionCost Tx) : Z :=
  match c with
  | SimpleVote _ => saturating_mul u64_MAX WRITE_LOCK_UNITS 2
  | Transaction u => details_write_lock_cost u
  end.

Definition writable_accounts (c : TransactionCost Tx) : list Pubkey :=
  let tx := match c with SimpleVote tx => tx | Transaction u => transaction u end in
  omap (λ '(key, writable), if writable : bool then Some key else None) (account_keys tx).

Definition num_transaction_signatures (c : TransactionCost Tx) : Z :=
  match c with
  | SimpleVote _ => 1
  | Transaction u => Cost.num_transaction_signatures (signature_details (transaction u))
  end.
Definition num_secp256k1_instruction_signatures (c : TransactionCost Tx) : Z :=
  match c with
  | SimpleVote _ => 0
  | Transaction u => Cost.num_secp256k1_instruction_signatures (signature_details (transaction u))
  end.
Definition num_ed25519_instruction_signatures (c : TransactionCost Tx) : Z :=
  match c with
  | SimpleVote _ => 0
  | Transaction u => Cost.num_ed25519_instruction_signatures (signature_details (transaction u))
  end.
Definition num_secp256r1_instruction_signatures (c : TransactionCost Tx) : Z :=
  match c with
  | SimpleVote _ => 0
  | Transaction u => Cost.num_secp256r1_instruction_signatures (signature_details (transaction u))
  end.

End tx_cost.
End TxCost.

(** * The cost model *)

Module CostModel.
Section cost_model.
Context `{csdk : CostSdk} {Tx : Type} `{!TransactionWithMeta Tx}.

Inductive SystemProgramAccountAllocation := AllocNone | AllocSome (space : Z) | AllocFailed.

Definition get_signature_cost (tx : Tx) (feature_set : FeatureSet) : Z :=
  let d := signature_details tx in
  let ed25519_verify_cost :=
    if feature_set ed25519_precompile_verify_strict_id
    then ED25519_VERIFY_STRICT_COST else ED25519_VERIFY_COST in
  let secp256r1_verify_cost :=
    if feature_set enable_secp256r1_precompile_id then SECP256R1_VERIFY_COST else 0 in
  let add := saturating_add u64_MAX in
  let mul := saturating_mul u64_MAX in
  add (add (add (mul (num_transaction_signatures d) SIGNATURE_COST)
    (mul (num_secp256k1_instruction_signatures d) SECP256K1_VERIFY_COST))
    (mul (num_ed25519_instruction_signatures d) ed25519_verify_cost))
    (mul (num_secp256r1_instruction_signatures d) secp256r1_verify_cost).

Definition get_write_lock_cost (num_write_locks : Z) : Z :=
  saturating_mul u64_MAX WRITE_LOCK_UNITS num_write_locks.

Definition get_instructions_data_cost (tx : Tx) : Z :=
  instruction_data_len tx / INSTRUCTION_DATA_BYTES_COST.

Definition calculate_loaded_accounts_data_size_cost (loaded_accounts_data_size : Z) : Z :=
  calculate_memory_usage_cost loaded_accounts_data_size Limits.DEFAULT_HEAP_COST.

Definition get_estimated_execution_cost (tx : Tx) (feature_set : FeatureSet) : outcome (Z * Z) :=
  r ← Details.sanitize_and_convert_to_compute_budget_limits feature_set
        (compute_budget_instruction_details tx);
  Ret (match r with
       | Ok limits => (Limits.compute_unit_limit limits,
           calculate_loaded_accounts_data_size_cost (Limits.loaded_accounts_bytes limits))
       | Err _ => (0, 0)
       end).

Definition get_transaction_cost (tx : Tx) (feature_set : FeatureSet) : outcome (Z * Z * Z) :=
  let data_bytes_cost := get_instructions_data_cost tx in
  '(programs_execution_cost, loaded_accounts_data_size_cost) ←
    get_estimated_execution_cost tx feature_set;
  Ret (programs_execution_cost, loaded_accounts_data_size_cost, data_bytes_cost).

Definition calculate_account_data_size_on_deserialized_system_instruction
    (instruction : SystemInstruction) : SystemProgramAccountAllocation :=
  match instruction with
  | CreateAccount space | CreateAccountWithSeed space | Allocate space | AllocateWithSeed space =>
      if MAX_PERMITTED_DATA_LENGTH <? space then AllocFailed else AllocSome space
  | OtherSystemInstruction => AllocNone
  end.

Definition calculate_account_data_size_on_instruction (program_id : Pubkey)
    (instruction : SVMInstruction) : SystemProgramAccountAllocation :=
  if program_id =? system_program_id then
    match limited_deserialize (data instruction) with
    | Some instruction =>
        calculate_account_data_size_on_deserialized_system_instruction instruction
    | None => AllocFailed
    end
  else AllocNone.

(** The loop of [calculate_allocated_accounts_data_size], which a failing
    instruction leaves early with 0. *)
Fixpoint sum_allocations (instructions : list (Pubkey * SVMInstruction)) (size : Z) : Z :=
  match instructions with
  | [] => Z.min MAX_PERMITTED_ACCOUNTS_DATA_ALLOCATIONS_PER_TRANSACTION size
  | (program_id, instruction) :: instructions =>
      match calculate_account_data_size_on_instruction program_id instruction with
      | AllocFailed => 0
      | AllocNone => sum_allocations instructions size
      | AllocSome space => sum_allocations instructions (saturating_add u64_MAX size space)
      end
  end.
Definition calculate_allocated_accounts_data_size
    (instructions : list (Pubkey * SVMInstruction)) : Z := sum_allocations instructions 0.

Definition calculate_non_vote_transaction_cost (tx : Tx)
    (instructions : list (Pubkey * SVMInstruction)) (num_write_locks programs_execution_cost
    loaded_accounts_data_size_cost data_bytes_cost : Z) (feature_set : FeatureSet)
    : TransactionCost Tx :=
  let signature_cost := get_signature_cost tx feature_set in
  let write_lock_cost := get_write_lock_cost num_write_locks in
  let allocated := calculate_allocated_accounts_data_size instructions in
  Transaction {|
    transaction := tx;
    details_signature_cost := signature_cost;
    details_write_lock_cost := write_lock_cost;
    details_data_bytes_cost := data_bytes_cost;
    details_programs_execution_cost := programs_execution_cost;
    details_loaded_accounts_data_size_cost := loaded_accounts_data_size_cost;
    details_allocated_accounts_data_size := allocated |}.

Definition estimate_cost (tx : Tx) (instructions : list (Pubkey * SVMInstruction))
    (num_write_locks : Z) (feature_set : FeatureSet) : outcome (TransactionCost Tx) :=
  if is_simple_vote_transaction tx then Ret (SimpleVote tx)
  else
    '(execution, loaded, data_bytes) ← get_transaction_cost tx feature_set;
    Ret (calculate_non_vote_transaction_cost tx instructions num_write_locks execution loaded
           data_bytes feature_set).

Definition calculate_cost (tx : Tx) (feature_set : FeatureSet) : outcome (TransactionCost Tx) :=
  if is_simple_vote_transaction tx then Ret (SimpleVote tx)
  else
    '(execution, loaded, data_bytes) ← get_transaction_cost tx feature_set;
    Ret (calculate_non_vote_transaction_cost tx (program_instructions_iter tx)
           (num_write_locks tx) execution loaded data_bytes feature_set).

Definition calculate_cost_for_executed_transaction (tx : Tx) (actual_programs_execution_cost
    actual_loaded_accounts_data_size_bytes : Z) (feature_set : FeatureSet) : TransactionCost Tx :=
  if is_simple_vote_transaction tx then SimpleVote tx
  else
    calculate_non_vote_transaction_cost tx (program_instructions_iter tx) (num_write_locks tx)
      actual_programs_execution_cost
      (calculate_loaded_accounts_data_size_cost actual_loaded_accounts_data_size_bytes)
      (get_instructions_data_cost tx) feature_set.

End cost_model.
End CostModel.

(** * The cost tracker *)

Module Tracker.

Inductive CostTrackerError :=
| WouldExceedBlockMaxLimit
| WouldExceedVoteMaxLimit
| WouldExceedAccountMaxLimit
| WouldExceedAccountDataBlockLimit
| WouldExceedAccountDataTotalLimit.

Record UpdatedCosts := {
  updated_block_cost : Z;
  updated_costliest_account_cost : Z;
}.

Record CostTracker := {
  account_cost_limit : Z;
  block_cost_limit : Z;
  vote_cost_limit : Z;
  cost_by_writable_accounts : gmap Pubkey Z;
  block_cost : Z;
  vote_cost : Z;
  transaction_count : Z;
  allocated_accounts_data_size : Z;
  transaction_signature_count : Z;
  secp256k1_instruction_signature_count : Z;
  ed25519_instruction_signature_count : Z;
  in_flight_transaction_count : Z;
  secp256r1_instruction_signature_count : Z;
}.

Definition default_ : CostTracker := {|
  account_cost_limit := MAX_WRITABLE_ACCOUNT_UNITS;
  block_cost_limit := MAX_BLOCK_UNITS;
  vote_cost_limit := MAX_VOTE_UNITS;
  cost_by_writable_accounts := ∅;
  block_cost := 0;
  vote_cost := 0;
  transaction_count := 0;
  allocated_accounts_data_size := 0;
  transaction_signature_count := 0;
  secp256k1_instruction_signature_count := 0;
  ed25519_instruction_signature_count := 0;
  in_flight_transaction_count := 0;
  secp256r1_instruction_signature_count := 0;
|}.

Definition set_limits (account block vote : Z) (self : CostTracker) : CostTracker := {|
  account_cost_limit := account;
  block_cost_limit := block;
  vote_cost_limit := vote;
  cost_by_writable_accounts := cost_by_writable_accounts self;
  block_cost := block_cost self;
  vote_cost := vote_cost self;
  transaction_count := transaction_count self;
  allocated_accounts_data_size := allocated_accounts_data_size self;
  transaction_signature_count := transaction_signature_count self;
  secp256k1_instruction_signature_count := secp256k1_instruction_signature_count self;
  ed25519_instruction_signature_count := ed25519_instruction_signature_count self;
  in_flight_transaction_count := in_flight_transaction_count self;
  secp256r1_instruction_signature_count := secp256r1_instruction_signature_count self;
|}.

Definition new_from_parent_limits (self : CostTracker) : CostTracker :=
  set_limits (account_cost_limit self) (block_cost_limit self) (vote_cost_limit self) default_.

Definition reset (self : CostTracker) : CostTracker := {|
  account_cost_limit := account_cost_limit self;
  block_cost_limit := block_cost_limit self;
  vote_cost_limit := vote_cost_limit self;
  cost_by_writable_accounts := ∅;
  block_cost := 0;
  vote_cost := 0;
  transaction_count := 0;
  allocated_accounts_data_size := 0;
  transaction_signature_count := 0;
  secp256k1_instruction_signature_count := 0;
  ed25519_instruction_signature_count := 0;
  in_flight_transaction_count := 0;
  secp256r1_instruction_signature_count := 0;
|}.

(** The fields the execution cost of a transaction changes. *)
Definition set_costs (accounts : gmap Pubkey Z) (block vote : Z) (self : CostTracker)
    : CostTracker := {|
  account_cost_limit := account_cost_limit self;
  block_cost_limit := block_cost_limit self;
  vote_cost_limit := vote_cost_limit self;
  cost_by_writable_accounts := accounts;
  block_cost := block;
  vote_cost := vote;
  transaction_count := transaction_count self;
  allocated_accounts_data_size := allocated_accounts_data_size self;
  transaction_signature_count := transaction_signature_count self;
  secp256k1_instruction_signature_count := secp256k1_instruction_signature_count self;
  ed25519_instruction_signature_count := ed25519_instruction_signature_count self;
  in_flight_transaction_count := in_flight_transaction_count self;
  secp256r1_instruction_signature_count := secp256r1_instruction_signature_count self;
|}.

(** The count of transactions in flight. *)
Definition set_in_flight (n : Z) (self : CostTracker) : CostTracker := {|
  account_cost_limit := account_cost_limit self;
  block_cost_limit := block_cost_limit self;
  vote_cost_limit := vote_cost_limit self;
  cost_by_writable_accounts := cost_by_writable_accounts self;
  block_cost := block_cost self;
  vote_cost := vote_cost self;
  transaction_count := transaction_count self;
  allocated_accounts_data_size := allocated_accounts_data_size self;
  transaction_signature_count := transaction_signature_count self;
  secp256k1_instruction_signature_count := secp256k1_instruction_signature_count self;
  ed25519_instruction_signature_count := ed25519_instruction_signature_count self;
  in_flight_transaction_count := n;
  secp256r1_instruction_signature_count := secp256r1_instruction_signature_count self;
|}.

Definition add_transactions_in_flight (n : Z) (self : CostTracker) : CostTracker :=
  set_in_flight (saturating_add usize_MAX (in_flight_transaction_count self) n) self.
Definition sub_transactions_in_flight (n : Z) (self : CostTracker) : CostTracker :=
  set_in_flight (saturating_sub (in_flight_transaction_count self) n) self.

Section tracker.
Context `{sdk : Sdk} {Tx : Type} `{!TransactionWithMeta Tx}.

(** The counters, each combined with its part of a transaction by [op]. *)
Definition update_counters (op : Z → Z → Z) (tx_cost : TransactionCost Tx) (self : CostTracker)
    : CostTracker := {|
  account_cost_limit := account_cost_limit self;
  block_cost_limit := block_cost_limit self;
  vote_cost_limit := vote_cost_limit self;
  cost_by_writable_accounts := cost_by_writable_accounts self;
  block_cost := block_cost self;
  vote_cost := vote_cost self;
  transaction_count := op (transaction_count self) 1;
  allocated_accounts_data_size :=
    op (allocated_accounts_data_size self) (TxCost.allocated_accounts_data_size tx_cost);
  transaction_signature_count :=
    op (transaction_signature_count self) (TxCost.num_transaction_signatures tx_cost);
  secp256k1_instruction_signature_count := op (secp256k1_instruction_signature_count self)
    (TxCost.num_secp256k1_instruction_signatures tx_cost);
  ed25519_instruction_signature_count := op (ed25519_instruction_signature_count self)
    (TxCost.num_ed25519_instruction_signatures tx_cost);
  in_flight_transaction_count := in_flight_transaction_count self;
  secp256r1_instruction_signature_count := op (secp256r1_instruction_signature_count self)
    (TxCost.num_secp256r1_instruction_signatures tx_cost);
|}.

(** The loop over the writable accounts of [would_fit]. *)
Fixpoint accounts_fit (self : CostTracker) (cost : Z) (accounts : list Pubkey) : bool :=
  match accounts with
  | [] => true
  | account_key :: accounts =>
      match cost_by_writable_accounts self !! account_key with
      | Some chained_cost =>
          if account_cost_limit self <? saturating_add u64_MAX chained_cost cost then false
          else accounts_fit self cost accounts
      | None => accounts_fit self cost accounts
      end
  end.

Definition would_fit (self : CostTracker) (tx_cost : TransactionCost Tx)
    : result unit CostTrackerError :=
  let cost := TxCost.sum tx_cost in
  if TxCost.is_simple_vote tx_cost &&
     (vote_cost_limit self <? saturating_add u64_MAX (vote_cost self) cost)
  then Err WouldExceedVoteMaxLimit
  else if block_cost_limit self <? saturating_add u64_MAX (block_cost self) cost
  then Err WouldExceedBlockMaxLimit
  else if account_cost_limit self <? cost
  then Err WouldExceedAccountMaxLimit
  else
    let allocated := saturating_add u64_MAX (allocated_accounts_data_size self)
                       (TxCost.allocated_accounts_data_size tx_cost) in
    if MAX_BLOCK_ACCOUNTS_DATA_SIZE_DELTA <? allocated
    then Err WouldExceedAccountDataBlockLimit
    else if accounts_fit self cost (TxCost.writable_accounts tx_cost) then Ok tt
    else Err WouldExceedAccountMaxLimit.

(** The loop of [add_transaction_execution_cost]: the accounts, and the highest
    cost one of them reached. *)
Fixpoint add_to_accounts (adjustment : Z) (accounts : list Pubkey) (costs : gmap Pubkey Z)
    (costliest_account_cost : Z) : gmap Pubkey Z * Z :=
  match accounts with
  | [] => (costs, costliest_account_cost)
  | account_key :: accounts =>
      let account_cost := saturating_add u64_MAX (default 0 (costs !! account_key)) adjustment in
      add_to_accounts adjustment accounts (<[account_key := account_cost]> costs)
        (Z.max costliest_account_cost account_cost)
  end.

Definition add_transaction_execution_cost (tx_cost : TransactionCost Tx) (adjustment : Z)
    (self : CostTracker) : Z * CostTracker :=
  let '(costs, costliest_account_cost) :=
    add_to_accounts adjustment (TxCost.writable_accounts tx_cost)
      (cost_by_writable_accounts self) 0 in
  let block := saturating_add u64_MAX (block_cost self) adjustment in
  let vote := if TxCost.is_simple_vote tx_cost
              then saturating_add u64_MAX (vote_cost self) adjustment else vote_cost self in
  (costliest_account_cost, set_costs costs block vote self).

Fixpoint sub_from_accounts (adjustment : Z) (accounts : list Pubkey) (costs : gmap Pubkey Z)
    : gmap Pubkey Z :=
  match accounts with
  | [] => costs
  | account_key :: accounts =>
      let account_cost := saturating_sub (default 0 (costs !! account_key)) adjustment in
      sub_from_accounts adjustment accounts (<[account_key := account_cost]> costs)
  end.

Definition sub_transaction_execution_cost (tx_cost : TransactionCost Tx) (adjustment : Z)
    (self : CostTracker) : CostTracker :=
  let costs := sub_from_accounts adjustment (TxCost.writable_accounts tx_cost)
                 (cost_by_writable_accounts self) in
  let block := saturating_sub (block_cost self) adjustment in
  let vote := if TxCost.is_simple_vote tx_cost
              then saturating_sub (vote_cost self) adjustment else vote_cost self in
  set_costs costs block vote self.

Definition add_transaction_cost (tx_cost : TransactionCost Tx) (self : CostTracker)
    : Z * CostTracker :=
  add_transaction_execution_cost tx_cost (TxCost.sum tx_cost)
    (update_counters (saturating_add u64_MAX) tx_cost self).

Definition remove_transaction_cost (tx_cost : TransactionCost Tx) (self : CostTracker)
    : CostTracker :=
  update_counters saturating_sub tx_cost
    (sub_transaction_execution_cost tx_cost (TxCost.sum tx_cost) self).

Definition try_add (tx_cost : TransactionCost Tx) (self : CostTracker)
    : result UpdatedCosts CostTrackerError * CostTracker :=
  match would_fit self tx_cost with
  | Err e => (Err e, self)
  | Ok _ =>
      let '(costliest, self) := add_transaction_cost tx_cost self in
      (Ok {| updated_block_cost := block_cost self;
             updated_costliest_account_cost := costliest |}, self)
  end.

Definition update_execution_cost (estimated_tx_cost : TransactionCost Tx)
    (actual_execution_units actual_loaded_accounts_data_size_cost : Z) (self : CostTracker)
    : CostTracker :=
  let actual := saturating_add u64_MAX actual_execution_units
                  actual_loaded_accounts_data_size_cost in
  let estimated := saturating_add u64_MAX (TxCost.programs_execution_cost estimated_tx_cost)
                     (TxCost.loaded_accounts_data_size_cost estimated_tx_cost) in
  match actual ?= estimated with
  | Eq => self
  | Gt => (add_transaction_execution_cost estimated_tx_cost (actual - estimated) self).2
  | Lt => sub_transaction_execution_cost estimated_tx_cost (estimated - actual) self
  end.

Definition remove (tx_cost : TransactionCost Tx) (self : CostTracker) : CostTracker :=
  remove_transaction_cost tx_cost self.

Definition number_of_accounts (self : CostTracker) : Z :=
  Z.of_nat (length (filter (λ x, 0 < x.2) (map_to_list (cost_by_writable_accounts self)))).

End tracker.
End Tracker.
