(* ===== verification/CostProps.v ===== *)
(** What the cost model and the cost tracker guarantee. *)

From S2P Require Import Prelude ComputeBudget Cost.

Section tracker.
Import Tracker.
Context `{sdk : Sdk} {Tx : Type} `{!TransactionWithMeta Tx}.
Abbreviation Cost := (TransactionCost Tx) (only parsing).

(** * The parts of a cost *)

(** A cost whose fields are unsigned and which names no account twice. *)
Definition wf_cost (c : Cost) : Prop :=
  NoDup (TxCost.writable_accounts c) ∧
  0 ≤ TxCost.signature_cost c ∧ 0 ≤ TxCost.write_lock_cost c ∧ 0 ≤ TxCost.data_bytes_cost c ∧
  0 ≤ TxCost.programs_execution_cost c ∧ 0 ≤ TxCost.loaded_accounts_data_size_cost c ∧
  0 ≤ TxCost.allocated_accounts_data_size c.

Lemma sum_parts (c : Cost) : wf_cost c →
  TxCost.sum c = Z.min (TxCost.signature_cost c + TxCost.write_lock_cost c +
    TxCost.data_bytes_cost c + TxCost.programs_execution_cost c +
    TxCost.loaded_accounts_data_size_cost c) u64_MAX.
Proof.
  intros (_ & H). destruct c as [tx|u]; [done|]. simpl in *.
  unfold TxCost.details_sum, saturating_add. lia.
Qed.

(** The estimate that [update_execution_cost] replaces. *)
Definition estimated (c : Cost) : Z :=
  saturating_add u64_MAX (TxCost.programs_execution_cost c) (TxCost.loaded_accounts_data_size_cost c).

Lemma estimated_le_sum c : wf_cost c → 0 ≤ estimated c ≤ TxCost.sum c.
Proof.
  intros Hw. rewrite sum_parts by done. unfold estimated, saturating_add, u64_MAX.
  destruct Hw as (_ & ?). lia.
Qed.

(** * What is charged *)

(** The tracked transactions, each with the units it is charged. *)
Abbreviation Charges := (list (Cost * Z)) (only parsing).

Definition total (f : Cost → bool) (g : Cost * Z → Z) (T : Charges) : Z :=
  foldr (λ x s, (if f x.1 then g x else 0) + s) 0 T.
Definition charged (f : Cost → bool) : Charges → Z := total f snd.
Definition allocated : Charges → Z :=
  total (λ _, true) (λ x, TxCost.allocated_accounts_data_size x.1).
(** What a transaction used beyond what it asked for, and what it is charged
    without that. *)
Definition overrun (f : Cost → bool) : Charges → Z :=
  total f (λ x, Z.max 0 (x.2 - TxCost.sum x.1)).
Definition asked (f : Cost → bool) : Charges → Z := total f (λ x, Z.min x.2 (TxCost.sum x.1)).
Arguments asked : simpl never.
Definition writes (a : Pubkey) (c : Cost) : bool := bool_decide (a ∈ TxCost.writable_accounts c).

Lemma if_writes a c (x y : Z) :
  (if writes a c then x else y) = if decide (a ∈ TxCost.writable_accounts c) then x else y.
Proof. unfold writes. case_bool_decide; case_decide; done. Qed.

#[global] Instance total_proper f g : Proper ((≡ₚ) ==> (=)) (total f g).
Proof. induction 1; simpl; lia. Qed.

Lemma total_nonneg f g T : (∀ x, x ∈ T → 0 ≤ g x) → 0 ≤ total f g T.
Proof.
  induction T as [|x T IH]; intros Hg; simpl; [done|].
  assert (0 ≤ g x) by (apply Hg; left). assert (0 ≤ total f g T) by (apply IH; set_solver).
  destruct (f x.1); lia.
Qed.

Lemma charged_asked f T : charged f T = asked f T + overrun f T.
Proof.
  unfold charged, asked, overrun. induction T as [|x T IH]; simpl; [done|]. destruct (f x.1); lia.
Qed.

Lemma asked_le f T : asked f T ≤ charged f T.
Proof. rewrite charged_asked. assert (0 ≤ overrun f T); [apply total_nonneg|]; lia. Qed.

Lemma asked_cons f c n T :
  asked f ((c, n) :: T) = (if f c then Z.min n (TxCost.sum c) else 0) + asked f T.
Proof. done. Qed.

Lemma total_le_all f g T : (∀ x, x ∈ T → 0 ≤ g x) → total f g T ≤ total (λ _, true) g T.
Proof.
  induction T as [|x T IH]; intros Hg; simpl; [done|].
  assert (0 ≤ g x) by (apply Hg; left). assert (total f g T ≤ total (λ _, true) g T) by (apply IH; set_solver).
  destruct (f x.1); lia.
Qed.

Record Inv (self : CostTracker) (T : Charges) : Prop := {
  inv_block : block_cost self = charged (λ _, true) T;
  inv_vote : vote_cost self = charged TxCost.is_simple_vote T;
  inv_account : ∀ a, default 0 (cost_by_writable_accounts self !! a) = charged (writes a) T;
  inv_alloc : allocated_accounts_data_size self = allocated T;
  inv_wf : ∀ x, x ∈ T → wf_cost x.1 ∧ 0 ≤ x.2;
  inv_block_limit : asked (λ _, true) T ≤ block_cost_limit self;
  inv_vote_limit : asked TxCost.is_simple_vote T ≤ vote_cost_limit self;
  inv_account_limit : ∀ a, asked (writes a) T ≤ account_cost_limit self;
  inv_alloc_limit : allocated_accounts_data_size self ≤ MAX_BLOCK_ACCOUNTS_DATA_SIZE_DELTA;
}.

Definition wf_limits (self : CostTracker) : Prop :=
  0 ≤ account_cost_limit self < u64_MAX ∧ 0 ≤ block_cost_limit self < u64_MAX ∧
  0 ≤ vote_cost_limit self < u64_MAX.

Lemma Inv_charged_nonneg self T f : Inv self T → 0 ≤ charged f T.
Proof. intros HI. apply total_nonneg. intros x Hx. by apply (inv_wf _ _ HI). Qed.

Lemma cost_Inv_perm self T T' : T ≡ₚ T' → Inv self T → Inv self T'.
Proof.
  intros HP [? ? Ha ? Hw ? ? ? ?].
  split; unfold charged, asked, allocated in *; rewrite <-?HP; try done.
  - intros a. by rewrite <-HP.
  - intros x. rewrite <-HP. apply Hw.
  - intros a. by rewrite <-HP.
Qed.

(** * The loops over the writable accounts *)

Lemma add_to_accounts_spec adj accounts costs costliest a :
  NoDup accounts →
  default 0 ((add_to_accounts adj accounts costs costliest).1 !! a) =
  if decide (a ∈ accounts) then saturating_add u64_MAX (default 0 (costs !! a)) adj
  else default 0 (costs !! a).
Proof.
  revert costs costliest. induction accounts as [|k accounts IH]; intros costs costliest Hnd.
  { by rewrite decide_False by apply not_elem_of_nil. }
  apply NoDup_cons in Hnd as [Hk Hnd]. simpl. rewrite IH by done.
  destruct (decide (a = k)) as [->|Hne].
  - rewrite decide_False by done. rewrite decide_True by left. by rewrite lookup_insert_eq.
  - rewrite lookup_insert_ne by done. apply decide_ext. set_solver.
Qed.

Lemma sub_from_accounts_spec adj accounts costs a :
  NoDup accounts →
  default 0 (sub_from_accounts adj accounts costs !! a) =
  if decide (a ∈ accounts) then saturating_sub (default 0 (costs !! a)) adj
  else default 0 (costs !! a).
Proof.
  revert costs. induction accounts as [|k accounts IH]; intros costs Hnd.
  { by rewrite decide_False by apply not_elem_of_nil. }
  apply NoDup_cons in Hnd as [Hk Hnd]. simpl. rewrite IH by done.
  destruct (decide (a = k)) as [->|Hne].
  - rewrite decide_False by done. rewrite decide_True by left. by rewrite lookup_insert_eq.
  - rewrite lookup_insert_ne by done. apply decide_ext. set_solver.
Qed.

Lemma accounts_fit_spec self cost accounts :
  0 ≤ cost ≤ account_cost_limit self → account_cost_limit self < u64_MAX →
  accounts_fit self cost accounts = true ↔
  ∀ a, a ∈ accounts →
    default 0 (cost_by_writable_accounts self !! a) + cost ≤ account_cost_limit self.
Proof.
  intros Hcost Hlim. induction accounts as [|k accounts IH]; simpl; [set_solver|].
  setoid_rewrite elem_of_cons. unfold saturating_add.
  destruct (cost_by_writable_accounts self !! k) as [chained|] eqn:E; [case_leb|].
  - split; [done|]. intros H'. specialize (H' k (or_introl eq_refl)). rewrite E in H'. simpl in H'. lia.
  - rewrite IH. split; [intros H' a [->|Ha]; [rewrite E; simpl; lia|by apply H']|naive_solver].
  - rewrite IH. split; [intros H' a [->|Ha]; [rewrite E; simpl; lia|by apply H']|naive_solver].
Qed.

(** * The operations *)

(** What a transaction must satisfy to be added. *)
Definition fits (self : CostTracker) (T : Charges) (c : Cost) : Prop :=
  (TxCost.is_simple_vote c = true →
     charged TxCost.is_simple_vote T + TxCost.sum c ≤ vote_cost_limit self) ∧
  charged (λ _, true) T + TxCost.sum c ≤ block_cost_limit self ∧
  TxCost.sum c ≤ account_cost_limit self ∧
  allocated T + TxCost.allocated_accounts_data_size c ≤ MAX_BLOCK_ACCOUNTS_DATA_SIZE_DELTA ∧
  ∀ a, a ∈ TxCost.writable_accounts c →
    charged (writes a) T + TxCost.sum c ≤ account_cost_limit self.

Lemma ltb_sat limit x y : limit < u64_MAX → (limit <? saturating_add u64_MAX x y) = (limit <? x + y).
Proof. intros. unfold saturating_add. apply eq_true_iff_eq. rewrite !Z.ltb_lt. lia. Qed.

Lemma would_fit_spec self T c :
  Inv self T → wf_limits self → wf_cost c → would_fit self c = Ok tt ↔ fits self T c.
Proof.
  intros HI (Ha & Hb & Hv) Hw. unfold would_fit, fits.
  pose proof (estimated_le_sum c Hw) as Hsum.
  rewrite !ltb_sat by (done || apply Hb || apply Hv).
  rewrite (inv_vote _ _ HI), (inv_block _ _ HI), (inv_alloc _ _ HI).
  setoid_rewrite <-(inv_account _ _ HI).
  destruct (TxCost.is_simple_vote c); simpl; repeat case_leb; split; try done; try lia;
    try (intros (? & ? & ? & ? & ?); lia).
  all: destruct (accounts_fit self (TxCost.sum c) (TxCost.writable_accounts c)) eqn:E;
    [|try done]; rewrite ?(accounts_fit_spec self (TxCost.sum c)) in E by lia.
  all: try (intros _; split_and!; [lia..|done]). all: try done.
  all: intros (_ & _ & _ & _ & H'); apply (accounts_fit_spec self (TxCost.sum c)) in H'; [|lia..];
    congruence.
Qed.

Lemma charged_cons f c n T : charged f ((c, n) :: T) = (if f c then n else 0) + charged f T.
Proof. done. Qed.

Lemma Inv_try_add self T c : Inv self T → wf_limits self → wf_cost c → fits self T c →
  Inv (add_transaction_cost c self).2 ((c, TxCost.sum c) :: T).
Proof.
  intros HI (Ha & Hb & Hv) Hw (Fv & Fb & Fc & Fa & Fk).
  pose proof (estimated_le_sum c Hw) as Hsum. pose proof Hw as (Hnd & Hparts).
  unfold add_transaction_cost, add_transaction_execution_cost.
  destruct (add_to_accounts _ _ _ _) as [costs costliest] eqn:Eadd.
  assert (∀ a, default 0 (costs !! a) = charged (writes a) ((c, TxCost.sum c) :: T)) as Hacc.
  { intros a. pose proof (add_to_accounts_spec (TxCost.sum c) (TxCost.writable_accounts c)
      (cost_by_writable_accounts self) 0 a Hnd) as Hs. simpl in Eadd. rewrite Eadd in Hs. simpl in Hs.
    rewrite Hs, charged_cons, (inv_account _ _ HI).
    pose proof (Inv_charged_nonneg _ _ (writes a) HI) as Hnn.
    rewrite if_writes. unfold saturating_add. clear Hs.
    case_decide as E; [specialize (Fk a E)|]; lia. }
  pose proof (Inv_charged_nonneg _ _ (λ _, true) HI) as Hnn.
  assert (0 ≤ allocated T) as Hnna.
  { apply total_nonneg. intros x Hx. by apply (inv_wf _ _ HI). }
  split; simpl; unfold saturating_add.
  - rewrite (inv_block _ _ HI). lia.
  - rewrite (inv_vote _ _ HI). unfold charged in *. simpl.
    destruct (TxCost.is_simple_vote c); [specialize (Fv eq_refl)|]; lia.
  - exact Hacc.
  - rewrite (inv_alloc _ _ HI). unfold allocated, MAX_BLOCK_ACCOUNTS_DATA_SIZE_DELTA, u64_MAX in *.
    simpl. lia.
  - intros x [->|Hx]%elem_of_cons; [split; [done|simpl; lia]|by apply (inv_wf _ _ HI)].
  - rewrite asked_cons. pose proof (asked_le (λ _, true) T). lia.
  - rewrite asked_cons. pose proof (inv_vote_limit _ _ HI). pose proof (asked_le TxCost.is_simple_vote T).
    destruct (TxCost.is_simple_vote c); [specialize (Fv eq_refl)|]; lia.
  - intros a. rewrite asked_cons, if_writes. pose proof (inv_account_limit _ _ HI a).
    pose proof (asked_le (writes a) T). case_decide as E; [specialize (Fk a E)|]; lia.
  - rewrite (inv_alloc _ _ HI). lia.
Qed.

Lemma Inv_sub self T c n d : Inv self ((c, n) :: T) → 0 ≤ d ≤ n →
  Inv (sub_transaction_execution_cost c d self) ((c, n - d) :: T).
Proof.
  intros HI Hd. destruct (inv_wf _ _ HI (c, n)) as [Hw Hn]; [left|]. simpl in Hn.
  assert (∀ f, 0 ≤ charged f T) as Hnn.
  { intros f. apply total_nonneg. intros x Hx. apply (inv_wf _ _ HI). by right. }
  assert (∀ a, default 0 (cost_by_writable_accounts (sub_transaction_execution_cost c d self) !! a) =
    charged (writes a) ((c, n - d) :: T)) as Hacc.
  { intros a. unfold sub_transaction_execution_cost. simpl.
    rewrite sub_from_accounts_spec by apply Hw.
    rewrite (inv_account _ _ HI), !charged_cons, !if_writes.
    specialize (Hnn (writes a)). unfold saturating_sub. case_decide; lia. }
  pose proof (inv_block _ _ HI) as Hb. pose proof (inv_vote _ _ HI) as Hv.
  pose proof (inv_block_limit _ _ HI) as Hbl. pose proof (inv_vote_limit _ _ HI) as Hvl.
  rewrite charged_cons in Hb, Hv. rewrite asked_cons in Hbl, Hvl.
  pose proof (Hnn (λ _, true)). pose proof (Hnn TxCost.is_simple_vote).
  split; simpl; unfold saturating_sub.
  - unfold charged in *. simpl. lia.
  - unfold charged in *. simpl. destruct (TxCost.is_simple_vote c); lia.
  - exact Hacc.
  - apply (inv_alloc _ _ HI).
  - intros x [->|Hx]%elem_of_cons; [split; [done|simpl; lia]|]. apply (inv_wf _ _ HI). by right.
  - rewrite asked_cons. lia.
  - rewrite asked_cons. destruct (TxCost.is_simple_vote c); lia.
  - intros a. pose proof (inv_account_limit _ _ HI a) as Hl. rewrite asked_cons in *.
    destruct (writes a c); lia.
  - apply (inv_alloc_limit _ _ HI).
Qed.

Lemma Inv_remove self T c : Inv self ((c, TxCost.sum c) :: T) → Inv (remove c self) T.
Proof.
  intros HI. destruct (inv_wf _ _ HI (c, TxCost.sum c)) as [Hw Hn]; [left|]. simpl in Hn.
  apply (Inv_sub _ _ _ _ (TxCost.sum c)) in HI; [|lia]. rewrite Z.sub_diag in HI.
  unfold remove, remove_transaction_cost. revert HI. generalize (sub_transaction_execution_cost c (TxCost.sum c) self).
  intros st HI. assert (0 ≤ allocated T) as Hnna.
  { apply total_nonneg. intros x Hx. apply (inv_wf _ _ HI). by right. }
  assert (∀ f, charged f ((c, 0) :: T) = charged f T) as Hz.
  { intros f. rewrite charged_cons. by destruct (f c). }
  assert (∀ f, asked f ((c, 0) :: T) = asked f T) as Hz'.
  { intros f. rewrite asked_cons, Z.min_l by lia. by destruct (f c). }
  destruct HI as [Hb Hv Ha Hal Hwf Hbl Hvl Hacl Hall]. setoid_rewrite Hz in Ha. rewrite Hz in Hb, Hv.
  rewrite Hz' in Hbl, Hvl. setoid_rewrite Hz' in Hacl.
  change (allocated ((c, 0) :: T)) with (TxCost.allocated_accounts_data_size c + allocated T) in Hal.
  destruct Hw as (_ & ?). simpl in *.
  split; simpl; unfold saturating_sub; try done.
  - lia.
  - intros x Hx. apply Hwf. by right.
  - unfold MAX_BLOCK_ACCOUNTS_DATA_SIZE_DELTA in *. lia.
Qed.

Lemma Inv_add self T c d :
  Inv self ((c, TxCost.sum c) :: T) → 0 ≤ d → charged (λ _, true) ((c, TxCost.sum c + d) :: T) ≤ u64_MAX →
  Inv (add_transaction_execution_cost c d self).2 ((c, TxCost.sum c + d) :: T).
Proof.
  intros HI Hd Hmax. destruct (inv_wf _ _ HI (c, TxCost.sum c)) as [Hw Hn]; [left|]. simpl in Hn.
  assert (∀ x, x ∈ (c, TxCost.sum c + d) :: T → wf_cost x.1 ∧ 0 ≤ x.2) as Hwf.
  { intros x [->|Hx]%elem_of_cons; [split; [done|simpl; lia]|]. apply (inv_wf _ _ HI). by right. }
  assert (∀ f, charged f ((c, TxCost.sum c + d) :: T) ≤ u64_MAX) as Hle.
  { intros f. etrans; [|exact Hmax]. apply total_le_all. intros x Hx. by apply Hwf. }
  assert (∀ f, asked f ((c, TxCost.sum c + d) :: T) = asked f ((c, TxCost.sum c) :: T)) as Hask.
  { intros f. rewrite !asked_cons. destruct (f c); lia. }
  unfold add_transaction_execution_cost.
  pose proof (λ a, add_to_accounts_spec d (TxCost.writable_accounts c)
    (cost_by_writable_accounts self) 0 a (proj1 Hw)) as Hacc.
  destruct (add_to_accounts _ _ _ _) as [costs costliest]. simpl in Hacc.
  split; simpl; unfold saturating_add; rewrite ?Hask; try apply HI; try done.
  - pose proof (Hle (λ _, true)). rewrite charged_cons in *. rewrite (inv_block _ _ HI), charged_cons. lia.
  - pose proof (Hle TxCost.is_simple_vote). rewrite charged_cons in *.
    rewrite (inv_vote _ _ HI), charged_cons. destruct (TxCost.is_simple_vote c); lia.
  - intros a. pose proof (Hle (writes a)) as Ha. rewrite Hacc, (inv_account _ _ HI).
    rewrite charged_cons, if_writes in Ha. rewrite charged_cons, !if_writes. unfold saturating_add.
    case_decide; lia.
  - intros a. rewrite Hask. apply HI.
Qed.

(** * Runs *)

(** The trackers of one block. A transaction is added; then it is either removed,
    or its cost is replaced by what it used, be it less or more than it asked for;
    all that the block is charged fits a [u64]. *)
Inductive tracker_run (self0 : CostTracker) : Charges → CostTracker → Prop :=
| run_start : tracker_run self0 [] (reset self0)
| run_try_add T st c r st' :
    tracker_run self0 T st → wf_cost c → try_add c st = (r, st') →
    tracker_run self0 (if is_ok r then (c, TxCost.sum c) :: T else T) st'
| run_remove T st c T' :
    tracker_run self0 T st → T ≡ₚ (c, TxCost.sum c) :: T' →
    tracker_run self0 T' (remove c st)
| run_update T st c units loaded T' :
    tracker_run self0 T st → T ≡ₚ (c, TxCost.sum c) :: T' →
    0 ≤ units → 0 ≤ loaded →
    charged (λ _, true) ((c, TxCost.sum c - estimated c + (units + loaded)) :: T') ≤ u64_MAX →
    tracker_run self0 ((c, TxCost.sum c - estimated c + (units + loaded)) :: T')
      (update_execution_cost c units loaded st).

Definition same_limits (st st' : CostTracker) : Prop :=
  account_cost_limit st' = account_cost_limit st ∧ block_cost_limit st' = block_cost_limit st ∧
  vote_cost_limit st' = vote_cost_limit st.

Lemma add_transaction_cost_limits c st : same_limits st (add_transaction_cost c st).2.
Proof.
  unfold add_transaction_cost, add_transaction_execution_cost. by destruct (add_to_accounts _ _ _ _).
Qed.

Lemma wf_limits_same st st' : same_limits st st' → wf_limits st → wf_limits st'.
Proof. intros (E1 & E2 & E3). unfold wf_limits. by rewrite E1, E2, E3. Qed.

Lemma Inv_update self T c units loaded :
  Inv self ((c, TxCost.sum c) :: T) → 0 ≤ units → 0 ≤ loaded →
  charged (λ _, true) ((c, TxCost.sum c - estimated c + (units + loaded)) :: T) ≤ u64_MAX →
  Inv (update_execution_cost c units loaded self)
    ((c, TxCost.sum c - estimated c + (units + loaded)) :: T) ∧
  same_limits self (update_execution_cost c units loaded self).
Proof.
  intros HI Hu Hl Hle. destruct (inv_wf _ _ HI (c, TxCost.sum c)) as [Hw _]; [left|].
  pose proof (estimated_le_sum c Hw) as Hes. unfold update_execution_cost. fold (estimated c).
  assert (0 ≤ charged (λ _, true) T).
  { apply total_nonneg. intros x Hx. apply (inv_wf _ _ HI). by right. }
  pose proof Hle as Hle'. rewrite charged_cons in Hle'.
  assert (saturating_add u64_MAX units loaded = units + loaded) as ->.
  { unfold saturating_add. lia. }
  destruct (Z.compare_spec (units + loaded) (estimated c)) as [E|E|E].
  - by rewrite E, Z.sub_add.
  - split; [|done]. rewrite <-Z.sub_sub_distr. apply Inv_sub; [done|lia].
  - replace (TxCost.sum c - estimated c + (units + loaded))
      with (TxCost.sum c + (units + loaded - estimated c)) in * by lia.
    split; [apply Inv_add; [done|lia|done]|].
    unfold add_transaction_execution_cost. by destruct (add_to_accounts _ _ _ _).
Qed.

Lemma Inv_reset st : wf_limits st → Inv (reset st) [].
Proof.
  intros (? & ? & ?). split; simpl; unfold asked; simpl; try lia; try done.
  intros x Hx. by apply not_elem_of_nil in Hx.
Qed.

Lemma tracker_run_Inv self0 T st :
  wf_limits self0 → tracker_run self0 T st → Inv st T ∧ same_limits self0 st.
Proof.
  intros Hlim. induction 1 as [|T st c r st' _ [IH Hs] Hw Hrun|T st c T' _ [IH Hs] HT
    |T st c units loaded T' _ [IH Hs] HT Hu Hl Hle].
  - split; [by apply Inv_reset|done].
  - unfold try_add in Hrun. pose proof (would_fit_spec st T c IH (wf_limits_same _ _ Hs Hlim) Hw) as Hf.
    destruct (would_fit st c) as [[]|e]; [|by injection Hrun as <- <-].
    pose proof (Inv_try_add st T c IH (wf_limits_same _ _ Hs Hlim) Hw (proj1 Hf eq_refl)) as HI.
    pose proof (add_transaction_cost_limits c st) as Hs'.
    destruct (add_transaction_cost c st) as [costliest st1]. injection Hrun as <- <-.
    split; [done|]. destruct Hs as (?&?&?), Hs' as (?&?&?). simpl in *. split_and!; congruence.
  - split; [|done]. apply Inv_remove. by apply (cost_Inv_perm _ T).
  - destruct (Inv_update st T' c units loaded) as [HI Hs']; [by apply (cost_Inv_perm _ T)|done..|].
    split; [done|]. destruct Hs as (?&?&?), Hs' as (?&?&?). split_and!; congruence.
Qed.

(** C27. At every point of a block, the tracker's block cost, vote cost, cost per
    writable account and allocated data are exactly the sums over the transactions
    it tracks, and each exceeds its limit by at most what transactions used beyond
    what they had asked for: [update_execution_cost] charges that without looking
    at a limit. The allocated data never exceed theirs. *)
Theorem cost_tracker_exact self0 T st a :
  wf_limits self0 → tracker_run self0 T st →
  block_cost st = charged (λ _, true) T ∧
  block_cost st ≤ block_cost_limit self0 + overrun (λ _, true) T ∧
  vote_cost st = charged TxCost.is_simple_vote T ∧
  vote_cost st ≤ vote_cost_limit self0 + overrun TxCost.is_simple_vote T ∧
  default 0 (cost_by_writable_accounts st !! a) = charged (writes a) T ∧
  default 0 (cost_by_writable_accounts st !! a) ≤ account_cost_limit self0 + overrun (writes a) T ∧
  allocated_accounts_data_size st = allocated T ∧
  allocated_accounts_data_size st ≤ MAX_BLOCK_ACCOUNTS_DATA_SIZE_DELTA.
Proof.
  intros Hlim Hrun. destruct (tracker_run_Inv self0 T st Hlim Hrun) as [HI (<- & <- & <-)].
  rewrite (inv_block _ _ HI), (inv_vote _ _ HI), (inv_account _ _ HI), !charged_asked.
  split_and!; try apply Z.add_le_mono_r; apply HI || done.
Qed.

(** [try_add] adds a transaction exactly when it fits: the vote, block,
    account and data limits hold with it. Otherwise the tracker is unchanged. *)
Theorem try_add_exact self0 T st c :
  wf_limits self0 → tracker_run self0 T st → wf_cost c →
  match try_add c st with
  | (Ok u, st') => fits st T c ∧ updated_block_cost u = charged (λ _, true) T + TxCost.sum c
  | (Err _, st') => ¬ fits st T c ∧ st' = st
  end.
Proof.
  intros Hlim Hrun Hw. destruct (tracker_run_Inv self0 T st Hlim Hrun) as [HI Hs].
  pose proof (wf_limits_same _ _ Hs Hlim) as Hlim'. unfold try_add.
  pose proof (would_fit_spec st T c HI Hlim' Hw) as Hf.
  destruct (would_fit st c) as [[]|e].
  - pose proof (Inv_try_add st T c HI Hlim' Hw (proj1 Hf eq_refl)) as HI'.
    destruct (add_transaction_cost c st) as [costliest st1]. split; [by apply Hf|].
    simpl in *. rewrite (inv_block _ _ HI'), charged_cons. lia.
  - split; [|done]. intros Hfit. by apply Hf in Hfit.
Qed.

End tracker.

(** * The cost model *)

Section model.
Context `{csdk : CostSdk} {Tx : Type} `{!TransactionWithMeta Tx}.

(** What the instructions of a transaction allocate, each on its own. *)
Definition allocations (l : list (Pubkey * SVMInstruction)) : list CostModel.SystemProgramAccountAllocation :=
  (λ x, CostModel.calculate_account_data_size_on_instruction x.1 x.2) <$> l.

Definition alloc_size (x : CostModel.SystemProgramAccountAllocation) : Z :=
  match x with CostModel.AllocSome space => space | _ => 0 end.

Definition alloc_failed (x : CostModel.SystemProgramAccountAllocation) : bool :=
  match x with CostModel.AllocFailed => true | _ => false end.

Lemma sum_allocations_spec l size :
  0 ≤ size ≤ u64_MAX → (∀ x, x ∈ allocations l → 0 ≤ alloc_size x) →
  MAX_PERMITTED_ACCOUNTS_DATA_ALLOCATIONS_PER_TRANSACTION ≤ u64_MAX →
  CostModel.sum_allocations l size =
  if existsb alloc_failed (allocations l) then 0
  else Z.min MAX_PERMITTED_ACCOUNTS_DATA_ALLOCATIONS_PER_TRANSACTION
         (size + sumZ (alloc_size <$> allocations l)).
Proof.
  intros Hsize Hnn Hmax. revert size Hsize. induction l as [|[id ins] l IH]; intros size Hsize.
  { simpl. by rewrite Z.add_0_r. }
  assert (0 ≤ sumZ (alloc_size <$> allocations l)) as Hpos.
  { apply sumZ_nonneg. intros ? (x & -> & Hx)%list_elem_of_fmap. apply Hnn. by right. }
  assert (0 ≤ alloc_size (CostModel.calculate_account_data_size_on_instruction id ins)) as Hx.
  { apply Hnn. left. }
  simpl. destruct (CostModel.calculate_account_data_size_on_instruction id ins) as [|space|] eqn:E;
    simpl in *; [|..|done].
  - rewrite IH by (done || set_solver). by rewrite Z.add_0_l.
  - rewrite IH; [|set_solver|unfold saturating_add, u64_MAX in *; lia].
    unfold saturating_add. destruct (existsb _ _); [done|]. unfold sumZ in *. simpl.
    change (list_fmap _ _ alloc_size (allocations l)) with (alloc_size <$> allocations l). lia.
Qed.

(** The cost of a transaction is the sum of its parts, for a vote as for any
    other transaction, saturated; and an estimate allocates the sum of what its
    instructions allocate, capped, or nothing when one of them is bound to fail. *)
Theorem calculate_cost_exact (tx : Tx) (fs : FeatureSet) c :
  CostModel.calculate_cost tx fs = Ret c → wf_cost c →
  MAX_PERMITTED_ACCOUNTS_DATA_ALLOCATIONS_PER_TRANSACTION ≤ u64_MAX →
  (∀ x, x ∈ allocations (program_instructions_iter tx) → 0 ≤ alloc_size x) →
  TxCost.sum c = Z.min (TxCost.signature_cost c + TxCost.write_lock_cost c +
    TxCost.data_bytes_cost c + TxCost.programs_execution_cost c +
    TxCost.loaded_accounts_data_size_cost c) u64_MAX ∧
  TxCost.is_simple_vote c = is_simple_vote_transaction tx ∧
  TxCost.allocated_accounts_data_size c =
    (if is_simple_vote_transaction tx then 0
     else if existsb alloc_failed (allocations (program_instructions_iter tx)) then 0
     else Z.min MAX_PERMITTED_ACCOUNTS_DATA_ALLOCATIONS_PER_TRANSACTION
            (sumZ (alloc_size <$> allocations (program_instructions_iter tx)))).
Proof.
  intros Hc Hw Hmax Hnn. split; [by apply sum_parts|].
  unfold CostModel.calculate_cost in Hc. destruct (is_simple_vote_transaction tx); [by outcome_inv|].
  outcome_inv. destruct x as [[execution loaded] data]. outcome_inv. split; [done|]. simpl.
  unfold CostModel.calculate_allocated_accounts_data_size.
  by rewrite sum_allocations_spec by done.
Qed.

End model.

(** * Examples *)

(** A transaction with its writable keys and instructions of the system program
    (id 3), whose data is the space it allocates. *)
Record ex_tx := { ex_vote : bool; ex_keys : list (Pubkey * bool); ex_spaces : list nat }.

#[local] Instance ex_sdk : Sdk := {|
  InstructionData := nat;
  stake_id := 1; vote_id := 2; system_program_id := 3; compute_budget_id := 4;
  bpf_loader_upgradeable_id := 5; bpf_loader_deprecated_id := 6; bpf_loader_id := 7;
  loader_v4_id := 8; secp256k1_program_id := 9; ed25519_program_id := 10;
  migrate_stake_program_to_core_bpf_id := 11;
  HEAP_LENGTH := 32768; PACKET_DATA_SIZE := 1232;
  try_from_slice_unchecked := λ _, None;
|}.

#[local] Instance ex_cost_sdk : CostSdk := {|
  limited_deserialize := λ n : @InstructionData ex_sdk, Some (Allocate (Z.of_nat n));
  calculate_memory_usage_cost := λ bytes heap_cost, (bytes + 32767) / 32768 * heap_cost;
  MAX_PERMITTED_DATA_LENGTH := 10 * 1024 * 1024;
  MAX_PERMITTED_ACCOUNTS_DATA_ALLOCATIONS_PER_TRANSACTION := 20 * 1024 * 1024;
  ed25519_precompile_verify_strict_id := 12;
  enable_secp256r1_precompile_id := 13;
|}.

#[local] Instance ex_meta : TransactionWithMeta ex_tx := {|
  is_simple_vote_transaction := ex_vote;
  signature_details := λ _, {| num_transaction_signatures := 1;
    num_secp256k1_instruction_signatures := 0; num_ed25519_instruction_signatures := 0;
    num_secp256r1_instruction_signatures := 0 |};
  compute_budget_instruction_details := λ _, Details.default_;
  instruction_data_len := λ tx, 12 * Z.of_nat (length (ex_spaces tx));
  account_keys := ex_keys;
  num_write_locks := λ tx, Z.of_nat (length (filter (λ x, x.2 = true) (ex_keys tx)));
  program_instructions_iter := λ tx,
    (λ n, (3, {| program_id_index := 0; data := n : @InstructionData ex_sdk |})) <$> ex_spaces tx;
|}.

Definition ex_tx1 : ex_tx :=
  {| ex_vote := false; ex_keys := [(100, true); (101, false)]; ex_spaces := [50; 30]%nat |}.
Definition ex_cost (tx : ex_tx) : TransactionCost ex_tx :=
  match CostModel.calculate_cost tx (λ _, false) with Ret c => c | _ => SimpleVote tx end.
Definition ex_cost1 : TransactionCost ex_tx := ex_cost ex_tx1.
Definition ex_tracker0 : Tracker.CostTracker := Tracker.default_.
Definition ex_tracker1 : Tracker.CostTracker :=
  (Tracker.try_add ex_cost1 (Tracker.reset ex_tracker0)).2.

Lemma ex_cost1_wf : wf_cost ex_cost1.
Proof. split_and!; try (by vm_compute). vm_compute. apply NoDup_singleton. Qed.

Lemma ex_limits_wf : wf_limits ex_tracker0.
Proof. by vm_compute. Qed.

Lemma ex_tracker1_run :
  tracker_run ex_tracker0 [(ex_cost1, TxCost.sum ex_cost1)] ex_tracker1.
Proof.
  assert (is_ok (Tracker.try_add ex_cost1 (Tracker.reset ex_tracker0)).1 = true) as Hok
    by (by vm_compute).
  pose proof (run_try_add ex_tracker0 [] (Tracker.reset ex_tracker0) ex_cost1
    (Tracker.try_add ex_cost1 (Tracker.reset ex_tracker0)).1 ex_tracker1) as Hrun.
  rewrite Hok in Hrun. apply Hrun; [constructor|apply ex_cost1_wf|by vm_compute].
Qed.

(** The transaction uses more than it asked for. *)
Definition ex_units : Z := estimated ex_cost1 + 1000.
Definition ex_tracker2 : Tracker.CostTracker :=
  Tracker.update_execution_cost ex_cost1 ex_units 0 ex_tracker1.

Lemma ex_tracker2_run :
  tracker_run ex_tracker0 [(ex_cost1, TxCost.sum ex_cost1 - estimated ex_cost1 + (ex_units + 0))]
    ex_tracker2.
Proof.
  apply (run_update _ _ _ _ _ _ _ ex_tracker1_run); [done|..]; by vm_compute.
Qed.

Lemma cost_tracker_exact_witness : Tracker.block_cost ex_tracker2 = TxCost.sum ex_cost1 + 1000.
Proof.
  destruct (cost_tracker_exact ex_tracker0 _ ex_tracker2 100 ex_limits_wf ex_tracker2_run) as (-> & _).
  by vm_compute.
Defined.

Lemma try_add_exact_witness :
  match Tracker.try_add (SimpleVote ex_tx1) ex_tracker1 with
  | (Ok u, _) => Tracker.updated_block_cost u = TxCost.sum ex_cost1 + 3428
  | (Err _, _) => False
  end.
Proof.
  assert (is_ok (Tracker.try_add (SimpleVote ex_tx1) ex_tracker1).1 = true) as Hok
    by (by vm_compute).
  assert (wf_cost (SimpleVote ex_tx1)) as Hw.
  { split; [apply NoDup_singleton|]. unfold TxCost.signature_cost, TxCost.write_lock_cost,
      TxCost.data_bytes_cost, TxCost.programs_execution_cost, TxCost.loaded_accounts_data_size_cost,
      TxCost.allocated_accounts_data_size, saturating_mul, u64_MAX, SIGNATURE_COST,
      WRITE_LOCK_UNITS, VOTE_DEFAULT_COMPUTE_UNITS, COMPUTE_UNIT_TO_US_RATIO. lia. }
  pose proof (try_add_exact ex_tracker0 _ ex_tracker1 (SimpleVote ex_tx1) ex_limits_wf
    ex_tracker1_run Hw) as H.
  destruct (Tracker.try_add (SimpleVote ex_tx1) ex_tracker1) as [[u|e] st]; [|done].
  destruct H as [_ ->]. unfold charged, total. simpl. by rewrite Z.add_0_r.
Defined.

Lemma calculate_cost_exact_witness : TxCost.allocated_accounts_data_size ex_cost1 = 80.
Proof.
  destruct (calculate_cost_exact ex_tx1 (λ _, false) ex_cost1) as (_ & _ & ->);
    [by vm_compute|apply ex_cost1_wf|by vm_compute| |by vm_compute].
  intros x. vm_compute allocations. rewrite !elem_of_cons.
  intros [->|[->|[]%not_elem_of_nil]]; by vm_compute.
Defined.

