(* ===== verification/BTree.v ===== *)
(** The ordered collections of the standard library that the program iterates
    over: a [BTreeMap] is the list of its entries in increasing order of keys, a
    [BTreeSet] the increasing list of its elements. *)

From S2P Require Import Prelude.

(** The lexicographic order that [derive(Ord)] gives tuples, structures and
    enumerations, on the numbers they consist of. *)
Fixpoint lex_ltb (a b : list Z) : bool :=
  match a, b with
  | x :: a, y :: b => (x <? y) || ((x =? y) && lex_ltb a b)
  | [], _ :: _ => true
  | _, [] => false
  end.

(** A type whose values are ordered like the numbers they are coded as. *)
Class Coded (K : Type) `{EqDecision K} := {
  code : K → list Z;
  code_inj : Inj (=) (=) code;
}.
#[global] Existing Instance code_inj.

Definition ltb `{Coded K} (a b : K) : bool := lex_ltb (code a) (code b).
Definition lt `{Coded K} (a b : K) : Prop := ltb a b = true.

(** [Ord::cmp]. *)
Definition cmp `{Coded K} (a b : K) : comparison :=
  if ltb a b then Lt else if ltb b a then Gt else Eq.

Section btree.
Context `{Coded K} {V : Type}.

Fixpoint map_insert (k : K) (v : V) (m : list (K * V)) : list (K * V) :=
  match m with
  | [] => [(k, v)]
  | (k', v') :: m =>
      if ltb k k' then (k, v) :: (k', v') :: m
      else if ltb k' k then (k', v') :: map_insert k v m
      else (k, v) :: m
  end.

Fixpoint map_get (k : K) (m : list (K * V)) : option V :=
  match m with
  | [] => None
  | (k', v) :: m => if decide (k = k') then Some v else map_get k m
  end.

Fixpoint set_insert (k : K) (s : list K) : list K :=
  match s with
  | [] => [k]
  | k' :: s =>
      if ltb k k' then k :: k' :: s
      else if ltb k' k then k' :: set_insert k s
      else k' :: s
  end.

(** [BTreeSet::remove] tells whether the element was there. *)
Definition set_remove (k : K) (s : list K) : bool * list K :=
  (bool_decide (k ∈ s), filter (λ k', k' ≠ k) s).

End btree.

(** * The order is a strict total order *)

Lemma lex_ltb_irrefl a : lex_ltb a a = false.
Proof. induction a as [|x a IH]; simpl; [done|]. by rewrite Z.ltb_irrefl, Z.eqb_refl, IH. Qed.

Lemma lex_ltb_trans a b c : lex_ltb a b = true → lex_ltb b c = true → lex_ltb a c = true.
Proof.
  revert b c. induction a as [|x a IH]; intros [|y b] [|z c]; simpl; try done.
  rewrite !orb_true_iff, !andb_true_iff, !Z.ltb_lt, !Z.eqb_eq.
  intros [?|[-> ?]] [?|[-> ?]]; try (left; lia). right. eauto.
Qed.

Lemma lex_ltb_total a b : lex_ltb a b = false → lex_ltb b a = false → a = b.
Proof.
  revert b. induction a as [|x a IH]; intros [|y b]; simpl; try done.
  rewrite !orb_false_iff, !andb_false_iff, !Z.ltb_ge, !Z.eqb_neq.
  intros [? [?|?]] [? [?|?]]; try lia. assert (x = y) as -> by lia. f_equal. by apply IH.
Qed.

Section order.
Context `{Coded K}.

Lemma ltb_irrefl (a : K) : ltb a a = false.
Proof. apply lex_ltb_irrefl. Qed.
Lemma lt_not_refl (a : K) : ¬ lt a a.
Proof. unfold lt. by rewrite ltb_irrefl. Qed.
#[global] Instance lt_trans : Transitive (lt (K := K)).
Proof. intros a b c. apply lex_ltb_trans. Qed.
Lemma ltb_total (a b : K) : ltb a b = false → ltb b a = false → a = b.
Proof. intros H1 H2. apply (inj code). by apply lex_ltb_total. Qed.
Lemma lt_asym (a b : K) : lt a b → ltb b a = false.
Proof.
  intros Hab. destruct (ltb b a) eqn:E; [|done]. by destruct (lt_not_refl a); trans b.
Qed.

(** The three ways two keys can compare. *)
Lemma ltb_cases (a b : K) :
  (lt a b ∧ ltb b a = false ∧ a ≠ b) ∨ (lt b a ∧ ltb a b = false ∧ a ≠ b) ∨
  (a = b ∧ ltb a b = false ∧ ltb b a = false).
Proof.
  destruct (ltb a b) eqn:E1; [left|destruct (ltb b a) eqn:E2; [right; left|right; right]].
  - split_and!; [done|by apply lt_asym|intros ->; by rewrite ltb_irrefl in E1].
  - split_and!; [done|done|intros ->; by rewrite ltb_irrefl in E2].
  - split_and!; [by apply ltb_total|done..].
Qed.
End order.

(** * Maps *)

Section maps.
Context `{Coded K} {V : Type}.
Implicit Types (m : list (K * V)).

Definition map_sorted m : Prop := StronglySorted (λ x y, lt x.1 y.1) m.

Lemma map_get_insert m k v k' :
  map_get k' (map_insert k v m) = if decide (k' = k) then Some v else map_get k' m.
Proof.
  induction m as [|[k0 v0] m IH]; simpl; [done|].
  destruct (ltb_cases k k0) as [(Hl & E & Hne)|[(Hl & E & Hne)|(-> & E1 & E2)]].
  - unfold lt in Hl. rewrite Hl. done.
  - unfold lt in Hl. rewrite E, Hl. simpl. rewrite IH. repeat case_decide; congruence.
  - rewrite E1. simpl. repeat case_decide; congruence.
Qed.

Lemma map_insert_keys m k v x : x ∈ (map_insert k v m).*1 ↔ x = k ∨ x ∈ m.*1.
Proof.
  induction m as [|[k0 v0] m IH]; simpl; [set_solver|].
  destruct (ltb_cases k k0) as [(Hl & E & Hne)|[(Hl & E & Hne)|(-> & E1 & E2)]];
    unfold lt in *; rewrite ?Hl, ?E, ?E1; cbn -[elem_of]; set_solver.
Qed.

Lemma map_insert_sorted m k v : map_sorted m → map_sorted (map_insert k v m).
Proof.
  unfold map_sorted. induction 1 as [|[k0 v0] m Hs IH Hall]; simpl.
  { repeat constructor. }
  destruct (ltb_cases k k0) as [(Hl & E & Hne)|[(Hl & E & Hne)|(-> & E1 & E2)]].
  - pose proof Hl as Hl'. unfold lt in Hl'. rewrite Hl'. constructor; [by constructor|].
    constructor; [done|]. eapply Forall_impl; [exact Hall|]. simpl. intros x Hx. by trans k0.
  - pose proof Hl as Hl'. unfold lt in Hl'. rewrite E, Hl'. constructor; [done|].
    rewrite Forall_forall in Hall |- *. intros [k1 v1] Hin.
    assert (k1 ∈ (map_insert k v m).*1) as Hk by (apply list_elem_of_fmap; by exists (k1, v1)).
    apply map_insert_keys in Hk as [->|Hk]; [done|].
    apply list_elem_of_fmap in Hk as ([k2 v2] & -> & Hk). by apply (Hall (k2, v2)).
  - rewrite E1. by constructor.
Qed.

Lemma map_get_Some m k v : map_sorted m → map_get k m = Some v ↔ (k, v) ∈ m.
Proof.
  unfold map_sorted. induction 1 as [|[k0 v0] m Hs IH Hall]; simpl; [set_solver|].
  rewrite elem_of_cons. case_decide as E; [subst|rewrite IH; naive_solver].
  split; [intros [= ->]; by left|]. intros [[= ->]|Hin]; [done|].
  rewrite Forall_forall in Hall. apply Hall in Hin. simpl in Hin. by apply lt_not_refl in Hin.
Qed.

Lemma map_get_None m k : map_get k m = None ↔ k ∉ m.*1.
Proof.
  induction m as [|[k0 v0] m IH]; simpl; [set_solver|].
  case_decide as E; [subst|]; rewrite ?IH; set_solver.
Qed.

Lemma elem_of_map_insert m k v x :
  map_sorted m → x ∈ map_insert k v m ↔ x = (k, v) ∨ (x.1 ≠ k ∧ x ∈ m).
Proof.
  intros Hs. destruct x as [k' v']. simpl.
  rewrite <-!map_get_Some, map_get_insert by auto using map_insert_sorted.
  case_decide; naive_solver.
Qed.

(** What an insertion does to the collection of entries. *)
Lemma map_insert_perm m k v : map_sorted m → ∃ m',
  map_insert k v m ≡ₚ (k, v) :: m' ∧
  m ≡ₚ match map_get k m with Some v0 => (k, v0) :: m' | None => m' end.
Proof.
  unfold map_sorted. induction 1 as [|[k0 v0] m Hs IH Hall]; simpl; [by exists []|].
  destruct (ltb_cases k k0) as [(Hl & E & Hne)|[(Hl & E & Hne)|(-> & E1 & E2)]].
  - unfold lt in Hl. rewrite Hl, decide_False by done. exists ((k0, v0) :: m). split; [done|].
    assert (map_get k m = None) as ->; [|done]. apply map_get_None. intros Hin.
    apply list_elem_of_fmap in Hin as ([k1 v1] & -> & Hin). rewrite Forall_forall in Hall.
    apply Hall in Hin. simpl in *. apply lt_asym in Hin. by rewrite Hl in Hin.
  - unfold lt in Hl. rewrite E, Hl, decide_False by done. destruct IH as (m' & Hi & Hm).
    exists ((k0, v0) :: m'). rewrite Hi. split; [constructor|].
    rewrite Hm at 1. destruct (map_get k m); constructor; done.
  - rewrite E1, decide_True by done. by exists m.
Qed.
End maps.

Section sets.
Context `{Coded K}.

Lemma elem_of_set_insert (s : list K) k x : x ∈ set_insert k s ↔ x = k ∨ x ∈ s.
Proof.
  induction s as [|k0 s IH]; simpl; [set_solver|].
  destruct (ltb_cases k k0) as [(Hl & E & Hne)|[(Hl & E & Hne)|(-> & E1 & E2)]];
    unfold lt in *; rewrite ?Hl, ?E, ?E1, ?E2; set_solver.
Qed.

Lemma set_insert_perm (s : list K) k : k ∉ s → set_insert k s ≡ₚ k :: s.
Proof.
  induction s as [|k0 s IH]; simpl; [done|]. rewrite not_elem_of_cons. intros [Hne Hin].
  destruct (ltb_cases k k0) as [(Hl & E & _)|[(Hl & E & _)|(-> & _)]]; [| |done]; unfold lt in Hl.
  - by rewrite Hl.
  - rewrite E, Hl, IH by done. constructor.
Qed.

Lemma set_insert_sorted (s : list K) k :
  StronglySorted lt s → StronglySorted lt (set_insert k s).
Proof.
  induction 1 as [|k0 s Hs IH Hall]; simpl; [repeat constructor|].
  destruct (ltb_cases k k0) as [(Hl & E & Hne)|[(Hl & E & Hne)|(-> & E1 & E2)]].
  - pose proof Hl as Hl'. unfold lt in Hl'. rewrite Hl'. constructor; [by constructor|].
    constructor; [done|]. eapply Forall_impl; [exact Hall|]. intros x Hx. by trans k0.
  - pose proof Hl as Hl'. unfold lt in Hl'. rewrite E, Hl'. constructor; [done|].
    rewrite Forall_forall in Hall |- *. intros x [->|Hx]%elem_of_set_insert; [done|by apply Hall].
  - rewrite E1. by constructor.
Qed.

Lemma sorted_NoDup (s : list K) : StronglySorted lt s → NoDup s.
Proof.
  induction 1 as [|k s Hs IH Hall]; [constructor|]. constructor; [|done]. intros Hin.
  rewrite Forall_forall in Hall. by apply (lt_not_refl k), Hall.
Qed.

Lemma set_remove_sorted (s : list K) k :
  StronglySorted lt s → StronglySorted lt (set_remove k s).2.
Proof. apply StronglySorted_filter. Qed.
End sets.
