(* ===== verification/ForkChoice.v ===== *)
(** Heaviest-subtree fork choice, [core/src/consensus/heaviest_subtree_fork_choice.rs],
    with the traversal of [core/src/consensus/tree_diff.rs]: the tree of blocks with
    the stake that voted for them, and the batches of updates that keep the best and
    the deepest block of every subtree. *)

From S2P Require Import Prelude BTree.

(** A block: its slot and bank hash, ordered by slot, then hash. *)
Abbreviation SlotHashKey := (Z * Z)%type (only parsing).

#[global] Instance key_coded : Coded SlotHashKey := {|
  code := λ k, [k.1; k.2];
  code_inj := ltac:(intros [] [] [= -> ->]; done);
|}.

(** [SlotHashKey::default()]; the default hash is all zeros. *)
Definition key_default : SlotHashKey := (0, 0).

Inductive UpdateLabel :=
| LAggregate
| LAdd
| LMarkValid (slot : Slot)
| LMarkInvalid (slot : Slot)
| LSubtract.

#[global] Instance UpdateLabel_eq_dec : EqDecision UpdateLabel.
Proof. solve_decision. Defined.

#[global] Instance label_coded : Coded UpdateLabel := {|
  code := λ l, match l with
    | LAggregate => [0]
    | LAdd => [1]
    | LMarkValid slot => [2; slot]
    | LMarkInvalid slot => [3; slot]
    | LSubtract => [4]
    end;
  code_inj := ltac:(intros [] []; simpl; congruence);
|}.

#[global] Instance op_key_coded : Coded (SlotHashKey * UpdateLabel) := {|
  code := λ x, [x.1.1; x.1.2] ++ code x.2;
  code_inj := ltac:(
    intros [[s h] l] [[s' h'] l'] E; simpl app in E; injection E as -> -> E;
    by rewrite (inj code _ _ E : l = l'));
|}.

Inductive UpdateOperation :=
| OpAdd (stake : Z)
| OpMarkValid (slot : Slot)
| OpMarkInvalid (slot : Slot)
| OpSubtract (stake : Z)
| OpAggregate.

#[global] Instance UpdateOperation_eq_dec : EqDecision UpdateOperation.
Proof. solve_decision. Defined.

Definition update_stake (op : UpdateOperation) (new_stake : Z) : outcome UpdateOperation :=
  match op with
  | OpAdd stake => s ← add_ u64_MAX stake new_stake; Ret (OpAdd s)
  | OpSubtract stake => s ← add_ u64_MAX stake new_stake; Ret (OpSubtract s)
  | OpAggregate | OpMarkValid _ | OpMarkInvalid _ => Panic
  end.

(** [UpdateOperations]: a [BTreeMap]. *)
Abbreviation UpdateOperations := (list ((SlotHashKey * UpdateLabel) * UpdateOperation)) (only parsing).

Record ForkInfo := {
  stake_voted_at : Z;
  stake_voted_subtree : Z;
  height : Z;
  best_slot : SlotHashKey;
  deepest_slot : SlotHashKey;
  parent : option SlotHashKey;
  children : list SlotHashKey;
  latest_invalid_ancestor : option Slot;
  is_duplicate_confirmed : bool;
}.

(** [last_root_time] only spaces out log messages and is left out. *)
Record HeaviestSubtreeForkChoice := {
  fork_infos : gmap SlotHashKey ForkInfo;
  latest_votes : gmap Pubkey SlotHashKey;
  tree_root : SlotHashKey;
}.

(** * Fields of a node *)

Module Info.

Definition set_stakes (at_ subtree : Z) (i : ForkInfo) : ForkInfo := {|
  stake_voted_at := at_; stake_voted_subtree := subtree; height := height i;
  best_slot := best_slot i; deepest_slot := deepest_slot i; parent := parent i;
  children := children i; latest_invalid_ancestor := latest_invalid_ancestor i;
  is_duplicate_confirmed := is_duplicate_confirmed i |}.
Definition set_validity (inv : option Slot) (confirmed : bool) (i : ForkInfo) : ForkInfo := {|
  stake_voted_at := stake_voted_at i; stake_voted_subtree := stake_voted_subtree i;
  height := height i; best_slot := best_slot i; deepest_slot := deepest_slot i;
  parent := parent i; children := children i;
  latest_invalid_ancestor := inv; is_duplicate_confirmed := confirmed |}.
Definition set_links (p : option SlotHashKey) (cs : list SlotHashKey) (i : ForkInfo) : ForkInfo := {|
  stake_voted_at := stake_voted_at i; stake_voted_subtree := stake_voted_subtree i;
  height := height i; best_slot := best_slot i; deepest_slot := deepest_slot i;
  parent := p; children := cs;
  latest_invalid_ancestor := latest_invalid_ancestor i;
  is_duplicate_confirmed := is_duplicate_confirmed i |}.
Definition set_best (b : SlotHashKey) (i : ForkInfo) : ForkInfo := {|
  stake_voted_at := stake_voted_at i; stake_voted_subtree := stake_voted_subtree i;
  height := height i; best_slot := b; deepest_slot := deepest_slot i;
  parent := parent i; children := children i;
  latest_invalid_ancestor := latest_invalid_ancestor i;
  is_duplicate_confirmed := is_duplicate_confirmed i |}.
Definition set_deepest (d : SlotHashKey) (h : Z) (i : ForkInfo) : ForkInfo := {|
  stake_voted_at := stake_voted_at i; stake_voted_subtree := stake_voted_subtree i;
  height := h; best_slot := best_slot i; deepest_slot := d;
  parent := parent i; children := children i;
  latest_invalid_ancestor := latest_invalid_ancestor i;
  is_duplicate_confirmed := is_duplicate_confirmed i |}.

Definition is_unconfirmed_duplicate (i : ForkInfo) (my_slot : Slot) : bool :=
  match latest_invalid_ancestor i with Some ancestor => ancestor =? my_slot | None => false end.

Definition is_candidate (i : ForkInfo) : bool := negb (is_some (latest_invalid_ancestor i)).

Definition set_duplicate_confirmed (i : ForkInfo) : ForkInfo := set_validity None true i.

Definition update_with_newly_valid_ancestor (newly_valid_ancestor : Slot) (i : ForkInfo)
    : ForkInfo :=
  match latest_invalid_ancestor i with
  | Some latest =>
      if latest <=? newly_valid_ancestor then set_validity None (is_duplicate_confirmed i) i else i
  | None => i
  end.

Definition update_with_newly_invalid_ancestor (newly_invalid_ancestor : Slot) (i : ForkInfo)
    : outcome ForkInfo :=
  assert_ (negb (is_duplicate_confirmed i)) ;;
  let newer := match latest_invalid_ancestor i with
    | Some latest => latest <? newly_invalid_ancestor
    | None => true
    end in
  Ret (if newer then set_validity (Some newly_invalid_ancestor) (is_duplicate_confirmed i) i else i).

End Info.

(** * The tree *)

Module Fork.

Definition set_infos (infos : gmap SlotHashKey ForkInfo) (self : HeaviestSubtreeForkChoice) :=
  {| fork_infos := infos; latest_votes := latest_votes self; tree_root := tree_root self |}.
Definition set_votes (votes : gmap Pubkey SlotHashKey) (self : HeaviestSubtreeForkChoice) :=
  {| fork_infos := fork_infos self; latest_votes := votes; tree_root := tree_root self |}.
Definition set_root (root : SlotHashKey) (self : HeaviestSubtreeForkChoice) :=
  {| fork_infos := fork_infos self; latest_votes := latest_votes self; tree_root := root |}.

(** Replaces the information of a node that is there. *)
Definition update (k : SlotHashKey) (i : ForkInfo) (self : HeaviestSubtreeForkChoice) :=
  set_infos (<[k := i]> (fork_infos self)) self.

Definition contains_block (self : HeaviestSubtreeForkChoice) (k : SlotHashKey) : bool :=
  is_some (fork_infos self !! k).
Definition best_slot (self : HeaviestSubtreeForkChoice) (k : SlotHashKey) : option SlotHashKey :=
  ForkChoice.best_slot <$> fork_infos self !! k.
Definition deepest_slot (self : HeaviestSubtreeForkChoice) (k : SlotHashKey) : option SlotHashKey :=
  ForkChoice.deepest_slot <$> fork_infos self !! k.
Definition best_overall_slot (self : HeaviestSubtreeForkChoice) : outcome SlotHashKey :=
  unwrap (best_slot self (tree_root self)).
Definition deepest_overall_slot (self : HeaviestSubtreeForkChoice) : outcome SlotHashKey :=
  unwrap (deepest_slot self (tree_root self)).
Definition stake_voted_subtree (self : HeaviestSubtreeForkChoice) (k : SlotHashKey) : option Z :=
  ForkChoice.stake_voted_subtree <$> fork_infos self !! k.
Definition stake_voted_at (self : HeaviestSubtreeForkChoice) (k : SlotHashKey) : option Z :=
  ForkChoice.stake_voted_at <$> fork_infos self !! k.
Definition height (self : HeaviestSubtreeForkChoice) (k : SlotHashKey) : option Z :=
  ForkChoice.height <$> fork_infos self !! k.
Definition parent (self : HeaviestSubtreeForkChoice) (k : SlotHashKey) : option SlotHashKey :=
  fork_infos self !! k ≫= ForkChoice.parent.
Definition children (self : HeaviestSubtreeForkChoice) (k : SlotHashKey)
    : option (list SlotHashKey) :=
  ForkChoice.children <$> fork_infos self !! k.
Definition latest_invalid_ancestor (self : HeaviestSubtreeForkChoice) (k : SlotHashKey)
    : option Slot :=
  fork_infos self !! k ≫= ForkChoice.latest_invalid_ancestor.
Definition is_duplicate_confirmed (self : HeaviestSubtreeForkChoice) (k : SlotHashKey)
    : option bool :=
  ForkChoice.is_duplicate_confirmed <$> fork_infos self !! k.
Definition is_unconfirmed_duplicate (self : HeaviestSubtreeForkChoice) (k : SlotHashKey)
    : option bool :=
  (λ i, Info.is_unconfirmed_duplicate i k.1) <$> fork_infos self !! k.
Definition is_candidate (self : HeaviestSubtreeForkChoice) (k : SlotHashKey) : option bool :=
  Info.is_candidate <$> fork_infos self !! k.

Definition max_by_weight (self : HeaviestSubtreeForkChoice) (slot1 slot2 : SlotHashKey)
    : outcome comparison :=
  weight1 ← unwrap (stake_voted_subtree self slot1);
  weight2 ← unwrap (stake_voted_subtree self slot2);
  Ret (if weight1 =? weight2 then CompOpp (cmp slot1 slot2) else weight1 ?= weight2).

(** What [ancestor_iterator] yields: the parents of a node up to the root. A chain
    of parents has no more than all nodes, so that many steps are enough. *)
Fixpoint ancestor_list (fuel : nat) (self : HeaviestSubtreeForkChoice) (k : SlotHashKey)
    : outcome (list SlotHashKey) :=
  match fuel with
  | O => OutOfFuel
  | S fuel =>
      match parent self k with
      | None => Ret []
      | Some p => l ← ancestor_list fuel self p; Ret (p :: l)
      end
  end.
Definition ancestor_iterator (self : HeaviestSubtreeForkChoice) (k : SlotHashKey)
    : outcome (list SlotHashKey) :=
  ancestor_list (S (size (fork_infos self))) self k.

Definition is_strict_ancestor (self : HeaviestSubtreeForkChoice)
    (maybe_ancestor_key node_key : SlotHashKey) : outcome bool :=
  if decide (maybe_ancestor_key = node_key) then Ret false
  else if node_key.1 <? maybe_ancestor_key.1 then Ret false
  else
    l ← ancestor_iterator self node_key;
    Ret (existsb (λ a, (a.1 =? maybe_ancestor_key.1) && (a.2 =? maybe_ancestor_key.2)) l).

(** ** Traversal *)

(** The loop of [subtree_diff]. The stack has its top first; the children of a
    node are pushed in order, so the last one is on top. Every node is popped at
    most once. *)
Fixpoint subtree_loop (fuel : nat) (self : HeaviestSubtreeForkChoice) (root2 : SlotHashKey)
    (pending_keys : list SlotHashKey) (reachable_set : gset SlotHashKey)
    : outcome (gset SlotHashKey) :=
  match fuel with
  | O => OutOfFuel
  | S fuel =>
      match pending_keys with
      | [] => Ret reachable_set
      | current_key :: pending_keys =>
          if decide (current_key = root2)
          then subtree_loop fuel self root2 pending_keys reachable_set
          else
            cs ← unwrap (children self current_key);
            subtree_loop fuel self root2 (rev cs ++ pending_keys) ({[current_key]} ∪ reachable_set)
      end
  end.
Definition subtree_diff (self : HeaviestSubtreeForkChoice) (root1 root2 : SlotHashKey)
    : outcome (gset SlotHashKey) :=
  if negb (contains_block self root1) then Ret ∅
  else subtree_loop (S (size (fork_infos self))) self root2 [root1] ∅.

(** ** New leaves *)

(** The loop of [is_best_child] over the children of the parent. *)
Fixpoint no_better_child (self : HeaviestSubtreeForkChoice) (cs : list SlotHashKey)
    (maybe_best_child : SlotHashKey) (maybe_best_child_weight : Z) : outcome bool :=
  match cs with
  | [] => Ret true
  | child :: cs =>
      child_weight ← unwrap (stake_voted_subtree self child);
      candidate ← unwrap (is_candidate self child);
      if negb candidate then no_better_child self cs maybe_best_child maybe_best_child_weight
      else if (maybe_best_child_weight <? child_weight) ||
              ((maybe_best_child_weight =? child_weight) && ltb child maybe_best_child)
      then Ret false
      else no_better_child self cs maybe_best_child maybe_best_child_weight
  end.

Definition is_best_child (self : HeaviestSubtreeForkChoice) (maybe_best_child : SlotHashKey)
    : outcome bool :=
  weight ← unwrap (stake_voted_subtree self maybe_best_child);
  match parent self maybe_best_child with
  | None => Ret true
  | Some p =>
      cs ← unwrap (children self p);
      no_better_child self cs maybe_best_child weight
  end.

(** The loop of [is_deepest_child]. *)
Fixpoint no_deeper_child (self : HeaviestSubtreeForkChoice) (cs : list SlotHashKey)
    (maybe_deepest_child : SlotHashKey) (weight h : Z) : outcome bool :=
  match cs with
  | [] => Ret true
  | child :: cs =>
      child_height ← unwrap (height self child);
      child_weight ← unwrap (stake_voted_subtree self child);
      match child_height ?= h, child_weight ?= weight, cmp child maybe_deepest_child with
      | Gt, _, _ => Ret false
      | Eq, Gt, _ => Ret false
      | Eq, Eq, Lt => Ret false
      | _, _, _ => no_deeper_child self cs maybe_deepest_child weight h
      end
  end.

Definition is_deepest_child (self : HeaviestSubtreeForkChoice) (maybe_deepest_child : SlotHashKey)
    : outcome bool :=
  weight ← unwrap (stake_voted_subtree self maybe_deepest_child);
  h ← unwrap (height self maybe_deepest_child);
  match parent self maybe_deepest_child with
  | None => Ret true
  | Some p =>
      cs ← unwrap (children self p);
      no_deeper_child self cs maybe_deepest_child weight h
  end.

(** The two loops of [propagate_new_leaf], which walk up the parents. *)
Fixpoint propagate_best (fuel : nat) (leaf parent_best : SlotHashKey)
    (ancestor : option SlotHashKey) (self : HeaviestSubtreeForkChoice)
    : outcome HeaviestSubtreeForkChoice :=
  match fuel with
  | O => OutOfFuel
  | S fuel =>
      match ancestor with
      | None => Ret self
      | Some a =>
          i ← unwrap (fork_infos self !! a);
          if decide (ForkChoice.best_slot i = parent_best)
          then propagate_best fuel leaf parent_best (ForkChoice.parent i)
                 (update a (Info.set_best leaf i) self)
          else Ret self
      end
  end.

Fixpoint propagate_deepest (fuel : nat) (leaf current_child : SlotHashKey) (current_height : Z)
    (ancestor : option SlotHashKey) (self : HeaviestSubtreeForkChoice)
    : outcome HeaviestSubtreeForkChoice :=
  match fuel with
  | O => OutOfFuel
  | S fuel =>
      match ancestor with
      | None => Ret self
      | Some a =>
          deepest ← is_deepest_child self current_child;
          if negb deepest then Ret self
          else
            i ← unwrap (fork_infos self !! a);
            h ← add_ usize_MAX current_height 1;
            propagate_deepest fuel leaf a h (ForkChoice.parent i)
              (update a (Info.set_deepest leaf h i) self)
      end
  end.

Definition propagate_new_leaf (slot_hash_key parent_slot_hash_key : SlotHashKey)
    (self : HeaviestSubtreeForkChoice) : outcome HeaviestSubtreeForkChoice :=
  parent_best ← unwrap (best_slot self parent_slot_hash_key);
  best ← is_best_child self slot_hash_key;
  let fuel := S (size (fork_infos self)) in
  self ← (if best : bool
          then propagate_best fuel slot_hash_key parent_best (Some parent_slot_hash_key) self
          else Ret self);
  propagate_deepest fuel slot_hash_key slot_hash_key 1 (Some parent_slot_hash_key) self.

Definition new_leaf_info (k : SlotHashKey) (p : option SlotHashKey) (inv : option Slot)
    : ForkInfo := {|
  ForkChoice.stake_voted_at := 0;
  ForkChoice.stake_voted_subtree := 0;
  ForkChoice.height := 1;
  ForkChoice.best_slot := k;
  ForkChoice.deepest_slot := k;
  ForkChoice.parent := p;
  ForkChoice.children := [];
  ForkChoice.latest_invalid_ancestor := inv;
  ForkChoice.is_duplicate_confirmed := negb (is_some p) |}.

Definition add_new_leaf_slot (slot_hash_key : SlotHashKey) (p : option SlotHashKey)
    (self : HeaviestSubtreeForkChoice) : outcome HeaviestSubtreeForkChoice :=
  if contains_block self slot_hash_key then Ret self
  else
    let inv := p ≫= latest_invalid_ancestor self in
    let self := update slot_hash_key (new_leaf_info slot_hash_key p inv) self in
    match p with
    | None => Ret self
    | Some p =>
        i ← unwrap (fork_infos self !! p);
        let self := update p (Info.set_links (ForkChoice.parent i)
                      (set_insert slot_hash_key (ForkChoice.children i)) i) self in
        propagate_new_leaf slot_hash_key p self
    end.

Definition new (tree_root : SlotHashKey) : outcome HeaviestSubtreeForkChoice :=
  add_new_leaf_slot tree_root None
    {| fork_infos := ∅; latest_votes := ∅; tree_root := tree_root |}.

(** What [new_from_frozen_banks] reads of a bank. *)
Record FrozenBank := {
  is_frozen : bool;
  bank_slot : Slot;
  bank_hash : Hash;
  parent_slot : Slot;
  parent_hash : Hash;
}.

Fixpoint add_frozen_banks (root : SlotHashKey) (frozen_banks : list FrozenBank) (prev_slot : Slot)
    (self : HeaviestSubtreeForkChoice) : outcome HeaviestSubtreeForkChoice :=
  match frozen_banks with
  | [] => Ret self
  | bank :: frozen_banks =>
      assert_ (is_frozen bank) ;;
      if root.1 <? bank_slot bank then
        assert_ (prev_slot <? bank_slot bank) ;;
        assert_ (negb (bank_hash bank =? 0)) ;;
        assert_ (negb (parent_hash bank =? 0)) ;;
        self ← add_new_leaf_slot (bank_slot bank, bank_hash bank)
                 (Some (parent_slot bank, parent_hash bank)) self;
        add_frozen_banks root frozen_banks (bank_slot bank) self
      else add_frozen_banks root frozen_banks prev_slot self
  end.

Definition new_from_frozen_banks (root : SlotHashKey) (frozen_banks : list FrozenBank)
    : outcome HeaviestSubtreeForkChoice :=
  self ← new root;
  add_frozen_banks root frozen_banks root.1 self.

Definition add_root_parent (root_parent : SlotHashKey) (self : HeaviestSubtreeForkChoice)
    : outcome HeaviestSubtreeForkChoice :=
  assert_ (root_parent.1 <? (tree_root self).1) ;;
  assert_ (negb (contains_block self root_parent)) ;;
  root_info ← unwrap (fork_infos self !! tree_root self);
  h ← add_ usize_MAX (ForkChoice.height root_info) 1;
  let root_parent_info := {|
    ForkChoice.stake_voted_at := 0;
    ForkChoice.stake_voted_subtree := ForkChoice.stake_voted_subtree root_info;
    ForkChoice.height := h;
    ForkChoice.best_slot := ForkChoice.best_slot root_info;
    ForkChoice.deepest_slot := ForkChoice.deepest_slot root_info;
    ForkChoice.parent := None;
    ForkChoice.children := [tree_root self];
    ForkChoice.latest_invalid_ancestor := None;
    ForkChoice.is_duplicate_confirmed := ForkChoice.is_duplicate_confirmed root_info |} in
  let self := update (tree_root self)
    (Info.set_links (Some root_parent) (ForkChoice.children root_info) root_info) self in
  Ret (set_root root_parent (update root_parent root_parent_info self)).

(** ** Aggregation *)

(** The variables of the loop of [aggregate_slot]. *)
Record Aggregate := {
  agg_stake_voted_subtree : Z;
  agg_is_duplicate_confirmed : bool;
  best_child_stake_voted_subtree : Z;
  best_child_slot_key : SlotHashKey;
  best_slot_hash_key : SlotHashKey;
  deepest_child_height : Z;
  deepest_child_stake_voted_subtree : Z;
  deepest_child_slot_key : SlotHashKey;
  deepest_slot_hash_key : SlotHashKey;
}.

Definition aggregate_init (k : SlotHashKey) (i : ForkInfo) : Aggregate := {|
  agg_stake_voted_subtree := ForkChoice.stake_voted_at i;
  agg_is_duplicate_confirmed := false;
  best_child_stake_voted_subtree := 0;
  best_child_slot_key := k;
  best_slot_hash_key := k;
  deepest_child_height := 0;
  deepest_child_stake_voted_subtree := 0;
  deepest_child_slot_key := k;
  deepest_slot_hash_key := k |}.

Definition aggregate_child (k child_key : SlotHashKey) (c : ForkInfo) (a : Aggregate)
    : outcome Aggregate :=
  let w := ForkChoice.stake_voted_subtree c in
  let h := ForkChoice.height c in
  subtree ← add_ u64_MAX (agg_stake_voted_subtree a) w;
  let better := Info.is_candidate c &&
    (bool_decide (best_child_slot_key a = k) ||
     (best_child_stake_voted_subtree a <? w) ||
     ((w =? best_child_stake_voted_subtree a) && ltb child_key (best_child_slot_key a))) in
  let deeper :=
    match bool_decide (deepest_child_slot_key a = k), h ?= deepest_child_height a,
          w ?= deepest_child_stake_voted_subtree a, cmp child_key (deepest_child_slot_key a) with
    | true, _, _, _ | _, Gt, _, _ | _, Eq, Gt, _ | _, Eq, Eq, Lt => true
    | _, _, _, _ => false
    end in
  Ret {|
    agg_stake_voted_subtree := subtree;
    agg_is_duplicate_confirmed :=
      agg_is_duplicate_confirmed a || ForkChoice.is_duplicate_confirmed c;
    best_child_stake_voted_subtree := if better then w else best_child_stake_voted_subtree a;
    best_child_slot_key := if better then child_key else best_child_slot_key a;
    best_slot_hash_key := if better then ForkChoice.best_slot c else best_slot_hash_key a;
    deepest_child_height := if deeper then h else deepest_child_height a;
    deepest_child_stake_voted_subtree :=
      if deeper then w else deepest_child_stake_voted_subtree a;
    deepest_child_slot_key := if deeper then child_key else deepest_child_slot_key a;
    deepest_slot_hash_key := if deeper then ForkChoice.deepest_slot c else deepest_slot_hash_key a |}.

Definition aggregate_children (self : HeaviestSubtreeForkChoice) (k : SlotHashKey)
    (cs : list SlotHashKey) (a : Aggregate) : outcome Aggregate :=
  for_each (λ child_key a,
    c ← unwrap (fork_infos self !! child_key); aggregate_child k child_key c a) cs a.

Definition aggregate_slot (slot_hash_key : SlotHashKey) (self : HeaviestSubtreeForkChoice)
    : outcome HeaviestSubtreeForkChoice :=
  match fork_infos self !! slot_hash_key with
  | None => Ret self
  | Some i =>
      a ← aggregate_children self slot_hash_key (ForkChoice.children i)
            (aggregate_init slot_hash_key i);
      h ← add_ usize_MAX (deepest_child_height a) 1;
      let i := if agg_is_duplicate_confirmed a then Info.set_duplicate_confirmed i else i in
      let i := Info.set_stakes (ForkChoice.stake_voted_at i) (agg_stake_voted_subtree a) i in
      let i := Info.set_best (best_slot_hash_key a) i in
      let i := Info.set_deepest (deepest_slot_hash_key a) h i in
      Ret (update slot_hash_key i self)
  end.

Definition mark_fork_valid (fork_to_modify_key : SlotHashKey) (valid_slot : Slot)
    (self : HeaviestSubtreeForkChoice) : HeaviestSubtreeForkChoice :=
  match fork_infos self !! fork_to_modify_key with
  | None => self
  | Some i =>
      let i := Info.update_with_newly_valid_ancestor valid_slot i in
      let i := if fork_to_modify_key.1 =? valid_slot
               then Info.set_validity (ForkChoice.latest_invalid_ancestor i) true i else i in
      update fork_to_modify_key i self
  end.

Definition mark_fork_invalid (fork_to_modify_key : SlotHashKey) (invalid_slot : Slot)
    (self : HeaviestSubtreeForkChoice) : outcome HeaviestSubtreeForkChoice :=
  match fork_infos self !! fork_to_modify_key with
  | None => Ret self
  | Some i =>
      i ← Info.update_with_newly_invalid_ancestor invalid_slot i;
      Ret (update fork_to_modify_key i self)
  end.

Definition add_slot_stake (k : SlotHashKey) (stake : Z) (self : HeaviestSubtreeForkChoice)
    : outcome HeaviestSubtreeForkChoice :=
  match fork_infos self !! k with
  | None => Ret self
  | Some i =>
      at_ ← add_ u64_MAX (ForkChoice.stake_voted_at i) stake;
      subtree ← add_ u64_MAX (ForkChoice.stake_voted_subtree i) stake;
      Ret (update k (Info.set_stakes at_ subtree i) self)
  end.

Definition subtract_slot_stake (k : SlotHashKey) (stake : Z) (self : HeaviestSubtreeForkChoice)
    : outcome HeaviestSubtreeForkChoice :=
  match fork_infos self !! k with
  | None => Ret self
  | Some i =>
      at_ ← sub_ (ForkChoice.stake_voted_at i) stake;
      subtree ← sub_ (ForkChoice.stake_voted_subtree i) stake;
      Ret (update k (Info.set_stakes at_ subtree i) self)
  end.

(** ** Batches of updates *)

Definition process_update_operation (x : (SlotHashKey * UpdateLabel) * UpdateOperation)
    (self : HeaviestSubtreeForkChoice) : outcome HeaviestSubtreeForkChoice :=
  let '((slot_hash_key, _), operation) := x in
  match operation with
  | OpMarkValid valid_slot => Ret (mark_fork_valid slot_hash_key valid_slot self)
  | OpMarkInvalid invalid_slot => mark_fork_invalid slot_hash_key invalid_slot self
  | OpAggregate => aggregate_slot slot_hash_key self
  | OpAdd stake => add_slot_stake slot_hash_key stake self
  | OpSubtract stake => subtract_slot_stake slot_hash_key stake self
  end.

Definition process_update_operations (update_operations : UpdateOperations)
    (self : HeaviestSubtreeForkChoice) : outcome HeaviestSubtreeForkChoice :=
  for_each process_update_operation (rev update_operations) self.

(** [do_insert_aggregate_operation]: whether the operation was new. *)
Definition do_insert_aggregate_operation (modify_fork_validity : option UpdateOperation)
    (slot_hash_key : SlotHashKey) (update_operations : UpdateOperations)
    : bool * UpdateOperations :=
  match map_get (slot_hash_key, LAggregate) update_operations with
  | Some _ => (false, update_operations)
  | None =>
      let update_operations :=
        match modify_fork_validity with
        | Some (OpMarkValid slot) =>
            map_insert (slot_hash_key, LMarkValid slot) (OpMarkValid slot) update_operations
        | Some (OpMarkInvalid slot) =>
            map_insert (slot_hash_key, LMarkInvalid slot) (OpMarkInvalid slot) update_operations
        | _ => update_operations
        end in
      (true, map_insert (slot_hash_key, LAggregate) OpAggregate update_operations)
  end.

(** The loop over the ancestors, which stops at one that is already there. *)
Fixpoint insert_aggregates (modify_fork_validity : option UpdateOperation)
    (ancestors : list SlotHashKey) (update_operations : UpdateOperations) : UpdateOperations :=
  match ancestors with
  | [] => update_operations
  | a :: ancestors =>
      let '(inserted, update_operations) :=
        do_insert_aggregate_operation modify_fork_validity a update_operations in
      if inserted : bool then insert_aggregates modify_fork_validity ancestors update_operations
      else update_operations
  end.

Definition do_insert_aggregate_operations_across_ancestors (self : HeaviestSubtreeForkChoice)
    (modify_fork_validity : option UpdateOperation) (slot_hash_key : SlotHashKey)
    (update_operations : UpdateOperations) : outcome UpdateOperations :=
  ancestors ← ancestor_iterator self slot_hash_key;
  Ret (insert_aggregates modify_fork_validity ancestors update_operations).

Definition insert_aggregate_operations (self : HeaviestSubtreeForkChoice)
    (slot_hash_key : SlotHashKey) (update_operations : UpdateOperations)
    : outcome UpdateOperations :=
  do_insert_aggregate_operations_across_ancestors self None slot_hash_key update_operations.

(** ** Votes *)

Section votes.
(** [epoch_schedule.get_epoch], and the stakes of the vote accounts per epoch. *)
Context (get_epoch : Slot → Z) (epoch_stakes : gmap Z (Pubkey → Z)).

Definition vote_stake (pubkey : Pubkey) (slot : Slot) : Z :=
  match epoch_stakes !! get_epoch slot with
  | Some vote_account_stake => vote_account_stake pubkey
  | None => 0
  end.

(** [update_operations.entry(k).and_modify(update_stake).or_insert(op)]. *)
Definition entry_add_stake (k : SlotHashKey * UpdateLabel) (op : UpdateOperation) (stake : Z)
    (update_operations : UpdateOperations) : outcome UpdateOperations :=
  match map_get k update_operations with
  | Some old => new ← update_stake old stake; Ret (map_insert k new update_operations)
  | None => Ret (map_insert k op update_operations)
  end.

(** What is kept between two votes of a batch. *)
Record Generating := {
  gen_operations : UpdateOperations;
  gen_observed : gset Pubkey;
  gen_votes : gmap Pubkey SlotHashKey;
}.

Definition generate_vote (self : HeaviestSubtreeForkChoice) (pubkey_vote : Pubkey * SlotHashKey)
    (g : Generating) : outcome Generating :=
  let '(pubkey, new_vote) := pubkey_vote in
  if new_vote.1 <? (tree_root self).1 then Ret g
  else
    assert_ (negb (bool_decide (pubkey ∈ gen_observed g))) ;;
    let observed := {[pubkey]} ∪ gen_observed g in
    let latest := gen_votes g !! pubkey in
    let outdated := match latest with
      | Some old => (new_vote.1 <? old.1) || ((new_vote.1 =? old.1) && (old.2 <=? new_vote.2))
      | None => false
      end in
    if outdated then
      Ret {| gen_operations := gen_operations g; gen_observed := observed; gen_votes := gen_votes g |}
    else
      ops ← match latest with
        | Some old =>
            assert_ (if new_vote.1 =? old.1 then new_vote.2 <? old.2 else old.1 <? new_vote.1) ;;
            let stake := vote_stake pubkey old.1 in
            if 0 <? stake then
              ops ← entry_add_stake (old, LSubtract) (OpSubtract stake) stake (gen_operations g);
              insert_aggregate_operations self old ops
            else Ret (gen_operations g)
        | None => Ret (gen_operations g)
        end;
      let stake := vote_stake pubkey new_vote.1 in
      ops ← entry_add_stake (new_vote, LAdd) (OpAdd stake) stake ops;
      ops ← insert_aggregate_operations self new_vote ops;
      Ret {| gen_operations := ops; gen_observed := observed;
             gen_votes := <[pubkey := new_vote]> (gen_votes g) |}.

Definition generate_update_operations (pubkey_votes : list (Pubkey * SlotHashKey))
    (self : HeaviestSubtreeForkChoice) : outcome (UpdateOperations * HeaviestSubtreeForkChoice) :=
  g ← for_each (generate_vote self) pubkey_votes
        {| gen_operations := []; gen_observed := ∅; gen_votes := latest_votes self |};
  Ret (gen_operations g, set_votes (gen_votes g) self).

Definition add_votes (pubkey_votes : list (Pubkey * SlotHashKey))
    (self : HeaviestSubtreeForkChoice) : outcome (SlotHashKey * HeaviestSubtreeForkChoice) :=
  '(update_operations, self) ← generate_update_operations pubkey_votes self;
  self ← process_update_operations update_operations self;
  best ← best_overall_slot self;
  Ret (best, self).

(** The nodes of [other] in order of their keys, each with its parent. *)
Definition merge_nodes (other : HeaviestSubtreeForkChoice) (merge_leaf : SlotHashKey)
    : list (SlotHashKey * SlotHashKey) :=
  fold_right (λ x m, map_insert x.1 (default merge_leaf (ForkChoice.parent x.2)) m) []
    (map_to_list (fork_infos other)).

Definition merge (other : HeaviestSubtreeForkChoice) (merge_leaf : SlotHashKey)
    (self : HeaviestSubtreeForkChoice) : outcome HeaviestSubtreeForkChoice :=
  assert_ (contains_block self merge_leaf) ;;
  self ← for_each (λ x, add_new_leaf_slot x.1 (Some x.2)) (merge_nodes other merge_leaf) self;
  '(_, self) ← add_votes (map_to_list (latest_votes other)) self;
  Ret self.

End votes.

(** ** Validity of forks *)

(** The loop that notifies a set of nodes; a set has no order, and the operations
    end up in a sorted map. *)
Definition insert_marks (mark : UpdateOperation) (keys : gset SlotHashKey)
    (update_operations : UpdateOperations) : UpdateOperations :=
  fold_left (λ ops k, (do_insert_aggregate_operation (Some mark) k ops).2)
    (elements keys) update_operations.

Definition mark_fork_invalid_candidate (invalid_slot_hash_key : SlotHashKey)
    (self : HeaviestSubtreeForkChoice) : outcome HeaviestSubtreeForkChoice :=
  match fork_infos self !! invalid_slot_hash_key with
  | None => Ret self
  | Some i =>
      assert_ (negb (ForkChoice.is_duplicate_confirmed i)) ;;
      subtree ← subtree_diff self invalid_slot_hash_key key_default;
      let ops := insert_marks (OpMarkInvalid invalid_slot_hash_key.1) subtree [] in
      ops ← insert_aggregate_operations self invalid_slot_hash_key ops;
      process_update_operations ops self
  end.

(** The nodes of a list that are not duplicate confirmed. *)
Fixpoint not_confirmed (self : HeaviestSubtreeForkChoice) (keys : list SlotHashKey)
    : outcome (list SlotHashKey) :=
  match keys with
  | [] => Ret []
  | k :: keys =>
      confirmed ← unwrap (is_duplicate_confirmed self k);
      l ← not_confirmed self keys;
      Ret (if confirmed : bool then l else k :: l)
  end.

Definition mark_fork_valid_candidate (valid_slot_hash_key : SlotHashKey)
    (self : HeaviestSubtreeForkChoice)
    : outcome (list SlotHashKey * HeaviestSubtreeForkChoice) :=
  ancestors ← ancestor_iterator self valid_slot_hash_key;
  newly_duplicate_confirmed_ancestors ← not_confirmed self (valid_slot_hash_key :: ancestors);
  subtree ← subtree_diff self valid_slot_hash_key key_default;
  let ops := insert_marks (OpMarkValid valid_slot_hash_key.1) subtree [] in
  ops ← insert_aggregate_operations self valid_slot_hash_key ops;
  self ← process_update_operations ops self;
  Ret (newly_duplicate_confirmed_ancestors, self).

(** ** New roots and subtrees *)

(** [fork_infos.remove(k).expect(..)]. *)
Definition remove_node (k : SlotHashKey) (self : HeaviestSubtreeForkChoice)
    : outcome HeaviestSubtreeForkChoice :=
  _ ← unwrap (fork_infos self !! k);
  Ret (set_infos (delete k (fork_infos self)) self).

Definition set_tree_root (new_root : SlotHashKey) (self : HeaviestSubtreeForkChoice)
    : outcome HeaviestSubtreeForkChoice :=
  remove_set ← subtree_diff self (tree_root self) new_root;
  self ← for_each remove_node (elements remove_set) self;
  i ← unwrap (fork_infos self !! new_root);
  Ret (set_root new_root (update new_root (Info.set_links None (ForkChoice.children i) i) self)).

(** The loop of [split_off] that moves the nodes of a subtree to a new tree. *)
Fixpoint split_loop (fuel : nat) (to_visit : list SlotHashKey)
    (split_tree_fork_infos : gmap SlotHashKey ForkInfo) (self : HeaviestSubtreeForkChoice)
    : outcome (gmap SlotHashKey ForkInfo * HeaviestSubtreeForkChoice) :=
  match fuel with
  | O => OutOfFuel
  | S fuel =>
      match to_visit with
      | [] => Ret (split_tree_fork_infos, self)
      | current_node :: to_visit =>
          i ← unwrap (fork_infos self !! current_node);
          split_loop fuel (rev (ForkChoice.children i) ++ to_visit)
            (<[current_node := i]> split_tree_fork_infos)
            (set_infos (delete current_node (fork_infos self)) self)
      end
  end.

Definition remove_child (p child : SlotHashKey) (self : HeaviestSubtreeForkChoice)
    : outcome (bool * HeaviestSubtreeForkChoice) :=
  i ← unwrap (fork_infos self !! p);
  let '(removed, cs) := set_remove child (ForkChoice.children i) in
  Ret (removed, update p (Info.set_links (ForkChoice.parent i) cs i) self).

Definition split_off (slot_hash_key : SlotHashKey) (self : HeaviestSubtreeForkChoice)
    : outcome (HeaviestSubtreeForkChoice * HeaviestSubtreeForkChoice) :=
  assert_ (negb (bool_decide (tree_root self = slot_hash_key))) ;;
  split_tree_root ← unwrap (fork_infos self !! slot_hash_key);
  p ← unwrap (ForkChoice.parent split_tree_root);
  ops ← insert_aggregate_operations self slot_hash_key [];
  '(removed, self) ← remove_child p slot_hash_key self;
  assert_ removed ;;
  self ← process_update_operations ops self;
  '(split_infos, self) ←
    split_loop (S (size (fork_infos self))) [slot_hash_key] ∅ self;
  '(_, self) ← remove_child p slot_hash_key self;
  let split_infos := <[slot_hash_key :=
    Info.set_links None (ForkChoice.children split_tree_root) split_tree_root]> split_infos in
  let split_votes := filter (λ x, is_Some (split_infos !! x.2)) (latest_votes self) in
  let self := set_votes (filter (λ x, is_Some (fork_infos self !! x.2)) (latest_votes self)) self in
  Ret ({| fork_infos := split_infos; latest_votes := split_votes; tree_root := slot_hash_key |},
       self).

(** The loop of [purge_prune]: what is purged, the subtrees split off, and whether
    the new root was met. *)
Fixpoint purge_loop (fuel : nat) (new_root : SlotHashKey) (to_visit purged_slots : list SlotHashKey)
    (pruned_subtrees : list HeaviestSubtreeForkChoice) (found : bool)
    (self : HeaviestSubtreeForkChoice)
    : outcome (list SlotHashKey * list HeaviestSubtreeForkChoice * bool * HeaviestSubtreeForkChoice) :=
  match fuel with
  | O => OutOfFuel
  | S fuel =>
      match to_visit with
      | [] => Ret (purged_slots, pruned_subtrees, found, self)
      | cur_slot :: to_visit =>
          if decide (cur_slot = new_root)
          then purge_loop fuel new_root to_visit purged_slots pruned_subtrees true self
          else if ltb cur_slot new_root then
            cs ← unwrap (children self cur_slot);
            purge_loop fuel new_root (rev cs ++ to_visit) (purged_slots ++ [cur_slot])
              pruned_subtrees found self
          else
            '(subtree, self) ← split_off cur_slot self;
            purge_loop fuel new_root to_visit purged_slots (pruned_subtrees ++ [subtree]) found self
      end
  end.

Definition purge_prune (new_root : SlotHashKey) (self : HeaviestSubtreeForkChoice)
    : outcome (list SlotHashKey * list HeaviestSubtreeForkChoice * HeaviestSubtreeForkChoice) :=
  '(purged_slots, pruned_subtrees, found, self) ←
    purge_loop (S (size (fork_infos self))) new_root [tree_root self] [] [] false self;
  self ← for_each remove_node purged_slots self;
  self ← (if found : bool then
            i ← unwrap (fork_infos self !! new_root);
            Ret (set_root new_root
                   (update new_root (Info.set_links None (ForkChoice.children i) i) self))
          else Ret self);
  Ret (purged_slots, pruned_subtrees, self).

(** ** Selection *)

(** [heaviest_slot_on_same_voted_fork], given the tower's last vote and whether it
    is stray. *)
Definition heaviest_slot_on_same_voted_fork (self : HeaviestSubtreeForkChoice)
    (last_voted_slot_hash : option SlotHashKey) (is_stray_last_vote : bool)
    : outcome (option SlotHashKey) :=
  match last_voted_slot_hash with
  | None => Ret None
  | Some last =>
      match is_candidate self last with
      | Some true => Ret (best_slot self last)
      | Some false => Ret (deepest_slot self last)
      | None => if negb is_stray_last_vote then Panic else Ret None
      end
  end.

(** [select_forks]; [bank_forks] gives the hash of the bank of a slot. The first
    component is unwrapped from [get_with_checked_hash], which asserts the hash. *)
Definition select_forks (self : HeaviestSubtreeForkChoice)
    (last_voted_slot_hash : option SlotHashKey) (is_stray_last_vote : bool)
    (bank_forks : gmap Slot Hash) : outcome (SlotHashKey * option SlotHashKey) :=
  best ← best_overall_slot self;
  hash ← unwrap (bank_forks !! best.1);
  assert_ (hash =? best.2) ;;
  same_fork ← heaviest_slot_on_same_voted_fork self last_voted_slot_hash is_stray_last_vote;
  Ret (best, slot_hash ← same_fork;
             match bank_forks !! slot_hash.1 with
             | Some hash => if hash =? slot_hash.2 then Some slot_hash else None
             | None => None
             end).

End Fork.
