(* ===== verification/ForkTree.v ===== *)
(** The tree of blocks behind the fork choice: when a map of nodes is a tree, the
    ancestors of a block, and the totals that votes sum up to in a subtree. *)

From S2P Require Import Prelude BTree ForkChoice.

Abbreviation Nodes := (gmap SlotHashKey ForkInfo) (only parsing).

Definition par (m : Nodes) (k : SlotHashKey) : option SlotHashKey := m !! k ≫= parent.
Definition kids (m : Nodes) (k : SlotHashKey) : list SlotHashKey :=
  from_option children [] (m !! k).

(** Parents and children agree, a child is in a later slot than its parent, and
    every node but the root has a parent. *)
Record Tree (r : SlotHashKey) (m : Nodes) : Prop := {
  tree_has_root : ∃ i, m !! r = Some i ∧ parent i = None;
  tree_parent : ∀ k, is_Some (m !! k) → k = r ∨ ∃ p, par m k = Some p ∧ k ∈ kids m p;
  tree_child : ∀ p c, c ∈ kids m p → p.1 < c.1 ∧ par m c = Some p;
  tree_sorted : ∀ p, StronglySorted lt (kids m p);
}.

(** The strict ancestors of a node, nearest first. A chain of parents is no longer
    than there are nodes. *)
Fixpoint chain (fuel : nat) (m : Nodes) (k : SlotHashKey) : list SlotHashKey :=
  match fuel with
  | O => []
  | S fuel => match par m k with None => [] | Some p => p :: chain fuel m p end
  end.
Definition ancs (m : Nodes) (k : SlotHashKey) : list SlotHashKey := chain (size m) m k.

(** [k] is in the subtree of [n]. *)
Definition below (m : Nodes) (n k : SlotHashKey) : Prop := n = k ∨ n ∈ ancs m k.
#[global] Instance below_dec m n k : Decision (below m n k).
Proof. unfold below. apply _. Defined.

Lemma par_Some m k p : par m k = Some p ↔ ∃ i, m !! k = Some i ∧ parent i = Some p.
Proof. unfold par. destruct (m !! k); simpl; naive_solver. Qed.

Lemma kids_Some m k i : m !! k = Some i → kids m k = children i.
Proof. intros H. unfold kids. by rewrite H. Qed.

Lemma kids_in m p c : c ∈ kids m p → is_Some (m !! p).
Proof. unfold kids. destruct (m !! p); simpl; [eauto|set_solver]. Qed.

(** * Measures *)

(** How many nodes are in earlier, and in later slots. *)
Definition before_count (m : Nodes) (k : SlotHashKey) : nat := size (filter (λ x, x.1.1 < k.1) m).
Definition after_count (m : Nodes) (k : SlotHashKey) : nat := size (filter (λ x, k.1 < x.1.1) m).

Lemma filter_size_lt (P Q : SlotHashKey * ForkInfo → Prop)
    `{∀ x, Decision (P x), ∀ x, Decision (Q x)} (m : Nodes) k i :
  m !! k = Some i → (∀ x, P x → Q x) → Q (k, i) → ¬ P (k, i) →
  (size (filter P m) < size (filter Q m))%nat.
Proof.
  intros Hi HPQ HQ HP. rewrite <-!size_dom. apply subset_size. split.
  - intros x [j Hj]%elem_of_dom. apply map_lookup_filter_Some in Hj as [Hj Hx].
    apply elem_of_dom. exists j. apply map_lookup_filter_Some. naive_solver.
  - intros Hsub. assert (k ∈ dom (filter P m)) as [j Hj]%elem_of_dom.
    { apply Hsub, elem_of_dom. exists i. by apply map_lookup_filter_Some. }
    apply map_lookup_filter_Some in Hj as [Hj ?]. congruence.
Qed.

Section tree.
Context {r : SlotHashKey} {m : Nodes} (HT : Tree r m).

Lemma par_kids k p : par m k = Some p → k ∈ kids m p ∧ p.1 < k.1 ∧ is_Some (m !! p).
Proof.
  intros Hp. pose proof Hp as (i & Hi & Hpar)%par_Some.
  destruct (tree_parent r m HT k) as [->|(p' & Hp' & Hk)]; [eauto| |].
  - destruct (tree_has_root r m HT) as (j & Hj & Hn). congruence.
  - simplify_eq/=. split_and!; [done|by apply (tree_child r m HT)|by eapply kids_in].
Qed.

Lemma kids_par p c : c ∈ kids m p ↔ par m c = Some p.
Proof. split; [intros H; by apply (tree_child r m HT)|intros H; by apply par_kids]. Qed.

Lemma kid_slot p c : c ∈ kids m p → p.1 < c.1.
Proof. intros H. by apply (tree_child r m HT). Qed.

Lemma kid_node p c : c ∈ kids m p → is_Some (m !! c).
Proof. intros (i & ? & _)%kids_par%par_Some. eauto. Qed.

Lemma root_par : par m r = None.
Proof. destruct (tree_has_root r m HT) as (i & Hi & Hn). unfold par. by rewrite Hi. Qed.

Lemma before_count_par k p : par m k = Some p → (before_count m p < before_count m k)%nat.
Proof.
  intros (_ & Hlt & [i Hp])%par_kids. eapply filter_size_lt; [exact Hp|simpl; intros; lia..].
Qed.

Lemma after_count_kid p c : c ∈ kids m p → (after_count m c < after_count m p)%nat.
Proof.
  intros Hc. pose proof (kid_slot _ _ Hc). destruct (kid_node _ _ Hc) as [i Hi].
  eapply filter_size_lt; [exact Hi|simpl; intros; lia..].
Qed.

(** Induction from the root to the leaves, and from the leaves to the root. *)
Lemma tree_ind_down (P : SlotHashKey → Prop) :
  (∀ k, (∀ p, par m k = Some p → P p) → P k) → ∀ k, P k.
Proof.
  intros IH k. remember (before_count m k) as n eqn:Hn.
  revert k Hn. induction (Nat.lt_wf_0 n) as [n _ IHn]; intros k ->.
  apply IH. intros p Hp. eapply IHn; [|done]. by apply before_count_par.
Qed.

Lemma tree_ind_up (P : SlotHashKey → Prop) :
  (∀ k, (∀ c, c ∈ kids m k → P c) → P k) → ∀ k, P k.
Proof.
  intros IH k. remember (after_count m k) as n eqn:Hn.
  revert k Hn. induction (Nat.lt_wf_0 n) as [n _ IHn]; intros k ->.
  apply IH. intros c Hc. eapply IHn; [|done]. by apply after_count_kid.
Qed.

(** * Ancestors *)

Lemma before_count_size k : (before_count m k ≤ size m)%nat.
Proof.
  unfold before_count. rewrite <-!size_dom. apply subseteq_size.
  intros x [j [Hj _]%map_lookup_filter_Some]%elem_of_dom. by apply elem_of_dom.
Qed.

Lemma chain_fuel k : ∀ f f', (before_count m k ≤ f)%nat → (before_count m k ≤ f')%nat →
  chain f m k = chain f' m k.
Proof.
  induction k as [k IH] using tree_ind_down. intros f f' Hf Hf'.
  destruct (par m k) as [p|] eqn:Hp.
  - pose proof (before_count_par _ _ Hp). destruct f as [|f]; [lia|]. destruct f' as [|f']; [lia|].
    simpl. rewrite Hp. f_equal. apply IH; [done|lia..].
  - destruct f, f'; simpl; by rewrite ?Hp.
Qed.

Lemma ancs_par k p : par m k = Some p → ancs m k = p :: ancs m p.
Proof.
  intros Hp. pose proof (before_count_par _ _ Hp). pose proof (before_count_size k). unfold ancs.
  rewrite (chain_fuel k (size m) (S (size m))) by lia. simpl. by rewrite Hp.
Qed.

Lemma ancs_None k : par m k = None → ancs m k = [].
Proof. unfold ancs. destruct (size m); simpl; [done|]. by intros ->. Qed.

Lemma below_refl k : below m k k.
Proof. by left. Qed.

Lemma below_par n k p : par m k = Some p → below m n k ↔ n = k ∨ below m n p.
Proof. intros Hp. unfold below. rewrite (ancs_par k p Hp). set_solver. Qed.

Lemma below_None n k : par m k = None → below m n k ↔ n = k.
Proof. intros Hp. unfold below. rewrite (ancs_None k Hp). set_solver. Qed.

Lemma below_node n k : below m n k → is_Some (m !! k) → is_Some (m !! n).
Proof.
  induction k as [k IH] using tree_ind_down. destruct (par m k) as [p|] eqn:Hp.
  - intros [->|H]%(below_par _ _ _ Hp) Hk; [done|]. apply (IH p eq_refl H). by eapply par_kids.
  - by intros ->%below_None.
Qed.

Lemma below_slot n k : below m n k → n = k ∨ n.1 < k.1.
Proof.
  induction k as [k IH] using tree_ind_down. destruct (par m k) as [p|] eqn:Hp.
  - intros [->|H]%(below_par _ _ _ Hp); [by left|right].
    apply par_kids in Hp as Hk. destruct (IH p eq_refl H) as [->|]; lia.
  - intros ->%below_None; [by left|done].
Qed.

Lemma below_trans a b c : below m a b → below m b c → below m a c.
Proof.
  intros Hab. induction c as [c IH] using tree_ind_down. destruct (par m c) as [p|] eqn:Hp.
  - intros [->|H]%(below_par _ _ _ Hp); [done|]. apply (below_par _ _ _ Hp). right. by apply IH.
  - by intros ->%below_None.
Qed.

Lemma below_antisym a b : below m a b → below m b a → a = b.
Proof. intros [|]%below_slot [|]%below_slot; (congruence || lia). Qed.

(** Two blocks with a common descendant are on one fork. *)
Lemma below_linear a b k : below m a k → below m b k → below m a b ∨ below m b a.
Proof.
  induction k as [k IH] using tree_ind_down. destruct (par m k) as [p|] eqn:Hp.
  - intros [->|Ha]%(below_par _ _ _ Hp) [->|Hb]%(below_par _ _ _ Hp).
    + left. apply below_refl.
    + right. apply (below_par _ _ _ Hp). by right.
    + left. apply (below_par _ _ _ Hp). by right.
    + by apply (IH p).
  - intros ->%below_None ->%below_None; [left; apply below_refl|done..].
Qed.

Lemma below_kid n c : c ∈ kids m n → below m n c.
Proof. intros Hc%kids_par. apply (below_par _ _ _ Hc). right. apply below_refl. Qed.

Lemma below_root k : is_Some (m !! k) → below m r k.
Proof.
  induction k as [k IH] using tree_ind_down. intros Hk.
  destruct (tree_parent r m HT k Hk) as [->|(p & Hp & Hin)]; [apply below_refl|].
  apply (below_par _ _ _ Hp). right. apply (IH p Hp). by eapply kids_in.
Qed.

(** A strict descendant is below exactly one child. *)
Lemma below_child n k : below m n k → n = k ∨ ∃ c, c ∈ kids m n ∧ below m c k.
Proof.
  induction k as [k IH] using tree_ind_down. destruct (par m k) as [p|] eqn:Hp.
  - intros [->|H]%(below_par _ _ _ Hp); [by left|right].
    destruct (IH p eq_refl H) as [->|(c & Hc & Hb)].
    + exists k. split; [by apply kids_par|apply below_refl].
    + exists c. split; [done|]. apply (below_par _ _ _ Hp). by right.
  - intros ->%below_None; [by left|done].
Qed.

Lemma siblings_below n c c' : c ∈ kids m n → c' ∈ kids m n → below m c c' → c = c'.
Proof.
  intros Hc Hc'%kids_par Hb. apply (below_par _ _ _ Hc') in Hb as [|Hb]; [done|].
  apply kid_slot in Hc. apply below_slot in Hb as [->|]; lia.
Qed.

Lemma below_child_unique n c c' k :
  c ∈ kids m n → c' ∈ kids m n → below m c k → below m c' k → c = c'.
Proof.
  intros Hc Hc' H H'. destruct (below_linear c c' k H H') as [Hb|Hb].
  - by eapply siblings_below.
  - symmetry. by eapply siblings_below.
Qed.

Lemma not_below_child n c : c ∈ kids m n → ¬ below m c n.
Proof. intros Hc [->|]%below_slot; apply kid_slot in Hc; lia. Qed.
End tree.

(** * Trees of the same shape *)

Definition shape (i : ForkInfo) := (parent i, children i).
Definition same_shape (m m' : Nodes) : Prop := ∀ k, shape <$> m !! k = shape <$> m' !! k.

#[global] Instance same_shape_equiv : Equivalence same_shape.
Proof.
  split; [by intros m k|by intros m m' H k|]. intros m1 m2 m3 H1 H2 k. by rewrite (H1 k).
Qed.

Section same_shape.
Context {m m' : Nodes} (HS : same_shape m m').

Lemma same_shape_node k : is_Some (m !! k) ↔ is_Some (m' !! k).
Proof.
  pose proof (HS k) as H. destruct (m !! k), (m' !! k); simplify_eq/=; [|done].
  split; eauto.
Qed.

Lemma same_shape_par k : par m k = par m' k.
Proof.
  pose proof (HS k) as H. unfold par. destruct (m !! k), (m' !! k); by simplify_eq/=.
Qed.

Lemma same_shape_kids k : kids m k = kids m' k.
Proof.
  pose proof (HS k) as H. unfold kids. destruct (m !! k), (m' !! k); by simplify_eq/=.
Qed.

Lemma same_shape_ancs k : ancs m k = ancs m' k.
Proof.
  unfold ancs. assert (size m = size m') as ->.
  { rewrite <-!size_dom. f_equal. apply set_eq. intros x. rewrite !elem_of_dom.
    apply same_shape_node. }
  generalize (size m') as f. intros f. revert k.
  induction f as [|f IH]; intros k; simpl; [done|]. rewrite same_shape_par.
  destruct (par m' k); by rewrite ?IH.
Qed.

Lemma same_shape_below n k : below m n k ↔ below m' n k.
Proof. unfold below. by rewrite same_shape_ancs. Qed.

Lemma same_shape_Tree r : Tree r m → Tree r m'.
Proof.
  intros [Hr Hp Hc Hs]. split.
  - destruct Hr as (i & Hi & Hn). pose proof (HS r) as H. rewrite Hi in H.
    destruct (m' !! r) as [i'|] eqn:E; simplify_eq/=. exists i'. by split; [|congruence].
  - intros k [->|(p & Hk & Hin)]%same_shape_node%Hp; [by left|right].
    exists p. by rewrite <-same_shape_par, <-same_shape_kids.
  - intros p c. rewrite <-same_shape_par, <-same_shape_kids. apply Hc.
  - intros p. rewrite <-same_shape_kids. apply Hs.
Qed.
End same_shape.

(** Replacing a node by one with the same links keeps the shape. *)
Lemma same_shape_insert m k i i' : m !! k = Some i → shape i' = shape i → same_shape (<[k := i']> m) m.
Proof.
  intros Hi Hs k'. destruct (decide (k' = k)) as [->|].
  - rewrite lookup_insert_eq, Hi. simpl. by rewrite Hs.
  - by rewrite lookup_insert_ne.
Qed.

(** * Sums over the latest votes *)

Definition tally (f : Pubkey → SlotHashKey → Z) (votes : gmap Pubkey SlotHashKey) : Z :=
  sumZ ((λ x, f x.1 x.2) <$> map_to_list votes).

Lemma sumZ_add {A} (f g : A → Z) l :
  sumZ ((λ x, f x + g x) <$> l) = sumZ (f <$> l) + sumZ (g <$> l).
Proof. induction l as [|x l IH]; [done|]. rewrite !fmap_cons, !sumZ_cons. lia. Qed.

Lemma sumZ_ext_in {A} (f g : A → Z) l :
  (∀ x, x ∈ l → f x = g x) → sumZ (f <$> l) = sumZ (g <$> l).
Proof.
  induction l as [|x l IH]; intros H; [done|]. rewrite !fmap_cons. simpl.
  rewrite (H x) by left. f_equal. apply IH. intros; apply H; by right.
Qed.

Lemma sumZ_le {A} (f g : A → Z) l :
  (∀ x, x ∈ l → f x ≤ g x) → sumZ (f <$> l) ≤ sumZ (g <$> l).
Proof.
  induction l as [|x l IH]; intros H; [done|]. rewrite !fmap_cons. simpl.
  assert (f x ≤ g x) by (apply H; left).
  assert (sumZ (f <$> l) ≤ sumZ (g <$> l)) by (apply IH; intros; apply H; by right).
  unfold sumZ in *. lia.
Qed.

Lemma sumZ_zero {A} (f : A → Z) l : (∀ x, x ∈ l → f x = 0) → sumZ (f <$> l) = 0.
Proof.
  intros H. rewrite (sumZ_ext_in f (λ _, 0) l H). clear H.
  induction l; [done|]. rewrite fmap_cons. simpl. done.
Qed.

(** The only summand that counts. *)
Lemma sumZ_single `{EqDecision A} (f : A → Z) l x :
  NoDup l → x ∈ l → (∀ y, y ∈ l → y ≠ x → f y = 0) → sumZ (f <$> l) = f x.
Proof.
  intros Hnd (l1 & l2 & ->)%list_elem_of_split H.
  apply NoDup_app in Hnd as (Hn1 & Hd & [Hx Hn2]%NoDup_cons).
  rewrite <-Permutation_middle, fmap_cons. simpl. rewrite sumZ_zero; [lia|].
  intros y Hy. apply H; [set_solver|]. intros ->. apply elem_of_app in Hy as [Hy|Hy]; [|done].
  apply (Hd x Hy). left.
Qed.

Lemma tally_ext f g votes :
  (∀ pk k, votes !! pk = Some k → f pk k = g pk k) → tally f votes = tally g votes.
Proof. intros H. apply sumZ_ext_in. intros [pk k] Hin%elem_of_map_to_list. by apply H. Qed.

Lemma tally_le f g votes :
  (∀ pk k, votes !! pk = Some k → f pk k ≤ g pk k) → tally f votes ≤ tally g votes.
Proof. intros H. apply sumZ_le. intros [pk k] Hin%elem_of_map_to_list. by apply H. Qed.

Lemma tally_add f g votes : tally (λ pk k, f pk k + g pk k) votes = tally f votes + tally g votes.
Proof. apply sumZ_add. Qed.

Lemma tally_zero votes : tally (λ _ _, 0) votes = 0.
Proof. by apply sumZ_zero. Qed.

Lemma tally_nonneg f votes :
  (∀ pk k, votes !! pk = Some k → 0 ≤ f pk k) → 0 ≤ tally f votes.
Proof. intros H. rewrite <-(tally_zero votes). by apply tally_le. Qed.

Lemma tally_sum {A} (g : A → Pubkey → SlotHashKey → Z) l votes :
  tally (λ pk k, sumZ ((λ c, g c pk k) <$> l)) votes = sumZ ((λ c, tally (g c) votes) <$> l).
Proof.
  induction l as [|c l IH]; [by apply tally_zero|].
  rewrite fmap_cons. simpl. rewrite <-IH. apply (tally_add (g c)).
Qed.

(** A new latest vote replaces the summand of the old one. *)
Lemma tally_insert f votes pk k :
  tally f (<[pk := k]> votes) = tally f votes - from_option (f pk) 0 (votes !! pk) + f pk k.
Proof.
  unfold tally. destruct (votes !! pk) as [k'|] eqn:E; simpl.
  - rewrite <-insert_delete_eq, map_to_list_insert by apply lookup_delete_eq.
    rewrite <-(map_to_list_delete votes pk k' E). rewrite !fmap_cons, !sumZ_cons. simpl. lia.
  - rewrite map_to_list_insert by done. rewrite fmap_cons, sumZ_cons. simpl. lia.
Qed.

Section totals.
(** The stake of a validator for a vote on a slot. *)
Context (stake : Pubkey → Slot → Z).

(** The stake whose latest vote is for [n], is in the subtree of [n], or is counted
    at all. *)
Definition at_total (votes : gmap Pubkey SlotHashKey) (n : SlotHashKey) : Z :=
  tally (λ pk k, if decide (k = n) then stake pk k.1 else 0) votes.
Definition sub_total (m : Nodes) (votes : gmap Pubkey SlotHashKey) (n : SlotHashKey) : Z :=
  tally (λ pk k, if decide (below m n k) then stake pk k.1 else 0) votes.
Definition total (votes : gmap Pubkey SlotHashKey) : Z := tally (λ pk k, stake pk k.1) votes.

Context (Hstake : ∀ pk s, 0 ≤ stake pk s).

Lemma at_total_bounds votes n : 0 ≤ at_total votes n ≤ total votes.
Proof.
  split; [apply tally_nonneg|apply tally_le]; intros pk k _; pose proof (Hstake pk k.1);
    case_decide; lia.
Qed.
Lemma sub_total_bounds m votes n : 0 ≤ sub_total m votes n ≤ total votes.
Proof.
  split; [apply tally_nonneg|apply tally_le]; intros pk k _; pose proof (Hstake pk k.1);
    case_decide; lia.
Qed.

(** The votes in a subtree are those for its root and those in the subtrees of the
    children. *)
Lemma sub_total_step r m votes n : Tree r m →
  sub_total m votes n = at_total votes n + sumZ (sub_total m votes <$> kids m n).
Proof.
  intros HT. unfold sub_total at 2, at_total. rewrite <-(tally_sum (λ c pk k, _)), <-tally_add.
  apply tally_ext. intros pk k _. set (s := stake pk k.1).
  destruct (decide (k = n)) as [->|Hne].
  - rewrite decide_True by apply below_refl. rewrite sumZ_zero; [lia|].
    intros c Hc. rewrite decide_False; [done|]. by apply (not_below_child HT).
  - destruct (decide (below m n k)) as [Hb|Hb].
    + destruct (below_child HT n k Hb) as [->|(c & Hc & Hck)]; [done|].
      erewrite sumZ_single; [| |exact Hc|].
      * rewrite decide_True by done. lia.
      * apply sorted_NoDup, (tree_sorted r m HT).
      * intros c' Hc' Hne'. rewrite decide_False; [done|]. intros Hb'.
        by destruct Hne'; eapply (below_child_unique HT).
    + rewrite sumZ_zero; [lia|]. intros c Hc. rewrite decide_False; [done|]. intros Hck.
      apply Hb. eapply (below_trans HT); [|done]. by apply (below_kid HT).
Qed.

Lemma sub_total_same_shape m m' votes n : same_shape m m' → sub_total m votes n = sub_total m' votes n.
Proof.
  intros HS. apply tally_ext. intros pk k _. pose proof (same_shape_below HS n k).
  repeat case_decide; tauto.
Qed.
End totals.

(** * The traversals of the code *)

Lemma ancestor_list_chain self r fuel : Tree r (fork_infos self) → ∀ k,
  (before_count (fork_infos self) k < fuel)%nat →
  Fork.ancestor_list fuel self k = Ret (chain fuel (fork_infos self) k).
Proof.
  intros HT. induction fuel as [|fuel IH]; intros k Hf; [lia|]. simpl.
  change (Fork.parent self k) with (par (fork_infos self) k).
  destruct (par (fork_infos self) k) as [p|] eqn:Hp; [|done].
  pose proof (before_count_par HT _ _ Hp). rewrite IH by lia. done.
Qed.

Lemma ancestor_iterator_spec self r k : Tree r (fork_infos self) →
  Fork.ancestor_iterator self k = Ret (ancs (fork_infos self) k).
Proof.
  intros HT. unfold Fork.ancestor_iterator, ancs.
  pose proof (@before_count_size (fork_infos self) k).
  rewrite (ancestor_list_chain self r) by (done || lia). f_equal. apply (chain_fuel HT); lia.
Qed.

Lemma ancs_slot m r k a : Tree r m → a ∈ ancs m k → a.1 < k.1.
Proof.
  intros HT. induction k as [k IH] using (tree_ind_down HT). destruct (par m k) as [p|] eqn:Hp.
  - rewrite (ancs_par HT k p Hp). destruct (par_kids HT k p Hp) as (_ & Hlt & _).
    intros [->|Ha]%elem_of_cons; [done|]. specialize (IH p eq_refl Ha). lia.
  - by rewrite (ancs_None k Hp), elem_of_nil.
Qed.

Lemma is_strict_ancestor_spec self r a k : Tree r (fork_infos self) →
  Fork.is_strict_ancestor self a k = Ret (bool_decide (a ∈ ancs (fork_infos self) k)).
Proof.
  intros HT. unfold Fork.is_strict_ancestor. pose proof (ancs_slot (fork_infos self) r k a HT) as Hlt.
  case_decide as E; [subst; rewrite bool_decide_eq_false_2; [done|intros ?%Hlt; lia]|].
  destruct (Z.ltb_spec k.1 a.1); [rewrite bool_decide_eq_false_2; [done|intros ?%Hlt; lia]|].
  rewrite (ancestor_iterator_spec self r k HT), bind_Ret_l. f_equal.
  induction (ancs (fork_infos self) k) as [|x l IH]; [done|]. simpl. rewrite IH by (intros; apply Hlt; by right).
  apply eq_true_iff_eq. rewrite orb_true_iff, andb_true_iff, !Z.eqb_eq, !bool_decide_eq_true, elem_of_cons.
  destruct x, a; simpl. naive_solver.
Qed.

(** The nodes below one of a list of nodes. *)
Definition region (m : Nodes) (pending : list SlotHashKey) : gset SlotHashKey :=
  dom (filter (λ x, Exists (λ p, below m p x.1) pending) m).

Lemma elem_of_region m pending n :
  n ∈ region m pending ↔ is_Some (m !! n) ∧ ∃ p, p ∈ pending ∧ below m p n.
Proof.
  unfold region. rewrite elem_of_dom. split.
  - intros [i [Hi Hp]%map_lookup_filter_Some]. apply Exists_exists in Hp. eauto.
  - intros [[i Hi] Hp]. exists i. apply map_lookup_filter_Some. by rewrite Exists_exists.
Qed.

(** No node is below two of them. *)
Definition unrelated (m : Nodes) (pending : list SlotHashKey) : Prop :=
  NoDup pending ∧ ∀ p q, p ∈ pending → q ∈ pending → below m p q → p = q.

Section subtree_diff.
Context {r : SlotHashKey} {m : Nodes} (HT : Tree r m).

Lemma unrelated_tail k pending : unrelated m (k :: pending) → unrelated m pending.
Proof. intros [[_ Hnd]%NoDup_cons Hu]. split; [done|]. intros. apply Hu; [by right..|done]. Qed.

Lemma unrelated_kids k pending :
  unrelated m (k :: pending) → unrelated m (rev (kids m k) ++ pending).
Proof.
  intros [[Hk Hnd]%NoDup_cons Hu].
  assert (∀ c q, c ∈ kids m k → q ∈ pending → ¬ below m c q) as H1.
  { intros c q Hc Hq Hb. assert (k = q) as ->; [|done]. apply Hu; [left|by right|].
    by eapply (below_trans HT), Hb; apply (below_kid HT). }
  assert (∀ c q, c ∈ kids m k → q ∈ pending → ¬ below m q c) as H2.
  { intros c q Hc Hq Hb. pose proof Hc as Hp%(kids_par HT).
    apply (below_par HT _ _ _ Hp) in Hb as [->|Hb].
    - by apply (H1 c c); [| |apply below_refl].
    - assert (q = k) as ->; [|done]. by apply Hu; [right|left|]. }
  split.
  - rewrite rev_perm. apply NoDup_app. split_and!; [| |done].
    + apply sorted_NoDup, (tree_sorted r m HT).
    + intros c Hc Hq. by apply (H1 c c Hc Hq), below_refl.
  - intros p q. rewrite rev_perm, !elem_of_app. intros [Hp|Hp] [Hq|Hq] Hb.
    + by eapply (siblings_below HT).
    + by destruct (H1 p q).
    + by destruct (H2 q p).
    + apply Hu; [by right..|done].
Qed.

Lemma region_kids k pending : is_Some (m !! k) →
  region m (k :: pending) = {[k]} ∪ region m (rev (kids m k) ++ pending).
Proof.
  intros Hk. apply set_eq. intros n. rewrite elem_of_union, !elem_of_region, elem_of_singleton.
  setoid_rewrite elem_of_app. setoid_rewrite rev_perm. setoid_rewrite elem_of_cons. split.
  - intros [Hn (p & [->|Hp] & Hb)]; [|eauto 6].
    destruct (below_child HT k n Hb) as [->|(c & Hc & Hcn)]; [by left|eauto 7].
  - intros [->|[Hn (p & [Hp|Hp] & Hb)]]; [eauto using below_refl| |eauto 6].
    split; [done|]. exists k. split; [by left|].
    eapply (below_trans HT), Hb. by apply (below_kid HT).
Qed.

Lemma not_in_region k pending : unrelated m (k :: pending) → k ∉ region m pending.
Proof.
  intros [[Hk Hnd]%NoDup_cons Hu] [_ (p & Hp & Hb)]%elem_of_region.
  assert (p = k) as ->; [|done]. by apply Hu; [right|left|].
Qed.

Lemma not_in_region_kids k pending :
  unrelated m (k :: pending) → k ∉ region m (rev (kids m k) ++ pending).
Proof.
  intros Hu [Hk (p & [Hp|Hp]%elem_of_app & Hb)]%elem_of_region.
  - rewrite rev_perm in Hp. by apply (not_below_child HT k p).
  - apply not_in_region in Hu. apply Hu, elem_of_region. eauto.
Qed.
End subtree_diff.

Lemma subtree_loop_spec self r root2 : Tree r (fork_infos self) → ∀ fuel pending reachable,
  let m := fork_infos self in
  (∀ p, p ∈ pending → is_Some (m !! p) ∧ (below m root2 p → root2 = p)) →
  unrelated m pending → (size (region m pending) < fuel)%nat →
  ∃ res, Fork.subtree_loop fuel self root2 pending reachable = Ret res ∧
    ∀ n, n ∈ res ↔ n ∈ reachable ∨ (n ∈ region m pending ∧ ¬ below m root2 n).
Proof.
  intros HT fuel. induction fuel as [|fuel IH]; intros pending reachable m Hp Hu Hf; [lia|].
  destruct pending as [|k pending]; simpl.
  { eexists. split; [done|]. intros n. rewrite elem_of_region. set_solver. }
  destruct (Hp k) as [Hk Hr2]; [left|]. case_decide as E.
  - subst k. destruct (IH pending reachable) as (res & -> & Hres).
    + intros p Hin. apply Hp. by right.
    + by eapply unrelated_tail.
    + apply not_in_region in Hu as Hk'. eapply Nat.lt_le_trans; [|apply Nat.lt_succ_r, Hf].
      apply subset_size. split.
      * intros n. rewrite !elem_of_region. set_solver.
      * intros Hsub. apply Hk', Hsub. rewrite elem_of_region. split; [done|].
        exists root2. split; [left|apply below_refl].
    + exists res. split; [done|]. intros n. rewrite Hres, !elem_of_region. set_solver.
  - destruct Hk as [i Hi]. unfold Fork.children. fold m. rewrite Hi. simpl.
    rewrite <-(kids_Some m k i Hi).
    destruct (IH (rev (kids m k) ++ pending) ({[k]} ∪ reachable)) as (res & -> & Hres).
    + intros p [Hin|Hin]%elem_of_app; [|apply Hp; by right]. rewrite rev_perm in Hin.
      split; [by eapply (kid_node HT)|]. apply (kids_par HT) in Hin.
      intros [|Hb]%(below_par HT _ _ _ Hin); [done|]. by destruct E; symmetry; apply Hr2.
    + by apply (unrelated_kids HT).
    + pose proof (not_in_region_kids HT k pending Hu).
      rewrite (region_kids HT) in Hf by eauto. rewrite size_union, size_singleton in Hf by set_solver.
      fold m in Hf |- *. lia.
    + exists res. split; [done|]. intros n. rewrite Hres, (region_kids HT) by eauto.
      assert (¬ below m root2 k) by naive_solver. set_solver.
Qed.

(** [subtree_diff] collects the subtree of its first root without that of the
    second. *)
Lemma subtree_diff_spec self r root1 root2 :
  let m := fork_infos self in
  Tree r m → is_Some (m !! root1) → (below m root2 root1 → root2 = root1) →
  ∃ res, Fork.subtree_diff self root1 root2 = Ret res ∧
    ∀ n, n ∈ res ↔ is_Some (m !! n) ∧ below m root1 n ∧ ¬ below m root2 n.
Proof.
  intros m HT Hr1 Hr2. unfold Fork.subtree_diff, Fork.contains_block. fold m.
  destruct Hr1 as [i Hi]. rewrite Hi. cbn [is_some negb].
  destruct (subtree_loop_spec self r root2 HT (S (size m)) [root1] ∅) as (res & -> & Hres).
  - intros p ->%list_elem_of_singleton. split; [eauto|done].
  - split; [apply NoDup_singleton|]. set_solver.
  - apply Nat.lt_succ_r. rewrite <-(size_dom m). apply subseteq_size.
    intros n [Hn _]%elem_of_region. by apply elem_of_dom.
  - exists res. split; [done|]. intros n. rewrite Hres, elem_of_region. set_solver.
Qed.
