(* ===== verification/ForkAggregate.v ===== *)
(** What a node of the fork choice tree records of its children, and that
    [aggregate_slot] establishes it. *)

From S2P Require Import Prelude BTree ForkChoice ForkTree.

(** * Choosing a child *)

(** [o] is the first of the eligible elements of [cs] in the order [gt], if there is
    one. *)
Definition Picks {A} (elig : A → Prop) (gt : A → A → Prop) (cs : list A) (o : option A) : Prop :=
  match o with
  | None => ∀ c, c ∈ cs → ¬ elig c
  | Some c => c ∈ cs ∧ elig c ∧ ∀ c', c' ∈ cs → elig c' → c' = c ∨ gt c c'
  end.

Section picks.
Context {A : Type} (elig : A → Prop) (gt : A → A → Prop).

Lemma Picks_ext (elig' : A → Prop) (gt' : A → A → Prop) cs o :
  (∀ c, c ∈ cs → elig c ↔ elig' c) → (∀ c c', c ∈ cs → c' ∈ cs → gt c c' ↔ gt' c c') →
  Picks elig gt cs o → Picks elig' gt' cs o.
Proof.
  intros He Hg. destruct o as [c|]; simpl; [|intros H c Hc; by rewrite <-He; auto].
  intros (Hc & Hec & H). split_and!; [done|by apply He|]. intros c' Hc' Hec'.
  destruct (H c' Hc') as [->|]; [by apply He|by left|right; by apply Hg].
Qed.

Lemma Picks_perm cs cs' o : (∀ c, c ∈ cs ↔ c ∈ cs') → Picks elig gt cs o → Picks elig gt cs' o.
Proof. intros Hcs. destruct o; simpl; setoid_rewrite Hcs; done. Qed.

(** One more element that is not eligible or not better. *)
Lemma Picks_keep cs o x :
  Picks elig gt cs o → (elig x → ∃ c, o = Some c ∧ gt c x) → Picks elig gt (cs ++ [x]) o.
Proof.
  intros Ho Hx. destruct o as [c|]; simpl in *.
  - destruct Ho as (Hc & He & H). split_and!; [set_solver|done|].
    intros c' [Hc'| ->%list_elem_of_singleton]%elem_of_app He'; [by apply H|].
    destruct (Hx He') as (? & Heq & ?); injection Heq as <-. by right.
  - intros c' [Hc'| ->%list_elem_of_singleton]%elem_of_app He'; [by eapply Ho|].
    by destruct (Hx He') as (? & ? & ?).
Qed.

Context (gt_trans : ∀ x y z, gt x y → gt y z → gt x z).

(** One more element that is the best so far. *)
Lemma Picks_take cs o x :
  Picks elig gt cs o → elig x → (∀ c, o = Some c → gt x c) → Picks elig gt (cs ++ [x]) (Some x).
Proof.
  intros Ho He Hx. simpl. split_and!; [set_solver|done|].
  intros c' [Hc'| ->%list_elem_of_singleton]%elem_of_app He'; [|by left]. right.
  destruct o as [c|]; simpl in Ho; [|by destruct (Ho c')].
  destruct Ho as (Hc & Hec & H). destruct (H c' Hc' He') as [->|]; [by apply Hx|].
  eapply gt_trans; [by apply Hx|done].
Qed.

Context (gt_irrefl : ∀ x, ¬ gt x x).

Lemma Picks_unique cs o o' : Picks elig gt cs o → Picks elig gt cs o' → o = o'.
Proof.
  destruct o as [c|], o' as [c'|]; simpl; [|naive_solver..].
  intros (Hc & He & H) (Hc' & He' & H'). f_equal.
  destruct (H c' Hc' He') as [|H1], (H' c Hc He) as [|H2]; [done..|].
  by destruct (gt_irrefl c); eapply gt_trans.
Qed.
End picks.

(** * What a node records *)

Definition vat (m : Nodes) (k : SlotHashKey) : Z := from_option stake_voted_at 0 (m !! k).
Definition wt (m : Nodes) (k : SlotHashKey) : Z := from_option stake_voted_subtree 0 (m !! k).
Definition ht (m : Nodes) (k : SlotHashKey) : Z := from_option height 0 (m !! k).
Definition bst (m : Nodes) (k : SlotHashKey) : SlotHashKey := from_option best_slot k (m !! k).
Definition dpst (m : Nodes) (k : SlotHashKey) : SlotHashKey := from_option deepest_slot k (m !! k).
Definition cand (m : Nodes) (k : SlotHashKey) : Prop :=
  ∃ i, m !! k = Some i ∧ latest_invalid_ancestor i = None.
Definition conf (m : Nodes) (k : SlotHashKey) : bool := from_option is_duplicate_confirmed false (m !! k).

(** More weight, and for equal weights the smaller key; more height, and for equal
    heights the heavier one. *)
Definition heavier (m : Nodes) (c c' : SlotHashKey) : Prop :=
  wt m c' < wt m c ∨ (wt m c = wt m c' ∧ lt c c').
Definition deeper (m : Nodes) (c c' : SlotHashKey) : Prop :=
  ht m c' < ht m c ∨ (ht m c = ht m c' ∧ heavier m c c').

Lemma heavier_trans m x y z : heavier m x y → heavier m y z → heavier m x z.
Proof. unfold heavier. intros [|[]] [|[]]; [lia..|right; split; [lia|by trans y]]. Qed.
Lemma heavier_irrefl m x : ¬ heavier m x x.
Proof. intros [|[_ []%lt_not_refl]]. lia. Qed.
Lemma heavier_total m x y : x ≠ y → ¬ heavier m x y → heavier m y x.
Proof.
  unfold heavier. intros Hne Hn. destruct (Z.lt_total (wt m x) (wt m y)) as [|[E|]]; [by left| |tauto].
  right. split; [done|]. destruct (ltb_cases x y) as [(H & _)|[(H & _)|(-> & _)]]; [tauto|done|done].
Qed.
Lemma deeper_trans m x y z : deeper m x y → deeper m y z → deeper m x z.
Proof.
  unfold deeper. intros [|[]] [|[]]; [lia..|right; split; [lia|by eapply heavier_trans]].
Qed.
Lemma deeper_irrefl m x : ¬ deeper m x x.
Proof. intros [|[_ []%heavier_irrefl]]. lia. Qed.
Lemma deeper_total m x y : x ≠ y → ¬ deeper m x y → deeper m y x.
Proof.
  unfold deeper. intros Hne Hn. destruct (Z.lt_total (ht m x) (ht m y)) as [|[E|]]; [by left| |tauto].
  right. split; [done|]. apply heavier_total; tauto.
Qed.

(** The information of a node agrees with that of its children: the stake of the
    subtree is the sum, the deepest block is that of the deepest child and, for a
    candidate, the best block is that of the best candidate child; a duplicate
    confirmed child confirms its parent. *)
Record NodeOk (m : Nodes) (k : SlotHashKey) (i : ForkInfo) : Prop := {
  ok_sum : stake_voted_subtree i = stake_voted_at i + sumZ (wt m <$> children i);
  ok_best : latest_invalid_ancestor i = None → ∃ o,
    Picks (cand m) (heavier m) (children i) o ∧ best_slot i = from_option (bst m) k o;
  ok_deep : ∃ o, Picks (λ _, True) (deeper m) (children i) o ∧
    deepest_slot i = from_option (dpst m) k o ∧ height i = from_option (ht m) 0 o + 1;
  ok_conf : ∀ c, c ∈ children i → conf m c = true → is_duplicate_confirmed i = true;
}.

Lemma Picks_in {A} (elig : A → Prop) gt cs c : Picks elig gt cs (Some c) → c ∈ cs.
Proof. by intros []. Qed.

(** It only depends on what the children record, not on their links. *)
Definition forget_links (i : ForkInfo) : ForkInfo := Info.set_links None [] i.
Definition same_view (m m' : Nodes) (c : SlotHashKey) : Prop :=
  forget_links <$> m !! c = forget_links <$> m' !! c.

Lemma same_view_eq m m' c : same_view m m' c →
  vat m c = vat m' c ∧ wt m c = wt m' c ∧ ht m c = ht m' c ∧ bst m c = bst m' c ∧ dpst m c = dpst m' c ∧
  (cand m c ↔ cand m' c) ∧ conf m c = conf m' c.
Proof.
  unfold same_view, vat, wt, ht, bst, dpst, cand, conf. intros E.
  destruct (m !! c) as [i|], (m' !! c) as [i'|]; simplify_eq/=; [|naive_solver].
  split_and!; [congruence..| |congruence]. naive_solver congruence.
Qed.

Lemma NodeOk_ext m m' k i : (∀ c, c ∈ children i → same_view m m' c) → NodeOk m k i → NodeOk m' k i.
Proof.
  intros E [Hs Hb Hd Hc].
  assert (∀ c, c ∈ children i → wt m c = wt m' c) as Ew by (intros c Hin; by apply same_view_eq, E).
  assert (∀ c, c ∈ children i → ht m c = ht m' c) as Eh by (intros c Hin; by apply same_view_eq, E).
  split.
  - rewrite Hs. f_equal. by apply sumZ_ext_in.
  - intros Hcand. destruct (Hb Hcand) as (o & Ho & ->). exists o. split.
    + revert Ho. apply Picks_ext.
      * intros c Hin. by apply same_view_eq, E.
      * intros c c' Hin Hin'. unfold heavier. by rewrite !Ew.
    + destruct o as [c|]; [|done]. by apply Picks_in, E, same_view_eq in Ho as (_ & _ & _ & ? & _).
  - destruct Hd as (o & Ho & -> & ->). exists o. split_and!.
    + revert Ho. apply Picks_ext; [done|].
      intros c c' Hin Hin'. unfold deeper, heavier. by rewrite !Ew, !Eh.
    + destruct o as [c|]; [|done]. by apply Picks_in, E, same_view_eq in Ho as (_ & _ & _ & _ & ? & _).
    + destruct o as [c|]; [|done]. simpl. apply Picks_in in Ho. by rewrite Eh.
  - intros c Hin Hcf. apply (Hc c Hin). by rewrite (proj2 (proj2 (proj2 (proj2 (proj2 (proj2 (same_view_eq _ _ _ (E c Hin)))))))).
Qed.

(** * [aggregate_slot] *)

(** The variables of the loop after the children [cs]. *)
Record AggOk (m : Nodes) (k : SlotHashKey) (i : ForkInfo) (cs : list SlotHashKey)
    (a : Fork.Aggregate) : Prop := {
  agg_sum : Fork.agg_stake_voted_subtree a = stake_voted_at i + sumZ (wt m <$> cs);
  agg_conf : Fork.agg_is_duplicate_confirmed a = existsb (conf m) cs;
  agg_best : ∃ o, Picks (cand m) (heavier m) cs o ∧
    Fork.best_child_slot_key a = default k o ∧
    Fork.best_child_stake_voted_subtree a = from_option (wt m) 0 o ∧
    Fork.best_slot_hash_key a = from_option (bst m) k o;
  agg_deep : ∃ o, Picks (λ _, True) (deeper m) cs o ∧
    Fork.deepest_child_slot_key a = default k o ∧
    Fork.deepest_child_height a = from_option (ht m) 0 o ∧
    Fork.deepest_child_stake_voted_subtree a = from_option (wt m) 0 o ∧
    Fork.deepest_slot_hash_key a = from_option (dpst m) k o;
}.

(** The tests of the loop are the orders. *)
Lemma better_spec m k x c o : m !! x = Some c → (∀ y, o = Some y → y ≠ k) →
  Info.is_candidate c && (bool_decide (default k o = k) ||
    (from_option (wt m) 0 o <? stake_voted_subtree c) ||
    ((stake_voted_subtree c =? from_option (wt m) 0 o) && ltb x (default k o))) = true ↔
  cand m x ∧ ∀ y, o = Some y → heavier m x y.
Proof.
  intros Hx Hne. rewrite andb_true_iff, !orb_true_iff, andb_true_iff.
  rewrite bool_decide_eq_true, Z.ltb_lt, Z.eqb_eq.
  assert (Info.is_candidate c = true ↔ cand m x) as ->.
  { unfold Info.is_candidate, cand. rewrite Hx. destruct (latest_invalid_ancestor c) eqn:E; simpl;
      naive_solver congruence. }
  assert (wt m x = stake_voted_subtree c) as <- by (unfold wt; by rewrite Hx).
  destruct o as [y|]; simpl; [|naive_solver]. specialize (Hne y eq_refl).
  unfold heavier, lt. naive_solver.
Qed.

Lemma deeper_spec m k x c o : m !! x = Some c → (∀ y, o = Some y → y ≠ k) →
  match bool_decide (default k o = k), height c ?= from_option (ht m) 0 o,
        stake_voted_subtree c ?= from_option (wt m) 0 o, cmp x (default k o) with
  | true, _, _, _ | _, Gt, _, _ | _, Eq, Gt, _ | _, Eq, Eq, Lt => true
  | _, _, _, _ => false
  end = true ↔ ∀ y, o = Some y → deeper m x y.
Proof.
  intros Hx Hne. destruct o as [y|]; cbn [default from_option id].
  - rewrite bool_decide_eq_false_2 by auto.
    assert ((∀ y0, Some y = Some y0 → deeper m x y0) ↔ deeper m x y) as -> by naive_solver.
    unfold deeper, heavier. assert (wt m x = stake_voted_subtree c) as -> by (unfold wt; by rewrite Hx).
    assert (ht m x = height c) as -> by (unfold ht; by rewrite Hx).
    unfold cmp, lt. destruct (Z.compare_spec (height c) (ht m y)), (Z.compare_spec (stake_voted_subtree c) (wt m y)),
      (ltb x y), (ltb y x); split; intros; (done || lia || (intuition (lia || done))).
  - rewrite bool_decide_eq_true_2 by done. split; [intros _ y [=]|done].
Qed.

Lemma sumZ_snoc {A} (f : A → Z) l x : sumZ (f <$> l ++ [x]) = sumZ (f <$> l) + f x.
Proof. rewrite fmap_app, sumZ_app. unfold sumZ. simpl. lia. Qed.

Lemma existsb_snoc {A} (f : A → bool) l x : existsb f (l ++ [x]) = existsb f l || f x.
Proof. rewrite existsb_app. simpl. by rewrite orb_false_r. Qed.

Lemma aggregate_child_spec m k i cs a x c :
  AggOk m k i cs a → m !! x = Some c → x ∉ cs → x ≠ k → (∀ y, y ∈ cs → y ≠ k) →
  stake_voted_at i + sumZ (wt m <$> cs ++ [x]) ≤ u64_MAX →
  ∃ a', Fork.aggregate_child k x c a = Ret a' ∧ AggOk m k i (cs ++ [x]) a'.
Proof.
  intros [Hsum Hconf (ob & Hb & Ebk & Ebw & Ebs) (od & Hd & Edk & Edh & Edw & Eds)] Hx Hin Hk Hcs Hmax.
  assert (wt m x = stake_voted_subtree c) as Hw by (unfold wt; by rewrite Hx).
  assert (∀ y, ob = Some y → y ≠ k) as Hnb by (intros y ->; by apply Picks_in in Hb; apply Hcs).
  assert (∀ y, od = Some y → y ≠ k) as Hnd by (intros y ->; by apply Picks_in in Hd; apply Hcs).
  pose proof (better_spec m k x c ob Hx Hnb) as Hbetter.
  pose proof (deeper_spec m k x c od Hx Hnd) as Hdeeper.
  rewrite sumZ_snoc in Hmax. unfold Fork.aggregate_child.
  rewrite Hsum, add_Ret, bind_Ret_l by lia. eexists. split; [reflexivity|].
  rewrite Ebk, Ebw, Edk, Edh, Edw, Ebs, Eds, Hconf.
  split; cbn [Fork.agg_stake_voted_subtree Fork.agg_is_duplicate_confirmed Fork.best_child_slot_key
    Fork.best_child_stake_voted_subtree Fork.best_slot_hash_key Fork.deepest_child_slot_key
    Fork.deepest_child_height Fork.deepest_child_stake_voted_subtree Fork.deepest_slot_hash_key].
  - rewrite sumZ_snoc. lia.
  - rewrite existsb_snoc. unfold conf. by rewrite Hx.
  - match type of Hbetter with ?b = true ↔ _ => destruct b end.
    + destruct (proj1 Hbetter eq_refl) as [Hc Hgt]. exists (Some x).
      split; [by apply (Picks_take _ _ (heavier_trans m) cs ob x Hb)|].
      unfold bst. simpl. by rewrite Hx.
    + exists ob. split; [|done]. apply Picks_keep; [done|]. intros Hc.
      destruct ob as [y|]; [|exfalso; assert (false = true); [apply Hbetter; naive_solver|done]].
      exists y. split; [done|]. apply heavier_total.
      * intros ->. by apply Picks_in in Hb.
      * intros Hg. assert (false = true); [apply Hbetter; naive_solver|done].
  - match type of Hdeeper with ?b = true ↔ _ => destruct b end.
    + exists (Some x).
      split; [by apply (Picks_take _ _ (deeper_trans m) cs od x Hd); [|apply Hdeeper]|].
      unfold dpst, ht. simpl. by rewrite Hx.
    + exists od. split; [|done]. apply Picks_keep; [done|]. intros _.
      destruct od as [y|]; [|exfalso; assert (false = true); [apply Hdeeper; naive_solver|done]].
      exists y. split; [done|]. apply deeper_total.
      * intros ->. by apply Picks_in in Hd.
      * intros Hg. assert (false = true); [apply Hdeeper; naive_solver|done].
Qed.

Lemma aggregate_children_spec self k i cs :
  let m := fork_infos self in
  (∀ c, c ∈ cs → is_Some (m !! c) ∧ c ≠ k ∧ 0 ≤ wt m c) → NoDup cs →
  stake_voted_at i + sumZ (wt m <$> cs) ≤ u64_MAX →
  ∃ a, Fork.aggregate_children self k cs (Fork.aggregate_init k i) = Ret a ∧ AggOk m k i cs a.
Proof.
  intros m Hcs Hnd Hmax. apply (for_each_inv (AggOk m k i)).
  - split; simpl; [lia|done|by exists None; repeat split; set_solver..].
  - intros don x todo a -> HA. destruct (Hcs x) as ([c Hc] & Hxk & _); [set_solver|].
    fold m. rewrite Hc. simpl.
    apply NoDup_app in Hnd as (_ & Hd & _). apply aggregate_child_spec; [done|done| | | |].
    + intros Hin. apply (Hd x Hin). left.
    + done.
    + intros y Hy. apply Hcs. set_solver.
    + rewrite (cons_middle x don todo), app_assoc, fmap_app in Hmax.
      assert (0 ≤ sumZ (wt m <$> todo)).
      { apply sumZ_nonneg. intros y (z & -> & Hz)%list_elem_of_fmap. apply Hcs. set_solver. }
      rewrite (sumZ_app) in Hmax. lia.
Qed.

(** The validity of a node: its latest invalid ancestor, and whether it is duplicate
    confirmed. *)
Definition validity (i : ForkInfo) : option Slot * bool :=
  (latest_invalid_ancestor i, is_duplicate_confirmed i).

Lemma aggregate_slot_spec self r k i :
  let m := fork_infos self in
  Tree r m → m !! k = Some i →
  (∀ c, c ∈ children i → 0 ≤ wt m c ∧ ht m c + 1 ≤ usize_MAX) →
  stake_voted_at i + sumZ (wt m <$> children i) ≤ u64_MAX →
  ∃ i', Fork.aggregate_slot k self = Ret (Fork.update k i' self) ∧
    shape i' = shape i ∧ stake_voted_at i' = stake_voted_at i ∧ NodeOk m k i' ∧
    validity i' = (if existsb (conf m) (children i) then (None, true) else validity i) ∧
    (best_slot i' = k ∨ ∃ c, c ∈ children i ∧ best_slot i' = bst m c).
Proof.
  intros m HT Hi Hcs Hmax. unfold Fork.aggregate_slot. fold m. rewrite Hi.
  pose proof (kids_Some m k i Hi) as Hkids.
  destruct (aggregate_children_spec self k i (children i)) as (a & -> & HA).
  - intros c Hc. rewrite <-Hkids in Hc. split_and!; [by eapply (kid_node HT)| |].
    + intros ->. apply (kid_slot HT) in Hc. lia.
    + apply Hcs. by rewrite <-Hkids.
  - rewrite <-Hkids. apply sorted_NoDup, (tree_sorted r m HT).
  - done.
  - fold m in HA. destruct HA as [Hsum Hconf (ob & Hb & _ & _ & Ebs) (od & Hd & _ & Edh & _ & Eds)].
    rewrite bind_Ret_l, add_Ret, bind_Ret_l.
    2:{ rewrite Edh. destruct od as [c|]; [apply Hcs; by eapply Picks_in|done]. }
    eexists. split; [reflexivity|]. rewrite Hconf. fold m.
    set (b := existsb (conf m) (children i)).
    set (i0 := if b then Info.set_duplicate_confirmed i else i).
    assert (children i0 = children i) as Ec by (unfold i0; by destruct b).
    assert (stake_voted_at i0 = stake_voted_at i) as Ea by (unfold i0; by destruct b).
    split_and!; [unfold shape, i0; by destruct b|done| |unfold validity, i0; by destruct b|].
    + split; simpl; rewrite ?Ec, ?Ea.
      * done.
      * eauto.
      * exists od. by rewrite Eds, Edh.
      * intros c Hc Hcf. assert (b = true) as E by (apply existsb_exists; exists c; by rewrite <-list_elem_of_In).
        unfold i0. by rewrite E.
    + simpl. rewrite Ebs. destruct ob as [c|]; [right|by left]. exists c. apply Picks_in in Hb. done.
Qed.
