(* ===== verification/ForkBatch.v ===== *)
(** Batches of updates of the fork choice tree: processing a batch from the largest
    block to the root leaves every node in agreement with its children. *)

From S2P Require Import Prelude BTree ForkChoice ForkTree ForkAggregate.

Abbreviation Entry := ((SlotHashKey * UpdateLabel) * UpdateOperation)%type (only parsing).

Definition agg_entry (k : SlotHashKey) : Entry := ((k, LAggregate), OpAggregate).

Definition label_of (op : UpdateOperation) : UpdateLabel :=
  match op with
  | OpAdd _ => LAdd
  | OpMarkValid s => LMarkValid s
  | OpMarkInvalid s => LMarkInvalid s
  | OpSubtract _ => LSubtract
  | OpAggregate => LAggregate
  end.

(** How an operation changes the stake at a node. *)
Definition delta (op : UpdateOperation) : Z :=
  match op with OpAdd s => s | OpSubtract s => - s | _ => 0 end.

Definition is_mark (op : UpdateOperation) : bool :=
  match op with OpMarkValid _ | OpMarkInvalid _ => true | _ => false end.

(** The operations on one node, and their effect on its stake. *)
Definition ops_at (L : list Entry) (k : SlotHashKey) : list UpdateOperation :=
  snd <$> filter (λ x, x.1.1 = k) L.
Definition net (L : list Entry) (k : SlotHashKey) : Z := sumZ (delta <$> ops_at L k).

Lemma ops_at_app L L' k : ops_at (L ++ L') k = ops_at L k ++ ops_at L' k.
Proof. unfold ops_at. by rewrite filter_app, fmap_app. Qed.
Lemma ops_at_one x k : ops_at [x] k = if decide (x.1.1 = k) then [x.2] else [].
Proof. unfold ops_at. rewrite filter_cons. by case_decide. Qed.
Lemma elem_of_ops_at L k op : op ∈ ops_at L k ↔ ∃ l, ((k, l), op) ∈ L.
Proof.
  unfold ops_at. rewrite list_elem_of_fmap. setoid_rewrite list_elem_of_filter. split.
  - intros ([[k' l] op'] & -> & <- & Hin). by exists l.
  - intros [l Hin]. by exists ((k, l), op).
Qed.
Lemma ops_at_none L k : (∀ x, x ∈ L → x.1.1 ≠ k) → ops_at L k = [].
Proof. intros H. unfold ops_at. by rewrite list_filter_none_in. Qed.
Lemma net_app L L' k : net (L ++ L') k = net L k + net L' k.
Proof. unfold net. by rewrite ops_at_app, fmap_app, sumZ_app. Qed.
Lemma net_one x k : net [x] k = if decide (x.1.1 = k) then delta x.2 else 0.
Proof. unfold net. rewrite ops_at_one. case_decide; unfold sumZ; simpl; lia. Qed.

#[global] Instance net_proper : Proper ((≡ₚ) ==> (=) ==> (=)) net.
Proof. intros L L' HP k ? <-. unfold net, ops_at. by rewrite HP. Qed.

(** Order of the keys of a batch. *)
Lemma op_lt_slot k l k' l' : lt (k, l) (k', l') → k.1 ≤ k'.1.
Proof.
  unfold lt, ltb. destruct k as [s h], k' as [s' h']. simpl.
  destruct (Z.ltb_spec s s'), (Z.eqb_spec s s'); simpl; (done || lia).
Qed.
Lemma slot_lt_op (k k' : SlotHashKey) l l' : k.1 < k'.1 → lt (k, l) (k', l').
Proof. intros H. unfold lt, ltb. simpl. by rewrite (proj2 (Z.ltb_lt _ _) H). Qed.
Lemma op_lt_label (k : SlotHashKey) l l' : lt (k, l) (k, l') ↔ lt l l'.
Proof. unfold lt, ltb. simpl. by rewrite !Z.ltb_irrefl, !Z.eqb_refl. Qed.
Lemma label_max l : ¬ lt LSubtract l.
Proof. destruct l; done. Qed.
Lemma label_above_add l : lt LAdd l → l ≠ LAggregate ∧ l ≠ LAdd.
Proof. destruct l; done. Qed.
Lemma label_below_add l : lt l LAdd → l = LAggregate.
Proof. destruct l; done. Qed.

(** Effect of an operation on the validity of a node, when [kids_confirmed] says
    whether a child ends up duplicate confirmed. *)
Definition vstep (kids_confirmed : bool) (k : SlotHashKey) (v : option Slot * bool)
    (op : UpdateOperation) : option Slot * bool :=
  match op with
  | OpMarkValid s =>
      (match v.1 with Some l => if l <=? s then None else Some l | None => None end,
       v.2 || (k.1 =? s))
  | OpMarkInvalid s =>
      (Some (match v.1 with Some l => if l <? s then s else l | None => s end), v.2)
  | OpAggregate => if kids_confirmed then (None, true) else v
  | OpAdd _ | OpSubtract _ => v
  end.

(** Bounds that hold for a node at all times. *)
Definition Bounded (m : Nodes) (k : SlotHashKey) (i : ForkInfo) : Prop :=
  0 ≤ stake_voted_at i ≤ stake_voted_subtree i ∧ 0 ≤ k.1 ∧ 1 ≤ height i ≤ usize_MAX - k.1 ∧
  below m k (best_slot i).

Lemma NodeOk_stakes m k i d :
  NodeOk m k i →
  NodeOk m k (Info.set_stakes (stake_voted_at i + d) (stake_voted_subtree i + d) i).
Proof. intros [Hs Hb Hd Hc]. split; simpl; [lia|done..]. Qed.

Lemma NodeOk_height m k i :
  NodeOk m k i → (∀ c, c ∈ children i → k.1 < c.1 ∧ 1 ≤ ht m c ≤ usize_MAX - c.1) →
  k.1 < usize_MAX → 1 ≤ height i ≤ usize_MAX - k.1.
Proof.
  intros Hok Hc Hk. destruct (ok_deep _ _ _ Hok) as (o & Ho & _ & ->). destruct o as [c|]; simpl; [|lia].
  apply Picks_in, Hc in Ho. lia.
Qed.

Section batch.
Context {r : SlotHashKey} {m0 : Nodes} (HT : Tree r m0).
(** The batch in the order of processing, a bound on the stake, the final stake of
    every subtree and the final validity of every node. *)
Context (L : list Entry) (U : Z) (tot : SlotHashKey → Z) (vspec : SlotHashKey → option Slot * bool).

Definition vrun (k : SlotHashKey) (v : option Slot * bool) (ops : list UpdateOperation) :=
  foldl (vstep (existsb (λ c, (vspec c).2) (kids m0 k)) k) v ops.

(** What makes a list of operations a batch that can be processed. *)
Record Batch : Prop := {
  ba_sorted : StronglySorted (λ x y, lt y.1 x.1) L;
  ba_label : ∀ k l op, ((k, l), op) ∈ L → l = label_of op;
  ba_parent : ∀ k l op p, ((k, l), op) ∈ L → par m0 k = Some p → agg_entry p ∈ L;
  ba_mark : ∀ k l op, ((k, l), op) ∈ L → is_mark op = true → agg_entry k ∈ L;
  ba_sub : ∀ k l s, ((k, l), OpSubtract s) ∈ L → is_Some (m0 !! k) → 0 ≤ s ≤ vat m0 k;
  ba_add : ∀ k l s, ((k, l), OpAdd s) ∈ L → 0 ≤ s ≤ U;
  ba_bound : 2 * U ≤ u64_MAX;
  ba_old : ∀ k, is_Some (m0 !! k) → wt m0 k ≤ U;
  ba_tot : ∀ k, is_Some (m0 !! k) →
    tot k = vat m0 k + net L k + sumZ (tot <$> kids m0 k) ∧ 0 ≤ vat m0 k + net L k ∧ 0 ≤ tot k ≤ U;
  ba_valid : ∀ k i, m0 !! k = Some i → vspec k = vrun k (validity i) (ops_at L k);
  ba_confirmed : ∀ don k l s todo i, L = don ++ ((k, l), OpMarkInvalid s) :: todo →
    m0 !! k = Some i → (vrun k (validity i) (ops_at don k)).2 = false;
}.

(** After the operations [don], with [todo] to come. *)
Record LInv (don todo : list Entry) (m : Nodes) : Prop := {
  l_shape : same_shape m0 m;
  l_at : ∀ k i, m !! k = Some i → stake_voted_at i = vat m0 k + net don k;
  l_bounds : ∀ k i, m !! k = Some i → Bounded m0 k i;
  l_ok : ∀ k i, m !! k = Some i → agg_entry k ∉ todo → NodeOk m k i;
  l_old : ∀ k i, m !! k = Some i →
    (∀ op, op ∈ ops_at don k → label_of op ≠ LAggregate ∧ label_of op ≠ LAdd) →
    stake_voted_subtree i ≤ wt m0 k;
  l_valid : ∀ k i0 i, m0 !! k = Some i0 → m !! k = Some i →
    validity i = vrun k (validity i0) (ops_at don k);
}.

Context (HB : Batch).

(** ** Order *)

Lemma batch_todo don x todo y : L = don ++ x :: todo → y ∈ L → lt y.1 x.1 → y ∈ todo.
Proof.
  intros HL Hy Hlt. pose proof (ba_sorted HB) as Hs. rewrite HL in Hs, Hy.
  apply elem_of_app in Hy as [Hy|[->|Hy]%elem_of_cons]; [|by apply lt_not_refl in Hlt|done].
  assert (lt x.1 y.1) by (by apply (StronglySorted_app_1_elem_of _ _ _ y x Hs Hy); left).
  by destruct (lt_not_refl y.1); trans x.1.
Qed.

Lemma batch_don don x todo y : L = don ++ x :: todo → y ∈ don → lt x.1 y.1.
Proof.
  intros HL Hy. pose proof (ba_sorted HB) as Hs. rewrite HL in Hs.
  apply (StronglySorted_app_1_elem_of _ _ _ y x Hs Hy). left.
Qed.

Lemma batch_after don x todo y : L = don ++ x :: todo → y ∈ todo → lt y.1 x.1.
Proof.
  intros HL Hy. pose proof (ba_sorted HB) as Hs. rewrite HL in Hs.
  apply StronglySorted_app_1_r in Hs. inversion_clear Hs as [|? ? _ Hall].
  rewrite Forall_forall in Hall. by apply Hall.
Qed.

Lemma batch_in don x todo : L = don ++ x :: todo → x ∈ L.
Proof. intros ->. set_solver. Qed.

(** The operations on the same node that come before or after one. *)
Lemma ops_before don k l op todo op' :
  L = don ++ ((k, l), op) :: todo → op' ∈ ops_at don k → lt l (label_of op').
Proof.
  intros HL [l' Hin]%elem_of_ops_at. pose proof (batch_don _ _ _ _ HL Hin) as Hlt.
  apply op_lt_label in Hlt. rewrite <-(ba_label HB k l' op'); [done|]. rewrite HL. set_solver.
Qed.

Lemma ops_after don k l op todo op' :
  L = don ++ ((k, l), op) :: todo → op' ∈ ops_at todo k → lt (label_of op') l.
Proof.
  intros HL [l' Hin]%elem_of_ops_at. pose proof (batch_after _ _ _ _ HL Hin) as Hlt.
  apply op_lt_label in Hlt. rewrite <-(ba_label HB k l' op'); [done|]. rewrite HL. set_solver.
Qed.

(** An operation changes its own node; the parent of that node is still to come. *)
Lemma LInv_touch don k l op todo m i i' :
  L = don ++ ((k, l), op) :: todo → LInv don (((k, l), op) :: todo) m → m !! k = Some i →
  shape i' = shape i → stake_voted_at i' = stake_voted_at i + delta op → Bounded m0 k i' →
  (agg_entry k ∉ todo → NodeOk m k i') →
  (label_of op ≠ LAggregate → label_of op ≠ LAdd → stake_voted_subtree i' ≤ stake_voted_subtree i) →
  validity i' = vstep (existsb (λ c, (vspec c).2) (kids m0 k)) k (validity i) op →
  LInv (don ++ [((k, l), op)]) todo (<[k := i']> m).
Proof.
  intros HL [Hsh Hat Hbd Hok Hold Hv] Hi Hshape Hd Hbd' Hok' Hold' Hv'.
  assert (same_shape m (<[k := i']> m)) as Hsh' by (symmetry; by eapply same_shape_insert).
  split.
  - by etrans.
  - intros k' j. rewrite lookup_insert_Some, net_app, net_one. simpl. intros [[-> ->]|[Hne Hj]].
    + rewrite decide_True, Hd, (Hat _ _ Hi) by done. lia.
    + rewrite decide_False, (Hat _ _ Hj) by done. lia.
  - intros k' j. rewrite lookup_insert_Some. naive_solver.
  - intros k' j Hj Hag. apply lookup_insert_Some in Hj as [[-> <-]|[Hne Hj]].
    + apply (NodeOk_ext m); [|by apply Hok']. intros c Hc. unfold same_view. rewrite lookup_insert_ne; [done|].
      intros ->. injection Hshape as _ Hc'. rewrite Hc', <-(kids_Some m c i Hi) in Hc.
      rewrite <-(same_shape_kids Hsh) in Hc. apply (kid_slot HT) in Hc. lia.
    + assert (k ∉ children j) as Hk.
      { intros Hin. rewrite <-(kids_Some m k' j Hj), <-(same_shape_kids Hsh) in Hin.
        pose proof (kid_slot HT _ _ Hin). apply (kids_par HT) in Hin.
        apply Hag, (batch_todo _ _ _ _ HL); [|by apply slot_lt_op].
        eapply (ba_parent HB); [by eapply batch_in|done]. }
      apply (NodeOk_ext m).
      * intros c Hc. unfold same_view. rewrite lookup_insert_ne; [done|]. congruence.
      * apply (Hok k' j Hj). intros [Heq|Hin]%elem_of_cons; [|done]. by injection Heq.
  - intros k' j Hj Hops. rewrite ops_at_app, ops_at_one in Hops. simpl in Hops.
    apply lookup_insert_Some in Hj as [[-> <-]|[Hne Hj]].
    + rewrite decide_True in Hops by done. destruct (Hops op) as [H1 H2]; [set_solver|].
      etrans; [by apply Hold'|]. apply (Hold k' i Hi). set_solver.
    + rewrite decide_False in Hops by done. apply (Hold k' j Hj). set_solver.
  - intros k' i0 j Hi0 Hj. rewrite ops_at_app, ops_at_one. unfold vrun. rewrite foldl_app. simpl.
    apply lookup_insert_Some in Hj as [[-> <-]|[Hne Hj]].
    + rewrite decide_True by done. simpl. rewrite Hv'. f_equal. by apply Hv.
    + rewrite decide_False by done. simpl. by apply Hv.
Qed.

(** An operation on a block that is not in the tree changes nothing. *)
Lemma LInv_absent don k l op todo m :
  LInv don (((k, l), op) :: todo) m → m !! k = None → LInv (don ++ [((k, l), op)]) todo m.
Proof.
  intros [Hsh Hat Hbd Hok Hold Hv] Hk.
  assert (∀ k', is_Some (m !! k') → ops_at (don ++ [((k, l), op)]) k' = ops_at don k') as Hops.
  { intros k' [j Hj]. rewrite ops_at_app, ops_at_one. simpl.
    rewrite decide_False by congruence. apply app_nil_r. }
  split; [done| |done| | |].
  - intros k' j Hj. unfold net. rewrite Hops by eauto. by apply Hat.
  - intros k' j Hj Hag. apply (Hok k' j Hj). intros [Heq|Hin]%elem_of_cons; [|done].
    injection Heq. congruence.
  - intros k' j Hj. rewrite Hops by eauto. by apply Hold.
  - intros k' i0 j Hi0 Hj. rewrite Hops by eauto. by apply Hv.
Qed.

(** ** The operations *)

(** Above the slot of the current operation everything has its final value. *)
Lemma settled don todo m s : LInv don todo m → L = don ++ todo →
  (∀ x, x ∈ todo → x.1.1.1 ≤ s) → ∀ c, s < c.1 → is_Some (m !! c) →
  wt m c = tot c ∧ conf m c = (vspec c).2.
Proof.
  intros [Hsh Hat Hbd Hok Hold Hv] HL Hs c.
  induction c as [c IH] using (tree_ind_up HT). intros Hc [i Hi].
  assert (ops_at todo c = []) as Hnone.
  { apply ops_at_none. intros x Hx%Hs E. rewrite E in Hx. lia. }
  assert (is_Some (m0 !! c)) as [i0 Hi0] by (apply (same_shape_node Hsh); eauto).
  assert (NodeOk m c i) as [Hsum _ _ _].
  { apply (Hok c i Hi). intros Hin%Hs. simpl in Hin. lia. }
  split.
  - unfold wt at 1. rewrite Hi. simpl. rewrite Hsum, (Hat c i Hi).
    destruct (ba_tot HB c) as [-> _]; [eauto|]. rewrite HL, net_app.
    assert (net todo c = 0) as -> by (unfold net; by rewrite Hnone).
    rewrite <-(kids_Some m c i Hi), <-(same_shape_kids Hsh).
    rewrite (sumZ_ext_in (wt m) tot); [lia|]. intros c' Hc'.
    apply IH; [done|apply (kid_slot HT) in Hc'; lia|].
    apply (same_shape_node Hsh). by eapply (kid_node HT).
  - unfold conf. rewrite Hi. simpl. rewrite (ba_valid HB c i0 Hi0), HL, ops_at_app, Hnone, app_nil_r.
    by rewrite <-(Hv c i0 i Hi0 Hi).
Qed.

Lemma step_subtract don k l s todo self :
  let m := fork_infos self in
  L = don ++ ((k, l), OpSubtract s) :: todo → LInv don (((k, l), OpSubtract s) :: todo) m →
  ∃ m', Fork.subtract_slot_stake k s self = Ret (Fork.set_infos m' self) ∧
    LInv (don ++ [((k, l), OpSubtract s)]) todo m'.
Proof.
  intros m HL HI. unfold Fork.subtract_slot_stake. fold m. destruct (m !! k) as [i|] eqn:Hi.
  2:{ exists m. split; [by destruct self|by apply LInv_absent]. }
  assert (l = LSubtract) as -> by (apply (ba_label HB k l (OpSubtract s)); by eapply batch_in).
  assert (stake_voted_at i = vat m0 k) as Hat.
  { rewrite (l_at _ _ _ HI k i Hi). enough (ops_at don k = []) as E.
    { unfold net. rewrite E. unfold sumZ. simpl. lia. }
    destruct (ops_at don k) as [|op ops] eqn:E; [done|].
    destruct (label_max (label_of op)). eapply ops_before; [exact HL|]. rewrite E. left. }
  destruct (ba_sub HB k LSubtract s) as [Hs0 Hs]; [by eapply batch_in|by apply (same_shape_node (l_shape _ _ _ HI)); eauto|].
  destruct (l_bounds _ _ _ HI k i Hi) as ([Hat0 Hat1] & Hslot & Hht & Hbelow).
  run. simpl. eexists. split; [reflexivity|].
  eapply LInv_touch; [exact HL|exact HI|exact Hi|done|simpl; lia| | |simpl; lia|done].
  - split_and!; simpl; (done || lia).
  - intros Hag. apply (NodeOk_stakes m k i (- s)), (l_ok _ _ _ HI k i Hi).
    by intros [[=]|Hin]%elem_of_cons.
Qed.

Lemma tot_kids_nonneg k : 0 ≤ sumZ (tot <$> kids m0 k).
Proof.
  apply sumZ_nonneg. intros x (c & -> & Hc)%list_elem_of_fmap.
  by apply (ba_tot HB c), (kid_node HT k c).
Qed.

Lemma step_add don k l s todo self :
  let m := fork_infos self in
  L = don ++ ((k, l), OpAdd s) :: todo → LInv don (((k, l), OpAdd s) :: todo) m →
  ∃ m', Fork.add_slot_stake k s self = Ret (Fork.set_infos m' self) ∧
    LInv (don ++ [((k, l), OpAdd s)]) todo m'.
Proof.
  intros m HL HI. unfold Fork.add_slot_stake. fold m. destruct (m !! k) as [i|] eqn:Hi.
  2:{ exists m. split; [by destruct self|by apply LInv_absent]. }
  assert (l = LAdd) as -> by (apply (ba_label HB k l (OpAdd s)); by eapply batch_in).
  assert (is_Some (m0 !! k)) as Hk by (apply (same_shape_node (l_shape _ _ _ HI)); eauto).
  destruct (ba_tot HB k Hk) as (Htot & Hpos & Hbound). pose proof (ba_bound HB).
  pose proof (tot_kids_nonneg k).
  assert (stake_voted_at i + s = vat m0 k + net L k) as Hat.
  { rewrite (l_at _ _ _ HI k i Hi), HL, (cons_middle _ don todo), !net_app, net_one.
    rewrite decide_True by done. simpl. enough (net todo k = 0) by lia.
    apply sumZ_zero. intros op Hop. pose proof (ops_after _ _ _ _ _ _ HL Hop) as E%label_below_add.
    by destruct op. }
  destruct (ba_add HB k LAdd s) as [Hs0 Hs]; [by eapply batch_in|].
  assert (stake_voted_subtree i ≤ U).
  { etrans; [|by apply (ba_old HB k)]. apply (l_old _ _ _ HI k i Hi). intros op Hop.
    apply label_above_add. by eapply ops_before. }
  destruct (l_bounds _ _ _ HI k i Hi) as ([Hat0 Hat1] & Hslot & Hht & Hbelow).
  run. simpl. eexists. split; [reflexivity|].
  eapply LInv_touch; [exact HL|exact HI|exact Hi|done|done| | |done|done].
  - split_and!; simpl; (done || lia).
  - intros Hag. apply (NodeOk_stakes m k i s), (l_ok _ _ _ HI k i Hi).
    by intros [[=]|Hin]%elem_of_cons.
Qed.

Lemma mark_pending don k l op todo :
  L = don ++ ((k, l), op) :: todo → is_mark op = true → agg_entry k ∈ todo.
Proof.
  intros HL Hop. pose proof (batch_in _ _ _ HL) as Hin. apply (batch_todo _ _ _ _ HL).
  - by eapply (ba_mark HB).
  - rewrite (ba_label HB k l op Hin). apply op_lt_label. by destruct op.
Qed.

Lemma step_mark_valid don k l s todo self :
  let m := fork_infos self in
  L = don ++ ((k, l), OpMarkValid s) :: todo → LInv don (((k, l), OpMarkValid s) :: todo) m →
  ∃ m', Fork.mark_fork_valid k s self = Fork.set_infos m' self ∧
    LInv (don ++ [((k, l), OpMarkValid s)]) todo m'.
Proof.
  intros m HL HI. unfold Fork.mark_fork_valid. fold m. destruct (m !! k) as [i|] eqn:Hi.
  2:{ exists m. split; [by destruct self|by apply LInv_absent]. }
  eexists. split; [reflexivity|].
  pose proof (l_bounds _ _ _ HI k i Hi) as Hb. unfold Info.update_with_newly_valid_ancestor.
  eapply LInv_touch; [exact HL|exact HI|exact Hi|..].
  - destruct (latest_invalid_ancestor i) as [z|]; [destruct (z <=? s)|]; by destruct (k.1 =? s).
  - destruct (latest_invalid_ancestor i) as [z|]; [destruct (z <=? s)|]; destruct (k.1 =? s); simpl; lia.
  - destruct (latest_invalid_ancestor i) as [z|]; [destruct (z <=? s)|]; by destruct (k.1 =? s).
  - intros Hag. by destruct Hag; eapply mark_pending.
  - destruct (latest_invalid_ancestor i) as [z|]; [destruct (z <=? s)|]; by destruct (k.1 =? s).
  - unfold validity. simpl. destruct (latest_invalid_ancestor i) as [z|] eqn:E; [destruct (z <=? s)|];
      destruct (k.1 =? s); simpl; by rewrite ?E, ?orb_true_r, ?orb_false_r.
Qed.

Lemma step_mark_invalid don k l s todo self :
  let m := fork_infos self in
  L = don ++ ((k, l), OpMarkInvalid s) :: todo → LInv don (((k, l), OpMarkInvalid s) :: todo) m →
  ∃ m', Fork.mark_fork_invalid k s self = Ret (Fork.set_infos m' self) ∧
    LInv (don ++ [((k, l), OpMarkInvalid s)]) todo m'.
Proof.
  intros m HL HI. unfold Fork.mark_fork_invalid. fold m. destruct (m !! k) as [i|] eqn:Hi.
  2:{ exists m. split; [by destruct self|by apply LInv_absent]. }
  assert (is_Some (m0 !! k)) as [i0 Hi0] by (apply (same_shape_node (l_shape _ _ _ HI)); eauto).
  assert (is_duplicate_confirmed i = false) as Hc.
  { change ((validity i).2 = false). rewrite (l_valid _ _ _ HI k i0 i Hi0 Hi).
    by eapply (ba_confirmed HB). }
  unfold Info.update_with_newly_invalid_ancestor. rewrite Hc. simpl. eexists. split; [reflexivity|].
  pose proof (l_bounds _ _ _ HI k i Hi) as Hb.
  eapply LInv_touch; [exact HL|exact HI|exact Hi|..].
  - destruct (latest_invalid_ancestor i) as [z|]; [by destruct (z <? s)|done].
  - destruct (latest_invalid_ancestor i) as [z|]; [destruct (z <? s)|]; simpl; lia.
  - destruct (latest_invalid_ancestor i) as [z|]; [by destruct (z <? s)|done].
  - intros Hag. by destruct Hag; eapply mark_pending.
  - destruct (latest_invalid_ancestor i) as [z|]; [by destruct (z <? s)|done].
  - unfold validity. simpl. destruct (latest_invalid_ancestor i) as [z|] eqn:E; [destruct (z <? s)|];
      simpl; by rewrite ?E, ?Hc.
Qed.

Lemma existsb_ext_in {A} (f g : A → bool) l : (∀ x, x ∈ l → f x = g x) → existsb f l = existsb g l.
Proof.
  induction l as [|x l IH]; intros H; [done|]. simpl. rewrite (H x) by left. f_equal.
  apply IH. intros. apply H. by right.
Qed.

(** When a node is aggregated, its children are final. *)
Lemma aggregate_kids don k l todo m :
  L = don ++ ((k, l), OpAggregate) :: todo → LInv don (((k, l), OpAggregate) :: todo) m →
  ∀ c, c ∈ kids m0 k → k.1 < c.1 ∧ (∃ ic, m !! c = Some ic ∧ Bounded m0 c ic) ∧
    wt m c = tot c ∧ conf m c = (vspec c).2.
Proof.
  intros HL HI c Hc. pose proof (l_shape _ _ _ HI) as Hsh.
  pose proof (kid_slot HT k c Hc) as Hlt. split; [done|].
  destruct (kid_node HT k c Hc) as [ic0 [ic Hic]%mk_is_Some%(same_shape_node Hsh)]. split.
  - exists ic. split; [done|]. by apply (l_bounds _ _ _ HI).
  - eapply settled; [exact HI|exact HL| |exact Hlt|eauto].
    intros x [->|Hx]%elem_of_cons; [done|]. pose proof (batch_after _ _ _ _ HL Hx) as H.
    destruct x as [[k' l'] op']. by apply op_lt_slot in H.
Qed.

(** And so is its own stake. *)
Lemma aggregate_at don k l todo m i :
  L = don ++ ((k, l), OpAggregate) :: todo → LInv don (((k, l), OpAggregate) :: todo) m →
  m !! k = Some i → stake_voted_at i = vat m0 k + net L k.
Proof.
  intros HL HI Hi. assert (ops_at todo k = []) as Htodo.
  { destruct (ops_at todo k) as [|op ops] eqn:E; [done|].
    assert (lt (label_of op) l) as Hlt by (eapply ops_after; [exact HL|rewrite E; left]).
    rewrite (ba_label HB k l OpAggregate) in Hlt by (by eapply batch_in). by destruct op. }
  rewrite (l_at _ _ _ HI k i Hi), HL, (cons_middle _ don todo), !net_app, net_one.
  unfold net at 3. rewrite Htodo, decide_True by done. unfold sumZ. simpl. lia.
Qed.

Lemma step_aggregate don k l todo self :
  let m := fork_infos self in
  L = don ++ ((k, l), OpAggregate) :: todo → LInv don (((k, l), OpAggregate) :: todo) m →
  ∃ m', Fork.aggregate_slot k self = Ret (Fork.set_infos m' self) ∧
    LInv (don ++ [((k, l), OpAggregate)]) todo m'.
Proof.
  intros m HL HI. destruct (m !! k) as [i|] eqn:Hi.
  2:{ exists m. unfold Fork.aggregate_slot. fold m. rewrite Hi.
      split; [by destruct self|by apply LInv_absent]. }
  pose proof (l_shape _ _ _ HI) as Hsh. pose proof (aggregate_kids _ _ _ _ _ HL HI) as Hkid.
  pose proof (aggregate_at _ _ _ _ _ _ HL HI Hi) as Hat.
  assert (children i = kids m0 k) as Hkids by (by rewrite (same_shape_kids Hsh), (kids_Some m k i Hi)).
  destruct (ba_tot HB k) as (Htot & Hpos & Hbound); [apply (same_shape_node Hsh); eauto|].
  pose proof (ba_bound HB). pose proof (tot_kids_nonneg k).
  assert (sumZ (wt m <$> children i) = sumZ (tot <$> kids m0 k)) as Hsum.
  { rewrite Hkids. apply sumZ_ext_in. intros c Hc. by apply Hkid. }
  destruct (l_bounds _ _ _ HI k i Hi) as ([Hat0 Hat1] & Hslot & Hht & Hbelow).
  destruct (aggregate_slot_spec self r k i) as (i' & -> & Hshape & Hati & Hok & Hval & Hbest).
  - by apply (same_shape_Tree Hsh).
  - done.
  - rewrite Hkids. intros c Hc. destruct (Hkid c Hc) as (Hlt & (ic & Hic & ? & ? & Hh & _) & _).
    unfold wt, ht. fold m. rewrite Hic. simpl. lia.
  - fold m. lia.
  - exists (<[k := i']> m). split; [done|]. fold m in Hok, Hval, Hbest.
    assert (children i' = children i) as Hch by (by injection Hshape).
    eapply LInv_touch; [exact HL|exact HI|exact Hi|done|simpl; lia| |done|done|].
    + refine (conj (conj _ _) (conj Hslot (conj _ _))).
      * lia.
      * rewrite (ok_sum _ _ _ Hok), Hch, Hsum, Hati. lia.
      * apply (NodeOk_height m k i' Hok); [|lia]. rewrite Hch, Hkids. intros c Hc.
        destruct (Hkid c Hc) as (Hlt & (ic & Hic & _ & _ & Hh & _) & _). unfold ht. by rewrite Hic.
      * destruct Hbest as [->|(c & Hc & ->)]; [apply below_refl|]. rewrite Hkids in Hc.
        destruct (Hkid c Hc) as (_ & (ic & Hic & _ & _ & _ & Hb) & _). unfold bst. rewrite Hic. simpl.
        eapply (below_trans HT); [by apply (below_kid HT)|done].
    + rewrite Hval. simpl. rewrite Hkids.
      rewrite (existsb_ext_in (conf m) (λ c, (vspec c).2)); [done|]. intros c Hc. by apply Hkid.
Qed.

Lemma process_step don x todo self :
  let m := fork_infos self in
  L = don ++ x :: todo → LInv don (x :: todo) m →
  ∃ m', Fork.process_update_operation x self = Ret (Fork.set_infos m' self) ∧
    LInv (don ++ [x]) todo m'.
Proof.
  intros m HL HI. destruct x as [[k l] [s|s|s|s|]]; simpl.
  - by apply step_add.
  - destruct (step_mark_valid _ _ _ _ _ self HL HI) as (m' & -> & H'). eauto.
  - by apply step_mark_invalid.
  - by apply step_subtract.
  - by apply step_aggregate.
Qed.

(** The nodes after the batch. *)
Record Processed (m : Nodes) : Prop := {
  pr_shape : same_shape m0 m;
  pr_ok : ∀ k i, m !! k = Some i → NodeOk m k i;
  pr_bounds : ∀ k i, m !! k = Some i → Bounded m0 k i;
  pr_at : ∀ k i, m !! k = Some i → stake_voted_at i = vat m0 k + net L k;
  pr_wt : ∀ k i, m !! k = Some i → stake_voted_subtree i = tot k;
  pr_valid : ∀ k i, m !! k = Some i → validity i = vspec k;
}.

Context (H0 : ∀ k i, m0 !! k = Some i → NodeOk m0 k i ∧ Bounded m0 k i).

(** A batch can be processed, whatever it contains, without a panic. *)
Lemma process_batch self : fork_infos self = m0 →
  ∃ m, Fork.process_update_operations (rev L) self = Ret (Fork.set_infos m self) ∧ Processed m.
Proof.
  intros Hself. unfold Fork.process_update_operations. rewrite rev_involutive.
  assert (∀ todo don self', L = don ++ todo → LInv don todo (fork_infos self') →
    ∃ m, for_each Fork.process_update_operation todo self' = Ret (Fork.set_infos m self') ∧ LInv L [] m)
    as Hloop.
  { induction todo as [|x todo IH]; intros don self' HL HI; simpl.
    - rewrite app_nil_r in HL. subst. exists (fork_infos self'). by destruct self'.
    - destruct (process_step _ _ _ self' HL HI) as (m' & -> & HI'). run.
      destruct (IH (don ++ [x]) (Fork.set_infos m' self')) as (m & Hm & HI''); [by rewrite <-app_assoc|done|].
      exists m. by rewrite Hm. }
  destruct (Hloop L [] self) as (m & -> & HI); [done| |].
  - rewrite Hself. split; [done| |by apply H0|by intros; apply H0| |].
    + intros k i Hi. unfold vat, net. rewrite Hi. simpl. unfold sumZ. simpl. lia.
    + intros k i Hi _. unfold wt. rewrite Hi. simpl. lia.
    + intros k i0 i Hi0 Hi. by simplify_eq.
  - exists m. split; [done|]. pose proof (l_shape _ _ _ HI) as Hsh.
    split; [done|intros; by apply (l_ok _ _ _ HI); [|set_solver]|apply (l_bounds _ _ _ HI)|apply (l_at _ _ _ HI)| |].
    + intros k i Hi. destruct (settled L [] m (k.1 - 1) HI) with (c := k) as [Hw _];
        [by rewrite app_nil_r|set_solver|lia|eauto|]. unfold wt in Hw. by rewrite Hi in Hw.
    + intros k i Hi. destruct (proj2 (same_shape_node Hsh k)) as [i0 Hi0]; [eauto|].
      by rewrite (l_valid _ _ _ HI k i0 i Hi0 Hi), (ba_valid HB k i0 Hi0).
Qed.
End batch.
