(* ===== verification/ForkVotes.v ===== *)
(** From a batch of votes to a batch of updates: [generate_update_operations] moves
    the stake of every new vote from the block of the old one, and schedules the
    aggregation of all ancestors. *)

From S2P Require Import Prelude BTree ForkChoice ForkTree ForkAggregate ForkBatch.

(** * Closed batches *)

(** The parent of every block with an operation is aggregated; [except] is a block
    whose parent may still be missing. *)
Definition closed (m : Nodes) (except : SlotHashKey → Prop) (ops : list Entry) : Prop :=
  ∀ k l op p, ((k, l), op) ∈ ops → ¬ except k → par m k = Some p → agg_entry p ∈ ops.

Definition labelled (ops : list Entry) : Prop := ∀ k l op, ((k, l), op) ∈ ops → l = label_of op.

Lemma labelled_insert k op ops :
  map_sorted ops → labelled ops → labelled (map_insert (k, label_of op) op ops).
Proof.
  intros Hs Hl k' l' op' [E|[_ Hin]]%elem_of_map_insert; [by injection E as -> -> ->|by eapply Hl|done].
Qed.

Lemma agg_entry_get ops k : map_sorted ops → labelled ops →
  agg_entry k ∈ ops ↔ map_get (k, LAggregate) ops ≠ None.
Proof.
  intros Hs Hl. unfold agg_entry. rewrite <-map_get_Some by done. split; [by intros ->|].
  destruct (map_get _ _) as [op|] eqn:E; [|done]. intros _. apply map_get_Some in E; [|done].
  apply Hl in E. by destruct op.
Qed.

Lemma agg_entry_insert ops k k' op : map_sorted ops → labelled ops →
  agg_entry k' ∈ ops → agg_entry k' ∈ map_insert (k, label_of op) op ops.
Proof.
  intros Hs Hl Hin. apply elem_of_map_insert; [done|].
  destruct (decide ((k', LAggregate) = (k, label_of op))) as [E|Hne]; [left|by right].
  injection E as -> E. unfold agg_entry. rewrite E. by destruct op.
Qed.

Lemma closed_insert m except ops k op : map_sorted ops → labelled ops →
  closed m except ops → closed m (λ x, except x ∨ x = k) (map_insert (k, label_of op) op ops).
Proof.
  intros Hs Hl Hc k' l' op' p [E|[_ Hin]]%elem_of_map_insert He Hp; [|..|done].
  - injection E as -> -> ->. tauto.
  - apply agg_entry_insert; [done..|]. eapply Hc; [done| |done]. tauto.
Qed.

Lemma net_cons x ops k : net (x :: ops) k = (if decide (x.1.1 = k) then delta x.2 else 0) + net ops k.
Proof. rewrite <-net_one. apply (net_app [x] ops). Qed.

Lemma net_insert ops k l op k' : map_sorted ops →
  net (map_insert (k, l) op ops) k' =
  net ops k' + if decide (k = k') then delta op - from_option delta 0 (map_get (k, l) ops) else 0.
Proof.
  intros Hs. destruct (map_insert_perm ops (k, l) op Hs) as (ops' & Hi & Ho).
  rewrite Hi. rewrite net_cons.
  destruct (map_get (k, l) ops) as [op0|]; rewrite Ho.
  - rewrite net_cons. simpl. case_decide; lia.
  - simpl. case_decide; lia.
Qed.

(** ** Ancestors *)

(** What stays true of the operations of a batch of votes while they are collected. *)
Record OpsOk (m : Nodes) (except : SlotHashKey → Prop) (ops : list Entry) : Prop := {
  oo_sorted : map_sorted ops;
  oo_label : labelled ops;
  oo_closed : closed m except ops;
}.

Lemma OpsOk_weaken m (e e' : SlotHashKey → Prop) ops :
  (∀ k, e k → e' k) → OpsOk m e ops → OpsOk m e' ops.
Proof. intros He [Hs Hl Hc]. split; [done..|]. intros k l op p Hin Hk. eapply Hc; eauto. Qed.

Lemma OpsOk_insert m e ops k op :
  OpsOk m e ops → OpsOk m (λ x, e x ∨ x = k) (map_insert (k, label_of op) op ops).
Proof.
  intros [Hs Hl Hc].
  split; [by apply map_insert_sorted|by apply labelled_insert|by apply closed_insert].
Qed.

(** An aggregation of a block makes the entries of its children complete. *)
Lemma OpsOk_agg m (e : SlotHashKey → Prop) ops k p :
  par m k = Some p → agg_entry p ∈ ops → OpsOk m (λ x, e x ∨ x = k) ops → OpsOk m e ops.
Proof.
  intros Hp Hag [Hs Hl Hc]. split; [done..|]. intros k' l op p' Hin He Hp'.
  destruct (decide (k' = k)) as [->|]; [by simplify_eq|]. eapply Hc; [done| |done]. tauto.
Qed.

(** The loop over the ancestors closes the batch again, also where it stops early
    at a block whose aggregation is already there. Everything else stays. *)
Lemma insert_aggregates_spec r m k ops : Tree r m → OpsOk m (λ x, x = k) ops →
  let ops' := Fork.insert_aggregates None (ancs m k) ops in
  OpsOk m (λ _, False) ops' ∧ (∀ k', net ops' k' = net ops k') ∧
  (∀ k' l, l ≠ LAggregate → map_get (k', l) ops' = map_get (k', l) ops) ∧
  (∀ k', agg_entry k' ∈ ops → agg_entry k' ∈ ops').
Proof.
  intros HT. revert ops. induction k as [k IH] using (tree_ind_down HT). intros ops HO.
  destruct (par m k) as [p|] eqn:Hp.
  - rewrite (ancs_par HT k p Hp). cbn [Fork.insert_aggregates].
    unfold Fork.do_insert_aggregate_operation.
    destruct (map_get (p, LAggregate) ops) as [op|] eqn:E.
    + cbn beta iota. split; [|done]. apply (OpsOk_agg m _ ops k p Hp).
      * apply agg_entry_get; [apply HO..|]. by rewrite E.
      * eapply OpsOk_weaken, HO. naive_solver.
    + cbn beta iota. destruct (IH p eq_refl (map_insert (p, LAggregate) OpAggregate ops)) as (H1 & H2 & H3 & H4).
      * apply (OpsOk_agg m _ _ k p Hp).
        -- apply elem_of_map_insert; [apply HO|by left].
        -- eapply OpsOk_weaken, (OpsOk_insert m _ ops p OpAggregate HO). naive_solver.
      * split_and!; [done| | |].
        -- intros k'. rewrite H2, net_insert by apply HO. rewrite E. simpl. case_decide; lia.
        -- intros k' l Hl. rewrite H3, map_get_insert, decide_False by congruence. done.
        -- intros k' Hin. apply H4, (agg_entry_insert ops p k' OpAggregate); [apply HO..|done].
  - rewrite (ancs_None k Hp). simpl. split_and!; [|done..]. destruct HO as [Hs Hl Hc].
    split; [done..|]. intros k' l op p Hin _ Hp'. eapply Hc; [done| |done]. congruence.
Qed.

(** * One vote *)

(** The operations that move stake. *)
Inductive move := MAdd | MSub.
Definition move_op (d : move) (s : Z) : UpdateOperation :=
  match d with MAdd => OpAdd s | MSub => OpSubtract s end.
Definition move_label (d : move) : UpdateLabel := match d with MAdd => LAdd | MSub => LSubtract end.
Definition moved (o : option UpdateOperation) : Z :=
  match o with Some (OpAdd s) | Some (OpSubtract s) => s | _ => 0 end.

(** A batch in which every entry of the given kind moves a nonnegative stake. *)
Definition moves (d : move) (ops : list Entry) : Prop :=
  ∀ k op, map_get (k, move_label d) ops = Some op → ∃ s, op = move_op d s ∧ 0 ≤ s.

Lemma move_stake_spec self r d k st ops :
  let m := fork_infos self in
  Tree r m → OpsOk m (λ _, False) ops → moves d ops → 0 ≤ st →
  st + moved (map_get (k, move_label d) ops) ≤ u64_MAX →
  ∃ ops', (ops1 ← Fork.entry_add_stake (k, move_label d) (move_op d st) st ops;
           Fork.insert_aggregate_operations self k ops1) = Ret ops' ∧
    OpsOk m (λ _, False) ops' ∧
    (∀ k', net ops' k' = net ops k' + if decide (k = k') then delta (move_op d st) else 0) ∧
    map_get (k, move_label d) ops' = Some (move_op d (st + moved (map_get (k, move_label d) ops))) ∧
    (∀ k' l, l ≠ LAggregate → (k', l) ≠ (k, move_label d) → map_get (k', l) ops' = map_get (k', l) ops).
Proof.
  intros m HT HO Hmv Hst Hmax. set (s' := st + moved (map_get (k, move_label d) ops)) in *.
  assert (Fork.entry_add_stake (k, move_label d) (move_op d st) st ops =
    Ret (map_insert (k, move_label d) (move_op d s') ops)) as ->.
  { unfold Fork.entry_add_stake, s'. destruct (map_get (k, move_label d) ops) as [op|] eqn:E; simpl.
    - destruct (Hmv k op E) as (s0 & -> & Hs0). unfold s' in Hmax. simpl in Hmax.
      destruct d; simpl in *; rewrite add_Ret, (Z.add_comm s0) by lia; done.
    - by rewrite Z.add_0_r. }
  run. unfold Fork.insert_aggregate_operations,
    Fork.do_insert_aggregate_operations_across_ancestors.
  rewrite (ancestor_iterator_spec self r k HT). simpl. fold m.
  assert (label_of (move_op d s') = move_label d) as Hlab by (by destruct d).
  destruct (insert_aggregates_spec r m k (map_insert (k, move_label d) (move_op d s') ops) HT) as (H1 & H2 & H3 & _).
  { rewrite <-Hlab. eapply OpsOk_weaken, OpsOk_insert, HO. naive_solver. }
  eexists. split; [reflexivity|]. split_and!; [done| | |].
  - intros k'. rewrite H2, net_insert by apply HO. f_equal. case_decide; [|done].
    unfold s'. destruct (map_get (k, move_label d) ops) as [op|] eqn:E; simpl.
    + destruct (Hmv k op E) as (s0 & -> & _). destruct d; simpl; lia.
    + destruct d; simpl; lia.
  - rewrite H3 by (by destruct d). by rewrite map_get_insert, decide_True.
  - intros k' l Hl Hne. rewrite H3 by done. by rewrite map_get_insert, decide_False.
Qed.

(** The latest votes of the validators that were observed so far. *)
Definition seen (obs : gset Pubkey) (votes : gmap Pubkey SlotHashKey) : gmap Pubkey SlotHashKey :=
  filter (λ x, x.1 ∈ obs) votes.

Lemma seen_None obs votes pk : pk ∉ obs → seen obs votes !! pk = None.
Proof. intros H. apply map_lookup_filter_None. naive_solver. Qed.

Lemma seen_observe obs votes pk : seen ({[pk]} ∪ obs) votes =
  match votes !! pk with Some k => <[pk := k]> (seen obs votes) | None => seen obs votes end.
Proof.
  apply map_eq. intros pk'. apply option_eq. intros k'. unfold seen.
  rewrite map_lookup_filter_Some. destruct (votes !! pk) as [k|] eqn:E.
  - rewrite lookup_insert_Some, map_lookup_filter_Some. simpl.
    destruct (decide (pk = pk')); set_solver.
  - rewrite map_lookup_filter_Some. simpl. destruct (decide (pk = pk')); set_solver.
Qed.

Lemma tally_seen_le f obs votes :
  (∀ pk k, 0 ≤ f pk k) → tally f (seen obs votes) ≤ tally f votes.
Proof.
  intros Hf. induction votes as [|pk k votes Hpk IH] using map_ind; [done|].
  rewrite (tally_insert f votes), Hpk. simpl. pose proof (Hf pk k). unfold seen in *.
  destruct (decide (pk ∈ obs)) as [Hin|Hin].
  - rewrite map_filter_insert_True by done. rewrite tally_insert.
    rewrite (proj2 (map_lookup_filter_None _ _ _)) by naive_solver. simpl. lia.
  - rewrite map_filter_insert_not' by (done || by intros ? ? ?). lia.
Qed.

(** [generate_update_operations] ignores a vote that is not newer: for an earlier
    slot, or for the same slot with a hash that is not smaller. *)
Definition outdated (old new : SlotHashKey) : bool :=
  (new.1 <? old.1) || ((new.1 =? old.1) && (old.2 <=? new.2)).

(** The latest votes after one more vote. *)
Definition record_vote (root : Slot) (votes : gmap Pubkey SlotHashKey)
    (pv : Pubkey * SlotHashKey) : gmap Pubkey SlotHashKey :=
  let '(pk, new) := pv in
  if new.1 <? root then votes
  else match votes !! pk with
       | Some old => if outdated old new then votes else <[pk := new]> votes
       | None => <[pk := new]> votes
       end.

Section generate.
Context (get_epoch : Slot → Z) (epoch_stakes : gmap Z (Pubkey → Z)).
Let stake := Fork.vote_stake get_epoch epoch_stakes.
Context (stake_nonneg : ∀ pk s, 0 ≤ stake pk s).
Context (stake_supply : ∀ votes, 2 * total stake votes ≤ u64_MAX).
Context (self : HeaviestSubtreeForkChoice) (r : SlotHashKey) (HT : Tree r (fork_infos self)).
Let m := fork_infos self.
Let votes0 := latest_votes self.

Record Gen (g : Fork.Generating) : Prop := {
  ge_ops : OpsOk m (λ _, False) (Fork.gen_operations g);
  ge_net : ∀ k, net (Fork.gen_operations g) k =
    at_total stake (Fork.gen_votes g) k - at_total stake votes0 k;
  ge_sub : ∀ k op, map_get (k, LSubtract) (Fork.gen_operations g) = Some op → ∃ s,
    op = OpSubtract s ∧ 0 ≤ s ≤ at_total stake (seen (Fork.gen_observed g) votes0) k;
  ge_add : ∀ k op, map_get (k, LAdd) (Fork.gen_operations g) = Some op → ∃ s,
    op = OpAdd s ∧ 0 ≤ s ≤ at_total stake (seen (Fork.gen_observed g) (Fork.gen_votes g)) k;
  ge_nomark : ∀ k op, is_mark op = true → map_get (k, label_of op) (Fork.gen_operations g) = None;
  ge_same : ∀ pk, pk ∉ Fork.gen_observed g → Fork.gen_votes g !! pk = votes0 !! pk;
}.

Lemma at_total_insert votes pk k n :
  at_total stake (<[pk := k]> votes) n =
  at_total stake votes n
  - from_option (λ k', if decide (k' = n) then stake pk k'.1 else 0) 0 (votes !! pk)
  + if decide (k = n) then stake pk k.1 else 0.
Proof. apply tally_insert. Qed.

Lemma at_total_observe obs votes pk n : pk ∉ obs →
  at_total stake (seen ({[pk]} ∪ obs) votes) n = at_total stake (seen obs votes) n +
    from_option (λ k', if decide (k' = n) then stake pk k'.1 else 0) 0 (votes !! pk).
Proof.
  intros Hpk. rewrite seen_observe. destruct (votes !! pk) as [k|]; simpl; [|lia].
  rewrite at_total_insert, seen_None by done. simpl. lia.
Qed.

Lemma at_total_observe_le obs votes pk n : pk ∉ obs →
  at_total stake (seen obs votes) n ≤ at_total stake (seen ({[pk]} ∪ obs) votes) n.
Proof.
  intros Hpk. rewrite at_total_observe by done. destruct (votes !! pk) as [k|]; simpl; [|lia].
  pose proof (stake_nonneg pk k.1). case_decide; lia.
Qed.

Lemma Gen_moves_sub g : Gen g → moves MSub (Fork.gen_operations g).
Proof. intros HG k op E. destruct (ge_sub g HG k op E) as (s & -> & Hs). exists s. split; [done|lia]. Qed.
Lemma Gen_moves_add g : Gen g → moves MAdd (Fork.gen_operations g).
Proof. intros HG k op E. destruct (ge_add g HG k op E) as (s & -> & Hs). exists s. split; [done|lia]. Qed.

(** Taking the stake away from the block of the old vote. *)
Lemma subtract_phase g pk old : Gen g → pk ∉ Fork.gen_observed g → Fork.gen_votes g !! pk = Some old →
  let st := stake pk old.1 in let ops := Fork.gen_operations g in
  ∃ ops', (if 0 <? st then
             ops1 ← Fork.entry_add_stake (old, LSubtract) (OpSubtract st) st ops;
             Fork.insert_aggregate_operations self old ops1
           else Ret ops) = Ret ops' ∧
    OpsOk m (λ _, False) ops' ∧
    (∀ k, net ops' k = net ops k - if decide (old = k) then st else 0) ∧
    (∀ k op, map_get (k, LSubtract) ops' = Some op → ∃ s,
       op = OpSubtract s ∧ 0 ≤ s ≤ at_total stake (seen ({[pk]} ∪ Fork.gen_observed g) votes0) k) ∧
    (∀ k l, l ≠ LAggregate → l ≠ LSubtract → map_get (k, l) ops' = map_get (k, l) ops).
Proof.
  intros HG Hpk Hold st ops. pose proof (stake_nonneg pk old.1 : 0 ≤ st) as Hst.
  assert (∀ k op, map_get (k, LSubtract) ops = Some op → ∃ s,
    op = OpSubtract s ∧ 0 ≤ s ≤ at_total stake (seen ({[pk]} ∪ Fork.gen_observed g) votes0) k) as Hle.
  { intros k op E. destruct (ge_sub g HG k op E) as (s & -> & Hs). exists s. split; [done|].
    pose proof (at_total_observe_le (Fork.gen_observed g) votes0 pk k Hpk). lia. }
  destruct (Z.ltb_spec 0 st) as [Hpos|Hz].
  2:{ exists ops. split_and!; [done|apply HG| |done|done]. intros k. case_decide; lia. }
  assert (st + moved (map_get (old, LSubtract) ops) ≤
    at_total stake (seen ({[pk]} ∪ Fork.gen_observed g) votes0) old) as Hbound.
  { rewrite at_total_observe by done. rewrite <-(ge_same g HG pk Hpk), Hold. simpl.
    rewrite decide_True by done. fold st.
    destruct (map_get (old, LSubtract) ops) as [op|] eqn:E.
    - destruct (ge_sub g HG old op E) as (s & -> & Hs). simpl. lia.
    - pose proof (at_total_bounds stake stake_nonneg (seen (Fork.gen_observed g) votes0) old). simpl. lia. }
  destruct (move_stake_spec self r MSub old st ops) as (ops' & Hrun & HO & Hnet & Hget & Hother);
    [done|apply HG|by apply Gen_moves_sub|done| |].
  { etrans; [exact Hbound|].
    pose proof (at_total_bounds stake stake_nonneg (seen ({[pk]} ∪ Fork.gen_observed g) votes0) old).
    pose proof (stake_supply (seen ({[pk]} ∪ Fork.gen_observed g) votes0)). lia. }
  exists ops'. split_and!; [exact Hrun|done| | |].
  - intros k. rewrite Hnet. simpl. case_decide; lia.
  - intros k op E. destruct (decide (k = old)) as [->|Hne].
    + cbn [move_label] in Hget. rewrite Hget in E. injection E as <-. eexists. split; [reflexivity|].
      split; [|done]. destruct (map_get (old, LSubtract) ops) as [op|] eqn:E; simpl; [|lia].
      destruct (ge_sub g HG old op E) as (s & -> & Hs). simpl. lia.
    + apply Hle. rewrite <-E. symmetry. apply Hother; [done|]. simpl. congruence.
  - intros k l H1 H2. apply Hother; [done|]. simpl. congruence.
Qed.

(** Adding it to the block of the new vote. *)
Lemma add_phase g pk new ops1 : Gen g → pk ∉ Fork.gen_observed g →
  let st := stake pk new.1 in let ops := Fork.gen_operations g in
  let obs' := {[pk]} ∪ Fork.gen_observed g in
  OpsOk m (λ _, False) ops1 →
  (∀ k, net ops1 k = net ops k
     - from_option (λ k', if decide (k' = k) then stake pk k'.1 else 0) 0 (Fork.gen_votes g !! pk)) →
  (∀ k op, map_get (k, LSubtract) ops1 = Some op → ∃ s,
     op = OpSubtract s ∧ 0 ≤ s ≤ at_total stake (seen obs' votes0) k) →
  (∀ k l, l ≠ LAggregate → l ≠ LSubtract → map_get (k, l) ops1 = map_get (k, l) ops) →
  ∃ ops', (ops ← Fork.entry_add_stake (new, LAdd) (OpAdd st) st ops1;
           Fork.insert_aggregate_operations self new ops) = Ret ops' ∧
    Gen {| Fork.gen_operations := ops'; Fork.gen_observed := obs';
           Fork.gen_votes := <[pk := new]> (Fork.gen_votes g) |}.
Proof.
  intros HG Hpk st ops obs' HO1 Hnet1 Hsub1 Hother1.
  pose proof (stake_nonneg pk new.1 : 0 ≤ st) as Hst.
  set (votes' := <[pk := new]> (Fork.gen_votes g)).
  assert (∀ k, at_total stake (seen obs' votes') k =
    at_total stake (seen (Fork.gen_observed g) (Fork.gen_votes g)) k + if decide (new = k) then st else 0) as Hseen.
  { intros k. unfold obs', votes'. rewrite at_total_observe by done. rewrite lookup_insert_eq. simpl.
    f_equal. f_equal. apply map_filter_insert_not'; simpl; [done|]. by intros ? ? ?. }
  assert (∀ k op, map_get (k, LAdd) ops1 = Some op → ∃ s,
    op = OpAdd s ∧ 0 ≤ s ≤ at_total stake (seen (Fork.gen_observed g) (Fork.gen_votes g)) k) as Hadd1.
  { intros k op. rewrite Hother1 by done. apply (ge_add g HG). }
  assert (st + moved (map_get (new, LAdd) ops1) ≤ at_total stake (seen obs' votes') new) as Hbound.
  { rewrite Hseen, decide_True by done. destruct (map_get (new, LAdd) ops1) as [op|] eqn:E.
    - destruct (Hadd1 new op E) as (s & -> & Hs). simpl. lia.
    - pose proof (at_total_bounds stake stake_nonneg (seen (Fork.gen_observed g) (Fork.gen_votes g)) new).
      simpl. lia. }
  destruct (move_stake_spec self r MAdd new st ops1) as (ops' & Hrun & HO & Hnet & Hget & Hother);
    [done|done| |done| |].
  { intros k op E. destruct (Hadd1 k op E) as (s & -> & Hs). exists s. split; [done|lia]. }
  { etrans; [exact Hbound|]. pose proof (stake_supply (seen obs' votes')).
    pose proof (at_total_bounds stake stake_nonneg (seen obs' votes') new). lia. }
  exists ops'. split; [exact Hrun|]. split; simpl; fold votes'.
  - done.
  - intros k. unfold votes'. rewrite Hnet, Hnet1, at_total_insert. fold ops in HG.
    pose proof (ge_net g HG k) as E. fold ops in E. rewrite E. simpl. fold st. lia.
  - intros k op. rewrite Hother by done. apply Hsub1.
  - intros k op E. rewrite Hseen. destruct (decide (new = k)) as [->|Hne].
    + cbn [move_label] in Hget. rewrite Hget in E. injection E as <-. eexists. split; [reflexivity|].
      rewrite Hseen, decide_True in Hbound by done. split; [|done].
      destruct (map_get (k, LAdd) ops1) as [op|] eqn:E; simpl; [|lia].
      destruct (Hadd1 k op E) as (s & -> & Hs). simpl. lia.
    + rewrite Hother in E by (simpl; congruence). destruct (Hadd1 k op E) as (s & -> & Hs).
      exists s. split; [done|lia].
  - intros k op Hop. rewrite Hother by (by destruct op). rewrite Hother1 by (by destruct op).
    by apply (ge_nomark g HG).
  - intros pk' Hpk'. unfold votes'. rewrite lookup_insert_ne by set_solver.
    apply (ge_same g HG). set_solver.
Qed.

Lemma generate_vote_spec g pv : Gen g →
  (tree_root self).1 ≤ pv.2.1 → pv.1 ∉ Fork.gen_observed g →
  ∃ g', Fork.generate_vote get_epoch epoch_stakes self pv g = Ret g' ∧ Gen g' ∧
    Fork.gen_votes g' = record_vote (tree_root self).1 (Fork.gen_votes g) pv ∧
    Fork.gen_observed g' = {[pv.1]} ∪ Fork.gen_observed g.
Proof.
  intros HG Hslot Hpk. destruct pv as [pk new]. simpl in *.
  rewrite (proj2 (Z.ltb_ge _ _) Hslot), bool_decide_eq_false_2 by done. cbn [negb assert_].
  run. fold stake. destruct (Fork.gen_votes g !! pk) as [old|] eqn:Hold.
  - fold (outdated old new). destruct (outdated old new) eqn:Hout.
    + eexists. split_and!; [reflexivity| |done|done]. destruct HG as [H1 H2 H3 H4 H5 H6].
      split; simpl; [done|done| | |done|].
      * intros k op E. destruct (H3 k op E) as (s & -> & Hs). exists s. split; [done|].
        pose proof (at_total_observe_le (Fork.gen_observed g) votes0 pk k Hpk). lia.
      * intros k op E. destruct (H4 k op E) as (s & -> & Hs). exists s. split; [done|].
        pose proof (at_total_observe_le (Fork.gen_observed g) (Fork.gen_votes g) pk k Hpk). lia.
      * intros pk' Hpk'. apply H6. set_solver.
    + assert ((if new.1 =? old.1 then new.2 <? old.2 else old.1 <? new.1) = true) as ->.
      { unfold outdated in Hout. destruct (Z.ltb_spec new.1 old.1), (Z.eqb_spec new.1 old.1),
          (Z.leb_spec old.2 new.2); simpl in Hout; try done; [apply Z.ltb_lt; lia..]. }
      cbn [assert_]. run.
      destruct (subtract_phase g pk old HG Hpk Hold) as (ops1 & Hrun1 & HO1 & Hnet1 & Hsub1 & Hother1).
      cbn zeta in Hrun1. rewrite Hrun1, bind_Ret_l.
      destruct (add_phase g pk new ops1 HG Hpk HO1) as (ops' & Hrun & HG'); [|done|done|].
      { intros k. rewrite Hold. simpl. apply Hnet1. }
      cbn zeta in Hrun. apply bind_Ret_inv in Hrun as (ops2 & -> & Hrun). rewrite bind_Ret_l, Hrun, bind_Ret_l.
      eexists. split_and!; [reflexivity|exact HG'|done|done].
  - run.
    destruct (add_phase g pk new (Fork.gen_operations g) HG Hpk) as (ops' & Hrun & HG'); [apply HG| | |done|].
    { intros k. rewrite Hold. simpl. lia. }
    { intros k op E. destruct (ge_sub g HG k op E) as (s & -> & Hs). exists s. split; [done|].
      pose proof (at_total_observe_le (Fork.gen_observed g) votes0 pk k Hpk). lia. }
    cbn zeta in Hrun. apply bind_Ret_inv in Hrun as (ops2 & -> & Hrun). rewrite bind_Ret_l, Hrun, bind_Ret_l.
    eexists. split_and!; [reflexivity|exact HG'|done|done].
Qed.

(** * A batch of votes *)

(** The votes of a batch that are not for slots before the root. *)
Definition relevant (root : Slot) (pvs : list (Pubkey * SlotHashKey)) : list (Pubkey * SlotHashKey) :=
  filter (λ pv, root ≤ pv.2.1) pvs.

Lemma Gen_init : Gen {| Fork.gen_operations := []; Fork.gen_observed := ∅; Fork.gen_votes := votes0 |}.
Proof.
  split; simpl; [|intros k; unfold net, sumZ; simpl; lia|done..].
  split; [constructor|intros ? ? ? []%not_elem_of_nil|intros ? ? ? ? []%not_elem_of_nil].
Qed.

Lemma generate_spec pvs : NoDup (relevant (tree_root self).1 pvs).*1 →
  ∃ ops, Fork.generate_update_operations get_epoch epoch_stakes pvs self =
    Ret (ops, Fork.set_votes (foldl (record_vote (tree_root self).1) votes0 pvs) self) ∧
    Gen {| Fork.gen_operations := ops; Fork.gen_observed := list_to_set (relevant (tree_root self).1 pvs).*1;
           Fork.gen_votes := foldl (record_vote (tree_root self).1) votes0 pvs |}.
Proof.
  intros Hnd. unfold Fork.generate_update_operations. fold votes0. set (root := (tree_root self).1) in *.
  destruct (for_each_inv (λ don g, Gen g ∧
    Fork.gen_votes g = foldl (record_vote root) votes0 don ∧
    Fork.gen_observed g = list_to_set (relevant root don).*1)
    (Fork.generate_vote get_epoch epoch_stakes self) pvs
    {| Fork.gen_operations := []; Fork.gen_observed := ∅; Fork.gen_votes := votes0 |})
    as (g & -> & HG & Hv & Ho).
  - split_and!; [apply Gen_init|done|done].
  - intros don [pk new] todo g -> (HG & Hv & Ho). unfold relevant in Hnd.
    rewrite filter_app, filter_cons in Hnd.
    destruct (decide (root ≤ new.1)) as [Hle|Hlt]; simpl in Hnd.
    + rewrite decide_True in Hnd by done. rewrite fmap_app, fmap_cons in Hnd.
      apply NoDup_app in Hnd as (_ & Hd & _).
      destruct (generate_vote_spec g (pk, new)) as (g' & -> & HG' & Hv' & Ho'); [done|done| |].
      { simpl. rewrite Ho. intros Hin%elem_of_list_to_set. apply (Hd pk Hin). left. }
      exists g'. split_and!; [done|done| |].
      * rewrite Hv', Hv, foldl_app. done.
      * rewrite Ho', Ho. unfold relevant. rewrite filter_app, filter_cons, decide_True by done.
        rewrite fmap_app, list_to_set_app_L, fmap_cons. simpl. set_solver.
    + exists g. assert ((new.1 <? root) = true) as E by (apply Z.ltb_lt; lia). simpl. fold root. rewrite E.
      split_and!; [done|done| |].
      * rewrite foldl_app, <-Hv. simpl. by rewrite E.
      * unfold relevant. rewrite filter_app, filter_cons, decide_False by done. simpl.
        by rewrite app_nil_r.
  - exists (Fork.gen_operations g). rewrite bind_Ret_l, Hv. split; [done|].
    destruct g; simpl in *. by subst.
Qed.

(** A second vote of a validator in a batch panics. *)
Lemma generate_twice pvs g : Gen g →
  ¬ NoDup (relevant (tree_root self).1 pvs).*1 ∨
    (∃ pk, pk ∈ (relevant (tree_root self).1 pvs).*1 ∧ pk ∈ Fork.gen_observed g) →
  for_each (Fork.generate_vote get_epoch epoch_stakes self) pvs g = Panic.
Proof.
  revert g. induction pvs as [|[pk new] pvs IH]; intros g HG Htwice.
  { destruct Htwice as [[]|(pk & []%not_elem_of_nil & _)]. constructor. }
  cbn [for_each]. unfold relevant in Htwice. rewrite filter_cons in Htwice.
  destruct (decide (pk ∈ Fork.gen_observed g ∧ (tree_root self).1 ≤ new.1)) as [[Hobs Hle]|Hno].
  { unfold Fork.generate_vote. by rewrite (proj2 (Z.ltb_ge _ _) Hle), bool_decide_eq_true_2. }
  case_decide as Hle; simpl in Hle.
  - destruct (generate_vote_spec g (pk, new) HG Hle) as (g' & -> & HG' & _ & Ho'); [by intros ?; apply Hno|].
    rewrite bind_Ret_l. apply IH; [done|]. rewrite Ho'. simpl in *.
    destruct Htwice as [Hnd|(pk' & [->|Hin]%elem_of_cons & Hobs)]; [|by destruct Hno|right; set_solver].
    rewrite NoDup_cons in Hnd. destruct (decide (pk ∈ (relevant (tree_root self).1 pvs).*1)) as [Hin|Hin].
    + right. exists pk. set_solver.
    + left. intros ?. by apply Hnd.
  - assert (Fork.generate_vote get_epoch epoch_stakes self (pk, new) g = Ret g) as ->.
    { unfold Fork.generate_vote. by rewrite (proj2 (Z.ltb_lt _ _)) by lia. }
    rewrite bind_Ret_l. by apply IH.
Qed.

Lemma generate_panics pvs : ¬ NoDup (relevant (tree_root self).1 pvs).*1 →
  Fork.generate_update_operations get_epoch epoch_stakes pvs self = Panic.
Proof.
  intros Hnd. unfold Fork.generate_update_operations. fold votes0.
  by rewrite (generate_twice pvs _ Gen_init (or_introl Hnd)).
Qed.
End generate.
