(* ===== verification/ForkInv.v ===== *)
(** The invariant of the fork choice tree, and that batches of votes keep it. *)

From S2P Require Import Prelude BTree ForkChoice ForkTree ForkAggregate ForkBatch ForkVotes.

Definition inv_of (m : Nodes) (k : SlotHashKey) : option Slot := m !! k ≫= latest_invalid_ancestor.

(** Validity: the latest invalid ancestor is not in a later slot, a duplicate
    confirmed block has none, and a child of an invalid block is invalid, by an
    ancestor that is not older. *)
Record Valid (m : Nodes) : Prop := {
  va_slot : ∀ k s, inv_of m k = Some s → s ≤ k.1;
  va_conf : ∀ k, conf m k = true → inv_of m k = None;
  va_mono : ∀ k p s, par m k = Some p → inv_of m p = Some s → ∃ s', inv_of m k = Some s' ∧ s ≤ s';
}.

Lemma cand_inv m k : cand m k ↔ is_Some (m !! k) ∧ inv_of m k = None.
Proof.
  unfold cand, inv_of. split; [intros (i & -> & ?); eauto|].
  intros [[i Hi] H]. rewrite Hi in H. eauto.
Qed.

Lemma Valid_ext m m' :
  (∀ k, validity <$> m !! k = validity <$> m' !! k) → (∀ k, par m k = par m' k) → Valid m → Valid m'.
Proof.
  intros Hv Hp [H1 H2 H3].
  assert (∀ k, inv_of m k = inv_of m' k ∧ conf m k = conf m' k) as E.
  { intros k. specialize (Hv k). unfold inv_of, conf.
    destruct (m !! k), (m' !! k); simplify_eq/=; by split. }
  split.
  - intros k s. rewrite <-(proj1 (E k)). apply H1.
  - intros k. rewrite <-(proj1 (E k)), <-(proj2 (E k)). apply H2.
  - intros k p s. rewrite <-Hp, <-!(proj1 (E _)). apply H3.
Qed.

(** The stakes of the votes: nonnegative, and in sum less than half of the range of
    the counters. *)
Class StakeLaws (get_epoch : Slot → Z) (epoch_stakes : gmap Z (Pubkey → Z)) : Prop := {
  stake_nonneg : ∀ pk s, 0 ≤ Fork.vote_stake get_epoch epoch_stakes pk s;
  stake_supply : ∀ votes, 2 * total (Fork.vote_stake get_epoch epoch_stakes) votes ≤ u64_MAX;
}.

Section inv.
Context {get_epoch : Slot → Z} {epoch_stakes : gmap Z (Pubkey → Z)} `{HSL : !StakeLaws get_epoch epoch_stakes}.
Local Abbreviation stake := (Fork.vote_stake get_epoch epoch_stakes).

Record FInv (self : HeaviestSubtreeForkChoice) : Prop := {
  fi_tree : Tree (tree_root self) (fork_infos self);
  fi_ok : ∀ k i, fork_infos self !! k = Some i →
    NodeOk (fork_infos self) k i ∧ Bounded (fork_infos self) k i;
  fi_at : ∀ k i, fork_infos self !! k = Some i →
    stake_voted_at i = at_total stake (latest_votes self) k;
  fi_valid : Valid (fork_infos self);
  fi_default : fork_infos self !! key_default = None;
}.

(** The stake of a subtree is the stake of the latest votes in it. *)
Lemma FInv_wt self k : FInv self → is_Some (fork_infos self !! k) →
  wt (fork_infos self) k = sub_total stake (fork_infos self) (latest_votes self) k.
Proof.
  intros [HT Hok Hat _ _]. induction k as [k IH] using (tree_ind_up HT). intros [i Hi].
  destruct (Hok k i Hi) as [Hn _]. rewrite (sub_total_step stake _ _ _ k HT).
  unfold wt at 1. rewrite Hi. simpl. rewrite (ok_sum _ _ _ Hn), (Hat k i Hi). f_equal.
  rewrite <-(kids_Some _ k i Hi). apply sumZ_ext_in. intros c Hc. apply IH; [done|].
  by eapply (kid_node HT).
Qed.

(** Operations that only move stake and aggregate keep the validity of a node. *)
Lemma vrun_votes self k i ops : FInv self → fork_infos self !! k = Some i →
  (∀ op, op ∈ ops → is_mark op = false) →
  vrun (m0 := fork_infos self) (λ k, from_option validity (None, false) (fork_infos self !! k))
    k (validity i) ops = validity i.
Proof.
  intros HI Hi. unfold vrun. induction ops as [|op ops IH]; intros Hnm; [done|]. simpl.
  assert (is_mark op = false) as Hop by (apply Hnm; left).
  enough (vstep (existsb (λ c, (from_option validity (None, false) (fork_infos self !! c)).2)
    (kids (fork_infos self) k)) k (validity i) op = validity i) as ->.
  { apply IH. intros. apply Hnm. by right. }
  destruct op; try done. simpl. destruct (existsb _ _) eqn:E; [|done].
  apply existsb_exists in E as (c & Hc%list_elem_of_In & Hcf).
  destruct (fi_ok self HI k i Hi) as [Hok _]. rewrite (kids_Some _ k i Hi) in Hc.
  assert (is_duplicate_confirmed i = true) as Hconf.
  { apply (ok_conf _ _ _ Hok c Hc). unfold conf. by destruct (fork_infos self !! c). }
  pose proof (va_conf _ (fi_valid self HI) k) as Hn. unfold conf, inv_of in Hn.
  rewrite Hi in Hn. simpl in Hn. unfold validity. by rewrite Hn, Hconf.
Qed.

(** A batch of votes is one that can be processed. *)
Lemma votes_Batch self ops obs votes' : FInv self →
  Gen get_epoch epoch_stakes self {| Fork.gen_operations := ops; Fork.gen_observed := obs; Fork.gen_votes := votes' |} →
  Batch (m0 := fork_infos self) (rev ops) (u64_MAX / 2)
    (sub_total stake (fork_infos self) votes')
    (λ k, from_option validity (None, false) (fork_infos self !! k)).
Proof.
  intros HI HG. set (m := fork_infos self). pose proof (fi_tree self HI) as HT. fold m in HT.
  destruct (ge_ops _ _ _ _ HG) as [Hs Hl Hc]. simpl in Hs, Hl, Hc. fold m in Hc.
  assert (∀ k l op, (k, l, op) ∈ rev ops → is_mark op = false) as Hnm.
  { intros k l op. rewrite rev_perm. intros Hin. destruct (is_mark op) eqn:E; [|done].
    pose proof (ge_nomark _ _ _ _ HG k op E) as Hn. simpl in Hn. rewrite <-(Hl k l op Hin) in Hn.
    apply map_get_Some in Hin; [congruence|done]. }
  assert (∀ votes, total stake votes ≤ u64_MAX / 2) as Hhalf.
  { intros votes. pose proof (stake_supply votes). apply Z.div_le_lower_bound; lia. }
  split.
  - by apply StronglySorted_rev in Hs.
  - intros k l op. rewrite rev_perm. apply Hl.
  - intros k l op p. rewrite !rev_perm. intros Hin. eapply Hc; [done|tauto].
  - intros k l op Hin. by rewrite (Hnm k l op Hin).
  - intros k l s Hin [i Hi]. rewrite rev_perm in Hin. pose proof (Hl _ _ _ Hin) as ->.
    apply map_get_Some in Hin; [|done]. destruct (ge_sub _ _ _ _ HG k _ Hin) as (s' & [= <-] & Hle).
    unfold vat. rewrite Hi. simpl. rewrite (fi_at self HI k i Hi). split; [lia|].
    etrans; [apply Hle|]. apply tally_seen_le. intros pk k'. pose proof (stake_nonneg pk k'.1).
    case_decide; lia.
  - intros k l s Hin. rewrite rev_perm in Hin. pose proof (Hl _ _ _ Hin) as ->.
    apply map_get_Some in Hin; [|done]. destruct (ge_add _ _ _ _ HG k _ Hin) as (s' & [= <-] & Hle).
    pose proof (at_total_bounds stake stake_nonneg (seen obs votes') k). simpl in *.
    pose proof (Hhalf (seen obs votes')). lia.
  - apply Z.mul_div_le. done.
  - intros k Hk. unfold m. rewrite (FInv_wt self k HI Hk). etrans; [apply sub_total_bounds, stake_nonneg|done].
  - intros k [i Hi]. rewrite rev_perm.
    pose proof (ge_net _ _ _ _ HG k) as Hnet. simpl in Hnet. rewrite Hnet.
    unfold vat. rewrite Hi. simpl. rewrite (fi_at self HI k i Hi).
    replace (_ + (_ - _)) with (at_total stake votes' k) by lia.
    pose proof (at_total_bounds stake stake_nonneg votes' k).
    pose proof (sub_total_bounds stake stake_nonneg m votes' k). pose proof (Hhalf votes').
    split_and!; [by apply (sub_total_step stake (tree_root self))|lia..].
  - intros k i Hi. unfold m in *. rewrite vrun_votes; [by rewrite Hi|done..|].
    intros op [l Hin]%elem_of_ops_at. by eapply Hnm.
  - intros don k l s todo i HL. exfalso. enough (is_mark (OpMarkInvalid s) = false) by done.
    apply (Hnm k l). rewrite HL. set_solver.
Qed.

(** The invariant after a processed batch. *)
Lemma FInv_processed self L tot vspec m votes' : FInv self →
  Processed (m0 := fork_infos self) L tot vspec m →
  (∀ k i, m !! k = Some i → stake_voted_at i = at_total stake votes' k) → Valid m →
  FInv {| fork_infos := m; latest_votes := votes'; tree_root := tree_root self |}.
Proof.
  intros HI HP Hat Hv. pose proof (pr_shape _ _ _ _ HP) as Hsh. split; simpl.
  - by apply (same_shape_Tree Hsh), (fi_tree self HI).
  - intros k i Hi. split; [by apply (pr_ok _ _ _ _ HP)|].
    destruct (pr_bounds _ _ _ _ HP k i Hi) as (? & ? & ? & Hb).
    split_and!; [lia..|]. by apply (same_shape_below Hsh).
  - done.
  - done.
  - destruct (m !! key_default) as [i|] eqn:E; [|done].
    destruct (proj2 (same_shape_node Hsh key_default)) as [j Hj]; [eauto|].
    by rewrite (fi_default self HI) in Hj.
Qed.

(** A batch with two votes of one validator panics. *)
Lemma add_votes_panics self pvs : FInv self → ¬ NoDup (relevant (tree_root self).1 pvs).*1 →
  Fork.add_votes get_epoch epoch_stakes pvs self = Panic.
Proof.
  intros HI Hnd. unfold Fork.add_votes.
  by rewrite (generate_panics get_epoch epoch_stakes stake_nonneg stake_supply self _ (fi_tree self HI) pvs Hnd).
Qed.

(** [add_votes] keeps the invariant, records exactly the votes that are newer, and
    changes the validity of no block. *)
Lemma add_votes_spec self pvs : FInv self →
  NoDup (relevant (tree_root self).1 pvs).*1 →
  ∃ self', Fork.add_votes get_epoch epoch_stakes pvs self = Ret (bst (fork_infos self') (tree_root self), self') ∧
    FInv self' ∧ tree_root self' = tree_root self ∧
    latest_votes self' = foldl (record_vote (tree_root self).1) (latest_votes self) pvs ∧
    same_shape (fork_infos self) (fork_infos self') ∧
    (∀ k, validity <$> fork_infos self' !! k = validity <$> fork_infos self !! k).
Proof.
  intros HI Hnd. pose proof (fi_tree self HI) as HT.
  destruct (generate_spec get_epoch epoch_stakes stake_nonneg stake_supply self _ HT pvs Hnd)
    as (ops & Hrun & HG).
  set (votes' := foldl (record_vote (tree_root self).1) (latest_votes self) pvs) in *.
  pose proof (votes_Batch self ops _ votes' HI HG) as HB.
  destruct (process_batch HT _ _ _ _ HB (fi_ok self HI) (Fork.set_votes votes' self)) as (m & Hproc & HP); [done|].
  rewrite rev_involutive in Hproc. unfold Fork.add_votes. rewrite Hrun, bind_Ret_l, Hproc, bind_Ret_l.
  pose proof (pr_shape _ _ _ _ HP) as Hsh.
  assert (∀ k, validity <$> m !! k = validity <$> fork_infos self !! k) as Hval.
  { intros k. destruct (m !! k) as [i|] eqn:Hi; simpl.
    - rewrite (pr_valid _ _ _ _ HP k i Hi).
      destruct (proj2 (same_shape_node Hsh k)) as [j Hj]; [eauto|]. by rewrite Hj.
    - destruct (fork_infos self !! k) as [j|] eqn:Hj; [|done].
      destruct (proj1 (same_shape_node Hsh k)) as [i Hi']; [eauto|]. congruence. }
  exists {| fork_infos := m; latest_votes := votes'; tree_root := tree_root self |}.
  unfold Fork.best_overall_slot, Fork.best_slot. simpl.
  destruct (tree_has_root _ _ HT) as (i0 & Hi0 & _).
  destruct (proj1 (same_shape_node Hsh (tree_root self))) as [i Hi]; [eauto|].
  rewrite Hi. simpl. split_and!; [unfold bst; by rewrite Hi| |done..].
  eapply FInv_processed; [done|exact HP| |].
  - intros k j Hj. rewrite (pr_at _ _ _ _ HP k j Hj), rev_perm.
    pose proof (ge_net _ _ _ _ HG k) as Hnet. simpl in Hnet. rewrite Hnet.
    destruct (proj2 (same_shape_node Hsh k)) as [j0 Hj0]; [eauto|].
    unfold vat. rewrite Hj0. simpl. rewrite (fi_at self HI k j0 Hj0). lia.
  - eapply Valid_ext, (fi_valid self HI); intros k; [by rewrite Hval|by apply same_shape_par].
Qed.
End inv.
