(* ===== verification/ForkMarks.v ===== *)
(** Marking forks as invalid or as duplicate confirmed keeps the invariant, and
    what it does to the validity of the blocks. *)

From S2P Require Import Prelude BTree ForkChoice ForkTree ForkAggregate ForkBatch ForkVotes ForkInv.

(** * The operations of a mark *)

Lemma insert_mark_spec mark don k ops : is_mark mark = true → k ∉ don →
  map_sorted ops →
  (∀ x, x ∈ ops ↔ ∃ k', k' ∈ don ∧ (x = ((k', label_of mark), mark) ∨ x = agg_entry k')) →
  let ops' := (Fork.do_insert_aggregate_operation (Some mark) k ops).2 in
  map_sorted ops' ∧
  (∀ x, x ∈ ops' ↔ ∃ k', k' ∈ don ++ [k] ∧ (x = ((k', label_of mark), mark) ∨ x = agg_entry k')).
Proof.
  intros Hm Hk Hs Hops. unfold Fork.do_insert_aggregate_operation.
  assert (map_get (k, LAggregate) ops = None) as ->.
  { destruct (map_get (k, LAggregate) ops) as [op|] eqn:E; [|done].
    apply map_get_Some in E; [|done]. apply Hops in E as (k' & Hin & [E|E]); unfold agg_entry in E.
    - injection E as -> E _. by destruct mark.
    - by injection E as ->. }
  assert ((match Some mark with
    | Some (OpMarkValid slot) => map_insert (k, LMarkValid slot) (OpMarkValid slot) ops
    | Some (OpMarkInvalid slot) => map_insert (k, LMarkInvalid slot) (OpMarkInvalid slot) ops
    | _ => ops end) = map_insert (k, label_of mark) mark ops) as -> by (by destruct mark).
  cbn zeta. cbn [snd]. assert (label_of mark ≠ LAggregate) as Hne by (by destruct mark).
  split; [by apply map_insert_sorted, map_insert_sorted|]. intros x.
  rewrite !elem_of_map_insert by (done || by apply map_insert_sorted). rewrite Hops.
  setoid_rewrite elem_of_app. setoid_rewrite list_elem_of_singleton. unfold agg_entry. split.
  - intros [->|[_ [->|[_ (k' & ? & ?)]]]]; eauto 6.
  - intros (k' & [Hin| ->] & [->| ->]).
    + right. simpl. split; [congruence|]. right. split; [congruence|]. eauto.
    + right. simpl. split; [congruence|]. right. split; [congruence|]. eauto.
    + right. simpl. split; [congruence|]. by left.
    + by left.
Qed.

Lemma insert_marks_spec mark keys : is_mark mark = true →
  let ops := Fork.insert_marks mark keys [] in
  map_sorted ops ∧
  (∀ x, x ∈ ops ↔ ∃ k, k ∈ keys ∧ (x = ((k, label_of mark), mark) ∨ x = agg_entry k)).
Proof.
  intros Hm. unfold Fork.insert_marks.
  assert (∀ todo don ops, NoDup (don ++ todo) → map_sorted ops →
    (∀ x, x ∈ ops ↔ ∃ k, k ∈ don ∧ (x = ((k, label_of mark), mark) ∨ x = agg_entry k)) →
    let ops' := fold_left (λ ops k, (Fork.do_insert_aggregate_operation (Some mark) k ops).2) todo ops in
    map_sorted ops' ∧
    (∀ x, x ∈ ops' ↔ ∃ k, k ∈ don ++ todo ∧ (x = ((k, label_of mark), mark) ∨ x = agg_entry k))) as H.
  { induction todo as [|k todo IH]; intros don ops Hnd Hs Hops; simpl.
    - by rewrite app_nil_r.
    - destruct (insert_mark_spec mark don k ops) as [Hs' Hops']; [done| |done|done|].
      { apply NoDup_app in Hnd as (_ & Hd & _). intros Hin. apply (Hd k Hin). left. }
      rewrite cons_middle, app_assoc in Hnd |- *. by apply IH. }
  destruct (H (elements keys) [] []) as [H1 H2].
  - apply NoDup_elements.
  - constructor.
  - intros x. split; [set_solver|]. by intros (k & []%not_elem_of_nil & _).
  - split; [done|]. intros x. rewrite H2. simpl. by setoid_rewrite elem_of_elements.
Qed.

Section marks.
Context {get_epoch : Slot → Z} {epoch_stakes : gmap Z (Pubkey → Z)} `{HSL : !StakeLaws get_epoch epoch_stakes}.
Local Abbreviation stake := (Fork.vote_stake get_epoch epoch_stakes).
Context (self : HeaviestSubtreeForkChoice) (HI : FInv (get_epoch := get_epoch) (epoch_stakes := epoch_stakes) self).
Local Abbreviation m := (fork_infos self).
Let HT : Tree (tree_root self) m := fi_tree self HI.

(** The subtree that is marked. *)
Lemma marked_subtree x : is_Some (m !! x) → ∃ S,
  Fork.subtree_diff self x key_default = Ret S ∧ ∀ n, n ∈ S ↔ is_Some (m !! n) ∧ below m x n.
Proof.
  intros Hx. destruct (subtree_diff_spec self _ x key_default HT Hx) as (S & HS & Hin).
  - intros Hb. apply (below_node HT _ _ Hb) in Hx. rewrite (fi_default self HI) in Hx. by destruct Hx.
  - exists S. split; [done|]. intros n. rewrite Hin. split; [tauto|]. intros [Hn Hb]. split_and!; [done..|].
    intros Hb'. apply (below_node HT _ _ Hb') in Hn. rewrite (fi_default self HI) in Hn. by destruct Hn.
Qed.

(** The batch of a mark: the mark and an aggregation for every block of the subtree,
    and an aggregation for every other block it contains. *)
Record MarkOps (mark : UpdateOperation) (x : SlotHashKey) (ops : list Entry) : Prop := {
  mo_ops : OpsOk m (λ _, False) ops;
  mo_only : ∀ k l op, ((k, l), op) ∈ ops → op = OpAggregate ∨ (op = mark ∧ is_Some (m !! k) ∧ below m x k);
  mo_mark : ∀ k, is_Some (m !! k) → below m x k →
    ((k, label_of mark), mark) ∈ ops ∧ agg_entry k ∈ ops;
}.

Lemma mark_ops_spec mark x S : is_mark mark = true → is_Some (m !! x) →
  (∀ n, n ∈ S ↔ is_Some (m !! n) ∧ below m x n) →
  ∃ ops, Fork.insert_aggregate_operations self x (Fork.insert_marks mark S []) = Ret ops ∧
    MarkOps mark x ops.
Proof.
  intros Hm Hx HS. destruct (insert_marks_spec mark S Hm) as [Hs Hops].
  set (ops0 := Fork.insert_marks mark S []) in *.
  unfold Fork.insert_aggregate_operations, Fork.do_insert_aggregate_operations_across_ancestors.
  rewrite (ancestor_iterator_spec self _ x HT), bind_Ret_l.
  assert (OpsOk m (λ y, y = x) ops0) as HO.
  { split; [done| |].
    - intros k l op Hin. apply Hops in Hin as (k' & _ & [E|E]); by injection E as -> -> ->.
    - intros k l op p Hin Hne Hp. apply Hops. exists p. split; [|by right].
      assert (k ∈ S) as [_ Hb]%HS by (apply Hops in Hin as (k' & ? & [E|E]); by injection E as -> -> ->).
      apply HS. split; [by eapply (par_kids HT)|].
      apply (below_par HT _ _ _ Hp) in Hb as [->|]; [by destruct Hne|done]. }
  destruct (insert_aggregates_spec _ m x ops0 HT HO) as (HO' & _ & Hget & Hagg).
  eexists. split; [reflexivity|]. split; [done| |].
  - intros k l op Hin. destruct (decide (l = LAggregate)) as [->|Hl].
    + left. apply (oo_label _ _ _ HO') in Hin. by destruct op.
    + apply map_get_Some in Hin; [|apply HO']. rewrite Hget in Hin by done.
      apply map_get_Some in Hin; [|done].
      apply Hops in Hin as (k' & Hk' & [E|E]); injection E as -> -> ->; [|done].
      right. split; [done|]. by apply HS in Hk'.
  - intros k Hk Hb. assert (k ∈ S) by (by apply HS). split.
    + apply map_get_Some; [apply HO'|]. rewrite Hget by (by destruct mark).
      apply map_get_Some; [done|]. apply Hops. eauto.
    + apply Hagg, Hops. eauto.
Qed.

(** The operations on one block, in the order of processing. *)
Lemma mark_ops_at mark x ops k : is_mark mark = true → MarkOps mark x ops → is_Some (m !! k) →
  ops_at (rev ops) k =
    (if decide (below m x k) then [mark] else []) ++ (if decide (agg_entry k ∈ ops) then [OpAggregate] else []).
Proof.
  intros Hm [[Hs Hl Hc] Honly Hmark] Hk.
  set (F := filter (λ e : Entry, e.1.1 = k) (rev ops)).
  set (R := λ e e' : Entry, lt e'.1 e.1).
  assert (StronglySorted R F) as HF by (apply StronglySorted_filter, (StronglySorted_rev _ _ Hs)).
  set (C := (if decide (below m x k) then [((k, label_of mark), mark)] else []) ++
            (if decide (agg_entry k ∈ ops) then [agg_entry k] else [])).
  assert (lt (k, LAggregate) (k, label_of mark)) as Hlt by (apply op_lt_label; by destruct mark).
  assert (StronglySorted R C) as HC.
  { unfold C. repeat case_decide; simpl; repeat constructor. done. }
  assert (F = C) as E.
  { assert (∀ l, StronglySorted R l → NoDup l) as Hnd.
    { induction 1 as [|e l _ IH Hall]; constructor; [|done]. intros Hin.
      rewrite Forall_forall in Hall. by apply (lt_not_refl e.1), (Hall e). }
    apply (StronglySorted_unique_strong R); [|done..|].
    - intros e e' _ _ H1 H2. by destruct (lt_not_refl e.1); trans e'.1.
    - apply NoDup_Permutation; [by apply Hnd..|]. intros [[k' l] op]. unfold F, C.
      rewrite list_elem_of_filter, rev_perm, elem_of_app. simpl. split.
      + intros [-> Hin]. pose proof (Hl _ _ _ Hin) as ->.
        destruct (Honly _ _ _ Hin) as [->|(-> & _ & Hb)].
        * right. rewrite decide_True by done. left.
        * left. rewrite decide_True by done. left.
      + intros [Hin|Hin]; case_decide; try by apply not_elem_of_nil in Hin.
        * apply list_elem_of_singleton in Hin. injection Hin as -> -> ->. split; [done|]. by apply Hmark.
        * apply list_elem_of_singleton in Hin. by injection Hin as -> -> ->. }
  unfold ops_at. fold F. rewrite E. unfold C. by repeat case_decide.
Qed.

Lemma mark_Batch mark x ops vspec : is_mark mark = true → MarkOps mark x ops →
  (∀ k i, m !! k = Some i → vspec k = vrun (m0 := m) vspec k (validity i) (ops_at (rev ops) k)) →
  (∀ s k, mark = OpMarkInvalid s → below m x k → conf m k = false) →
  Batch (m0 := m) (rev ops) (u64_MAX / 2) (sub_total stake m (latest_votes self)) vspec.
Proof.
  intros Hm HM Hv Hconf. pose proof HM as [[Hs Hl Hc] Honly Hmark].
  assert (∀ k, net (rev ops) k = 0) as Hnet.
  { intros k. apply sumZ_zero. intros op [l Hin]%elem_of_ops_at. rewrite rev_perm in Hin.
    destruct (Honly _ _ _ Hin) as [->|(-> & _)]; [done|by destruct mark]. }
  assert (total stake (latest_votes self) ≤ u64_MAX / 2) as Hhalf.
  { pose proof (stake_supply (latest_votes self)). apply Z.div_le_lower_bound; lia. }
  split.
  - by apply StronglySorted_rev in Hs.
  - intros k l op. rewrite rev_perm. apply Hl.
  - intros k l op p. rewrite !rev_perm. intros Hin. eapply Hc; [done|tauto].
  - intros k l op. rewrite !rev_perm. intros Hin Hop.
    destruct (Honly _ _ _ Hin) as [->|(-> & Hk & Hb)]; [done|]. by apply Hmark.
  - intros k l s Hin. rewrite rev_perm in Hin.
    destruct (Honly _ _ _ Hin) as [?|(<- & _)]; done.
  - intros k l s Hin. rewrite rev_perm in Hin.
    destruct (Honly _ _ _ Hin) as [?|(<- & _)]; done.
  - by apply Z.mul_div_le.
  - intros k Hk. rewrite (FInv_wt self k HI Hk). etrans; [apply sub_total_bounds, stake_nonneg|done].
  - intros k [i Hi]. rewrite Hnet. unfold vat. rewrite Hi. simpl. rewrite (fi_at self HI k i Hi).
    pose proof (at_total_bounds stake stake_nonneg (latest_votes self) k).
    pose proof (sub_total_bounds stake stake_nonneg m (latest_votes self) k).
    rewrite Z.add_0_r. split_and!; [by apply (sub_total_step stake (tree_root self))|lia..].
  - done.
  - intros don k l s todo i HL Hi.
    assert (((k, l), OpMarkInvalid s) ∈ ops) as Hin by (rewrite <-rev_perm, HL; set_solver).
    destruct (Honly _ _ _ Hin) as [?|(<- & _ & Hb)]; [done|].
    enough (ops_at don k = []) as ->.
    { simpl. pose proof (Hconf s k eq_refl Hb) as Hcf. unfold conf in Hcf. by rewrite Hi in Hcf. }
    assert (is_Some (m !! k)) as Hk by eauto.
    pose proof (mark_ops_at _ x ops k Hm HM Hk) as Hat.
    rewrite HL, (cons_middle _ don todo), !ops_at_app, ops_at_one, !decide_True in Hat;
      [|by apply Hmark|done|done]. simpl in Hat.
    destruct (ops_at don k) as [|op ops']; [done|]. simpl in Hat. injection Hat as -> Hat.
    destruct ops' as [|op ops']; simpl in Hat; [done|]. injection Hat as -> Hat.
    by destruct ops'.
Qed.

(** ** Validity after a mark *)

(** Marking [x] invalid makes the blocks of its subtree invalid by [x], unless they
    are by a later block. *)
Definition after_invalid (x k : SlotHashKey) (v : option Slot * bool) : option Slot * bool :=
  if decide (below m x k) then (Some (Z.max (default x.1 v.1) x.1), v.2) else v.

(** Marking [x] valid confirms it and its ancestors, and makes the blocks of its
    subtree valid unless an invalid block comes after [x]. *)
Definition after_valid (x k : SlotHashKey) (v : option Slot * bool) : option Slot * bool :=
  if decide (below m k x) then (None, true)
  else if decide (below m x k) then
    (match v.1 with Some l => if l <=? x.1 then None else Some l | None => None end, v.2)
  else v.

(** A duplicate confirmed block has duplicate confirmed ancestors. *)
Lemma conf_up k c : below m k c → is_Some (m !! c) → conf m c = true → conf m k = true.
Proof.
  induction c as [c IH] using (tree_ind_down HT). destruct (par m c) as [p|] eqn:Hp.
  - intros [->|Hb]%(below_par HT _ _ _ Hp) Hc Hcf; [done|]. apply (par_kids HT) in Hp as (Hin & _ & [i Hi]).
    apply (IH p); [done|done|eauto|]. unfold conf. rewrite Hi. simpl.
    rewrite (kids_Some _ _ _ Hi) in Hin. by eapply (ok_conf _ _ _ (proj1 (fi_ok self HI p i Hi))).
  - by intros ->%(below_None HT _ _ Hp).
Qed.

Lemma validity_conf k i : m !! k = Some i → is_duplicate_confirmed i = true → validity i = (None, true).
Proof.
  intros Hi Hc. pose proof (va_conf _ (fi_valid self HI) k) as Hn. unfold conf, inv_of in Hn.
  rewrite Hi in Hn. unfold validity. rewrite Hc. simpl in Hn. by rewrite (Hn Hc).
Qed.

(** An aggregation changes nothing where the children have not become confirmed. *)
Lemma aggregate_validity k i (f : SlotHashKey → bool) : m !! k = Some i →
  (∀ c, c ∈ kids m k → f c = true → conf m c = true) →
  existsb f (kids m k) = true → validity i = (None, true).
Proof.
  intros Hi Hf E. apply (validity_conf k i Hi).
  apply existsb_exists in E as (c & Hc%list_elem_of_In & Hcf).
  pose proof (conf_up k c (below_kid HT k c Hc) (kid_node HT k c Hc) (Hf c Hc Hcf)) as H.
  unfold conf in H. by rewrite Hi in H.
Qed.

Lemma mark_ancestors mark x ops k : is_Some (m !! x) → MarkOps mark x ops → below m k x → agg_entry k ∈ ops.
Proof.
  intros Hx HM. induction k as [k IH] using (tree_ind_up HT). intros Hb.
  destruct (below_child HT k x Hb) as [->|(c & Hc & Hcx)]; [by apply HM; [|apply below_refl]|].
  eapply (oo_closed _ _ _ (mo_ops _ _ _ HM)); [by apply (IH c)|tauto|]. by apply (kids_par HT).
Qed.

Lemma after_invalid_run x ops k i : conf m x = false → is_Some (m !! x) → MarkOps (OpMarkInvalid x.1) x ops →
  m !! k = Some i →
  let vspec := λ k, from_option (λ i, after_invalid x k (validity i)) (None, false) (m !! k) in
  vspec k = vrun (m0 := m) vspec k (validity i) (ops_at (rev ops) k).
Proof.
  intros Hcx Hx HM Hi vspec. rewrite (mark_ops_at (OpMarkInvalid x.1) x ops k eq_refl HM (mk_is_Some _ _ Hi)).
  assert (∀ c, (vspec c).2 = conf m c) as Hconf.
  { intros c. unfold vspec, conf, after_invalid. destruct (m !! c) as [ic|]; simpl; [|done].
    by case_decide. }
  unfold vspec at 1. rewrite Hi. simpl. unfold after_invalid, vrun. case_decide as Hb.
  - rewrite decide_True by (apply HM; eauto). simpl.
    assert (existsb (λ c, (vspec c).2) (kids m k) = false) as ->.
    { apply not_true_is_false. intros (c & Hc%list_elem_of_In & Hcf)%existsb_exists.
      rewrite Hconf in Hcf. rewrite (conf_up x c) in Hcx; [done| |by eapply (kid_node HT)|done].
      eapply (below_trans HT); [done|by apply (below_kid HT)]. }
    f_equal. f_equal. destruct (latest_invalid_ancestor i) as [l|]; simpl; [|lia].
    destruct (Z.ltb_spec l x.1); lia.
  - simpl. case_decide; [|done]. simpl. destruct (existsb _ _) eqn:E; [|done].
    apply (aggregate_validity k i _ Hi) in E; [done|]. intros c _. by rewrite Hconf.
Qed.

Lemma after_valid_run x ops k i : is_Some (m !! x) → MarkOps (OpMarkValid x.1) x ops →
  m !! k = Some i →
  let vspec := λ k, from_option (λ i, after_valid x k (validity i)) (None, false) (m !! k) in
  vspec k = vrun (m0 := m) vspec k (validity i) (ops_at (rev ops) k).
Proof.
  intros Hx HM Hi vspec. rewrite (mark_ops_at (OpMarkValid x.1) x ops k eq_refl HM (mk_is_Some _ _ Hi)).
  assert (∀ c, is_Some (m !! c) → ¬ below m c x → (vspec c).2 = conf m c) as Hconf.
  { intros c [ic Hic] Hn. unfold vspec, conf, after_valid. rewrite Hic. simpl.
    rewrite decide_False by done. by case_decide. }
  assert (¬ below m k x → ∀ c, c ∈ kids m k → (vspec c).2 = true → conf m c = true) as Hkids.
  { intros Hkx c Hc. rewrite Hconf; [done|by eapply (kid_node HT)|]. intros Hcx. apply Hkx.
    eapply (below_trans HT); [by apply (below_kid HT)|done]. }
  unfold vspec at 1. rewrite Hi. simpl. unfold after_valid, vrun.
  destruct (decide (below m k x)) as [Hkx|Hkx]; [|destruct (decide (below m x k)) as [Hxk|Hxk]].
  - destruct (decide (below m x k)) as [Hxk|Hxk].
    + pose proof (below_antisym HT k x Hkx Hxk) as ->. simpl.
      rewrite decide_True by (apply HM; eauto). simpl. rewrite Z.eqb_refl, orb_true_r.
      enough (match latest_invalid_ancestor i with Some l => if l <=? x.1 then None else Some l
        | None => None end = None) as -> by (by destruct (existsb _ _)).
      destruct (latest_invalid_ancestor i) as [l|] eqn:E; [|done].
      assert (l ≤ x.1) by (apply (va_slot _ (fi_valid self HI)); unfold inv_of; by rewrite Hi).
      by rewrite (proj2 (Z.leb_le _ _)).
    + simpl. destruct (below_child HT k x Hkx) as [->|(c & Hc & Hcx)]; [by destruct Hxk; apply below_refl|].
      rewrite decide_True by (by eapply mark_ancestors).
      simpl. enough (existsb (λ c, (vspec c).2) (kids m k) = true) as -> by done.
      apply existsb_exists. exists c. split; [by apply list_elem_of_In|]. unfold vspec, after_valid.
      destruct (kid_node HT k c Hc) as [ic ->]. simpl. by rewrite decide_True.
  - rewrite decide_True by (apply HM; eauto). simpl.
    destruct (below_slot HT x k Hxk) as [->|Hlt]; [by destruct Hkx; apply below_refl|].
    rewrite (proj2 (Z.eqb_neq k.1 x.1)), orb_false_r by lia.
    destruct (existsb _ _) eqn:E; [|done]. apply (aggregate_validity k i _ Hi (Hkids Hkx)) in E.
    unfold validity in E. by injection E as -> ->.
  - simpl. case_decide; [|done]. simpl. destruct (existsb _ _) eqn:E; [|done].
    by apply (aggregate_validity k i _ Hi (Hkids Hkx)) in E.
Qed.

(** The new validities make sense again. *)
Lemma after_invalid_Valid x m' : is_Some (m !! x) → conf m x = false → same_shape m m' →
  (∀ k i, m !! k = Some i → validity <$> m' !! k = Some (after_invalid x k (validity i))) → Valid m'.
Proof.
  intros Hx Hcx Hsh Hv. destruct (fi_valid self HI) as [V1 V2 V3].
  assert (∀ k, inv_of m' k = (if decide (below m x k) then
    (λ i, Z.max (default x.1 (latest_invalid_ancestor i)) x.1) <$> m !! k else inv_of m k)
    ∧ conf m' k = conf m k) as E.
  { intros k. destruct (m !! k) as [i|] eqn:Hi.
    - pose proof (Hv k i Hi) as Hk. destruct (m' !! k) as [i'|] eqn:Hi'; [|done]. injection Hk as Hk.
      unfold inv_of, conf. rewrite Hi, Hi'. simpl. unfold after_invalid, validity in Hk.
      by case_decide; injection Hk as -> ->.
    - assert (m' !! k = None) as Hi' by (apply eq_None_not_Some; rewrite <-(same_shape_node Hsh); by apply eq_None_not_Some).
      unfold inv_of, conf. rewrite Hi, Hi'. simpl. by case_decide. }
  split.
  - intros k s. rewrite (proj1 (E k)). case_decide as Hb; [|apply V1].
    destruct (m !! k) as [i|] eqn:Hi; [|done]. intros [= <-].
    assert (x.1 ≤ k.1) by (destruct (below_slot HT x k Hb) as [->|]; lia).
    destruct (latest_invalid_ancestor i) as [l|] eqn:El; simpl; [|lia].
    assert (l ≤ k.1) by (apply V1; unfold inv_of; by rewrite Hi). lia.
  - intros k. rewrite (proj1 (E k)), (proj2 (E k)). intros Hck. rewrite decide_False; [by apply V2|].
    intros Hb. assert (is_Some (m !! k)) as Hk by (unfold conf in Hck; destruct (m !! k); [eauto|done]).
    by rewrite (conf_up x k Hb Hk Hck) in Hcx.
  - intros k p s. rewrite <-(same_shape_par Hsh), (proj1 (E k)), (proj1 (E p)). intros Hp.
    pose proof (par_kids HT k p Hp) as (_ & _ & [ip Hip]). apply par_Some in Hp as Hik. destruct Hik as (ik & Hik & _).
    pose proof (V3 k p) as H3. unfold inv_of in H3 |- *. rewrite Hip, Hik in H3 |- *. simpl in H3 |- *.
    pose proof (below_par HT x k p Hp) as Hbp.
    destruct (decide (below m x p)), (decide (below m x k)); try tauto.
    + intros [= <-]. eexists. split; [done|].
      destruct (latest_invalid_ancestor ip) as [lp|]; simpl; [|lia].
      destruct (H3 lp Hp eq_refl) as (lk & -> & Hle). simpl. lia.
    + intros Hs. destruct (H3 s Hp Hs) as (lk & -> & Hle). eexists. split; [done|]. simpl. lia.
    + intros Hs. by apply H3.
Qed.

Lemma after_valid_Valid x m' : is_Some (m !! x) → same_shape m m' →
  (∀ k i, m !! k = Some i → validity <$> m' !! k = Some (after_valid x k (validity i))) → Valid m'.
Proof.
  intros Hx Hsh Hv. destruct (fi_valid self HI) as [V1 V2 V3].
  assert (∀ k, inv_of m' k = (if decide (below m k x) then None else if decide (below m x k) then
    match inv_of m k with Some l => if l <=? x.1 then None else Some l | None => None end else inv_of m k)
    ∧ (¬ below m k x → conf m' k = conf m k)) as E.
  { intros k. destruct (m !! k) as [i|] eqn:Hi.
    - pose proof (Hv k i Hi) as Hk. destruct (m' !! k) as [i'|] eqn:Hi'; [|done]. injection Hk as Hk.
      unfold inv_of, conf. rewrite Hi, Hi'. simpl. unfold after_valid, validity in Hk.
      by repeat case_decide; injection Hk as -> ->.
    - assert (m' !! k = None) as Hi' by (apply eq_None_not_Some; rewrite <-(same_shape_node Hsh); by apply eq_None_not_Some).
      unfold inv_of, conf. rewrite Hi, Hi'. simpl. by repeat case_decide. }
  split.
  - intros k s. rewrite (proj1 (E k)). repeat case_decide; [done| |apply V1].
    destruct (inv_of m k) as [l|] eqn:El; [|done]. destruct (l <=? x.1); [done|]. intros [= <-]. by apply V1.
  - intros k Hck. rewrite (proj1 (E k)). case_decide as Hkx; [done|].
    rewrite (proj2 (E k) Hkx) in Hck. rewrite (V2 k Hck). by case_decide.
  - intros k p s. rewrite <-(same_shape_par Hsh), (proj1 (E k)), (proj1 (E p)). intros Hp.
    pose proof (below_par HT x k p Hp) as Hbp. pose proof (V3 k p) as H3.
    assert (below m p k) as Hpk by (apply (below_kid HT), (kids_par HT), Hp).
    destruct (decide (below m p x)) as [|Hpx]; [done|].
    rewrite (decide_False (P := below m k x)) by (intros Hkx; apply Hpx; by eapply (below_trans HT)).
    destruct (decide (below m x p)) as [Hxp|Hxp], (decide (below m x k)) as [Hxk|Hxk]; try tauto.
    + destruct (inv_of m p) as [lp|]; [|done]. destruct (Z.leb_spec lp x.1); [done|]. intros [= <-].
      destruct (H3 lp Hp eq_refl) as (lk & -> & Hle). exists lk. split; [|done].
      by rewrite (proj2 (Z.leb_gt _ _)) by lia.
    + destruct Hbp as [Hbp _]. destruct (Hbp Hxk) as [->|]; [|done]. by destruct Hpx.
    + by apply H3.
Qed.

(** ** The operations *)

(** Processing the batch of a mark. *)
Lemma process_mark mark x ops f : is_mark mark = true → MarkOps mark x ops →
  (let vspec := λ k, from_option (λ i, f k (validity i)) (None, false) (m !! k) in
   ∀ k i, m !! k = Some i → vspec k = vrun (m0 := m) vspec k (validity i) (ops_at (rev ops) k)) →
  (∀ s k, mark = OpMarkInvalid s → below m x k → conf m k = false) →
  (∀ m', same_shape m m' →
    (∀ k i, m !! k = Some i → validity <$> m' !! k = Some (f k (validity i))) → Valid m') →
  ∃ self', Fork.process_update_operations ops self = Ret self' ∧
    FInv (get_epoch := get_epoch) (epoch_stakes := epoch_stakes) self' ∧ tree_root self' = tree_root self ∧
    latest_votes self' = latest_votes self ∧ same_shape m (fork_infos self') ∧
    (∀ k i, m !! k = Some i → validity <$> fork_infos self' !! k = Some (f k (validity i))).
Proof.
  intros Hm HM Hrun Hconf Hvalid. set (vspec := λ k, from_option (λ i, f k (validity i)) (None, false) (m !! k)).
  pose proof (mark_Batch mark x ops vspec Hm HM Hrun Hconf) as HB.
  destruct (process_batch HT _ _ _ _ HB (fi_ok self HI) self) as (m' & Hproc & HP); [done|].
  rewrite rev_involutive in Hproc. rewrite Hproc. pose proof (pr_shape _ _ _ _ HP) as Hsh.
  assert (∀ k i, m !! k = Some i → validity <$> m' !! k = Some (f k (validity i))) as Hval.
  { intros k i Hi. destruct (proj1 (same_shape_node Hsh k)) as [i' Hi']; [eauto|].
    rewrite Hi'. simpl. rewrite (pr_valid _ _ _ _ HP k i' Hi'). unfold vspec. by rewrite Hi. }
  eexists. split; [reflexivity|]. split_and!; [|done..].
  apply (FInv_processed self _ _ _ m' (latest_votes self) HI HP); [|by apply Hvalid].
  intros k i Hi. rewrite (pr_at _ _ _ _ HP k i Hi).
  assert (net (rev ops) k = 0) as ->.
  { apply sumZ_zero. intros op [l Hin]%elem_of_ops_at. rewrite rev_perm in Hin.
    destruct (mo_only _ _ _ HM _ _ _ Hin) as [->|(-> & _)]; [done|by destruct mark]. }
  destruct (proj2 (same_shape_node Hsh k)) as [i0 Hi0]; [eauto|].
  unfold vat. rewrite Hi0. simpl. rewrite (fi_at self HI k i0 Hi0). lia.
Qed.

Lemma mark_fork_invalid_candidate_spec x : is_Some (m !! x) → conf m x = false →
  ∃ self', Fork.mark_fork_invalid_candidate x self = Ret self' ∧
    FInv (get_epoch := get_epoch) (epoch_stakes := epoch_stakes) self' ∧ tree_root self' = tree_root self ∧
    latest_votes self' = latest_votes self ∧ same_shape m (fork_infos self') ∧
    (∀ k i, m !! k = Some i → validity <$> fork_infos self' !! k = Some (after_invalid x k (validity i))).
Proof.
  intros Hx Hc. pose proof Hx as [i Hi]. unfold Fork.mark_fork_invalid_candidate. rewrite Hi.
  unfold conf in Hc. rewrite Hi in Hc. simpl in Hc. rewrite Hc. simpl.
  destruct (marked_subtree x Hx) as (S & -> & HS). run.
  destruct (mark_ops_spec (OpMarkInvalid x.1) x S eq_refl Hx HS) as (ops & -> & HM). run.
  assert (conf m x = false) as Hcx by (unfold conf; by rewrite Hi).
  apply (process_mark (OpMarkInvalid x.1) x ops (after_invalid x) eq_refl HM).
  - intros vspec k j Hj. by apply after_invalid_run.
  - intros s k _ Hb. destruct (conf m k) eqn:E; [|done]. rewrite (conf_up x k Hb) in Hcx; [done| |done].
    unfold conf in E. destruct (m !! k); [eauto|done].
  - intros m' Hsh. by apply after_invalid_Valid.
Qed.

Lemma not_confirmed_spec keys : (∀ k, k ∈ keys → is_Some (m !! k)) →
  Fork.not_confirmed self keys = Ret (filter (λ k, conf m k = false) keys).
Proof.
  induction keys as [|k keys IH]; intros Hk; [done|]. simpl.
  unfold Fork.is_duplicate_confirmed. destruct (Hk k) as [i Hi]; [left|]. rewrite Hi. simpl.
  rewrite IH by (intros; apply Hk; by right). rewrite filter_cons. assert (conf m k = is_duplicate_confirmed i) as -> by (unfold conf; by rewrite Hi).
  by destruct (is_duplicate_confirmed i).
Qed.

Lemma mark_fork_valid_candidate_spec x : is_Some (m !! x) →
  ∃ self', Fork.mark_fork_valid_candidate x self =
      Ret (filter (λ k, conf m k = false) (x :: ancs m x), self') ∧
    FInv (get_epoch := get_epoch) (epoch_stakes := epoch_stakes) self' ∧ tree_root self' = tree_root self ∧
    latest_votes self' = latest_votes self ∧ same_shape m (fork_infos self') ∧
    (∀ k i, m !! k = Some i → validity <$> fork_infos self' !! k = Some (after_valid x k (validity i))).
Proof.
  intros Hx. unfold Fork.mark_fork_valid_candidate.
  rewrite (ancestor_iterator_spec self _ x HT), bind_Ret_l, not_confirmed_spec, bind_Ret_l.
  2:{ intros k Hk. apply (below_node HT k x); [|done]. unfold below. set_solver. }
  destruct (marked_subtree x Hx) as (S & -> & HS). run.
  destruct (mark_ops_spec (OpMarkValid x.1) x S eq_refl Hx HS) as (ops & -> & HM). run.
  destruct (process_mark (OpMarkValid x.1) x ops (after_valid x) eq_refl HM) as (self' & -> & Hself').
  - intros vspec k j Hj. by apply after_valid_run.
  - done.
  - intros m' Hsh. by apply after_valid_Valid.
  - exists self'. by run.
Qed.
End marks.
