(* ===== verification/ForkLeaf.v ===== *)
(** Adding a leaf to the fork choice tree: the two loops that walk up the ancestors
    restore the best and the deepest block everywhere. *)

From S2P Require Import Prelude BTree ForkChoice ForkTree ForkAggregate ForkBatch ForkVotes ForkInv.

(** * The parts of a node that the loops repair *)

Definition BestOk (m : Nodes) (k : SlotHashKey) (i : ForkInfo) : Prop :=
  latest_invalid_ancestor i = None → ∃ o,
    Picks (cand m) (heavier m) (children i) o ∧ best_slot i = from_option (bst m) k o.
Definition DeepOk (m : Nodes) (k : SlotHashKey) (i : ForkInfo) : Prop :=
  ∃ o, Picks (λ _, True) (deeper m) (children i) o ∧
    deepest_slot i = from_option (dpst m) k o ∧ height i = from_option (ht m) 0 o + 1.

(** Two maps of nodes that agree but for the best blocks, or but for the deepest
    blocks and heights. *)
Definition forget_best (i : ForkInfo) : ForkInfo := Info.set_best key_default i.
Definition forget_deep (i : ForkInfo) : ForkInfo := Info.set_deepest key_default 0 i.
Definition best_only (m m' : Nodes) : Prop := ∀ k, forget_best <$> m !! k = forget_best <$> m' !! k.
Definition deep_only (m m' : Nodes) : Prop := ∀ k, forget_deep <$> m !! k = forget_deep <$> m' !! k.

#[global] Instance best_only_equiv : Equivalence best_only.
Proof. split; [by intros m k|by intros m m' H k|]. intros m1 m2 m3 H1 H2 k. by rewrite (H1 k). Qed.
#[global] Instance deep_only_equiv : Equivalence deep_only.
Proof. split; [by intros m k|by intros m m' H k|]. intros m1 m2 m3 H1 H2 k. by rewrite (H1 k). Qed.

Lemma best_only_insert m k i b : m !! k = Some i → best_only m (<[k := Info.set_best b i]> m).
Proof.
  intros Hi k'. destruct (decide (k' = k)) as [->|]; [by rewrite lookup_insert_eq, Hi|].
  by rewrite lookup_insert_ne.
Qed.
Lemma deep_only_insert m k i d h : m !! k = Some i → deep_only m (<[k := Info.set_deepest d h i]> m).
Proof.
  intros Hi k'. destruct (decide (k' = k)) as [->|]; [by rewrite lookup_insert_eq, Hi|].
  by rewrite lookup_insert_ne.
Qed.

(** What they have in common. *)
Lemma best_only_lookup m m' k i' : best_only m m' → m' !! k = Some i' →
  ∃ i, m !! k = Some i ∧ i' = Info.set_best (best_slot i') i.
Proof.
  intros H Hi'. specialize (H k). rewrite Hi' in H. destruct (m !! k) as [i|]; [|done].
  exists i. split; [done|]. injection H as H. destruct i, i'. unfold forget_best, Info.set_best in *.
  simpl in *. by simplify_eq.
Qed.
Lemma deep_only_lookup m m' k i' : deep_only m m' → m' !! k = Some i' →
  ∃ i, m !! k = Some i ∧ i' = Info.set_deepest (deepest_slot i') (height i') i.
Proof.
  intros H Hi'. specialize (H k). rewrite Hi' in H. destruct (m !! k) as [i|]; [|done].
  exists i. split; [done|]. injection H as H. destruct i, i'. unfold forget_deep, Info.set_deepest in *.
  simpl in *. by simplify_eq.
Qed.

Lemma best_only_view m m' k : best_only m m' →
  shape <$> m !! k = shape <$> m' !! k ∧ validity <$> m !! k = validity <$> m' !! k ∧
  wt m k = wt m' k ∧ vat m k = vat m' k ∧ ht m k = ht m' k ∧ dpst m k = dpst m' k.
Proof.
  intros H. destruct (m' !! k) as [i'|] eqn:Hi'.
  - destruct (best_only_lookup m m' k i' H Hi') as (i & Hi & Heq).
    unfold wt, vat, ht, dpst. rewrite Hi, Hi', Heq. done.
  - specialize (H k). rewrite Hi' in H. destruct (m !! k) eqn:Hi; [done|].
    unfold wt, vat, ht, dpst. by rewrite Hi, Hi'.
Qed.
Lemma deep_only_view m m' k : deep_only m m' →
  shape <$> m !! k = shape <$> m' !! k ∧ validity <$> m !! k = validity <$> m' !! k ∧
  wt m k = wt m' k ∧ vat m k = vat m' k ∧ bst m k = bst m' k.
Proof.
  intros H. destruct (m' !! k) as [i'|] eqn:Hi'.
  - destruct (deep_only_lookup m m' k i' H Hi') as (i & Hi & Heq).
    unfold wt, vat, bst. rewrite Hi, Hi', Heq. done.
  - specialize (H k). rewrite Hi' in H. destruct (m !! k) eqn:Hi; [done|].
    unfold wt, vat, bst. by rewrite Hi, Hi'.
Qed.

Lemma best_only_shape m m' : best_only m m' → same_shape m m'.
Proof. intros H k. by apply best_only_view. Qed.
Lemma deep_only_shape m m' : deep_only m m' → same_shape m m'.
Proof. intros H k. by apply deep_only_view. Qed.

Lemma validity_cand m m' k : validity <$> m !! k = validity <$> m' !! k → cand m k ↔ cand m' k.
Proof.
  unfold cand. destruct (m !! k), (m' !! k); simpl; intros E; simplify_eq/=; naive_solver congruence.
Qed.

(** * The tests *)

Lemma no_better_child_spec self k cs :
  let m := fork_infos self in (∀ c, c ∈ cs → is_Some (m !! c)) →
  ∃ b, Fork.no_better_child self cs k (wt m k) = Ret b ∧
    (b = true ↔ ∀ c, c ∈ cs → cand m c → ¬ heavier m c k).
Proof.
  intros m. induction cs as [|c cs IH]; intros Hcs.
  { exists true. split; [done|]. split; [|done]. intros _ c []%not_elem_of_nil. }
  destruct IH as (b & Hb & Hiff); [intros; apply Hcs; by right|].
  destruct (Hcs c) as [i Hi]; [left|]. cbn [Fork.no_better_child].
  unfold Fork.stake_voted_subtree, Fork.is_candidate. fold m. rewrite Hi. cbn [fmap option_fmap option_map unwrap].
  rewrite !bind_Ret_l, Hb.
  assert (Info.is_candidate i = true ↔ cand m c) as Hc.
  { unfold Info.is_candidate, cand. rewrite Hi. destruct (latest_invalid_ancestor i) eqn:E; simpl;
      naive_solver congruence. }
  assert (wt m c = stake_voted_subtree i) as Hw by (unfold wt; by rewrite Hi).
  setoid_rewrite elem_of_cons.
  destruct (Info.is_candidate i) eqn:Ec; simpl.
  2:{ exists b. split; [done|]. rewrite Hiff. naive_solver congruence. }
  rewrite <-Hw.
  assert ((wt m k <? wt m c) || ((wt m k =? wt m c) && ltb c k) = true ↔ heavier m c k) as Ht.
  { unfold heavier, lt. rewrite orb_true_iff, andb_true_iff, Z.ltb_lt, Z.eqb_eq. intuition congruence. }
  destruct ((wt m k <? wt m c) || ((wt m k =? wt m c) && ltb c k)).
  - exists false. split; [done|]. split; [done|]. intros H. exfalso. apply (H c); naive_solver.
  - exists b. split; [done|]. rewrite Hiff. naive_solver congruence.
Qed.

Lemma is_best_child_spec self r k p : let m := fork_infos self in
  Tree r m → par m k = Some p →
  ∃ b, Fork.is_best_child self k = Ret b ∧
    (b = true ↔ ∀ c, c ∈ kids m p → cand m c → ¬ heavier m c k).
Proof.
  intros m HT Hp. pose proof (par_kids HT k p Hp) as (Hin & _ & [ip Hip]).
  pose proof Hp as (ik & Hik & Hpar)%par_Some.
  destruct (no_better_child_spec self k (kids m p)) as (b & Hb & Hiff).
  { intros c Hc. by eapply (kid_node HT). }
  exists b. split; [|done]. unfold Fork.is_best_child, Fork.stake_voted_subtree, Fork.parent, Fork.children.
  fold m. rewrite Hik. simpl. rewrite Hpar. fold m. rewrite Hip. simpl.
  rewrite <-(kids_Some m p ip Hip). rewrite <-Hb. f_equal. unfold wt. fold m. by rewrite Hik.
Qed.

Lemma no_deeper_child_spec self k cs :
  let m := fork_infos self in (∀ c, c ∈ cs → is_Some (m !! c)) →
  ∃ b, Fork.no_deeper_child self cs k (wt m k) (ht m k) = Ret b ∧
    (b = true ↔ ∀ c, c ∈ cs → ¬ deeper m c k).
Proof.
  intros m. induction cs as [|c cs IH]; intros Hcs.
  { exists true. split; [done|]. split; [|done]. intros _ c []%not_elem_of_nil. }
  destruct IH as (b & Hb & Hiff); [intros; apply Hcs; by right|].
  destruct (Hcs c) as [i Hi]; [left|]. cbn [Fork.no_deeper_child].
  unfold Fork.stake_voted_subtree, Fork.height. fold m. rewrite Hi. cbn [fmap option_fmap option_map unwrap].
  rewrite !bind_Ret_l, Hb.
  assert (wt m c = stake_voted_subtree i) as <- by (unfold wt; by rewrite Hi).
  assert (ht m c = height i) as <- by (unfold ht; by rewrite Hi).
  setoid_rewrite elem_of_cons.
  assert (∃ t : bool, (match ht m c ?= ht m k, wt m c ?= wt m k, cmp c k with
    | Gt, _, _ | Eq, Gt, _ | Eq, Eq, Lt => Ret false | _, _, _ => Ret b end) = Ret (negb t && b)
    ∧ (t = true ↔ deeper m c k)) as (t & Ht & Htiff).
  { unfold deeper, heavier, cmp, lt.
    destruct (Z.compare_spec (ht m c) (ht m k)), (Z.compare_spec (wt m c) (wt m k)), (ltb c k), (ltb k c);
      (exists true; split; [reflexivity|split; [intros _; intuition lia|done]]) ||
      (exists false; split; [reflexivity|split; [done|intuition (lia || done)]]). }
  exists (negb t && b). split.
  - rewrite <-Ht. by destruct (ht m c ?= ht m k), (wt m c ?= wt m k), (cmp c k).
  - rewrite andb_true_iff, negb_true_iff, Hiff. split.
    + intros [-> H] c' [->|Hin]; [|by apply H]. intros Hd. by apply Htiff in Hd.
    + intros H. split; [|naive_solver]. destruct t; [|done]. exfalso. apply (H c); [by left|by apply Htiff].
Qed.

Lemma is_deepest_child_spec self r k p : let m := fork_infos self in
  Tree r m → par m k = Some p →
  ∃ b, Fork.is_deepest_child self k = Ret b ∧ (b = true ↔ ∀ c, c ∈ kids m p → ¬ deeper m c k).
Proof.
  intros m HT Hp. pose proof (par_kids HT k p Hp) as (Hin & _ & [ip Hip]).
  pose proof Hp as (ik & Hik & Hpar)%par_Some.
  destruct (no_deeper_child_spec self k (kids m p)) as (b & Hb & Hiff).
  { intros c Hc. by eapply (kid_node HT). }
  exists b. split; [|done].
  unfold Fork.is_deepest_child, Fork.stake_voted_subtree, Fork.height, Fork.parent, Fork.children.
  fold m. rewrite Hik. simpl. rewrite Hpar. fold m. rewrite Hip. simpl.
  rewrite <-(kids_Some m p ip Hip). rewrite <-Hb. unfold wt, ht. fold m. by rewrite Hik.
Qed.

#[global] Instance heavier_dec m c c' : Decision (heavier m c c').
Proof. unfold heavier, lt. apply _. Defined.
#[global] Instance deeper_dec m c c' : Decision (deeper m c c').
Proof. unfold deeper. apply _. Defined.
#[global] Instance cand_dec m k : Decision (cand m k).
Proof.
  destruct (m !! k) as [i|] eqn:E; [destruct (decide (latest_invalid_ancestor i = None)) as [E'|E']|].
  - left. by exists i.
  - right. intros (j & Hj & ?). congruence.
  - right. intros (j & Hj & ?). congruence.
Defined.

Lemma not_all {A} (P : A → Prop) `{∀ x, Decision (P x)} (l : list A) :
  ¬ (∀ c, c ∈ l → ¬ P c) → ∃ c, c ∈ l ∧ P c.
Proof.
  intros H'. destruct (decide (Exists P l)) as [He|He]; [by apply Exists_exists in He|].
  destruct H'. intros c Hc Hd. apply He, Exists_exists. eauto.
Qed.

(** * The loop over the best blocks *)

Lemma before_count_shape m m' k : same_shape m m' → before_count m k = before_count m' k.
Proof.
  intros HS. unfold before_count. rewrite <-!size_dom. f_equal. apply set_eq. intros x.
  assert (∀ m0 : Nodes, x ∈ dom (filter (λ y, y.1.1 < k.1) m0) ↔ is_Some (m0 !! x) ∧ x.1 < k.1) as H.
  { intros m0. rewrite elem_of_dom. unfold is_Some. setoid_rewrite map_lookup_filter_Some. naive_solver. }
  by rewrite !H, (same_shape_node HS).
Qed.

Lemma Picks_best_only m m' cs o : best_only m m' →
  Picks (cand m) (heavier m) cs o → Picks (cand m') (heavier m') cs o.
Proof.
  intros H. apply Picks_ext.
  - intros c _. by apply validity_cand, best_only_view.
  - intros c c' _ _. unfold heavier. by rewrite !(proj1 (proj2 (proj2 (best_only_view m m' _ H)))).
Qed.

(** The best block of a node is right as soon as it is that of the chosen child. *)
Lemma BestOk_transfer m m' n i i' : best_only m m' → m !! n = Some i → m' !! n = Some i' →
  (∀ o, Picks (cand m) (heavier m) (children i) o → best_slot i = from_option (bst m) n o →
    best_slot i' = from_option (bst m') n o) → BestOk m n i → BestOk m' n i'.
Proof.
  intros H Hi Hi' Hbest Hok.
  destruct (best_only_lookup m m' n i' H Hi') as (i0 & Hi0 & Heq). simplify_eq.
  intros Hc. rewrite Heq in Hc. simpl in Hc. destruct (Hok Hc) as (o & Ho & Hb).
  exists o. split; [|by apply Hbest]. rewrite Heq. by apply (Picks_best_only m).
Qed.

Section best_loop.
Context (r leaf old_best : SlotHashKey).

(** The state of the loop: [cur] has the new leaf as best block, and all nodes but
    its parent are right. *)
Record BestLoop (m : Nodes) (cur : SlotHashKey) : Prop := {
  bl_tree : Tree r m;
  bl_node : is_Some (m !! cur);
  bl_below : ∀ n i, m !! n = Some i → below m n (best_slot i);
  bl_cur : bst m cur = leaf;
  bl_leaf : below m cur leaf;
  bl_ok : ∀ n i, m !! n = Some i → par m cur ≠ Some n → BestOk m n i;
}.

(** The parent of [cur] may still refer to the best block that [cur] had. *)
Definition Stale (m : Nodes) (cur : SlotHashKey) : Prop :=
  ∀ a i, par m cur = Some a → m !! a = Some i → latest_invalid_ancestor i = None →
    ∃ o, Picks (cand m) (heavier m) (children i) o ∧
      best_slot i = match o with Some c => if decide (c = cur) then old_best else bst m c | None => a end.

(** It does exactly when [cur] is its best child. *)
Lemma stale_pick m cur a i o : BestLoop m cur → below m cur old_best → par m cur = Some a → m !! a = Some i →
  Picks (cand m) (heavier m) (children i) o →
  best_slot i = match o with Some c => if decide (c = cur) then old_best else bst m c | None => a end →
  best_slot i = old_best ↔ o = Some cur.
Proof.
  intros HL Hold Hp Hi Ho Hb. pose proof (bl_tree m cur HL) as HT. apply (kids_par HT) in Hp as Hcur. split.
  - intros E. destruct o as [c|].
    + case_decide as Hc; [by subst|]. exfalso. apply Hc. apply Picks_in in Ho.
      rewrite <-(kids_Some m a i Hi) in Ho. destruct (kid_node HT a c Ho) as [ic Hic].
      apply (below_child_unique HT a c cur old_best Ho Hcur); [|done].
      rewrite <-E, Hb. unfold bst. rewrite Hic. simpl. by apply (bl_below m cur HL).
    + exfalso. apply (not_below_child HT a cur Hcur). by rewrite <-Hb, E.
  - intros ->. by rewrite decide_True in Hb.
Qed.

Lemma BestLoop_step m cur a i : BestLoop m cur → par m cur = Some a → m !! a = Some i →
  best_slot i = old_best →
  (latest_invalid_ancestor i = None → Picks (cand m) (heavier m) (children i) (Some cur)) →
  let m' := <[a := Info.set_best leaf i]> m in BestLoop m' a ∧ Stale m' a ∧ below m' a old_best.
Proof.
  intros HL Hp Hi Hb Hpick m'. pose proof (bl_tree m cur HL) as HT. apply (kids_par HT) in Hp as Hcur.
  assert (best_only m m') as Hbo by (by apply best_only_insert).
  pose proof (best_only_shape _ _ Hbo) as Hsh.
  assert (bst m' a = leaf) as Hba by (unfold bst, m'; by rewrite lookup_insert_eq).
  assert (∀ c, c ≠ a → bst m' c = bst m c) as Hbc.
  { intros c Hc. unfold bst, m'. by rewrite lookup_insert_ne. }
  assert (below m a leaf) as Hleaf.
  { eapply (below_trans HT); [by apply (below_kid HT)|apply (bl_leaf m cur HL)]. }
  assert (cur ≠ a) as Hca by (intros ->; apply (kid_slot HT) in Hcur; lia).
  split; [split|split].
  - by apply (same_shape_Tree Hsh).
  - unfold m'. rewrite lookup_insert_eq. eauto.
  - intros n j Hj. apply (same_shape_below Hsh).
    apply lookup_insert_Some in Hj as [[<- <-]|[Hne Hj]]; [done|by apply (bl_below m cur HL)].
  - done.
  - by apply (same_shape_below Hsh).
  - intros n j Hj. rewrite <-(same_shape_par Hsh). intros Hn.
    apply lookup_insert_Some in Hj as [[<- <-]|[Hne Hj]].
    + intros Hc. exists (Some cur). split; [by apply (Picks_best_only m), Hpick|]. simpl.
      by rewrite Hbc, (bl_cur m cur HL).
    + eapply (BestOk_transfer m m' n j j Hbo Hj); [unfold m'; by rewrite lookup_insert_ne| |].
      * intros o Ho ->. destruct o as [c|]; [|done]. simpl. symmetry. apply Hbc. intros ->.
        apply Hn, (kids_par HT). rewrite (kids_Some m n j Hj). by apply Picks_in in Ho.
      * apply (bl_ok m cur HL n j Hj). rewrite Hp. congruence.
  - intros b j. rewrite <-(same_shape_par Hsh). intros Hpa Hj Hc.
    assert (b ≠ a) as Hba' by (intros ->; apply (par_kids HT) in Hpa; lia).
    unfold m' in Hj. rewrite lookup_insert_ne in Hj by done.
    destruct (bl_ok m cur HL b j Hj) as (o & Ho & Hbj); [rewrite Hp; congruence|done|].
    exists o. split; [by apply (Picks_best_only m)|].
    rewrite Hbj. destruct o as [c|]; [|done]. simpl. case_decide; [|by rewrite Hbc].
    subst c. unfold bst. by rewrite Hi.
  - apply (same_shape_below Hsh). rewrite <-Hb. by apply (bl_below m cur HL).
Qed.

Lemma propagate_best_spec fuel : ∀ cur self,
  let m := fork_infos self in
  BestLoop m cur → Stale m cur → below m cur old_best → (before_count m cur < fuel)%nat →
  ∃ m', Fork.propagate_best fuel leaf old_best (par m cur) self = Ret (Fork.set_infos m' self) ∧
    best_only m m' ∧ (∀ n i, m' !! n = Some i → BestOk m' n i ∧ below m n (best_slot i)).
Proof.
  induction fuel as [|fuel IH]; intros cur self m HL Hstale Hold Hf; [lia|].
  pose proof (bl_tree m cur HL) as HT. destruct (par m cur) as [a|] eqn:Hp; simpl.
  2:{ exists m. split; [by destruct self|]. split; [done|]. intros n i Hi.
      split; [|by apply (bl_below m cur HL)]. apply (bl_ok m cur HL n i Hi). by rewrite Hp. }
  pose proof (par_kids HT cur a Hp) as (_ & _ & [i Hi]). fold m. rewrite Hi. simpl.
  case_decide as Hb.
  - destruct (BestLoop_step m cur a i HL Hp Hi Hb) as (HL' & Hstale' & Hold').
    { intros Hc. destruct (Hstale a i Hp Hi Hc) as (o & Ho & Hbo).
      by apply (stale_pick m cur a i o HL Hold Hp Hi Ho Hbo) in Hb as ->. }
    set (m1 := <[a := Info.set_best leaf i]> m) in *.
    assert (best_only m m1) as Hbo by (by apply best_only_insert).
    assert (parent i = par m1 a) as -> by (rewrite <-(same_shape_par (best_only_shape _ _ Hbo)); unfold par; by rewrite Hi).
    destruct (IH a (Fork.update a (Info.set_best leaf i) self) HL' Hstale' Hold') as (m' & Hrun & Hbo' & Hok).
    { change (before_count m1 a < fuel)%nat. rewrite <-(before_count_shape m m1 a (best_only_shape _ _ Hbo)).
      pose proof (before_count_par HT cur a Hp). lia. }
    exists m'. split; [exact Hrun|]. split; [by etrans|]. intros n j Hj. destruct (Hok n j Hj) as [H1 H2].
    split; [done|]. by apply (same_shape_below (best_only_shape _ _ Hbo)).
  - exists m. split; [by destruct self|]. split; [done|]. intros n j Hj.
    split; [|by apply (bl_below m cur HL)]. destruct (decide (n = a)) as [->|Hne].
    + simplify_eq. intros Hc. destruct (Hstale a i Hp Hi Hc) as (o & Ho & Hbo).
      exists o. split; [done|]. rewrite Hbo. destruct o as [c|]; [|done]. case_decide as E; [|done].
      exfalso. apply Hb. subst c. done.
    + apply (bl_ok m cur HL n j Hj). congruence.
Qed.
End best_loop.

(** * The loop over the deepest blocks *)

(** A node whose children keep their heights and deepest blocks. *)
Lemma DeepOk_transfer m m' n i : deep_only m m' →
  (∀ c, c ∈ children i → ht m' c = ht m c ∧ dpst m' c = dpst m c) → DeepOk m n i → DeepOk m' n i.
Proof.
  intros H Hc (o & Ho & Hd & Hh). exists o. split_and!.
  - revert Ho. apply Picks_ext; [done|]. intros c c' Hin Hin'. unfold deeper, heavier.
    destruct (Hc c Hin) as [-> _], (Hc c' Hin') as [-> _].
    by rewrite !(proj1 (proj2 (proj2 (deep_only_view m m' _ H)))).
  - rewrite Hd. destruct o as [c|]; [|done]. symmetry. by apply Picks_in, Hc in Ho as [_ ?].
  - rewrite Hh. destruct o as [c|]; [|done]. simpl. apply Picks_in, Hc in Ho as [-> _]. done.
Qed.

Section deep_loop.
Context (r leaf : SlotHashKey).

(** The state of the loop: the height of [cur] may have grown, and its parent does
    not take that into account yet. It recorded either [cur], or another child that
    is deeper than the rest. *)
Record DeepLoop (m : Nodes) (cur : SlotHashKey) : Prop := {
  dl_tree : Tree r m;
  dl_node : is_Some (m !! cur);
  dl_cur : dpst m cur = leaf;
  dl_bounds : ∀ n i, m !! n = Some i → 0 ≤ n.1 ∧ 1 ≤ height i ≤ usize_MAX - n.1;
  dl_ok : ∀ n i, m !! n = Some i → par m cur ≠ Some n → DeepOk m n i;
  dl_stale : ∀ a i, par m cur = Some a → m !! a = Some i →
    ((∀ c, c ∈ kids m a → c ≠ cur → deeper m cur c) ∧ height i ≤ ht m cur + 1) ∨
    (∃ c0, c0 ∈ kids m a ∧ c0 ≠ cur ∧ (∀ c, c ∈ kids m a → c ≠ cur → c = c0 ∨ deeper m c0 c) ∧
       deepest_slot i = dpst m c0 ∧ height i = ht m c0 + 1);
}.

(** The parent is right when [cur] is not its deepest child. *)
Lemma DeepLoop_stop m cur a i c' : DeepLoop m cur → par m cur = Some a → m !! a = Some i →
  c' ∈ kids m a → deeper m c' cur → DeepOk m a i.
Proof.
  intros HL Hp Hi Hc' Hd. assert (c' ≠ cur) as Hne by (intros ->; by apply deeper_irrefl in Hd).
  destruct (dl_stale m cur HL a i Hp Hi) as [[Hall _]|(c0 & Hc0 & Hne0 & Hall & Hds & Hh)].
  - destruct (deeper_irrefl m cur). eapply deeper_trans; [by apply Hall|done].
  - assert (deeper m c0 cur) as Hd0.
    { destruct (Hall c' Hc' Hne) as [->|H0]; [done|]. by eapply deeper_trans. }
    exists (Some c0). split; [|done]. rewrite <-(kids_Some m a i Hi). split_and!; [done|done|].
    intros c Hc _. destruct (decide (c = cur)) as [->|]; [by right|by apply Hall].
Qed.

Lemma DeepLoop_step m cur a i : DeepLoop m cur → par m cur = Some a → m !! a = Some i →
  (∀ c, c ∈ kids m a → ¬ deeper m c cur) →
  DeepLoop (<[a := Info.set_deepest leaf (ht m cur + 1) i]> m) a.
Proof.
  intros HL Hp Hi Hcur. pose proof (dl_tree m cur HL) as HT. apply (kids_par HT) in Hp as Hin.
  set (m' := <[a := Info.set_deepest leaf (ht m cur + 1) i]> m).
  assert (deep_only m m') as Hdo by (by apply deep_only_insert).
  pose proof (deep_only_shape _ _ Hdo) as Hsh.
  assert (ht m' a = ht m cur + 1) as Hha by (unfold ht at 1, m'; by rewrite lookup_insert_eq).
  assert (∀ c, c ≠ a → ht m' c = ht m c ∧ dpst m' c = dpst m c) as Hc.
  { intros c Hne. unfold ht, dpst, m'. by rewrite lookup_insert_ne. }
  assert (∀ c, wt m' c = wt m c) as Hw.
  { intros c. by rewrite (proj1 (proj2 (proj2 (deep_only_view m m' c Hdo)))). }
  pose proof (kid_slot HT a cur Hin) as Hlt. assert (cur ≠ a) as Hca by (intros ->; lia).
  destruct (dl_node m cur HL) as [icur Hicur].
  destruct (dl_bounds m cur HL cur icur Hicur) as [_ Hbcur].
  destruct (dl_bounds m cur HL a i Hi) as [Ha0 Hba].
  assert (ht m cur = height icur) as Hhc by (unfold ht; by rewrite Hicur).
  assert (height i ≤ ht m cur + 1) as Hgrow.
  { destruct (dl_stale m cur HL a i Hp Hi) as [[_ H]|(c0 & Hc0 & Hne0 & _ & _ & ->)]; [done|].
    destruct (deeper_total m c0 cur) as [|[]]; [done|by apply Hcur|lia..]. }
  split.
  - by apply (same_shape_Tree Hsh).
  - unfold m'. rewrite lookup_insert_eq. eauto.
  - unfold dpst, m'. by rewrite lookup_insert_eq.
  - intros n j Hj. apply lookup_insert_Some in Hj as [[<- <-]|[Hne Hj]]; [simpl; lia|].
    by apply (dl_bounds m cur HL).
  - intros n j Hj. rewrite <-(same_shape_par Hsh). intros Hn.
    apply lookup_insert_Some in Hj as [[<- <-]|[Hne Hj]].
    + exists (Some cur). split; [|simpl; destruct (Hc cur Hca) as [-> ->]; by rewrite (dl_cur m cur HL)].
      simpl. rewrite <-(kids_Some m a i Hi). split; [done|]. split; [done|]. intros c Hck _.
      destruct (decide (c = cur)) as [->|Hne]; [by left|right].
      assert (c ≠ a) as Hcna by (intros ->; apply (kid_slot HT) in Hck; lia).
      unfold deeper, heavier. rewrite !Hw. destruct (Hc c Hcna) as [-> _], (Hc cur Hca) as [-> _].
      by apply deeper_total; [|apply Hcur].
    + apply (DeepOk_transfer m m' n j Hdo).
      * intros c Hck. apply Hc. intros ->. apply Hn, (kids_par HT). by rewrite (kids_Some m n j Hj).
      * apply (dl_ok m cur HL n j Hj). rewrite Hp. congruence.
  - intros b j. rewrite <-(same_shape_par Hsh), <-(same_shape_kids Hsh). intros Hpa Hj.
    assert (b ≠ a) as Hba' by (intros ->; apply (par_kids HT) in Hpa; lia).
    unfold m' in Hj. rewrite lookup_insert_ne in Hj by done.
    destruct (dl_ok m cur HL b j Hj) as (o & Ho & Hdj & Hhj); [rewrite Hp; congruence|].
    rewrite <-(kids_Some m b j Hj) in Ho.
    assert (ht m a = height i) as Hhai by (unfold ht; by rewrite Hi).
    destruct o as [c0|]; [|by destruct (Ho a (proj2 (kids_par HT b a) Hpa))].
    destruct Ho as (Hc0 & _ & Hall). simpl in Hdj, Hhj. destruct (decide (c0 = a)) as [->|Hne0]; [left|right].
    + split; [|lia]. intros c Hck Hne. destruct (Hall c Hck I) as [|Hd]; [done|].
      destruct (Hc c Hne) as [Hhc' _]. unfold deeper, heavier in *. rewrite !Hw, Hha, Hhc'.
      destruct Hd as [|[]]; [left; lia|]. destruct (decide (height i = ht m cur + 1)); [right; split; [lia|done]|left; lia].
    + exists c0. destruct (Hc c0 Hne0) as [-> ->]. split_and!; [done..| |done|done].
      intros c Hck Hne. destruct (Hall c Hck I) as [|Hd]; [by left|right].
      destruct (Hc c Hne) as [Hhc' _], (Hc c0 Hne0) as [Hh0 _]. unfold deeper, heavier.
      by rewrite !Hw, Hhc', Hh0.
Qed.

Lemma propagate_deepest_spec fuel : ∀ cur self,
  let m := fork_infos self in
  DeepLoop m cur → (before_count m cur < fuel)%nat →
  ∃ m', Fork.propagate_deepest fuel leaf cur (ht m cur) (par m cur) self = Ret (Fork.set_infos m' self) ∧
    deep_only m m' ∧ (∀ n i, m' !! n = Some i → DeepOk m' n i ∧ 0 ≤ n.1 ∧ 1 ≤ height i ≤ usize_MAX - n.1).
Proof.
  induction fuel as [|fuel IH]; intros cur self m HL Hf; [lia|].
  pose proof (dl_tree m cur HL) as HT. destruct (par m cur) as [a|] eqn:Hp; simpl.
  2:{ exists m. split; [by destruct self|]. split; [done|]. intros n i Hi.
      split; [|by apply (dl_bounds m cur HL)]. apply (dl_ok m cur HL n i Hi). by rewrite Hp. }
  pose proof (par_kids HT cur a Hp) as (Hin & Hlt & [i Hi]).
  destruct (is_deepest_child_spec self r cur a HT Hp) as (b & -> & Hb). run.
  destruct b; simpl.
  - fold m. rewrite Hi. simpl. destruct (dl_node m cur HL) as [ic Hic].
    destruct (dl_bounds m cur HL cur ic Hic) as [_ Hbc]. destruct (dl_bounds m cur HL a i Hi) as [Ha0 _].
    assert (ht m cur = height ic) as Hhc by (unfold ht; by rewrite Hic).
    run. simpl.
    pose proof (DeepLoop_step m cur a i HL Hp Hi (proj1 Hb eq_refl)) as HL'.
    set (m1 := <[a := Info.set_deepest leaf (ht m cur + 1) i]> m) in *.
    assert (deep_only m m1) as Hdo by (by apply deep_only_insert).
    assert (parent i = par m1 a) as -> by (rewrite <-(same_shape_par (deep_only_shape _ _ Hdo)); unfold par; by rewrite Hi).
    destruct (IH a (Fork.update a (Info.set_deepest leaf (ht m cur + 1) i) self) HL') as (m' & Hrun & Hdo' & Hok).
    { change (before_count m1 a < fuel)%nat. rewrite <-(before_count_shape m m1 a (deep_only_shape _ _ Hdo)).
      pose proof (before_count_par HT cur a Hp). lia. }
    exists m'. split; [|split; [by etrans|done]].
    assert (ht m1 a = ht m cur + 1) as E by (unfold ht at 1, m1; by rewrite lookup_insert_eq).
    rewrite <-E at 1. exact Hrun.
  - assert (¬ ∀ c, c ∈ kids m a → ¬ deeper m c cur) as Hex by (intros H; by apply Hb in H).
    exists m. split; [by destruct self|]. split; [done|]. intros n j Hj.
    split; [|by apply (dl_bounds m cur HL)]. destruct (decide (n = a)) as [->|Hne].
    + destruct (not_all (λ c, deeper m c cur) (kids m a) Hex) as (c' & Hc' & Hd). by eapply DeepLoop_stop.
    + apply (dl_ok m cur HL n j Hj). congruence.
Qed.
End deep_loop.
