(* ===== verification/ForkGrow.v ===== *)
(** Adding blocks to the fork choice tree and moving its root keep the invariant. *)

From S2P Require Import Prelude BTree ForkChoice ForkTree ForkAggregate ForkBatch ForkVotes ForkInv ForkLeaf.

(** * The tree with a new leaf *)

Section linked.
Context {r : SlotHashKey} {m : Nodes} (HT : Tree r m).
Context (k p : SlotHashKey) (ip : ForkInfo) (Hk : m !! k = None) (Hip : m !! p = Some ip) (Hlt : p.1 < k.1).

Definition leaf_info : ForkInfo := Fork.new_leaf_info k (Some p) (latest_invalid_ancestor ip).
Definition parent_info : ForkInfo := Info.set_links (parent ip) (set_insert k (children ip)) ip.
Definition linked : Nodes := <[p := parent_info]> (<[k := leaf_info]> m).

Lemma linked_k : linked !! k = Some leaf_info.
Proof. unfold linked. rewrite lookup_insert_ne, lookup_insert_eq by congruence. done. Qed.
Lemma linked_p : linked !! p = Some parent_info.
Proof. unfold linked. by rewrite lookup_insert_eq. Qed.
Lemma linked_other n : n ≠ k → n ≠ p → linked !! n = m !! n.
Proof. intros. unfold linked. by rewrite !lookup_insert_ne. Qed.

Lemma linked_node n : is_Some (linked !! n) ↔ n = k ∨ is_Some (m !! n).
Proof.
  destruct (decide (n = k)) as [->|Hnk]; [rewrite linked_k; naive_solver|].
  destruct (decide (n = p)) as [->|Hnp]; [rewrite linked_p, Hip; naive_solver|].
  rewrite linked_other by done. naive_solver.
Qed.

Lemma linked_view n : n ≠ k → same_view m linked n.
Proof.
  intros Hn. unfold same_view. destruct (decide (n = p)) as [->|]; [by rewrite linked_p, Hip|].
  by rewrite linked_other.
Qed.

Lemma linked_par n : par linked n = if decide (n = k) then Some p else par m n.
Proof.
  unfold par. case_decide as E; [subst; by rewrite linked_k|].
  destruct (decide (n = p)) as [->|]; [by rewrite linked_p, Hip|]. by rewrite linked_other.
Qed.

Lemma linked_kids n c : c ∈ kids linked n ↔ (n = p ∧ c = k) ∨ c ∈ kids m n.
Proof.
  unfold kids. destruct (decide (n = k)) as [->|Hnk].
  - rewrite linked_k, Hk. simpl. split; [set_solver|]. intros [[-> _]|Hc]; [congruence|set_solver].
  - destruct (decide (n = p)) as [->|Hnp].
    + rewrite linked_p, Hip. simpl. rewrite elem_of_set_insert. naive_solver.
    + rewrite linked_other by done. naive_solver.
Qed.

Lemma linked_Tree : Tree r linked.
Proof.
  split.
  - destruct (tree_has_root r m HT) as (i & Hi & Hn). assert (r ≠ k) by congruence.
    destruct (decide (r = p)) as [->|]; [|by exists i; rewrite linked_other].
    simplify_eq. exists parent_info. by rewrite linked_p.
  - intros n Hn. rewrite linked_par. case_decide as E.
    + right. exists p. split; [done|]. apply linked_kids. by left.
    + apply linked_node in Hn as [|Hn]; [done|].
      destruct (tree_parent r m HT n Hn) as [->|(q & Hq & Hin)]; [by left|right].
      exists q. split; [done|]. apply linked_kids. by right.
  - intros q c [[-> ->]|Hc]%linked_kids; rewrite linked_par.
    + by rewrite decide_True.
    + rewrite decide_False; [by apply (tree_child r m HT)|]. intros ->.
      apply (kid_node HT) in Hc as [? ?]. congruence.
  - intros q. unfold kids. destruct (decide (q = k)) as [->|Hnk]; [rewrite linked_k; constructor|].
    pose proof (tree_sorted r m HT q) as Hs. unfold kids in Hs.
    destruct (decide (q = p)) as [->|Hnp]; [|by rewrite linked_other].
    rewrite Hip in Hs. rewrite linked_p. by apply set_insert_sorted.
Qed.

Lemma linked_below n x : is_Some (m !! n) → below linked x n ↔ below m x n.
Proof.
  induction n as [n IH] using (tree_ind_down HT). intros Hn.
  assert (par linked n = par m n) as E by (rewrite linked_par; case_decide; [subst; destruct Hn; congruence|done]).
  destruct (par m n) as [q|] eqn:Hq.
  - rewrite (below_par linked_Tree _ _ _ E), (below_par HT _ _ _ Hq).
    rewrite (IH q eq_refl); [done|]. by apply (par_kids HT) in Hq as (_ & _ & ?).
  - by rewrite (below_None linked_Tree _ _ E), (below_None HT _ _ Hq).
Qed.

Lemma below_target_node x n : is_Some (m !! x) → below m x n → is_Some (m !! n).
Proof.
  intros Hx Hb. destruct (m !! n) eqn:E; [eauto|]. apply (below_None HT) in Hb as ->; [|unfold par; by rewrite E].
  by rewrite E in Hx.
Qed.

(** ** What is right and what is not *)

Context (Hok : ∀ n i, m !! n = Some i → NodeOk m n i ∧ Bounded m n i).

Lemma child_not_leaf n i c : m !! n = Some i → c ∈ children i → c ≠ k.
Proof.
  intros Hi Hc ->. rewrite <-(kids_Some m n i Hi) in Hc. apply (kid_node HT) in Hc as [? ?]. congruence.
Qed.

Lemma linked_ok n i : linked !! n = Some i → n ≠ p → NodeOk linked n i.
Proof.
  intros Hi Hn. destruct (decide (n = k)) as [->|Hnk].
  - rewrite linked_k in Hi. injection Hi as <-. split; simpl.
    + done.
    + intros _. exists None. split; [|done]. intros c []%not_elem_of_nil.
    + exists None. split; [|done]. intros c []%not_elem_of_nil.
    + intros c []%not_elem_of_nil.
  - rewrite linked_other in Hi by done. eapply NodeOk_ext; [|by apply Hok].
    intros c Hc. apply linked_view. by eapply child_not_leaf.
Qed.

(** The parent, as far as the old children are concerned. *)
Lemma linked_parent_old : NodeOk linked p ip.
Proof.
  eapply NodeOk_ext; [|by apply Hok]. intros c Hc. apply linked_view. by eapply child_not_leaf.
Qed.

Lemma linked_bests n i : linked !! n = Some i → below linked n (best_slot i).
Proof.
  destruct (decide (n = k)) as [->|Hnk]; [rewrite linked_k; intros [= <-]; apply below_refl|].
  assert (∀ j, m !! n = Some j → below linked n (best_slot j)) as H.
  { intros j Hj. destruct (Hok n j Hj) as [_ (_ & _ & _ & Hb)]. apply linked_below; [|done].
    by eapply below_target_node. }
  destruct (decide (n = p)) as [->|Hnp]; [rewrite linked_p; intros [= <-]; by apply (H ip)|].
  rewrite linked_other by done. apply H.
Qed.

Lemma leaf_cand : latest_invalid_ancestor ip = None → cand linked k.
Proof. intros H. exists leaf_info. by rewrite linked_k. Qed.

Lemma linked_children_perm c : c ∈ children ip ++ [k] ↔ c ∈ children parent_info.
Proof. simpl. rewrite elem_of_set_insert, elem_of_app, list_elem_of_singleton. tauto. Qed.

(** The leaf is not the best child: nothing changes. *)
Lemma leaf_not_best c : c ∈ kids linked p → cand linked c → heavier linked c k →
  BestOk linked p parent_info.
Proof.
  intros Hc Hcc Hh Hn. simpl in Hn. destruct (ok_best _ _ _ linked_parent_old Hn) as (o & Ho & Hb).
  assert (c ∈ children ip) as Hcip.
  { apply linked_kids in Hc as [[_ ->]|Hc]; [by apply heavier_irrefl in Hh|]. by rewrite (kids_Some m p ip Hip) in Hc. }
  exists o. split; [|done].
  apply (Picks_perm _ _ (children ip ++ [k]) _ o linked_children_perm). apply Picks_keep; [done|].
  intros _. destruct o as [c0|]; [|by destruct (Ho c)]. exists c0. split; [done|].
  destruct Ho as (_ & _ & Hall). destruct (Hall c Hcip Hcc) as [->|]; [done|]. by eapply heavier_trans.
Qed.

(** It is: the parent chooses it. *)
Lemma leaf_best : (∀ c, c ∈ kids linked p → cand linked c → ¬ heavier linked c k) →
  latest_invalid_ancestor ip = None → Picks (cand linked) (heavier linked) (children parent_info) (Some k).
Proof.
  intros Hall Hn. split_and!; [by apply linked_children_perm, elem_of_app; right; left|by apply leaf_cand|].
  intros c Hc Hcc. rewrite <-(kids_Some linked p parent_info linked_p) in Hc.
  destruct (decide (c = k)) as [|Hne]; [by left|right]. apply heavier_total; [done|]. by apply Hall.
Qed.

Lemma best_phase self fuel : fork_infos self = linked → (size linked < fuel)%nat → ∃ b m2,
  Fork.is_best_child self k = Ret b ∧
  (if b : bool then Fork.propagate_best fuel k (best_slot ip) (Some p) self else Ret self)
    = Ret (Fork.set_infos m2 self) ∧
  best_only linked m2 ∧ (∀ n i, m2 !! n = Some i → BestOk m2 n i ∧ below linked n (best_slot i)).
Proof.
  intros Hself Hf. assert (par linked k = Some p) as Hp by (rewrite linked_par; by rewrite decide_True).
  destruct (is_best_child_spec self r k p) as (b & Hb & Hiff); [rewrite Hself; apply linked_Tree|by rewrite Hself|].
  rewrite Hself in Hiff. exists b. destruct b.
  - assert (BestLoop r k linked k) as HL.
    { split; [apply linked_Tree|rewrite linked_k; eauto|apply linked_bests|unfold bst; by rewrite linked_k|apply below_refl|].
      intros n i Hi Hn. exact (ok_best _ _ _ (linked_ok n i Hi ltac:(congruence))). }
    destruct (BestLoop_step r k (best_slot ip) linked k p parent_info HL Hp linked_p eq_refl)
      as (HL' & Hstale & Hold); [by apply leaf_best, Hiff|].
    set (m1 := <[p := Info.set_best k parent_info]> linked) in *.
    assert (best_only linked m1) as Hbo by (apply best_only_insert, linked_p).
    destruct fuel as [|fuel]; [lia|]. cbn [Fork.propagate_best]. rewrite Hself, linked_p. cbn [unwrap].
    rewrite bind_Ret_l, decide_True by done.
    destruct (propagate_best_spec r k (best_slot ip) fuel p (Fork.update p (Info.set_best k parent_info) self))
      as (m2 & Hrun & Hbo2 & Hok2).
    + simpl. by rewrite Hself.
    + simpl. by rewrite Hself.
    + simpl. by rewrite Hself.
    + simpl. rewrite Hself. fold m1. rewrite <-(before_count_shape _ _ p (best_only_shape _ _ Hbo)).
      pose proof (before_count_par linked_Tree k p Hp). pose proof (@before_count_size linked k). lia.
    + simpl in Hrun, Hbo2, Hok2. rewrite Hself in Hrun, Hbo2, Hok2. fold m1 in Hrun, Hbo2, Hok2.
      exists m2. split; [done|]. split; [|split; [by etrans|]].
      * assert (parent parent_info = par m1 p) as -> by
          (rewrite <-(same_shape_par (best_only_shape _ _ Hbo)); unfold par; by rewrite linked_p).
        exact Hrun.
      * intros n i Hi. destruct (Hok2 n i Hi) as [H1 H2]. split; [done|].
        by apply (same_shape_below (best_only_shape _ _ Hbo)).
  - exists linked. split; [done|]. split; [by rewrite <-Hself; destruct self|]. split; [done|].
    intros n i Hi. split; [|by apply linked_bests]. destruct (decide (n = p)) as [->|Hn];
      [|exact (ok_best _ _ _ (linked_ok n i Hi Hn))].
    rewrite linked_p in Hi. injection Hi as <-.
    destruct (not_all (λ c, cand linked c ∧ heavier linked c k) (kids linked p)) as (c & Hc & Hcc & Hh).
    + intros H. assert (false = true); [|done]. apply Hiff. intros c Hc Hcc Hh. by apply (H c Hc).
    + by eapply leaf_not_best.
Qed.

(** ** The deepest blocks *)

Context (Hmax : k.1 < usize_MAX).

Lemma linked_bounds n i : linked !! n = Some i →
  0 ≤ stake_voted_at i ≤ stake_voted_subtree i ∧ 0 ≤ n.1 ∧ 1 ≤ height i ≤ usize_MAX - n.1.
Proof.
  destruct (decide (n = k)) as [->|Hnk].
  - rewrite linked_k. intros [= <-]. simpl. destruct (Hok p ip Hip) as [_ (_ & ? & _)]. lia.
  - assert (∀ j, m !! n = Some j → 0 ≤ stake_voted_at j ≤ stake_voted_subtree j ∧ 0 ≤ n.1 ∧
      1 ≤ height j ≤ usize_MAX - n.1) as H by (intros j Hj; destruct (Hok n j Hj) as [_ (? & ? & ? & _)]; lia).
    destruct (decide (n = p)) as [->|Hnp]; [rewrite linked_p; intros [= <-]; by apply (H ip)|].
    rewrite linked_other by done. apply H.
Qed.

Lemma DeepOk_best_only m1 m2 n i i' : best_only m1 m2 → m1 !! n = Some i → m2 !! n = Some i' →
  DeepOk m1 n i → DeepOk m2 n i'.
Proof.
  intros H Hi Hi' (o & Ho & Hd & Hh). destruct (best_only_lookup _ _ _ _ H Hi') as (i0 & Hi0 & ->).
  simplify_eq. simpl. exists o. simpl. split_and!.
  - revert Ho. apply Picks_ext; [done|]. intros c c' _ _. unfold deeper, heavier.
    destruct (best_only_view _ _ c H) as (_ & _ & -> & _ & -> & _).
    by destruct (best_only_view _ _ c' H) as (_ & _ & -> & _ & -> & _).
  - rewrite Hd. destruct o as [c|]; [|done]. simpl. by apply best_only_view.
  - rewrite Hh. destruct o as [c|]; [|done]. simpl. f_equal. by apply best_only_view.
Qed.

Lemma leaf_DeepLoop m2 : best_only linked m2 → DeepLoop r k m2 k.
Proof.
  intros Hbo. pose proof (best_only_shape _ _ Hbo) as Hsh.
  assert (∀ c, ht linked c = ht m2 c ∧ dpst linked c = dpst m2 c ∧ wt linked c = wt m2 c) as Hview.
  { intros c. by destruct (best_only_view _ _ c Hbo) as (_ & _ & ? & _ & ? & ?). }
  assert (∀ c c', deeper linked c c' ↔ deeper m2 c c') as Hdeep.
  { intros c c'. unfold deeper, heavier. destruct (Hview c) as (-> & _ & ->). by destruct (Hview c') as (-> & _ & ->). }
  split.
  - by apply (same_shape_Tree Hsh), linked_Tree.
  - apply (same_shape_node Hsh). rewrite linked_k. eauto.
  - destruct (Hview k) as (_ & <- & _). unfold dpst. by rewrite linked_k.
  - intros n i Hi. destruct (best_only_lookup _ _ _ _ Hbo Hi) as (i0 & Hi0 & ->). simpl.
    by apply linked_bounds.
  - intros n i Hi. rewrite <-(same_shape_par Hsh), linked_par, decide_True by done. intros Hn.
    destruct (best_only_lookup _ _ _ _ Hbo Hi) as (i0 & Hi0 & _).
    apply (DeepOk_best_only linked m2 n i0 i Hbo Hi0 Hi). apply (ok_deep _ _ _ (linked_ok n i0 Hi0 ltac:(congruence))).
  - intros a i. rewrite <-(same_shape_par Hsh), <-(same_shape_kids Hsh), linked_par, decide_True by done.
    intros [= <-] Hi. destruct (best_only_lookup _ _ _ _ Hbo Hi) as (i0 & Hi0 & Heq).
    rewrite linked_p in Hi0. injection Hi0 as <-.
    assert (height i = height ip ∧ deepest_slot i = deepest_slot ip) as [-> ->] by (by rewrite Heq).
    setoid_rewrite linked_kids. setoid_rewrite <-Hdeep. destruct (Hview k) as (<- & _ & _).
    assert (ht linked k = 1) as -> by (unfold ht; by rewrite linked_k).
    destruct (ok_deep _ _ _ linked_parent_old) as (o & Ho & Hds & Hh). rewrite <-(kids_Some m p ip Hip) in Ho.
    destruct o as [c0|]; simpl in Hds, Hh.
    + right. exists c0. destruct Ho as (Hc0 & _ & Hall). destruct (Hview c0) as (<- & <- & _).
      split_and!; [by right| | |done|done].
      * intros ->. apply (kid_node HT) in Hc0 as [? ?]. congruence.
      * intros c [[_ ->]|Hc] Hne; [done|]. by apply Hall.
    + left. split; [|lia]. intros c [[_ ->]|Hc] Hne; [done|]. by destruct (Ho c Hc).
Qed.

(** ** The whole walk *)

Lemma linked_sum n i : linked !! n = Some i →
  stake_voted_subtree i = stake_voted_at i + sumZ (wt linked <$> children i).
Proof.
  intros Hi. destruct (decide (n = p)) as [->|Hn]; [|by apply (ok_sum _ _ _ (linked_ok n i Hi Hn))].
  rewrite linked_p in Hi. injection Hi as <-. simpl. rewrite (ok_sum _ _ _ linked_parent_old).
  rewrite set_insert_perm by (intros Hin; by apply (child_not_leaf p ip k Hip Hin)).
  rewrite fmap_cons, sumZ_cons. unfold wt at 2. rewrite linked_k. simpl. lia.
Qed.

Lemma linked_conf n i c : linked !! n = Some i → c ∈ children i → conf linked c = true →
  is_duplicate_confirmed i = true.
Proof.
  intros Hi Hc. destruct (decide (n = p)) as [->|Hn]; [|by apply (ok_conf _ _ _ (linked_ok n i Hi Hn))].
  rewrite linked_p in Hi. injection Hi as <-. simpl in Hc |- *.
  apply elem_of_set_insert in Hc as [->|Hc]; [unfold conf; by rewrite linked_k|].
  by apply (ok_conf _ _ _ linked_parent_old).
Qed.

Lemma propagate_new_leaf_spec self : fork_infos self = linked →
  ∃ m3, Fork.propagate_new_leaf k p self = Ret (Fork.set_infos m3 self) ∧ same_shape linked m3 ∧
    (∀ n, validity <$> linked !! n = validity <$> m3 !! n) ∧ (∀ n, vat linked n = vat m3 n) ∧
    (∀ n, wt linked n = wt m3 n) ∧ (∀ n i, m3 !! n = Some i → NodeOk m3 n i ∧ Bounded m3 n i).
Proof.
  intros Hself. unfold Fork.propagate_new_leaf, Fork.best_slot. rewrite Hself, linked_p.
  cbn [fmap option_fmap option_map unwrap]. run. change (ForkChoice.best_slot parent_info) with (best_slot ip).
  set (fuel := S (size linked)).
  destruct (best_phase self fuel Hself) as (b & m2 & -> & Hrun2 & Hbo & Hok2); [lia|].
  run. rewrite Hrun2, bind_Ret_l. pose proof (leaf_DeepLoop m2 Hbo) as HL.
  pose proof (best_only_shape _ _ Hbo) as Hsh2.
  destruct (propagate_deepest_spec r k fuel k (Fork.set_infos m2 self)) as (m3 & Hrun3 & Hdo & Hok3).
  { done. }
  { simpl. rewrite <-(before_count_shape _ _ k Hsh2). pose proof (@before_count_size linked k). lia. }
  simpl in Hrun3, Hdo. rewrite <-(same_shape_par Hsh2), linked_par, decide_True in Hrun3 by done.
  assert (ht m2 k = 1) as E by (destruct (best_only_view _ _ k Hbo) as (_ & _ & _ & _ & <- & _); unfold ht; by rewrite linked_k).
  rewrite E in Hrun3. exists m3. split; [exact Hrun3|]. pose proof (deep_only_shape _ _ Hdo) as Hsh3.
  assert (same_shape linked m3) as Hsh by (by etrans).
  assert (∀ n, validity <$> linked !! n = validity <$> m3 !! n ∧ vat linked n = vat m3 n ∧ wt linked n = wt m3 n
    ∧ bst m2 n = bst m3 n ∧ wt m2 n = wt m3 n ∧ validity <$> m2 !! n = validity <$> m3 !! n) as Hview.
  { intros n. destruct (best_only_view _ _ n Hbo) as (_ & E1 & E2 & E3 & _ & _).
    destruct (deep_only_view _ _ n Hdo) as (_ & E4 & E5 & E6 & E7).
    split_and!; congruence. }
  split_and!; [done|intros n; by apply Hview..|].
  intros n i3 Hi3. destruct (deep_only_lookup _ _ _ _ Hdo Hi3) as (i2 & Hi2 & Heq3).
  destruct (best_only_lookup _ _ _ _ Hbo Hi2) as (i1 & Hi1 & Heq2).
  destruct (Hok3 n i3 Hi3) as (Hd3 & Hn0 & Hh3). destruct (Hok2 n i2 Hi2) as [Hb2 Hbelow].
  assert (children i3 = children i1 ∧ children i2 = children i1 ∧ stake_voted_subtree i3 = stake_voted_subtree i1
    ∧ stake_voted_at i3 = stake_voted_at i1 ∧ best_slot i3 = best_slot i2
    ∧ is_duplicate_confirmed i3 = is_duplicate_confirmed i1
    ∧ latest_invalid_ancestor i3 = latest_invalid_ancestor i2) as (Ec & Ec2 & Es & Ea & Eb & Ecf & Ei)
    by (by rewrite Heq3, Heq2).
  split; [split|].
  - rewrite Es, Ea, Ec, (linked_sum n i1 Hi1). f_equal. apply sumZ_ext_in. intros c _. apply Hview.
  - rewrite Ei, Ec, Eb. intros Hc. destruct (Hb2 Hc) as (o & Ho & ->). exists o. rewrite Ec2 in Ho. split.
    + revert Ho. apply Picks_ext; [intros c _; apply validity_cand, Hview|].
      intros c c' _ _. unfold heavier. destruct (Hview c) as (_ & _ & _ & _ & -> & _).
      by destruct (Hview c') as (_ & _ & _ & _ & -> & _).
    + destruct o as [c|]; [|done]. apply Hview.
  - exact Hd3.
  - intros c Hc Hcf. rewrite Ecf. rewrite Ec in Hc. apply (linked_conf n i1 c Hi1 Hc). rewrite <-Hcf.
    destruct (Hview c) as (E0 & _). unfold conf. destruct (linked !! c), (m3 !! c); simplify_eq/=; congruence.
  - unfold Bounded. rewrite Ea, Es, Eb. destruct (linked_bounds n i1 Hi1) as (? & _ & _).
    split; [done|]. split; [done|]. split; [done|]. by apply (same_shape_below Hsh).
Qed.
End linked.

(** * Keeping the subtree of a new root *)

Section rerooted.
Context {r : SlotHashKey} {m : Nodes} (HT : Tree r m).
Context (x : SlotHashKey) (ix : ForkInfo) (Hix : m !! x = Some ix).

Definition root_info : ForkInfo := Info.set_links None (children ix) ix.
Definition rerooted : Nodes := <[x := root_info]> (filter (λ y, below m x y.1) m).

Lemma rerooted_x : rerooted !! x = Some root_info.
Proof. unfold rerooted. by rewrite lookup_insert_eq. Qed.

Lemma rerooted_other n i : n ≠ x → rerooted !! n = Some i ↔ m !! n = Some i ∧ below m x n.
Proof. intros Hn. unfold rerooted. by rewrite lookup_insert_ne, map_lookup_filter_Some. Qed.

Lemma rerooted_node n : is_Some (rerooted !! n) ↔ is_Some (m !! n) ∧ below m x n.
Proof.
  destruct (decide (n = x)) as [->|Hn].
  - rewrite rerooted_x, Hix. split; [|eauto]. intros _. split; [eauto|apply below_refl].
  - unfold is_Some. setoid_rewrite (rerooted_other n _ Hn). naive_solver.
Qed.

Lemma rerooted_view n : is_Some (rerooted !! n) → same_view m rerooted n.
Proof.
  intros [i Hi]. unfold same_view. destruct (decide (n = x)) as [->|Hn]; [by rewrite rerooted_x, Hix|].
  rewrite Hi. apply rerooted_other in Hi as [Hi _]; [|done]. by rewrite Hi.
Qed.

Lemma rerooted_par n : par rerooted n = if decide (n ≠ x ∧ below m x n) then par m n else None.
Proof.
  unfold par. destruct (decide (n = x)) as [->|Hn]; [rewrite rerooted_x; by rewrite decide_False by tauto|].
  case_decide as E.
  - destruct (m !! n) as [i|] eqn:Hi; simpl.
    + by rewrite (proj2 (rerooted_other n i Hn) (conj Hi (proj2 E))).
    + destruct (rerooted !! n) as [j|] eqn:Hj; [|done]. apply rerooted_other in Hj as [? _]; congruence.
  - destruct (rerooted !! n) as [j|] eqn:Hj; [|done]. apply rerooted_other in Hj as [_ ?]; tauto.
Qed.

Lemma rerooted_kids n : kids rerooted n = if decide (below m x n) then kids m n else [].
Proof.
  unfold kids. destruct (decide (n = x)) as [->|Hn].
  { rewrite rerooted_x, decide_True, Hix by apply below_refl. done. }
  case_decide as E.
  - destruct (m !! n) as [i|] eqn:Hi; simpl.
    + by rewrite (proj2 (rerooted_other n i Hn) (conj Hi E)).
    + destruct (rerooted !! n) as [j|] eqn:Hj; [|done]. apply rerooted_other in Hj as [? _]; congruence.
  - destruct (rerooted !! n) as [j|] eqn:Hj; [|done]. apply rerooted_other in Hj as [_ ?]; tauto.
Qed.

Lemma rerooted_Tree : Tree x rerooted.
Proof.
  split.
  - exists root_info. by rewrite rerooted_x.
  - intros n [Hn Hb]%rerooted_node. destruct (decide (n = x)) as [|Hne]; [by left|right].
    destruct (par m n) as [p|] eqn:Hp; [|by apply (below_None HT) in Hb; [subst|done]].
    exists p. rewrite rerooted_par, decide_True by done. split; [done|].
    apply (below_par HT _ _ _ Hp) in Hb as [->|Hb]; [done|].
    rewrite rerooted_kids, decide_True by done. by apply (par_kids HT).
  - intros p c. rewrite rerooted_kids. case_decide as Hb; [|by intros ?%not_elem_of_nil].
    intros Hc. split; [by apply (kid_slot HT)|]. rewrite rerooted_par, decide_True; [by apply (kids_par HT)|].
    split; [|by eapply (below_trans HT), (below_kid HT)]. intros ->. by apply (not_below_child HT p x).
  - intros p. rewrite rerooted_kids. case_decide; [apply (tree_sorted r m HT)|constructor].
Qed.

Lemma rerooted_below a n : is_Some (rerooted !! n) → below rerooted a n ↔ below m a n ∧ below m x a.
Proof.
  induction n as [n IH] using (tree_ind_down rerooted_Tree). intros Hn.
  pose proof Hn as [Hm Hb]%rerooted_node. destruct (decide (n = x)) as [->|Hne].
  - rewrite (below_None rerooted_Tree) by apply (root_par rerooted_Tree). split.
    + intros ->. split; apply below_refl.
    + intros [H1 H2]. by apply (below_antisym HT).
  - assert (par rerooted n = par m n) as E by (by rewrite rerooted_par, decide_True).
    destruct (par m n) as [p|] eqn:Hp; [|by apply (below_None HT) in Hb; [subst|done]].
    rewrite (below_par rerooted_Tree _ _ _ E), (below_par HT _ _ _ Hp), (IH p E).
    + naive_solver.
    + by apply (par_kids rerooted_Tree) in E as (_ & _ & ?).
Qed.

Context (Hok : ∀ n i, m !! n = Some i → NodeOk m n i ∧ Bounded m n i).

Lemma rerooted_ok n i : rerooted !! n = Some i → NodeOk rerooted n i ∧ Bounded rerooted n i.
Proof.
  intros Hi. assert (is_Some (rerooted !! n)) as Hn by eauto.
  assert (∃ j, m !! n = Some j ∧ i = Info.set_links (parent i) (children j) j) as (j & Hj & Heq).
  { destruct (decide (n = x)) as [->|Hne].
    - rewrite rerooted_x in Hi. injection Hi as <-. by exists ix.
    - apply rerooted_other in Hi as [Hi _]; [|done]. exists i. by destruct i. }
  assert (children i = children j) as Hch by (by rewrite Heq). destruct (Hok n j Hj) as [Hnode Hbd]. split.
  - assert (NodeOk rerooted n j) as [Hs Hb Hd Hc]; [|rewrite Heq; by split].
    eapply NodeOk_ext; [|exact Hnode]. intros c Hc. apply rerooted_view.
    apply (kid_node rerooted_Tree n c). by rewrite (kids_Some rerooted n i Hi), Hch.
  - destruct Hbd as (H1 & H2 & H3 & Hb). rewrite Heq. split; [done|]. split; [done|]. split; [done|]. simpl.
    pose proof Hn as [Hm Hxn]%rerooted_node. apply rerooted_below; [|done].
    apply rerooted_node. split; [by eapply (below_target_node HT)|by eapply (below_trans HT)].
Qed.
End rerooted.

Lemma remove_nodes_spec l : ∀ self, NoDup l → (∀ n, n ∈ l → is_Some (fork_infos self !! n)) →
  ∃ m', for_each Fork.remove_node l self = Ret (Fork.set_infos m' self) ∧
    ∀ n i, m' !! n = Some i ↔ fork_infos self !! n = Some i ∧ n ∉ l.
Proof.
  induction l as [|n l IH]; intros self Hnd Hl; cbn [for_each].
  - exists (fork_infos self). split; [by destruct self|]. intros n i. set_solver.
  - apply NoDup_cons in Hnd as [Hn Hnd]. destruct (Hl n) as [i Hi]; [left|].
    assert (Fork.remove_node n self = Ret (Fork.set_infos (delete n (fork_infos self)) self)) as ->
      by (unfold Fork.remove_node; by rewrite Hi). run.
    destruct (IH (Fork.set_infos (delete n (fork_infos self)) self) Hnd) as (m' & -> & Hm').
    + intros x Hx. simpl. rewrite lookup_delete_ne by congruence. apply Hl. by right.
    + exists m'. split; [done|]. intros x j. rewrite Hm'. simpl. rewrite lookup_delete_Some. set_solver.
Qed.

(** * The operations *)

Section operations.
Context {get_epoch : Slot → Z} {epoch_stakes : gmap Z (Pubkey → Z)} `{HSL : !StakeLaws get_epoch epoch_stakes}.
Local Abbreviation stake := (Fork.vote_stake get_epoch epoch_stakes).
Local Abbreviation FI := (FInv (get_epoch := get_epoch) (epoch_stakes := epoch_stakes)).

(** A block that can be a key of the tree. *)
Definition good_key (k : SlotHashKey) : Prop := 0 ≤ k.1 < u64_MAX ∧ k ≠ key_default.

Lemma at_total_none votes k : (∀ pk, votes !! pk ≠ Some k) → at_total stake votes k = 0.
Proof.
  intros H. etrans; [|apply (tally_zero votes)]. apply tally_ext. intros pk k' Hk'.
  rewrite decide_False; [done|]. intros ->. by apply (H pk).
Qed.

Lemma new_spec root : good_key root →
  ∃ self, Fork.new root = Ret self ∧ FI self ∧ tree_root self = root ∧ latest_votes self = ∅.
Proof.
  intros [Hr Hd]. unfold Fork.new, Fork.add_new_leaf_slot, Fork.contains_block. simpl.
  eexists. split; [reflexivity|]. split_and!; [|done..].
  assert (∀ k i, (<[root := Fork.new_leaf_info root None None]> ∅ : Nodes) !! k = Some i →
    k = root ∧ i = Fork.new_leaf_info root None None) as Hk.
  { intros k i [[<- <-]|[_ ?]]%lookup_insert_Some; [done|]. by rewrite lookup_empty in *. }
  assert (∀ k, kids (<[root := Fork.new_leaf_info root None None]> ∅) k = []) as Hkids.
  { intros k. unfold kids. destruct (_ !! k) as [i|] eqn:Hi; [|done]. by apply Hk in Hi as [_ ->]. }
  assert (∀ k, par (<[root := Fork.new_leaf_info root None None]> ∅) k = None) as Hpar.
  { intros k. unfold par. destruct (_ !! k) as [i|] eqn:Hi; [|done]. by apply Hk in Hi as [_ ->]. }
  split; simpl.
  - split.
    + exists (Fork.new_leaf_info root None None). by rewrite lookup_insert_eq.
    + intros k [i Hi]. left. by apply (Hk k i).
    + intros p c. rewrite Hkids. by intros ?%not_elem_of_nil.
    + intros p. rewrite Hkids. constructor.
  - intros k i [-> ->]%Hk. split; [split; simpl|].
    + done.
    + intros _. exists None. split; [|done]. by intros c ?%not_elem_of_nil.
    + exists None. split; [|done]. by intros c ?%not_elem_of_nil.
    + by intros c ?%not_elem_of_nil.
    + split; simpl; [done|]. split; [lia|]. split; [unfold usize_MAX; lia|apply below_refl].
  - intros k i [-> ->]%Hk. done.
  - split.
    + intros k s. unfold inv_of. destruct (_ !! k) as [i|] eqn:Hi; [|done]. by apply Hk in Hi as [_ ->].
    + intros k _. unfold inv_of. destruct (_ !! k) as [i|] eqn:Hi; [|done]. by apply Hk in Hi as [_ ->].
    + intros k p s. by rewrite Hpar.
  - rewrite lookup_insert_ne by done. done.
Qed.

Lemma linked_Valid r m k p ip : Tree r m → m !! k = None → m !! p = Some ip → p.1 < k.1 →
  Valid m → Valid (linked (m := m) k p ip).
Proof.
  intros HT Hk Hip Hlt [V1 V2 V3].
  assert (∀ n, inv_of (linked (m := m) k p ip) n = if decide (n = k) then latest_invalid_ancestor ip else inv_of m n) as Hinv.
  { intros n. unfold inv_of. case_decide as E; [subst; by rewrite (linked_k (m := m) k p ip)|].
    destruct (decide (n = p)) as [->|]; [by rewrite linked_p, Hip|by rewrite linked_other]. }
  split.
  - intros n s. rewrite Hinv. case_decide as E; [subst|apply V1].
    intros Hs. pose proof (V1 p s). unfold inv_of in *. rewrite Hip in *. simpl in *. naive_solver lia.
  - intros n. rewrite Hinv. unfold conf. case_decide as E; [subst; by rewrite (linked_k (m := m) k p ip)|].
    intros Hc. apply V2. unfold conf. destruct (decide (n = p)) as [->|]; [rewrite linked_p in Hc; by rewrite Hip|].
    by rewrite linked_other in Hc.
  - intros n q s. rewrite (linked_par k p ip Hk Hip), !Hinv. case_decide as E.
    + subst. intros [= <-]. rewrite decide_False by congruence. unfold inv_of. rewrite Hip. simpl.
      intros ->. exists s. split; [done|lia].
    + intros Hp. rewrite decide_False; [by apply V3|]. intros ->.
      apply (par_kids HT) in Hp as (_ & _ & [? ?]). congruence.
Qed.

(** A new block extends a block of the tree; nobody has voted for it yet. *)
Lemma add_new_leaf_slot_spec self k p ip : FI self →
  let m := fork_infos self in
  m !! k = None → m !! p = Some ip → p.1 < k.1 → good_key k →
  (∀ pk, latest_votes self !! pk ≠ Some k) →
  ∃ self', Fork.add_new_leaf_slot k (Some p) self = Ret self' ∧ FI self' ∧
    tree_root self' = tree_root self ∧ latest_votes self' = latest_votes self ∧
    same_shape (linked (m := m) k p ip) (fork_infos self') ∧
    (∀ n, validity <$> fork_infos self' !! n = validity <$> linked (m := m) k p ip !! n) ∧
    (∀ n, wt (fork_infos self') n = wt (linked (m := m) k p ip) n).
Proof.
  intros HI m Hk Hip Hlt [Hr Hd] Hvotes. pose proof (fi_tree self HI) as HT. fold m in HT.
  unfold Fork.add_new_leaf_slot, Fork.contains_block. fold m. rewrite Hk. cbn [is_some].
  unfold Fork.latest_invalid_ancestor. fold m. cbn [mbind option_bind]. rewrite Hip. cbn [mbind option_bind].
  change (fork_infos (Fork.update k (Fork.new_leaf_info k (Some p) (latest_invalid_ancestor ip)) self))
    with (<[k := leaf_info k p ip]> m).
  rewrite lookup_insert_ne, Hip by congruence. cbn [unwrap]. run.
  set (self1 := Fork.update p _ _).
  destruct (propagate_new_leaf_spec HT k p ip Hk Hip Hlt (fi_ok self HI) (proj2 Hr) self1 eq_refl)
    as (m3 & -> & Hsh & Hval & Hvat & Hwt & Hok).
  eexists. split; [reflexivity|]. split_and!; [|done..|done|by intros n; rewrite Hval|by intros n; rewrite Hwt].
  assert (Valid m3) as Hv.
  { eapply Valid_ext; [apply Hval|by apply same_shape_par|]. by eapply linked_Valid, (fi_valid self HI). }
  split; simpl.
  - by apply (same_shape_Tree Hsh), linked_Tree.
  - done.
  - intros n i Hi. assert (stake_voted_at i = vat m3 n) as -> by (unfold vat; by rewrite Hi).
    rewrite <-Hvat. destruct (decide (n = k)) as [->|Hn].
    + unfold vat. rewrite (linked_k k p ip Hk Hip). simpl. by rewrite at_total_none.
    + rewrite <-(proj1 (same_view_eq m _ n (linked_view k p ip Hip n Hn))).
      destruct (proj2 (same_shape_node Hsh n)) as [j Hj]; [eauto|].
      destruct (proj1 (linked_node k p ip Hk Hip n)) as [|[j0 Hj0]]; [eauto|done|].
      unfold vat. rewrite Hj0. by apply (fi_at self HI).
  - done.
  - destruct (m3 !! key_default) as [i|] eqn:E; [|done].
    destruct (proj2 (same_shape_node Hsh key_default)) as [j Hj]; [eauto|].
    destruct (proj1 (linked_node k p ip Hk Hip key_default)) as [|[j0 Hj0]]; [eauto|by destruct Hd|].
    unfold m in Hj0. by rewrite (fi_default self HI) in Hj0.
Qed.

Lemma rerooted_Valid r m x ix : Tree r m → m !! x = Some ix → Valid m → Valid (rerooted (m := m) x ix).
Proof.
  intros HT Hix [V1 V2 V3].
  assert (∀ n, is_Some (rerooted (m := m) x ix !! n) → inv_of (rerooted (m := m) x ix) n = inv_of m n ∧
    conf (rerooted (m := m) x ix) n = conf m n) as H.
  { intros n Hn. pose proof (rerooted_view x ix Hix n Hn) as E. unfold same_view in E. unfold inv_of, conf.
    destruct (m !! n), (rerooted x ix !! n); simplify_eq/=; split; congruence. }
  assert (∀ n s, inv_of (rerooted (m := m) x ix) n = Some s → is_Some (rerooted (m := m) x ix !! n)) as Hnode.
  { intros n s. unfold inv_of. destruct (_ !! n); [eauto|done]. }
  split.
  - intros n s Hs. apply V1. by rewrite <-(proj1 (H n (Hnode n s Hs))).
  - intros n Hc. assert (is_Some (rerooted (m := m) x ix !! n)) as Hn by (unfold conf in Hc; destruct (_ !! n); [eauto|done]).
    destruct (H n Hn) as [-> E]. apply V2. by rewrite <-E.
  - intros n p s Hp Hs. assert (is_Some (rerooted (m := m) x ix !! n)) as Hn by (apply par_Some in Hp as (? & ? & _); eauto).
    rewrite (proj1 (H n Hn)). apply (V3 n p s).
    + rewrite rerooted_par in Hp by done. by case_decide.
    + by rewrite <-(proj1 (H p (Hnode p s Hs))).
Qed.

(** Setting a new root keeps its subtree. *)
Lemma set_tree_root_spec self x ix : FI self → let m := fork_infos self in m !! x = Some ix →
  ∃ self', Fork.set_tree_root x self = Ret self' ∧ FI self' ∧ tree_root self' = x ∧
    latest_votes self' = latest_votes self ∧ fork_infos self' = rerooted (m := m) x ix.
Proof.
  intros HI m Hix. pose proof (fi_tree self HI) as HT. fold m in HT.
  unfold Fork.set_tree_root.
  destruct (tree_has_root _ _ HT) as (ir & Hir & _).
  destruct (subtree_diff_spec self _ (tree_root self) x HT) as (S & -> & HS).
  { fold m. eauto. }
  { fold m. intros Hb. by apply (below_None HT) in Hb; [|apply (root_par HT)]. }
  fold m in HS. run.
  destruct (remove_nodes_spec (elements S) self) as (m1 & -> & Hm1).
  { apply NoDup_elements. }
  { intros n Hn%elem_of_elements. by apply HS in Hn as []. }
  run. simpl. fold m in Hm1.
  assert (m1 = filter (λ y, below m x y.1) m) as ->.
  { apply map_eq. intros n. apply option_eq. intros i. rewrite Hm1, map_lookup_filter_Some, elem_of_elements, HS. simpl.
    split.
    - intros [Hi Hn]. split; [done|]. destruct (decide (below m x n)) as [|Hb]; [done|]. destruct Hn.
      split_and!; [eauto|by apply (below_root HT); eauto|done].
    - intros [Hi Hb]. split; [done|]. tauto. }
  assert (filter (λ y, below m x y.1) m !! x = Some ix) as Hx.
  { apply map_lookup_filter_Some. split; [done|apply below_refl]. }
  rewrite Hx. simpl. eexists. split; [reflexivity|]. split_and!; [|done..].
  change (Fork.set_root x _) with {| fork_infos := rerooted (m := m) x ix; latest_votes := latest_votes self; tree_root := x |}.
  assert (∀ n, is_Some (rerooted (m := m) x ix !! n) → same_view m (rerooted (m := m) x ix) n) as Hview
    by (intros; by apply rerooted_view).
  split; simpl.
  - by apply (rerooted_Tree HT).
  - intros n i Hi. by apply (rerooted_ok HT x ix Hix (fi_ok self HI) n i).
  - intros n i Hi. assert (stake_voted_at i = vat (rerooted (m := m) x ix) n) as -> by (unfold vat; by rewrite Hi).
    rewrite <-(proj1 (same_view_eq m _ n (Hview n (mk_is_Some _ _ Hi)))).
    destruct (proj1 (rerooted_node x ix Hix n)) as [[j Hj] _]; [eauto|].
    unfold vat. rewrite Hj. by apply (fi_at self HI).
  - by eapply rerooted_Valid, (fi_valid self HI).
  - destruct (_ !! key_default) as [i|] eqn:E; [|done].
    destruct (proj1 (rerooted_node x ix Hix key_default)) as [[j Hj] _]; [eauto|].
    unfold m in Hj. by rewrite (fi_default self HI) in Hj.
Qed.
End operations.
