(* ===== verification/ForkChoiceProps.v ===== *)
(** Correctness of the fork choice: in every reachable state the stored weights are
    those of the latest votes, the best block of a valid fork is the one that the
    greedy heaviest-subtree rule walks to, and the operations on forks do exactly
    what they are for. *)

From S2P Require Import Prelude BTree ForkChoice ForkTree ForkAggregate ForkBatch ForkVotes ForkInv.
From S2P Require Import ForkMarks ForkLeaf ForkGrow.

Section spec.
Context (get_epoch : Slot → Z) (epoch_stakes : gmap Z (Pubkey → Z)).

(** * Specification *)

(** The states that the operations lead to. A block is added below a block of the
    tree, before any vote for it; a validator has at most one vote in a batch. *)
Inductive reachable : HeaviestSubtreeForkChoice → Prop :=
| reach_new root self : good_key root → Fork.new root = Ret self → reachable self
| reach_leaf self k p self' : reachable self → is_Some (fork_infos self !! p) → p.1 < k.1 → good_key k →
    (∀ pk, latest_votes self !! pk ≠ Some k) →
    Fork.add_new_leaf_slot k (Some p) self = Ret self' → reachable self'
| reach_votes self pvs b self' : reachable self → NoDup (relevant (tree_root self).1 pvs).*1 →
    Fork.add_votes get_epoch epoch_stakes pvs self = Ret (b, self') → reachable self'
| reach_invalid self k self' : reachable self →
    Fork.mark_fork_invalid_candidate k self = Ret self' → reachable self'
| reach_valid self k l self' : reachable self →
    Fork.mark_fork_valid_candidate k self = Ret (l, self') → reachable self'
| reach_root self k self' : reachable self → is_Some (fork_infos self !! k) →
    Fork.set_tree_root k self = Ret self' → reachable self'.

(** The stake of the validators whose latest vote is in the subtree of [n]. *)
Definition weight (self : HeaviestSubtreeForkChoice) (n : SlotHashKey) : Z :=
  sub_total (Fork.vote_stake get_epoch epoch_stakes) (fork_infos self) (latest_votes self) n.

Definition outweighs (self : HeaviestSubtreeForkChoice) (c c' : SlotHashKey) : Prop :=
  weight self c' < weight self c ∨ (weight self c = weight self c' ∧ lt c c').

(** The greedy walk: from a block to the child with the most stake in its subtree
    (the smaller slot and hash decides ties) among those that are not on an invalid
    fork, until there is none. *)
Inductive Ghost (self : HeaviestSubtreeForkChoice) : SlotHashKey → SlotHashKey → Prop :=
| ghost_stop n : (∀ c, c ∈ kids (fork_infos self) n → ¬ cand (fork_infos self) c) → Ghost self n n
| ghost_step n c b : c ∈ kids (fork_infos self) n → cand (fork_infos self) c →
    (∀ c', c' ∈ kids (fork_infos self) n → cand (fork_infos self) c' → c' = c ∨ outweighs self c c') →
    Ghost self c b → Ghost self n b.

(** How many blocks a block is below another. *)
Definition depth (self : HeaviestSubtreeForkChoice) (n : SlotHashKey) : Z :=
  Z.of_nat (length (ancs (fork_infos self) n)).
End spec.

Section props.
Context {get_epoch : Slot → Z} {epoch_stakes : gmap Z (Pubkey → Z)} `{HSL : !StakeLaws get_epoch epoch_stakes}.
Local Abbreviation FI := (FInv (get_epoch := get_epoch) (epoch_stakes := epoch_stakes)).

Lemma reachable_FInv self : reachable get_epoch epoch_stakes self → FI self.
Proof.
  induction 1 as [root self Hk H|self k p self' _ IH [ip Hip] Hlt Hk Hv H|self pvs b self' _ IH Hnd H
    |self k self' _ IH H|self k l self' _ IH H|self k self' _ IH [ix Hix] H].
  - destruct (new_spec (get_epoch := get_epoch) (epoch_stakes := epoch_stakes) root Hk) as (self0 & H0 & HI & _).
    congruence.
  - destruct (fork_infos self !! k) as [i|] eqn:E.
    + unfold Fork.add_new_leaf_slot, Fork.contains_block in H. rewrite E in H. simpl in H. congruence.
    + destruct (add_new_leaf_slot_spec self k p ip IH E Hip Hlt Hk Hv) as (self0 & H0 & HI & _). congruence.
  - destruct (add_votes_spec self pvs IH Hnd) as (self0 & H0 & HI & _). congruence.
  - destruct (fork_infos self !! k) as [i|] eqn:E; unfold Fork.mark_fork_invalid_candidate in H; rewrite E in H; [|congruence].
    destruct (is_duplicate_confirmed i) eqn:Ec; [done|].
    destruct (mark_fork_invalid_candidate_spec self IH k) as (self0 & H0 & HI & _);
      [eauto|unfold conf; by rewrite E|]. unfold Fork.mark_fork_invalid_candidate in H0. rewrite E, Ec in H0. congruence.
  - destruct (fork_infos self !! k) as [i|] eqn:E.
    + destruct (mark_fork_valid_candidate_spec self IH k) as (self0 & H0 & HI & _); [eauto|]. congruence.
    + unfold Fork.mark_fork_valid_candidate in H.
      apply bind_Ret_inv in H as (l0 & _ & H). simpl in H. unfold Fork.is_duplicate_confirmed in H.
      by rewrite E in H.
  - destruct (set_tree_root_spec self k ix IH Hix) as (self0 & H0 & HI & _). congruence.
Qed.

Lemma outweighs_heavier self c c' : FI self →
  is_Some (fork_infos self !! c) → is_Some (fork_infos self !! c') →
  outweighs get_epoch epoch_stakes self c c' ↔ heavier (fork_infos self) c c'.
Proof.
  intros HI Hc Hc'. unfold outweighs, heavier, weight.
  by rewrite (FInv_wt self c HI Hc), (FInv_wt self c' HI Hc').
Qed.

Lemma cand_node m k : cand m k → is_Some (m !! k).
Proof. intros (i & -> & _). eauto. Qed.

(** The stored best block is where the walk ends, and there is no other. *)
Lemma best_Ghost self n : FI self → cand (fork_infos self) n →
  Ghost get_epoch epoch_stakes self n (bst (fork_infos self) n).
Proof.
  intros HI. pose proof (fi_tree self HI) as HT. induction n as [n IH] using (tree_ind_up HT).
  intros (i & Hi & Hn). destruct (fi_ok self HI n i Hi) as [Hok _].
  destruct (ok_best _ _ _ Hok Hn) as (o & Ho & Hb). rewrite <-(kids_Some _ n i Hi) in Ho.
  unfold bst at 1. rewrite Hi. simpl. rewrite Hb. destruct o as [c|]; simpl; [|by apply ghost_stop].
  destruct Ho as (Hc & Hcc & Hall). apply (ghost_step _ _ _ n c); [done|done| |by apply IH].
  intros c' Hc' Hcc'. destruct (Hall c' Hc' Hcc') as [->|Hh]; [by left|right].
  by apply outweighs_heavier; [|apply (kid_node HT n)..|].
Qed.

Lemma Ghost_unique self n b b' : FI self →
  Ghost get_epoch epoch_stakes self n b → Ghost get_epoch epoch_stakes self n b' → b = b'.
Proof.
  intros HI Hb. revert b'. pose proof (fi_tree self HI) as HT.
  induction Hb as [n Hn|n c b Hc Hcc Hall Hb IH]; intros b' Hb'; inversion Hb' as [n' Hn'|n' c' b0 Hc' Hcc' Hall' Hb0]; subst.
  - done.
  - by destruct (Hn c').
  - by destruct (Hn' c).
  - apply IH. assert (c' = c) as ->; [|done].
    destruct (Hall c' Hc' Hcc') as [|H1]; [done|]. destruct (Hall' c Hc Hcc) as [->|H2]; [done|]. exfalso.
    apply outweighs_heavier in H1; [|done|by eapply cand_node..].
    apply outweighs_heavier in H2; [|done|by eapply cand_node..].
    by apply (heavier_irrefl (fork_infos self) c); eapply heavier_trans.
Qed.

Lemma Ghost_cand self n b : Ghost get_epoch epoch_stakes self n b → cand (fork_infos self) n → cand (fork_infos self) b.
Proof. induction 1; auto. Qed.

Lemma is_candidate_cand self n : Fork.is_candidate self n = Some true ↔ cand (fork_infos self) n.
Proof.
  unfold Fork.is_candidate, cand, Info.is_candidate. destruct (fork_infos self !! n) as [i|]; simpl; [|naive_solver].
  destruct (latest_invalid_ancestor i) eqn:E; simpl; naive_solver congruence.
Qed.

Lemma best_slot_bst self n i : fork_infos self !! n = Some i → Fork.best_slot self n = Some (bst (fork_infos self) n).
Proof. intros Hi. unfold Fork.best_slot, bst. by rewrite Hi. Qed.

(** The deepest block is as far down as any. *)
Lemma deepest_depth self n : FI self → is_Some (fork_infos self !! n) →
  let m := fork_infos self in
  below m n (dpst m n) ∧ depth self (dpst m n) = depth self n + ht m n - 1 ∧
  ∀ x, below m n x → depth self x ≤ depth self n + ht m n - 1.
Proof.
  intros HI. pose proof (fi_tree self HI) as HT. cbn zeta. induction n as [n IH] using (tree_ind_up HT).
  intros [i Hi]. destruct (fi_ok self HI n i Hi) as [Hok _].
  destruct (ok_deep _ _ _ Hok) as (o & Ho & Hd & Hh). rewrite <-(kids_Some _ n i Hi) in Ho.
  assert (dpst (fork_infos self) n = deepest_slot i) as -> by (unfold dpst; by rewrite Hi).
  assert (ht (fork_infos self) n = height i) as -> by (unfold ht; by rewrite Hi).
  assert (∀ c, c ∈ kids (fork_infos self) n → depth self c = depth self n + 1) as Hdep.
  { intros c Hc%(kids_par HT). unfold depth. rewrite (ancs_par HT c n Hc). simpl. lia. }
  rewrite Hd, Hh. destruct o as [c|]; simpl.
  - destruct Ho as (Hc & _ & Hall). pose proof (Hdep c Hc).
    destruct (IH c Hc (kid_node HT n c Hc)) as (H1 & H2 & _). split_and!.
    + eapply (below_trans HT); [by apply (below_kid HT)|done].
    + lia.
    + intros x Hx. destruct (below_child HT n x Hx) as [<-|(c' & Hc' & Hb)].
      * destruct (kid_node HT n c Hc) as [ic Hic]. destruct (fi_ok self HI c ic Hic) as [_ (_ & _ & ? & _)].
        unfold ht. rewrite Hic. simpl. lia.
      * destruct (IH c' Hc' (kid_node HT n c' Hc')) as (_ & _ & H3). specialize (H3 x Hb). rewrite (Hdep c' Hc') in H3.
        destruct (Hall c' Hc' I) as [->|[|[? _]]]; lia.
  - split_and!; [apply below_refl|lia|]. intros x Hx.
    destruct (below_child HT n x Hx) as [<-|(c' & Hc' & Hb)]; [lia|by destruct (Ho c' Hc')].
Qed.

(** * Theorems *)

(** C8. In every reachable state the best block stored for a block that is not on an
    invalid fork is the block where the greedy heaviest-subtree walk over the latest
    votes ends, and for the root it is what [best_overall_slot] returns. *)
Theorem fork_choice_is_ghost self n : reachable get_epoch epoch_stakes self →
  Fork.is_candidate self n = Some true →
  ∃ b, Fork.best_slot self n = Some b ∧ (∀ b', Ghost get_epoch epoch_stakes self n b' ↔ b' = b) ∧
    Fork.is_candidate self b = Some true ∧
    (n = tree_root self → Fork.best_overall_slot self = Ret b).
Proof.
  intros HI%reachable_FInv Hc%is_candidate_cand. pose proof (best_Ghost self n HI Hc) as HG.
  destruct (cand_node _ _ Hc) as [i Hi]. exists (bst (fork_infos self) n).
  pose proof (best_slot_bst self n i Hi) as Hb. split_and!.
  - done.
  - intros b'. split; [|by intros ->]. intros HG'. by eapply Ghost_unique.
  - apply is_candidate_cand. by eapply Ghost_cand.
  - intros ->. unfold Fork.best_overall_slot. by rewrite Hb.
Qed.

(** C29. The stored stakes are exact: at a block the stake of the validators whose
    latest vote is that block, in a subtree the stake of those whose latest vote is
    anywhere in it. *)
Theorem fork_choice_weights_exact self n : reachable get_epoch epoch_stakes self →
  Fork.contains_block self n = true →
  Fork.stake_voted_subtree self n = Some (weight get_epoch epoch_stakes self n) ∧
  Fork.stake_voted_at self n =
    Some (at_total (Fork.vote_stake get_epoch epoch_stakes) (latest_votes self) n).
Proof.
  intros HI%reachable_FInv Hn. unfold Fork.contains_block in Hn.
  destruct (fork_infos self !! n) as [i|] eqn:Hi; [|done].
  pose proof (FInv_wt self n HI (mk_is_Some _ _ Hi)) as Hw. unfold wt in Hw. rewrite Hi in Hw.
  unfold Fork.stake_voted_subtree, Fork.stake_voted_at. rewrite Hi. simpl. unfold weight.
  by rewrite <-(fi_at self HI n i Hi), <-Hw.
Qed.

(** A batch of votes with at most one vote per validator is processed without a
    panic: it records exactly the votes that are newer than the latest ones, leaves
    the blocks and their validity alone, makes every weight the one of the new latest
    votes, and returns the best block of the root. *)
Theorem add_votes_exact self pvs : reachable get_epoch epoch_stakes self →
  NoDup (relevant (tree_root self).1 pvs).*1 →
  ∃ b self', Fork.add_votes get_epoch epoch_stakes pvs self = Ret (b, self') ∧
    latest_votes self' = foldl (record_vote (tree_root self).1) (latest_votes self) pvs ∧
    Fork.best_overall_slot self' = Ret b ∧
    (Fork.is_candidate self (tree_root self) = Some true →
       Ghost get_epoch epoch_stakes self' (tree_root self) b) ∧
    (∀ k, Fork.parent self' k = Fork.parent self k ∧ Fork.is_candidate self' k = Fork.is_candidate self k ∧
       (Fork.contains_block self k = true →
          Fork.stake_voted_subtree self' k = Some (weight get_epoch epoch_stakes self' k))).
Proof.
  intros HI%reachable_FInv Hnd.
  destruct (add_votes_spec self pvs HI Hnd) as (self' & Hrun & HI' & Hroot & Hvotes & Hsh & Hval).
  exists (bst (fork_infos self') (tree_root self)), self'.
  destruct (tree_has_root _ _ (fi_tree self' HI')) as (i & Hi & _). rewrite Hroot in Hi.
  assert (∀ k, Fork.is_candidate self' k = Fork.is_candidate self k) as Hcand.
  { intros k. specialize (Hval k). unfold Fork.is_candidate, Info.is_candidate.
    destruct (fork_infos self' !! k), (fork_infos self !! k); simplify_eq/=; congruence. }
  split_and!; [done|done| | |].
  - unfold Fork.best_overall_slot. by rewrite Hroot, (best_slot_bst self' _ i Hi).
  - intros Hc. apply best_Ghost; [done|]. apply is_candidate_cand. by rewrite Hcand.
  - intros k. split; [symmetry; apply (same_shape_par Hsh)|]. split; [done|].
    intros Hk. destruct (proj1 (same_shape_node Hsh k)) as [j Hj].
    { unfold Fork.contains_block in Hk. by destruct (fork_infos self !! k). }
    pose proof (FInv_wt self' k HI' (mk_is_Some _ _ Hj)) as Hw. unfold wt in Hw. rewrite Hj in Hw.
    unfold Fork.stake_voted_subtree, weight. rewrite Hj. simpl in *. by rewrite Hw.
Qed.

(** The deepest block stored for a block is a descendant at the stored height
    below it, and no descendant is further down. *)
Theorem deepest_slot_exact self n : reachable get_epoch epoch_stakes self →
  Fork.contains_block self n = true →
  ∃ d h, Fork.deepest_slot self n = Some d ∧ Fork.height self n = Some h ∧
    below (fork_infos self) n d ∧ depth self d = depth self n + h - 1 ∧
    ∀ x, below (fork_infos self) n x → depth self x ≤ depth self d.
Proof.
  intros HI%reachable_FInv Hn. unfold Fork.contains_block in Hn.
  destruct (fork_infos self !! n) as [i|] eqn:Hi; [|done].
  destruct (deepest_depth self n HI (mk_is_Some _ _ Hi)) as (H1 & H2 & H3).
  exists (dpst (fork_infos self) n), (ht (fork_infos self) n).
  unfold Fork.deepest_slot, Fork.height. split_and!; [unfold dpst; by rewrite Hi|unfold ht; by rewrite Hi|done|done|].
  intros x Hx. rewrite H2. by apply H3.
Qed.

(** Every block in the subtree of [x], and what a state records of the validity of a block. *)
Lemma validity_lookup self k v : validity <$> fork_infos self !! k = Some v →
  Fork.latest_invalid_ancestor self k = v.1 ∧ Fork.is_duplicate_confirmed self k = Some v.2.
Proof.
  unfold Fork.latest_invalid_ancestor, Fork.is_duplicate_confirmed.
  destruct (fork_infos self !! k); [|done]. by intros [= <-].
Qed.

Lemma contains_lookup self k : Fork.contains_block self k = true ↔ is_Some (fork_infos self !! k).
Proof. unfold Fork.contains_block. destruct (fork_infos self !! k); naive_solver. Qed.

(** C38. Marking a block that is not duplicate confirmed as invalid makes exactly the
    blocks of its subtree invalid, by it or by a later invalid block; after that the
    best block of no valid fork is in that subtree. A duplicate confirmed block
    cannot be marked, the call panics. *)
Theorem mark_fork_invalid_candidate_exact self x c : reachable get_epoch epoch_stakes self →
  Fork.is_duplicate_confirmed self x = Some c →
  if c then Fork.mark_fork_invalid_candidate x self = Panic
  else ∃ self', Fork.mark_fork_invalid_candidate x self = Ret self' ∧
    (∀ k, Fork.contains_block self k = true →
       Fork.is_duplicate_confirmed self' k = Fork.is_duplicate_confirmed self k ∧
       Fork.latest_invalid_ancestor self' k =
         if decide (below (fork_infos self) x k)
         then Some (Z.max (default x.1 (Fork.latest_invalid_ancestor self k)) x.1)
         else Fork.latest_invalid_ancestor self k) ∧
    (∀ n b, Fork.is_candidate self' n = Some true → Fork.best_slot self' n = Some b →
       Ghost get_epoch epoch_stakes self' n b ∧ ¬ below (fork_infos self) x b).
Proof.
  intros HI%reachable_FInv Hc. unfold Fork.is_duplicate_confirmed in Hc.
  destruct (fork_infos self !! x) as [i|] eqn:Hi; [|done]. injection Hc as Hc. destruct c.
  { unfold Fork.mark_fork_invalid_candidate. by rewrite Hi, Hc. }
  destruct (mark_fork_invalid_candidate_spec self HI x) as (self' & Hrun & HI' & Hroot & Hvotes & Hsh & Hval);
    [eauto|unfold conf; by rewrite Hi|].
  exists self'. split; [done|]. split.
  - intros k [j Hj]%contains_lookup. destruct (validity_lookup self' k _ (Hval k j Hj)) as [-> ->].
    unfold Fork.is_duplicate_confirmed, Fork.latest_invalid_ancestor, after_invalid, validity. rewrite Hj. simpl.
    by case_decide.
  - intros n b Hn%is_candidate_cand Hb. destruct (cand_node _ _ Hn) as [j Hj].
    rewrite (best_slot_bst self' n j Hj) in Hb. injection Hb as <-.
    pose proof (best_Ghost self' n HI' Hn) as HG. split; [done|]. intros Hbelow.
    destruct (Ghost_cand _ _ _ HG Hn) as (jb & Hjb & Hnone).
    destruct (proj2 (same_shape_node Hsh (bst (fork_infos self') n))) as [j0 Hj0]; [eauto|].
    pose proof (Hval _ j0 Hj0) as E. rewrite Hjb in E. unfold after_invalid, validity in E.
    rewrite decide_True in E by done. simpl in E. congruence.
Qed.

(** Marking a block valid confirms it and all its ancestors and returns those
    that were not confirmed before; the blocks below it become valid unless a block
    after it is invalid, and the rest keeps its validity. *)
Theorem mark_fork_valid_candidate_exact self x : reachable get_epoch epoch_stakes self →
  Fork.contains_block self x = true →
  ∃ self', Fork.mark_fork_valid_candidate x self =
      Ret (filter (λ k, Fork.is_duplicate_confirmed self k = Some false) (x :: ancs (fork_infos self) x), self') ∧
    (∀ k, Fork.contains_block self k = true →
       if decide (below (fork_infos self) k x)
       then Fork.is_duplicate_confirmed self' k = Some true ∧ Fork.is_candidate self' k = Some true
       else Fork.is_duplicate_confirmed self' k = Fork.is_duplicate_confirmed self k ∧
         Fork.latest_invalid_ancestor self' k =
           match Fork.latest_invalid_ancestor self k with
           | Some l => if decide (below (fork_infos self) x k ∧ l ≤ x.1) then None else Some l
           | None => None
           end) ∧
    (∀ n b, Fork.is_candidate self' n = Some true → Fork.best_slot self' n = Some b →
       Ghost get_epoch epoch_stakes self' n b).
Proof.
  intros HI%reachable_FInv Hx%contains_lookup.
  destruct (mark_fork_valid_candidate_spec self HI x Hx) as (self' & Hrun & HI' & Hroot & Hvotes & Hsh & Hval).
  exists self'. split_and!.
  - rewrite Hrun. f_equal. f_equal. apply list_filter_ext_in. intros k Hk.
    destruct (below_node (fi_tree self HI) k x) as [i Hi]; [unfold below; set_solver|done|].
    unfold conf, Fork.is_duplicate_confirmed. rewrite Hi. simpl. split; congruence.
  - intros k [j Hj]%contains_lookup. pose proof (Hval k j Hj) as E.
    destruct (validity_lookup self' k _ E) as [-> ->]. unfold after_valid, validity in E |- *.
    case_decide.
    + split; [done|]. unfold Fork.is_candidate, Info.is_candidate.
      destruct (fork_infos self' !! k); [|done]. simpl in *. by injection E as -> _.
    + unfold Fork.is_duplicate_confirmed, Fork.latest_invalid_ancestor. rewrite Hj. simpl.
      destruct (latest_invalid_ancestor j) as [l|]; repeat case_decide; simpl; try done.
      * by rewrite (proj2 (Z.leb_le _ _)) by tauto.
      * rewrite (proj2 (Z.leb_gt _ _)); [done|]. destruct (Z.le_gt_cases l x.1); [tauto|lia].
      * tauto.
  - intros n b Hn%is_candidate_cand Hb. destruct (cand_node _ _ Hn) as [j Hj].
    rewrite (best_slot_bst self' n j Hj) in Hb. injection Hb as <-. by apply best_Ghost.
Qed.

(** Setting a new root keeps exactly the blocks of its subtree, with their
    weights, best and deepest blocks and validity, and the latest votes. *)
Theorem set_tree_root_exact self x : reachable get_epoch epoch_stakes self →
  Fork.contains_block self x = true →
  ∃ self', Fork.set_tree_root x self = Ret self' ∧ tree_root self' = x ∧ latest_votes self' = latest_votes self ∧
    (∀ n, Fork.contains_block self' n = true ↔
       Fork.contains_block self n = true ∧ below (fork_infos self) x n) ∧
    (∀ n, Fork.contains_block self' n = true →
       Fork.children self' n = Fork.children self n ∧
       Fork.best_slot self' n = Fork.best_slot self n ∧ Fork.deepest_slot self' n = Fork.deepest_slot self n ∧
       Fork.is_candidate self' n = Fork.is_candidate self n ∧
       Fork.stake_voted_subtree self' n = Fork.stake_voted_subtree self n ∧
       weight get_epoch epoch_stakes self' n = weight get_epoch epoch_stakes self n).
Proof.
  intros HI%reachable_FInv [ix Hix]%contains_lookup.
  destruct (set_tree_root_spec self x ix HI Hix) as (self' & Hrun & HI' & Hroot & Hvotes & Hinfos).
  exists self'. split_and!; [done..| |].
  - intros n. rewrite !contains_lookup, Hinfos. by apply rerooted_node.
  - intros n Hn%contains_lookup. pose proof Hn as Hn'. rewrite Hinfos in Hn'.
    pose proof (rerooted_view x ix Hix n Hn') as E. unfold same_view in E.
    pose proof (rerooted_kids x ix Hix n) as Ek. rewrite <-Hinfos in E, Ek.
    pose proof Hn' as [Hm Hb]%(rerooted_node x ix Hix). rewrite decide_True in Ek by done. unfold kids in Ek.
    pose proof (FInv_wt self n HI Hm) as Hw. pose proof (FInv_wt self' n HI' Hn) as Hw'.
    fold (weight get_epoch epoch_stakes self n) in Hw. fold (weight get_epoch epoch_stakes self' n) in Hw'.
    destruct Hm as [i Hi], Hn as [i' Hi']. unfold wt in Hw, Hw'. rewrite Hi, Hi' in *. simpl in *.
    unfold Fork.children, Fork.best_slot, Fork.deepest_slot, Fork.is_candidate, Info.is_candidate,
      Fork.stake_voted_subtree. rewrite Hi, Hi'. simpl. injection E as E1 E2 E3 E4 E5 E6 E7.
    split_and!; congruence.
Qed.

(** A new block becomes a child of its parent, without stake and valid exactly
    when the parent is; the other blocks keep their parents and weights, and the best
    blocks of the valid forks are again where the greedy walk ends. *)
Theorem add_new_leaf_slot_exact self k p : reachable get_epoch epoch_stakes self →
  Fork.contains_block self k = false → Fork.contains_block self p = true → p.1 < k.1 → good_key k →
  (∀ pk, latest_votes self !! pk ≠ Some k) →
  ∃ self', Fork.add_new_leaf_slot k (Some p) self = Ret self' ∧
    Fork.parent self' k = Some p ∧ Fork.children self' k = Some [] ∧
    Fork.stake_voted_subtree self' k = Some 0 ∧ Fork.is_candidate self' k = Fork.is_candidate self p ∧
    (∀ n, n ≠ k → Fork.parent self' n = Fork.parent self n ∧ Fork.is_candidate self' n = Fork.is_candidate self n ∧
       Fork.stake_voted_subtree self' n = Fork.stake_voted_subtree self n) ∧
    (∀ n b, Fork.is_candidate self' n = Some true → Fork.best_slot self' n = Some b →
       Ghost get_epoch epoch_stakes self' n b).
Proof.
  intros HI%reachable_FInv Hk [ip Hip]%contains_lookup Hlt Hgood Hv.
  assert (fork_infos self !! k = None) as Hk' by (unfold Fork.contains_block in Hk; by destruct (fork_infos self !! k)).
  destruct (add_new_leaf_slot_spec self k p ip HI Hk' Hip Hlt Hgood Hv)
    as (self' & Hrun & HI' & Hroot & Hvotes & Hsh & Hval & Hwt).
  exists self'. split; [done|]. pose proof (linked_k k p ip Hk' Hip) as Hlk.
  assert (∀ n, Fork.stake_voted_subtree self' n =
    if decide (n = k) then Some 0 else Fork.stake_voted_subtree self n) as Hstake.
  { intros n. specialize (Hwt n). pose proof (same_shape_node Hsh n) as Hnode.
    rewrite (linked_node k p ip Hk' Hip) in Hnode. unfold Fork.stake_voted_subtree. unfold wt at 1 in Hwt.
    case_decide as E.
    - subst n. destruct (proj1 Hnode) as [i Hi]; [by left|]. rewrite Hi in *. unfold wt in Hwt. rewrite Hlk in Hwt.
      simpl in *. by rewrite Hwt.
    - rewrite <-(proj1 (proj2 (same_view_eq _ _ n (linked_view k p ip Hip n E)))) in Hwt. unfold wt in Hwt.
      destruct (fork_infos self' !! n) as [i'|], (fork_infos self !! n) as [i|]; simpl in *.
      + by rewrite Hwt.
      + destruct (proj2 Hnode) as [|[? ?]]; [eauto|done..].
      + destruct (proj1 Hnode) as [? ?]; [eauto|done].
      + done. }
  assert (∀ n, Fork.is_candidate self' n = if decide (n = k) then Fork.is_candidate self p else Fork.is_candidate self n) as Hcand.
  { intros n. specialize (Hval n). unfold Fork.is_candidate, Info.is_candidate. case_decide as E.
    - subst n. rewrite Hlk in Hval. rewrite Hip. destruct (fork_infos self' !! k); simplify_eq/=. congruence.
    - pose proof (linked_view k p ip Hip n E) as Hview. unfold same_view in Hview.
      destruct (fork_infos self' !! n), (linked k p ip !! n), (fork_infos self !! n); simplify_eq/=; congruence. }
  pose proof (linked_par k p ip Hk' Hip) as Hpar. setoid_rewrite (same_shape_par Hsh) in Hpar.
  split_and!.
  - change (par (fork_infos self') k = Some p). by rewrite Hpar, decide_True.
  - unfold Fork.children. pose proof (Hsh k) as E. rewrite Hlk in E. destruct (fork_infos self' !! k); simplify_eq/=; congruence.
  - by rewrite Hstake, decide_True.
  - by rewrite Hcand, decide_True.
  - intros n Hn. rewrite Hstake, Hcand, !decide_False by done. split_and!; [|done..].
    change (par (fork_infos self') n = par (fork_infos self) n). by rewrite Hpar, decide_False.
  - intros n b Hn%is_candidate_cand Hb. destruct (cand_node _ _ Hn) as [j Hj].
    rewrite (best_slot_bst self' n j Hj) in Hb. injection Hb as <-. by apply best_Ghost.
Qed.
End props.

(** * Examples *)

(** Three validators, in one epoch. *)
Definition ex_epoch : Slot → Z := λ _, 0.
Definition ex_stakes : gmap Z (Pubkey → Z) :=
  {[0 := λ pk, if decide (pk = 1) then 10 else if decide (pk = 2) then 20 else if decide (pk = 3) then 5 else 0]}.

Lemma tally_point (v : Pubkey) c votes :
  0 ≤ c → tally (λ pk _, if decide (pk = v) then c else 0) votes ≤ c.
Proof.
  intros Hc. enough (tally (λ pk _, if decide (pk = v) then c else 0) votes =
    from_option (λ _, c) 0 (votes !! v)) as -> by (destruct (votes !! v); simpl; lia).
  induction votes as [|pk k votes Hpk IH] using map_ind; [done|].
  rewrite tally_insert, Hpk, IH. simpl. case_decide as E.
  - subst. rewrite Hpk, lookup_insert_eq. simpl. lia.
  - rewrite lookup_insert_ne by done. lia.
Qed.

#[global] Instance ex_laws : StakeLaws ex_epoch ex_stakes.
Proof.
  assert (∀ pk s, Fork.vote_stake ex_epoch ex_stakes pk s = (if decide (pk = 1) then 10 else 0) +
    ((if decide (pk = 2) then 20 else 0) + (if decide (pk = 3) then 5 else 0))) as E.
  { intros pk s. unfold Fork.vote_stake, ex_epoch, ex_stakes. rewrite lookup_singleton_eq.
    repeat case_decide; lia. }
  split.
  - intros pk s. rewrite E. repeat case_decide; lia.
  - intros votes. unfold total.
    rewrite (tally_ext _ (λ pk _, (if decide (pk = 1) then 10 else 0) +
      ((if decide (pk = 2) then 20 else 0) + (if decide (pk = 3) then 5 else 0)))) by (intros; apply E).
    rewrite (tally_add (λ pk _, _) (λ pk _, _ + _)), (tally_add (λ pk _, _) (λ pk _, _)).
    pose proof (tally_point 1 10 votes). pose proof (tally_point 2 20 votes). pose proof (tally_point 3 5 votes).
    unfold u64_MAX. lia.
Qed.

(** Two forks below the root, one of them two blocks long. *)
Definition get_ret {A} (d : A) (o : outcome A) : A := match o with Ret a => a | _ => d end.
Definition ex_dummy : HeaviestSubtreeForkChoice := {| fork_infos := ∅; latest_votes := ∅; tree_root := (0, 0) |}.
Definition ex_fork0 := Eval vm_compute in get_ret ex_dummy (Fork.new (10, 1)).
Definition ex_fork1 := Eval vm_compute in get_ret ex_dummy (Fork.add_new_leaf_slot (11, 2) (Some (10, 1)) ex_fork0).
Definition ex_fork2 := Eval vm_compute in get_ret ex_dummy (Fork.add_new_leaf_slot (11, 3) (Some (10, 1)) ex_fork1).
Definition ex_fork3 := Eval vm_compute in get_ret ex_dummy (Fork.add_new_leaf_slot (12, 4) (Some (11, 2)) ex_fork2).
Definition ex_votes : list (Pubkey * SlotHashKey) := [(1, (12, 4)); (2, (11, 3)); (3, (11, 2)); (4, (9, 9))].
Definition ex_fork4 := Eval vm_compute in
  (get_ret ((0, 0), ex_dummy) (Fork.add_votes ex_epoch ex_stakes ex_votes ex_fork3)).2.

(** Evaluates the definitions at a concrete input. *)
Ltac evaluate := vm_compute; reflexivity.

Lemma ex_fork2_reachable : reachable ex_epoch ex_stakes ex_fork2.
Proof.
  assert (good_key (10, 1)) by (split; [simpl; unfold u64_MAX; lia|done]).
  assert (reachable ex_epoch ex_stakes ex_fork0) by (eapply reach_new; [done|evaluate]).
  assert (reachable ex_epoch ex_stakes ex_fork1).
  { eapply (reach_leaf _ _ ex_fork0 (11, 2) (10, 1)); [done|eexists; evaluate|simpl; lia| | |evaluate].
    - split; [simpl; unfold u64_MAX; lia|done].
    - intros pk. change (latest_votes ex_fork0) with (∅ : gmap Pubkey SlotHashKey). by rewrite lookup_empty. }
  eapply (reach_leaf _ _ ex_fork1 (11, 3) (10, 1)); [done|eexists; evaluate|simpl; lia| | |evaluate].
  - split; [simpl; unfold u64_MAX; lia|done].
  - intros pk. change (latest_votes ex_fork1) with (∅ : gmap Pubkey SlotHashKey). by rewrite lookup_empty.
Qed.

Lemma ex_fork3_reachable : reachable ex_epoch ex_stakes ex_fork3.
Proof.
  eapply (reach_leaf _ _ ex_fork2 (12, 4) (11, 2)); [apply ex_fork2_reachable|eexists; evaluate|simpl; lia| | |evaluate].
  - split; [simpl; unfold u64_MAX; lia|done].
  - intros pk. change (latest_votes ex_fork2) with (∅ : gmap Pubkey SlotHashKey). by rewrite lookup_empty.
Qed.

Lemma ex_votes_once : NoDup (relevant (tree_root ex_fork3).1 ex_votes).*1.
Proof. apply (bool_decide_unpack _). vm_compute. exact I. Qed.

Lemma ex_fork4_reachable : reachable ex_epoch ex_stakes ex_fork4.
Proof.
  eapply (reach_votes _ _ ex_fork3 ex_votes (11, 3)); [apply ex_fork3_reachable|apply ex_votes_once|evaluate].
Qed.

Lemma fork_choice_is_ghost_witness :
  Ghost ex_epoch ex_stakes ex_fork4 (10, 1) (11, 3) ∧ Fork.best_overall_slot ex_fork4 = Ret (11, 3).
Proof.
  destruct (fork_choice_is_ghost ex_fork4 (10, 1) ex_fork4_reachable eq_refl) as (b & Hb & HG & _ & Hroot).
  assert (b = (11, 3)) as -> by (vm_compute in Hb; congruence).
  split; [by apply HG|by apply Hroot].
Defined.

Lemma fork_choice_weights_exact_witness :
  Fork.stake_voted_subtree ex_fork4 (11, 2) = Some 15 ∧ weight ex_epoch ex_stakes ex_fork4 (11, 2) = 15.
Proof.
  destruct (fork_choice_weights_exact ex_fork4 (11, 2) ex_fork4_reachable eq_refl) as [H _].
  assert (Fork.stake_voted_subtree ex_fork4 (11, 2) = Some 15) as E by reflexivity.
  split; [exact E|]. rewrite E in H. exact (eq_sym (f_equal (default 0) H)).
Defined.

Lemma add_votes_exact_witness : ∃ b self',
  Fork.add_votes ex_epoch ex_stakes ex_votes ex_fork3 = Ret (b, self') ∧ Fork.best_overall_slot self' = Ret b.
Proof.
  destruct (add_votes_exact ex_fork3 ex_votes ex_fork3_reachable ex_votes_once) as (b & self' & H & _ & H' & _).
  exists b, self'. exact (conj H H').
Defined.

Lemma deepest_slot_exact_witness : ∃ d, Fork.deepest_slot ex_fork4 (10, 1) = Some d ∧ depth ex_fork4 d = 2.
Proof.
  destruct (deepest_slot_exact ex_fork4 (10, 1) ex_fork4_reachable eq_refl) as (d & h & Hd & Hh & _ & Hdep & _).
  exists d. split; [exact Hd|]. rewrite Hdep. vm_compute in Hh. injection Hh as <-. reflexivity.
Defined.

Lemma mark_fork_invalid_candidate_exact_witness : ∃ self',
  Fork.mark_fork_invalid_candidate (11, 3) ex_fork4 = Ret self' ∧
  Fork.latest_invalid_ancestor self' (11, 3) = Some 11.
Proof.
  destruct (mark_fork_invalid_candidate_exact ex_fork4 (11, 3) false ex_fork4_reachable eq_refl) as (self' & H & Hv & _).
  exists self'. split; [exact H|]. destruct (Hv (11, 3) eq_refl) as [_ ->]. reflexivity.
Defined.

Lemma mark_fork_valid_candidate_exact_witness : ∃ self',
  Fork.mark_fork_valid_candidate (12, 4) ex_fork4 = Ret ([(12, 4); (11, 2)], self') ∧
  Fork.is_duplicate_confirmed self' (11, 2) = Some true.
Proof.
  destruct (mark_fork_valid_candidate_exact ex_fork4 (12, 4) ex_fork4_reachable eq_refl) as (self' & H & Hv & _).
  exists self'. split; [rewrite H; reflexivity|]. exact (proj1 (Hv (11, 2) eq_refl)).
Defined.

Lemma set_tree_root_exact_witness : ∃ self',
  Fork.set_tree_root (11, 2) ex_fork4 = Ret self' ∧ Fork.contains_block self' (12, 4) = true.
Proof.
  destruct (set_tree_root_exact ex_fork4 (11, 2) ex_fork4_reachable eq_refl) as (self' & H & _ & _ & Hc & _).
  exists self'. split; [exact H|]. apply Hc. split; [reflexivity|].
  apply (bool_decide_unpack _). vm_compute. exact I.
Defined.

Lemma add_new_leaf_slot_exact_witness : ∃ self',
  Fork.add_new_leaf_slot (12, 4) (Some (11, 2)) ex_fork2 = Ret self' ∧ Fork.parent self' (12, 4) = Some (11, 2).
Proof.
  destruct (add_new_leaf_slot_exact ex_fork2 (12, 4) (11, 2) ex_fork2_reachable eq_refl eq_refl) as (self' & H & Hp & _).
  - simpl. lia.
  - split; [simpl; unfold u64_MAX; lia|done].
  - intros pk. change (latest_votes ex_fork2) with (∅ : gmap Pubkey SlotHashKey). by rewrite lookup_empty.
  - exists self'. exact (conj H Hp).
Defined.
