(* ===== verification/LatestVotes.v ===== *)
(** Latest votes of the validators on frozen banks,
    [core/src/consensus/latest_validator_votes_for_frozen_banks.rs], the source of
    the votes that the fork choice is updated with
    ([HeaviestSubtreeForkChoice::compute_bank_stats]). *)

From S2P Require Import Prelude BTree ForkChoice ForkVotes ForkInv ForkChoiceProps.

(** A slot with the hashes of the versions of it that were voted for. *)
Abbreviation FrozenVotes := (Slot * list Hash)%type (only parsing).

Record LatestValidatorVotesForFrozenBanks := {
  max_gossip_frozen_votes : gmap Pubkey FrozenVotes;
  max_replay_frozen_votes : gmap Pubkey FrozenVotes;
  fork_choice_dirty_set : gmap Pubkey FrozenVotes;
}.

Definition LatestVotes_default : LatestValidatorVotesForFrozenBanks := {|
  max_gossip_frozen_votes := ∅;
  max_replay_frozen_votes := ∅;
  fork_choice_dirty_set := ∅;
|}.

Definition vote_map (is_replay_vote : bool) (self : LatestValidatorVotesForFrozenBanks)
    : gmap Pubkey FrozenVotes :=
  if is_replay_vote then max_replay_frozen_votes self else max_gossip_frozen_votes self.

(** Stores the entry of a validator, and for a replay vote the new dirty set. *)
Definition set_vote (is_replay_vote : bool) (pubkey : Pubkey) (v : FrozenVotes)
    (dirty : gmap Pubkey FrozenVotes) (self : LatestValidatorVotesForFrozenBanks)
    : LatestValidatorVotesForFrozenBanks :=
  if is_replay_vote then
    {| max_gossip_frozen_votes := max_gossip_frozen_votes self;
       max_replay_frozen_votes := <[pubkey := v]> (max_replay_frozen_votes self);
       fork_choice_dirty_set := dirty |}
  else
    {| max_gossip_frozen_votes := <[pubkey := v]> (max_gossip_frozen_votes self);
       max_replay_frozen_votes := max_replay_frozen_votes self;
       fork_choice_dirty_set := fork_choice_dirty_set self |}.

Definition check_add_vote (vote_pubkey : Pubkey) (vote_slot : Slot) (frozen_hash : option Hash)
    (is_replay_vote : bool) (self : LatestValidatorVotesForFrozenBanks)
    : outcome (bool * option Slot * LatestValidatorVotesForFrozenBanks) :=
  let entry := vote_map is_replay_vote self !! vote_pubkey in
  let dirty := fork_choice_dirty_set self in
  match frozen_hash with
  | Some hash =>
      match entry with
      | Some (latest_slot, latest_hashes) =>
          if latest_slot <? vote_slot then
            Ret (true, Some vote_slot,
                 set_vote is_replay_vote vote_pubkey (vote_slot, [hash])
                   (<[vote_pubkey := (vote_slot, [hash])]> dirty) self)
          else if (vote_slot =? latest_slot) && negb (bool_decide (hash ∈ latest_hashes)) then
            dirty ← (if is_replay_vote then
                       let '(dirty_slot, dirty_hashes) := default (0, []) (dirty !! vote_pubkey) in
                       assert_ (negb (bool_decide (hash ∈ dirty_hashes))) ;;
                       Ret (<[vote_pubkey := (dirty_slot, dirty_hashes ++ [hash])]> dirty)
                     else Ret dirty);
            Ret (true, Some vote_slot,
                 set_vote is_replay_vote vote_pubkey (latest_slot, latest_hashes ++ [hash]) dirty self)
          else Ret (false, Some latest_slot, self)
      | None =>
          Ret (true, Some vote_slot,
               set_vote is_replay_vote vote_pubkey (vote_slot, [hash])
                 (<[vote_pubkey := (vote_slot, [hash])]> dirty) self)
      end
  | None => Ret (false, fst <$> entry, self)
  end.

(** The dirty set in the order of its iteration, which a hash map leaves open. *)
Definition dirty_votes (root : Slot) (dirty : list (Pubkey * FrozenVotes))
    : list (Pubkey * SlotHashKey) :=
  filter (λ x, root ≤ x.2.1) dirty ≫= λ '(pk, (slot, hashes)), (λ hash, (pk, (slot, hash))) <$> hashes.

Definition take_votes_dirty_set (root : Slot) (self : LatestValidatorVotesForFrozenBanks)
    : list (Pubkey * SlotHashKey) * LatestValidatorVotesForFrozenBanks :=
  (dirty_votes root (map_to_list (fork_choice_dirty_set self)),
   {| max_gossip_frozen_votes := max_gossip_frozen_votes self;
      max_replay_frozen_votes := max_replay_frozen_votes self;
      fork_choice_dirty_set := ∅ |}).

(** [compute_bank_stats], with the stakes of the bank. *)
Definition compute_bank_stats (get_epoch : Slot → Z) (epoch_stakes : gmap Z (Pubkey → Z))
    (fork_choice : HeaviestSubtreeForkChoice) (votes : LatestValidatorVotesForFrozenBanks)
    : outcome (SlotHashKey * HeaviestSubtreeForkChoice * LatestValidatorVotesForFrozenBanks) :=
  let '(new_votes, votes) := take_votes_dirty_set (tree_root fork_choice).1 votes in
  '(best, fork_choice) ← Fork.add_votes get_epoch epoch_stakes new_votes fork_choice;
  Ret (best, fork_choice, votes).

(** * Correctness

    Correctness of the latest votes on frozen banks, and two ways in which the dirty
    set does not fit the fork choice that takes it. *)


(** * Specification *)

(** What happens to the tracker: a vote that is seen, or the fork choice taking the
    votes that are new to it. *)
Inductive event :=
| Seen (pk : Pubkey) (slot : Slot) (hash : option Hash) (replay : bool)
| Taken (root : Slot).

Definition step (e : event) (self : LatestValidatorVotesForFrozenBanks)
    : outcome LatestValidatorVotesForFrozenBanks :=
  match e with
  | Seen pk slot hash replay => '(_, self) ← check_add_vote pk slot hash replay self; Ret self
  | Taken root => Ret (take_votes_dirty_set root self).2
  end.

(** The votes of a validator on frozen banks in a history, from replay or gossip. *)
Definition votes_of (replay : bool) (pk : Pubkey) (es : list event) : list (Slot * Hash) :=
  omap (λ e, match e with
    | Seen pk' slot (Some hash) replay' => if decide (pk' = pk ∧ replay' = replay) then Some (slot, hash) else None
    | _ => None
    end) es.

(** The largest slot with the hashes voted for in it, each once, in order. *)
Fixpoint max_slot (l : list (Slot * Hash)) : Slot :=
  match l with [] => 0 | [x] => x.1 | x :: l => Z.max x.1 (max_slot l) end.
Fixpoint first_occurrences (l : list Hash) : list Hash :=
  match l with [] => [] | h :: l => h :: filter (λ h', h' ≠ h) (first_occurrences l) end.
Definition hashes_at (s : Slot) (l : list (Slot * Hash)) : list Hash :=
  first_occurrences (snd <$> filter (λ x, x.1 = s) l).
Definition summary (l : list (Slot * Hash)) : option FrozenVotes :=
  match l with [] => None | _ => Some (max_slot l, hashes_at (max_slot l) l) end.

(** * Lemmas *)

Lemma max_slot_snoc l s h : max_slot (l ++ [(s, h)]) = match l with [] => s | _ => Z.max (max_slot l) s end.
Proof.
  destruct l as [|x l]; [done|]. revert x. induction l as [|y l IH]; intros x; [done|].
  change ((x :: y :: l) ++ [(s, h)]) with (x :: (y :: l) ++ [(s, h)]).
  assert (∀ z l', l' ≠ [] → max_slot (z :: l') = Z.max z.1 (max_slot l')) as H by (by intros z []).
  rewrite H by (by destruct l). rewrite IH, (H x) by done. lia.
Qed.

Lemma max_slot_le l x : x ∈ l → x.1 ≤ max_slot l.
Proof.
  induction l as [|y l IH]; [set_solver|]. intros [->|Hin]%elem_of_cons.
  - destruct l; simpl; lia.
  - specialize (IH Hin). destruct l; [set_solver|]. simpl in *. lia.
Qed.

Lemma elem_of_first_occurrences l h : h ∈ first_occurrences l ↔ h ∈ l.
Proof.
  induction l as [|h' l IH]; simpl; [done|]. rewrite !elem_of_cons, list_elem_of_filter, IH.
  destruct (decide (h = h')); naive_solver.
Qed.

Lemma first_occurrences_snoc l h :
  first_occurrences (l ++ [h]) = if decide (h ∈ l) then first_occurrences l else first_occurrences l ++ [h].
Proof.
  induction l as [|h' l IH]; simpl; [done|]. rewrite IH.
  destruct (decide (h ∈ l)) as [Hin|Hin].
  - rewrite decide_True by set_solver. done.
  - rewrite filter_app. destruct (decide (h = h')) as [->|Hne].
    + rewrite decide_True by set_solver. rewrite (list_filter_none_in _ [h']) by set_solver. by rewrite app_nil_r.
    + rewrite decide_False by set_solver. rewrite (list_filter_all_in _ [h]) by set_solver. done.
Qed.

Lemma hashes_at_snoc l s h s' :
  hashes_at s' (l ++ [(s, h)]) =
  if decide (s = s' ∧ h ∉ hashes_at s' l) then hashes_at s' l ++ [h] else hashes_at s' l.
Proof.
  unfold hashes_at. rewrite filter_app, filter_cons. simpl. destruct (decide (s = s')) as [->|Hne].
  - simpl. rewrite fmap_app. simpl. rewrite first_occurrences_snoc.
    pose proof (elem_of_first_occurrences (snd <$> filter (λ x : Slot * Hash, x.1 = s') l) h).
    repeat case_decide; tauto.
  - simpl. rewrite app_nil_r. by rewrite decide_False by tauto.
Qed.

Lemma hashes_at_above l s : max_slot l < s → hashes_at s l = [].
Proof.
  intros H. unfold hashes_at. rewrite list_filter_none_in; [done|]. intros x Hx E.
  apply max_slot_le in Hx. lia.
Qed.

(** How one more vote changes the summary. *)
Lemma summary_snoc l s h : summary (l ++ [(s, h)]) =
  match summary l with
  | Some (ls, lh) =>
      if ls <? s then Some (s, [h])
      else if (s =? ls) && negb (bool_decide (h ∈ lh)) then Some (ls, lh ++ [h]) else Some (ls, lh)
  | None => Some (s, [h])
  end.
Proof.
  destruct l as [|x l'].
  { change (Some (s, hashes_at s ([] ++ [(s, h)])) = Some (s, [h])). rewrite hashes_at_snoc.
    by rewrite decide_True by (split; [done|apply not_elem_of_nil]). }
  set (l := x :: l'). assert (summary (l ++ [(s, h)]) =
    Some (max_slot (l ++ [(s, h)]), hashes_at (max_slot (l ++ [(s, h)])) (l ++ [(s, h)]))) as -> by done.
  rewrite max_slot_snoc. unfold l at 1 3. fold l.
  change (summary l) with (Some (max_slot l, hashes_at (max_slot l) l)).
  rewrite hashes_at_snoc. destruct (Z.ltb_spec (max_slot l) s).
  - rewrite Z.max_r by lia. rewrite hashes_at_above by done. by rewrite decide_True by set_solver.
  - rewrite Z.max_l by lia. destruct (Z.eqb_spec s (max_slot l)); simpl.
    + case_bool_decide; simpl; [by rewrite decide_False by tauto|by rewrite decide_True by tauto].
    + by rewrite decide_False by tauto.
Qed.

(** * Invariant *)

(** The tracked votes are the summaries of the history; what the dirty set hands out
    are tracked replay votes, but for entries at slot 0. *)
Record Tracks (es : list event) (self : LatestValidatorVotesForFrozenBanks) : Prop := {
  tr_votes : ∀ replay pk, vote_map replay self !! pk = summary (votes_of replay pk es);
  tr_dirty : ∀ pk s hs, fork_choice_dirty_set self !! pk = Some (s, hs) → ∃ ls lh,
    max_replay_frozen_votes self !! pk = Some (ls, lh) ∧ (s = ls ∨ s = 0) ∧ ∀ h, h ∈ hs → h ∈ lh;
}.

Lemma votes_of_snoc replay pk es e :
  votes_of replay pk (es ++ [e]) = votes_of replay pk es ++ votes_of replay pk [e].
Proof. unfold votes_of. apply omap_app. Qed.

Lemma set_vote_map replay pk v dirty self replay' :
  vote_map replay' (set_vote replay pk v dirty self) =
  if decide (replay' = replay) then <[pk := v]> (vote_map replay' self) else vote_map replay' self.
Proof. by destruct replay, replay'. Qed.

Lemma set_vote_dirty replay pk v dirty self :
  fork_choice_dirty_set (set_vote replay pk v dirty self) = if replay then dirty else fork_choice_dirty_set self.
Proof. by destruct replay. Qed.

#[local] Arguments set_vote : simpl never.

(** A new summary for a validator. *)
Lemma Tracks_set es self pk slot h replay v dirty : Tracks es self →
  summary (votes_of replay pk es ++ [(slot, h)]) = Some v →
  (replay = true → ∀ pk' s hs, dirty !! pk' = Some (s, hs) →
     (pk' = pk ∧ (s = v.1 ∨ s = 0) ∧ ∀ h', h' ∈ hs → h' ∈ v.2) ∨
     (pk' ≠ pk ∧ fork_choice_dirty_set self !! pk' = Some (s, hs))) →
  Tracks (es ++ [Seen pk slot (Some h) replay]) (set_vote replay pk v dirty self).
Proof.
  intros [Hv Hd] Hsum Hdirty. split.
  - intros replay' pk'. rewrite set_vote_map, votes_of_snoc. unfold votes_of at 2. simpl.
    destruct (decide (pk = pk' ∧ replay = replay')) as [[-> ->]|Hne]; simpl.
    + by rewrite decide_True, lookup_insert_eq.
    + rewrite app_nil_r. case_decide; [|apply Hv]. subst. rewrite lookup_insert_ne by tauto. apply Hv.
  - intros pk' s hs. rewrite set_vote_dirty. destruct replay; [|apply Hd]. intros Hin.
    destruct (Hdirty eq_refl pk' s hs Hin) as [(-> & Hs & Hh)|(Hne & Hin')]; unfold set_vote; simpl.
    + rewrite lookup_insert_eq. destruct v as [ls lh]. exists ls, lh. done.
    + rewrite lookup_insert_ne by done. by apply Hd.
Qed.

Lemma Tracks_same es self pk slot hash replay : Tracks es self →
  summary (votes_of replay pk (es ++ [Seen pk slot hash replay])) = summary (votes_of replay pk es) →
  Tracks (es ++ [Seen pk slot hash replay]) self.
Proof.
  intros [Hv Hd] E. split; [|done]. intros replay' pk'. rewrite Hv.
  destruct (decide (pk = pk' ∧ replay = replay')) as [[-> ->]|Hne]; [done|].
  rewrite votes_of_snoc. unfold votes_of at 3. simpl. destruct hash; [|by rewrite app_nil_r].
  rewrite decide_False by done. by rewrite app_nil_r.
Qed.

Lemma dirty_insert (dirty : gmap Pubkey FrozenVotes) pk (v d : FrozenVotes) pk' s hs :
  (d.1 = v.1 ∨ d.1 = 0) → (∀ h, h ∈ d.2 → h ∈ v.2) → <[pk := d]> dirty !! pk' = Some (s, hs) →
  (pk' = pk ∧ (s = v.1 ∨ s = 0) ∧ ∀ h', h' ∈ hs → h' ∈ v.2) ∨ (pk' ≠ pk ∧ dirty !! pk' = Some (s, hs)).
Proof. intros H1 H2 [[<- ->]|[Hne Hin]]%lookup_insert_Some; [by left|by right]. Qed.

(** A vote is recorded, without a panic, and reported as added exactly when it
    changes the summary. *)
Lemma Tracks_seen es self pk slot hash replay : Tracks es self →
  let votes := votes_of replay pk es in
  let votes' := votes_of replay pk (es ++ [Seen pk slot hash replay]) in
  ∃ self', check_add_vote pk slot hash replay self =
      Ret (bool_decide (summary votes' ≠ summary votes), fst <$> summary votes', self') ∧
    Tracks (es ++ [Seen pk slot hash replay]) self'.
Proof.
  intros HT votes votes'. pose proof HT as [Hv Hd]. unfold check_add_vote. rewrite (Hv replay pk). fold votes.
  destruct hash as [h|].
  2:{ assert (votes' = votes) as Hsame.
      { unfold votes', votes. rewrite votes_of_snoc. unfold votes_of at 2. simpl. apply app_nil_r. }
      exists self. rewrite Hsame, bool_decide_eq_false_2 by tauto. split; [done|].
      apply Tracks_same; [done|]. fold votes' votes. by rewrite Hsame. }
  assert (votes' = votes ++ [(slot, h)]) as Hsnoc.
  { unfold votes', votes. rewrite votes_of_snoc. f_equal. unfold votes_of. simpl. by rewrite decide_True. }
  assert (summary votes' = summary (votes ++ [(slot, h)])) as Hsum by (by rewrite Hsnoc).
  rewrite summary_snoc in Hsum. destruct (summary votes) as [[ls lh]|] eqn:Es.
  2:{ eexists. rewrite Hsum, bool_decide_eq_true_2 by done. split; [reflexivity|].
      eapply Tracks_set; [done|by fold votes; rewrite <-Hsnoc|]. intros _ pk' s hs.
      apply dirty_insert; [by left|done]. }
  destruct (Z.ltb_spec ls slot) as [Hlt|Hge].
  { eexists. rewrite Hsum, bool_decide_eq_true_2; [|intros [= E _]; lia]. split; [reflexivity|].
    eapply Tracks_set; [done|by fold votes; rewrite <-Hsnoc|]. intros _ pk' s hs.
    apply dirty_insert; [by left|done]. }
  destruct (Z.eqb_spec slot ls) as [->|Hne]; cbn [andb].
  2:{ exists self. rewrite Hsum, bool_decide_eq_false_2 by tauto. split; [done|].
      apply Tracks_same; [done|]. fold votes' votes. by rewrite Hsum, Es. }
  case_bool_decide as Hin; cbn [negb].
  { exists self. rewrite Hsum, bool_decide_eq_false_2 by tauto. split; [done|].
    apply Tracks_same; [done|]. fold votes' votes. by rewrite Hsum, Es. }
  rewrite Hsum, bool_decide_eq_true_2 by (intros [= E]; by apply (f_equal length) in E; rewrite length_app in E; simpl in E; lia).
  destruct replay.
  - specialize (Hv true pk). simpl in Hv. fold votes in Hv. rewrite Es in Hv.
    destruct (fork_choice_dirty_set self !! pk) as [[ds dh]|] eqn:Ed; cbn [default from_option id].
    + destruct (Hd pk ds dh Ed) as (ls' & lh' & Hr & Hds & Hdh). rewrite Hv in Hr. injection Hr as <- <-.
      rewrite bool_decide_eq_false_2 by (intros Hh; by apply Hin, Hdh). simpl. eexists. split; [reflexivity|].
      eapply Tracks_set; [done|by fold votes; rewrite <-Hsnoc|]. intros _ pk' s hs.
      apply dirty_insert; [done|]. simpl. intros h'. rewrite !elem_of_app. intuition.
    + simpl. eexists. split; [reflexivity|].
      eapply Tracks_set; [done|by fold votes; rewrite <-Hsnoc|]. intros _ pk' s hs.
      apply dirty_insert; [by right|]. simpl. intros h'. rewrite !elem_of_app. intuition.
  - simpl. eexists. split; [reflexivity|]. eapply Tracks_set; [done|by fold votes; rewrite <-Hsnoc|done].
Qed.

Lemma Tracks_taken es root self : Tracks es self → Tracks (es ++ [Taken root]) (take_votes_dirty_set root self).2.
Proof.
  intros [Hv Hd]. split; simpl; [|intros pk s hs; by rewrite lookup_empty].
  intros replay pk. rewrite votes_of_snoc. unfold votes_of at 2. simpl. rewrite app_nil_r.
  destruct replay; [apply (Hv true)|apply (Hv false)].
Qed.

Lemma Tracks_history es : ∃ self, for_each step es LatestVotes_default = Ret self ∧ Tracks es self.
Proof.
  apply (for_each_inv (λ es self, Tracks es self)).
  - split; [by intros [] pk; simpl; rewrite lookup_empty|]. intros pk s hs. simpl. by rewrite lookup_empty.
  - intros don e todo self _ HT. destruct e as [pk slot hash replay|root]; simpl.
    + destruct (Tracks_seen don self pk slot hash replay HT) as (self' & -> & HT'). simpl. eauto.
    + eexists. split; [done|]. by apply Tracks_taken.
Qed.

(** * Theorems *)

(** C39. Over any history of votes and of takes by the fork choice the tracker does not
    panic. It holds for every validator the largest slot that it voted for on a frozen
    bank, from replay and from gossip, with all the hashes it voted for in that slot;
    a vote is reported as added exactly when it changes that. With a root after slot 0
    the votes handed to the fork choice are tracked replay votes in slots from the
    root on. *)
Theorem latest_votes_exact es : ∃ self, for_each step es LatestVotes_default = Ret self ∧
  (∀ pk, max_replay_frozen_votes self !! pk = summary (votes_of true pk es)) ∧
  (∀ pk, max_gossip_frozen_votes self !! pk = summary (votes_of false pk es)) ∧
  (∀ pk slot hash replay, ∃ self', check_add_vote pk slot hash replay self =
     let votes := votes_of replay pk es in
     let votes' := votes_of replay pk (es ++ [Seen pk slot hash replay]) in
     Ret (bool_decide (summary votes' ≠ summary votes), fst <$> summary votes', self')) ∧
  (∀ root pk s h, 0 < root → (pk, (s, h)) ∈ (take_votes_dirty_set root self).1 →
     root ≤ s ∧ ∃ hs, max_replay_frozen_votes self !! pk = Some (s, hs) ∧ h ∈ hs).
Proof.
  destruct (Tracks_history es) as (self & Hrun & HT). exists self. pose proof HT as [Hv Hd].
  split_and!; [done|apply (Hv true)|apply (Hv false)| |].
  - intros pk slot hash replay. destruct (Tracks_seen es self pk slot hash replay HT) as (self' & H & _).
    by exists self'.
  - intros root pk s h Hroot Hin. unfold take_votes_dirty_set, dirty_votes in Hin. simpl in Hin.
    apply list_elem_of_bind in Hin as ([pk' [s' hs]] & Hin & Hmem).
    apply list_elem_of_fmap in Hin as (h' & [= -> -> ->] & Hh').
    apply list_elem_of_filter in Hmem as [Hle Hmem%elem_of_map_to_list]. simpl in Hle.
    destruct (Hd pk' s' hs Hmem) as (ls & lh & Hr & [->| ->] & Hsub); [|lia].
    split; [done|]. exists lh. split; [done|by apply Hsub].
Qed.

(** * Two versions of one slot *)

Lemma max_slot_lt l s : l ≠ [] → Forall (λ x, x.1 < s) l → max_slot l < s.
Proof.
  induction l as [|x l IH]; [done|]. intros _ [Hx Hl]%Forall_cons.
  destruct l as [|y l]; [done|]. specialize (IH ltac:(done) Hl). simpl in *. lia.
Qed.

(** A replay vote for a slot after those voted for so far. *)
Lemma seen_first es self pk slot h : Tracks es self → Forall (λ x, x.1 < slot) (votes_of true pk es) →
  step (Seen pk slot (Some h) true) self =
  Ret (set_vote true pk (slot, [h]) (<[pk := (slot, [h])]> (fork_choice_dirty_set self)) self).
Proof.
  intros [Hv _] Hl. unfold step, check_add_vote. rewrite (Hv true pk). unfold summary.
  destruct (votes_of true pk es) as [|x l] eqn:E; [done|].
  by rewrite (proj2 (Z.ltb_lt _ _)) by (by apply max_slot_lt).
Qed.

(** A replay vote for another version of that slot. *)
Lemma seen_second self pk slot h h' d :
  max_replay_frozen_votes self !! pk = Some (slot, [h]) → h' ≠ h →
  default (0, []) (fork_choice_dirty_set self !! pk) = d → h' ∉ d.2 →
  step (Seen pk slot (Some h') true) self =
  Ret (set_vote true pk (slot, [h; h']) (<[pk := (d.1, d.2 ++ [h'])]> (fork_choice_dirty_set self)) self).
Proof.
  intros Hr Hne Hd Hin. unfold step, check_add_vote. simpl. rewrite Hr, Hd, Z.ltb_irrefl, Z.eqb_refl.
  destruct d as [ds dh]. simpl in *.
  rewrite bool_decide_eq_false_2 by (rewrite elem_of_cons, elem_of_nil; tauto). cbn [negb andb].
  by rewrite bool_decide_eq_false_2.
Qed.

(** What is handed out of the dirty set. *)
Lemma elem_of_taken root self pk s h :
  (pk, (s, h)) ∈ (take_votes_dirty_set root self).1 ↔
  ∃ hs, fork_choice_dirty_set self !! pk = Some (s, hs) ∧ h ∈ hs ∧ root ≤ s.
Proof.
  unfold take_votes_dirty_set, dirty_votes. simpl. rewrite list_elem_of_bind. split.
  - intros ([pk' [s' hs]] & (h' & [= -> -> ->] & Hh')%list_elem_of_fmap & [Hle Hm]%list_elem_of_filter).
    apply elem_of_map_to_list in Hm. eauto.
  - intros (hs & Hd & Hh & Hle). exists (pk, (s, hs)). split; [apply list_elem_of_fmap; eauto|].
    apply list_elem_of_filter. split; [done|]. by apply elem_of_map_to_list.
Qed.

Lemma NoDup_fst_inj {A B} (l : list (A * B)) k x y : NoDup l.*1 → (k, x) ∈ l → (k, y) ∈ l → x = y.
Proof.
  intros Hnd [i Hi]%list_elem_of_lookup [j Hj]%list_elem_of_lookup.
  assert (i = j) as ->; [|congruence].
  eapply NoDup_lookup; [exact Hnd|rewrite list_lookup_fmap, Hi; done|by rewrite list_lookup_fmap, Hj].
Qed.

(** The fork choice panics when it takes two versions of a slot that it has not left
    behind its root. *)
Lemma compute_bank_stats_panics {get_epoch epoch_stakes} `{!StakeLaws get_epoch epoch_stakes} fork_choice self pk slot hs h h' :
  reachable get_epoch epoch_stakes fork_choice → fork_choice_dirty_set self !! pk = Some (slot, hs) →
  (tree_root fork_choice).1 ≤ slot → h ∈ hs → h' ∈ hs → h ≠ h' →
  compute_bank_stats get_epoch epoch_stakes fork_choice self = Panic.
Proof.
  intros HI%reachable_FInv Hd Hle Hh Hh' Hne. unfold compute_bank_stats.
  destruct (take_votes_dirty_set _ self) as [new_votes votes] eqn:E.
  rewrite add_votes_panics; [done|done|]. intros Hnd.
  assert (∀ x, x ∈ hs → (pk, (slot, x)) ∈ relevant (tree_root fork_choice).1 new_votes) as Hin.
  { intros x Hx. apply list_elem_of_filter. split; [done|].
    assert ((pk, (slot, x)) ∈ (take_votes_dirty_set (tree_root fork_choice).1 self).1) as Ht
      by (apply elem_of_taken; eauto). by rewrite E in Ht. }
  apply Hne. pose proof (NoDup_fst_inj _ _ _ _ Hnd (Hin h Hh) (Hin h' Hh')). congruence.
Qed.

(** C40. Two versions of one slot do not reach the fork choice. Let a validator vote for
    two versions of a slot that is newer than its votes so far. When the fork choice
    takes the dirty set between the two votes, the entry that [entry(..).or_default()]
    makes for the second one has slot 0: it is not handed out for any root after slot
    0, although the vote is tracked as a latest one. When it takes it after both, any
    fork choice whose root is not past the slot panics. *)
Theorem two_versions_of_a_slot {get_epoch epoch_stakes} `{!StakeLaws get_epoch epoch_stakes}
    fork_choice es pk slot h h' root :
  reachable get_epoch epoch_stakes fork_choice → (tree_root fork_choice).1 ≤ slot →
  Forall (λ x, x.1 < slot) (votes_of true pk es) → h' ≠ h →
  (∃ self, for_each step (es ++ [Seen pk slot (Some h) true; Taken root; Seen pk slot (Some h') true])
       LatestVotes_default = Ret self ∧
     max_replay_frozen_votes self !! pk = Some (slot, [h; h']) ∧
     ∀ root' s x, 0 < root' → (pk, (s, x)) ∉ (take_votes_dirty_set root' self).1) ∧
  (∃ self, for_each step (es ++ [Seen pk slot (Some h) true; Seen pk slot (Some h') true])
       LatestVotes_default = Ret self ∧
     max_replay_frozen_votes self !! pk = Some (slot, [h; h']) ∧
     compute_bank_stats get_epoch epoch_stakes fork_choice self = Panic).
Proof.
  intros HI Hroot Hl Hne. destruct (Tracks_history es) as (self & Hrun & HT).
  rewrite !for_each_app, Hrun. unfold mbind, outcome_bind. cbn [for_each].
  rewrite (seen_first es self pk slot h HT Hl). rewrite !bind_Ret_l.
  change (step (Taken root) ?s) with (Ret (take_votes_dirty_set root s).2). rewrite bind_Ret_l. split.
  - rewrite (seen_second _ pk slot h h' (0, [])); [|by apply lookup_insert_eq|done|done|apply not_elem_of_nil].
    rewrite bind_Ret_l. eexists. split_and!; [done|by apply lookup_insert_eq|].
    intros root' s x Hpos (hs & Hd & _ & Hle)%elem_of_taken. unfold set_vote in Hd. simpl in Hd.
    rewrite lookup_insert_eq in Hd. simplify_eq. lia.
  - rewrite (seen_second _ pk slot h h' (slot, [h])); [|by apply lookup_insert_eq|done| |set_solver].
    2: { unfold set_vote. simpl. by rewrite lookup_insert_eq. }
    rewrite bind_Ret_l. eexists. split_and!; [done|by apply lookup_insert_eq|].
    eapply (compute_bank_stats_panics _ _ pk slot [h; h'] h h'); [done|by apply lookup_insert_eq|done|set_solver..|done].
Qed.

(** Validator 7 votes for 100 and then for 90 in slot 12, after a vote in slot 11. *)
Lemma two_versions_of_a_slot_witness :
  ∃ self, for_each step [Seen 7 11 (Some 50) true; Seen 7 12 (Some 100) true; Seen 7 12 (Some 90) true]
      LatestVotes_default = Ret self ∧ compute_bank_stats ex_epoch ex_stakes ex_fork4 self = Panic.
Proof.
  destruct (two_versions_of_a_slot ex_fork4 [Seen 7 11 (Some 50) true] 7 12 100 90 1 ex_fork4_reachable)
    as [_ (self & Hrun & _ & Hp)].
  - vm_compute. discriminate.
  - repeat constructor.
  - discriminate.
  - exists self. split; [exact Hrun|exact Hp].
Defined.
