(* ===== verification/VoteInterface.v ===== *)
(** Lockouts and vote states: the data the vote program and the tower share, and
    the stack of votes of a validator ([core/src/consensus/tower_vote_state.rs]).

    The types and the arithmetic of lockouts belong to the crate
    [solana-vote-interface], whose operations are the class [LockoutApi]; the
    laws its documentation gives are the class [LockoutLaws]. *)

From S2P Require Import Prelude.

Record Lockout := {
  slot : Slot;
  confirmation_count : Z;
}.

#[global] Instance Lockout_eq_dec : EqDecision Lockout.
Proof. solve_decision. Defined.

Class LockoutApi := {
  MAX_LOCKOUT_HISTORY : Z;
  Lockout_new : Slot → Lockout;
  last_locked_out_slot : Lockout → Slot;
  is_locked_out_at_slot : Lockout → Slot → bool;
  increase_confirmation_count : Z → Lockout → Lockout;
}.

Class LockoutLaws `{LockoutApi} := {
  history_range : 2 ≤ MAX_LOCKOUT_HISTORY ≤ u32_MAX;
  (** A new vote counts as its own first confirmation. *)
  Lockout_new_spec s : Lockout_new s = {| slot := s; confirmation_count := 1 |};
  increase_spec by_ v : increase_confirmation_count by_ v =
    {| slot := slot v;
       confirmation_count := saturating_add u32_MAX (confirmation_count v) by_ |};
  (** A vote locks out the slots up to the last one. *)
  is_locked_out_spec v s : is_locked_out_at_slot v s = (s <=? last_locked_out_slot v);
  (** Confirmations only ever extend the lockout. *)
  last_locked_out_slot_mono v w :
    slot v = slot w → confirmation_count v ≤ confirmation_count w →
    last_locked_out_slot v ≤ last_locked_out_slot w;
}.

(** * The stack of votes of the local tower *)

Record TowerVoteState := {
  votes : list Lockout;
  root_slot : option Slot;
}.

Definition TowerVoteState_default : TowerVoteState := {| votes := []; root_slot := None |}.

Module TowerStack.
Section stack.
Context `{LockoutApi}.

Definition tower (self : TowerVoteState) : list Slot := slot <$> votes self.

Definition last_lockout (self : TowerVoteState) : option Lockout := last (votes self).

Definition last_voted_slot (self : TowerVoteState) : option Slot := slot <$> last_lockout self.

(** [nth_recent_lockout]: [position.saturating_add(1)] from the end. *)
Definition nth_recent_lockout (self : TowerVoteState) (position : Z) : option Lockout :=
  pos ← checked_sub (Z.of_nat (length (votes self))) (saturating_add usize_MAX position 1);
  votes self !! Z.to_nat pos.

(** The loop of [pop_expired_votes], on the votes from the newest on. *)
Fixpoint pop_expired (next_vote_slot : Slot) (newest_first : list Lockout) : list Lockout :=
  match newest_first with
  | [] => []
  | vote :: older =>
      if negb (is_locked_out_at_slot vote next_vote_slot) then pop_expired next_vote_slot older
      else newest_first
  end.

Definition pop_expired_votes (next_vote_slot : Slot) (self : TowerVoteState) : TowerVoteState :=
  {| votes := rev (pop_expired next_vote_slot (rev (votes self))); root_slot := root_slot self |}.

(** The loop of [double_lockouts] from the [i]th vote on. *)
Fixpoint double_from (stack_depth i : Z) (vs : list Lockout) : outcome (list Lockout) :=
  match vs with
  | [] => Ret []
  | v :: vs =>
      threshold ← add_ usize_MAX i (confirmation_count v);
      let v := if threshold <? stack_depth then increase_confirmation_count 1 v else v in
      vs ← double_from stack_depth (i + 1) vs;
      Ret (v :: vs)
  end.

Definition double_lockouts (self : TowerVoteState) : outcome TowerVoteState :=
  vs ← double_from (Z.of_nat (length (votes self))) 0 (votes self);
  Ret {| votes := vs; root_slot := root_slot self |}.

(** Once the stack is full, the oldest vote becomes the root. *)
Definition root_oldest (self : TowerVoteState) : outcome TowerVoteState :=
  if Z.of_nat (length (votes self)) =? MAX_LOCKOUT_HISTORY then
    match votes self with
    | rooted_vote :: vs => Ret {| votes := vs; root_slot := Some (slot rooted_vote) |}
    | [] => Panic
    end
  else Ret self.

Definition process_next_vote_slot (next_vote_slot : Slot) (self : TowerVoteState)
    : outcome TowerVoteState :=
  if match last_voted_slot self with
     | Some last_voted_slot => next_vote_slot <=? last_voted_slot
     | None => false
     end
  then Ret self
  else
    self ← root_oldest (pop_expired_votes next_vote_slot self);
    double_lockouts
      {| votes := votes self ++ [Lockout_new next_vote_slot]; root_slot := root_slot self |}.

End stack.
End TowerStack.
