(* ===== verification/LockoutProps.v ===== *)
(** Well-formed stacks of votes, and what [process_next_vote_slot] does to them. *)

From S2P Require Import Prelude VoteInterface.

(** * Lists of votes *)

Section lockouts.
Context `{LockoutLaws}.
Implicit Types (v w : Lockout) (vs : list Lockout) (st : TowerVoteState).

(** [w] can stand on top of [v]: it is later, has fewer confirmations, and was
    cast while [v] was locked out. *)
Definition follows v w : Prop :=
  slot v < slot w ∧ confirmation_count w < confirmation_count v ∧
  slot w ≤ last_locked_out_slot v.

Definition in_history v : Prop := 1 ≤ confirmation_count v ≤ MAX_LOCKOUT_HISTORY.

Definition WfVotes vs : Prop := Sorted follows vs ∧ Forall in_history vs.

(** The votes are above the root. *)
Definition above (root : option Slot) vs : Prop :=
  ∀ r v, root = Some r → v ∈ vs → r < slot v.

Definition WfTower st : Prop := WfVotes (votes st) ∧ above (root_slot st) (votes st).

Lemma follows_sorted vs : Sorted follows vs → StronglySorted Z.lt (slot <$> vs).
Proof.
  intros Hs. apply Sorted_StronglySorted; [intros x y z; lia|].
  induction Hs as [|v vs Hs IH Hd]; simpl; constructor; [done|].
  destruct Hd as [|w vs [Hlt _]]; simpl; constructor; done.
Qed.

Lemma follows_slots_NoDup vs v w :
  Sorted follows vs → v ∈ vs → w ∈ vs → slot v = slot w → v = w.
Proof.
  intros Hs%follows_sorted. induction vs as [|u vs IH]; [set_solver|].
  simpl in Hs. apply StronglySorted_inv in Hs as [Hs Hd]. rewrite Forall_forall in Hd.
  intros [->|Hv]%elem_of_cons [->|Hw]%elem_of_cons Heq; [done| | |by apply IH].
  - pose proof (Hd (slot w) (list_elem_of_fmap_2 _ _ _ Hw)). lia.
  - pose proof (Hd (slot v) (list_elem_of_fmap_2 _ _ _ Hv)). lia.
Qed.

Lemma last_slot_max vs v w :
  Sorted follows vs → last vs = Some w → v ∈ vs → slot v ≤ slot w.
Proof.
  intros Hs%follows_sorted (vs' & ->)%last_Some Hv.
  rewrite fmap_app in Hs. apply elem_of_app in Hv as [Hv| ->%list_elem_of_singleton]; [|lia].
  apply Z.lt_le_incl. eapply (StronglySorted_app_1_elem_of Z.lt); [exact Hs| |by left].
  by apply list_elem_of_fmap_2.
Qed.

Lemma Sorted_app_l {A} (R : relation A) l1 l2 : Sorted R (l1 ++ l2) → Sorted R l1.
Proof.
  induction l1 as [|x l1 IH]; simpl; [constructor|]. intros [Hs Hd]%Sorted_inv.
  constructor; [by apply IH|]. destruct l1; constructor. by inversion Hd.
Qed.
Lemma Sorted_app_r {A} (R : relation A) l1 l2 : Sorted R (l1 ++ l2) → Sorted R l2.
Proof. induction l1 as [|x l1 IH]; simpl; [done|]. intros [Hs _]%Sorted_inv. by apply IH. Qed.

Lemma WfVotes_app vs1 vs2 : WfVotes (vs1 ++ vs2) → WfVotes vs1 ∧ WfVotes vs2.
Proof.
  intros [Hs Hf]. apply Forall_app in Hf as [Hf1 Hf2].
  split; split; eauto using Sorted_app_l, Sorted_app_r.
Qed.

(** Every vote has at least the confirmations of the votes on top of it. *)
Lemma confirmations_of_top v vs :
  WfVotes (v :: vs) → Z.of_nat (length vs) < confirmation_count v.
Proof.
  revert v. induction vs as [|w vs IH]; intros v [Hs Hf]; simpl.
  - apply Forall_cons in Hf as [[? ?] _]. lia.
  - apply Sorted_inv in Hs as [Hs Hd]. apply Forall_cons in Hf as [Hv Hf].
    pose proof (IH w (conj Hs Hf)). inversion Hd as [|? ? Hvw]. destruct Hvw as (_ & ? & _). lia.
Qed.

Lemma WfVotes_length vs : WfVotes vs → Z.of_nat (length vs) ≤ MAX_LOCKOUT_HISTORY.
Proof.
  pose proof history_range. destruct vs as [|v vs]; simpl; [lia|]. intros Hwf.
  pose proof (confirmations_of_top _ _ Hwf). destruct Hwf as [_ Hf].
  apply Forall_cons in Hf as [[? ?] _]. lia.
Qed.

(** * A new vote on the stack *)

(** A vote with at least [c] confirmations. *)
Definition raise (c : Z) v : Lockout :=
  {| slot := slot v; confirmation_count := Z.max (confirmation_count v) c |}.

(** The votes under a new one: each has now been confirmed by all those above. *)
Fixpoint confirm vs : list Lockout :=
  match vs with
  | [] => []
  | v :: vs => raise (Z.of_nat (length vs) + 2) v :: confirm vs
  end.

Lemma last_locked_out_slot_raise c v : last_locked_out_slot v ≤ last_locked_out_slot (raise c v).
Proof. apply last_locked_out_slot_mono; simpl; lia. Qed.

Lemma confirm_slots vs : slot <$> confirm vs = slot <$> vs.
Proof. induction vs as [|v vs IH]; [done|]. cbn [confirm]. by rewrite !fmap_cons, IH. Qed.

Lemma elem_of_confirm v vs :
  v ∈ vs → ∃ w, w ∈ confirm vs ∧ slot w = slot v ∧ confirmation_count v ≤ confirmation_count w.
Proof.
  induction vs as [|u vs IH]; [set_solver|]. intros [->|Hv]%elem_of_cons; simpl.
  - eexists. split; [by left|]. simpl. lia.
  - destruct (IH Hv) as (w & Hw & ?). exists w. split; [by right|done].
Qed.

Lemma confirm_wf vs n :
  WfVotes vs → Z.of_nat (length vs) < MAX_LOCKOUT_HISTORY →
  (∀ v, last vs = Some v → slot v < n ≤ last_locked_out_slot v) →
  WfVotes (confirm vs ++ [{| slot := n; confirmation_count := 1 |}]).
Proof.
  pose proof history_range as HM. induction vs as [|v vs IH]; intros Hwf Hlen Hlast.
  { split; repeat constructor; simpl; lia. }
  destruct Hwf as [[Hs Hd]%Sorted_inv [Hv Hf]%Forall_cons]. simpl in Hlen.
  destruct IH as [IHs IHf]; [done|lia|intros; apply Hlast; destruct vs; done|].
  split; simpl; constructor; try done; [|unfold in_history in *; simpl; lia].
  pose proof (last_locked_out_slot_raise (Z.of_nat (length vs) + 2) v).
  destruct vs as [|w vs]; simpl; constructor.
  - destruct (Hlast v eq_refl). unfold follows, in_history in *. simpl in *. lia.
  - inversion Hd as [|? ? (? & ? & ?)]; subst. unfold follows. simpl in *. lia.
Qed.

(** * The operations *)

Import TowerStack.

Lemma pop_expired_spec n l :
  ∃ expired, l = expired ++ pop_expired n l ∧
    Forall (λ v, last_locked_out_slot v < n) expired ∧
    (∀ v, head (pop_expired n l) = Some v → n ≤ last_locked_out_slot v).
Proof.
  induction l as [|v l (expired & Hl & Hex & Hh)]; simpl; [by exists []|].
  rewrite is_locked_out_spec. case_leb; simpl.
  - exists []. split; [done|]. split; [constructor|]. intros ? [= <-]. lia.
  - exists (v :: expired). simpl. rewrite <-Hl. repeat split; [|done]. constructor; [lia|done].
Qed.

Lemma pop_expired_votes_spec n st :
  ∃ expired, votes st = votes (pop_expired_votes n st) ++ expired ∧
    Forall (λ v, last_locked_out_slot v < n) expired ∧
    (∀ v, last (votes (pop_expired_votes n st)) = Some v → n ≤ last_locked_out_slot v).
Proof.
  destruct (pop_expired_spec n (rev (votes st))) as (expired & Heq & Hex & Hh).
  exists (rev expired). unfold pop_expired_votes; simpl.
  rewrite <-rev_app_distr, <-Heq, rev_involutive. split; [done|].
  split; [by apply Forall_rev|]. intros v Hv. apply Hh.
  by rewrite last_rev in Hv.
Qed.

Lemma double_from_confirm vs d i v :
  WfVotes vs → 0 ≤ i → d = i + Z.of_nat (length vs) + 1 → d ≤ u32_MAX →
  confirmation_count v = 1 → double_from d i (vs ++ [v]) = Ret (confirm vs ++ [v]).
Proof.
  intros Hwf Hi -> Hd Hv1. assert (u32_MAX + u32_MAX < usize_MAX) by done.
  revert i Hi Hd. induction vs as [|w vs IH]; intros i Hi Hd; simpl.
  { rewrite Hv1, add_Ret by (unfold u32_MAX in *; simpl in Hd; lia). simpl.
    by rewrite (proj2 (Z.ltb_ge _ _)) by lia. }
  pose proof (confirmations_of_top _ _ Hwf) as Htop. pose proof history_range.
  destruct Hwf as [[Hs _]%Sorted_inv [[? ?] Hf]%Forall_cons]. simpl in Hd.
  run. simpl.
  specialize (IH (conj Hs Hf) (i + 1)).
  replace (i + 1 + Z.of_nat (length vs) + 1) with (i + Z.of_nat (S (length vs)) + 1) in IH by lia.
  rewrite IH by lia. simpl. do 2 f_equal. unfold raise. case_leb.
  - rewrite increase_spec. unfold saturating_add. f_equal. lia.
  - destruct w; simpl in *. f_equal. lia.
Qed.

(** The votes a stack keeps under a vote for a later slot, and the new root. *)
Record Pushed (n : Slot) st st' : Prop := {
  pushed : ∃ rooted kept expired,
    votes st = rooted ++ kept ++ expired ∧
    votes st' = confirm kept ++ [{| slot := n; confirmation_count := 1 |}] ∧
    Forall (λ v, last_locked_out_slot v < n) expired ∧
    (∀ v, last (rooted ++ kept) = Some v → n ≤ last_locked_out_slot v) ∧
    match rooted with
    | [] => root_slot st' = root_slot st
    | [v] => root_slot st' = Some (slot v) ∧
             Z.of_nat (length (v :: kept)) = MAX_LOCKOUT_HISTORY
    | _ => False
    end;
}.

Definition later (n : Slot) st : Prop :=
  (∀ v, v ∈ votes st → slot v < n) ∧ (∀ r, root_slot st = Some r → r < n).

Lemma root_oldest_spec st :
  WfVotes (votes st) →
  ∃ rooted st', root_oldest st = Ret st' ∧ votes st = rooted ++ votes st' ∧
    Z.of_nat (length (votes st')) < MAX_LOCKOUT_HISTORY ∧
    match rooted with
    | [] => root_slot st' = root_slot st
    | [v] => root_slot st' = Some (slot v) ∧
             Z.of_nat (length (v :: votes st')) = MAX_LOCKOUT_HISTORY
    | _ => False
    end.
Proof.
  intros Hwf%WfVotes_length. pose proof history_range. unfold root_oldest. case_leb.
  - destruct (votes st) as [|v vs]; [simpl in *; lia|]. exists [v]. eexists. split; [done|].
    simpl in *. repeat split; lia.
  - exists [], st. split; [done|]. split; [done|]. split; [lia|done].
Qed.

Lemma process_next_vote_slot_pushed n st :
  WfVotes (votes st) → (∀ v, v ∈ votes st → slot v < n) →
  ∃ st', process_next_vote_slot n st = Ret st' ∧ WfVotes (votes st') ∧ Pushed n st st'.
Proof.
  intros Hwf Hn. unfold process_next_vote_slot.
  assert (match last_voted_slot st with Some l => n <=? l | None => false end = false) as ->.
  { unfold last_voted_slot, last_lockout. destruct (last (votes st)) as [v|] eqn:Hv; [|done].
    apply Z.leb_gt, Hn. apply last_Some in Hv as [? ->]. set_solver. }
  destruct (pop_expired_votes_spec n st) as (expired & Heq & Hex & Hl).
  set (st1 := pop_expired_votes n st) in *.
  assert (root_slot st1 = root_slot st) as Hr by done.
  assert (WfVotes (votes st1)) as Hwf1 by (rewrite Heq in Hwf; by apply WfVotes_app in Hwf as []).
  destruct (root_oldest_spec st1 Hwf1) as (rooted & st2 & -> & Heq2 & Hlen & Hroot).
  assert (WfVotes (votes st2)) as Hwf2 by (rewrite Heq2 in Hwf1; by apply WfVotes_app in Hwf1 as []).
  simpl. unfold double_lockouts; simpl. pose proof history_range.
  rewrite double_from_confirm; [|done|lia|rewrite length_app; simpl; lia
    |rewrite length_app; simpl; lia|by rewrite Lockout_new_spec].
  simpl. rewrite Lockout_new_spec. eexists. split; [done|]. split.
  - apply confirm_wf; [done..|]. intros v Hv. split.
    + apply Hn. rewrite Heq, Heq2. apply last_Some in Hv as [? ->]. set_solver.
    + apply Hl. by rewrite Heq2, last_app, Hv.
  - constructor. exists rooted, (votes st2), expired. simpl. rewrite <-Hr.
    split_and!; [by rewrite Heq, Heq2, app_assoc|done..|by rewrite <-Heq2|].
    by destruct rooted as [|? []].
Qed.

Lemma Pushed_above n st st' :
  WfTower st → later n st → Pushed n st st' → above (root_slot st') (votes st').
Proof.
  intros [[Hs%follows_sorted _] Hab] [Hn Hnr] [(rooted & kept & expired & Heq & Heq' & _ & _ & Hroot)].
  intros r v Hr Hv. rewrite Heq' in Hv.
  apply elem_of_app in Hv as [Hv| ->%list_elem_of_singleton]; simpl.
  - assert (slot v ∈ slot <$> kept) as Hv' by (rewrite <-confirm_slots; by apply list_elem_of_fmap_2).
    apply list_elem_of_fmap in Hv' as (w & -> & Hw).
    destruct rooted as [|u []]; [|destruct Hroot as [Hroot _]|done].
    + apply (Hab r); [congruence|rewrite Heq, !elem_of_app; auto].
    + rewrite Heq in Hs. simpl in Hs. apply StronglySorted_inv in Hs as [_ Hf].
      rewrite Forall_forall in Hf. assert (r = slot u) as -> by congruence.
      apply Hf, list_elem_of_fmap_2. set_solver.
  - destruct rooted as [|u []]; [apply Hnr; congruence|destruct Hroot as [Hroot _]|done].
    assert (r = slot u) as -> by congruence. apply Hn.
    rewrite Heq. by left.
Qed.

Lemma process_next_vote_slot_wf n st :
  WfTower st → later n st →
  ∃ st', process_next_vote_slot n st = Ret st' ∧ WfTower st' ∧ Pushed n st st'.
Proof.
  intros Hwf Hn. destruct (process_next_vote_slot_pushed n st) as (st' & Hst' & Hwf' & HP);
    [apply Hwf|apply Hn|].
  exists st'. split; [done|]. split; [|done]. split; [done|]. by eapply Pushed_above.
Qed.

(** * What later votes do to a lockout *)

(** The vote [v] of an earlier state was rooted, is still there, or expired
    before the votes that replaced it were cast. *)
Definition kept_lockout st v : Prop :=
  (∃ r, root_slot st = Some r ∧ slot v ≤ r) ∨
  (∃ w, w ∈ votes st ∧ slot w = slot v ∧ confirmation_count v ≤ confirmation_count w) ∨
  ((∃ w, w ∈ votes st ∧ slot v < slot w) ∧
   ∀ w, w ∈ votes st →
     slot w ≠ slot v ∧ (slot v < slot w → last_locked_out_slot v < slot w)).

Definition root_le st st' : Prop :=
  ∀ r, root_slot st = Some r → ∃ r', root_slot st' = Some r' ∧ r ≤ r'.

(** No lockout and no root of [st] is rolled back in [st']. *)
Definition Extends st st' : Prop :=
  root_le st st' ∧ ∀ v, v ∈ votes st → kept_lockout st' v.

Lemma Extends_refl st : Extends st st.
Proof. split; [intros r ?; by exists r|]. intros v Hv. right; left. by exists v. Qed.

Lemma Pushed_votes n st st' w :
  Pushed n st st' → w ∈ votes st' → slot w = n ∨ ∃ u, u ∈ votes st ∧ slot u = slot w.
Proof.
  intros [(rooted & kept & expired & Heq & -> & _)].
  intros [Hw| ->%list_elem_of_singleton]%elem_of_app; [right|by left].
  apply (list_elem_of_fmap_2 slot) in Hw. rewrite confirm_slots in Hw.
  apply list_elem_of_fmap in Hw as (u & -> & Hu). exists u. split; [|done].
  rewrite Heq, !elem_of_app. auto.
Qed.

Lemma Pushed_new n st st' : Pushed n st st' → ∃ w, w ∈ votes st' ∧ slot w = n.
Proof.
  intros [(? & ? & ? & _ & -> & _)]. eexists. split; [apply elem_of_app; right; by left|done].
Qed.

Lemma Pushed_root n st st' :
  WfTower st → Pushed n st st' → root_le st st'.
Proof.
  intros [_ Hab] [(rooted & kept & expired & Heq & _ & _ & _ & Hroot)] r Hr.
  destruct rooted as [|u []]; [exists r; split; [congruence|lia]|destruct Hroot as [-> _]|done].
  exists (slot u). split; [done|]. apply Z.lt_le_incl, Hab; [done|]. rewrite Heq. by left.
Qed.

Lemma Pushed_present n st st' v w :
  WfTower st → later n st → Pushed n st st' →
  w ∈ votes st → slot w = slot v → confirmation_count v ≤ confirmation_count w →
  kept_lockout st' v.
Proof.
  intros [[Hs%follows_sorted _] _] [Hn _] HP Hw Hsl Hc. pose proof HP as HP'.
  destruct HP as [(rooted & kept & expired & Heq & Heq' & Hex & _ & Hroot)].
  pose proof Hw as Hin. rewrite Heq in Hw, Hs. rewrite !elem_of_app in Hw. destruct Hw as [Hw|[Hw|Hw]].
  - left. exists (slot w). split; [|lia]. destruct rooted as [|u []]; [set_solver| |done].
    apply list_elem_of_singleton in Hw as ->. by destruct Hroot.
  - right; left. destruct (elem_of_confirm _ _ Hw) as (w' & Hw' & ? & ?).
    exists w'. split; [rewrite Heq'; apply elem_of_app; by left|lia].
  - right; right. rewrite Forall_forall in Hex. pose proof (Hex w Hw).
    pose proof (last_locked_out_slot_mono v w (eq_sym Hsl) Hc). split.
    + destruct (Pushed_new _ _ _ HP') as (u & Hu & ?). exists u. split; [done|].
      specialize (Hn w Hin). lia.
    + intros u Hu. rewrite Heq' in Hu.
      apply elem_of_app in Hu as [Hu| ->%list_elem_of_singleton];
        [|specialize (Hn w Hin); simpl; lia].
      apply (list_elem_of_fmap_2 slot) in Hu. rewrite confirm_slots in Hu.
      apply list_elem_of_fmap in Hu as (u' & Hu' & Hin').
      rewrite app_assoc, fmap_app in Hs.
      assert (slot u' < slot w); [|lia].
      eapply (StronglySorted_app_1_elem_of Z.lt); [exact Hs|apply list_elem_of_fmap_2; set_solver
        |by apply list_elem_of_fmap_2].
Qed.

Lemma Extends_push n st0 st st' :
  WfTower st → later n st → Pushed n st st' → Extends st0 st → Extends st0 st'.
Proof.
  intros Hwf Hn HP [Hroot Hv]. pose proof (Pushed_root _ _ _ Hwf HP) as Hle. split.
  - intros r (r1 & Hr1 & ?)%Hroot. destruct (Hle _ Hr1) as (r2 & ? & ?). exists r2. split; [done|lia].
  - intros v [(r & Hr & ?)|[(w & Hw & Hsl & Hc)|[(w & Hw & ?) Hall]]]%Hv.
    + left. destruct (Hle _ Hr) as (r2 & ? & ?). exists r2. split; [done|lia].
    + by eapply Pushed_present.
    + destruct (Pushed_new _ _ _ HP) as (u & Hu & Hun). destruct Hn as [Hn _].
      pose proof (Hn w Hw). pose proof (Hall w Hw). right; right. split.
      * exists u. split; [done|lia].
      * intros u' Hu'. destruct (Pushed_votes _ _ _ _ HP Hu') as [->|(u'' & Hin & Heq)]; [lia|].
        rewrite <-Heq. by apply Hall.
Qed.

(** A run of votes, each later than everything before it. *)
Lemma run_votes ns st :
  WfTower st → StronglySorted Z.lt ns → (∀ n, n ∈ ns → later n st) →
  ∃ st', for_each process_next_vote_slot ns st = Ret st' ∧ WfTower st' ∧ Extends st st' ∧
    (∀ n, last ns = Some n → last_voted_slot st' = Some n).
Proof.
  intros Hwf Hs Hn.
  enough (∀ st0, Extends st0 st →
    ∃ st', for_each process_next_vote_slot ns st = Ret st' ∧ WfTower st' ∧ Extends st0 st' ∧
      (∀ n, last ns = Some n → last_voted_slot st' = Some n)) as He by apply He, Extends_refl.
  revert st Hwf Hn. induction ns as [|n ns IH]; intros st Hwf Hn st0 He; simpl; [by exists st|].
  apply StronglySorted_inv in Hs as [Hs Hlt]. rewrite Forall_forall in Hlt.
  destruct (process_next_vote_slot_wf n st) as (st1 & -> & Hwf1 & HP); [done|apply Hn; by left|].
  assert (last_voted_slot st1 = Some n) as Hl1.
  { unfold last_voted_slot, last_lockout. destruct HP as [(? & ? & ? & _ & -> & _)].
    by rewrite last_snoc. }
  destruct (IH Hs st1 Hwf1) with (st0 := st0) as (st' & Hst' & Hwf' & He' & Hl); [| |].
  - intros m Hm. pose proof (Hlt m Hm). split.
    + intros v Hv. destruct (Pushed_votes _ _ _ _ HP Hv) as [->|(u & Hu & <-)]; [done|].
      destruct (Hn m) as [Hst _]; [by right|]. by apply Hst.
    + intros r Hr. destruct (Pushed_new _ _ _ HP) as (w & Hw & <-).
      pose proof (proj2 Hwf1 r w Hr Hw). lia.
  - apply (Extends_push n _ st); [done|apply Hn; by left|done|done].
  - exists st'. split_and!; [done..|]. intros m Hm. destruct ns as [|n' ns]; [|by apply Hl].
    injection Hst' as <-. by injection Hm as <-.
Qed.

End lockouts.

(** * The documented lockouts *)

(** A vote locks out twice as many slots with every confirmation. *)
Definition doubling_lockouts : LockoutApi := {|
  MAX_LOCKOUT_HISTORY := 31;
  Lockout_new s := {| slot := s; confirmation_count := 1 |};
  last_locked_out_slot v :=
    saturating_add u64_MAX (slot v) (2 ^ Z.min (confirmation_count v) 31);
  is_locked_out_at_slot v s :=
    s <=? saturating_add u64_MAX (slot v) (2 ^ Z.min (confirmation_count v) 31);
  increase_confirmation_count by_ v :=
    {| slot := slot v;
       confirmation_count := saturating_add u32_MAX (confirmation_count v) by_ |};
|}.

Lemma doubling_laws : @LockoutLaws doubling_lockouts.
Proof.
  constructor; [done..|]. intros v w Hs Hc. simpl. unfold saturating_add.
  assert (2 ^ Z.min (confirmation_count v) 31 ≤ 2 ^ Z.min (confirmation_count w) 31)
    by (apply Z.pow_le_mono_r; lia). lia.
Qed.
