(* ===== verification/VoteState.v ===== *)
(** The vote program on vote states: what a vote transaction does to the state of
    a vote account ([programs/vote/src/vote_state/mod.rs]).

    The methods of [VoteState] belong to the crate [solana-vote-interface]; they
    are the operations of the class [VoteApi], and the class [VoteLaws] states
    what its documentation says of them. An index into a vector is below the
    vector's length, so the checked additions to indices are plain ones here. *)

From S2P Require Import Prelude VoteInterface.

Record LandedVote := {
  latency : Z;
  lockout : Lockout;
}.

#[global] Instance LandedVote_eq_dec : EqDecision LandedVote.
Proof. solve_decision. Defined.

(** [LandedVote::slot]. *)
Definition landed_slot (v : LandedVote) : Slot := slot (lockout v).
Definition landed_confirmations (v : LandedVote) : Z := confirmation_count (lockout v).

(** [VoteState]; the type [R] stands for the fields that only the methods of the
    interface touch (the authorized and prior voters and the last timestamp). *)
Record VoteState (R : Type) := {
  node_pubkey : Pubkey;
  authorized_withdrawer : Pubkey;
  commission : Z;
  landed_votes : list LandedVote;
  vote_root_slot : option Slot;
  epoch_credits : list (Z * Z * Z);
  rest : R;
}.
Arguments node_pubkey {R} _.
Arguments authorized_withdrawer {R} _.
Arguments commission {R} _.
Arguments landed_votes {R} _.
Arguments vote_root_slot {R} _.
Arguments epoch_credits {R} _.
Arguments rest {R} _.

Inductive VoteError :=
| VoteTooOld
| SlotsMismatch
| SlotHashMismatch
| EmptySlots
| TimestampTooOld
| TooManyVotes
| RootRollBack
| ZeroConfirmations
| ConfirmationTooLarge
| SlotSmallerThanRoot
| SlotsNotOrdered
| ConfirmationsNotOrdered
| NewVoteStateLockoutMismatch
| LockoutConflict
| ConfirmationRollBack
| RootOnDifferentFork
| VotesTooOldAllFiltered
| AssertionFailed
| CommissionUpdateTooLate
| ActiveVoteAccountClose.

Record Vote := {
  vote_slots : list Slot;
  vote_hash : Hash;
  vote_timestamp : option Z;
}.

(** The common fields of [VoteStateUpdate] and [TowerSync]. *)
Record TowerSync := {
  sync_lockouts : list Lockout;
  sync_root : option Slot;
  sync_hash : Hash;
  sync_timestamp : option Z;
}.

#[global] Instance Vote_eq_dec : EqDecision Vote.
Proof. solve_decision. Defined.
#[global] Instance TowerSync_eq_dec : EqDecision TowerSync.
Proof. solve_decision. Defined.

Class VoteApi (R : Type) := {
  contains_slot : VoteState R → Slot → bool;
  vote_last_voted_slot : VoteState R → option Slot;
  credits_for_vote_at_index : VoteState R → nat → Z;
  increment_credits : Z → Z → VoteState R → VoteState R;
  process_timestamp : Slot → Z → VoteState R → result unit VoteError * VoteState R;
  compute_vote_latency : Slot → Slot → Z;
  landed_from : Lockout → LandedVote;
  vote_process_next_vote_slot : Slot → Z → Slot → VoteState R → VoteState R;
  current_epoch : VoteState R → Z;
}.

Class VoteLaws (R : Type) `{VoteApi R} := {
  contains_slot_spec vs s : contains_slot vs s = true ↔ s ∈ landed_slot <$> landed_votes vs;
  vote_last_voted_slot_spec vs : vote_last_voted_slot vs = landed_slot <$> last (landed_votes vs);
  credits_range vs i : 0 ≤ credits_for_vote_at_index vs i ≤ 2 ^ 8 - 1;
  increment_credits_votes e c vs : landed_votes (increment_credits e c vs) = landed_votes vs;
  increment_credits_root e c vs : vote_root_slot (increment_credits e c vs) = vote_root_slot vs;
  process_timestamp_votes s t vs : landed_votes (process_timestamp s t vs).2 = landed_votes vs;
  process_timestamp_root s t vs : vote_root_slot (process_timestamp s t vs).2 = vote_root_slot vs;
  landed_from_spec l : landed_from l = {| latency := 0; lockout := l |};
}.

Module VoteProgram.
Section program.
Context {R : Type} `{LockoutApi, VoteApi R}.
Implicit Types (vote_state : VoteState R) (slot_hashes : list (Slot * Hash)).

Definition set_votes_and_root (vs : list LandedVote) (root : option Slot) vote_state : VoteState R := {|
  node_pubkey := node_pubkey vote_state;
  authorized_withdrawer := authorized_withdrawer vote_state;
  commission := commission vote_state;
  landed_votes := vs;
  vote_root_slot := root;
  epoch_credits := epoch_credits vote_state;
  rest := rest vote_state;
|}.

(** ** Checks of a proposed tower against the slot hashes *)

(** The root, when it is older than the slot hashes: the latest vote of the vote
    state that is not after it, or the root of the vote state. *)
Definition overwrite_root vote_state (earliest_slot_hash_in_history : Slot)
    (proposed_root : option Slot) : option Slot :=
  match proposed_root with
  | Some root =>
      if root <? earliest_slot_hash_in_history then
        match list_find (λ vote, landed_slot vote ≤ root) (rev (landed_votes vote_state)) with
        | Some (_, vote) => Some (landed_slot vote)
        | None => vote_root_slot vote_state
        end
      else Some root
  | None => None
  end.

(** The variables of the loop of [check_and_filter_proposed_vote_state]. *)
Record Scan := {
  root_to_check : option Slot;
  proposed_lockouts_index : nat;
  slot_hashes_index : nat;
  proposed_lockouts_indices_to_filter : list nat;
}.

(** One iteration of the loop. *)
Definition scan_step vote_state (proposed_lockouts : list Lockout) slot_hashes
    (earliest_slot_hash_in_history : Slot) (s : Scan) : outcome (result Scan VoteError) :=
  let i := proposed_lockouts_index s in
  let j := slot_hashes_index s in
  let to_filter := proposed_lockouts_indices_to_filter s in
  proposed_vote_slot ← match root_to_check s with
    | Some root => Ret root
    | None => v ← unwrap (proposed_lockouts !! i); Ret (slot v)
    end;
  not_ordered ← (if negb (is_some (root_to_check s)) && (0 <? i)%nat then
                   v ← unwrap (proposed_lockouts !! (i - 1)%nat);
                   Ret (proposed_vote_slot <=? slot v)
                 else Ret false);
  if (not_ordered : bool) then Ret (Err SlotsNotOrdered)
  else
    ancestor ← unwrap (slot_hashes !! (j - 1)%nat);
    match proposed_vote_slot ?= ancestor.1 with
    | Lt =>
        if (j =? length slot_hashes)%nat then
          if earliest_slot_hash_in_history <=? proposed_vote_slot then Ret (Err AssertionFailed)
          else
            let to_filter :=
              if negb (contains_slot vote_state proposed_vote_slot) && negb (is_some (root_to_check s))
              then to_filter ++ [i] else to_filter in
            match root_to_check s with
            | Some new_proposed_root =>
                assert_ (new_proposed_root =? proposed_vote_slot) ;;
                if earliest_slot_hash_in_history <=? new_proposed_root
                then Ret (Err AssertionFailed)
                else Ret (Ok {| root_to_check := None; proposed_lockouts_index := i;
                                slot_hashes_index := j;
                                proposed_lockouts_indices_to_filter := to_filter |})
            | None =>
                Ret (Ok {| root_to_check := None; proposed_lockouts_index := S i;
                           slot_hashes_index := j;
                           proposed_lockouts_indices_to_filter := to_filter |})
            end
        else if is_some (root_to_check s) then Ret (Err RootOnDifferentFork)
        else Ret (Err SlotsMismatch)
    | Gt =>
        Ret (Ok {| root_to_check := root_to_check s; proposed_lockouts_index := i;
                   slot_hashes_index := (j - 1)%nat;
                   proposed_lockouts_indices_to_filter := to_filter |})
    | Eq =>
        match root_to_check s with
        | Some _ =>
            Ret (Ok {| root_to_check := None; proposed_lockouts_index := i;
                       slot_hashes_index := j;
                       proposed_lockouts_indices_to_filter := to_filter |})
        | None =>
            Ret (Ok {| root_to_check := None; proposed_lockouts_index := S i;
                       slot_hashes_index := (j - 1)%nat;
                       proposed_lockouts_indices_to_filter := to_filter |})
        end
    end.

Fixpoint scan (fuel : nat) vote_state (proposed_lockouts : list Lockout) slot_hashes
    (earliest_slot_hash_in_history : Slot) (s : Scan) : outcome (result Scan VoteError) :=
  if (proposed_lockouts_index s <? length proposed_lockouts)%nat && (0 <? slot_hashes_index s)%nat
  then
    match fuel with
    | O => OutOfFuel
    | S fuel =>
        s ←? scan_step vote_state proposed_lockouts slot_hashes earliest_slot_hash_in_history s;
        scan fuel vote_state proposed_lockouts slot_hashes earliest_slot_hash_in_history s
    end
  else Ret (Ok s).

(** The closure of [retain], from the [index]th lockout on. *)
Fixpoint retain (index filter_votes_index : nat) (to_filter : list nat) (lockouts : list Lockout)
    : outcome (list Lockout) :=
  match lockouts with
  | [] => Ret []
  | v :: lockouts =>
      '(should_retain, filter_votes_index) ←
        (if (filter_votes_index =? length to_filter)%nat then Ret (true, filter_votes_index)
         else
           k ← unwrap (to_filter !! filter_votes_index);
           if (index =? k)%nat then Ret (false, S filter_votes_index)
           else Ret (true, filter_votes_index));
      lockouts ← retain (S index) filter_votes_index to_filter lockouts;
      Ret (if (should_retain : bool) then v :: lockouts else lockouts)
  end.

(** [check_and_filter_proposed_vote_state]: the lockouts and the root that are
    left. Every iteration of the loop clears the root or moves an index. *)
Definition check_and_filter_proposed_vote_state vote_state (proposed_lockouts : list Lockout)
    (proposed_root : option Slot) (proposed_hash : Hash) slot_hashes
    : outcome (result (list Lockout * option Slot) VoteError) :=
  match last proposed_lockouts with
  | None => Ret (Err EmptySlots)
  | Some last_proposed =>
      let last_proposed_slot := slot last_proposed in
      if match last (landed_votes vote_state) with
         | Some v => last_proposed_slot <=? landed_slot v
         | None => false
         end
      then Ret (Err VoteTooOld)
      else match last slot_hashes with
      | None => Ret (Err SlotsMismatch)
      | Some (earliest_slot_hash_in_history, _) =>
          if last_proposed_slot <? earliest_slot_hash_in_history then Ret (Err VoteTooOld)
          else
            let proposed_root :=
              overwrite_root vote_state earliest_slot_hash_in_history proposed_root in
            s ←? scan (S (length proposed_lockouts + length slot_hashes)) vote_state
                   proposed_lockouts slot_hashes earliest_slot_hash_in_history
                   {| root_to_check := proposed_root; proposed_lockouts_index := 0;
                      slot_hashes_index := length slot_hashes;
                      proposed_lockouts_indices_to_filter := [] |};
            if negb (proposed_lockouts_index s =? length proposed_lockouts)%nat
            then Ret (Err SlotsMismatch)
            else
              entry ← unwrap (slot_hashes !! slot_hashes_index s);
              assert_ (last_proposed_slot =? entry.1) ;;
              if negb (entry.2 =? proposed_hash) then Ret (Err SlotHashMismatch)
              else
                lockouts ← retain 0 0 (proposed_lockouts_indices_to_filter s) proposed_lockouts;
                Ret (Ok (lockouts, proposed_root))
      end
  end.

(** The loop of [check_slots_are_valid]: the two indices at its end. *)
Fixpoint match_slots (fuel : nat) vote_state (slots : list Slot) slot_hashes (i j : nat)
    : outcome (nat * nat) :=
  if (i <? length slots)%nat && (0 <? j)%nat then
    match fuel with
    | O => OutOfFuel
    | S fuel =>
        s ← unwrap (slots !! i);
        if match vote_last_voted_slot vote_state with
           | Some last_voted_slot => s <=? last_voted_slot
           | None => false
           end
        then match_slots fuel vote_state slots slot_hashes (S i) j
        else
          h ← unwrap (slot_hashes !! (j - 1)%nat);
          if negb (s =? h.1) then match_slots fuel vote_state slots slot_hashes i (j - 1)
          else match_slots fuel vote_state slots slot_hashes (S i) (j - 1)
    end
  else Ret (i, j).

Definition check_slots_are_valid vote_state (slots : list Slot) (hash : Hash) slot_hashes
    : outcome (result unit VoteError) :=
  '(i, j) ← match_slots (length slots + length slot_hashes) vote_state slots slot_hashes
              0 (length slot_hashes);
  if (j =? length slot_hashes)%nat then Ret (Err VoteTooOld)
  else if negb (i =? length slots)%nat then Ret (Err SlotsMismatch)
  else
    h ← unwrap (slot_hashes !! j);
    if negb (h.2 =? hash) then Ret (Err SlotHashMismatch) else Ret (Ok tt).

(** ** A new tower in place of the current votes *)

Definition check_root (new_root current_root : option Slot) : result unit VoteError :=
  match new_root, current_root with
  | Some new_root, Some current_root => if new_root <? current_root then Err RootRollBack else Ok tt
  | None, Some _ => Err RootRollBack
  | _, _ => Ok tt
  end.

(** The loop over the proposed votes, after [previous_vote]. *)
Fixpoint check_new_state (new_root : option Slot) (previous_vote : option LandedVote)
    (new_state : list LandedVote) : result unit VoteError :=
  match new_state with
  | [] => Ok tt
  | vote :: new_state =>
      if landed_confirmations vote =? 0 then Err ZeroConfirmations
      else if MAX_LOCKOUT_HISTORY <? landed_confirmations vote then Err ConfirmationTooLarge
      else if match new_root with
              | Some new_root => (landed_slot vote <=? new_root) && negb (new_root =? 0)
              | None => false
              end
      then Err SlotSmallerThanRoot
      else
        match previous_vote with
        | Some previous_vote =>
            if landed_slot vote <=? landed_slot previous_vote then Err SlotsNotOrdered
            else if landed_confirmations previous_vote <=? landed_confirmations vote
            then Err ConfirmationsNotOrdered
            else if last_locked_out_slot (lockout previous_vote) <? landed_slot vote
            then Err NewVoteStateLockoutMismatch
            else check_new_state new_root (Some vote) new_state
        | None => check_new_state new_root (Some vote) new_state
        end
  end.

(** The loop over the votes the new root covers: how many, and what they earn. *)
Fixpoint count_rooted vote_state (new_root : Slot) (current : list LandedVote)
    (earned_credits : Z) (index : nat) : outcome (Z * nat) :=
  match current with
  | [] => Ret (earned_credits, index)
  | current_vote :: current =>
      if landed_slot current_vote <=? new_root then
        earned_credits ←
          add_ u64_MAX earned_credits (credits_for_vote_at_index vote_state index);
        count_rooted vote_state new_root current earned_credits (S index)
      else Ret (earned_credits, index)
  end.

Definition set_latency (n : Z) (v : LandedVote) : LandedVote :=
  {| latency := n; lockout := lockout v |}.

(** The loop that compares the votes from [current_vote_state_index] on with those
    of the new state: the new state, with the latencies of the votes in both. *)
Fixpoint merge_votes (fuel : nat) (current new_state : list LandedVote)
    (current_index new_index : nat) : outcome (result (list LandedVote) VoteError) :=
  if (current_index <? length current)%nat && (new_index <? length new_state)%nat then
    match fuel with
    | O => OutOfFuel
    | S fuel =>
        current_vote ← unwrap (current !! current_index);
        new_vote ← unwrap (new_state !! new_index);
        match landed_slot current_vote ?= landed_slot new_vote with
        | Lt =>
            if landed_slot new_vote <=? last_locked_out_slot (lockout current_vote)
            then Ret (Err LockoutConflict)
            else merge_votes fuel current new_state (S current_index) new_index
        | Eq =>
            if landed_confirmations new_vote <? landed_confirmations current_vote
            then Ret (Err ConfirmationRollBack)
            else merge_votes fuel current
                   (<[new_index := set_latency (latency current_vote) new_vote]> new_state)
                   (S current_index) (S new_index)
        | Gt => merge_votes fuel current new_state current_index (S new_index)
        end
    end
  else Ret (Ok new_state).

Definition fill_latency (current_slot : Slot) (new_vote : LandedVote) : LandedVote :=
  if latency new_vote =? 0
  then set_latency (compute_vote_latency (landed_slot new_vote) current_slot) new_vote
  else new_vote.

(** The votes of the new state, once all checks have passed. *)
Definition finalize_new_state vote_state (new_state : list LandedVote) (new_root : option Slot)
    (timestamp : option Z) (epoch : Z) (current_slot : Slot) (earned_credits : Z)
    : outcome (result unit VoteError * VoteState R) :=
  let new_state := fill_latency current_slot <$> new_state in
  let vote_state :=
    if bool_decide (vote_root_slot vote_state = new_root) then vote_state
    else increment_credits epoch earned_credits vote_state in
  '(r, vote_state) ← match timestamp with
    | Some timestamp =>
        v ← unwrap (last new_state);
        Ret (process_timestamp (landed_slot v) timestamp vote_state)
    | None => Ret (Ok tt, vote_state)
    end;
  match r with
  | Err e => Ret (Err e, vote_state)
  | Ok _ => Ret (Ok tt, set_votes_and_root new_state new_root vote_state)
  end.

Definition process_new_vote_state vote_state (new_state : list LandedVote)
    (new_root : option Slot) (timestamp : option Z) (epoch : Z) (current_slot : Slot)
    : outcome (result unit VoteError * VoteState R) :=
  assert_ (negb (bool_decide (new_state = []))) ;;
  if MAX_LOCKOUT_HISTORY <? Z.of_nat (length new_state) then Ret (Err TooManyVotes, vote_state)
  else match check_root new_root (vote_root_slot vote_state) with
  | Err e => Ret (Err e, vote_state)
  | Ok _ =>
      match check_new_state new_root None new_state with
      | Err e => Ret (Err e, vote_state)
      | Ok _ =>
          '(earned_credits, current_index) ← match new_root with
            | Some new_root => count_rooted vote_state new_root (landed_votes vote_state) 0 0
            | None => Ret (0, 0%nat)
            end;
          merged ← merge_votes (length (landed_votes vote_state) + length new_state)
                     (landed_votes vote_state) new_state current_index 0;
          match merged with
          | Err e => Ret (Err e, vote_state)
          | Ok new_state =>
              finalize_new_state vote_state new_state new_root timestamp epoch current_slot
                earned_credits
          end
      end
  end.

(** ** The instructions *)

Definition process_vote_unfiltered vote_state (slots : list Slot) (vote : Vote) slot_hashes
    (epoch : Z) (current_slot : Slot) : outcome (result unit VoteError * VoteState R) :=
  r ← check_slots_are_valid vote_state slots (vote_hash vote) slot_hashes;
  match r with
  | Err e => Ret (Err e, vote_state)
  | Ok _ => Ret (Ok tt, fold_left (λ vs s, vote_process_next_vote_slot s epoch current_slot vs)
                          slots vote_state)
  end.

Definition process_vote vote_state (vote : Vote) slot_hashes (epoch : Z) (current_slot : Slot)
    : outcome (result unit VoteError * VoteState R) :=
  if bool_decide (vote_slots vote = []) then Ret (Err EmptySlots, vote_state)
  else
    let earliest_slot_in_history := default 0 (fst <$> last slot_hashes) in
    let slots := filter (λ s, earliest_slot_in_history ≤ s) (vote_slots vote) in
    if bool_decide (slots = []) then Ret (Err VotesTooOldAllFiltered, vote_state)
    else process_vote_unfiltered vote_state slots vote slot_hashes epoch current_slot.

Definition process_vote_unchecked vote_state (vote : Vote)
    : outcome (result unit VoteError * VoteState R) :=
  if bool_decide (vote_slots vote = []) then Ret (Err EmptySlots, vote_state)
  else
    let slot_hashes := (λ x, (x, vote_hash vote)) <$> rev (vote_slots vote) in
    process_vote_unfiltered vote_state (vote_slots vote) vote slot_hashes
      (current_epoch vote_state) 0.

(** [do_process_tower_sync], and [do_process_vote_state_update], which is the same
    code on the same fields. *)
Definition do_process_tower_sync vote_state slot_hashes (epoch : Z) (current_slot : Slot)
    (tower_sync : TowerSync) : outcome (result unit VoteError * VoteState R) :=
  r ← check_and_filter_proposed_vote_state vote_state (sync_lockouts tower_sync)
        (sync_root tower_sync) (sync_hash tower_sync) slot_hashes;
  match r with
  | Err e => Ret (Err e, vote_state)
  | Ok (lockouts, root) =>
      process_new_vote_state vote_state (landed_from <$> lockouts) root
        (sync_timestamp tower_sync) epoch current_slot
  end.

End program.
End VoteProgram.
