(* ===== verification/VoteScan.v ===== *)
(** The scan of a proposed tower against the slot hashes: it accepts exactly the
    proposals whose root and slots are on the fork the hashes describe. *)

From S2P Require Import Prelude VoteInterface VoteState.

Import VoteProgram.

(** * Removing the votes at given indices *)

(** The indices, from [i] on, of the elements that do not satisfy [P]. *)
Fixpoint indices_without {A} (P : A → Prop) `{∀ x, Decision (P x)} (i : nat) (l : list A) : list nat :=
  match l with
  | [] => []
  | x :: l => if decide (P x) then indices_without P (S i) l else i :: indices_without P (S i) l
  end.

Lemma indices_without_ge {A} (P : A → Prop) `{∀ x, Decision (P x)} (l : list A) i k :
  k ∈ indices_without P i l → (i ≤ k)%nat.
Proof.
  revert i. induction l as [|x l IH]; intros i; simpl; [set_solver|].
  case_decide; [intros ?%IH; lia|]. intros [->|?%IH]%elem_of_cons; lia.
Qed.

Lemma retain_spec (P : Lockout → Prop) `{∀ x, Decision (P x)} (l : list Lockout) i k F :
  (k ≤ length F)%nat → drop k F = indices_without P i l → retain i k F l = Ret (filter P l).
Proof.
  revert i k. induction l as [|v l IH]; intros i k Hk HF; [done|].
  cbn [retain indices_without] in *. rewrite filter_cons.
  destruct (decide (k = length F)) as [->|Hne].
  - rewrite Nat.eqb_refl. simpl. rewrite drop_all in HF. case_decide; [|done].
    by rewrite (IH (S i) (length F)) by (rewrite ?drop_all; done).
  - rewrite (proj2 (Nat.eqb_neq _ _)) by done.
    destruct (lookup_lt_is_Some_2 F k) as [x Hx]; [lia|]. rewrite Hx. simpl.
    rewrite (drop_S _ _ _ Hx) in HF. case_decide.
    + assert (i < x)%nat as Hlt.
      { apply (indices_without_ge P l (S i)). rewrite <-HF. by left. }
      rewrite (proj2 (Nat.eqb_neq _ _)) by lia. simpl.
      rewrite (IH (S i) k); [done|done|]. by rewrite (drop_S _ _ _ Hx).
    + injection HF as -> HF. rewrite Nat.eqb_refl. simpl.
      rewrite (IH (S i) (S k)); [done|lia|done].
Qed.

(** * The scan *)

Section scan.
Context {R : Type} `{LockoutApi, VoteLaws R}.
Context (vote_state : VoteState R) (L : list Lockout) (hs : list (Slot * Hash)) (e : Slot).
Context (Hsorted : StronglySorted Z.gt hs.*1) (Hlast : fst <$> last hs = Some e).
Implicit Types (s : Scan).

Definition known (x : Slot) : Prop := x ∈ landed_slot <$> landed_votes vote_state.

(** A lockout stays in the proposal when the hashes or the vote state have it. *)
Definition relevant (v : Lockout) : Prop := e ≤ slot v ∨ known (slot v).

(** The slots the scan still has in front of it. *)
Definition ahead (j : nat) : list Slot := take j hs.*1.

Definition ordered_from (i : nat) : Prop :=
  ∀ k v w, (i ≤ S k)%nat → L !! k = Some v → L !! S k = Some w → slot v < slot w.

(** What makes a scan from [s] succeed. *)
Definition Acc s : Prop :=
  let j := slot_hashes_index s in
  ordered_from (proposed_lockouts_index s) ∧
  match root_to_check s with
  | None =>
      ∀ v, v ∈ drop (proposed_lockouts_index s) L →
        slot v ∈ ahead j ∨ (j = length hs ∧ slot v < e)
  | Some r =>
      (r ∈ ahead j ∨ (j = length hs ∧ r < e)) ∧
      ∀ v, v ∈ drop (proposed_lockouts_index s) L →
        (slot v ∈ ahead j ∧ r ≤ slot v) ∨ (r ≤ e ∧ j = length hs ∧ slot v < e)
  end.

Definition remaining s : nat :=
  (if is_some (root_to_check s) then 1 else 0) + (length L - proposed_lockouts_index s) + slot_hashes_index s.

Record Inv s : Prop := {
  inv_index : (slot_hashes_index s ≤ length hs)%nat;
  inv_root : root_to_check s ≠ None → proposed_lockouts_index s = 0%nat;
}.

Lemma ahead_S j a : hs.*1 !! j = Some a → ahead (S j) = ahead j ++ [a].
Proof. intros Ha. unfold ahead. by apply take_S_r. Qed.

Lemma ahead_gt j a x : hs.*1 !! j = Some a → x ∈ ahead j → a < x.
Proof.
  intros Ha Hx. apply Z.gt_lt. rewrite <-(take_drop j hs.*1) in Hsorted.
  eapply (StronglySorted_app_1_elem_of Z.gt); [exact Hsorted|exact Hx|].
  rewrite (drop_S _ _ _ Ha). by left.
Qed.

Lemma earliest_le j a : hs.*1 !! j = Some a → e ≤ a.
Proof.
  intros Ha. apply list_elem_of_lookup_2 in Ha. rewrite <-fmap_last in Hlast.
  apply last_Some in Hlast as [l Hl]. rewrite Hl in Ha, Hsorted.
  apply elem_of_app in Ha as [Ha| ->%list_elem_of_singleton]; [|lia].
  apply Z.lt_le_incl, Z.gt_lt. eapply (StronglySorted_app_1_elem_of Z.gt); [exact Hsorted|done|by left].
Qed.

Lemma earliest_last a j : hs.*1 !! j = Some a → S j = length hs → a = e.
Proof.
  intros Ha Hj. rewrite <-fmap_last, last_lookup, length_fmap, <-Hj in Hlast. simpl in Hlast. congruence.
Qed.

Lemma ordered_le i v w : ordered_from (S i) → L !! i = Some v → w ∈ drop i L → slot v ≤ slot w.
Proof.
  intros Ho Hv (k & Hk)%list_elem_of_lookup. rewrite lookup_drop in Hk. revert w Hk.
  induction k as [|k IH]; intros w Hk.
  - rewrite Nat.add_0_r in Hk. assert (v = w) as -> by congruence. lia.
  - destruct (lookup_lt_is_Some_2 L (i + k)) as [u Hu].
    { apply lookup_lt_Some in Hk. lia. }
    pose proof (IH u Hu). rewrite Nat.add_succ_r in Hk.
    pose proof (Ho (i + k)%nat u w ltac:(lia) Hu Hk). lia.
Qed.
#[global] Instance relevant_dec v : Decision (relevant v).
Proof. unfold relevant, known. apply _. Defined.

(** The indices the loop has still to filter out, after those it has. *)
Definition filtered s : list nat :=
  proposed_lockouts_indices_to_filter s ++
  indices_without relevant (proposed_lockouts_index s) (drop (proposed_lockouts_index s) L).

(** The lockout at [i] was passed: it is too old, or it is the entry at [j]. *)
Definition passed (i j : nat) : Prop :=
  ∃ v, L !! i = Some v ∧ (slot v < e ∨ ∃ h, hs !! j = Some (slot v, h)).

(** How one iteration moves the scan. *)
Record Step s s' : Prop := {
  step_inv : Inv s';
  step_remaining : (remaining s' < remaining s)%nat;
  step_acc : Acc s ↔ Acc s';
  step_filtered : filtered s' = filtered s;
  step_index : proposed_lockouts_index s' = proposed_lockouts_index s ∨
    (proposed_lockouts_index s' = S (proposed_lockouts_index s) ∧
     passed (proposed_lockouts_index s) (slot_hashes_index s'));
}.

Definition StepResult s (r : result Scan VoteError) : Prop :=
  match r with Ok s' => Step s s' | Err _ => ¬ Acc s end.

Lemma ahead_S_iff j a x : hs.*1 !! j = Some a → a < x → x ∈ ahead (S j) ↔ x ∈ ahead j.
Proof. intros Ha Hx. rewrite (ahead_S _ _ Ha), elem_of_app, list_elem_of_singleton. naive_solver lia. Qed.

Lemma ahead_S_ge j a x : hs.*1 !! j = Some a → x ∈ ahead (S j) → a ≤ x.
Proof.
  intros Ha. rewrite (ahead_S _ _ Ha), elem_of_app, list_elem_of_singleton.
  intros [Hx%(ahead_gt _ _ _ Ha)| ->]; lia.
Qed.

Lemma ahead_S_here j a : hs.*1 !! j = Some a → a ∈ ahead (S j).
Proof. intros Ha. rewrite (ahead_S _ _ Ha), elem_of_app, list_elem_of_singleton. auto. Qed.

(** An iteration that looks at the root. *)
Lemma scan_step_root r j F a h :
  L ≠ [] → (S j ≤ length hs)%nat → hs !! j = Some (a, h) →
  ∃ res, scan_step vote_state L hs e {| root_to_check := Some r; proposed_lockouts_index := 0;
           slot_hashes_index := S j; proposed_lockouts_indices_to_filter := F |} = Ret res ∧
    StepResult {| root_to_check := Some r; proposed_lockouts_index := 0;
           slot_hashes_index := S j; proposed_lockouts_indices_to_filter := F |} res.
Proof.
  intros HL Hj Ha. assert (hs.*1 !! j = Some a) as Ha1 by (by rewrite list_lookup_fmap, Ha).
  pose proof (earliest_le _ _ Ha1). unfold scan_step.
  cbn -[length Nat.eqb Z.compare negb is_some]. rewrite Nat.sub_0_r, Ha. cbn -[length Nat.eqb Z.compare].
  destruct (Z.compare_spec r a) as [->|Hlt|Hgt].
  - eexists; split; [done|]. constructor; [by constructor|unfold remaining; simpl; lia| |done|by left].
    unfold Acc; cbn -[length]. apply and_iff_compat_l. split.
    + intros [_ Hv] v [[? _]|(? & ? & ?)]%Hv; auto.
    + intros Hv. split; [left; by apply ahead_S_here|]. intros v Hin.
      destruct (Hv v Hin) as [Hah|[Hl ?]]; [left; eauto using ahead_S_ge|right].
      rewrite (earliest_last _ _ Ha1 Hl). split_and!; [lia|done..].
  - destruct (Nat.eqb_spec (S j) (length hs)) as [Hl|Hl].
    + rewrite (earliest_last _ _ Ha1 Hl) in Hlt.
      rewrite (proj2 (Z.leb_gt _ _)), Z.eqb_refl by done. rewrite andb_false_r.
      eexists; split; [done|]. constructor; [by constructor|unfold remaining; simpl; lia| |done|by left].
      unfold Acc; cbn -[length]. apply and_iff_compat_l. split.
      * intros [_ Hv] v [[? _]|(? & ? & ?)]%Hv; auto.
      * intros Hv. split; [by right|]. intros v [Hah|?]%Hv; [left|right; split; [lia|done]].
        split; [done|]. pose proof (ahead_S_ge _ _ _ Ha1 Hah). lia.
    + eexists; split; [done|]. intros (_ & [Hr|[? _]] & _); [|done].
      pose proof (ahead_S_ge _ _ _ Ha1 Hr). simpl in *. lia.
  - eexists; split; [done|]. constructor; [constructor; simpl; [lia|done]|unfold remaining; simpl; lia| |done|by left].
    unfold Acc; cbn -[length]. apply and_iff_compat_l. rewrite (ahead_S_iff _ _ _ Ha1 Hgt). split.
    + intros [Hr Hv]. split; [destruct Hr; [by left|lia]|]. intros v [[? ?]|?]%Hv; [left|lia].
      split; [|done]. apply (ahead_S_iff _ _ _ Ha1); [lia|done].
    + intros [Hr Hv]. split; [destruct Hr; [by left|lia]|]. intros v [[? ?]|?]%Hv; [left|lia].
      split; [|done]. apply (ahead_S_iff _ _ _ Ha1); [lia|done].
Qed.
Lemma ordered_from_S i v :
  L !! i = Some v → (∀ u, (0 < i)%nat → L !! (i - 1)%nat = Some u → slot u < slot v) →
  ordered_from i ↔ ordered_from (S i).
Proof.
  intros Hv Hp. split; intros Ho k u w Hk Hu Hw; [apply (Ho k); [lia|done..]|].
  destruct (decide (S k = i)) as [<-|]; [|apply (Ho k); [lia|done..]].
  assert (w = v) as -> by congruence. apply Hp; [lia|]. by rewrite Nat.sub_succ, Nat.sub_0_r.
Qed.

Lemma drop_cons i v w : L !! i = Some v → w ∈ drop i L ↔ w = v ∨ w ∈ drop (S i) L.
Proof. intros Hv. by rewrite (drop_S _ _ _ Hv), elem_of_cons. Qed.

(** Moving on to the next lockout, or past a hash that is older. *)
Lemma Acc_next i j j' F F' v :
  L !! i = Some v → (∀ u, (0 < i)%nat → L !! (i - 1)%nat = Some u → slot u < slot v) →
  (slot v ∈ ahead j ∨ (j = length hs ∧ slot v < e)) →
  (∀ w, slot v < slot w →
     slot w ∈ ahead j ∨ (j = length hs ∧ slot w < e) ↔
     slot w ∈ ahead j' ∨ (j' = length hs ∧ slot w < e)) →
  Acc {| root_to_check := None; proposed_lockouts_index := i; slot_hashes_index := j;
         proposed_lockouts_indices_to_filter := F |} ↔
  Acc {| root_to_check := None; proposed_lockouts_index := S i; slot_hashes_index := j';
         proposed_lockouts_indices_to_filter := F' |}.
Proof.
  intros Hv Hp Hhere Hiff. unfold Acc; simpl. rewrite (ordered_from_S _ _ Hv Hp).
  assert (∀ w, ordered_from (S i) → w ∈ drop (S i) L → slot v < slot w) as Hlt.
  { intros w Ho Hw. destruct (L !! S i) as [u|] eqn:Hu.
    - assert (ordered_from (S (S i))) by (intros k ? ? ?; apply Ho; lia).
      pose proof (ordered_le (S i) u w ltac:(done) Hu Hw).
      pose proof (Ho i v u ltac:(lia) Hv Hu). lia.
    - rewrite drop_ge in Hw by (by apply lookup_ge_None). set_solver. }
  split; intros [Ho Hall]; (split; [done|]); intros w Hw.
  - apply Hiff; [by apply Hlt|]. apply Hall. rewrite (drop_cons _ _ _ Hv). by right.
  - apply (drop_cons _ _ _ Hv) in Hw as [->|Hw]; [done|]. apply Hiff; [by apply Hlt|]. by apply Hall.
Qed.

Lemma Acc_older i j F v a :
  L !! i = Some v → (∀ u, (0 < i)%nat → L !! (i - 1)%nat = Some u → slot u < slot v) →
  hs.*1 !! j = Some a → a < slot v →
  Acc {| root_to_check := None; proposed_lockouts_index := i; slot_hashes_index := S j;
         proposed_lockouts_indices_to_filter := F |} ↔
  Acc {| root_to_check := None; proposed_lockouts_index := i; slot_hashes_index := j;
         proposed_lockouts_indices_to_filter := F |}.
Proof.
  intros Hv Hp Ha Hlt. unfold Acc; simpl. pose proof (earliest_le _ _ Ha).
  apply lookup_lt_Some in Ha as Hj. rewrite length_fmap in Hj.
  split; intros [Ho Hall]; (split; [done|]); intros w Hw;
    (assert (slot v ≤ slot w) by
      (eapply ordered_le; [by apply (ordered_from_S _ _ Hv Hp)|done..]));
    pose proof (ahead_S_iff _ _ (slot w) Ha ltac:(lia)); specialize (Hall w Hw); naive_solver lia.
Qed.

Lemma filtered_next i j j' F v F' :
  L !! i = Some v → F' = (if decide (relevant v) then F else F ++ [i]) →
  filtered {| root_to_check := None; proposed_lockouts_index := S i; slot_hashes_index := j';
              proposed_lockouts_indices_to_filter := F' |} =
  filtered {| root_to_check := None; proposed_lockouts_index := i; slot_hashes_index := j;
              proposed_lockouts_indices_to_filter := F |}.
Proof.
  intros Hv ->. unfold filtered. cbn [proposed_lockouts_index proposed_lockouts_indices_to_filter].
  rewrite (drop_S _ _ _ Hv). cbn [indices_without]. case_decide; [done|]. by rewrite <-app_assoc.
Qed.

(** An iteration that looks at a lockout. *)
Lemma scan_step_lockout i j F a h v :
  L !! i = Some v → (S j ≤ length hs)%nat → hs !! j = Some (a, h) →
  ∃ res, scan_step vote_state L hs e {| root_to_check := None; proposed_lockouts_index := i;
           slot_hashes_index := S j; proposed_lockouts_indices_to_filter := F |} = Ret res ∧
    StepResult {| root_to_check := None; proposed_lockouts_index := i;
           slot_hashes_index := S j; proposed_lockouts_indices_to_filter := F |} res.
Proof.
  intros Hv Hj Ha. assert (hs.*1 !! j = Some a) as Ha1 by (by rewrite list_lookup_fmap, Ha).
  pose proof (earliest_le _ _ Ha1) as He. pose proof (lookup_lt_Some _ _ _ Hv) as Hi.
  unfold scan_step. cbn -[length Nat.eqb Nat.ltb Z.compare]. rewrite Hv. cbn -[length Nat.eqb Nat.ltb Z.compare].
  set (nord := if (0 <? i)%nat then _ else _).
  assert (∃ b, nord = Ret b ∧ if b then ∃ u, (0 < i)%nat ∧ L !! (i - 1)%nat = Some u ∧ slot v ≤ slot u
     else ∀ u, (0 < i)%nat → L !! (i - 1)%nat = Some u → slot u < slot v) as (b & -> & Hb).
  { unfold nord. destruct (Nat.ltb_spec 0 i); [|exists false; split; [done|lia]].
    destruct (lookup_lt_is_Some_2 L (i - 1)) as [u Hu]; [lia|]. rewrite Hu. simpl.
    eexists; split; [done|]. case_leb; [by exists u|]. intros ? _ [= <-]. lia. }
  destruct b; cbn -[length Nat.eqb Z.compare].
  { eexists; split; [done|]. destruct Hb as (u & ? & Hu & ?). intros [Ho _]. simpl in Ho.
    pose proof (Ho (i - 1)%nat u v ltac:(lia) Hu) as Hlt.
    replace (S (i - 1)) with i in Hlt by lia. specialize (Hlt Hv). lia. }
  rewrite Nat.sub_0_r, Ha. cbn -[length Nat.eqb Z.compare].
  destruct (Z.compare_spec (slot v) a) as [Heq|Hlt|Hgt].
  - eexists; split; [done|]. constructor.
    + constructor; simpl; [lia|done].
    + unfold remaining; simpl. lia.
    + apply (Acc_next _ _ _ _ _ v); [done..|left; rewrite Heq; by apply ahead_S_here|].
      intros w Hw. rewrite (ahead_S_iff _ _ _ Ha1) by lia. naive_solver lia.
    + apply (filtered_next _ _ _ _ v); [done|]. rewrite decide_True; [done|]. left. lia.
    + right. split; [done|]. exists v. split; [done|]. right. exists h. simpl. by rewrite Heq.
  - destruct (Nat.eqb_spec (S j) (length hs)) as [Hl|Hl].
    + rewrite (earliest_last _ _ Ha1 Hl) in Hlt. rewrite (proj2 (Z.leb_gt _ _)) by done.
      eexists; split; [done|]. constructor; [by constructor|unfold remaining; simpl; lia| | |].
      * apply (Acc_next _ _ _ _ _ v); [done..|by right|done].
      * apply (filtered_next _ _ _ _ v); [done|]. rewrite andb_true_r.
        destruct (contains_slot vote_state (slot v)) eqn:Hc.
        -- apply contains_slot_spec in Hc. rewrite decide_True; [done|by right].
        -- rewrite decide_False; [done|]. intros [?|Hk%contains_slot_spec]; [lia|congruence].
      * right. split; [done|]. exists v. split; [done|]. by left.
    + eexists; split; [done|]. intros [_ Hall]. destruct (Hall v) as [Hr|[? _]]; [| |done].
      * simpl. rewrite (drop_cons _ _ _ Hv). by left.
      * pose proof (ahead_S_ge _ _ _ Ha1 Hr). lia.
  - eexists; split; [done|]. constructor; [constructor; simpl; [lia|done]|unfold remaining; simpl; lia| |done|by left].
    by apply (Acc_older _ _ _ v a).
Qed.

(** * The whole loop *)

Definition ScanResult s (res : result Scan VoteError) : Prop :=
  match res with
  | Err _ => ¬ Acc s
  | Ok s' =>
      if decide (proposed_lockouts_index s' = length L) then
        Acc s ∧ proposed_lockouts_indices_to_filter s' = filtered s ∧
        passed (length L - 1) (slot_hashes_index s')
      else ¬ Acc s
  end.

Lemma scan_step_spec s :
  Inv s → (proposed_lockouts_index s < length L)%nat → (0 < slot_hashes_index s)%nat →
  ∃ res, scan_step vote_state L hs e s = Ret res ∧ StepResult s res.
Proof.
  intros [Hle Hr] Hi Hj. destruct s as [r i j F]; simpl in *. destruct j as [|j]; [lia|].
  destruct (lookup_lt_is_Some_2 hs j) as [[a h] Ha]; [lia|].
  destruct r as [r|].
  - rewrite Hr by done. eapply scan_step_root; [|lia|done]. intros ->. simpl in Hi. lia.
  - destruct (lookup_lt_is_Some_2 L i Hi) as [v Hv]. by eapply scan_step_lockout.
Qed.

Lemma scan_end fuel s :
  proposed_lockouts_index s = length L → scan fuel vote_state L hs e s = Ret (Ok s).
Proof.
  intros Hi. destruct fuel; cbn [scan]; by rewrite (proj2 (Nat.ltb_ge _ _)) by lia.
Qed.

Lemma Acc_end s : L ≠ [] → Inv s → proposed_lockouts_index s = length L → Acc s.
Proof.
  intros HL [_ Hr] Hi. unfold Acc. rewrite Hi. split.
  - intros k v w Hk _ Hw%lookup_lt_Some. lia.
  - destruct (root_to_check s); [|rewrite drop_all; set_solver].
    destruct L; [done|]. simpl in *. rewrite Hr in Hi; done.
Qed.

Lemma Acc_exhausted s :
  (proposed_lockouts_index s < length L)%nat → slot_hashes_index s = 0%nat → hs ≠ [] → ¬ Acc s.
Proof.
  intros Hi Hj Hne [_ Hall]. rewrite Hj in Hall.
  destruct (lookup_lt_is_Some_2 L _ Hi) as [v Hv].
  assert (v ∈ drop (proposed_lockouts_index s) L) as Hin by (rewrite (drop_cons _ _ _ Hv); by left).
  assert (0%nat ≠ length hs) by (destruct hs; simpl; [done|lia]).
  destruct (root_to_check s); [destruct Hall as [_ Hall]|];
    specialize (Hall v Hin); unfold ahead in Hall; simpl in Hall; set_solver.
Qed.

Lemma scan_spec fuel s :
  Inv s → (remaining s ≤ fuel)%nat → (proposed_lockouts_index s < length L)%nat →
  ∃ res, scan fuel vote_state L hs e s = Ret res ∧ ScanResult s res.
Proof.
  revert s. induction fuel as [|fuel IH]; intros s Hinv Hfuel Hi.
  { unfold remaining in Hfuel. lia. }
  cbn [scan]. rewrite (proj2 (Nat.ltb_lt _ _)) by done. cbn [andb].
  destruct (Nat.ltb_spec 0 (slot_hashes_index s)) as [Hj|Hj].
  - destruct (scan_step_spec s Hinv Hi Hj) as ([s'|er] & -> & Hst); [|by eexists].
    destruct Hst as [Hinv' Hleft Hacc Hfil Hidx]. rewrite try_Ok.
    destruct (decide (proposed_lockouts_index s' = length L)) as [Hend|Hend].
    + rewrite scan_end by done. eexists; split; [done|]. unfold ScanResult. rewrite decide_True by done.
      split_and!.
      * apply Hacc, Acc_end; [|done|done]. intros ->. simpl in Hi. lia.
      * rewrite <-Hfil. unfold filtered. rewrite Hend, drop_all. by rewrite app_nil_r.
      * destruct Hidx as [?|[Hx Hp]]; [lia|]. by replace (length L - 1)%nat with (proposed_lockouts_index s) by lia.
    + destruct (IH s' Hinv') as (res & -> & Hres); [lia|destruct Hidx as [?|[? _]]; lia|].
      eexists; split; [done|]. unfold ScanResult in *. rewrite <-Hfil.
      destruct res as [s2|]; [case_decide|]; by rewrite Hacc.
  - eexists. split; [done|]. unfold ScanResult. rewrite decide_False by lia.
    apply Acc_exhausted; [done|lia|]. intros ->. done.
Qed.

End scan.
