(* ===== verification/VoteStateProps.v ===== *)
(** What the vote program accepts and what it does to a vote account: the checks
    of a proposed tower, the replacement of the current votes, and the two put
    together for a tower that a validator built with [process_next_vote_slot]. *)

From S2P Require Import Prelude VoteInterface LockoutProps VoteState VoteScan.

Import VoteProgram.

(** * Proposals that are on the fork of the slot hashes *)

Section check.
Context {R : Type} `{LockoutLaws, VoteLaws R}.
Implicit Types (vs : VoteState R) (L : list Lockout) (hs : list (Slot * Hash)).

(** The proposal is newer than the vote state, in order, and every slot of it
    that the hashes reach back to is a slot of the fork they describe; a root
    above the oldest hash is a slot of the fork too, and below the lockouts. *)
Record OnFork vs L (root : option Slot) (hash : Hash) hs (e : Slot) : Prop := {
  on_fork_last : ∃ top, last L = Some top ∧ (slot top, hash) ∈ hs ∧
    ∀ v, last (landed_votes vs) = Some v → landed_slot v < slot top;
  on_fork_sorted : StronglySorted Z.lt (slot <$> L);
  on_fork_slots : ∀ v, v ∈ L → e ≤ slot v → slot v ∈ hs.*1;
  on_fork_root : ∀ r, root = Some r → e ≤ r → r ∈ hs.*1;
  on_fork_above : ∀ r v, root = Some r → e < r → v ∈ L → r ≤ slot v;
}.

Lemma ordered_from_sorted L : ordered_from L 0 ↔ StronglySorted Z.lt (slot <$> L).
Proof.
  split.
  - intros Ho. apply Sorted_StronglySorted; [intros x y z; lia|].
    induction L as [|v L IH]; simpl; constructor.
    + apply IH. intros k u w _ Hu Hw. apply (Ho (S k)); [lia|done..].
    + destruct L as [|w L]; simpl; constructor. by apply (Ho 0%nat v w); [lia|..].
  - intros Hs k v w _ Hv Hw.
    rewrite <-(take_drop (S k) L), fmap_app in Hs.
    eapply (StronglySorted_app_1_elem_of Z.lt); [exact Hs|apply list_elem_of_fmap_2..].
    + apply list_elem_of_lookup. exists k. rewrite lookup_take_lt by lia. done.
    + rewrite (drop_S _ _ _ Hw). by left.
Qed.

Definition scan_start (root : option Slot) hs : Scan :=
  {| root_to_check := root; proposed_lockouts_index := 0; slot_hashes_index := length hs;
     proposed_lockouts_indices_to_filter := [] |}.

Lemma Acc_start L root hs e :
  fst <$> last hs = Some e →
  Acc L hs e (scan_start root hs) ↔
  StronglySorted Z.lt (slot <$> L) ∧ (∀ v, v ∈ L → e ≤ slot v → slot v ∈ hs.*1) ∧
  (∀ r, root = Some r → e ≤ r → r ∈ hs.*1) ∧
  (∀ r v, root = Some r → e < r → v ∈ L → r ≤ slot v).
Proof.
  intros He. unfold Acc, scan_start; simpl. rewrite ordered_from_sorted, drop_0.
  apply and_iff_compat_l. unfold ahead. rewrite take_ge by (by rewrite length_fmap).
  destruct root as [r|].
  - split.
    + intros [Hr Hv]. split_and!.
      * intros v Hin. destruct (Hv v Hin) as [[? _]|(? & ? & ?)]; [done|lia].
      * intros ? [= <-] ?. destruct Hr as [|[]]; [done|lia].
      * intros ? v [= <-] ? Hin. destruct (Hv v Hin) as [[_ ?]|(? & ? & ?)]; [done|lia].
    + intros (Hv & Hr & Hab). split.
      * destruct (Z.le_gt_cases e r); [left; by apply Hr|by right].
      * intros v Hin. destruct (Z.le_gt_cases e (slot v)); [left|right].
        -- split; [by apply Hv|]. destruct (Z.le_gt_cases r e); [lia|by apply Hab].
        -- split_and!; [|done..]. destruct (Z.le_gt_cases r e); [done|].
           pose proof (Hab r v eq_refl ltac:(lia) Hin). lia.
  - split.
    + intros Hv. split_and!; [|done..]. intros v Hin. destruct (Hv v Hin) as [|[]]; [done|lia].
    + intros (Hv & _) v Hin. destruct (Z.le_gt_cases e (slot v)); [left; by apply Hv|by right].
Qed.

Lemma sorted_assoc hs s h h' :
  StronglySorted Z.gt hs.*1 → (s, h) ∈ hs → (s, h') ∈ hs → h = h'.
Proof.
  induction hs as [|[s0 h0] hs IH]; [set_solver|]. intros [Hs Hd]%StronglySorted_inv.
  rewrite Forall_forall in Hd. intros [[= -> ->]|Hin]%elem_of_cons [[= ]|Hin']%elem_of_cons;
    [done| | |by apply IH].
  - pose proof (Hd s0 (list_elem_of_fmap_2 fst _ _ Hin')). simpl in *. lia.
  - subst. pose proof (Hd s0 (list_elem_of_fmap_2 fst _ _ Hin)). simpl in *. lia.
Qed.

Definition CheckResult vs L root hash hs (res : result (list Lockout * option Slot) VoteError) : Prop :=
  ∀ out, res = Ok out ↔
    ∃ e, fst <$> last hs = Some e ∧ OnFork vs L (overwrite_root vs e root) hash hs e ∧
      out = (filter (relevant vs e) L, overwrite_root vs e root).
Lemma check_scanned vs L root hash hs e top :
  StronglySorted Z.gt hs.*1 → fst <$> last hs = Some e → last L = Some top → e ≤ slot top →
  (∀ v, last (landed_votes vs) = Some v → landed_slot v < slot top) →
  ∃ res,
    (s ←? scan (S (length L + length hs)) vs L hs e (scan_start (overwrite_root vs e root) hs);
     if negb (proposed_lockouts_index s =? length L)%nat then Ret (Err SlotsMismatch)
     else
       entry ← unwrap (hs !! slot_hashes_index s);
       assert_ (slot top =? entry.1) ;;
       if negb (entry.2 =? hash) then Ret (Err SlotHashMismatch)
       else
         lockouts ← retain 0 0 (proposed_lockouts_indices_to_filter s) L;
         Ret (Ok (lockouts, overwrite_root vs e root))) = Ret res ∧
    CheckResult vs L root hash hs res.
Proof.
  intros Hs He Htop Hle Hnew. pose proof (Acc_start L (overwrite_root vs e root) hs e He) as Hacc.
  assert (0 < length L)%nat by (destruct L; [done|simpl; lia]).
  destruct (scan_spec vs L hs e Hs He (S (length L + length hs))
    (scan_start (overwrite_root vs e root) hs)) as (res & -> & Hres).
  { by constructor. }
  { unfold remaining, scan_start; cbn -[length]. destruct (is_some _); lia. }
  { done. }
  assert (¬ Acc L hs e (scan_start (overwrite_root vs e root) hs) → ∀ er,
    CheckResult vs L root hash hs (Err er)) as Hno.
  { intros Hn er out. split; [done|]. intros (e' & He' & [] & _). assert (e' = e) as -> by congruence.
    by destruct Hn; apply Hacc. }
  destruct res as [s|er]; simpl in *; [|eexists; split; [done|by apply Hno]]. unfold ScanResult in Hres.
  case_decide as Hi; [|rewrite (proj2 (Nat.eqb_neq _ _)) by done; eexists; split; [done|by apply Hno]].
  rewrite Hi, Nat.eqb_refl. simpl. destruct Hres as (HA & HF & v & Hv & Hpass).
  rewrite last_lookup, <-Nat.sub_1_r, Hv in Htop. injection Htop as ->.
  destruct Hpass as [?|(h & Hh)]; [lia|]. rewrite Hh. simpl. rewrite Z.eqb_refl. simpl.
  apply list_elem_of_lookup_2 in Hh. destruct (Z.eqb_spec h hash) as [->|Hne]; simpl.
  - rewrite (retain_spec (relevant vs e)); [|lia|by rewrite drop_0, HF]. simpl.
    eexists; split; [done|]. intros out. split.
    + intros [= <-]. exists e. split; [done|]. split; [|done]. apply Hacc in HA as (?&?&?&?).
      constructor; [|done..]. exists top. split; [by rewrite last_lookup, <-Nat.sub_1_r|done].
    + intros (e' & He' & _ & ->). by assert (e' = e) as -> by congruence.
  - eexists; split; [done|]. intros out. split; [done|]. intros (_ & _ & [(top' & Ht' & Hin & _) _ _ _ _] & _).
    rewrite last_lookup, <-Nat.sub_1_r, Hv in Ht'. injection Ht' as ->.
    destruct Hne. by eapply sorted_assoc.
Qed.

Lemma check_and_filter_spec vs L root hash hs :
  StronglySorted Z.gt hs.*1 →
  ∃ res, check_and_filter_proposed_vote_state vs L root hash hs = Ret res ∧
    CheckResult vs L root hash hs res.
Proof.
  intros Hs. unfold check_and_filter_proposed_vote_state.
  assert (∀ er, (∀ e, fst <$> last hs = Some e → ¬ OnFork vs L (overwrite_root vs e root) hash hs e) →
    CheckResult vs L root hash hs (Err er)) as Hno.
  { intros er Hn out. split; [done|]. intros (e & He & Hf & _). by destruct (Hn e He). }
  destruct (last L) as [top|] eqn:Htop.
  2: { eexists; split; [done|]. apply Hno. intros e _ [(? & ? & _) _ _ _ _]. congruence. }
  set (old := match last (landed_votes vs) with Some v => _ | None => _ end).
  destruct old eqn:Hold.
  { eexists; split; [done|]. apply Hno. intros e _ [(t & Ht & _ & Hn) _ _ _ _].
    subst old. destruct (last (landed_votes vs)) as [v|]; [|done]. bsimp.
    specialize (Hn v eq_refl). assert (t = top) as -> by congruence. lia. }
  assert (∀ v, last (landed_votes vs) = Some v → landed_slot v < slot top) as Hnew.
  { intros v Hv. subst old. rewrite Hv in Hold. bsimp. lia. }
  destruct (last hs) as [[e he]|] eqn:Hl.
  2: { eexists; split; [done|]. apply Hno. intros e [=]. }
  assert (fst <$> last hs = Some e) as He by (by rewrite Hl).
  destruct (Z.ltb_spec (slot top) e) as [Hlt|Hge].
  { eexists; split; [done|]. apply Hno. intros e' He' [(t & Ht & Hin & _) _ _ _ _].
    assert (e' = e) as -> by congruence. assert (t = top) as -> by congruence.
    apply (list_elem_of_fmap_2 fst) in Hin. apply list_elem_of_lookup in Hin as (j & Hj).
    pose proof (earliest_le _ _ Hs He _ _ Hj). simpl in *. lia. }
  by apply check_scanned.
Qed.

End check.

(** * Replacing the current votes *)

Section merge.
Context `{LockoutLaws}.
Implicit Types (C N : list LandedVote) (c n : LandedVote).

(** No vote of [C] loses lockout to the new votes [N]. *)
Definition NoConflict C N : Prop :=
  ∀ c n, c ∈ C → n ∈ N →
    (landed_slot n = landed_slot c → landed_confirmations c ≤ landed_confirmations n) ∧
    (landed_slot c < landed_slot n →
       landed_slot c ∈ landed_slot <$> N ∨ last_locked_out_slot (lockout c) < landed_slot n).

(** The latency of a vote that is already in [C] is the one recorded there. *)
Definition copy_latency C n : LandedVote :=
  match list_find (λ c, landed_slot c = landed_slot n) C with
  | Some (_, c) => set_latency (latency c) n
  | None => n
  end.

Definition by_slot N : Prop := StronglySorted Z.lt (landed_slot <$> N).

Lemma by_slot_cons n N : by_slot (n :: N) → by_slot N ∧ ∀ m, m ∈ N → landed_slot n < landed_slot m.
Proof.
  intros [Hs Hd]%StronglySorted_inv. split; [done|]. intros m Hm.
  rewrite Forall_forall in Hd. by apply Hd, list_elem_of_fmap_2.
Qed.

Lemma copy_latency_skip c C n : landed_slot c ≠ landed_slot n → copy_latency (c :: C) n = copy_latency C n.
Proof.
  intros Hne. unfold copy_latency. simpl. rewrite decide_False by done.
  by destruct (list_find _ C) as [[]|].
Qed.

Lemma copy_latency_none C n : (∀ c, c ∈ C → landed_slot c ≠ landed_slot n) → copy_latency C n = n.
Proof.
  intros Hn. unfold copy_latency. destruct (list_find _ C) as [[i c]|] eqn:Hf; [|done].
  apply list_find_Some in Hf as (Hc & Heq & _). destruct (Hn c); [|done]. by eapply list_elem_of_lookup_2.
Qed.

Lemma copy_latency_skip_all c C N :
  (∀ n, n ∈ N → landed_slot c ≠ landed_slot n) → copy_latency (c :: C) <$> N = copy_latency C <$> N.
Proof. intros Hn. apply list_fmap_ext. intros i n Hi. apply copy_latency_skip, Hn. by eapply list_elem_of_lookup_2. Qed.

Lemma NoConflict_lt c C n N :
  by_slot (c :: C) → by_slot (n :: N) → landed_slot c < landed_slot n →
  NoConflict (c :: C) (n :: N) ↔
  last_locked_out_slot (lockout c) < landed_slot n ∧ NoConflict C (n :: N).
Proof.
  intros [_ HC]%by_slot_cons [_ HN]%by_slot_cons Hlt. split.
  - intros Hnc. split; [|intros c' n' ? ?; apply Hnc; [by right|done]].
    destruct (Hnc c n) as [_ [Hin|]]; [by left|by left|done| |done].
    apply list_elem_of_fmap in Hin as (m & Heq & [->|Hm%HN]%elem_of_cons); lia.
  - intros [Hll Hnc] c' n' [->|Hc']%elem_of_cons Hn'; [|by apply Hnc].
    assert (landed_slot n ≤ landed_slot n') by
      (apply elem_of_cons in Hn' as [->|?%HN]; lia). split; [lia|]. right. lia.
Qed.

Lemma NoConflict_eq c C n N :
  by_slot (c :: C) → by_slot (n :: N) → landed_slot c = landed_slot n →
  NoConflict (c :: C) (n :: N) ↔
  landed_confirmations c ≤ landed_confirmations n ∧ NoConflict C N.
Proof.
  intros [_ HC]%by_slot_cons [_ HN]%by_slot_cons Heq. split.
  - intros Hnc. split; [by apply (Hnc c n); [left|left|]|].
    intros c' n' Hc' Hn'. destruct (Hnc c' n') as [Hce Hcl]; [by right..|]. split; [done|].
    intros Hlt. destruct (Hcl Hlt) as [[Hx|Hx]%elem_of_cons|]; [|by left|by right].
    pose proof (HC c' Hc'). lia.
  - intros [Hc Hnc] c' n' [->|Hc']%elem_of_cons [->|Hn']%elem_of_cons.
    + split; [done|lia].
    + split; [pose proof (HN n' Hn'); lia|]. intros _. left. rewrite Heq. by left.
    + pose proof (HC c' Hc'). split; lia.
    + destruct (Hnc c' n') as [Hce Hcl]; [done..|]. split; [done|].
      intros [?|?]%Hcl; [left; by right|by right].
Qed.

Lemma NoConflict_gt c C n N :
  by_slot (c :: C) → landed_slot n < landed_slot c →
  NoConflict (c :: C) (n :: N) ↔ NoConflict (c :: C) N.
Proof.
  intros [_ HC]%by_slot_cons Hlt.
  assert (∀ c', c' ∈ c :: C → landed_slot n < landed_slot c') as Hall
    by (intros c' [->|?%HC]%elem_of_cons; lia).
  split; intros Hnc c' n' Hc' Hn'; pose proof (Hall c' Hc').
  - destruct (Hnc c' n') as [Hce Hcl]; [done|by right|]. split; [done|].
    intros Hl. destruct (Hcl Hl) as [[Hx|Hx]%elem_of_cons|]; [lia|by left|by right].
  - apply elem_of_cons in Hn' as [->|Hn']; [split; lia|].
    destruct (Hnc c' n') as [Hce Hcl]; [done..|]. split; [done|]. intros [?|?]%Hcl; [left; by right|by right].
Qed.

Definition MergeResult P C N (res : result (list LandedVote) VoteError) : Prop :=
  ∀ out, res = Ok out ↔ NoConflict C N ∧ out = P ++ (copy_latency C <$> N).

Lemma MergeResult_end P C N :
  C = [] ∨ N = [] → MergeResult P C N (Ok (P ++ N)).
Proof.
  intros HE out. assert (copy_latency C <$> N = N) as ->.
  { destruct HE as [->| ->]; [|done]. rewrite <-(list_fmap_id N) at 2.
    apply list_fmap_ext. intros. by apply copy_latency_none; set_solver. }
  split; [intros [= <-]; split; [|done]|by intros [_ ->]].
  intros c n Hc Hn. destruct HE as [->| ->]; set_solver.
Qed.

Lemma merge_votes_spec fuel Q C P N :
  (length C + length N ≤ fuel)%nat → by_slot C → by_slot N →
  ∃ res, merge_votes fuel (Q ++ C) (P ++ N) (length Q) (length P) = Ret res ∧ MergeResult P C N res.
Proof.
  revert Q C P N. induction fuel as [|fuel IH]; intros Q C P N Hfuel HC HN.
  { assert (C = [] ∧ N = []) as [-> ->] by (destruct C, N; simpl in *; [done|lia..]).
    exists (Ok (P ++ [])). split; [|by apply MergeResult_end; left].
    cbn [merge_votes]. by rewrite app_nil_r, Nat.ltb_irrefl. }
  cbn [merge_votes]. destruct C as [|c C].
  { rewrite app_nil_r, Nat.ltb_irrefl. eexists; split; [done|]. apply MergeResult_end. by left. }
  destruct N as [|n N].
  { rewrite app_nil_r, Nat.ltb_irrefl, andb_false_r. eexists; split; [done|].
    rewrite <-(app_nil_r P) at 2. apply MergeResult_end. by right. }
  rewrite !length_app. cbn [length]. rewrite !(proj2 (Nat.ltb_lt _ _)) by lia. cbn [andb].
  rewrite !list_lookup_middle by done. cbn [unwrap mbind outcome_bind]. simpl in Hfuel.
  pose proof (by_slot_cons _ _ HC) as [HC' Hc]. pose proof (by_slot_cons _ _ HN) as [HN' Hn].
  destruct (Z.compare_spec (landed_slot c) (landed_slot n)) as [Heq|Hlt|Hgt].
  - unfold MergeResult. setoid_rewrite NoConflict_eq; [|done..]. case_leb.
    { eexists; split; [done|]. intros out. split; [done|lia]. }
    destruct (IH (Q ++ [c]) C (P ++ [set_latency (latency c) n]) N) as (res & Hres & Hout); [lia|done..|].
    rewrite <-!app_assoc, !length_app, !Nat.add_1_r in Hres. simpl in Hres.
    rewrite insert_app_r_alt, Nat.sub_diag by lia. simpl. rewrite Hres.
    eexists; split; [done|]. intros out. rewrite (Hout out), <-app_assoc. simpl.
    unfold copy_latency at 2. simpl. rewrite decide_True by done.
    rewrite copy_latency_skip_all by (intros m Hm%Hn; lia). naive_solver lia.
  - unfold MergeResult. setoid_rewrite NoConflict_lt; [|done..]. case_leb.
    { eexists; split; [done|]. intros out. split; [done|lia]. }
    destruct (IH (Q ++ [c]) C P (n :: N)) as (res & Hres & Hout); [simpl; lia|done..|].
    rewrite <-!app_assoc, !length_app, !Nat.add_1_r in Hres. simpl in Hres. rewrite Hres.
    eexists; split; [done|]. intros out. rewrite (Hout out).
    rewrite (copy_latency_skip_all c C (n :: N)) by (intros m [->|Hm%Hn]%elem_of_cons; lia). naive_solver lia.
  - unfold MergeResult. setoid_rewrite NoConflict_gt; [|done..].
    destruct (IH Q (c :: C) (P ++ [n]) N) as (res & Hres & Hout); [simpl; lia|done..|].
    rewrite <-!app_assoc, !length_app, !Nat.add_1_r in Hres. simpl in Hres. rewrite Hres.
    eexists; split; [done|]. intros out. rewrite (Hout out), <-app_assoc. simpl.
    rewrite (copy_latency_none (c :: C) n); [done|]. intros m [->|Hm%Hc]%elem_of_cons; lia.
Qed.
End merge.

Section new_state.
Context {R : Type} `{LockoutLaws, VoteLaws R}.
Implicit Types (vs : VoteState R) (N : list LandedVote).

(** The votes are above the root; the root 0 of a new tower does not count. *)
Definition above_root (root : option Slot) N : Prop :=
  ∀ r v, root = Some r → r ≠ 0 → v ∈ N → r < landed_slot v.

Lemma check_root_Ok new_root current_root :
  check_root new_root current_root = Ok tt ↔
  ∀ r, current_root = Some r → ∃ r', new_root = Some r' ∧ r ≤ r'.
Proof.
  destruct new_root as [n|], current_root as [c|]; simpl; [case_leb|..]; split; try naive_solver lia.
  all: intros Hr; destruct (Hr c eq_refl) as (r' & ? & ?); naive_solver lia.
Qed.

Lemma check_new_state_Ok root prev N :
  Forall (λ v, 0 ≤ landed_confirmations v) N →
  check_new_state root prev N = Ok tt ↔
  (∀ p v, prev = Some p → head N = Some v → follows (lockout p) (lockout v)) ∧
  WfVotes (lockout <$> N) ∧ above_root root N.
Proof.
  revert prev. induction N as [|v N IH]; intros prev Hu; simpl.
  { split; [intros _|done]. split; [done|]. split; [by repeat constructor|]. intros ? ? ? ? ?. set_solver. }
  apply Forall_cons in Hu as [Hv Hu].
  assert (above_root root (v :: N) ↔
    (∀ r, root = Some r → r ≠ 0 → r < landed_slot v) ∧ above_root root N) as Hab.
  { unfold above_root. setoid_rewrite elem_of_cons. naive_solver. }
  assert (WfVotes (lockout <$> v :: N) ↔
    in_history (lockout v) ∧ WfVotes (lockout <$> N) ∧
    (∀ p w, Some v = Some p → head N = Some w → follows (lockout p) (lockout w))) as Hwf.
  { unfold WfVotes. rewrite fmap_cons, Forall_cons. split.
    - intros [[Hs Hd]%Sorted_inv [Hh Hf]]. split_and!; [done..|].
      intros p w [= <-] Hw. destruct N as [|? N]; [done|]. injection Hw as ->. by inversion Hd.
    - intros (Hh & [Hs Hf] & Hd). split_and!; [|done..]. constructor; [done|].
      destruct N as [|w N]; constructor. by apply Hd. }
  assert (in_history (lockout v) ↔ landed_confirmations v ≠ 0 ∧
    landed_confirmations v ≤ MAX_LOCKOUT_HISTORY) as Hh
    by (unfold in_history, landed_confirmations in *; lia).
  rewrite Hab, Hwf, Hh. clear Hab Hwf Hh. specialize (IH (Some v) Hu).
  destruct (Z.eqb_spec (landed_confirmations v) 0); [naive_solver|].
  destruct (Z.ltb_spec MAX_LOCKOUT_HISTORY (landed_confirmations v)); [naive_solver lia|].
  destruct (match root with Some r => _ | None => _ end) eqn:Hr.
  { destruct root as [r|]; [|done]. bsimp. split; [done|]. intros (_ & _ & Hr' & _).
    pose proof (Hr' r eq_refl ltac:(done)). lia. }
  assert (∀ r, root = Some r → r ≠ 0 → r < landed_slot v) as Hr'.
  { intros r -> Hne. apply andb_false_iff in Hr as [Hr|Hr]; bsimp; [lia|done]. }
  destruct prev as [p|].
  - assert ((∀ p' v', Some p = Some p' → Some v = Some v' → follows (lockout p') (lockout v')) ↔
      follows (lockout p) (lockout v)) as -> by naive_solver.
    unfold follows, landed_slot, landed_confirmations in *.
    repeat case_leb; rewrite ?IH; split; intros Hx; try done; try (destruct Hx as ((? & ? & ?) & _); lia);
      naive_solver.
  - rewrite IH. naive_solver.
Qed.

(** The current votes that the new root does not cover. *)
Definition surviving (root : option Slot) vs : list LandedVote :=
  match root with
  | Some r => filter (λ c, r < landed_slot c) (landed_votes vs)
  | None => landed_votes vs
  end.

(** What the votes the new root covers earn. *)
Definition rooted_credits vs (root : option Slot) : Z :=
  sumZ (credits_for_vote_at_index vs <$>
    seq 0 (length (landed_votes vs) - length (surviving root vs))).

Lemma count_rooted_spec vs r C credits k :
  by_slot C → 0 ≤ credits ≤ 2 ^ 8 * Z.of_nat k → Z.of_nat (k + length C) ≤ u32_MAX →
  ∃ Q, count_rooted vs r C credits k =
      Ret (credits + sumZ (credits_for_vote_at_index vs <$> seq k (length Q)), (k + length Q)%nat) ∧
    C = Q ++ filter (λ c, r < landed_slot c) C.
Proof.
  revert credits k. induction C as [|c C IH]; intros credits k Hs Hc Hk.
  { exists []. simpl. unfold sumZ; simpl. by rewrite Z.add_0_r, Nat.add_0_r. }
  apply by_slot_cons in Hs as [Hs Hlt]. cbn [count_rooted]. rewrite filter_cons. case_leb.
  - pose proof (credits_range vs k). assert (2 ^ 8 * u32_MAX + 2 ^ 8 ≤ u64_MAX) by done.
    cbn [length] in Hk. run. cbn [mbind outcome_bind].
    destruct (IH (credits + credits_for_vote_at_index vs k) (S k)) as (Q & -> & HQ); [done|lia|lia|].
    exists (c :: Q). rewrite decide_False by lia. cbn [length seq app]. rewrite <-HQ.
    rewrite fmap_cons, sumZ_cons. split; [|done]. do 2 f_equal; lia.
  - exists []. rewrite decide_True by lia. simpl. unfold sumZ; simpl.
    rewrite Z.add_0_r, Nat.add_0_r. split; [done|].
    f_equal. symmetry. apply list_filter_all_in. intros x ?%Hlt. lia.
Qed.

Lemma rooted_spec vs root :
  by_slot (landed_votes vs) → Z.of_nat (length (landed_votes vs)) ≤ u32_MAX →
  ∃ Q, match root with
       | Some r => count_rooted vs r (landed_votes vs) 0 0
       | None => Ret (0, 0%nat)
       end = Ret (rooted_credits vs root, length Q) ∧ landed_votes vs = Q ++ surviving root vs.
Proof.
  intros Hs Hlen. unfold rooted_credits. destruct root as [r|]; cbn [surviving].
  - destruct (count_rooted_spec vs r (landed_votes vs) 0 0) as (Q & -> & HQ); [done|lia|done|].
    exists Q. split; [|done]. apply (f_equal length) in HQ. rewrite length_app in HQ.
    replace (length (landed_votes vs) - _)%nat with (length Q) by lia. done.
  - exists []. by rewrite Nat.sub_diag.
Qed.

(** The vote state with the credits of the newly rooted votes. *)
Definition credited vs (root : option Slot) (epoch : Z) : VoteState R :=
  if decide (vote_root_slot vs = root) then vs
  else increment_credits epoch (rooted_credits vs root) vs.

(** The same, once the timestamp of the proposal has been recorded. *)
Definition stamped vs N (root : option Slot) (timestamp : option Z) (epoch : Z)
    : result unit VoteError * VoteState R :=
  match timestamp, last N with
  | Some t, Some v => process_timestamp (landed_slot v) t (credited vs root epoch)
  | _, _ => (Ok tt, credited vs root epoch)
  end.

(** The votes a proposal leaves: each keeps the latency it has, or gets one. *)
Definition settled vs N (root : option Slot) (current_slot : Slot) : list LandedVote :=
  fill_latency current_slot <$> (copy_latency (surviving root vs) <$> N).

Record Accepts vs N (root : option Slot) : Prop := {
  accepts_root : ∀ r, vote_root_slot vs = Some r → ∃ r', root = Some r' ∧ r ≤ r';
  accepts_wf : WfVotes (lockout <$> N);
  accepts_above : above_root root N;
  accepts_no_conflict : NoConflict (surviving root vs) N;
}.

Lemma credited_votes vs root epoch : landed_votes (credited vs root epoch) = landed_votes vs.
Proof. unfold credited. case_decide; [done|]. apply increment_credits_votes. Qed.
Lemma credited_root vs root epoch : vote_root_slot (credited vs root epoch) = vote_root_slot vs.
Proof. unfold credited. case_decide; [done|]. apply increment_credits_root. Qed.

Lemma stamped_unchanged vs N root ts epoch :
  landed_votes (stamped vs N root ts epoch).2 = landed_votes vs ∧
  vote_root_slot (stamped vs N root ts epoch).2 = vote_root_slot vs.
Proof.
  unfold stamped. destruct ts, (last N); simpl;
    by rewrite ?process_timestamp_votes, ?process_timestamp_root, ?credited_votes, ?credited_root.
Qed.

Lemma copy_latency_lockout C n : lockout (copy_latency C n) = lockout n.
Proof. unfold copy_latency. by destruct (list_find _ C) as [[]|]. Qed.
Lemma fill_latency_lockout s n : lockout (fill_latency s n) = lockout n.
Proof. unfold fill_latency. by destruct (latency n =? 0). Qed.

Lemma settled_lockouts vs N root s : lockout <$> settled vs N root s = lockout <$> N.
Proof.
  unfold settled. rewrite <-!list_fmap_compose. apply list_fmap_ext. intros i n _. simpl.
  by rewrite fill_latency_lockout, copy_latency_lockout.
Qed.

Lemma finalize_spec vs N root ts epoch cur :
  N ≠ [] →
  finalize_new_state vs (copy_latency (surviving root vs) <$> N) root ts epoch cur
    (rooted_credits vs root) =
  Ret (match stamped vs N root ts epoch with
       | (Ok u, vs') => (Ok u, set_votes_and_root (settled vs N root cur) root vs')
       | (Err er, vs') => (Err er, vs')
       end).
Proof.
  intros HN. unfold finalize_new_state, stamped. fold (settled vs N root cur).
  assert ((if bool_decide (vote_root_slot vs = root) then vs
    else increment_credits epoch (rooted_credits vs root) vs) = credited vs root epoch) as ->.
  { unfold credited. rewrite decide_bool_decide. done. }
  destruct ts as [t|]; [|done].
  destruct (last N) as [v|] eqn:Hv; [|by apply last_None in Hv].
  assert (∃ w, last (settled vs N root cur) = Some w ∧ landed_slot w = landed_slot v) as (w & -> & Hw).
  { unfold settled. rewrite !fmap_last, Hv. eexists; split; [done|].
    unfold landed_slot. by rewrite fill_latency_lockout, copy_latency_lockout. }
  cbn [unwrap mbind outcome_bind]. rewrite Hw. destruct (process_timestamp _ _ _) as [[[]|] ?]; done.
Qed.

(** The votes are replaced exactly when they are acceptable, else they stay. *)
Record NewStateResult vs N (root : option Slot) (ts : option Z) (epoch : Z) (cur : Slot)
    (r : result unit VoteError) vs' : Prop := {
  result_Ok : r = Ok tt ↔ Accepts vs N root ∧ (stamped vs N root ts epoch).1 = Ok tt;
  result_new : r = Ok tt →
    vs' = set_votes_and_root (settled vs N root cur) root (stamped vs N root ts epoch).2;
  result_old : r ≠ Ok tt →
    landed_votes vs' = landed_votes vs ∧ vote_root_slot vs' = vote_root_slot vs;
}.

Lemma process_new_vote_state_spec vs N root ts epoch cur :
  WfVotes (lockout <$> landed_votes vs) → N ≠ [] →
  Forall (λ v, 0 ≤ landed_confirmations v) N →
  ∃ r vs', process_new_vote_state vs N root ts epoch cur = Ret (r, vs') ∧
    NewStateResult vs N root ts epoch cur r vs'.
Proof.
  intros Hwf HN Hu. unfold process_new_vote_state. rewrite bool_decide_false by done. simpl.
  assert (∀ er : VoteError, ¬ Accepts vs N root → ∃ r vs', Ret (Err er, vs) = Ret (r, vs') ∧
    NewStateResult vs N root ts epoch cur r vs') as Hno.
  { intros er Hno. exists (Err er), vs. split; [done|]. constructor; [naive_solver|done..]. }
  destruct (Z.ltb_spec MAX_LOCKOUT_HISTORY (Z.of_nat (length N))).
  { apply Hno. intros [_ Hl%WfVotes_length _ _]. rewrite length_fmap in Hl. lia. }
  destruct (check_root root (vote_root_slot vs)) as [[]|] eqn:Hr.
  2: { apply Hno. intros [Hr'%check_root_Ok _ _ _]. congruence. }
  destruct (check_new_state root None N) as [[]|] eqn:Hc.
  2: { apply Hno. intros [_ ? ? _]. enough (check_new_state root None N = Ok tt) by congruence.
       by apply check_new_state_Ok. }
  pose proof (proj1 (check_root_Ok _ _) Hr) as Hr'. apply check_new_state_Ok in Hc as (_ & HwfN & Hab); [|done].
  assert (∀ M, WfVotes (lockout <$> M) → by_slot M) as Hby.
  { intros M [Hs%follows_sorted _]. unfold by_slot. by rewrite <-list_fmap_compose in Hs. }
  destruct (rooted_spec vs root) as (Q & -> & HQ); [by apply Hby| |].
  { apply WfVotes_length in Hwf. rewrite length_fmap in Hwf. pose proof history_range. lia. }
  cbn [mbind outcome_bind]. pose proof (Hby _ Hwf) as Hcur. rewrite HQ in Hcur.
  assert (by_slot (surviving root vs)) as Hsur.
  { unfold by_slot in *. rewrite fmap_app in Hcur. by apply StronglySorted_app_1_r in Hcur. }
  destruct (merge_votes_spec (length (landed_votes vs) + length N) Q (surviving root vs) [] N)
    as (res & Hm & Hout); [rewrite HQ, length_app at 1; lia|done|by apply Hby|].
  rewrite <-HQ in Hm. simpl in Hm. rewrite Hm. cbn [mbind outcome_bind].
  destruct res as [N'|er].
  - destruct (proj1 (Hout N') eq_refl) as [Hnc ->]. cbn [app]. rewrite finalize_spec by done.
    pose proof (stamped_unchanged vs N root ts epoch) as Hst.
    destruct (stamped vs N root ts epoch) as [[[]|er] vs'] eqn:Est; do 2 eexists; (split; [done|]); simpl in *.
    + constructor; [|by rewrite Est|done]. split; [|done]. intros _. split; [by constructor|by rewrite Est].
    + constructor; [|done..]. rewrite Est. naive_solver.
  - apply Hno. intros [_ _ _ Hnc]. 
    enough (Err er = Ok ([] ++ (copy_latency (surviving root vs) <$> N))) by done. by apply Hout.
Qed.

(** * A tower sync *)

(** The tower a vote account holds. *)
Definition tower_of vs : TowerVoteState :=
  {| votes := lockout <$> landed_votes vs; root_slot := vote_root_slot vs |}.

Lemma Accepts_kept vs N root v :
  WfVotes (lockout <$> landed_votes vs) → Accepts vs N root →
  (∃ n, n ∈ N ∧ ∀ c, c ∈ landed_votes vs → landed_slot c < landed_slot n) →
  v ∈ landed_votes vs →
  kept_lockout {| votes := lockout <$> N; root_slot := root |} (lockout v).
Proof.
  intros Hwf [_ HwfN _ Hnc] (top & Htop & Hnew) Hv. unfold kept_lockout; simpl.
  destruct (decide (v ∈ surviving root vs)) as [Hs|Hs].
  2: { left. destruct root as [r|]; simpl in Hs; [|done]. exists r. split; [done|].
       destruct (Z.le_gt_cases (landed_slot v) r); [done|]. destruct Hs. by apply list_elem_of_filter. }
  right. destruct (decide (landed_slot v ∈ landed_slot <$> N)) as [(n & Heq & Hn)%list_elem_of_fmap|Hno].
  - left. exists (lockout n). split_and!; [by apply list_elem_of_fmap_2|done|].
    by destruct (Hnc v n Hs Hn) as [Hc _]; apply Hc.
  - right. split.
    + exists (lockout top). split; [by apply list_elem_of_fmap_2|by apply Hnew].
    + intros w (n & -> & Hn)%list_elem_of_fmap. split.
      * intros Heq. destruct Hno. apply list_elem_of_fmap. by exists n.
      * intros Hlt. by destruct (Hnc v n Hs Hn) as [_ [|]].
Qed.

Lemma landed_from_lockouts (L : list Lockout) : lockout <$> (landed_from <$> L) = L.
Proof.
  induction L as [|l L IH]; [done|]. rewrite !fmap_cons, IH. by rewrite landed_from_spec.
Qed.

Lemma landed_slot_from l : landed_slot (landed_from l) = slot l.
Proof. unfold landed_slot. by rewrite landed_from_spec. Qed.

(** A proposal that passed the first check, under the second. *)
Lemma tower_sync_checked vs (hs : list (Slot * Hash)) epoch cur sync L' root' e :
  WfVotes (votes (tower_of vs)) → StronglySorted Z.gt hs.*1 →
  Forall (λ v, 0 ≤ confirmation_count v) (sync_lockouts sync) → fst <$> last hs = Some e →
  OnFork vs (sync_lockouts sync) root' (sync_hash sync) hs e →
  L' = filter (relevant vs e) (sync_lockouts sync) →
  ∃ top r vs', last (sync_lockouts sync) = Some top ∧ last L' = Some top ∧
    process_new_vote_state vs (landed_from <$> L') root' (sync_timestamp sync) epoch cur =
      Ret (r, vs') ∧
    NewStateResult vs (landed_from <$> L') root' (sync_timestamp sync) epoch cur r vs'.
Proof.
  intros Hwf Hs Hu He Hf HL'. destruct Hf as [(top & Htop & Hin & Hnew) _ _ _ _].
  assert (relevant vs e top) as Hrel.
  { left. apply (list_elem_of_fmap_2 fst), list_elem_of_lookup in Hin as (j & Hj).
    apply (earliest_le _ _ Hs He _ _ Hj). }
  assert (last L' = Some top) as Htop' by (rewrite HL'; by apply last_filter).
  destruct (process_new_vote_state_spec vs (landed_from <$> L') root' (sync_timestamp sync) epoch cur)
    as (r & vs' & Heq & Hres); [done| | |by exists top, r, vs'].
  - destruct L'; [done|]. simpl. done.
  - apply Forall_fmap, Forall_forall. intros l Hl. unfold compose, landed_confirmations.
    rewrite landed_from_spec. simpl. rewrite Forall_forall in Hu. apply Hu.
    rewrite HL' in Hl. by apply list_elem_of_filter in Hl as [].
Qed.

Lemma accepted_tower vs N root cur ts epoch vs' :
  vs' = set_votes_and_root (settled vs N root cur) root (stamped vs N root ts epoch).2 →
  tower_of vs' = {| votes := lockout <$> N; root_slot := root |}.
Proof. intros ->. unfold tower_of; simpl. by rewrite settled_lockouts. Qed.

End new_state.

(** * A tower built vote by vote *)

Section own_tower.
Context {R : Type} `{LockoutLaws, VoteLaws R}.
Implicit Types (vs : VoteState R) (st : TowerVoteState).

(** The root that replaces one the hashes do not reach is not after it, and no
    vote of the vote state is in between. *)
Lemma overwrite_root_le vs e r st :
  WfTower (tower_of vs) → Extends (tower_of vs) st → root_slot st = Some r →
  (∀ r', overwrite_root vs e (Some r) = Some r' → r' ≤ r ∧ (r' = r ∨ r < e)) ∧
  (∀ r0, vote_root_slot vs = Some r0 → ∃ r', overwrite_root vs e (Some r) = Some r' ∧ r0 ≤ r') ∧
  (∀ v, v ∈ surviving (overwrite_root vs e (Some r)) vs → r < landed_slot v).
Proof.
  intros [[Hs%follows_sorted _] Hab] [Hroot _] Hr. unfold overwrite_root. simpl in *.
  assert (∀ r0, vote_root_slot vs = Some r0 → r0 ≤ r) as Hle.
  { intros r0 Hr0. destruct (Hroot r0 Hr0) as (r' & ? & ?). assert (r' = r) as -> by congruence. done. }
  case_leb; [|split_and!].
  2: { intros ? [= <-]. split; [lia|by left]. }
  2: { intros r0 Hr0. exists r. split; [done|by apply Hle]. }
  2: { intros v [? _]%list_elem_of_filter. done. }
  destruct (list_find _ _) as [[i c]|] eqn:Hf.
  - apply list_find_Some in Hf as (Hi & Hc & Hbefore). split_and!.
    + intros ? [= <-]. split; [done|by right].
    + intros r0 Hr0. eexists; split; [done|]. apply Z.lt_le_incl, (Hab r0 (lockout c)); [done|].
      apply list_elem_of_fmap_2. apply list_elem_of_lookup_2 in Hi. by rewrite elem_of_rev in Hi.
    + intros v [Hlt Hv]%list_elem_of_filter. destruct (Z.le_gt_cases (landed_slot v) r) as [Hvr|]; [|done].
      exfalso. rewrite <-list_fmap_compose in Hs. apply StronglySorted_rev in Hs.
      change (compose slot lockout) with landed_slot in Hs.
      assert (v ∈ rev (landed_votes vs)) as (k & Hk)%list_elem_of_lookup by (by rewrite elem_of_rev).
      destruct (decide (k < i)%nat) as [Hki|Hki]; [by apply (Hbefore k v)|].
      assert (k ≠ i) by (intros ->; assert (v = c) as -> by congruence; lia).
      rewrite <-map_rev in Hs. change (map landed_slot) with (fmap (M := list) landed_slot) in Hs.
      rewrite <-(take_drop (S i) (rev (landed_votes vs))), fmap_app in Hs.
      enough (flip Z.lt (landed_slot c) (landed_slot v)) by (unfold flip in *; lia).
      eapply (StronglySorted_app_1_elem_of (flip Z.lt)); [exact Hs|apply list_elem_of_fmap_2..];
        apply list_elem_of_lookup.
      * exists i. rewrite lookup_take_lt by lia. done.
      * exists (k - S i)%nat. rewrite lookup_drop. by replace (S i + (k - S i))%nat with k by lia.
  - rewrite list_find_None, Forall_forall in Hf.
    assert (∀ v, v ∈ landed_votes vs → r < landed_slot v) as Hall.
    { intros v Hv. rewrite <-elem_of_rev in Hv. apply Hf in Hv. lia. }
    split_and!.
    + intros r' Hr'. split; [by apply Hle|by right].
    + intros r0 Hr0. exists r0. split; [done|lia].
    + intros v Hv. apply Hall. destruct (vote_root_slot vs); simpl in Hv; [|done].
      by apply list_elem_of_filter in Hv as [].
Qed.

Lemma Extends_NoConflict vs st root :
  WfTower st → Extends (tower_of vs) st →
  (∀ v r, v ∈ surviving root vs → root_slot st = Some r → r < landed_slot v) →
  NoConflict (surviving root vs) (landed_from <$> votes st).
Proof.
  intros [[Hs _] _] [_ Hk] Hsur c n Hc (w & -> & Hw)%list_elem_of_fmap.
  rewrite landed_slot_from. unfold landed_confirmations. rewrite (landed_from_spec w); simpl.
  assert (lockout c ∈ votes (tower_of vs)) as Hin.
  { apply list_elem_of_fmap_2. destruct root; [|done]. by apply list_elem_of_filter in Hc as []. }
  destruct (Hk _ Hin) as [(r & Hr & Hle)|[(u & Hu & Hsl & Hcf)|[_ Hex]]].
  - pose proof (Hsur c r Hc Hr). unfold landed_slot in *. lia.
  - split.
    + intros Heq. assert (w = u) as -> by (eapply follows_slots_NoDup; [done..|unfold landed_slot in *; lia]). done.
    + intros _. left. apply list_elem_of_fmap. exists (landed_from u).
      rewrite landed_slot_from. split; [done|by apply list_elem_of_fmap_2].
  - destruct (Hex w Hw) as [Hne Hlt]. split; [done|]. intros Hl. right. by apply Hlt.
Qed.

Lemma own_Accepts vs st e :
  WfTower (tower_of vs) → WfTower st → Extends (tower_of vs) st →
  Accepts vs (landed_from <$> votes st) (overwrite_root vs e (root_slot st)).
Proof.
  intros Hwf0 Hwf Hext. pose proof (overwrite_root_le vs e) as Hov. constructor.
  - intros r0 Hr0. destruct (proj1 Hext r0 Hr0) as (r & Hr & _). rewrite Hr.
    by apply (Hov r st Hwf0 Hext Hr).
  - rewrite landed_from_lockouts. apply Hwf.
  - intros r' v Hr' _ (w & -> & Hw)%list_elem_of_fmap. rewrite landed_slot_from.
    destruct (root_slot st) as [r|] eqn:Hr; [|done].
    destruct (Hov r st Hwf0 Hext Hr) as [Hle _]. pose proof (Hle r' Hr').
    pose proof (proj2 Hwf r w Hr Hw). lia.
  - apply Extends_NoConflict; [done..|]. intros v r Hv Hr. rewrite Hr in Hv.
    by apply (Hov r st Hwf0 Hext Hr).
Qed.

End own_tower.

(** * Theorems *)

Section theorems.
Context {R : Type} `{LockoutLaws, VoteLaws R}.
Implicit Types (vs : VoteState R).

(** A vote for a later slot keeps the stack of votes well formed: slots
    increase, confirmations decrease, and every vote was cast while the one below
    it was locked out. The votes from the top whose lockout ended before the slot
    are dropped, the oldest becomes the root when the stack is full, and every
    vote that stays has at least as many confirmations as votes above it. *)
Theorem process_next_vote_slot_exact n st :
  WfTower st → later n st →
  ∃ st', TowerStack.process_next_vote_slot n st = Ret st' ∧ WfTower st' ∧ Pushed n st st'.
Proof. apply process_next_vote_slot_wf. Qed.

(** The check of a proposed tower against the slot hashes always returns, and
    it accepts exactly the proposals that are on the fork the hashes describe:
    newer than the vote state, in order, with the hash of their last slot, and
    with every slot the hashes reach back to among them. What is left of the
    proposal is the lockouts that are in the history or already in the vote
    state, and the root, replaced by the vote state's when it is too old. *)
Theorem check_and_filter_exact vs L root hash hs :
  StronglySorted Z.gt hs.*1 →
  ∃ res, check_and_filter_proposed_vote_state vs L root hash hs = Ret res ∧
    CheckResult vs L root hash hs res.
Proof. apply check_and_filter_spec. Qed.

(** Replacing the votes of a vote account never panics; it succeeds exactly
    when the root does not go back, the new votes form a well-formed tower above
    the root, no current vote above the root loses confirmations or is dropped
    while it locks out the vote that replaces it, and the timestamp is accepted.
    Votes that were there keep their latency, new ones get it from the clock, and
    the credits of the votes that became rooted are added; on an error the votes
    and the root stay as they were. *)
Theorem process_new_vote_state_exact vs N root ts epoch cur :
  WfVotes (lockout <$> landed_votes vs) → N ≠ [] →
  Forall (λ v, 0 ≤ landed_confirmations v) N →
  ∃ r vs', process_new_vote_state vs N root ts epoch cur = Ret (r, vs') ∧
    NewStateResult vs N root ts epoch cur r vs'.
Proof. apply process_new_vote_state_spec. Qed.

(** C28. Whatever tower a validator submits, its vote account keeps a well-formed
    tower and no lockout is violated: every vote that was there is rooted, still
    there with at least as many confirmations, or had expired before the vote
    that replaced it; the root never goes back, and the newest vote is for the
    block of this fork that the submission names. A rejected submission changes
    neither the votes nor the root. *)
Theorem tower_sync_never_rolls_back vs (hs : list (Slot * Hash)) epoch cur sync :
  WfVotes (votes (tower_of vs)) → StronglySorted Z.gt hs.*1 →
  Forall (λ v, 0 ≤ confirmation_count v) (sync_lockouts sync) →
  ∃ r vs', do_process_tower_sync vs hs epoch cur sync = Ret (r, vs') ∧
    (r ≠ Ok tt → tower_of vs' = tower_of vs) ∧
    (r = Ok tt →
       WfVotes (votes (tower_of vs')) ∧ Extends (tower_of vs) (tower_of vs') ∧
       ∃ top, last (votes (tower_of vs')) = Some top ∧ last (sync_lockouts sync) = Some top ∧
         (slot top, sync_hash sync) ∈ hs ∧ ∀ v, v ∈ votes (tower_of vs) → slot v < slot top).
Proof.
  intros Hwf Hs Hu. unfold do_process_tower_sync.
  destruct (check_and_filter_spec vs (sync_lockouts sync) (sync_root sync) (sync_hash sync) hs Hs)
    as ([[L' root']|er] & -> & Hres); cbn [mbind outcome_bind]; [|by exists (Err er), vs].
  destruct (proj1 (Hres _) eq_refl) as (e & He & Hf & [= HL' Hroot]). rewrite <-Hroot in Hf.
  destruct (tower_sync_checked vs hs epoch cur sync L' root' e) as (top & r & vs' & Ht & Ht' & Heq & [Hok Hnew Hold]);
    [done..|].
  exists r, vs'. split; [done|]. split.
  - intros [Hv Hr]%Hold. unfold tower_of. by rewrite Hv, Hr.
  - intros Hr. pose proof (accepted_tower _ _ _ _ _ _ _ (Hnew Hr)) as Htw. rewrite Htw. cbn [votes].
    rewrite landed_from_lockouts. destruct (proj1 Hok Hr) as [Hacc _].
    destruct Hf as [(t & Htl & Hin & Hlater) _ _ _ _]. assert (t = top) as -> by congruence.
    assert (∀ v, v ∈ landed_votes vs → landed_slot v < slot top) as Hall.
    { intros v Hv. destruct (last (landed_votes vs)) as [w|] eqn:Hw.
      - specialize (Hlater w eq_refl). enough (landed_slot v ≤ landed_slot w) by lia.
        apply (last_slot_max (lockout <$> landed_votes vs)); [apply Hwf|by rewrite fmap_last, Hw|].
        by apply list_elem_of_fmap_2.
      - apply last_None in Hw. rewrite Hw in Hv. set_solver. }
    split_and!.
    + by rewrite <-(landed_from_lockouts L'); apply Hacc.
    + split; [intros r0 Hr0; by apply Hacc|]. intros v (c & -> & Hc)%list_elem_of_fmap.
      rewrite <-(landed_from_lockouts L'). apply (Accepts_kept vs); [done|done| |done].
      exists (landed_from top). split; [|intros c' Hc'; rewrite landed_slot_from; by apply Hall].
      apply list_elem_of_fmap_2. apply last_Some in Ht' as [? ->]. set_solver.
    + exists top. split_and!; [done..|]. intros v (c & -> & Hc)%list_elem_of_fmap. by apply Hall.
Qed.

(** A vote account accepts the tower of its own validator: when the account
    holds the validator's tower of some moment, and the validator has since voted
    on slots of one fork, the tower it then submits on that fork is accepted and
    the account holds it afterwards, however many votes in between never landed. *)
Theorem own_tower_accepted vs (hs : list (Slot * Hash)) e ns st epoch cur sync :
  WfTower (tower_of vs) → StronglySorted Z.lt ns → (∀ n, n ∈ ns → later n (tower_of vs)) →
  for_each TowerStack.process_next_vote_slot ns (tower_of vs) = Ret st →
  sync_lockouts sync = votes st → sync_root sync = root_slot st → sync_timestamp sync = None →
  StronglySorted Z.gt hs.*1 → fst <$> last hs = Some e →
  (∃ n, last ns = Some n ∧ (n, sync_hash sync) ∈ hs) →
  (∀ v, v ∈ votes st → slot v ∈ hs.*1 ∨ (slot v < e ∧ contains_slot vs (slot v) = true)) →
  (∀ r, root_slot st = Some r → e ≤ r → r ∈ hs.*1) →
  ∃ vs', do_process_tower_sync vs hs epoch cur sync = Ret (Ok tt, vs') ∧
    votes (tower_of vs') = votes st.
Proof.
  intros Hwf0 Hns Hlater Hrun HL Hroot Hts Hs He (n & Hn & Hin) Hv Hr.
  destruct (run_votes ns (tower_of vs)) as (st' & Hrun' & Hwf & Hext & Hlast); [done..|].
  assert (st' = st) as -> by congruence. clear Hrun Hrun'. specialize (Hlast n Hn).
  unfold do_process_tower_sync.
  destruct (check_and_filter_spec vs (sync_lockouts sync) (sync_root sync) (sync_hash sync) hs Hs)
    as (res & -> & Hres).
  set (root' := overwrite_root vs e (sync_root sync)).
  assert (∀ r', root' = Some r' → ∃ r, root_slot st = Some r ∧ r' ≤ r ∧ (r' = r ∨ r < e)) as Hle.
  { subst root'. rewrite Hroot. intros r' Hr'. destruct (root_slot st) as [r|] eqn:Er; [|done].
    exists r. split; [done|]. by apply (overwrite_root_le vs e r st). }
  assert (OnFork vs (sync_lockouts sync) root' (sync_hash sync) hs e) as Hf.
  { rewrite HL. constructor.
    - unfold TowerStack.last_voted_slot, TowerStack.last_lockout in Hlast.
      destruct (last (votes st)) as [top|] eqn:Ht; [|done]. injection Hlast as <-. exists top.
      split_and!; [done..|]. intros v (l & Hl)%last_Some.
      destruct (Hlater (slot top)) as [Hlt _]; [apply last_Some in Hn as [? ->]; set_solver|].
      apply Hlt. simpl. apply list_elem_of_fmap_2. rewrite Hl. set_solver.
    - apply follows_sorted, Hwf.
    - intros v Hin' Hge. destruct (Hv v Hin') as [|[? _]]; [done|lia].
    - intros r' (r & Er & ? & [->|])%Hle ?; [by apply Hr|lia].
    - intros r' v (r & Er & ? & Hor)%Hle ? Hin'. destruct Hwf as [_ Hab].
      pose proof (Hab r v Er Hin'). lia. }
  assert (filter (relevant vs e) (sync_lockouts sync) = votes st) as Hfil.
  { rewrite HL. apply list_filter_all_in. intros v [Hin'|[_ Hk%contains_slot_spec]]%Hv; [left|by right].
    apply list_elem_of_lookup in Hin' as (j & Hj). apply (earliest_le _ _ Hs He _ _ Hj). }
  assert (res = Ok (votes st, root')) as ->.
  { apply Hres. exists e. by rewrite Hfil. }
  cbn [mbind outcome_bind].
  destruct (tower_sync_checked vs hs epoch cur sync (votes st) root' e)
    as (top & r & vs' & _ & _ & -> & [Hok Hnew _]); [apply Hwf0|done| |done..|].
  { rewrite HL. destruct Hwf as [[_ Hh] _]. eapply Forall_impl; [exact Hh|]. intros v [? ?]. lia. }
  assert (r = Ok tt) as ->.
  { apply Hok. rewrite Hts. split; [|by unfold stamped].
    subst root'. rewrite Hroot. by apply own_Accepts. }
  exists vs'. split; [done|]. rewrite (accepted_tower _ _ _ _ _ _ _ (Hnew eq_refl)). simpl.
  apply landed_from_lockouts.
Qed.

End theorems.

(** * Witnesses *)

#[local] Existing Instances doubling_lockouts doubling_laws.

#[local] Instance ex_votes : VoteApi unit := {|
  contains_slot vs s := bool_decide (s ∈ landed_slot <$> landed_votes vs);
  vote_last_voted_slot vs := landed_slot <$> last (landed_votes vs);
  credits_for_vote_at_index _ _ := 1;
  increment_credits e c vs := {|
    node_pubkey := node_pubkey vs; authorized_withdrawer := authorized_withdrawer vs;
    commission := commission vs; landed_votes := landed_votes vs;
    vote_root_slot := vote_root_slot vs; epoch_credits := epoch_credits vs ++ [(e, c, 0)];
    rest := rest vs |};
  process_timestamp _ _ vs := (Ok tt, vs);
  compute_vote_latency s cur := Z.min (cur - s) 255;
  landed_from l := {| latency := 0; lockout := l |};
  vote_process_next_vote_slot _ _ _ vs := vs;
  current_epoch _ := 0;
|}.

#[local] Instance ex_vote_laws : VoteLaws unit.
Proof. constructor; try done. intros. simpl. apply bool_decide_eq_true. Qed.

(** Two votes on a fork, and their two successors. *)
Definition ex_vote_state : VoteState unit := {|
  node_pubkey := 7; authorized_withdrawer := 8; commission := 0;
  landed_votes := [ {| latency := 1; lockout := {| slot := 1; confirmation_count := 2 |} |};
                    {| latency := 1; lockout := {| slot := 2; confirmation_count := 1 |} |} ];
  vote_root_slot := Some 0; epoch_credits := []; rest := tt;
|}.
Definition ex_slot_hashes : list (Slot * Hash) := [(4, 44); (3, 33); (2, 22); (1, 11); (0, 10)].
Definition ex_sync : TowerSync := {|
  sync_lockouts := [ {| slot := 1; confirmation_count := 4 |};
                     {| slot := 2; confirmation_count := 3 |};
                     {| slot := 3; confirmation_count := 2 |};
                     {| slot := 4; confirmation_count := 1 |} ];
  sync_root := Some 0; sync_hash := 44; sync_timestamp := None;
|}.

Lemma ex_wf : WfTower (tower_of ex_vote_state).
Proof.
  split; [split|].
  - repeat constructor; vm_compute; done.
  - repeat constructor; vm_compute; done.
  - intros r v [= <-] Hv. vm_compute in Hv. set_unfold in Hv. destruct_or?; subst; done.
Qed.

Lemma ex_hashes_sorted : StronglySorted Z.gt ex_slot_hashes.*1.
Proof. repeat constructor. Qed.

Lemma process_next_vote_slot_exact_witness :
  ∃ st', TowerStack.process_next_vote_slot 9 (tower_of ex_vote_state) = Ret st' ∧ WfTower st' ∧
    Pushed 9 (tower_of ex_vote_state) st'.
Proof.
  apply process_next_vote_slot_exact; [apply ex_wf|]. split.
  - intros v Hv. vm_compute in Hv. set_unfold in Hv. destruct_or?; subst; done.
  - by intros r [= <-].
Defined.

Lemma check_and_filter_exact_witness :
  ∃ res, check_and_filter_proposed_vote_state ex_vote_state (sync_lockouts ex_sync) (Some 0) 44
           ex_slot_hashes = Ret res ∧
    CheckResult ex_vote_state (sync_lockouts ex_sync) (Some 0) 44 ex_slot_hashes res.
Proof. apply check_and_filter_exact, ex_hashes_sorted. Defined.

Lemma process_new_vote_state_exact_witness :
  ∃ r vs', process_new_vote_state ex_vote_state (landed_from <$> sync_lockouts ex_sync) (Some 0)
             None 3 5 = Ret (r, vs') ∧
    NewStateResult ex_vote_state (landed_from <$> sync_lockouts ex_sync) (Some 0) None 3 5 r vs'.
Proof.
  apply process_new_vote_state_exact; [apply ex_wf|done|]. repeat constructor; vm_compute; done.
Defined.

Lemma tower_sync_never_rolls_back_witness :
  ∃ r vs', do_process_tower_sync ex_vote_state ex_slot_hashes 3 5 ex_sync = Ret (r, vs') ∧
    (r ≠ Ok tt → tower_of vs' = tower_of ex_vote_state) ∧
    (r = Ok tt →
       WfVotes (votes (tower_of vs')) ∧ Extends (tower_of ex_vote_state) (tower_of vs') ∧
       ∃ top, last (votes (tower_of vs')) = Some top ∧ last (sync_lockouts ex_sync) = Some top ∧
         (slot top, sync_hash ex_sync) ∈ ex_slot_hashes ∧
         ∀ v, v ∈ votes (tower_of ex_vote_state) → slot v < slot top).
Proof.
  apply tower_sync_never_rolls_back; [apply ex_wf|apply ex_hashes_sorted|].
  repeat constructor; vm_compute; done.
Defined.

Lemma own_tower_accepted_witness :
  ∃ vs', do_process_tower_sync ex_vote_state ex_slot_hashes 3 5 ex_sync = Ret (Ok tt, vs') ∧
    votes (tower_of vs') = sync_lockouts ex_sync.
Proof.
  refine (own_tower_accepted ex_vote_state ex_slot_hashes 0 [3; 4]
    {| votes := sync_lockouts ex_sync; root_slot := Some 0 |} 3 5 ex_sync
    ex_wf _ _ _ eq_refl eq_refl eq_refl ex_hashes_sorted eq_refl _ _ _).
  - repeat constructor.
  - intros n Hn. split.
    + intros v Hv. vm_compute in Hv. set_unfold in Hn. set_unfold in Hv. destruct_or?; subst; done.
    + intros r [= <-]. set_unfold in Hn. destruct_or?; subst; done.
  - vm_compute. reflexivity.
  - exists 4. split; [done|]. left.
  - intros v Hv. left. vm_compute in Hv. set_unfold in Hv. destruct_or?; subst; vm_compute; set_solver.
  - intros r [= <-] _. vm_compute. set_solver.
Defined.
