(* ===== verification/Tower.v ===== *)
(** The tower of a validator, [core/src/consensus.rs]: whether it may vote for a
    block and what its vote does, the stake thresholds, the proof of a switch to
    another fork, and the adjustment after a restart; with the vote transactions
    of [vote/src/vote_transaction.rs].

    The stake thresholds are computed in binary64: the conversion of an integer,
    division, subtraction and comparison are on the executable specification of
    IEEE 754 in the standard library, each rounded to nearest. *)

From Stdlib Require Import Strings.String.
From S2P Require Import Prelude BTree ForkChoice LatestVotes VoteInterface VoteState.
From Stdlib Require Export SpecFloat.

(** * Binary64 *)

Abbreviation f64 := spec_float (only parsing).

(** [n as f64]. *)
Definition f64_of (n : Z) : f64 := binary_normalize 53 1024 n 0 false.
Definition f64_div : f64 → f64 → f64 := SFdiv 53 1024.
Definition f64_sub : f64 → f64 → f64 := SFsub 53 1024.
(** [a > b]. *)
Definition f64_gt (a b : f64) : bool := SFltb b a.

(** [(stake as f64 / total as f64) > threshold]. *)
Definition exceeds (stake total : Z) (threshold : f64) : bool :=
  f64_gt (f64_div (f64_of stake) (f64_of total)) threshold.

Definition positive (f : f64) : Prop :=
  match f with S754_finite false _ _ => True | _ => False end.

(** No stake exceeds a threshold, not even a part of no stake at all. *)
Lemma exceeds_nothing total threshold : positive threshold → exceeds 0 total threshold = false.
Proof.
  intros Hp. unfold exceeds, f64_gt. destruct threshold as [| | |[] m e]; try done.
  change (f64_of 0) with (S754_zero false). unfold f64_div.
  by destruct (f64_of total) as [[]|[]| |[] ? ?].
Qed.


(** * Vote transactions *)

(** A [VoteStateUpdate] has the fields of [TowerSync] without the block id. *)
Inductive VoteTransaction :=
| TxVote (vote : Vote)
| TxVoteStateUpdate (vote_state_update : TowerSync)
| TxCompactVoteStateUpdate (vote_state_update : TowerSync)
| TxTowerSync (tower_sync : TowerSync) (block_id : Hash).

#[global] Instance VoteTransaction_eq_dec : EqDecision VoteTransaction.
Proof. solve_decision. Defined.

Definition Vote_default : Vote := {| vote_slots := []; vote_hash := 0; vote_timestamp := None |}.
Definition TowerSync_default : TowerSync :=
  {| sync_lockouts := []; sync_root := None; sync_hash := 0; sync_timestamp := None |}.

(** [last_voted_slot] of the types of the vote interface. *)
Class VoteTxApi := {
  last_slot_of_vote : Vote → option Slot;
  last_slot_of_sync : TowerSync → option Slot;
}.

Module VoteTx.

(** The slots the transaction votes for; [slot(i)] is the ith of them, and [len]
    their number. *)
Definition slots (tx : VoteTransaction) : list Slot :=
  match tx with
  | TxVote vote => vote_slots vote
  | TxVoteStateUpdate update | TxCompactVoteStateUpdate update => slot <$> sync_lockouts update
  | TxTowerSync tower_sync _ => slot <$> sync_lockouts tower_sync
  end.

Definition slot_at (tx : VoteTransaction) (i : nat) : outcome Slot := unwrap (slots tx !! i).
Definition len (tx : VoteTransaction) : nat := length (slots tx).
Definition is_empty (tx : VoteTransaction) : bool := bool_decide (slots tx = []).

Definition hash (tx : VoteTransaction) : Hash :=
  match tx with
  | TxVote vote => vote_hash vote
  | TxVoteStateUpdate update | TxCompactVoteStateUpdate update => sync_hash update
  | TxTowerSync tower_sync _ => sync_hash tower_sync
  end.

Definition timestamp (tx : VoteTransaction) : option Z :=
  match tx with
  | TxVote vote => vote_timestamp vote
  | TxVoteStateUpdate update | TxCompactVoteStateUpdate update => sync_timestamp update
  | TxTowerSync tower_sync _ => sync_timestamp tower_sync
  end.

Definition set_sync_timestamp (ts : option Z) (t : TowerSync) : TowerSync :=
  {| sync_lockouts := sync_lockouts t; sync_root := sync_root t; sync_hash := sync_hash t;
     sync_timestamp := ts |}.

Definition set_timestamp (ts : option Z) (tx : VoteTransaction) : VoteTransaction :=
  match tx with
  | TxVote vote => TxVote {| vote_slots := vote_slots vote; vote_hash := vote_hash vote;
                             vote_timestamp := ts |}
  | TxVoteStateUpdate update => TxVoteStateUpdate (set_sync_timestamp ts update)
  | TxCompactVoteStateUpdate update => TxCompactVoteStateUpdate (set_sync_timestamp ts update)
  | TxTowerSync tower_sync id => TxTowerSync (set_sync_timestamp ts tower_sync) id
  end.

Definition last_voted_slot `{VoteTxApi} (tx : VoteTransaction) : option Slot :=
  match tx with
  | TxVote vote => last_slot_of_vote vote
  | TxVoteStateUpdate update | TxCompactVoteStateUpdate update => last_slot_of_sync update
  | TxTowerSync tower_sync _ => last_slot_of_sync tower_sync
  end.

End VoteTx.

(** * Decisions *)

Inductive ThresholdDecision :=
| PassedThreshold
| FailedThreshold (vote_depth observed_stake : Z).

Definition passed (d : ThresholdDecision) : bool :=
  match d with PassedThreshold => true | FailedThreshold _ _ => false end.

Inductive SwitchForkDecision :=
| SwitchProof (proof : Hash)
| SameFork
| FailedSwitchThreshold (switch_proof_stake total_stake : Z)
| FailedSwitchDuplicateRollback (latest_duplicate_ancestor : Slot).

#[global] Instance SwitchForkDecision_eq_dec : EqDecision SwitchForkDecision.
Proof. solve_decision. Defined.

Definition can_vote (d : SwitchForkDecision) : bool :=
  match d with
  | FailedSwitchThreshold _ _ => false
  | FailedSwitchDuplicateRollback _ => false
  | SameFork => true
  | SwitchProof _ => true
  end.

Definition VOTE_THRESHOLD_DEPTH_SHALLOW : Z := 4.
Definition VOTE_THRESHOLD_DEPTH : Z := 8.
(** The binary64 nearest to 0.38. *)
Definition SWITCH_FORK_THRESHOLD : f64 := S754_finite false 6845471433603154 (-54).
Definition VOTE_THRESHOLD_SIZE : f64 := f64_div (f64_of 2) (f64_of 3).
(** The binary64 nearest to 0.1. *)
Definition DUPLICATE_LIVENESS_THRESHOLD : f64 := S754_finite false 7205759403792794 (-56).
Definition DUPLICATE_THRESHOLD : f64 :=
  f64_sub (f64_sub (f64_of 1) SWITCH_FORK_THRESHOLD) DUPLICATE_LIVENESS_THRESHOLD.

(** * The tower *)

Inductive BlockhashStatus :=
| Uninitialized
| NonVoting
| HotSpare
| Blockhash (hash : Hash).

Record BlockTimestamp := {
  timestamp_slot : Slot;
  timestamp_time : Z;
}.

Record Tower := {
  tower_node_pubkey : Pubkey;
  threshold_depth : Z;
  threshold_size : f64;
  vote_state : TowerVoteState;
  last_vote : VoteTransaction;
  last_vote_tx_blockhash : BlockhashStatus;
  last_timestamp : BlockTimestamp;
  stray_restored_slot : option Slot;
  last_switch_threshold_check : option (Slot * SwitchForkDecision);
}.

(** [Tower::default]; the root of a tower is always set. *)
Definition Tower_default : Tower := {|
  tower_node_pubkey := 0;
  threshold_depth := VOTE_THRESHOLD_DEPTH;
  threshold_size := VOTE_THRESHOLD_SIZE;
  vote_state := {| votes := []; root_slot := Some 0 |};
  last_vote := TxTowerSync TowerSync_default 0;
  last_vote_tx_blockhash := Uninitialized;
  last_timestamp := {| timestamp_slot := 0; timestamp_time := 0 |};
  stray_restored_slot := None;
  last_switch_threshold_check := None;
|}.

(** The statistics of a frozen bank that the tower reads: [lockout_intervals] is
    keyed by the end of the interval. *)
Record ForkStats := {
  computed : bool;
  bank_hash : option Hash;
  lockout_intervals : list (Slot * list (Slot * Pubkey));
}.
Abbreviation ProgressMap := (gmap Slot ForkStats) (only parsing).

#[global] Instance slot_coded : Coded Z := {|
  code := λ x, [x];
  code_inj := ltac:(intros x y [= ->]; done);
|}.

Record ComputedBankState := {
  voted_stakes : gmap Slot Z;
  total_stake : Z;
  fork_stake : Z;
  computed_lockout_intervals : list (Slot * list (Slot * Pubkey));
  my_latest_landed_vote : option Slot;
}.

(** The result of [SlotHistory::check]. *)
Inductive Check :=
| Future
| TooOld
| Found
| NotFound.

#[global] Instance Check_eq_dec : EqDecision Check.
Proof. solve_decision. Defined.

(** The slot history, a type of the crate [solana-slot-history]. *)
Class SlotHistoryApi (SlotHistory : Type) := {
  history_check : SlotHistory → Slot → Check;
  history_oldest : SlotHistory → Slot;
  history_add : Slot → SlotHistory → SlotHistory;
}.

(** The errors of the adjustment of a tower; the others are those of reading a
    saved tower from its file. *)
Inductive TowerError :=
| TooOldTower (newest_in_tower oldest_in_history : Slot)
| FatallyInconsistent (reason : String.string).

(** A loop whose body can return from the function. *)
Fixpoint for_each_or_return {A S D} (f : A → S → outcome (S + D)) (l : list A) (s : S)
    : outcome (S + D) :=
  match l with
  | [] => Ret (inl s)
  | x :: l =>
      r ← f x s;
      match r with
      | inl s => for_each_or_return f l s
      | inr d => Ret (inr d)
      end
  end.

Module TowerOps.

(** Assignments to the fields. *)
Definition set_vote_state (v : TowerVoteState) (self : Tower) : Tower := {|
  tower_node_pubkey := tower_node_pubkey self; threshold_depth := threshold_depth self;
  threshold_size := threshold_size self; vote_state := v; last_vote := last_vote self;
  last_vote_tx_blockhash := last_vote_tx_blockhash self; last_timestamp := last_timestamp self;
  stray_restored_slot := stray_restored_slot self;
  last_switch_threshold_check := last_switch_threshold_check self |}.
Definition set_last_vote (tx : VoteTransaction) (ts : BlockTimestamp) (self : Tower) : Tower := {|
  tower_node_pubkey := tower_node_pubkey self; threshold_depth := threshold_depth self;
  threshold_size := threshold_size self; vote_state := vote_state self; last_vote := tx;
  last_vote_tx_blockhash := last_vote_tx_blockhash self; last_timestamp := ts;
  stray_restored_slot := stray_restored_slot self;
  last_switch_threshold_check := last_switch_threshold_check self |}.
Definition set_blockhash_status (s : BlockhashStatus) (self : Tower) : Tower := {|
  tower_node_pubkey := tower_node_pubkey self; threshold_depth := threshold_depth self;
  threshold_size := threshold_size self; vote_state := vote_state self; last_vote := last_vote self;
  last_vote_tx_blockhash := s; last_timestamp := last_timestamp self;
  stray_restored_slot := stray_restored_slot self;
  last_switch_threshold_check := last_switch_threshold_check self |}.
Definition set_stray (s : option Slot) (self : Tower) : Tower := {|
  tower_node_pubkey := tower_node_pubkey self; threshold_depth := threshold_depth self;
  threshold_size := threshold_size self; vote_state := vote_state self; last_vote := last_vote self;
  last_vote_tx_blockhash := last_vote_tx_blockhash self; last_timestamp := last_timestamp self;
  stray_restored_slot := s;
  last_switch_threshold_check := last_switch_threshold_check self |}.
Definition set_check (c : option (Slot * SwitchForkDecision)) (self : Tower) : Tower := {|
  tower_node_pubkey := tower_node_pubkey self; threshold_depth := threshold_depth self;
  threshold_size := threshold_size self; vote_state := vote_state self; last_vote := last_vote self;
  last_vote_tx_blockhash := last_vote_tx_blockhash self; last_timestamp := last_timestamp self;
  stray_restored_slot := stray_restored_slot self; last_switch_threshold_check := c |}.

(** ** Votes *)

Section votes.
Context `{LockoutApi, VoteTxApi}.

Definition tower_slots (self : Tower) : list Slot := TowerStack.tower (vote_state self).

Definition refresh_last_vote_tx_blockhash (new_vote_tx_blockhash : Hash) (self : Tower) : Tower :=
  set_blockhash_status (Blockhash new_vote_tx_blockhash) self.
Definition mark_last_vote_tx_blockhash_non_voting (self : Tower) : Tower :=
  set_blockhash_status NonVoting self.
Definition mark_last_vote_tx_blockhash_hot_spare (self : Tower) : Tower :=
  set_blockhash_status HotSpare self.

Definition root (self : Tower) : outcome Slot := unwrap (root_slot (vote_state self)).

(** [slot(len() - 1)] of a vote that is not empty. *)
Definition last_voted_slot (self : Tower) : option Slot :=
  if VoteTx.is_empty (last_vote self) then None
  else VoteTx.slots (last_vote self) !! (VoteTx.len (last_vote self) - 1)%nat.

Definition last_voted_slot_hash (self : Tower) : option (Slot * Hash) :=
  s ← last_voted_slot self; Some (s, VoteTx.hash (last_vote self)).

Definition is_stray_last_vote (self : Tower) : bool :=
  is_some (stray_restored_slot self) && bool_decide (stray_restored_slot self = last_voted_slot self).

(** [maybe_timestamp] at the time [now], in seconds. *)
Definition maybe_timestamp (now : Z) (current_slot : Slot) (self : Tower)
    : option Z * BlockTimestamp :=
  let last := last_timestamp self in
  if (timestamp_slot last <? current_slot) ||
     ((timestamp_slot last =? 0) && (current_slot =? timestamp_slot last)) then
    if timestamp_time last <=? now
    then (Some now, {| timestamp_slot := current_slot; timestamp_time := now |})
    else (None, last)
  else (None, last).

Definition refresh_last_vote_timestamp (heaviest_slot_on_same_fork : Slot) (self : Tower) : Tower :=
  let timestamp := match VoteTx.timestamp (last_vote self) with
    | Some last_vote_timestamp => Z.min (last_vote_timestamp + 1) (2 ^ 63 - 1)
    | None => Z.min (timestamp_time (last_timestamp self) + 1) (2 ^ 63 - 1)
    end in
  match VoteTx.last_voted_slot (last_vote self) with
  | Some last_voted_slot =>
      if heaviest_slot_on_same_fork <=? last_voted_slot then self
      else set_last_vote (VoteTx.set_timestamp (Some timestamp) (last_vote self))
             {| timestamp_slot := last_voted_slot; timestamp_time := timestamp |} self
  | None => self
  end.

(** [update_last_vote_from_vote_state]; the timestamp is computed while
    [last_vote] is still the previous vote. *)
Definition update_last_vote_from_vote_state (now : Z) (hash : Hash) (enable_tower_sync_ix : bool)
    (block_id : Hash) (self : Tower) : Tower :=
  let t := {| sync_lockouts := votes (vote_state self); sync_root := root_slot (vote_state self);
              sync_hash := hash; sync_timestamp := None |} in
  let new_vote := if enable_tower_sync_ix then TxTowerSync t block_id else TxVoteStateUpdate t in
  let '(ts, last) := maybe_timestamp now (default 0 (last_voted_slot self)) self in
  set_last_vote (VoteTx.set_timestamp ts new_vote) last self.

(** [record_bank_vote_and_update_lockouts]: the new root, if there is one. *)
Definition record_bank_vote_and_update_lockouts (now : Z) (vote_slot : Slot) (hash : Hash)
    (enable_tower_sync_ix : bool) (block_id : Hash) (self : Tower)
    : outcome (option Slot * Tower) :=
  assert_ (match TowerStack.last_voted_slot (vote_state self) with
           | Some last_voted_slot => negb (vote_slot <=? last_voted_slot)
           | None => true
           end) ;;
  old_root ← root self;
  vs ← TowerStack.process_next_vote_slot vote_slot (vote_state self);
  let self := update_last_vote_from_vote_state now hash enable_tower_sync_ix block_id
                (set_vote_state vs self) in
  new_root ← root self;
  Ret (if old_root =? new_root then None else Some new_root, self).

(** [record_bank_vote], on what it reads of the bank. *)
Definition record_bank_vote (now : Z) (bank_slot : Slot) (hash : Hash) (bank_block_id : option Hash)
    (enable_tower_sync_ix : bool) (self : Tower) : outcome (option Slot * Tower) :=
  record_bank_vote_and_update_lockouts now bank_slot hash enable_tower_sync_ix
    (default 0 bank_block_id) self.

Definition is_recent (self : Tower) (s : Slot) : bool :=
  match TowerStack.last_voted_slot (vote_state self) with
  | Some last_voted_slot => negb (s <=? last_voted_slot)
  | None =>
      match root_slot (vote_state self) with
      | Some root => negb (s <=? root)
      | None => true
      end
  end.

Definition has_voted (self : Tower) (s : Slot) : bool :=
  existsb (λ vote, s =? slot vote) (votes (vote_state self)).

Definition is_locked_out (self : Tower) (s : Slot) (ancestors : gset Slot) : outcome bool :=
  if negb (is_recent self s) then Ret true
  else
    vs ← TowerStack.process_next_vote_slot s (vote_state self);
    if existsb (λ vote, negb (s =? slot vote) && negb (bool_decide (slot vote ∈ ancestors)))
         (votes vs)
    then Ret true
    else
      assert_ (match root_slot vs with
               | Some root_slot => (s =? root_slot) || bool_decide (root_slot ∈ ancestors)
               | None => true
               end) ;;
      Ret false.

(** ** Stake thresholds *)

Definition optimistically_bypass_vote_stake_threshold_check
    (tower_before_applying_vote : list Lockout) (threshold_vote : Lockout) : bool :=
  existsb (λ old_vote, (slot old_vote =? slot threshold_vote) &&
                       (confirmation_count old_vote =? confirmation_count threshold_vote))
    tower_before_applying_vote.

Definition check_vote_stake_threshold (threshold_vote : option Lockout)
    (tower_before_applying_vote : list Lockout) (threshold_depth : Z) (threshold_size : f64)
    (voted_stakes : gmap Slot Z) (total_stake : Z) : ThresholdDecision :=
  match threshold_vote with
  | None => PassedThreshold
  | Some threshold_vote =>
      match voted_stakes !! slot threshold_vote with
      | None => FailedThreshold threshold_depth 0
      | Some fork_stake =>
          if optimistically_bypass_vote_stake_threshold_check tower_before_applying_vote
               threshold_vote || exceeds fork_stake total_stake threshold_size
          then PassedThreshold
          else FailedThreshold threshold_depth fork_stake
      end
  end.

Definition check_vote_stake_thresholds (self : Tower) (s : Slot) (voted_stakes : gmap Slot Z)
    (total_stake : Z) : outcome (list ThresholdDecision) :=
  vs ← TowerStack.process_next_vote_slot s (vote_state self);
  let vote_thresholds_and_depths :=
    [(VOTE_THRESHOLD_DEPTH_SHALLOW, SWITCH_FORK_THRESHOLD);
     (VOTE_THRESHOLD_DEPTH_SHALLOW + 1, SWITCH_FORK_THRESHOLD);
     (threshold_depth self, threshold_size self)] in
  Ret (filter (λ d, passed d = false)
    ((λ '(depth, size), check_vote_stake_threshold (TowerStack.nth_recent_lockout vs depth)
        (votes (vote_state self)) depth size voted_stakes total_stake) <$>
     vote_thresholds_and_depths)).

Definition is_slot_duplicate_confirmed (s : Slot) (voted_stakes : gmap Slot Z) (total_stake : Z)
    : bool :=
  match voted_stakes !! s with
  | Some stake => exceeds stake total_stake DUPLICATE_THRESHOLD
  | None => false
  end.

(** ** Stakes that voted for the ancestors of a bank *)

Definition populate_slot (vote_slot : Slot) (ancestors : gmap Slot (gset Slot))
    (voted_stakes : gmap Slot Z) : gmap Slot Z :=
  match ancestors !! vote_slot with
  | Some slot_ancestors =>
      fold_left (λ m s, <[s := default 0 (m !! s)]> m) (vote_slot :: elements slot_ancestors)
        voted_stakes
  | None => voted_stakes
  end.

Definition populate_ancestor_voted_stakes (vote_slots : list Slot)
    (ancestors : gmap Slot (gset Slot)) (voted_stakes : gmap Slot Z) : gmap Slot Z :=
  fold_left (λ m s, populate_slot s ancestors m) vote_slots voted_stakes.

(** [*voted_stakes.entry(s).or_default() += voted_stake]. *)
Definition add_stake (voted_stake : Z) (s : Slot) (voted_stakes : gmap Slot Z)
    : outcome (gmap Slot Z) :=
  n ← add_ u64_MAX (default 0 (voted_stakes !! s)) voted_stake;
  Ret (<[s := n]> voted_stakes).

Definition update_ancestor_voted_stakes (voted_slot : Slot) (voted_stake : Z)
    (ancestors : gmap Slot (gset Slot)) (voted_stakes : gmap Slot Z) : outcome (gmap Slot Z) :=
  match ancestors !! voted_slot with
  | Some vote_slot_ancestors =>
      for_each (add_stake voted_stake) (voted_slot :: elements vote_slot_ancestors) voted_stakes
  | None => Ret voted_stakes
  end.

(** The greatest slot of a set. *)
Definition set_max (s : gset Slot) : option Slot :=
  foldr (λ x acc, Some (match acc with Some y => Z.max x y | None => x end)) None (elements s).

(** The variables of the loop of [collect_vote_lockouts]. *)
Record Collecting := {
  c_vote_slots : gset Slot;
  c_voted_stakes : gmap Slot Z;
  c_total_stake : Z;
  c_lockout_intervals : list (Slot * list (Slot * Pubkey));
  c_my_latest_landed_vote : option Slot;
  c_latest_votes : LatestValidatorVotesForFrozenBanks;
}.

(** [lockout_intervals.entry(end).or_default().push((start, key))] for every vote. *)
Definition push_intervals (key : Pubkey) (vs : list Lockout)
    (intervals : list (Slot * list (Slot * Pubkey))) : list (Slot * list (Slot * Pubkey)) :=
  fold_left (λ m vote,
    let e := last_locked_out_slot vote in
    map_insert e (default [] (map_get e m) ++ [(slot vote, key)]) m) vs intervals.

Definition collect_account (vote_account_pubkey : Pubkey) (bank_slot : Slot)
    (ancestors : gmap Slot (gset Slot)) (get_frozen_hash : Slot → option Hash)
    (account : Pubkey * (Z * TowerVoteState)) (c : Collecting) : outcome Collecting :=
  let '(key, (voted_stake, vs)) := account in
  if voted_stake =? 0 then Ret c
  else
    let intervals := push_intervals key (votes vs) (c_lockout_intervals c) in
    let mine := if key =? vote_account_pubkey then slot <$> TowerStack.nth_recent_lockout vs 0
                else c_my_latest_landed_vote c in
    let start_root := root_slot vs in
    latest ← match TowerStack.last_voted_slot vs with
      | Some last_landed_voted_slot =>
          '(_, latest) ← check_add_vote key last_landed_voted_slot
                           (get_frozen_hash last_landed_voted_slot) true (c_latest_votes c);
          Ret latest
      | None => Ret (c_latest_votes c)
      end;
    vs ← TowerStack.process_next_vote_slot bank_slot vs;
    let vote_slots := c_vote_slots c ∪ list_to_set (slot <$> votes vs) in
    let vote_slots :=
      if bool_decide (start_root = root_slot vs) then vote_slots
      else match start_root with Some root => {[root]} ∪ vote_slots | None => vote_slots end in
    let vote_slots :=
      match root_slot vs with Some root => {[root]} ∪ vote_slots | None => vote_slots end in
    assert_ (bool_decide (slot <$> TowerStack.nth_recent_lockout vs 0 = Some bank_slot)) ;;
    stakes ← match TowerStack.nth_recent_lockout vs 1 with
      | Some vote => update_ancestor_voted_stakes (slot vote) voted_stake ancestors (c_voted_stakes c)
      | None => Ret (c_voted_stakes c)
      end;
    total ← add_ u64_MAX (c_total_stake c) voted_stake;
    Ret {| c_vote_slots := vote_slots; c_voted_stakes := stakes; c_total_stake := total;
           c_lockout_intervals := intervals; c_my_latest_landed_vote := mine;
           c_latest_votes := latest |}.

(** [collect_vote_lockouts]; the vote accounts come in the order of the
    iteration over their map. *)
Definition collect_vote_lockouts (vote_account_pubkey : Pubkey) (bank_slot : Slot)
    (vote_accounts : list (Pubkey * (Z * TowerVoteState))) (ancestors : gmap Slot (gset Slot))
    (get_frozen_hash : Slot → option Hash) (latest : LatestValidatorVotesForFrozenBanks)
    : outcome (ComputedBankState * LatestValidatorVotesForFrozenBanks) :=
  c ← for_each (collect_account vote_account_pubkey bank_slot ancestors get_frozen_hash)
        vote_accounts
        {| c_vote_slots := ∅; c_voted_stakes := ∅; c_total_stake := 0;
           c_lockout_intervals := []; c_my_latest_landed_vote := None; c_latest_votes := latest |};
  let stakes := populate_ancestor_voted_stakes (elements (c_vote_slots c)) ancestors
                  (c_voted_stakes c) in
  let fork_stake := default 0
    (bank_ancestors ← ancestors !! bank_slot; parent ← set_max bank_ancestors; stakes !! parent) in
  Ret ({| voted_stakes := stakes; total_stake := c_total_stake c; fork_stake := fork_stake;
          computed_lockout_intervals := c_lockout_intervals c;
          my_latest_landed_vote := c_my_latest_landed_vote c |}, c_latest_votes c).

(** ** Switching forks *)

Definition is_descendant_slot (maybe_descendant s : Slot) (ancestors : gmap Slot (gset Slot))
    : option bool :=
  (λ candidate_slot_ancestors : gset Slot, bool_decide (s ∈ candidate_slot_ancestors)) <$>
  ancestors !! maybe_descendant.

Definition greatest_common_ancestor (ancestors : gmap Slot (gset Slot)) (slot_a slot_b : Slot)
    : option Slot :=
  a ← ancestors !! slot_a; b ← ancestors !! slot_b; set_max (a ∩ b).

Definition is_valid_switching_proof_vote (self : Tower)
    (candidate_slot last_voted_slot switch_slot : Slot) (ancestors : gmap Slot (gset Slot))
    (last_vote_ancestors : gset Slot) : outcome (option bool) :=
  match is_descendant_slot candidate_slot last_voted_slot ancestors with
  | None => Ret None
  | Some true => Ret (Some false)
  | Some false =>
      if bool_decide (last_vote_ancestors = ∅) then
        assert_ (is_stray_last_vote self) ;; Ret (Some true)
      else
        Ret (ancestor ← greatest_common_ancestor ancestors candidate_slot last_voted_slot;
             is_descendant_slot switch_slot ancestor ancestors)
  end.

(** Whether the statistics of a slot are computed. *)
Definition is_computed (progress : ProgressMap) (s : Slot) : bool :=
  match progress !! s with Some stats => computed stats | None => false end.

(** The stake counted so far, and whose it is. *)
Record Counted := {
  locked_out_stake : Z;
  locked_out_vote_accounts : gset Pubkey;
}.

(** Adds the stake of one account, and returns once the threshold is exceeded. *)
Definition count_account (total_stake : Z) (epoch_vote_accounts : gmap Pubkey Z)
    (vote_account_pubkey : Pubkey) (c : Counted) : outcome (Counted + SwitchForkDecision) :=
  let stake := default 0 (epoch_vote_accounts !! vote_account_pubkey) in
  n ← add_ u64_MAX (locked_out_stake c) stake;
  if exceeds n total_stake SWITCH_FORK_THRESHOLD then Ret (inr (SwitchProof 0))
  else Ret (inl {| locked_out_stake := n;
                   locked_out_vote_accounts := {[vote_account_pubkey]} ∪ locked_out_vote_accounts c |}).

(** The intervals of one candidate that reach the last vote, in their order. *)
Definition count_interval (root : Slot) (last_vote_ancestors : gset Slot) (total_stake : Z)
    (epoch_vote_accounts : gmap Pubkey Z) (interval : Slot * Pubkey) (c : Counted)
    : outcome (Counted + SwitchForkDecision) :=
  let '(lockout_interval_start, vote_account_pubkey) := interval in
  if bool_decide (vote_account_pubkey ∈ locked_out_vote_accounts c) then Ret (inl c)
  else if negb (bool_decide (lockout_interval_start ∈ last_vote_ancestors)) &&
          (root <? lockout_interval_start)
  then count_account total_stake epoch_vote_accounts vote_account_pubkey c
  else Ret (inl c).

Definition skip_candidate (self : Tower) (root last_voted_slot switch_slot : Slot)
    (ancestors : gmap Slot (gset Slot)) (last_vote_ancestors : gset Slot) (progress : ProgressMap)
    (candidate_slot : Slot) (descendants : gset Slot) : outcome bool :=
  if negb (is_computed progress candidate_slot) then Ret true
  else if existsb (is_computed progress) (elements descendants) then Ret true
  else if candidate_slot =? last_voted_slot then Ret true
  else if candidate_slot <=? root then Ret true
  else
    r ← is_valid_switching_proof_vote self candidate_slot last_voted_slot switch_slot ancestors
          last_vote_ancestors;
    b ← unwrap r;
    Ret (negb b).

Definition count_candidate (self : Tower) (root last_voted_slot switch_slot : Slot)
    (ancestors : gmap Slot (gset Slot)) (last_vote_ancestors : gset Slot) (progress : ProgressMap)
    (total_stake : Z) (epoch_vote_accounts : gmap Pubkey Z) (candidate : Slot * gset Slot)
    (c : Counted) : outcome (Counted + SwitchForkDecision) :=
  let '(candidate_slot, descendants) := candidate in
  skip ← skip_candidate self root last_voted_slot switch_slot ancestors last_vote_ancestors
           progress candidate_slot descendants;
  if (skip : bool) then Ret (inl c)
  else
    assert_ (negb (bool_decide (candidate_slot ∈ last_vote_ancestors))) ;;
    stats ← unwrap (progress !! candidate_slot);
    for_each_or_return (count_interval root last_vote_ancestors total_stake epoch_vote_accounts)
      (filter (λ x, last_voted_slot ≤ x.1) (lockout_intervals stats) ≫= snd) c.

Definition count_gossip (self : Tower) (last_voted_slot switch_slot : Slot)
    (ancestors : gmap Slot (gset Slot)) (last_vote_ancestors : gset Slot) (total_stake : Z)
    (epoch_vote_accounts : gmap Pubkey Z) (vote : Pubkey * (Slot * list Hash)) (c : Counted)
    : outcome (Counted + SwitchForkDecision) :=
  let '(vote_account_pubkey, (candidate_latest_frozen_vote, _)) := vote in
  if bool_decide (vote_account_pubkey ∈ locked_out_vote_accounts c) then Ret (inl c)
  else
    valid ← (if last_voted_slot <? candidate_latest_frozen_vote then
               r ← is_valid_switching_proof_vote self candidate_latest_frozen_vote last_voted_slot
                     switch_slot ancestors last_vote_ancestors;
               Ret (default false r)
             else Ret false);
    if (valid : bool) then count_account total_stake epoch_vote_accounts vote_account_pubkey c
    else Ret (inl c).

(** The stake that is locked out on other forks, first on the banks, then by
    gossip votes that have not landed yet. *)
Definition count_locked_out (self : Tower) (root last_voted_slot switch_slot : Slot)
    (ancestors : gmap Slot (gset Slot)) (last_vote_ancestors : gset Slot)
    (descendants : list (Slot * gset Slot)) (progress : ProgressMap) (total_stake : Z)
    (epoch_vote_accounts : gmap Pubkey Z) (gossip_votes : list (Pubkey * (Slot * list Hash)))
    : outcome SwitchForkDecision :=
  r ← for_each_or_return (count_candidate self root last_voted_slot switch_slot ancestors
         last_vote_ancestors progress total_stake epoch_vote_accounts) descendants
        {| locked_out_stake := 0; locked_out_vote_accounts := ∅ |};
  match r with
  | inr d => Ret d
  | inl c =>
      r ← for_each_or_return (count_gossip self last_voted_slot switch_slot ancestors
             last_vote_ancestors total_stake epoch_vote_accounts) gossip_votes c;
      match r with
      | inr d => Ret d
      | inl c => Ret (FailedSwitchThreshold (locked_out_stake c) total_stake)
      end
  end.

(** The part of the decision that depends on duplicate blocks: it is made when an
    ancestor of the last vote is invalid. *)
Definition rollback_decision (switch_slot last_voted_slot : Slot) (switch_hash last_voted_hash : Hash)
    (progress : ProgressMap) (fork_choice : HeaviestSubtreeForkChoice)
    : outcome (option SwitchForkDecision) :=
  match Fork.latest_invalid_ancestor fork_choice (last_voted_slot, last_voted_hash) with
  | None => Ret None
  | Some latest_duplicate_ancestor =>
      strict ← Fork.is_strict_ancestor fork_choice (switch_slot, switch_hash)
                 (last_voted_slot, last_voted_hash);
      if (strict : bool) then Ret (Some (FailedSwitchDuplicateRollback latest_duplicate_ancestor))
      else if match progress !! last_voted_slot ≫= bank_hash with
              | Some current_slot_hash => negb (current_slot_hash =? last_voted_hash)
              | None => true
              end
      then Ret (Some (SwitchProof 0))
      else Ret None
  end.

Definition make_check_switch_threshold_decision (self : Tower) (switch_slot : Slot)
    (ancestors : gmap Slot (gset Slot)) (descendants : list (Slot * gset Slot))
    (progress : ProgressMap) (total_stake : Z) (epoch_vote_accounts : gmap Pubkey Z)
    (gossip_votes : list (Pubkey * (Slot * list Hash))) (fork_choice : HeaviestSubtreeForkChoice)
    : outcome SwitchForkDecision :=
  match last_voted_slot_hash self with
  | None => Ret SameFork
  | Some (last_voted_slot, last_voted_hash) =>
      root ← root self;
      switch_hash ← unwrap (progress !! switch_slot ≫= bank_hash);
      rollback ← rollback_decision switch_slot last_voted_slot switch_hash last_voted_hash
                   progress fork_choice;
      match rollback with
      | Some d => Ret d
      | None =>
          last_vote_ancestors ← match ancestors !! last_voted_slot with
            | Some l => Ret l
            | None => if is_stray_last_vote self then Ret ∅ else Panic
            end;
          switch_slot_ancestors ← unwrap (ancestors !! switch_slot);
          if (switch_slot =? last_voted_slot) ||
             bool_decide (last_voted_slot ∈ (switch_slot_ancestors : gset Slot))
          then Ret SameFork
          else if bool_decide (switch_slot ∈ (last_vote_ancestors : gset Slot)) then
            if is_stray_last_vote self then Ret (FailedSwitchThreshold 0 total_stake) else Panic
          else
            count_locked_out self root last_voted_slot switch_slot ancestors last_vote_ancestors
              descendants progress total_stake epoch_vote_accounts gossip_votes
      end
  end.

Definition check_switch_threshold (switch_slot : Slot) (ancestors : gmap Slot (gset Slot))
    (descendants : list (Slot * gset Slot)) (progress : ProgressMap) (total_stake : Z)
    (epoch_vote_accounts : gmap Pubkey Z) (gossip_votes : list (Pubkey * (Slot * list Hash)))
    (fork_choice : HeaviestSubtreeForkChoice) (self : Tower)
    : outcome (SwitchForkDecision * Tower) :=
  decision ← make_check_switch_threshold_decision self switch_slot ancestors descendants progress
               total_stake epoch_vote_accounts gossip_votes fork_choice;
  let new_check := Some (switch_slot, decision) in
  Ret (decision, if bool_decide (new_check = last_switch_threshold_check self) then self
                 else set_check new_check self).

(** ** Restarts *)

Definition voted_slots (self : Tower) : list Slot := slot <$> votes (vote_state self).

Definition initialize_root (root : Slot) (self : Tower) : Tower :=
  set_vote_state {| votes := votes (vote_state self); root_slot := Some root |} self.

(** [initialize_lockouts] with a closure that looks at the vote. *)
Definition initialize_lockouts (should_retain : Lockout → bool) (self : Tower) : Tower :=
  set_vote_state {| votes := filter (λ v, should_retain v = true) (votes (vote_state self));
                    root_slot := root_slot (vote_state self) |} self.

(** [initialize_lockouts] with a closure that takes one flag per vote. *)
Fixpoint retain_flagged (flags : list bool) (vs : list Lockout) : outcome (list Lockout) :=
  match vs with
  | [] => Ret []
  | v :: vs =>
      match flags with
      | [] => Panic
      | b :: flags =>
          vs ← retain_flagged flags vs;
          Ret (if (b : bool) then v :: vs else vs)
      end
  end.

(** [initialize_lockouts_from_bank]; [vote_account] is the tower of the vote
    account in the bank, if the bank has it. *)
Definition initialize_lockouts_from_bank (vote_account : option TowerVoteState) (root : Slot)
    (self : Tower) : Tower :=
  match vote_account with
  | Some vs =>
      initialize_lockouts (λ v, root <? slot v) (initialize_root root (set_vote_state vs self))
  | None => initialize_root root self
  end.

Definition new (node_pubkey : Pubkey) (root : Slot) (vote_account : option TowerVoteState)
    : Tower :=
  initialize_lockouts_from_bank vote_account root
    {| tower_node_pubkey := node_pubkey; threshold_depth := threshold_depth Tower_default;
       threshold_size := threshold_size Tower_default; vote_state := vote_state Tower_default;
       last_vote := last_vote Tower_default;
       last_vote_tx_blockhash := last_vote_tx_blockhash Tower_default;
       last_timestamp := last_timestamp Tower_default;
       stray_restored_slot := stray_restored_slot Tower_default;
       last_switch_threshold_check := last_switch_threshold_check Tower_default |}.

Section restart.
Context {SlotHistory : Type} `{SlotHistoryApi SlotHistory}.

(** The variables of the loop of [adjust_lockouts_with_slot_history]. *)
Record Adjusting := {
  retain_flags : list bool;
  still_in_future : bool;
  past_outside_history : bool;
  checked_slot : option Slot;
  anchored_slot : option Slot;
}.

Definition adjust_step (slot_history : SlotHistory) (tower_root : Slot) (slot_in_tower : Slot)
    (a : Adjusting) : outcome (result Adjusting TowerError) :=
  let check := history_check slot_history slot_in_tower in
  if is_some (anchored_slot a) && bool_decide (check = NotFound)
  then Ret (Err (FatallyInconsistent "diverged ancestor?"%string))
  else
    let anchored :=
      if negb (is_some (anchored_slot a)) && bool_decide (check = Found) then Some slot_in_tower
      else anchored_slot a in
    if negb (still_in_future a) && bool_decide (check = Future)
    then Ret (Err (FatallyInconsistent "time warped?"%string))
    else
      let future := still_in_future a && bool_decide (check = Future) in
      if past_outside_history a && negb (bool_decide (check = TooOld))
      then Ret (Err (FatallyInconsistent "not too old once after got too old?"%string))
      else
        assert_ (match checked_slot a with
                 | Some checked_slot =>
                     ((slot_in_tower =? checked_slot) && (slot_in_tower =? tower_root)) ||
                     (slot_in_tower <? checked_slot)
                 | None => true
                 end) ;;
        Ret (Ok {| retain_flags := retain_flags a ++ [negb (is_some anchored)];
                   still_in_future := future;
                   past_outside_history := past_outside_history a || bool_decide (check = TooOld);
                   checked_slot := Some slot_in_tower;
                   anchored_slot := anchored |}).

Fixpoint adjust_loop (slot_history : SlotHistory) (tower_root : Slot) (slots : list Slot)
    (a : Adjusting) : outcome (result Adjusting TowerError) :=
  match slots with
  | [] => Ret (Ok a)
  | s :: slots =>
      a ←? adjust_step slot_history tower_root s a;
      adjust_loop slot_history tower_root slots a
  end.

Definition adjust_lockouts_with_slot_history (slot_history : SlotHistory) (self : Tower)
    : outcome (result Tower TowerError) :=
  tower_root ← root self;
  let slots_in_tower := tower_root :: voted_slots self in
  a ←? adjust_loop slot_history tower_root (rev slots_in_tower)
         {| retain_flags := []; still_in_future := true; past_outside_history := false;
            checked_slot := None; anchored_slot := None |};
  if negb (is_some (anchored_slot a))
  then Ret (Err (FatallyInconsistent "no common slot for rooted tower"%string))
  else
    assert_ (length slots_in_tower =? length (retain_flags a))%nat ;;
    let flags := rev (take (length (retain_flags a) - 1) (retain_flags a)) in
    vs ← retain_flagged flags (votes (vote_state self));
    let self := set_vote_state {| votes := vs; root_slot := root_slot (vote_state self) |} self in
    if bool_decide (vs = []) then
      Ret (Ok (set_last_vote (TxVote Vote_default) (last_timestamp self) self))
    else
      assert_ (bool_decide (last_voted_slot self = last (voted_slots self))) ;;
      Ret (Ok (set_stray (VoteTx.last_voted_slot (last_vote self)) self)).

Definition adjust_lockouts_after_replay (replayed_root : Slot) (slot_history : SlotHistory)
    (self : Tower) : outcome (result Tower TowerError) :=
  tower_root ← root self;
  assert_ (bool_decide (history_check slot_history replayed_root = Found)) ;;
  assert_ (bool_decide (last_vote self = TxVoteStateUpdate TowerSync_default)
             && bool_decide (votes (vote_state self) = []) ||
           bool_decide (last_vote self = TxTowerSync TowerSync_default 0)
             && bool_decide (votes (vote_state self) = []) ||
           negb (bool_decide (votes (vote_state self) = []))) ;;
  match last_voted_slot self with
  | Some last_voted_slot =>
      if tower_root <=? replayed_root then
        if bool_decide (history_check slot_history last_voted_slot = TooOld)
        then Ret (Err (TooOldTower last_voted_slot (history_oldest slot_history)))
        else
          self ←? adjust_lockouts_with_slot_history slot_history self;
          Ret (Ok (initialize_root replayed_root self))
      else
        adjust_lockouts_with_slot_history (history_add tower_root slot_history) self
  | None =>
      assert_ (tower_root =? replayed_root) ;;
      Ret (Ok self)
  end.

End restart.
End votes.
End TowerOps.
