(* ===== verification/TowerProps.v ===== *)
(** What the tower guarantees: a validator that asks [is_locked_out] before it
    votes never violates a lockout. *)

From S2P Require Import Prelude BTree Tower ForkChoice LatestVotes.
From S2P Require Import VoteInterface LockoutProps VoteState Tower.

(** * Lockouts on a tree of blocks *)

(** The ancestors of a slot, on the tree of banks. *)
Record AncestorLaws (anc : Slot → gset Slot) : Prop := {
  anc_trans x y : x ∈ anc y → anc x ⊆ anc y;
  anc_lt x y : x ∈ anc y → x < y;
}.

Section lockouts.
Context `{LockoutLaws, VoteTxApi}.
Context (anc : Slot → gset Slot) (Hanc : AncestorLaws anc).
Implicit Types (v w : Lockout) (st : TowerVoteState) (t : Tower).

Definition below v w : Prop := slot v ∈ anc (slot w).

(** The votes of the stack are on one fork, above the root. *)
Record OneFork st : Prop := {
  fork_wf : WfTower st;
  fork_chain : StronglySorted below (votes st);
  fork_root : ∃ r, root_slot st = Some r ∧ ∀ v, v ∈ votes st → r ∈ anc (slot v);
}.

Lemma below_last vs v w :
  StronglySorted below vs → last vs = Some w → v ∈ vs → v = w ∨ below v w.
Proof.
  intros Hs (vs' & ->)%last_Some [Hv|Hv]%elem_of_app; [right|left; by apply list_elem_of_singleton in Hv].
  eapply (StronglySorted_app_1_elem_of below); [exact Hs|done|by left].
Qed.

(** Some vote on another fork is still locked out at [s]. *)
Definition conflicts st (s : Slot) : Prop :=
  ∃ w, w ∈ votes st ∧ (slot w ∉ anc s) ∧ s ≤ last_locked_out_slot w.

Lemma OneFork_later st s :
  WfTower st → (∃ r, root_slot st = Some r ∧ r < s) →
  (∀ l, TowerStack.last_voted_slot st = Some l → l < s) → later s st.
Proof.
  intros [[Hs _] _] (r & Hr & ?) Hl. split; [|intros r' Hr'; assert (r' = r) as -> by congruence; done].
  intros v Hv. destruct (last (votes st)) as [w|] eqn:Hw.
  - pose proof (last_slot_max _ _ _ Hs Hw Hv). specialize (Hl (slot w)).
    unfold TowerStack.last_voted_slot, TowerStack.last_lockout in Hl. rewrite Hw in Hl.
    specialize (Hl eq_refl). lia.
  - apply last_None in Hw. rewrite Hw in Hv. set_solver.
Qed.

Lemma fork_sublist (l1 l2 l3 : list Lockout) :
  StronglySorted below (l1 ++ l2 ++ l3) → StronglySorted below (l1 ++ l2).
Proof. rewrite app_assoc. apply StronglySorted_app_1_l. Qed.

(** The votes that stay are those at or below one that is locked out at [s]. *)
Lemma kept_on_fork st s rooted kept expired :
  StronglySorted below (rooted ++ kept ++ expired) → kept ≠ [] →
  votes st = rooted ++ kept ++ expired →
  Forall (λ v, last_locked_out_slot v < s) expired →
  (∀ v, last (rooted ++ kept) = Some v → s ≤ last_locked_out_slot v) →
  (∃ v, v ∈ rooted ++ kept ∧ slot v ∉ anc s) ↔ conflicts st s.
Proof.
  intros Hch Hne Heq Hex Hlast. pose proof (fork_sublist _ _ _ Hch) as Hch'.
  destruct (last (rooted ++ kept)) as [top|] eqn:Htop.
  2: { apply last_None, app_nil in Htop as [_ ->]. done. }
  assert (top ∈ rooted ++ kept) as Hin by (apply last_Some in Htop as [? ->]; set_solver).
  assert (top ∈ votes st) by (rewrite Heq, app_assoc; apply elem_of_app; by left).
  split.
  - intros (v & Hv & Hna). exists top. split; [done|]. split; [|by apply Hlast].
    intros Ha. destruct (below_last _ _ _ Hch' Htop Hv) as [->|Hb]; [done|].
    apply Hna, (anc_trans _ Hanc (slot top)); done.
  - intros (w & Hw & Hna & Hle). exists w. split; [|done].
    rewrite Heq, app_assoc in Hw. apply elem_of_app in Hw as [|Hw]; [done|].
    rewrite Forall_forall in Hex. specialize (Hex w Hw). lia.
Qed.

(** ** Asking, and voting *)

Lemma is_recent_spec t s :
  (∃ r, root_slot (vote_state t) = Some r ∧ r < s) →
  TowerOps.is_recent t s = true ↔
  (∀ l, TowerStack.last_voted_slot (vote_state t) = Some l → l < s).
Proof.
  intros (r & Hr & ?). unfold TowerOps.is_recent. rewrite Hr.
  destruct (TowerStack.last_voted_slot _) as [l|].
  - case_leb; simpl; split; try done; [intros Hl; specialize (Hl l eq_refl); lia|].
    intros _ ? [= <-]. lia.
  - rewrite (proj2 (Z.leb_gt _ _)) by lia. by split.
Qed.

(** What [is_locked_out] looks for in the simulated stack. *)
Definition off_fork (s : Slot) st' : bool :=
  existsb (λ vote, negb (s =? slot vote) && negb (bool_decide (slot vote ∈ anc s))) (votes st').

Lemma off_fork_spec st st' s rooted kept expired :
  later s st → votes st = rooted ++ kept ++ expired →
  votes st' = confirm kept ++ [{| slot := s; confirmation_count := 1 |}] →
  off_fork s st' = true ↔ ∃ v, v ∈ kept ∧ slot v ∉ anc s.
Proof.
  intros [Hl _] Heq Heq'. unfold off_fork. rewrite existsb_exists. split.
  - intros (w & Hw%list_elem_of_In & Hb). bsimp. rewrite Heq' in Hw.
    apply elem_of_app in Hw as [Hw| ->%list_elem_of_singleton]; [|simpl in *; done].
    apply (list_elem_of_fmap_2 slot) in Hw. rewrite confirm_slots in Hw.
    apply list_elem_of_fmap in Hw as (v & Hv & Hin). exists v. by rewrite <-Hv.
  - intros (v & Hv & Hna). destruct (elem_of_confirm _ _ Hv) as (w & Hw & Hs & _). exists w.
    split; [apply list_elem_of_In; rewrite Heq'; apply elem_of_app; by left|].
    rewrite Hs. apply andb_true_iff. rewrite !negb_true_iff. split; [|by apply bool_decide_eq_false].
    apply Z.eqb_neq. assert (slot v < s); [|lia]. apply Hl. rewrite Heq, !elem_of_app. auto.
Qed.

Lemma confirm_chain s kept :
  StronglySorted below kept → (∀ v, v ∈ kept → slot v ∈ anc s) →
  StronglySorted below (confirm kept ++ [{| slot := s; confirmation_count := 1 |}]).
Proof.
  intros Hs Hall. induction kept as [|v kept IH]; simpl; [repeat constructor|].
  apply StronglySorted_inv in Hs as [Hs Hd]. constructor; [apply IH; set_solver|].
  rewrite Forall_forall in Hd |- *. intros w [Hw| ->%list_elem_of_singleton]%elem_of_app.
  - apply (list_elem_of_fmap_2 slot) in Hw. rewrite confirm_slots in Hw.
    apply list_elem_of_fmap in Hw as (u & Hu & Hin). unfold below. simpl. rewrite Hu. by apply Hd.
  - unfold below; simpl. apply Hall. by left.
Qed.

Lemma push_fork st s r :
  OneFork st → root_slot st = Some r → r ∈ anc s → later s st →
  ∃ st', TowerStack.process_next_vote_slot s st = Ret st' ∧ WfTower st' ∧ Pushed s st st' ∧
    (off_fork s st' = true ↔ conflicts st s) ∧
    (¬ conflicts st s → OneFork st' ∧ ∃ r', root_slot st' = Some r' ∧ r' ∈ anc s).
Proof.
  intros [Hwf Hch (r0 & Hr0 & Hra)] Hr Hrs Hl. assert (r0 = r) as -> by congruence.
  destruct (process_next_vote_slot_wf s st Hwf Hl) as (st' & Hst' & Hwf' & HP).
  exists st'. do 3 (split; [done|]). pose proof HP as [(rooted & kept & expired & Heq & Heq' & Hex & Hlast & Hroot)].
  rewrite Heq in Hch. pose proof history_range.
  assert (off_fork s st' = true ↔ conflicts st s) as Hoff.
  { rewrite (off_fork_spec st st' s _ _ _ Hl Heq Heq'). split.
    - intros (v & Hv & Hna). eapply kept_on_fork; [done| |done..|]; [intros ->; by apply not_elem_of_nil in Hv|].
      exists v. split; [apply elem_of_app; by right|done].
    - intros Hc. assert (kept ≠ []) as Hne.
      { intros ->. destruct Hc as (w & Hw & _ & Hle). rewrite Heq in Hw.
        destruct rooted as [|u []]; [|simpl in Hroot; lia|done].
        rewrite Forall_forall in Hex. specialize (Hex w Hw). lia. }
      eapply (kept_on_fork st s) in Hc as (v & Hv & Hna); [|done..].
      destruct (last kept) as [top|] eqn:Htop; [|by apply last_None in Htop].
      exists top. split; [apply last_Some in Htop as [? ->]; set_solver|].
      intros Ha. apply Hna. destruct (below_last (rooted ++ kept) v top) as [->|Hb];
        [by eapply fork_sublist|by rewrite last_app, Htop|done|done|].
      by apply (anc_trans _ Hanc (slot top)). }
  split; [done|]. intros Hnc.
  assert (∀ v, v ∈ kept → slot v ∈ anc s) as Hkept.
  { intros v Hv. destruct (decide (slot v ∈ anc s)); [done|]. destruct Hnc. apply Hoff.
    eapply off_fork_spec; [done..|]. by exists v. }
  assert (∃ r', root_slot st' = Some r' ∧ r' ∈ anc s ∧ ∀ v, v ∈ kept → r' ∈ anc (slot v))
    as (r' & Hr' & Hrs' & Hra').
  { destruct rooted as [|u []]; [|destruct Hroot as [Hroot Hlen]|done].
    - exists r. split; [congruence|]. split; [done|]. intros v Hv. apply Hra. rewrite Heq, !elem_of_app. auto.
    - simpl in Hch. apply StronglySorted_inv in Hch as [_ Hd]. rewrite Forall_forall in Hd.
      exists (slot u). split; [done|]. destruct kept as [|w kept]; [simpl in Hlen; lia|].
      split; [|intros v Hv; apply Hd, elem_of_app; by left].
      apply (anc_trans _ Hanc (slot w)); [apply Hkept; by left|apply Hd; by left]. }
  split; [|by exists r']. constructor; [done| |].
  - rewrite Heq'. apply confirm_chain; [|done]. apply fork_sublist in Hch.
    by apply StronglySorted_app_1_r in Hch.
  - exists r'. split; [done|]. intros v Hv. destruct (Pushed_votes _ _ _ _ HP Hv) as [->|_]; [done|].
    rewrite Heq' in Hv. apply elem_of_app in Hv as [Hv| ->%list_elem_of_singleton]; [|done].
    apply (list_elem_of_fmap_2 slot) in Hv. rewrite confirm_slots in Hv.
    apply list_elem_of_fmap in Hv as (u & -> & Hu). by apply Hra'.
Qed.

Lemma is_locked_out_exact t s r :
  OneFork (vote_state t) → root_slot (vote_state t) = Some r → r ∈ anc s →
  ∃ b, TowerOps.is_locked_out t s (anc s) = Ret b ∧
    (b = false ↔ later s (vote_state t) ∧ ¬ conflicts (vote_state t) s).
Proof.
  intros Hf Hr Hrs. pose proof (anc_lt _ Hanc _ _ Hrs) as Hlt. unfold TowerOps.is_locked_out.
  assert (TowerOps.is_recent t s = true ↔ later s (vote_state t)) as Hrec.
  { rewrite is_recent_spec by (by exists r). split.
    - intros Hl. apply OneFork_later; [apply Hf|by exists r|done].
    - intros [Hv _] l Hl. unfold TowerStack.last_voted_slot, TowerStack.last_lockout in Hl.
      destruct (last _) as [w|] eqn:Hw; [|done]. injection Hl as <-. apply Hv.
      apply last_Some in Hw as [? ->]. set_solver. }
  destruct (TowerOps.is_recent t s) eqn:Hre; simpl.
  - destruct (push_fork (vote_state t) s r Hf Hr Hrs) as (st' & -> & _ & HP & Hoff & Hok); [by apply Hrec|].
    cbn [mbind outcome_bind]. fold (off_fork s st'). destruct (off_fork s st').
    + exists true. split; [done|]. split; [done|]. intros [_ []]. by apply Hoff.
    + assert (¬ conflicts (vote_state t) s) as Hnc by (intros Hc%Hoff; done).
      destruct (Hok Hnc) as (_ & r' & -> & Hr'). rewrite bool_decide_true, orb_true_r by done.
      exists false. split; [done|]. split; [|done]. intros _. split; [by apply Hrec|done].
  - exists true. split; [done|]. split; [done|]. intros [Hl%Hrec _]. done.
Qed.

Lemma record_vote_spec t s r now hash bid b :
  OneFork (vote_state t) → root_slot (vote_state t) = Some r → r ∈ anc s →
  later s (vote_state t) → ¬ conflicts (vote_state t) s →
  ∃ nr t', TowerOps.record_bank_vote now s hash bid b t = Ret (nr, t') ∧
    OneFork (vote_state t') ∧ Pushed s (vote_state t) (vote_state t').
Proof.
  intros Hf Hr Hrs Hl Hnc. unfold TowerOps.record_bank_vote, TowerOps.record_bank_vote_and_update_lockouts.
  assert (match TowerStack.last_voted_slot (vote_state t) with
    Some l => negb (s <=? l) | None => true end = true) as ->.
  { unfold TowerStack.last_voted_slot, TowerStack.last_lockout. destruct (last _) as [w|] eqn:Hw; [|done].
    simpl. apply negb_true_iff, Z.leb_gt, (proj1 Hl). apply last_Some in Hw as [? ->]. set_solver. }
  unfold TowerOps.root. rewrite Hr. cbn [assert_ unwrap mbind outcome_bind].
  destruct (push_fork (vote_state t) s r) as (st' & -> & _ & HP & _ & Hok); [done..|].
  destruct (Hok Hnc) as [Hf' (r' & Hr' & _)]. cbn [mbind outcome_bind].
  set (t' := TowerOps.update_last_vote_from_vote_state _ _ _ _ _).
  assert (vote_state t' = st') as Hv.
  { unfold t', TowerOps.update_last_vote_from_vote_state. by destruct (TowerOps.maybe_timestamp _ _ _). }
  rewrite Hv, Hr'. cbn [unwrap mbind outcome_bind]. do 2 eexists. split; [done|]. by rewrite Hv.
Qed.

(** ** Histories of votes *)

(** A vote that [is_locked_out] allows, for a bank above the root. *)
Inductive cast : relation Tower :=
| cast_intro t s r now hash bid b nr t' :
    root_slot (vote_state t) = Some r → r ∈ anc s →
    TowerOps.is_locked_out t s (anc s) = Ret false →
    TowerOps.record_bank_vote now s hash bid b t = Ret (nr, t') →
    cast t t'.

(** How a vote of an earlier tower shows in a later one. *)
Definition settled_vote st v : Prop :=
  (∃ r, root_slot st = Some r ∧ (slot v = r ∨ slot v ∈ anc r)) ∨
  (∃ w, w ∈ votes st ∧ slot w = slot v ∧ confirmation_count v ≤ confirmation_count w) ∨
  (∃ w, w ∈ votes st ∧ last_locked_out_slot v < slot w).

Lemma cast_pushed t t' :
  OneFork (vote_state t) → cast t t' →
  ∃ s, later s (vote_state t) ∧ OneFork (vote_state t') ∧ Pushed s (vote_state t) (vote_state t').
Proof.
  intros Hf Hc. destruct Hc as [t0 s r now hash bid b nr t1 Hr Hrs Hlo Hrec].
  destruct (is_locked_out_exact t0 s r Hf Hr Hrs) as (b' & Hb' & Hiff).
  assert (b' = false) as -> by congruence. destruct (proj1 Hiff eq_refl) as [Hl Hnc].
  destruct (record_vote_spec t0 s r now hash bid b) as (nr' & t'' & Hrec' & Hf' & HP); [done..|].
  assert (t'' = t1) as -> by congruence. by exists s.
Qed.

Lemma settled_push s st st' v :
  OneFork st → OneFork st' → later s st → Pushed s st st' → settled_vote st v → settled_vote st' v.
Proof.
  intros [Hwf Hch (r & Hr & Hra)] [_ _ (r' & Hr' & _)] Hl HP.
  assert (r' = r ∨ r ∈ anc r') as Hrr.
  { destruct HP as [(rooted & kept & expired & Heq & _ & _ & _ & Hroot)].
    destruct rooted as [|u []]; [left; congruence|destruct Hroot as [Hroot _]|done].
    right. assert (r' = slot u) as -> by congruence. apply Hra. rewrite Heq. by left. }
  intros [(r0 & Hr0 & Hv)|[(w & Hw & Hs & Hc)|(w & Hw & Hlt)]].
  - left. assert (r0 = r) as -> by congruence. exists r'. split; [done|].
    destruct Hrr as [->|Hrr]; [done|]. right. destruct Hv as [->|Hv]; [done|].
    by apply (anc_trans _ Hanc r).
  - destruct HP as [(rooted & kept & expired & Heq & Heq' & Hex & _ & Hroot)].
    rewrite Heq, !elem_of_app in Hw. destruct Hw as [Hw|[Hw|Hw]].
    + left. destruct rooted as [|u []]; [set_solver|destruct Hroot as [Hroot _]|done].
      apply list_elem_of_singleton in Hw as ->. exists (slot u). split; [done|]. by left.
    + right; left. destruct (elem_of_confirm _ _ Hw) as (w' & Hw' & ? & ?). exists w'.
      split; [rewrite Heq'; apply elem_of_app; by left|split; lia || congruence].
    + right; right. rewrite Forall_forall in Hex. specialize (Hex w Hw).
      exists {| slot := s; confirmation_count := 1 |}.
      split; [rewrite Heq'; apply elem_of_app; right; by left|]. simpl.
      pose proof (last_locked_out_slot_mono v w (eq_sym Hs) Hc). lia.
  - right; right. destruct (Pushed_new _ _ _ HP) as (u & Hu & Hus). exists u. split; [done|].
    destruct Hl as [Hl _]. specialize (Hl w Hw). lia.
Qed.

Lemma history_settled t t' v :
  OneFork (vote_state t) → rtc cast t t' → v ∈ votes (vote_state t) →
  OneFork (vote_state t') ∧ settled_vote (vote_state t') v.
Proof.
  intros Hf Hr Hv. assert (settled_vote (vote_state t) v) as Hs by (right; left; by exists v).
  clear Hv. induction Hr as [|t1 t2 t3 Hc _ IH]; [done|].
  destruct (cast_pushed _ _ Hf Hc) as (s & Hl & Hf2 & HP). apply IH; [done|].
  eapply settled_push; [exact Hf|exact Hf2|exact Hl|exact HP|exact Hs].
Qed.

End lockouts.

(** * Theorem *)

(** C9. A validator that casts only votes [is_locked_out] allows never violates a
    lockout: whatever it voted for is its newest vote or an ancestor of it, or its
    lockout had ended before the newest vote. [is_locked_out] never panics on such
    a tower, and it answers yes exactly when the slot is not newer than the votes
    or a vote on another fork still locks it out; when it answers no, recording
    the vote succeeds. *)
Theorem tower_lockout_safety `{LockoutLaws, VoteTxApi} anc t t' :
  AncestorLaws anc → OneFork anc (vote_state t) → rtc (cast anc) t t' →
  OneFork anc (vote_state t') ∧
  (∀ v s, v ∈ votes (vote_state t) → TowerStack.last_voted_slot (vote_state t') = Some s →
     slot v = s ∨ slot v ∈ anc s ∨ last_locked_out_slot v < s) ∧
  (∀ s r, root_slot (vote_state t') = Some r → r ∈ anc s →
     ∃ b, TowerOps.is_locked_out t' s (anc s) = Ret b ∧
       (b = false ↔ later s (vote_state t') ∧ ¬ conflicts anc (vote_state t') s) ∧
       (b = false → ∀ now hash bid e,
          ∃ nr t'', TowerOps.record_bank_vote now s hash bid e t' = Ret (nr, t''))).
Proof.
  intros Hanc Hf Hr.
  assert (OneFork anc (vote_state t')) as Hf'.
  { clear -Hanc Hf Hr H0. induction Hr as [|t1 t2 t3 Hc _ IH]; [done|].
    destruct (cast_pushed _ Hanc _ _ Hf Hc) as (s & _ & Hf2 & _). by apply IH. }
  split; [done|]. split.
  - intros v s Hv Hs. unfold TowerStack.last_voted_slot, TowerStack.last_lockout in Hs.
    destruct (last _) as [top|] eqn:Htop; [|done]. injection Hs as <-.
    destruct Hf' as [[[Hso _] _] Hch (r & Hr' & Hra)].
    assert (top ∈ votes (vote_state t')) as Hin by (apply last_Some in Htop as [? ->]; set_solver).
    destruct (history_settled anc Hanc t t' v Hf Hr Hv)
      as [_ [(r0 & Hr0 & Hv0)|[(w & Hw & Hs & _)|(w & Hw & Hlt)]]].
    + right; left. assert (r0 = r) as -> by congruence. specialize (Hra _ Hin).
      destruct Hv0 as [->|Hv0]; [done|]. by apply (anc_trans _ Hanc r).
    + rewrite <-Hs. destruct (below_last anc _ _ _ Hch Htop Hw) as [->|]; [by left|right; by left].
    + pose proof (last_slot_max _ _ _ Hso Htop Hw). right; right. lia.
  - intros s r Hr' Hrs. destruct (is_locked_out_exact anc Hanc t' s r Hf' Hr' Hrs) as (b & Hb & Hiff).
    exists b. do 2 (split; [done|]). intros [Hl Hnc]%Hiff now hash bid e.
    destruct (record_vote_spec anc Hanc t' s r now hash bid e) as (nr & t'' & ? & _); [done..|].
    by exists nr, t''.
Qed.

(** ** Witness *)

#[local] Existing Instances doubling_lockouts doubling_laws.

#[local] Instance ex_vote_tx : VoteTxApi := {|
  last_slot_of_vote v := last (vote_slots v);
  last_slot_of_sync t := slot <$> last (sync_lockouts t);
|}.

(** A chain of blocks, and a tower with two votes on it. *)
Definition ex_anc (s : Slot) : gset Slot := list_to_set (seqZ 0 s).
Definition ex_tower : Tower := TowerOps.set_vote_state
  {| votes := [{| slot := 1; confirmation_count := 2 |}; {| slot := 2; confirmation_count := 1 |}];
     root_slot := Some 0 |} Tower_default.

Lemma ex_anc_spec x y : x ∈ ex_anc y ↔ 0 ≤ x < y.
Proof. unfold ex_anc. rewrite elem_of_list_to_set, elem_of_seqZ. lia. Qed.

Lemma tower_lockout_safety_witness : ∃ t',
  OneFork ex_anc (vote_state t') ∧
  (∀ v s, v ∈ votes (vote_state ex_tower) →
     TowerStack.last_voted_slot (vote_state t') = Some s →
     slot v = s ∨ slot v ∈ ex_anc s ∨ last_locked_out_slot v < s) ∧
  (∀ s r, root_slot (vote_state t') = Some r → r ∈ ex_anc s →
     ∃ b, TowerOps.is_locked_out t' s (ex_anc s) = Ret b ∧
       (b = false ↔ later s (vote_state t') ∧ ¬ conflicts ex_anc (vote_state t') s) ∧
       (b = false → ∀ now hash bid e,
          ∃ nr t'', TowerOps.record_bank_vote now s hash bid e t' = Ret (nr, t''))).
Proof.
  eexists. eapply (tower_lockout_safety ex_anc ex_tower).
  - constructor; [intros x y Hx z|intros x y]; rewrite ?ex_anc_spec in *; lia.
  - constructor; [split; [split|]| |].
    + repeat constructor; vm_compute; done.
    + repeat constructor; vm_compute; done.
    + intros r v [= <-] Hv. simpl in Hv. set_unfold in Hv. destruct_or?; subst; done.
    + repeat constructor; by apply ex_anc_spec.
    + exists 0. split; [done|]. intros v Hv. simpl in Hv. set_unfold in Hv.
      destruct_or?; subst; by apply ex_anc_spec.
  - apply rtc_once, (cast_intro _ _ 3 0 100 33 None true None); [done|by apply ex_anc_spec| |].
    + vm_compute. reflexivity.
    + vm_compute. reflexivity.
Defined.
