(* ===== verification/TowerSwitch.v ===== *)
(** The check of a switch to another fork, on each of its branches; where stake is
    counted, the decision is for a switch exactly when enough stake is shown to be
    locked out on other forks. *)

From S2P Require Import Prelude BTree Tower ForkChoice ForkTree ForkInv ForkChoiceProps LatestVotes.
From S2P Require Import VoteInterface VoteState Tower.

Import TowerOps.

(** * Loops that return early *)

Lemma for_each_or_return_app {A S D} (f : A → S → outcome (S + D)) l1 l2 s :
  for_each_or_return f (l1 ++ l2) s =
  (r ← for_each_or_return f l1 s;
   match r with inl s => for_each_or_return f l2 s | inr d => Ret (inr d) end).
Proof.
  revert s. induction l1 as [|x l1 IH]; intros s; simpl; [done|].
  destruct (f x s) as [[s'|d]| |]; simpl; [apply IH|done..].
Qed.

(** A loop whose body is a loop over what an element stands for. *)
Lemma for_each_or_return_bind {A B S D} (f : A → S → outcome (S + D)) (g : B → S → outcome (S + D))
    (k : A → list B) l s :
  (∀ x s, x ∈ l → f x s = for_each_or_return g (k x) s) →
  for_each_or_return f l s = for_each_or_return g (l ≫= k) s.
Proof.
  revert s. induction l as [|x l IH]; intros s Hf; [done|].
  rewrite bind_cons, for_each_or_return_app. cbn [for_each_or_return].
  rewrite (Hf x) by (by left). destruct (for_each_or_return g (k x) s) as [[s'|d]| |]; simpl; try done.
  apply IH. intros y s0 Hy. apply Hf. by right.
Qed.

(** * The greatest element of a set *)

Definition greatest (g : Slot) (X : gset Slot) : Prop := g ∈ X ∧ ∀ x, x ∈ X → x ≤ g.

Lemma set_max_spec X g : set_max X = Some g ↔ greatest g X.
Proof.
  unfold set_max. assert (∀ l : list Slot, match foldr (λ x acc, Some (match acc with
      | Some y => Z.max x y | None => x end)) None l with
    | Some g => g ∈ l ∧ ∀ x, x ∈ l → x ≤ g | None => l = [] end) as Hl.
  { induction l as [|x l IH]; simpl; [done|]. destruct (foldr _ _ l) as [y|].
    - destruct IH as [Hy Hall]. split; [destruct (Z.max_spec x y) as [[_ ->]|[_ ->]]; set_solver|].
      intros z [->|Hz%Hall]%elem_of_cons; lia.
    - subst. split; [by left|]. intros z [->|Hz]%elem_of_cons; [lia|set_solver]. }
  specialize (Hl (elements X)). destruct (foldr _ _ _) as [y|].
  - setoid_rewrite elem_of_elements in Hl. split; [intros [= <-]; exact Hl|].
    intros [Hg Hall]. f_equal. apply Z.le_antisymm; [apply Hall, Hl|by apply Hl].
  - split; [done|]. intros [Hg _]. apply elem_of_elements in Hg. rewrite Hl in Hg. set_solver.
Qed.

Lemma set_max_is_Some X x : x ∈ X → ∃ g, set_max X = Some g.
Proof.
  intros Hx. unfold set_max. destruct (elements X) as [|y l] eqn:He; [|by eexists].
  apply elem_of_elements in Hx. rewrite He in Hx. set_solver.
Qed.

(** * Counting stake *)

Section counting.
Context (total_stake : Z) (epoch_vote_accounts : gmap Pubkey Z).

Definition account_stake (pk : Pubkey) : Z := default 0 (epoch_vote_accounts !! pk).
Definition stake_of (X : gset Pubkey) : Z := sumZ (account_stake <$> elements X).

Context (Hnonneg : ∀ pk, 0 ≤ account_stake pk)
        (Htotal : stake_of (dom epoch_vote_accounts) ≤ u64_MAX).

Lemma stake_of_union X Y : X ## Y → stake_of (X ∪ Y) = stake_of X + stake_of Y.
Proof. intros Hd. unfold stake_of. by rewrite elements_disj_union, fmap_app, sumZ_app. Qed.

Lemma stake_of_singleton pk : stake_of {[pk]} = account_stake pk.
Proof. unfold stake_of. rewrite elements_singleton. unfold sumZ; simpl. lia. Qed.

Lemma stake_of_nonneg X : 0 ≤ stake_of X.
Proof. apply sumZ_nonneg. intros x (pk & -> & _)%list_elem_of_fmap. apply Hnonneg. Qed.

Lemma stake_of_unknown X : X ## dom epoch_vote_accounts → stake_of X = 0.
Proof.
  induction X as [|x X Hx IH] using set_ind_L; intros Hd; [done|].
  rewrite stake_of_union by set_solver. rewrite IH by set_solver.
  rewrite stake_of_singleton. unfold account_stake.
  rewrite (proj1 (not_elem_of_dom _ _)); [done|set_solver].
Qed.

Lemma stake_of_split X Y : stake_of X = stake_of (X ∩ Y) + stake_of (X ∖ Y).
Proof.
  rewrite <-stake_of_union; [f_equal; apply set_eq; intros x; destruct (decide (x ∈ Y)); set_solver|].
  apply elem_of_disjoint. intros x [_ ?]%elem_of_intersection [_ ?]%elem_of_difference. done.
Qed.

Lemma stake_of_bound X : stake_of X ≤ u64_MAX.
Proof.
  pose proof Htotal as Ht. rewrite (stake_of_split _ X), (intersection_comm_L _ X) in Ht.
  assert (stake_of (X ∖ dom epoch_vote_accounts) = 0) as Hz.
  { apply stake_of_unknown, elem_of_disjoint. intros x [_ ?]%elem_of_difference ?. done. }
  rewrite (stake_of_split X (dom epoch_vote_accounts)).
  pose proof (stake_of_nonneg (dom epoch_vote_accounts ∖ X)). lia.
Qed.

(** Counts an account unless it has been counted. *)
Definition count_once (pk : Pubkey) (c : Counted) : outcome (Counted + SwitchForkDecision) :=
  if bool_decide (pk ∈ locked_out_vote_accounts c) then Ret (inl c)
  else count_account total_stake epoch_vote_accounts pk c.

Definition CountedOk (c : Counted) : Prop :=
  locked_out_stake c = stake_of (locked_out_vote_accounts c) ∧
  exceeds (locked_out_stake c) total_stake SWITCH_FORK_THRESHOLD = false.

Lemma count_once_new pk c :
  pk ∉ locked_out_vote_accounts c →
  locked_out_stake c = stake_of (locked_out_vote_accounts c) →
  count_once pk c =
  let X := {[pk]} ∪ locked_out_vote_accounts c in
  Ret (if exceeds (stake_of X) total_stake SWITCH_FORK_THRESHOLD then inr (SwitchProof 0)
       else inl {| locked_out_stake := stake_of X; locked_out_vote_accounts := X |}).
Proof.
  intros Hin Hst.
  assert (stake_of ({[pk]} ∪ locked_out_vote_accounts c) = locked_out_stake c + account_stake pk) as Hsum.
  { rewrite stake_of_union by set_solver. rewrite stake_of_singleton. lia. }
  pose proof (stake_of_bound ({[pk]} ∪ locked_out_vote_accounts c)).
  unfold count_once, count_account. rewrite bool_decide_false by done. fold (account_stake pk).
  run. cbn [mbind outcome_bind]. rewrite <-Hsum. cbn zeta.
  by destruct (exceeds (stake_of _) _ _).
Qed.

Lemma count_all pks c :
  CountedOk c →
  (∃ X, for_each_or_return count_once pks c = Ret (inr (SwitchProof 0)) ∧
     X ⊆ locked_out_vote_accounts c ∪ list_to_set pks ∧
     exceeds (stake_of X) total_stake SWITCH_FORK_THRESHOLD = true) ∨
  (∃ c', for_each_or_return count_once pks c = Ret (inl c') ∧ CountedOk c' ∧
     locked_out_vote_accounts c' = locked_out_vote_accounts c ∪ list_to_set pks).
Proof.
  revert c. induction pks as [|pk pks IH]; intros c [Hst Hex]; simpl.
  { right. exists c. split; [done|]. split; [done|]. set_solver. }
  destruct (decide (pk ∈ locked_out_vote_accounts c)) as [Hin|Hin].
  - assert (count_once pk c = Ret (inl c)) as -> by (unfold count_once; by rewrite bool_decide_true).
    cbn [mbind outcome_bind].
    destruct (IH c) as [(X & ? & ? & ?)|(c' & ? & ? & Heq)]; [done|left; exists X|right; exists c'].
    + split_and!; [done|set_solver|done].
    + split_and!; [done..|]. rewrite Heq. set_solver.
  - rewrite (count_once_new pk c Hin Hst). cbn [mbind outcome_bind]. cbn zeta.
    destruct (exceeds (stake_of ({[pk]} ∪ locked_out_vote_accounts c)) total_stake
      SWITCH_FORK_THRESHOLD) eqn:Hex'.
    + left. exists ({[pk]} ∪ locked_out_vote_accounts c). split_and!; [done|set_solver|done].
    + destruct (IH {| locked_out_stake := stake_of ({[pk]} ∪ locked_out_vote_accounts c);
                      locked_out_vote_accounts := {[pk]} ∪ locked_out_vote_accounts c |})
        as [(X & ? & ? & ?)|(c' & ? & ? & Heq)]; [done|left; exists X|right; exists c'].
      * simpl in *. split_and!; [done|set_solver|done].
      * split_and!; [done..|]. rewrite Heq. simpl. set_solver.
Qed.

End counting.

(** * The votes that count *)

Section switch.
Context (self : Tower) (root last_voted switch : Slot) (ancestors : gmap Slot (gset Slot))
  (switch_ancestors : gset Slot) (descendants : list (Slot * gset Slot))
  (progress : gmap Slot ForkStats) (total_stake : Z) (accounts : gmap Pubkey Z)
  (gossip : list (Pubkey * (Slot * list Hash))).

(** The ancestors of the last vote, none if they are not known. *)
Definition last_ancestors : gset Slot := default ∅ (ancestors !! last_voted).

(** A vote for [c] is not on the fork of the last vote, and the fork it is on left
    that of the last vote no later than the one to switch to. Where the ancestors of
    the last vote are not known, every vote that does not descend from it passes. *)
Definition valid_switching (c : Slot) : Prop :=
  ∃ ca, ancestors !! c = Some ca ∧ (last_voted ∉ ca) ∧
    (ancestors !! last_voted = None ∨
     ∃ g, greatest g (ca ∩ last_ancestors) ∧ g ∈ switch_ancestors).

(** The newest frozen bank of a fork that counts. *)
Definition counting_bank (c : Slot) (ds : gset Slot) (stats : ForkStats) : Prop :=
  (c, ds) ∈ descendants ∧ progress !! c = Some stats ∧ computed stats = true ∧
  (∀ d, d ∈ ds → is_computed progress d = false) ∧ c ≠ last_voted ∧ root < c ∧ valid_switching c.

(** [pk] has a lockout on such a bank that reaches the last vote and is for a
    block on another fork. *)
Definition locked_on_bank (pk : Pubkey) : Prop :=
  ∃ c ds stats e l start, counting_bank c ds stats ∧
    (e, l) ∈ lockout_intervals stats ∧ last_voted ≤ e ∧ (start, pk) ∈ l ∧
    (start ∉ last_ancestors) ∧ root < start.

Definition locked_by_gossip (pk : Pubkey) : Prop :=
  ∃ s hs, (pk, (s, hs)) ∈ gossip ∧ last_voted < s ∧ valid_switching s.

(** The banks that stake is counted on. *)
Record BanksOk : Prop := {
  banks_last la : ancestors !! last_voted = Some la → root ∈ la ∧ is_computed progress last_voted = true;
  banks_candidates c ds : (c, ds) ∈ descendants → root < c →
    ∃ ca, ancestors !! c = Some ca ∧ root ∈ ca;
  banks_descendants c ds : (c, ds) ∈ descendants → c ∈ last_ancestors → last_voted ∈ ds;
}.

(** The ancestors of the last vote are known, or need not be. *)
Definition last_known : Prop := is_Some (ancestors !! last_voted) ∨ is_stray_last_vote self = true.

Context (Hok : BanksOk) (Hknown : last_known) (Hswitch : ancestors !! switch = Some switch_ancestors).

Definition valid_b (c : Slot) : bool :=
  match ancestors !! c with
  | Some ca =>
      negb (bool_decide (last_voted ∈ ca)) &&
      (negb (is_some (ancestors !! last_voted)) ||
       match set_max (ca ∩ last_ancestors) with
       | Some g => bool_decide (g ∈ switch_ancestors)
       | None => false
       end)
  | None => false
  end.

Lemma valid_b_spec c : valid_b c = true ↔ valid_switching c.
Proof.
  unfold valid_b, valid_switching. split.
  - destruct (ancestors !! c) as [ca|]; [|done]. rewrite andb_true_iff, negb_true_iff, bool_decide_eq_false.
    intros [Hna Hv]. exists ca. split_and!; [done..|].
    destruct (ancestors !! last_voted) as [la|]; [right|by left]. cbn [is_some negb orb] in Hv.
    destruct (set_max _) as [g|] eqn:Hg; [|done]. exists g.
    by rewrite <-set_max_spec, <-(bool_decide_eq_true (g ∈ switch_ancestors)).
  - intros (ca & -> & Hna & Hv). rewrite bool_decide_false by done. cbn [negb andb].
    destruct Hv as [->|(g & Hg%set_max_spec & Hin)]; [done|].
    by rewrite Hg, bool_decide_true, orb_true_r.
Qed.

Lemma is_valid_spec c :
  ∃ o, is_valid_switching_proof_vote self c last_voted switch ancestors last_ancestors = Ret o ∧
    default false o = valid_b c ∧
    ((∃ ca, ancestors !! c = Some ca ∧ root ∈ ca) → o = Some (valid_b c)).
Proof.
  unfold is_valid_switching_proof_vote, is_descendant_slot, greatest_common_ancestor, valid_b.
  rewrite Hswitch.
  destruct (ancestors !! c) as [ca|] eqn:Hca; cbn [fmap option_fmap option_map mbind option_bind].
  2: { exists None. split_and!; [done..|]. intros (? & ? & _). done. }
  destruct (bool_decide (last_voted ∈ ca)); cbn [negb andb].
  { exists (Some false). split; [done|]. by split. }
  unfold last_ancestors. destruct (ancestors !! last_voted) as [la|] eqn:Hla; cbn [default is_some negb orb].
  2: { exists (Some true). rewrite bool_decide_true by done. split; [|done].
       destruct Hknown as [[? ?]| ->]; [congruence|done]. }
  destruct (banks_last Hok la Hla) as [Hr _].
  rewrite (bool_decide_false (la = ∅)) by set_solver.
  eexists. split; [done|]. cbn [mbind option_bind id].
  destruct (set_max (ca ∩ la)) as [g|] eqn:Hg; [done|].
  split; [done|]. intros (ca' & [= <-] & Hr').
  destruct (set_max_is_Some (ca ∩ la) root) as [g' Hg']; [set_solver|congruence].
Qed.

(** ** The accounts in the order they are counted in *)

Definition interval_event (x : Slot * Pubkey) : list Pubkey :=
  if decide ((x.1 ∉ last_ancestors) ∧ root < x.1) then [x.2] else [].

Definition counting_b (c : Slot) (ds : gset Slot) : bool :=
  is_computed progress c && negb (existsb (is_computed progress) (elements ds)) &&
  negb (c =? last_voted) && (root <? c) && valid_b c.

Definition candidate_events (x : Slot * gset Slot) : list Pubkey :=
  if counting_b x.1 x.2 then
    match progress !! x.1 with
    | Some stats =>
        (filter (λ x, last_voted ≤ x.1) (lockout_intervals stats) ≫= snd) ≫= interval_event
    | None => []
    end
  else [].

Definition gossip_event (x : Pubkey * (Slot * list Hash)) : list Pubkey :=
  if decide (last_voted < x.2.1 ∧ valid_b x.2.1 = true) then [x.1] else [].

Definition events : list Pubkey := (descendants ≫= candidate_events) ++ (gossip ≫= gossip_event).

Lemma counting_b_spec c ds stats :
  (c, ds) ∈ descendants → progress !! c = Some stats →
  counting_b c ds = true ↔ counting_bank c ds stats.
Proof.
  intros Hin Hst. unfold counting_b, counting_bank. rewrite !andb_true_iff, valid_b_spec.
  rewrite !negb_true_iff, Z.eqb_neq, Z.ltb_lt. unfold is_computed at 1. rewrite Hst.
  assert (existsb (is_computed progress) (elements ds) = false ↔
    ∀ d, d ∈ ds → is_computed progress d = false) as ->; [|tauto].
  split.
  - intros He d Hd. destruct (is_computed progress d) eqn:Hc; [|done].
    enough (existsb (is_computed progress) (elements ds) = true) by congruence.
    apply existsb_exists. exists d. by rewrite <-list_elem_of_In, elem_of_elements.
  - intros Hall. apply not_true_iff_false. rewrite existsb_exists.
    intros (d & Hd & Hc). rewrite <-list_elem_of_In, elem_of_elements in Hd. by rewrite Hall in Hc.
Qed.

Lemma bank_events_spec pk : pk ∈ descendants ≫= candidate_events ↔ locked_on_bank pk.
Proof.
  rewrite list_elem_of_bind. unfold candidate_events, locked_on_bank. split.
  - intros ([c ds] & Hpk & Hin). cbn [fst snd] in Hpk. destruct (counting_b c ds) eqn:Hc; [|set_solver].
    destruct (progress !! c) as [stats|] eqn:Hst; [|set_solver].
    apply list_elem_of_bind in Hpk as ([start pk'] & Hev & Hl).
    apply list_elem_of_bind in Hl as ([e l] & Hl & [Hle He]%list_elem_of_filter).
    unfold interval_event in Hev. case_decide as Hd; [|set_solver].
    apply list_elem_of_singleton in Hev as ->. exists c, ds, stats, e, l, start.
    split; [by apply (counting_b_spec c ds stats)|]. destruct Hd. done.
  - intros (c & ds & stats & e & l & start & Hb & He & Hle & Hl & Hna & Hr).
    exists (c, ds). split; [|apply Hb]. cbn [fst snd]. pose proof Hb as (Hin & Hst & _).
    rewrite (proj2 (counting_b_spec c ds stats Hin Hst) Hb), Hst.
    apply list_elem_of_bind. exists (start, pk). split.
    + unfold interval_event. rewrite decide_True by done. by left.
    + apply list_elem_of_bind. exists (e, l). split; [done|]. by apply list_elem_of_filter.
Qed.

Lemma gossip_events_spec pk : pk ∈ gossip ≫= gossip_event ↔ locked_by_gossip pk.
Proof.
  rewrite list_elem_of_bind. unfold gossip_event, locked_by_gossip. split.
  - intros ([pk' [s hs]] & Hpk & Hin). cbn [fst snd] in Hpk. case_decide as Hd; [|set_solver].
    apply list_elem_of_singleton in Hpk as ->. destruct Hd as [? ?%valid_b_spec]. by exists s, hs.
  - intros (s & hs & Hin & ? & ?%valid_b_spec). exists (pk, (s, hs)). split; [|done]. cbn [fst snd].
    rewrite decide_True by done. by left.
Qed.

Lemma events_spec pk : pk ∈ events ↔ locked_on_bank pk ∨ locked_by_gossip pk.
Proof. unfold events. by rewrite elem_of_app, bank_events_spec, gossip_events_spec. Qed.

(** ** The loops *)

#[local] Abbreviation once := (count_once total_stake accounts).

Lemma count_interval_once x c :
  count_interval root last_ancestors total_stake accounts x c =
  for_each_or_return once (interval_event x) c.
Proof.
  destruct x as [start pk]. unfold count_interval, interval_event, count_once; simpl.
  destruct (decide ((start ∉ last_ancestors) ∧ root < start)) as [[Hs Hr]|Hn]; simpl.
  - rewrite (bool_decide_false (start ∈ _)), (proj2 (Z.ltb_lt _ _)) by done. simpl.
    case_bool_decide; simpl; [done|]. by destruct (count_account _ _ _ _) as [[]| |].
  - case_bool_decide; [done|]. destruct (decide (start ∈ last_ancestors)).
    + by rewrite bool_decide_true.
    + rewrite (proj2 (Z.ltb_ge _ _)), andb_false_r by (apply Znot_gt_le; intros ?; apply Hn; split; [done|lia]).
      done.
Qed.

Lemma count_candidate_once x c :
  x ∈ descendants →
  count_candidate self root last_voted switch ancestors last_ancestors progress total_stake
    accounts x c = for_each_or_return once (candidate_events x) c.
Proof.
  destruct x as [s ds]. intros Hin. unfold count_candidate, candidate_events, skip_candidate, counting_b.
  cbn [fst snd]. destruct (is_computed progress s) eqn:Hc; [|done].
  destruct (existsb (is_computed progress) (elements ds)) eqn:Hd; [done|].
  destruct (s =? last_voted); [done|]. cbn [negb andb]. rewrite Z.leb_antisym.
  destruct (Z.ltb_spec root s) as [Hlt|]; [|done]. cbn [negb andb].
  destruct (is_valid_spec s) as (o & -> & _ & Ho).
  rewrite Ho by (by eapply (banks_candidates Hok)). cbn [mbind outcome_bind unwrap].
  destruct (valid_b s); [|done]. cbn [negb].
  assert (s ∉ last_ancestors) as Hna.
  { intros Ha. enough (existsb (is_computed progress) (elements ds) = true) by congruence.
    apply existsb_exists. exists last_voted. rewrite <-list_elem_of_In, elem_of_elements.
    split; [by eapply (banks_descendants Hok)|]. unfold last_ancestors in Ha.
    destruct (ancestors !! last_voted) as [la|] eqn:Hla; [by apply (banks_last Hok la)|set_solver]. }
  rewrite bool_decide_false by done. cbn [negb assert_ mbind outcome_bind].
  unfold is_computed in Hc. destruct (progress !! s) as [stats|]; [|done].
  cbn [unwrap mbind outcome_bind].
  apply for_each_or_return_bind. intros y c' _. apply count_interval_once.
Qed.

Lemma count_gossip_once x c :
  count_gossip self last_voted switch ancestors last_ancestors total_stake accounts x c =
  for_each_or_return once (gossip_event x) c.
Proof.
  destruct x as [pk [s hs]]. unfold count_gossip, gossip_event, count_once; simpl.
  destruct (is_valid_spec s) as (o & -> & Ho & _). cbn [mbind outcome_bind]. rewrite Ho.
  destruct (decide (last_voted < s ∧ valid_b s = true)) as [[Hs Hv]|Hn]; simpl.
  - rewrite (proj2 (Z.ltb_lt _ _)), Hv by done. simpl.
    case_bool_decide; simpl; [done|]. by destruct (count_account _ _ _ _) as [[]| |].
  - case_bool_decide; [done|]. destruct (Z.ltb_spec last_voted s); [|done].
    destruct (valid_b s); [|done]. by destruct Hn.
Qed.

Lemma count_locked_out_events :
  count_locked_out self root last_voted switch ancestors last_ancestors descendants progress
    total_stake accounts gossip =
  (r ← for_each_or_return once events {| locked_out_stake := 0; locked_out_vote_accounts := ∅ |};
   Ret (match r with
        | inr d => d
        | inl c => FailedSwitchThreshold (locked_out_stake c) total_stake
        end)).
Proof.
  unfold count_locked_out, events. rewrite for_each_or_return_app.
  rewrite (for_each_or_return_bind _ once candidate_events) by (intros; by apply count_candidate_once).
  destruct (for_each_or_return once (descendants ≫= candidate_events) _) as [[c|d]| |]; simpl; try done.
  rewrite (for_each_or_return_bind _ once gossip_event) by (intros; by apply count_gossip_once).
  by destruct (for_each_or_return once (gossip ≫= gossip_event) c) as [[]| |].
Qed.

Context (Hnonneg : ∀ pk, 0 ≤ account_stake accounts pk)
        (Htotal : stake_of accounts (dom accounts) ≤ u64_MAX).

(** Enough stake is locked out on other forks: then, and only then, a switch. *)
Definition SwitchDecision (d : SwitchForkDecision) : Prop :=
  ∃ X : gset Pubkey,
    (∀ pk, pk ∈ X → locked_on_bank pk ∨ locked_by_gossip pk) ∧
    ((d = SwitchProof 0 ∧ exceeds (stake_of accounts X) total_stake SWITCH_FORK_THRESHOLD = true) ∨
     (d = FailedSwitchThreshold (stake_of accounts X) total_stake ∧
      exceeds (stake_of accounts X) total_stake SWITCH_FORK_THRESHOLD = false ∧
      ∀ pk, locked_on_bank pk ∨ locked_by_gossip pk → pk ∈ X)).

Lemma count_locked_out_spec :
  ∃ d, count_locked_out self root last_voted switch ancestors last_ancestors descendants progress
    total_stake accounts gossip = Ret d ∧ SwitchDecision d.
Proof.
  rewrite count_locked_out_events.
  destruct (count_all total_stake accounts Hnonneg Htotal events
    {| locked_out_stake := 0; locked_out_vote_accounts := ∅ |})
    as [(X & -> & HX & Hex)|(c & -> & [Hst Hex] & Hacc)].
  - split; [done|]. by apply exceeds_nothing.
  - eexists. split; [done|]. exists X. split; [|by left]. intros pk Hpk%HX. apply events_spec. set_solver.
  - eexists. split; [done|]. exists (locked_out_vote_accounts c). rewrite <-Hst. split.
    + intros pk Hpk. rewrite Hacc in Hpk. apply events_spec. set_solver.
    + right. split_and!; [done..|]. intros pk Hpk%events_spec. rewrite Hacc. set_solver.
Qed.

End switch.

(** * Theorem *)

Section decision.
Context (self : Tower) (root last_voted : Slot) (last_hash : Hash) (switch : Slot) (switch_hash : Hash)
  (ancestors : gmap Slot (gset Slot)) (switch_ancestors : gset Slot)
  (descendants : list (Slot * gset Slot)) (progress : gmap Slot ForkStats) (total_stake : Z)
  (accounts : gmap Pubkey Z) (gossip : list (Pubkey * (Slot * list Hash)))
  (fork_choice : HeaviestSubtreeForkChoice).

#[local] Abbreviation la := (last_ancestors last_voted ancestors).

(** The fork choice has the block to switch to above the last vote. *)
Definition rolls_back : Prop :=
  (switch, switch_hash) ∈ ancs (fork_infos fork_choice) (last_voted, last_hash).

(** The bank of the last vote is gone, or is another version of the slot. *)
Definition purged : Prop := progress !! last_voted ≫= bank_hash ≠ Some last_hash.

(** No duplicate block above the last vote decides. *)
Definition judged : Prop :=
  Fork.latest_invalid_ancestor fork_choice (last_voted, last_hash) = None ∨ ¬ rolls_back ∧ ¬ purged.

Definition same_fork : Prop := switch = last_voted ∨ last_voted ∈ switch_ancestors.

(** What the check does, branch by branch. *)
Inductive Decided : outcome SwitchForkDecision → Prop :=
| decided_rollback a :
    Fork.latest_invalid_ancestor fork_choice (last_voted, last_hash) = Some a → rolls_back →
    Decided (Ret (FailedSwitchDuplicateRollback a))
| decided_purged a :
    Fork.latest_invalid_ancestor fork_choice (last_voted, last_hash) = Some a → ¬ rolls_back → purged →
    Decided (Ret (SwitchProof 0))
| decided_unknown :
    judged → ¬ last_known self last_voted ancestors → Decided Panic
| decided_same :
    judged → last_known self last_voted ancestors → same_fork → Decided (Ret SameFork)
| decided_suspended :
    judged → ¬ same_fork → switch ∈ la → is_stray_last_vote self = true →
    Decided (Ret (FailedSwitchThreshold 0 total_stake))
| decided_ancestor :
    judged → ¬ same_fork → switch ∈ la → is_stray_last_vote self = false → Decided Panic
| decided_counted d :
    judged → last_known self last_voted ancestors → ¬ same_fork → switch ∉ la →
    SwitchDecision root last_voted ancestors switch_ancestors descendants progress total_stake accounts gossip d →
    Decided (Ret d).

Context (Hlast : last_voted_slot_hash self = Some (last_voted, last_hash))
  (Hroot : root_slot (vote_state self) = Some root)
  (Hhash : progress !! switch ≫= bank_hash = Some switch_hash)
  (Hswitch : ancestors !! switch = Some switch_ancestors)
  (Htree : Tree (tree_root fork_choice) (fork_infos fork_choice))
  (Hbanks : judged → switch ∉ la → BanksOk root last_voted ancestors descendants progress)
  (Hnonneg : ∀ pk, 0 ≤ account_stake accounts pk) (Htotal : stake_of accounts (dom accounts) ≤ u64_MAX).

(** What is left when no duplicate block decides. *)
Lemma judged_decided : judged →
  Decided (last_vote_ancestors ← match ancestors !! last_voted with
             | Some l => Ret l
             | None => if is_stray_last_vote self then Ret ∅ else Panic
             end;
           if (switch =? last_voted) || bool_decide (last_voted ∈ switch_ancestors) then Ret SameFork
           else if bool_decide (switch ∈ (last_vote_ancestors : gset Slot)) then
             if is_stray_last_vote self then Ret (FailedSwitchThreshold 0 total_stake) else Panic
           else count_locked_out self root last_voted switch ancestors last_vote_ancestors descendants
                  progress total_stake accounts gossip).
Proof.
  intros Hj. destruct (decide (is_Some (ancestors !! last_voted) ∨ is_stray_last_vote self = true)) as [Hk|Hk].
  2: { destruct (ancestors !! last_voted) as [l|] eqn:E; [destruct Hk; eauto|].
       destruct (is_stray_last_vote self) eqn:Hstray; [destruct Hk; eauto|]. apply decided_unknown; [done|].
       intros [[? ?]|?]; congruence. }
  assert (match ancestors !! last_voted with
          | Some l => Ret l | None => if is_stray_last_vote self then Ret ∅ else Panic end = Ret la) as ->.
  { unfold last_ancestors. destruct (ancestors !! last_voted); [done|]. destruct Hk as [[? ?]| ->]; done. }
  rewrite bind_Ret_l.
  assert ((switch =? last_voted) || bool_decide (last_voted ∈ switch_ancestors) = true ↔ same_fork) as Hs.
  { unfold same_fork. by rewrite orb_true_iff, Z.eqb_eq, bool_decide_eq_true. }
  destruct (_ || _); [by apply decided_same; [..|apply Hs]|].
  assert (¬ same_fork) as Hns by (intros ?%Hs; done). case_bool_decide as Hin.
  - destruct (is_stray_last_vote self) eqn:E; [by apply decided_suspended|by apply decided_ancestor].
  - destruct (count_locked_out_spec self root last_voted switch ancestors switch_ancestors descendants progress
      total_stake accounts gossip (Hbanks Hj Hin) Hk Hswitch Hnonneg Htotal) as (d & -> & Hd).
    by apply decided_counted.
Qed.

Lemma decision_decided :
  Decided (make_check_switch_threshold_decision self switch ancestors descendants progress total_stake
    accounts gossip fork_choice).
Proof.
  unfold make_check_switch_threshold_decision, TowerOps.root, rollback_decision.
  rewrite Hlast, Hroot, Hhash. cbn [unwrap]. rewrite !bind_Ret_l, Hswitch. cbn [unwrap].
  destruct (Fork.latest_invalid_ancestor _ _) as [a|] eqn:Hinv.
  2: { rewrite bind_Ret_l. apply judged_decided. by left. }
  rewrite (is_strict_ancestor_spec _ _ _ _ Htree), bind_Ret_l. case_bool_decide as Hr.
  { rewrite bind_Ret_l. by apply decided_rollback. }
  destruct (decide (progress !! last_voted ≫= bank_hash = Some last_hash)) as [E|E].
  - rewrite E, Z.eqb_refl. cbn [negb]. rewrite bind_Ret_l. apply judged_decided. right. split; [done|]. by intros [].
  - assert (match progress !! last_voted ≫= bank_hash with
            | Some h => negb (h =? last_hash) | None => true end = true) as ->.
    { destruct (progress !! last_voted ≫= bank_hash) as [h|]; [|done].
      apply negb_true_iff, Z.eqb_neq. congruence. }
    rewrite bind_Ret_l. by apply (decided_purged a).
Qed.
End decision.

(** C30. The check of the switch threshold does on every branch what it is meant to, and
    remembers its decision. A duplicate block above the last vote decides first: the
    check fails when the last vote is to be rolled back to the block, and passes
    without any stake when the bank of the last vote was purged. Otherwise the check
    panics exactly when the ancestors of the last vote are not known or the block is
    one of them, unless the last vote is stray: then it fails on such a block. It is
    the same fork when the block descends from the last vote. In the remaining case, on
    banks that hang together, a switch is allowed only with a set of validators, each
    shown by a bank or a gossip vote to be locked out on another fork, whose stake
    exceeds the threshold; and when it is refused, the reported stake is that of all
    such validators. For a stray last vote of unknown ancestors, every vote that does
    not descend from it counts. *)
Theorem switch_threshold_exact {get_epoch epoch_stakes} `{!StakeLaws get_epoch epoch_stakes}
    (self : Tower) (root last_voted : Slot) (last_hash : Hash)
    (switch : Slot) (switch_hash : Hash) (ancestors : gmap Slot (gset Slot)) (sa : gset Slot)
    (descendants : list (Slot * gset Slot)) (progress : gmap Slot ForkStats) (total_stake : Z)
    (accounts : gmap Pubkey Z) (gossip : list (Pubkey * (Slot * list Hash)))
    (fork_choice : HeaviestSubtreeForkChoice) :
  last_voted_slot_hash self = Some (last_voted, last_hash) →
  root_slot (vote_state self) = Some root →
  progress !! switch ≫= bank_hash = Some switch_hash → ancestors !! switch = Some sa →
  reachable get_epoch epoch_stakes fork_choice →
  (judged last_voted last_hash switch switch_hash progress fork_choice →
   switch ∉ last_ancestors last_voted ancestors → BanksOk root last_voted ancestors descendants progress) →
  (∀ pk, 0 ≤ account_stake accounts pk) → stake_of accounts (dom accounts) ≤ u64_MAX →
  let decided := Decided self root last_voted last_hash switch switch_hash ancestors sa descendants progress
    total_stake accounts gossip fork_choice in
  match check_switch_threshold switch ancestors descendants progress total_stake accounts gossip
          fork_choice self with
  | Ret (d, self') => decided (Ret d) ∧ self' = set_check (Some (switch, d)) self
  | Panic => decided Panic
  | OutOfFuel => False
  end.
Proof.
  intros Hlast Hroot Hhash Hswitch HI%reachable_FInv Hbanks Hnn Htot decided.
  pose proof (decision_decided self root last_voted last_hash switch switch_hash ancestors sa descendants
    progress total_stake accounts gossip fork_choice Hlast Hroot Hhash Hswitch (fi_tree _ HI) Hbanks Hnn Htot) as Hd.
  unfold check_switch_threshold.
  destruct (make_check_switch_threshold_decision _ _ _ _ _ _ _ _ _) as [d| |]; cbn [mbind outcome_bind].
  - split; [exact Hd|]. case_bool_decide as Hc; [|done]. rewrite Hc. by destruct self.
  - exact Hd.
  - inversion Hd.
Qed.

(** ** Witness *)

(** Two forks from the root 0: the blocks 1 and 2, which was voted for, and the
    blocks 3 and 4, where a validator with sixty percent of the stake is locked
    out. *)
Definition ex_ancestors : gmap Slot (gset Slot) :=
  {[0 := ∅; 1 := {[0]}; 2 := {[0; 1]}; 3 := {[0]}; 4 := {[0; 3]}]}.
Definition ex_descendants : list (Slot * gset Slot) :=
  [(0, {[1; 2; 3; 4]}); (1, {[2]}); (2, ∅); (3, {[4]}); (4, ∅)].
Definition ex_stats (h : Hash) (intervals : list (Slot * list (Slot * Pubkey))) : ForkStats :=
  {| computed := true; bank_hash := Some h; lockout_intervals := intervals |}.
Definition ex_progress : gmap Slot ForkStats :=
  {[0 := ex_stats 10 []; 1 := ex_stats 11 []; 2 := ex_stats 12 []; 3 := ex_stats 13 [];
    4 := ex_stats 14 [(5, [(3, 9)])]]}.
Definition ex_accounts : gmap Pubkey Z := {[8 := 40; 9 := 60]}.
Definition ex_self : Tower := set_last_vote
  (TxTowerSync {| sync_lockouts := [{| slot := 2; confirmation_count := 1 |}];
                  sync_root := Some 0; sync_hash := 12; sync_timestamp := None |} 0)
  (last_timestamp Tower_default) Tower_default.
Lemma ex_banks_ok : BanksOk 0 2 ex_ancestors ex_descendants ex_progress.
Proof.
  constructor.
  - intros la [= <-]. split; [set_solver|done].
  - intros c ds Hin Hlt. unfold ex_descendants in Hin. rewrite !elem_of_cons in Hin.
    destruct Hin as [[= -> ->]|[[= -> ->]|[[= -> ->]|[[= -> ->]|[[= -> ->]|Hin]]]]]; [lia| | | | |].
    1: exists ({[0]} : gset Slot). 2: exists ({[0; 1]} : gset Slot).
    3: exists ({[0]} : gset Slot). 4: exists ({[0; 3]} : gset Slot).
    1-4: split; [reflexivity|set_solver].
    by apply not_elem_of_nil in Hin.
  - intros c ds Hin Hc. change (last_ancestors 2 ex_ancestors) with ({[0; 1]} : gset Slot) in Hc.
    unfold ex_descendants in Hin. rewrite !elem_of_cons in Hin.
    destruct Hin as [[= -> ->]|[[= -> ->]|[[= -> ->]|[[= -> ->]|[[= -> ->]|Hin]]]]].
    1-2: set_solver.
    1-3: rewrite elem_of_union, !elem_of_singleton in Hc; lia.
    by apply not_elem_of_nil in Hin.
Qed.

Lemma ex_accounts_nonneg pk : 0 ≤ account_stake ex_accounts pk.
Proof.
  unfold account_stake, ex_accounts.
  destruct (decide (pk = 8)) as [->|]; [done|]. destruct (decide (pk = 9)) as [->|]; [done|].
  by rewrite lookup_insert_ne, lookup_singleton_ne.
Qed.

(** A switch to block 4 passes, one back to block 1 panics. *)
Lemma switch_threshold_exact_witness :
  Decided ex_self 0 2 12 4 14 ex_ancestors {[0; 3]} ex_descendants ex_progress 100 ex_accounts []
    ex_fork2 (Ret (SwitchProof 0)) ∧
  Decided ex_self 0 2 12 1 11 ex_ancestors {[0]} ex_descendants ex_progress 100 ex_accounts []
    ex_fork2 Panic.
Proof.
  assert (stake_of ex_accounts (dom ex_accounts) ≤ u64_MAX) as Htotal by (vm_compute; discriminate). split.
  - pose proof (switch_threshold_exact ex_self 0 2 12 4 14 ex_ancestors {[0; 3]} ex_descendants ex_progress 100
      ex_accounts [] ex_fork2 eq_refl eq_refl eq_refl eq_refl ex_fork2_reachable
      (λ _ _, ex_banks_ok) ex_accounts_nonneg Htotal) as H.
    assert (check_switch_threshold 4 ex_ancestors ex_descendants ex_progress 100 ex_accounts [] ex_fork2 ex_self =
      Ret (SwitchProof 0, set_check (Some (4, SwitchProof 0)) ex_self)) as E by (vm_compute; reflexivity).
    rewrite E in H. apply H.
  - pose proof (switch_threshold_exact ex_self 0 2 12 1 11 ex_ancestors {[0]} ex_descendants ex_progress 100
      ex_accounts [] ex_fork2 eq_refl eq_refl eq_refl eq_refl ex_fork2_reachable
      (λ _ _, ex_banks_ok) ex_accounts_nonneg Htotal) as H.
    assert (check_switch_threshold 1 ex_ancestors ex_descendants ex_progress 100 ex_accounts [] ex_fork2 ex_self =
      Panic) as E by (vm_compute; reflexivity).
    rewrite E in H. exact H.
Defined.
