(* ===== verification/TowerStakes.v ===== *)
(** The stake that voted for the ancestors of a bank: what
    [collect_vote_lockouts] computes from the vote accounts of the bank. *)

From S2P Require Import Prelude BTree Tower ForkChoice LatestVotes.
From S2P Require Import VoteInterface LockoutProps VoteState Tower TowerSwitch.

Import TowerOps.

Section stakes.
Context `{LockoutLaws}.
Context (bank_slot : Slot) (ancestors : gmap Slot (gset Slot)).
Implicit Types (vs : TowerVoteState) (m : gmap Slot Z).

(** * The vote of an account that counts *)

(** The newest vote of the account whose lockout reaches the bank. *)
Definition supported vs : option Slot :=
  slot <$> head (filter (λ v, bank_slot ≤ last_locked_out_slot v) (rev (votes vs))).

Lemma nth_recent_newest st l v : votes st = l ++ [v] → TowerStack.nth_recent_lockout st 0 = Some v.
Proof.
  intros Hv. unfold TowerStack.nth_recent_lockout, checked_sub, saturating_add. rewrite Hv, length_app.
  change (Z.min (0 + 1) usize_MAX) with 1. simpl.
  rewrite (proj2 (Z.leb_le _ _)) by lia. simpl.
  rewrite lookup_app_r by lia. by replace (Z.to_nat _ - length l)%nat with 0%nat by lia.
Qed.

Lemma nth_recent_second st l v : votes st = l ++ [v] → TowerStack.nth_recent_lockout st 1 = last l.
Proof.
  intros Hv. unfold TowerStack.nth_recent_lockout, checked_sub, saturating_add. rewrite Hv, length_app.
  change (Z.min (1 + 1) usize_MAX) with 2. simpl. case_leb; simpl.
  - rewrite last_lookup, lookup_app_l by lia. f_equal. lia.
  - by destruct l; [|simpl in *; lia].
Qed.

Lemma Pushed_supported vs st' :
  Pushed bank_slot vs st' →
  slot <$> TowerStack.nth_recent_lockout st' 0 = Some bank_slot ∧
  slot <$> TowerStack.nth_recent_lockout st' 1 = supported vs.
Proof.
  intros [(rooted & kept & expired & Heq & Heq' & Hex & Hlast & Hroot)]. split.
  { by rewrite (nth_recent_newest _ _ _ Heq'). }
  rewrite (nth_recent_second _ _ _ Heq'). unfold supported.
  rewrite Heq, app_assoc, rev_app_distr, filter_app.
  rewrite (list_filter_none_in _ (rev expired)).
  2: { intros v Hv. rewrite elem_of_rev in Hv. rewrite Forall_forall in Hex. specialize (Hex v Hv). lia. }
  simpl. rewrite <-fmap_last, confirm_slots, fmap_last.
  destruct (last (rooted ++ kept)) as [v|] eqn:Hv.
  - assert (last kept = Some v) as ->.
    { destruct (last kept) eqn:Hk; rewrite last_app, Hk in Hv; [done|].
      apply last_None in Hk as ->. pose proof history_range.
      destruct rooted as [|u []]; [done|destruct Hroot; simpl in *; lia|done]. }
    apply last_Some in Hv as Hv'. destruct Hv' as [l ->]. rewrite rev_app_distr. simpl.
    rewrite filter_cons, decide_True; [done|]. by apply Hlast.
  - apply last_None in Hv. rewrite Hv. apply app_nil in Hv as [_ ->]. done.
Qed.

(** * Adding stake along a fork *)

Definition stake_at m (s : Slot) : Z := default 0 (m !! s).

Lemma add_stake_Ret n x m :
  stake_at m x + n ≤ u64_MAX → add_stake n x m = Ret (<[x := stake_at m x + n]> m).
Proof. intros Hm. unfold add_stake. fold (stake_at m x). by rewrite add_Ret. Qed.

Lemma stake_at_insert m x y s : stake_at (<[x := y]> m) s = if decide (s = x) then y else stake_at m s.
Proof.
  unfold stake_at. case_decide as Hd; [subst; by rewrite lookup_insert_eq|by rewrite lookup_insert_ne].
Qed.

Lemma add_stakes n l m :
  NoDup l → (∀ s, s ∈ l → stake_at m s + n ≤ u64_MAX) →
  ∃ m', for_each (add_stake n) l m = Ret m' ∧
    ∀ s, stake_at m' s = stake_at m s + (if decide (s ∈ l) then n else 0).
Proof.
  intros Hnd. revert m. induction Hnd as [|x l Hx Hnd IH]; intros m Hm.
  { exists m. split; [done|]. intros s. rewrite decide_False by set_solver. lia. }
  cbn [for_each]. rewrite add_stake_Ret by (apply Hm; by left). cbn [mbind outcome_bind].
  destruct (IH (<[x := stake_at m x + n]> m)) as (m' & -> & Hm').
  { intros s Hs. rewrite stake_at_insert, decide_False by (intros ->; done). apply Hm. by right. }
  exists m'. split; [done|]. intros s. rewrite Hm', stake_at_insert.
  destruct (decide (s = x)) as [->|Hne].
  - rewrite decide_False by done. rewrite decide_True by (by left). lia.
  - by rewrite (decide_ext (s ∈ x :: l) (s ∈ l)) by set_solver.
Qed.

(** What a validator with its support at [x] adds to the stake of [s]. *)
Definition contribution (stake : Z) (x : option Slot) (s : Slot) : Z :=
  match x with
  | Some x =>
      match ancestors !! x with
      | Some A => if decide (s = x ∨ s ∈ A) then stake else 0
      | None => 0
      end
  | None => 0
  end.

Lemma contribution_bound stake x s : 0 ≤ stake → 0 ≤ contribution stake x s ≤ stake.
Proof.
  intros. unfold contribution. destruct x as [x|]; [|lia]. destruct (ancestors !! x); [|lia].
  case_decide; lia.
Qed.

Context (Hself : ∀ x A, ancestors !! x = Some A → x ∉ A).

Lemma update_ancestor_spec x stake m :
  0 ≤ stake → (∀ s, stake_at m s + stake ≤ u64_MAX) →
  ∃ m', match x with
        | Some x => update_ancestor_voted_stakes x stake ancestors m
        | None => Ret m
        end = Ret m' ∧
    ∀ s, stake_at m' s = stake_at m s + contribution stake x s.
Proof.
  intros Hs Hm. destruct x as [x|]; [|exists m; split; [done|intros; simpl; lia]].
  unfold update_ancestor_voted_stakes, contribution.
  destruct (ancestors !! x) as [A|] eqn:HA; [|exists m; split; [done|intros; lia]].
  destruct (add_stakes stake (x :: elements A) m) as (m' & -> & Hm').
  - constructor; [rewrite elem_of_elements; by apply Hself|apply NoDup_elements].
  - intros s _. apply Hm.
  - exists m'. split; [done|]. intros s. rewrite Hm'. f_equal. apply decide_ext.
    by rewrite elem_of_cons, elem_of_elements.
Qed.

Lemma populate_stake xs m s : stake_at (populate_ancestor_voted_stakes xs ancestors m) s = stake_at m s.
Proof.
  unfold populate_ancestor_voted_stakes. revert m. induction xs as [|x xs IH]; intros m; simpl; [done|].
  rewrite IH. unfold populate_slot. destruct (ancestors !! x) as [A|]; [|done].
  generalize (x :: elements A). intros l. revert m. clear IH.
  induction l as [|y l IH]; intros m; simpl; [done|]. rewrite IH, stake_at_insert.
  case_decide; [by subst|done].
Qed.

(** * Intervals of lockouts *)

Definition intervals_at (intervals : list (Slot * list (Slot * Pubkey))) (e : Slot)
    : list (Slot * Pubkey) := default [] (map_get e intervals).

Lemma push_intervals_spec pk (l : list Lockout) intervals :
  map_sorted intervals →
  map_sorted (push_intervals pk l intervals) ∧
  ∀ e x, x ∈ intervals_at (push_intervals pk l intervals) e ↔
    x ∈ intervals_at intervals e ∨
    ∃ v, v ∈ l ∧ x = (slot v, pk) ∧ last_locked_out_slot v = e.
Proof.
  unfold push_intervals. revert intervals. induction l as [|v l IH]; intros iv Hs; simpl.
  { split; [done|]. intros. split; [by left|]. intros [|(? & Hv & _)]; [done|set_solver]. }
  set (iv1 := map_insert _ _ iv). destruct (IH iv1) as [Hs' Hin]; [by apply map_insert_sorted|].
  split; [done|]. intros e x. rewrite Hin.
  assert (x ∈ intervals_at iv1 e ↔ x ∈ intervals_at iv e ∨
    (x = (slot v, pk) ∧ last_locked_out_slot v = e)) as ->.
  { unfold intervals_at, iv1. rewrite map_get_insert. case_decide as Hd; simpl.
    - subst e. rewrite elem_of_app, list_elem_of_singleton. naive_solver.
    - naive_solver. }
  split.
  - intros [[?|[-> ?]]|(w & ? & ? & ?)]; [by left|right; exists v|right; exists w].
    + split; [by left|done].
    + split; [by right|done].
  - intros [?|(w & [->|?]%elem_of_cons & ? & ?)]; [by left; left|left; by right|right; by exists w].
Qed.
(** * The loop over the vote accounts *)

Context (my_pubkey : Pubkey) (get_frozen_hash : Slot → option Hash) (history : list event).

Abbreviation Account := (Pubkey * (Z * TowerVoteState))%type (only parsing).
Implicit Types (a : Account) (accounts : list Account) (c : Collecting).

(** The votes of an account are older than the bank, which is still to be voted on. *)
Definition account_ok a : Prop :=
  0 ≤ a.2.1 ∧ WfVotes (votes a.2.2) ∧ ∀ v, v ∈ votes a.2.2 → slot v < bank_slot.

Definition stakes_of accounts : Z := sumZ ((λ a : Account, a.2.1) <$> accounts).

Definition support_for accounts (s : Slot) : Z :=
  sumZ ((λ a : Account, contribution a.2.1 (supported a.2.2) s) <$> accounts).

(** The vote the tracker sees of an account with stake. *)
Definition seen a : list event :=
  if decide (a.2.1 = 0) then []
  else match TowerStack.last_voted_slot a.2.2 with
       | Some s => [Seen a.1 s (get_frozen_hash s) true]
       | None => []
       end.

Record Collected accounts c : Prop := {
  col_total : c_total_stake c = stakes_of accounts;
  col_stakes s : stake_at (c_voted_stakes c) s = support_for accounts s;
  col_sorted : map_sorted (c_lockout_intervals c);
  col_intervals e x : x ∈ intervals_at (c_lockout_intervals c) e ↔
    ∃ a v, a ∈ accounts ∧ a.2.1 ≠ 0 ∧ v ∈ votes a.2.2 ∧
      x = (slot v, a.1) ∧ last_locked_out_slot v = e;
  col_latest : Tracks (history ++ (accounts ≫= seen)) (c_latest_votes c);
}.

Lemma stakes_of_snoc accounts a : stakes_of (accounts ++ [a]) = stakes_of accounts + a.2.1.
Proof. unfold stakes_of. rewrite fmap_app, sumZ_app. unfold sumZ; simpl. lia. Qed.

Lemma support_for_snoc accounts a s :
  support_for (accounts ++ [a]) s = support_for accounts s + contribution a.2.1 (supported a.2.2) s.
Proof. unfold support_for. rewrite fmap_app, sumZ_app. unfold sumZ; simpl. lia. Qed.

Lemma support_for_bound accounts s :
  Forall account_ok accounts → support_for accounts s ≤ stakes_of accounts.
Proof.
  unfold support_for, stakes_of. induction 1 as [|a accounts [Ha _] _ IH]; [done|].
  rewrite !fmap_cons, !sumZ_cons. pose proof (contribution_bound a.2.1 (supported a.2.2) s Ha). lia.
Qed.

Lemma collected_zero accounts a c :
  a.2.1 = 0 → Collected accounts c → Collected (accounts ++ [a]) c.
Proof.
  intros Hz [Ht Hst Hso Hiv Htr]. constructor.
  - rewrite stakes_of_snoc, Ht. lia.
  - intros s. rewrite support_for_snoc, Hst.
    pose proof (contribution_bound a.2.1 (supported a.2.2) s ltac:(lia)). lia.
  - done.
  - intros e x. rewrite Hiv. split; intros (a' & v & Hin & Hne & Hv).
    + exists a', v. split; [apply elem_of_app; by left|done].
    + apply elem_of_app in Hin as [?| ->%list_elem_of_singleton]; [by exists a', v|done].
  - rewrite bind_app. simpl. unfold seen at 2. rewrite decide_True by done.
    simpl. by rewrite app_nil_r.
Qed.

Lemma tracked accounts a c :
  Tracks (history ++ (accounts ≫= seen)) (c_latest_votes c) → a.2.1 ≠ 0 →
  ∃ latest, match TowerStack.last_voted_slot a.2.2 with
      | Some s => '(_, latest) ← check_add_vote a.1 s (get_frozen_hash s) true (c_latest_votes c);
                  Ret latest
      | None => Ret (c_latest_votes c)
      end = Ret latest ∧ Tracks (history ++ ((accounts ++ [a]) ≫= seen)) latest.
Proof.
  intros Htr Hne. rewrite bind_app, app_assoc. simpl. unfold seen at 2. rewrite decide_False by done.
  destruct (TowerStack.last_voted_slot a.2.2) as [s|].
  - destruct (Tracks_seen _ _ a.1 s (get_frozen_hash s) true Htr) as (latest & -> & Htr').
    exists latest. split; [done|]. simpl. by rewrite ?app_nil_r.
  - exists (c_latest_votes c). split; [done|]. simpl. by rewrite !app_nil_r.
Qed.

Lemma collect_account_spec accounts a c :
  Forall account_ok accounts → account_ok a → stakes_of accounts + a.2.1 ≤ u64_MAX →
  Collected accounts c →
  ∃ c', collect_account my_pubkey bank_slot ancestors get_frozen_hash a c = Ret c' ∧
    Collected (accounts ++ [a]) c'.
Proof.
  intros Hall [Hst [Hwf Hlt]] Hmax HC. unfold collect_account. destruct a as [pk [stake vs]].
  cbn [fst snd] in *. destruct (Z.eqb_spec stake 0) as [Hz|Hne].
  { exists c. split; [done|]. by apply collected_zero. }
  destruct (tracked accounts (pk, (stake, vs)) c (col_latest _ _ HC) Hne) as (latest & Hl & Htr).
  cbn [fst snd] in Hl. rewrite Hl. cbn [mbind outcome_bind].
  destruct (process_next_vote_slot_pushed bank_slot vs Hwf Hlt) as (st' & -> & _ & HP).
  cbn [mbind outcome_bind]. destruct (Pushed_supported _ _ HP) as [Hn Hsup].
  rewrite (bool_decide_true (slot <$> TowerStack.nth_recent_lockout st' 0 = Some bank_slot)) by done.
  cbn [assert_ mbind outcome_bind].
  destruct (update_ancestor_spec (supported vs) stake (c_voted_stakes c)) as (m & Hm & Hms); [done| |].
  { intros s. rewrite (col_stakes _ _ HC). pose proof (support_for_bound accounts s Hall). lia. }
  assert (match TowerStack.nth_recent_lockout st' 1 with
    | Some vote => update_ancestor_voted_stakes (slot vote) stake ancestors (c_voted_stakes c)
    | None => Ret (c_voted_stakes c) end = Ret m) as ->.
  { rewrite <-Hsup in Hm. by destruct (TowerStack.nth_recent_lockout st' 1). }
  cbn [mbind outcome_bind]. rewrite (col_total _ _ HC), add_Ret by done. cbn [mbind outcome_bind].
  eexists. split; [done|].
  destruct (push_intervals_spec pk (votes vs) (c_lockout_intervals c) (col_sorted _ _ HC)) as [Hso Hiv].
  constructor; cbn [c_total_stake c_voted_stakes c_lockout_intervals c_latest_votes]; [| |done| |done].
  - by rewrite stakes_of_snoc.
  - intros s. by rewrite Hms, (col_stakes _ _ HC), support_for_snoc.
  - intros e x. rewrite Hiv, (col_intervals _ _ HC). split.
    + intros [(a & v & Hin & Ha)|(v & Hv & Hx & He)].
      * exists a, v. split; [apply elem_of_app; by left|done].
      * exists (pk, (stake, vs)), v. split; [apply elem_of_app; right; by left|done].
    + intros (a & v & [Hin| ->%list_elem_of_singleton]%elem_of_app & Ha); [left; by exists a, v|].
      right. exists v. naive_solver.
Qed.

End stakes.

(** * Theorem *)

(** The state computed for a bank from its vote accounts: the total stake is
    that of all accounts, the stake of a slot is that of the accounts whose newest
    vote with a lockout reaching the bank is the slot or a descendant of it, the
    stake of the fork is the stake of the parent, and the intervals are the
    lockouts of all votes of the accounts with stake. The latest landed vote of
    each such account is handed to the tracker of the fork choice. *)
Theorem collect_vote_lockouts_exact `{LockoutLaws} (bank_slot : Slot)
    (ancestors : gmap Slot (gset Slot)) my_pubkey get_frozen_hash history accounts latest :
  (∀ x A, ancestors !! x = Some A → x ∉ A) →
  Forall (account_ok bank_slot) accounts → stakes_of accounts ≤ u64_MAX →
  Tracks history latest →
  ∃ st latest',
    collect_vote_lockouts my_pubkey bank_slot accounts ancestors get_frozen_hash latest =
      Ret (st, latest') ∧
    total_stake st = stakes_of accounts ∧
    (∀ s, stake_at (voted_stakes st) s = support_for bank_slot ancestors accounts s) ∧
    (∀ A p, ancestors !! bank_slot = Some A → greatest p A →
       fork_stake st = support_for bank_slot ancestors accounts p) ∧
    (∀ e start pk,
       (∃ l, (e, l) ∈ computed_lockout_intervals st ∧ (start, pk) ∈ l) ↔
       ∃ a v, a ∈ accounts ∧ a.2.1 ≠ 0 ∧ a.1 = pk ∧ v ∈ votes a.2.2 ∧ slot v = start ∧
         last_locked_out_slot v = e) ∧
    Tracks (history ++ (accounts ≫= seen get_frozen_hash)) latest'.
Proof.
  intros Hself Hall Hmax Htr. unfold collect_vote_lockouts.
  destruct (for_each_inv (Collected bank_slot ancestors get_frozen_hash history)
    (collect_account my_pubkey bank_slot ancestors get_frozen_hash) accounts
    {| c_vote_slots := ∅; c_voted_stakes := ∅; c_total_stake := 0;
       c_lockout_intervals := []; c_my_latest_landed_vote := None; c_latest_votes := latest |})
    as (c & -> & HC).
  - constructor; simpl; [done|done|constructor| |by rewrite app_nil_r].
    intros e x. split; [intros Hx; by apply not_elem_of_nil in Hx|].
    intros (a & v & Ha & _). by apply not_elem_of_nil in Ha.
  - intros don a todo c Heq HC. rewrite Heq in Hall, Hmax.
    apply Forall_app in Hall as [Hd [Ha Ht]%Forall_cons]. apply collect_account_spec; [done..| |done].
    unfold stakes_of in *. rewrite fmap_app, fmap_cons, sumZ_app, sumZ_cons in Hmax.
    enough (0 ≤ sumZ ((λ a, a.2.1) <$> todo)) by lia.
    apply sumZ_nonneg. intros x (b & -> & Hb)%list_elem_of_fmap. rewrite Forall_forall in Ht.
    by apply Ht.
  - cbn [mbind outcome_bind]. do 2 eexists. split; [done|].
    cbn [total_stake voted_stakes fork_stake computed_lockout_intervals].
    destruct HC as [Htot Hst Hso Hiv Htr']. split_and!; [done| | | |done].
    + intros s. by rewrite populate_stake.
    + intros A p HA Hp%set_max_spec. rewrite HA. cbn [mbind option_bind]. rewrite Hp.
      cbn [mbind option_bind]. rewrite <-Hst. by rewrite <-(populate_stake ancestors (elements (c_vote_slots c))).
    + intros e start pk. trans ((start, pk) ∈ intervals_at (c_lockout_intervals c) e).
      * unfold intervals_at. setoid_rewrite <-(map_get_Some _ _ _ Hso).
        destruct (map_get e (c_lockout_intervals c)) as [l|]; simpl; split.
        -- by intros (? & [= <-] & ?).
        -- intros ?. by exists l.
        -- by intros (? & ? & ?).
        -- intros Hx. by apply not_elem_of_nil in Hx.
      * rewrite Hiv. split; intros (a & v & ? & ? & ?); exists a, v; naive_solver.
Qed.

(** ** Witness *)

#[local] Existing Instances doubling_lockouts doubling_laws.

(** One validator on the chain 0, 1, 2, with a vote for 1. *)
Definition ex_chain : gmap Slot (gset Slot) := {[0 := ∅; 1 := {[0]}; 2 := {[0; 1]}]}.
Definition ex_vote_accounts : list (Pubkey * (Z * TowerVoteState)) :=
  [(9, (70, {| votes := [{| slot := 1; confirmation_count := 1 |}]; root_slot := Some 0 |}))].

Lemma collect_vote_lockouts_exact_witness :
  ∃ st latest',
    collect_vote_lockouts 9 2 ex_vote_accounts ex_chain (λ s, Some (s + 10)) LatestVotes_default =
      Ret (st, latest') ∧
    total_stake st = stakes_of ex_vote_accounts ∧
    (∀ s, stake_at (voted_stakes st) s = support_for 2 ex_chain ex_vote_accounts s) ∧
    (∀ A p, ex_chain !! 2 = Some A → greatest p A →
       fork_stake st = support_for 2 ex_chain ex_vote_accounts p) ∧
    (∀ e start pk,
       (∃ l, (e, l) ∈ computed_lockout_intervals st ∧ (start, pk) ∈ l) ↔
       ∃ a v, a ∈ ex_vote_accounts ∧ a.2.1 ≠ 0 ∧ a.1 = pk ∧ v ∈ votes a.2.2 ∧ slot v = start ∧
         last_locked_out_slot v = e) ∧
    Tracks ([] ++ (ex_vote_accounts ≫= seen (λ s, Some (s + 10)))) latest'.
Proof.
  apply (collect_vote_lockouts_exact 2 ex_chain 9 (λ s, Some (s + 10)) []).
  - intros x A. unfold ex_chain.
    destruct (decide (x = 0)) as [->|]; [intros [= <-]; set_solver|].
    destruct (decide (x = 1)) as [->|]; [intros [= <-]; set_solver|].
    destruct (decide (x = 2)) as [->|]; [intros [= <-]; set_solver|].
    by rewrite !lookup_insert_ne, lookup_singleton_ne.
  - constructor; [|constructor]. split; [done|]. split.
    + split; repeat constructor; vm_compute; done.
    + intros v ->%list_elem_of_singleton. done.
  - vm_compute. done.
  - constructor; [by intros [] pk|]. intros pk s hs [=].
Defined.
