(* ===== verification/TowerRestart.v ===== *)
(** The tower after a restart: which votes [adjust_lockouts_after_replay] keeps
    when a saved tower meets the history of the replayed root. *)

From Stdlib Require Import Strings.String.
From S2P Require Import Prelude BTree Tower ForkChoice LatestVotes VoteInterface.
From S2P Require Import LockoutProps.
From S2P Require Import VoteState Tower.

Import TowerOps.

(** The slot history records which slots of a window are rooted: the slots after
    the window are in the future, those before it too old. Adding a slot moves the
    end of the window to it. *)
Class SlotHistoryLaws (SlotHistory : Type) `{SlotHistoryApi SlotHistory} := {
  history_newest : SlotHistory → Slot;
  check_future h s : history_check h s = Future ↔ history_newest h < s;
  check_too_old h s s' : history_check h s = TooOld → s' ≤ s → history_check h s' = TooOld;
  check_added h s : history_check (history_add s h) s = Found;
  newest_added h s : history_newest h < s → history_newest (history_add s h) = s;
}.

(** The last slot of a vote is that of its newest lockout. *)
Class VoteTxLaws `{VoteTxApi} := {
  last_of_vote vote : last_slot_of_vote vote = last (vote_slots vote);
  last_of_sync t : last_slot_of_sync t = last (slot <$> sync_lockouts t);
}.

Lemma tx_last_voted_slot `{VoteTxLaws} tx : VoteTx.last_voted_slot tx = last (VoteTx.slots tx).
Proof. destruct tx; simpl; by rewrite ?last_of_vote, ?last_of_sync. Qed.

Lemma tower_last_voted_slot t : last_voted_slot t = last (VoteTx.slots (last_vote t)).
Proof.
  unfold last_voted_slot, VoteTx.is_empty, VoteTx.len. case_bool_decide as He; [by rewrite He|].
  by rewrite last_lookup, <-Nat.sub_1_r.
Qed.

Section adjust.
Context `{LockoutApi, VoteTxLaws} {SlotHistory : Type} `{SlotHistoryLaws SlotHistory}.
Context (h : SlotHistory) (root : Slot).
Implicit Types (a : Adjusting) (l : list Slot) (s : Slot).

(** [s] may come right or later after [c] on the way down to the root, which a
    vote may repeat. *)
Definition down c s : Prop := s < c ∨ (s = c ∧ s = root).

(** The variables of the loop fit the slots to come. *)
Record Ready a l : Prop := {
  ready_future : still_in_future a = false → ∀ s, s ∈ l → history_check h s ≠ Future;
  ready_past : past_outside_history a = true → ∀ s, s ∈ l → history_check h s = TooOld;
  ready_down : ∀ c s, checked_slot a = Some c → s ∈ l → down c s;
}.

(** What one slot does to the variables. *)
Definition stepped s a : Adjusting :=
  let anchored := match anchored_slot a with
    | Some x => Some x
    | None => if bool_decide (history_check h s = Found) then Some s else None
    end in
  {| retain_flags := retain_flags a ++ [negb (is_some anchored)];
     still_in_future := still_in_future a && bool_decide (history_check h s = Future);
     past_outside_history := past_outside_history a || bool_decide (history_check h s = TooOld);
     checked_slot := Some s;
     anchored_slot := anchored |}.

Lemma stepped_ready s l a :
  StronglySorted down (s :: l) → Ready a (s :: l) → Ready (stepped s a) l.
Proof.
  intros [_ Hs]%StronglySorted_inv [Hf Hp Hd]. rewrite Forall_forall in Hs.
  assert (∀ y, y ∈ l → y ≤ s) as Hle by (intros y Hy; destruct (Hs y Hy); lia).
  split; simpl.
  - intros [Hb|Hb]%andb_false_iff y Hy; [apply Hf; [done|by right]|].
    apply bool_decide_eq_false in Hb. rewrite check_future in *. specialize (Hle y Hy). lia.
  - intros [Hb|Hb]%orb_true_iff y Hy; [apply Hp; [done|by right]|].
    apply bool_decide_eq_true in Hb. apply (check_too_old h s); auto.
  - intros c y [= <-] Hy. by apply Hs.
Qed.

Lemma adjust_step_spec s l a :
  Ready a (s :: l) →
  adjust_step h root s a =
    Ret (if is_some (anchored_slot a) && bool_decide (history_check h s = NotFound)
         then Err (FatallyInconsistent "diverged ancestor?"%string)
         else Ok (stepped s a)).
Proof.
  intros [Hf Hp Hd]. unfold adjust_step. destruct (_ && bool_decide (_ = NotFound)); [done|].
  assert (negb (still_in_future a) && bool_decide (history_check h s = Future) = false) as ->.
  { destruct (still_in_future a); [done|]. simpl. apply bool_decide_eq_false_2, Hf; [done|by left]. }
  assert (past_outside_history a && negb (bool_decide (history_check h s = TooOld)) = false) as ->.
  { destruct (past_outside_history a); [|done]. simpl. apply negb_false_iff, bool_decide_eq_true_2, Hp; [done|by left]. }
  destruct (checked_slot a) as [c|] eqn:Hc.
  - assert ((s =? c) && (s =? root) || (s <? c) = true) as ->.
    { destruct (Hd c s eq_refl) as [Hlt|[-> ->]]; [by left| |by rewrite !Z.eqb_refl].
      apply orb_true_iff. right. by apply Z.ltb_lt. }
    cbn [assert_ mbind outcome_bind]. unfold stepped. by destruct (anchored_slot a).
  - cbn [assert_ mbind outcome_bind]. unfold stepped. by destruct (anchored_slot a).
Qed.

(** Down to the anchor all votes are kept. *)
Lemma adjust_loop_unanchored l1 l2 a :
  anchored_slot a = None → (∀ s, s ∈ l1 → history_check h s ≠ Found) →
  StronglySorted down (l1 ++ l2) → Ready a (l1 ++ l2) →
  ∃ a', adjust_loop h root (l1 ++ l2) a = adjust_loop h root l2 a' ∧ Ready a' l2 ∧
    anchored_slot a' = None ∧
    retain_flags a' = retain_flags a ++ replicate (length l1) true.
Proof.
  revert a. induction l1 as [|s l1 IH]; intros a Ha Hno Hs HR; simpl in *.
  { exists a. by rewrite app_nil_r. }
  rewrite (adjust_step_spec s (l1 ++ l2)) by done. rewrite Ha. cbn [is_some andb]. run.
  assert (anchored_slot (stepped s a) = None) as Ha'.
  { simpl. rewrite Ha. rewrite bool_decide_false by (apply Hno; by left). done. }
  destruct (IH (stepped s a)) as (a' & -> & HR' & Han & Hfl); [done| | |by apply stepped_ready|].
  { intros x Hx. apply Hno. by right. }
  { by apply StronglySorted_inv in Hs as [? _]. }
  exists a'. split_and!; [done..|]. rewrite Hfl. simpl. rewrite Ha.
  rewrite bool_decide_false by (apply Hno; by left). by rewrite <-app_assoc.
Qed.

(** From the anchor on every slot has to be rooted, or too old to tell. *)
Lemma adjust_loop_anchored l a :
  is_some (anchored_slot a) = true → StronglySorted down l → Ready a l →
  ((∃ s, s ∈ l ∧ history_check h s = NotFound) ∧
   adjust_loop h root l a = Ret (Err (FatallyInconsistent "diverged ancestor?"%string))) ∨
  ((∀ s, s ∈ l → history_check h s ≠ NotFound) ∧
   ∃ a', adjust_loop h root l a = Ret (Ok a') ∧ is_some (anchored_slot a') = true ∧
     retain_flags a' = retain_flags a ++ replicate (length l) false).
Proof.
  revert a. induction l as [|s l IH]; intros a Ha Hs HR; simpl.
  { right. split; [intros s Hs'; by apply not_elem_of_nil in Hs'|]. exists a. by rewrite app_nil_r. }
  rewrite (adjust_step_spec s l) by done. rewrite Ha. cbn [andb].
  case_bool_decide as Hn; [left; split; [exists s; split; [by left|done]|done]|]. run.
  assert (anchored_slot (stepped s a) = anchored_slot a) as Hst.
  { simpl. by destruct (anchored_slot a). }
  destruct (IH (stepped s a)) as [[(x & Hx & Hxn) ->]|[Hall (a' & -> & Ha' & Hfl)]].
  - by rewrite Hst.
  - by apply StronglySorted_inv in Hs as [? _].
  - by apply stepped_ready.
  - left. split; [|done]. exists x. split; [by right|done].
  - right. split; [intros x [->|Hx]%elem_of_cons; auto|]. exists a'. split_and!; [done..|].
    rewrite Hfl. simpl. destruct (anchored_slot a); [|done]. by rewrite <-app_assoc.
Qed.

Lemma retain_flagged_split n vs :
  (n ≤ length vs)%nat →
  retain_flagged (replicate n false ++ replicate (length vs - n) true) vs = Ret (drop n vs).
Proof.
  revert n. induction vs as [|v vs IH]; intros n Hn; [by destruct n; [|simpl in Hn; lia]|].
  destruct n as [|n]; simpl.
  - specialize (IH 0%nat). simpl in IH. rewrite Nat.sub_0_r in IH. rewrite IH by lia. by rewrite drop_0.
  - simpl in Hn. rewrite IH by lia. done.
Qed.

(** The flags are in reverse, that of the root last. *)
Lemma pop_flags n k :
  rev (take (n + k) (replicate n true ++ replicate (S k) false)) =
  replicate k false ++ replicate n true.
Proof.
  rewrite replicate_S_end, app_assoc, take_app_length' by (by rewrite length_app, !length_replicate).
  rewrite rev_alt. change (rev_append ?l []) with (reverse l). by rewrite reverse_app, !reverse_replicate.
Qed.

(** * The votes that are kept *)

(** The tower after the adjustment: the votes above the anchor, which are all the
    validator remembers, and which are on no fork it has replayed yet. *)
Record Kept (kept : list Lockout) (r : Slot) (t' : Tower) : Prop := {
  kept_state : vote_state t' = {| votes := kept; root_slot := Some r |};
  kept_last : last_voted_slot t' = last (slot <$> kept);
  kept_stray : kept ≠ [] → is_stray_last_vote t' = true;
}.

(** The votes of [t] are [dropped] up to the newest slot of the history, and
    [kept] above it. *)
Record Anchored t (dropped kept : list Lockout) : Prop := {
  anchored_votes : votes (vote_state t) = dropped ++ kept;
  anchored_at : ∃ s, last (root :: (slot <$> dropped)) = Some s ∧ history_check h s = Found;
  anchored_kept v : v ∈ kept → history_check h (slot v) ≠ Found;
}.

Definition InOrder t : Prop :=
  root_slot (vote_state t) = Some root ∧ StronglySorted Z.lt (voted_slots t) ∧
  ∀ s, s ∈ voted_slots t → root ≤ s.

Lemma InOrder_down t : InOrder t → StronglySorted down (rev (root :: voted_slots t)).
Proof.
  intros (_ & Hs & Hr).
  apply (StronglySorted_rev (λ x y, x < y ∨ (x = y ∧ x = root))). constructor.
  - eapply StronglySorted_weaken; [|exact Hs]. by left.
  - apply Forall_forall. intros y Hy. specialize (Hr y Hy). lia.
Qed.

Lemma anchor_exists t :
  (∀ s, s ∈ root :: voted_slots t → history_check h s ≠ Found) ∨
  ∃ dropped kept, Anchored t dropped kept.
Proof.
  enough (∀ dropped kept, votes (vote_state t) = dropped ++ kept →
    (∀ v, v ∈ kept → history_check h (slot v) ≠ Found) →
    (∀ s, s ∈ root :: voted_slots t → history_check h s ≠ Found) ∨
    ∃ dropped kept, Anchored t dropped kept) as Hx.
  { apply (Hx (votes (vote_state t)) []); [by rewrite app_nil_r|].
    intros v Hv. by apply not_elem_of_nil in Hv. }
  intros dropped. induction dropped as [|v dropped IH] using rev_ind; intros kept Heq Hk.
  - destruct (decide (history_check h root = Found)) as [Hf|Hf].
    + right. exists [], kept. split; [done|by exists root|done].
    + left. unfold voted_slots. rewrite Heq. simpl.
      intros s [->|(v & -> & Hv)%list_elem_of_fmap]%elem_of_cons; auto.
  - destruct (decide (history_check h (slot v) = Found)) as [Hf|Hf].
    + right. exists (dropped ++ [v]), kept. split; [done| |done].
      exists (slot v). split; [|done]. rewrite fmap_app. apply (last_snoc (slot v) (root :: (slot <$> dropped))).
    + apply (IH (v :: kept)); [by rewrite Heq, <-app_assoc|].
      intros w [->|Hw]%elem_of_cons; auto.
Qed.

Definition start : Adjusting :=
  {| retain_flags := []; still_in_future := true; past_outside_history := false;
     checked_slot := None; anchored_slot := None |}.

Lemma start_ready l : Ready start l.
Proof. by split. Qed.

(** The loop over a tower with an anchor. *)
Lemma adjust_loop_spec t dropped kept :
  InOrder t → Anchored t dropped kept →
  ((∃ s, s ∈ root :: (slot <$> dropped) ∧ history_check h s = NotFound) ∧
   adjust_loop h root (rev (root :: voted_slots t)) start =
     Ret (Err (FatallyInconsistent "diverged ancestor?"%string))) ∨
  ((∀ s, s ∈ root :: (slot <$> dropped) → history_check h s ≠ NotFound) ∧
   ∃ a, adjust_loop h root (rev (root :: voted_slots t)) start = Ret (Ok a) ∧
     is_some (anchored_slot a) = true ∧
     retain_flags a = replicate (length kept) true ++ replicate (S (length dropped)) false).
Proof.
  intros Hin [Hv (x & Hx & Hfx) Hk]. pose proof (InOrder_down t Hin) as Hd.
  unfold voted_slots in *. rewrite Hv, fmap_app, app_comm_cons, rev_app_distr in *.
  apply last_Some in Hx as [pre Hpre]. rewrite Hpre, rev_app_distr in *. simpl in Hd |- *.
  destruct (adjust_loop_unanchored (rev (slot <$> kept)) (x :: rev pre) start)
    as (a & -> & HR & Ha & Hfl); [done| |done|apply start_ready|].
  { intros s Hs. rewrite elem_of_rev in Hs. apply list_elem_of_fmap in Hs as (v & -> & Hvk). auto. }
  rewrite length_rev, length_fmap in Hfl. apply StronglySorted_app_1_r in Hd.
  simpl. rewrite (adjust_step_spec x (rev pre)) by done. rewrite Ha. cbn [is_some andb]. run.
  destruct (adjust_loop_anchored (rev pre) (stepped x a)) as [[(s & Hs & Hn) ->]|[Hall (a' & -> & Ha' & Hfl')]].
  - simpl. by rewrite Ha, bool_decide_true.
  - by apply StronglySorted_inv in Hd as [? _].
  - by apply stepped_ready.
  - left. split; [|done]. exists s. split; [|done]. rewrite elem_of_rev in Hs. apply elem_of_app. by left.
  - right. split.
    + intros s [Hs| ->%list_elem_of_singleton]%elem_of_app; [|congruence]. apply Hall. by rewrite elem_of_rev.
    + exists a'. split_and!; [done..|]. rewrite Hfl'. simpl. rewrite Ha, bool_decide_true, Hfl by done.
      simpl. rewrite <-app_assoc, length_rev. f_equal. simpl.
      assert (length dropped = length pre) as ->; [|done].
      apply (f_equal length) in Hpre. rewrite length_app in Hpre. simpl in Hpre. rewrite length_fmap in Hpre. lia.
Qed.

(** A saved tower: its last vote is for its newest slot. *)
Definition Saved t : Prop :=
  votes (vote_state t) ≠ [] ∧ last_voted_slot t = last (voted_slots t).

Lemma adjust_history_kept t dropped kept :
  InOrder t → Saved t → Anchored t dropped kept →
  (∀ s, s ∈ root :: (slot <$> dropped) → history_check h s ≠ NotFound) →
  ∃ t', adjust_lockouts_with_slot_history h t = Ret (Ok t') ∧ Kept kept root t'.
Proof.
  intros Hin [Hne Hlast] HA Hok. unfold adjust_lockouts_with_slot_history, TowerOps.root.
  destruct Hin as [Hr Hin']. rewrite Hr. cbn [unwrap]. run.
  destruct (adjust_loop_spec t dropped kept) as [[(s & Hs & Hn) _]|[_ (a & Ha & Hsome & Hfl)]];
    [done|done|by destruct (Hok s Hs)|].
  fold start. rewrite Ha. run. rewrite Hsome. cbn [negb].
  destruct HA as [Hv Hat Hk].
  assert (length (retain_flags a) = length (root :: voted_slots t)) as Hlen.
  { rewrite Hfl. unfold voted_slots. rewrite Hv, length_app, !length_replicate. simpl.
    rewrite length_fmap, length_app. lia. }
  rewrite Hlen, Nat.eqb_refl. cbn [assert_]. run.
  replace (length (root :: voted_slots t) - 1)%nat with (length kept + length dropped)%nat
    by (unfold voted_slots; rewrite Hv; simpl; rewrite length_fmap, length_app; lia).
  rewrite Hfl, pop_flags.
  replace (length kept) with (length (votes (vote_state t)) - length dropped)%nat
    by (rewrite Hv, length_app; lia).
  rewrite retain_flagged_split by (rewrite Hv, length_app; lia). run.
  rewrite Hv, drop_app_length.
  case_bool_decide as Hkept.
  { eexists. split; [done|]. split; simpl; [done|by rewrite Hkept|done]. }
  assert (last_voted_slot t = last (slot <$> kept) ∧ is_some (last (slot <$> kept)) = true)
    as [Hl Hs].
  { rewrite Hlast. unfold voted_slots. rewrite Hv, fmap_app, last_app.
    destruct (last (slot <$> kept)) eqn:Hl; [done|]. by apply last_None, fmap_nil_inv in Hl. }
  rewrite bool_decide_true by exact Hl.
  cbn [assert_]. run. eexists. split; [done|]. split; [done|exact Hl|].
  intros _. unfold is_stray_last_vote. change (last_voted_slot _) with (last_voted_slot t) at 2.
  cbn [stray_restored_slot set_stray]. rewrite tx_last_voted_slot, <-tower_last_voted_slot.
  change (last_voted_slot _) with (last_voted_slot t). rewrite Hl, Hs. by rewrite bool_decide_true.
Qed.

Lemma adjust_history_diverged t dropped kept :
  InOrder t → Anchored t dropped kept →
  (∃ s, s ∈ root :: (slot <$> dropped) ∧ history_check h s = NotFound) →
  adjust_lockouts_with_slot_history h t =
    Ret (Err (FatallyInconsistent "diverged ancestor?"%string)).
Proof.
  intros Hin HA (s & Hs & Hn). unfold adjust_lockouts_with_slot_history, TowerOps.root.
  pose proof Hin as [Hr _]. rewrite Hr. cbn [unwrap]. run. fold start.
  destruct (adjust_loop_spec t dropped kept) as [[_ ->]|[Hok _]]; [done|done|done|].
  by destruct (Hok s Hs).
Qed.

Lemma adjust_history_no_common t :
  InOrder t → (∀ s, s ∈ root :: voted_slots t → history_check h s ≠ Found) →
  adjust_lockouts_with_slot_history h t =
    Ret (Err (FatallyInconsistent "no common slot for rooted tower"%string)).
Proof.
  intros Hin Hno. unfold adjust_lockouts_with_slot_history, TowerOps.root.
  pose proof Hin as [Hr _]. rewrite Hr. cbn [unwrap]. run. fold start.
  pose proof (InOrder_down t Hin) as Hd. rewrite <-(app_nil_r (rev _)) in Hd |- *.
  destruct (adjust_loop_unanchored (rev (root :: voted_slots t)) [] start)
    as (a & -> & _ & Ha & _); [done| |done|apply start_ready|].
  { intros s Hs. rewrite elem_of_rev in Hs. auto. }
  cbn [adjust_loop]. run. by rewrite Ha.
Qed.

End adjust.

(** * Theorem *)

Section restarted.
Context `{LockoutApi, VoteTxLaws} {SlotHistory : Type} `{SlotHistoryLaws SlotHistory}.
Context (h : SlotHistory) (root replayed : Slot) (t : Tower).

(** A tower without votes, as it is created. *)
Definition Fresh : Prop :=
  votes (vote_state t) = [] ∧
  (last_vote t = TxVoteStateUpdate TowerSync_default ∨ last_vote t = TxTowerSync TowerSync_default 0).

(** What becomes of the tower [t] with its root at [root] after a replay up to the
    root [replayed] with the history [h]. *)
Inductive Restarted : result Tower TowerError → Prop :=
| restarted_fresh : Fresh → Restarted (Ok t)
| restarted_too_old s :
    root ≤ replayed → last_voted_slot t = Some s → history_check h s = TooOld →
    Restarted (Err (TooOldTower s (history_oldest h)))
| restarted_no_common s :
    root ≤ replayed → last_voted_slot t = Some s → history_check h s ≠ TooOld →
    (∀ s, s ∈ root :: voted_slots t → history_check h s ≠ Found) →
    Restarted (Err (FatallyInconsistent "no common slot for rooted tower"%string))
| restarted_diverged dropped kept s :
    root ≤ replayed → Anchored h root t dropped kept →
    s ∈ root :: (slot <$> dropped) → history_check h s = NotFound →
    Restarted (Err (FatallyInconsistent "diverged ancestor?"%string))
| restarted_kept dropped kept t' :
    root ≤ replayed → Anchored h root t dropped kept →
    (∀ s, s ∈ root :: (slot <$> dropped) → history_check h s ≠ NotFound) →
    Kept kept replayed t' → Restarted (Ok t')
| restarted_future t' :
    replayed < root → Kept (filter (λ v, root < slot v) (votes (vote_state t))) root t' →
    Restarted (Ok t').

Lemma restart_replayed s :
  InOrder root t → Saved t → root ≤ replayed → last_voted_slot t = Some s →
  history_check h s ≠ TooOld →
  ∃ res, (t ←? adjust_lockouts_with_slot_history h t; Ret (Ok (initialize_root replayed t))) = Ret res ∧
    Restarted res.
Proof.
  intros Hin Hsv Hle Hs Hold. destruct (anchor_exists h root t) as [Hno|(dropped & kept & HA)].
  { rewrite (adjust_history_no_common h root t) by done. eexists. split; [done|].
    by eapply restarted_no_common. }
  destruct (decide (Exists (λ s, history_check h s = NotFound) (root :: (slot <$> dropped))))
    as [(x & Hx & Hn)%Exists_exists|Hok].
  { rewrite (adjust_history_diverged h root t dropped kept) by eauto. eexists. split; [done|].
    by eapply restarted_diverged. }
  assert (∀ s, s ∈ root :: (slot <$> dropped) → history_check h s ≠ NotFound) as Hall.
  { intros x Hx Hn. apply Hok, Exists_exists. eauto. }
  destruct (adjust_history_kept h root t dropped kept) as (t' & -> & HK); [done..|]. run.
  eexists. split; [done|]. eapply restarted_kept; [done..|].
  destruct HK as [Hst Hl Hk]. split; [|done|done]. simpl. by rewrite Hst.
Qed.

(** With the root of the tower added, the history ends at that root. *)
Lemma anchored_future :
  InOrder root t → history_newest h < root →
  ∃ dropped, Anchored (history_add root h) root t dropped
               (filter (λ v, root < slot v) (votes (vote_state t))) ∧
    ∀ s, s ∈ root :: (slot <$> dropped) → s = root.
Proof.
  intros (_ & Hso & Hge) Hn. unfold voted_slots in *.
  assert (∀ v, v ∈ filter (λ v, root < slot v) (votes (vote_state t)) →
    history_check (history_add root h) (slot v) ≠ Found) as Hkept.
  { intros v [Hv _]%list_elem_of_filter Hf.
    assert (history_check (history_add root h) (slot v) = Future); [|congruence].
    apply check_future. by rewrite newest_added. }
  destruct (votes (vote_state t)) as [|v vs] eqn:Hvs.
  { exists []. split; [split; [done| |done]|by intros s ->%list_elem_of_singleton].
    exists root. split; [done|apply check_added]. }
  apply StronglySorted_inv in Hso as [_ Hso]. rewrite Forall_forall in Hso.
  assert (filter (λ v, root < slot v) vs = vs) as Hall.
  { apply list_filter_all_in. intros w Hw. specialize (Hge (slot v)).
    specialize (Hso (slot w) (list_elem_of_fmap_2 slot vs w Hw)).
    enough (root ≤ slot v) by lia. apply Hge. by left. }
  destruct (decide (root < slot v)) as [Hlt|Hge'].
  - exists []. rewrite filter_cons_True, Hall in * by done.
    split; [split; [by rewrite Hvs| |done]|by intros s ->%list_elem_of_singleton].
    exists root. split; [done|apply check_added].
  - assert (slot v = root) as Hv by (specialize (Hge (slot v)); set_solver by lia).
    exists [v]. rewrite filter_cons_False, Hall in * by done.
    split; [split; [by rewrite Hvs| |done]|]; simpl.
    + exists (slot v). split; [done|]. rewrite Hv. apply check_added.
    + rewrite Hv. intros s [->|[->|Hs]%elem_of_cons]%elem_of_cons; [done..|].
      by apply not_elem_of_nil in Hs.
Qed.

End restarted.

(** C37. A tower that is restored after a replay is adjusted without a panic. It
    is refused as too old when its last vote is before the history of the replayed
    root, and as inconsistent when none of its slots is in that history or when a
    slot below one that is in it is missing. Otherwise exactly the votes above its
    newest rooted slot are kept, with their lockouts, as stray votes; a tower from
    the future keeps its root and the votes above it. *)
Theorem restart_keeps_lockouts `{LockoutApi, VoteTxLaws} {SlotHistory : Type}
    `{SlotHistoryLaws SlotHistory} (h : SlotHistory) (root replayed : Slot) (t : Tower) :
  InOrder root t → history_check h replayed = Found → history_newest h = replayed →
  Saved t ∨ (Fresh t ∧ root = replayed) →
  ∃ res, adjust_lockouts_after_replay replayed h t = Ret res ∧ Restarted h root replayed t res.
Proof.
  intros Hin Hf Hn Hcase. unfold adjust_lockouts_after_replay, TowerOps.root.
  pose proof Hin as [Hr _]. rewrite Hr. cbn [unwrap]. run.
  rewrite (bool_decide_true (_ = Found)) by done. cbn [assert_]. run.
  destruct Hcase as [Hsv|[Hfr ->]].
  - pose proof Hsv as [Hne Hlast].
    rewrite (bool_decide_false (votes (vote_state t) = [])), !andb_false_r by done.
    cbn [negb orb assert_]. run.
    destruct (last_voted_slot t) as [s|] eqn:Hs.
    2: { symmetry in Hlast. by apply last_None, fmap_nil_inv in Hlast. }
    case_leb.
    + case_bool_decide as Ht; [eexists; split; [done|by apply restarted_too_old]|].
      by apply (restart_replayed h root replayed t s).
    + destruct (anchored_future h root t Hin) as (dropped & HA & Hdr); [lia|].
      destruct (adjust_history_kept (history_add root h) root t dropped _ Hin Hsv HA)
        as (t' & -> & HK).
      { intros x ->%Hdr. by rewrite check_added. }
      eexists. split; [done|]. apply restarted_future; [lia|done].
  - pose proof Hfr as [Hnil Hlv]. rewrite (bool_decide_true (votes (vote_state t) = [])) by done.
    rewrite tower_last_voted_slot. rewrite !andb_true_r.
    assert (bool_decide (last_vote t = TxVoteStateUpdate TowerSync_default) ||
            bool_decide (last_vote t = TxTowerSync TowerSync_default 0) = true) as ->.
    { apply orb_true_iff. by rewrite !bool_decide_eq_true. }
    cbn [orb assert_]. run.
    assert (VoteTx.slots (last_vote t) = []) as -> by (by destruct Hlv as [-> | ->]).
    cbn [last]. rewrite Z.eqb_refl. cbn [assert_]. run.
    eexists. split; [done|by apply restarted_fresh].
Qed.

(** ** Witness *)

#[local] Existing Instances doubling_lockouts.

#[local] Instance ex_last_slots : VoteTxApi := {|
  last_slot_of_vote vote := last (vote_slots vote);
  last_slot_of_sync t := last (slot <$> sync_lockouts t);
|}.

#[local] Instance ex_last_slots_laws : VoteTxLaws.
Proof. by split. Qed.

(** A history as its oldest and newest slots and the rooted ones. *)
Record ExHistory := { ex_oldest : Slot; ex_newest : Slot; ex_rooted : list Slot }.

#[local] Instance ex_history : SlotHistoryApi ExHistory := {|
  history_check h s :=
    if ex_newest h <? s then Future else if s <? ex_oldest h then TooOld
    else if bool_decide (s ∈ ex_rooted h) then Found else NotFound;
  history_oldest := ex_oldest;
  history_add s h :=
    {| ex_oldest := Z.min s (ex_oldest h); ex_newest := s; ex_rooted := s :: ex_rooted h |};
|}.

#[local] Program Instance ex_history_laws : SlotHistoryLaws ExHistory := {| history_newest := ex_newest |}.
Next Obligation. intros h s. simpl. repeat case_leb; try case_bool_decide; split; intros; done || lia. Qed.
Next Obligation. intros h s s'. simpl. repeat case_leb; try case_bool_decide; done || lia. Qed.
Next Obligation.
  intros h s. simpl. rewrite Z.ltb_irrefl, (proj2 (Z.ltb_ge _ _)) by lia. by rewrite bool_decide_true by left.
Qed.
Next Obligation. done. Qed.

(** Votes for 2, 4 and 6, of which the replay up to 5 has rooted the first. *)
Definition ex_saved_votes : list Lockout :=
  [{| slot := 2; confirmation_count := 3 |}; {| slot := 4; confirmation_count := 2 |};
   {| slot := 6; confirmation_count := 1 |}].
Definition ex_saved : Tower :=
  set_last_vote (TxTowerSync {| sync_lockouts := ex_saved_votes; sync_root := Some 0; sync_hash := 9;
                                sync_timestamp := None |} 0)
    {| timestamp_slot := 0; timestamp_time := 0 |}
    (set_vote_state {| votes := ex_saved_votes; root_slot := Some 0 |} Tower_default).
Definition ex_replayed : ExHistory := {| ex_oldest := 0; ex_newest := 5; ex_rooted := [5; 3; 2; 0] |}.

Lemma restart_keeps_lockouts_witness :
  ∃ res, adjust_lockouts_after_replay 5 ex_replayed ex_saved = Ret res ∧
    Restarted ex_replayed 0 5 ex_saved res.
Proof.
  apply (restart_keeps_lockouts ex_replayed 0 5 ex_saved); [|done|done|].
  - split; [done|]. split; [repeat constructor|].
    change (voted_slots ex_saved) with [2; 4; 6].
    intros s Hs. rewrite !elem_of_cons in Hs. destruct Hs as [->|[->|[->|Hs]]]; [lia..|].
    by apply not_elem_of_nil in Hs.
  - left. by split.
Defined.
