(* ===== verification/Bytes.v ===== *)
(** Bytes and little-endian integers, the fixed layouts that [arrayref]'s
    [array_refs!] splits a buffer into, and public keys. *)

From S2P Require Import Prelude.

(** A byte is an integer below 256, a buffer a list of them. *)
Definition is_byte (b : Z) : Prop := 0 ≤ b < 256.
Abbreviation Bytes := (Forall is_byte).

(** * Little-endian integers *)

(** [to_le_bytes] of an integer of [n] bytes. *)
Fixpoint to_le_bytes (n : nat) (z : Z) : list Z :=
  match n with
  | O => []
  | S n => z mod 256 :: to_le_bytes n (z / 256)
  end.

(** [from_le_bytes]. *)
Fixpoint from_le_bytes (l : list Z) : Z :=
  match l with
  | [] => 0
  | b :: l => b + 256 * from_le_bytes l
  end.

Lemma length_to_le_bytes n z : length (to_le_bytes n z) = n.
Proof. revert z. induction n as [|n IH]; intros z; simpl; [done|]. by rewrite IH. Qed.

Lemma to_le_bytes_Bytes n z : Bytes (to_le_bytes n z).
Proof.
  revert z. induction n as [|n IH]; intros z; simpl; constructor; [|done].
  unfold is_byte. pose proof (Z.mod_pos_bound z 256). lia.
Qed.

Lemma pow_byte n : 2 ^ (8 * Z.of_nat (S n)) = 256 * 2 ^ (8 * Z.of_nat n).
Proof. rewrite Nat2Z.inj_succ, Z.mul_succ_r, Z.pow_add_r by lia. lia. Qed.

Lemma from_to_le_bytes n z : 0 ≤ z < 2 ^ (8 * Z.of_nat n) → from_le_bytes (to_le_bytes n z) = z.
Proof.
  revert z. induction n as [|n IH]; intros z Hz; [simpl in *; lia|].
  rewrite pow_byte in Hz. cbn [to_le_bytes from_le_bytes].
  rewrite IH; [pose proof (Z.div_mod z 256); lia|].
  split; [apply Z.div_pos; lia|apply Z.div_lt_upper_bound; lia].
Qed.

Lemma from_le_bytes_range l : Bytes l → 0 ≤ from_le_bytes l < 2 ^ (8 * Z.of_nat (length l)).
Proof.
  induction 1 as [|b l Hb Hl IH]; [done|]. cbn [length]. rewrite pow_byte. unfold is_byte in Hb.
  cbn [from_le_bytes]. lia.
Qed.

Lemma to_from_le_bytes l : Bytes l → to_le_bytes (length l) (from_le_bytes l) = l.
Proof.
  induction 1 as [|b l Hb Hl IH]; [done|]. unfold is_byte in Hb. cbn [length to_le_bytes from_le_bytes].
  rewrite (Z.mul_comm 256), Z.mod_add, Z.mod_small, Z.div_add, Z.div_small by lia. by rewrite Z.add_0_l, IH.
Qed.

Lemma to_from_le_bytes' n l : length l = n → Bytes l → to_le_bytes n (from_le_bytes l) = l.
Proof. intros <-. apply to_from_le_bytes. Qed.

(** * Layouts *)

(** [array_refs![src, w1, w2, ..]]: the parts of a buffer with the given widths. *)
Fixpoint array_refs (widths : list nat) (src : list Z) : list (list Z) :=
  match widths with
  | [] => []
  | w :: widths => take w src :: array_refs widths (drop w src)
  end.

Lemma array_refs_app w widths part rest :
  length part = w → array_refs (w :: widths) (part ++ rest) = part :: array_refs widths rest.
Proof. intros <-. cbn [array_refs]. by rewrite take_app_length, drop_app_length. Qed.

Lemma array_refs_concat parts : array_refs (length <$> parts) (concat parts) = parts.
Proof.
  induction parts as [|part parts IH]; [done|]. rewrite fmap_cons. cbn [concat].
  by rewrite array_refs_app, IH.
Qed.

Lemma concat_array_refs widths src :
  length src = sum_list widths → concat (array_refs widths src) = src.
Proof.
  revert src. induction widths as [|w widths IH]; intros src Hlen; simpl in *.
  { by destruct src. }
  rewrite IH; [apply take_drop|]. rewrite length_drop. lia.
Qed.

Lemma array_refs_lengths widths src :
  length src = sum_list widths → length <$> array_refs widths src = widths.
Proof.
  revert src. induction widths as [|w widths IH]; intros src Hlen; simpl in *; [done|].
  rewrite length_take, IH by (rewrite length_drop; lia). f_equal. lia.
Qed.

Lemma array_refs_Bytes widths src : Bytes src → Forall Bytes (array_refs widths src).
Proof.
  revert src. induction widths as [|w widths IH]; intros src Hb; constructor.
  - by apply Forall_take.
  - by apply IH, Forall_drop.
Qed.

(** A buffer of the right length is the concatenation of parts of the widths. *)
Lemma array_refs_spec widths src :
  Bytes src → length src = sum_list widths →
  src = concat (array_refs widths src) ∧
  Forall2 (λ w part, length part = w ∧ Bytes part) widths (array_refs widths src).
Proof.
  intros Hb Hlen. split; [by rewrite concat_array_refs|].
  revert src Hb Hlen. induction widths as [|w widths IH]; intros src Hb Hlen; simpl in *; constructor.
  - rewrite length_take. split; [lia|by apply Forall_take].
  - apply IH; [by apply Forall_drop|]. rewrite length_drop. lia.
Qed.

#[global] Arguments to_le_bytes : simpl never.
#[global] Arguments from_le_bytes : simpl never.

(** * Keys *)

(** The 32 bytes of a key, as they are in a buffer: a key is the big-endian number
    they spell. *)
Definition key_bytes (k : Pubkey) : list Z := reverse (to_le_bytes 32 k).
Definition key_of_bytes (b : list Z) : Pubkey := from_le_bytes (reverse b).
#[global] Arguments key_bytes : simpl never.
#[global] Arguments key_of_bytes : simpl never.
Definition is_key (k : Pubkey) : Prop := 0 ≤ k < 2 ^ 256.
Definition is_u64 (n : Z) : Prop := 0 ≤ n ≤ u64_MAX.

Lemma length_key_bytes k : length (key_bytes k) = 32%nat.
Proof. unfold key_bytes. by rewrite length_reverse, length_to_le_bytes. Qed.

Lemma key_bytes_Bytes k : Bytes (key_bytes k).
Proof. apply Forall_reverse, to_le_bytes_Bytes. Qed.

Lemma key_of_key_bytes k : is_key k → key_of_bytes (key_bytes k) = k.
Proof. intros Hk. unfold key_of_bytes, key_bytes. rewrite reverse_involutive. by apply from_to_le_bytes. Qed.

Lemma is_key_of_bytes b : Bytes b → length b = 32%nat → is_key (key_of_bytes b).
Proof.
  intros Hb%Forall_reverse Hl. pose proof (from_le_bytes_range _ Hb) as Hr. by rewrite length_reverse, Hl in Hr.
Qed.

Lemma key_bytes_of_bytes b : Bytes b → length b = 32%nat → key_bytes (key_of_bytes b) = b.
Proof.
  intros Hb%Forall_reverse Hl. unfold key_of_bytes, key_bytes.
  rewrite to_from_le_bytes' by (by rewrite ?length_reverse). apply reverse_involutive.
Qed.

Lemma key_bytes_inj j k : is_key j → is_key k → key_bytes j = key_bytes k → j = k.
Proof. intros Hj Hk Heq. by rewrite <-(key_of_key_bytes j), Heq, key_of_key_bytes. Qed.
