(* ===== verification/TransactionContext.v ===== *)
(** The accounts of a transaction and what an instruction may do to them:
    [transaction-context/src/lib.rs], the call stack of
    [program-runtime/src/invoke_context.rs] and the write back of
    [program-runtime/src/serialization.rs].

    The keys of the accounts of a transaction are distinct, so an account is named
    by its key where the code uses its index. *)

From S2P Require Import Prelude Bytes.

Definition MAX_PERMITTED_DATA_LENGTH : Z := 10 * 1024 * 1024.
Definition MAX_PERMITTED_ACCOUNTS_DATA_ALLOCATIONS_PER_TRANSACTION : Z := MAX_PERMITTED_DATA_LENGTH * 2.
Definition MAX_PERMITTED_DATA_INCREASE : Z := 1024 * 10.

Inductive InstructionError :=
| InvalidRealloc
| MaxAccountsDataAllocationsExceeded
| ModifiedProgramId
| ExternalAccountLamportSpend
| ReadonlyLamportChange
| ExecutableLamportChange
| ExecutableDataModified
| ReadonlyDataModified
| ExternalAccountDataModified
| AccountDataSizeChanged
| ExecutableModified
| ExecutableAccountNotRentExempt
| ArithmeticOverflow
| UnbalancedInstruction
| CallDepth
| MaxInstructionTraceLengthExceeded
| ReentrancyNotAllowed
| MissingAccount
| PrivilegeEscalation
| InvalidAccountOwner
| AccountNotExecutable
| NotEnoughAccountKeys
| MissingRequiredSignature
| InvalidArgument
| InvalidAccountData
| InsufficientFunds
| AccountDataTooSmall
| OtherError (code : Z).

Record AccountSharedData := {
  acc_lamports : Z;
  acc_data : list Z;
  acc_owner : Pubkey;
  acc_executable : bool;
}.

#[global] Instance AccountSharedData_eq_dec : EqDecision AccountSharedData.
Proof. solve_decision. Defined.

(** An account of an instruction. [index_in_callee] is the first index of the
    account in this instruction, [index_in_caller] in the calling one. *)
Record InstructionAccount := {
  key : Pubkey;
  index_in_caller : nat;
  index_in_callee : nat;
  is_signer : bool;
  is_writable : bool;
}.

Record InstructionContext := {
  program_id : Pubkey;
  instruction_accounts : list InstructionAccount;
  instruction_accounts_lamport_sum : Z;
}.

(** The instruction stack has the current instruction first. *)
Record TransactionContext := {
  account_keys : list Pubkey;
  accounts : gmap Pubkey AccountSharedData;
  touched_flags : gset Pubkey;
  resize_delta : Z;
  instruction_stack_capacity : nat;
  instruction_trace_capacity : nat;
  instruction_stack : list InstructionContext;
  instruction_trace_length : nat;
  top_level_instruction_index : Z;
  remove_accounts_executable_flag_checks : bool;
}.

(** Crates outside the repository: the instructions sysvar, and [Rent]. *)
Class RuntimeSdk := {
  instructions_id : Pubkey;
  sysvar_id : Pubkey;
  store_current_index_checked (data : list Z) (index : Z) : result (list Z) InstructionError;
  rent_is_exempt (lamports : Z) (data_len : nat) : bool;
}.

(** * Accounts *)

(** [AccountSharedData::default()], which also stands for an account that does not exist. *)
Definition account_default : AccountSharedData :=
  {| acc_lamports := 0; acc_data := []; acc_owner := 0; acc_executable := false |}.

Definition account_at (m : gmap Pubkey AccountSharedData) (k : Pubkey) : AccountSharedData :=
  default account_default (m !! k).
Definition get_account (self : TransactionContext) (k : Pubkey) : AccountSharedData :=
  account_at (accounts self) k.

Definition set_acc_lamports (lamports : Z) (a : AccountSharedData) : AccountSharedData :=
  {| acc_lamports := lamports; acc_data := acc_data a; acc_owner := acc_owner a;
     acc_executable := acc_executable a |}.
Definition set_acc_data (data : list Z) (a : AccountSharedData) : AccountSharedData :=
  {| acc_lamports := acc_lamports a; acc_data := data; acc_owner := acc_owner a;
     acc_executable := acc_executable a |}.
Definition set_acc_owner (owner : Pubkey) (a : AccountSharedData) : AccountSharedData :=
  {| acc_lamports := acc_lamports a; acc_data := acc_data a; acc_owner := owner;
     acc_executable := acc_executable a |}.
Definition set_acc_executable (executable : bool) (a : AccountSharedData) : AccountSharedData :=
  {| acc_lamports := acc_lamports a; acc_data := acc_data a; acc_owner := acc_owner a;
     acc_executable := executable |}.

Definition update_account (f : AccountSharedData → AccountSharedData) (k : Pubkey)
    (self : TransactionContext) : TransactionContext :=
  {| account_keys := account_keys self; accounts := <[k := f (get_account self k)]> (accounts self);
     touched_flags := touched_flags self; resize_delta := resize_delta self;
     instruction_stack_capacity := instruction_stack_capacity self;
     instruction_trace_capacity := instruction_trace_capacity self;
     instruction_stack := instruction_stack self;
     instruction_trace_length := instruction_trace_length self;
     top_level_instruction_index := top_level_instruction_index self;
     remove_accounts_executable_flag_checks := remove_accounts_executable_flag_checks self |}.

Definition touch (k : Pubkey) (self : TransactionContext) : TransactionContext :=
  {| account_keys := account_keys self; accounts := accounts self;
     touched_flags := {[ k ]} ∪ touched_flags self; resize_delta := resize_delta self;
     instruction_stack_capacity := instruction_stack_capacity self;
     instruction_trace_capacity := instruction_trace_capacity self;
     instruction_stack := instruction_stack self;
     instruction_trace_length := instruction_trace_length self;
     top_level_instruction_index := top_level_instruction_index self;
     remove_accounts_executable_flag_checks := remove_accounts_executable_flag_checks self |}.

Definition i64_saturate (z : Z) : Z := Z.max (- 2 ^ 63) (Z.min (2 ^ 63 - 1) z).

Definition length_delta (old_len new_len : nat) : Z := i64_saturate (Z.of_nat new_len - Z.of_nat old_len).

Definition update_accounts_resize_delta (old_len new_len : nat) (self : TransactionContext)
    : TransactionContext :=
  {| account_keys := account_keys self; accounts := accounts self; touched_flags := touched_flags self;
     resize_delta := i64_saturate (resize_delta self + length_delta old_len new_len);
     instruction_stack_capacity := instruction_stack_capacity self;
     instruction_trace_capacity := instruction_trace_capacity self;
     instruction_stack := instruction_stack self;
     instruction_trace_length := instruction_trace_length self;
     top_level_instruction_index := top_level_instruction_index self;
     remove_accounts_executable_flag_checks := remove_accounts_executable_flag_checks self |}.

Definition accounts_can_data_be_resized (self : TransactionContext) (old_len new_len : nat)
    : result unit InstructionError :=
  if MAX_PERMITTED_DATA_LENGTH <? Z.of_nat new_len then Err InvalidRealloc
  else if MAX_PERMITTED_ACCOUNTS_DATA_ALLOCATIONS_PER_TRANSACTION
            <? i64_saturate (resize_delta self + length_delta old_len new_len)
  then Err MaxAccountsDataAllocationsExceeded
  else Ok tt.

(** The zeros are compared 1024 bytes at a time. *)
Definition ZEROS_LEN : nat := 1024.
Definition is_zeroed (buf : list Z) : bool :=
  let chunks := (length buf / ZEROS_LEN)%nat in
  forallb (λ i, bool_decide (take ZEROS_LEN (drop (i * ZEROS_LEN) buf) = replicate ZEROS_LEN 0))
          (seq 0 chunks) &&
  bool_decide (drop (chunks * ZEROS_LEN) buf = replicate (length buf mod ZEROS_LEN) 0).

(** * An account borrowed by an instruction *)

Module Borrowed.
Section borrowed.

(** [ctx] is the current instruction, [this] one of its accounts. *)
Context (ctx : InstructionContext) (this : InstructionAccount).

Definition get_lamports (tc : TransactionContext) : Z := acc_lamports (get_account tc (key this)).
Definition get_data (tc : TransactionContext) : list Z := acc_data (get_account tc (key this)).
Definition get_owner (tc : TransactionContext) : Pubkey := acc_owner (get_account tc (key this)).
Definition is_executable (tc : TransactionContext) : bool := acc_executable (get_account tc (key this)).

Definition is_executable_internal (tc : TransactionContext) : bool :=
  negb (remove_accounts_executable_flag_checks tc) && is_executable tc.

Definition is_owned_by_current_program (tc : TransactionContext) : bool :=
  program_id ctx =? get_owner tc.

Definition set_owner (pubkey : Pubkey) (tc : TransactionContext)
    : result TransactionContext InstructionError :=
  if negb (is_owned_by_current_program tc) then Err ModifiedProgramId
  else if negb (is_writable this) then Err ModifiedProgramId
  else if is_executable_internal tc then Err ModifiedProgramId
  else if negb (is_zeroed (get_data tc)) then Err ModifiedProgramId
  else if get_owner tc =? pubkey then Ok tc
  else Ok (update_account (set_acc_owner pubkey) (key this) (touch (key this) tc)).

Definition set_lamports (lamports : Z) (tc : TransactionContext)
    : result TransactionContext InstructionError :=
  if negb (is_owned_by_current_program tc) && (lamports <? get_lamports tc)
  then Err ExternalAccountLamportSpend
  else if negb (is_writable this) then Err ReadonlyLamportChange
  else if is_executable_internal tc then Err ExecutableLamportChange
  else if get_lamports tc =? lamports then Ok tc
  else Ok (update_account (set_acc_lamports lamports) (key this) (touch (key this) tc)).

Definition checked_add_lamports (lamports : Z) (tc : TransactionContext)
    : result TransactionContext InstructionError :=
  match checked_add u64_MAX (get_lamports tc) lamports with
  | Some n => set_lamports n tc
  | None => Err ArithmeticOverflow
  end.

Definition checked_sub_lamports (lamports : Z) (tc : TransactionContext)
    : result TransactionContext InstructionError :=
  match checked_sub (get_lamports tc) lamports with
  | Some n => set_lamports n tc
  | None => Err ArithmeticOverflow
  end.

Definition can_data_be_changed (tc : TransactionContext) : result unit InstructionError :=
  if is_executable_internal tc then Err ExecutableDataModified
  else if negb (is_writable this) then Err ReadonlyDataModified
  else if negb (is_owned_by_current_program tc) then Err ExternalAccountDataModified
  else Ok tt.

Definition can_data_be_resized (new_len : nat) (tc : TransactionContext) : result unit InstructionError :=
  let old_len := length (get_data tc) in
  if negb (new_len =? old_len)%nat && negb (is_owned_by_current_program tc)
  then Err AccountDataSizeChanged
  else
    '_ ←! accounts_can_data_be_resized tc old_len new_len;
    can_data_be_changed tc.

(** What the caller writes through the slice that [get_data_mut] returns is [data], of
    the length of the slice. *)
Definition get_data_mut (data : list Z) (tc : TransactionContext)
    : result TransactionContext InstructionError :=
  '_ ←! can_data_be_changed tc;
  let tc := touch (key this) tc in
  Ok (update_account (set_acc_data (take (length (get_data tc)) (data ++ drop (length data) (get_data tc))))
        (key this) tc).

Definition set_data_from_slice (data : list Z) (tc : TransactionContext)
    : result TransactionContext InstructionError :=
  '_ ←! can_data_be_resized (length data) tc;
  let tc := touch (key this) tc in
  let tc := update_accounts_resize_delta (length (get_data tc)) (length data) tc in
  Ok (update_account (set_acc_data data) (key this) tc).

Definition set_data_length (new_length : nat) (tc : TransactionContext)
    : result TransactionContext InstructionError :=
  '_ ←! can_data_be_resized new_length tc;
  if (length (get_data tc) =? new_length)%nat then Ok tc
  else
    let tc := touch (key this) tc in
    let tc := update_accounts_resize_delta (length (get_data tc)) new_length tc in
    Ok (update_account (set_acc_data (take new_length (get_data tc ++ replicate new_length 0))) (key this) tc).

Definition extend_from_slice (data : list Z) (tc : TransactionContext)
    : result TransactionContext InstructionError :=
  let new_len := (length (get_data tc) + length data)%nat in
  '_ ←! can_data_be_resized new_len tc;
  if (length data =? 0)%nat then Ok tc
  else
    let tc := touch (key this) tc in
    let tc := update_accounts_resize_delta (length (get_data tc)) new_len tc in
    Ok (update_account (set_acc_data (get_data tc ++ data)) (key this) tc).

Definition set_executable `{RuntimeSdk} (is_exec : bool) (tc : TransactionContext)
    : result TransactionContext InstructionError :=
  if negb (rent_is_exempt (get_lamports tc) (length (get_data tc)))
  then Err ExecutableAccountNotRentExempt
  else if negb (is_owned_by_current_program tc) then Err ExecutableModified
  else if negb (is_writable this) then Err ExecutableModified
  else if is_executable_internal tc && negb is_exec then Err ExecutableModified
  else if eqb (is_executable tc) is_exec then Ok tc
  else Ok (update_account (set_acc_executable is_exec) (key this) (touch (key this) tc)).

End borrowed.
End Borrowed.

(** * The instruction stack *)

Definition with_stack (stack : list InstructionContext) (trace_length : nat) (index : Z)
    (self : TransactionContext) : TransactionContext :=
  {| account_keys := account_keys self; accounts := accounts self; touched_flags := touched_flags self;
     resize_delta := resize_delta self; instruction_stack_capacity := instruction_stack_capacity self;
     instruction_trace_capacity := instruction_trace_capacity self; instruction_stack := stack;
     instruction_trace_length := trace_length; top_level_instruction_index := index;
     remove_accounts_executable_flag_checks := remove_accounts_executable_flag_checks self |}.

Definition is_instruction_account_duplicate (index : nat) (a : InstructionAccount) : option nat :=
  if (index_in_callee a =? index)%nat then None else Some (index_in_callee a).

(** The lamports of the accounts of an instruction, duplicates skipped. *)
Fixpoint lamport_sum_from (tc : TransactionContext) (index : nat) (l : list InstructionAccount) (sum : Z)
    : result Z InstructionError :=
  match l with
  | [] => Ok sum
  | a :: l =>
      match is_instruction_account_duplicate index a with
      | Some _ => lamport_sum_from tc (S index) l sum
      | None =>
          match checked_add u128_MAX (acc_lamports (get_account tc (key a))) sum with
          | Some sum => lamport_sum_from tc (S index) l sum
          | None => Err ArithmeticOverflow
          end
      end
  end.
Definition sum_instruction_accounts_lamports (tc : TransactionContext) (l : list InstructionAccount)
    : result Z InstructionError :=
  lamport_sum_from tc 0 l 0.

(** [configure] and [TransactionContext::push]. *)
Definition push_instruction `{RuntimeSdk} (program : Pubkey) (l : list InstructionAccount)
    (tc : TransactionContext) : result TransactionContext InstructionError :=
  let nesting_level := length (instruction_stack tc) in
  callee_sum ←! sum_instruction_accounts_lamports tc l;
  '_ ←! match instruction_stack tc with
        | [] => Ok tt
        | caller :: _ =>
            sum ←! sum_instruction_accounts_lamports tc (instruction_accounts caller);
            if negb (instruction_accounts_lamport_sum caller =? sum) then Err UnbalancedInstruction
            else Ok tt
        end;
  if (instruction_trace_capacity tc <=? instruction_trace_length tc)%nat
  then Err MaxInstructionTraceLengthExceeded
  else if (instruction_stack_capacity tc <=? nesting_level)%nat then Err CallDepth
  else
    let callee := {| program_id := program; instruction_accounts := l;
                     instruction_accounts_lamport_sum := callee_sum |} in
    let tc := with_stack (callee :: instruction_stack tc) (S (instruction_trace_length tc))
                (top_level_instruction_index tc) tc in
    if bool_decide (instructions_id ∈ account_keys tc) then
      if negb (acc_owner (get_account tc instructions_id) =? sysvar_id) then Err InvalidAccountOwner
      else
        data ←! store_current_index_checked (acc_data (get_account tc instructions_id))
                  (top_level_instruction_index tc mod 2 ^ 16);
        Ok (update_account (set_acc_data data) instructions_id tc)
    else Ok tc.

(** [InvokeContext::push]: a program may only call itself directly. *)
Definition push `{RuntimeSdk} (program : Pubkey) (l : list InstructionAccount) (tc : TransactionContext)
    : result TransactionContext InstructionError :=
  let contains := existsb (λ c, program_id c =? program) (instruction_stack tc) in
  let is_last := match instruction_stack tc with c :: _ => program_id c =? program | [] => false end in
  if contains && negb is_last then Err ReentrancyNotAllowed
  else push_instruction program l tc.

(** [TransactionContext::pop]. The stack is popped in any case; an error fails the
    transaction. *)
Definition pop (tc : TransactionContext) : result TransactionContext InstructionError :=
  match instruction_stack tc with
  | [] => Err CallDepth
  | current :: stack =>
      sum ←! sum_instruction_accounts_lamports tc (instruction_accounts current);
      let index := if (length stack =? 0)%nat then saturating_add usize_MAX (top_level_instruction_index tc) 1
                   else top_level_instruction_index tc in
      let tc := with_stack stack (instruction_trace_length tc) index tc in
      if negb (instruction_accounts_lamport_sum current =? sum) then Err UnbalancedInstruction else Ok tc
  end.

(** * Calls between programs *)

Record AccountMeta := { meta_pubkey : Pubkey; meta_is_signer : bool; meta_is_writable : bool }.

Definition position (k : Pubkey) (l : list InstructionAccount) : option nat :=
  fst <$> list_find (λ a, key a = k) l.

(** The first loop of [prepare_instruction]: the accounts without duplicates, each
    with the privileges of all its occurrences, and for every account its place there. *)
Fixpoint deduplicate (caller : InstructionContext) (tc : TransactionContext) (index : nat)
    (metas : list AccountMeta) (dedup : list InstructionAccount) (places : list nat)
    : result (list InstructionAccount * list nat) InstructionError :=
  match metas with
  | [] => Ok (dedup, places)
  | m :: metas =>
      if negb (bool_decide (meta_pubkey m ∈ account_keys tc)) then Err MissingAccount
      else match position (meta_pubkey m) dedup with
      | Some place =>
          let merge a := {| key := key a; index_in_caller := index_in_caller a;
                            index_in_callee := index_in_callee a;
                            is_signer := is_signer a || meta_is_signer m;
                            is_writable := is_writable a || meta_is_writable m |} in
          deduplicate caller tc (S index) metas (alter merge place dedup) (places ++ [place])
      | None =>
          match position (meta_pubkey m) (instruction_accounts caller) with
          | None => Err MissingAccount
          | Some index_in_caller =>
              let a := {| key := meta_pubkey m; index_in_caller := index_in_caller;
                          index_in_callee := index; is_signer := meta_is_signer m;
                          is_writable := meta_is_writable m |} in
              deduplicate caller tc (S index) metas (dedup ++ [a]) (places ++ [length dedup])
          end
      end
  end.

(** The second loop: the callee's privileges are the caller's, or signed by the program. *)
Definition check_privileges (caller : InstructionContext) (signers : list Pubkey) (a : InstructionAccount)
    : result unit InstructionError :=
  match instruction_accounts caller !! index_in_caller a with
  | None => Err MissingAccount
  | Some borrowed =>
      if is_writable a && negb (is_writable borrowed) then Err PrivilegeEscalation
      else if is_signer a && negb (is_signer borrowed || bool_decide (key borrowed ∈ signers))
      then Err PrivilegeEscalation
      else Ok tt
  end.

Fixpoint check_all_privileges (caller : InstructionContext) (signers : list Pubkey)
    (l : list InstructionAccount) : result unit InstructionError :=
  match l with
  | [] => Ok tt
  | a :: l => '_ ←! check_privileges caller signers a; check_all_privileges caller signers l
  end.

Definition prepare_instruction (caller : InstructionContext) (tc : TransactionContext)
    (callee_program_id : Pubkey) (metas : list AccountMeta) (signers : list Pubkey)
    : result (list InstructionAccount) InstructionError :=
  '(dedup, places) ←! deduplicate caller tc 0 metas [] [];
  '_ ←! check_all_privileges caller signers dedup;
  let instruction_accounts := omap (λ place, dedup !! place) places in
  match position callee_program_id (TransactionContext.instruction_accounts caller) with
  | None => Err MissingAccount
  | Some _ =>
      if negb (remove_accounts_executable_flag_checks tc) &&
         negb (acc_executable (get_account tc callee_program_id))
      then Err AccountNotExecutable
      else Ok instruction_accounts
  end.

(** [process_message] on one instruction of the message, which names the accounts of
    the transaction by their indices. *)
Fixpoint message_accounts (account_keys : list Pubkey) (is_signer is_writable : nat → bool)
    (seen indices : list nat) : list InstructionAccount :=
  match indices with
  | [] => []
  | index_in_transaction :: indices =>
      {| key := account_keys !!! index_in_transaction; index_in_caller := index_in_transaction;
         index_in_callee := default (length seen) (fst <$> list_find (λ i, i = index_in_transaction) seen);
         TransactionContext.is_signer := is_signer index_in_transaction;
         TransactionContext.is_writable := is_writable index_in_transaction |}
      :: message_accounts account_keys is_signer is_writable (seen ++ [index_in_transaction]) indices
  end.

(** * Writing back what a program left in its input buffer *)

(** The owner, lamports and data of an account in the buffer. *)
Record BufferAccount := { buf_owner : Pubkey; buf_lamports : Z; buf_data : list Z }.

(** The body of the loop of [deserialize_parameters_aligned], for a buffer with the
    data of the accounts in it. *)
Definition deserialize_account (ctx : InstructionContext) (a : InstructionAccount) (pre_len : nat)
    (buf : BufferAccount) (tc : TransactionContext) : result TransactionContext InstructionError :=
  let post_len := length (buf_data buf) in
  tc ←! (if negb (Borrowed.get_lamports a tc =? buf_lamports buf)
         then Borrowed.set_lamports ctx a (buf_lamports buf) tc else Ok tc);
  if (MAX_PERMITTED_DATA_INCREASE <? Z.of_nat (post_len - pre_len))
     || (MAX_PERMITTED_DATA_LENGTH <? Z.of_nat post_len)
  then Err InvalidRealloc
  else
    tc ←! match Borrowed.can_data_be_resized ctx a post_len tc with
          | Ok _ => Borrowed.set_data_from_slice ctx a (buf_data buf) tc
          | Err err => if negb (bool_decide (Borrowed.get_data a tc = buf_data buf)) then Err err else Ok tc
          end;
    if negb (Borrowed.get_owner a tc =? buf_owner buf)
    then Borrowed.set_owner ctx a (buf_owner buf) tc else Ok tc.

Fixpoint deserialize_from (ctx : InstructionContext) (index : nat) (l : list InstructionAccount)
    (pre_lens : list nat) (buffer : Pubkey → BufferAccount) (tc : TransactionContext)
    : result TransactionContext InstructionError :=
  match l, pre_lens with
  | a :: l, pre_len :: pre_lens =>
      match is_instruction_account_duplicate index a with
      | Some _ => deserialize_from ctx (S index) l pre_lens buffer tc
      | None =>
          tc ←! deserialize_account ctx a pre_len (buffer (key a)) tc;
          deserialize_from ctx (S index) l pre_lens buffer tc
      end
  | _, _ => Ok tc
  end.
Definition deserialize_parameters (ctx : InstructionContext) (pre_lens : list nat)
    (buffer : Pubkey → BufferAccount) (tc : TransactionContext)
    : result TransactionContext InstructionError :=
  deserialize_from ctx 0 (instruction_accounts ctx) pre_lens buffer tc.
