(* ===== verification/TransactionContextProps.v ===== *)
(** What instructions can do to the accounts of a transaction: operations change an
    account only if it is writable and owned by the program, calls pass on no more
    privileges than the caller has, and lamports are conserved. *)

From S2P Require Import Prelude Bytes TransactionContext.

(** * Zeroed data *)

Abbreviation Zeroed := (Forall (λ b, b = 0)).

Lemma Zeroed_replicate l : Zeroed l ↔ l = replicate (length l) 0.
Proof.
  split; [|intros ->; by apply Forall_replicate].
  induction 1 as [|b l -> _ IH]; [done|]. simpl. by f_equal.
Qed.

(** [is_zeroed] compares chunk by chunk; together the chunks are the buffer. *)
Lemma is_zeroed_spec buf : is_zeroed buf = true ↔ Zeroed buf.
Proof.
  unfold is_zeroed. rewrite andb_true_iff, forallb_forall, bool_decide_eq_true.
  set (chunks := (length buf / ZEROS_LEN)%nat).
  assert (length buf = chunks * ZEROS_LEN + length buf mod ZEROS_LEN)%nat as Hlen.
  { unfold chunks. rewrite Nat.mul_comm. by apply Nat.div_mod. }
  split.
  - intros [Hc Hr]. rewrite <-(take_drop (chunks * ZEROS_LEN) buf). apply Forall_app. split.
    + apply Forall_lookup_2. intros i x Hi. apply lookup_take_Some in Hi as [Hi Hlt].
      assert (i / ZEROS_LEN < chunks)%nat as Hq by (apply Nat.Div0.div_lt_upper_bound; lia).
      specialize (Hc (i / ZEROS_LEN)%nat). rewrite in_seq in Hc. specialize (Hc ltac:(lia)).
      apply bool_decide_eq_true in Hc. pose proof (Nat.div_mod i ZEROS_LEN ltac:(done)) as Hdm.
      pose proof (Nat.mod_upper_bound i ZEROS_LEN ltac:(done)) as Hm.
      assert (take ZEROS_LEN (drop (i / ZEROS_LEN * ZEROS_LEN) buf) !! (i mod ZEROS_LEN)%nat = Some x) as Hx.
      { rewrite lookup_take_lt, lookup_drop by done. rewrite <-Hi. f_equal. lia. }
      rewrite Hc in Hx. by apply lookup_replicate in Hx as [-> _].
    + rewrite Hr. by apply Forall_replicate.
  - intros Hz. split.
    + intros i Hi%in_seq. apply bool_decide_eq_true.
      assert (Zeroed (take ZEROS_LEN (drop (i * ZEROS_LEN) buf))) as Ht by (by apply Forall_take, Forall_drop).
      apply Zeroed_replicate in Ht. rewrite Ht. f_equal. rewrite length_take, length_drop. nia.
    + assert (Zeroed (drop (chunks * ZEROS_LEN) buf)) as Ht by (by apply Forall_drop).
      apply Zeroed_replicate in Ht. rewrite Ht. f_equal. rewrite length_drop. lia.
Qed.

(** * Operations on one account *)

Lemma get_account_update f k tc j :
  get_account (update_account f k tc) j = if decide (j = k) then f (get_account tc k) else get_account tc j.
Proof.
  unfold get_account, account_at, update_account. cbn [accounts]. case_decide as Hj.
  - subst. by rewrite lookup_insert_eq.
  - by rewrite lookup_insert_ne.
Qed.

(** Everything but the accounts, the touched flags and the resize delta. *)
Record same_stack (tc tc' : TransactionContext) : Prop := {
  same_keys : account_keys tc' = account_keys tc;
  same_instructions : instruction_stack tc' = instruction_stack tc;
  same_index : top_level_instruction_index tc' = top_level_instruction_index tc;
  same_flag : remove_accounts_executable_flag_checks tc' = remove_accounts_executable_flag_checks tc;
}.

#[global] Instance same_stack_preorder : PreOrder same_stack.
Proof. split; [done|]. intros ??? [] []. split; congruence. Qed.

(** What program [p] may do to an account. *)
Record allowed (p : Pubkey) (a a' : AccountSharedData) : Prop := {
  allowed_foreign : acc_owner a ≠ p →
    acc_data a' = acc_data a ∧ acc_owner a' = acc_owner a ∧ acc_executable a' = acc_executable a ∧
    acc_lamports a ≤ acc_lamports a';
  allowed_owner : acc_owner a' ≠ acc_owner a → Zeroed (acc_data a');
}.

#[global] Instance allowed_refl p : Reflexive (allowed p).
Proof. intros a. split; [intros _; split_and!; (done || lia)|done]. Qed.

(** An operation of the instruction [ctx] on its account [this]. *)
Record op_effect (ctx : InstructionContext) (this : InstructionAccount) (tc tc' : TransactionContext) : Prop := {
  effect_stack : same_stack tc tc';
  effect_others k : k ≠ key this → get_account tc' k = get_account tc k;
  effect_this : get_account tc' (key this) ≠ get_account tc (key this) → is_writable this = true;
  effect_allowed : allowed (program_id ctx) (get_account tc (key this)) (get_account tc' (key this));
}.

Lemma op_effect_refl ctx this tc : op_effect ctx this tc tc.
Proof. by split. Qed.

(** One update of the account, whatever is noted besides. *)
Lemma op_effect_update ctx this f tc0 tc :
  same_stack tc0 tc → accounts tc = accounts tc0 → is_writable this = true →
  allowed (program_id ctx) (get_account tc0 (key this)) (f (get_account tc0 (key this))) →
  op_effect ctx this tc0 (update_account f (key this) tc).
Proof.
  intros Hst Hacc Hw Hal.
  assert (∀ k, get_account tc k = get_account tc0 k) as Hget by (intros; unfold get_account; by rewrite Hacc).
  split.
  - destruct Hst. by split.
  - intros k Hk. by rewrite get_account_update, decide_False.
  - done.
  - by rewrite get_account_update, decide_True, Hget.
Qed.

(** Splits the guards of an operation that succeeded. *)
Ltac guards H :=
  repeat match type of H with
  | and_then _ _ = Ok _ => apply and_then_Ok_inv in H as ([] & ? & H)
  | (if ?b then _ else _) = Ok _ => let E := fresh "E" in destruct b eqn:E; try discriminate H
  end.

Lemma is_owned_true ctx this tc :
  Borrowed.is_owned_by_current_program ctx this tc = true →
  acc_owner (get_account tc (key this)) = program_id ctx.
Proof. unfold Borrowed.is_owned_by_current_program, Borrowed.get_owner. intros ?%Z.eqb_eq. done. Qed.

Lemma can_data_be_changed_Ok ctx this tc :
  Borrowed.can_data_be_changed ctx this tc = Ok tt →
  is_writable this = true ∧ acc_owner (get_account tc (key this)) = program_id ctx ∧
  Borrowed.is_executable_internal this tc = false.
Proof.
  unfold Borrowed.can_data_be_changed. intros H. guards H.
  apply negb_false_iff in E0, E1. auto using is_owned_true.
Qed.

Lemma can_data_be_resized_Ok ctx this n tc :
  Borrowed.can_data_be_resized ctx this n tc = Ok tt →
  is_writable this = true ∧ acc_owner (get_account tc (key this)) = program_id ctx ∧
  Borrowed.is_executable_internal this tc = false.
Proof. unfold Borrowed.can_data_be_resized. intros H. guards H. by apply can_data_be_changed_Ok in H. Qed.

(** The owner may do anything to the data and the lamports. *)
Lemma allowed_own p a a' :
  acc_owner a = p → acc_owner a' = acc_owner a → allowed p a a'.
Proof. intros. by split. Qed.

(** The operations that [BorrowedAccount] offers. *)
Inductive AccountOp :=
| OpSetOwner (pubkey : Pubkey)
| OpSetLamports (lamports : Z)
| OpCheckedAddLamports (lamports : Z)
| OpCheckedSubLamports (lamports : Z)
| OpGetDataMut (data : list Z)
| OpSetDataFromSlice (data : list Z)
| OpSetDataLength (new_length : nat)
| OpExtendFromSlice (data : list Z)
| OpSetExecutable (executable : bool).

Definition run_op `{RuntimeSdk} (ctx : InstructionContext) (this : InstructionAccount) (op : AccountOp)
    (tc : TransactionContext) : result TransactionContext InstructionError :=
  match op with
  | OpSetOwner pubkey => Borrowed.set_owner ctx this pubkey tc
  | OpSetLamports lamports => Borrowed.set_lamports ctx this lamports tc
  | OpCheckedAddLamports lamports => Borrowed.checked_add_lamports ctx this lamports tc
  | OpCheckedSubLamports lamports => Borrowed.checked_sub_lamports ctx this lamports tc
  | OpGetDataMut data => Borrowed.get_data_mut ctx this data tc
  | OpSetDataFromSlice data => Borrowed.set_data_from_slice ctx this data tc
  | OpSetDataLength n => Borrowed.set_data_length ctx this n tc
  | OpExtendFromSlice data => Borrowed.extend_from_slice ctx this data tc
  | OpSetExecutable b => Borrowed.set_executable ctx this b tc
  end.

Lemma set_owner_effect ctx this pubkey tc tc' :
  Borrowed.set_owner ctx this pubkey tc = Ok tc' → op_effect ctx this tc tc'.
Proof.
  unfold Borrowed.set_owner. intros H. guards H; injection H as <-; [apply op_effect_refl|].
  apply negb_false_iff in E, E0, E2. apply is_owned_true in E. apply is_zeroed_spec in E2.
  apply op_effect_update; [done..|]. split; [done|]. by intros _.
Qed.

Lemma set_lamports_effect ctx this n tc tc' :
  Borrowed.set_lamports ctx this n tc = Ok tc' → op_effect ctx this tc tc'.
Proof.
  unfold Borrowed.set_lamports. intros H. guards H; injection H as <-; [apply op_effect_refl|].
  apply negb_false_iff in E0. apply op_effect_update; [done..|]. split; [|done]. intros Hne. simpl.
  apply andb_false_iff in E as [E|E].
  - apply negb_false_iff, is_owned_true in E. congruence.
  - apply Z.ltb_ge in E. done.
Qed.

Lemma set_data_from_slice_effect ctx this data tc tc' :
  Borrowed.set_data_from_slice ctx this data tc = Ok tc' → op_effect ctx this tc tc'.
Proof.
  unfold Borrowed.set_data_from_slice. intros H. guards H. injection H as <-.
  match goal with H : Borrowed.can_data_be_resized _ _ _ _ = _ |- _ => apply can_data_be_resized_Ok in H as (? & ? & ?) end.
  apply op_effect_update; [done..|]. by apply allowed_own.
Qed.

Lemma run_op_effect `{RuntimeSdk} ctx this op tc tc' :
  run_op ctx this op tc = Ok tc' → op_effect ctx this tc tc'.
Proof.
  destruct op; cbn [run_op]; intros Hop; eauto using set_owner_effect, set_lamports_effect, set_data_from_slice_effect.
  - unfold Borrowed.checked_add_lamports in Hop. case_match; [|done]. by apply set_lamports_effect in Hop.
  - unfold Borrowed.checked_sub_lamports in Hop. case_match; [|done]. by apply set_lamports_effect in Hop.
  - unfold Borrowed.get_data_mut in Hop. guards Hop. injection Hop as <-.
    match goal with H : Borrowed.can_data_be_changed _ _ _ = _ |- _ => apply can_data_be_changed_Ok in H as (? & ? & ?) end.
    apply op_effect_update; [done..|]. by apply allowed_own.
  - unfold Borrowed.set_data_length in Hop. guards Hop; injection Hop as <-; [apply op_effect_refl|].
    match goal with H : Borrowed.can_data_be_resized _ _ _ _ = _ |- _ => apply can_data_be_resized_Ok in H as (? & ? & ?) end.
    apply op_effect_update; [done..|]. by apply allowed_own.
  - unfold Borrowed.extend_from_slice in Hop. guards Hop; injection Hop as <-; [apply op_effect_refl|].
    match goal with H : Borrowed.can_data_be_resized _ _ _ _ = _ |- _ => apply can_data_be_resized_Ok in H as (? & ? & ?) end.
    apply op_effect_update; [done..|]. by apply allowed_own.
  - unfold Borrowed.set_executable in Hop. guards Hop; injection Hop as <-; [apply op_effect_refl..|].
    apply negb_false_iff in E0, E1. apply is_owned_true in E0. apply op_effect_update; [done..|]. by apply allowed_own.
Qed.

(** * Writing back *)

Lemma allowed_trans p a b c : allowed p a b → allowed p b c → allowed p a c.
Proof.
  intros [Hf1 Ho1] [Hf2 Ho2]. split.
  - intros Hne. destruct (Hf1 Hne) as (? & Hb & ? & ?). rewrite Hb in Hf2.
    destruct (Hf2 Hne) as (? & ? & ? & ?). split_and!; (congruence || lia).
  - intros Hne. destruct (decide (acc_owner b = acc_owner a)) as [Hb|Hb]; [apply Ho2; congruence|].
    destruct (decide (acc_owner b = p)) as [Hp|Hp].
    + destruct (decide (acc_owner a = p)) as [Ha|Ha]; [congruence|]. apply Hf1 in Ha as (_ & ? & _). congruence.
    + destruct (Hf2 Hp) as (-> & _). auto.
Qed.

Lemma op_effect_trans ctx this tc1 tc2 tc3 :
  op_effect ctx this tc1 tc2 → op_effect ctx this tc2 tc3 → op_effect ctx this tc1 tc3.
Proof.
  intros [Hs1 Ho1 Hw1 Ha1] [Hs2 Ho2 Hw2 Ha2]. split.
  - by etrans.
  - intros k Hk. by rewrite Ho2, Ho1.
  - intros Hne. destruct (decide (get_account tc2 (key this) = get_account tc1 (key this))) as [He|He]; [|auto].
    rewrite <-He in Hne. auto.
  - by eapply allowed_trans.
Qed.

Definition apply_buffer (buf : BufferAccount) (a : AccountSharedData) : AccountSharedData :=
  {| acc_lamports := buf_lamports buf; acc_data := buf_data buf; acc_owner := buf_owner buf;
     acc_executable := acc_executable a |}.

Lemma set_lamports_Ok ctx this n tc tc' :
  Borrowed.set_lamports ctx this n tc = Ok tc' →
  get_account tc' (key this) = set_acc_lamports n (get_account tc (key this)).
Proof.
  unfold Borrowed.set_lamports. intros H. guards H; injection H as <-.
  - apply Z.eqb_eq in E2 as <-. unfold Borrowed.get_lamports. by destruct (get_account tc (key this)).
  - rewrite get_account_update, decide_True by done. done.
Qed.

Lemma set_owner_Ok ctx this k tc tc' :
  Borrowed.set_owner ctx this k tc = Ok tc' →
  get_account tc' (key this) = set_acc_owner k (get_account tc (key this)).
Proof.
  unfold Borrowed.set_owner. intros H. guards H; injection H as <-.
  - apply Z.eqb_eq in E3 as <-. unfold Borrowed.get_owner. by destruct (get_account tc (key this)).
  - rewrite get_account_update, decide_True by done. done.
Qed.

Lemma set_data_from_slice_Ok ctx this d tc tc' :
  Borrowed.set_data_from_slice ctx this d tc = Ok tc' →
  get_account tc' (key this) = set_acc_data d (get_account tc (key this)).
Proof.
  unfold Borrowed.set_data_from_slice. intros H. guards H. injection H as <-.
  rewrite get_account_update, decide_True by done. done.
Qed.

(** Splits on the condition or the scrutinee at the head of [H]. *)
Ltac head_cases H E :=
  match type of H with
  | (if ?b then _ else _) = _ => destruct b eqn:E
  | match ?m with _ => _ end = _ => destruct m eqn:E
  end.

(** The account is what the buffer says, as far as its program may change it. *)
Lemma deserialize_account_Ok ctx a pre_len buf tc tc' :
  deserialize_account ctx a pre_len buf tc = Ok tc' →
  op_effect ctx a tc tc' ∧ get_account tc' (key a) = apply_buffer buf (get_account tc (key a)).
Proof.
  unfold deserialize_account. intros H. apply and_then_Ok_inv in H as (tc1 & H1 & H).
  head_cases H E0; [done|]. apply and_then_Ok_inv in H as (tc2 & H2 & H3).
  assert (op_effect ctx a tc tc1 ∧
    get_account tc1 (key a) = set_acc_lamports (buf_lamports buf) (get_account tc (key a))) as [He1 Hg1].
  { head_cases H1 E; [by eauto using set_lamports_effect, set_lamports_Ok|].
    injection H1 as <-. split; [apply op_effect_refl|]. apply negb_false_iff, Z.eqb_eq in E as <-.
    unfold Borrowed.get_lamports. by destruct (get_account tc (key a)). }
  assert (op_effect ctx a tc1 tc2 ∧
    get_account tc2 (key a) = set_acc_data (buf_data buf) (get_account tc1 (key a))) as [He2 Hg2].
  { head_cases H2 E1; [by eauto using set_data_from_slice_effect, set_data_from_slice_Ok|].
    head_cases H2 E; [done|]. injection H2 as <-. split; [apply op_effect_refl|].
    apply negb_false_iff, bool_decide_eq_true in E as <-.
    unfold Borrowed.get_data. by destruct (get_account tc1 (key a)). }
  assert (op_effect ctx a tc2 tc' ∧
    get_account tc' (key a) = set_acc_owner (buf_owner buf) (get_account tc2 (key a))) as [He3 Hg3].
  { head_cases H3 E; [by eauto using set_owner_effect, set_owner_Ok|].
    injection H3 as <-. split; [apply op_effect_refl|]. apply negb_false_iff, Z.eqb_eq in E as <-.
    unfold Borrowed.get_owner. by destruct (get_account tc2 (key a)). }
  split; [by eauto using op_effect_trans|]. by rewrite Hg3, Hg2, Hg1.
Qed.

(** * The accounts of an instruction *)

(** The keys at their own [index_in_callee]: every key once. *)
Fixpoint firsts (index : nat) (l : list InstructionAccount) : list Pubkey :=
  match l with
  | [] => []
  | a :: l =>
      match is_instruction_account_duplicate index a with
      | None => key a :: firsts (S index) l
      | Some _ => firsts (S index) l
      end
  end.

(** Duplicates point to the first occurrence and have its privileges. *)
Record wf_accounts (l : list InstructionAccount) : Prop := {
  wf_first i a : l !! i = Some a → ∃ b, l !! index_in_callee a = Some b ∧ key b = key a;
  wf_callee i j a b : l !! i = Some a → l !! j = Some b → key a = key b → index_in_callee a = index_in_callee b;
  wf_flags i j a b : l !! i = Some a → l !! j = Some b → key a = key b →
    is_signer a = is_signer b ∧ is_writable a = is_writable b;
}.

Lemma duplicate_None index a :
  is_instruction_account_duplicate index a = None ↔ index_in_callee a = index.
Proof. unfold is_instruction_account_duplicate. case_eq (index_in_callee a =? index)%nat; [rewrite Nat.eqb_eq|rewrite Nat.eqb_neq]; naive_solver. Qed.

Lemma elem_of_firsts n l k :
  k ∈ firsts n l ↔ ∃ i a, l !! i = Some a ∧ index_in_callee a = (n + i)%nat ∧ key a = k.
Proof.
  revert n. induction l as [|a l IH]; intros n; cbn [firsts].
  { split; [set_solver|]. by intros (i & a & ? & _). }
  assert (k ∈ firsts (S n) l ↔ ∃ i b, (a :: l) !! S i = Some b ∧ index_in_callee b = (n + S i)%nat ∧ key b = k) as Hl.
  { rewrite IH. split; intros (i & b & ? & ? & ?); exists i, b; split_and!; (done || lia). }
  destruct (is_instruction_account_duplicate n a) as [j|] eqn:Hd.
  - rewrite Hl. split; [naive_solver|]. intros (i & b & Hi & Hc & Hk). destruct i as [|i]; [|eauto].
    injection Hi as <-. rewrite Nat.add_0_r in Hc. apply duplicate_None in Hc. congruence.
  - apply duplicate_None in Hd. rewrite elem_of_cons, Hl. split.
    + intros [->|(i & b & ?)]; [|eauto]. exists 0%nat, a. rewrite Nat.add_0_r. done.
    + intros ([|i] & b & Hi & Hc & Hk); [|right; eauto 6]. injection Hi as <-. auto.
Qed.

Lemma firsts_NoDup n l :
  (∀ i j a b, l !! i = Some a → l !! j = Some b → key a = key b → index_in_callee a = index_in_callee b) →
  NoDup (firsts n l).
Proof.
  revert n. induction l as [|a l IH]; intros n Hsame; cbn [firsts]; [constructor|].
  assert (NoDup (firsts (S n) l)) as Hnd.
  { apply IH. intros i j b c Hi Hj. by apply (Hsame (S i) (S j)). }
  destruct (is_instruction_account_duplicate n a) eqn:Hd; [done|]. constructor; [|done].
  intros (i & b & Hi & Hc & Hk)%elem_of_firsts. apply duplicate_None in Hd.
  assert (index_in_callee a = index_in_callee b) by (apply (Hsame 0%nat (S i)); done). lia.
Qed.

Lemma elem_of_firsts_wf l k : wf_accounts l → k ∈ firsts 0 l ↔ k ∈ key <$> l.
Proof.
  intros [Hf Hs _]. rewrite elem_of_firsts, list_elem_of_fmap. split.
  - intros (i & a & Hi & _ & <-). exists a. split; [done|]. by eapply list_elem_of_lookup_2.
  - intros (a & -> & [i Hi]%list_elem_of_lookup). destruct (Hf i a Hi) as (b & Hb & Hk).
    exists (index_in_callee a), b. split_and!; [done| |done]. simpl. by apply (Hs _ _ b a Hb Hi).
Qed.

(** A key of the instruction, its account before and after. *)
Definition account_effect (ctx : InstructionContext) (l : list InstructionAccount) (k : Pubkey)
    (a a' : AccountSharedData) : Prop :=
  allowed (program_id ctx) a a' ∧ (a' ≠ a → ∃ i, i ∈ l ∧ key i = k ∧ is_writable i = true).

Lemma deserialize_from_Ok ctx n l lens buf tc tc' :
  (∀ i j a b, l !! i = Some a → l !! j = Some b → key a = key b → index_in_callee a = index_in_callee b) →
  length lens = length l → deserialize_from ctx n l lens buf tc = Ok tc' →
  same_stack tc tc' ∧
  (∀ k, k ∉ firsts n l → get_account tc' k = get_account tc k) ∧
  (∀ k, k ∈ firsts n l → get_account tc' k = apply_buffer (buf k) (get_account tc k) ∧
     account_effect ctx l k (get_account tc k) (get_account tc' k)).
Proof.
  revert n lens tc. induction l as [|a l IH]; intros n [|pre_len lens] tc Hsame Hlen Hd; try done.
  { injection Hd as <-. split_and!; [done|done|]. intros k Hk. cbn [firsts] in Hk. set_solver. }
  assert (NoDup (firsts n (a :: l))) as Hnd by (by apply firsts_NoDup).
  assert (∀ i j b c, l !! i = Some b → l !! j = Some c → key b = key c → index_in_callee b = index_in_callee c) as Hsame'.
  { intros i j b c Hi Hj. by apply (Hsame (S i) (S j)). }
  cbn [deserialize_from firsts] in Hd, Hnd |- *. injection Hlen as Hlen.
  assert (∀ k x y, account_effect ctx l k x y → account_effect ctx (a :: l) k x y) as Hcons.
  { intros k x y [? Hw]. split; [done|]. intros Hne. destruct (Hw Hne) as (i & ? & ?). exists i. set_solver. }
  destruct (is_instruction_account_duplicate n a) eqn:Hdup.
  { destruct (IH _ _ _ Hsame' Hlen Hd) as (? & ? & Hin). split_and!; [done|done|].
    intros k Hk. destruct (Hin k Hk). auto. }
  apply and_then_Ok_inv in Hd as (tc1 & H1 & Hd). apply deserialize_account_Ok in H1 as [He Hg].
  apply NoDup_cons in Hnd as [Hni Hnd]. destruct (IH _ _ _ Hsame' Hlen Hd) as (Hst & Hout & Hin).
  destruct He as [Hst1 Hothers Hw Hal]. split_and!.
  - by etrans.
  - intros k Hk. apply not_elem_of_cons in Hk as [Hne Hk]. by rewrite Hout, Hothers.
  - intros k Hk. destruct (decide (k = key a)) as [->|Hne].
    + rewrite !(Hout (key a)) by done. split; [done|]. split; [done|].
      intros Hch. exists a. split; [left|auto].
    + apply elem_of_cons in Hk as [->|Hk]; [done|]. destruct (Hin k Hk) as [Hb Hef].
      rewrite (Hothers k Hne) in Hb, Hef. auto.
Qed.

(** * Calls *)

Record dedup_inv (caller : InstructionContext) (dedup : list InstructionAccount) (places : list nat) : Prop := {
  dedup_range : Forall (λ p, (p < length dedup)%nat) places;
  dedup_keys : NoDup (key <$> dedup);
  dedup_entry p a : dedup !! p = Some a → places !! index_in_callee a = Some p ∧
    ∃ b, instruction_accounts caller !! index_in_caller a = Some b ∧ key b = key a;
}.

Lemma position_Some k l i : position k l = Some i → ∃ a, l !! i = Some a ∧ key a = k.
Proof.
  unfold position. destruct (list_find _ l) as [[j a]|] eqn:Hf; [|done]. intros [= <-].
  apply list_find_Some in Hf as (? & ? & _). eauto.
Qed.

Lemma position_None k l : position k l = None → k ∉ key <$> l.
Proof.
  unfold position. destruct (list_find _ l) eqn:Hf; [done|]. intros _ (a & -> & Ha)%list_elem_of_fmap.
  apply list_find_None in Hf. rewrite Forall_forall in Hf. by apply (Hf a).
Qed.

Lemma alter_keys f (p : nat) (l : list InstructionAccount) : (∀ a, key (f a) = key a) → key <$> alter f p l = key <$> l.
Proof.
  intros Hf. revert p. induction l as [|a l IH]; intros [|p]; simpl; [done..| |].
  - by rewrite Hf.
  - f_equal. apply IH.
Qed.

Lemma dedup_inv_merge caller dedup places p f :
  dedup_inv caller dedup places → (p < length dedup)%nat →
  (∀ a, key (f a) = key a ∧ index_in_caller (f a) = index_in_caller a ∧ index_in_callee (f a) = index_in_callee a) →
  dedup_inv caller (alter f p dedup) (places ++ [p]).
Proof.
  intros [Hr Hk He] Hp Hf. split.
  - rewrite length_alter. apply Forall_app. auto.
  - rewrite alter_keys; [done|]. intros a. apply Hf.
  - intros q a Ha. assert (∃ a0, dedup !! q = Some a0 ∧ key a = key a0 ∧ index_in_caller a = index_in_caller a0 ∧
      index_in_callee a = index_in_callee a0) as (a0 & Ha0 & -> & -> & ->).
    { destruct (decide (q = p)) as [->|Hne].
      - rewrite list_lookup_alter_eq in Ha. apply fmap_Some in Ha as (a0 & ? & ->). exists a0. destruct (Hf a0). naive_solver.
      - rewrite list_lookup_alter_ne in Ha by done. eauto. }
    destruct (He q a0 Ha0) as [Hc Hb]. split; [|done]. by apply lookup_app_l_Some.
Qed.

Lemma dedup_inv_new caller dedup places a b :
  dedup_inv caller dedup places → key a ∉ key <$> dedup → index_in_callee a = length places →
  instruction_accounts caller !! index_in_caller a = Some b → key b = key a →
  dedup_inv caller (dedup ++ [a]) (places ++ [length dedup]).
Proof.
  intros [Hr Hk He] Hnew Hc Hb Hkb. split.
  - rewrite length_app. simpl. apply Forall_app. split; [|repeat constructor; lia].
    eapply Forall_impl; [done|]. intros. simpl in *. lia.
  - rewrite fmap_app. apply NoDup_app. split_and!; [done| |apply NoDup_singleton]. intros x Hx Hx'. set_solver.
  - intros p a' Hp. apply lookup_app_Some in Hp as [Hp|[Hle Hp]].
    + destruct (He p a' Hp) as [? ?]. split; [by apply lookup_app_l_Some|done].
    + apply list_lookup_singleton_Some in Hp as [Hp <-]. rewrite Hc, list_lookup_middle by done.
      split; [f_equal; lia|eauto].
Qed.

Lemma deduplicate_inv caller tc n metas dedup places dedup' places' :
  dedup_inv caller dedup places → n = length places →
  deduplicate caller tc n metas dedup places = Ok (dedup', places') → dedup_inv caller dedup' places'.
Proof.
  revert n dedup places. induction metas as [|m metas IH]; intros n dedup places Hinv -> Hd; cbn [deduplicate] in Hd.
  { by injection Hd as <- <-. }
  head_cases Hd E; [done|]. destruct (position (meta_pubkey m) dedup) as [p|] eqn:Hp.
  - apply position_Some in Hp as (a & Ha & _). eapply IH; [..|exact Hd].
    + apply dedup_inv_merge; [done|by eapply lookup_lt_Some|done].
    + rewrite length_app. simpl. lia.
  - apply position_None in Hp. destruct (position (meta_pubkey m) (instruction_accounts caller)) as [j|] eqn:Hj; [|done].
    apply position_Some in Hj as (b & Hb & Hk). eapply IH; [..|exact Hd].
    + by eapply dedup_inv_new.
    + rewrite length_app. simpl. lia.
Qed.

Lemma omap_lookup_range {A} (d : list A) places i :
  Forall (λ p, (p < length d)%nat) places →
  omap (λ p, d !! p) places !! i = places !! i ≫= λ p, d !! p.
Proof.
  intros Hr. revert i. induction Hr as [|p places Hp Hr IH]; intros i; [done|].
  apply lookup_lt_is_Some in Hp as [a Ha]. simpl. rewrite Ha. destruct i; [done|]. apply IH.
Qed.

Lemma check_all_privileges_Ok caller signers l a :
  check_all_privileges caller signers l = Ok tt → a ∈ l → check_privileges caller signers a = Ok tt.
Proof.
  induction l as [|x l IH]; intros Hc; [set_solver|]. cbn [check_all_privileges] in Hc.
  apply and_then_Ok_inv in Hc as ([] & ? & ?). intros [->|Ha]%elem_of_cons; auto.
Qed.

(** What a call passes on. *)
Record called_by (caller : InstructionContext) (signers : list Pubkey) (l : list InstructionAccount) : Prop := {
  called_wf : wf_accounts l;
  called_from a : a ∈ l → ∃ b, b ∈ instruction_accounts caller ∧ key b = key a ∧
    (is_writable a = true → is_writable b = true) ∧
    (is_signer a = true → is_signer b = true ∨ key a ∈ signers);
}.

Lemma prepare_instruction_Ok caller tc program metas signers l :
  prepare_instruction caller tc program metas signers = Ok l → called_by caller signers l.
Proof.
  unfold prepare_instruction. intros H. apply and_then_Ok_inv in H as ([dedup places] & Hd & H).
  apply deduplicate_inv in Hd as [Hr Hk He]; [|by split; [constructor|constructor|]|done].
  apply and_then_Ok_inv in H as ([] & Hp & H). head_cases H E; [|done]. head_cases H E1; [done|]. injection H as <-.
  assert (∀ i a, omap (λ p, dedup !! p) places !! i = Some a →
    ∃ p, places !! i = Some p ∧ dedup !! p = Some a) as Hl.
  { intros i a. rewrite omap_lookup_range by done. intros (p & ? & ?)%bind_Some. eauto. }
  split.
  - assert (∀ i j a b, omap (λ p, dedup !! p) places !! i = Some a → omap (λ p, dedup !! p) places !! j = Some b →
      key a = key b → a = b) as Hinj.
    { intros i j a b (p & _ & Ha)%Hl (q & _ & Hb)%Hl Hkey.
      assert (p = q) as ->; [|congruence]. apply (NoDup_lookup _ _ _ (key a) Hk); rewrite list_lookup_fmap.
      - by rewrite Ha.
      - rewrite Hb. simpl. by rewrite Hkey. }
    split.
    + intros i a (p & Hi & Ha)%Hl. destruct (He p a Ha) as [Hc _]. exists a. split; [|done].
      rewrite omap_lookup_range, Hc by done. done.
    + intros i j a b Hi Hj Hkey. by rewrite (Hinj i j a b Hi Hj Hkey).
    + intros i j a b Hi Hj Hkey. by rewrite (Hinj i j a b Hi Hj Hkey).
  - intros a [i (p & Hi & Ha)%Hl]%list_elem_of_lookup. destruct (He p a Ha) as (_ & b & Hb & Hkb).
    exists b. assert (a ∈ dedup) as Hin by (by eapply list_elem_of_lookup_2).
    pose proof (check_all_privileges_Ok _ _ _ _ Hp Hin) as Hc. unfold check_privileges in Hc. rewrite Hb in Hc.
    split_and!; [by eapply list_elem_of_lookup_2|done|..]; head_cases Hc E2; try done;
      head_cases Hc E3; try done.
    + intros Hw. rewrite Hw in E2. by apply negb_false_iff in E2.
    + intros Hs. rewrite Hs in E3. apply negb_false_iff, orb_true_iff in E3 as [?|Hin']; [auto|].
      apply bool_decide_eq_true in Hin'. rewrite Hkb in Hin'. auto.
Qed.
