(* ===== verification/TransactionExec.v ===== *)
(** Executions of transactions: instructions of the message, calls between programs,
    and what the programs do to the accounts, as steps of the transaction context. *)

From S2P Require Import Prelude Bytes TransactionContext TransactionContextProps.

Section exec.
Context `{RuntimeSdk}.

(** What an instruction can do at one time: an operation on one of its accounts, or
    the write back of its input buffer. *)
Inductive any_body (ctx : InstructionContext) (tc tc' : TransactionContext) : Prop :=
| body_op this op :
    this ∈ instruction_accounts ctx → run_op ctx this op tc = Ok tc' → any_body ctx tc tc'
| body_write_back pre_lens buffer :
    length pre_lens = length (instruction_accounts ctx) →
    deserialize_parameters ctx pre_lens buffer tc = Ok tc' → any_body ctx tc tc'.

(** [body] is what instructions do, a part of [any_body]; the message says which
    accounts sign it and which it may write. *)
Context (body : InstructionContext → TransactionContext → TransactionContext → Prop).
Context (msg_signer msg_writable : nat → bool).

Inductive step : TransactionContext → TransactionContext → Prop :=
| step_message program indices tc tc' :
    instruction_stack tc = [] →
    Forall (λ i, (i < length (account_keys tc))%nat) indices →
    push program (message_accounts (account_keys tc) msg_signer msg_writable [] indices) tc = Ok tc' →
    step tc tc'
| step_call caller stack program metas signers l tc tc' :
    instruction_stack tc = caller :: stack →
    prepare_instruction caller tc program metas signers = Ok l →
    push program l tc = Ok tc' →
    step tc tc'
| step_body current stack tc tc' :
    instruction_stack tc = current :: stack → body current tc tc' → step tc tc'
| step_pop tc tc' :
    pop tc = Ok tc' → step tc tc'.

(** * Instructions of a message *)

Lemma message_accounts_lookup K seen indices i a :
  message_accounts K msg_signer msg_writable seen indices !! i = Some a →
  ∃ x, indices !! i = Some x ∧ key a = K !!! x ∧
    fst <$> list_find (λ j, j = x) (seen ++ indices) = Some (index_in_callee a) ∧
    is_signer a = msg_signer x ∧ is_writable a = msg_writable x.
Proof.
  revert seen i. induction indices as [|x indices IH]; intros seen [|i]; cbn [message_accounts]; [done..| |].
  - intros [= <-]. exists x. split_and!; try done. cbn [index_in_callee].
    destruct (list_find _ seen) as [[j y]|] eqn:Hf.
    + by rewrite (list_find_app_l _ _ _ _ _ Hf).
    + rewrite list_find_app_r by done. simpl. by rewrite decide_True.
  - cbn [lookup list_lookup]. intros Hi. apply IH in Hi as (y & ? & ? & Hf & ?).
    exists y. rewrite <-app_assoc in Hf. done.
Qed.

Lemma length_message_accounts K seen indices :
  length (message_accounts K msg_signer msg_writable seen indices) = length indices.
Proof. revert seen. induction indices as [|x indices IH]; intros seen; [done|]. simpl. by rewrite IH. Qed.

Lemma message_accounts_wf K indices :
  NoDup K → Forall (λ i, (i < length K)%nat) indices →
  wf_accounts (message_accounts K msg_signer msg_writable [] indices).
Proof.
  intros HK Hr. assert (∀ x, x ∈ indices → K !! x = Some (K !!! x)) as Hin.
  { intros x Hx. rewrite Forall_forall in Hr. apply list_lookup_lookup_total_lt. by apply Hr. }
  assert (∀ i j a b, message_accounts K msg_signer msg_writable [] indices !! i = Some a →
    message_accounts K msg_signer msg_writable [] indices !! j = Some b → key a = key b →
    index_in_callee a = index_in_callee b ∧ is_signer a = is_signer b ∧ is_writable a = is_writable b) as Hsame.
  { intros i j a b (x & Hx & Hka & Hfa & Hsa & Hwa)%message_accounts_lookup
      (y & Hy & Hkb & Hfb & Hsb & Hwb)%message_accounts_lookup Hk.
    assert (x = y) as ->; [|split_and!; congruence].
    apply (NoDup_lookup K x y (key a) HK).
    - rewrite Hin, <-Hka by (by eapply list_elem_of_lookup_2). done.
    - rewrite Hin, <-Hkb, Hk by (by eapply list_elem_of_lookup_2). done. }
  split.
  - intros i a Ha. destruct (message_accounts_lookup _ _ _ _ _ Ha) as (x & Hx & Hka & Hf & _). simpl in Hf.
    destruct (list_find _ indices) as [[j y]|] eqn:Hj; [|done]. injection Hf as <-.
    apply list_find_Some in Hj as (Hj & -> & _).
    destruct (lookup_lt_is_Some_2 (message_accounts K msg_signer msg_writable [] indices) j) as [b Hb].
    { rewrite length_message_accounts. by eapply lookup_lt_Some. }
    exists b. split; [done|]. apply message_accounts_lookup in Hb as (z & Hz & -> & _). congruence.
  - intros i j a b Ha Hb Hk. apply (Hsame i j a b Ha Hb Hk).
  - intros i j a b Ha Hb Hk. apply (Hsame i j a b Ha Hb Hk).
Qed.

(** * Lamports *)

Definition lamports_of (tc : TransactionContext) (l : list Pubkey) : Z :=
  sumZ ((λ k, acc_lamports (get_account tc k)) <$> l).

(** All the lamports of the transaction. *)
Definition total_lamports (tc : TransactionContext) : Z := lamports_of tc (account_keys tc).

Lemma lamports_of_ext tc tc' l :
  (∀ k, k ∈ l → acc_lamports (get_account tc' k) = acc_lamports (get_account tc k)) →
  lamports_of tc' l = lamports_of tc l.
Proof.
  intros Hk. unfold lamports_of. f_equal. apply list_fmap_ext. intros i k Hi. apply Hk.
  by eapply list_elem_of_lookup_2.
Qed.

Lemma lamport_sum_from_Ok tc n l s0 s :
  lamport_sum_from tc n l s0 = Ok s → s = s0 + lamports_of tc (firsts n l).
Proof.
  unfold lamports_of. revert n s0. induction l as [|a l IH]; intros n s0 Hs; cbn [lamport_sum_from firsts] in *.
  { injection Hs as <-. unfold sumZ. simpl. lia. }
  destruct (is_instruction_account_duplicate n a); [by apply IH|].
  unfold checked_add in Hs. destruct (_ <=? _); [|done]. apply IH in Hs as ->. rewrite fmap_cons, sumZ_cons. lia.
Qed.

(** The accounts that an instruction does not have. *)
Definition others (K L : list Pubkey) : list Pubkey := filter (λ k, k ∉ L) K.

Lemma lamports_split tc L :
  NoDup (account_keys tc) → NoDup L → (∀ k, k ∈ L → k ∈ account_keys tc) →
  total_lamports tc = lamports_of tc L + lamports_of tc (others (account_keys tc) L).
Proof.
  intros HK HL Hsub. unfold total_lamports, lamports_of. rewrite <-sumZ_app, <-fmap_app.
  apply sumZ_proper, fmap_Permutation, NoDup_Permutation; [done| |].
  - apply NoDup_app. split_and!; [done| |by apply NoDup_filter].
    intros k Hk. unfold others. rewrite list_elem_of_filter. tauto.
  - intros k. unfold others. rewrite elem_of_app, list_elem_of_filter.
    destruct (decide (k ∈ L)); naive_solver.
Qed.

(** What a step of an instruction leaves alone. *)
Lemma any_body_effect ctx tc tc' :
  wf_accounts (instruction_accounts ctx) → any_body ctx tc tc' →
  same_stack tc tc' ∧
  (∀ k, k ∉ key <$> instruction_accounts ctx → get_account tc' k = get_account tc k) ∧
  (∀ k, account_effect ctx (instruction_accounts ctx) k (get_account tc k) (get_account tc' k)).
Proof.
  intros Hwf [this op Hthis Hop|lens buf Hlen Hd].
  - apply run_op_effect in Hop as [Hst Ho Hw Hal]. split_and!; [done|..].
    + intros k Hk. apply Ho. intros ->. apply Hk. by apply list_elem_of_fmap_2.
    + intros k. destruct (decide (k = key this)) as [->|Hne].
      * split; [done|]. intros Hch. exists this. auto.
      * rewrite Ho by done. by split.
  - apply deserialize_from_Ok in Hd as (Hst & Hout & Hin); [|apply Hwf|done]. split_and!; [done|..].
    + intros k Hk. apply Hout. by rewrite elem_of_firsts_wf.
    + intros k. destruct (decide (k ∈ firsts 0 (instruction_accounts ctx))) as [Hk|Hk].
      * by apply Hin.
      * rewrite Hout by done. by split.
Qed.

(** * Invariant *)

(** An instruction on the stack: its accounts are accounts of the transaction, written
    only if the message allows it, and the lamports of the other accounts are what
    they were when it began. *)
Record frame_ok (T : Z) (tc : TransactionContext) (c : InstructionContext) : Prop := {
  frame_wf : wf_accounts (instruction_accounts c);
  frame_keys a : a ∈ instruction_accounts c → key a ∈ account_keys tc;
  frame_writable a : a ∈ instruction_accounts c → is_writable a = true →
    ∃ i, account_keys tc !! i = Some (key a) ∧ msg_writable i = true;
  frame_lamports :
    lamports_of tc (others (account_keys tc) (firsts 0 (instruction_accounts c))) =
    T - instruction_accounts_lamport_sum c;
}.

Definition calls (callee caller : InstructionContext) : Prop :=
  ∀ k, k ∈ key <$> instruction_accounts callee → k ∈ key <$> instruction_accounts caller.

Record exec_inv (T : Z) (tc : TransactionContext) : Prop := {
  inv_keys : NoDup (account_keys tc);
  inv_frames : Forall (frame_ok T tc) (instruction_stack tc);
  inv_calls : StronglySorted calls (instruction_stack tc);
  inv_done : instruction_stack tc = [] → total_lamports tc = T;
}.

Lemma total_of_frame T tc c :
  NoDup (account_keys tc) → frame_ok T tc c →
  sum_instruction_accounts_lamports tc (instruction_accounts c) = Ok (instruction_accounts_lamport_sum c) →
  total_lamports tc = T.
Proof.
  intros HK [Hwf Hkeys _ Hl] Hs%lamport_sum_from_Ok.
  rewrite (lamports_split tc (firsts 0 (instruction_accounts c))); [lia|done|apply firsts_NoDup, Hwf|].
  intros k. rewrite elem_of_firsts_wf by done. intros (a & -> & Ha)%list_elem_of_fmap. auto.
Qed.

(** A frame does not see changes inside the accounts of an instruction it called. *)
Lemma frame_ok_change T tc tc' c :
  account_keys tc' = account_keys tc →
  (∀ k, k ∉ key <$> instruction_accounts c →
     acc_lamports (get_account tc' k) = acc_lamports (get_account tc k)) →
  frame_ok T tc c → frame_ok T tc' c.
Proof.
  intros HK Hsame [Hwf Hkeys Hw Hl]. split; rewrite ?HK; [done..|]. rewrite <-Hl. apply lamports_of_ext.
  intros k [Hk _]%list_elem_of_filter. apply Hsame. by rewrite <-elem_of_firsts_wf.
Qed.

(** A push only notes the current index in the instructions sysvar. *)
Definition sysvar_noted (tc tc' : TransactionContext) (k : Pubkey) : Prop :=
  get_account tc' k = get_account tc k ∨
  k = instructions_id ∧ acc_owner (get_account tc k) = sysvar_id ∧
  ∃ d, get_account tc' k = set_acc_data d (get_account tc k).

Lemma sysvar_noted_lamports tc tc' k :
  sysvar_noted tc tc' k → acc_lamports (get_account tc' k) = acc_lamports (get_account tc k).
Proof. intros [->|(_ & _ & d & ->)]; done. Qed.

Record pushed (program : Pubkey) (l : list InstructionAccount) (tc tc' : TransactionContext) : Prop := {
  pushed_keys : account_keys tc' = account_keys tc;
  pushed_stack : ∃ s, sum_instruction_accounts_lamports tc l = Ok s ∧
    instruction_stack tc' = {| program_id := program; instruction_accounts := l;
                               instruction_accounts_lamport_sum := s |} :: instruction_stack tc;
  pushed_balanced caller : head (instruction_stack tc) = Some caller →
    sum_instruction_accounts_lamports tc (instruction_accounts caller) =
      Ok (instruction_accounts_lamport_sum caller);
  pushed_accounts k : sysvar_noted tc tc' k;
}.

Lemma push_Ok program l tc tc' : push program l tc = Ok tc' → pushed program l tc tc'.
Proof.
  unfold push, push_instruction. intros Hp. head_cases Hp E; [done|].
  apply and_then_Ok_inv in Hp as (s & Hs & Hp). apply and_then_Ok_inv in Hp as ([] & Hbal & Hp).
  head_cases Hp E1; [done|]. head_cases Hp E2; [done|].
  assert (∀ caller, head (instruction_stack tc) = Some caller →
    sum_instruction_accounts_lamports tc (instruction_accounts caller) =
      Ok (instruction_accounts_lamport_sum caller)) as Hbalanced.
  { intros caller Hc. destruct (instruction_stack tc) as [|c stack]; [done|].
    injection Hc as ->. apply and_then_Ok_inv in Hbal as (sum & Hsum & Hbal). head_cases Hbal E3; [done|].
    apply negb_false_iff, Z.eqb_eq in E3 as ->. done. }
  head_cases Hp E3.
  - head_cases Hp E4; [done|]. apply and_then_Ok_inv in Hp as (d & Hd & Hp). injection Hp as <-.
    apply negb_false_iff, Z.eqb_eq in E4. split; [done|by eexists|done|]. intros k. unfold sysvar_noted.
    rewrite get_account_update. destruct (decide (k = instructions_id)) as [->|Hk]; [right|by left].
    split; [done|]. split; [exact E4|by exists d].
  - injection Hp as <-. split; [done|by eexists|done|]. by left.
Qed.

Lemma pop_Ok tc tc' :
  pop tc = Ok tc' →
  account_keys tc' = account_keys tc ∧ accounts tc' = accounts tc ∧
  ∃ current, instruction_stack tc = current :: instruction_stack tc' ∧
    sum_instruction_accounts_lamports tc (instruction_accounts current) =
      Ok (instruction_accounts_lamport_sum current).
Proof.
  unfold pop. intros Hp. destruct (instruction_stack tc) as [|current stack]; [done|].
  apply and_then_Ok_inv in Hp as (s & Hs & Hp). head_cases Hp E; [done|]. injection Hp as <-.
  apply negb_false_iff, Z.eqb_eq in E. rewrite <-E in Hs. eauto.
Qed.

(** The callee begins with the lamports that the transaction has. *)
Lemma frame_ok_pushed T tc tc' c :
  NoDup (account_keys tc) → total_lamports tc = T → wf_accounts (instruction_accounts c) →
  (∀ a, a ∈ instruction_accounts c → ∃ i, account_keys tc !! i = Some (key a) ∧
     (is_writable a = true → msg_writable i = true)) →
  sum_instruction_accounts_lamports tc (instruction_accounts c) = Ok (instruction_accounts_lamport_sum c) →
  account_keys tc' = account_keys tc →
  (∀ k, acc_lamports (get_account tc' k) = acc_lamports (get_account tc k)) → frame_ok T tc' c.
Proof.
  intros HK <- Hwf Hmsg Hs%lamport_sum_from_Ok Hkeys Hsame.
  apply (frame_ok_change _ tc); [done|by intros; apply Hsame|]. split; [done|..].
  - intros a Ha. destruct (Hmsg a Ha) as (i & Hi & _). by eapply list_elem_of_lookup_2.
  - intros a Ha Hw. destruct (Hmsg a Ha) as (i & Hi & ?). eauto.
  - rewrite (lamports_split tc (firsts 0 (instruction_accounts c))); [lia|done|apply firsts_NoDup, Hwf|].
    intros k. rewrite elem_of_firsts_wf by done. intros (a & -> & Ha)%list_elem_of_fmap.
    destruct (Hmsg a Ha) as (i & Hi & _). by eapply list_elem_of_lookup_2.
Qed.

Lemma exec_inv_pushed T program l tc tc' :
  exec_inv T tc → pushed program l tc tc' → wf_accounts l →
  (∀ a, a ∈ l → ∃ i, account_keys tc !! i = Some (key a) ∧ (is_writable a = true → msg_writable i = true)) →
  (∀ caller, caller ∈ instruction_stack tc → ∀ k, k ∈ key <$> l → k ∈ key <$> instruction_accounts caller) →
  exec_inv T tc'.
Proof.
  intros [HK Hf Hc Hd] [Hkeys (s & Hs & Hst) Hbal Hacc] Hwf Hmsg Hcalls.
  assert (∀ k, acc_lamports (get_account tc' k) = acc_lamports (get_account tc k)) as Hlam.
  { intros k. apply sysvar_noted_lamports, Hacc. }
  assert (total_lamports tc = T) as HT.
  { destruct (instruction_stack tc) as [|caller stack]; [by apply Hd|].
    apply Forall_cons in Hf as [Hf _]. eapply total_of_frame; [done|exact Hf|]. by apply Hbal. }
  split; rewrite ?Hkeys, ?Hst; [done| | |done].
  - constructor.
    + by apply (frame_ok_pushed T tc).
    + eapply Forall_impl; [exact Hf|]. intros c. apply frame_ok_change; [done|]. intros; apply Hlam.
  - constructor; [done|]. apply Forall_forall. intros caller Hin k. by apply Hcalls.
Qed.

Hypothesis body_any : ∀ ctx tc tc', body ctx tc tc' → any_body ctx tc tc'.

Lemma exec_inv_call T caller stack program metas signers l tc tc' :
  exec_inv T tc → instruction_stack tc = caller :: stack →
  prepare_instruction caller tc program metas signers = Ok l → push program l tc = Ok tc' → exec_inv T tc'.
Proof.
  intros Hinv Hst Hp Hpush. apply prepare_instruction_Ok in Hp as [Hwf Hfrom].
  eapply exec_inv_pushed; [done|by apply push_Ok|done|..]; destruct Hinv as [HK Hf Hc _]; rewrite Hst in Hf, Hc.
  - apply Forall_cons in Hf as [[_ Hkeys Hw _] _]. intros a Ha. destruct (Hfrom a Ha) as (b & Hb & <- & Hwb & _).
    destruct (is_writable a).
    + destruct (Hw b Hb (Hwb eq_refl)) as (i & ? & ?). eauto.
    + apply Hkeys, list_elem_of_lookup in Hb as [i Hi]. exists i. done.
  - apply StronglySorted_inv in Hc as [_ Hc]. rewrite Forall_forall in Hc.
    assert (∀ k, k ∈ key <$> l → k ∈ key <$> instruction_accounts caller) as Hcaller.
    { intros k (a & -> & Ha)%list_elem_of_fmap. destruct (Hfrom a Ha) as (b & Hb & <- & _).
      by apply list_elem_of_fmap_2. }
    rewrite Hst. intros c [->|Hin]%elem_of_cons k Hk; [by apply Hcaller|]. apply (Hc c Hin), Hcaller, Hk.
Qed.

Lemma exec_inv_message T program indices tc tc' :
  exec_inv T tc → instruction_stack tc = [] → Forall (λ i, (i < length (account_keys tc))%nat) indices →
  push program (message_accounts (account_keys tc) msg_signer msg_writable [] indices) tc = Ok tc' →
  exec_inv T tc'.
Proof.
  intros Hinv Hst Hr Hpush. pose proof (inv_keys _ _ Hinv) as HK.
  eapply exec_inv_pushed; [done|by apply push_Ok|by apply message_accounts_wf|..].
  - intros a [i Hi]%list_elem_of_lookup. apply message_accounts_lookup in Hi as (x & Hx & -> & _ & _ & ->).
    exists x. split; [|done]. apply list_lookup_lookup_total_lt. rewrite Forall_forall in Hr.
    apply Hr. by eapply list_elem_of_lookup_2.
  - rewrite Hst. intros caller Hin. set_solver.
Qed.

Lemma exec_inv_body T current stack tc tc' :
  exec_inv T tc → instruction_stack tc = current :: stack → any_body current tc tc' → exec_inv T tc'.
Proof.
  intros [HK Hf Hc _] Hst Hb. rewrite Hst in Hf, Hc. apply Forall_cons in Hf as [Hf Hfs].
  apply StronglySorted_inv in Hc as [Hc Hcs].
  destruct (any_body_effect _ _ _ (frame_wf _ _ _ Hf) Hb) as ([Hkeys Hstk _ _] & Hout & _).
  assert (∀ c, calls current c → frame_ok T tc c → frame_ok T tc' c) as Hframe.
  { intros c Hcc. apply frame_ok_change; [done|]. intros k Hk. rewrite Hout; [done|].
    intros Hin. by apply Hk, Hcc. }
  split; rewrite ?Hkeys, ?Hstk, ?Hst; [done| | |done].
  - constructor; [by apply Hframe; [intros k|]|]. apply Forall_forall. intros c Hin.
    rewrite Forall_forall in Hfs, Hcs. apply Hframe; auto.
  - by constructor.
Qed.

Lemma exec_inv_pop T tc tc' : exec_inv T tc → pop tc = Ok tc' → exec_inv T tc'.
Proof.
  intros [HK Hf Hc _] (Hkeys & Hacc & current & Hst & Hs)%pop_Ok. rewrite Hst in Hf, Hc.
  apply Forall_cons in Hf as [Hf Hfs]. apply StronglySorted_inv in Hc as [Hc _].
  assert (∀ k, get_account tc' k = get_account tc k) as Hget by (intros; unfold get_account; by rewrite Hacc).
  split; rewrite ?Hkeys; [done| |done|].
  - eapply Forall_impl; [exact Hfs|]. intros c. apply frame_ok_change; [done|]. intros; by rewrite Hget.
  - intros _. unfold total_lamports. rewrite Hkeys.
    rewrite (lamports_of_ext tc tc') by (intros; by rewrite Hget). by eapply total_of_frame.
Qed.

Lemma exec_inv_step T tc tc' : exec_inv T tc → step tc tc' → exec_inv T tc'.
Proof.
  intros Hinv Hs. destruct Hs; eauto using exec_inv_message, exec_inv_call, exec_inv_body, exec_inv_pop.
Qed.

Lemma exec_inv_steps T tc tc' : exec_inv T tc → rtc step tc tc' → exec_inv T tc'.
Proof. intros Hinv Hs. induction Hs; eauto using exec_inv_step. Qed.

(** The start of a transaction. *)
Lemma exec_inv_start tc :
  instruction_stack tc = [] → NoDup (account_keys tc) → exec_inv (total_lamports tc) tc.
Proof. intros Hst HK. split; rewrite ?Hst; [done|constructor|constructor|done]. Qed.

(** An account that the message may not write. *)
Lemma step_readonly T tc tc' k :
  exec_inv T tc → step tc tc' → k ≠ instructions_id →
  (∀ i, account_keys tc !! i = Some k → msg_writable i = false) →
  account_keys tc' = account_keys tc ∧ get_account tc' k = get_account tc k.
Proof.
  intros Hinv Hs Hk Hro. destruct Hs as [? ? ? ? _ _ Hp|? ? ? ? ? ? ? ? _ _ Hp|current stack tc tc' Hst Hb|? ? Hp].
  - apply push_Ok in Hp as [? _ _ Hacc]. by destruct (Hacc k) as [?|[? _]].
  - apply push_Ok in Hp as [? _ _ Hacc]. by destruct (Hacc k) as [?|[? _]].
  - pose proof (inv_frames _ _ Hinv) as Hf. rewrite Hst in Hf. apply Forall_cons in Hf as [[Hwf _ Hw _] _].
    destruct (any_body_effect _ _ _ Hwf (body_any _ _ _ Hb)) as ([Hkeys _ _ _] & _ & Heff). split; [done|].
    destruct (Heff k) as [_ Hch]. destruct (decide (get_account tc' k = get_account tc k)) as [|Hne]; [done|].
    destruct (Hch Hne) as (a & Ha & <- & Hwa). destruct (Hw a Ha Hwa) as (i & Hi & Hmsg).
    rewrite (Hro i Hi) in Hmsg. done.
  - apply pop_Ok in Hp as (? & Hacc & _). unfold get_account. by rewrite Hacc.
Qed.

End exec.

(** * Theorems *)

(** What others may do to an account while the instructions of [P] do nothing. *)
Record protected (P : Pubkey) (a a' : AccountSharedData) : Prop := {
  protected_owned : acc_owner a = P →
    acc_data a' = acc_data a ∧ acc_owner a' = P ∧ acc_executable a' = acc_executable a ∧
    acc_lamports a ≤ acc_lamports a';
  protected_new : acc_owner a ≠ P → acc_owner a' = P → Zeroed (acc_data a');
}.

#[global] Instance protected_preorder P : PreOrder (protected P).
Proof.
  split.
  - intros a. split; [intros; split_and!; (done || lia)|done].
  - intros a b c [Ho1 Hn1] [Ho2 Hn2]. split.
    + intros Ha. destruct (Ho1 Ha) as (? & Hb & ? & ?). destruct (Ho2 Hb) as (? & ? & ? & ?).
      split_and!; (congruence || lia).
    + intros Ha Hc. destruct (decide (acc_owner b = P)) as [Hb|Hb]; [|auto].
      destruct (Ho2 Hb) as (-> & _). auto.
Qed.

Lemma allowed_protected p P a a' : p ≠ P → allowed p a a' → protected P a a'.
Proof.
  intros Hp [Hf Ho]. split.
  - intros Ha. destruct Hf as (? & ? & ? & ?); [congruence|]. split_and!; congruence || lia.
  - intros Ha Ha'. apply Ho. congruence.
Qed.

Section theorems.
Context `{RuntimeSdk} (msg_signer msg_writable : nat → bool).

(** C6. Lamports are neither created nor destroyed by a transaction, whatever the programs
    it runs do and however they call each other. *)
Theorem lamports_conserved tc tc' :
  instruction_stack tc = [] → NoDup (account_keys tc) →
  rtc (step any_body msg_signer msg_writable) tc tc' →
  instruction_stack tc' = [] → total_lamports tc' = total_lamports tc.
Proof.
  intros Hst HK Hs Hst'. eapply inv_done; [|done].
  eapply exec_inv_steps; [by intros ???|by apply exec_inv_start|done].
Qed.

(** C12. An account that the message does not mark writable is never changed, also not by
    programs further down the call tree; the instructions sysvar is kept up to date by
    the runtime. *)
Theorem readonly_accounts_unchanged tc tc' i k :
  instruction_stack tc = [] → NoDup (account_keys tc) →
  rtc (step any_body msg_signer msg_writable) tc tc' →
  account_keys tc !! i = Some k → msg_writable i = false → k ≠ instructions_id →
  get_account tc' k = get_account tc k.
Proof.
  intros Hst HK Hs Hi Hw Hk. pose proof (exec_inv_start msg_writable tc Hst HK) as Hinv. clear Hst.
  assert (∀ j, account_keys tc !! j = Some k → msg_writable j = false) as Hro.
  { intros j Hj. by rewrite (NoDup_lookup _ _ _ _ HK Hj Hi). }
  clear i Hi Hw HK. revert Hinv. generalize (total_lamports tc). intros T Hinv.
  induction Hs as [|tc tc1 tc' Hs _ IH]; [done|].
  destruct (step_readonly any_body msg_signer msg_writable (λ _ _ _ Hb, Hb) T tc tc1 k) as [Hkeys Hg]; [done..|].
  rewrite IH, Hg; [done|by rewrite Hkeys|].
  eapply exec_inv_step; [by intros ???|done|done].
Qed.

(** C13. Accounts owned by a program are protected from all other programs: as long as
    instructions of [P] do nothing, an account owned by [P] keeps its data, owner and
    executable flag and loses no lamports, and an account given to [P] comes zeroed. *)
Theorem foreign_accounts_protected P tc tc' k :
  instruction_stack tc = [] → NoDup (account_keys tc) →
  rtc (step (λ ctx tc tc', program_id ctx ≠ P ∧ any_body ctx tc tc') msg_signer msg_writable) tc tc' →
  k ≠ instructions_id → protected P (get_account tc k) (get_account tc' k).
Proof.
  intros Hst HK Hs Hk. pose proof (exec_inv_start msg_writable tc Hst HK) as Hinv. clear Hst HK.
  revert Hinv. generalize (total_lamports tc). intros T Hinv.
  induction Hs as [|tc tc1 tc' Hs _ IH]; [done|].
  assert (exec_inv msg_writable T tc1) as Hinv1.
  { eapply exec_inv_step; [|done|done]. by intros ??? [_ ?]. }
  transitivity (get_account tc1 k); [|by apply IH]. clear IH.
  destruct Hs as [? ? ? ? _ _ Hp|? ? ? ? ? ? ? ? _ _ Hp|current stack tc tc1 Hst [Hne Hb]|? ? Hp].
  - apply push_Ok in Hp as [_ _ _ Hacc]. by destruct (Hacc k) as [->|[? _]].
  - apply push_Ok in Hp as [_ _ _ Hacc]. by destruct (Hacc k) as [->|[? _]].
  - pose proof (inv_frames _ _ _ Hinv) as Hf. rewrite Hst in Hf. apply Forall_cons in Hf as [[Hwf _ _ _] _].
    destruct (any_body_effect _ _ _ Hwf Hb) as (_ & _ & Heff). destruct (Heff k) as [Hal _].
    by eapply allowed_protected.
  - apply pop_Ok in Hp as (_ & Hacc & _). unfold get_account. by rewrite Hacc.
Qed.

End theorems.

(** * An execution *)

Module ExecDemo.

#[local] Instance sdk : RuntimeSdk := {|
  instructions_id := 99; sysvar_id := 98; store_current_index_checked data _ := Ok data;
  rent_is_exempt _ _ := true
|}.

Definition acc lamports data owner executable : AccountSharedData :=
  {| acc_lamports := lamports; acc_data := data; acc_owner := owner; acc_executable := executable |}.

(** Program 7 owns account 10; account 12 is a program. *)
Definition tc0 : TransactionContext := {|
  account_keys := [10; 11; 12];
  accounts := {[ 10 := acc 100 [1; 2] 7 false; 11 := acc 5 [0; 0] 12 false; 12 := acc 1 [9] 3 true ]};
  touched_flags := ∅; resize_delta := 0; instruction_stack_capacity := 5;
  instruction_trace_capacity := 64; instruction_stack := []; instruction_trace_length := 0;
  top_level_instruction_index := 0; remove_accounts_executable_flag_checks := false
|}.

Definition signer (i : nat) : bool := (i =? 0)%nat.
Definition writable (i : nat) : bool := (i <=? 1)%nat.

Definition get (r : result TransactionContext InstructionError) : TransactionContext :=
  match r with Ok tc => tc | Err _ => tc0 end.
Definition current (tc : TransactionContext) : InstructionContext :=
  match instruction_stack tc with
  | c :: _ => c
  | [] => {| program_id := 0; instruction_accounts := []; instruction_accounts_lamport_sum := 0 |}
  end.
Definition account (i : nat) (tc : TransactionContext) : InstructionAccount :=
  default {| key := 0; index_in_caller := 0; index_in_callee := 0; is_signer := false; is_writable := false |}
    (instruction_accounts (current tc) !! i).

(** Program 7 moves 30 lamports and calls program 12, which writes its account 11. *)
Definition tc1 := get (push 7 (message_accounts [10; 11; 12] signer writable [] [0; 1; 1; 2]%nat) tc0).
Definition tc2 := get (run_op (current tc1) (account 0 tc1) (OpCheckedSubLamports 30) tc1).
Definition tc3 := get (run_op (current tc2) (account 2 tc2) (OpCheckedAddLamports 30) tc2).
Definition metas := [{| meta_pubkey := 11; meta_is_signer := false; meta_is_writable := true |}].
Definition callee :=
  match prepare_instruction (current tc3) tc3 12 metas [] with Ok l => l | Err _ => [] end.
Definition tc4 := get (push 12 callee tc3).
Definition tc5 := get (run_op (current tc4) (account 0 tc4) (OpSetDataFromSlice [4; 5; 6]) tc4).
Definition tc6 := get (pop tc5).
Definition tc7 := get (pop tc6).

Lemma steps (body : InstructionContext → TransactionContext → TransactionContext → Prop) :
  (∀ ctx tc tc', program_id ctx ≠ 3 → any_body ctx tc tc' → body ctx tc tc') →
  rtc (step body signer writable) tc0 tc7.
Proof.
  intros Hb.
  assert (∀ tc i op tc', instruction_stack tc ≠ [] → program_id (current tc) ≠ 3 →
    (i < length (instruction_accounts (current tc)))%nat →
    run_op (current tc) (account i tc) op tc = Ok tc' → step body signer writable tc tc') as Hop.
  { intros tc i op tc' Hst Hp Hi Hr. destruct (instruction_stack tc) as [|c stack] eqn:Hs; [done|].
    eapply (step_body _ _ _ (current tc) stack); [unfold current; by rewrite Hs|].
    apply Hb; [done|]. apply (body_op _ _ _ (account i tc) op); [|done].
    unfold account. apply lookup_lt_is_Some in Hi as [a Ha]. rewrite Ha. by eapply list_elem_of_lookup_2. }
  apply (rtc_l _ _ tc1).
  { apply (step_message _ _ _ 7 [0; 1; 1; 2]%nat); [done|repeat constructor; simpl; lia|vm_compute; reflexivity]. }
  apply (rtc_l _ _ tc2).
  { apply (Hop _ 0%nat (OpCheckedSubLamports 30)); [..|vm_compute; reflexivity]; vm_compute; [done|done|lia]. }
  apply (rtc_l _ _ tc3).
  { apply (Hop _ 2%nat (OpCheckedAddLamports 30)); [..|vm_compute; reflexivity]; vm_compute; [done|done|lia]. }
  apply (rtc_l _ _ tc4).
  { apply (step_call _ _ _ (current tc3) [] 12 metas [] callee); vm_compute; reflexivity. }
  apply (rtc_l _ _ tc5).
  { apply (Hop _ 0%nat (OpSetDataFromSlice [4; 5; 6])); [..|vm_compute; reflexivity]; vm_compute; [done|done|lia]. }
  apply (rtc_l _ _ tc6). { apply step_pop. vm_compute. reflexivity. }
  apply (rtc_l _ _ tc7). { apply step_pop. vm_compute. reflexivity. }
  apply rtc_refl.
Qed.

Lemma keys_NoDup : NoDup (account_keys tc0).
Proof. by apply (bool_decide_unpack _). Qed.

Lemma lamports_conserved_witness :
  acc_lamports (get_account tc7 11) = 35 ∧ total_lamports tc7 = total_lamports tc0.
Proof.
  split; [vm_compute; reflexivity|].
  apply (lamports_conserved signer writable tc0 tc7);
    [reflexivity|apply keys_NoDup|by apply steps|vm_compute; reflexivity].
Defined.

Lemma readonly_accounts_unchanged_witness : get_account tc7 12 = get_account tc0 12.
Proof.
  apply (readonly_accounts_unchanged signer writable tc0 tc7 2%nat 12);
    [reflexivity|apply keys_NoDup|by apply steps|reflexivity|reflexivity|done].
Defined.

Lemma foreign_accounts_protected_witness :
  acc_owner (get_account tc0 12) = 3 ∧ protected 3 (get_account tc0 12) (get_account tc7 12).
Proof.
  split; [vm_compute; reflexivity|]. apply (foreign_accounts_protected signer writable 3 tc0 tc7 12);
    [reflexivity|apply keys_NoDup|apply steps; auto|done].
Defined.

End ExecDemo.
