(* ===== verification/TokenState.v ===== *)
(** The state of the token program, [spl-token/program/src/state.rs] and
    [error.rs]: mints, token accounts and multisignatures, and their layout in the
    data of an account. *)

From S2P Require Import Prelude Bytes.

(** * Errors *)

Inductive TokenError :=
| NotRentExempt
| InsufficientFunds
| InvalidMint
| MintMismatch
| OwnerMismatch
| FixedSupply
| AlreadyInUse
| InvalidNumberOfProvidedSigners
| InvalidNumberOfRequiredSigners
| UninitializedState
| NativeNotSupported
| NonNativeHasBalance
| InvalidInstruction
| InvalidState
| Overflow
| AuthorityTypeNotSupported
| MintCannotFreeze
| AccountFrozen
| MintDecimalsMismatch
| NonNativeNotSupported.

(** The errors of [solana-program-error] that the program returns. *)
Inductive ProgramError :=
| Custom (code : Z)
| InvalidArgument
| InvalidAccountData
| UninitializedAccount
| NotEnoughAccountKeys
| IncorrectProgramId
| MissingRequiredSignature.

#[global] Instance ProgramError_eq_dec : EqDecision ProgramError.
Proof. solve_decision. Defined.

(** [e as u32]. *)
Definition TokenError_as_u32 (e : TokenError) : Z :=
  match e with
  | NotRentExempt => 0 | InsufficientFunds => 1 | InvalidMint => 2 | MintMismatch => 3
  | OwnerMismatch => 4 | FixedSupply => 5 | AlreadyInUse => 6
  | InvalidNumberOfProvidedSigners => 7 | InvalidNumberOfRequiredSigners => 8
  | UninitializedState => 9 | NativeNotSupported => 10 | NonNativeHasBalance => 11
  | InvalidInstruction => 12 | InvalidState => 13 | Overflow => 14
  | AuthorityTypeNotSupported => 15 | MintCannotFreeze => 16 | AccountFrozen => 17
  | MintDecimalsMismatch => 18 | NonNativeNotSupported => 19
  end.

Definition ProgramError_from (e : TokenError) : ProgramError := Custom (TokenError_as_u32 e).
Coercion ProgramError_from : TokenError >-> ProgramError.

(** [Err(e.into())]. *)
Abbreviation TokenErr e := (Err (ProgramError_from e)).

Definition TokenError_try_from (error : Z) : result TokenError ProgramError :=
  match error with
  | 0 => Ok NotRentExempt | 1 => Ok InsufficientFunds | 2 => Ok InvalidMint | 3 => Ok MintMismatch
  | 4 => Ok OwnerMismatch | 5 => Ok FixedSupply | 6 => Ok AlreadyInUse
  | 7 => Ok InvalidNumberOfProvidedSigners | 8 => Ok InvalidNumberOfRequiredSigners
  | 9 => Ok UninitializedState | 10 => Ok NativeNotSupported | 11 => Ok NonNativeHasBalance
  | 12 => Ok InvalidInstruction | 13 => Ok InvalidState | 14 => Ok Overflow
  | 15 => Ok AuthorityTypeNotSupported | 16 => Ok MintCannotFreeze | 17 => Ok AccountFrozen
  | 18 => Ok MintDecimalsMismatch | 19 => Ok NonNativeNotSupported
  | _ => Err InvalidArgument
  end.

(** * State *)

Definition MIN_SIGNERS : Z := 1.
Definition MAX_SIGNERS : nat := 11.

Record Mint := {
  mint_authority : option Pubkey;
  supply : Z;
  decimals : Z;
  mint_is_initialized : bool;
  freeze_authority : option Pubkey;
}.

Inductive AccountState :=
| Uninitialized
| Initialized
| Frozen.

#[global] Instance AccountState_eq_dec : EqDecision AccountState.
Proof. solve_decision. Defined.

Record Account := {
  mint : Pubkey;
  owner : Pubkey;
  amount : Z;
  delegate : option Pubkey;
  state : AccountState;
  is_native_reserve : option Z;
  delegated_amount : Z;
  close_authority : option Pubkey;
}.

Record Multisig := {
  multisig_m : Z;
  multisig_n : Z;
  multisig_is_initialized : bool;
  signers : list Pubkey;
}.

Definition is_frozen (a : Account) : bool := bool_decide (state a = Frozen).
Definition is_native (a : Account) : bool := is_some (is_native_reserve a).
Definition account_is_initialized (a : Account) : bool := bool_decide (state a ≠ Uninitialized).

(** Assignments to a field. *)
Definition with_owner (x : Pubkey) (a : Account) : Account :=
  {| mint := mint a; owner := x; amount := amount a; delegate := delegate a; state := state a;
     is_native_reserve := is_native_reserve a; delegated_amount := delegated_amount a;
     close_authority := close_authority a |}.
Definition with_amount (x : Z) (a : Account) : Account :=
  {| mint := mint a; owner := owner a; amount := x; delegate := delegate a; state := state a;
     is_native_reserve := is_native_reserve a; delegated_amount := delegated_amount a;
     close_authority := close_authority a |}.
Definition with_delegate (x : option Pubkey) (a : Account) : Account :=
  {| mint := mint a; owner := owner a; amount := amount a; delegate := x; state := state a;
     is_native_reserve := is_native_reserve a; delegated_amount := delegated_amount a;
     close_authority := close_authority a |}.
Definition with_state (x : AccountState) (a : Account) : Account :=
  {| mint := mint a; owner := owner a; amount := amount a; delegate := delegate a; state := x;
     is_native_reserve := is_native_reserve a; delegated_amount := delegated_amount a;
     close_authority := close_authority a |}.
Definition with_delegated_amount (x : Z) (a : Account) : Account :=
  {| mint := mint a; owner := owner a; amount := amount a; delegate := delegate a; state := state a;
     is_native_reserve := is_native_reserve a; delegated_amount := x;
     close_authority := close_authority a |}.
Definition with_close_authority (x : option Pubkey) (a : Account) : Account :=
  {| mint := mint a; owner := owner a; amount := amount a; delegate := delegate a; state := state a;
     is_native_reserve := is_native_reserve a; delegated_amount := delegated_amount a;
     close_authority := x |}.
Definition with_mint_authority (x : option Pubkey) (a : Mint) : Mint :=
  {| mint_authority := x; supply := supply a; decimals := decimals a;
     mint_is_initialized := mint_is_initialized a; freeze_authority := freeze_authority a |}.
Definition with_supply (x : Z) (a : Mint) : Mint :=
  {| mint_authority := mint_authority a; supply := x; decimals := decimals a;
     mint_is_initialized := mint_is_initialized a; freeze_authority := freeze_authority a |}.
Definition with_freeze_authority (x : option Pubkey) (a : Mint) : Mint :=
  {| mint_authority := mint_authority a; supply := supply a; decimals := decimals a;
     mint_is_initialized := mint_is_initialized a; freeze_authority := x |}.

Definition Mint_LEN : nat := 82.
Definition Account_LEN : nat := 165.
Definition Multisig_LEN : nat := 355.

(** * Packing *)

(** An absent option leaves the body as it is. *)
Definition pack_coption_key (src : option Pubkey) (dst : list Z) : list Z :=
  match src with
  | Some key => [1; 0; 0; 0] ++ key_bytes key
  | None => [0; 0; 0; 0] ++ drop 4 dst
  end.

Definition unpack_coption_key (src : list Z) : result (option Pubkey) ProgramError :=
  match array_refs [4; 32]%nat src with
  | [[0; 0; 0; 0]; body] => Ok None
  | [[1; 0; 0; 0]; body] => Ok (Some (key_of_bytes body))
  | _ => Err InvalidAccountData
  end.

Definition pack_coption_u64 (src : option Z) (dst : list Z) : list Z :=
  match src with
  | Some amount => [1; 0; 0; 0] ++ to_le_bytes 8 amount
  | None => [0; 0; 0; 0] ++ drop 4 dst
  end.

Definition unpack_coption_u64 (src : list Z) : result (option Z) ProgramError :=
  match array_refs [4; 8]%nat src with
  | [[0; 0; 0; 0]; body] => Ok None
  | [[1; 0; 0; 0]; body] => Ok (Some (from_le_bytes body))
  | _ => Err InvalidAccountData
  end.

(** [b as u8], and the [match] that reads it back. *)
Definition bool_as_u8 (b : bool) : Z := if b then 1 else 0.
Definition bool_of_u8 (b : list Z) : result bool ProgramError :=
  match b with
  | [0] => Ok false
  | [1] => Ok true
  | _ => Err InvalidAccountData
  end.

Definition AccountState_as_u8 (s : AccountState) : Z :=
  match s with Uninitialized => 0 | Initialized => 1 | Frozen => 2 end.
Definition AccountState_try_from_primitive (b : Z) : option AccountState :=
  match b with
  | 0 => Some Uninitialized
  | 1 => Some Initialized
  | 2 => Some Frozen
  | _ => None
  end.

(** [unpack_from_slice] and [pack_into_slice] are only called on a slice of the
    length of the type. *)
Module MintPack.

Definition widths : list nat := [36; 8; 1; 1; 36]%nat.

Definition unpack_from_slice (src : list Z) : result Mint ProgramError :=
  match array_refs widths src with
  | [mint_authority; supply; decimals; is_initialized; freeze_authority] =>
      mint_authority ←! unpack_coption_key mint_authority;
      is_initialized ←! bool_of_u8 is_initialized;
      freeze_authority ←! unpack_coption_key freeze_authority;
      Ok {| mint_authority := mint_authority; supply := from_le_bytes supply;
            decimals := from_le_bytes decimals; mint_is_initialized := is_initialized;
            freeze_authority := freeze_authority |}
  | _ => Err InvalidAccountData
  end.

Definition pack_into_slice (self : Mint) (dst : list Z) : list Z :=
  match array_refs widths dst with
  | [mint_authority_dst; _; _; _; freeze_authority_dst] =>
      concat [pack_coption_key (mint_authority self) mint_authority_dst;
              to_le_bytes 8 (supply self); [decimals self]; [bool_as_u8 (mint_is_initialized self)];
              pack_coption_key (freeze_authority self) freeze_authority_dst]
  | _ => dst
  end.

End MintPack.

Module AccountPack.

Definition widths : list nat := [32; 32; 8; 36; 1; 12; 8; 36]%nat.

Definition unpack_from_slice (src : list Z) : result Account ProgramError :=
  match array_refs widths src with
  | [mint; owner; amount; delegate; state; is_native; delegated_amount; close_authority] =>
      delegate ←! unpack_coption_key delegate;
      state ←! match AccountState_try_from_primitive (from_le_bytes state) with
              | Some state => Ok state
              | None => Err InvalidAccountData
              end;
      is_native ←! unpack_coption_u64 is_native;
      close_authority ←! unpack_coption_key close_authority;
      Ok {| mint := key_of_bytes mint; owner := key_of_bytes owner; amount := from_le_bytes amount;
            delegate := delegate; state := state; is_native_reserve := is_native;
            delegated_amount := from_le_bytes delegated_amount; close_authority := close_authority |}
  | _ => Err InvalidAccountData
  end.

Definition pack_into_slice (self : Account) (dst : list Z) : list Z :=
  match array_refs widths dst with
  | [_; _; _; delegate_dst; _; is_native_dst; _; close_authority_dst] =>
      concat [key_bytes (mint self); key_bytes (owner self); to_le_bytes 8 (amount self);
              pack_coption_key (delegate self) delegate_dst; [AccountState_as_u8 (state self)];
              pack_coption_u64 (is_native_reserve self) is_native_dst;
              to_le_bytes 8 (delegated_amount self);
              pack_coption_key (close_authority self) close_authority_dst]
  | _ => dst
  end.

End AccountPack.

Module MultisigPack.

Definition widths : list nat := [1; 1; 1; 352]%nat.

Definition unpack_from_slice (src : list Z) : result Multisig ProgramError :=
  match array_refs widths src with
  | [m; n; is_initialized; signers_flat] =>
      is_initialized ←! bool_of_u8 is_initialized;
      Ok {| multisig_m := from_le_bytes m; multisig_n := from_le_bytes n; multisig_is_initialized := is_initialized;
            signers := key_of_bytes <$> array_refs (replicate MAX_SIGNERS 32%nat) signers_flat |}
  | _ => Err InvalidAccountData
  end.

Definition pack_into_slice (self : Multisig) (dst : list Z) : list Z :=
  concat [[multisig_m self]; [multisig_n self]; [bool_as_u8 (multisig_is_initialized self)];
          concat (key_bytes <$> signers self)].

End MultisigPack.

(** The methods [unpack_unchecked], [unpack] and [pack] that the trait [Pack] of
    [solana-program-pack] provides, for a type of [len] bytes. *)
Class PackApi := {
  unpack_unchecked {A} (len : nat) (unpack_from_slice : list Z → result A ProgramError)
    (input : list Z) : result A ProgramError;
  unpack {A} (len : nat) (unpack_from_slice : list Z → result A ProgramError)
    (is_initialized : A → bool) (input : list Z) : result A ProgramError;
  pack {A} (len : nat) (pack_into_slice : A → list Z → list Z) (src : A) (dst : list Z)
    : result (list Z) ProgramError;
}.

Class PackLaws `{PackApi} := {
  unpack_unchecked_spec {A} len (f : list Z → result A ProgramError) input :
    unpack_unchecked len f input =
      if decide (length input = len) then f input else Err InvalidAccountData;
  unpack_spec {A} len (f : list Z → result A ProgramError) init input :
    unpack len f init input =
      (value ←! unpack_unchecked len f input;
       if init value then Ok value else Err UninitializedAccount);
  pack_spec {A} len (f : A → list Z → list Z) src dst :
    pack len f src dst = if decide (length dst = len) then Ok (f src dst) else Err InvalidAccountData;
}.

Section unpack.
Context `{PackApi}.

Definition Mint_unpack_unchecked : list Z → result Mint ProgramError :=
  unpack_unchecked Mint_LEN MintPack.unpack_from_slice.
Definition Mint_unpack : list Z → result Mint ProgramError :=
  unpack Mint_LEN MintPack.unpack_from_slice mint_is_initialized.
Definition Mint_pack : Mint → list Z → result (list Z) ProgramError :=
  pack Mint_LEN MintPack.pack_into_slice.

Definition Account_unpack_unchecked : list Z → result Account ProgramError :=
  unpack_unchecked Account_LEN AccountPack.unpack_from_slice.
Definition Account_unpack : list Z → result Account ProgramError :=
  unpack Account_LEN AccountPack.unpack_from_slice account_is_initialized.
Definition Account_pack : Account → list Z → result (list Z) ProgramError :=
  pack Account_LEN AccountPack.pack_into_slice.

Definition Multisig_unpack_unchecked : list Z → result Multisig ProgramError :=
  unpack_unchecked Multisig_LEN MultisigPack.unpack_from_slice.
Definition Multisig_unpack : list Z → result Multisig ProgramError :=
  unpack Multisig_LEN MultisigPack.unpack_from_slice multisig_is_initialized.
Definition Multisig_pack : Multisig → list Z → result (list Z) ProgramError :=
  pack Multisig_LEN MultisigPack.pack_into_slice.

End unpack.

(** * Reading single fields *)

Definition SPL_TOKEN_ACCOUNT_MINT_OFFSET : nat := 0.
Definition SPL_TOKEN_ACCOUNT_OWNER_OFFSET : nat := 32.
Definition ACCOUNT_INITIALIZED_INDEX : nat := 108.

(** Panics when the slice ends before the key does. *)
Definition unpack_pubkey_unchecked (account_data : list Z) (offset : nat) : outcome Pubkey :=
  assert_ (offset + 32 <=? length account_data)%nat ;;
  Ret (key_of_bytes (take 32 (drop offset account_data))).

Definition is_initialized_account (account_data : list Z) : bool :=
  negb (default 0 (account_data !! ACCOUNT_INITIALIZED_INDEX) =? AccountState_as_u8 Uninitialized).

Definition valid_account_data (account_data : list Z) : bool :=
  (length account_data =? Account_LEN)%nat && is_initialized_account account_data.

Definition unpack_account_owner (account_data : list Z) : outcome (option Pubkey) :=
  if valid_account_data account_data then
    k ← unpack_pubkey_unchecked account_data SPL_TOKEN_ACCOUNT_OWNER_OFFSET; Ret (Some k)
  else Ret None.

Definition unpack_account_mint (account_data : list Z) : outcome (option Pubkey) :=
  if valid_account_data account_data then
    k ← unpack_pubkey_unchecked account_data SPL_TOKEN_ACCOUNT_MINT_OFFSET; Ret (Some k)
  else Ret None.
