(* ===== verification/TokenStateProps.v ===== *)
(** The layouts of the token program: unpacking reads back what packing wrote, and
    packing what was unpacked writes the same bytes. *)

From S2P Require Import Prelude Bytes TokenState.

(** * Parts *)

Lemma is_u64_of_bytes b : Bytes b → length b = 8%nat → is_u64 (from_le_bytes b).
Proof.
  intros Hb Hl. pose proof (from_le_bytes_range b Hb) as Hr. rewrite Hl in Hr.
  unfold is_u64, u64_MAX. simpl in Hr. lia.
Qed.

Lemma u64_of_bytes n : is_u64 n → from_le_bytes (to_le_bytes 8 n) = n.
Proof. intros [? ?]. apply from_to_le_bytes. unfold u64_MAX in *. simpl. lia. Qed.

Lemma u8_byte b : is_byte b → from_le_bytes [b] = b.
Proof. unfold is_byte, from_le_bytes. lia. Qed.

Lemma length_1 {A} (l : list A) : length l = 1%nat → ∃ x, l = [x].
Proof. destruct l as [|x []]; [done|eauto|done]. Qed.

Lemma length_4 {A} (l : list A) : length l = 4%nat → ∃ a b c d, l = [a; b; c; d].
Proof. destruct l as [|a [|b [|c [|d []]]]]; try done. eauto. Qed.

Definition opt_ok (P : Z → Prop) (o : option Z) : Prop := ∀ x, o = Some x → P x.

Lemma length_pack_coption_key o dst : length dst = 36%nat → length (pack_coption_key o dst) = 36%nat.
Proof. intros Hl. destruct o; simpl; [done|]. rewrite length_drop. lia. Qed.

Lemma unpack_pack_coption_key o dst :
  opt_ok is_key o → unpack_coption_key (pack_coption_key o dst) = Ok o.
Proof.
  intros Ho. unfold unpack_coption_key. destruct o as [k|]; [|done].
  cbn [pack_coption_key app]. cbn [array_refs take drop]. rewrite take_0, drop_0, take_ge by (by rewrite length_key_bytes).
  by rewrite key_of_key_bytes by auto.
Qed.

(** A tag of an option that unpacks. *)
Ltac tag_cases Htag :=
  repeat match type of Htag with
  | context [match ?x with _ => _ end] => is_var x; destruct x; try discriminate Htag
  end.

Lemma coption_key_inv src o :
  length src = 36%nat → Bytes src → unpack_coption_key src = Ok o →
  opt_ok is_key o ∧ pack_coption_key o src = src.
Proof.
  intros Hl Hb. destruct (array_refs_spec [4; 32]%nat src) as [Hsrc HF]; [done..|].
  unfold unpack_coption_key. destruct (array_refs _ src) as [|tag [|body []]];
    try (by inversion HF as [|? ? ? ? ? HF']; inversion HF' as [|? ? ? ? ? HF'']; inversion HF'').
  apply Forall2_cons in HF as [[Ht _] [[Hlb Hbb] _]%Forall2_cons].
  destruct (length_4 tag Ht) as (a & b & c & d & ->). simpl in Hsrc. rewrite app_nil_r in Hsrc.
  intros Htag. tag_cases Htag; injection Htag as <-; rewrite Hsrc; simpl; split.
  - by intros ?.
  - by rewrite drop_0.
  - intros k [= <-]. by apply is_key_of_bytes.
  - by rewrite key_bytes_of_bytes.
Qed.

Lemma length_pack_coption_u64 o dst : length dst = 12%nat → length (pack_coption_u64 o dst) = 12%nat.
Proof. intros Hl. destruct o; simpl; [done|]. rewrite length_drop. lia. Qed.

Lemma unpack_pack_coption_u64 o dst :
  opt_ok is_u64 o → unpack_coption_u64 (pack_coption_u64 o dst) = Ok o.
Proof.
  intros Ho. unfold unpack_coption_u64. destruct o as [k|]; [|done].
  cbn [pack_coption_u64 app]. cbn [array_refs take drop]. rewrite take_0, drop_0, take_ge by (by rewrite length_to_le_bytes).
  by rewrite u64_of_bytes by auto.
Qed.

Lemma coption_u64_inv src o :
  length src = 12%nat → Bytes src → unpack_coption_u64 src = Ok o →
  opt_ok is_u64 o ∧ pack_coption_u64 o src = src.
Proof.
  intros Hl Hb. destruct (array_refs_spec [4; 8]%nat src) as [Hsrc HF]; [done..|].
  unfold unpack_coption_u64. destruct (array_refs _ src) as [|tag [|body []]];
    try (by inversion HF as [|? ? ? ? ? HF']; inversion HF' as [|? ? ? ? ? HF'']; inversion HF'').
  apply Forall2_cons in HF as [[Ht _] [[Hlb Hbb] _]%Forall2_cons].
  destruct (length_4 tag Ht) as (a & b & c & d & ->). simpl in Hsrc. rewrite app_nil_r in Hsrc.
  intros Htag. tag_cases Htag; injection Htag as <-; rewrite Hsrc; cbn [pack_coption_u64 app]; split.
  - by intros ?.
  - done.
  - intros k [= <-]. by apply is_u64_of_bytes.
  - by rewrite to_from_le_bytes'.
Qed.

Lemma bool_of_u8_as_u8 b : bool_of_u8 [bool_as_u8 b] = Ok b.
Proof. by destruct b. Qed.

Lemma bool_of_u8_inv l b : bool_of_u8 l = Ok b → l = [bool_as_u8 b].
Proof.
  unfold bool_of_u8. intros Hl. destruct l as [|x [|]]; [done| |by destruct x as [|[]|]].
  tag_cases Hl; by injection Hl as <-.
Qed.

Lemma AccountState_try_from_as_u8 s : AccountState_try_from_primitive (AccountState_as_u8 s) = Some s.
Proof. by destruct s. Qed.

Lemma AccountState_try_from_inv b s :
  AccountState_try_from_primitive b = Some s → b = AccountState_as_u8 s.
Proof. unfold AccountState_try_from_primitive. intros Hb. tag_cases Hb; by injection Hb as <-. Qed.

(** * Mints, accounts and multisignatures *)

Record WfMint (x : Mint) : Prop := {
  wf_mint_authority : opt_ok is_key (mint_authority x);
  wf_supply : is_u64 (supply x);
  wf_decimals : is_byte (decimals x);
  wf_freeze_authority : opt_ok is_key (freeze_authority x);
}.

Record WfAccount (a : Account) : Prop := {
  wf_mint : is_key (mint a);
  wf_owner : is_key (owner a);
  wf_amount : is_u64 (amount a);
  wf_delegate : opt_ok is_key (delegate a);
  wf_is_native : opt_ok is_u64 (is_native_reserve a);
  wf_delegated_amount : is_u64 (delegated_amount a);
  wf_close_authority : opt_ok is_key (close_authority a);
}.

Record WfMultisig (s : Multisig) : Prop := {
  wf_m : is_byte (multisig_m s);
  wf_n : is_byte (multisig_n s);
  wf_signers : length (signers s) = MAX_SIGNERS ∧ Forall is_key (signers s);
}.

Lemma array_refs_parts widths parts :
  length <$> parts = widths → array_refs widths (concat parts) = parts.
Proof. intros <-. apply array_refs_concat. Qed.

Lemma Mint_unpack_pack x dst :
  WfMint x → length dst = Mint_LEN → MintPack.unpack_from_slice (MintPack.pack_into_slice x dst) = Ok x.
Proof.
  intros [Ha Hs Hd Hf] Hl. unfold MintPack.pack_into_slice, MintPack.unpack_from_slice.
  pose proof (array_refs_lengths MintPack.widths dst Hl) as Hlens.
  destruct (array_refs MintPack.widths dst) as [|p1 [|p2 [|p3 [|p4 [|p5 []]]]]]; try done.
  injection Hlens as Hl1 Hl2 Hl3 Hl4 Hl5. rewrite array_refs_parts.
  - rewrite !unpack_pack_coption_key by done. cbn [and_then]. rewrite bool_of_u8_as_u8. cbn [and_then].
    rewrite u64_of_bytes, u8_byte by done. by destruct x.
  - cbn [fmap list_fmap length]. by rewrite !length_pack_coption_key, length_to_le_bytes.
Qed.

Lemma Account_unpack_pack a dst :
  WfAccount a → length dst = Account_LEN →
  AccountPack.unpack_from_slice (AccountPack.pack_into_slice a dst) = Ok a.
Proof.
  intros [] Hl. unfold AccountPack.pack_into_slice, AccountPack.unpack_from_slice.
  pose proof (array_refs_lengths AccountPack.widths dst Hl) as Hlens.
  destruct (array_refs AccountPack.widths dst) as [|p1 [|p2 [|p3 [|p4 [|p5 [|p6 [|p7 [|p8 []]]]]]]]]; try done.
  injection Hlens as Hl1 Hl2 Hl3 Hl4 Hl5 Hl6 Hl7 Hl8. rewrite array_refs_parts.
  - rewrite !unpack_pack_coption_key by done. cbn [and_then].
    rewrite u8_byte by (by destruct (state a)). rewrite AccountState_try_from_as_u8. cbn [and_then].
    rewrite unpack_pack_coption_u64 by done. cbn [and_then].
    rewrite !u64_of_bytes, !key_of_key_bytes by done. by destruct a.
  - cbn [fmap list_fmap length].
    by rewrite !length_pack_coption_key, !length_to_le_bytes, !length_key_bytes, length_pack_coption_u64.
Qed.

Lemma Multisig_unpack_pack s dst :
  WfMultisig s →
  MultisigPack.unpack_from_slice (MultisigPack.pack_into_slice s dst) = Ok s.
Proof.
  intros [Hm Hn [Hl Hk]]. unfold MultisigPack.pack_into_slice, MultisigPack.unpack_from_slice.
  assert (length <$> (key_bytes <$> signers s) = replicate MAX_SIGNERS 32%nat) as Hlens.
  { rewrite <-Hl. clear. induction (signers s); [done|]. cbn [fmap list_fmap length replicate].
    by rewrite length_key_bytes, IHl. }
  rewrite array_refs_parts.
  - rewrite bool_of_u8_as_u8. cbn [and_then]. rewrite array_refs_parts by done.
    rewrite !u8_byte by done. rewrite <-list_fmap_compose, (list_fmap_ext _ id), list_fmap_id.
    + by destruct s.
    + intros i k Hi. rewrite Forall_forall in Hk. apply key_of_key_bytes, Hk. by eapply list_elem_of_lookup_2.
  - cbn [fmap list_fmap length]. repeat f_equal. rewrite length_concat.
    change (sum_list (length <$> (key_bytes <$> signers s)) = 352%nat). by rewrite Hlens.
Qed.

(** The parts of a buffer, each with its width. *)
Lemma parts_inv widths src :
  Bytes src → length src = sum_list widths →
  ∃ parts, array_refs widths src = parts ∧ src = concat parts ∧
    Forall2 (λ w part, length part = w ∧ Bytes part) widths parts.
Proof. intros Hb Hl. exists (array_refs widths src). split; [done|by apply array_refs_spec]. Qed.

Ltac parts_cases HF :=
  repeat match type of HF with
  | Forall2 _ (_ :: _) _ =>
      let part := fresh "p" in let rest := fresh "rest" in
      let Hl := fresh "Hl" in let Hb := fresh "Hb" in
      apply Forall2_cons_inv_l in HF as (part & rest & [Hl Hb] & HF & ->)
  | Forall2 _ [] _ => apply Forall2_nil_inv_l in HF as ->
  end.

Ltac and_then_inv H :=
  repeat match type of H with
  | and_then _ _ = Ok _ =>
      let x := fresh "x" in let Hx := fresh "Hx" in
      apply and_then_Ok_inv in H as (x & Hx & H)
  end.

Ltac unfold_fields :=
  cbn [mint_authority supply decimals mint_is_initialized freeze_authority mint owner amount delegate
       state is_native_reserve delegated_amount close_authority multisig_m multisig_n
       multisig_is_initialized signers].

Lemma Mint_pack_unpack x src :
  Bytes src → length src = Mint_LEN → MintPack.unpack_from_slice src = Ok x →
  WfMint x ∧ MintPack.pack_into_slice x src = src.
Proof.
  intros Hb Hl. unfold MintPack.unpack_from_slice, MintPack.pack_into_slice.
  destruct (parts_inv MintPack.widths src Hb Hl) as (parts & -> & Hsrc & HF). unfold MintPack.widths in HF. parts_cases HF.
  intros Hx. cbn beta iota in Hx. and_then_inv Hx. injection Hx as <-.
  apply coption_key_inv in Hx0 as [? Hp1], Hx2 as [? Hp2]; [|done..].
  apply bool_of_u8_inv in Hx1 as ->. destruct (length_1 _ Hl2) as [d ->].
  rewrite Forall_singleton in Hb2. unfold_fields. split.
  - split; unfold_fields; [done|by apply is_u64_of_bytes|by rewrite u8_byte|done].
  - rewrite Hp1, Hp2, u8_byte, to_from_le_bytes' by done. by rewrite Hsrc.
Qed.

Lemma Account_pack_unpack a src :
  Bytes src → length src = Account_LEN → AccountPack.unpack_from_slice src = Ok a →
  WfAccount a ∧ AccountPack.pack_into_slice a src = src.
Proof.
  intros Hb Hl. unfold AccountPack.unpack_from_slice, AccountPack.pack_into_slice.
  destruct (parts_inv AccountPack.widths src Hb Hl) as (parts & -> & Hsrc & HF). unfold AccountPack.widths in HF. parts_cases HF.
  intros Ha. cbn beta iota in Ha. and_then_inv Ha. injection Ha as <-.
  apply coption_key_inv in Hx as [? Hp1], Hx2 as [? Hp2]; [|done..].
  apply coption_u64_inv in Hx1 as [? Hp3]; [|done..].
  destruct (AccountState_try_from_primitive _) as [s|] eqn:Hs; [|done]. injection Hx0 as ->.
  destruct (length_1 _ Hl4) as [b ->]. rewrite Forall_singleton in Hb4.
  rewrite u8_byte in Hs by done. apply AccountState_try_from_inv in Hs as ->. unfold_fields. split.
  - split; unfold_fields; auto using is_key_of_bytes, is_u64_of_bytes.
  - rewrite Hp1, Hp2, Hp3, !to_from_le_bytes', !key_bytes_of_bytes by done. by rewrite Hsrc.
Qed.

Lemma Multisig_pack_unpack s src :
  Bytes src → length src = Multisig_LEN → MultisigPack.unpack_from_slice src = Ok s →
  WfMultisig s ∧ MultisigPack.pack_into_slice s src = src.
Proof.
  intros Hb Hl. unfold MultisigPack.unpack_from_slice, MultisigPack.pack_into_slice.
  destruct (parts_inv MultisigPack.widths src Hb Hl) as (parts & -> & Hsrc & HF). unfold MultisigPack.widths in HF. parts_cases HF.
  destruct (parts_inv (replicate MAX_SIGNERS 32%nat) p2) as (keys & -> & Hp2 & HF); [done..|].
  intros Hs. cbn beta iota in Hs. and_then_inv Hs. injection Hs as <-. apply bool_of_u8_inv in Hx as ->.
  destruct (length_1 _ Hl0) as [m ->], (length_1 _ Hl1) as [n ->].
  rewrite Forall_singleton in Hb0, Hb1. unfold_fields.
  assert (Forall (λ b, Bytes b ∧ length b = 32%nat) keys) as Hks.
  { apply Forall_forall. intros b Hbk. apply list_elem_of_lookup in Hbk as [i Hi].
    destruct (Forall2_lookup_r _ _ _ _ _ HF Hi) as (w & Hw & Hlw & Hbw).
    apply lookup_replicate in Hw as [-> _]. done. }
  split.
  - split; unfold_fields; [by rewrite u8_byte..|]. rewrite length_fmap. split.
    + apply Forall2_length in HF. by rewrite length_replicate in HF.
    + apply Forall_fmap. eapply Forall_impl; [exact Hks|]. intros b [? ?]. by apply is_key_of_bytes.
  - rewrite !u8_byte by done. rewrite <-list_fmap_compose, (list_fmap_ext _ id), list_fmap_id.
    + by rewrite Hsrc, <-Hp2.
    + intros i b Hi. rewrite Forall_forall in Hks.
      destruct (Hks b) as [? ?]; [by eapply list_elem_of_lookup_2|]. by apply key_bytes_of_bytes.
Qed.

(** * What packing writes *)

Lemma length_concat_widths widths (parts : list (list Z)) :
  length <$> parts = widths → length (concat parts) = sum_list widths.
Proof. intros <-. rewrite length_concat. done. Qed.

Lemma coption_key_Bytes o dst : Bytes dst → Bytes (pack_coption_key o dst).
Proof.
  intros Hd. destruct o; cbn [pack_coption_key]; apply Forall_app; split;
    auto using key_bytes_Bytes, Forall_drop; repeat constructor; done.
Qed.

Lemma coption_u64_Bytes o dst : Bytes dst → Bytes (pack_coption_u64 o dst).
Proof.
  intros Hd. destruct o; cbn [pack_coption_u64]; apply Forall_app; split;
    auto using to_le_bytes_Bytes, Forall_drop; repeat constructor; done.
Qed.

Lemma bool_as_u8_byte b : is_byte (bool_as_u8 b).
Proof. by destruct b. Qed.

Lemma AccountState_byte s : is_byte (AccountState_as_u8 s).
Proof. by destruct s. Qed.

Ltac parts_Bytes :=
  repeat first [ apply Forall_nil_2 | apply coption_key_Bytes | apply coption_u64_Bytes
               | apply to_le_bytes_Bytes | apply key_bytes_Bytes | apply bool_as_u8_byte
               | apply AccountState_byte | done | apply Forall_cons; split ].

Lemma length_Mint_pack x dst :
  Bytes dst → length dst = Mint_LEN → length (MintPack.pack_into_slice x dst) = Mint_LEN.
Proof.
  intros Hb Hl. unfold MintPack.pack_into_slice.
  destruct (parts_inv MintPack.widths dst Hb Hl) as (parts & -> & _ & HF). unfold MintPack.widths in HF. parts_cases HF.
  rewrite (length_concat_widths MintPack.widths); [done|]. cbn [fmap list_fmap length].
  by rewrite !length_pack_coption_key, !length_to_le_bytes.
Qed.

Lemma length_Account_pack a dst :
  Bytes dst → length dst = Account_LEN → length (AccountPack.pack_into_slice a dst) = Account_LEN.
Proof.
  intros Hb Hl. unfold AccountPack.pack_into_slice.
  destruct (parts_inv AccountPack.widths dst Hb Hl) as (parts & -> & _ & HF). unfold AccountPack.widths in HF. parts_cases HF.
  rewrite (length_concat_widths AccountPack.widths); [done|]. cbn [fmap list_fmap length].
  by rewrite !length_pack_coption_key, !length_to_le_bytes, !length_key_bytes, length_pack_coption_u64.
Qed.

Lemma Mint_pack_wf x dst :
  WfMint x → Bytes dst → length dst = Mint_LEN →
  Bytes (MintPack.pack_into_slice x dst) ∧ length (MintPack.pack_into_slice x dst) = Mint_LEN.
Proof.
  intros [] Hb Hl. split; [|by apply length_Mint_pack]. unfold MintPack.pack_into_slice.
  destruct (parts_inv MintPack.widths dst Hb Hl) as (parts & -> & _ & HF). unfold MintPack.widths in HF. parts_cases HF.
  apply Forall_concat. parts_Bytes.
Qed.

Lemma Account_pack_wf a dst :
  WfAccount a → Bytes dst → length dst = Account_LEN →
  Bytes (AccountPack.pack_into_slice a dst) ∧ length (AccountPack.pack_into_slice a dst) = Account_LEN.
Proof.
  intros [] Hb Hl. split; [|by apply length_Account_pack]. unfold AccountPack.pack_into_slice.
  destruct (parts_inv AccountPack.widths dst Hb Hl) as (parts & -> & _ & HF). unfold AccountPack.widths in HF. parts_cases HF.
  apply Forall_concat. parts_Bytes.
Qed.

Lemma Multisig_pack_wf m dst :
  WfMultisig m →
  Bytes (MultisigPack.pack_into_slice m dst) ∧ length (MultisigPack.pack_into_slice m dst) = Multisig_LEN.
Proof.
  intros [Hm Hn [Hl Hk]]. unfold MultisigPack.pack_into_slice.
  assert (∀ l, Bytes (concat (key_bytes <$> l)) ∧ length (concat (key_bytes <$> l)) = (32 * length l)%nat) as Hks.
  { induction l as [|k l [IH1 IH2]]; [done|]. rewrite fmap_cons. cbn [concat]. rewrite length_app, length_key_bytes, IH2. split.
    - apply Forall_app. split; [apply key_bytes_Bytes|exact IH1].
    - cbn [length]. lia. }
  destruct (Hks (signers m)) as [Hkb Hkl]. split.
  - apply Forall_concat. parts_Bytes.
  - rewrite (length_concat_widths MultisigPack.widths); [done|]. cbn [fmap list_fmap length].
    change (list_fmap Z (list Z) key_bytes (signers m)) with (key_bytes <$> signers m). by rewrite Hkl, Hl.
Qed.
