(* ===== verification/TokenInstruction.v ===== *)
(** The instructions of the token program and their encoding,
    [spl-token/program/src/instruction.rs]. *)

From S2P Require Import Prelude Bytes TokenState TokenStateProps.

Inductive AuthorityType :=
| MintTokens
| FreezeAccountAuthority
| AccountOwner
| CloseAccountAuthority.

(** A string slice is its UTF-8 bytes. *)
Inductive TokenInstruction :=
| InitializeMint (decimals : Z) (mint_authority : Pubkey) (freeze_authority : option Pubkey)
| InitializeAccount
| InitializeMultisig (m : Z)
| Transfer (amount : Z)
| Approve (amount : Z)
| Revoke
| SetAuthority (authority_type : AuthorityType) (new_authority : option Pubkey)
| MintTo (amount : Z)
| Burn (amount : Z)
| CloseAccount
| FreezeAccount
| ThawAccount
| TransferChecked (amount decimals : Z)
| ApproveChecked (amount decimals : Z)
| MintToChecked (amount decimals : Z)
| BurnChecked (amount decimals : Z)
| InitializeAccount2 (owner : Pubkey)
| SyncNative
| InitializeAccount3 (owner : Pubkey)
| InitializeMultisig2 (m : Z)
| InitializeMint2 (decimals : Z) (mint_authority : Pubkey) (freeze_authority : option Pubkey)
| GetAccountDataSize
| InitializeImmutableOwner
| AmountToUiAmount (amount : Z)
| UiAmountToAmount (ui_amount : list Z).

(** * UTF-8 *)

(** [std::str::from_utf8]: the well-formed byte sequences of the Unicode standard. *)
Definition in_range (lo hi b : Z) : bool := (lo <=? b) && (b <=? hi).

Fixpoint valid_utf8 (l : list Z) : bool :=
  match l with
  | [] => true
  | b1 :: l1 =>
      if in_range 0 127 b1 then valid_utf8 l1
      else match l1 with
      | [] => false
      | b2 :: l2 =>
          if in_range 194 223 b1 then in_range 128 191 b2 && valid_utf8 l2
          else match l2 with
          | [] => false
          | b3 :: l3 =>
              if in_range 224 239 b1 then
                in_range (if b1 =? 224 then 160 else 128) (if b1 =? 237 then 159 else 191) b2 &&
                in_range 128 191 b3 && valid_utf8 l3
              else match l3 with
              | [] => false
              | b4 :: l4 =>
                  in_range 240 244 b1 &&
                  in_range (if b1 =? 240 then 144 else 128) (if b1 =? 244 then 143 else 191) b2 &&
                  in_range 128 191 b3 && in_range 128 191 b4 && valid_utf8 l4
              end
          end
      end
  end.

(** * Encoding *)

Definition U64_BYTES : nat := 8.

Definition AuthorityType_into (t : AuthorityType) : Z :=
  match t with
  | MintTokens => 0
  | FreezeAccountAuthority => 1
  | AccountOwner => 2
  | CloseAccountAuthority => 3
  end.

Definition AuthorityType_from (index : Z) : result AuthorityType ProgramError :=
  match index with
  | 0 => Ok MintTokens
  | 1 => Ok FreezeAccountAuthority
  | 2 => Ok AccountOwner
  | 3 => Ok CloseAccountAuthority
  | _ => TokenErr InvalidInstruction
  end.

Definition is_valid_signer_index (index : Z) : bool :=
  (MIN_SIGNERS <=? index) && (index <=? Z.of_nat MAX_SIGNERS).

Module Instr.

(** [input.split_first().ok_or(InvalidInstruction)?]. *)
Definition split_first (input : list Z) : result (Z * list Z) ProgramError :=
  match input with
  | b :: rest => Ok (b, rest)
  | [] => TokenErr InvalidInstruction
  end.

Definition unpack_pubkey (input : list Z) : result (Pubkey * list Z) ProgramError :=
  if (32 <=? length input)%nat then Ok (key_of_bytes (take 32 input), drop 32 input)
  else TokenErr InvalidInstruction.

Definition unpack_pubkey_option (input : list Z) : result (option Pubkey * list Z) ProgramError :=
  match input with
  | 0 :: rest => Ok (None, rest)
  | 1 :: rest =>
      if (32 <=? length rest)%nat then Ok (Some (key_of_bytes (take 32 rest)), drop 32 rest)
      else TokenErr InvalidInstruction
  | _ => TokenErr InvalidInstruction
  end.

Definition pack_pubkey_option (value : option Pubkey) : list Z :=
  match value with
  | Some key => 1 :: key_bytes key
  | None => [0]
  end.

Definition unpack_u64 (input : list Z) : result (Z * list Z) ProgramError :=
  if (U64_BYTES <=? length input)%nat
  then Ok (from_le_bytes (take U64_BYTES input), drop U64_BYTES input)
  else TokenErr InvalidInstruction.

Definition unpack_amount_decimals (input : list Z) : result (Z * Z * list Z) ProgramError :=
  '(amount, rest) ←! unpack_u64 input;
  '(decimals, rest) ←! split_first rest;
  Ok (amount, decimals, rest).

Definition unpack (input : list Z) : result TokenInstruction ProgramError :=
  '(tag, rest) ←! split_first input;
  match tag with
  | 0 =>
      '(decimals, rest) ←! split_first rest;
      '(mint_authority, rest) ←! unpack_pubkey rest;
      '(freeze_authority, _) ←! unpack_pubkey_option rest;
      Ok (InitializeMint decimals mint_authority freeze_authority)
  | 1 => Ok InitializeAccount
  | 2 => '(m, _) ←! split_first rest; Ok (InitializeMultisig m)
  | 3 => '(amount, _) ←! unpack_u64 rest; Ok (Transfer amount)
  | 4 => '(amount, _) ←! unpack_u64 rest; Ok (Approve amount)
  | 7 => '(amount, _) ←! unpack_u64 rest; Ok (MintTo amount)
  | 8 => '(amount, _) ←! unpack_u64 rest; Ok (Burn amount)
  | 5 => Ok Revoke
  | 6 =>
      '(t, rest) ←! split_first rest;
      authority_type ←! AuthorityType_from t;
      '(new_authority, _) ←! unpack_pubkey_option rest;
      Ok (SetAuthority authority_type new_authority)
  | 9 => Ok CloseAccount
  | 10 => Ok FreezeAccount
  | 11 => Ok ThawAccount
  | 12 => '(amount, decimals, _) ←! unpack_amount_decimals rest; Ok (TransferChecked amount decimals)
  | 13 => '(amount, decimals, _) ←! unpack_amount_decimals rest; Ok (ApproveChecked amount decimals)
  | 14 => '(amount, decimals, _) ←! unpack_amount_decimals rest; Ok (MintToChecked amount decimals)
  | 15 => '(amount, decimals, _) ←! unpack_amount_decimals rest; Ok (BurnChecked amount decimals)
  | 16 => '(owner, _) ←! unpack_pubkey rest; Ok (InitializeAccount2 owner)
  | 17 => Ok SyncNative
  | 18 => '(owner, _) ←! unpack_pubkey rest; Ok (InitializeAccount3 owner)
  | 19 => '(m, _) ←! split_first rest; Ok (InitializeMultisig2 m)
  | 20 =>
      '(decimals, rest) ←! split_first rest;
      '(mint_authority, rest) ←! unpack_pubkey rest;
      '(freeze_authority, _) ←! unpack_pubkey_option rest;
      Ok (InitializeMint2 decimals mint_authority freeze_authority)
  | 21 => Ok GetAccountDataSize
  | 22 => Ok InitializeImmutableOwner
  | 23 => '(amount, _) ←! unpack_u64 rest; Ok (AmountToUiAmount amount)
  | 24 => if valid_utf8 rest then Ok (UiAmountToAmount rest) else TokenErr InvalidInstruction
  | _ => TokenErr InvalidInstruction
  end.

Definition pack (self : TokenInstruction) : list Z :=
  match self with
  | InitializeMint decimals mint_authority freeze_authority =>
      0 :: decimals :: key_bytes mint_authority ++ pack_pubkey_option freeze_authority
  | InitializeAccount => [1]
  | InitializeMultisig m => [2; m]
  | Transfer amount => 3 :: to_le_bytes 8 amount
  | Approve amount => 4 :: to_le_bytes 8 amount
  | MintTo amount => 7 :: to_le_bytes 8 amount
  | Burn amount => 8 :: to_le_bytes 8 amount
  | Revoke => [5]
  | SetAuthority authority_type new_authority =>
      6 :: AuthorityType_into authority_type :: pack_pubkey_option new_authority
  | CloseAccount => [9]
  | FreezeAccount => [10]
  | ThawAccount => [11]
  | TransferChecked amount decimals => 12 :: to_le_bytes 8 amount ++ [decimals]
  | ApproveChecked amount decimals => 13 :: to_le_bytes 8 amount ++ [decimals]
  | MintToChecked amount decimals => 14 :: to_le_bytes 8 amount ++ [decimals]
  | BurnChecked amount decimals => 15 :: to_le_bytes 8 amount ++ [decimals]
  | InitializeAccount2 owner => 16 :: key_bytes owner
  | SyncNative => [17]
  | InitializeAccount3 owner => 18 :: key_bytes owner
  | InitializeMultisig2 m => [19; m]
  | InitializeMint2 decimals mint_authority freeze_authority =>
      20 :: decimals :: key_bytes mint_authority ++ pack_pubkey_option freeze_authority
  | GetAccountDataSize => [21]
  | InitializeImmutableOwner => [22]
  | AmountToUiAmount amount => 23 :: to_le_bytes 8 amount
  | UiAmountToAmount ui_amount => 24 :: ui_amount
  end.

End Instr.

(** * The encoding

    Unpacking reads back what packing wrote,
    and what unpacks starts with its packed form. *)


(** The values the fields of an instruction can have. *)
Definition WfInstr (i : TokenInstruction) : Prop :=
  match i with
  | InitializeMint d m f | InitializeMint2 d m f => is_byte d ∧ is_key m ∧ opt_ok is_key f
  | InitializeMultisig m | InitializeMultisig2 m => is_byte m
  | Transfer a | Approve a | MintTo a | Burn a | AmountToUiAmount a => is_u64 a
  | SetAuthority _ k => opt_ok is_key k
  | TransferChecked a d | ApproveChecked a d | MintToChecked a d | BurnChecked a d => is_u64 a ∧ is_byte d
  | InitializeAccount2 k | InitializeAccount3 k => is_key k
  | UiAmountToAmount u => Bytes u ∧ valid_utf8 u = true
  | InitializeAccount | Revoke | CloseAccount | FreezeAccount | ThawAccount | SyncNative
  | GetAccountDataSize | InitializeImmutableOwner => True
  end.

(** * Reading back *)

Lemma unpack_pubkey_app k rest : is_key k → Instr.unpack_pubkey (key_bytes k ++ rest) = Ok (k, rest).
Proof.
  intros Hk. unfold Instr.unpack_pubkey. rewrite length_app, length_key_bytes. cbn [Nat.leb Nat.add].
  rewrite take_app_length', drop_app_length' by (by rewrite length_key_bytes). by rewrite key_of_key_bytes.
Qed.

Lemma unpack_pubkey_option_app o rest :
  opt_ok is_key o → Instr.unpack_pubkey_option (Instr.pack_pubkey_option o ++ rest) = Ok (o, rest).
Proof.
  intros Ho. destruct o as [k|]; [|done]. cbn [Instr.pack_pubkey_option app Instr.unpack_pubkey_option].
  rewrite length_app, length_key_bytes. cbn [Nat.leb Nat.add].
  rewrite take_app_length', drop_app_length' by (by rewrite length_key_bytes). rewrite key_of_key_bytes by auto. done.
Qed.

Lemma unpack_u64_app n rest : is_u64 n → Instr.unpack_u64 (to_le_bytes 8 n ++ rest) = Ok (n, rest).
Proof.
  intros Hn. unfold Instr.unpack_u64, U64_BYTES. rewrite length_app, length_to_le_bytes. cbn [Nat.leb Nat.add].
  rewrite take_app_length', drop_app_length' by (by rewrite length_to_le_bytes). by rewrite u64_of_bytes.
Qed.

Lemma unpack_amount_decimals_app n d rest :
  is_u64 n → Instr.unpack_amount_decimals (to_le_bytes 8 n ++ d :: rest) = Ok (n, d, rest).
Proof. intros Hn. unfold Instr.unpack_amount_decimals. by rewrite unpack_u64_app. Qed.

Lemma AuthorityType_from_into t : AuthorityType_from (AuthorityType_into t) = Ok t.
Proof. by destruct t. Qed.

(** The same at the end of the input. *)
Lemma unpack_pubkey_end k : is_key k → Instr.unpack_pubkey (key_bytes k) = Ok (k, []).
Proof. intros Hk. rewrite <-(app_nil_r (key_bytes k)). by apply unpack_pubkey_app. Qed.

Lemma unpack_pubkey_option_end o :
  opt_ok is_key o → Instr.unpack_pubkey_option (Instr.pack_pubkey_option o) = Ok (o, []).
Proof. intros Ho. rewrite <-(app_nil_r (Instr.pack_pubkey_option o)). by apply unpack_pubkey_option_app. Qed.

Lemma unpack_u64_end n : is_u64 n → Instr.unpack_u64 (to_le_bytes 8 n) = Ok (n, []).
Proof. intros Hn. rewrite <-(app_nil_r (to_le_bytes 8 n)). by apply unpack_u64_app. Qed.

Create Rewrite HintDb instr.
#[export] Hint Rewrite unpack_pubkey_end unpack_pubkey_option_end unpack_u64_end unpack_pubkey_app
  unpack_amount_decimals_app AuthorityType_from_into using done : instr.

Lemma Instr_unpack_pack i : WfInstr i → Instr.unpack (Instr.pack i) = Ok i.
Proof.
  destruct i; cbn [WfInstr Instr.pack]; intros Hi; unfold Instr.unpack; destruct_and?;
    repeat (cbn [Instr.split_first and_then]; autorewrite with instr); try done.
  by rewrite H0.
Qed.

(** * What was read *)

Lemma split_first_inv input b rest :
  Bytes input → Instr.split_first input = Ok (b, rest) → is_byte b ∧ Bytes rest ∧ input = b :: rest.
Proof. intros Hb. destruct input; [done|]. intros [= -> ->]. apply Forall_cons in Hb. naive_solver. Qed.

Lemma take_drop_inv n input :
  Bytes input → (n <=? length input)%nat = true →
  Bytes (take n input) ∧ length (take n input) = n ∧ Bytes (drop n input) ∧
  input = take n input ++ drop n input.
Proof.
  intros Hb Hle%Nat.leb_le. rewrite length_take, take_drop.
  split_and!; [by apply Forall_take|lia|by apply Forall_drop|done].
Qed.

Lemma unpack_pubkey_inv input k rest :
  Bytes input → Instr.unpack_pubkey input = Ok (k, rest) →
  is_key k ∧ Bytes rest ∧ input = key_bytes k ++ rest.
Proof.
  intros Hb. unfold Instr.unpack_pubkey. destruct (_ <=? _)%nat eqn:Hle; [|done]. intros [= <- <-].
  destruct (take_drop_inv _ _ Hb Hle) as (? & ? & ? & Hi). rewrite key_bytes_of_bytes by done.
  split_and!; [by apply is_key_of_bytes|done|done].
Qed.

Lemma unpack_pubkey_option_inv input o rest :
  Bytes input → Instr.unpack_pubkey_option input = Ok (o, rest) →
  opt_ok is_key o ∧ Bytes rest ∧ input = Instr.pack_pubkey_option o ++ rest.
Proof.
  intros Hb. unfold Instr.unpack_pubkey_option. intros Hu. destruct input as [|b input]; [done|].
  apply Forall_cons in Hb as [_ Hb]. tag_cases Hu.
  - by injection Hu as <- <-.
  - destruct (_ <=? _)%nat eqn:Hle; [|done]. injection Hu as <- <-.
    destruct (take_drop_inv _ _ Hb Hle) as (? & ? & ? & Hi). cbn [Instr.pack_pubkey_option app].
    rewrite key_bytes_of_bytes by done. split_and!; [|done|by rewrite <-Hi].
    intros k [= <-]. by apply is_key_of_bytes.
Qed.

Lemma unpack_u64_inv input n rest :
  Bytes input → Instr.unpack_u64 input = Ok (n, rest) →
  is_u64 n ∧ Bytes rest ∧ input = to_le_bytes 8 n ++ rest.
Proof.
  intros Hb. unfold Instr.unpack_u64. destruct (_ <=? _)%nat eqn:Hle; [|done]. intros [= <- <-].
  destruct (take_drop_inv _ _ Hb Hle) as (? & ? & ? & Hi). rewrite to_from_le_bytes' by done.
  split_and!; [by apply is_u64_of_bytes|done|done].
Qed.

Lemma unpack_amount_decimals_inv input n d rest :
  Bytes input → Instr.unpack_amount_decimals input = Ok (n, d, rest) →
  (is_u64 n ∧ is_byte d) ∧ Bytes rest ∧ input = (to_le_bytes 8 n ++ [d]) ++ rest.
Proof.
  intros Hb Hu. unfold Instr.unpack_amount_decimals in Hu.
  apply and_then_Ok_inv in Hu as ([n' rest'] & Hn & Hu). apply unpack_u64_inv in Hn as (? & ? & ->); [|done].
  apply and_then_Ok_inv in Hu as ([d' rest''] & Hd & Hu). apply split_first_inv in Hd as (? & ? & ->); [|done].
  injection Hu as <- <- <-. by rewrite <-app_assoc.
Qed.

Lemma AuthorityType_from_inv b t : AuthorityType_from b = Ok t → b = AuthorityType_into t.
Proof. unfold AuthorityType_from. intros Hb. tag_cases Hb; by injection Hb as <-. Qed.

Ltac instr_inv Hu :=
  repeat match type of Hu with
  | and_then _ _ = Ok _ =>
      let p := fresh "p" in let Hp := fresh "Hp" in
      apply and_then_Ok_inv in Hu as (p & Hp & Hu);
      repeat match type of p with
      | (_ * _)%type => let q := fresh "q" in destruct p as [p q]
      end; cbn beta iota in Hu;
      first [ apply unpack_pubkey_inv in Hp as (? & ? & ->); [|done]
            | apply unpack_pubkey_option_inv in Hp as (? & ? & ->); [|done]
            | apply unpack_u64_inv in Hp as (? & ? & ->); [|done]
            | apply unpack_amount_decimals_inv in Hp as (? & ? & ->); [|done]
            | apply split_first_inv in Hp as (? & ? & ->); [|done]
            | apply AuthorityType_from_inv in Hp as -> ]
  end.

Lemma Instr_pack_unpack input i :
  Bytes input → Instr.unpack input = Ok i → WfInstr i ∧ Instr.pack i `prefix_of` input.
Proof.
  intros Hb Hu. unfold Instr.unpack in Hu.
  apply and_then_Ok_inv in Hu as ([tag rest] & Ht & Hu). apply split_first_inv in Ht as (_ & Hr & ->); [|done].
  tag_cases Hu; instr_inv Hu; try (destruct (valid_utf8 rest) eqn:?; [|done]); injection Hu as <-;
    (split; [by cbn [WfInstr]|]); cbn [Instr.pack]; repeat apply prefix_cons; rewrite ?app_assoc;
    first [done|by apply prefix_app_r|apply prefix_nil].
Qed.
