(* ===== verification/TokenAmount.v ===== *)
(** Token amounts as decimal strings, [spl-token/program/src/lib.rs]. Strings are
    the lists of their bytes. *)

From S2P Require Import Prelude Bytes TokenState TokenStateProps.

(** * The standard library on ASCII strings *)

Definition ascii_zero : Z := 48.
Definition ascii_dot : Z := 46.
Definition ascii_plus : Z := 43.
Definition ascii_minus : Z := 45.

(** [u64::to_string]: at most 20 digits. *)
Fixpoint decimal_digits (fuel : nat) (n : Z) (suffix : list Z) : list Z :=
  match fuel with
  | O => suffix
  | S fuel =>
      let suffix := (ascii_zero + n mod 10) :: suffix in
      if n / 10 =? 0 then suffix else decimal_digits fuel (n / 10) suffix
  end.
Definition u64_to_string (n : Z) : list Z := decimal_digits 20 n [].

(** [format!("{:01$}", n, width)]. *)
Definition zero_padded (n : Z) (width : nat) : list Z :=
  replicate (width - length (u64_to_string n)) ascii_zero ++ u64_to_string n.

Fixpoint trim_start_matches (c : Z) (s : list Z) : list Z :=
  match s with
  | [] => []
  | b :: s' => if b =? c then trim_start_matches c s' else s
  end.
Definition trim_end_matches (c : Z) (s : list Z) : list Z :=
  reverse (trim_start_matches c (reverse s)).

(** [s.split(c)]: at least one part. *)
Fixpoint split (c : Z) (s : list Z) : list Z * list (list Z) :=
  match s with
  | [] => ([], [])
  | b :: s =>
      let '(part, parts) := split c s in
      if b =? c then ([], part :: parts) else (b :: part, parts)
  end.

(** [str::parse::<u64>]; [None] is any [ParseIntError]. *)
Fixpoint parse_digits (acc : Z) (s : list Z) : option Z :=
  match s with
  | [] => Some acc
  | b :: s =>
      if (ascii_zero <=? b) && (b <=? ascii_zero + 9) then
        let acc' := acc * 10 + (b - ascii_zero) in
        if acc' <=? u64_MAX then parse_digits acc' s else None
      else None
  end.
Definition parse_u64 (s : list Z) : option Z :=
  match s with
  | [] => None
  | [b] => if (b =? ascii_plus) || (b =? ascii_minus) then None else parse_digits 0 s
  | b :: rest => if b =? ascii_plus then parse_digits 0 rest else parse_digits 0 s
  end.

(** * The conversions *)

Definition amount_to_ui_amount_string (amount decimals : Z) : list Z :=
  let decimals := Z.to_nat decimals in
  if (0 <? decimals)%nat then
    let s := zero_padded amount (decimals + 1) in
    let point := (length s - decimals)%nat in
    take point s ++ ascii_dot :: drop point s
  else u64_to_string amount.

Definition amount_to_ui_amount_string_trimmed (amount decimals : Z) : list Z :=
  let s := amount_to_ui_amount_string amount decimals in
  if 0 <? decimals then
    let zeros_trimmed := trim_end_matches ascii_zero s in
    trim_end_matches ascii_dot zeros_trimmed
  else s.

Definition try_ui_amount_into_amount (ui_amount : list Z) (decimals : Z) : result Z ProgramError :=
  let decimals := Z.to_nat decimals in
  let '(amount_str, parts) := split ascii_dot ui_amount in
  let after_decimal := trim_end_matches ascii_zero (default [] (head parts)) in
  if (bool_decide (amount_str = []) && bool_decide (after_decimal = []))
     || negb (bool_decide (tail parts = [])) || (decimals <? length after_decimal)%nat
  then Err InvalidArgument
  else
    let amount_str := amount_str ++ after_decimal in
    let amount_str := amount_str ++ replicate (decimals - length after_decimal) ascii_zero in
    match parse_u64 amount_str with
    | Some amount => Ok amount
    | None => Err InvalidArgument
    end.

(** * Amounts written as strings are read back *)


Abbreviation Digits := (Forall (λ b, ascii_zero ≤ b ≤ ascii_zero + 9)).

(** The number a list of digits stands for, after [acc]. *)
Definition value_from (acc : Z) (s : list Z) : Z := foldl (λ acc b, acc * 10 + (b - ascii_zero)) acc s.

Lemma value_from_ge acc s : 0 ≤ acc → Digits s → acc ≤ value_from acc s.
Proof.
  unfold value_from. revert acc. induction s as [|b s IH]; intros acc Hacc Hs; simpl; [done|].
  apply Forall_cons in Hs as [? ?]. etrans; [|apply IH]; [lia|lia|done].
Qed.

Lemma parse_digits_value acc s :
  0 ≤ acc → Digits s → value_from acc s ≤ u64_MAX → parse_digits acc s = Some (value_from acc s).
Proof.
  revert acc. induction s as [|b s IH]; intros acc Hacc Hs Hv; [done|].
  apply Forall_cons in Hs as [Hb Hs]. cbn [parse_digits].
  rewrite (proj2 (Z.leb_le _ _)), (proj2 (Z.leb_le _ _)) by lia. cbn [andb].
  change (value_from acc (b :: s)) with (value_from (acc * 10 + (b - ascii_zero)) s) in *.
  rewrite (proj2 (Z.leb_le _ _)); [apply IH; [lia|done|done]|].
  etrans; [|exact Hv]. apply value_from_ge; [lia|done].
Qed.

Lemma parse_u64_value s :
  s ≠ [] → Digits s → value_from 0 s ≤ u64_MAX → parse_u64 s = Some (value_from 0 s).
Proof.
  intros Hne Hs Hv. pose proof (parse_digits_value 0 s ltac:(lia) Hs Hv) as Hp.
  destruct s as [|b [|c s]]; [done|..]; apply Forall_cons in Hs as [Hb _]; unfold parse_u64, ascii_zero in *.
  - by rewrite !(proj2 (Z.eqb_neq _ _)) by (unfold ascii_plus, ascii_minus; lia).
  - by rewrite !(proj2 (Z.eqb_neq _ _)) by (unfold ascii_plus; lia).
Qed.

(** * Digits *)

Lemma value_from_app acc s t : value_from acc (s ++ t) = value_from (value_from acc s) t.
Proof. apply foldl_app. Qed.

Lemma value_from_split acc s : value_from acc s = acc * 10 ^ Z.of_nat (length s) + value_from 0 s.
Proof.
  revert acc. induction s as [|b s IH]; intros acc; [simpl; unfold value_from; simpl; lia|].
  change (value_from acc (b :: s)) with (value_from (acc * 10 + (b - ascii_zero)) s).
  change (value_from 0 (b :: s)) with (value_from (0 * 10 + (b - ascii_zero)) s).
  rewrite (IH (acc * 10 + _)), (IH (0 * 10 + _)). cbn [length].
  rewrite Nat2Z.inj_succ, Z.pow_succ_r by lia. ring.
Qed.

Lemma decimal_digits_spec fuel n suffix :
  0 ≤ n < 10 ^ Z.of_nat fuel → (0 < fuel)%nat → Digits suffix →
  Digits (decimal_digits fuel n suffix) ∧ decimal_digits fuel n suffix ≠ [] ∧
  value_from 0 (decimal_digits fuel n suffix) = value_from n suffix.
Proof.
  revert n suffix. induction fuel as [|fuel IH]; intros n suffix Hn Hf Hs; [lia|].
  rewrite Nat2Z.inj_succ, Z.pow_succ_r in Hn by lia. cbn [decimal_digits].
  pose proof (Z.mod_pos_bound n 10) as Hm. pose proof (Z.div_mod n 10) as Hd.
  assert (Digits ((ascii_zero + n mod 10) :: suffix)) as Hs'.
  { apply Forall_cons. split; [lia|done]. }
  assert (∀ m, m = n / 10 → value_from m ((ascii_zero + n mod 10) :: suffix) = value_from n suffix) as Hv.
  { intros m ->. unfold value_from. simpl. f_equal. lia. }
  case_eq (n / 10 =? 0); intros Heq; [apply Z.eqb_eq in Heq|apply Z.eqb_neq in Heq].
  - split_and!; [done|done|]. by apply Hv.
  - assert (0 ≤ n / 10 < 10 ^ Z.of_nat fuel) as Hr.
    { split; [apply Z.div_pos; lia|]. apply Z.div_lt_upper_bound; lia. }
    destruct fuel as [|fuel]; [simpl in Hr; lia|].
    destruct (IH (n / 10) _ Hr ltac:(lia) Hs') as (? & ? & ->). split_and!; [done|done|by apply Hv].
Qed.

Lemma u64_to_string_spec n :
  is_u64 n → Digits (u64_to_string n) ∧ u64_to_string n ≠ [] ∧ value_from 0 (u64_to_string n) = n.
Proof.
  intros Hn. apply (decimal_digits_spec 20 n []); [|lia|done]. unfold is_u64, u64_MAX in Hn. simpl. lia.
Qed.

Lemma Digits_zeros k : Digits (replicate k ascii_zero).
Proof. apply Forall_replicate. unfold ascii_zero. lia. Qed.

Lemma zero_padded_spec n width :
  is_u64 n →
  Digits (zero_padded n width) ∧ (width ≤ length (zero_padded n width))%nat ∧
  value_from 0 (zero_padded n width) = n.
Proof.
  intros Hn. destruct (u64_to_string_spec n Hn) as (Hd & _ & Hv). unfold zero_padded. split_and!.
  - apply Forall_app. auto using Digits_zeros.
  - rewrite length_app, length_replicate. lia.
  - rewrite value_from_app. replace (value_from 0 (replicate _ _)) with 0; [done|].
    generalize (width - length (u64_to_string n))%nat. intros k. induction k; [done|by simpl].
Qed.

(** * Trimming and splitting *)

Lemma trim_end_matches_inv c s :
  ∃ k, s = trim_end_matches c s ++ replicate k c ∧ last (trim_end_matches c s) ≠ Some c.
Proof.
  unfold trim_end_matches. rewrite <-(reverse_involutive s).
  generalize (reverse s). clear s. intros s. rewrite reverse_involutive. induction s as [|b s IH]; simpl.
  - exists 0%nat. done.
  - destruct (Z.eqb_spec b c) as [->|Hne].
    + destruct IH as (k & IH & Hl). exists (S k). split; [|done].
      rewrite reverse_cons, replicate_S_end, app_assoc. by f_equal.
    + exists 0%nat. rewrite reverse_cons, app_nil_r, last_snoc. split; [done|congruence].
Qed.

Lemma trim_start_replicate c k s : head s ≠ Some c → trim_start_matches c (replicate k c ++ s) = s.
Proof.
  intros Hs. induction k as [|k IH]; simpl.
  - destruct s as [|b s]; [done|]. simpl in *. case_eq (b =? c); [|done]. rewrite Z.eqb_eq. congruence.
  - by rewrite Z.eqb_refl.
Qed.

Lemma trim_end_app c k s : last s ≠ Some c → trim_end_matches c (s ++ replicate k c) = s.
Proof.
  intros Hs. unfold trim_end_matches. rewrite reverse_app, reverse_replicate, trim_start_replicate.
  - by rewrite reverse_involutive.
  - by rewrite head_reverse.
Qed.

Lemma trim_end_id c s : last s ≠ Some c → trim_end_matches c s = s.
Proof. intros Hs. rewrite <-(app_nil_r s) at 1. by apply (trim_end_app c 0). Qed.

Lemma split_none c s : c ∉ s → split c s = (s, []).
Proof.
  induction s as [|b s IH]; intros Hc; [done|]. apply not_elem_of_cons in Hc as [? ?]. simpl.
  rewrite IH by done. by rewrite (proj2 (Z.eqb_neq _ _)).
Qed.

Lemma split_app c s t : c ∉ s → split c (s ++ c :: t) = (s, (split c t).1 :: (split c t).2).
Proof.
  induction s as [|b s IH]; intros Hc; simpl.
  - destruct (split c t). by rewrite Z.eqb_refl.
  - apply not_elem_of_cons in Hc as [? ?]. rewrite IH by done. by rewrite (proj2 (Z.eqb_neq _ _)).
Qed.

Lemma Digits_no_dot s : Digits s → ascii_dot ∉ s.
Proof. intros Hs Hin. rewrite Forall_forall in Hs. apply Hs in Hin. unfold ascii_dot, ascii_zero in Hin. lia. Qed.

Lemma last_Digits s b : Digits s → last s = Some b → b ≠ ascii_dot.
Proof.
  intros Hs Hl ->. apply (Digits_no_dot s Hs). apply last_Some in Hl as [l ->]. set_solver.
Qed.

(** * Reading what was written *)

(** What is parsed: [I] before the point, and [F] after it once trailing zeros are
    put back. *)
Lemma parse_parts I F G k n :
  Digits I → Digits F → I ≠ [] → F = G ++ replicate k ascii_zero → value_from 0 (I ++ F) = n → is_u64 n →
  parse_u64 ((I ++ trim_end_matches ascii_zero G) ++
    replicate (length F - length (trim_end_matches ascii_zero G)) ascii_zero) = Some n ∧
  (length (trim_end_matches ascii_zero G) ≤ length F)%nat.
Proof.
  intros HI HF Hne HG Hv Hn. destruct (trim_end_matches_inv ascii_zero G) as (j & Hj & _).
  set (F' := trim_end_matches _ _) in *.
  assert (F = F' ++ replicate (j + k) ascii_zero) as HF'.
  { by rewrite replicate_add, app_assoc, <-Hj. }
  pose proof (f_equal length HF') as Hlen. rewrite length_app, length_replicate in Hlen.
  replace (length F - length F')%nat with (j + k)%nat by lia. rewrite <-app_assoc, <-HF'. split; [|lia].
  rewrite parse_u64_value; [by rewrite Hv|by destruct I|by apply Forall_app|]. rewrite Hv. apply Hn.
Qed.

Lemma try_ui_amount_parts I F G k n :
  Digits I → Digits F → I ≠ [] → F = G ++ replicate k ascii_zero → value_from 0 (I ++ F) = n → is_u64 n →
  try_ui_amount_into_amount (I ++ ascii_dot :: G) (Z.of_nat (length F)) = Ok n ∧
  (G = [] → try_ui_amount_into_amount I (Z.of_nat (length F)) = Ok n).
Proof.
  intros HI HF Hne HG Hv Hn. destruct (parse_parts I F G k n) as [Hp Hle]; [done..|].
  assert (Digits G) as HdG by (by rewrite HG in HF; apply Forall_app in HF as [? _]).
  unfold try_ui_amount_into_amount. rewrite Nat2Z.id, split_app, (split_none _ G), (split_none _ I) by (by apply Digits_no_dot).
  cbn [head default from_option id fst snd tail]. rewrite (bool_decide_eq_false_2 (I = [])) by done. cbn [andb orb].
  rewrite (bool_decide_eq_true_2 ([] = [])) by done. cbn [negb orb]. split; [|intros ->];
    rewrite (proj2 (Nat.ltb_ge _ _)) by done; by rewrite Hp.
Qed.

Lemma ui_amount_string_parts n d :
  is_u64 n → 0 < d →
  ∃ I F, amount_to_ui_amount_string n d = I ++ ascii_dot :: F ∧ Digits I ∧ Digits F ∧ I ≠ [] ∧
    value_from 0 (I ++ F) = n ∧ Z.of_nat (length F) = d ∧ I ++ F = zero_padded n (Z.to_nat d + 1).
Proof.
  intros Hn Hd. destruct (zero_padded_spec n (Z.to_nat d + 1) Hn) as (Hs & Hl & Hv).
  unfold amount_to_ui_amount_string. rewrite (proj2 (Nat.ltb_lt _ _)) by lia.
  set (s := zero_padded _ _) in *. set (point := (length s - Z.to_nat d)%nat).
  exists (take point s), (drop point s). rewrite take_drop. split_and!; try done.
  - by apply Forall_take.
  - by apply Forall_drop.
  - intros Hnil%(f_equal length). rewrite length_take in Hnil. simpl in Hnil. lia.
  - rewrite length_drop. lia.
Qed.

(** The trimmed string leaves out the zeros at the end, and then the point. *)
Lemma trimmed_parts I F :
  Digits I → Digits F → I ≠ [] →
  ∃ G k, F = G ++ replicate k ascii_zero ∧
    trim_end_matches ascii_dot (trim_end_matches ascii_zero (I ++ ascii_dot :: F)) =
      if decide (G = []) then I else I ++ ascii_dot :: G.
Proof.
  intros HI HF Hne. destruct (trim_end_matches_inv ascii_zero F) as (k & HFk & Hlast).
  set (G := trim_end_matches _ _) in *. exists G, k. split; [done|].
  assert (Digits G) as HG by (by rewrite HFk in HF; apply Forall_app in HF as [? _]).
  rewrite HFk, app_comm_cons, app_assoc, trim_end_app.
  - destruct (decide (G = [])) as [->|HneG].
    + apply (trim_end_app ascii_dot 1). intros Hl. by eapply (last_Digits I).
    + apply trim_end_id. rewrite last_app, last_cons. destruct (last G) as [b|] eqn:Hb.
      * intros [= ->]. by eapply (last_Digits G).
      * by apply last_None in Hb.
  - rewrite last_app, last_cons. by destruct (last G).
Qed.

Lemma try_ui_amount_no_decimals n : is_u64 n → try_ui_amount_into_amount (u64_to_string n) 0 = Ok n.
Proof.
  intros Hn. destruct (u64_to_string_spec n Hn) as (Hd & Hne & Hv). rewrite <-(app_nil_r (u64_to_string n)) in Hv.
  by apply (try_ui_amount_parts (u64_to_string n) [] [] 0).
Qed.

(** Both ways of writing an amount are read back. *)
Lemma ui_amount_read_back n d :
  is_u64 n → 0 ≤ d →
  try_ui_amount_into_amount (amount_to_ui_amount_string n d) d = Ok n ∧
  try_ui_amount_into_amount (amount_to_ui_amount_string_trimmed n d) d = Ok n.
Proof.
  intros Hn Hd. unfold amount_to_ui_amount_string_trimmed. case_eq (0 <? d); intros Hlt.
  - apply Z.ltb_lt in Hlt. destruct (ui_amount_string_parts n d Hn Hlt) as (I & F & -> & HI & HF & Hne & Hv & <- & _).
    split; [by apply (try_ui_amount_parts I F F 0); [..|by rewrite app_nil_r| |]|].
    destruct (trimmed_parts I F HI HF Hne) as (G & k & HFk & ->).
    destruct (try_ui_amount_parts I F G k n) as [Hp1 Hp2]; [done..|].
    destruct (decide (G = [])); auto.
  - apply Z.ltb_ge in Hlt. replace d with 0 by lia. split; by apply try_ui_amount_no_decimals.
Qed.
