(* ===== verification/TokenProcessor.v ===== *)
(** The token program, [spl-token/program/src/processor.rs]: the handler of every
    instruction, on the accounts in the memory of the program. *)

From Stdlib Require Import Strings.String.
From S2P Require Import Prelude Bytes TransactionContext TokenState TokenInstruction.
From S2P Require Import TokenAmount.

(** An [AccountInfo] is the account of an instruction; its lamports, data and owner
    are in the memory of the program, where the infos of one account share them. *)
Abbreviation AccountInfo := InstructionAccount.

Record State := {
  mem : gmap Pubkey AccountSharedData;
  return_data : list Z;
}.

(** Crates outside the repository. *)
Class TokenSdk := {
  sdk_pack :: PackApi;
  next_account_info (iter : list AccountInfo) : result (AccountInfo * list AccountInfo) ProgramError;
  Rent : Type;
  Rent_from_account_info (key : Pubkey) (data : list Z) : result Rent ProgramError;
  Rent_get : result Rent ProgramError;
  is_exempt : Rent → Z → nat → bool;
  minimum_balance : Rent → nat → Z;
  realloc (data : list Z) (new_len : nat) (zero_init : bool) : result (list Z) ProgramError;
  declare_id : string → Pubkey;
  system_program_id : Pubkey;
  incinerator_id : Pubkey;
}.

Class TokenSdkLaws `{TokenSdk} := {
  laws_pack :: PackLaws;
  next_account_info_spec iter :
    next_account_info iter =
      match iter with info :: iter => Ok (info, iter) | [] => Err NotEnoughAccountKeys end;
  is_exempt_spec rent lamports len : is_exempt rent lamports len = (minimum_balance rent len <=? lamports);
  minimum_balance_u64 rent len : is_u64 (minimum_balance rent len);
  realloc_to_empty data zero_init : realloc data 0 zero_init = Ok [];
  declare_id_key id : is_key (declare_id id);
  system_program_id_spec : system_program_id = 0;
  incinerator_id_key : is_key incinerator_id;
}.

(** * Reading and writing accounts *)

Section access.
Implicit Types (s : State) (info : AccountInfo).

Definition info_account s info : AccountSharedData := account_at (mem s) (key info).
Definition lamports s info : Z := acc_lamports (info_account s info).
Definition data s info : list Z := acc_data (info_account s info).
Definition data_len s info : nat := length (data s info).
Definition info_owner s info : Pubkey := acc_owner (info_account s info).

Definition update_mem (f : AccountSharedData → AccountSharedData) info s : State :=
  {| mem := <[key info := f (info_account s info)]> (mem s); return_data := return_data s |}.
Definition set_lamports info (n : Z) s : State := update_mem (set_acc_lamports n) info s.
Definition set_data info (d : list Z) s : State := update_mem (set_acc_data d) info s.
Definition assign info (owner : Pubkey) s : State := update_mem (set_acc_owner owner) info s.
Definition set_return_data (d : list Z) s : State := {| mem := mem s; return_data := d |}.

End access.

(** [if b { return Err(e) }]. *)
Definition fail_if (b : bool) (e : ProgramError) : outcome (result unit ProgramError) :=
  Ret (if b then Err e else Ok tt).

(** [o.ok_or(e)?]. *)
Definition ok_or {A} (o : option A) (e : ProgramError) : outcome (result A ProgramError) :=
  Ret (match o with Some a => Ok a | None => Err e end).

(** [r.map_err(|_| e)]. *)
Definition map_err {A} (r : result A ProgramError) (e : ProgramError) : result A ProgramError :=
  match r with Ok a => Ok a | Err _ => Err e end.

Definition cmp_pubkeys (a b : Pubkey) : bool := a =? b.

Section processor.
Context `{TokenSdk} (program_id : Pubkey).

Definition native_mint_id : Pubkey := declare_id "So11111111111111111111111111111111111111112"%string.

Definition is_owned_by_system_program_or_incinerator (a : Account) : bool :=
  (owner a =? system_program_id) || (owner a =? incinerator_id).

Definition check_account_owner (info : AccountInfo) (s : State) : outcome (result unit ProgramError) :=
  fail_if (negb (cmp_pubkeys program_id (info_owner s info))) IncorrectProgramId.

(** The signers of a multisignature that signed: every position counts once. *)
Fixpoint match_positions (signer : AccountInfo) (position : nat) (keys : list Pubkey)
    (matched : list bool) (num_signers : Z) : result (list bool * Z) ProgramError :=
  match keys with
  | [] => Ok (matched, num_signers)
  | k :: keys =>
      if cmp_pubkeys k (key signer) && negb (default false (matched !! position)) then
        if negb (is_signer signer) then Err MissingRequiredSignature
        else match_positions signer (S position) keys (<[position := true]> matched) (num_signers + 1)
      else match_positions signer (S position) keys matched num_signers
  end.

Fixpoint match_signers (multisig : Multisig) (infos : list AccountInfo) (matched : list bool)
    (num_signers : Z) : outcome (result Z ProgramError) :=
  match infos with
  | [] => Ret (Ok num_signers)
  | signer :: infos =>
      assert_ (multisig_n multisig <=? Z.of_nat (length (signers multisig))) ;;
      '(matched, num_signers) ←?
        Ret (match_positions signer 0 (take (Z.to_nat (multisig_n multisig)) (signers multisig))
               matched num_signers);
      match_signers multisig infos matched num_signers
  end.

Definition validate_owner (expected_owner : Pubkey) (owner_account_info : AccountInfo)
    (infos : list AccountInfo) (s : State) : outcome (result unit ProgramError) :=
  '_ ←? fail_if (negb (cmp_pubkeys expected_owner (key owner_account_info))) OwnerMismatch;
  if cmp_pubkeys program_id (info_owner s owner_account_info)
     && (data_len s owner_account_info =? Multisig_LEN)%nat
  then
    multisig ←? Ret (Multisig_unpack (data s owner_account_info));
    num_signers ←? match_signers multisig infos (replicate MAX_SIGNERS false) 0;
    fail_if (num_signers <? multisig_m multisig) MissingRequiredSignature
  else fail_if (negb (is_signer owner_account_info)) MissingRequiredSignature.

(** On chain. *)
Definition delete_account (info : AccountInfo) (s : State) : outcome (result State ProgramError) :=
  let s := assign info system_program_id s in
  d ←? Ret (realloc (data s info) 0 false);
  Ret (Ok (set_data info d s)).

Definition read_rent (rent_sysvar_account : bool) (iter : list AccountInfo) (s : State)
    : outcome (result (Rent * list AccountInfo) ProgramError) :=
  if rent_sysvar_account then
    '(rent_info, iter) ←? Ret (next_account_info iter);
    rent ←? Ret (Rent_from_account_info (key rent_info) (data s rent_info));
    Ret (Ok (rent, iter))
  else
    rent ←? Ret Rent_get;
    Ret (Ok (rent, iter)).

(** * Handlers *)

Definition _process_initialize_mint (accounts : list AccountInfo) (decimals : Z) (mint_authority : Pubkey)
    (freeze_authority : option Pubkey) (rent_sysvar_account : bool) (s : State)
    : outcome (result State ProgramError) :=
  '(mint_info, iter) ←? Ret (next_account_info accounts);
  let mint_data_len := data_len s mint_info in
  '(rent, _) ←? read_rent rent_sysvar_account iter s;
  mint ←? Ret (Mint_unpack_unchecked (data s mint_info));
  '_ ←? fail_if (mint_is_initialized mint) AlreadyInUse;
  '_ ←? fail_if (negb (is_exempt rent (lamports s mint_info) mint_data_len)) NotRentExempt;
  let mint := {| mint_authority := Some mint_authority; supply := supply mint; decimals := decimals;
                 mint_is_initialized := true; freeze_authority := freeze_authority |} in
  d ←? Ret (Mint_pack mint (data s mint_info));
  Ret (Ok (set_data mint_info d s)).

Definition process_initialize_mint accounts decimals mint_authority freeze_authority :=
  _process_initialize_mint accounts decimals mint_authority freeze_authority true.
Definition process_initialize_mint2 accounts decimals mint_authority freeze_authority :=
  _process_initialize_mint accounts decimals mint_authority freeze_authority false.

Definition _process_initialize_account (accounts : list AccountInfo) (owner : option Pubkey)
    (rent_sysvar_account : bool) (s : State) : outcome (result State ProgramError) :=
  '(new_account_info, iter) ←? Ret (next_account_info accounts);
  '(mint_info, iter) ←? Ret (next_account_info iter);
  '(owner, iter) ←? match owner with
                   | Some owner => Ret (Ok (owner, iter))
                   | None =>
                       '(owner_info, iter) ←? Ret (next_account_info iter);
                       Ret (Ok (key owner_info, iter))
                   end;
  let new_account_info_data_len := data_len s new_account_info in
  '(rent, _) ←? read_rent rent_sysvar_account iter s;
  account ←? Ret (Account_unpack_unchecked (data s new_account_info));
  '_ ←? fail_if (account_is_initialized account) AlreadyInUse;
  '_ ←? fail_if (negb (is_exempt rent (lamports s new_account_info) new_account_info_data_len)) NotRentExempt;
  let is_native_mint := cmp_pubkeys (key mint_info) native_mint_id in
  '_ ←? (if negb is_native_mint then
           '_ ←? check_account_owner mint_info s;
           '_ ←? Ret (map_err (Mint_unpack (data s mint_info)) InvalidMint);
           Ret (Ok tt)
         else Ret (Ok tt));
  '(is_native, amount) ←?
    (if is_native_mint then
       let rent_exempt_reserve := minimum_balance rent new_account_info_data_len in
       amount ←? ok_or (checked_sub (lamports s new_account_info) rent_exempt_reserve) Overflow;
       Ret (Ok (Some rent_exempt_reserve, amount))
     else Ret (Ok (None, 0)));
  let account := {| mint := key mint_info; TokenState.owner := owner; amount := amount; delegate := None;
                    state := Initialized; is_native_reserve := is_native; delegated_amount := 0;
                    close_authority := None |} in
  d ←? Ret (Account_pack account (data s new_account_info));
  Ret (Ok (set_data new_account_info d s)).

Definition process_initialize_account accounts := _process_initialize_account accounts None true.
Definition process_initialize_account2 accounts owner := _process_initialize_account accounts (Some owner) true.
Definition process_initialize_account3 accounts owner := _process_initialize_account accounts (Some owner) false.

(** [for (i, signer_info) in signer_infos.iter().enumerate() { multisig.signers[i] = .. }]. *)
Fixpoint set_signers (i : nat) (infos : list AccountInfo) (keys : list Pubkey) : outcome (list Pubkey) :=
  match infos with
  | [] => Ret keys
  | info :: infos =>
      assert_ (i <? length keys)%nat ;;
      set_signers (S i) infos (<[i := key info]> keys)
  end.

Definition _process_initialize_multisig (accounts : list AccountInfo) (m : Z) (rent_sysvar_account : bool)
    (s : State) : outcome (result State ProgramError) :=
  '(multisig_info, iter) ←? Ret (next_account_info accounts);
  let multisig_info_data_len := data_len s multisig_info in
  '(rent, signer_infos) ←? read_rent rent_sysvar_account iter s;
  multisig ←? Ret (Multisig_unpack_unchecked (data s multisig_info));
  '_ ←? fail_if (multisig_is_initialized multisig) AlreadyInUse;
  '_ ←? fail_if (negb (is_exempt rent (lamports s multisig_info) multisig_info_data_len)) NotRentExempt;
  let n := Z.of_nat (length signer_infos) mod 256 in
  '_ ←? fail_if (negb (is_valid_signer_index n)) InvalidNumberOfProvidedSigners;
  '_ ←? fail_if (negb (is_valid_signer_index m)) InvalidNumberOfRequiredSigners;
  keys ← set_signers 0 signer_infos (signers multisig);
  let multisig := {| multisig_m := m; multisig_n := n; multisig_is_initialized := true; signers := keys |} in
  d ←? Ret (Multisig_pack multisig (data s multisig_info));
  Ret (Ok (set_data multisig_info d s)).

Definition process_initialize_multisig accounts m := _process_initialize_multisig accounts m true.
Definition process_initialize_multisig2 accounts m := _process_initialize_multisig accounts m false.

(** The accounts that a checked instruction has: the mint comes with the decimals
    it is expected to have. *)
Definition next_mint (expected_decimals : option Z) (iter : list AccountInfo)
    : outcome (result (option (AccountInfo * Z) * list AccountInfo) ProgramError) :=
  match expected_decimals with
  | Some expected_decimals =>
      '(mint_info, iter) ←? Ret (next_account_info iter);
      Ret (Ok (Some (mint_info, expected_decimals), iter))
  | None => Ret (Ok (None, iter))
  end.

(** [if let Some((mint_info, expected_decimals)) = expected_mint_info { .. }]. *)
Definition check_mint_info (expected_mint_info : option (AccountInfo * Z)) (source_account : Account) (s : State)
    : outcome (result unit ProgramError) :=
  match expected_mint_info with
  | Some (mint_info, expected_decimals) =>
      '_ ←? fail_if (negb (cmp_pubkeys (key mint_info) (mint source_account))) MintMismatch;
      mint ←? Ret (Mint_unpack (data s mint_info));
      fail_if (negb (expected_decimals =? decimals mint)) MintDecimalsMismatch
  | None => Ret (Ok tt)
  end.

(** [if let Some(expected_decimals) = expected_decimals { .. }]. *)
Definition check_decimals (expected_decimals : option Z) (mint : Mint) : outcome (result unit ProgramError) :=
  match expected_decimals with
  | Some expected_decimals => fail_if (negb (expected_decimals =? decimals mint)) MintDecimalsMismatch
  | None => Ret (Ok tt)
  end.

(** [COption::Some(ref delegate) if cmp_pubkeys(authority_info.key, delegate)]: the
    delegate is the authority. *)
Definition is_delegate (a : Account) (authority_info : AccountInfo) : bool :=
  match delegate a with
  | Some delegate => cmp_pubkeys (key authority_info) delegate
  | None => false
  end.

(** The delegate spends [amount]. *)
Definition spend_delegated (amount : Z) (a : Account) : outcome (result Account ProgramError) :=
  delegated_amount ←? ok_or (checked_sub (delegated_amount a) amount) Overflow;
  let a := with_delegated_amount delegated_amount a in
  Ret (Ok (if delegated_amount =? 0 then with_delegate None a else a)).

Definition process_transfer (accounts : list AccountInfo) (amount : Z) (expected_decimals : option Z)
    (s : State) : outcome (result State ProgramError) :=
  '(source_account_info, iter) ←? Ret (next_account_info accounts);
  '(expected_mint_info, iter) ←? next_mint expected_decimals iter;
  '(destination_account_info, iter) ←? Ret (next_account_info iter);
  '(authority_info, iter) ←? Ret (next_account_info iter);
  source_account ←? Ret (Account_unpack (data s source_account_info));
  destination_account ←? Ret (Account_unpack (data s destination_account_info));
  '_ ←? fail_if (is_frozen source_account || is_frozen destination_account) AccountFrozen;
  '_ ←? fail_if (TokenState.amount source_account <? amount) InsufficientFunds;
  '_ ←? fail_if (negb (cmp_pubkeys (mint source_account) (mint destination_account))) MintMismatch;
  '_ ←? check_mint_info expected_mint_info source_account s;
  let self_transfer := cmp_pubkeys (key source_account_info) (key destination_account_info) in
  source_account ←?
    (if is_delegate source_account authority_info then
       '_ ←? validate_owner (key authority_info) authority_info iter s;
       '_ ←? fail_if (delegated_amount source_account <? amount) InsufficientFunds;
       if negb self_transfer then spend_delegated amount source_account else Ret (Ok source_account)
     else
       '_ ←? validate_owner (owner source_account) authority_info iter s;
       Ret (Ok source_account));
  '_ ←? (if self_transfer || (amount =? 0) then
           '_ ←? check_account_owner source_account_info s;
           check_account_owner destination_account_info s
         else Ret (Ok tt));
  if self_transfer then Ret (Ok s)
  else
    source_amount ←? ok_or (checked_sub (TokenState.amount source_account) amount) Overflow;
    let source_account := with_amount source_amount source_account in
    destination_amount ←? ok_or (checked_add u64_MAX (TokenState.amount destination_account) amount) Overflow;
    let destination_account := with_amount destination_amount destination_account in
    s ←? (if is_native source_account then
            source_lamports ←? ok_or (checked_sub (lamports s source_account_info) amount) Overflow;
            let s := set_lamports source_account_info source_lamports s in
            destination_lamports ←?
              ok_or (checked_add u64_MAX (lamports s destination_account_info) amount) Overflow;
            Ret (Ok (set_lamports destination_account_info destination_lamports s))
          else Ret (Ok s));
    d ←? Ret (Account_pack source_account (data s source_account_info));
    let s := set_data source_account_info d s in
    d ←? Ret (Account_pack destination_account (data s destination_account_info));
    Ret (Ok (set_data destination_account_info d s)).

Definition process_approve (accounts : list AccountInfo) (amount : Z) (expected_decimals : option Z)
    (s : State) : outcome (result State ProgramError) :=
  '(source_account_info, iter) ←? Ret (next_account_info accounts);
  '(expected_mint_info, iter) ←? next_mint expected_decimals iter;
  '(delegate_info, iter) ←? Ret (next_account_info iter);
  '(owner_info, iter) ←? Ret (next_account_info iter);
  source_account ←? Ret (Account_unpack (data s source_account_info));
  '_ ←? fail_if (is_frozen source_account) AccountFrozen;
  '_ ←? check_mint_info expected_mint_info source_account s;
  '_ ←? validate_owner (owner source_account) owner_info iter s;
  let source_account := with_delegated_amount amount (with_delegate (Some (key delegate_info)) source_account) in
  d ←? Ret (Account_pack source_account (data s source_account_info));
  Ret (Ok (set_data source_account_info d s)).

Definition process_revoke (accounts : list AccountInfo) (s : State) : outcome (result State ProgramError) :=
  '(source_account_info, iter) ←? Ret (next_account_info accounts);
  source_account ←? Ret (Account_unpack (data s source_account_info));
  '(owner_info, iter) ←? Ret (next_account_info iter);
  '_ ←? fail_if (is_frozen source_account) AccountFrozen;
  '_ ←? validate_owner (owner source_account) owner_info iter s;
  let source_account := with_delegated_amount 0 (with_delegate None source_account) in
  d ←? Ret (Account_pack source_account (data s source_account_info));
  Ret (Ok (set_data source_account_info d s)).

Definition set_account_authority (authority_type : AuthorityType) (new_authority : option Pubkey)
    (account : Account) (authority_info : AccountInfo) (iter : list AccountInfo) (s : State)
    : outcome (result Account ProgramError) :=
  match authority_type with
  | AccountOwner =>
      '_ ←? validate_owner (owner account) authority_info iter s;
      match new_authority with
      | Some authority =>
          let account := with_delegated_amount 0 (with_delegate None (with_owner authority account)) in
          Ret (Ok (if is_native account then with_close_authority None account else account))
      | None => Ret (TokenErr InvalidInstruction)
      end
  | CloseAccountAuthority =>
      let authority := default (owner account) (close_authority account) in
      '_ ←? validate_owner authority authority_info iter s;
      Ret (Ok (with_close_authority new_authority account))
  | _ => Ret (TokenErr AuthorityTypeNotSupported)
  end.

Definition set_mint_authority (authority_type : AuthorityType) (new_authority : option Pubkey)
    (mint : Mint) (authority_info : AccountInfo) (iter : list AccountInfo) (s : State)
    : outcome (result Mint ProgramError) :=
  match authority_type with
  | MintTokens =>
      authority ←? ok_or (mint_authority mint) FixedSupply;
      '_ ←? validate_owner authority authority_info iter s;
      Ret (Ok (with_mint_authority new_authority mint))
  | FreezeAccountAuthority =>
      authority ←? ok_or (freeze_authority mint) MintCannotFreeze;
      '_ ←? validate_owner authority authority_info iter s;
      Ret (Ok (with_freeze_authority new_authority mint))
  | _ => Ret (TokenErr AuthorityTypeNotSupported)
  end.

Definition process_set_authority (accounts : list AccountInfo) (authority_type : AuthorityType)
    (new_authority : option Pubkey) (s : State) : outcome (result State ProgramError) :=
  '(account_info, iter) ←? Ret (next_account_info accounts);
  '(authority_info, iter) ←? Ret (next_account_info iter);
  if (data_len s account_info =? Account_LEN)%nat then
    account ←? Ret (Account_unpack (data s account_info));
    '_ ←? fail_if (is_frozen account) AccountFrozen;
    account ←? set_account_authority authority_type new_authority account authority_info iter s;
    d ←? Ret (Account_pack account (data s account_info));
    Ret (Ok (set_data account_info d s))
  else if (data_len s account_info =? Mint_LEN)%nat then
    mint ←? Ret (Mint_unpack (data s account_info));
    mint ←? set_mint_authority authority_type new_authority mint authority_info iter s;
    d ←? Ret (Mint_pack mint (data s account_info));
    Ret (Ok (set_data account_info d s))
  else Ret (Err InvalidArgument).

Definition process_mint_to (accounts : list AccountInfo) (amount : Z) (expected_decimals : option Z)
    (s : State) : outcome (result State ProgramError) :=
  '(mint_info, iter) ←? Ret (next_account_info accounts);
  '(destination_account_info, iter) ←? Ret (next_account_info iter);
  '(owner_info, iter) ←? Ret (next_account_info iter);
  destination_account ←? Ret (Account_unpack (data s destination_account_info));
  '_ ←? fail_if (is_frozen destination_account) AccountFrozen;
  '_ ←? fail_if (is_native destination_account) NativeNotSupported;
  '_ ←? fail_if (negb (cmp_pubkeys (key mint_info) (TokenState.mint destination_account))) MintMismatch;
  mint ←? Ret (Mint_unpack (data s mint_info));
  '_ ←? check_decimals expected_decimals mint;
  '_ ←? match mint_authority mint with
        | Some mint_authority => validate_owner mint_authority owner_info iter s
        | None => Ret (TokenErr FixedSupply)
        end;
  '_ ←? (if amount =? 0 then
           '_ ←? check_account_owner mint_info s;
           check_account_owner destination_account_info s
         else Ret (Ok tt));
  destination_amount ←? ok_or (checked_add u64_MAX (TokenState.amount destination_account) amount) Overflow;
  let destination_account := with_amount destination_amount destination_account in
  supply ←? ok_or (checked_add u64_MAX (supply mint) amount) Overflow;
  let mint := with_supply supply mint in
  d ←? Ret (Account_pack destination_account (data s destination_account_info));
  let s := set_data destination_account_info d s in
  d ←? Ret (Mint_pack mint (data s mint_info));
  Ret (Ok (set_data mint_info d s)).

Definition process_burn (accounts : list AccountInfo) (amount : Z) (expected_decimals : option Z)
    (s : State) : outcome (result State ProgramError) :=
  '(source_account_info, iter) ←? Ret (next_account_info accounts);
  '(mint_info, iter) ←? Ret (next_account_info iter);
  '(authority_info, iter) ←? Ret (next_account_info iter);
  source_account ←? Ret (Account_unpack (data s source_account_info));
  mint ←? Ret (Mint_unpack (data s mint_info));
  '_ ←? fail_if (is_frozen source_account) AccountFrozen;
  '_ ←? fail_if (is_native source_account) NativeNotSupported;
  '_ ←? fail_if (TokenState.amount source_account <? amount) InsufficientFunds;
  '_ ←? fail_if (negb (cmp_pubkeys (key mint_info) (TokenState.mint source_account))) MintMismatch;
  '_ ←? check_decimals expected_decimals mint;
  source_account ←?
    (if negb (is_owned_by_system_program_or_incinerator source_account) then
       if is_delegate source_account authority_info then
         '_ ←? validate_owner (key authority_info) authority_info iter s;
         '_ ←? fail_if (delegated_amount source_account <? amount) InsufficientFunds;
         spend_delegated amount source_account
       else
         '_ ←? validate_owner (owner source_account) authority_info iter s;
         Ret (Ok source_account)
     else Ret (Ok source_account));
  '_ ←? (if amount =? 0 then
           '_ ←? check_account_owner source_account_info s;
           check_account_owner mint_info s
         else Ret (Ok tt));
  source_amount ←? ok_or (checked_sub (TokenState.amount source_account) amount) Overflow;
  let source_account := with_amount source_amount source_account in
  supply ←? ok_or (checked_sub (supply mint) amount) Overflow;
  let mint := with_supply supply mint in
  d ←? Ret (Account_pack source_account (data s source_account_info));
  let s := set_data source_account_info d s in
  d ←? Ret (Mint_pack mint (data s mint_info));
  Ret (Ok (set_data mint_info d s)).

Definition process_close_account (accounts : list AccountInfo) (s : State)
    : outcome (result State ProgramError) :=
  '(source_account_info, iter) ←? Ret (next_account_info accounts);
  '(destination_account_info, iter) ←? Ret (next_account_info iter);
  '(authority_info, iter) ←? Ret (next_account_info iter);
  '_ ←? fail_if (cmp_pubkeys (key source_account_info) (key destination_account_info)) InvalidAccountData;
  source_account ←? Ret (Account_unpack (data s source_account_info));
  '_ ←? fail_if (negb (is_native source_account) && negb (TokenState.amount source_account =? 0))
          NonNativeHasBalance;
  let authority := default (owner source_account) (close_authority source_account) in
  '_ ←? (if negb (is_owned_by_system_program_or_incinerator source_account)
         then validate_owner authority authority_info iter s
         else fail_if (negb (key destination_account_info =? incinerator_id)) InvalidAccountData);
  destination_lamports ←?
    ok_or (checked_add u64_MAX (lamports s destination_account_info) (lamports s source_account_info)) Overflow;
  let s := set_lamports destination_account_info destination_lamports s in
  let s := set_lamports source_account_info 0 s in
  delete_account source_account_info s.

Definition process_toggle_freeze_account (accounts : list AccountInfo) (freeze : bool) (s : State)
    : outcome (result State ProgramError) :=
  '(source_account_info, iter) ←? Ret (next_account_info accounts);
  '(mint_info, iter) ←? Ret (next_account_info iter);
  '(authority_info, iter) ←? Ret (next_account_info iter);
  source_account ←? Ret (Account_unpack (data s source_account_info));
  '_ ←? fail_if (freeze && is_frozen source_account || negb freeze && negb (is_frozen source_account))
          InvalidState;
  '_ ←? fail_if (is_native source_account) NativeNotSupported;
  '_ ←? fail_if (negb (cmp_pubkeys (key mint_info) (TokenState.mint source_account))) MintMismatch;
  mint ←? Ret (Mint_unpack (data s mint_info));
  '_ ←? match freeze_authority mint with
        | Some authority => validate_owner authority authority_info iter s
        | None => Ret (TokenErr MintCannotFreeze)
        end;
  let source_account := with_state (if freeze then Frozen else Initialized) source_account in
  d ←? Ret (Account_pack source_account (data s source_account_info));
  Ret (Ok (set_data source_account_info d s)).

Definition process_sync_native (accounts : list AccountInfo) (s : State) : outcome (result State ProgramError) :=
  '(native_account_info, _) ←? Ret (next_account_info accounts);
  '_ ←? check_account_owner native_account_info s;
  native_account ←? Ret (Account_unpack (data s native_account_info));
  match is_native_reserve native_account with
  | Some rent_exempt_reserve =>
      new_amount ←? ok_or (checked_sub (lamports s native_account_info) rent_exempt_reserve) Overflow;
      '_ ←? fail_if (new_amount <? TokenState.amount native_account) InvalidState;
      d ←? Ret (Account_pack (with_amount new_amount native_account) (data s native_account_info));
      Ret (Ok (set_data native_account_info d s))
  | None => Ret (TokenErr NonNativeNotSupported)
  end.

Definition process_get_account_data_size (accounts : list AccountInfo) (s : State)
    : outcome (result State ProgramError) :=
  '(mint_info, _) ←? Ret (next_account_info accounts);
  '_ ←? check_account_owner mint_info s;
  '_ ←? Ret (map_err (Mint_unpack (data s mint_info)) InvalidMint);
  Ret (Ok (set_return_data (to_le_bytes 8 (Z.of_nat Account_LEN)) s)).

Definition process_initialize_immutable_owner (accounts : list AccountInfo) (s : State)
    : outcome (result State ProgramError) :=
  '(token_account_info, _) ←? Ret (next_account_info accounts);
  account ←? Ret (Account_unpack_unchecked (data s token_account_info));
  '_ ←? fail_if (account_is_initialized account) AlreadyInUse;
  Ret (Ok s).

Definition process_amount_to_ui_amount (accounts : list AccountInfo) (amount : Z) (s : State)
    : outcome (result State ProgramError) :=
  '(mint_info, _) ←? Ret (next_account_info accounts);
  '_ ←? check_account_owner mint_info s;
  mint ←? Ret (map_err (Mint_unpack (data s mint_info)) InvalidMint);
  let ui_amount := amount_to_ui_amount_string_trimmed amount (decimals mint) in
  Ret (Ok (set_return_data ui_amount s)).

Definition process_ui_amount_to_amount (accounts : list AccountInfo) (ui_amount : list Z) (s : State)
    : outcome (result State ProgramError) :=
  '(mint_info, _) ←? Ret (next_account_info accounts);
  '_ ←? check_account_owner mint_info s;
  mint ←? Ret (map_err (Mint_unpack (data s mint_info)) InvalidMint);
  amount ←? Ret (try_ui_amount_into_amount ui_amount (decimals mint));
  Ret (Ok (set_return_data (to_le_bytes 8 amount) s)).

(** [match instruction { .. }] in [process]. *)
Definition dispatch (accounts : list AccountInfo) (instruction : TokenInstruction)
    : State → outcome (result State ProgramError) :=
  match instruction with
  | InitializeMint decimals mint_authority freeze_authority =>
      process_initialize_mint accounts decimals mint_authority freeze_authority
  | InitializeMint2 decimals mint_authority freeze_authority =>
      process_initialize_mint2 accounts decimals mint_authority freeze_authority
  | InitializeAccount => process_initialize_account accounts
  | InitializeAccount2 owner => process_initialize_account2 accounts owner
  | InitializeAccount3 owner => process_initialize_account3 accounts owner
  | InitializeMultisig m => process_initialize_multisig accounts m
  | InitializeMultisig2 m => process_initialize_multisig2 accounts m
  | Transfer amount => process_transfer accounts amount None
  | Approve amount => process_approve accounts amount None
  | Revoke => process_revoke accounts
  | SetAuthority authority_type new_authority => process_set_authority accounts authority_type new_authority
  | MintTo amount => process_mint_to accounts amount None
  | Burn amount => process_burn accounts amount None
  | CloseAccount => process_close_account accounts
  | FreezeAccount => process_toggle_freeze_account accounts true
  | ThawAccount => process_toggle_freeze_account accounts false
  | TransferChecked amount decimals => process_transfer accounts amount (Some decimals)
  | ApproveChecked amount decimals => process_approve accounts amount (Some decimals)
  | MintToChecked amount decimals => process_mint_to accounts amount (Some decimals)
  | BurnChecked amount decimals => process_burn accounts amount (Some decimals)
  | SyncNative => process_sync_native accounts
  | GetAccountDataSize => process_get_account_data_size accounts
  | InitializeImmutableOwner => process_initialize_immutable_owner accounts
  | AmountToUiAmount amount => process_amount_to_ui_amount accounts amount
  | UiAmountToAmount ui_amount => process_ui_amount_to_amount accounts ui_amount
  end.

Definition process (accounts : list AccountInfo) (input : list Z) (s : State)
    : outcome (result State ProgramError) :=
  instruction ←? Ret (Instr.unpack input);
  dispatch accounts instruction s.

End processor.
