(* ===== verification/TokenSpec.v ===== *)
(** What the token program promises: the effects an instruction can have, in terms of
    the mints and token accounts that the data of the accounts hold. *)

From S2P Require Import Prelude Bytes TransactionContext TokenState TokenStateProps.
From S2P Require Import TokenInstruction TokenAmount TokenProcessor.

(** The data holds a mint, a token account, a multisignature. *)
Definition holds_mint (d : list Z) (m : Mint) : Prop :=
  length d = Mint_LEN ∧ MintPack.unpack_from_slice d = Ok m.
Definition holds_account (d : list Z) (a : Account) : Prop :=
  length d = Account_LEN ∧ AccountPack.unpack_from_slice d = Ok a.
Definition holds_multisig (d : list Z) (m : Multisig) : Prop :=
  length d = Multisig_LEN ∧ MultisigPack.unpack_from_slice d = Ok m.

Definition write_mint (info : AccountInfo) (m : Mint) (s : State) : State :=
  set_data info (MintPack.pack_into_slice m (data s info)) s.
Definition write_account (info : AccountInfo) (a : Account) (s : State) : State :=
  set_data info (AccountPack.pack_into_slice a (data s info)) s.
Definition write_multisig (info : AccountInfo) (m : Multisig) (s : State) : State :=
  set_data info (MultisigPack.pack_into_slice m (data s info)) s.

(** Lamports move along with native tokens. *)
Definition move_lamports (source destination : AccountInfo) (amount : Z) (s : State) : State :=
  let s := set_lamports source (lamports s source - amount) s in
  set_lamports destination (lamports s destination + amount) s.

(** * Reading after writing *)

Lemma account_at_insert (m : gmap Pubkey AccountSharedData) k a j :
  account_at (<[k := a]> m) j = if decide (j = k) then a else account_at m j.
Proof.
  unfold account_at. destruct (decide (j = k)) as [->|Hne]; [by rewrite lookup_insert_eq|by rewrite lookup_insert_ne].
Qed.

Lemma info_account_update f i s j :
  info_account (update_mem f i s) j = if decide (key j = key i) then f (info_account s i) else info_account s j.
Proof. apply account_at_insert. Qed.

Lemma data_set_data i d s j : data (set_data i d s) j = if decide (key j = key i) then d else data s j.
Proof. unfold data, set_data. rewrite info_account_update. by case_decide. Qed.

Lemma data_set_data_ne i d s j : key j ≠ key i → data (set_data i d s) j = data s j.
Proof. intros. by rewrite data_set_data, decide_False. Qed.

Lemma info_account_key s i j : key i = key j → info_account s i = info_account s j.
Proof. unfold info_account. by intros ->. Qed.

Lemma data_set_lamports i n s j : data (set_lamports i n s) j = data s j.
Proof.
  unfold data, set_lamports. rewrite info_account_update. case_decide as Hk; [|done].
  by rewrite (info_account_key s j i Hk).
Qed.

Lemma lamports_set_lamports i n s j :
  lamports (set_lamports i n s) j = if decide (key j = key i) then n else lamports s j.
Proof. unfold lamports, set_lamports. rewrite info_account_update. by case_decide. Qed.

Lemma lamports_set_data i d s j : lamports (set_data i d s) j = lamports s j.
Proof.
  unfold lamports, set_data. rewrite info_account_update. case_decide as Hk; [|done].
  by rewrite (info_account_key s j i Hk).
Qed.

Lemma info_owner_set_data i d s j : info_owner (set_data i d s) j = info_owner s j.
Proof.
  unfold info_owner, set_data. rewrite info_account_update. case_decide as Hk; [|done].
  by rewrite (info_account_key s j i Hk).
Qed.

Lemma data_move_lamports i j n s k : data (move_lamports i j n s) k = data s k.
Proof. unfold move_lamports. by rewrite !data_set_lamports. Qed.

(** A mint and a token account are not the same account. *)
Lemma mint_account_ne s i j m a :
  holds_mint (data s i) m → holds_account (data s j) a → key i ≠ key j.
Proof.
  intros [Hm _] [Ha _] Hk. unfold data in *. rewrite (info_account_key s i j Hk), Ha in Hm. discriminate Hm.
Qed.

Section spec.
Context `{TokenSdk} (P : Pubkey) (infos : list AccountInfo).

(** One of the accounts of the instruction is [k], and it signed, or its signers. *)
Definition authorized (k : Pubkey) (s : State) : Prop :=
  ∃ auth rest, auth ∈ infos ∧ rest `suffix_of` infos ∧ validate_owner P k auth rest s = Ret (Ok tt).

Definition owned (info : AccountInfo) (s : State) : Prop := info_owner s info = P.

(** Who may spend [n] tokens of [a], and what is left to the delegate then. *)
Inductive spends (n : Z) (a : Account) (s : State) : Account → Prop :=
| spends_owner :
    authorized (owner a) s → spends n a s a
| spends_delegate k :
    delegate a = Some k → authorized k s → n ≤ delegated_amount a →
    spends n a s (with_delegate (if delegated_amount a - n =? 0 then None else Some k)
                    (with_delegated_amount (delegated_amount a - n) a)).

(** What the first account of the mint holds: the lamports above the reserve are native
    tokens; other mints start with nothing. *)
Inductive fresh (info mint_info : AccountInfo) (s : State) (a : Account) : Prop :=
| fresh_native rent :
    let r := minimum_balance rent (data_len s info) in
    key mint_info = native_mint_id → is_native_reserve a = Some r → amount a = lamports s info - r →
    r ≤ lamports s info → fresh info mint_info s a
| fresh_token m :
    key mint_info ≠ native_mint_id → is_native_reserve a = None → amount a = 0 →
    owned mint_info s → holds_mint (data s mint_info) m → mint_is_initialized m = true →
    fresh info mint_info s a.

Definition exempt (info : AccountInfo) (s : State) : Prop :=
  ∃ rent, minimum_balance rent (data_len s info) ≤ lamports s info.

Inductive effect (s : State) : State → Prop :=
| eff_none rd :
    effect s {| mem := mem s; return_data := rd |}
| eff_init_mint info m m' :
    info ∈ infos → exempt info s → holds_mint (data s info) m → mint_is_initialized m = false →
    WfMint m' → mint_is_initialized m' = true → supply m' = supply m →
    effect s (write_mint info m' s)
| eff_init_account info mint_info a a' :
    info ∈ infos → exempt info s → holds_account (data s info) a → state a = Uninitialized →
    WfAccount a' → state a' = Initialized → mint a' = key mint_info → delegate a' = None →
    delegated_amount a' = 0 → close_authority a' = None → fresh info mint_info s a' →
    effect s (write_account info a' s)
| eff_init_multisig info m m' :
    info ∈ infos → exempt info s → holds_multisig (data s info) m → multisig_is_initialized m = false →
    WfMultisig m' → multisig_is_initialized m' = true →
    is_valid_signer_index (multisig_m m') = true → is_valid_signer_index (multisig_n m') = true →
    effect s (write_multisig info m' s)
| eff_approve info a d n :
    info ∈ infos → holds_account (data s info) a → state a = Initialized → opt_ok is_key d → is_u64 n →
    authorized (owner a) s →
    effect s (write_account info (with_delegated_amount n (with_delegate d a)) s)
| eff_set_owner info a k :
    info ∈ infos → holds_account (data s info) a → state a = Initialized → is_key k →
    authorized (owner a) s →
    let a' := with_delegated_amount 0 (with_delegate None (with_owner k a)) in
    effect s (write_account info (if is_native a then with_close_authority None a' else a') s)
| eff_set_close_authority info a k :
    info ∈ infos → holds_account (data s info) a → state a = Initialized → opt_ok is_key k →
    authorized (default (owner a) (close_authority a)) s →
    effect s (write_account info (with_close_authority k a) s)
| eff_set_mint_authority info m k k' :
    info ∈ infos → holds_mint (data s info) m → mint_is_initialized m = true → opt_ok is_key k' →
    mint_authority m = Some k → authorized k s →
    effect s (write_mint info (with_mint_authority k' m) s)
| eff_set_freeze_authority info m k k' :
    info ∈ infos → holds_mint (data s info) m → mint_is_initialized m = true → opt_ok is_key k' →
    freeze_authority m = Some k → authorized k s →
    effect s (write_mint info (with_freeze_authority k' m) s)
| eff_toggle info mint_info a m k freeze :
    info ∈ infos → holds_account (data s info) a →
    state a = (if freeze : bool then Initialized else Frozen) → is_native a = false →
    holds_mint (data s mint_info) m → mint_is_initialized m = true → key mint_info = mint a →
    freeze_authority m = Some k → authorized k s →
    effect s (write_account info (with_state (if freeze then Frozen else Initialized) a) s)
| eff_transfer source destination a a' b n :
    source ∈ infos → destination ∈ infos → key source ≠ key destination →
    holds_account (data s source) a → state a = Initialized →
    holds_account (data s destination) b → state b = Initialized →
    mint a = mint b → is_u64 n → n ≤ amount a → amount b + n ≤ u64_MAX → spends n a s a' →
    (n = 0 → owned source s ∧ owned destination s) →
    (is_native a = true → n ≤ lamports s source ∧ lamports s destination + n ≤ u64_MAX) →
    let s1 := if is_native a then move_lamports source destination n s else s in
    let s2 := write_account source (with_amount (amount a - n) a') s1 in
    effect s (write_account destination (with_amount (amount b + n) b) s2)
| eff_mint_to mint_info destination m b k n :
    mint_info ∈ infos → destination ∈ infos →
    holds_mint (data s mint_info) m → mint_is_initialized m = true →
    holds_account (data s destination) b → state b = Initialized → is_native b = false →
    mint b = key mint_info → mint_authority m = Some k → authorized k s →
    is_u64 n → amount b + n ≤ u64_MAX → supply m + n ≤ u64_MAX →
    (n = 0 → owned mint_info s ∧ owned destination s) →
    let s1 := write_account destination (with_amount (amount b + n) b) s in
    effect s (write_mint mint_info (with_supply (supply m + n) m) s1)
| eff_burn source mint_info a a' m n :
    source ∈ infos → mint_info ∈ infos →
    holds_account (data s source) a → state a = Initialized → is_native a = false →
    holds_mint (data s mint_info) m → mint_is_initialized m = true → mint a = key mint_info →
    is_u64 n → n ≤ amount a → n ≤ supply m →
    (spends n a s a' ∨ is_owned_by_system_program_or_incinerator a = true ∧ a' = a) →
    (n = 0 → owned source s ∧ owned mint_info s) →
    let s1 := write_account source (with_amount (amount a - n) a') s in
    effect s (write_mint mint_info (with_supply (supply m - n) m) s1)
| eff_close source destination a :
    source ∈ infos → destination ∈ infos → key source ≠ key destination →
    holds_account (data s source) a → state a ≠ Uninitialized →
    is_native a = true ∨ amount a = 0 →
    (if is_owned_by_system_program_or_incinerator a then key destination = incinerator_id
     else authorized (default (owner a) (close_authority a)) s) →
    lamports s destination + lamports s source ≤ u64_MAX →
    let s1 := set_lamports destination (lamports s destination + lamports s source) s in
    let s2 := assign source system_program_id (set_lamports source 0 s1) in
    effect s (set_data source [] s2)
| eff_sync info a r :
    info ∈ infos → owned info s → holds_account (data s info) a → state a ≠ Uninitialized →
    is_native_reserve a = Some r → r + amount a ≤ lamports s info →
    effect s (write_account info (with_amount (lamports s info - r) a) s).

End spec.
