(* ===== verification/TokenRefine.v ===== *)
(** Every instruction that succeeds has one of the effects of the specification. *)

From S2P Require Import Prelude Bytes TransactionContext TokenState TokenStateProps.
From S2P Require Import TokenInstruction TokenAmount TokenProcessor TokenSpec.

(** * Unpacking and packing *)

Section packing.
Context `{TokenSdk, !TokenSdkLaws}.

Lemma Mint_unpack_unchecked_Ok d m : Mint_unpack_unchecked d = Ok m → holds_mint d m.
Proof. unfold Mint_unpack_unchecked. rewrite unpack_unchecked_spec. by case_decide. Qed.

Lemma Mint_unpack_Ok d m : Mint_unpack d = Ok m → holds_mint d m ∧ mint_is_initialized m = true.
Proof.
  unfold Mint_unpack. rewrite unpack_spec. intros (m' & Hm & Hi)%and_then_Ok_inv.
  destruct (mint_is_initialized m') eqn:?; [|done]. injection Hi as ->. by apply Mint_unpack_unchecked_Ok in Hm.
Qed.

Lemma Account_unpack_unchecked_Ok d a : Account_unpack_unchecked d = Ok a → holds_account d a.
Proof. unfold Account_unpack_unchecked. rewrite unpack_unchecked_spec. by case_decide. Qed.

Lemma Account_unpack_Ok d a : Account_unpack d = Ok a → holds_account d a ∧ state a ≠ Uninitialized.
Proof.
  unfold Account_unpack. rewrite unpack_spec. intros (a' & Ha & Hi)%and_then_Ok_inv.
  destruct (account_is_initialized a') eqn:Hinit; [|done]. injection Hi as ->.
  apply bool_decide_eq_true in Hinit. by apply Account_unpack_unchecked_Ok in Ha.
Qed.

Lemma Multisig_unpack_unchecked_Ok d m : Multisig_unpack_unchecked d = Ok m → holds_multisig d m.
Proof. unfold Multisig_unpack_unchecked. rewrite unpack_unchecked_spec. by case_decide. Qed.

Lemma Mint_pack_Ok m d : length d = Mint_LEN → Mint_pack m d = Ok (MintPack.pack_into_slice m d).
Proof. intros. unfold Mint_pack. by rewrite pack_spec, decide_True. Qed.

Lemma Account_pack_Ok a d : length d = Account_LEN → Account_pack a d = Ok (AccountPack.pack_into_slice a d).
Proof. intros. unfold Account_pack. by rewrite pack_spec, decide_True. Qed.

Lemma Multisig_pack_Ok m d : length d = Multisig_LEN → Multisig_pack m d = Ok (MultisigPack.pack_into_slice m d).
Proof. intros. unfold Multisig_pack. by rewrite pack_spec, decide_True. Qed.

End packing.

(** * Inverting handlers *)

Lemma fail_if_Ok b e u : fail_if b e = Ret (Ok u) → b = false.
Proof. by destruct b. Qed.

Lemma ok_or_Ok {A} (o : option A) e a : ok_or o e = Ret (Ok a) → o = Some a.
Proof. destruct o; [by intros [= ->]|done]. Qed.

Lemma map_err_Ok {A} (r : result A ProgramError) e a : map_err r e = Ok a → r = Ok a.
Proof. by destruct r. Qed.

Lemma checked_add_Some_inv max a b c : checked_add max a b = Some c → c = a + b ∧ a + b ≤ max.
Proof. unfold checked_add. case_eq (a + b <=? max); [|done]. intros ?%Z.leb_le [= <-]. done. Qed.

Lemma checked_sub_Some_inv a b c : checked_sub a b = Some c → c = a - b ∧ b ≤ a.
Proof. unfold checked_sub. case_eq (b <=? a); [|done]. intros ?%Z.leb_le [= <-]. done. Qed.

Section iter.
Context `{TokenSdk, !TokenSdkLaws}.

Lemma next_account_info_Ok iter info rest :
  next_account_info iter = Ok (info, rest) → iter = info :: rest.
Proof. rewrite next_account_info_spec. destruct iter; [done|]. by intros [= -> ->]. Qed.

End iter.

Lemma Ret_inj {A} (a b : A) : Ret a = Ret b → a = b.
Proof. by intros [= ->]. Qed.

Lemma Ok_inj {A E} (a b : A) : @Ok A E a = Ok b → a = b.
Proof. by intros [= ->]. Qed.

(** One [?] at a time: what the call returned. *)
Ltac tries H :=
  repeat match type of H with
  | try_ _ _ = Ret (Ok _) =>
      let x := fresh "x" in let Hx := fresh "Hx" in
      apply try_Ok_inv in H as (x & Hx & H);
      repeat match type of x with
      | (_ * _)%type => let y := fresh "y" in destruct x as [x y]
      | unit => destruct x
      end;
      cbn beta iota zeta in H;
      lazymatch type of Hx with
      | Ret _ = Ret _ =>
          apply Ret_inj in Hx;
          first [ apply next_account_info_Ok in Hx; subst | apply map_err_Ok in Hx | apply Ok_inj in Hx | idtac ]
      | fail_if _ _ = _ => apply fail_if_Ok in Hx
      | ok_or _ _ = _ => apply ok_or_Ok in Hx
      | _ => idtac
      end
  | Ret (Ok _) = Ret (Ok _) => apply Ret_inj, Ok_inj in H
  | _ => progress cbn beta iota zeta in H
  end.

Section refine.
Context `{TokenSdk, !TokenSdkLaws} (P : Pubkey) (infos : list AccountInfo) (s : State).

(** The accounts of the instruction have keys, bytes and lamports of their widths. *)
Record infos_ok : Prop := {
  infos_keys info : info ∈ infos → is_key (key info);
  infos_bytes info : info ∈ infos → Bytes (data s info);
  infos_lamports info : info ∈ infos → is_u64 (lamports s info);
}.
Hypothesis Hok : infos_ok.

Lemma holds_mint_wf info m : info ∈ infos → holds_mint (data s info) m → WfMint m.
Proof. intros Hin [Hl Hm]. eapply Mint_pack_unpack; [|done|done]. by apply Hok. Qed.

Lemma holds_account_wf info a : info ∈ infos → holds_account (data s info) a → WfAccount a.
Proof. intros Hin [Hl Ha]. eapply Account_pack_unpack; [|done|done]. by apply Hok. Qed.

Lemma holds_multisig_wf info m : info ∈ infos → holds_multisig (data s info) m → WfMultisig m.
Proof. intros Hin [Hl Hm]. eapply Multisig_pack_unpack; [|done|done]. by apply Hok. Qed.

Lemma read_rent_Ok b iter rent iter' :
  read_rent b iter s = Ret (Ok (rent, iter')) → iter' `suffix_of` iter.
Proof.
  unfold read_rent. destruct b; intros Hr; tries Hr.
  - injection Hr as <- <-. by apply suffix_cons_r.
  - by injection Hr as <- <-.
Qed.

Lemma exempt_intro rent info :
  negb (is_exempt rent (lamports s info) (data_len s info)) = false → exempt info s.
Proof. rewrite is_exempt_spec, negb_false_iff, Z.leb_le. intros. by exists rent. Qed.

(** An account of the instruction; the rest of the accounts. *)
Ltac in_infos :=
  match goal with
  | E : infos = _ |- _ ∈ infos => rewrite E; clear; set_solver
  | E : infos = _ |- _ `suffix_of` infos => rewrite E; repeat first [apply suffix_cons_r | apply suffix_app_r]; reflexivity
  end.

(** What the data that were unpacked hold. *)
Ltac unpacked :=
  repeat match goal with
  | E : Mint_unpack_unchecked _ = Ok _ |- _ => apply Mint_unpack_unchecked_Ok in E
  | E : Account_unpack_unchecked _ = Ok _ |- _ => apply Account_unpack_unchecked_Ok in E
  | E : Multisig_unpack_unchecked _ = Ok _ |- _ => apply Multisig_unpack_unchecked_Ok in E
  | E : Mint_unpack _ = Ok _ |- _ => apply Mint_unpack_Ok in E as [? ?]
  | E : Account_unpack _ = Ok _ |- _ => apply Account_unpack_Ok in E as [? ?]
  | E : checked_add _ _ _ = Some _ |- _ => apply checked_add_Some_inv in E as [-> ?]
  | E : checked_sub _ _ = Some _ |- _ => apply checked_sub_Some_inv in E as [-> ?]
  | E : negb _ = false |- _ => apply negb_false_iff in E
  | E : cmp_pubkeys _ _ = true |- _ => apply Z.eqb_eq in E
  | E : cmp_pubkeys _ _ = false |- _ => apply Z.eqb_neq in E
  | E : (_ <? _) = false |- _ => apply Z.ltb_ge in E
  | E : (_ || _) = false |- _ => apply orb_false_iff in E as [? ?]
  end.

(** The data packed into the account it came from. *)
Ltac packed :=
  repeat match goal with
  | E : Mint_pack _ (data _ _) = Ok ?d |- _ =>
      rewrite Mint_pack_Ok in E by (by unfold holds_mint in *; destruct_and?); apply Ok_inj in E as <-
  | E : Account_pack _ (data _ _) = Ok ?d |- _ =>
      rewrite Account_pack_Ok in E by (by unfold holds_account in *; destruct_and?); apply Ok_inj in E as <-
  | E : Multisig_pack _ (data _ _) = Ok ?d |- _ =>
      rewrite Multisig_pack_Ok in E by (by unfold holds_multisig in *; destruct_and?); apply Ok_inj in E as <-
  end.

Lemma initialize_mint_effect d k f b s' :
  is_byte d → is_key k → opt_ok is_key f →
  _process_initialize_mint infos d k f b s = Ret (Ok s') → effect P infos s s'.
Proof.
  intros Hd Hk Hf Hp. unfold _process_initialize_mint in Hp. tries Hp. subst s'.
  match goal with E : negb (is_exempt _ _ _) = false |- _ => apply exempt_intro in E end.
  unpacked. packed. eapply eff_init_mint; [in_infos|done|done|done| |done|done].
  assert (WfMint x1) as [] by (eapply holds_mint_wf; [|done]; in_infos).
  split; unfold_fields; try done. by intros ? [= <-].
Qed.

Lemma initialize_account_effect o b s' :
  opt_ok is_key o → _process_initialize_account P infos o b s = Ret (Ok s') → effect P infos s s'.
Proof.
  intros Ho Hp. unfold _process_initialize_account in Hp. tries Hp. subst s'.
  match goal with E : negb (is_exempt _ _ _) = false |- _ => apply exempt_intro in E end.
  assert (is_key x1) as Hk.
  { destruct o as [k|]; tries Hx0.
    - injection Hx0 as <- <-. by apply Ho.
    - injection Hx0 as <- <-. apply Hok. in_infos. }
  apply bool_decide_eq_false in Hx3. unpacked. packed.
  assert (is_u64 y2 ∧ opt_ok is_u64 x4 ∧ fresh P x x0 s
    {| mint := key x0; owner := x1; amount := y2; delegate := None; state := Initialized;
       is_native_reserve := x4; delegated_amount := 0; close_authority := None |}) as (Hy2 & Hx4' & Hfresh).
  { destruct (cmp_pubkeys (key x0) native_mint_id) eqn:Hn; cbn [negb] in Hx5.
    - tries Hx6. injection Hx6 as <- <-. unpacked. pose proof (minimum_balance_u64 x2 (data_len s x)) as Hu.
      assert (is_u64 (lamports s x)) by (apply Hok; in_infos). split_and!.
      + unfold is_u64 in *. lia.
      + by intros ? [= <-].
      + by eapply fresh_native.
    - tries Hx6. injection Hx6 as <- <-. tries Hx5. unfold check_account_owner in Hx6. apply fail_if_Ok in Hx6.
      unpacked. split_and!; [by unfold is_u64, u64_MAX|done|]. by eapply fresh_token. }
  eapply eff_init_account; [in_infos|done|done|by apply dec_stable| |done..].
  split; unfold_fields; try done. apply Hok. in_infos.
Qed.

Lemma set_signers_wf i l keys keys' :
  (∀ info, info ∈ l → is_key (key info)) → Forall is_key keys →
  set_signers i l keys = Ret keys' → length keys' = length keys ∧ Forall is_key keys'.
Proof.
  revert i keys. induction l as [|info l IH]; intros i keys Hl Hk Hs; cbn [set_signers] in Hs; outcome_inv; [done|].
  apply IH in Hs as [-> ?]; [|set_solver|apply Forall_insert; [done|apply Hl; left]].
  by rewrite length_insert.
Qed.

Lemma initialize_multisig_effect m b s' :
  is_byte m → _process_initialize_multisig infos m b s = Ret (Ok s') → effect P infos s s'.
Proof.
  intros Hm Hp. unfold _process_initialize_multisig in Hp. tries Hp. outcome_inv. tries Hp. subst s'.
  match goal with E : negb (is_exempt _ _ _) = false |- _ => apply exempt_intro in E end.
  apply read_rent_Ok in Hx0. unpacked. packed.
  assert (WfMultisig x1) as [_ _ [Hl Hk]] by (eapply holds_multisig_wf; [|done]; in_infos).
  match goal with E : set_signers _ _ _ = Ret _ |- _ => apply set_signers_wf in E as [Hl' Hk']; [| |done] end.
  - eapply eff_init_multisig; [in_infos|done|done|done| |done..]. split; unfold_fields; [done| |].
    + unfold is_byte. apply Z.mod_pos_bound. lia.
    + by rewrite Hl'.
  - intros info Hin. apply Hok. rewrite Hx. right. destruct Hx0 as [l ->]. apply elem_of_app. by right.
Qed.

(** * Instructions on token accounts *)

Lemma not_frozen a : is_frozen a = false → state a ≠ Uninitialized → state a = Initialized.
Proof. unfold is_frozen. rewrite bool_decide_eq_false. by destruct (state a). Qed.

Lemma authorized_intro k auth rest :
  auth ∈ infos → rest `suffix_of` infos → validate_owner P k auth rest s = Ret (Ok tt) →
  authorized P infos k s.
Proof. intros. by exists auth, rest. Qed.

Ltac authorize := eapply authorized_intro; [..|eassumption]; in_infos.

Lemma next_mint_Ok d iter o iter' :
  next_mint d iter = Ret (Ok (o, iter')) → ∃ pre, iter = pre ++ iter'.
Proof.
  unfold next_mint. destruct d; intros Hn; tries Hn.
  - injection Hn as <- <-. by exists [x].
  - injection Hn as <- <-. by exists [].
Qed.

Lemma approve_effect n d s' :
  is_u64 n → process_approve P infos n d s = Ret (Ok s') → effect P infos s s'.
Proof.
  intros Hn Hp. unfold process_approve in Hp. tries Hp. subst s'. apply next_mint_Ok in Hx0 as [pre ->].
  unpacked. packed. eapply eff_approve; [in_infos|done|by apply not_frozen| |done|authorize].
  intros k [= <-]. apply Hok. in_infos.
Qed.

Lemma revoke_effect s' : process_revoke P infos s = Ret (Ok s') → effect P infos s s'.
Proof.
  intros Hp. unfold process_revoke in Hp. tries Hp. subst s'. unpacked. packed.
  eapply eff_approve; [in_infos|done|by apply not_frozen|done| |authorize]. by unfold is_u64, u64_MAX.
Qed.

Lemma set_authority_effect t k s' :
  opt_ok is_key k → process_set_authority P infos t k s = Ret (Ok s') → effect P infos s s'.
Proof.
  intros Hk Hp. unfold process_set_authority in Hp. tries Hp.
  destruct (data_len s x =? Account_LEN)%nat; [|destruct (data_len s x =? Mint_LEN)%nat; [|done]]; tries Hp; subst s'.
  - unpacked. packed. unfold set_account_authority in Hx2. destruct t; try done; tries Hx2.
    + destruct k as [k|]; [|done]. tries Hx2. subst. change (is_native (with_delegated_amount _ _)) with (is_native x1).
      eapply eff_set_owner; [in_infos|done|by apply not_frozen|by apply Hk|authorize].
    + subst. eapply eff_set_close_authority; [in_infos|done|by apply not_frozen|done|authorize].
  - unpacked. packed. unfold set_mint_authority in Hx1. destruct t; try done; tries Hx1; subst.
    + eapply eff_set_mint_authority; [in_infos|done|done|done|done|authorize].
    + eapply eff_set_freeze_authority; [in_infos|done|done|done|done|authorize].
Qed.

Lemma toggle_effect freeze s' :
  process_toggle_freeze_account P infos freeze s = Ret (Ok s') → effect P infos s s'.
Proof.
  intros Hp. unfold process_toggle_freeze_account in Hp. tries Hp. subst s'.
  destruct (freeze_authority x3) as [k|] eqn:Hf; [|done].
  assert (state x2 = if freeze then Initialized else Frozen) as Hst.
  { apply Account_unpack_Ok in Hx0 as [_ Hinit]. unfold is_frozen in Hx1. by destruct freeze, (state x2). }
  unpacked. packed. by eapply (eff_toggle _ _ _ x x0 x2 x3 k freeze); [in_infos|done..|authorize].
Qed.

Lemma sync_native_effect s' : process_sync_native P infos s = Ret (Ok s') → effect P infos s s'.
Proof.
  intros Hp. unfold process_sync_native in Hp. tries Hp.
  destruct (is_native_reserve x0) as [r|] eqn:Hr; [|done]. tries Hp. subst s'.
  unfold check_account_owner in Hx0. apply fail_if_Ok in Hx0. unpacked. packed.
  eapply eff_sync; [in_infos|done|done|done|done|lia].
Qed.

(** * Instructions that move tokens *)

Lemma spend_delegated_Ok n a k a' :
  delegate a = Some k → spend_delegated n a = Ret (Ok a') →
  a' = with_delegate (if delegated_amount a - n =? 0 then None else Some k)
         (with_delegated_amount (delegated_amount a - n) a).
Proof.
  intros Hd Hs. unfold spend_delegated in Hs. tries Hs. unpacked. subst a'.
  destruct (_ =? 0); [done|]. destruct a; simpl in *. by subst.
Qed.

Lemma is_delegate_true a auth : is_delegate a auth = true → delegate a = Some (key auth).
Proof. unfold is_delegate, cmp_pubkeys. destruct (delegate a); [|done]. by intros <-%Z.eqb_eq. Qed.

Lemma owners_checked (b : bool) i j :
  (if b then '_ ←? check_account_owner P i s; check_account_owner P j s else Ret (Ok tt)) = Ret (Ok tt) →
  b = true → owned P i s ∧ owned P j s.
Proof.
  intros Hc ->. tries Hc. unfold check_account_owner in *. apply fail_if_Ok in Hx, Hc. unpacked. done.
Qed.

Lemma mint_to_effect n d s' :
  is_u64 n → process_mint_to P infos n d s = Ret (Ok s') → effect P infos s s'.
Proof.
  intros Hn Hp. unfold process_mint_to in Hp. tries Hp. subst s'.
  destruct (mint_authority x3) as [k|] eqn:Hk; [|done].
  pose proof (owners_checked _ _ _ Hx7) as Hown. rewrite Z.eqb_eq in Hown. unpacked. packed.
  rewrite Mint_pack_Ok in Hx11; [apply Ok_inj in Hx11 as <-|].
  - eapply (eff_mint_to _ _ _ x x0 x3 x2 k n); [in_infos|in_infos|done|done|done|by apply not_frozen|done|done|done|authorize|done..].
  - rewrite data_set_data_ne by (by eapply mint_account_ne). by unfold holds_mint in *; destruct_and?.
Qed.

Lemma spends_amount n a a' : spends P infos n a s a' → amount a' = amount a ∧ is_native_reserve a' = is_native_reserve a.
Proof. by intros [|]. Qed.

(** The owner or the delegate, as the code asks for them. *)
Lemma spends_intro n a auth rest a' :
  auth ∈ infos → rest `suffix_of` infos →
  (if is_delegate a auth then
     '_ ←? validate_owner P (key auth) auth rest s;
     '_ ←? fail_if (delegated_amount a <? n) InsufficientFunds;
     spend_delegated n a
   else
     '_ ←? validate_owner P (owner a) auth rest s;
     Ret (Ok a)) = Ret (Ok a') → spends P infos n a s a'.
Proof.
  intros Hin Hsuf Hv. destruct (is_delegate a auth) eqn:Hd; tries Hv.
  - apply is_delegate_true in Hd. rewrite (spend_delegated_Ok n a (key auth) a') by done. unpacked.
    apply spends_delegate; [done|by eapply authorized_intro|done].
  - subst a'. apply spends_owner. by eapply authorized_intro.
Qed.

Lemma burn_effect n d s' :
  is_u64 n → process_burn P infos n d s = Ret (Ok s') → effect P infos s s'.
Proof.
  intros Hn Hp. unfold process_burn in Hp. tries Hp. subst s'.
  pose proof (owners_checked _ _ _ Hx8) as Hown. rewrite Z.eqb_eq in Hown.
  assert (spends P infos n x2 s x4 ∨ is_owned_by_system_program_or_incinerator x2 = true ∧ x4 = x2) as Hsp.
  { destruct (is_owned_by_system_program_or_incinerator x2); cbn [negb] in Hx7.
    - right. split; [done|]. by apply Ret_inj, Ok_inj in Hx7 as ->.
    - left. by eapply spends_intro; [..|exact Hx7]; in_infos. }
  assert (amount x4 = amount x2) as Ham.
  { destruct Hsp as [Hsp%spends_amount|[_ ->]]; [apply Hsp|done]. }
  unpacked. packed. rewrite Mint_pack_Ok in Hx12; [apply Ok_inj in Hx12 as <-|].
  - rewrite Ham. eapply (eff_burn _ _ _ x x0 x2 x4 x3 n); [in_infos|in_infos|done|by apply not_frozen|done..].
  - rewrite data_set_data_ne by (by eapply mint_account_ne). by unfold holds_mint in *; destruct_and?.
Qed.

Lemma close_account_effect s' : process_close_account P infos s = Ret (Ok s') → effect P infos s s'.
Proof.
  intros Hp. unfold process_close_account in Hp. tries Hp.
  unfold delete_account in Hp. rewrite realloc_to_empty in Hp. tries Hp. subst s'. subst x4. unpacked.
  apply (eff_close _ _ _ x x0 x2); [in_infos|in_infos|done|done|done| | |done].
  - apply andb_false_iff in Hx2 as [Hx2|Hx2]; apply negb_false_iff in Hx2; [by left|right; by apply Z.eqb_eq].
  - destruct (is_owned_by_system_program_or_incinerator x2); cbn [negb] in Hx3; [|authorize].
    apply fail_if_Ok, negb_false_iff, Z.eqb_eq in Hx3. done.
Qed.

Lemma move_lamports_Ok (b : bool) source destination n s1 :
  key source ≠ key destination →
  (if b then
     source_lamports ←? ok_or (checked_sub (lamports s source) n) Overflow;
     let s := set_lamports source source_lamports s in
     destination_lamports ←? ok_or (checked_add u64_MAX (lamports s destination) n) Overflow;
     Ret (Ok (set_lamports destination destination_lamports s))
   else Ret (Ok s)) = Ret (Ok s1) →
  s1 = (if b then move_lamports source destination n s else s) ∧
  (b = true → n ≤ lamports s source ∧ lamports s destination + n ≤ u64_MAX).
Proof.
  intros Hne Hm. destruct b; tries Hm; [|by subst]. unpacked. subst s1.
  rewrite lamports_set_lamports, decide_False in * by done. split; [|done].
  unfold move_lamports. by rewrite lamports_set_lamports, decide_False.
Qed.

Lemma transfer_effect n d s' :
  is_u64 n → process_transfer P infos n d s = Ret (Ok s') → effect P infos s s'.
Proof.
  intros Hn Hp. unfold process_transfer in Hp. tries Hp. apply next_mint_Ok in Hx0 as [pre ->].
  destruct (cmp_pubkeys (key x) (key x1)) eqn:Hself; cbn [negb orb] in *.
  { tries Hp. subst s'. destruct s. apply eff_none. }
  apply Z.eqb_neq in Hself. pose proof (owners_checked _ _ _ Hx8) as Hown. rewrite Z.eqb_eq in Hown.
  assert (spends P infos n x3 s x5) as Hsp by (eapply spends_intro; [..|exact Hx7]; in_infos).
  destruct (spends_amount _ _ _ Hsp) as [Ham Hnat]. tries Hp. subst s'.
  apply move_lamports_Ok in Hx10 as [-> Hlam]; [|done].
  change (is_native (with_amount _ x5)) with (is_native x5) in *.
  replace (is_native x5) with (is_native x3) in * by (unfold is_native; by rewrite Hnat).
  unpacked. set (s1 := if is_native x3 then _ else s) in *.
  assert (∀ i, data s1 i = data s i) as Hd by (intros i; unfold s1; destruct (is_native x3); [apply data_move_lamports|done]).
  rewrite Account_pack_Ok in Hx11; [apply Ok_inj in Hx11 as <-|].
  2: { rewrite Hd. by unfold holds_account in *; destruct_and?. }
  rewrite Account_pack_Ok in Hx12; [apply Ok_inj in Hx12 as <-|].
  2: { rewrite data_set_data_ne, Hd by done. by unfold holds_account in *; destruct_and?. }
  rewrite Ham. eapply (eff_transfer _ _ _ x x1 x3 x5 x4 n); [in_infos|in_infos|done|done|by apply not_frozen|done|by apply not_frozen|done..].
Qed.

(** * Every instruction *)

Lemma return_effect s' : mem s' = mem s → effect P infos s s'.
Proof. intros Hm. destruct s' as [m rd]. simpl in Hm. subst m. apply eff_none. Qed.

Lemma dispatch_effect i s' :
  WfInstr i → dispatch P infos i s = Ret (Ok s') → effect P infos s s'.
Proof.
  intros Hi Hd. destruct i; cbn [WfInstr dispatch] in *; destruct_and?;
    eauto using initialize_mint_effect, initialize_multisig_effect, transfer_effect, approve_effect,
      revoke_effect, set_authority_effect, mint_to_effect, burn_effect, close_account_effect, toggle_effect,
      sync_native_effect.
  - by eapply (initialize_account_effect None).
  - apply (initialize_account_effect (Some owner) true); [|done]. by intros ? [= <-].
  - apply (initialize_account_effect (Some owner) false); [|done]. by intros ? [= <-].
  - apply return_effect. unfold process_get_account_data_size in Hd. tries Hd. by subst.
  - apply return_effect. unfold process_initialize_immutable_owner in Hd. tries Hd. by subst.
  - apply return_effect. unfold process_amount_to_ui_amount in Hd. tries Hd. by subst.
  - apply return_effect. unfold process_ui_amount_to_amount in Hd. tries Hd. by subst.
Qed.

Lemma process_effect input s' :
  Bytes input → process P infos input s = Ret (Ok s') → effect P infos s s'.
Proof.
  intros Hb Hp. unfold process in Hp. tries Hp. eapply dispatch_effect; [|done].
  by eapply Instr_pack_unpack.
Qed.

End refine.
