(* ===== verification/TokenAuth.v ===== *)
(** Who an instruction is authorized by: the check of a multisignature accepts exactly
    when the keys at enough of its positions are among the accounts, and every account
    whose key is among them signed. *)

From S2P Require Import Prelude Bytes TransactionContext TokenState TokenStateProps.
From S2P Require Import TokenInstruction TokenAmount TokenProcessor TokenSpec TokenRefine.

(** The positions of [ks] whose keys were seen. *)
Definition seen_at (seen ks : list Pubkey) : list bool := (λ k, bool_decide (k ∈ seen)) <$> ks.
Definition num_seen (seen ks : list Pubkey) : Z := Z.of_nat (length (filter (λ k, k ∈ seen) ks)).

Lemma seen_at_cons seen k ks : seen_at seen (k :: ks) = bool_decide (k ∈ seen) :: seen_at seen ks.
Proof. done. Qed.

Lemma num_seen_cons seen k ks :
  num_seen seen (k :: ks) = (if decide (k ∈ seen) then 1 else 0) + num_seen seen ks.
Proof. unfold num_seen. rewrite filter_cons. case_decide; simpl; lia. Qed.

(** A signer that is new: it must have signed if it is among the keys. *)
Lemma match_positions_new signer pre ks post seen num :
  key signer ∉ seen → (key signer ∈ ks → is_signer signer = true) →
  match_positions signer (length pre) ks (pre ++ seen_at seen ks ++ post) num =
    Ok (pre ++ seen_at (key signer :: seen) ks ++ post,
        num + (num_seen (key signer :: seen) ks - num_seen seen ks)).
Proof.
  intros Hnew. revert pre num. induction ks as [|k ks IH]; intros pre num Hsig; cbn [match_positions].
  { f_equal. f_equal. unfold num_seen. simpl. lia. }
  rewrite !seen_at_cons, !num_seen_cons. cbn [app]. rewrite list_lookup_middle by done. cbn [default from_option id].
  assert (∀ b, pre ++ b :: seen_at seen ks ++ post = (pre ++ [b]) ++ seen_at seen ks ++ post) as Happ.
  { intros b. by rewrite <-app_assoc. }
  assert (∀ b : bool, S (length pre) = length (pre ++ [b])) as Hlen by (intros; rewrite length_app; simpl; lia).
  unfold cmp_pubkeys. destruct (Z.eqb_spec k (key signer)) as [->|Hne].
  - rewrite (bool_decide_eq_false_2 (key signer ∈ seen)), Hsig by (done || left). cbn [negb andb].
    rewrite insert_app_r_alt, Nat.sub_diag by done. cbn [insert list_insert].
    rewrite (Happ true), (Hlen true), IH by (intros; apply Hsig; by right).
    rewrite (bool_decide_eq_true_2 (key signer ∈ key signer :: seen)) by left. rewrite <-app_assoc.
    rewrite (decide_True (P := key signer ∈ key signer :: seen)), (decide_False (P := key signer ∈ seen)) by (done || left).
    f_equal. f_equal. lia.
  - cbn [andb]. rewrite (Happ (bool_decide (k ∈ seen))), (Hlen (bool_decide (k ∈ seen))), IH by (intros; apply Hsig; by right).
    rewrite <-app_assoc. cbn [app]. f_equal. f_equal.
    + f_equal. f_equal. apply bool_decide_ext. rewrite elem_of_cons. naive_solver.
    + destruct (decide (k ∈ seen)) as [Hs|Hs].
      * rewrite decide_True by (by right). lia.
      * rewrite decide_False; [lia|]. intros [->|?]%elem_of_cons; done.
Qed.

(** A signer among the keys that did not sign. *)
Lemma match_positions_missing signer pre ks post seen num :
  key signer ∉ seen → key signer ∈ ks → is_signer signer = false →
  match_positions signer (length pre) ks (pre ++ seen_at seen ks ++ post) num = Err MissingRequiredSignature.
Proof.
  intros Hnew Hin Hsig. revert pre num Hin. induction ks as [|k ks IH]; intros pre num Hin; [set_solver|].
  cbn [match_positions]. rewrite seen_at_cons. cbn [app]. rewrite list_lookup_middle by done.
  cbn [default from_option id]. unfold cmp_pubkeys. destruct (Z.eqb_spec k (key signer)) as [->|Hne].
  - rewrite (bool_decide_eq_false_2 (key signer ∈ seen)) by done. cbn [negb andb]. by rewrite Hsig.
  - cbn [andb]. assert (S (length pre) = length (pre ++ [bool_decide (k ∈ seen)])) as -> by (rewrite length_app; simpl; lia).
    replace (pre ++ bool_decide (k ∈ seen) :: seen_at seen ks ++ post)
      with ((pre ++ [bool_decide (k ∈ seen)]) ++ seen_at seen ks ++ post) by (by rewrite <-app_assoc).
    apply IH. apply elem_of_cons in Hin as [?|?]; [congruence|done].
Qed.

(** A signer that was seen before: all its positions are matched. *)
Lemma match_positions_old signer pre ks post seen num :
  key signer ∈ seen →
  match_positions signer (length pre) ks (pre ++ seen_at seen ks ++ post) num = Ok (pre ++ seen_at seen ks ++ post, num).
Proof.
  intros Hold. revert pre num. induction ks as [|k ks IH]; intros pre num; cbn [match_positions]; [done|].
  rewrite seen_at_cons. cbn [app]. rewrite list_lookup_middle by done. cbn [default from_option id].
  assert (cmp_pubkeys k (key signer) && negb (bool_decide (k ∈ seen)) = false) as ->.
  { unfold cmp_pubkeys. destruct (Z.eqb_spec k (key signer)) as [->|Hne]; [|done]. by rewrite bool_decide_eq_true_2. }
  assert (S (length pre) = length (pre ++ [bool_decide (k ∈ seen)])) as -> by (rewrite length_app; simpl; lia).
  replace (pre ++ bool_decide (k ∈ seen) :: seen_at seen ks ++ post)
    with ((pre ++ [bool_decide (k ∈ seen)]) ++ seen_at seen ks ++ post) by (by rewrite <-app_assoc).
  apply IH.
Qed.

Lemma seen_ext seen seen' ks :
  (∀ k, k ∈ seen ↔ k ∈ seen') → seen_at seen ks = seen_at seen' ks ∧ num_seen seen ks = num_seen seen' ks.
Proof.
  intros Hs. split.
  - unfold seen_at. apply list_fmap_ext. intros. by apply bool_decide_ext.
  - unfold num_seen. do 2 f_equal. apply list_filter_iff. done.
Qed.

Section match_signers.
Context (ms : Multisig) (Hn : multisig_n ms ≤ Z.of_nat (length (signers ms))).
Abbreviation ks := (take (Z.to_nat (multisig_n ms)) (signers ms)).

Lemma match_signers_all infos seen post :
  (∀ i, i ∈ infos → key i ∈ ks → is_signer i = true) →
  match_signers ms infos (seen_at seen ks ++ post) (num_seen seen ks) =
    Ret (Ok (num_seen ((key <$> infos) ++ seen) ks)).
Proof.
  revert seen. induction infos as [|i infos IH]; intros seen Hall; cbn [match_signers]; [done|].
  rewrite (proj2 (Z.leb_le _ _)) by done. cbn [assert_]. rewrite bind_Ret_l.
  assert (∀ seen', (∀ k, k ∈ (key <$> infos) ++ seen' ↔ k ∈ (key <$> i :: infos) ++ seen) →
    match_signers ms infos (seen_at seen' ks ++ post) (num_seen seen' ks) =
      Ret (Ok (num_seen ((key <$> i :: infos) ++ seen) ks))) as Hgo.
  { intros seen' Hs. rewrite IH by set_solver. do 2 f_equal. by apply seen_ext. }
  destruct (decide (key i ∈ seen)) as [Hold|Hnew].
  - rewrite (match_positions_old i [] ks post seen) by done. apply Hgo. set_solver.
  - rewrite (match_positions_new i [] ks post seen) by (done || (intros; apply Hall; [left|done])).
    cbn [try_ mbind outcome_bind app]. rewrite Zplus_minus. apply Hgo. set_solver.
Qed.

Lemma match_signers_missing infos seen post i :
  (∀ j, j ∈ infos → key j = key i → is_signer j = false) →
  i ∈ infos → key i ∈ ks → key i ∉ seen →
  match_signers ms infos (seen_at seen ks ++ post) (num_seen seen ks) = Ret (Err MissingRequiredSignature).
Proof.
  revert seen. induction infos as [|j infos IH]; intros seen Hsame Hin Hi Hnew; cbn [match_signers]; [set_solver|].
  rewrite (proj2 (Z.leb_le _ _)) by done. cbn [assert_]. rewrite bind_Ret_l.
  destruct (decide (key j = key i)) as [Hk|Hk].
  { rewrite (match_positions_missing j [] ks post seen); [done|congruence..|]. apply Hsame; [left|done]. }
  assert (i ∈ infos) as Hin' by (apply elem_of_cons in Hin as [->|?]; done).
  assert (∀ j', j' ∈ infos → key j' = key i → is_signer j' = false) as Hsame' by (intros; apply Hsame; [by right|done]).
  destruct (decide (key j ∈ seen)) as [Hold|Hnj].
  - rewrite (match_positions_old j [] ks post seen) by done. by apply IH.
  - destruct (decide (key j ∈ ks ∧ is_signer j = false)) as [[Hj Hs]|Hj].
    { by rewrite (match_positions_missing j [] ks post seen). }
    rewrite (match_positions_new j [] ks post seen); [|done|].
    + cbn [try_ mbind outcome_bind app]. rewrite Zplus_minus. apply IH; [done..|]. set_solver.
    + intros. destruct (is_signer j) eqn:?; [done|]. exfalso. auto.
Qed.

(** All positions are unmatched at the start. *)
Lemma unmatched : replicate MAX_SIGNERS false = seen_at [] ks ++ replicate (MAX_SIGNERS - length ks) false ∨
  (MAX_SIGNERS < length ks)%nat.
Proof.
  destruct (decide (length ks ≤ MAX_SIGNERS)%nat) as [Hle|]; [left|right; lia].
  replace MAX_SIGNERS with (length ks + (MAX_SIGNERS - length ks))%nat at 1 by lia.
  rewrite replicate_add. f_equal. unfold seen_at. induction ks; [done|]. simpl in *. f_equal. apply IHl. lia.
Qed.

End match_signers.

(** The keys at [m] of the first [n] positions of the multisignature are among the
    accounts, where a key at several positions counts at each of them; and every
    account whose key is at one of them signed. *)
Definition multisig_signed (ms : Multisig) (infos : list AccountInfo) : Prop :=
  let keys := take (Z.to_nat (multisig_n ms)) (signers ms) in
  (∀ i, i ∈ infos → key i ∈ keys → is_signer i = true) ∧
  multisig_m ms ≤ Z.of_nat (length (filter (λ k, k ∈ key <$> infos) keys)).

(** A key that is listed and whose account signed. *)
Definition member_signed (ms : Multisig) (infos : list AccountInfo) (k : Pubkey) : Prop :=
  k ∈ take (Z.to_nat (multisig_n ms)) (signers ms) ∧ ∃ i, i ∈ infos ∧ key i = k ∧ is_signer i = true.

Lemma multisig_signed_distinct ms infos :
  NoDup (take (Z.to_nat (multisig_n ms)) (signers ms)) → multisig_signed ms infos →
  ∃ ks : gset Pubkey, multisig_m ms ≤ Z.of_nat (size ks) ∧ ∀ k, k ∈ ks → member_signed ms infos k.
Proof.
  unfold multisig_signed, member_signed. set (keys := take _ _). intros Hnd [Hall Hm].
  exists (list_to_set (filter (λ k, k ∈ key <$> infos) keys)). split.
  - by rewrite size_list_to_set by by apply NoDup_filter.
  - intros k [(i & -> & Hi)%list_elem_of_fmap Hk]%elem_of_list_to_set%list_elem_of_filter. eauto 10.
Qed.

Lemma length_array_refs widths src : length (array_refs widths src) = length widths.
Proof. revert src. induction widths as [|w widths IH]; intros src; [done|]. simpl. by rewrite IH. Qed.

Lemma holds_multisig_signers d ms : holds_multisig d ms → length (signers ms) = MAX_SIGNERS.
Proof.
  intros [_ Hms]. unfold MultisigPack.unpack_from_slice in Hms.
  destruct (array_refs MultisigPack.widths d) as [|? [|? [|? [|? []]]]]; try done.
  apply and_then_Ok_inv in Hms as (b & _ & Hms). apply Ok_inj in Hms as <-. cbn [signers].
  by rewrite length_fmap, length_array_refs, length_replicate.
Qed.

Section validate.
Context `{TokenSdk, !TokenSdkLaws} (P : Pubkey).

Lemma Multisig_unpack_spec d :
  length d = Multisig_LEN →
  Multisig_unpack d = (ms ←! MultisigPack.unpack_from_slice d;
                       if multisig_is_initialized ms then Ok ms else Err UninitializedAccount).
Proof. intros Hl. unfold Multisig_unpack. by rewrite unpack_spec, unpack_unchecked_spec, decide_True. Qed.

Lemma validate_multisig ms infos d :
  (∀ i j, i ∈ infos → j ∈ infos → key i = key j → is_signer i = is_signer j) →
  holds_multisig d ms → multisig_n ms ≤ Z.of_nat MAX_SIGNERS →
  (num_signers ←? match_signers ms infos (replicate MAX_SIGNERS false) 0;
   fail_if (num_signers <? multisig_m ms) MissingRequiredSignature) = Ret (Ok tt) ↔ multisig_signed ms infos.
Proof.
  intros Hflags Hms Hn. pose proof (holds_multisig_signers _ _ Hms) as Hlen. rewrite <-Hlen in Hn.
  set (keys := take (Z.to_nat (multisig_n ms)) (signers ms)).
  destruct (unmatched ms) as [Hun|Hun]; [|rewrite length_take, Hlen in Hun; lia]. rewrite Hun.
  change 0 with (num_seen [] []) at 1. replace (num_seen [] []) with (num_seen [] keys).
  2: { induction keys as [|k ks' IH]; [done|]. rewrite num_seen_cons, decide_False by set_solver. lia. }
  destruct (decide (Exists (λ i, key i ∈ keys ∧ is_signer i = false) infos)) as [Hbad|Hgood].
  - apply Exists_exists in Hbad as (i & Hi & Hk & Hs). erewrite (match_signers_missing ms Hn infos [] _ i); [|..|set_solver].
    + split; [done|]. intros [Hall _]. rewrite (Hall i Hi Hk) in Hs. done.
    + intros j Hj Hkj. by rewrite (Hflags j i Hj Hi Hkj).
    + done.
    + done.
  - assert (∀ i, i ∈ infos → key i ∈ keys → is_signer i = true) as Hall.
    { intros i Hi Hk. destruct (is_signer i) eqn:Hs; [done|]. destruct Hgood. apply Exists_exists. eauto. }
    rewrite match_signers_all by done. rewrite try_Ok, app_nil_r. unfold multisig_signed, num_seen, fail_if. fold keys.
    split.
    + intros Hf. apply fail_if_Ok, Z.ltb_ge in Hf. done.
    + intros [_ Hm]. by rewrite (proj2 (Z.ltb_ge _ _)).
Qed.

Lemma validate_owner_iff k auth infos s :
  (∀ i j, i ∈ infos → j ∈ infos → key i = key j → is_signer i = is_signer j) →
  (∀ ms, holds_multisig (data s auth) ms → multisig_n ms ≤ Z.of_nat MAX_SIGNERS) →
  validate_owner P k auth infos s = Ret (Ok tt) ↔
  k = key auth ∧
  if decide (info_owner s auth = P ∧ data_len s auth = Multisig_LEN) then
    ∃ ms, holds_multisig (data s auth) ms ∧ multisig_is_initialized ms = true ∧ multisig_signed ms infos
  else is_signer auth = true.
Proof.
  intros Hflags Hn. unfold validate_owner, cmp_pubkeys.
  destruct (Z.eqb_spec k (key auth)) as [->|Hne]; cbn [negb].
  2: { split; [done|]. by intros [? _]. }
  unfold fail_if at 1. rewrite try_Ok.
  case_decide as Hd.
  - destruct Hd as [<- Hl]. rewrite Z.eqb_refl. unfold data_len in *. rewrite Hl, Nat.eqb_refl. cbn [andb].
    rewrite Multisig_unpack_spec by done.
    destruct (MultisigPack.unpack_from_slice (data s auth)) as [ms|e] eqn:Hms; cbn [and_then].
    2: { split; [done|]. by intros (_ & ms & [_ ?] & _); congruence. }
    assert (holds_multisig (data s auth) ms) as Hholds by done.
    destruct (multisig_is_initialized ms) eqn:Hi.
    + rewrite try_Ok, validate_multisig by eauto. split; [eauto|].
      intros (_ & ms' & [_ Hms'] & _ & ?). congruence.
    + split; [done|]. intros (_ & ms' & [_ Hms'] & ? & _). congruence.
  - assert ((P =? info_owner s auth) && (data_len s auth =? Multisig_LEN)%nat = false) as ->.
    { apply andb_false_iff. destruct (Z.eqb_spec P (info_owner s auth)); [right|by left].
      apply Nat.eqb_neq. intros ?. by apply Hd. }
    unfold fail_if. destruct (is_signer auth); [by split|]. split; [done|]. by intros [_ ?].
Qed.

End validate.
