(* ===== verification/TokenInv.v ===== *)
(** The invariant of the token program: the supply of a mint is the sum of the token
    accounts of the mint, native tokens are backed by lamports, and the data of the
    accounts of the program decode. *)

From S2P Require Import Prelude Bytes TransactionContext TransactionContextProps.
From S2P Require Import TransactionExec TokenState TokenStateProps TokenInstruction.
From S2P Require Import TokenAmount TokenProcessor TokenSpec TokenRefine TokenAuth.

(** * Sums over accounts *)

Abbreviation Accounts := (gmap Pubkey AccountSharedData).

Definition total (f : AccountSharedData → Z) (L : Accounts) : Z :=
  sumZ ((λ k, f (account_at L k)) <$> elements (dom L)).

Section total.
Context (f : AccountSharedData → Z) (f_default : f account_default = 0).

Lemma total_over (S : gset Pubkey) L :
  dom L ⊆ S → total f L = sumZ ((λ k, f (account_at L k)) <$> elements S).
Proof.
  intros Hsub. rewrite (union_difference_L _ _ Hsub), elements_disj_union by set_solver.
  rewrite fmap_app, sumZ_app. enough (sumZ ((λ k, f (account_at L k)) <$> elements (S ∖ dom L)) = 0) by (unfold total; lia).
  assert (∀ k, k ∈ elements (S ∖ dom L) → f (account_at L k) = 0) as Hz.
  { intros k [_ Hk]%elem_of_elements%elem_of_difference. unfold account_at.
    rewrite (not_elem_of_dom_1 _ _ Hk). apply f_default. }
  induction (elements (S ∖ dom L)) as [|k l IH]; [done|]. rewrite fmap_cons, sumZ_cons.
  rewrite Hz, IH by set_solver. done.
Qed.

Lemma sumZ_change (g g' : Pubkey → Z) l ks :
  NoDup l → NoDup ks → (∀ k, k ∈ ks → k ∈ l) → (∀ k, k ∈ l → k ∉ ks → g' k = g k) →
  sumZ (g' <$> l) = sumZ (g <$> l) + sumZ ((λ k, g' k - g k) <$> ks).
Proof.
  revert ks. induction l as [|k l IH]; intros ks Hl Hks Hsub Hsame.
  { destruct ks as [|k ks]; [unfold sumZ; simpl; lia|]. exfalso. apply (not_elem_of_nil k), Hsub. left. }
  apply NoDup_cons in Hl as [Hk Hl]. rewrite !fmap_cons, !sumZ_cons. destruct (decide (k ∈ ks)) as [Hin|Hin].
  - apply list_elem_of_split in Hin as (ks1 & ks2 & ->).
    rewrite Permutation_app_comm in Hks. simpl in Hks. apply NoDup_cons in Hks as [Hk' Hks].
    rewrite (IH (ks2 ++ ks1)); [|done|done|..].
    + rewrite !fmap_app, fmap_cons, !sumZ_app, sumZ_cons. lia.
    + intros j Hj. assert (j ∈ k :: l) as [->|?]%elem_of_cons by (apply Hsub; set_solver); done.
    + intros j Hj Hn. apply Hsame; [by right|]. intros Hj'. apply Hn.
      apply elem_of_app in Hj' as [?|[->|?]%elem_of_cons]; [set_solver|done|set_solver].
  - rewrite (Hsame k), (IH ks); [lia|done|done|..|done].
    + intros j Hj. assert (j ∈ k :: l) as [->|?]%elem_of_cons by auto; done.
    + intros j Hj Hn. apply Hsame; [by right|done].
    + left.
Qed.

(** What changes at the keys [ks] changes the sum. *)
Lemma total_change L L' ks :
  NoDup ks → (∀ k, k ∉ ks → f (account_at L' k) = f (account_at L k)) →
  total f L' = total f L + sumZ ((λ k, f (account_at L' k) - f (account_at L k)) <$> ks).
Proof.
  intros Hks Hsame. set (S := dom L ∪ dom L' ∪ list_to_set ks : gset Pubkey).
  rewrite (total_over S L), (total_over S L') by (unfold S; set_solver).
  apply sumZ_change; [apply NoDup_elements|done| |].
  - intros k Hk. apply elem_of_elements. unfold S. set_solver.
  - intros k _ Hk. by apply Hsame.
Qed.

Lemma total_ext L L' : (∀ k, f (account_at L' k) = f (account_at L k)) → total f L' = total f L.
Proof. intros Hsame. rewrite (total_change L L' []); [simpl; unfold sumZ; simpl; lia|constructor|done]. Qed.

Lemma total_change_1 L L' k :
  (∀ j, j ≠ k → f (account_at L' j) = f (account_at L j)) →
  total f L' = total f L + (f (account_at L' k) - f (account_at L k)).
Proof.
  intros Hsame. rewrite (total_change L L' [k]); [unfold sumZ; simpl; lia|apply NoDup_singleton|].
  intros j Hj. apply Hsame. set_solver.
Qed.

Lemma total_change_2 L L' k1 k2 :
  k1 ≠ k2 → (∀ j, j ≠ k1 → j ≠ k2 → f (account_at L' j) = f (account_at L j)) →
  total f L' = total f L + (f (account_at L' k1) - f (account_at L k1)) + (f (account_at L' k2) - f (account_at L k2)).
Proof.
  intros Hne Hsame. rewrite (total_change L L' [k1; k2]).
  - unfold sumZ. simpl. lia.
  - apply NoDup_cons. split; [set_solver|apply NoDup_singleton].
  - intros j Hj. apply Hsame; set_solver.
Qed.

(** Nothing to sum. *)
Lemma total_zero L : (∀ k, f (account_at L k) = 0) → total f L = 0.
Proof.
  intros Hz. unfold total. induction (elements (dom L)) as [|k l IH]; [done|].
  rewrite fmap_cons, sumZ_cons, Hz, IH. done.
Qed.

Lemma total_nonneg_le L k : (∀ j, 0 ≤ f (account_at L j)) → f (account_at L k) ≤ total f L.
Proof.
  intros Hpos. set (S := dom L ∪ {[ k ]} : gset Pubkey). rewrite (total_over S L) by (unfold S; set_solver).
  assert (k ∈ elements S) as Hin by (apply elem_of_elements; unfold S; set_solver).
  apply list_elem_of_split in Hin as (l1 & l2 & ->). rewrite fmap_app, fmap_cons, sumZ_app, sumZ_cons.
  assert (∀ l, 0 ≤ sumZ ((λ k, f (account_at L k)) <$> l)) as Hl.
  { intros l. apply sumZ_nonneg. intros x (j & -> & _)%list_elem_of_fmap. apply Hpos. }
  pose proof (Hl l1). pose proof (Hl l2). lia.
Qed.

Lemma total_nonneg_le_2 L j k :
  j ≠ k → (∀ i, 0 ≤ f (account_at L i)) → f (account_at L j) + f (account_at L k) ≤ total f L.
Proof.
  intros Hne Hpos. set (L' := <[j := account_default]> L).
  assert (∀ i, account_at L' i = if decide (i = j) then account_default else account_at L i) as Hat by (intros; apply account_at_insert).
  pose proof (total_change_1 L L' j) as Hd. pose proof (total_nonneg_le L' k) as Hle.
  rewrite !Hat, decide_True, f_default in Hd by done. rewrite Hat, decide_False in Hle by done.
  specialize (Hd ltac:(intros i Hi; by rewrite Hat, decide_False)).
  specialize (Hle ltac:(intros i; rewrite Hat; destruct (decide (i = j)); [by rewrite f_default|apply Hpos])). lia.
Qed.

End total.

(** * The accounts of the token program *)

Section inv.
Context `{TokenSdk, !TokenSdkLaws} (P : Pubkey).

(** The initialized token account or mint that an account holds. *)
Definition token_of (a : AccountSharedData) : option Account :=
  if decide (acc_owner a = P ∧ length (acc_data a) = Account_LEN) then
    match AccountPack.unpack_from_slice (acc_data a) with
    | Ok t => if account_is_initialized t then Some t else None
    | Err _ => None
    end
  else None.

Definition mint_of (a : AccountSharedData) : option Mint :=
  if decide (acc_owner a = P ∧ length (acc_data a) = Mint_LEN) then
    match MintPack.unpack_from_slice (acc_data a) with
    | Ok m => if mint_is_initialized m then Some m else None
    | Err _ => None
    end
  else None.

(** The tokens of mint [m] that an account holds, and those that all do. *)
Definition balance (m : Pubkey) (a : AccountSharedData) : Z :=
  match token_of a with
  | Some t => if mint t =? m then amount t else 0
  | None => 0
  end.
Definition held (m : Pubkey) (L : Accounts) : Z := total (balance m) L.

(** What the program keeps true of one account. *)
Record account_ok (a : AccountSharedData) : Prop := {
  ok_bytes : Bytes (acc_data a);
  ok_lamports : is_u64 (acc_lamports a);
  ok_account : acc_owner a = P → length (acc_data a) = Account_LEN →
    ∃ t, AccountPack.unpack_from_slice (acc_data a) = Ok t ∧ (state t = Uninitialized → Zeroed (acc_data a));
  ok_mint : acc_owner a = P → length (acc_data a) = Mint_LEN →
    ∃ m, MintPack.unpack_from_slice (acc_data a) = Ok m ∧ (mint_is_initialized m = false → Zeroed (acc_data a));
  ok_multisig : acc_owner a = P → length (acc_data a) = Multisig_LEN →
    ∃ m, MultisigPack.unpack_from_slice (acc_data a) = Ok m ∧
      (multisig_is_initialized m = false → Zeroed (acc_data a)) ∧
      (multisig_is_initialized m = true →
       is_valid_signer_index (multisig_m m) = true ∧ is_valid_signer_index (multisig_n m) = true);
  ok_native t : token_of a = Some t →
    (mint t = native_mint_id ↔ is_native t = true) ∧
    ∀ r, is_native_reserve t = Some r → 0 < r ∧ amount t + r ≤ acc_lamports a;
  ok_kept : token_of a ≠ None ∨ mint_of a ≠ None → 0 < acc_lamports a;
}.

Record token_inv (L : Accounts) : Prop := {
  inv_account k : account_ok (account_at L k);
  inv_mint k t : token_of (account_at L k) = Some t → mint t ≠ native_mint_id →
    is_Some (mint_of (account_at L (mint t)));
  inv_supply k m : mint_of (account_at L k) = Some m → k ≠ native_mint_id → supply m = held k L;
}.

Lemma token_of_holds a t :
  token_of a = Some t ↔ acc_owner a = P ∧ holds_account (acc_data a) t ∧ state t ≠ Uninitialized.
Proof.
  unfold token_of, holds_account. split.
  - case_decide as Hd; [|done]. destruct (AccountPack.unpack_from_slice _) as [t'|]; [|done].
    destruct (account_is_initialized t') eqn:Hi; [|done]. intros [= ->].
    apply bool_decide_eq_true in Hi. naive_solver.
  - intros (Ho & [Hl Hu] & Hs). rewrite decide_True by done. rewrite Hu.
    unfold account_is_initialized. by rewrite bool_decide_eq_true_2.
Qed.

Lemma mint_of_holds a m :
  mint_of a = Some m ↔ acc_owner a = P ∧ holds_mint (acc_data a) m ∧ mint_is_initialized m = true.
Proof.
  unfold mint_of, holds_mint. split.
  - case_decide as Hd; [|done]. destruct (MintPack.unpack_from_slice _) as [m'|]; [|done].
    destruct (mint_is_initialized m') eqn:Hi; [|done]. intros [= ->]. naive_solver.
  - intros (Ho & [Hl Hu] & Hi). rewrite decide_True by done. by rewrite Hu, Hi.
Qed.

Lemma foreign_views a : acc_owner a ≠ P → token_of a = None ∧ mint_of a = None.
Proof. intros Ho. unfold token_of, mint_of. by rewrite !decide_False by tauto. Qed.

Lemma balance_default m : acc_owner account_default ≠ P → balance m account_default = 0.
Proof. intros Ho. unfold balance. by rewrite (proj1 (foreign_views _ Ho)). Qed.

(** Zeroed data is an account that is not initialized yet. *)
Lemma unpack_zeroed :
  (∃ t, AccountPack.unpack_from_slice (replicate Account_LEN 0) = Ok t ∧ state t = Uninitialized) ∧
  (∃ m, MintPack.unpack_from_slice (replicate Mint_LEN 0) = Ok m ∧ mint_is_initialized m = false ∧ supply m = 0) ∧
  (∃ m, MultisigPack.unpack_from_slice (replicate Multisig_LEN 0) = Ok m ∧ multisig_is_initialized m = false).
Proof.
  split_and!.
  - destruct (AccountPack.unpack_from_slice (replicate Account_LEN 0)) as [t|] eqn:E; [|by vm_compute in E].
    exists t. split; [done|]. vm_compute in E. by injection E as <-.
  - destruct (MintPack.unpack_from_slice (replicate Mint_LEN 0)) as [t|] eqn:E; [|by vm_compute in E].
    exists t. split; [done|]. vm_compute in E. by injection E as <-.
  - destruct (MultisigPack.unpack_from_slice (replicate Multisig_LEN 0)) as [t|] eqn:E; [|by vm_compute in E].
    exists t. split; [done|]. vm_compute in E. by injection E as <-.
Qed.

Lemma zeroed_views a : Zeroed (acc_data a) → token_of a = None ∧ mint_of a = None.
Proof.
  intros Hz%Zeroed_replicate. destruct unpack_zeroed as ((t & Ht & Hs) & (m & Hm & Hi & _) & _). split.
  - destruct (token_of a) as [t'|] eqn:E; [|done]. apply token_of_holds in E as (_ & [Hl Hu] & Hst).
    rewrite Hz, Hl, Ht in Hu. injection Hu as ->. done.
  - destruct (mint_of a) as [m'|] eqn:E; [|done]. apply mint_of_holds in E as (_ & [Hl Hu] & Hst).
    rewrite Hz, Hl, Hm in Hu. injection Hu as ->. congruence.
Qed.

Lemma account_ok_zeroed a :
  Bytes (acc_data a) → is_u64 (acc_lamports a) → Zeroed (acc_data a) → account_ok a.
Proof.
  intros Hb Hl Hz. destruct (zeroed_views a Hz) as [Ht Hm].
  destruct unpack_zeroed as ((t & Hut & Hs) & (m & Hum & Hi & _) & (ms & Hums & His)).
  pose proof (proj1 (Zeroed_replicate _) Hz) as Hr.
  split; [done|done|..]; rewrite ?Ht, ?Hm.
  - intros _ Hlen. rewrite Hr, Hlen. exists t. split; [done|]. intros _. by apply Forall_replicate.
  - intros _ Hlen. rewrite Hr, Hlen. exists m. split; [done|]. intros _. by apply Forall_replicate.
  - intros _ Hlen. rewrite Hr, Hlen. exists ms. split_and!; [done|intros _; by apply Forall_replicate|congruence].
  - done.
  - by intros [|].
Qed.

Lemma account_ok_foreign a :
  acc_owner a ≠ P → Bytes (acc_data a) → is_u64 (acc_lamports a) → account_ok a.
Proof.
  intros Ho Hb Hl. destruct (foreign_views a Ho) as [Ht Hm]. split; rewrite ?Ht, ?Hm; try done. by intros [|].
Qed.

(** * Steps that keep the invariant *)

Hypothesis P_nonzero : P ≠ 0.

Lemma balance_default_0 m : balance m account_default = 0.
Proof. apply balance_default. simpl. congruence. Qed.

(** No account has tokens of a mint that does not exist. *)
Lemma held_no_mint L k :
  token_inv L → k ≠ native_mint_id → mint_of (account_at L k) = None → held k L = 0.
Proof.
  intros Hinv Hk Hm. apply total_zero. intros j. unfold balance.
  destruct (token_of (account_at L j)) as [t|] eqn:Ht; [|done].
  destruct (Z.eqb_spec (mint t) k) as [Hmt|]; [|done]. subst k.
  destruct (inv_mint L Hinv j t Ht Hk) as [m Hm']. congruence.
Qed.

Lemma inv_step L L' :
  token_inv L → (∀ k, account_ok (account_at L' k)) →
  (∀ k m', k ≠ native_mint_id → mint_of (account_at L' k) = Some m' →
     (∃ m, mint_of (account_at L k) = Some m ∧ supply m' - supply m = held k L' - held k L) ∨
     (mint_of (account_at L k) = None ∧ supply m' = 0 ∧ held k L' = held k L)) →
  (∀ k t', token_of (account_at L' k) = Some t' → mint t' ≠ native_mint_id →
     is_Some (mint_of (account_at L' (mint t')))) →
  token_inv L'.
Proof.
  intros Hinv Hok Hs Ht. split; [done|done|]. intros k m' Hm' Hk.
  destruct (Hs k m' Hk Hm') as [(m & Hm & Hd)|(Hm & -> & ->)].
  - pose proof (inv_supply L Hinv k m Hm Hk). lia.
  - symmetry. by apply held_no_mint.
Qed.

Definition mint_sim (o o' : option Mint) : Prop :=
  match o, o' with
  | Some m, Some m' => supply m' = supply m
  | None, None => True
  | _, _ => False
  end.

(** Steps that leave the balances of the accounts as they are. *)
Lemma inv_sim L L' :
  token_inv L → (∀ k, account_ok (account_at L' k)) →
  (∀ k m, m ≠ native_mint_id → balance m (account_at L' k) = balance m (account_at L k)) →
  (∀ k, mint_sim (mint_of (account_at L k)) (mint_of (account_at L' k))) →
  (∀ k t', token_of (account_at L' k) = Some t' → mint t' ≠ native_mint_id →
     is_Some (mint_of (account_at L (mint t')))) →
  token_inv L'.
Proof.
  intros Hinv Hok Hbal Hsim Ht. apply (inv_step L); [done|done|..].
  - intros k m' Hk Hm'. left. specialize (Hsim k). rewrite Hm' in Hsim.
    destruct (mint_of (account_at L k)) as [m|]; [|done]. exists m. split; [done|].
    unfold held. rewrite (total_ext _ (balance_default_0 k) L L'); [simpl in Hsim; lia|]. intros j. by apply Hbal.
  - intros k t' Ht' Hm. destruct (Ht k t' Ht' Hm) as [m Hmm]. specialize (Hsim (mint t')). rewrite Hmm in Hsim.
    destruct (mint_of (account_at L' (mint t'))); [eauto|done].
Qed.

Lemma inv_views L L' :
  token_inv L →
  (∀ k, token_of (account_at L' k) = token_of (account_at L k) ∧
     mint_of (account_at L' k) = mint_of (account_at L k) ∧ account_ok (account_at L' k)) →
  token_inv L'.
Proof.
  intros Hinv Hviews.
  apply (inv_sim L); [done|apply Hviews|..].
  - intros k m _. unfold balance. by rewrite (proj1 (Hviews k)).
  - intros k. destruct (Hviews k) as (_ & -> & _). by destruct (mint_of (account_at L k)).
  - intros k t'. rewrite (proj1 (Hviews k)). apply Hinv.
Qed.

(** What the other programs do. *)
Lemma inv_protected L L' :
  token_inv L → (∀ k, protected P (account_at L k) (account_at L' k)) →
  (∀ k, Bytes (acc_data (account_at L' k)) ∧ is_u64 (acc_lamports (account_at L' k))) → token_inv L'.
Proof.
  intros Hinv Hprot Htyped. apply (inv_views L); [done|]. intros k. destruct (Htyped k) as [Hb Hl], (Hprot k) as [Hown Hnew], (inv_account L Hinv k).
  destruct (decide (acc_owner (account_at L k) = P)) as [Ho|Ho].
  - destruct (Hown Ho) as (Hd & Ho' & _ & Hle).
    assert (token_of (account_at L' k) = token_of (account_at L k)) as Ht by (unfold token_of; by rewrite Hd, Ho, Ho').
    assert (mint_of (account_at L' k) = mint_of (account_at L k)) as Hm by (unfold mint_of; by rewrite Hd, Ho, Ho').
    split_and!; [done|done|]. split; rewrite ?Ht, ?Hm, ?Hd; [done|done|auto..|].
    + intros t Htk. destruct (ok_native0 t Htk) as [? Hr]. split; [done|]. intros r Hrr. specialize (Hr r Hrr). lia.
    + intros Hv. specialize (ok_kept0 Hv). lia.
  - destruct (foreign_views _ Ho) as [-> ->]. destruct (decide (acc_owner (account_at L' k) = P)) as [Ho'|Ho'].
    + destruct (zeroed_views _ (Hnew Ho Ho')). auto using account_ok_zeroed.
    + destruct (foreign_views _ Ho'). auto using account_ok_foreign.
Qed.

(** Accounts without lamports are dropped at the end of a transaction. *)
Lemma inv_purge L L' :
  token_inv L →
  (∀ k, account_at L' k = if acc_lamports (account_at L k) =? 0 then account_default else account_at L k) →
  token_inv L'.
Proof.
  intros Hinv Hp. assert (acc_owner account_default ≠ P) as Hd by (simpl; congruence).
  apply (inv_views L); [done|]. intros k. rewrite Hp. destruct (Z.eqb_spec (acc_lamports (account_at L k)) 0) as [Hz|Hz].
  - destruct (foreign_views _ Hd) as [-> ->].
    assert (¬ (token_of (account_at L k) ≠ None ∨ mint_of (account_at L k) ≠ None)) as Hn.
    { intros Hv. apply (inv_account L Hinv k) in Hv. lia. }
    split_and!; [destruct (token_of _); naive_solver|destruct (mint_of _); naive_solver|].
    apply account_ok_foreign; [done|constructor|done].
  - split_and!; [done..|]. apply Hinv.
Qed.

End inv.
