(* ===== verification/TokenConserve.v ===== *)
(** The instructions of the token program keep its invariant, as far as the runtime
    writes back what they did. *)

From S2P Require Import Prelude Bytes TransactionContext TransactionContextProps.
From S2P Require Import TransactionExec TokenState TokenStateProps TokenInstruction.
From S2P Require Import TokenAmount TokenProcessor TokenSpec TokenRefine TokenAuth TokenInv.

Section conserve.
Context `{TokenSdk, !TokenSdkLaws} (P : Pubkey) (P_nonzero : P ≠ 0) (infos : list AccountInfo) (s : State).
Hypothesis Hinv : token_inv P (mem s).
Hypothesis Hok : infos_ok infos s.

Abbreviation at_key m k := (account_at m k).

(** * Writing one account *)

Lemma at_set_data t info d k :
  at_key (mem (set_data info d t)) k =
    if decide (k = key info) then set_acc_data d (info_account t info) else at_key (mem t) k.
Proof. apply account_at_insert. Qed.

Lemma set_acc_data_id a : set_acc_data (acc_data a) a = a.
Proof. by destruct a. Qed.

Lemma holds_ok info : account_ok P (info_account s info).
Proof. apply Hinv. Qed.

Lemma wf_account info a : info ∈ infos → holds_account (data s info) a → WfAccount a.
Proof. by apply holds_account_wf. Qed.

(** The token account that an account of the program holds after a write. *)
Lemma written_account o a' :
  account_ok P o → acc_owner o = P → length (acc_data o) = Account_LEN → WfAccount a' → state a' ≠ Uninitialized →
  let n := set_acc_data (AccountPack.pack_into_slice a' (acc_data o)) o in
  token_of P n = Some a' ∧ mint_of P n = None ∧ mint_of P o = None.
Proof.
  intros [Hb _ _ _ _ _ _] Ho Hl Hwf Hst n.
  destruct (Account_pack_wf a' _ Hwf Hb Hl) as [_ Hlen].
  assert (holds_account (acc_data n) a') as Hh by (split; [done|by apply Account_unpack_pack]).
  split_and!.
  - apply token_of_holds. done.
  - unfold mint_of, n. cbn [acc_data acc_owner set_acc_data]. rewrite decide_False; [done|]. rewrite Hlen. by intros [_ ?].
  - unfold mint_of. rewrite decide_False; [done|]. rewrite Hl. by intros [_ ?].
Qed.

Lemma written_account_ok o a' lam :
  account_ok P o → acc_owner o = P → length (acc_data o) = Account_LEN → WfAccount a' → state a' ≠ Uninitialized →
  is_u64 lam → 0 < lam → (mint a' = native_mint_id ↔ is_native a' = true) →
  (∀ r, is_native_reserve a' = Some r → 0 < r ∧ amount a' + r ≤ lam) →
  account_ok P (set_acc_data (AccountPack.pack_into_slice a' (acc_data o)) (set_acc_lamports lam o)).
Proof.
  intros Hoo Ho Hl Hwf Hst Hlam Hpos Hnat Hres. pose proof (ok_bytes _ _ Hoo) as Hb.
  destruct (Account_pack_wf a' _ Hwf Hb Hl) as [Hbytes Hlen]. pose proof (Account_unpack_pack a' _ Hwf Hl) as Hu.
  set (n := set_acc_data _ _). assert (acc_data n = AccountPack.pack_into_slice a' (acc_data o)) as Hd by done.
  split; rewrite ?Hd, ?Hlen; try done.
  - intros _ _. exists a'. done.
  - intros t Ht. apply token_of_holds in Ht as (_ & [_ Ht] & _). rewrite Hd, Hu in Ht. by injection Ht as <-.
Qed.

(** The account where nothing may change. *)
Lemma inv_foreign info d :
  ¬ owned P info s → allowed P (info_account s info) (set_acc_data d (info_account s info)) →
  token_inv P (mem (set_data info d s)).
Proof.
  intros Ho Hal. destruct (allowed_foreign _ _ _ Hal Ho) as [Hd _]. cbn [acc_data set_acc_data] in Hd.
  apply (inv_views P P_nonzero (mem s)); [done|]. intros k. rewrite at_set_data.
  destruct (decide (k = key info)) as [->|Hk]; [|split_and!; [done..|apply Hinv]].
  rewrite Hd, set_acc_data_id. split_and!; [done..|apply Hinv].
Qed.

(** A token account [a] is overwritten by [a']; only accounts of the program matter. *)
Lemma inv_write_account info a a' :
  holds_account (data s info) a → WfAccount a' → state a' ≠ Uninitialized →
  allowed P (info_account s info) (set_acc_data (AccountPack.pack_into_slice a' (data s info)) (info_account s info)) →
  (owned P info s →
     (mint a' = native_mint_id ↔ is_native a' = true) ∧
     (∀ r, is_native_reserve a' = Some r → 0 < r ∧ amount a' + r ≤ lamports s info) ∧ 0 < lamports s info ∧
     (∀ m, m ≠ native_mint_id → (if mint a' =? m then amount a' else 0) = balance P m (info_account s info)) ∧
     (mint a' ≠ native_mint_id → is_Some (mint_of P (at_key (mem s) (mint a'))))) →
  token_inv P (mem (write_account info a' s)).
Proof.
  intros [Hl Ha] Hwf Hst Hal Hown. unfold write_account.
  destruct (decide (info_owner s info = P)) as [Ho|Ho].
  - destruct (Hown Ho) as (Hnat & Hres & Hpos & Hbal & Hmint).
    destruct (written_account _ a' (holds_ok info) Ho Hl Hwf Hst) as (Ht & Hm & Hm0).
    change (acc_data (info_account s info)) with (data s info) in Ht, Hm.
    apply (inv_sim P P_nonzero (mem s)); [done|..]; intros k; rewrite at_set_data; destruct (decide (k = key info)) as [->|Hk].
    + apply (written_account_ok _ a' (lamports s info)); try done; apply holds_ok.
    + apply Hinv.
    + intros m Hmn. unfold balance at 1. rewrite Ht. by apply Hbal.
    + done.
    + change (at_key (mem s) (key info)) with (info_account s info). by rewrite Hm, Hm0.
    + by destruct (mint_of P (at_key (mem s) k)).
    + rewrite Ht. intros t' [= <-]. done.
    + apply Hinv.
  - by apply inv_foreign.
Qed.

(** Updates of fields that the invariant does not speak of. *)
Lemma inv_update_account info a a' :
  holds_account (data s info) a → state a ≠ Uninitialized → WfAccount a' → state a' ≠ Uninitialized →
  allowed P (info_account s info) (set_acc_data (AccountPack.pack_into_slice a' (data s info)) (info_account s info)) →
  mint a' = mint a → amount a' = amount a → is_native_reserve a' = is_native_reserve a →
  token_inv P (mem (write_account info a' s)).
Proof.
  intros Hh Hst Hwf Hst' Hal Hm Ham Hres. eapply inv_write_account; [done..|]. intros Ho.
  assert (token_of P (info_account s info) = Some a) as Ht by (by apply token_of_holds).
  destruct (holds_ok info) as [_ _ _ _ _ Hnat Hkept]. destruct (Hnat a Ht) as [Hnm Hr].
  unfold is_native in *. rewrite Hm, Ham, Hres. split_and!; [done|done| |..].
  - apply Hkept. left. by rewrite Ht.
  - intros m _. unfold balance. by rewrite Ht.
  - apply (inv_mint P (mem s) Hinv (key info) a Ht).
Qed.

(** * Writing one mint *)

Lemma written_mint o m' :
  account_ok P o → acc_owner o = P → length (acc_data o) = Mint_LEN → WfMint m' → mint_is_initialized m' = true →
  let n := set_acc_data (MintPack.pack_into_slice m' (acc_data o)) o in
  mint_of P n = Some m' ∧ token_of P n = None ∧ token_of P o = None.
Proof.
  intros [Hb _ _ _ _ _ _] Ho Hl Hwf Hst n.
  destruct (Mint_pack_wf m' _ Hwf Hb Hl) as [_ Hlen].
  assert (holds_mint (acc_data n) m') as Hh by (split; [done|by apply Mint_unpack_pack]).
  split_and!.
  - apply mint_of_holds. done.
  - unfold token_of, n. cbn [acc_data acc_owner set_acc_data]. rewrite decide_False; [done|]. rewrite Hlen. by intros [_ ?].
  - unfold token_of. rewrite decide_False; [done|]. rewrite Hl. by intros [_ ?].
Qed.

Lemma written_mint_ok o m' :
  account_ok P o → acc_owner o = P → length (acc_data o) = Mint_LEN → WfMint m' → mint_is_initialized m' = true →
  0 < acc_lamports o → account_ok P (set_acc_data (MintPack.pack_into_slice m' (acc_data o)) o).
Proof.
  intros Hoo Ho Hl Hwf Hst Hpos. pose proof (ok_bytes _ _ Hoo) as Hb.
  destruct (Mint_pack_wf m' _ Hwf Hb Hl) as [Hbytes Hlen]. pose proof (Mint_unpack_pack m' _ Hwf Hl) as Hu.
  destruct (written_mint o m' Hoo Ho Hl Hwf Hst) as (_ & Ht & _).
  set (n := set_acc_data _ _) in *. assert (acc_data n = MintPack.pack_into_slice m' (acc_data o)) as Hd by done.
  split; rewrite ?Hd, ?Hlen, ?Ht; try done.
  - apply Hoo.
  - intros _ _. exists m'. split; [done|]. rewrite Hst. done.
Qed.

Lemma inv_update_mint info m m' :
  holds_mint (data s info) m → mint_is_initialized m = true → WfMint m' → mint_is_initialized m' = true →
  allowed P (info_account s info) (set_acc_data (MintPack.pack_into_slice m' (data s info)) (info_account s info)) →
  supply m' = supply m → token_inv P (mem (write_mint info m' s)).
Proof.
  intros Hh Hi Hwf Hi' Hal Hs. unfold write_mint.
  destruct (decide (info_owner s info = P)) as [Ho|Ho]; [|by apply inv_foreign].
  assert (mint_of P (info_account s info) = Some m) as Hm by (by apply mint_of_holds).
  destruct (written_mint _ m' (holds_ok info) Ho (proj1 Hh) Hwf Hi') as (Hm' & Ht & Ht0).
  assert (0 < lamports s info) as Hpos by (apply (holds_ok info); right; by rewrite Hm).
  change (acc_data (info_account s info)) with (data s info) in Hm', Ht.
  apply (inv_sim P P_nonzero (mem s)); [done|..]; intros k; rewrite at_set_data; destruct (decide (k = key info)) as [->|Hk].
  - apply written_mint_ok; try done; [apply holds_ok|apply Hh].
  - apply Hinv.
  - intros x _. unfold balance. change (at_key (mem s) (key info)) with (info_account s info). by rewrite Ht, Ht0.
  - done.
  - change (at_key (mem s) (key info)) with (info_account s info). by rewrite Hm, Hm'.
  - by destruct (mint_of P (at_key (mem s) k)).
  - by rewrite Ht.
  - apply Hinv.
Qed.

Lemma zeroed_supply d m : holds_mint d m → Zeroed d → supply m = 0.
Proof.
  intros [Hl Hm] Hz%Zeroed_replicate. destruct unpack_zeroed as (_ & (m' & Hm' & _ & Hs) & _).
  rewrite Hz, Hl, Hm' in Hm. by injection Hm as <-.
Qed.

Lemma inv_init_mint info m m' :
  holds_mint (data s info) m → mint_is_initialized m = false → WfMint m' → mint_is_initialized m' = true →
  allowed P (info_account s info) (set_acc_data (MintPack.pack_into_slice m' (data s info)) (info_account s info)) →
  supply m' = supply m → 0 < lamports s info → token_inv P (mem (write_mint info m' s)).
Proof.
  intros Hh Hi Hwf Hi' Hal Hs Hpos. unfold write_mint.
  destruct (decide (info_owner s info = P)) as [Ho|Ho]; [|by apply inv_foreign].
  destruct (written_mint _ m' (holds_ok info) Ho (proj1 Hh) Hwf Hi') as (Hm' & Ht & Ht0).
  change (acc_data (info_account s info)) with (data s info) in Hm', Ht.
  assert (mint_of P (info_account s info) = None) as Hm0.
  { destruct (mint_of P (info_account s info)) as [m1|] eqn:E; [|done]. apply mint_of_holds in E as (_ & [_ E] & ?).
    destruct Hh as [_ Hh]. unfold data in Hh. congruence. }
  assert (supply m = 0) as Hs0.
  { destruct (ok_mint _ _ (holds_ok info) Ho (proj1 Hh)) as (m1 & Hm1 & Hz).
    assert (m1 = m) as -> by (destruct Hh as [_ Hh]; unfold data in Hh; congruence).
    eapply zeroed_supply; [done|by apply Hz]. }
  set (L' := mem (set_data info (MintPack.pack_into_slice m' (data s info)) s)).
  assert (∀ k, held P k L' = held P k (mem s)) as Hheld.
  { intros k. apply total_ext; [by apply balance_default_0|]. intros j. unfold L'. rewrite at_set_data.
    destruct (decide (j = key info)) as [->|]; [|done]. unfold balance.
    change (at_key (mem s) (key info)) with (info_account s info). by rewrite Ht, Ht0. }
  apply (inv_step P (mem s)); [done|..]; intros k; unfold L'; rewrite at_set_data; destruct (decide (k = key info)) as [->|Hk].
  - apply written_mint_ok; try done; [apply holds_ok|apply Hh].
  - apply Hinv.
  - rewrite Hm'. intros ? _ [= <-]. right. split_and!; [done|lia|apply Hheld].
  - intros m1 _ Hm1. left. exists m1. split; [done|]. fold L'. rewrite Hheld. lia.
  - by rewrite Ht.
  - intros t' Ht' Hn. rewrite at_set_data. destruct (decide (mint t' = key info)); [rewrite Hm'; eauto|].
    by apply (inv_mint P (mem s) Hinv k).
Qed.

Lemma inv_init_multisig info m m' :
  holds_multisig (data s info) m → WfMultisig m' → multisig_is_initialized m' = true →
  is_valid_signer_index (multisig_m m') = true → is_valid_signer_index (multisig_n m') = true →
  allowed P (info_account s info) (set_acc_data (MultisigPack.pack_into_slice m' (data s info)) (info_account s info)) →
  token_inv P (mem (write_multisig info m' s)).
Proof.
  intros Hh Hwf Hi Hvm Hvn Hal. unfold write_multisig.
  destruct (decide (info_owner s info = P)) as [Ho|Ho]; [|by apply inv_foreign].
  destruct (Multisig_pack_wf m' (data s info) Hwf) as [Hb Hl].
  assert (∀ d, length d = Multisig_LEN →
    token_of P (set_acc_data d (info_account s info)) = None ∧ mint_of P (set_acc_data d (info_account s info)) = None) as Hnone.
  { intros d Hd. unfold token_of, mint_of. cbn [acc_data set_acc_data]. rewrite Hd, !decide_False by (by intros [_ ?]). done. }
  destruct (Hnone _ Hl) as [Ht Hm]. destruct (Hnone _ (proj1 Hh)) as [Ht0 Hm0].
  unfold data in Ht0, Hm0. rewrite set_acc_data_id in Ht0, Hm0.
  apply (inv_views P P_nonzero (mem s)); [done|]. intros k. rewrite at_set_data.
  destruct (decide (k = key info)) as [->|]; [|split_and!; [done..|apply Hinv]].
  change (at_key (mem s) (key info)) with (info_account s info). rewrite Ht, Hm, Ht0, Hm0. split_and!; [done..|].
  set (n := set_acc_data _ _) in *. assert (acc_data n = MultisigPack.pack_into_slice m' (data s info)) as Hd by done.
  split; rewrite ?Hd, ?Hl, ?Ht, ?Hm; try done.
  - apply (holds_ok info).
  - intros _ _. exists m'. rewrite Multisig_unpack_pack by done. split_and!; [done|by rewrite Hi|done].
  - by intros [|].
Qed.

(** * Transfers *)

(** A write that changes a token account can only be written back to an account of
    the program. *)
Lemma write_owned info a a' o :
  info ∈ infos → holds_account (data s info) a → WfAccount a' → amount a' ≠ amount a →
  acc_data o = AccountPack.pack_into_slice a' (data s info) → allowed P (info_account s info) o → owned P info s.
Proof.
  intros Hin [Hl Ha] Hwf Hne Ho Hal. destruct (decide (info_owner s info = P)) as [|Hf]; [done|].
  destruct (allowed_foreign _ _ _ Hal Hf) as [Hd _]. rewrite Ho in Hd.
  pose proof (Account_unpack_pack a' _ Hwf Hl) as Hu. rewrite Hd in Hu. unfold data in Ha. congruence.
Qed.

Lemma write_mint_owned info m m' o :
  info ∈ infos → holds_mint (data s info) m → WfMint m' → supply m' ≠ supply m →
  acc_data o = MintPack.pack_into_slice m' (data s info) → allowed P (info_account s info) o → owned P info s.
Proof.
  intros Hin [Hl Ha] Hwf Hne Ho Hal. destruct (decide (info_owner s info = P)) as [|Hf]; [done|].
  destruct (allowed_foreign _ _ _ Hal Hf) as [Hd _]. rewrite Ho in Hd.
  pose proof (Mint_unpack_pack m' _ Hwf Hl) as Hu. rewrite Hd in Hu. unfold data in Ha. congruence.
Qed.

Lemma at_transfer (b : bool) source destination a1 b1 n k :
  key source ≠ key destination →
  let s1 := if b then move_lamports source destination n s else s in
  let d := if b then n else 0 in
  at_key (mem (write_account destination b1 (write_account source a1 s1))) k =
    if decide (k = key destination) then
      set_acc_data (AccountPack.pack_into_slice b1 (data s destination))
        (set_acc_lamports (lamports s destination + d) (info_account s destination))
    else if decide (k = key source) then
      set_acc_data (AccountPack.pack_into_slice a1 (data s source))
        (set_acc_lamports (lamports s source - d) (info_account s source))
    else at_key (mem s) k.
Proof.
  intros Hne s1 d.
  assert (∀ i, data s1 i = data s i) as Hd by (intros i; unfold s1; destruct b; [apply data_move_lamports|done]).
  assert (∀ j, at_key (mem s1) j =
    if decide (j = key destination) then set_acc_lamports (lamports s destination + d) (info_account s destination)
    else if decide (j = key source) then set_acc_lamports (lamports s source - d) (info_account s source)
    else at_key (mem s) j) as Hs1.
  { intros j. unfold s1, d. destruct b.
    - unfold move_lamports, set_lamports, update_mem. cbn [mem]. rewrite !account_at_insert.
      destruct (decide (j = key destination)) as [->|]; [|done].
      unfold lamports, info_account. cbn [mem]. by rewrite !account_at_insert, !decide_False by congruence.
    - rewrite Z.add_0_r, Z.sub_0_r. unfold lamports. destruct (decide (j = key destination)) as [->|].
      + unfold info_account. by destruct (at_key (mem s) (key destination)).
      + destruct (decide (j = key source)) as [->|]; [|done]. unfold info_account. by destruct (at_key (mem s) (key source)). }
  unfold write_account. rewrite !at_set_data. destruct (decide (k = key destination)) as [->|Hk].
  - rewrite data_set_data_ne, Hd by congruence. f_equal. unfold info_account at 1.
    rewrite at_set_data, decide_False by congruence. by rewrite Hs1, decide_True.
  - destruct (decide (k = key source)) as [->|]; [|by rewrite Hs1, !decide_False].
    rewrite Hd. f_equal. unfold info_account. by rewrite Hs1, decide_False, decide_True by congruence.
Qed.

(** Tokens of one mint move between two token accounts. *)
Lemma inv_two_tokens L' k1 k2 a b a1 b1 :
  k1 ≠ k2 → (∀ k, k ≠ k1 → k ≠ k2 → at_key L' k = at_key (mem s) k) →
  account_ok P (at_key L' k1) → account_ok P (at_key L' k2) →
  token_of P (at_key (mem s) k1) = Some a → token_of P (at_key (mem s) k2) = Some b →
  token_of P (at_key L' k1) = Some a1 → token_of P (at_key L' k2) = Some b1 →
  mint_of P (at_key L' k1) = mint_of P (at_key (mem s) k1) → mint_of P (at_key L' k2) = mint_of P (at_key (mem s) k2) →
  mint a = mint b → mint a1 = mint a → mint b1 = mint b → amount a1 + amount b1 = amount a + amount b →
  token_inv P L'.
Proof.
  intros Hne Hsame Hok1 Hok2 Hta Htb Hta1 Htb1 Hm1 Hm2 Hm Hma Hmb Hsum.
  assert (∀ k, mint_of P (at_key L' k) = mint_of P (at_key (mem s) k)) as Hmint.
  { intros k. destruct (decide (k = k1)) as [->|]; [done|]. destruct (decide (k = k2)) as [->|]; [done|]. by rewrite Hsame. }
  assert (∀ m, held P m L' = held P m (mem s)) as Hheld.
  { intros m. unfold held. rewrite (total_change_2 _ (balance_default_0 P P_nonzero m) (mem s) L' k1 k2); [|done|].
    - unfold balance. rewrite Hta, Htb, Hta1, Htb1, Hma, Hmb, <-Hm. destruct (mint a =? m); lia.
    - intros j Hj1 Hj2. by rewrite Hsame. }
  apply (inv_step P (mem s)); [done|..].
  - intros k. destruct (decide (k = k1)) as [->|]; [done|]. destruct (decide (k = k2)) as [->|]; [done|].
    rewrite Hsame by done. apply Hinv.
  - intros k m' Hk Hm'. left. rewrite Hmint in Hm'. exists m'. split; [done|]. rewrite Hheld. lia.
  - intros k t'. rewrite Hmint. destruct (decide (k = k1)) as [->|].
    { rewrite Hta1. intros [= <-]. rewrite Hma. by apply (inv_mint P _ Hinv k1). }
    destruct (decide (k = k2)) as [->|].
    { rewrite Htb1. intros [= <-]. rewrite Hmb. by apply (inv_mint P _ Hinv k2). }
    rewrite Hsame by done. apply Hinv.
Qed.

(** The token account [a] of the program gets [x] lamports and becomes [a1]; native
    accounts get as many tokens more as lamports. *)
Lemma moved_account_ok info a a1 x :
  owned P info s → holds_account (data s info) a → state a ≠ Uninitialized → WfAccount a1 → state a1 ≠ Uninitialized →
  mint a1 = mint a → is_native_reserve a1 = is_native_reserve a → is_u64 x →
  (if is_native a then x - lamports s info = amount a1 - amount a else x = lamports s info) →
  account_ok P (set_acc_data (AccountPack.pack_into_slice a1 (data s info)) (set_acc_lamports x (info_account s info))).
Proof.
  intros Ho Ha Hst Hwf Hst1 Hm Hr Hx Hd.
  assert (token_of P (info_account s info) = Some a) as Ht by (by apply token_of_holds).
  destruct (holds_ok info) as [_ _ _ _ _ Hnat Hkept]. destruct (Hnat a Ht) as [Hn Hres].
  assert (0 < lamports s info) as Hpos by (apply Hkept; left; congruence).
  assert (∀ r, is_native_reserve a1 = Some r → 0 < r ∧ amount a1 + r ≤ x) as Hres1.
  { rewrite Hr. intros r Hrr. destruct (Hres r Hrr). unfold is_native in Hd. rewrite Hrr in Hd. simpl in Hd.
    unfold lamports in Hd. lia. }
  apply (written_account_ok _ a1); [apply holds_ok|done|apply Ha|done..| | |done].
  - destruct (is_native a) eqn:Hna; [|lia]. unfold is_native in Hna. rewrite <-Hr in Hna.
    destruct (is_native_reserve a1) as [r|]; [|done]. destruct (Hres1 r eq_refl). destruct (wf_amount _ Hwf). lia.
  - unfold is_native in *. by rewrite Hm, Hr.
Qed.

Lemma inv_transfer source destination a b a1 b1 n :
  key source ≠ key destination → owned P source s → owned P destination s →
  holds_account (data s source) a → state a ≠ Uninitialized → holds_account (data s destination) b → state b ≠ Uninitialized →
  WfAccount a1 → WfAccount b1 → state a1 ≠ Uninitialized → state b1 ≠ Uninitialized →
  mint a = mint b → mint a1 = mint a → mint b1 = mint b → amount a1 = amount a - n → amount b1 = amount b + n →
  is_native_reserve a1 = is_native_reserve a → is_native_reserve b1 = is_native_reserve b → 0 ≤ n →
  (is_native a = true → n ≤ lamports s source ∧ lamports s destination + n ≤ u64_MAX) →
  token_inv P (mem (write_account destination b1
    (write_account source a1 (if is_native a then move_lamports source destination n s else s)))).
Proof.
  intros Hne Ho1 Ho2 Ha Hsa Hb Hsb Hwa Hwb Hsa1 Hsb1 Hm Hma Hmb Ham Hbm Hra Hrb Hn Hlam.
  assert (token_of P (info_account s source) = Some a) as Hta by (by apply token_of_holds).
  assert (token_of P (info_account s destination) = Some b) as Htb by (by apply token_of_holds).
  destruct (ok_native _ _ (holds_ok source) a Hta) as [Hna _], (ok_native _ _ (holds_ok destination) b Htb) as [Hnb _].
  assert (is_native b = is_native a) as Hnab.
  { rewrite Hm in Hna. destruct (is_native a), (is_native b); naive_solver. }
  pose proof (ok_lamports _ _ (holds_ok source)) as Hls. pose proof (ok_lamports _ _ (holds_ok destination)) as Hld.
  destruct (written_account _ a1 (holds_ok source) Ho1 (proj1 Ha) Hwa Hsa1) as (Hta1 & Hma1 & Hma0).
  destruct (written_account _ b1 (holds_ok destination) Ho2 (proj1 Hb) Hwb Hsb1) as (Htb1 & Hmb1 & Hmb0).
  set (L' := mem _). pose proof (λ k, at_transfer (is_native a) source destination a1 b1 n k Hne) as Hat.
  cbn zeta in Hat. fold L' in Hat.
  apply (inv_two_tokens L' (key source) (key destination) a b a1 b1); rewrite ?Hat,
    ?(decide_False (P := key source = key destination)), ?decide_True by done; try done.
  - intros k Hk1 Hk2. by rewrite Hat, !decide_False.
  - apply (moved_account_ok source a a1); try done; unfold is_u64, lamports in *; destruct (is_native a); lia.
  - apply (moved_account_ok destination b b1); try done; rewrite ?Hnab; unfold is_u64, lamports in *; destruct (is_native a); lia.
  - exact (eq_trans Hma1 (eq_sym Hma0)).
  - exact (eq_trans Hmb1 (eq_sym Hmb0)).
  - lia.
Qed.

(** * Minting and burning *)

Lemma at_two_writes info mint_info b1 m1 k :
  key mint_info ≠ key info →
  at_key (mem (write_mint mint_info m1 (write_account info b1 s))) k =
    if decide (k = key mint_info) then
      set_acc_data (MintPack.pack_into_slice m1 (data s mint_info)) (info_account s mint_info)
    else if decide (k = key info) then
      set_acc_data (AccountPack.pack_into_slice b1 (data s info)) (info_account s info)
    else at_key (mem s) k.
Proof.
  intros Hne. unfold write_mint, write_account. rewrite !at_set_data.
  destruct (decide (k = key mint_info)) as [->|]; [|done]. rewrite data_set_data_ne by done. f_equal.
  unfold info_account at 1. by rewrite at_set_data, decide_False.
Qed.

(** The supply of the mint and a token account of the mint change by the same amount. *)
Lemma inv_change_supply info mint_info b b1 m m1 :
  owned P info s → owned P mint_info s →
  holds_account (data s info) b → state b ≠ Uninitialized → is_native b = false → mint b = key mint_info →
  holds_mint (data s mint_info) m → mint_is_initialized m = true →
  WfAccount b1 → state b1 ≠ Uninitialized → mint b1 = mint b → is_native_reserve b1 = is_native_reserve b →
  WfMint m1 → mint_is_initialized m1 = true → supply m1 - supply m = amount b1 - amount b →
  token_inv P (mem (write_mint mint_info m1 (write_account info b1 s))).
Proof.
  intros Ho Hom Hb Hsb Hnb Hmb Hm Him Hwb Hsb1 Hmb1 Hrb Hwm Him1 Hd.
  assert (key mint_info ≠ key info) as Hne by (by eapply mint_account_ne).
  assert (token_of P (info_account s info) = Some b) as Ht by (by apply token_of_holds).
  assert (mint_of P (info_account s mint_info) = Some m) as Hmm by (by apply mint_of_holds).
  destruct (written_account _ b1 (holds_ok info) Ho (proj1 Hb) Hwb Hsb1) as (Ht1 & Hm1 & Hm0).
  destruct (written_mint _ m1 (holds_ok mint_info) Hom (proj1 Hm) Hwm Him1) as (Hmm1 & Htm1 & Htm0).
  set (L' := mem _). pose proof (λ k, at_two_writes info mint_info b1 m1 k Hne) as Hat. fold L' in Hat.
  assert (∀ k, token_of P (at_key L' k) = if decide (k = key info) then Some b1 else token_of P (at_key (mem s) k)) as Htok.
  { intros k. rewrite Hat. destruct (decide (k = key mint_info)) as [->|]; [|by case_decide].
    rewrite decide_False by done. exact (eq_trans Htm1 (eq_sym Htm0)). }
  assert (∀ k, mint_of P (at_key L' k) = if decide (k = key mint_info) then Some m1 else mint_of P (at_key (mem s) k)) as Hmint.
  { intros k. rewrite Hat. destruct (decide (k = key mint_info)); [done|].
    destruct (decide (k = key info)) as [->|]; [exact (eq_trans Hm1 (eq_sym Hm0))|done]. }
  assert (∀ k, held P k L' = held P k (mem s) + if k =? key mint_info then amount b1 - amount b else 0) as Hheld.
  { intros k. unfold held. rewrite (total_change_1 _ (balance_default_0 P P_nonzero k) (mem s) L' (key info)).
    - unfold balance. rewrite Htok, decide_True by done. change (at_key (mem s) (key info)) with (info_account s info).
      rewrite Ht, Hmb1, Hmb. rewrite Z.eqb_sym. destruct (k =? key mint_info); lia.
    - intros j Hj. unfold balance. by rewrite Htok, decide_False. }
  apply (inv_step P (mem s)); [done|..].
  - intros k. rewrite Hat. destruct (decide (k = key mint_info)) as [->|].
    + apply written_mint_ok; try done; [apply holds_ok|apply Hm|]. apply (holds_ok mint_info). right. congruence.
    + destruct (decide (k = key info)) as [->|]; [|apply Hinv].
      apply (moved_account_ok info b b1 (lamports s info)); try done; [apply (holds_ok info)|by rewrite Hnb].
  - intros k m' Hk Hm'. left. rewrite Hheld. rewrite Hmint in Hm'. destruct (decide (k = key mint_info)) as [->|Hkm].
    + injection Hm' as <-. exists m. rewrite Z.eqb_refl. split; [done|lia].
    + exists m'. rewrite (proj2 (Z.eqb_neq _ _)) by done. split; [done|lia].
  - intros k t'. rewrite Htok, Hmint. destruct (decide (mint t' = key mint_info)) as [->|Hmt]; [done|].
    destruct (decide (k = key info)) as [->|]; [|apply Hinv]. intros [= <-]. congruence.
Qed.

(** * Closing *)

Definition closed (info : AccountInfo) : AccountSharedData :=
  {| acc_lamports := 0; acc_data := []; acc_owner := system_program_id;
     acc_executable := acc_executable (info_account s info) |}.

Lemma at_close source destination x k :
  key source ≠ key destination →
  let s1 := set_lamports destination x s in
  let s2 := assign source system_program_id (set_lamports source 0 s1) in
  at_key (mem (set_data source [] s2)) k =
    if decide (k = key source) then closed source
    else if decide (k = key destination) then set_acc_lamports x (info_account s destination)
    else at_key (mem s) k.
Proof.
  intros Hne s1 s2. rewrite at_set_data. unfold s2, s1, closed, assign, set_lamports, update_mem, info_account. cbn [mem].
  destruct (decide (k = key source)) as [->|].
  - by rewrite !account_at_insert, !(decide_True (P := key source = key source)), (decide_False (P := key source = key destination)).
  - by rewrite !account_at_insert, !(decide_False (P := k = key source)).
Qed.

Lemma account_ok_more o x :
  account_ok P o → acc_lamports o ≤ x → is_u64 x → account_ok P (set_acc_lamports x o).
Proof.
  intros [? ? ? ? ? Hnat Hkept] Hle Hx. split; [done|done|done|done|done|..].
  - intros t Ht. destruct (Hnat t Ht) as [Hn Hr]. split; [done|]. intros r Hrr. destruct (Hr r Hrr).
    cbn [acc_lamports set_acc_lamports]. lia.
  - intros Hv. specialize (Hkept Hv). cbn [acc_lamports set_acc_lamports]. lia.
Qed.

Lemma inv_close source destination a :
  key source ≠ key destination → holds_account (data s source) a → state a ≠ Uninitialized →
  is_native a = true ∨ amount a = 0 → lamports s destination + lamports s source ≤ u64_MAX →
  let s1 := set_lamports destination (lamports s destination + lamports s source) s in
  let s2 := assign source system_program_id (set_lamports source 0 s1) in
  (∀ k, allowed P (at_key (mem s) k) (at_key (mem (set_data source [] s2)) k)) →
  token_inv P (mem (set_data source [] s2)).
Proof.
  intros Hne Ha Hst Hzero Hlam s1 s2 Hal. set (L' := mem (set_data source [] s2)) in *.
  pose proof (λ k, at_close source destination (lamports s destination + lamports s source) k Hne) as Hat.
  cbv zeta in Hat. fold s1 s2 L' in Hat.
  assert (owned P source s) as Ho.
  { destruct (decide (info_owner s source = P)) as [|Hf]; [done|]. destruct (allowed_foreign _ _ _ (Hal (key source)) Hf) as [Hd _].
    rewrite Hat, decide_True in Hd by done. destruct Ha as [Hl _]. unfold data, info_account in Hl. rewrite <-Hd in Hl. done. }
  assert (token_of P (info_account s source) = Some a) as Ht by (by apply token_of_holds).
  destruct (ok_native _ _ (holds_ok source) a Ht) as [Hnat _].
  destruct (zeroed_views P (closed source) ltac:(constructor)) as [Htc Hmc].
  assert (mint_of P (info_account s source) = None) as Hms.
  { unfold mint_of. rewrite decide_False; [done|]. destruct Ha as [Hl _]. unfold data in Hl. rewrite Hl. by intros [_ ?]. }
  pose proof (ok_lamports _ _ (holds_ok source)) as Hls. pose proof (ok_lamports _ _ (holds_ok destination)) as Hld.
  apply (inv_sim P P_nonzero (mem s)); [done|..]; intros k; rewrite Hat; destruct (decide (k = key source)) as [->|];
    try (destruct (decide (k = key destination)) as [->|]).
  - apply account_ok_zeroed; [constructor|done|constructor].
  - unfold is_u64, lamports in *. apply account_ok_more; [apply holds_ok|lia|unfold is_u64; lia].
  - apply Hinv.
  - intros m Hm. unfold balance. rewrite Htc. change (at_key (mem s) (key source)) with (info_account s source).
    rewrite Ht. destruct (Z.eqb_spec (mint a) m) as [<-|]; [|done]. destruct Hzero; [tauto|done].
  - done.
  - done.
  - change (at_key (mem s) (key source)) with (info_account s source). by rewrite Hms, Hmc.
  - by destruct (mint_of P (at_key (mem s) (key destination))) eqn:E; change (mint_of P (set_acc_lamports _ _)) with (mint_of P (at_key (mem s) (key destination))); rewrite E.
  - by destruct (mint_of P (at_key (mem s) k)).
  - by rewrite Htc.
  - apply (inv_mint P _ Hinv (key destination)).
  - apply Hinv.
Qed.

(** * Every effect *)

Hypothesis rent_positive : ∀ rent len, 0 < minimum_balance rent len.

Lemma exempt_positive info : exempt info s → 0 < lamports s info.
Proof. intros [rent Hr]. pose proof (rent_positive rent (data_len s info)). lia. Qed.

Lemma inv_init_account info mint_info a a' :
  exempt info s → holds_account (data s info) a → state a = Uninitialized → WfAccount a' → state a' = Initialized →
  mint a' = key mint_info → fresh P info mint_info s a' →
  allowed P (info_account s info) (set_acc_data (AccountPack.pack_into_slice a' (data s info)) (info_account s info)) →
  token_inv P (mem (write_account info a' s)).
Proof.
  intros Hex Ha Hst Hwf Hst' Hm Hfresh Hal. eapply inv_write_account; [done|done|congruence|done|]. intros Ho.
  assert (∀ m, balance P m (info_account s info) = 0) as Hbal.
  { intros m. unfold balance. destruct (token_of P (info_account s info)) as [t|] eqn:E; [|done].
    apply token_of_holds in E as (_ & [_ E] & ?). destruct Ha as [_ Ha]. unfold data in Ha. congruence. }
  unfold is_native. destruct Hfresh as [rent r Hk Hr Ham Hle | m Hk Hr Ham Hom Hh Hi]; rewrite Hr, Ham, Hm; simpl.
  - pose proof (rent_positive rent (data_len s info)). fold r in H1. split_and!; [done| |by apply exempt_positive| |done].
    + intros ? [= <-]. lia.
    + intros m Hmn. rewrite (proj2 (Z.eqb_neq _ _)) by congruence. by rewrite Hbal.
  - split_and!; [done|done|by apply exempt_positive| |].
    + intros x _. rewrite Hbal. by destruct (_ =? _).
    + intros _. exists m. by apply mint_of_holds.
Qed.

Lemma inv_sync info a r :
  owned P info s → holds_account (data s info) a → state a ≠ Uninitialized → is_native_reserve a = Some r →
  r + amount a ≤ lamports s info → info ∈ infos →
  allowed P (info_account s info) (set_acc_data (AccountPack.pack_into_slice (with_amount (lamports s info - r) a) (data s info)) (info_account s info)) →
  token_inv P (mem (write_account info (with_amount (lamports s info - r) a) s)).
Proof.
  intros Ho Ha Hst Hr Hle Hin Hal. pose proof (wf_account info a Hin Ha) as Hwf.
  assert (token_of P (info_account s info) = Some a) as Ht by (by apply token_of_holds).
  destruct (holds_ok info) as [_ Hlam _ _ _ Hnat Hkept]. destruct (Hnat a Ht) as [Hn Hres]. destruct (Hres r Hr).
  assert (mint a = native_mint_id) as Hm by (apply Hn; unfold is_native; by rewrite Hr).
  eapply inv_write_account; [done| |done|done|].
  - destruct Hwf as [? ? Ham ? ? ? ?]. split; try done. unfold is_u64, lamports in *. simpl. lia.
  - intros _. cbn [mint is_native_reserve amount with_amount]. split_and!; [done| |..].
    + intros r' Hr'. replace r' with r by congruence. lia.
    + apply Hkept. left. congruence.
    + intros m Hmn. unfold balance. rewrite Ht, Hm. by rewrite (proj2 (Z.eqb_neq _ _)) by congruence.
    + done.
Qed.

(** What spending leaves as it is. *)
Lemma spends_frame n a a' :
  spends P infos n a s a' → WfAccount a → is_u64 n →
  mint a' = mint a ∧ amount a' = amount a ∧ state a' = state a ∧ is_native_reserve a' = is_native_reserve a ∧
  ∀ x, is_u64 x → WfAccount (with_amount x a').
Proof.
  intros [|k Hd _ Hle] [? ? ? Hdel ? Hda ?] Hn; [split_and!; try done; by split|].
  split_and!; try done. intros x Hx. split; try done; simpl.
  - destruct (_ =? _); [done|]. by rewrite Hd in Hdel.
  - unfold is_u64 in *. lia.
Qed.

Definition written_back (s' : State) : Prop := ∀ k, allowed P (at_key (mem s) k) (at_key (mem s') k).

Lemma written_back_set_data info d :
  written_back (set_data info d s) → allowed P (info_account s info) (set_acc_data d (info_account s info)).
Proof. intros Hal. specialize (Hal (key info)). by rewrite at_set_data, decide_True in Hal. Qed.

Lemma inv_effect_transfer source destination a a' b n :
  source ∈ infos → destination ∈ infos → key source ≠ key destination →
  holds_account (data s source) a → state a = Initialized → holds_account (data s destination) b → state b = Initialized →
  mint a = mint b → is_u64 n → n ≤ amount a → amount b + n ≤ u64_MAX → spends P infos n a s a' →
  (n = 0 → owned P source s ∧ owned P destination s) →
  (is_native a = true → n ≤ lamports s source ∧ lamports s destination + n ≤ u64_MAX) →
  let s1 := if is_native a then move_lamports source destination n s else s in
  let s' := write_account destination (with_amount (amount b + n) b) (write_account source (with_amount (amount a - n) a') s1) in
  written_back s' → token_inv P (mem s').
Proof.
  intros Hin1 Hin2 Hne Ha Hsa Hb Hsb Hm Hn Hle Hmax Hsp Hzero Hlam s1 s' Hal.
  pose proof (wf_account _ _ Hin1 Ha) as Hwa. pose proof (wf_account _ _ Hin2 Hb) as Hwb.
  destruct (spends_frame _ _ _ Hsp Hwa Hn) as (Hm' & Ham' & Hst' & Hr' & Hwf').
  pose proof (wf_amount _ Hwa). pose proof (wf_amount _ Hwb).
  assert (WfAccount (with_amount (amount a - n) a')) as Hwa1 by (apply Hwf'; unfold is_u64 in *; lia).
  assert (WfAccount (with_amount (amount b + n) b)) as Hwb1.
  { destruct Hwb. split; try done. unfold is_u64 in *. simpl. lia. }
  assert (owned P source s ∧ owned P destination s) as [Ho1 Ho2].
  { destruct (decide (n = 0)) as [|Hn0]; [auto|]. pose proof (Hal (key source)) as H1'. pose proof (Hal (key destination)) as H2'.
    unfold s', s1 in H1', H2'. rewrite at_transfer in H1', H2' by done. rewrite decide_False, decide_True in H1' by done. rewrite decide_True in H2' by done.
    split; [refine (write_owned _ _ _ _ Hin1 Ha Hwa1 _ _ H1')|refine (write_owned _ _ _ _ Hin2 Hb Hwb1 _ _ H2')]; simpl; done || lia. }
  apply (inv_transfer source destination a b _ _ n); try done; simpl; congruence || (unfold is_u64 in *; lia).
Qed.

(** Minting, with [n] positive, and burning. *)
Lemma inv_effect_supply info mint_info a b1 m n :
  info ∈ infos → mint_info ∈ infos → holds_mint (data s mint_info) m → mint_is_initialized m = true →
  holds_account (data s info) a → state a = Initialized → is_native a = false → mint a = key mint_info →
  WfAccount b1 → state b1 = state a → mint b1 = mint a → is_native_reserve b1 = is_native_reserve a →
  amount b1 = amount a + n → is_u64 (supply m + n) →
  (n = 0 → owned P info s ∧ owned P mint_info s) →
  let s' := write_mint mint_info (with_supply (supply m + n) m) (write_account info b1 s) in
  written_back s' → token_inv P (mem s').
Proof.
  intros Hin1 Hin2 Hm Hi Ha Hsa Hna Hmt Hwb Hsb Hmb Hrb Ham Hsup Hzero s' Hal.
  pose proof (mint_account_ne _ _ _ _ _ Hm Ha) as Hne.
  assert (WfMint (with_supply (supply m + n) m)) as Hwm.
  { destruct (holds_mint_wf _ _ Hok _ _ Hin2 Hm). by split. }
  assert (owned P info s ∧ owned P mint_info s) as [Ho1 Ho2].
  { destruct (decide (n = 0)) as [|Hn0]; [auto|]. pose proof (Hal (key info)) as H1'. pose proof (Hal (key mint_info)) as H2'.
    unfold s' in H1', H2'. rewrite at_two_writes in H1', H2' by done. rewrite decide_False, decide_True in H1' by congruence.
    rewrite decide_True in H2' by done.
    split; [refine (write_owned _ _ _ _ Hin1 Ha Hwb _ _ H1')|refine (write_mint_owned _ _ _ _ Hin2 Hm Hwm _ _ H2')]; simpl; done || lia. }
  apply (inv_change_supply info mint_info a b1 m); try done; simpl; congruence || lia.
Qed.

Lemma is_u64_with_amount a x : WfAccount a → is_u64 x → WfAccount (with_amount x a).
Proof. intros [] Hx. by split. Qed.

(** Every effect of the token program that the runtime writes back keeps the
    invariant. *)
Lemma inv_effect s' : effect P infos s s' → written_back s' → token_inv P (mem s').
Proof.
  intros Heff Hal. destruct Heff as [| ? m m' ? ? Hm | ? ? a a' ? ? Ha | ? m m' ? ? Hm | info a d n ? Ha Hst ? ?
    | info a k ? Ha Hst | info a k ? Ha Hst | info m k k' ? Hm Hi | info m k k' ? Hm Hi | info mint_info a m k fr ? Ha Hst
    | | mint_info info m b k n Hin1 Hin2 Hm Hi Hb Hst Hn Hmb Hau Hak Hu Hle1 Hle2 | info mint_info a a' m n Hin1 Hin2 Ha Hst Hn Hm Hi Hma Hu Hle1 Hle2 Hsp Hzero
    | source destination a | info a r].
  - done.
  - eapply inv_init_mint; [done..| |done|by apply exempt_positive]. by apply written_back_set_data.
  - eapply inv_init_account; [done..|]. by apply written_back_set_data.
  - eapply inv_init_multisig; [done..|]. by apply written_back_set_data.
  - pose proof (wf_account _ _ ltac:(done) Ha) as []. eapply inv_update_account; [done|congruence| | |by apply written_back_set_data|done..]; [by split|simpl; congruence].
  - pose proof (wf_account _ _ ltac:(done) Ha) as []. eapply inv_update_account; [done|congruence| | |by apply written_back_set_data|..]; destruct (is_native a); try done; try (by split); simpl; congruence.
  - pose proof (wf_account _ _ ltac:(done) Ha) as []. eapply inv_update_account; [done|congruence| | |by apply written_back_set_data|done..]; [by split|simpl; congruence].
  - pose proof (holds_mint_wf _ _ Hok _ _ ltac:(done) Hm) as []. eapply inv_update_mint; [done|done|by split|done|by apply written_back_set_data|done].
  - pose proof (holds_mint_wf _ _ Hok _ _ ltac:(done) Hm) as []. eapply inv_update_mint; [done|done|by split|done|by apply written_back_set_data|done].
  - pose proof (wf_account _ _ ltac:(done) Ha) as []. eapply inv_update_account; [done|destruct fr; congruence| | |by apply written_back_set_data|done..]; [by split|by destruct fr].
  - by eapply inv_effect_transfer.
  - pose proof (wf_account _ _ Hin2 Hb) as Hwf. pose proof (wf_amount _ Hwf). pose proof (wf_supply _ (holds_mint_wf _ _ Hok _ _ Hin1 Hm)).
    apply (inv_effect_supply info mint_info b _ m n); try done; [apply is_u64_with_amount; [done|]| |tauto]; unfold is_u64 in *; lia.
  - pose proof (wf_account _ _ Hin1 Ha) as Hwf. pose proof (wf_amount _ Hwf). pose proof (wf_supply _ (holds_mint_wf _ _ Hok _ _ Hin2 Hm)).
    assert (mint a' = mint a ∧ amount a' = amount a ∧ state a' = state a ∧ is_native_reserve a' = is_native_reserve a ∧
      ∀ x, is_u64 x → WfAccount (with_amount x a')) as (? & ? & ? & ? & Hwf').
    { destruct Hsp as [Hsp|[_ ->]]; [by eapply spends_frame|]. split_and!; auto using is_u64_with_amount. }
    apply (inv_effect_supply info mint_info a _ m (- n)); try done; [apply Hwf'| |]; unfold is_u64 in *; lia || (intros; apply Hzero; lia).
  - eapply inv_close; done.
  - eapply inv_sync; [done..|]. by apply written_back_set_data.
Qed.

End conserve.
