(* ===== verification/TokenMachine.v ===== *)
(** The token program on the ledger: transactions run its instructions, called by the
    message or by other programs, and everything else that programs may do. *)

From S2P Require Import Prelude Bytes TransactionContext TransactionContextProps.
From S2P Require Import TransactionExec TokenState TokenStateProps TokenInstruction.
From S2P Require Import TokenAmount TokenProcessor TokenSpec TokenRefine TokenAuth TokenInv.
From S2P Require Import TokenConserve.

(** * Where an instruction writes *)

Section touches.
Context (infos : list AccountInfo).

(** Only accounts of the instruction change, and never their executable flag. *)
Record touches (s s' : State) : Prop := {
  touches_others k : k ∉ key <$> infos → account_at (mem s') k = account_at (mem s) k;
  touches_executable k : acc_executable (account_at (mem s') k) = acc_executable (account_at (mem s) k);
}.

#[local] Instance touches_preorder : PreOrder touches.
Proof.
  split; [done|]. intros s1 s2 s3 [Ho1 He1] [Ho2 He2].
  split; intros; [by rewrite Ho2, Ho1|by rewrite He2, He1].
Qed.

Lemma touches_update f info s :
  info ∈ infos → (∀ a, acc_executable (f a) = acc_executable a) → touches s (update_mem f info s).
Proof.
  intros Hin Hf. split; intros k; cbn [mem update_mem]; rewrite account_at_insert.
  - intros Hk. rewrite decide_False; [done|]. intros ->. by apply Hk, list_elem_of_fmap_2.
  - destruct (decide (k = key info)) as [->|]; [by rewrite Hf|done].
Qed.

Lemma touches_set_lamports info n s : info ∈ infos → touches s (set_lamports info n s).
Proof. intros. by apply touches_update. Qed.
Lemma touches_set_data info d s : info ∈ infos → touches s (set_data info d s).
Proof. intros. by apply touches_update. Qed.
Lemma touches_assign info o s : info ∈ infos → touches s (assign info o s).
Proof. intros. by apply touches_update. Qed.

Lemma effect_touches `{TokenSdk} P s s' : effect P infos s s' → touches s s'.
Proof.
  assert (∀ source destination n t, source ∈ infos → destination ∈ infos → touches t (move_lamports source destination n t)) as Hmove.
  { intros. unfold move_lamports. etrans; by apply touches_set_lamports. }
  intros []; try (by apply touches_set_data); [done|..].
  - transitivity s1; [unfold s1; destruct (is_native a); auto; done|].
    transitivity s2; by apply touches_set_data.
  - transitivity s1; by apply touches_set_data.
  - transitivity s1; by apply touches_set_data.
  - transitivity s1; [by apply touches_set_lamports|]. transitivity s2; [|by apply touches_set_data].
    transitivity (set_lamports source 0 s1); [by apply touches_set_lamports|by apply touches_assign].
Qed.

End touches.

(** * Transactions *)

Section machine.
Context `{RuntimeSdk, TokenSdk, !TokenSdkLaws} (P : Pubkey).

(** What the types of the accounts guarantee. *)
Definition typed (L : Accounts) : Prop :=
  ∀ k, Bytes (acc_data (account_at L k)) ∧ is_u64 (acc_lamports (account_at L k)).

(** The input buffer of the program after its entry point returned. *)
Definition buffer_of (s : State) (k : Pubkey) : BufferAccount :=
  let a := account_at (mem s) k in
  {| buf_owner := acc_owner a; buf_lamports := acc_lamports a; buf_data := acc_data a |}.

(** An instruction of the token program runs its processor on the accounts of the
    transaction, then the runtime writes the buffer back. *)
Inductive token_body (ctx : InstructionContext) (tc tc' : TransactionContext) : Prop :=
| body_token input s' :
    program_id ctx = P → Bytes input →
    process P (instruction_accounts ctx) input {| mem := accounts tc; return_data := [] |} = Ret (Ok s') →
    deserialize_parameters ctx ((λ a, length (acc_data (get_account tc (key a)))) <$> instruction_accounts ctx)
      (buffer_of s') tc = Ok tc' →
    token_body ctx tc tc'
| body_other :
    program_id ctx ≠ P → any_body ctx tc tc' → typed (accounts tc') → token_body ctx tc tc'.

Lemma token_body_any ctx tc tc' : token_body ctx tc tc' → any_body ctx tc tc'.
Proof.
  intros [input s' _ _ _ Hd|]; [|done]. eapply body_write_back; [|exact Hd]. by rewrite length_fmap.
Qed.

(** What happens to the ledger: a transaction, after which the accounts without
    lamports are gone, or a change that no program of the transaction makes (fees,
    sysvars, rewards), which leaves the accounts of the token program alone. *)
Inductive ledger_step (L L' : Accounts) : Prop :=
| ledger_transaction msg_signer msg_writable tc tc' :
    instruction_stack tc = [] → NoDup (account_keys tc) → Forall is_key (account_keys tc) → accounts tc = L →
    rtc (step token_body msg_signer msg_writable) tc tc' → instruction_stack tc' = [] →
    (∀ k, account_at L' k =
       if acc_lamports (get_account tc' k) =? 0 then account_default else get_account tc' k) →
    ledger_step L L'
| ledger_environment :
    (∀ k, protected P (account_at L k) (account_at L' k)) → typed L' → ledger_step L L'.

(** The ledger the program starts on: it has no accounts but the native mint. *)
Definition genesis (L : Accounts) : Prop :=
  typed L ∧ ∀ k, acc_owner (account_at L k) = P →
    k = native_mint_id ∧ is_Some (mint_of P (account_at L k)) ∧ 0 < acc_lamports (account_at L k).

Hypothesis P_nonzero : P ≠ 0.
Hypothesis sysvar_not_P : sysvar_id ≠ P.
Hypothesis store_bytes : ∀ d i d', Bytes d → store_current_index_checked d i = Ok d' → Bytes d'.
Hypothesis rent_positive : ∀ rent len, 0 < minimum_balance rent len.

Lemma inv_genesis L : genesis L → token_inv P L.
Proof.
  intros [Ht Hg].
  assert (∀ k, token_of P (account_at L k) = None) as Htok.
  { intros k. destruct (token_of P (account_at L k)) as [t|] eqn:E; [|done].
    pose proof (proj1 (token_of_holds _ _ _) E) as (Ho & [Hl _] & _). destruct (Hg k Ho) as (_ & [m Hm] & _).
    apply mint_of_holds in Hm as (_ & [Hl' _] & _). rewrite Hl in Hl'. discriminate Hl'. }
  split.
  - intros k. destruct (Ht k) as [Hb Hu]. destruct (decide (acc_owner (account_at L k) = P)) as [Ho|Ho].
    + destruct (Hg k Ho) as (_ & [m Hm] & Hpos). pose proof (proj1 (mint_of_holds _ _ _) Hm) as (_ & [Hl Hm'] & Hi).
      split; rewrite ?Htok; try done; rewrite ?Hl; try done. intros _ _. exists m. split; [done|congruence].
    + by apply account_ok_foreign.
  - intros k t. by rewrite Htok.
  - intros k m Hm Hk. apply mint_of_holds in Hm as (Ho & _). destruct (Hg k Ho) as [-> _]. done.
Qed.

Lemma token_inv_ext L L' : (∀ k, account_at L' k = account_at L k) → token_inv P L → token_inv P L'.
Proof.
  intros He Hinv. apply (inv_views P P_nonzero L); [done|]. intros k. rewrite He. split_and!; [done..|apply Hinv].
Qed.

(** An instruction of the token program. *)
Lemma inv_token_body ctx input s' tc tc' :
  program_id ctx = P → wf_accounts (instruction_accounts ctx) → (∀ a, a ∈ instruction_accounts ctx → is_key (key a)) →
  token_inv P (accounts tc) → Bytes input →
  process P (instruction_accounts ctx) input {| mem := accounts tc; return_data := [] |} = Ret (Ok s') →
  deserialize_parameters ctx ((λ a, length (acc_data (get_account tc (key a)))) <$> instruction_accounts ctx)
    (buffer_of s') tc = Ok tc' →
  token_inv P (accounts tc').
Proof.
  intros Hp Hwf Hkeys Hinv Hin Hproc Hd. set (s := {| mem := accounts tc; return_data := [] |}) in *.
  assert (infos_ok (instruction_accounts ctx) s) as Hok.
  { split; [done|..]; intros info _; apply Hinv. }
  pose proof (process_effect P _ _ Hok _ _ Hin Hproc) as Heff.
  destruct (effect_touches _ _ _ _ Heff) as [Hothers Hexec].
  apply deserialize_from_Ok in Hd as (_ & Hout & Hfirst); [|apply Hwf|by rewrite length_fmap].
  assert (∀ k, get_account tc' k = account_at (mem s') k ∧ allowed P (account_at (mem s) k) (get_account tc' k)) as Hback.
  { intros k. destruct (decide (k ∈ firsts 0 (instruction_accounts ctx))) as [Hk|Hk].
    - destruct (Hfirst k Hk) as [Hb [Hal _]]. rewrite <-Hp. split; [|done]. rewrite Hb.
      unfold apply_buffer, buffer_of. cbn [buf_owner buf_lamports buf_data]. change (get_account tc k) with (account_at (mem s) k).
      rewrite <-Hexec. by destruct (account_at (mem s') k).
    - rewrite Hout by done. rewrite elem_of_firsts_wf in Hk by done. rewrite Hothers by done. done. }
  apply (token_inv_ext (mem s')); [apply Hback|].
  apply (inv_effect P P_nonzero (instruction_accounts ctx) s Hinv Hok rent_positive s' Heff).
  intros k. destruct (Hback k) as [<- Hal]. done.
Qed.

(** Pushing an instruction. *)
Lemma inv_push program l tc tc' :
  token_inv P (accounts tc) → push program l tc = Ok tc' → token_inv P (accounts tc').
Proof.
  intros Hinv Hp.
  assert (∀ k, get_account tc' k = get_account tc k ∨ acc_owner (get_account tc k) = sysvar_id ∧
    ∃ d, Bytes d ∧ get_account tc' k = set_acc_data d (get_account tc k)) as Hacc.
  { unfold push, push_instruction in Hp. head_cases Hp E; [done|].
    apply and_then_Ok_inv in Hp as (x & _ & Hp). apply and_then_Ok_inv in Hp as ([] & _ & Hp).
    head_cases Hp E1; [done|]. head_cases Hp E2; [done|]. head_cases Hp E3; [|injection Hp as <-; by left].
    head_cases Hp E4; [done|]. apply and_then_Ok_inv in Hp as (d & Hd & Hp). injection Hp as <-.
    apply negb_false_iff, Z.eqb_eq in E4. intros k. rewrite get_account_update.
    destruct (decide (k = instructions_id)) as [->|]; [right|by left]. split; [exact E4|].
    exists d. split; [|done]. eapply store_bytes; [|exact Hd]. apply Hinv. }
  apply (inv_protected P P_nonzero (accounts tc)); [done|..]; intros k; destruct (Hacc k) as [Heq|(Ho & d & Hd & Heq)];
    change (account_at (accounts tc') k) with (get_account tc' k);
    change (account_at (accounts tc) k) with (get_account tc k); rewrite Heq.
  - done.
  - split; cbn [acc_owner set_acc_data]; intros; congruence.
  - split; apply Hinv.
  - split; [done|]. apply (inv_account P _ Hinv k).
Qed.

(** The invariant of an execution. *)
Record machine_inv (msg_writable : nat → bool) (T : Z) (tc : TransactionContext) : Prop := {
  machine_exec : exec_inv msg_writable T tc;
  machine_keys : Forall is_key (account_keys tc);
  machine_token : token_inv P (accounts tc);
}.

Lemma machine_inv_step msg_signer msg_writable T tc tc' :
  machine_inv msg_writable T tc → step token_body msg_signer msg_writable tc tc' → machine_inv msg_writable T tc'.
Proof.
  intros [Hex Hkeys Htok] Hs.
  pose proof (exec_inv_step _ _ _ token_body_any _ _ _ Hex Hs) as Hex'.
  destruct Hs as [? ? ? ? _ _ Hp|? ? ? ? ? ? ? ? _ _ Hp|current stack tc tc' Hst Hb|? ? Hp].
  - split; [done|by rewrite (pushed_keys _ _ _ _ (push_Ok _ _ _ _ Hp))|by eapply inv_push].
  - split; [done|by rewrite (pushed_keys _ _ _ _ (push_Ok _ _ _ _ Hp))|by eapply inv_push].
  - pose proof (inv_frames _ _ _ Hex) as Hf. rewrite Hst in Hf. apply Forall_cons in Hf as [[Hwf Hin _ _] _].
    destruct (any_body_effect _ _ _ Hwf (token_body_any _ _ _ Hb)) as ([Hk _ _ _] & _ & Heff).
    split; [done|by rewrite Hk|]. destruct Hb as [input s' HP Hi Hproc Hd|HP _ Hty].
    + eapply inv_token_body; try done. intros a Ha. rewrite Forall_forall in Hkeys. auto.
    + apply (inv_protected P P_nonzero (accounts tc)); [done| |done]. intros k. destruct (Heff k) as [Hal _].
      by eapply allowed_protected.
  - apply pop_Ok in Hp as (Hk & Hacc & _). split; [done|by rewrite Hk|by rewrite Hacc].
Qed.

Lemma inv_ledger_step L L' : token_inv P L → ledger_step L L' → token_inv P L'.
Proof.
  intros Hinv [sg wr tc tc' Hst HK Hkeys <- Hs _ Hp|Hprot Hty].
  - assert (machine_inv wr (total_lamports tc) tc') as [_ _ Htok].
    { assert (machine_inv wr (total_lamports tc) tc) as Hm by (split; [by apply exec_inv_start|done|done]).
      revert Hm. generalize (total_lamports tc). intros T Hm. clear Hst HK Hkeys Hinv Hp.
      induction Hs; eauto using machine_inv_step. }
    by eapply inv_purge.
  - by eapply inv_protected.
Qed.

Lemma inv_ledger_steps L L' : genesis L → rtc ledger_step L L' → token_inv P L'.
Proof.
  intros Hg%inv_genesis Hs. induction Hs; eauto using inv_ledger_step.
Qed.

End machine.
