(* ===== verification/TokenTotal.v ===== *)
(** The token program returns: no instruction panics, and a transfer with its
    conditions met goes through. *)

From S2P Require Import Prelude Bytes TransactionContext TokenState TokenStateProps.
From S2P Require Import TokenInstruction TokenAmount TokenProcessor TokenSpec TokenRefine.
From S2P Require Import TokenAuth.

(** [m] ends with a value or an error. *)
Definition returns {A} (m : outcome A) : Prop := ∃ a, m = Ret a.

Lemma returns_Ret {A} (a : A) : returns (Ret a).
Proof. by exists a. Qed.

Lemma returns_try {A B E} (m : outcome (result A E)) (k : A → outcome (result B E)) :
  returns m → (∀ a, m = Ret (Ok a) → returns (k a)) → returns (try_ m k).
Proof. intros [[a|e] ->] Hk; unfold try_; rewrite bind_Ret_l; [by apply Hk|by eexists]. Qed.

Create HintDb returns.

Section total.
Context `{TokenSdk, !TokenSdkLaws} (P : Pubkey) (infos : list AccountInfo) (s : State).

(** The runtime passes at most 255 accounts; multisignatures have at most 11 signers. *)
Hypothesis Hlen : (length infos ≤ 255)%nat.
Hypothesis Hmultisig : ∀ info ms, info ∈ infos → info_owner s info = P → holds_multisig (data s info) ms →
  multisig_n ms ≤ Z.of_nat MAX_SIGNERS.

Lemma match_signers_returns ms l matched num :
  multisig_n ms ≤ Z.of_nat (length (signers ms)) → returns (match_signers ms l matched num).
Proof.
  intros Hn. revert matched num. induction l as [|i l IH]; intros matched num; cbn [match_signers]; [apply returns_Ret|].
  rewrite (proj2 (Z.leb_le _ _)) by done. cbn [assert_]. rewrite bind_Ret_l.
  apply returns_try; [apply returns_Ret|]. intros [matched' num'] _. apply IH.
Qed.

Lemma validate_owner_returns k auth rest :
  (∀ ms, info_owner s auth = P → holds_multisig (data s auth) ms → multisig_n ms ≤ Z.of_nat MAX_SIGNERS) →
  returns (validate_owner P k auth rest s).
Proof.
  intros Hn. unfold validate_owner. apply returns_try; [apply returns_Ret|]. intros [] _.
  destruct (cmp_pubkeys P (info_owner s auth) && _) eqn:E; [|apply returns_Ret].
  apply andb_true_iff in E as [Ho%Z.eqb_eq Hl%Nat.eqb_eq].
  apply returns_try; [apply returns_Ret|]. intros ms Hms. apply Ret_inj in Hms.
  unfold Multisig_unpack in Hms. rewrite unpack_spec, unpack_unchecked_spec in Hms.
  apply and_then_Ok_inv in Hms as (ms' & Hms' & Hms). destruct (decide _) as [Hd|]; [|done].
  destruct (multisig_is_initialized ms'); [|done]. apply Ok_inj in Hms as ->.
  apply returns_try; [|intros; apply returns_Ret]. apply match_signers_returns.
  assert (holds_multisig (data s auth) ms) as Hms by done. rewrite (holds_multisig_signers _ _ Hms). by apply Hn.
Qed.

Lemma next_mint_suffix d iter x iter' : next_mint d iter = Ret (Ok (x, iter')) → iter' `suffix_of` iter.
Proof.
  unfold next_mint. destruct d; intros Hn; tries Hn; apply pair_eq in Hn as [_ <-]; [by apply suffix_cons_r|done].
Qed.

(** Follows the calls of a handler; [Heq] names the accounts taken so far. *)
Ltac returns_tac :=
  repeat match goal with
  | |- returns (Ret _) => apply returns_Ret
  | |- returns (fail_if _ _) => apply returns_Ret
  | |- returns (ok_or _ _) => apply returns_Ret
  | |- returns (check_account_owner _ _ _) => apply returns_Ret
  | |- returns (delete_account _ _) => unfold delete_account
  | |- returns (_ _ _) => solve [eauto with returns]
  | |- returns (validate_owner _ _ _ _ _) => 
      apply validate_owner_returns; intros; eapply Hmultisig; [|eassumption..]; set_solver
  | |- returns (try_ _ _) =>
      apply returns_try;
      [|let x := fresh "x" in let E := fresh "E" in
        intros x E; repeat match type of x with (_ * _)%type => let y := fresh "y" in destruct x as [x y] end;
        first [ apply Ret_inj, next_account_info_Ok in E; subst
              | apply next_mint_suffix in E as [? ->]
              | idtac ]]
  | |- returns (match ?m with _ => _ end) => destruct m
  | |- returns _ => progress cbn beta iota zeta
  end.

Lemma read_rent_returns b iter : returns (read_rent b iter s).
Proof. unfold read_rent. returns_tac. Qed.

Lemma next_mint_returns d iter : returns (next_mint d iter).
Proof. unfold next_mint. returns_tac. Qed.

Lemma check_mint_info_returns x a : returns (check_mint_info x a s).
Proof. unfold check_mint_info. returns_tac. Qed.

Lemma spend_delegated_returns n a : returns (spend_delegated n a).
Proof. unfold spend_delegated. returns_tac. Qed.

#[local] Hint Resolve read_rent_returns next_mint_returns check_mint_info_returns spend_delegated_returns : returns.

Lemma set_signers_returns i l keys :
  (i + length l ≤ length keys)%nat → returns (set_signers i l keys).
Proof.
  revert i keys. induction l as [|info l IH]; intros i keys Hle; cbn [set_signers]; [apply returns_Ret|].
  cbn [length] in Hle. rewrite (proj2 (Nat.ltb_lt _ _)) by lia. cbn [assert_]. rewrite bind_Ret_l.
  apply IH. rewrite length_insert. lia.
Qed.

Lemma initialize_multisig_returns m b : returns (_process_initialize_multisig infos m b s).
Proof.
  unfold _process_initialize_multisig. apply returns_try; [apply returns_Ret|]. intros [info iter] E.
  apply Ret_inj, next_account_info_Ok in E. cbn beta iota zeta. apply returns_try; [apply read_rent_returns|].
  intros [rent signers'] Hr%read_rent_Ok. apply returns_try; [apply returns_Ret|]. intros ms Hms.
  do 2 (apply returns_try; [apply returns_Ret|]; intros [] _).
  apply returns_try; [apply returns_Ret|]. intros [] Hn. apply fail_if_Ok in Hn.
  apply returns_try; [apply returns_Ret|]. intros [] _.
  apply Ret_inj, Multisig_unpack_unchecked_Ok, holds_multisig_signers in Hms.
  assert (returns (set_signers 0 signers' (signers ms))) as [keys ->].
  { apply set_signers_returns. rewrite Hms. apply suffix_length in Hr. rewrite E in Hlen. cbn [length] in Hlen.
    unfold is_valid_signer_index in Hn. rewrite Z.mod_small in Hn by lia.
    apply negb_false_iff, andb_true_iff in Hn as [_ Hn%Z.leb_le]. unfold MAX_SIGNERS in *. lia. }
  rewrite bind_Ret_l. apply returns_try; intros; apply returns_Ret.
Qed.

Lemma dispatch_returns i : returns (dispatch P infos i s).
Proof.
  destruct i; cbn [dispatch]; try (apply initialize_multisig_returns).
  all: remember infos as accounts eqn:Heq; symmetry in Heq.
  all: cbv delta [process_initialize_mint process_initialize_mint2 _process_initialize_mint process_initialize_account
    process_initialize_account2 process_initialize_account3 _process_initialize_account process_transfer process_approve
    process_revoke process_set_authority set_account_authority set_mint_authority process_mint_to process_burn
    process_close_account process_toggle_freeze_account process_sync_native process_get_account_data_size
    process_initialize_immutable_owner process_amount_to_ui_amount process_ui_amount_to_amount check_decimals] beta.
  all: returns_tac.
Qed.

End total.

(** * Transfers *)

Section transfer.
Context `{TokenSdk, !TokenSdkLaws} (P : Pubkey) (s : State).
Context (source destination authority : AccountInfo) (rest : list AccountInfo) (a b : Account) (n : Z).

(** What the delegate leaves of the source, if it is the authority. *)
Definition spent : Account :=
  if is_delegate a authority then
    with_delegate (if delegated_amount a - n =? 0 then None else delegate a)
      (with_delegated_amount (delegated_amount a - n) a)
  else a.

(** The conditions of a transfer between two accounts. *)
Record transfer_allowed : Prop := {
  transfer_distinct : key source ≠ key destination;
  transfer_source : holds_account (data s source) a ∧ state a = Initialized;
  transfer_destination : holds_account (data s destination) b ∧ state b = Initialized;
  transfer_mint : mint a = mint b;
  transfer_funds : n ≤ amount a;
  transfer_authority :
    validate_owner P (if is_delegate a authority then key authority else owner a) authority rest s = Ret (Ok tt);
  transfer_delegated : is_delegate a authority = true → n ≤ delegated_amount a;
  transfer_zero : n = 0 → info_owner s source = P ∧ info_owner s destination = P;
  transfer_room : amount b + n ≤ u64_MAX;
  transfer_lamports : is_native a = true → n ≤ lamports s source ∧ lamports s destination + n ≤ u64_MAX;
}.

Lemma Account_unpack_holds info x :
  holds_account (data s info) x → state x ≠ Uninitialized → Account_unpack (data s info) = Ok x.
Proof.
  intros [Hl Hx] Hst. unfold Account_unpack. rewrite unpack_spec, unpack_unchecked_spec, decide_True, Hx by done.
  cbn [and_then]. unfold account_is_initialized. by rewrite bool_decide_eq_true_2.
Qed.

Hypothesis Hallowed : transfer_allowed.

Lemma transfer_authorized A (k : Account → outcome (result A ProgramError)) :
  try_ (if is_delegate a authority then
     '_ ←? validate_owner P (key authority) authority rest s;
     '_ ←? Ret (if delegated_amount a <? n then Err (ProgramError_from InsufficientFunds) else Ok tt);
     spend_delegated n a
   else '_ ←? validate_owner P (owner a) authority rest s; Ret (Ok a)) k = k spent.
Proof.
  destruct Hallowed as [_ _ _ _ _ Hau Hd _ _ _].
  unfold spent. destruct (is_delegate a authority) eqn:Hdel; rewrite Hau, try_Ok; [|by rewrite try_Ok].
  specialize (Hd eq_refl). rewrite (proj2 (Z.ltb_ge _ _)), try_Ok by done. unfold spend_delegated, ok_or.
  unfold checked_sub. rewrite (proj2 (Z.leb_le _ _)), try_Ok by lia. rewrite try_Ok. f_equal.
  destruct (_ =? 0); [done|]. by destruct a.
Qed.

Lemma transfer_of_zero A (k : unit → outcome (result A ProgramError)) :
  try_ (if n =? 0 then '_ ←? check_account_owner P source s; check_account_owner P destination s
        else Ret (Ok tt)) k = k tt.
Proof.
  destruct (Z.eqb_spec n 0) as [Hn|]; [|by rewrite try_Ok]. destruct (transfer_zero Hallowed Hn) as [Ho1 Ho2].
  unfold check_account_owner, fail_if, cmp_pubkeys. rewrite Ho1, Ho2, Z.eqb_refl. cbn [negb]. by rewrite !try_Ok.
Qed.

Lemma transfer_of_lamports A (k : State → outcome (result A ProgramError)) :
  try_ (if is_native a then
     source_lamports ←? ok_or (checked_sub (lamports s source) n) Overflow;
     destination_lamports ←? ok_or (checked_add u64_MAX (lamports (set_lamports source source_lamports s) destination) n) Overflow;
     Ret (Ok (set_lamports destination destination_lamports (set_lamports source source_lamports s)))
   else Ret (Ok s)) k = k (if is_native a then move_lamports source destination n s else s).
Proof.
  pose proof (transfer_distinct Hallowed) as Hne. pose proof (transfer_lamports Hallowed) as Hl.
  destruct (is_native a); [|by rewrite try_Ok]. destruct (Hl eq_refl). unfold ok_or, checked_sub, checked_add.
  rewrite (proj2 (Z.leb_le n _)), try_Ok by done. rewrite lamports_set_lamports, decide_False by congruence.
  rewrite (proj2 (Z.leb_le (lamports s destination + n) _)), try_Ok by done. rewrite try_Ok. f_equal.
  unfold move_lamports. by rewrite lamports_set_lamports, decide_False by congruence.
Qed.

Lemma process_transfer_succeeds :
  process_transfer P (source :: destination :: authority :: rest) n None s =
    let s1 := if is_native a then move_lamports source destination n s else s in
    let s2 := write_account source (with_amount (amount a - n) spent) s1 in
    Ret (Ok (write_account destination (with_amount (amount b + n) b) s2)).
Proof.
  destruct Hallowed as [Hne [Ha Hsa] [Hb Hsb] Hm Hf _ _ _ Hr _]. unfold process_transfer.
  rewrite next_account_info_spec, try_Ok. cbn [next_mint]. rewrite try_Ok.
  do 2 rewrite next_account_info_spec, try_Ok.
  rewrite (Account_unpack_holds _ _ Ha), try_Ok by congruence.
  rewrite (Account_unpack_holds _ _ Hb), try_Ok by congruence. unfold fail_if, is_frozen. rewrite Hsa, Hsb.
  rewrite !bool_decide_eq_false_2 by done. cbn [orb]. rewrite try_Ok. rewrite (proj2 (Z.ltb_ge _ _)), try_Ok by done.
  unfold cmp_pubkeys at 1. rewrite Hm, Z.eqb_refl. cbn [negb]. rewrite try_Ok. cbn [check_mint_info]. rewrite try_Ok.
  rewrite (proj2 (Z.eqb_neq (key source) (key destination)) Hne : cmp_pubkeys _ _ = false). cbn [negb orb].
  rewrite transfer_authorized, transfer_of_zero.
  assert (amount spent = amount a ∧ is_native (with_amount (amount a - n) spent) = is_native a) as [-> Hnat].
  { unfold spent, is_native. by destruct (is_delegate a authority). }
  unfold ok_or at 1 2, checked_sub at 1, checked_add at 1. rewrite (proj2 (Z.leb_le n (amount a))), try_Ok by done.
  rewrite (proj2 (Z.leb_le (amount b + n) _)), try_Ok, Hnat, transfer_of_lamports by done.
  set (s1 := if is_native a then _ else s).
  assert (∀ i, data s1 i = data s i) as Hs1 by (intros; unfold s1; destruct (is_native a); [apply data_move_lamports|done]).
  rewrite Account_pack_Ok, try_Ok by (rewrite Hs1; apply Ha).
  rewrite Account_pack_Ok, try_Ok; [done|]. rewrite data_set_data_ne, Hs1 by congruence. apply Hb.
Qed.

End transfer.
