(* ===== verification/TokenTheorems.v ===== *)
(** The token program: what holds of the ledger after any number of transactions, and
    of every single instruction. *)

From Stdlib Require Import Strings.String.
From S2P Require Import Prelude Bytes TransactionContext TransactionContextProps.
From S2P Require Import TransactionExec TokenState TokenStateProps TokenInstruction.
From S2P Require Import TokenAmount TokenProcessor TokenSpec TokenRefine TokenAuth TokenInv.
From S2P Require Import TokenConserve TokenMachine TokenTotal.

Section ledger.
Context `{RuntimeSdk, TokenSdk, !TokenSdkLaws} (P : Pubkey).
Hypothesis P_nonzero : P ≠ 0.
Hypothesis sysvar_not_P : sysvar_id ≠ P.
Hypothesis store_bytes : ∀ d i d', Bytes d → store_current_index_checked d i = Ok d' → Bytes d'.
Hypothesis rent_positive : ∀ rent len, 0 < minimum_balance rent len.

(** C3. The supply of a mint is always the sum of what the token accounts of the mint hold. *)
Theorem supply_conserved L L' k m :
  genesis P L → rtc (ledger_step P) L L' → mint_of P (account_at L' k) = Some m → k ≠ native_mint_id →
  supply m = held P k L' ∧ held P k L' ≤ u64_MAX.
Proof.
  intros Hg Hs Hm Hk.
  pose proof (inv_ledger_steps P P_nonzero sysvar_not_P store_bytes rent_positive L L' Hg Hs) as Hinv.
  pose proof (inv_supply P L' Hinv k m Hm Hk) as Hsup. split; [done|]. rewrite <-Hsup.
  apply mint_of_holds in Hm as (_ & [Hl Hm] & _).
  destruct (Mint_pack_unpack _ _ (ok_bytes _ _ (inv_account _ _ Hinv k)) Hl Hm) as [[_ [_ ?] _ _] _].
  unfold u64_MAX in *. lia.
Qed.

(** C18. Native tokens are backed: an account of native tokens has as many lamports as it
    has tokens, above its reserve; and no token account exists without its mint. *)
Theorem native_backed L L' k t :
  genesis P L → rtc (ledger_step P) L L' → token_of P (account_at L' k) = Some t →
  match is_native_reserve t with
  | Some reserve => mint t = native_mint_id ∧ 0 < reserve ∧ amount t + reserve ≤ acc_lamports (account_at L' k)
  | None => mint t ≠ native_mint_id ∧ is_Some (mint_of P (account_at L' (mint t)))
  end.
Proof.
  intros Hg Hs Ht.
  pose proof (inv_ledger_steps P P_nonzero sysvar_not_P store_bytes rent_positive L L' Hg Hs) as Hinv.
  destruct (ok_native _ _ (inv_account _ _ Hinv k) t Ht) as [Hn Hr]. unfold is_native in Hn.
  destruct (is_native_reserve t) as [r|]; [split; [tauto|by apply Hr]|].
  assert (mint t ≠ native_mint_id) by (intros ?%Hn; done). split; [done|]. by apply (inv_mint _ _ Hinv k).
Qed.

End ledger.

(** * What one instruction does to a token account *)

Section change.
Context `{TokenSdk, !TokenSdkLaws} (P : Pubkey) (infos : list AccountInfo) (s : State).

(** From [a] to [a'], and who has to agree to it. *)
Record account_change (a a' : Account) : Prop := {
  change_mint : mint a' = mint a ∧ is_native_reserve a' = is_native_reserve a;
  change_debit : amount a' < amount a →
    state a = Initialized ∧
    (authorized P infos (owner a) s ∨
     (∃ k, delegate a = Some k ∧ authorized P infos k s ∧ amount a - amount a' ≤ delegated_amount a ∧
        delegated_amount a' = delegated_amount a - (amount a - amount a')) ∨
     is_owned_by_system_program_or_incinerator a = true);
  change_owner : owner a' ≠ owner a → state a = Initialized ∧ authorized P infos (owner a) s;
  change_delegate : delegate a' ≠ delegate a ∨ delegated_amount a < delegated_amount a' →
    authorized P infos (owner a) s ∨
    (∃ k, delegate a = Some k ∧ delegate a' = None ∧ delegated_amount a' = 0 ∧ authorized P infos k s);
  change_close_authority : close_authority a' ≠ close_authority a →
    authorized P infos (default (owner a) (close_authority a)) s ∨
    is_native a = true ∧ close_authority a' = None ∧ authorized P infos (owner a) s;
  change_state : state a' ≠ state a →
    ∃ mint_info m k, key mint_info = mint a ∧ holds_mint (data s mint_info) m ∧
      freeze_authority m = Some k ∧ authorized P infos k s;
}.

(** The account is gone, its lamports are with another account. *)
Definition account_closed (a : Account) (info : AccountInfo) (s' : State) : Prop :=
  data s' info = [] ∧ lamports s' info = 0 ∧ info_owner s' info = system_program_id ∧
  (is_native a = true ∨ amount a = 0) ∧
  ∃ destination, lamports s' destination = lamports s destination + lamports s info ∧
    if is_owned_by_system_program_or_incinerator a then key destination = incinerator_id
    else authorized P infos (default (owner a) (close_authority a)) s.

Lemma account_change_refl a : account_change a a.
Proof. split; try done; try lia. by intros [|]; [|lia]. Qed.

Hypothesis Hok : infos_ok infos s.

(** A write of a token account, seen from any token account. *)
Lemma holds_write_account t i a0 b info a :
  i ∈ infos → data t i = data s i → data t info = data s info →
  holds_account (data s i) a0 → WfAccount b → holds_account (data s info) a →
  data (write_account i b t) info = data s info ∧ key info ≠ key i ∨
  holds_account (data (write_account i b t) info) b ∧ a = a0 ∧ key info = key i.
Proof.
  intros Hin Hti Hta Ha0 Hwf Ha. unfold write_account. rewrite data_set_data, Hti.
  destruct (decide (key info = key i)) as [Hk|Hk]; [right|by left].
  destruct Ha0 as [Hl Ha0]. split_and!; [|unfold data in *; rewrite (info_account_key s info i Hk) in Ha; destruct Ha; congruence|done].
  destruct (Account_pack_wf b (data s i) Hwf ltac:(by apply Hok) Hl). split; [done|by apply Account_unpack_pack].
Qed.

Lemma change_write i a0 b info a :
  i ∈ infos → holds_account (data s i) a0 → WfAccount b → account_change a0 b → holds_account (data s info) a →
  ∃ a', holds_account (data (write_account i b s) info) a' ∧ account_change a a'.
Proof.
  intros Hin Ha0 Hwf Hc Ha.
  destruct (holds_write_account s i a0 b info a Hin eq_refl eq_refl Ha0 Hwf Ha) as [[-> _]|(? & -> & _)];
    eauto using account_change_refl.
Qed.

(** Writes of other data do not reach a token account. *)
Lemma change_other i d info a :
  holds_account (data s info) a → length (data s i) ≠ Account_LEN →
  ∃ a', holds_account (data (set_data i d s) info) a' ∧ account_change a a'.
Proof.
  intros Ha Hl. exists a. rewrite data_set_data_ne; [auto using account_change_refl|].
  intros Hk. apply Hl. unfold data. rewrite <-(info_account_key s info i Hk). apply Ha.
Qed.

(** A transfer takes from one token account and adds to another. *)
Lemma change_spend n a a' : spends P infos n a s a' → state a = Initialized → is_u64 n →
  account_change a (with_amount (amount a - n) a').
Proof.
  intros Hsp Hst Hn. destruct Hsp as [Hau|k Hd Hau Hle]; split; simpl; try done; try (intros; tauto).
  - intros _. split; [done|]. right. left. exists k. split_and!; try done; lia.
  - intros Hch. right. exists k. destruct (Z.eqb_spec (delegated_amount a - n) 0); [done|].
    destruct Hch as [|]; [congruence|]. unfold is_u64 in Hn. lia.
Qed.

Lemma change_credit n a : is_u64 n → account_change a (with_amount (amount a + n) a).
Proof. intros [? ?]. split; simpl; try done; try lia. intros [|]; [done|lia]. Qed.

Lemma change_transfer source destination a a' b n s1 info c :
  source ∈ infos → destination ∈ infos → key source ≠ key destination → (∀ i, data s1 i = data s i) →
  holds_account (data s source) a → state a = Initialized → holds_account (data s destination) b →
  is_u64 n → n ≤ amount a → amount b + n ≤ u64_MAX → spends P infos n a s a' → holds_account (data s info) c →
  ∃ c', holds_account (data (write_account destination (with_amount (amount b + n) b)
          (write_account source (with_amount (amount a - n) a') s1)) info) c' ∧ account_change c c'.
Proof.
  intros Hin1 Hin2 Hne Hs1 Ha Hst Hb Hn Hle Hmax Hsp Hc.
  pose proof (holds_account_wf _ _ Hok _ _ Hin1 Ha) as Hwa. pose proof (holds_account_wf _ _ Hok _ _ Hin2 Hb) as Hwb.
  pose proof (wf_amount _ Hwa). pose proof (wf_amount _ Hwb).
  assert (WfAccount (with_amount (amount a - n) a')) as Hwa'.
  { eapply spends_frame; [exact Hsp|done|done|]. unfold is_u64 in *. lia. }
  assert (WfAccount (with_amount (amount b + n) b)) as Hwb' by (apply is_u64_with_amount; [done|unfold is_u64 in *; lia]).
  set (s2 := write_account source _ s1).
  assert (data s2 destination = data s destination) as Hd2.
  { unfold s2, write_account. rewrite data_set_data_ne by congruence. apply Hs1. }
  destruct (decide (key info = key destination)) as [Hk|Hk].
  - assert (data s2 info = data s info) as Hi2 by (unfold data in *; by rewrite !(info_account_key _ info destination Hk)).
    destruct (holds_write_account s2 destination b _ info c Hin2 Hd2 Hi2 Hb Hwb' Hc) as [[_ ?]|(? & -> & _)]; [done|].
    eauto using change_credit.
  - unfold write_account. rewrite data_set_data_ne by done. fold (write_account source (with_amount (amount a - n) a') s1) in s2. unfold s2.
    destruct (holds_write_account s1 source a _ info c Hin1 (Hs1 _) (Hs1 _) Ha Hwa' Hc) as [[-> _]|(? & -> & _)];
      eauto using account_change_refl, change_spend.
Qed.

(** Minting and burning. *)
Lemma change_supply i mint_info m' a0 b info a :
  i ∈ infos → mint_info ∈ infos → length (data s mint_info) = Mint_LEN → holds_account (data s i) a0 → WfAccount b →
  account_change a0 b → holds_account (data s info) a →
  ∃ a', holds_account (data (write_mint mint_info m' (write_account i b s)) info) a' ∧ account_change a a'.
Proof.
  intros Hin Hinm Hl Ha0 Hwf Hc Ha. unfold write_mint. rewrite data_set_data_ne; [by eapply change_write|].
  intros Hk. unfold data in *. rewrite <-(info_account_key s info mint_info Hk) in Hl. destruct Ha as [Ha _].
  rewrite Hl in Ha. discriminate Ha.
Qed.

Lemma closed_info source destination x info :
  key source ≠ key destination → key info = key source →
  let s1 := set_lamports destination x s in
  let s2 := assign source system_program_id (set_lamports source 0 s1) in
  info_account (set_data source [] s2) info = closed s source ∧
  lamports (set_data source [] s2) destination = x.
Proof.
  intros Hne Hk s1 s2. unfold lamports, info_account. unfold s2, s1. rewrite !at_close by done.
  rewrite Hk, decide_True, decide_False, decide_True by congruence. done.
Qed.

Lemma change_close source destination a0 info a :
  key source ≠ key destination → holds_account (data s source) a0 → is_native a0 = true ∨ amount a0 = 0 →
  (if is_owned_by_system_program_or_incinerator a0 then key destination = incinerator_id
   else authorized P infos (default (owner a0) (close_authority a0)) s) →
  let s1 := set_lamports destination (lamports s destination + lamports s source) s in
  let s2 := assign source system_program_id (set_lamports source 0 s1) in
  holds_account (data s info) a →
  (∃ a', holds_account (data (set_data source [] s2) info) a' ∧ account_change a a') ∨
  account_closed a info (set_data source [] s2).
Proof.
  intros Hne Ha0 Hz Hau s1 s2 Ha. destruct (decide (key info = key source)) as [Hk|Hk].
  - right. destruct (closed_info source destination (lamports s destination + lamports s source) info Hne Hk) as [Hc Hd].
    fold s1 s2 in Hc, Hd. assert (a0 = a) as ->.
    { unfold data in Ha, Ha0. rewrite (info_account_key s info source Hk) in Ha. destruct Ha, Ha0. congruence. }
    unfold account_closed. unfold data, info_owner. unfold lamports at 1. rewrite Hc. split_and!; try done.
    exists destination. rewrite Hd. unfold lamports. rewrite (info_account_key s info source Hk). done.
  - left. exists a. rewrite data_set_data_ne by done. split; [|apply account_change_refl].
    unfold s2, s1, data, info_account, assign, set_lamports, update_mem in *. cbn [mem].
    rewrite !account_at_insert, !(decide_False (P := key info = key source)) by done.
    destruct (decide (key info = key destination)) as [Hkd|]; [|done]. unfold info_account. by rewrite <-Hkd.
Qed.

Lemma change_sync i a0 r info a :
  i ∈ infos → holds_account (data s i) a0 → is_native_reserve a0 = Some r → r + amount a0 ≤ lamports s i →
  holds_account (data s info) a →
  ∃ a', holds_account (data (write_account i (with_amount (lamports s i - r) a0) s) info) a' ∧ account_change a a'.
Proof.
  intros Hin Ha0 Hr Hle Ha. pose proof (holds_account_wf _ _ Hok _ _ Hin Ha0) as Hwf. pose proof (infos_lamports _ _ Hok i Hin).
  pose proof (wf_amount _ Hwf). pose proof (wf_is_native _ Hwf r Hr) as Hu.
  apply (change_write i a0); [done|done| | |done].
  - apply is_u64_with_amount; [done|]. unfold is_u64 in *. lia.
  - replace (lamports s i - r) with (amount a0 + (lamports s i - r - amount a0)) by lia. apply change_credit.
    unfold is_u64 in *. lia.
Qed.

Lemma effect_change s' info a :
  effect P infos s s' → holds_account (data s info) a → state a ≠ Uninitialized →
  (∃ a', holds_account (data s' info) a' ∧ account_change a a') ∨ account_closed a info s'.
Proof.
  intros Heff Ha Hinit. destruct Heff as [| ? ? ? ? ? [Hl _] | i ? a0 a' Hin ? Ha0 Hu Hwf | ? ? ? ? ? [Hl _] | i a0 d n Hin Ha0 Hst ? ? Hau
    | i a0 k Hin Ha0 Hst ? Hau | i a0 k Hin Ha0 Hst ? Hau | ? ? ? ? ? [Hl _] | ? ? ? ? ? [Hl _] | i mint_info a0 m k fr Hin Ha0 Hst Hn Hm Hi Hk Hf Hau
    | | mint_info i m b k n ? Hin [Hl _] ? Hb Hst ? ? ? ? Hu ? ? ? s1 | i mint_info a0 a' m n Hin ? Ha0 Hst ? [Hl _] ? ? Hu ? ? Hsp ? s1
    | source destination a0 ? ? Hne Ha0 ? ? ? ? s1 s2 | i a0 r Hin ? Ha0 Hst Hr Hle].
  - left. exists a. auto using account_change_refl.
  - left. apply change_other; [done|]. rewrite Hl. done.
  - left. destruct (decide (key info = key i)) as [Hk|Hk].
    + exfalso. unfold data in Ha, Ha0. rewrite (info_account_key s info i Hk) in Ha. destruct Ha, Ha0. congruence.
    + exists a. unfold write_account. rewrite data_set_data_ne by done. auto using account_change_refl.
  - left. apply change_other; [done|]. rewrite Hl. done.
  - left. pose proof (holds_account_wf _ _ Hok _ _ Hin Ha0) as []. apply (change_write i a0); [done|done|by split| |done].
    split; simpl; try done; try lia; tauto.
  - left. pose proof (holds_account_wf _ _ Hok _ _ Hin Ha0) as []. apply (change_write i a0); [done|done| | |done];
      destruct (is_native a0) eqn:?; split; simpl; try done; try lia; tauto.
  - left. pose proof (holds_account_wf _ _ Hok _ _ Hin Ha0) as []. apply (change_write i a0); [done|done|by split| |done].
    split; simpl; try done; try lia; try tauto. intros [|]; [done|lia].
  - left. apply change_other; [done|]. rewrite Hl. done.
  - left. apply change_other; [done|]. rewrite Hl. done.
  - left. pose proof (holds_account_wf _ _ Hok _ _ Hin Ha0) as []. apply (change_write i a0); [done|done|by split| |done].
    split; simpl; try done; try lia; [intros [|]; [done|lia]|]. intros _. by exists mint_info, m, k.
  - left. eapply change_transfer; try done. intros i. unfold s1. destruct (is_native a0); [apply data_move_lamports|done].
  - left. pose proof (holds_account_wf _ _ Hok _ _ Hin Hb) as Hwf. pose proof (wf_amount _ Hwf).
    eapply change_supply; [done..| |by apply change_credit|done]. apply is_u64_with_amount; [done|unfold is_u64 in *; lia].
  - left. pose proof (holds_account_wf _ _ Hok _ _ Hin Ha0) as Hwf. pose proof (wf_amount _ Hwf).
    eapply change_supply; [done..| | |done]; destruct Hsp as [Hsp|[Hown ->]].
    + eapply spends_frame; [exact Hsp|done|done|]. unfold is_u64 in *. lia.
    + apply is_u64_with_amount; [done|unfold is_u64 in *; lia].
    + by eapply change_spend.
    + split; simpl; try done; try tauto. intros [|]; [done|lia].
  - by eapply change_close.
  - left. by eapply change_sync.
Qed.

End change.

(** * One instruction *)

Section instruction.
Context `{TokenSdk, !TokenSdkLaws} (P : Pubkey) (infos : list AccountInfo) (s : State).

(** C11. Every instruction of the token program, in whatever form its bytes come, has one
    of the effects of the specification, or fails. *)
Theorem process_refines_effect input s' :
  infos_ok infos s → Bytes input → process P infos input s = Ret (Ok s') →
  effect P infos s s' ∧ touches infos s s'.
Proof.
  intros Hok Hb Hp. pose proof (process_effect P infos s Hok _ _ Hb Hp) as Heff.
  split; [done|by eapply effect_touches].
Qed.

(** C10. No instruction changes an initialized token account without the agreement of those
    who have to give it: the owner or the delegate to take tokens, and never while it
    is frozen; the owner to change the owner or the delegate; the freeze authority of
    the mint to freeze or thaw; the close authority to close it, when it is empty. *)
Theorem account_changes_authorized input s' info a :
  infos_ok infos s → Bytes input → process P infos input s = Ret (Ok s') →
  holds_account (data s info) a → state a ≠ Uninitialized →
  (∃ a', holds_account (data s' info) a' ∧ account_change P infos s a a') ∨ account_closed P infos s a info s'.
Proof.
  intros Hok Hb Hp Ha Hi. eapply effect_change; [done|by eapply process_effect|done|done].
Qed.

(** C33. The check of an authority is exact. It passes for the expected key when the
    account signed; for an initialized multisignature, when every account passed whose
    key is one of its signers signed and the keys at [m] of its positions are among
    them. A key listed at several positions counts at each; if the keys are distinct,
    [m] different signers signed. *)
Theorem validate_owner_exact k auth :
  (∀ i j, i ∈ infos → j ∈ infos → key i = key j → is_signer i = is_signer j) →
  (∀ ms, holds_multisig (data s auth) ms → multisig_n ms ≤ Z.of_nat MAX_SIGNERS) →
  (validate_owner P k auth infos s = Ret (Ok tt) ↔
   k = key auth ∧
   if decide (info_owner s auth = P ∧ data_len s auth = Multisig_LEN) then
     ∃ ms, holds_multisig (data s auth) ms ∧ multisig_is_initialized ms = true ∧ multisig_signed ms infos
   else is_signer auth = true) ∧
  (∀ ms, validate_owner P k auth infos s = Ret (Ok tt) → info_owner s auth = P →
     holds_multisig (data s auth) ms → NoDup (take (Z.to_nat (multisig_n ms)) (signers ms)) →
     ∃ ks : gset Pubkey, multisig_m ms ≤ Z.of_nat (size ks) ∧ ∀ x, x ∈ ks → member_signed ms infos x).
Proof.
  intros Hflags Hn. pose proof (validate_owner_iff P k auth infos s Hflags Hn) as Hiff. split; [exact Hiff|].
  intros ms Hv Ho Hms Hnd. apply Hiff in Hv as [_ Hv]. rewrite decide_True in Hv by (split; [done|apply Hms]).
  destruct Hv as (ms' & [_ Hms'] & _ & Hs). destruct Hms as [_ Hms]. rewrite Hms in Hms'. simplify_eq.
  by apply multisig_signed_distinct.
Qed.

(** No instruction panics, whatever its bytes and its accounts, of which the runtime
    passes at most 255. *)
Theorem process_never_panics input :
  (length infos ≤ 255)%nat →
  (∀ info ms, info ∈ infos → info_owner s info = P → holds_multisig (data s info) ms →
     multisig_n ms ≤ Z.of_nat MAX_SIGNERS) →
  ∃ r, process P infos input s = Ret r.
Proof.
  intros Hl Hm. unfold process. apply returns_try; [apply returns_Ret|]. intros i _. by apply dispatch_returns.
Qed.

(** A transfer between two accounts goes through when its conditions hold, and then
    moves exactly the amount, with the lamports of native tokens. *)
Theorem transfer_succeeds source destination authority rest a b n :
  is_u64 n → transfer_allowed P s source destination authority rest a b n →
  process P (source :: destination :: authority :: rest) (Instr.pack (Transfer n)) s =
    let s1 := if is_native a then move_lamports source destination n s else s in
    let s2 := write_account source (with_amount (amount a - n) (spent authority a n)) s1 in
    Ret (Ok (write_account destination (with_amount (amount b + n) b) s2)).
Proof.
  intros Hn Hal. unfold process. rewrite Instr_unpack_pack by done. rewrite try_Ok. cbn [dispatch].
  by apply process_transfer_succeeds.
Qed.

End instruction.

(** * Formats *)

(** C34. What the program writes is read back as it was: mints, token accounts,
    multisignatures and instructions, and amounts shown to a user, trimmed or not; and
    what is read from an account or from instruction data packs to the bytes it was
    read from. *)
Theorem token_formats_roundtrip d :
  (∀ m, WfMint m → length d = Mint_LEN → MintPack.unpack_from_slice (MintPack.pack_into_slice m d) = Ok m) ∧
  (∀ a, WfAccount a → length d = Account_LEN → AccountPack.unpack_from_slice (AccountPack.pack_into_slice a d) = Ok a) ∧
  (∀ m, WfMultisig m → MultisigPack.unpack_from_slice (MultisigPack.pack_into_slice m d) = Ok m) ∧
  (∀ i, WfInstr i → Instr.unpack (Instr.pack i) = Ok i) ∧
  (∀ n decimals, is_u64 n → 0 ≤ decimals →
     try_ui_amount_into_amount (amount_to_ui_amount_string n decimals) decimals = Ok n ∧
     try_ui_amount_into_amount (amount_to_ui_amount_string_trimmed n decimals) decimals = Ok n) ∧
  (Bytes d →
   (∀ m, length d = Mint_LEN → MintPack.unpack_from_slice d = Ok m → MintPack.pack_into_slice m d = d) ∧
   (∀ a, length d = Account_LEN → AccountPack.unpack_from_slice d = Ok a → AccountPack.pack_into_slice a d = d) ∧
   (∀ m, length d = Multisig_LEN → MultisigPack.unpack_from_slice d = Ok m → MultisigPack.pack_into_slice m d = d) ∧
   (∀ i, Instr.unpack d = Ok i → WfInstr i ∧ Instr.pack i `prefix_of` d)).
Proof.
  split_and!; [intros; by apply Mint_unpack_pack|intros; by apply Account_unpack_pack|intros; by apply Multisig_unpack_pack|
    intros; by apply Instr_unpack_pack|intros; by apply ui_amount_read_back|].
  intros Hb. split_and!; intros; [by apply Mint_pack_unpack|by apply Account_pack_unpack|by apply Multisig_pack_unpack|by apply Instr_pack_unpack].
Qed.

(** * A run of the program *)

Module TokenDemo.

#[local] Instance rsdk : RuntimeSdk := {|
  instructions_id := 99; sysvar_id := 98; store_current_index_checked data _ := Ok data;
  rent_is_exempt _ _ := true
|}.

#[local] Instance pack_api : PackApi := {|
  unpack_unchecked A len f input := if decide (length input = len) then f input else Err InvalidAccountData;
  unpack A len f init input :=
    value ←! (if decide (length input = len) then f input else Err InvalidAccountData);
    if init value then Ok value else Err UninitializedAccount;
  pack A len f src dst := if decide (length dst = len) then Ok (f src dst) else Err InvalidAccountData;
|}.

#[local] Instance sdk : TokenSdk := {|
  next_account_info iter := match iter with info :: iter => Ok (info, iter) | [] => Err NotEnoughAccountKeys end;
  Rent := unit;
  Rent_from_account_info _ _ := Ok tt;
  Rent_get := Ok tt;
  is_exempt _ lamports _ := 1 <=? lamports;
  minimum_balance _ _ := 1;
  realloc data new_len _ := Ok (take new_len data);
  declare_id _ := 555;
  system_program_id := 0;
  incinerator_id := 556;
|}.

#[local] Instance sdk_laws : TokenSdkLaws.
Proof. split; done. Qed.

Definition acc lamports data owner : AccountSharedData :=
  {| acc_lamports := lamports; acc_data := data; acc_owner := owner; acc_executable := false |}.

(** Program 7 is the token program, program 8 made the accounts 20 to 23; 555 is the
    native mint. *)
Definition L0 : Accounts := {[
  7 := {| acc_lamports := 1; acc_data := []; acc_owner := 3; acc_executable := true |};
  8 := {| acc_lamports := 1; acc_data := []; acc_owner := 3; acc_executable := true |};
  10 := acc 1000 [] 0; 20 := acc 5 (replicate Mint_LEN 0) 8;
  21 := acc 6 (replicate Account_LEN 0) 8; 22 := acc 7 (replicate Account_LEN 0) 8;
  23 := acc 9 (replicate Account_LEN 0) 8 ]}.

Definition keys : list Pubkey := [10; 20; 21; 22; 23; 555; 7; 8].
Definition signer (i : nat) : bool := (i =? 0)%nat.
Definition writable (i : nat) : bool := (i <=? 4)%nat.

Definition tc0 : TransactionContext := {|
  account_keys := keys; accounts := L0; touched_flags := ∅; resize_delta := 0; instruction_stack_capacity := 5;
  instruction_trace_capacity := 64; instruction_stack := []; instruction_trace_length := 0;
  top_level_instruction_index := 0; remove_accounts_executable_flag_checks := false
|}.

Definition get (r : result TransactionContext InstructionError) : TransactionContext :=
  match r with Ok tc => tc | Err _ => tc0 end.
Definition current (tc : TransactionContext) : InstructionContext :=
  match instruction_stack tc with
  | c :: _ => c
  | [] => {| program_id := 0; instruction_accounts := []; instruction_accounts_lamport_sum := 0 |}
  end.
Definition account (i : nat) (tc : TransactionContext) : InstructionAccount :=
  default {| key := 0; index_in_caller := 0; index_in_callee := 0; is_signer := false; is_writable := false |}
    (instruction_accounts (current tc) !! i).

(** One instruction of the token program. *)
Definition state_of (tc : TransactionContext) : State := {| mem := accounts tc; return_data := [] |}.
Definition processed (i : TokenInstruction) (tc : TransactionContext) : State :=
  match process 7 (instruction_accounts (current tc)) (Instr.pack i) (state_of tc) with
  | Ret (Ok s) => s
  | _ => state_of tc
  end.
Definition call (indices : list nat) (tc : TransactionContext) : TransactionContext :=
  get (push 7 (message_accounts keys signer writable [] indices) tc).
Definition token_run (i : TokenInstruction) (tc : TransactionContext) : TransactionContext :=
  get (deserialize_parameters (current tc)
    ((λ a, length (acc_data (get_account tc (key a)))) <$> instruction_accounts (current tc))
    (buffer_of (processed i tc)) tc).
Definition instruct (indices : list nat) (i : TokenInstruction) (tc : TransactionContext) : TransactionContext :=
  get (pop (token_run i (call indices tc))).

(** Program 8 hands over the accounts, key 10 makes a mint of 100 tokens, transfers 30
    and opens an account for native tokens. *)
Definition give (i : nat) (tc : TransactionContext) : TransactionContext :=
  get (run_op (current tc) (account i tc) (OpSetOwner 7) tc).
Definition tc1 := get (push 8 (message_accounts keys signer writable [] [1; 2; 3; 4]%nat) tc0).
Definition tc2 := get (pop (give 3 (give 2 (give 1 (give 0 tc1))))).
Definition tc3 := instruct [1]%nat (InitializeMint2 2 10 None) tc2.
Definition tc4 := instruct [2; 1]%nat (InitializeAccount3 10) tc3.
Definition tc5 := instruct [3; 1]%nat (InitializeAccount3 11) tc4.
Definition tc6 := instruct [1; 2; 0]%nat (MintTo 100) tc5.
Definition tc7 := instruct [2; 3; 0]%nat (Transfer 30) tc6.
Definition tc8 := instruct [4; 5]%nat (InitializeAccount3 10) tc7.
Definition L8 : Accounts :=
  (λ a, if acc_lamports a =? 0 then account_default else a) <$> accounts tc8.

Definition bytesb (l : list Z) : bool := forallb (λ b, (0 <=? b) && (b <? 256)) l.
Lemma bytesb_true l : bytesb l = true → Bytes l.
Proof.
  intros Hb. apply Forall_forall. intros b Hin. unfold bytesb in Hb. rewrite forallb_forall in Hb.
  apply list_elem_of_In, Hb, andb_true_iff in Hin as [?%Z.leb_le ?%Z.ltb_lt]. by split.
Qed.

Definition typedb (L : Accounts) : bool :=
  forallb (λ p : Pubkey * AccountSharedData,
    bytesb (acc_data p.2) && (0 <=? acc_lamports p.2) && (acc_lamports p.2 <=? u64_MAX)) (map_to_list L).
Lemma typedb_true L : typedb L = true → typed L.
Proof.
  intros Ht k. unfold account_at. destruct (L !! k) as [a|] eqn:Hk; [|split; [constructor|done]]. cbn [default from_option id].
  apply elem_of_map_to_list, list_elem_of_In in Hk. unfold typedb in Ht. rewrite forallb_forall in Ht.
  specialize (Ht _ Hk). cbn [snd] in Ht. apply andb_true_iff in Ht as [[?%bytesb_true ?%Z.leb_le]%andb_true_iff ?%Z.leb_le].
  split; [done|]. unfold is_u64, u64_MAX in *. lia.
Qed.

Abbreviation run_step := (step (token_body 7) signer writable).

(** An instruction of the token program that goes through. *)
Lemma instruct_steps indices i tc :
  let tc1 := call indices tc in
  instruction_stack tc = [] → account_keys tc = keys → forallb (λ i, i <? length keys)%nat indices = true →
  push 7 (message_accounts keys signer writable [] indices) tc = Ok tc1 →
  hd_error (instruction_stack tc1) = Some (current tc1) → program_id (current tc1) = 7 →
  bytesb (Instr.pack i) = true →
  process 7 (instruction_accounts (current tc1)) (Instr.pack i) (state_of tc1) = Ret (Ok (processed i tc1)) →
  deserialize_parameters (current tc1)
    ((λ a, length (acc_data (get_account tc1 (key a)))) <$> instruction_accounts (current tc1))
    (buffer_of (processed i tc1)) tc1 = Ok (token_run i tc1) →
  pop (token_run i tc1) = Ok (instruct indices i tc) →
  rtc run_step tc (instruct indices i tc).
Proof.
  intros tc1 Hst HK Hi Hp Hhd Hpid Hb Hproc Hd Hpop.
  apply (rtc_l _ _ tc1).
  { apply (step_message _ _ _ 7 indices); [done| |by rewrite HK]. rewrite HK. apply Forall_forall. intros x Hx.
    rewrite forallb_forall in Hi. by apply list_elem_of_In, Hi, Nat.ltb_lt in Hx. }
  apply (rtc_l _ _ (token_run i tc1)).
  { destruct (instruction_stack tc1) as [|c stack] eqn:Hs; [done|]. injection Hhd as Hc.
    apply (step_body _ _ _ c stack); [done|]. rewrite Hc. apply (body_token _ _ _ _ (Instr.pack i) (processed i tc1)); [done| |done|done].
    by apply bytesb_true. }
  apply rtc_once, step_pop, Hpop.
Qed.

(** Program 8 gives away an account. *)
Lemma give_step i tc :
  hd_error (instruction_stack tc) = Some (current tc) → program_id (current tc) = 8 →
  (i <? length (instruction_accounts (current tc)))%nat = true →
  run_op (current tc) (account i tc) (OpSetOwner 7) tc = Ok (give i tc) → typedb (accounts (give i tc)) = true →
  run_step tc (give i tc).
Proof.
  intros Hhd Hp Hi%Nat.ltb_lt Hr Ht%typedb_true. destruct (instruction_stack tc) as [|c stack] eqn:Hs; [done|]. injection Hhd as Hc.
  apply (step_body _ _ _ c stack); [done|]. rewrite Hc. apply body_other; [by rewrite Hp| |done].
  apply (body_op _ _ _ (account i tc) (OpSetOwner 7)); [|done]. unfold account.
  apply lookup_lt_is_Some in Hi as [a Ha]. rewrite Ha. by eapply list_elem_of_lookup_2.
Qed.

Lemma demo_steps : rtc run_step tc0 tc8.
Proof.
  apply (rtc_l _ _ tc1).
  { apply (step_message _ _ _ 8 [1; 2; 3; 4]%nat); [done|repeat constructor; simpl; lia|vm_compute; reflexivity]. }
  apply (rtc_l _ _ (give 0 tc1)); [apply give_step; vm_compute; reflexivity|].
  apply (rtc_l _ _ (give 1 (give 0 tc1))); [apply give_step; vm_compute; reflexivity|].
  apply (rtc_l _ _ (give 2 (give 1 (give 0 tc1)))); [apply give_step; vm_compute; reflexivity|].
  apply (rtc_l _ _ (give 3 (give 2 (give 1 (give 0 tc1))))); [apply give_step; vm_compute; reflexivity|].
  apply (rtc_l _ _ tc2); [apply step_pop; vm_compute; reflexivity|].
  transitivity tc3; [apply instruct_steps; vm_compute; reflexivity|].
  transitivity tc4; [apply instruct_steps; vm_compute; reflexivity|].
  transitivity tc5; [apply instruct_steps; vm_compute; reflexivity|].
  transitivity tc6; [apply instruct_steps; vm_compute; reflexivity|].
  transitivity tc7; [apply instruct_steps; vm_compute; reflexivity|].
  apply instruct_steps; vm_compute; reflexivity.
Qed.

Lemma demo_genesis : genesis 7 L0.
Proof.
  split; [apply typedb_true; vm_compute; reflexivity|]. intros k Ho. exfalso. revert Ho. unfold account_at, L0.
  repeat (rewrite lookup_insert; destruct (decide _); [done|]). rewrite lookup_singleton. by destruct (decide _).
Qed.

Lemma demo_ledger : rtc (ledger_step 7) L0 L8.
Proof.
  apply rtc_once, (ledger_transaction _ _ _ signer writable tc0 tc8);
    [reflexivity| | |reflexivity|apply demo_steps|vm_compute; reflexivity|].
  - by apply (bool_decide_unpack _).
  - repeat (apply Forall_cons; split; [by split|]). constructor.
  - intros k. unfold L8, account_at, get_account, account_at. rewrite lookup_fmap.
    by destruct (accounts tc8 !! k).
Qed.

(** 100 tokens were minted, 70 and 30 are held. *)
Lemma supply_conserved_witness :
  (supply <$> mint_of 7 (account_at L8 20)) = Some 100 ∧ held 7 20 L8 = 100.
Proof.
  split; [vm_compute; reflexivity|].
  destruct (mint_of 7 (account_at L8 20)) as [m|] eqn:Hm; [|vm_compute in Hm; discriminate Hm].
  destruct (supply_conserved 7 ltac:(done) ltac:(done) (λ d i d' Hb E, eq_ind d Bytes Hb d' (Ok_inj _ _ E)) (λ _ _, eq_refl)
    L0 L8 20 m demo_genesis demo_ledger Hm ltac:(done)) as [<- _].
  vm_compute in Hm. by injection Hm as <-.
Defined.

(** The account of native tokens keeps its reserve. *)
Lemma native_backed_witness :
  (is_native_reserve <$> token_of 7 (account_at L8 23)) = Some (Some 1) ∧
  ∃ t, token_of 7 (account_at L8 23) = Some t ∧ 0 < 1 ∧ amount t + 1 ≤ acc_lamports (account_at L8 23).
Proof.
  split; [vm_compute; reflexivity|].
  destruct (token_of 7 (account_at L8 23)) as [t|] eqn:Ht; [|vm_compute in Ht; discriminate Ht]. exists t. split; [done|].
  pose proof (native_backed 7 ltac:(done) ltac:(done) (λ d i d' Hb E, eq_ind d Bytes Hb d' (Ok_inj _ _ E)) (λ _ _, eq_refl)
    L0 L8 23 t demo_genesis demo_ledger Ht) as Hn.
  assert (is_native_reserve t = Some 1) as Hr by (vm_compute in Ht; by injection Ht as <-).
  rewrite Hr in Hn. apply Hn.
Defined.

(** The transfer. *)
Definition tct : TransactionContext := call [2; 3; 0]%nat tc6.
Definition accts : list AccountInfo := instruction_accounts (current tct).
Definition st : State := state_of tct.

Lemma demo_accts : key <$> accts = [21; 22; 10].
Proof. vm_compute. reflexivity. Qed.

Lemma demo_keys info : info ∈ accts → key info ∈ [21; 22; 10].
Proof. intros Hin. rewrite <-demo_accts. by apply list_elem_of_fmap_2. Qed.

Lemma demo_infos : infos_ok accts st.
Proof.
  assert (typed (accounts tct)) as Ht by (apply typedb_true; vm_compute; reflexivity).
  split; intros info Hin; [|apply (Ht (key info))..]. apply demo_keys in Hin. revert Hin.
  rewrite !elem_of_cons. by intros [->|[->|[->|?%elem_of_nil]]].
Qed.

Lemma demo_bytes i : bytesb (Instr.pack i) = true → Bytes (Instr.pack i).
Proof. apply bytesb_true. Qed.

Lemma demo_process : process 7 accts (Instr.pack (Transfer 30)) st = Ret (Ok (processed (Transfer 30) tct)).
Proof. vm_compute. reflexivity. Qed.

Lemma process_refines_effect_witness : effect 7 accts st (processed (Transfer 30) tct).
Proof.
  apply (process_refines_effect 7 accts st (Instr.pack (Transfer 30)));
    [apply demo_infos|apply demo_bytes; vm_compute; reflexivity|apply demo_process].
Defined.

Definition token_at (i : nat) (s : State) : Account :=
  match AccountPack.unpack_from_slice (data s (account i tct)) with
  | Ok a => a
  | Err _ => {| mint := 0; owner := 0; amount := 0; delegate := None; state := Uninitialized;
                is_native_reserve := None; delegated_amount := 0; close_authority := None |}
  end.

Lemma account_changes_authorized_witness :
  amount (token_at 0 (processed (Transfer 30) tct)) < amount (token_at 0 st) ∧
  ((∃ a', holds_account (data (processed (Transfer 30) tct) (account 0 tct)) a' ∧
      account_change 7 accts st (token_at 0 st) a') ∨
   account_closed 7 accts st (token_at 0 st) (account 0 tct) (processed (Transfer 30) tct)).
Proof.
  split; [vm_compute; reflexivity|].
  apply (account_changes_authorized 7 accts st (Instr.pack (Transfer 30)));
    [apply demo_infos|apply demo_bytes; vm_compute; reflexivity|apply demo_process|split; vm_compute; reflexivity|].
  intros Hs. vm_compute in Hs. discriminate Hs.
Defined.

(** A multisignature of 11, 12 and 13, of which two must sign; 11 and 13 do, and 14,
    which is none of them, does not. *)
Definition demo_ms : Multisig := {|
  multisig_m := 2; multisig_n := 3; multisig_is_initialized := true;
  signers := [11; 12; 13] ++ replicate 8 0 |}.
Definition info_of (k : Pubkey) (signed : bool) : AccountInfo := {|
  key := k; index_in_caller := 0; index_in_callee := 0; is_signer := signed; is_writable := false |}.
Definition ms_infos : list AccountInfo := [info_of 13 true; info_of 14 false; info_of 11 true].
Definition ms_state : State :=
  {| mem := {[ 24 := acc 1 (MultisigPack.pack_into_slice demo_ms []) 7 ]}; return_data := [] |}.

Lemma demo_holds_ms : holds_multisig (data ms_state (info_of 24 false)) demo_ms.
Proof. split; vm_compute; reflexivity. Qed.

Lemma demo_ms_signed : multisig_signed demo_ms ms_infos.
Proof.
  split; [|vm_compute; discriminate]. intros i. unfold ms_infos. rewrite !elem_of_cons, elem_of_nil.
  intros [->|[->|[->|[]]]]; [done| |done]. intros Hin. apply (bool_decide_pack _) in Hin. vm_compute in Hin. done.
Qed.

Lemma validate_owner_exact_witness :
  validate_owner 7 24 (info_of 24 false) ms_infos ms_state = Ret (Ok tt) ∧
  ∃ ks : gset Pubkey, 2 ≤ Z.of_nat (size ks) ∧ ∀ x, x ∈ ks → member_signed demo_ms ms_infos x.
Proof.
  destruct (validate_owner_exact 7 ms_infos ms_state 24 (info_of 24 false)) as [Hiff Hdistinct].
  - intros i j. unfold ms_infos. rewrite !elem_of_cons, !elem_of_nil.
    intros [->|[->|[->|[]]]] [->|[->|[->|[]]]] Hk; first [reflexivity|exfalso; revert Hk; vm_compute; discriminate].
  - intros ms [_ Hms]. rewrite (proj2 demo_holds_ms) in Hms. injection Hms as <-. vm_compute. discriminate.
  - assert (validate_owner 7 24 (info_of 24 false) ms_infos ms_state = Ret (Ok tt)) as Hv.
    { apply Hiff. split; [reflexivity|]. rewrite decide_True by (split; vm_compute; reflexivity).
      exists demo_ms. split_and!; [apply demo_holds_ms|reflexivity|apply demo_ms_signed]. }
    split; [exact Hv|]. apply (Hdistinct demo_ms Hv); [vm_compute; reflexivity|apply demo_holds_ms|].
    apply (bool_decide_unpack _). vm_compute. exact I.
Defined.

Lemma demo_no_multisig info : key info ∈ [21; 22; 10] → length (data st info) ≠ Multisig_LEN.
Proof.
  assert (forallb (λ k, negb (length (acc_data (account_at (mem st) k)) =? Multisig_LEN)%nat) [21; 22; 10] = true) as Hf
    by (vm_compute; reflexivity).
  intros Hin%list_elem_of_In. rewrite forallb_forall in Hf. by apply Hf, negb_true_iff, Nat.eqb_neq in Hin.
Qed.

Lemma demo_length : (length accts ≤ 255)%nat.
Proof. rewrite <-(length_fmap key), demo_accts. simpl. lia. Qed.

Lemma demo_few_signers info ms :
  info ∈ accts → info_owner st info = 7 → holds_multisig (data st info) ms → multisig_n ms ≤ Z.of_nat MAX_SIGNERS.
Proof. intros Hin%demo_keys _ [Hl _]. destruct (demo_no_multisig info Hin Hl). Qed.

Lemma process_never_panics_witness : ∃ r, process 7 accts [3; 1; 2] st = Ret r.
Proof.
  apply (process_never_panics 7 accts st [3; 1; 2]); [apply demo_length|apply demo_few_signers].
Defined.

Lemma transfer_succeeds_witness :
  process 7 [account 0 tct; account 1 tct; account 2 tct] (Instr.pack (Transfer 30)) st =
    Ret (Ok (write_account (account 1 tct) (with_amount 30 (token_at 1 st))
              (write_account (account 0 tct) (with_amount 70 (token_at 0 st)) st))).
Proof.
  rewrite (transfer_succeeds 7 st (account 0 tct) (account 1 tct) (account 2 tct) [] (token_at 0 st) (token_at 1 st) 30);
    [vm_compute; reflexivity|done|].
  split; try (vm_compute; done); split; try split; vm_compute; reflexivity.
Defined.

Definition demo_mint : Mint :=
  {| mint_authority := Some 10; supply := 100; decimals := 2; mint_is_initialized := true; freeze_authority := None |}.

Lemma token_formats_roundtrip_witness :
  MintPack.unpack_from_slice (MintPack.pack_into_slice demo_mint (replicate Mint_LEN 0)) = Ok demo_mint ∧
  Instr.unpack (Instr.pack (Transfer 30)) = Ok (Transfer 30) ∧
  amount_to_ui_amount_string_trimmed 1500 3 = [49; 46; 53] ∧
  try_ui_amount_into_amount (amount_to_ui_amount_string_trimmed 1500 3) 3 = Ok 1500.
Proof.
  destruct (token_formats_roundtrip (replicate Mint_LEN 0)) as (Hm & _ & _ & Hi & Hu & _).
  split; [apply Hm; [split; [by intros ? [= <-]|done|done|done]|reflexivity]|].
  split; [by apply Hi|]. split; [vm_compute; reflexivity|]. by apply Hu.
Defined.

End TokenDemo.
