(* ===== verification/PTokenState.v ===== *)
(** The state of p-token, [spl-token/interface/src/state]: the structs that the data of
    an account is cast to, with their fields as they lie in memory. *)

From Stdlib Require Import Strings.String.
From S2P Require Import Prelude Bytes TransactionContext TokenState TokenProcessor.

(** [pubkey!] of [pinocchio-pubkey]. *)
Class PubkeyMacro := { pubkey : string → Pubkey }.

(** * Casting data *)

(** [Transmutable]: the layout of a [repr(C)] struct of [LEN] bytes. *)
Class Transmutable (T : Type) := {
  LEN : nat;
  of_bytes : list Z → T;
  to_bytes : T → list Z;
}.
Arguments LEN T {_}.

Class Initializable (T : Type) := { is_initialized : T → result bool ProgramError }.

Section load.
Context (T : Type) `{Transmutable T, Initializable T}.

Definition load_unchecked (bytes : list Z) : result T ProgramError :=
  if negb (length bytes =? LEN T)%nat then Err InvalidAccountData else Ok (of_bytes bytes).

Definition load (bytes : list Z) : result T ProgramError :=
  t ←! load_unchecked bytes;
  initialized ←! is_initialized t;
  if initialized : bool then Ok t else Err UninitializedAccount.

(** Mutable references: the checks are the same, what is written goes to the data. *)
Definition load_mut_unchecked (bytes : list Z) : result T ProgramError :=
  if negb (length bytes =? LEN T)%nat then Err InvalidAccountData else Ok (of_bytes bytes).

Definition load_mut (bytes : list Z) : result T ProgramError :=
  t ←! load_mut_unchecked bytes;
  initialized ←! is_initialized t;
  if initialized : bool then Ok t else Err UninitializedAccount.

End load.

(** A value through a reference, and an assignment through a mutable reference. *)
Definition deref T `{Transmutable T} (s : State) (info : AccountInfo) : T := of_bytes (data s info).
Definition modify {T} `{Transmutable T} (info : AccountInfo) (f : T → T) (s : State) : State :=
  set_data info (to_bytes (f (deref T s info))) s.

(** [COption<T> = ([u8; 4], T)]. *)
Definition COption (T : Type) : Type := list Z * T.
Definition set_tag {T} (b : Z) (o : COption T) : COption T := (<[0%nat := b]> o.1, o.2).

(** * Token accounts *)

Definition AccountState_try_from (value : Z) : result AccountState ProgramError :=
  match value with
  | 0 => Ok Uninitialized
  | 1 => Ok Initialized
  | 2 => Ok Frozen
  | _ => Err InvalidAccountData
  end.

Module PAccount.

Record t := {
  mint : Pubkey;
  owner : Pubkey;
  amount_ : list Z;
  delegate_ : COption Pubkey;
  state : Z;
  is_native_ : list Z;
  native_amount_ : list Z;
  delegated_amount_ : list Z;
  close_authority_ : COption Pubkey;
}.

Definition widths : list nat := [32; 32; 8; 4; 32; 1; 4; 8; 8; 4; 32]%nat.

Definition default : t :=
  {| mint := 0; owner := 0; amount_ := []; delegate_ := ([], 0); state := 0; is_native_ := [];
     native_amount_ := []; delegated_amount_ := []; close_authority_ := ([], 0) |}.

#[global] Instance layout : Transmutable t := {|
  LEN := 165;
  of_bytes bytes :=
    match array_refs widths bytes with
    | [mint; owner; amount; delegate_tag; delegate; state; is_native; native_amount; delegated_amount;
       close_tag; close_authority] =>
        {| mint := key_of_bytes mint; owner := key_of_bytes owner; amount_ := amount;
           delegate_ := (delegate_tag, key_of_bytes delegate); state := from_le_bytes state;
           is_native_ := is_native; native_amount_ := native_amount; delegated_amount_ := delegated_amount;
           close_authority_ := (close_tag, key_of_bytes close_authority) |}
    | _ => default
    end;
  to_bytes p :=
    concat [key_bytes (mint p); key_bytes (owner p); amount_ p; (delegate_ p).1; key_bytes (delegate_ p).2;
            [state p]; is_native_ p; native_amount_ p; delegated_amount_ p;
            (close_authority_ p).1; key_bytes (close_authority_ p).2];
|}.

(** Assignments to the fields. *)
Definition with_mint (x : Pubkey) (p : t) : t :=
  {| mint := x; owner := owner p; amount_ := amount_ p; delegate_ := delegate_ p; state := state p;
     is_native_ := is_native_ p; native_amount_ := native_amount_ p;
     delegated_amount_ := delegated_amount_ p; close_authority_ := close_authority_ p |}.
Definition with_owner (x : Pubkey) (p : t) : t :=
  {| mint := mint p; owner := x; amount_ := amount_ p; delegate_ := delegate_ p; state := state p;
     is_native_ := is_native_ p; native_amount_ := native_amount_ p;
     delegated_amount_ := delegated_amount_ p; close_authority_ := close_authority_ p |}.
Definition with_delegate (x : COption Pubkey) (p : t) : t :=
  {| mint := mint p; owner := owner p; amount_ := amount_ p; delegate_ := x; state := state p;
     is_native_ := is_native_ p; native_amount_ := native_amount_ p;
     delegated_amount_ := delegated_amount_ p; close_authority_ := close_authority_ p |}.
Definition with_close_authority (x : COption Pubkey) (p : t) : t :=
  {| mint := mint p; owner := owner p; amount_ := amount_ p; delegate_ := delegate_ p; state := state p;
     is_native_ := is_native_ p; native_amount_ := native_amount_ p;
     delegated_amount_ := delegated_amount_ p; close_authority_ := x |}.

Definition set_account_state (s : AccountState) (p : t) : t :=
  {| mint := mint p; owner := owner p; amount_ := amount_ p; delegate_ := delegate_ p;
     state := AccountState_as_u8 s; is_native_ := is_native_ p; native_amount_ := native_amount_ p;
     delegated_amount_ := delegated_amount_ p; close_authority_ := close_authority_ p |}.

Definition set_amount (amount : Z) (p : t) : t :=
  {| mint := mint p; owner := owner p; amount_ := to_le_bytes 8 amount; delegate_ := delegate_ p;
     state := state p; is_native_ := is_native_ p; native_amount_ := native_amount_ p;
     delegated_amount_ := delegated_amount_ p; close_authority_ := close_authority_ p |}.
Definition amount (p : t) : Z := from_le_bytes (amount_ p).

Definition clear_delegate (p : t) : t := with_delegate (set_tag 0 (delegate_ p)) p.
Definition set_delegate (delegate : Pubkey) (p : t) : t := with_delegate ((set_tag 1 (delegate_ p)).1, delegate) p.
Definition delegate (p : t) : option Pubkey :=
  if bool_decide ((delegate_ p).1 !! 0%nat = Some 1) then Some (delegate_ p).2 else None.

Definition set_native (value : bool) (p : t) : t :=
  {| mint := mint p; owner := owner p; amount_ := amount_ p; delegate_ := delegate_ p; state := state p;
     is_native_ := <[0%nat := bool_as_u8 value]> (is_native_ p); native_amount_ := native_amount_ p;
     delegated_amount_ := delegated_amount_ p; close_authority_ := close_authority_ p |}.
Definition is_native (p : t) : bool := bool_decide (is_native_ p !! 0%nat = Some 1).

Definition set_native_amount (amount : Z) (p : t) : t :=
  {| mint := mint p; owner := owner p; amount_ := amount_ p; delegate_ := delegate_ p; state := state p;
     is_native_ := is_native_ p; native_amount_ := to_le_bytes 8 amount;
     delegated_amount_ := delegated_amount_ p; close_authority_ := close_authority_ p |}.
Definition native_amount (p : t) : option Z :=
  if is_native p then Some (from_le_bytes (native_amount_ p)) else None.

Definition set_delegated_amount (amount : Z) (p : t) : t :=
  {| mint := mint p; owner := owner p; amount_ := amount_ p; delegate_ := delegate_ p; state := state p;
     is_native_ := is_native_ p; native_amount_ := native_amount_ p;
     delegated_amount_ := to_le_bytes 8 amount; close_authority_ := close_authority_ p |}.
Definition delegated_amount (p : t) : Z := from_le_bytes (delegated_amount_ p).

Definition clear_close_authority (p : t) : t := with_close_authority (set_tag 0 (close_authority_ p)) p.
Definition set_close_authority (value : Pubkey) (p : t) : t :=
  with_close_authority ((set_tag 1 (close_authority_ p)).1, value) p.
Definition close_authority (p : t) : option Pubkey :=
  if bool_decide ((close_authority_ p).1 !! 0%nat = Some 1) then Some (close_authority_ p).2 else None.

Definition is_frozen (p : t) : result bool ProgramError :=
  s ←! AccountState_try_from (state p);
  Ok (bool_decide (s = Frozen)).

Definition INCINERATOR_ID `{PubkeyMacro} : Pubkey := pubkey "1nc1nerator11111111111111111111111111111111"%string.
Definition SYSTEM_PROGRAM_ID `{PubkeyMacro} : Pubkey := pubkey "11111111111111111111111111111111"%string.
Definition is_owned_by_system_program_or_incinerator `{PubkeyMacro} (p : t) : bool :=
  (SYSTEM_PROGRAM_ID =? owner p) || (INCINERATOR_ID =? owner p).

#[global] Instance initializable : Initializable t := {|
  is_initialized p := s ←! AccountState_try_from (state p); Ok (bool_decide (s ≠ Uninitialized))
|}.

End PAccount.

(** * Mints *)

Module PMint.

Record t := {
  mint_authority_ : COption Pubkey;
  supply_ : list Z;
  decimals : Z;
  is_initialized_ : Z;
  freeze_authority_ : COption Pubkey;
}.

Definition widths : list nat := [4; 32; 8; 1; 1; 4; 32]%nat.

Definition default : t :=
  {| mint_authority_ := ([], 0); supply_ := []; decimals := 0; is_initialized_ := 0; freeze_authority_ := ([], 0) |}.

#[global] Instance layout : Transmutable t := {|
  LEN := 82;
  of_bytes bytes :=
    match array_refs widths bytes with
    | [mint_tag; mint_authority; supply; decimals; is_initialized; freeze_tag; freeze_authority] =>
        {| mint_authority_ := (mint_tag, key_of_bytes mint_authority); supply_ := supply;
           decimals := from_le_bytes decimals; is_initialized_ := from_le_bytes is_initialized;
           freeze_authority_ := (freeze_tag, key_of_bytes freeze_authority) |}
    | _ => default
    end;
  to_bytes p :=
    concat [(mint_authority_ p).1; key_bytes (mint_authority_ p).2; supply_ p; [decimals p]; [is_initialized_ p];
            (freeze_authority_ p).1; key_bytes (freeze_authority_ p).2];
|}.

Definition with_mint_authority (x : COption Pubkey) (p : t) : t :=
  {| mint_authority_ := x; supply_ := supply_ p; decimals := decimals p;
     is_initialized_ := is_initialized_ p; freeze_authority_ := freeze_authority_ p |}.
Definition with_freeze_authority (x : COption Pubkey) (p : t) : t :=
  {| mint_authority_ := mint_authority_ p; supply_ := supply_ p; decimals := decimals p;
     is_initialized_ := is_initialized_ p; freeze_authority_ := x |}.
Definition with_decimals (x : Z) (p : t) : t :=
  {| mint_authority_ := mint_authority_ p; supply_ := supply_ p; decimals := x;
     is_initialized_ := is_initialized_ p; freeze_authority_ := freeze_authority_ p |}.

Definition set_supply (supply : Z) (p : t) : t :=
  {| mint_authority_ := mint_authority_ p; supply_ := to_le_bytes 8 supply; decimals := decimals p;
     is_initialized_ := is_initialized_ p; freeze_authority_ := freeze_authority_ p |}.
Definition supply (p : t) : Z := from_le_bytes (supply_ p).

Definition set_initialized (p : t) : t :=
  {| mint_authority_ := mint_authority_ p; supply_ := supply_ p; decimals := decimals p;
     is_initialized_ := 1; freeze_authority_ := freeze_authority_ p |}.

Definition clear_mint_authority (p : t) : t := with_mint_authority (set_tag 0 (mint_authority_ p)) p.
Definition set_mint_authority (k : Pubkey) (p : t) : t :=
  with_mint_authority ((set_tag 1 (mint_authority_ p)).1, k) p.
Definition mint_authority (p : t) : option Pubkey :=
  if bool_decide ((mint_authority_ p).1 !! 0%nat = Some 1) then Some (mint_authority_ p).2 else None.

Definition clear_freeze_authority (p : t) : t := with_freeze_authority (set_tag 0 (freeze_authority_ p)) p.
Definition set_freeze_authority (k : Pubkey) (p : t) : t :=
  with_freeze_authority ((set_tag 1 (freeze_authority_ p)).1, k) p.
Definition freeze_authority (p : t) : option Pubkey :=
  if bool_decide ((freeze_authority_ p).1 !! 0%nat = Some 1) then Some (freeze_authority_ p).2 else None.

#[global] Instance initializable : Initializable t := {|
  is_initialized p :=
    match is_initialized_ p with
    | 0 => Ok false
    | 1 => Ok true
    | _ => Err InvalidAccountData
    end
|}.

End PMint.

(** * Multisignatures *)

Module PMultisig.

Record t := {
  m : Z;
  n : Z;
  is_initialized_ : Z;
  signers : list Pubkey;
}.

Definition widths : list nat := [1; 1; 1; 352]%nat.

Definition default : t := {| m := 0; n := 0; is_initialized_ := 0; signers := [] |}.

#[global] Instance layout : Transmutable t := {|
  LEN := 355;
  of_bytes bytes :=
    match array_refs widths bytes with
    | [m; n; is_initialized; signers] =>
        {| m := from_le_bytes m; n := from_le_bytes n; is_initialized_ := from_le_bytes is_initialized;
           signers := key_of_bytes <$> array_refs (replicate MAX_SIGNERS 32%nat) signers |}
    | _ => default
    end;
  to_bytes p := concat [[m p]; [n p]; [is_initialized_ p]; concat (key_bytes <$> signers p)];
|}.

Definition with_m (x : Z) (p : t) : t :=
  {| m := x; n := n p; is_initialized_ := is_initialized_ p; signers := signers p |}.
Definition with_n (x : Z) (p : t) : t :=
  {| m := m p; n := x; is_initialized_ := is_initialized_ p; signers := signers p |}.
Definition with_signers (x : list Pubkey) (p : t) : t :=
  {| m := m p; n := n p; is_initialized_ := is_initialized_ p; signers := x |}.

Definition is_valid_signer_index (index : Z) : bool := (MIN_SIGNERS <=? index) && (index <=? Z.of_nat MAX_SIGNERS).

Definition set_initialized (value : bool) (p : t) : t :=
  {| m := m p; n := n p; is_initialized_ := bool_as_u8 value; signers := signers p |}.

#[global] Instance initializable : Initializable t := {|
  is_initialized p :=
    match is_initialized_ p with
    | 0 => Ok false
    | 1 => Ok true
    | _ => Err InvalidAccountData
    end
|}.

End PMultisig.
