(* ===== verification/PToken.v ===== *)
(** The program p-token, [spl-token/p-token/src]: the token program once more, which
    works on the data of the accounts in place. *)

From Stdlib Require Import Strings.String.
From S2P Require Import Prelude Bytes TransactionContext TokenState TokenInstruction.
From S2P Require Import TokenAmount TokenProcessor PTokenState.

(** Crates outside the repository. *)
Class Pinocchio := {
  pubkey_macro :: PubkeyMacro;
  PRent : Type;
  from_account_info_unchecked (key : Pubkey) (data : list Z) : result PRent ProgramError;
  PRent_get : result PRent ProgramError;
  p_is_exempt : PRent → Z → nat → bool;
  p_minimum_balance : PRent → nat → Z;
  close_unchecked : AccountSharedData → AccountSharedData;
  logger_append_with_args (capacity : nat) (amount precision : Z) : list Z;
}.

(** Overflow of [a + b] in a release build. *)
Definition wrapping_add_u64 (a b : Z) : Z := (a + b) mod 2 ^ 64.

Module PToken.

Section ptoken.
Context `{Pinocchio}.

Definition TOKEN_PROGRAM_ID : Pubkey := pubkey "Gorbj8Dp27NkXMQUkeHBSmpf6iQ3yT4b2uVe8kM4s6br"%string.
Definition NATIVE_MINT_ID : Pubkey := pubkey "So11111111111111111111111111111111111111112"%string.
Definition is_native_mint (mint : Pubkey) : bool := mint =? NATIVE_MINT_ID.

Definition U64_BYTES : nat := 8.
Definition MAX_FORMATTED_DIGITS : nat := 257.

(** * Helpers *)

Definition is_owned_by (info : AccountInfo) (program : Pubkey) (s : State) : bool := info_owner s info =? program.

(** Comparing the raw pointers of two infos: infos of one account share them. *)
Definition same_account (i j : AccountInfo) : bool := key i =? key j.

Definition check_account_owner (account_info : AccountInfo) (s : State) : outcome (result unit ProgramError) :=
  Ret (if is_owned_by account_info TOKEN_PROGRAM_ID s then Ok tt else Err IncorrectProgramId).

Fixpoint match_positions (signer : AccountInfo) (position : nat) (keys : list Pubkey)
    (matched : list bool) (num_signers : Z) : result (list bool * Z) ProgramError :=
  match keys with
  | [] => Ok (matched, num_signers)
  | k :: keys =>
      if (k =? key signer) && negb (default false (matched !! position)) then
        if negb (is_signer signer) then Err MissingRequiredSignature
        else match_positions signer (S position) keys (<[position := true]> matched) (num_signers + 1)
      else match_positions signer (S position) keys matched num_signers
  end.

Fixpoint match_signers (multisig : PMultisig.t) (infos : list AccountInfo) (matched : list bool)
    (num_signers : Z) : outcome (result Z ProgramError) :=
  match infos with
  | [] => Ret (Ok num_signers)
  | signer :: infos =>
      assert_ (PMultisig.n multisig <=? Z.of_nat (length (PMultisig.signers multisig))) ;;
      '(matched, num_signers) ←?
        Ret (match_positions signer 0 (take (Z.to_nat (PMultisig.n multisig)) (PMultisig.signers multisig))
               matched num_signers);
      match_signers multisig infos matched num_signers
  end.

Definition validate_owner (expected_owner : Pubkey) (owner_account_info : AccountInfo)
    (signers : list AccountInfo) (s : State) : outcome (result unit ProgramError) :=
  '_ ←? fail_if (negb (expected_owner =? key owner_account_info)) OwnerMismatch;
  if (data_len s owner_account_info =? LEN PMultisig.t)%nat && is_owned_by owner_account_info TOKEN_PROGRAM_ID s
  then
    multisig ←? Ret (load PMultisig.t (data s owner_account_info));
    num_signers ←? match_signers multisig signers (replicate MAX_SIGNERS false) 0;
    fail_if (num_signers <? PMultisig.m multisig) MissingRequiredSignature
  else fail_if (negb (is_signer owner_account_info)) MissingRequiredSignature.

(** [digits] is a buffer of [MAX_FORMATTED_DIGITS] bytes, all ['0'], that the two
    parts are copied into. *)
Definition try_ui_amount_into_amount (ui_amount : list Z) (decimals : Z) : result Z ProgramError :=
  let decimals := Z.to_nat decimals in
  let '(amount_str, parts) := split ascii_dot ui_amount in
  let after_decimal := trim_end_matches ascii_zero (default [] (head parts)) in
  let length_ := length amount_str in
  if (bool_decide (amount_str = []) && bool_decide (after_decimal = []))
     || negb (bool_decide (tail parts = [])) || (decimals <? length after_decimal)%nat
     || (MAX_FORMATTED_DIGITS <? length_ + decimals)%nat
  then Err InvalidArgument
  else
    let digits := replicate MAX_FORMATTED_DIGITS ascii_zero in
    let digits := list_inserts 0 amount_str digits in
    let digits := list_inserts length_ after_decimal digits in
    match parse_u64 (take (length_ + decimals) digits) with
    | Some amount => Ok amount
    | None => Err InvalidArgument
    end.

Definition unpack_amount (instruction_data : list Z) : result Z ProgramError :=
  if (U64_BYTES <=? length instruction_data)%nat then Ok (from_le_bytes (take U64_BYTES instruction_data))
  else TokenErr InvalidInstruction.

Definition unpack_amount_and_decimals (instruction_data : list Z) : result (Z * Z) ProgramError :=
  if (9 <=? length instruction_data)%nat then
    Ok (from_le_bytes (take U64_BYTES instruction_data), default 0 (instruction_data !! U64_BYTES))
  else TokenErr InvalidInstruction.

(** [*(ptr.add(offset) as *const Pubkey)], inside of the data. *)
Definition pubkey_at (offset : nat) (instruction_data : list Z) : Pubkey :=
  key_of_bytes (take 32 (drop offset instruction_data)).

(** * Shared processors *)

(** The minimum balance or the exemption, by the rent sysvar of the instruction or of
    the runtime. *)
Definition get_rent (rent_sysvar_info : option AccountInfo) (s : State) : outcome (result PRent ProgramError) :=
  Ret (match rent_sysvar_info with
       | Some rent_sysvar_info => from_account_info_unchecked (key rent_sysvar_info) (data s rent_sysvar_info)
       | None => PRent_get
       end).

(** The data of the instruction. *)
Definition unpack_initialize_mint (instruction_data : list Z)
    : result (Z * Pubkey * option Pubkey) ProgramError :=
  if (34 <=? length instruction_data)%nat then
    let decimals := default 0 (instruction_data !! 0%nat) in
    let mint_authority := pubkey_at 1 instruction_data in
    if bool_decide (instruction_data !! 33%nat = Some 0) then Ok (decimals, mint_authority, None)
    else if bool_decide (instruction_data !! 33%nat = Some 1) && (66 <=? length instruction_data)%nat
    then Ok (decimals, mint_authority, Some (pubkey_at 34 instruction_data))
    else TokenErr InvalidInstruction
  else TokenErr InvalidInstruction.

Definition initialize_mint (accounts : list AccountInfo) (decimals : Z) (mint_authority : Pubkey)
    (freeze_authority : option Pubkey) (rent_sysvar_account_provided : bool) (s : State)
    : outcome (result State ProgramError) :=
  '(mint_info, rent_sysvar_info) ←? Ret (
    if rent_sysvar_account_provided then
      match accounts with
      | mint_info :: rent_sysvar_info :: _ => Ok (mint_info, Some rent_sysvar_info)
      | _ => Err NotEnoughAccountKeys
      end
    else
      match accounts with
      | mint_info :: _ => Ok (mint_info, None)
      | _ => Err NotEnoughAccountKeys
      end);
  let mint_data_len := data_len s mint_info in
  rent ←? get_rent rent_sysvar_info s;
  let is_exempt := p_is_exempt rent (lamports s mint_info) mint_data_len in
  mint ←? Ret (load_mut_unchecked PMint.t (data s mint_info));
  initialized ←? Ret (is_initialized mint);
  '_ ←? fail_if initialized AlreadyInUse;
  '_ ←? fail_if (negb is_exempt) NotRentExempt;
  let s := modify mint_info PMint.set_initialized s in
  let s := modify mint_info (PMint.set_mint_authority mint_authority) s in
  let s := modify mint_info (PMint.with_decimals decimals) s in
  Ret (Ok (match freeze_authority with
           | Some freeze_authority => modify mint_info (PMint.set_freeze_authority freeze_authority) s
           | None => s
           end)).

Definition shared_initialize_mint (accounts : list AccountInfo) (instruction_data : list Z)
    (rent_sysvar_account_provided : bool) (s : State) : outcome (result State ProgramError) :=
  '(decimals, mint_authority, freeze_authority) ←? Ret (unpack_initialize_mint instruction_data);
  initialize_mint accounts decimals mint_authority freeze_authority rent_sysvar_account_provided s.

Definition shared_initialize_account (accounts : list AccountInfo) (owner : option Pubkey)
    (rent_sysvar_account_provided : bool) (s : State) : outcome (result State ProgramError) :=
  '(new_account_info, mint_info, owner, remaining) ←? Ret (
    match owner with
    | Some owner =>
        match accounts with
        | new_account_info :: mint_info :: remaining => Ok (new_account_info, mint_info, owner, remaining)
        | _ => Err NotEnoughAccountKeys
        end
    | None =>
        match accounts with
        | new_account_info :: mint_info :: owner_info :: remaining =>
            Ok (new_account_info, mint_info, key owner_info, remaining)
        | _ => Err NotEnoughAccountKeys
        end
    end);
  let new_account_info_data_len := data_len s new_account_info in
  rent_sysvar_info ←? Ret (
    if rent_sysvar_account_provided then
      match remaining with
      | rent_sysvar_info :: _ => Ok (Some rent_sysvar_info)
      | [] => Err NotEnoughAccountKeys
      end
    else Ok None);
  rent ←? get_rent rent_sysvar_info s;
  let minimum_balance := p_minimum_balance rent new_account_info_data_len in
  let is_native_mint := is_native_mint (key mint_info) in
  account ←? Ret (load_mut_unchecked PAccount.t (data s new_account_info));
  initialized ←? Ret (is_initialized account);
  '_ ←? fail_if initialized AlreadyInUse;
  '_ ←? fail_if (lamports s new_account_info <? minimum_balance) NotRentExempt;
  '_ ←? (if negb is_native_mint then
           '_ ←? check_account_owner mint_info s;
           '_ ←? Ret (map_err (load PMint.t (data s mint_info)) InvalidMint);
           Ret (Ok tt)
         else Ret (Ok tt));
  let s := modify new_account_info (PAccount.set_account_state Initialized) s in
  let s := modify new_account_info (PAccount.with_mint (key mint_info)) s in
  let s := modify new_account_info (PAccount.with_owner owner) s in
  if is_native_mint then
    let s := modify new_account_info (PAccount.set_native true) s in
    let s := modify new_account_info (PAccount.set_native_amount minimum_balance) s in
    Ret (Ok (modify new_account_info
               (PAccount.set_amount ((lamports s new_account_info - minimum_balance) mod 2 ^ 64)) s))
  else Ret (Ok s).

(** [for (i, signer_info) in remaining.iter().enumerate() { multisig.signers[i] = .. }]. *)
Fixpoint write_signers (multisig_info : AccountInfo) (i : nat) (remaining : list AccountInfo) (s : State)
    : outcome State :=
  match remaining with
  | [] => Ret s
  | signer_info :: remaining =>
      assert_ (i <? length (PMultisig.signers (deref PMultisig.t s multisig_info)))%nat ;;
      let s := modify multisig_info
        (λ p, PMultisig.with_signers (<[i := key signer_info]> (PMultisig.signers p)) p) s in
      write_signers multisig_info (S i) remaining s
  end.

Definition shared_initialize_multisig (accounts : list AccountInfo) (m : Z)
    (rent_sysvar_account_provided : bool) (s : State) : outcome (result State ProgramError) :=
  '(multisig_info, rent_sysvar_info, remaining) ←? Ret (
    if rent_sysvar_account_provided then
      match accounts with
      | multisig_info :: rent_sysvar_info :: remaining => Ok (multisig_info, Some rent_sysvar_info, remaining)
      | _ => Err NotEnoughAccountKeys
      end
    else
      match accounts with
      | multisig_info :: remaining => Ok (multisig_info, None, remaining)
      | _ => Err NotEnoughAccountKeys
      end);
  let multisig_info_data_len := data_len s multisig_info in
  rent ←? get_rent rent_sysvar_info s;
  let is_exempt := p_is_exempt rent (lamports s multisig_info) multisig_info_data_len in
  multisig ←? Ret (load_mut_unchecked PMultisig.t (data s multisig_info));
  initialized ←? Ret (is_initialized multisig);
  '_ ←? fail_if initialized AlreadyInUse;
  '_ ←? fail_if (negb is_exempt) NotRentExempt;
  let s := modify multisig_info (PMultisig.with_m m) s in
  let s := modify multisig_info (PMultisig.with_n (Z.of_nat (length remaining) mod 256)) s in
  '_ ←? fail_if (negb (PMultisig.is_valid_signer_index (PMultisig.n (deref PMultisig.t s multisig_info))))
          InvalidNumberOfProvidedSigners;
  '_ ←? fail_if (negb (PMultisig.is_valid_signer_index (PMultisig.m (deref PMultisig.t s multisig_info))))
          InvalidNumberOfRequiredSigners;
  s ← write_signers multisig_info 0 remaining s;
  Ret (Ok (modify multisig_info (PMultisig.set_initialized true) s)).

(** The mint that a checked instruction names. *)
Definition check_mint (expected_mint_info : option (AccountInfo * Z)) (mint : Pubkey) (s : State)
    : outcome (result unit ProgramError) :=
  match expected_mint_info with
  | Some (mint_info, decimals) =>
      '_ ←? fail_if (negb (key mint_info =? mint)) MintMismatch;
      mint ←? Ret (load PMint.t (data s mint_info));
      fail_if (negb (decimals =? PMint.decimals mint)) MintDecimalsMismatch
  | None => Ret (Ok tt)
  end.

(** The source, the mint if expected, two more accounts and the remaining ones. *)
Definition transfer_accounts (accounts : list AccountInfo) (expected_decimals : option Z)
    : result (AccountInfo * option (AccountInfo * Z) * AccountInfo * AccountInfo * list AccountInfo) ProgramError :=
  match expected_decimals with
  | Some decimals =>
      match accounts with
      | source_account_info :: mint_info :: destination_account_info :: authority_info :: remaining =>
          Ok (source_account_info, Some (mint_info, decimals), destination_account_info, authority_info, remaining)
      | _ => Err NotEnoughAccountKeys
      end
  | None =>
      match accounts with
      | source_account_info :: destination_account_info :: authority_info :: remaining =>
          Ok (source_account_info, None, destination_account_info, authority_info, remaining)
      | _ => Err NotEnoughAccountKeys
      end
  end.

(** The delegate spends: its allowance goes down, and ends at zero. *)
Definition spend_delegated (source_account_info : AccountInfo) (delegated_amount : Z) (s : State) : State :=
  let s := modify source_account_info (PAccount.set_delegated_amount delegated_amount) s in
  if delegated_amount =? 0 then modify source_account_info PAccount.clear_delegate s else s.

Definition shared_transfer (accounts : list AccountInfo) (amount : Z) (expected_decimals : option Z) (s : State)
    : outcome (result State ProgramError) :=
  '(source_account_info, expected_mint_info, destination_account_info, authority_info, remaining) ←?
    Ret (transfer_accounts accounts expected_decimals);
  source_account ←? Ret (load_mut PAccount.t (data s source_account_info));
  let self_transfer := same_account source_account_info destination_account_info in
  remaining_amount ←?
    (if self_transfer then
       frozen ←? Ret (PAccount.is_frozen source_account);
       '_ ←? fail_if frozen AccountFrozen;
       ok_or (checked_sub (PAccount.amount source_account) amount) InsufficientFunds
     else
       destination_account ←? Ret (load PAccount.t (data s destination_account_info));
       source_frozen ←? Ret (PAccount.is_frozen source_account);
       frozen ←? Ret (if source_frozen : bool then Ok true else PAccount.is_frozen destination_account);
       '_ ←? fail_if frozen AccountFrozen;
       remaining_amount ←? ok_or (checked_sub (PAccount.amount source_account) amount) InsufficientFunds;
       '_ ←? fail_if (negb (PAccount.mint source_account =? PAccount.mint destination_account)) MintMismatch;
       Ret (Ok remaining_amount));
  '_ ←? check_mint expected_mint_info (PAccount.mint source_account) s;
  s ←?
    (if bool_decide (PAccount.delegate source_account = Some (key authority_info)) then
       '_ ←? validate_owner (key authority_info) authority_info remaining s;
       delegated_amount ←? ok_or (checked_sub (PAccount.delegated_amount source_account) amount) InsufficientFunds;
       Ret (Ok (if negb self_transfer then spend_delegated source_account_info delegated_amount s else s))
     else
       '_ ←? validate_owner (PAccount.owner source_account) authority_info remaining s;
       Ret (Ok s));
  if self_transfer || (amount =? 0) then
    '_ ←? check_account_owner source_account_info s;
    '_ ←? check_account_owner destination_account_info s;
    Ret (Ok s)
  else
    let s := modify source_account_info (PAccount.set_amount remaining_amount) s in
    destination_account ←? Ret (load_mut_unchecked PAccount.t (data s destination_account_info));
    let s := modify destination_account_info
      (PAccount.set_amount (wrapping_add_u64 (PAccount.amount destination_account) amount)) s in
    if PAccount.is_native (deref PAccount.t s source_account_info) then
      source_lamports ←? ok_or (checked_sub (lamports s source_account_info) amount) Overflow;
      let s := set_lamports source_account_info source_lamports s in
      destination_lamports ←? ok_or (checked_add u64_MAX (lamports s destination_account_info) amount) Overflow;
      Ret (Ok (set_lamports destination_account_info destination_lamports s))
    else Ret (Ok s).

Definition shared_approve (accounts : list AccountInfo) (amount : Z) (expected_decimals : option Z) (s : State)
    : outcome (result State ProgramError) :=
  '(source_account_info, expected_mint_info, delegate_info, owner_info, remaining) ←?
    Ret (transfer_accounts accounts expected_decimals);
  source_account ←? Ret (load_mut PAccount.t (data s source_account_info));
  frozen ←? Ret (PAccount.is_frozen source_account);
  '_ ←? fail_if frozen AccountFrozen;
  '_ ←? check_mint expected_mint_info (PAccount.mint source_account) s;
  '_ ←? validate_owner (PAccount.owner source_account) owner_info remaining s;
  let s := modify source_account_info (PAccount.set_delegate (key delegate_info)) s in
  Ret (Ok (modify source_account_info (PAccount.set_delegated_amount amount) s)).

Definition check_decimals (expected_decimals : option Z) (mint : PMint.t) : outcome (result unit ProgramError) :=
  match expected_decimals with
  | Some expected_decimals => fail_if (negb (expected_decimals =? PMint.decimals mint)) MintDecimalsMismatch
  | None => Ret (Ok tt)
  end.

Definition shared_mint_to (accounts : list AccountInfo) (amount : Z) (expected_decimals : option Z) (s : State)
    : outcome (result State ProgramError) :=
  match accounts with
  | mint_info :: destination_account_info :: owner_info :: remaining =>
      destination_account ←? Ret (load_mut PAccount.t (data s destination_account_info));
      frozen ←? Ret (PAccount.is_frozen destination_account);
      '_ ←? fail_if frozen AccountFrozen;
      '_ ←? fail_if (PAccount.is_native destination_account) NativeNotSupported;
      '_ ←? fail_if (negb (key mint_info =? PAccount.mint destination_account)) MintMismatch;
      mint ←? Ret (load_mut PMint.t (data s mint_info));
      '_ ←? check_decimals expected_decimals mint;
      '_ ←? match PMint.mint_authority mint with
            | Some mint_authority => validate_owner mint_authority owner_info remaining s
            | None => Ret (TokenErr FixedSupply)
            end;
      if amount =? 0 then
        '_ ←? check_account_owner mint_info s;
        '_ ←? check_account_owner destination_account_info s;
        Ret (Ok s)
      else
        mint_supply ←? ok_or (checked_add u64_MAX (PMint.supply mint) amount) Overflow;
        let s := modify mint_info (PMint.set_supply mint_supply) s in
        Ret (Ok (modify destination_account_info
          (PAccount.set_amount (wrapping_add_u64 (PAccount.amount (deref PAccount.t s destination_account_info)) amount)) s))
  | _ => Ret (Err NotEnoughAccountKeys)
  end.

Definition shared_burn (accounts : list AccountInfo) (amount : Z) (expected_decimals : option Z) (s : State)
    : outcome (result State ProgramError) :=
  match accounts with
  | source_account_info :: mint_info :: authority_info :: remaining =>
      source_account ←? Ret (load_mut PAccount.t (data s source_account_info));
      mint ←? Ret (load_mut PMint.t (data s mint_info));
      frozen ←? Ret (PAccount.is_frozen source_account);
      '_ ←? fail_if frozen AccountFrozen;
      '_ ←? fail_if (PAccount.is_native source_account) NativeNotSupported;
      updated_source_amount ←? ok_or (checked_sub (PAccount.amount source_account) amount) InsufficientFunds;
      '_ ←? fail_if (negb (key mint_info =? PAccount.mint source_account)) MintMismatch;
      '_ ←? check_decimals expected_decimals mint;
      s ←?
        (if negb (PAccount.is_owned_by_system_program_or_incinerator source_account) then
           if bool_decide (PAccount.delegate source_account = Some (key authority_info)) then
             '_ ←? validate_owner (key authority_info) authority_info remaining s;
             delegated_amount ←? ok_or (checked_sub (PAccount.delegated_amount source_account) amount) InsufficientFunds;
             Ret (Ok (spend_delegated source_account_info delegated_amount s))
           else
             '_ ←? validate_owner (PAccount.owner source_account) authority_info remaining s;
             Ret (Ok s)
         else Ret (Ok s));
      if amount =? 0 then
        '_ ←? check_account_owner source_account_info s;
        '_ ←? check_account_owner mint_info s;
        Ret (Ok s)
      else
        let s := modify source_account_info (PAccount.set_amount updated_source_amount) s in
        mint_supply ← unwrap (checked_sub (PMint.supply (deref PMint.t s mint_info)) amount);
        Ret (Ok (modify mint_info (PMint.set_supply mint_supply) s))
  | _ => Ret (Err NotEnoughAccountKeys)
  end.

Definition shared_toggle_account_state (accounts : list AccountInfo) (freeze : bool) (s : State)
    : outcome (result State ProgramError) :=
  match accounts with
  | source_account_info :: mint_info :: authority_info :: remaining =>
      source_account ←? Ret (load_mut PAccount.t (data s source_account_info));
      frozen ←? Ret (PAccount.is_frozen source_account);
      '_ ←? fail_if (Bool.eqb freeze frozen) InvalidState;
      '_ ←? fail_if (PAccount.is_native source_account) NativeNotSupported;
      '_ ←? fail_if (negb (key mint_info =? PAccount.mint source_account)) MintMismatch;
      mint ←? Ret (load PMint.t (data s mint_info));
      '_ ←? match PMint.freeze_authority mint with
            | Some authority => validate_owner authority authority_info remaining s
            | None => Ret (TokenErr MintCannotFreeze)
            end;
      Ret (Ok (modify source_account_info
        (PAccount.set_account_state (if freeze then Frozen else Initialized)) s))
  | _ => Ret (Err NotEnoughAccountKeys)
  end.

(** * Processors *)

Definition process_initialize_mint accounts instruction_data := shared_initialize_mint accounts instruction_data true.
Definition process_initialize_mint2 accounts instruction_data := shared_initialize_mint accounts instruction_data false.

Definition process_initialize_account accounts := shared_initialize_account accounts None true.
Definition process_initialize_account2 accounts instruction_data s :=
  if (32 <=? length instruction_data)%nat
  then shared_initialize_account accounts (Some (pubkey_at 0 instruction_data)) true s
  else Ret (TokenErr InvalidInstruction).
Definition process_initialize_account3 accounts instruction_data s :=
  if (32 <=? length instruction_data)%nat
  then shared_initialize_account accounts (Some (pubkey_at 0 instruction_data)) false s
  else Ret (TokenErr InvalidInstruction).

Definition process_initialize_multisig accounts instruction_data s :=
  m ←? ok_or (head instruction_data) InvalidInstruction;
  shared_initialize_multisig accounts m true s.
Definition process_initialize_multisig2 accounts instruction_data s :=
  m ←? ok_or (head instruction_data) InvalidInstruction;
  shared_initialize_multisig accounts m false s.

Definition process_transfer accounts instruction_data s :=
  amount ←? Ret (unpack_amount instruction_data);
  shared_transfer accounts amount None s.
Definition process_transfer_checked accounts instruction_data s :=
  '(amount, decimals) ←? Ret (unpack_amount_and_decimals instruction_data);
  shared_transfer accounts amount (Some decimals) s.
Definition process_approve accounts instruction_data s :=
  amount ←? Ret (unpack_amount instruction_data);
  shared_approve accounts amount None s.
Definition process_approve_checked accounts instruction_data s :=
  '(amount, decimals) ←? Ret (unpack_amount_and_decimals instruction_data);
  shared_approve accounts amount (Some decimals) s.
Definition process_mint_to accounts instruction_data s :=
  amount ←? Ret (unpack_amount instruction_data);
  shared_mint_to accounts amount None s.
Definition process_mint_to_checked accounts instruction_data s :=
  '(amount, decimals) ←? Ret (unpack_amount_and_decimals instruction_data);
  shared_mint_to accounts amount (Some decimals) s.
Definition process_burn accounts instruction_data s :=
  amount ←? Ret (unpack_amount instruction_data);
  shared_burn accounts amount None s.
Definition process_burn_checked accounts instruction_data s :=
  '(amount, decimals) ←? Ret (unpack_amount_and_decimals instruction_data);
  shared_burn accounts amount (Some decimals) s.
Definition process_freeze_account accounts := shared_toggle_account_state accounts true.
Definition process_thaw_account accounts := shared_toggle_account_state accounts false.

Definition process_revoke (accounts : list AccountInfo) (s : State) : outcome (result State ProgramError) :=
  match accounts with
  | source_account_info :: remaining =>
      source_account ←? Ret (load_mut PAccount.t (data s source_account_info));
      match remaining with
      | owner_info :: remaining =>
          frozen ←? Ret (PAccount.is_frozen source_account);
          '_ ←? fail_if frozen AccountFrozen;
          '_ ←? validate_owner (PAccount.owner source_account) owner_info remaining s;
          let s := modify source_account_info PAccount.clear_delegate s in
          Ret (Ok (modify source_account_info (PAccount.set_delegated_amount 0) s))
      | [] => Ret (Err NotEnoughAccountKeys)
      end
  | [] => Ret (Err NotEnoughAccountKeys)
  end.

Definition unpack_set_authority (instruction_data : list Z)
    : result (AuthorityType * option Pubkey) ProgramError :=
  if (2 <=? length instruction_data)%nat then
    authority_type ←! AuthorityType_from (default 0 (instruction_data !! 0%nat));
    if bool_decide (instruction_data !! 1%nat = Some 0) then Ok (authority_type, None)
    else if bool_decide (instruction_data !! 1%nat = Some 1) && (34 <=? length instruction_data)%nat
    then Ok (authority_type, Some (pubkey_at 2 instruction_data))
    else TokenErr InvalidInstruction
  else TokenErr InvalidInstruction.

(** The instruction with its data read. *)
Definition set_authority (accounts : list AccountInfo) (authority_type : AuthorityType)
    (new_authority : option Pubkey) (s : State) : outcome (result State ProgramError) :=
  match accounts with
  | account_info :: authority_info :: remaining =>
      if (data_len s account_info =? LEN PAccount.t)%nat then
        account ←? Ret (load_mut PAccount.t (data s account_info));
        frozen ←? Ret (PAccount.is_frozen account);
        '_ ←? fail_if frozen AccountFrozen;
        match authority_type with
        | AccountOwner =>
            '_ ←? validate_owner (PAccount.owner account) authority_info remaining s;
            authority ←? ok_or new_authority InvalidInstruction;
            let s := modify account_info (PAccount.with_owner authority) s in
            let s := modify account_info PAccount.clear_delegate s in
            let s := modify account_info (PAccount.set_delegated_amount 0) s in
            Ret (Ok (if PAccount.is_native (deref PAccount.t s account_info)
                     then modify account_info PAccount.clear_close_authority s else s))
        | CloseAccountAuthority =>
            let authority := default (PAccount.owner account) (PAccount.close_authority account) in
            '_ ←? validate_owner authority authority_info remaining s;
            Ret (Ok (modify account_info
              (match new_authority with
               | Some authority => PAccount.set_close_authority authority
               | None => PAccount.clear_close_authority
               end) s))
        | _ => Ret (TokenErr AuthorityTypeNotSupported)
        end
      else if (data_len s account_info =? LEN PMint.t)%nat then
        mint ←? Ret (load_mut PMint.t (data s account_info));
        match authority_type with
        | MintTokens =>
            mint_authority ←? ok_or (PMint.mint_authority mint) FixedSupply;
            '_ ←? validate_owner mint_authority authority_info remaining s;
            Ret (Ok (modify account_info
              (match new_authority with
               | Some authority => PMint.set_mint_authority authority
               | None => PMint.clear_mint_authority
               end) s))
        | FreezeAccountAuthority =>
            freeze_authority ←? ok_or (PMint.freeze_authority mint) MintCannotFreeze;
            '_ ←? validate_owner freeze_authority authority_info remaining s;
            Ret (Ok (modify account_info
              (match new_authority with
               | Some authority => PMint.set_freeze_authority authority
               | None => PMint.clear_freeze_authority
               end) s))
        | _ => Ret (TokenErr AuthorityTypeNotSupported)
        end
      else Ret (Err InvalidArgument)
  | _ => Ret (Err NotEnoughAccountKeys)
  end.

Definition process_set_authority (accounts : list AccountInfo) (instruction_data : list Z) (s : State)
    : outcome (result State ProgramError) :=
  '(authority_type, new_authority) ←? Ret (unpack_set_authority instruction_data);
  set_authority accounts authority_type new_authority s.

Definition process_close_account (accounts : list AccountInfo) (s : State) : outcome (result State ProgramError) :=
  match accounts with
  | source_account_info :: destination_account_info :: authority_info :: remaining =>
      '_ ←?
        (if same_account source_account_info destination_account_info then Ret (Err InvalidAccountData)
         else
           source_account ←? Ret (load PAccount.t (data s source_account_info));
           '_ ←? fail_if (negb (PAccount.is_native source_account) && negb (PAccount.amount source_account =? 0))
                   NonNativeHasBalance;
           let authority := default (PAccount.owner source_account) (PAccount.close_authority source_account) in
           if negb (PAccount.is_owned_by_system_program_or_incinerator source_account)
           then validate_owner authority authority_info remaining s
           else fail_if (negb (key destination_account_info =? PAccount.INCINERATOR_ID)) InvalidAccountData);
      destination_lamports ←?
        ok_or (checked_add u64_MAX (lamports s destination_account_info) (lamports s source_account_info)) Overflow;
      let s := set_lamports destination_account_info destination_lamports s in
      Ret (Ok (update_mem close_unchecked source_account_info s))
  | _ => Ret (Err NotEnoughAccountKeys)
  end.

Definition process_sync_native (accounts : list AccountInfo) (s : State) : outcome (result State ProgramError) :=
  match accounts with
  | native_account_info :: _ =>
      '_ ←? check_account_owner native_account_info s;
      native_account ←? Ret (load_mut PAccount.t (data s native_account_info));
      match PAccount.native_amount native_account with
      | Some rent_exempt_reserve =>
          new_amount ←? ok_or (checked_sub (lamports s native_account_info) rent_exempt_reserve) Overflow;
          '_ ←? fail_if (new_amount <? PAccount.amount native_account) InvalidState;
          Ret (Ok (modify native_account_info (PAccount.set_amount new_amount) s))
      | None => Ret (TokenErr NonNativeNotSupported)
      end
  | [] => Ret (Err NotEnoughAccountKeys)
  end.

Definition process_get_account_data_size (accounts : list AccountInfo) (s : State)
    : outcome (result State ProgramError) :=
  match accounts with
  | mint_info :: _ =>
      '_ ←? check_account_owner mint_info s;
      '_ ←? Ret (map_err (load PMint.t (data s mint_info)) InvalidMint);
      Ret (Ok (set_return_data (to_le_bytes 8 (Z.of_nat (LEN PAccount.t))) s))
  | [] => Ret (Err NotEnoughAccountKeys)
  end.

Definition process_initialize_immutable_owner (accounts : list AccountInfo) (s : State)
    : outcome (result State ProgramError) :=
  match accounts with
  | token_account_info :: _ =>
      account ←? Ret (load_unchecked PAccount.t (data s token_account_info));
      initialized ←? Ret (is_initialized account);
      '_ ←? fail_if initialized AlreadyInUse;
      Ret (Ok s)
  | [] => Ret (Err NotEnoughAccountKeys)
  end.

Definition amount_to_ui_amount (accounts : list AccountInfo) (amount : Z) (s : State)
    : outcome (result State ProgramError) :=
  match accounts with
  | mint_info :: _ =>
      '_ ←? check_account_owner mint_info s;
      mint ←? Ret (map_err (load PMint.t (data s mint_info)) InvalidMint);
      let logger := logger_append_with_args MAX_FORMATTED_DIGITS amount (PMint.decimals mint) in
      let text :=
        if (0 <? PMint.decimals mint) && bool_decide (ascii_dot ∈ logger) then
          trim_end_matches ascii_dot (trim_end_matches ascii_zero logger)
        else logger in
      Ret (Ok (set_return_data text s))
  | [] => Ret (Err NotEnoughAccountKeys)
  end.
Definition process_amount_to_ui_amount (accounts : list AccountInfo) (instruction_data : list Z) (s : State)
    : outcome (result State ProgramError) :=
  amount ←? Ret (unpack_amount instruction_data);
  amount_to_ui_amount accounts amount s.

Definition ui_amount_to_amount (accounts : list AccountInfo) (ui_amount : list Z) (s : State)
    : outcome (result State ProgramError) :=
  match accounts with
  | mint_info :: _ =>
      '_ ←? check_account_owner mint_info s;
      mint ←? Ret (map_err (load PMint.t (data s mint_info)) InvalidMint);
      amount ←? Ret (try_ui_amount_into_amount ui_amount (PMint.decimals mint));
      Ret (Ok (set_return_data (to_le_bytes 8 amount) s))
  | [] => Ret (Err NotEnoughAccountKeys)
  end.
Definition process_ui_amount_to_amount (accounts : list AccountInfo) (instruction_data : list Z) (s : State)
    : outcome (result State ProgramError) :=
  ui_amount ←? Ret (if valid_utf8 instruction_data then Ok instruction_data else TokenErr InvalidInstruction);
  ui_amount_to_amount accounts ui_amount s.

(** Lamports above the reserve leave an account that is not native. *)
Definition withdraw_authority (source_account_info authority_info : AccountInfo) (remaining : list AccountInfo)
    (s : State) : outcome (result unit ProgramError) :=
  let source_data := data s source_account_info in
  if (length source_data =? LEN PAccount.t)%nat then
    account ←? Ret (load PAccount.t source_data);
    '_ ←? fail_if (PAccount.is_native account) NativeNotSupported;
    validate_owner (PAccount.owner account) authority_info remaining s
  else if (length source_data =? LEN PMint.t)%nat then
    mint ←? Ret (load PMint.t source_data);
    match PMint.mint_authority mint with
    | Some mint_authority => validate_owner mint_authority authority_info remaining s
    | None =>
        if same_account source_account_info authority_info
        then fail_if (negb (is_signer authority_info)) MissingRequiredSignature
        else Ret (TokenErr AuthorityTypeNotSupported)
    end
  else if (length source_data =? LEN PMultisig.t)%nat then
    validate_owner (key source_account_info) authority_info remaining s
  else Ret (TokenErr InvalidState).

Definition process_withdraw_excess_lamports (accounts : list AccountInfo) (s : State)
    : outcome (result State ProgramError) :=
  match accounts with
  | source_account_info :: destination_info :: authority_info :: remaining =>
      '_ ←? withdraw_authority source_account_info authority_info remaining s;
      rent ←? Ret PRent_get;
      let source_rent_exempt_reserve := p_minimum_balance rent (data_len s source_account_info) in
      transfer_amount ←?
        ok_or (checked_sub (lamports s source_account_info) source_rent_exempt_reserve) NotRentExempt;
      let s := set_lamports source_account_info ((lamports s source_account_info - transfer_amount) mod 2 ^ 64) s in
      destination_lamports ←? ok_or (checked_add u64_MAX (lamports s destination_info) transfer_amount) Overflow;
      Ret (Ok (set_lamports destination_info destination_lamports s))
  | _ => Ret (Err NotEnoughAccountKeys)
  end.

(** * Entry point *)

Definition inner_process_remaining_instruction (accounts : list AccountInfo) (instruction_data : list Z)
    (discriminator : Z) : State → outcome (result State ProgramError) :=
  match discriminator with
  | 2 => process_initialize_multisig accounts instruction_data
  | 4 => process_approve accounts instruction_data
  | 5 => process_revoke accounts
  | 6 => process_set_authority accounts instruction_data
  | 10 => process_freeze_account accounts
  | 11 => process_thaw_account accounts
  | 13 => process_approve_checked accounts instruction_data
  | 14 => process_mint_to_checked accounts instruction_data
  | 17 => process_sync_native accounts
  | 19 => process_initialize_multisig2 accounts instruction_data
  | 21 => process_get_account_data_size accounts
  | 22 => process_initialize_immutable_owner accounts
  | 23 => process_amount_to_ui_amount accounts instruction_data
  | 24 => process_ui_amount_to_amount accounts instruction_data
  | 38 => process_withdraw_excess_lamports accounts
  | _ => λ _, Ret (TokenErr InvalidInstruction)
  end.

Definition inner_process_instruction (accounts : list AccountInfo) (instruction_data : list Z) (s : State)
    : outcome (result State ProgramError) :=
  match instruction_data with
  | discriminator :: instruction_data =>
      match discriminator with
      | 0 => process_initialize_mint accounts instruction_data s
      | 1 => process_initialize_account accounts s
      | 3 => process_transfer accounts instruction_data s
      | 7 => process_mint_to accounts instruction_data s
      | 8 => process_burn accounts instruction_data s
      | 9 => process_close_account accounts s
      | 12 => process_transfer_checked accounts instruction_data s
      | 15 => process_burn_checked accounts instruction_data s
      | 16 => process_initialize_account2 accounts instruction_data s
      | 18 => process_initialize_account3 accounts instruction_data s
      | 20 => process_initialize_mint2 accounts instruction_data s
      | d => inner_process_remaining_instruction accounts instruction_data d s
      end
  | [] => Ret (TokenErr InvalidInstruction)
  end.

Definition IX_HEADER_SIZE : nat := 2.

(** The loop of [process_batch]; every round takes at least three bytes. *)
Fixpoint process_batch_loop (fuel : nat) (accounts : list AccountInfo) (instruction_data : list Z) (s : State)
    : outcome (result State ProgramError) :=
  match fuel with
  | O => OutOfFuel
  | S fuel =>
      '_ ←? fail_if (length instruction_data <? IX_HEADER_SIZE)%nat InvalidInstruction;
      let expected_accounts := Z.to_nat (default 0 (instruction_data !! 0%nat)) in
      let data_offset := (IX_HEADER_SIZE + Z.to_nat (default 0%Z (instruction_data !! 1%nat)))%nat in
      '_ ←? fail_if ((length instruction_data <? data_offset) || (data_offset =? IX_HEADER_SIZE))%nat InvalidInstruction;
      '_ ←? fail_if (length accounts <? expected_accounts)%nat NotEnoughAccountKeys;
      s ←? inner_process_instruction (take expected_accounts accounts)
             (drop IX_HEADER_SIZE (take data_offset instruction_data)) s;
      if (data_offset =? length instruction_data)%nat then Ret (Ok s)
      else process_batch_loop fuel (drop expected_accounts accounts) (drop data_offset instruction_data) s
  end.
Definition process_batch (accounts : list AccountInfo) (instruction_data : list Z) (s : State)
    : outcome (result State ProgramError) :=
  process_batch_loop (S (length instruction_data)) accounts instruction_data s.

Definition process_instruction (accounts : list AccountInfo) (instruction_data : list Z) (s : State)
    : outcome (result State ProgramError) :=
  match instruction_data with
  | discriminator :: remaining =>
      if discriminator =? 255 then process_batch accounts remaining s
      else inner_process_instruction accounts instruction_data s
  | [] => Ret (TokenErr InvalidInstruction)
  end.

End ptoken.

End PToken.
