(* ===== verification/PTokenView.v ===== *)
(** The structs of p-token and the packed types of the token program are the same
    bytes: reading a field of a struct reads the unpacked value, and setting it gives
    the bytes that packing the changed value gives. *)

From S2P Require Import Prelude Bytes TransactionContext TokenState TokenStateProps TokenProcessor TokenSpec PTokenState.

(** The tag of an option. *)
Definition tag {A} (o : option A) : list Z := match o with Some _ => [1; 0; 0; 0] | None => [0; 0; 0; 0] end.

Lemma length_tag {A} (o : option A) : length (tag o) = 4%nat.
Proof. by destruct o. Qed.

Lemma coption_split o (t k : list Z) :
  length t = 4%nat → length k = 32%nat → Bytes k →
  pack_coption_key o (t ++ k) = tag o ++ key_bytes (default (key_of_bytes k) o).
Proof.
  intros Ht Hk Hb. destruct o as [x|]; [done|]. cbn [pack_coption_key tag default from_option id].
  rewrite key_bytes_of_bytes by done. f_equal. by apply drop_app_length'.
Qed.

(** * Token accounts *)

(** The struct [p] after packing [a] into its bytes. *)
Definition merge_account (a : Account) (p : PAccount.t) : PAccount.t := {|
  PAccount.mint := mint a;
  PAccount.owner := owner a;
  PAccount.amount_ := to_le_bytes 8 (amount a);
  PAccount.delegate_ := (tag (delegate a), default (PAccount.delegate_ p).2 (delegate a));
  PAccount.state := AccountState_as_u8 (state a);
  PAccount.is_native_ := tag (is_native_reserve a);
  PAccount.native_amount_ := match is_native_reserve a with Some r => to_le_bytes 8 r | None => PAccount.native_amount_ p end;
  PAccount.delegated_amount_ := to_le_bytes 8 (delegated_amount a);
  PAccount.close_authority_ := (tag (close_authority a), default (PAccount.close_authority_ p).2 (close_authority a));
|}.

Record WfPAccount (p : PAccount.t) : Prop := {
  wfp_mint : is_key (PAccount.mint p);
  wfp_owner : is_key (PAccount.owner p);
  wfp_amount : length (PAccount.amount_ p) = 8%nat;
  wfp_delegate : length (PAccount.delegate_ p).1 = 4%nat ∧ is_key (PAccount.delegate_ p).2;
  wfp_state : is_byte (PAccount.state p);
  wfp_is_native : length (PAccount.is_native_ p) = 4%nat;
  wfp_native_amount : length (PAccount.native_amount_ p) = 8%nat;
  wfp_delegated_amount : length (PAccount.delegated_amount_ p) = 8%nat;
  wfp_close_authority : length (PAccount.close_authority_ p).1 = 4%nat ∧ is_key (PAccount.close_authority_ p).2;
}.

Lemma PAccount_of_to p : WfPAccount p → of_bytes (to_bytes p) = p.
Proof.
  intros [? ? ? [? ?] ? ? ? ? [? ?]]. destruct p as [? ? ? [? ?] ? ? ? ? [? ?]].
  cbn [of_bytes to_bytes PAccount.layout] in *.
  cbn [PAccount.mint PAccount.owner PAccount.amount_ PAccount.delegate_ PAccount.state PAccount.is_native_
       PAccount.native_amount_ PAccount.delegated_amount_ PAccount.close_authority_ fst snd] in *.
  rewrite array_refs_parts.
  - by rewrite !key_of_key_bytes, u8_byte.
  - cbn [fmap list_fmap length]. rewrite !length_key_bytes. unfold PAccount.widths. by repeat f_equal.
Qed.

Lemma PAccount_to_of d :
  Bytes d → length d = Account_LEN → WfPAccount (of_bytes d) ∧ to_bytes (of_bytes d : PAccount.t) = d.
Proof.
  intros Hb Hl. cbn [of_bytes to_bytes PAccount.layout].
  destruct (parts_inv PAccount.widths d Hb Hl) as (parts & -> & Hd & HF). unfold PAccount.widths in HF. parts_cases HF.
  destruct (length_1 _ Hl5) as [b ->]. rewrite Forall_singleton in Hb5. rewrite u8_byte by done. split.
  - split; simpl; auto using is_key_of_bytes.
  - cbn [PAccount.mint PAccount.owner PAccount.amount_ PAccount.delegate_ PAccount.state PAccount.is_native_
       PAccount.native_amount_ PAccount.delegated_amount_ PAccount.close_authority_ fst snd].
    by rewrite !key_bytes_of_bytes.
Qed.

Lemma Account_pack_merge a d :
  Bytes d → length d = Account_LEN →
  AccountPack.pack_into_slice a d = to_bytes (merge_account a (of_bytes d)).
Proof.
  intros Hb Hl. cbn [of_bytes to_bytes PAccount.layout]. unfold AccountPack.pack_into_slice.
  destruct (parts_inv PAccount.widths d Hb Hl) as (parts & -> & Hd & HF). unfold PAccount.widths in HF. parts_cases HF.
  assert (array_refs AccountPack.widths d = [p; p0; p1; p2 ++ p3; p4; p5 ++ p6; p7; p8 ++ p9]) as ->.
  { rewrite Hd. rewrite <-(array_refs_parts AccountPack.widths [p; p0; p1; p2 ++ p3; p4; p5 ++ p6; p7; p8 ++ p9]).
    - cbn [concat]. by rewrite <-!app_assoc.
    - cbn [fmap list_fmap]. rewrite !length_app. unfold AccountPack.widths. by repeat f_equal; lia. }
  unfold merge_account.
  cbn [PAccount.mint PAccount.owner PAccount.amount_ PAccount.delegate_ PAccount.state PAccount.is_native_
       PAccount.native_amount_ PAccount.delegated_amount_ PAccount.close_authority_ fst snd].
  rewrite !coption_split by done.
  assert (pack_coption_u64 (is_native_reserve a) (p5 ++ p6) =
    tag (is_native_reserve a) ++ match is_native_reserve a with Some r => to_le_bytes 8 r | None => p6 end) as ->.
  { destruct (is_native_reserve a); [done|]. cbn [pack_coption_u64 tag]. f_equal. by apply drop_app_length'. }
  cbn [concat]. by rewrite <-!app_assoc.
Qed.

Lemma WfPAccount_merge a p : WfAccount a → WfPAccount p → WfPAccount (merge_account a p).
Proof.
  intros [] []. split; simpl; auto using length_to_le_bytes, length_tag.
  - split; [apply length_tag|]. destruct (delegate a); simpl; [auto|]. apply wfp_delegate0.
  - by destruct (state a).
  - destruct (is_native_reserve a); [apply length_to_le_bytes|done].
  - split; [apply length_tag|]. destruct (close_authority a); simpl; [auto|]. apply wfp_close_authority0.
Qed.

(** Data that holds an account is the struct merged with the account. *)
Lemma holds_account_merge d a :
  Bytes d → holds_account d a →
  WfAccount a ∧ WfPAccount (of_bytes d) ∧ merge_account a (of_bytes d) = of_bytes d ∧ to_bytes (of_bytes d : PAccount.t) = d.
Proof.
  intros Hb [Hl Ha]. destruct (Account_pack_unpack a d Hb Hl Ha) as [Hwf Hp].
  destruct (PAccount_to_of d Hb Hl) as [Hwp Hto]. split_and!; [done|done| |done].
  rewrite Account_pack_merge in Hp by done. rewrite <-(PAccount_of_to (merge_account a (of_bytes d))), Hp; [done|].
  by apply WfPAccount_merge.
Qed.

(** Reading the fields. *)
Record reads_account (p : PAccount.t) (a : Account) : Prop := {
  reads_mint : PAccount.mint p = mint a;
  reads_owner : PAccount.owner p = owner a;
  reads_amount : PAccount.amount p = amount a;
  reads_delegate : PAccount.delegate p = delegate a;
  reads_is_frozen : PAccount.is_frozen p = Ok (is_frozen a);
  reads_initialized : is_initialized p = Ok (account_is_initialized a);
  reads_is_native : PAccount.is_native p = is_native a;
  reads_native_amount : PAccount.native_amount p = is_native_reserve a;
  reads_delegated_amount : PAccount.delegated_amount p = delegated_amount a;
  reads_close_authority : PAccount.close_authority p = close_authority a;
}.

Lemma merge_reads a p : WfAccount a → reads_account (merge_account a p) a.
Proof.
  intros [].
  assert (PAccount.is_native (merge_account a p) = is_native a) as Hnat.
  { unfold PAccount.is_native, is_native, merge_account. simpl. by destruct (is_native_reserve a). }
  split; [done|done|by apply u64_of_bytes| | | |done| |by apply u64_of_bytes|].
  - unfold PAccount.delegate, merge_account. simpl. by destruct (delegate a).
  - unfold PAccount.is_frozen, is_frozen, merge_account. simpl. by destruct (state a).
  - unfold account_is_initialized. simpl. by destruct (state a).
  - unfold PAccount.native_amount. rewrite Hnat. unfold is_native, merge_account. simpl.
    destruct (is_native_reserve a); [|done]. simpl. by rewrite u64_of_bytes by auto.
  - unfold PAccount.close_authority, merge_account. simpl. by destruct (close_authority a).
Qed.

(** * Mints *)

Definition merge_mint (m : Mint) (p : PMint.t) : PMint.t := {|
  PMint.mint_authority_ := (tag (mint_authority m), default (PMint.mint_authority_ p).2 (mint_authority m));
  PMint.supply_ := to_le_bytes 8 (supply m);
  PMint.decimals := decimals m;
  PMint.is_initialized_ := bool_as_u8 (mint_is_initialized m);
  PMint.freeze_authority_ := (tag (freeze_authority m), default (PMint.freeze_authority_ p).2 (freeze_authority m));
|}.

Record WfPMint (p : PMint.t) : Prop := {
  wfp_mint_authority : length (PMint.mint_authority_ p).1 = 4%nat ∧ is_key (PMint.mint_authority_ p).2;
  wfp_supply : length (PMint.supply_ p) = 8%nat;
  wfp_decimals : is_byte (PMint.decimals p);
  wfp_is_initialized : is_byte (PMint.is_initialized_ p);
  wfp_freeze_authority : length (PMint.freeze_authority_ p).1 = 4%nat ∧ is_key (PMint.freeze_authority_ p).2;
}.

Lemma PMint_of_to p : WfPMint p → of_bytes (to_bytes p) = p.
Proof.
  intros [[? ?] ? ? ? [? ?]]. destruct p as [[? ?] ? ? ? [? ?]].
  cbn [of_bytes to_bytes PMint.layout] in *.
  cbn [PMint.mint_authority_ PMint.supply_ PMint.decimals PMint.is_initialized_ PMint.freeze_authority_ fst snd] in *.
  rewrite array_refs_parts.
  - by rewrite !key_of_key_bytes, !u8_byte.
  - cbn [fmap list_fmap length]. rewrite !length_key_bytes. unfold PMint.widths. by repeat f_equal.
Qed.

Lemma PMint_to_of d :
  Bytes d → length d = Mint_LEN → WfPMint (of_bytes d) ∧ to_bytes (of_bytes d : PMint.t) = d.
Proof.
  intros Hb Hl. cbn [of_bytes to_bytes PMint.layout].
  destruct (parts_inv PMint.widths d Hb Hl) as (parts & -> & Hd & HF). unfold PMint.widths in HF. parts_cases HF.
  destruct (length_1 _ Hl3) as [x ->], (length_1 _ Hl4) as [y ->]. rewrite Forall_singleton in Hb3, Hb4.
  rewrite !u8_byte by done. split.
  - split; simpl; auto using is_key_of_bytes.
  - cbn [PMint.mint_authority_ PMint.supply_ PMint.decimals PMint.is_initialized_ PMint.freeze_authority_ fst snd].
    by rewrite !key_bytes_of_bytes.
Qed.

Lemma Mint_pack_merge m d :
  Bytes d → length d = Mint_LEN → MintPack.pack_into_slice m d = to_bytes (merge_mint m (of_bytes d)).
Proof.
  intros Hb Hl. cbn [of_bytes to_bytes PMint.layout]. unfold MintPack.pack_into_slice.
  destruct (parts_inv PMint.widths d Hb Hl) as (parts & -> & Hd & HF). unfold PMint.widths in HF. parts_cases HF.
  assert (array_refs MintPack.widths d = [p ++ p0; p1; p2; p3; p4 ++ p5]) as ->.
  { rewrite Hd. rewrite <-(array_refs_parts MintPack.widths [p ++ p0; p1; p2; p3; p4 ++ p5]).
    - cbn [concat]. by rewrite <-!app_assoc.
    - cbn [fmap list_fmap]. rewrite !length_app. unfold MintPack.widths. by repeat f_equal; lia. }
  unfold merge_mint.
  cbn [PMint.mint_authority_ PMint.supply_ PMint.decimals PMint.is_initialized_ PMint.freeze_authority_ fst snd].
  rewrite !coption_split by done. cbn [concat]. by rewrite <-!app_assoc.
Qed.

Lemma WfPMint_merge m p : WfMint m → WfPMint p → WfPMint (merge_mint m p).
Proof.
  intros [] []. split; simpl; auto using length_to_le_bytes.
  - split; [apply length_tag|]. destruct (mint_authority m); simpl; [auto|]. apply wfp_mint_authority0.
  - by destruct (mint_is_initialized m).
  - split; [apply length_tag|]. destruct (freeze_authority m); simpl; [auto|]. apply wfp_freeze_authority0.
Qed.

Lemma holds_mint_merge d m :
  Bytes d → holds_mint d m →
  WfMint m ∧ WfPMint (of_bytes d) ∧ merge_mint m (of_bytes d) = of_bytes d ∧ to_bytes (of_bytes d : PMint.t) = d.
Proof.
  intros Hb [Hl Hm]. destruct (Mint_pack_unpack m d Hb Hl Hm) as [Hwf Hp].
  destruct (PMint_to_of d Hb Hl) as [Hwp Hto]. split_and!; [done|done| |done].
  rewrite Mint_pack_merge in Hp by done. rewrite <-(PMint_of_to (merge_mint m (of_bytes d))), Hp; [done|].
  by apply WfPMint_merge.
Qed.

Record reads_mint_of (p : PMint.t) (m : Mint) : Prop := {
  reads_mint_authority : PMint.mint_authority p = mint_authority m;
  reads_supply : PMint.supply p = supply m;
  reads_decimals : PMint.decimals p = decimals m;
  reads_mint_initialized : is_initialized p = Ok (mint_is_initialized m);
  reads_freeze_authority : PMint.freeze_authority p = freeze_authority m;
}.

Lemma merge_mint_reads m p : WfMint m → reads_mint_of (merge_mint m p) m.
Proof.
  intros []. split; [|by apply u64_of_bytes|done| |].
  - unfold PMint.mint_authority, merge_mint. simpl. by destruct (mint_authority m).
  - simpl. by destruct (mint_is_initialized m).
  - unfold PMint.freeze_authority, merge_mint. simpl. by destruct (freeze_authority m).
Qed.

(** * Multisignatures *)

Definition multisig_struct (m : Multisig) : PMultisig.t := {|
  PMultisig.m := multisig_m m;
  PMultisig.n := multisig_n m;
  PMultisig.is_initialized_ := bool_as_u8 (multisig_is_initialized m);
  PMultisig.signers := signers m;
|}.

Record WfPMultisig (p : PMultisig.t) : Prop := {
  wfp_m : is_byte (PMultisig.m p);
  wfp_n : is_byte (PMultisig.n p);
  wfp_multisig_initialized : is_byte (PMultisig.is_initialized_ p);
  wfp_signers : length (PMultisig.signers p) = MAX_SIGNERS ∧ Forall is_key (PMultisig.signers p);
}.

Lemma PMultisig_of_to p : WfPMultisig p → of_bytes (to_bytes p) = p.
Proof.
  intros [Hm Hn Hi [Hl Hk]]. destruct p as [m n i keys]. cbn [of_bytes to_bytes PMultisig.layout].
  cbn [PMultisig.m PMultisig.n PMultisig.is_initialized_ PMultisig.signers] in *.
  assert (length <$> (key_bytes <$> keys) = replicate MAX_SIGNERS 32%nat) as Hlens.
  { rewrite <-Hl. clear. induction keys as [|k keys IH]; [done|]. cbn [fmap list_fmap length replicate].
    by rewrite length_key_bytes, IH. }
  rewrite array_refs_parts.
  - rewrite array_refs_parts by done. rewrite !u8_byte by done.
    rewrite <-list_fmap_compose, (list_fmap_ext _ id), list_fmap_id; [done|].
    intros j k Hj. rewrite Forall_forall in Hk. apply key_of_key_bytes, Hk. by eapply list_elem_of_lookup_2.
  - cbn [fmap list_fmap length]. repeat f_equal. rewrite length_concat.
    change (sum_list (length <$> (key_bytes <$> keys)) = 352%nat). by rewrite Hlens.
Qed.

Lemma WfPMultisig_struct m : WfMultisig m → WfPMultisig (multisig_struct m).
Proof. intros []. split; simpl; auto. by destruct (multisig_is_initialized m). Qed.

Lemma Multisig_pack_struct m d : MultisigPack.pack_into_slice m d = to_bytes (multisig_struct m).
Proof. done. Qed.

Lemma holds_multisig_struct d m :
  Bytes d → holds_multisig d m →
  WfMultisig m ∧ of_bytes d = multisig_struct m ∧ to_bytes (multisig_struct m) = d.
Proof.
  intros Hb [Hl Hm]. destruct (Multisig_pack_unpack m d Hb Hl Hm) as [Hwf Hp]. rewrite Multisig_pack_struct in Hp.
  split_and!; [done| |done]. rewrite <-Hp. by apply PMultisig_of_to, WfPMultisig_struct.
Qed.
