(* ===== verification/PTokenEquiv.v ===== *)
(** p-token does what the token program does: on accounts of the token program every
    instruction that both have ends in the same state or with the same error. *)

From Stdlib Require Import Strings.String.
From S2P Require Import Prelude Bytes TransactionContext TransactionContextProps TokenState.
From S2P Require Import TokenStateProps TokenInstruction TokenAmount TokenProcessor.
From S2P Require Import TokenSpec TokenRefine PTokenState PToken PTokenView.

(** What p-token relies on in [pinocchio], next to the crates of the token program. *)
Class PinocchioLaws `{TokenSdk, Pinocchio} := {
  to_rent : PRent → Rent;
  from_account_info_spec k d :
    match from_account_info_unchecked k d with Ok r => Ok (to_rent r) | Err e => Err e end = Rent_from_account_info k d;
  PRent_get_spec : match PRent_get with Ok r => Ok (to_rent r) | Err e => Err e end = Rent_get;
  p_is_exempt_spec rent lamports len : p_is_exempt rent lamports len = (p_minimum_balance rent len <=? lamports);
  p_minimum_balance_spec rent len : p_minimum_balance rent len = minimum_balance (to_rent rent) len;
  close_unchecked_spec a :
    close_unchecked a = {| acc_lamports := 0; acc_data := []; acc_owner := 0; acc_executable := acc_executable a |};
  (** An amount is printed with its decimals behind a point, but 0 may be printed as a
      plain [0]. *)
  logger_spec amount decimals : is_u64 amount → is_byte decimals →
    logger_append_with_args PToken.MAX_FORMATTED_DIGITS amount decimals = amount_to_ui_amount_string amount decimals ∨
    amount = 0 ∧ logger_append_with_args PToken.MAX_FORMATTED_DIGITS amount decimals = [ascii_zero];
  pubkey_native_mint : PToken.NATIVE_MINT_ID = native_mint_id;
  pubkey_incinerator : PAccount.INCINERATOR_ID = incinerator_id;
  pubkey_system_program : PAccount.SYSTEM_PROGRAM_ID = system_program_id;
}.

Section equiv.
Context `{TokenSdk, !TokenSdkLaws, Pinocchio, !PinocchioLaws}.
Context (accounts : list AccountInfo) (s : State).

Abbreviation P := PToken.TOKEN_PROGRAM_ID.

(** The accounts of the instruction: those of the length of a token account, a mint or
    a multisignature hold one, zeroed before it is initialized; balances are within
    the supply, and native ones within the lamports. *)
Record shaped : Prop := {
  shaped_ok : infos_ok accounts s;
  shaped_account info : info ∈ accounts → length (data s info) = Account_LEN →
    ∃ a, AccountPack.unpack_from_slice (data s info) = Ok a ∧ (state a = Uninitialized → Zeroed (data s info));
  shaped_mint info : info ∈ accounts → length (data s info) = Mint_LEN →
    ∃ m, MintPack.unpack_from_slice (data s info) = Ok m ∧ (mint_is_initialized m = false → Zeroed (data s info));
  shaped_multisig info : info ∈ accounts → length (data s info) = Multisig_LEN →
    ∃ m, MultisigPack.unpack_from_slice (data s info) = Ok m ∧
      (multisig_is_initialized m = false → Zeroed (data s info));
  shaped_room i j a b : i ∈ accounts → j ∈ accounts → key i ≠ key j →
    holds_account (data s i) a → holds_account (data s j) b → state a ≠ Uninitialized → state b ≠ Uninitialized →
    mint a = mint b → is_native a = false → amount a + amount b ≤ u64_MAX;
  shaped_native i a : i ∈ accounts → holds_account (data s i) a → state a ≠ Uninitialized →
    (is_native a = true ↔ mint a = native_mint_id) ∧ (is_native a = true → amount a ≤ lamports s i);
  shaped_supply i j a m : i ∈ accounts → j ∈ accounts → holds_account (data s i) a → state a ≠ Uninitialized →
    is_native a = false → holds_mint (data s j) m → mint_is_initialized m = true → key j = mint a →
    amount a ≤ supply m;
}.
Hypothesis Hs : shaped.

Lemma shaped_bytes info : info ∈ accounts → Bytes (data s info).
Proof. apply Hs. Qed.

(** * Loading *)

(** An account is loaded by both programs, as a struct and unpacked, or by none. *)
Lemma load_account info :
  info ∈ accounts →
  (∃ a, holds_account (data s info) a ∧ state a ≠ Uninitialized ∧
     load PAccount.t (data s info) = Ok (merge_account a (of_bytes (data s info))) ∧
     Account_unpack (data s info) = Ok a) ∨
  (∃ e, load PAccount.t (data s info) = Err e ∧ Account_unpack (data s info) = Err e).
Proof.
  intros Hin. unfold load, load_unchecked, Account_unpack. rewrite unpack_spec, unpack_unchecked_spec.
  destruct (decide (length (data s info) = Account_LEN)) as [Hl|Hl].
  - destruct (shaped_account Hs info Hin Hl) as (a & Ha & _).
    destruct (holds_account_merge (data s info) a) as (Hwf & _ & Hm & _); [by apply shaped_bytes|done|].
    pose proof (reads_initialized _ _ (merge_reads a (of_bytes (data s info)) Hwf)) as Hinit. rewrite Hm in Hinit.
    rewrite Hl, Ha. cbn [and_then Nat.eqb LEN PAccount.layout Account_LEN negb]. rewrite Hinit. cbn [and_then].
    destruct (account_is_initialized a) eqn:Hi.
    + left. exists a. apply bool_decide_eq_true in Hi. rewrite Hm. done.
    + right. by eexists.
  - right. exists InvalidAccountData. rewrite (proj2 (Nat.eqb_neq _ _)) by done. done.
Qed.

Lemma load_account_unchecked info :
  info ∈ accounts →
  (∃ a, holds_account (data s info) a ∧ (state a = Uninitialized → Zeroed (data s info)) ∧
     load_mut_unchecked PAccount.t (data s info) = Ok (merge_account a (of_bytes (data s info))) ∧
     Account_unpack_unchecked (data s info) = Ok a) ∨
  (load_mut_unchecked PAccount.t (data s info) = Err InvalidAccountData ∧
   Account_unpack_unchecked (data s info) = Err InvalidAccountData).
Proof.
  intros Hin. unfold load_mut_unchecked, Account_unpack_unchecked. rewrite unpack_unchecked_spec.
  destruct (decide (length (data s info) = Account_LEN)) as [Hl|Hl].
  - left. destruct (shaped_account Hs info Hin Hl) as (a & Ha & Hz).
    destruct (holds_account_merge (data s info) a) as (Hwf & _ & Hm & _); [by apply shaped_bytes|done|].
    exists a. rewrite Hm, Hl. done.
  - right. rewrite (proj2 (Nat.eqb_neq _ _)) by done. done.
Qed.

Lemma load_mint info :
  info ∈ accounts →
  (∃ m, holds_mint (data s info) m ∧ mint_is_initialized m = true ∧
     load PMint.t (data s info) = Ok (merge_mint m (of_bytes (data s info))) ∧ Mint_unpack (data s info) = Ok m) ∨
  (∃ e, load PMint.t (data s info) = Err e ∧ Mint_unpack (data s info) = Err e).
Proof.
  intros Hin. unfold load, load_unchecked, Mint_unpack. rewrite unpack_spec, unpack_unchecked_spec.
  destruct (decide (length (data s info) = Mint_LEN)) as [Hl|Hl].
  - destruct (shaped_mint Hs info Hin Hl) as (m & Hm & _).
    destruct (holds_mint_merge (data s info) m) as (Hwf & _ & Hme & _); [by apply shaped_bytes|done|].
    pose proof (reads_mint_initialized _ _ (merge_mint_reads m (of_bytes (data s info)) Hwf)) as Hinit. rewrite Hme in Hinit.
    rewrite Hl, Hm. cbn [and_then Nat.eqb LEN PMint.layout Mint_LEN negb]. rewrite Hinit. cbn [and_then].
    destruct (mint_is_initialized m) eqn:Hi.
    + left. exists m. by rewrite Hme.
    + right. by eexists.
  - right. exists InvalidAccountData. rewrite (proj2 (Nat.eqb_neq _ _)) by done. done.
Qed.

Lemma load_mint_unchecked info :
  info ∈ accounts →
  (∃ m, holds_mint (data s info) m ∧ (mint_is_initialized m = false → Zeroed (data s info)) ∧
     load_mut_unchecked PMint.t (data s info) = Ok (merge_mint m (of_bytes (data s info))) ∧
     Mint_unpack_unchecked (data s info) = Ok m) ∨
  (load_mut_unchecked PMint.t (data s info) = Err InvalidAccountData ∧
   Mint_unpack_unchecked (data s info) = Err InvalidAccountData).
Proof.
  intros Hin. unfold load_mut_unchecked, Mint_unpack_unchecked. rewrite unpack_unchecked_spec.
  destruct (decide (length (data s info) = Mint_LEN)) as [Hl|Hl].
  - left. destruct (shaped_mint Hs info Hin Hl) as (m & Hm & Hz).
    destruct (holds_mint_merge (data s info) m) as (Hwf & _ & Hme & _); [by apply shaped_bytes|done|].
    exists m. rewrite Hme, Hl. done.
  - right. rewrite (proj2 (Nat.eqb_neq _ _)) by done. done.
Qed.

Lemma load_multisig_unchecked info :
  info ∈ accounts →
  (∃ m, holds_multisig (data s info) m ∧ (multisig_is_initialized m = false → Zeroed (data s info)) ∧
     load_mut_unchecked PMultisig.t (data s info) = Ok (multisig_struct m) ∧
     Multisig_unpack_unchecked (data s info) = Ok m) ∨
  (load_mut_unchecked PMultisig.t (data s info) = Err InvalidAccountData ∧
   Multisig_unpack_unchecked (data s info) = Err InvalidAccountData).
Proof.
  intros Hin. unfold load_mut_unchecked, Multisig_unpack_unchecked. rewrite unpack_unchecked_spec.
  destruct (decide (length (data s info) = Multisig_LEN)) as [Hl|Hl].
  - left. destruct (shaped_multisig Hs info Hin Hl) as (m & Hm & Hz).
    destruct (holds_multisig_struct (data s info) m) as (Hwf & Hof & _); [by apply shaped_bytes|done|].
    exists m. rewrite Hof, Hl. done.
  - right. rewrite (proj2 (Nat.eqb_neq _ _)) by done. done.
Qed.

Lemma multisig_struct_initialized m : is_initialized (multisig_struct m) = Ok (multisig_is_initialized m).
Proof. unfold multisig_struct. simpl. by destruct (multisig_is_initialized m). Qed.

(** * Authorities *)

Lemma match_signers_same m l matched num :
  PToken.match_signers (multisig_struct m) l matched num = match_signers m l matched num.
Proof.
  revert matched num. induction l as [|i l IH]; intros matched num; [done|].
  cbn [PToken.match_signers match_signers]. change (PMultisig.n (multisig_struct m)) with (multisig_n m).
  change (PMultisig.signers (multisig_struct m)) with (signers m).
  destruct (assert_ _); [|done..]. rewrite !bind_Ret_l.
  change (PToken.match_positions i) with (match_positions i).
  destruct (match_positions _ _ _ _ _) as [[matched' num']|]; [apply IH|done].
Qed.

Lemma validate_owner_same k auth rest :
  auth ∈ accounts → PToken.validate_owner k auth rest s = validate_owner P k auth rest s.
Proof.
  intros Hin. unfold PToken.validate_owner, validate_owner, PToken.is_owned_by, cmp_pubkeys.
  rewrite (Z.eqb_sym (info_owner s auth)), andb_comm. f_equal.
  destruct (PToken.TOKEN_PROGRAM_ID =? info_owner s auth); [|done]. cbn [andb].
  unfold data_len. change (LEN PMultisig.t) with Multisig_LEN.
  destruct (Nat.eqb_spec (length (data s auth)) Multisig_LEN) as [Hl|]; [|done].
  unfold load, Multisig_unpack. rewrite unpack_spec.
  destruct (load_multisig_unchecked auth Hin) as [(m & _ & _ & E1 & E2)|[E1 E2]].
  - unfold load_mut_unchecked in E1. unfold load_unchecked. rewrite E1. unfold Multisig_unpack_unchecked in E2. rewrite E2.
    cbn [and_then]. rewrite multisig_struct_initialized. cbn [and_then].
    destruct (multisig_is_initialized m); [|done]. unfold fail_if. by rewrite !try_Ok, match_signers_same.
  - unfold load_mut_unchecked in E1. unfold load_unchecked. rewrite E1. unfold Multisig_unpack_unchecked in E2. by rewrite E2.
Qed.

(** * Writing *)

Definition put {T} `{Transmutable T} (info : AccountInfo) (p : T) (t : State) : State := set_data info (to_bytes p) t.

Lemma set_data_set_data info d d' t : set_data info d (set_data info d' t) = set_data info d t.
Proof.
  unfold set_data, update_mem, info_account. cbn [mem return_data]. f_equal.
  by rewrite account_at_insert, decide_True, insert_insert_eq by done.
Qed.

Lemma set_data_id info t : data t info ≠ [] → set_data info (data t info) t = t.
Proof.
  intros Hd. destruct t as [m r]. unfold set_data, update_mem, data, info_account, account_at in *. cbn [mem return_data] in *.
  f_equal. apply insert_id. destruct (m !! key info) as [a|]; [|done]. by destruct a.
Qed.

Lemma data_put {T} `{Transmutable T} info (p : T) t j :
  data (put info p t) j = if decide (key j = key info) then to_bytes p else data t j.
Proof. apply data_set_data. Qed.

Lemma modify_put {T} `{Transmutable T} info f (p : T) t :
  of_bytes (to_bytes p) = p → modify info f (put info p t) = put info (f p) t.
Proof.
  intros Hp. unfold modify, deref. rewrite data_put, decide_True, Hp by done. apply set_data_set_data.
Qed.

(** The account [info] holds [a]; what it is as a struct. *)
Definition struct (info : AccountInfo) : PAccount.t := of_bytes (data s info).
Definition mint_struct (info : AccountInfo) : PMint.t := of_bytes (data s info).

Lemma account_stored info a :
  info ∈ accounts → holds_account (data s info) a →
  WfAccount a ∧ WfPAccount (struct info) ∧ merge_account a (struct info) = struct info ∧
  put info (merge_account a (struct info)) s = s.
Proof.
  intros Hin Ha. destruct (holds_account_merge _ _ (shaped_bytes _ Hin) Ha) as (Hwf & Hwp & Hm & Hto).
  fold (struct info) in Hwp, Hm, Hto. split_and!; [done..|]. unfold put. rewrite Hm, Hto. apply set_data_id.
  destruct Ha as [Hl _]. intros Hd. rewrite Hd in Hl. discriminate Hl.
Qed.

Lemma mint_stored info m :
  info ∈ accounts → holds_mint (data s info) m →
  WfMint m ∧ WfPMint (mint_struct info) ∧ merge_mint m (mint_struct info) = mint_struct info ∧
  put info (merge_mint m (mint_struct info)) s = s.
Proof.
  intros Hin Ha. destruct (holds_mint_merge _ _ (shaped_bytes _ Hin) Ha) as (Hwf & Hwp & Hm & Hto).
  fold (mint_struct info) in Hwp, Hm, Hto. split_and!; [done..|]. unfold put. rewrite Hm, Hto. apply set_data_id.
  destruct Ha as [Hl _]. intros Hd. rewrite Hd in Hl. discriminate Hl.
Qed.

Lemma modify_account info a f :
  info ∈ accounts → holds_account (data s info) a →
  modify info f s = put info (f (merge_account a (struct info))) s.
Proof.
  intros Hin Ha. destruct (account_stored info a Hin Ha) as (Hwf & Hwp & Hm & Hput).
  rewrite <-Hput at 1. apply modify_put, PAccount_of_to. by rewrite Hm.
Qed.

Lemma modify_merge info a f t :
  WfAccount a → WfPAccount (struct info) →
  modify info f (put info (merge_account a (struct info)) t) = put info (f (merge_account a (struct info))) t.
Proof. intros. by apply modify_put, PAccount_of_to, WfPAccount_merge. Qed.

Lemma modify_mint info m f :
  info ∈ accounts → holds_mint (data s info) m →
  modify info f s = put info (f (merge_mint m (mint_struct info))) s.
Proof.
  intros Hin Ha. destruct (mint_stored info m Hin Ha) as (Hwf & Hwp & Hm & Hput).
  rewrite <-Hput at 1. apply modify_put, PMint_of_to. by rewrite Hm.
Qed.

Lemma modify_merge_mint info m f t :
  WfMint m → WfPMint (mint_struct info) →
  modify info f (put info (merge_mint m (mint_struct info)) t) = put info (f (merge_mint m (mint_struct info))) t.
Proof. intros. by apply modify_put, PMint_of_to, WfPMint_merge. Qed.

(** Packing, as the token program does it. *)
Lemma pack_account info a a' t A (k : list Z → outcome (result A ProgramError)) :
  info ∈ accounts → holds_account (data s info) a → data t info = data s info →
  try_ (Ret (Account_pack a' (data t info))) k = k (to_bytes (merge_account a' (struct info))).
Proof.
  intros Hin [Hl _] ->. rewrite Account_pack_Ok, try_Ok by done. by rewrite Account_pack_merge by (auto using shaped_bytes).
Qed.

Lemma pack_mint info m m' t A (k : list Z → outcome (result A ProgramError)) :
  info ∈ accounts → holds_mint (data s info) m → data t info = data s info →
  try_ (Ret (Mint_pack m' (data t info))) k = k (to_bytes (merge_mint m' (mint_struct info))).
Proof.
  intros Hin [Hl _] ->. rewrite Mint_pack_Ok, try_Ok by done. by rewrite Mint_pack_merge by (auto using shaped_bytes).
Qed.

(** Setting the fields of a struct. *)
Lemma set_delegate_merge k a q :
  PAccount.set_delegate k (merge_account a q) = merge_account (with_delegate (Some k) a) q.
Proof. unfold PAccount.set_delegate, PAccount.with_delegate, merge_account. simpl. by destruct (delegate a). Qed.
Lemma set_close_authority_merge k a q :
  PAccount.set_close_authority k (merge_account a q) = merge_account (with_close_authority (Some k) a) q.
Proof. unfold PAccount.set_close_authority, PAccount.with_close_authority, merge_account. simpl. by destruct (close_authority a). Qed.

(** Clearing an option leaves its body, which packing leaves too if it was the body of
    the data. *)
Lemma clear_delegate_merge a a0 q :
  merge_account a0 q = q → delegate a = delegate a0 →
  PAccount.clear_delegate (merge_account a q) = merge_account (with_delegate None a) q.
Proof.
  intros Hq Hd. assert (default (PAccount.delegate_ q).2 (delegate a) = (PAccount.delegate_ q).2) as Hbody.
  { rewrite Hd. rewrite <-Hq at 2. done. }
  unfold PAccount.clear_delegate, PAccount.with_delegate, merge_account, set_tag. simpl. rewrite Hbody. by destruct (delegate a).
Qed.
Lemma clear_close_authority_merge a a0 q :
  merge_account a0 q = q → close_authority a = close_authority a0 →
  PAccount.clear_close_authority (merge_account a q) = merge_account (with_close_authority None a) q.
Proof.
  intros Hq Hd. assert (default (PAccount.close_authority_ q).2 (close_authority a) = (PAccount.close_authority_ q).2) as Hbody.
  { rewrite Hd. rewrite <-Hq at 2. done. }
  unfold PAccount.clear_close_authority, PAccount.with_close_authority, merge_account, set_tag. simpl. rewrite Hbody.
  by destruct (close_authority a).
Qed.
Lemma set_mint_authority_merge k m q :
  PMint.set_mint_authority k (merge_mint m q) = merge_mint (with_mint_authority (Some k) m) q.
Proof. unfold PMint.set_mint_authority, PMint.with_mint_authority, merge_mint. simpl. by destruct (mint_authority m). Qed.
Lemma set_freeze_authority_merge k m q :
  PMint.set_freeze_authority k (merge_mint m q) = merge_mint (with_freeze_authority (Some k) m) q.
Proof. unfold PMint.set_freeze_authority, PMint.with_freeze_authority, merge_mint. simpl. by destruct (freeze_authority m). Qed.
Lemma clear_mint_authority_merge m q :
  merge_mint m q = q → PMint.clear_mint_authority (merge_mint m q) = merge_mint (with_mint_authority None m) q.
Proof.
  intros Hq. assert (default (PMint.mint_authority_ q).2 (mint_authority m) = (PMint.mint_authority_ q).2) as Hbody.
  { rewrite <-Hq at 2. done. }
  unfold PMint.clear_mint_authority, PMint.with_mint_authority, merge_mint, set_tag. simpl. rewrite Hbody. by destruct (mint_authority m).
Qed.
Lemma clear_freeze_authority_merge m q :
  merge_mint m q = q → PMint.clear_freeze_authority (merge_mint m q) = merge_mint (with_freeze_authority None m) q.
Proof.
  intros Hq. assert (default (PMint.freeze_authority_ q).2 (freeze_authority m) = (PMint.freeze_authority_ q).2) as Hbody.
  { rewrite <-Hq at 2. done. }
  unfold PMint.clear_freeze_authority, PMint.with_freeze_authority, merge_mint, set_tag. simpl. rewrite Hbody. by destruct (freeze_authority m).
Qed.

End equiv.
