(* ===== verification/PTokenHandlers.v ===== *)
(** Every processor of p-token is the handler of the token program. *)

From Stdlib Require Import Strings.String.
From S2P Require Import Prelude Bytes TransactionContext TransactionContextProps TokenState.
From S2P Require Import TokenStateProps TokenInstruction TokenAmount TokenProcessor.
From S2P Require Import TokenSpec TokenRefine PTokenState PToken PTokenView PTokenEquiv.

Section handlers.
Context `{TokenSdk, !TokenSdkLaws, Pinocchio, !PinocchioLaws}.
Context (accounts : list AccountInfo) (s : State) (Hs : shaped accounts s).

Abbreviation P := PToken.TOKEN_PROGRAM_ID.
Abbreviation struct := (struct s).
Abbreviation mint_struct := (mint_struct s).

(** * Following two programs *)

Lemma try_next A l (k : AccountInfo * list AccountInfo → outcome (result A ProgramError)) :
  try_ (Ret (next_account_info l)) k =
    match l with info :: l => k (info, l) | [] => Ret (Err NotEnoughAccountKeys) end.
Proof. rewrite next_account_info_spec. by destruct l. Qed.

Lemma try_Err {A B E} (e : E) (k : A → outcome (result B E)) : try_ (Ret (Err e)) k = Ret (Err e).
Proof. done. Qed.

(** The same check in both programs. *)
Lemma try_fail_same A b e (k k' : unit → outcome (result A ProgramError)) :
  (b = false → k tt = k' tt) → try_ (fail_if b e) k = try_ (fail_if b e) k'.
Proof. intros Hk. destruct b; [done|]. unfold fail_if. rewrite !try_Ok. auto. Qed.

Lemma try_same {A B E} (m : outcome (result A E)) (k k' : A → outcome (result B E)) :
  (∀ a, m = Ret (Ok a) → k a = k' a) → try_ m k = try_ m k'.
Proof. intros Hk. destruct m as [[a|e]| |]; [rewrite !try_Ok; auto|done..]. Qed.

Lemma try_assoc {A B C E} (m : outcome (result A E)) (k : A → outcome (result B E)) (k' : B → outcome (result C E)) :
  try_ (try_ m k) k' = try_ m (λ a, try_ (k a) k').
Proof. by destruct m as [[a|e]| |]. Qed.

Lemma check_account_owner_same info t : PToken.check_account_owner info t = check_account_owner P info t.
Proof.
  unfold PToken.check_account_owner, check_account_owner, fail_if, PToken.is_owned_by, cmp_pubkeys.
  rewrite Z.eqb_sym. by destruct (_ =? _).
Qed.

Ltac inf :=
  match goal with
  | E : accounts = _ |- _ ∈ accounts => rewrite E; repeat (apply elem_of_cons; first [left; reflexivity | right])
  end.

(** The mint that a checked instruction names. *)
Lemma check_mint_same x a :
  (∀ i d, x = Some (i, d) → i ∈ accounts) → PToken.check_mint x (mint a) s = check_mint_info x a s.
Proof.
  intros Hx. destruct x as [[i d]|]; [|done]. cbn [PToken.check_mint check_mint_info]. apply try_fail_same.
  intros _. destruct (load_mint accounts s Hs i) as [(m & Hh & _ & -> & ->)|(e & -> & ->)]; [by eapply Hx| |done].
  rewrite !try_Ok. done.
Qed.

(** Takes the accounts of the instruction in both programs. *)
Ltac nexts := repeat (progress (rewrite ?try_next, ?try_Ok, ?try_Err; cbn beta iota zeta)).

(** Loads a token account in both programs, as [a]. *)
Ltac loads_account i a :=
  let Hi := fresh "Hin" in
  assert (i ∈ accounts) as Hi by inf;
  change (load_mut PAccount.t (data s i)) with (load PAccount.t (data s i));
  let Ha := fresh "Ha" in let Hst := fresh "Hst" in
  destruct (load_account accounts s Hs i Hi) as [(a & Ha & Hst & -> & ->)|(? & -> & ->)]; [|reflexivity];
  let Hwf := fresh "Hwf" in let Hwp := fresh "Hwp" in let Hm := fresh "Hmerge" in let Hput := fresh "Hput" in
  destruct (account_stored accounts s Hs i a Hi Ha) as (Hwf & Hwp & Hm & Hput);
  change (of_bytes (data s i)) with (struct i);
  let Hr := fresh "Hr" in pose proof (merge_reads a (struct i) Hwf) as Hr; nexts.

Ltac reads_in Hr := rewrite ?(reads_mint _ _ Hr), ?(reads_owner _ _ Hr), ?(reads_amount _ _ Hr), ?(reads_delegate _ _ Hr),
    ?(reads_is_frozen _ _ Hr), ?(reads_is_native _ _ Hr), ?(reads_native_amount _ _ Hr),
    ?(reads_delegated_amount _ _ Hr), ?(reads_close_authority _ _ Hr); nexts.

Lemma is_key_account i : i ∈ accounts → is_key (key i).
Proof. apply Hs. Qed.

(** Goes through the checks that both programs make. *)
Ltac checks :=
  repeat match goal with
  | |- try_ (fail_if ?b _) _ = try_ (fail_if ?b _) _ =>
      apply try_fail_same; let E := fresh "E" in intros E; cbn beta iota zeta
  | |- try_ (PToken.check_mint _ (mint ?a) _) _ = _ =>
      rewrite (check_mint_same _ a) by (intros ? ?; first [intros [= -> ->]; inf | intros [=]]);
      apply try_same; let E := fresh "E" in intros [] E; cbn beta iota zeta
  | |- try_ (PToken.validate_owner _ _ _ _) _ = _ =>
      rewrite (validate_owner_same accounts s Hs) by inf;
      apply try_same; let E := fresh "E" in intros [] E; cbn beta iota zeta
  end.

Lemma approve_same l amount d :
  accounts = l → is_u64 amount → PToken.shared_approve l amount d s = process_approve P l amount d s.
Proof.
  intros Hacc Hamount. unfold PToken.shared_approve, process_approve. destruct d as [d|]; unfold PToken.transfer_accounts, next_mint.
  - destruct l as [|i1 [|i2 [|i3 [|i4 l]]]]; nexts; try reflexivity. loads_account i1 a. reads_in Hr. checks.
    assert (is_key (key i3)) by (apply is_key_account; inf).
    rewrite (pack_account accounts s Hs i1 a), (modify_account accounts s Hs i1 a), set_delegate_merge, modify_merge; try done.
    destruct Hwf; split; simpl; try done. by intros ? [= <-].
  - destruct l as [|i1 [|i3 [|i4 l]]]; nexts; try reflexivity. loads_account i1 a. reads_in Hr. checks.
    assert (is_key (key i3)) by (apply is_key_account; inf).
    rewrite (pack_account accounts s Hs i1 a), (modify_account accounts s Hs i1 a), set_delegate_merge, modify_merge; try done.
    destruct Hwf; split; simpl; try done. by intros ? [= <-].
Qed.

Lemma revoke_same l : accounts = l → PToken.process_revoke l s = process_revoke P l s.
Proof.
  intros Hacc. unfold PToken.process_revoke, process_revoke. destruct l as [|i1 l]; nexts; [reflexivity|].
  loads_account i1 a. destruct l as [|i2 l]; nexts; [reflexivity|]. reads_in Hr. checks.
  rewrite (pack_account accounts s Hs i1 a), (modify_account accounts s Hs i1 a), (clear_delegate_merge a a), modify_merge; try done.
  destruct Hwf; by split.
Qed.

(** Loads a mint in both programs, as [m]. *)
Ltac loads_mint i m :=
  let Hi := fresh "Hin" in
  assert (i ∈ accounts) as Hi by inf;
  change (load_mut PMint.t (data s i)) with (load PMint.t (data s i));
  let Hm := fresh "Hm" in let Hin := fresh "Hinit" in
  destruct (load_mint accounts s Hs i Hi) as [(m & Hm & Hin & -> & ->)|(? & -> & ->)]; [|reflexivity];
  let Hwf := fresh "Hwm" in let Hwp := fresh "Hwmp" in let Hme := fresh "Hmmerge" in let Hput := fresh "Hmput" in
  destruct (mint_stored accounts s Hs i m Hi Hm) as (Hwf & Hwp & Hme & Hput);
  change (of_bytes (data s i)) with (mint_struct i);
  let Hr := fresh "Hmr" in pose proof (merge_mint_reads m (mint_struct i) Hwf) as Hr; nexts.

Ltac reads_mint_in Hr := rewrite ?(reads_mint_authority _ _ Hr), ?(reads_supply _ _ Hr), ?(reads_decimals _ _ Hr),
    ?(reads_freeze_authority _ _ Hr); nexts.

Lemma toggle_same l b : accounts = l → PToken.shared_toggle_account_state l b s = process_toggle_freeze_account P l b s.
Proof.
  intros Hacc. unfold PToken.shared_toggle_account_state, process_toggle_freeze_account.
  destruct l as [|i1 [|i2 [|i3 l]]]; nexts; try reflexivity. loads_account i1 a. reads_in Hr.
  assert (Bool.eqb b (is_frozen a) = b && is_frozen a || negb b && negb (is_frozen a)) as -> by (by destruct b, (is_frozen a)).
  checks. unfold cmp_pubkeys. checks. loads_mint i2 m. reads_mint_in Hmr.
  destruct (freeze_authority m) as [k|]; [|reflexivity]. checks.
  rewrite (pack_account accounts s Hs i1 a), (modify_account accounts s Hs i1 a); done.
Qed.

Lemma sync_native_same l : accounts = l → PToken.process_sync_native l s = process_sync_native P l s.
Proof.
  intros Hacc. unfold PToken.process_sync_native, process_sync_native. destruct l as [|i1 l]; nexts; [reflexivity|].
  rewrite check_account_owner_same. apply try_same. intros [] _. loads_account i1 a. reads_in Hr.
  destruct (is_native_reserve a) as [r|]; [|reflexivity]. apply try_same. intros x _. checks.
  rewrite (pack_account accounts s Hs i1 a), (modify_account accounts s Hs i1 a); done.
Qed.

(** A mint read only to see that it is one. *)
Lemma load_mint_err_same i A (k k' : _ → outcome (result A ProgramError)) :
  i ∈ accounts →
  (∀ m, holds_mint (data s i) m → WfMint m → k (merge_mint m (mint_struct i)) = k' m) →
  try_ (Ret (map_err (load PMint.t (data s i)) InvalidMint)) k = try_ (Ret (map_err (Mint_unpack (data s i)) InvalidMint)) k'.
Proof.
  intros Hi Hk. destruct (load_mint accounts s Hs i Hi) as [(m & Hm & _ & -> & ->)|(? & -> & ->)]; [|done].
  cbn [map_err]. rewrite !try_Ok. destruct (mint_stored accounts s Hs i m Hi Hm) as (Hwf & _). by apply Hk.
Qed.

Lemma get_account_data_size_same l :
  accounts = l → PToken.process_get_account_data_size l s = process_get_account_data_size P l s.
Proof.
  intros Hacc. unfold PToken.process_get_account_data_size, process_get_account_data_size.
  destruct l as [|i1 l]; nexts; [reflexivity|].
  rewrite check_account_owner_same. apply try_same. intros [] _. apply load_mint_err_same; [inf|done].
Qed.

Lemma initialize_immutable_owner_same l :
  accounts = l → PToken.process_initialize_immutable_owner l s = process_initialize_immutable_owner l s.
Proof.
  intros Hacc. unfold PToken.process_initialize_immutable_owner, process_initialize_immutable_owner.
  destruct l as [|i1 l]; nexts; [reflexivity|]. assert (i1 ∈ accounts) as Hi by inf.
  change (load_unchecked PAccount.t) with (load_mut_unchecked PAccount.t).
  destruct (load_account_unchecked accounts s Hs i1 Hi) as [(a & Ha & _ & -> & ->)|[-> ->]]; [|reflexivity]. nexts.
  destruct (account_stored accounts s Hs i1 a Hi Ha) as (Hwf & _).
  rewrite (reads_initialized _ _ (merge_reads a _ Hwf)). nexts. checks. reflexivity.
Qed.

Lemma amount_to_ui_amount_string_dot amount d : is_u64 amount → 0 < d → ascii_dot ∈ amount_to_ui_amount_string amount d.
Proof.
  intros Hu Hd. unfold amount_to_ui_amount_string. rewrite (proj2 (Nat.ltb_lt _ _)) by lia.
  apply elem_of_app. right. left.
Qed.

(** The token program shows 0 as [0] as well. *)
Lemma amount_to_ui_amount_string_zero d : 0 ≤ d → amount_to_ui_amount_string_trimmed 0 d = [ascii_zero].
Proof.
  intros Hd. unfold amount_to_ui_amount_string_trimmed. destruct (Z.ltb_spec 0 d) as [Hlt|Hge].
  - unfold amount_to_ui_amount_string, zero_padded. rewrite (proj2 (Nat.ltb_lt _ _)) by lia.
    change (u64_to_string 0) with [ascii_zero]. cbn [length]. rewrite Nat.add_sub.
    replace (replicate (Z.to_nat d) ascii_zero ++ [ascii_zero]) with (ascii_zero :: replicate (Z.to_nat d) ascii_zero)
      by apply replicate_cons_app.
    cbn [length]. rewrite length_replicate, Nat.sub_succ_l, Nat.sub_diag by lia. cbn [take drop app].
    rewrite drop_0, take_0. cbn [app].
    pose proof (trim_end_app ascii_zero (Z.to_nat d) [ascii_zero; ascii_dot] ltac:(done)) as E.
    cbn [app] in E. by rewrite E.
  - by replace d with 0 by lia.
Qed.

Lemma amount_to_ui_amount_same l amount :
  accounts = l → is_u64 amount →
  PToken.amount_to_ui_amount l amount s = process_amount_to_ui_amount P l amount s.
Proof.
  intros Hacc Hu. unfold PToken.amount_to_ui_amount, process_amount_to_ui_amount. destruct l as [|i1 l]; nexts; [reflexivity|].
  rewrite check_account_owner_same. apply try_same. intros [] _. apply load_mint_err_same; [inf|].
  intros m _ Hwf. cbn [PMint.decimals merge_mint]. cbv zeta.
  destruct (logger_spec amount (decimals m)) as [->|[-> ->]]; [done|apply Hwf|..].
  - unfold amount_to_ui_amount_string_trimmed. destruct (Z.ltb_spec 0 (decimals m)); [|done]. cbn [andb].
    by rewrite bool_decide_eq_true_2 by (by apply amount_to_ui_amount_string_dot).
  - destruct (wf_decimals _ Hwf). rewrite amount_to_ui_amount_string_zero by done.
    by rewrite bool_decide_eq_false_2, andb_false_r by (rewrite list_elem_of_singleton; done).
Qed.

(** Copying into a buffer of zeros. *)
Lemma inserts_zeros (p k : list Z) n z :
  (length k ≤ n)%nat → list_inserts (length p) k (p ++ replicate n z) = p ++ k ++ replicate (n - length k) z.
Proof.
  revert p n. induction k as [|y k IH]; intros p n Hle; cbn [list_inserts length app].
  { by rewrite Nat.sub_0_r. }
  cbn [length] in Hle. destruct n as [|n]; [lia|]. cbn [replicate].
  change (p ++ z :: replicate n z) with (p ++ [z] ++ replicate n z). rewrite app_assoc.
  replace (S (length p)) with (length (p ++ [z])) by (rewrite length_app; simpl; lia). rewrite IH by lia.
  rewrite <-app_assoc. cbn [app]. replace (length p) with (length p + 0)%nat by lia. by rewrite insert_app_r.
Qed.

Lemma try_ui_amount_same ui_amount d :
  0 ≤ d → (length (split ascii_dot ui_amount).1 + Z.to_nat d ≤ PToken.MAX_FORMATTED_DIGITS)%nat →
  PToken.try_ui_amount_into_amount ui_amount d = try_ui_amount_into_amount ui_amount d.
Proof.
  intros Hd Hlen. unfold PToken.try_ui_amount_into_amount, try_ui_amount_into_amount.
  destruct (split ascii_dot ui_amount) as [I parts] eqn:Hsplit. cbn [fst] in Hlen. cbv zeta.
  set (F := trim_end_matches ascii_zero (default [] (head parts))).
  rewrite (proj2 (Nat.ltb_ge PToken.MAX_FORMATTED_DIGITS (length I + Z.to_nat d))) by done. rewrite orb_false_r.
  destruct (_ || (Z.to_nat d <? length F)%nat) eqn:E; [done|].
  apply orb_false_iff in E as [_ E%Nat.ltb_ge].
  pose proof (inserts_zeros [] I PToken.MAX_FORMATTED_DIGITS ascii_zero ltac:(lia)) as H1'. cbn [app length] in H1'. rewrite H1'.
  rewrite inserts_zeros by lia.
  replace (take (length I + Z.to_nat d) (I ++ F ++ replicate (PToken.MAX_FORMATTED_DIGITS - length I - length F) ascii_zero))
    with ((I ++ F) ++ replicate (Z.to_nat d - length F) ascii_zero); [done|].
  rewrite take_app_add. rewrite take_app_ge by lia. rewrite take_replicate, <-app_assoc. do 3 f_equal. lia.
Qed.

(** Text whose whole part does not fit the buffer of p-token, with the decimals of the
    mint, is refused by p-token. *)
Lemma ui_amount_to_amount_cases l ui_amount :
  accounts = l →
  PToken.ui_amount_to_amount l ui_amount s = process_ui_amount_to_amount P l ui_amount s ∨
  (∃ info m, head l = Some info ∧ holds_mint (data s info) m ∧
     (PToken.MAX_FORMATTED_DIGITS < length (split ascii_dot ui_amount).1 + Z.to_nat (decimals m))%nat) ∧
  PToken.ui_amount_to_amount l ui_amount s = Ret (Err InvalidArgument).
Proof.
  intros Hacc. unfold PToken.ui_amount_to_amount, process_ui_amount_to_amount. destruct l as [|i1 l]; nexts; [by left|].
  rewrite check_account_owner_same. destruct (check_account_owner P i1 s) as [[[]|e]| |]; [|by left..].
  rewrite !try_Ok. assert (i1 ∈ accounts) as Hi by inf.
  destruct (load_mint accounts s Hs i1 Hi) as [(m & Hm & _ & -> & ->)|(? & -> & ->)]; [|by left].
  cbn [map_err]. rewrite !try_Ok. cbn [PMint.decimals merge_mint].
  destruct (mint_stored accounts s Hs i1 m Hi Hm) as (Hwf & _). destruct (wf_decimals _ Hwf).
  destruct (decide (length (split ascii_dot ui_amount).1 + Z.to_nat (decimals m) ≤ PToken.MAX_FORMATTED_DIGITS)%nat) as [Hle|Hgt].
  { left. by rewrite try_ui_amount_same. }
  right. split; [exists i1, m; split_and!; [done|done|lia]|]. unfold PToken.try_ui_amount_into_amount.
  destruct (split ascii_dot ui_amount) as [I parts]. cbn [fst] in Hgt. cbv zeta.
  rewrite (proj2 (Nat.ltb_lt PToken.MAX_FORMATTED_DIGITS (length I + Z.to_nat (decimals m)))) by lia.
  by rewrite orb_true_r.
Qed.

Lemma set_authority_same l t k :
  accounts = l → opt_ok is_key k → PToken.set_authority l t k s = process_set_authority P l t k s.
Proof.
  intros Hacc Hk. unfold PToken.set_authority, process_set_authority.
  destruct l as [|i1 [|i2 l]]; nexts; try reflexivity.
  change (LEN PAccount.t) with Account_LEN. change (LEN PMint.t) with Mint_LEN.
  destruct (data_len s i1 =? Account_LEN)%nat.
  - loads_account i1 a. reads_in Hr. checks. unfold set_account_authority. destruct t; try reflexivity.
    + rewrite try_assoc. checks. destruct k as [k|]; [|reflexivity]. unfold ok_or. nexts.
      assert (WfAccount (with_owner k a)) by (destruct Hwf; split; try done; by apply Hk).
      assert (WfAccount (with_delegated_amount 0 (with_delegate None (with_owner k a)))) as Hwf' by (destruct Hwf; split; try done; by apply Hk).
      rewrite (pack_account accounts s Hs i1 a), (modify_account accounts s Hs i1 a) by done.
      change (PAccount.with_owner k (merge_account a (struct i1))) with (merge_account (with_owner k a) (struct i1)).
      rewrite modify_merge, (clear_delegate_merge _ a), modify_merge by (done || (destruct Hwf; by split; try done; apply Hk)).
      change (PAccount.set_delegated_amount 0 (merge_account (with_delegate None (with_owner k a)) (struct i1)))
        with (merge_account (with_delegated_amount 0 (with_delegate None (with_owner k a))) (struct i1)).
      unfold deref. rewrite data_put, decide_True, PAccount_of_to by (done || by apply WfPAccount_merge).
      rewrite (reads_is_native _ _ (merge_reads _ _ Hwf')).
      destruct (is_native _); [|done]. by rewrite modify_merge, (clear_close_authority_merge _ a).
    + rewrite try_assoc. checks. nexts. rewrite (pack_account accounts s Hs i1 a), (modify_account accounts s Hs i1 a) by done.
      destruct k; [by rewrite set_close_authority_merge|by rewrite (clear_close_authority_merge _ a)].
  - destruct (data_len s i1 =? Mint_LEN)%nat; [|reflexivity]. loads_mint i1 m. reads_mint_in Hmr.
    unfold set_mint_authority. destruct t; try reflexivity; rewrite try_assoc; apply try_same; intros k0 _; rewrite try_assoc; checks;
      nexts; rewrite (pack_mint accounts s Hs i1 m), (modify_mint accounts s Hs i1 m) by done; destruct k.
    + by rewrite set_mint_authority_merge.
    + by rewrite clear_mint_authority_merge.
    + by rewrite set_freeze_authority_merge.
    + by rewrite clear_freeze_authority_merge.
Qed.

Lemma update_mem_update f g info t : update_mem f info (update_mem g info t) = update_mem (λ a, f (g a)) info t.
Proof.
  unfold update_mem, info_account. cbn [mem return_data]. f_equal.
  by rewrite account_at_insert, decide_True, insert_insert_eq by done.
Qed.

Lemma is_owned_by_system_same a q :
  PAccount.is_owned_by_system_program_or_incinerator (merge_account a q) = is_owned_by_system_program_or_incinerator a.
Proof.
  unfold PAccount.is_owned_by_system_program_or_incinerator, is_owned_by_system_program_or_incinerator.
  rewrite pubkey_system_program, pubkey_incinerator. cbn [PAccount.owner merge_account].
  by rewrite (Z.eqb_sym system_program_id), (Z.eqb_sym incinerator_id).
Qed.

Lemma close_account_same l : accounts = l → PToken.process_close_account l s = process_close_account P l s.
Proof.
  intros Hacc. unfold PToken.process_close_account, process_close_account.
  destruct l as [|i1 [|i2 [|i3 l]]]; nexts; try reflexivity. unfold PToken.same_account, cmp_pubkeys.
  destruct (key i1 =? key i2); [reflexivity|]. unfold fail_if at 3. nexts. rewrite try_assoc.
  loads_account i1 a. reads_in Hr. rewrite try_assoc. checks. rewrite is_owned_by_system_same.
  rewrite pubkey_incinerator, (validate_owner_same accounts s Hs) by inf.
  apply try_same. intros [] _. apply try_same. intros x _. unfold delete_account. nexts. rewrite realloc_to_empty. nexts.
  unfold set_data, assign. unfold set_lamports at 2. rewrite !update_mem_update. unfold update_mem.
  by rewrite close_unchecked_spec, system_program_id_spec.
Qed.

(** Zeroed data: the options are absent, the amounts zero. *)
Lemma zeroed_account d a : holds_account d a → Zeroed d →
  merge_account a (of_bytes d) = of_bytes d → delegate a = None ∧ close_authority a = None ∧ is_native_reserve a = None ∧ amount a = 0 ∧ delegated_amount a = 0.
Proof.
  intros [Hl Ha] Hz%Zeroed_replicate _. rewrite Hz, Hl in Ha. vm_compute in Ha. apply Ok_inj in Ha as <-. done.
Qed.

Lemma zeroed_mint d m : holds_mint d m → Zeroed d → freeze_authority m = None ∧ supply m = 0.
Proof. intros [Hl Ha] Hz%Zeroed_replicate. rewrite Hz, Hl in Ha. vm_compute in Ha. apply Ok_inj in Ha as <-. done. Qed.

(** The rent of both programs. *)
Lemma try_rent_same b i l A (k : PRent → outcome (result A ProgramError)) (k' : Rent * list AccountInfo → outcome (result A ProgramError)) :
  (∀ rent iter, k rent = k' (to_rent rent, iter)) →
  (b = true → ∃ l', l = i :: l') →
  try_ (PToken.get_rent (if b then Some i else None) s) k = try_ (read_rent b l s) k'.
Proof.
  intros Hk Hi. unfold PToken.get_rent, read_rent. destruct b.
  - destruct (Hi eq_refl) as [l' ->]. nexts. rewrite try_assoc, <-from_account_info_spec.
    destruct (from_account_info_unchecked (key i) (data s i)); nexts; [apply Hk|done].
  - rewrite try_assoc, <-PRent_get_spec. destruct PRent_get; nexts; [apply Hk|done].
Qed.

Lemma is_exempt_same rent x n : p_is_exempt rent x n = is_exempt (to_rent rent) x n.
Proof. by rewrite p_is_exempt_spec, is_exempt_spec, p_minimum_balance_spec. Qed.

(** The fields of a new mint, one after the other. *)
Lemma new_mint_written i m d ma fa t :
  i ∈ accounts → holds_mint (data s i) m → freeze_authority m = None → is_byte d → is_key ma → opt_ok is_key fa →
  t = modify i (PMint.with_decimals d) (modify i (PMint.set_mint_authority ma) (modify i PMint.set_initialized s)) →
  match fa with Some fa => modify i (PMint.set_freeze_authority fa) t | None => t end =
  put i (merge_mint {| mint_authority := Some ma; supply := supply m; decimals := d; mint_is_initialized := true;
                       freeze_authority := fa |} (mint_struct i)) s.
Proof.
  intros Hi Hm Hf Hd Hma Hfa ->. destruct (mint_stored accounts s Hs i m Hi Hm) as ([] & Hwp & _).
  set (m1 := {| mint_authority := mint_authority m; supply := supply m; decimals := decimals m;
                mint_is_initialized := true; freeze_authority := freeze_authority m |}).
  set (m3 := {| mint_authority := Some ma; supply := supply m; decimals := d; mint_is_initialized := true;
                freeze_authority := None |}).
  assert (WfMint m1) by (by split). assert (WfMint (with_mint_authority (Some ma) m1)) by (split; try done; by intros ? [= <-]).
  assert (WfMint m3) by (split; try done; by intros ? [= <-]).
  rewrite (modify_mint accounts s Hs i m) by done.
  change (PMint.set_initialized (merge_mint m (mint_struct i))) with (merge_mint m1 (mint_struct i)).
  rewrite modify_merge_mint, set_mint_authority_merge, modify_merge_mint by done.
  replace (PMint.with_decimals d (merge_mint (with_mint_authority (Some ma) m1) (mint_struct i)))
    with (merge_mint m3 (mint_struct i)) by (unfold merge_mint, PMint.with_decimals; simpl; by rewrite Hf).
  destruct fa as [fa|]; [|done]. by rewrite modify_merge_mint, set_freeze_authority_merge.
Qed.

Lemma initialize_mint_same l d ma fa b :
  accounts = l → is_byte d → is_key ma → opt_ok is_key fa →
  PToken.initialize_mint l d ma fa b s = _process_initialize_mint l d ma fa b s.
Proof.
  intros Hacc Hd Hma Hfa. unfold PToken.initialize_mint, _process_initialize_mint.
  destruct l as [|i1 l]; [by destruct b; nexts|]. nexts. destruct (decide (b = true ∧ l = [])) as [[-> ->]|Hl]; [unfold read_rent; by nexts|].
  assert (∃ i2, (b = true → ∃ l', l = i2 :: l') ∧ (if b then match i1 :: l with
      | mint_info :: rent_sysvar_info :: _ => Ok (mint_info, Some rent_sysvar_info)
      | _ => Err NotEnoughAccountKeys end else Ok (i1, None)) = Ok (i1, if b then Some i2 else None)) as (i2 & Hi2 & Hp).
  { destruct b; [|by exists i1]. destruct l as [|i2 l]; [tauto|]. exists i2. split; [eauto|done]. }
  rewrite Hp. nexts. apply try_rent_same; [|done]. intros rent iter.
  assert (i1 ∈ accounts) as Hi by inf.
  destruct (load_mint_unchecked accounts s Hs i1 Hi) as [(m & Hm & Hz & -> & ->)|[-> ->]]; [|reflexivity]. nexts.
  destruct (mint_stored accounts s Hs i1 m Hi Hm) as (Hwf & _).
  rewrite (reads_mint_initialized _ _ (merge_mint_reads m _ Hwf)), is_exempt_same. nexts. checks.
  rewrite (pack_mint accounts s Hs i1 m) by done. do 2 f_equal. unfold put.
  apply (new_mint_written i1 m); try done. by eapply zeroed_mint; [|apply Hz].
Qed.

(** The fields of a new account; [x] are the lamports above the reserve [r]. *)
Definition new_account (mi k : Pubkey) (native : option (Z * Z)) : Account :=
  {| mint := mi; owner := k; amount := default 0 (snd <$> native); delegate := None; state := Initialized;
     is_native_reserve := fst <$> native; delegated_amount := 0; close_authority := None |}.

Lemma new_account_written i a mi k :
  i ∈ accounts → holds_account (data s i) a → Zeroed (data s i) → is_key mi → is_key k →
  modify i (PAccount.with_owner k) (modify i (PAccount.with_mint mi) (modify i (PAccount.set_account_state Initialized) s)) =
  put i (merge_account (new_account mi k None) (struct i)) s.
Proof.
  intros Hi Ha Hz Hmi Hk. destruct (account_stored accounts s Hs i a Hi Ha) as (Hwf & Hwp & Hm & _).
  destruct (zeroed_account _ a Ha Hz Hm) as (Hd & Hc & Hr & Ham & Hda).
  assert (∀ mi' k', is_key mi' → is_key k' → WfAccount {| mint := mi'; owner := k'; amount := 0; delegate := None; state := Initialized;
     is_native_reserve := None; delegated_amount := 0; close_authority := None |}) as Hw.
  { intros mi' k' ? ?. by split. }
  destruct Hwf as [Hwm Hwo _ _ _ _ _]. rewrite (modify_account accounts s Hs i a) by done.
  replace (PAccount.set_account_state Initialized (merge_account a (struct i))) with
    (merge_account (new_account (mint a) (owner a) None) (struct i))
    by (unfold new_account, PAccount.set_account_state, merge_account; simpl; by rewrite Hd, Hc, Hr, Ham, Hda).
  rewrite modify_merge by (done || by apply Hw).
  change (PAccount.with_mint mi _) with (merge_account (new_account mi (owner a) None) (struct i)).
  by rewrite modify_merge by (done || by apply Hw).
Qed.

Lemma native_account_written i a mi k r x :
  i ∈ accounts → holds_account (data s i) a → is_key mi → is_key k →
  modify i (PAccount.set_amount x) (modify i (PAccount.set_native_amount r)
    (modify i (PAccount.set_native true) (put i (merge_account (new_account mi k None) (struct i)) s))) =
  put i (merge_account (new_account mi k (Some (r, x))) (struct i)) s.
Proof.
  intros Hi Ha Hmi Hk. destruct (account_stored accounts s Hs i a Hi Ha) as (_ & Hwp & _ & _).
  assert (WfAccount (new_account mi k None)) as Hw by (by split).
  destruct (WfPAccount_merge _ _ Hw Hwp) as [? ? ? ? ? ? ? ? ?].
  rewrite modify_merge by done. rewrite modify_put by (apply PAccount_of_to; by split).
  rewrite modify_put by (apply PAccount_of_to; split; try done; apply length_to_le_bytes). done.
Qed.

Lemma lamports_modify {T} `{Transmutable T} i (f : T → T) t j : lamports (modify i f t) j = lamports t j.
Proof. apply lamports_set_data. Qed.
Lemma lamports_put {T} `{Transmutable T} i (p : T) t j : lamports (put i p t) j = lamports t j.
Proof. apply lamports_set_data. Qed.

(** The rent sysvar, if it is expected among the accounts [l]. *)
Lemma try_rent_of_same (b : bool) (l : list AccountInfo) A (k : PRent → outcome (result A ProgramError)) (k' : Rent * list AccountInfo → outcome (result A ProgramError)) :
  (∀ rent iter, k rent = k' (to_rent rent, iter)) →
  (rent_sysvar_info ←? Ret (if b then match l with
                                      | [] => Err NotEnoughAccountKeys
                                      | rent_sysvar_info :: _ => Ok (Some rent_sysvar_info)
                                      end else Ok None);
   rent ←? PToken.get_rent rent_sysvar_info s; k rent) = try_ (read_rent b l s) k'.
Proof.
  intros Hk. destruct b, l as [|i l]; nexts; [unfold read_rent; by nexts|apply (try_rent_same true i); eauto|..];
    unfold PToken.get_rent, read_rent; rewrite try_assoc, <-PRent_get_spec; destruct PRent_get; nexts; auto.
Qed.

Lemma initialize_account_same l o b :
  accounts = l → opt_ok is_key o →
  PToken.shared_initialize_account l o b s = _process_initialize_account P l o b s.
Proof.
  intros Hacc Ho. unfold PToken.shared_initialize_account, _process_initialize_account.
  destruct o as [k|]; [destruct l as [|i1 [|i2 l]]|destruct l as [|i1 [|i2 [|i3 l]]]]; nexts; try reflexivity;
    [assert (is_key k) as Hk by auto|assert (is_key (key i3)) as Hk by (apply is_key_account; inf); set (k := key i3) in *];
    apply try_rent_of_same; intros rent iter; assert (i1 ∈ accounts) as Hi by inf;
    (destruct (load_account_unchecked accounts s Hs i1 Hi) as [(a & Ha & Hz & -> & ->)|[-> ->]]; [|reflexivity]); nexts;
    destruct (account_stored accounts s Hs i1 a Hi Ha) as (Hwf & _);
    rewrite (reads_initialized _ _ (merge_reads a _ Hwf)), is_exempt_spec, p_minimum_balance_spec; nexts; checks;
    rewrite Z.ltb_antisym; checks; apply negb_false_iff, Z.leb_le in E0;
    unfold PToken.is_native_mint, cmp_pubkeys; rewrite pubkey_native_mint;
    apply bool_decide_eq_false, dec_stable in E; assert (is_key (key i2)) by (apply is_key_account; inf);
    rewrite (new_account_written i1 a) by auto.
  all: destruct (key i2 =? native_mint_id); cbn [negb]; nexts.
  1, 3: unfold ok_or, checked_sub; rewrite (proj2 (Z.leb_le _ _)) by done; nexts;
    rewrite (pack_account accounts s Hs i1 a), !lamports_modify, lamports_put by done;
    rewrite Z.mod_small; [by rewrite (native_account_written i1 a)|];
    pose proof (infos_lamports _ _ (shaped_ok _ _ Hs) i1 Hi); pose proof (minimum_balance_u64 (to_rent rent) (data_len s i1));
    unfold is_u64, u64_MAX in *; lia.
  all: rewrite !try_assoc, check_account_owner_same; apply try_same; intros [] _; rewrite ?try_assoc;
    apply load_mint_err_same; [inf|]; intros _ _ _; nexts; by rewrite (pack_account accounts s Hs i1 a).
Qed.

Lemma multisig_stored i ms :
  i ∈ accounts → holds_multisig (data s i) ms → WfMultisig ms ∧ put i (multisig_struct ms) s = s.
Proof.
  intros Hi Hm. destruct (holds_multisig_struct _ _ (shaped_bytes accounts s Hs _ Hi) Hm) as (Hwf & _ & Hto).
  split; [done|]. unfold put. rewrite Hto. apply set_data_id. destruct Hm as [Hl _]. intros Hd. rewrite Hd in Hl. discriminate Hl.
Qed.

(** Writing the signers one by one. *)
Lemma write_signers_same i j l p t :
  WfPMultisig p → Forall (λ info, is_key (key info)) l →
  PToken.write_signers i j l (put i p t) =
    (keys ← set_signers j l (PMultisig.signers p); Ret (put i (PMultisig.with_signers keys p) t)).
Proof.
  revert j p. induction l as [|info l IH]; intros j p Hwf Hl; cbn [PToken.write_signers set_signers].
  { rewrite bind_Ret_l. by destruct p. }
  apply Forall_cons in Hl as [Hk Hl]. unfold deref. rewrite data_put, decide_True, PMultisig_of_to by done.
  destruct (j <? length (PMultisig.signers p))%nat; cbn [assert_]; [|done]. rewrite !bind_Ret_l.
  rewrite modify_put by (by apply PMultisig_of_to). rewrite IH; [done| |done].
  destruct Hwf as [? ? ? [Hlen Hks]]. split; simpl; try done. rewrite length_insert. split; [done|]. by apply Forall_insert.
Qed.

Lemma modify_multisig i ms f :
  i ∈ accounts → holds_multisig (data s i) ms → modify i f s = put i (f (multisig_struct ms)) s.
Proof.
  intros Hi Hm. destruct (multisig_stored i ms Hi Hm) as [Hwf Hput]. rewrite <-Hput at 1.
  by apply modify_put, PMultisig_of_to, WfPMultisig_struct.
Qed.

(** After the rent is known: [l] are the signers. *)
Lemma initialize_multisig_tail i1 l m rent :
  i1 ∈ accounts → Forall (λ info, is_key (key info)) l → is_byte m →
  (multisig ←? Ret (load_mut_unchecked PMultisig.t (data s i1));
   initialized ←? Ret (is_initialized multisig);
   '_ ←? fail_if initialized AlreadyInUse;
   '_ ←? fail_if (negb (p_is_exempt rent (lamports s i1) (data_len s i1))) NotRentExempt;
   let s := modify i1 (PMultisig.with_m m) s in
   let s := modify i1 (PMultisig.with_n (Z.of_nat (length l) mod 256)) s in
   '_ ←? fail_if (negb (PMultisig.is_valid_signer_index (PMultisig.n (deref PMultisig.t s i1)))) InvalidNumberOfProvidedSigners;
   '_ ←? fail_if (negb (PMultisig.is_valid_signer_index (PMultisig.m (deref PMultisig.t s i1)))) InvalidNumberOfRequiredSigners;
   s ← PToken.write_signers i1 0 l s;
   Ret (Ok (modify i1 (PMultisig.set_initialized true) s))) =
  (multisig ←? Ret (Multisig_unpack_unchecked (data s i1));
   '_ ←? fail_if (multisig_is_initialized multisig) AlreadyInUse;
   '_ ←? fail_if (negb (is_exempt (to_rent rent) (lamports s i1) (data_len s i1))) NotRentExempt;
   '_ ←? fail_if (negb (is_valid_signer_index (Z.of_nat (length l) mod 256))) InvalidNumberOfProvidedSigners;
   '_ ←? fail_if (negb (is_valid_signer_index m)) InvalidNumberOfRequiredSigners;
   keys ← set_signers 0 l (signers multisig);
   let multisig := {| multisig_m := m; multisig_n := Z.of_nat (length l) mod 256; multisig_is_initialized := true; signers := keys |} in
   d ←? Ret (Multisig_pack multisig (data s i1));
   Ret (Ok (set_data i1 d s))).
Proof.
  intros Hi Hkeys Hm. cbv zeta. rewrite is_exempt_same.
  destruct (load_multisig_unchecked accounts s Hs i1 Hi) as [(ms & Hms & _ & -> & ->)|[-> ->]]; [|reflexivity]. nexts.
  rewrite multisig_struct_initialized. nexts. checks. destruct (multisig_stored i1 ms Hi Hms) as [Hwf _].
  pose proof (Z.mod_pos_bound (Z.of_nat (length l)) 256 ltac:(lia)) as Hn. destruct Hwf as [Hwm Hwn Hws].
  set (p1 := PMultisig.with_m m (multisig_struct ms)). set (p2 := PMultisig.with_n (Z.of_nat (length l) mod 256) p1).
  assert (is_byte (bool_as_u8 (multisig_is_initialized ms))) by (by destruct (multisig_is_initialized ms)).
  assert (WfPMultisig p1) as Hp1 by (split; done). assert (WfPMultisig p2) as Hp2 by (split; done).
  rewrite (modify_multisig i1 ms) by done. fold p1. rewrite modify_put by (by apply PMultisig_of_to). fold p2.
  unfold deref. rewrite data_put, decide_True, PMultisig_of_to by done.
  change (PMultisig.n p2) with (Z.of_nat (length l) mod 256). change (PMultisig.m p2) with m. checks.
  rewrite write_signers_same by done. change (PMultisig.signers p2) with (signers ms).
  destruct (set_signers 0 l (signers ms)) as [keys| |] eqn:Hset; [|done..]. rewrite !bind_Ret_l.
  assert (length keys = MAX_SIGNERS ∧ Forall is_key keys) as Hk.
  { rewrite Forall_forall in Hkeys. pose proof (set_signers_wf _ _ (shaped_ok _ _ Hs) 0 l (signers ms) keys Hkeys (proj2 Hws) Hset) as [-> ?]. by split; [apply Hws|]. }
  rewrite modify_put by (apply PMultisig_of_to; destruct Hp2; by split).
  rewrite Multisig_pack_Ok, try_Ok by apply Hms. done.
Qed.

Lemma initialize_multisig_same l m b :
  accounts = l → is_byte m → PToken.shared_initialize_multisig l m b s = _process_initialize_multisig l m b s.
Proof.
  intros Hacc Hm. unfold PToken.shared_initialize_multisig, _process_initialize_multisig.
  destruct l as [|i1 l]; [by destruct b; nexts|]. nexts.
  assert (Forall (λ info, is_key (key info)) l) as Hkeys.
  { apply Forall_forall. intros info Hin. apply is_key_account. rewrite Hacc. by right. }
  assert (i1 ∈ accounts) as Hi by inf. unfold PToken.get_rent, read_rent. destruct b.
  - destruct l as [|i2 l]; nexts; [reflexivity|]. rewrite try_assoc, <-from_account_info_spec.
    apply Forall_cons in Hkeys as [_ Hkeys].
    destruct (from_account_info_unchecked (key i2) (data s i2)); nexts; [|done]. by apply initialize_multisig_tail.
  - nexts. rewrite try_assoc, <-PRent_get_spec. destruct PRent_get; nexts; [|done]. by apply initialize_multisig_tail.
Qed.

(** * Two accounts *)

Lemma set_data_commute i j d e t : key i ≠ key j → set_data i d (set_data j e t) = set_data j e (set_data i d t).
Proof.
  intros Hne. unfold set_data, update_mem, info_account. cbn [mem return_data]. f_equal.
  rewrite !account_at_insert, !decide_False by congruence. by rewrite insert_insert_ne.
Qed.

Lemma put_commute {T U} `{Transmutable T, Transmutable U} i j (p : T) (q : U) t :
  key i ≠ key j → put i p (put j q t) = put j q (put i p t).
Proof. apply set_data_commute. Qed.

Lemma modify_other {U} `{Transmutable U} i a f j (q : U) :
  i ∈ accounts → holds_account (data s i) a → key i ≠ key j →
  modify i f (put j q s) = put i (f (merge_account a (struct i))) (put j q s).
Proof.
  intros Hi Ha Hne. destruct (account_stored accounts s Hs i a Hi Ha) as (_ & _ & Hm & _).
  unfold modify, deref. rewrite data_put, decide_False by done. fold (struct i). by rewrite Hm.
Qed.

Lemma modify_mint_other {U} `{Transmutable U} i m f j (q : U) :
  i ∈ accounts → holds_mint (data s i) m → key i ≠ key j →
  modify i f (put j q s) = put i (f (merge_mint m (mint_struct i))) (put j q s).
Proof.
  intros Hi Ha Hne. destruct (mint_stored accounts s Hs i m Hi Ha) as (_ & _ & Hm & _).
  unfold modify, deref. rewrite data_put, decide_False by done. fold (mint_struct i). by rewrite Hm.
Qed.

(** The token program writes a token account and then a mint. *)
Lemma pack_account_and_mint i j a a' m m' :
  i ∈ accounts → j ∈ accounts → holds_account (data s i) a → holds_mint (data s j) m →
  (d ←? Ret (Account_pack a' (data s i));
   let s := set_data i d s in
   d ←? Ret (Mint_pack m' (data s j));
   Ret (Ok (set_data j d s))) =
  Ret (Ok (put j (merge_mint m' (mint_struct j)) (put i (merge_account a' (struct i)) s))).
Proof.
  intros Hi Hj Ha Hm. pose proof (mint_account_ne _ _ _ _ _ Hm Ha) as Hne.
  rewrite (pack_account accounts s Hs i a) by done. cbv zeta.
  rewrite (pack_mint accounts s Hs j m); [done..|]. by apply data_set_data_ne.
Qed.

Lemma with_amount_id a : with_amount (amount a) a = a.
Proof. by destruct a. Qed.
Lemma with_supply_id m : with_supply (supply m) m = m.
Proof. by destruct m. Qed.

Lemma mint_to_same l n d :
  accounts = l → is_u64 n → PToken.shared_mint_to l n d s = process_mint_to P l n d s.
Proof.
  intros Hacc Hn. unfold PToken.shared_mint_to, process_mint_to. destruct l as [|i1 [|i2 [|i3 l]]]; nexts; try reflexivity.
  loads_account i2 b. reads_in Hr. checks. unfold cmp_pubkeys. checks. loads_mint i1 m. reads_mint_in Hmr.
  change (PToken.check_decimals d (merge_mint m (mint_struct i1))) with (check_decimals d m).
  apply try_same. intros [] _. destruct (mint_authority m) as [k|]; [|reflexivity]. checks.
  apply negb_false_iff, Z.eqb_eq in E1.
  pose proof (shaped_supply _ _ Hs i2 i1 b m ltac:(inf) ltac:(inf) Ha Hst E0 Hm Hinit E1) as Hle.
  pose proof (mint_account_ne _ _ _ _ _ Hm Ha) as Hne.
  destruct (wf_amount _ Hwf), (wf_supply _ Hwm), Hn.
  destruct (Z.eqb_spec n 0) as [->|Hn0].
  - rewrite !check_account_owner_same, try_assoc. apply try_same. intros [] _. apply try_same. intros [] _.
    unfold ok_or, checked_add. rewrite !Z.add_0_r, !(proj2 (Z.leb_le _ u64_MAX)) by lia. nexts.
    rewrite (pack_account_and_mint i2 i1 b _ m) by (inf || done).
    by rewrite with_amount_id, with_supply_id, Hput, Hmput.
  - nexts. unfold ok_or, checked_add. destruct (Z.leb_spec (supply m + n) u64_MAX) as [Hs2|Hs2].
    + rewrite (proj2 (Z.leb_le (amount b + n) _)) by lia. nexts. rewrite (pack_account_and_mint i2 i1 b _ m) by (inf || done).
      rewrite (modify_mint accounts s Hs i1 m) by (inf || done). unfold deref. rewrite data_put, decide_False by congruence.
      change (of_bytes (data s i2)) with (struct i2). rewrite <-Hmerge at 1. rewrite (reads_amount _ _ Hr).
      rewrite (modify_other i2 b) by (inf || done || congruence). rewrite put_commute by congruence.
      unfold wrapping_add_u64. rewrite Z.mod_small by (unfold u64_MAX in *; lia). done.
    + destruct (amount b + n <=? u64_MAX); done.
Qed.

(** * Spending *)

(** [checked_sub] is the check and the difference. *)
Lemma try_checked_sub A x n e (k : Z → outcome (result A ProgramError)) :
  try_ (ok_or (checked_sub x n) e) k = try_ (fail_if (x <? n) e) (λ _, k (x - n)).
Proof. unfold ok_or, checked_sub, fail_if. rewrite Z.ltb_antisym. by destruct (n <=? x). Qed.

(** What spending as a delegate leaves as it is. *)
Definition spent_frame (a a1 : Account) : Prop :=
  WfAccount a1 ∧ mint a1 = mint a ∧ owner a1 = owner a ∧ amount a1 = amount a ∧ state a1 = state a ∧
  is_native_reserve a1 = is_native_reserve a.

Lemma spend_delegated_same i a n :
  i ∈ accounts → holds_account (data s i) a → is_u64 n → n ≤ delegated_amount a →
  ∃ a1, spent_frame a a1 ∧ spend_delegated n a = Ret (Ok a1) ∧
    PToken.spend_delegated i (delegated_amount a - n) s = put i (merge_account a1 (struct i)) s.
Proof.
  intros Hi Ha Hn Hle. destruct (account_stored accounts s Hs i a Hi Ha) as (Hwf & Hwp & Hm & _).
  assert (WfAccount (with_delegated_amount (delegated_amount a - n) a)) as Hwf1.
  { destruct Hwf as [? ? ? ? ? Hda ?]. split; try done. unfold is_u64 in *. simpl. lia. }
  assert (WfAccount (with_delegate None (with_delegated_amount (delegated_amount a - n) a))) as Hwf2 by (destruct Hwf1; by split).
  unfold PToken.spend_delegated, spend_delegated, ok_or, checked_sub. rewrite (proj2 (Z.leb_le _ _)) by lia. nexts.
  rewrite (modify_account accounts s Hs i a) by done.
  change (PAccount.set_delegated_amount _ (merge_account a (struct i)))
    with (merge_account (with_delegated_amount (delegated_amount a - n) a) (struct i)).
  destruct (_ =? 0); eexists; (split; [|split; [reflexivity|]]); try (by split_and!); [|done].
  rewrite modify_merge by done. by rewrite (clear_delegate_merge _ a).
Qed.

Lemma authority_same i a auth l n (sp : bool) A (k : State → outcome (result A ProgramError)) k' :
  i ∈ accounts → auth ∈ accounts → holds_account (data s i) a → is_u64 n →
  (∀ a1, spent_frame a a1 → (sp = false → a1 = a) → k (put i (merge_account a1 (struct i)) s) = k' a1) →
  (s ←? (if bool_decide (delegate a = Some (key auth)) then
           '_ ←? PToken.validate_owner (key auth) auth l s;
           delegated_amount ←? ok_or (checked_sub (delegated_amount a) n) InsufficientFunds;
           Ret (Ok (if sp then PToken.spend_delegated i delegated_amount s else s))
         else '_ ←? PToken.validate_owner (owner a) auth l s; Ret (Ok s)); k s) =
  (a ←? (if is_delegate a auth then
           '_ ←? validate_owner P (key auth) auth l s;
           '_ ←? fail_if (delegated_amount a <? n) InsufficientFunds;
           if sp then spend_delegated n a else Ret (Ok a)
         else '_ ←? validate_owner P (owner a) auth l s; Ret (Ok a)); k' a).
Proof.
  intros Hi Hauth Ha Hn Hk. destruct (account_stored accounts s Hs i a Hi Ha) as (Hwf & _ & _ & Hput).
  assert (spent_frame a a) as Hrefl by (by split_and!).
  assert (is_delegate a auth = bool_decide (delegate a = Some (key auth))) as ->.
  { unfold is_delegate, cmp_pubkeys. destruct (delegate a) as [x|]; [|done].
    apply eq_true_iff_eq. rewrite Z.eqb_eq, bool_decide_eq_true. naive_solver. }
  rewrite !(validate_owner_same accounts s Hs) by done.
  destruct (bool_decide _); rewrite !try_assoc; apply try_same; intros [] _; nexts.
  - rewrite try_checked_sub. apply try_fail_same. intros Hle%Z.ltb_ge. nexts. destruct sp.
    + destruct (spend_delegated_same i a n Hi Ha Hn Hle) as (a1 & Hf & -> & ->). nexts. apply Hk; [done|intros [=]].
    + nexts. by rewrite <-Hk, Hput.
  - by rewrite <-Hk, Hput.
Qed.

Lemma check_account_owner_put {T} `{Transmutable T} info i (p : T) t :
  PToken.check_account_owner info (put i p t) = check_account_owner P info t.
Proof.
  rewrite check_account_owner_same. unfold check_account_owner. do 2 f_equal. unfold cmp_pubkeys. f_equal.
  unfold put. by rewrite info_owner_set_data.
Qed.

(** What is left to do once the authority is checked. *)
Lemma burn_tail i j a a1 m n :
  i ∈ accounts → j ∈ accounts → holds_account (data s i) a → holds_mint (data s j) m → spent_frame a a1 →
  is_u64 n → n ≤ amount a → amount a ≤ supply m →
  (let s := put i (merge_account a1 (struct i)) s in
   if n =? 0 then
     '_ ←? PToken.check_account_owner i s; '_ ←? PToken.check_account_owner j s; Ret (Ok s)
   else
     let s := modify i (PAccount.set_amount (amount a - n)) s in
     mint_supply ← unwrap (checked_sub (PMint.supply (deref PMint.t s j)) n);
     Ret (Ok (modify j (PMint.set_supply mint_supply) s))) =
  ('_ ←? (if n =? 0 then '_ ←? check_account_owner P i s; check_account_owner P j s else Ret (Ok tt));
   source_amount ←? ok_or (checked_sub (amount a1) n) Overflow;
   supply ←? ok_or (checked_sub (supply m) n) Overflow;
   d ←? Ret (Account_pack (with_amount source_amount a1) (data s i));
   let s := set_data i d s in
   d ←? Ret (Mint_pack (with_supply supply m) (data s j));
   Ret (Ok (set_data j d s))).
Proof.
  intros Hi Hj Ha Hm (Hwf1 & _ & _ & Ham & _ & _) [Hn _] Hle Hsup.
  destruct (account_stored accounts s Hs i a Hi Ha) as (Hwf & Hwp & _ & _).
  destruct (mint_stored accounts s Hs j m Hj Hm) as (Hwm & _ & Hmm & Hmput).
  pose proof (mint_account_ne _ _ _ _ _ Hm Ha) as Hne. cbv zeta. rewrite Ham.
  destruct (Z.eqb_spec n 0) as [->|Hn0].
  - rewrite !check_account_owner_put, try_assoc. apply try_same. intros [] _. apply try_same. intros [] _.
    unfold ok_or, checked_sub. rewrite !Z.sub_0_r, !(proj2 (Z.leb_le 0 _)) by lia. nexts.
    rewrite (pack_account_and_mint i j a _ m) by done. rewrite <-Ham, with_amount_id, with_supply_id.
    by rewrite put_commute, Hmput by congruence.
  - nexts. assert (checked_sub (amount a) n = Some (amount a - n) ∧ checked_sub (supply m) n = Some (supply m - n)) as [-> Hsub]
      by (unfold checked_sub; rewrite !(proj2 (Z.leb_le n _)) by lia; done).
    rewrite Hsub. unfold ok_or. nexts. rewrite (pack_account_and_mint i j a _ m) by done. rewrite modify_merge by done.
    change (PAccount.set_amount (amount a - n) (merge_account a1 (struct i)))
      with (merge_account (with_amount (amount a - n) a1) (struct i)).
    unfold deref. rewrite data_put, decide_False by congruence. change (of_bytes (data s j)) with (mint_struct j).
    rewrite <-Hmm at 1. rewrite (reads_supply _ _ (merge_mint_reads m _ Hwm)).
    rewrite Hsub. cbn [unwrap]. rewrite bind_Ret_l. by rewrite (modify_mint_other j m) by done.
Qed.

Lemma burn_same l n d : accounts = l → is_u64 n → PToken.shared_burn l n d s = process_burn P l n d s.
Proof.
  intros Hacc Hn. unfold PToken.shared_burn, process_burn. destruct l as [|i1 [|i2 [|i3 l]]]; nexts; try reflexivity.
  loads_account i1 a. loads_mint i2 m. reads_in Hr. checks. rewrite try_checked_sub. checks. unfold cmp_pubkeys. checks.
  change (PToken.check_decimals d (merge_mint m (mint_struct i2))) with (check_decimals d m).
  apply try_same. intros [] _. rewrite is_owned_by_system_same.
  apply negb_false_iff, Z.eqb_eq in E2. apply Z.ltb_ge in E1.
  pose proof (shaped_supply _ _ Hs i1 i2 a m ltac:(inf) ltac:(inf) Ha Hst E0 Hm Hinit E2) as Hle.
  destruct (is_owned_by_system_program_or_incinerator a); cbn [negb].
  - nexts. assert (spent_frame a a) as Hf by (by split_and!).
    pose proof (burn_tail i1 i2 a a m n Hin Hin0 Ha Hm Hf Hn E1 Hle) as Ht. cbv zeta in Ht. by rewrite Hput in Ht.
  - apply (authority_same i1 a i3 l n true); try inf; try done. intros a1 Hf _. apply burn_tail; try inf; done.
Qed.

(** * Transfers *)

Lemma set_lamports_put {T} `{Transmutable T} i x j (p : T) t :
  set_lamports i x (put j p t) = put j p (set_lamports i x t).
Proof.
  unfold put, set_lamports, set_data, update_mem, info_account. cbn [mem return_data]. f_equal.
  destruct (decide (key i = key j)) as [E|Hne].
  - rewrite E, !account_at_insert, !decide_True, !insert_insert_eq by done. by destruct (account_at _ _).
  - rewrite !account_at_insert, !decide_False by congruence. by rewrite insert_insert_ne.
Qed.

(** The token program writes two token accounts. *)
Lemma pack_two_accounts i j a a' b b' t :
  i ∈ accounts → j ∈ accounts → key i ≠ key j → holds_account (data s i) a → holds_account (data s j) b →
  data t i = data s i → data t j = data s j →
  (d ←? Ret (Account_pack a' (data t i));
   let t := set_data i d t in
   d ←? Ret (Account_pack b' (data t j));
   Ret (Ok (set_data j d t))) =
  Ret (Ok (put j (merge_account b' (struct j)) (put i (merge_account a' (struct i)) t))).
Proof.
  intros Hi Hj Hne Ha Hb Hti Htj. rewrite (pack_account accounts s Hs i a) by done. cbv zeta.
  rewrite (pack_account accounts s Hs j b); [done..|]. by rewrite data_set_data_ne.
Qed.

(** The two writes of p-token. *)
Lemma move_tokens i j a1 a b n x :
  i ∈ accounts → j ∈ accounts → key i ≠ key j → holds_account (data s j) b → holds_account (data s i) a → WfAccount a1 →
  (let s := modify i (PAccount.set_amount x) (put i (merge_account a1 (struct i)) s) in
   destination_account ←? Ret (load_mut_unchecked PAccount.t (data s j));
   Ret (Ok (modify j (PAccount.set_amount (wrapping_add_u64 (PAccount.amount destination_account) n)) s))) =
  Ret (Ok (put j (merge_account (with_amount (wrapping_add_u64 (amount b) n) b) (struct j))
             (put i (merge_account (with_amount x a1) (struct i)) s))).
Proof.
  intros Hi Hj Hne Hb Ha Hwf1. destruct (account_stored accounts s Hs j b Hj Hb) as (Hwf & _ & Hm & _).
  destruct (account_stored accounts s Hs i a Hi Ha) as (_ & Hwp & _).
  cbv zeta. rewrite modify_merge by done. unfold load_mut_unchecked, load_unchecked.
  rewrite data_put, decide_False by congruence. destruct Hb as [Hl Hb]. rewrite Hl.
  cbn [LEN PAccount.layout Account_LEN Nat.eqb negb]. rewrite try_Ok. fold (struct j).
  rewrite <-Hm at 1. rewrite (reads_amount _ _ (merge_reads b (struct j) Hwf)).
  by rewrite (modify_other j b) by done.
Qed.

(** Lamports follow the tokens of a native account. *)
Definition try_move_lamports (native : bool) i j n (t : State) : outcome (result State ProgramError) :=
  if native then
    source_lamports ←? ok_or (checked_sub (lamports t i) n) Overflow;
    let t := set_lamports i source_lamports t in
    destination_lamports ←? ok_or (checked_add u64_MAX (lamports t j) n) Overflow;
    Ret (Ok (set_lamports j destination_lamports t))
  else Ret (Ok t).

Lemma move_lamports_put {T} `{Transmutable T} native i j n k (p : T) t A (f : State → outcome (result A ProgramError)) :
  try_ (try_move_lamports native i j n (put k p t)) f = try_ (try_move_lamports native i j n t) (λ t, f (put k p t)).
Proof.
  unfold try_move_lamports. destruct native; [|by rewrite !try_Ok]. rewrite !lamports_put, !try_assoc. apply try_same.
  intros x _. rewrite !set_lamports_put, lamports_put, !try_assoc. apply try_same. intros y _.
  rewrite !try_Ok. by rewrite set_lamports_put.
Qed.

Lemma data_try_move_lamports native i j n t t' k : try_move_lamports native i j n t = Ret (Ok t') → data t' k = data t k.
Proof.
  unfold try_move_lamports. destruct native; [|by intros [= ->]].
  unfold ok_or. destruct (checked_sub _ _); [rewrite try_Ok|done].
  destruct (checked_add _ _ _); [rewrite try_Ok|done]. intros [= <-]. by rewrite !data_set_lamports.
Qed.

(** A native destination that cannot take the tokens cannot take the lamports. *)
Lemma move_lamports_overflow i j a b n :
  i ∈ accounts → j ∈ accounts → key i ≠ key j → holds_account (data s i) a → holds_account (data s j) b →
  state a ≠ Uninitialized → state b ≠ Uninitialized → mint a = mint b → n ≤ amount a → u64_MAX < amount b + n →
  try_move_lamports (is_native a) i j n s = Ret (TokenErr Overflow).
Proof.
  intros Hi Hj Hne Ha Hb Hsa Hsb Hmint Hn Hov.
  destruct (shaped_native _ _ Hs i a Hi Ha Hsa) as [Hna Hla]. destruct (shaped_native _ _ Hs j b Hj Hb Hsb) as [Hnb Hlb].
  destruct (is_native a) eqn:E.
  - specialize (Hla eq_refl). specialize (Hlb (proj2 Hnb (eq_trans (eq_sym Hmint) (proj1 Hna eq_refl)))).
    unfold try_move_lamports, checked_sub. rewrite (proj2 (Z.leb_le n _)) by lia. unfold ok_or at 1. rewrite try_Ok.
    rewrite lamports_set_lamports, decide_False by congruence.
    unfold checked_add. by rewrite (proj2 (Z.leb_gt (lamports s j + n) _)) by lia.
  - pose proof (shaped_room _ _ Hs i j a b Hi Hj Hne Ha Hb Hsa Hsb Hmint E). lia.
Qed.

(** What is left of a transfer between two accounts. *)
Lemma transfer_tail i j a a1 b n :
  i ∈ accounts → j ∈ accounts → key i ≠ key j → holds_account (data s i) a → holds_account (data s j) b →
  state a ≠ Uninitialized → state b ≠ Uninitialized → mint a = mint b →
  spent_frame a a1 → is_u64 n → n ≤ amount a →
  (let s := modify i (PAccount.set_amount (amount a - n)) (put i (merge_account a1 (struct i)) s) in
   destination_account ←? Ret (load_mut_unchecked PAccount.t (data s j));
   let s := modify j (PAccount.set_amount (wrapping_add_u64 (PAccount.amount destination_account) n)) s in
   try_move_lamports (PAccount.is_native (deref PAccount.t s i)) i j n s) =
  (source_amount ←? ok_or (checked_sub (amount a1) n) Overflow;
   destination_amount ←? ok_or (checked_add u64_MAX (amount b) n) Overflow;
   s ←? try_move_lamports (is_native (with_amount source_amount a1)) i j n s;
   d ←? Ret (Account_pack (with_amount source_amount a1) (data s i));
   let s := set_data i d s in
   d ←? Ret (Account_pack (with_amount destination_amount b) (data s j));
   Ret (Ok (set_data j d s))).
Proof.
  intros Hi Hj Hne Ha Hb Hsa Hsb Hmint (Hwf1 & _ & _ & Ham & _ & Hres) [Hn0 Hn] Hle.
  destruct (account_stored accounts s Hs j b Hj Hb) as (Hwfb & Hwpb & _). destruct (account_stored accounts s Hs i a Hi Ha) as (Hwfa & Hwpa & _).
  assert (WfAccount (with_amount (amount a - n) a1)) as Hwf2.
  { destruct Hwf1; split; try done. destruct Hwfa as [_ _ [? ?] _ _ _ _]. unfold is_u64. simpl. lia. }
  assert (is_native (with_amount (amount a - n) a1) = is_native a) as Hnat by (unfold is_native; simpl; by rewrite Hres).
  pose proof (move_tokens i j a1 a b n (amount a - n) Hi Hj Hne Hb Ha Hwf1) as Hmove. cbv zeta in Hmove |- *.
  transitivity (s ←? Ret (Ok (put j (merge_account (with_amount (wrapping_add_u64 (amount b) n) b) (struct j))
      (put i (merge_account (with_amount (amount a - n) a1) (struct i)) s)));
    try_ (try_move_lamports (PAccount.is_native (deref PAccount.t s i)) i j n s) (λ s, Ret (Ok s))).
  { rewrite <-Hmove, try_assoc. apply try_same. intros p _. rewrite try_Ok. by destruct (try_move_lamports _ _ _ _ _) as [[]| |]. }
  rewrite try_Ok. unfold deref. rewrite !data_put, decide_False, decide_True by congruence.
  rewrite PAccount_of_to by (by apply WfPAccount_merge).
  rewrite (reads_is_native _ _ (merge_reads _ (struct i) Hwf2)), Hnat, !move_lamports_put, Ham.
  unfold ok_or at 1. unfold checked_sub at 1. rewrite (proj2 (Z.leb_le n _)), try_Ok, Hnat by lia.
  destruct (Z.leb_spec (amount b + n) u64_MAX) as [Hfit|Hov].
  - unfold ok_or, checked_add. rewrite (proj2 (Z.leb_le _ _)), try_Ok by lia. apply try_same. intros t Ht.
    pose proof (data_try_move_lamports _ _ _ _ _ _ i Ht). pose proof (data_try_move_lamports _ _ _ _ _ _ j Ht).
    rewrite (pack_two_accounts i j a _ b _ t) by done.
    unfold wrapping_add_u64. rewrite Z.mod_small; [done|]. destruct Hwfb as [_ _ [? ?] _ _ _ _]. unfold u64_MAX in *. lia.
  - rewrite (move_lamports_overflow i j a b n) by done. unfold ok_or, checked_add. by rewrite (proj2 (Z.leb_gt _ _)) by lia.
Qed.

Lemma data_same_key t i j : key i = key j → data t i = data t j.
Proof. intros E. unfold data, info_account. by rewrite E. Qed.

Lemma try_fail_false A e (k : unit → outcome (result A ProgramError)) : try_ (fail_if false e) k = k tt.
Proof. apply try_Ok. Qed.

Lemma set_lamports_id info t : data t info ≠ [] → set_lamports info (lamports t info) t = t.
Proof.
  intros Hd. destruct t as [m r]. unfold set_lamports, update_mem, lamports, data, info_account, account_at in *.
  cbn [mem return_data] in *. f_equal. apply insert_id. destruct (m !! key info) as [a|]; [|done]. by destruct a.
Qed.

Lemma account_nonempty i a : holds_account (data s i) a → data s i ≠ [].
Proof. intros [Hl _] E. by rewrite E in Hl. Qed.

Lemma move_no_lamports native i j a b :
  j ∈ accounts → key i ≠ key j → holds_account (data s i) a → holds_account (data s j) b → i ∈ accounts →
  try_move_lamports native i j 0 s = Ret (Ok s).
Proof.
  intros Hj Hne Ha%account_nonempty Hb%account_nonempty Hi. destruct native; [|done].
  pose proof (infos_lamports _ _ (shaped_ok _ _ Hs) i Hi) as [? _].
  pose proof (infos_lamports _ _ (shaped_ok _ _ Hs) j Hj) as [_ ?].
  unfold try_move_lamports, ok_or, checked_sub, checked_add. rewrite (proj2 (Z.leb_le 0 _)), try_Ok, Z.sub_0_r by lia.
  rewrite set_lamports_id, Z.add_0_r by done. rewrite (proj2 (Z.leb_le _ _)), try_Ok by lia.
  by rewrite set_lamports_id.
Qed.

(** No tokens: nothing changes but what the delegate spent. *)
Lemma transfer_nothing i j a a1 b :
  i ∈ accounts → j ∈ accounts → key i ≠ key j → holds_account (data s i) a → holds_account (data s j) b →
  spent_frame a a1 →
  (source_amount ←? ok_or (checked_sub (amount a1) 0) Overflow;
   destination_amount ←? ok_or (checked_add u64_MAX (amount b) 0) Overflow;
   s ←? try_move_lamports (is_native (with_amount source_amount a1)) i j 0 s;
   d ←? Ret (Account_pack (with_amount source_amount a1) (data s i));
   let s := set_data i d s in
   d ←? Ret (Account_pack (with_amount destination_amount b) (data s j));
   Ret (Ok (set_data j d s))) = Ret (Ok (put i (merge_account a1 (struct i)) s)).
Proof.
  intros Hi Hj Hne Ha Hb (Hwf1 & _). destruct (account_stored accounts s Hs j b Hj Hb) as (Hwf & _ & _ & Hput).
  destruct Hwf1 as [_ _ [? _] _ _ _ _]. destruct Hwf as [_ _ [_ ?] _ _ _ _].
  unfold ok_or, checked_sub, checked_add. rewrite (proj2 (Z.leb_le 0 _)), try_Ok, Z.sub_0_r, Z.add_0_r by lia.
  rewrite (proj2 (Z.leb_le _ _)), try_Ok by lia.
  rewrite (move_no_lamports _ i j a b), try_Ok by done.
  rewrite (pack_two_accounts i j a _ b _ s) by done. rewrite !with_amount_id.
  by rewrite put_commute, Hput by congruence.
Qed.

(** The authority is known: what is left of a transfer, with both ends. *)
Lemma transfer_end i j a a1 b n :
  i ∈ accounts → j ∈ accounts → key i ≠ key j → holds_account (data s i) a → holds_account (data s j) b →
  state a ≠ Uninitialized → state b ≠ Uninitialized → mint a = mint b → spent_frame a a1 → is_u64 n → n ≤ amount a →
  (let s := put i (merge_account a1 (struct i)) s in
   if n =? 0 then
     '_ ←? PToken.check_account_owner i s; '_ ←? PToken.check_account_owner j s; Ret (Ok s)
   else
     let s := modify i (PAccount.set_amount (amount a - n)) s in
     destination_account ←? Ret (load_mut_unchecked PAccount.t (data s j));
     let s := modify j (PAccount.set_amount (wrapping_add_u64 (PAccount.amount destination_account) n)) s in
     try_move_lamports (PAccount.is_native (deref PAccount.t s i)) i j n s) =
  ('_ ←? (if n =? 0 then '_ ←? check_account_owner P i s; check_account_owner P j s else Ret (Ok tt));
   source_amount ←? ok_or (checked_sub (amount a1) n) Overflow;
   destination_amount ←? ok_or (checked_add u64_MAX (amount b) n) Overflow;
   s ←? try_move_lamports (is_native (with_amount source_amount a1)) i j n s;
   d ←? Ret (Account_pack (with_amount source_amount a1) (data s i));
   let s := set_data i d s in
   d ←? Ret (Account_pack (with_amount destination_amount b) (data s j));
   Ret (Ok (set_data j d s))).
Proof.
  intros Hi Hj Hne Ha Hb Hsa Hsb Hmint Hf Hn Hle. cbv zeta. destruct (Z.eqb_spec n 0) as [->|Hn0].
  - rewrite !check_account_owner_put, try_assoc. apply try_same. intros [] _. apply try_same. intros [] _.
    by rewrite (transfer_nothing i j a).
  - rewrite try_Ok. by apply transfer_tail.
Qed.

(** A transfer of [n] tokens from [i] to [j]. *)
Ltac reads := repeat match goal with Hr : reads_account _ _ |- _ => progress (reads_in Hr) end.
Ltac transfer_case i j auth n a b :=
  unfold PToken.same_account, cmp_pubkeys;
  destruct (Z.eqb_spec (key i) (key j)) as [Hkey|Hkey]; cbn [negb orb];
  [ rewrite <-(data_same_key s i j Hkey); loads_account i a; reads;
    rewrite orb_diag, Z.eqb_refl, !try_assoc; checks; rewrite try_checked_sub; checks; cbn [negb]; rewrite ?try_fail_false; checks;
    apply (authority_same i a auth _ n false); [inf|inf|done|done|];
    let Hf := fresh in let Ha1 := fresh in intros a1 Hf Ha1; rewrite (Ha1 eq_refl);
    match goal with Hput : put i _ s = s |- _ => rewrite Hput end;
    rewrite !check_account_owner_same, ?try_assoc; done
  | loads_account i a; reads; rewrite ?try_assoc; loads_account j b; reads;
    assert ((if is_frozen a then Ok true else Ok (is_frozen b)) = Ok (is_frozen a || is_frozen b) :> result bool ProgramError)
      as -> by (by destruct (is_frozen a));
    nexts; rewrite ?try_assoc; checks; rewrite try_checked_sub, ?try_assoc; checks; rewrite ?try_assoc; checks; nexts; checks;
    apply (authority_same i a auth _ n true); [inf|inf|done|done|];
    let Hf := fresh in intros a1 Hf _; apply (transfer_end i j a a1 b n); try inf; try done;
    [by apply Z.eqb_eq, negb_false_iff | by apply Z.ltb_ge] ].

Lemma transfer_same l n d : accounts = l → is_u64 n → PToken.shared_transfer l n d s = process_transfer P l n d s.
Proof.
  intros Hacc Hn. unfold PToken.shared_transfer, process_transfer.
  destruct d as [d|]; unfold PToken.transfer_accounts, next_mint.
  - destruct l as [|i1 [|i2 [|i3 [|i4 l]]]]; nexts; try reflexivity.
    transfer_case i1 i3 i4 n a b.
  - destruct l as [|i1 [|i2 [|i3 l]]]; nexts; try reflexivity. transfer_case i1 i2 i3 n a b.
Qed.
End handlers.
