(* ===== verification/PTokenDispatch.v ===== *)
(** p-token reads an instruction as the token program does, and dispatches it to the
    same handler; a ledger of the token program has the shape this needs. *)

From S2P Require Import Prelude Bytes TransactionContext TransactionContextProps TokenState.
From S2P Require Import TokenStateProps TokenInstruction TokenAmount TokenProcessor.
From S2P Require Import TokenSpec TokenRefine TokenInv PTokenState PToken PTokenView.
From S2P Require Import PTokenEquiv PTokenHandlers.

(** * Reading the data of an instruction *)

Section parse.
Context `{Pinocchio} {A : Type} (k' : TokenInstruction → outcome (result A ProgramError)).

Lemma parse_amount d (C : Z → TokenInstruction) (k : Z → outcome (result A ProgramError)) :
  Bytes d → (∀ n, is_u64 n → k n = k' (C n)) →
  try_ (Ret (PToken.unpack_amount d)) k = try_ (Ret ('(amount, _) ←! Instr.unpack_u64 d; Ok (C amount))) k'.
Proof.
  intros Hd Hk. unfold PToken.unpack_amount, Instr.unpack_u64, PToken.U64_BYTES, U64_BYTES.
  destruct (8 <=? length d)%nat eqn:Hle; [|done]. apply (take_drop_inv 8 d Hd) in Hle as (? & ? & _).
  cbn [and_then]. rewrite !try_Ok. apply Hk. by apply is_u64_of_bytes.
Qed.

Lemma parse_amount_decimals d (C : Z → Z → TokenInstruction) (k : Z * Z → outcome (result A ProgramError)) :
  Bytes d → (∀ n x, is_u64 n → is_byte x → k (n, x) = k' (C n x)) →
  try_ (Ret (PToken.unpack_amount_and_decimals d)) k =
  try_ (Ret ('(amount, decimals, _) ←! Instr.unpack_amount_decimals d; Ok (C amount decimals))) k'.
Proof.
  intros Hd Hk. unfold PToken.unpack_amount_and_decimals, Instr.unpack_amount_decimals, Instr.unpack_u64, PToken.U64_BYTES, U64_BYTES.
  destruct (8 <=? length d)%nat eqn:Hle; [|apply Nat.leb_gt in Hle; rewrite (proj2 (Nat.leb_gt 9 _)) by lia; done].
  cbn [and_then]. pose proof (proj1 (Nat.leb_le _ _) Hle) as Hlen.
  apply (take_drop_inv 8 d Hd) in Hle as (? & ? & Hdrop & _). destruct (drop 8 d) as [|x rest] eqn:Edrop.
  - cbn [Instr.split_first and_then]. apply (f_equal length) in Edrop. rewrite length_drop in Edrop. cbn [length] in Edrop.
    by rewrite (proj2 (Nat.leb_gt 9 _)) by lia.
  - cbn [Instr.split_first and_then]. assert (d !! 8%nat = Some x) as Hx.
    { replace 8%nat with (8 + 0)%nat by done. rewrite <-lookup_drop, Edrop. done. }
    pose proof (lookup_lt_Some _ _ _ Hx). rewrite (proj2 (Nat.leb_le 9 _)), Hx, !try_Ok by lia.
    apply Hk; [by apply is_u64_of_bytes|]. by apply Forall_cons in Hdrop as [? _].
Qed.

Lemma parse_pubkey d (C : Pubkey → TokenInstruction) (k : Pubkey → outcome (result A ProgramError)) :
  Bytes d → (∀ x, is_key x → k x = k' (C x)) →
  (if (32 <=? length d)%nat then k (PToken.pubkey_at 0 d) else Ret (TokenErr InvalidInstruction)) =
  try_ (Ret ('(owner, _) ←! Instr.unpack_pubkey d; Ok (C owner))) k'.
Proof.
  intros Hd Hk. unfold Instr.unpack_pubkey, PToken.pubkey_at. rewrite drop_0. destruct (32 <=? length d)%nat eqn:Hle; [|done].
  apply (take_drop_inv 32 d Hd) in Hle as (? & ? & _). cbn [and_then]. rewrite try_Ok. apply Hk. by apply is_key_of_bytes.
Qed.

Lemma parse_m d (C : Z → TokenInstruction) (k : Z → outcome (result A ProgramError)) :
  Bytes d → (∀ x, is_byte x → k x = k' (C x)) →
  try_ (ok_or (head d) InvalidInstruction) k = try_ (Ret ('(m, _) ←! Instr.split_first d; Ok (C m))) k'.
Proof.
  intros Hd Hk. destruct d as [|m d]; [done|]. apply Forall_cons in Hd as [? _].
  cbn [head Instr.split_first and_then]. unfold ok_or. rewrite !try_Ok. by apply Hk.
Qed.

(** An optional key at [offset], its tag first. *)
Lemma parse_pubkey_option d offset x :
  d !! offset = Some x →
  Instr.unpack_pubkey_option (drop offset d) =
    if bool_decide (d !! offset = Some 0) then Ok (None, drop (S offset) d)
    else if bool_decide (d !! offset = Some 1) && (S offset + 32 <=? length d)%nat
    then Ok (Some (PToken.pubkey_at (S offset) d), drop (S offset + 32) d)
    else TokenErr InvalidInstruction.
Proof.
  intros Hx. rewrite Hx, (drop_S d x offset Hx). unfold Instr.unpack_pubkey_option, PToken.pubkey_at.
  assert ((32 <=? length (drop (S offset) d))%nat = (S offset + 32 <=? length d)%nat) as ->.
  { apply eq_true_iff_eq. rewrite !Nat.leb_le, length_drop. lia. }
  destruct (decide (x = 0)) as [->|Hx0]; [done|].
  destruct (decide (x = 1)) as [->|Hx1]; [cbn [andb bool_decide]; rewrite bool_decide_false, drop_drop by congruence; done|].
  rewrite !bool_decide_false by congruence. cbn [andb]. destruct x as [|[| |]|]; done.
Qed.

Lemma pubkey_at_key d offset : Bytes d → (offset + 32 <= length d)%nat → is_key (PToken.pubkey_at offset d).
Proof.
  intros Hd Hle. apply is_key_of_bytes; [by apply Forall_take, Forall_drop|]. rewrite length_take, length_drop. lia.
Qed.

Lemma parse_initialize_mint d (C : Z → Pubkey → option Pubkey → TokenInstruction)
    (k : Z * Pubkey * option Pubkey → outcome (result A ProgramError)) :
  Bytes d → (∀ n x y, is_byte n → is_key x → opt_ok is_key y → k (n, x, y) = k' (C n x y)) →
  try_ (Ret (PToken.unpack_initialize_mint d)) k =
  try_ (Ret ('(decimals, rest) ←! Instr.split_first d;
             '(mint_authority, rest) ←! Instr.unpack_pubkey rest;
             '(freeze_authority, _) ←! Instr.unpack_pubkey_option rest;
             Ok (C decimals mint_authority freeze_authority))) k'.
Proof.
  intros Hd Hk. unfold PToken.unpack_initialize_mint. destruct d as [|n d]; [done|].
  pose proof (proj1 (Forall_cons _ _ _) Hd) as [Hn Hd']. cbn [Instr.split_first and_then]. unfold Instr.unpack_pubkey.
  destruct (32 <=? length d)%nat eqn:Hle;
    [|apply Nat.leb_gt in Hle; rewrite (proj2 (Nat.leb_gt 34 _)) by (cbn [length]; lia); done].
  pose proof (take_drop_inv 32 d Hd' Hle) as (? & ? & _). cbn [and_then].
  destruct (d !! 32%nat) as [x|] eqn:Hx.
  - rewrite (parse_pubkey_option d 32 x Hx). pose proof (lookup_lt_Some _ _ _ Hx).
    rewrite (proj2 (Nat.leb_le 34 _)) by (cbn [length]; lia). change ((n :: d) !! 33%nat) with (d !! 32%nat).
    change (66 <=? length (n :: d))%nat with (33 + 32 <=? length d)%nat.
    change (PToken.pubkey_at 34 (n :: d)) with (PToken.pubkey_at 33 d).
    destruct (bool_decide (d !! 32%nat = Some 0)); [cbn [and_then]; rewrite !try_Ok; apply Hk; [done|by apply is_key_of_bytes|done]|].
    destruct (_ && _) eqn:Hb; [|done]. cbn [and_then]. rewrite !try_Ok. apply Hk; [done|by apply is_key_of_bytes|].
    intros y [= <-]. apply andb_true_iff in Hb as [_ Hb%Nat.leb_le]. apply pubkey_at_key; [done|lia].
  - apply lookup_ge_None in Hx. apply Nat.leb_le in Hle. rewrite (proj2 (Nat.leb_gt 34 _)) by (cbn [length]; lia).
    rewrite drop_ge by lia. done.
Qed.

Lemma parse_set_authority d (C : AuthorityType → option Pubkey → TokenInstruction)
    (k : AuthorityType * option Pubkey → outcome (result A ProgramError)) :
  Bytes d → (∀ t y, opt_ok is_key y → k (t, y) = k' (C t y)) →
  try_ (Ret (PToken.unpack_set_authority d)) k =
  try_ (Ret ('(t, rest) ←! Instr.split_first d;
             authority_type ←! AuthorityType_from t;
             '(new_authority, _) ←! Instr.unpack_pubkey_option rest;
             Ok (C authority_type new_authority))) k'.
Proof.
  intros Hd Hk. unfold PToken.unpack_set_authority. destruct d as [|t d]; [done|].
  apply Forall_cons in Hd as [_ Hd]. cbn [Instr.split_first and_then]. destruct d as [|x d].
  - unfold AuthorityType_from. by destruct t as [|[[]|[]|]|].
  - change (2 <=? length (t :: x :: d))%nat with true. change (default 0 ((t :: x :: d) !! 0%nat)) with t. cbn iota. destruct (AuthorityType_from t) as [ty|e]; [|done]. cbn [and_then].
    pose proof (parse_pubkey_option (x :: d) 0 x eq_refl) as Hp. rewrite drop_0 in Hp. rewrite Hp.
    change ((t :: x :: d) !! 1%nat) with ((x :: d) !! 0%nat). change (34 <=? length (t :: x :: d))%nat with (1 + 32 <=? length (x :: d))%nat.
    change (PToken.pubkey_at 2 (t :: x :: d)) with (PToken.pubkey_at 1 (x :: d)).
    destruct (bool_decide ((x :: d) !! 0%nat = Some 0)); [cbn [and_then]; rewrite !try_Ok; by apply Hk|].
    destruct (_ && _) eqn:Hb; [|done]. cbn [and_then]. rewrite !try_Ok. apply Hk.
    intros y [= <-]. apply andb_true_iff in Hb as [_ Hb%Nat.leb_le]. apply pubkey_at_key; [done|lia].
Qed.

End parse.

(** * Dispatch *)

Section dispatch.
Context `{TokenSdk, !TokenSdkLaws, Pinocchio, !PinocchioLaws}.
Abbreviation P := PToken.TOKEN_PROGRAM_ID.

(** The text of an amount to read has a whole part that does not fit the buffer of
    p-token, with the decimals of the mint. *)
Definition ui_amount_too_long (accounts : list AccountInfo) (input : list Z) (s : State) : Prop :=
  ∃ ui_amount info m, input = 24 :: ui_amount ∧ head accounts = Some info ∧ holds_mint (data s info) m ∧
    (PToken.MAX_FORMATTED_DIGITS < length (split ascii_dot ui_amount).1 + Z.to_nat (decimals m))%nat.

(** The handlers, one by one. *)
Ltac handler Hs :=
  first
    [ by apply (transfer_same _ _ Hs) | by apply (approve_same _ _ Hs) | by apply (mint_to_same _ _ Hs)
    | by apply (burn_same _ _ Hs) | by apply (revoke_same _ _ Hs) | by apply (toggle_same _ _ Hs)
    | by apply (set_authority_same _ _ Hs) | by apply (close_account_same _ _ Hs)
    | by apply (sync_native_same _ _ Hs) | by apply (initialize_mint_same _ _ Hs)
    | by apply (initialize_account_same _ _ Hs) | by apply (initialize_multisig_same _ _ Hs)
    | by apply (initialize_immutable_owner_same _ _ Hs) | by apply (get_account_data_size_same _ _ Hs)
    | by apply (amount_to_ui_amount_same _ _ Hs) ].

Lemma inner_process_same accounts input s :
  shaped accounts s → Bytes input → head input ≠ Some 38 → head input ≠ Some 24 →
  PToken.inner_process_instruction accounts input s = process P accounts input s.
Proof.
  intros Hs Hb Htag Hui. unfold process. destruct input as [|tag rest]; [done|].
  apply Forall_cons in Hb as [_ Hb]. unfold Instr.unpack. cbn [Instr.split_first and_then].
  unfold PToken.inner_process_instruction, PToken.inner_process_remaining_instruction.
  repeat match goal with
  | |- context [match ?x with _ => _ end] => is_var x; match type of x with Z => destruct x | positive => destruct x end
  end; try done.
  all: try (apply parse_amount; [done|]; intros n Hn; cbn [dispatch]).
  all: try (apply parse_amount_decimals; [done|]; intros n x Hn Hx; cbn [dispatch]).
  all: try (apply parse_m; [done|]; intros m Hm; cbn [dispatch]).
  all: try (apply parse_initialize_mint; [done|]; intros n x y Hn Hx Hy; cbn [dispatch]).
  all: try (apply parse_set_authority; [done|]; intros t y Hy; cbn [dispatch]).
  all: rewrite ?try_Ok; cbn [dispatch]; try handler Hs.
  - apply (parse_pubkey _ rest InitializeAccount3 (λ k, PToken.shared_initialize_account accounts (Some k) false s)); [done|].
    intros x Hx. apply (initialize_account_same _ _ Hs); [done|]. by intros ? [= <-].
  - apply (parse_pubkey _ rest InitializeAccount2 (λ k, PToken.shared_initialize_account accounts (Some k) true s)); [done|].
    intros x Hx. apply (initialize_account_same _ _ Hs); [done|]. by intros ? [= <-].
Qed.

Lemma inner_process_cases accounts input s :
  shaped accounts s → Bytes input → head input ≠ Some 38 →
  PToken.inner_process_instruction accounts input s = process P accounts input s ∨
  ui_amount_too_long accounts input s ∧ PToken.inner_process_instruction accounts input s = Ret (Err InvalidArgument).
Proof.
  intros Hs Hb Htag. destruct (decide (head input = Some 24)) as [Hui|Hui]; [|left; by apply inner_process_same].
  destruct input as [|? rest]; [done|]. injection Hui as ->.
  unfold process, Instr.unpack. cbn [Instr.split_first and_then].
  cbn [PToken.inner_process_instruction PToken.inner_process_remaining_instruction].
  unfold PToken.process_ui_amount_to_amount. destruct (valid_utf8 rest); [|by left].
  cbn [and_then]. rewrite !try_Ok. cbn [dispatch].
  destruct (ui_amount_to_amount_cases accounts s Hs accounts rest eq_refl) as [E|[(info & m & Hlong) E]]; [by left|].
  right. split; [|done]. by exists rest, info, m.
Qed.

End dispatch.
