(* ===== verification/PTokenInv.v ===== *)
(** p-token on a ledger of the token program: the accounts have the shape its unchecked
    reads rely on, and every instruction, batches included, returns and keeps the
    invariant of the ledger. *)

From S2P Require Import Prelude Bytes TransactionContext TransactionContextProps TokenState.
From S2P Require Import TokenStateProps TokenInstruction TokenAmount TokenProcessor.
From S2P Require Import TokenSpec TokenRefine TokenInv TokenConserve TokenTotal PTokenState.
From S2P Require Import PToken PTokenView PTokenEquiv PTokenHandlers PTokenDispatch.

(** The lengths of the accounts that the program reads. *)
Definition token_len (n : nat) : Prop := n = Account_LEN ∨ n = Mint_LEN ∨ n = Multisig_LEN.

(** The accounts of these lengths belong to the program. *)
Definition owned_infos (P : Pubkey) (accounts : list AccountInfo) (s : State) : Prop :=
  ∀ info, info ∈ accounts → token_len (length (data s info)) → info_owner s info = P.

Section shape.
Context `{TokenSdk, !TokenSdkLaws} (P : Pubkey).
Context (accounts : list AccountInfo) (s : State).
Hypothesis Hinv : token_inv P (mem s).
Hypothesis Hkeys : ∀ info, info ∈ accounts → is_key (key info).
Hypothesis Howned : owned_infos P accounts s.

Lemma inv_infos_ok : infos_ok accounts s.
Proof. split; [done|..]; intros info _; apply Hinv. Qed.

Lemma info_token_of info a :
  info ∈ accounts → holds_account (data s info) a → state a ≠ Uninitialized →
  token_of P (account_at (mem s) (key info)) = Some a.
Proof.
  intros Hin Ha Hst. apply token_of_holds. split_and!; [|done|done]. apply Howned; [done|]. left. apply Ha.
Qed.

Hypothesis P_nonzero : P ≠ 0.

Lemma balance_bounds k a :
  token_of P (account_at (mem s) k) = Some a → mint a ≠ native_mint_id →
  ∃ m, mint_of P (account_at (mem s) (mint a)) = Some m ∧ is_u64 (supply m) ∧
    amount a ≤ supply m ∧
    ∀ j b, j ≠ k → token_of P (account_at (mem s) j) = Some b → mint b = mint a → amount a + amount b ≤ supply m.
Proof.
  intros Ha Hmint. destruct (inv_mint P _ Hinv k a Ha Hmint) as [m Hm]. exists m.
  pose proof (inv_supply P _ Hinv _ m Hm Hmint) as Hsup.
  assert (∀ i, 0 ≤ balance P (mint a) (account_at (mem s) i)) as Hpos.
  { intros i. unfold balance. destruct (token_of P (account_at (mem s) i)) as [t|] eqn:Ht; [|done].
    apply token_of_holds in Ht as (_ & [Hl Ht] & _). destruct (_ =? _); [|done].
    destruct (Account_pack_unpack t (acc_data (account_at (mem s) i))) as [[_ _ [? _] _ _ _ _] _]; [apply Hinv|done..]. }
  assert (∀ i t, token_of P (account_at (mem s) i) = Some t → mint t = mint a →
    balance P (mint a) (account_at (mem s) i) = amount t) as Hbal.
  { intros i t Ht E. unfold balance. by rewrite Ht, (proj2 (Z.eqb_eq _ _)). }
  split_and!; [done|..].
  - apply mint_of_holds in Hm as (_ & [Hl Hm] & _). by destruct (Mint_pack_unpack m (acc_data (account_at (mem s) (mint a)))) as [[] _]; [apply Hinv|..].
  - rewrite Hsup, <-(Hbal k a) by done. apply (total_nonneg_le _ (balance_default_0 P P_nonzero _)), Hpos.
  - intros j b Hne Hb Hmb. rewrite Hsup, <-(Hbal k a), <-(Hbal j b) by done. apply (total_nonneg_le_2 _ (balance_default_0 P P_nonzero _)); done.
Qed.

Lemma native_mint_of info a :
  info ∈ accounts → holds_account (data s info) a → state a ≠ Uninitialized →
  (is_native a = true ↔ mint a = native_mint_id) ∧ (is_native a = true → amount a ≤ lamports s info).
Proof.
  intros Hin Ha Hst. destruct (ok_native P _ (inv_account P _ Hinv (key info)) a) as [Hn Hr]; [by apply info_token_of|].
  split; [tauto|]. unfold is_native. intros Hs. destruct (is_native_reserve a) as [r|] eqn:E; [|done].
  destruct (Hr r eq_refl). change (acc_lamports _) with (lamports s info) in *. lia.
Qed.
End shape.

(** * What an instruction leaves of the other accounts *)

(** Owners and lengths stay, and so do accounts of other programs but for lamports
    that they receive. *)
Record kept_account (P : Pubkey) (a a' : AccountSharedData) : Prop := {
  kept_owner : acc_owner a' = acc_owner a;
  kept_executable : acc_executable a' = acc_executable a;
  kept_length : length (acc_data a') = length (acc_data a);
  kept_foreign : acc_owner a ≠ P → acc_data a' = acc_data a ∧ acc_lamports a ≤ acc_lamports a';
}.
Definition kept (P : Pubkey) (s s' : State) : Prop :=
  ∀ k, kept_account P (account_at (mem s) k) (account_at (mem s') k).

#[local] Instance kept_preorder P : PreOrder (kept P).
Proof.
  split; [intros s k; by split|]. intros s1 s2 s3 H12 H23 k. destruct (H12 k) as [Ho1 He1 Hl1 Hf1], (H23 k) as [Ho2 He2 Hl2 Hf2].
  split; [congruence..|]. intros Ho. destruct (Hf1 Ho) as [? ?]. destruct Hf2; [congruence|]. split; [congruence|lia].
Qed.

Lemma kept_set_data P info d s :
  info_owner s info = P → length d = length (data s info) → kept P s (set_data info d s).
Proof.
  intros Ho Hl k. cbn [mem set_data update_mem]. rewrite account_at_insert.
  destruct (decide (k = key info)) as [->|]; [|by split]. split; [done..|]. intros []. exact Ho.
Qed.

Lemma kept_set_lamports P info n s :
  info_owner s info = P ∨ lamports s info ≤ n → kept P s (set_lamports info n s).
Proof.
  intros Hn k. cbn [mem set_lamports update_mem]. rewrite account_at_insert.
  destruct (decide (k = key info)) as [->|]; [|by split]. split; [done..|]. intros Ho. split; [done|].
  destruct Hn as [Hn|Hn]; [by destruct Ho|exact Hn].
Qed.

(** The runtime accepts it, and the accounts of the program stay its own. *)
Record written (P : Pubkey) (s s' : State) : Prop := {
  written_allowed k : allowed P (account_at (mem s) k) (account_at (mem s') k);
  written_lengths k : acc_data (account_at (mem s') k) = [] ∨
    length (acc_data (account_at (mem s') k)) = length (acc_data (account_at (mem s) k)) ∧
    acc_owner (account_at (mem s') k) = acc_owner (account_at (mem s) k);
}.

Lemma kept_written P s s' : kept P s s' → written P s s'.
Proof.
  intros Hk. split; intros k; destruct (Hk k) as [Ho He Hl Hf]; [|by right].
  split; [|congruence]. intros Hne. destruct (Hf Hne). done.
Qed.

Lemma written_owned P accounts s s' : written P s s' → owned_infos P accounts s → owned_infos P accounts s'.
Proof.
  intros [_ Hl] Ho info Hin Hlen. destruct (Hl (key info)) as [E|[El Eo]].
  - change (acc_data _) with (data s' info) in E. rewrite E in Hlen. by destruct Hlen as [?|[?|?]].
  - change (info_owner s info = P) with (acc_owner (account_at (mem s) (key info)) = P) in *.
    etransitivity; [exact Eo|]. apply Ho; [done|]. by rewrite <-El in Hlen || (unfold data, info_account in *; rewrite El in Hlen).
Qed.

Lemma info_owner_set_lamports i n s j : info_owner (set_lamports i n s) j = info_owner s j.
Proof.
  unfold info_owner, info_account, set_lamports, update_mem. cbn [mem]. rewrite account_at_insert.
  by destruct (decide (key j = key i)) as [->|].
Qed.

Section written.
Context `{TokenSdk, !TokenSdkLaws} (P : Pubkey) (infos : list AccountInfo) (s : State).
Hypothesis Hok : infos_ok infos s.
Hypothesis Howned : owned_infos P infos s.

Lemma kept_write_account info a a' t :
  info ∈ infos → holds_account (data s info) a → data t info = data s info → info_owner t info = info_owner s info →
  kept P t (write_account info a' t).
Proof.
  intros Hin [Hl _] Hd Ho. apply kept_set_data.
  - rewrite Ho. apply Howned; [done|by left].
  - rewrite Hd, Hl. apply length_Account_pack; [by apply Hok|done].
Qed.

Lemma kept_write_mint info m m' t :
  info ∈ infos → holds_mint (data s info) m → data t info = data s info → info_owner t info = info_owner s info →
  kept P t (write_mint info m' t).
Proof.
  intros Hin [Hl _] Hd Ho. apply kept_set_data.
  - rewrite Ho. apply Howned; [done|by right; left].
  - rewrite Hd, Hl. apply length_Mint_pack; [by apply Hok|done].
Qed.

Lemma kept_move_lamports source destination n :
  info_owner s source = P → 0 ≤ n → kept P s (move_lamports source destination n s).
Proof.
  intros Ho Hn. unfold move_lamports. etrans; apply kept_set_lamports; [by left|right; lia].
Qed.

Lemma effect_written s' : effect P infos s s' → written P s s'.
Proof.
  intros Heff. destruct Heff as [| | | ? ? ? Hin _ Hm _ Hwf | | | | | | |source destination a a' b n Hin1 Hin2 Hne Ha Hsa Hb Hsb Hmint Hn Hle Hle2 Hsp Hz Hlam s1 s2
    |mint_info destination m b k n Hin1 Hin2 Hm ? Hb ? ? ? ? ? ? ? ? ? s1|source mint_info a a' m n Hin1 Hin2 Ha ? ? Hm ? ? ? ? ? ? ? s1
    |source destination a Hin1 Hin2 Hne Ha ? ? ? ? s1 s2| ];
    try (apply kept_written; match goal with
      | |- kept _ _ (write_account _ _ s) => by eapply kept_write_account
      | |- kept _ _ (write_mint _ _ s) => by eapply kept_write_mint
      end).
  - apply kept_written. intros k. by split.
  - apply kept_written, kept_set_data; [apply Howned; [done|right; right; apply Hm]|].
    rewrite (proj1 Hm). by apply Multisig_pack_wf.
  - apply kept_written. assert (data s1 source = data s source ∧ data s1 destination = data s destination ∧
      info_owner s1 source = info_owner s source ∧ info_owner s1 destination = info_owner s destination) as (?&?&?&?).
    { unfold s1, move_lamports. destruct (is_native a); [|done]. by rewrite !data_set_lamports, !info_owner_set_lamports. }
    transitivity s1; [unfold s1; destruct (is_native a); [|done]; apply kept_move_lamports; [apply Howned; [done|left; apply Ha]|apply Hn]|].
    transitivity s2; [by eapply kept_write_account|]. eapply kept_write_account; [done|exact Hb|..].
    + unfold s2, write_account. by rewrite data_set_data_ne by congruence.
    + unfold s2, write_account. by rewrite info_owner_set_data.
  - apply kept_written. transitivity s1; [by eapply kept_write_account|]. eapply kept_write_mint; [done|exact Hm|..]; unfold s1, write_account.
    + pose proof (mint_account_ne _ _ _ _ _ Hm Hb). by rewrite data_set_data_ne by congruence.
    + by rewrite info_owner_set_data.
  - apply kept_written. transitivity s1; [by eapply kept_write_account|]. eapply kept_write_mint; [done|exact Hm|..]; unfold s1, write_account.
    + pose proof (mint_account_ne _ _ _ _ _ Hm Ha). by rewrite data_set_data_ne by congruence.
    + by rewrite info_owner_set_data.
  - pose proof (infos_lamports _ _ Hok source Hin1) as [? _].
    assert (info_owner s source = P) as HoP by (apply Howned; [done|left; apply Ha]).
    split; intros k; unfold s2, s1; rewrite at_close by done; destruct (decide (k = key source)) as [->|].
    + split; [done|intros _; apply Forall_nil_2].
    + destruct (decide (k = key destination)) as [->|]; [|done]. split; [|done]. intros _. split_and!; [done..|].
      cbn [acc_lamports set_acc_lamports]. change (acc_lamports _) with (lamports s destination). lia.
    + by left.
    + right. by destruct (decide (k = key destination)) as [->|].
Qed.

End written.

(** * Instructions *)

Section ledger.
Context `{TokenSdk, !TokenSdkLaws} (P : Pubkey).
Hypothesis P_nonzero : P ≠ 0.
Hypothesis rent_positive : ∀ rent len, 0 < minimum_balance rent len.

Lemma zeroed_multisig : ∃ ms, MultisigPack.unpack_from_slice (replicate Multisig_LEN 0) = Ok ms ∧ multisig_n ms = 0.
Proof. eexists. split; [vm_compute; reflexivity|reflexivity]. Qed.

Lemma few_signers s info ms :
  token_inv P (mem s) → info_owner s info = P → holds_multisig (data s info) ms → multisig_n ms ≤ Z.of_nat MAX_SIGNERS.
Proof.
  intros Hinv Ho [Hl Hms]. destruct (ok_multisig P _ (inv_account P _ Hinv (key info)) Ho Hl) as (ms' & Hms' & Hz & Hi).
  change (acc_data _) with (data s info) in *. rewrite Hms in Hms'. injection Hms' as <-.
  destruct (multisig_is_initialized ms).
  - destruct (Hi eq_refl) as [_ Hn]. by apply andb_true_iff in Hn as [_ Hn%Z.leb_le].
  - specialize (Hz eq_refl). apply Zeroed_replicate in Hz. rewrite Hz, Hl in Hms.
    destruct zeroed_multisig as (ms0 & Hms0 & Hn). rewrite Hms0 in Hms. injection Hms as ->. rewrite Hn. done.
Qed.

Lemma process_keeps infos input s s' :
  token_inv P (mem s) → (∀ info, info ∈ infos → is_key (key info)) → owned_infos P infos s → Bytes input →
  process P infos input s = Ret (Ok s') → token_inv P (mem s') ∧ written P s s'.
Proof.
  intros Hinv Hkeys Ho Hb Hp. pose proof (inv_infos_ok P infos s Hinv Hkeys) as Hok.
  pose proof (process_effect P _ _ Hok _ _ Hb Hp) as Heff. pose proof (effect_written P infos s Hok Ho s' Heff) as Hw.
  split; [|done]. apply (inv_effect P P_nonzero infos s Hinv Hok rent_positive s' Heff). intros k. apply Hw.
Qed.

(** The lamports of an account change. *)
Lemma account_ok_lamports o x :
  account_ok P o → is_u64 x →
  (∀ t r, token_of P o = Some t → is_native_reserve t = Some r → amount t + r ≤ x) →
  (token_of P o ≠ None ∨ mint_of P o ≠ None → 0 < x) → account_ok P (set_acc_lamports x o).
Proof.
  intros [? ? ? ? ? Hnat Hkept] Hx Hr Hpos. split; [done|done|done|done|done|..].
  - intros t Ht. destruct (Hnat t Ht) as [Hn Hres]. split; [done|]. intros r Hrr. destruct (Hres r Hrr).
    split; [done|]. by apply Hr.
  - intros Hv. by apply Hpos.
Qed.

Lemma inv_lamports s s' :
  token_inv P (mem s) →
  (∀ k, ∃ x, account_at (mem s') k = set_acc_lamports x (account_at (mem s) k) ∧
     account_ok P (set_acc_lamports x (account_at (mem s) k))) →
  token_inv P (mem s').
Proof.
  intros Hinv Hk. apply (inv_views P P_nonzero (mem s)); [done|]. intros k. destruct (Hk k) as (x & -> & Hok). done.
Qed.

End ledger.

Section ptoken.
Context `{TokenSdk, !TokenSdkLaws, Pinocchio, !PinocchioLaws}.
Abbreviation P := PToken.TOKEN_PROGRAM_ID.

Lemma inv_shaped accounts s :
  P ≠ 0 → token_inv P (mem s) → (∀ info, info ∈ accounts → is_key (key info)) → owned_infos P accounts s →
  shaped accounts s.
Proof.
  intros HP Hinv Hkeys Howned.
  assert (∀ info a, info ∈ accounts → holds_account (data s info) a → state a ≠ Uninitialized → is_native a = false →
    mint a ≠ native_mint_id) as Hnn.
  { intros info a Hin Ha Hst Hna Hm. apply (native_mint_of P accounts s Hinv Howned info a Hin Ha Hst) in Hm. congruence. }
  split.
  - by apply (inv_infos_ok P).
  - intros info Hin Hl. apply (ok_account P _ (inv_account P _ Hinv (key info))); [|done]. apply Howned; [done|by left].
  - intros info Hin Hl. apply (ok_mint P _ (inv_account P _ Hinv (key info))); [|done]. apply Howned; [done|by right; left].
  - intros info Hin Hl. destruct (ok_multisig P _ (inv_account P _ Hinv (key info))) as (m & ? & ? & _); [|done|by exists m].
    apply Howned; [done|by right; right].
  - intros i j a b Hi Hj Hne Ha Hb Hsa Hsb Hm Hna.
    pose proof (info_token_of P accounts s Howned i a Hi Ha Hsa) as Ti. pose proof (info_token_of P accounts s Howned j b Hj Hb Hsb) as Tj.
    destruct (balance_bounds P s Hinv HP (key i) a Ti) as (m & _ & [_ ?] & _ & Hroom); [by apply (Hnn i)|].
    specialize (Hroom (key j) b ltac:(congruence) Tj ltac:(congruence)). lia.
  - intros i a Hi Ha Hst. by apply (native_mint_of P accounts).
  - intros i j a m Hi Hj Ha Hsa Hna Hm Him Hk.
    pose proof (info_token_of P accounts s Howned i a Hi Ha Hsa) as Ti.
    destruct (balance_bounds P s Hinv HP (key i) a Ti) as (m' & Hm' & _ & Hle & _); [by apply (Hnn i)|].
    assert (mint_of P (account_at (mem s) (key j)) = Some m) as Hmj.
    { apply mint_of_holds. split_and!; [|done|done]. apply Howned; [done|]. right. left. apply Hm. }
    rewrite Hk in Hmj. congruence.
Qed.
Hypothesis P_nonzero : P ≠ 0.
Hypothesis rent_positive : ∀ rent len, 0 < minimum_balance rent len.

Section instruction.
Context (accounts : list AccountInfo) (s : State).
Hypothesis Hinv : token_inv P (mem s).
Hypothesis Hkeys : ∀ info, info ∈ accounts → is_key (key info).
Hypothesis Howned : owned_infos P accounts s.

Lemma accounts_shaped : shaped accounts s.
Proof. by apply inv_shaped. Qed.

Lemma p_validate_owner_returns k auth rest : auth ∈ accounts → returns (PToken.validate_owner k auth rest s).
Proof.
  intros Hin. rewrite (validate_owner_same accounts s accounts_shaped) by done.
  apply validate_owner_returns. intros ms. by apply few_signers.
Qed.

(** * Excess lamports *)

Lemma withdraw_authority_returns source authority rest :
  source ∈ accounts → authority ∈ accounts → returns (PToken.withdraw_authority source authority rest s).
Proof.
  intros Hs Ha. unfold PToken.withdraw_authority. cbv zeta.
  destruct (_ =? LEN PAccount.t)%nat; [|destruct (_ =? LEN PMint.t)%nat; [|destruct (_ =? LEN PMultisig.t)%nat]].
  - apply returns_try; [apply returns_Ret|]. intros a _. apply returns_try; [apply returns_Ret|]. intros [] _.
    by apply p_validate_owner_returns.
  - apply returns_try; [apply returns_Ret|]. intros m _. destruct (PMint.mint_authority m); [by apply p_validate_owner_returns|].
    destruct (PToken.same_account source authority); apply returns_Ret.
  - by apply p_validate_owner_returns.
  - apply returns_Ret.
Qed.

(** The account belongs to the program and is not native. *)
Lemma withdraw_authority_Ok source authority rest u :
  source ∈ accounts → PToken.withdraw_authority source authority rest s = Ret (Ok u) →
  info_owner s source = P ∧
  ∀ t, token_of P (account_at (mem s) (key source)) = Some t → is_native_reserve t = None.
Proof.
  intros Hin Hw. unfold PToken.withdraw_authority in Hw. cbv zeta in Hw.
  change (LEN PAccount.t) with Account_LEN in Hw. change (LEN PMint.t) with Mint_LEN in Hw.
  change (LEN PMultisig.t) with Multisig_LEN in Hw.
  assert (∀ t, token_of P (account_at (mem s) (key source)) = Some t → length (data s source) = Account_LEN) as Hlen.
  { intros t (_ & [Hl _] & _)%token_of_holds. exact Hl. }
  destruct (Nat.eqb_spec (length (data s source)) Account_LEN) as [E1|E1].
  - split; [apply Howned; [done|by left]|]. intros t (_ & Ht & _)%token_of_holds.
    destruct (load_account accounts s accounts_shaped source Hin) as [(a & Ha & Hst & Hl & _)|(? & Hl & _)]; rewrite Hl in Hw; [|done].
    rewrite try_Ok in Hw. apply try_Ok_inv in Hw as (? & Hn & _). apply fail_if_Ok in Hn.
    destruct (account_stored accounts s accounts_shaped source a Hin Ha) as (Hwf & _).
    rewrite (reads_is_native _ _ (merge_reads a _ Hwf)) in Hn.
    destruct Ht as [_ Ht], Ha as [_ Ha]. change (acc_data _) with (data s source) in Ht.
    rewrite Ha in Ht. injection Ht as <-. unfold is_native in Hn. by destruct (is_native_reserve a).
  - destruct (Nat.eqb_spec (length (data s source)) Mint_LEN) as [E2|E2];
      [|destruct (Nat.eqb_spec (length (data s source)) Multisig_LEN) as [E3|E3]; [|done]].
    + split; [apply Howned; [done|by right; left]|]. intros t Ht%Hlen. done.
    + split; [apply Howned; [done|by right; right]|]. intros t Ht%Hlen. done.
Qed.

Lemma withdraw_returns l : accounts = l → returns (PToken.process_withdraw_excess_lamports l s).
Proof.
  intros Hl. unfold PToken.process_withdraw_excess_lamports.
  destruct l as [|source [|destination [|authority rest]]]; try apply returns_Ret.
  apply returns_try; [apply withdraw_authority_returns; rewrite Hl; set_solver|]. intros [] _.
  apply returns_try; [apply returns_Ret|]. intros rent _.
  apply returns_try; [apply returns_Ret|]. intros x _.
  apply returns_try; [apply returns_Ret|]. intros y _. apply returns_Ret.
Qed.

(** What is left is the reserve; the rest went to the destination. *)
Lemma withdraw_Ok l s' :
  PToken.process_withdraw_excess_lamports l s = Ret (Ok s') →
  ∃ source destination authority rest r, l = source :: destination :: authority :: rest ∧
    PToken.withdraw_authority source authority rest s = Ret (Ok tt) ∧
    0 < r ≤ lamports s source ∧
    let s1 := set_lamports source r s in
    let x := lamports s1 destination + (lamports s source - r) in
    x ≤ u64_MAX ∧ s' = set_lamports destination x s1.
Proof.
  unfold PToken.process_withdraw_excess_lamports. intros Hw.
  destruct l as [|source [|destination [|authority rest]]]; [done..|].
  apply try_Ok_inv in Hw as ([] & Ha & Hw). apply try_Ok_inv in Hw as (rent & _ & Hw).
  apply try_Ok_inv in Hw as (x & Hx & Hw). apply ok_or_Ok in Hx. unfold checked_sub in Hx.
  rewrite p_minimum_balance_spec in *. set (r := minimum_balance _ _) in *.
  assert (is_u64 r) as [? ?] by apply minimum_balance_u64. assert (0 < r) by apply rent_positive.
  destruct (Z.leb_spec r (lamports s source)) as [Hle|]; [|done]. injection Hx as <-. cbv zeta in Hw.
  assert ((lamports s source - (lamports s source - r)) mod 2 ^ 64 = r) as Hmod.
  { rewrite Z.mod_small; unfold u64_MAX in *; lia. }
  rewrite Hmod in Hw. apply try_Ok_inv in Hw as (y & Hy & Hw). apply ok_or_Ok in Hy. unfold checked_add in Hy.
  destruct (Z.leb_spec (lamports (set_lamports source r s) destination + (lamports s source - r)) u64_MAX); [|done].
  injection Hy as <-. injection Hw as <-. by exists source, destination, authority, rest, r.
Qed.

Lemma withdraw_keeps s' :
  PToken.process_withdraw_excess_lamports accounts s = Ret (Ok s') → token_inv P (mem s') ∧ written P s s'.
Proof.
  intros (source & destination & authority & rest & r & Hl & Ha & Hr & Hx & ->)%withdraw_Ok.
  apply withdraw_authority_Ok in Ha as [Ho Hn]; [|rewrite Hl; left].
  pose proof (infos_lamports _ _ (shaped_ok _ _ accounts_shaped) source ltac:(rewrite Hl; left)) as [_ Hu].
  pose proof (infos_lamports _ _ (shaped_ok _ _ accounts_shaped) destination ltac:(rewrite Hl; right; left)) as [Hd _].
  set (s1 := set_lamports source r s) in *. set (x := lamports s1 destination + _) in *. split.
  - apply (inv_lamports P P_nonzero s); [done|]. intros k. pose proof (inv_account P _ Hinv k) as Hok.
    cbn [mem set_lamports update_mem]. rewrite account_at_insert. destruct (decide (k = key destination)) as [->|Hk].
    + exists x. change (info_account s1 destination) with (account_at (mem s1) (key destination)).
      assert (account_at (mem s1) (key destination) = set_acc_lamports (lamports s1 destination) (account_at (mem s) (key destination)) ∧
        lamports s destination ≤ x) as [-> Hle].
      { unfold x, s1. rewrite lamports_set_lamports. cbn [mem set_lamports update_mem]. rewrite account_at_insert.
        destruct (decide (key destination = key source)) as [E|]; [|split; [unfold lamports, info_account; by destruct (account_at (mem s) (key destination))|lia]].
        rewrite E. split; [done|]. unfold lamports, info_account. rewrite E. unfold lamports, info_account in *. lia. }
      split; [done|]. apply account_ok_more; [done|exact Hle|]. unfold is_u64. lia.
    + unfold s1. cbn [mem set_lamports update_mem]. rewrite account_at_insert. destruct (decide (k = key source)) as [->|].
      * exists r. split; [done|]. apply account_ok_lamports; [done|unfold is_u64; lia| |lia].
        intros t r' Ht Hr'. specialize (Hn t Ht). congruence.
      * exists (acc_lamports (account_at (mem s) k)).
        assert (set_acc_lamports (acc_lamports (account_at (mem s) k)) (account_at (mem s) k) = account_at (mem s) k) as ->
          by (by destruct (account_at (mem s) k)). done.
  - apply kept_written. transitivity s1; [apply kept_set_lamports; by left|]. apply kept_set_lamports. right. unfold x. lia.
Qed.

(** * One instruction *)

(** Text that does not fit the buffer of p-token is refused. *)
Lemma ui_amount_keeps l rest :
  returns (PToken.process_ui_amount_to_amount l rest s) ∧
  ∀ s', PToken.process_ui_amount_to_amount l rest s = Ret (Ok s') → mem s' = mem s.
Proof.
  unfold PToken.process_ui_amount_to_amount, PToken.ui_amount_to_amount. split.
  - apply returns_try; [apply returns_Ret|]. intros ui _. destruct l as [|info l]; [apply returns_Ret|].
    apply returns_try; [apply returns_Ret|]. intros [] _. apply returns_try; [apply returns_Ret|]. intros m _.
    apply returns_try; intros; apply returns_Ret.
  - intros s' Hu. apply try_Ok_inv in Hu as (ui & _ & Hu). destruct l as [|info l]; [done|].
    apply try_Ok_inv in Hu as ([] & _ & Hu). apply try_Ok_inv in Hu as (m & _ & Hu).
    apply try_Ok_inv in Hu as (x & _ & Hu). by injection Hu as <-.
Qed.

Lemma inner_keeps input :
  (length accounts ≤ 255)%nat → Bytes input →
  ∃ r, PToken.inner_process_instruction accounts input s = Ret r ∧
    ∀ s', r = Ok s' → token_inv P (mem s') ∧ written P s s'.
Proof.
  intros Hlen Hb. destruct (decide (head input = Some 38)) as [H38|H38].
  { destruct input as [|? rest]; [done|]. injection H38 as ->. cbn [PToken.inner_process_instruction PToken.inner_process_remaining_instruction].
    destruct (withdraw_returns accounts eq_refl) as [r Hr]. exists r. split; [exact Hr|]. intros s' ->. by apply withdraw_keeps. }
  destruct (decide (head input = Some 24)) as [H24|H24].
  { destruct input as [|? rest]; [done|]. injection H24 as ->. cbn [PToken.inner_process_instruction PToken.inner_process_remaining_instruction].
    destruct (ui_amount_keeps accounts rest) as [[r Hr] Hm]. exists r. split; [exact Hr|]. intros s' ->. apply Hm in Hr. rewrite Hr.
    split; [done|]. apply kept_written. intros k. rewrite Hr. by split. }
  rewrite (inner_process_same accounts input s accounts_shaped Hb H38 H24).
  assert (returns (process P accounts input s)) as [r Hr].
  { unfold process. apply returns_try; [apply returns_Ret|]. intros i _. apply dispatch_returns; [done|].
    intros info ms _. by apply few_signers. }
  exists r. split; [done|]. intros s' ->. by eapply process_keeps.
Qed.

End instruction.

(** * Batches *)

Lemma batch_keeps fuel accounts input s :
  (length input < fuel)%nat → token_inv P (mem s) → (∀ info, info ∈ accounts → is_key (key info)) →
  owned_infos P accounts s → (length accounts ≤ 255)%nat → Bytes input →
  ∃ r, PToken.process_batch_loop fuel accounts input s = Ret r ∧ ∀ s', r = Ok s' → token_inv P (mem s').
Proof.
  revert accounts input s. induction fuel as [|fuel IH]; intros accounts input s Hf Hinv Hk Ho Hl Hb; [lia|].
  cbn [PToken.process_batch_loop]. unfold fail_if. destruct (length input <? PToken.IX_HEADER_SIZE)%nat; [by eexists|].
  rewrite try_Ok. set (off := (PToken.IX_HEADER_SIZE + _)%nat). set (n := Z.to_nat (default 0 (input !! 0%nat))).
  destruct ((length input <? off)%nat || (off =? PToken.IX_HEADER_SIZE)%nat) eqn:Hoff; [by eexists|]. rewrite try_Ok.
  apply orb_false_iff in Hoff as [Hoff%Nat.ltb_ge _].
  destruct (length accounts <? n)%nat; [by eexists|]. rewrite try_Ok.
  destruct (inner_keeps (take n accounts) s Hinv) with (input := drop PToken.IX_HEADER_SIZE (take off input)) as (r & -> & Hr).
  - intros info Hin. apply Hk. by apply subseteq_take in Hin.
  - intros info Hin. apply Ho. by apply subseteq_take in Hin.
  - rewrite length_take. lia.
  - by apply Forall_drop, Forall_take.
  - destruct r as [s'|e]; [|by eexists]. rewrite try_Ok. destruct (Hr s' eq_refl) as [Hinv' Hw].
    destruct (off =? length input)%nat; [exists (Ok s'); split; [done|]; by intros ? [= <-]|].
    apply IH; [|done|..].
    + rewrite length_drop. unfold off, PToken.IX_HEADER_SIZE in *. lia.
    + intros info Hin. apply Hk. by apply subseteq_drop in Hin.
    + apply (written_owned P _ s); [done|]. intros info Hin. apply Ho. by apply subseteq_drop in Hin.
    + rewrite length_drop. lia.
    + by apply Forall_drop.
Qed.
End ptoken.
