(* ===== verification/PTokenTheorems.v ===== *)
(** p-token against the token program: the same result on every instruction that both
    have, the same invariant of the ledger, and batches as sequences of instructions. *)

From Stdlib Require Import Strings.String.
From S2P Require Import Prelude Bytes TransactionContext TransactionContextProps.
From S2P Require Import TransactionExec TokenState TokenStateProps TokenInstruction.
From S2P Require Import TokenAmount TokenProcessor TokenSpec TokenRefine TokenInv.
From S2P Require Import TokenConserve TokenMachine TokenTotal TokenTheorems PTokenState.
From S2P Require Import PToken PTokenView PTokenEquiv PTokenHandlers PTokenDispatch.
From S2P Require Import PTokenInv.

Section theorems.
Context `{TokenSdk, !TokenSdkLaws, Pinocchio, !PinocchioLaws}.
Abbreviation P := PToken.TOKEN_PROGRAM_ID.

(** C4. On a ledger of the token program, an instruction that both programs have ends in
    the same state, or with the same error, in p-token as in the token program. The
    one exception is [UiAmountToAmount] on text that does not fit the buffer of
    p-token, which p-token refuses with [InvalidArgument]. The accounts of the
    instruction that have the length of a token account, a mint or a multisignature
    belong to the program. *)
Theorem ptoken_equivalent accounts input s :
  P ≠ 0 → token_inv P (mem s) → (∀ info, info ∈ accounts → is_key (key info)) → owned_infos P accounts s →
  Bytes input → head input ≠ Some 38 → head input ≠ Some 255 →
  PToken.process_instruction accounts input s = process P accounts input s ∨
  ui_amount_too_long accounts input s ∧ PToken.process_instruction accounts input s = Ret (Err InvalidArgument).
Proof.
  intros HP Hinv Hk Ho Hb H38 H255.
  assert (PToken.process_instruction accounts input s = PToken.inner_process_instruction accounts input s) as ->.
  { destruct input as [|tag rest]; [done|]. unfold PToken.process_instruction.
    by rewrite (proj2 (Z.eqb_neq tag 255)) by (intros ->; done). }
  apply inner_process_cases; [by apply inv_shaped|done..].
Qed.

(** C19. Every instruction of p-token, its batches and withdrawals included, returns, and
    leaves a ledger whose supplies are the sums of the balances. *)
Theorem ptoken_keeps_supply accounts input s :
  P ≠ 0 → (∀ rent len, 0 < minimum_balance rent len) →
  token_inv P (mem s) → (∀ info, info ∈ accounts → is_key (key info)) → owned_infos P accounts s →
  (length accounts ≤ 255)%nat → Bytes input →
  ∃ r, PToken.process_instruction accounts input s = Ret r ∧
    ∀ s', r = Ok s' → token_inv P (mem s') ∧
      ∀ k m, mint_of P (account_at (mem s') k) = Some m → k ≠ native_mint_id → supply m = held P k (mem s').
Proof.
  intros HP Hrent Hinv Hk Ho Hlen Hb.
  assert (∃ r, PToken.process_instruction accounts input s = Ret r ∧ ∀ s', r = Ok s' → token_inv P (mem s')) as (r & Hr & Hs).
  { unfold PToken.process_instruction. destruct input as [|tag rest]; [by eexists|]. destruct (tag =? 255).
    - apply Forall_cons in Hb as [_ Hb]. unfold PToken.process_batch. apply batch_keeps; (done || lia).
    - destruct (inner_keeps HP Hrent accounts s Hinv Hk Ho (tag :: rest) Hlen Hb) as (r & Hr & Hs). exists r. split; [done|].
      intros s' E. by apply Hs. }
  exists r. split; [done|]. intros s' E. split; [by apply Hs|]. intros k m. by apply inv_supply, Hs.
Qed.

(** The instructions of a batch, each with its accounts, and their bytes. *)
Definition batch_data (items : list (list AccountInfo * list Z)) : list Z :=
  concat ((λ item, Z.of_nat (length item.1) :: Z.of_nat (length item.2) :: item.2) <$> items).
Fixpoint run_batch (items : list (list AccountInfo * list Z)) (s : State) : outcome (result State ProgramError) :=
  match items with
  | [] => Ret (Ok s)
  | (accounts, instruction_data) :: items =>
      s ←? PToken.inner_process_instruction accounts instruction_data s;
      run_batch items s
  end.

Lemma batch_loop fuel items rest s :
  items ≠ [] → Forall (λ item, item.2 ≠ []) items → (length (batch_data items) < fuel)%nat →
  PToken.process_batch_loop fuel (concat items.*1 ++ rest) (batch_data items) s = run_batch items s.
Proof.
  revert items s. induction fuel as [|fuel IH]; intros [|[l d] items] s Hne Hd Hf; [done|lia|done|].
  apply Forall_cons in Hd as [Hd0 Hd]. cbn [snd] in Hd0. destruct d as [|b d]; [done|]. clear Hd0 Hne.
  set (d' := b :: d) in *. assert (0 < length d')%nat as Hpos by (simpl; lia).
  assert (batch_data ((l, d') :: items) = Z.of_nat (length l) :: Z.of_nat (length d') :: d' ++ batch_data items) as Hdata by done.
  rewrite Hdata in *. cbn [length] in Hf.
  assert (concat ((l, d') :: items).*1 ++ rest = l ++ (concat items.*1 ++ rest)) as -> by (by rewrite app_assoc). rewrite length_app in Hf.
  cbn [PToken.process_batch_loop run_batch]. unfold fail_if, PToken.IX_HEADER_SIZE.
  cbn [lookup list_lookup default from_option id]. rewrite !Nat2Z.id. cbn [length]. rewrite !length_app.
  rewrite (proj2 (Nat.ltb_ge _ 2)), try_Ok by lia. cbv zeta.
  rewrite (proj2 (Nat.ltb_ge _ (2 + _))), (proj2 (Nat.eqb_neq (2 + _) 2)) by lia. cbn [orb]. rewrite try_Ok.
  rewrite (proj2 (Nat.ltb_ge _ (length l))), try_Ok, take_app_length, drop_app_length by lia.
  assert (∀ x y, drop 2 (take (2 + length d') (x :: y :: d' ++ batch_data items)) = d') as Htake
    by (intros; exact (take_app_length d' (batch_data items))).
  assert (∀ x y, drop (2 + length d') (x :: y :: d' ++ batch_data items) = batch_data items) as Hdrop
    by (intros; exact (drop_app_length d' (batch_data items))).
  rewrite Htake, Hdrop.
  destruct (PToken.inner_process_instruction l d' s) as [[s'|e]| |]; [|done..]. rewrite !try_Ok.
  destruct items as [|item items]; [cbn [batch_data fmap list_fmap concat length]; by rewrite Nat.add_0_r, Nat.eqb_refl|].
  assert (0 < length (batch_data (item :: items)))%nat by (simpl; lia).
  rewrite (proj2 (Nat.eqb_neq _ _)) by lia. apply IH; [done..|lia].
Qed.

(** A batch runs its instructions one after the other, each on its own accounts. *)
Theorem batch_is_sequence items rest s :
  items ≠ [] → Forall (λ item, item.2 ≠ []) items →
  PToken.process_instruction (concat items.*1 ++ rest) (255 :: batch_data items) s = run_batch items s.
Proof. intros Hne Hd. unfold PToken.process_instruction, PToken.process_batch. cbn [Z.eqb Pos.eqb]. apply batch_loop; [done..|lia]. Qed.

End theorems.

(** Leading zeros past the buffer of p-token are read by the token program only. *)
Lemma long_amount_refused `{Pinocchio} :
  let zeros := replicate 258 ascii_zero in
  try_ui_amount_into_amount zeros 0 = Ok 0 ∧ PToken.try_ui_amount_into_amount zeros 0 = Err InvalidArgument.
Proof. split; vm_compute; reflexivity. Qed.

(** * Runs *)

Module PTokenDemo.

#[local] Existing Instance TokenDemo.rsdk.
#[local] Existing Instance TokenDemo.pack_api.
#[local] Existing Instance TokenDemo.sdk.
#[local] Existing Instance TokenDemo.sdk_laws.

#[local] Instance pinocchio : Pinocchio := {|
  pubkey_macro := {| pubkey s :=
    if String.eqb s "Gorbj8Dp27NkXMQUkeHBSmpf6iQ3yT4b2uVe8kM4s6br" then 7
    else if String.eqb s "So11111111111111111111111111111111111111112" then 555
    else if String.eqb s "1nc1nerator11111111111111111111111111111111" then 556 else 0 |};
  PRent := unit;
  from_account_info_unchecked _ _ := Ok tt;
  PRent_get := Ok tt;
  p_is_exempt _ lamports _ := 1 <=? lamports;
  p_minimum_balance _ _ := 1;
  close_unchecked a := {| acc_lamports := 0; acc_data := []; acc_owner := 0; acc_executable := acc_executable a |};
  logger_append_with_args _ amount precision :=
    if amount =? 0 then [ascii_zero] else amount_to_ui_amount_string amount precision;
|}.

#[local] Instance pinocchio_laws : PinocchioLaws.
Proof.
  unshelve (refine {| to_rent := id |}; try done). intros amount decimals _ _. cbn [logger_append_with_args pinocchio].
  destruct (Z.eqb_spec amount 0); auto.
Qed.

(** The ledger of the run above: 21 holds 70 tokens of mint 20 for 10, 22 holds 30. *)
Definition s8 : State := {| mem := TokenDemo.L8; return_data := [] |}.
Definition info (k : Pubkey) (signer : bool) : AccountInfo :=
  {| key := k; index_in_caller := 0; index_in_callee := 0; is_signer := signer; is_writable := negb signer |}.
Definition infos : list AccountInfo := [info 21 false; info 22 false; info 10 true].

Lemma demo_token_inv : token_inv PToken.TOKEN_PROGRAM_ID (mem s8).
Proof.
  apply (inv_ledger_steps 7 ltac:(done) ltac:(done) (λ d i d' Hb E, eq_ind d Bytes Hb d' (Ok_inj _ _ E)) (λ _ _, eq_refl)
    TokenDemo.L0 TokenDemo.L8 TokenDemo.demo_genesis TokenDemo.demo_ledger).
Qed.

Lemma demo_info i : i ∈ infos → i = info 21 false ∨ i = info 22 false ∨ i = info 10 true.
Proof. unfold infos. rewrite !elem_of_cons, elem_of_nil. tauto. Qed.

Lemma demo_info_keys i : i ∈ infos → is_key (key i).
Proof. intros [->|[->| ->]]%demo_info; by split. Qed.

Lemma owned_of (L : Accounts) :
  acc_owner (account_at L 21) = 7 → acc_owner (account_at L 22) = 7 → length (acc_data (account_at L 10)) = 0%nat →
  owned_infos 7 infos {| mem := L; return_data := [] |}.
Proof.
  intros H21 H22 Hl i [->|[->| ->]]%demo_info Hlen; [done|done|].
  unfold data, info_account in Hlen. cbn [key info mem] in Hlen. rewrite Hl in Hlen. by destruct Hlen as [E|[E|E]].
Qed.

Lemma demo_owned : owned_infos PToken.TOKEN_PROGRAM_ID infos s8.
Proof. apply (owned_of TokenDemo.L8); vm_compute; reflexivity. Qed.

Lemma rent_is_positive (rent : Rent) (len : nat) : 0 < minimum_balance rent len.
Proof. reflexivity. Qed.

Lemma program_nonzero : PToken.TOKEN_PROGRAM_ID ≠ 0.
Proof. vm_compute. discriminate. Qed.

(** A transfer of 20 tokens, by both programs. *)
Definition transfer_20 : list Z := [3; 20; 0; 0; 0; 0; 0; 0; 0].

Lemma transfer_20_bytes : Bytes transfer_20.
Proof. apply TokenDemo.bytesb_true. vm_compute. reflexivity. Qed.

Lemma ptoken_equivalent_witness :
  PToken.process_instruction infos transfer_20 s8 = process 7 infos transfer_20 s8.
Proof.
  destruct (ptoken_equivalent infos transfer_20 s8 program_nonzero demo_token_inv demo_info_keys demo_owned transfer_20_bytes)
    as [E|[(ui & i & m & E & _) _]]; [intros E; discriminate E|intros E; discriminate E|exact E|discriminate E].
Defined.

(** A batch of two transfers. *)
Definition batch : list (list AccountInfo * list Z) :=
  [(infos, transfer_20); (infos, [3; 50; 0; 0; 0; 0; 0; 0; 0])].

Lemma batch_is_sequence_witness :
  PToken.process_instruction (infos ++ infos ++ []) (255 :: batch_data batch) s8 = run_batch batch s8.
Proof. apply (batch_is_sequence batch [] s8); [done|]. repeat constructor; done. Defined.

Lemma ptoken_keeps_supply_witness :
  ∃ r, PToken.process_instruction infos transfer_20 s8 = Ret r ∧
    ∀ s', r = Ok s' → token_inv 7 (mem s') ∧
      ∀ k m, mint_of 7 (account_at (mem s') k) = Some m → k ≠ 555 → supply m = held 7 k (mem s').
Proof.
  apply (ptoken_keeps_supply infos transfer_20 s8 program_nonzero rent_is_positive demo_token_inv demo_info_keys demo_owned);
    [apply Nat.leb_le; reflexivity|apply transfer_20_bytes].
Defined.

End PTokenDemo.
