(* ===== verification/TransactionView.v ===== *)
(** Transaction views ([transaction-view/src]): a serialized transaction is parsed
    once into a [TransactionFrame] of counts and offsets, and its fields are then
    read from the packet's bytes without checking them again.

    The checked readers of [bytes.rs] are in a small monad that threads the
    offset and the error; a reader's offset is a [usize] that wraps. The [unsafe]
    reads return an [outcome]: a pointer or slice that leaves the buffer is
    [Panic], so that a theorem that such a call returns says that the read is in
    bounds. *)

From S2P Require Import Prelude Bytes.

(** The length of a list, as the [usize] that [len()] returns. *)
Abbreviation len l := (Z.of_nat (length l)).

Definition wrapping_add (bits a b : Z) : Z := (a + b) mod 2 ^ bits.
Definition wrapping_sub (bits a b : Z) : Z := (a - b) mod 2 ^ bits.
Definition wrapping_mul (bits a b : Z) : Z := (a * b) mod 2 ^ bits.
(** [x as u8], [x as u16]. *)
Definition as_u8 (x : Z) : Z := x mod 2 ^ 8.
Definition as_u16 (x : Z) : Z := x mod 2 ^ 16.

Inductive TransactionViewError :=
| ParseError
| SanitizeError
| AddressLookupMismatch.

#[global] Instance TransactionViewError_eq_dec : EqDecision TransactionViewError.
Proof. solve_decision. Defined.

Inductive TransactionVersion := Legacy | V0.

#[global] Instance TransactionVersion_eq_dec : EqDecision TransactionVersion.
Proof. solve_decision. Defined.

Record SVMInstruction := {
  program_id_index : Z;
  accounts : list Z;
  data : list Z;
}.

Record SVMMessageAddressTableLookup := {
  account_key : Pubkey;
  writable_indexes : list Z;
  readonly_indexes : list Z;
}.

(** [solana_message::v0::LoadedAddresses]. *)
Record LoadedAddresses := {
  loaded_writable : list Pubkey;
  loaded_readonly : list Pubkey;
}.

(** What the crates outside the repository provide: [solana_packet]'s and
    [solana_message]'s constants, [AccountKeys::new(static, dynamic).iter()] and
    the address of the upgradeable loader. *)
Class ViewEnv := {
  PACKET_DATA_SIZE : Z;
  MESSAGE_VERSION_PREFIX : Z;
  account_keys_iter : list Pubkey → option LoadedAddresses → list Pubkey;
  upgradeable_loader_id : Pubkey;
}.

(** The documented facts about them: a packet holds 1232 bytes, a versioned
    message starts with a byte whose top bit is set, and the account keys of a
    message are the static ones, then the loaded writable ones, then the loaded
    read-only ones. *)
Class ViewLaws `(env : ViewEnv) : Prop := {
  packet_data_size : PACKET_DATA_SIZE = 1232;
  message_version_prefix : MESSAGE_VERSION_PREFIX = 128;
  account_keys_order static loaded :
    account_keys_iter static loaded =
    static ++ match loaded with
              | Some l => loaded_writable l ++ loaded_readonly l
              | None => []
              end;
}.

(** * [bytes.rs] *)

(** A type that is read straight from bytes: its [size_of] and its value. *)
Record Sized (T : Type) := SizedType { size_of : Z; of_bytes : list Z → T }.
Arguments size_of {T} _.
Arguments of_bytes {T} _ _.

Definition u8_type : Sized Z := SizedType Z 1 (λ b, hd 0 b).
Definition Pubkey_type : Sized Pubkey := SizedType Z 32 key_of_bytes.
Definition Hash_type : Sized Hash := SizedType Z 32 key_of_bytes.
Definition Signature_type : Sized (list Z) := SizedType (list Z) 64 (λ b, b).

(** [fn(bytes, &mut offset) -> Result<A>]. *)
Definition reader (A : Type) : Type := Z → result A TransactionViewError * Z.

#[global] Instance reader_ret : MRet reader := λ A a offset, (Ok a, offset).
#[global] Instance reader_bind : MBind reader := λ A B k m offset,
  match m offset with
  | (Ok a, offset) => k a offset
  | (Err e, offset) => (Err e, offset)
  end.
(** [return Err(e)], the current [*offset], and a [Result] computed from it. *)
Definition fail {A} (e : TransactionViewError) : reader A := λ offset, (Err e, offset).
Definition current_offset : reader Z := λ offset, (Ok offset, offset).
Definition lift {A} (r : result A TransactionViewError) : reader A := λ offset, (r, offset).

(** [bytes.get(i)]. *)
Definition get (bytes : list Z) (i : Z) : option Z := bytes !! Z.to_nat i.

Definition check_remaining (bytes : list Z) (offset num_bytes : Z)
    : result unit TransactionViewError :=
  if wrapping_sub 64 (len bytes) offset <? num_bytes then Err ParseError else Ok tt.

Definition read_byte (bytes : list Z) : reader Z := λ offset,
  (match get bytes offset with Some value => Ok value | None => Err ParseError end,
   wrapping_add 64 offset 1).

(** [bytes.get_unchecked(offset)]. *)
Definition unchecked_read_byte (bytes : list Z) (offset : Z) : outcome (Z * Z) :=
  value ← unwrap (get bytes offset);
  Ret (value, wrapping_add 64 offset 1).

(** The loop [for i in 0..3] of [read_compressed_u16] over the indices [is] that
    are left. *)
Fixpoint read_compressed_loop (bytes : list Z) (indices : list Z) (result shift : Z) : reader Z :=
  λ offset,
  match indices with
  | [] => (Ok result, wrapping_add 64 offset 3)
  | i :: indices =>
    match get bytes (wrapping_add 64 offset i) with
    | None => (Err ParseError, offset)
    | Some byte =>
      if ((0 <? i) && (byte =? 0)) || ((i =? 2) && (3 <? byte)) then (Err ParseError, offset)
      else
        let result := Z.lor result (as_u16 (Z.shiftl (Z.land byte 127) shift)) in
        let shift := wrapping_add 16 shift 7 in
        if Z.land byte 128 =? 0 then
          (Ok result, wrapping_add 64 (wrapping_add 64 offset i) 1)
        else read_compressed_loop bytes indices result shift offset
    end
  end.

Definition read_compressed_u16 (bytes : list Z) : reader Z :=
  read_compressed_loop bytes [0; 1; 2] 0 0.

Definition optimized_read_compressed_u16 (bytes : list Z) : reader Z := λ offset,
  match get bytes offset with
  | None => (Err ParseError, offset)
  | Some byte1 =>
    let result := Z.land byte1 127 in
    if Z.land byte1 128 =? 0 then (Ok result, wrapping_add 64 offset 1)
    else
      match get bytes (wrapping_add 64 offset 1) with
      | None => (Err ParseError, offset)
      | Some byte2 =>
        if (byte2 =? 0) || negb (Z.land byte2 128 =? 0) then (Err ParseError, offset)
        else
          (Ok (Z.lor result (as_u16 (Z.shiftl (Z.land byte2 127) 7))), wrapping_add 64 offset 2)
      end
  end.

Definition advance_offset_for_array {T} (ty : Sized T) (bytes : list Z) (num_elements : Z)
    : reader unit := λ offset,
  let array_len_bytes := wrapping_mul 64 num_elements (size_of ty) in
  match check_remaining bytes offset array_len_bytes with
  | Err e => (Err e, offset)
  | Ok _ => (Ok tt, wrapping_add 64 offset array_len_bytes)
  end.

Definition advance_offset_for_type {T} (ty : Sized T) (bytes : list Z) : reader unit := λ offset,
  match check_remaining bytes offset (size_of ty) with
  | Err e => (Err e, offset)
  | Ok _ => (Ok tt, wrapping_add 64 offset (size_of ty))
  end.

(** [bytes.as_ptr().add(offset)], which may point just past the buffer, and
    [slice::from_raw_parts] of [n] values at such a pointer. *)
Definition ptr_add (bytes : list Z) (offset : Z) : outcome Z :=
  assert_ (offset <=? len bytes);; Ret offset.
Definition from_raw_parts {T} (ty : Sized T) (bytes : list Z) (ptr n : Z) : outcome (list T) :=
  assert_ (ptr + n * size_of ty <=? len bytes);;
  Ret (of_bytes ty <$>
         array_refs (replicate (Z.to_nat n) (Z.to_nat (size_of ty))) (drop (Z.to_nat ptr) bytes)).

Definition read_slice_data {T} (ty : Sized T) (bytes : list Z) (offset num_elements : Z)
    : outcome (result (list T) TransactionViewError * Z) :=
  current_ptr ← ptr_add bytes offset;
  match advance_offset_for_array ty bytes num_elements offset with
  | (Err e, offset) => Ret (Err e, offset)
  | (Ok _, offset) => s ← from_raw_parts ty bytes current_ptr num_elements; Ret (Ok s, offset)
  end.

Definition unchecked_read_slice_data {T} (ty : Sized T) (bytes : list Z) (offset num_elements : Z)
    : outcome (list T * Z) :=
  current_ptr ← ptr_add bytes offset;
  let array_len_bytes := wrapping_mul 64 num_elements (size_of ty) in
  let offset := wrapping_add 64 offset array_len_bytes in
  s ← from_raw_parts ty bytes current_ptr num_elements;
  Ret (s, offset).

(** The value of type [T] that a pointer refers to. *)
Definition deref_type {T} (ty : Sized T) (bytes : list Z) (ptr : Z) : outcome T :=
  assert_ (ptr + size_of ty <=? len bytes);;
  Ret (of_bytes ty (take (Z.to_nat (size_of ty)) (drop (Z.to_nat ptr) bytes))).

Definition read_type {T} (ty : Sized T) (bytes : list Z) (offset : Z)
    : outcome (result T TransactionViewError * Z) :=
  current_ptr ← ptr_add bytes offset;
  match advance_offset_for_type ty bytes offset with
  | (Err e, offset) => Ret (Err e, offset)
  | (Ok _, offset) => x ← deref_type ty bytes current_ptr; Ret (Ok x, offset)
  end.

(** [for x in iter { s = body(x, s)? }], for an iterator with the given [next]. *)
Fixpoint for_in {I A S E} (next : I → outcome (option A * I)) (fuel : nat)
    (body : A → S → outcome (result S E)) (it : I) (s : S) : outcome (result S E) :=
  match fuel with
  | O => OutOfFuel
  | S fuel =>
    '(item, it) ← next it;
    match item with
    | None => Ret (Ok s)
    | Some x => s ←? body x s; for_in next fuel body it s
    end
  end.

(** [iter.collect()]. *)
Fixpoint collect {I A} (next : I → outcome (option A * I)) (fuel : nat) (it : I)
    : outcome (list A) :=
  match fuel with
  | O => OutOfFuel
  | S fuel =>
    '(item, it) ← next it;
    match item with
    | None => Ret []
    | Some x => l ← collect next fuel it; Ret (x :: l)
    end
  end.

(** [iter.any(p)]. *)
Fixpoint any_in {I A} (next : I → outcome (option A * I)) (fuel : nat) (p : A → bool) (it : I)
    : outcome bool :=
  match fuel with
  | O => OutOfFuel
  | S fuel =>
    '(item, it) ← next it;
    match item with
    | None => Ret false
    | Some x => if p x then Ret true else any_in next fuel p it
    end
  end.

Section frames.
Context `{env : ViewEnv}.

(** * [signature_frame.rs] *)

Definition MAX_SIGNATURES_PER_PACKET : Z :=
  as_u8 (PACKET_DATA_SIZE / (size_of Signature_type + size_of Pubkey_type)).

Record SignatureFrame := {
  num_signatures : Z;
  signature_offset : Z;
}.

Definition SignatureFrame_try_new (bytes : list Z) : reader SignatureFrame :=
  num_signatures ← read_byte bytes;
  if (num_signatures =? 0) || (MAX_SIGNATURES_PER_PACKET <? num_signatures) then fail ParseError
  else
    offset ← current_offset;
    let signature_offset := as_u16 offset in
    advance_offset_for_array Signature_type bytes num_signatures;;
    mret {| num_signatures := num_signatures; signature_offset := signature_offset |}.

(** * [message_header_frame.rs] *)

Record MessageHeaderFrame := {
  message_offset : Z;
  version : TransactionVersion;
  num_required_signatures : Z;
  num_readonly_signed_accounts : Z;
  num_readonly_unsigned_accounts : Z;
}.

(** The complement [!x] of a [u8]. *)
Definition not_u8 (x : Z) : Z := u8_MAX - x.

Definition MessageHeaderFrame_try_new (bytes : list Z) : reader MessageHeaderFrame :=
  offset ← current_offset;
  let message_offset := as_u16 offset in
  message_prefix ← read_byte bytes;
  '(version, num_required_signatures) ←
    (if negb (Z.land message_prefix MESSAGE_VERSION_PREFIX =? 0) then
       let version := Z.land message_prefix (not_u8 MESSAGE_VERSION_PREFIX) in
       if version =? 0 then n ← read_byte bytes; mret (V0, n) else fail ParseError
     else mret (Legacy, message_prefix));
  num_readonly_signed_accounts ← read_byte bytes;
  num_readonly_unsigned_accounts ← read_byte bytes;
  mret {| message_offset := message_offset; version := version;
          num_required_signatures := num_required_signatures;
          num_readonly_signed_accounts := num_readonly_signed_accounts;
          num_readonly_unsigned_accounts := num_readonly_unsigned_accounts |}.

(** * [static_account_keys_frame.rs] *)

Definition MAX_STATIC_ACCOUNTS_PER_PACKET : Z :=
  as_u8 (PACKET_DATA_SIZE / size_of Pubkey_type).

Record StaticAccountKeysFrame := {
  num_static_accounts : Z;
  static_accounts_offset : Z;
}.

Definition StaticAccountKeysFrame_try_new (bytes : list Z) : reader StaticAccountKeysFrame :=
  num_static_accounts ← read_byte bytes;
  if (num_static_accounts =? 0) || (MAX_STATIC_ACCOUNTS_PER_PACKET <? num_static_accounts)
  then fail ParseError
  else
    offset ← current_offset;
    let static_accounts_offset := as_u16 offset in
    advance_offset_for_array Pubkey_type bytes num_static_accounts;;
    mret {| num_static_accounts := num_static_accounts;
            static_accounts_offset := static_accounts_offset |}.

(** * [instructions_frame.rs] *)

Record InstructionFrame := {
  num_accounts : Z;
  data_len : Z;
  num_accounts_len : Z;
  data_len_len : Z;
}.

Record InstructionsFrame := {
  num_instructions : Z;
  instructions_offset : Z;
  frames : list InstructionFrame;
}.

(** The body of the loop of [InstructionsFrame::try_new]. *)
Definition read_instruction_frame (bytes : list Z) : reader InstructionFrame :=
  _program_id_index ← read_byte bytes;
  num_accounts_offset ← current_offset;
  num_accounts ← optimized_read_compressed_u16 bytes;
  offset ← current_offset;
  let num_accounts_len := as_u8 (wrapping_sub 64 offset num_accounts_offset) in
  advance_offset_for_array u8_type bytes num_accounts;;
  data_len_offset ← current_offset;
  data_len ← optimized_read_compressed_u16 bytes;
  offset ← current_offset;
  let data_len_len := as_u8 (wrapping_sub 64 offset data_len_offset) in
  advance_offset_for_array u8_type bytes data_len;;
  mret {| num_accounts := num_accounts; num_accounts_len := num_accounts_len;
          data_len := data_len; data_len_len := data_len_len |}.

(** [for _index in 0..num_instructions], pushing to [frames]. *)
Fixpoint read_instruction_frames (bytes : list Z) (n : nat) (frames : list InstructionFrame)
    : reader (list InstructionFrame) :=
  match n with
  | O => mret frames
  | S n => frame ← read_instruction_frame bytes;
           read_instruction_frames bytes n (frames ++ [frame])
  end.

Definition InstructionsFrame_try_new (bytes : list Z) : reader InstructionsFrame :=
  num_instructions ← optimized_read_compressed_u16 bytes;
  offset ← current_offset;
  lift (check_remaining bytes offset (wrapping_mul 64 3 num_instructions));;
  let instructions_offset := as_u16 offset in
  frames ← read_instruction_frames bytes (Z.to_nat num_instructions) [];
  mret {| num_instructions := num_instructions; instructions_offset := instructions_offset;
          frames := frames |}.

Record InstructionsIterator := {
  ii_bytes : list Z;
  ii_offset : Z;
  ii_num_instructions : Z;
  ii_index : Z;
  ii_frames : list InstructionFrame;
}.

Definition InstructionsIterator_next (self : InstructionsIterator)
    : outcome (option SVMInstruction * InstructionsIterator) :=
  if ii_index self <? ii_num_instructions self then
    frame ← unwrap (ii_frames self !! Z.to_nat (ii_index self));
    let index := wrapping_add 16 (ii_index self) 1 in
    '(program_id_index, offset) ← unchecked_read_byte (ii_bytes self) (ii_offset self);
    let offset := wrapping_add 64 offset (num_accounts_len frame) in
    '(accounts, offset) ← unchecked_read_slice_data u8_type (ii_bytes self) offset (num_accounts frame);
    let offset := wrapping_add 64 offset (data_len_len frame) in
    '(data, offset) ← unchecked_read_slice_data u8_type (ii_bytes self) offset (data_len frame);
    Ret (Some {| program_id_index := program_id_index; accounts := accounts; data := data |},
         {| ii_bytes := ii_bytes self; ii_offset := offset;
            ii_num_instructions := ii_num_instructions self; ii_index := index;
            ii_frames := ii_frames self |})
  else Ret (None, self).

(** [ExactSizeIterator::len]. *)
Definition InstructionsIterator_len (self : InstructionsIterator) : Z :=
  wrapping_sub 16 (ii_num_instructions self) (ii_index self).

(** * [address_table_lookup_frame.rs] *)

Definition MIN_SIZED_ATL : Z := size_of Pubkey_type + 1 + 1 + 1.

Definition MIN_SIZED_PACKET_WITH_ATLS : Z :=
  1 + size_of Signature_type + 1 + 3 + 1 + size_of Pubkey_type + size_of Hash_type + 1 + 1.

Definition MAX_ATLS_PER_PACKET : Z :=
  as_u8 ((PACKET_DATA_SIZE - MIN_SIZED_PACKET_WITH_ATLS) / MIN_SIZED_ATL).

Record AddressTableLookupFrame := {
  num_address_table_lookups : Z;
  address_table_lookups_offset : Z;
  total_writable_lookup_accounts : Z;
  total_readonly_lookup_accounts : Z;
}.

(** The loop [for _index in 0..num_address_table_lookups] over the two [u32] totals. *)
Fixpoint read_lookup_totals (bytes : list Z) (n : nat) (writable readonly : Z) : reader (Z * Z) :=
  match n with
  | O => mret (writable, readonly)
  | S n =>
    advance_offset_for_type Pubkey_type bytes;;
    num_write_accounts ← optimized_read_compressed_u16 bytes;
    let writable := wrapping_add 32 writable num_write_accounts in
    advance_offset_for_array u8_type bytes num_write_accounts;;
    num_read_accounts ← optimized_read_compressed_u16 bytes;
    let readonly := wrapping_add 32 readonly num_read_accounts in
    advance_offset_for_array u8_type bytes num_read_accounts;;
    read_lookup_totals bytes n writable readonly
  end.

(** [u16::try_from(x).map_err(|_| SanitizeError)]. *)
Definition u16_try_from (x : Z) : result Z TransactionViewError :=
  if x <=? u16_MAX then Ok x else Err SanitizeError.

Definition AddressTableLookupFrame_try_new (bytes : list Z) : reader AddressTableLookupFrame :=
  num_address_table_lookups ← read_byte bytes;
  if MAX_ATLS_PER_PACKET <? num_address_table_lookups then fail ParseError
  else
    offset ← current_offset;
    lift (check_remaining bytes offset (wrapping_mul 64 MIN_SIZED_ATL num_address_table_lookups));;
    let address_table_lookups_offset := as_u16 offset in
    '(writable, readonly) ←
      read_lookup_totals bytes (Z.to_nat num_address_table_lookups) 0 0;
    writable ← lift (u16_try_from writable);
    readonly ← lift (u16_try_from readonly);
    mret {| num_address_table_lookups := num_address_table_lookups;
            address_table_lookups_offset := address_table_lookups_offset;
            total_writable_lookup_accounts := writable;
            total_readonly_lookup_accounts := readonly |}.

Record AddressTableLookupIterator := {
  ai_bytes : list Z;
  ai_offset : Z;
  ai_num_address_table_lookups : Z;
  ai_index : Z;
}.

Definition AddressTableLookupIterator_next (self : AddressTableLookupIterator)
    : outcome (option SVMMessageAddressTableLookup * AddressTableLookupIterator) :=
  let bytes := ai_bytes self in
  if ai_index self <? ai_num_address_table_lookups self then
    let it offset :=
      {| ai_bytes := bytes; ai_offset := offset;
         ai_num_address_table_lookups := ai_num_address_table_lookups self;
         ai_index := wrapping_add 8 (ai_index self) 1 |} in
    '(account_key, offset) ← read_type Pubkey_type bytes (ai_offset self);
    match account_key with
    | Err _ => Ret (None, it offset)
    | Ok account_key =>
    match optimized_read_compressed_u16 bytes offset with
    | (Err _, offset) => Ret (None, it offset)
    | (Ok num_write_accounts, offset) =>
    '(writable_indexes, offset) ← read_slice_data u8_type bytes offset num_write_accounts;
    match writable_indexes with
    | Err _ => Ret (None, it offset)
    | Ok writable_indexes =>
    match optimized_read_compressed_u16 bytes offset with
    | (Err _, offset) => Ret (None, it offset)
    | (Ok num_read_accounts, offset) =>
    '(readonly_indexes, offset) ← read_slice_data u8_type bytes offset num_read_accounts;
    match readonly_indexes with
    | Err _ => Ret (None, it offset)
    | Ok readonly_indexes =>
      Ret (Some {| account_key := account_key; writable_indexes := writable_indexes;
                   readonly_indexes := readonly_indexes |}, it offset)
    end end end end end
  else Ret (None, self).

Definition AddressTableLookupIterator_len (self : AddressTableLookupIterator) : Z :=
  wrapping_sub 8 (ai_num_address_table_lookups self) (ai_index self).

(** * [transaction_frame.rs] *)

Record TransactionFrame := {
  signature : SignatureFrame;
  message_header : MessageHeaderFrame;
  static_account_keys_frame : StaticAccountKeysFrame;
  recent_blockhash_offset : Z;
  instructions : InstructionsFrame;
  address_table_lookup : AddressTableLookupFrame;
}.

Definition TransactionFrame_try_new (bytes : list Z) : result TransactionFrame TransactionViewError :=
  fst ((signature ← SignatureFrame_try_new bytes;
        message_header ← MessageHeaderFrame_try_new bytes;
        static_account_keys ← StaticAccountKeysFrame_try_new bytes;
        offset ← current_offset;
        let recent_blockhash_offset := as_u16 offset in
        advance_offset_for_type Hash_type bytes;;
        instructions ← InstructionsFrame_try_new bytes;
        address_table_lookup ←
          (match version message_header with
           | Legacy => mret {| num_address_table_lookups := 0; address_table_lookups_offset := 0;
                               total_writable_lookup_accounts := 0;
                               total_readonly_lookup_accounts := 0 |}
           | V0 => AddressTableLookupFrame_try_new bytes
           end);
        offset ← current_offset;
        if negb (offset =? len bytes) then fail ParseError
        else
          mret {| signature := signature; message_header := message_header;
                  static_account_keys_frame := static_account_keys;
                  recent_blockhash_offset := recent_blockhash_offset;
                  instructions := instructions; address_table_lookup := address_table_lookup |}) 0).

End frames.

(** The [unsafe] accessors, for the bytes the frame was created from. *)
Module Frame.

Definition signatures (self : TransactionFrame) (bytes : list Z) : outcome (list (list Z)) :=
  ptr ← ptr_add bytes (signature_offset (signature self));
  from_raw_parts Signature_type bytes ptr (num_signatures (signature self)).

Definition static_account_keys (self : TransactionFrame) (bytes : list Z) : outcome (list Pubkey) :=
  ptr ← ptr_add bytes (static_accounts_offset (static_account_keys_frame self));
  from_raw_parts Pubkey_type bytes ptr (num_static_accounts (static_account_keys_frame self)).

Definition recent_blockhash (self : TransactionFrame) (bytes : list Z) : outcome Hash :=
  ptr ← ptr_add bytes (recent_blockhash_offset self);
  deref_type Hash_type bytes ptr.

Definition instructions_iter (self : TransactionFrame) (bytes : list Z) : InstructionsIterator :=
  {| ii_bytes := bytes; ii_offset := instructions_offset (instructions self);
     ii_num_instructions := num_instructions (instructions self); ii_index := 0;
     ii_frames := frames (instructions self) |}.

Definition address_table_lookup_iter (self : TransactionFrame) (bytes : list Z)
    : AddressTableLookupIterator :=
  {| ai_bytes := bytes; ai_offset := address_table_lookups_offset (address_table_lookup self);
     ai_num_address_table_lookups := num_address_table_lookups (address_table_lookup self);
     ai_index := 0 |}.

End Frame.

(** * [transaction_view.rs] *)

(** [TransactionView<SANITIZED, D>]: the data and its frame. *)
Record TransactionView := {
  view_data : list Z;
  view_frame : TransactionFrame;
}.

Module View.

Definition num_signatures (self : TransactionView) : Z :=
  num_signatures (signature (view_frame self)).
Definition version (self : TransactionView) : TransactionVersion :=
  version (message_header (view_frame self)).
Definition num_required_signatures (self : TransactionView) : Z :=
  num_required_signatures (message_header (view_frame self)).
Definition num_readonly_signed_static_accounts (self : TransactionView) : Z :=
  num_readonly_signed_accounts (message_header (view_frame self)).
Definition num_readonly_unsigned_static_accounts (self : TransactionView) : Z :=
  num_readonly_unsigned_accounts (message_header (view_frame self)).
Definition num_static_account_keys (self : TransactionView) : Z :=
  num_static_accounts (static_account_keys_frame (view_frame self)).
Definition num_instructions (self : TransactionView) : Z :=
  num_instructions (instructions (view_frame self)).
Definition num_address_table_lookups (self : TransactionView) : Z :=
  num_address_table_lookups (address_table_lookup (view_frame self)).
Definition total_writable_lookup_accounts (self : TransactionView) : Z :=
  total_writable_lookup_accounts (address_table_lookup (view_frame self)).
Definition total_readonly_lookup_accounts (self : TransactionView) : Z :=
  total_readonly_lookup_accounts (address_table_lookup (view_frame self)).

Definition signatures (self : TransactionView) : outcome (list (list Z)) :=
  Frame.signatures (view_frame self) (view_data self).
Definition static_account_keys (self : TransactionView) : outcome (list Pubkey) :=
  Frame.static_account_keys (view_frame self) (view_data self).
Definition recent_blockhash (self : TransactionView) : outcome Hash :=
  Frame.recent_blockhash (view_frame self) (view_data self).
Definition instructions_iter (self : TransactionView) : InstructionsIterator :=
  Frame.instructions_iter (view_frame self) (view_data self).
Definition address_table_lookup_iter (self : TransactionView) : AddressTableLookupIterator :=
  Frame.address_table_lookup_iter (view_frame self) (view_data self).

(** A loop over an iterator ends after as many items as its [len] and the [None]. *)
Definition ix_fuel (self : TransactionView) : nat := S (Z.to_nat (num_instructions self)).
Definition atl_fuel (self : TransactionView) : nat := S (Z.to_nat (num_address_table_lookups self)).

(** [&self.data()[message_offset..]]. *)
Definition message_data (self : TransactionView) : outcome (list Z) :=
  let offset := message_offset (message_header (view_frame self)) in
  assert_ (offset <=? len (view_data self));;
  Ret (drop (Z.to_nat offset) (view_data self)).

(** [next] of the iterator [program_instructions_iter()]. *)
Definition program_instructions_next (self : TransactionView) (it : InstructionsIterator)
    : outcome (option (Pubkey * SVMInstruction) * InstructionsIterator) :=
  '(item, it) ← InstructionsIterator_next it;
  match item with
  | None => Ret (None, it)
  | Some ix =>
    keys ← static_account_keys self;
    program_id ← unwrap (keys !! Z.to_nat (program_id_index ix));
    Ret (Some (program_id, ix), it)
  end.

Definition num_static_unsigned_static_accounts (self : TransactionView) : Z :=
  wrapping_sub 8 (num_static_account_keys self) (num_required_signatures self).

Definition num_writable_unsigned_static_accounts (self : TransactionView) : Z :=
  wrapping_sub 8 (num_static_unsigned_static_accounts self)
    (num_readonly_unsigned_static_accounts self).

Definition num_writable_signed_static_accounts (self : TransactionView) : Z :=
  wrapping_sub 8 (num_required_signatures self) (num_readonly_signed_static_accounts self).

Definition total_num_accounts (self : TransactionView) : Z :=
  wrapping_add 16
    (wrapping_add 16 (num_static_account_keys self) (total_writable_lookup_accounts self))
    (total_readonly_lookup_accounts self).

Definition num_requested_write_locks (self : TransactionView) : Z :=
  wrapping_add 16
    (wrapping_sub 8
       (wrapping_sub 8 (num_static_account_keys self) (num_readonly_signed_static_accounts self))
       (num_readonly_unsigned_static_accounts self))
    (total_writable_lookup_accounts self).

End View.

(** * [sanitize.rs] *)

Module Sanitize.

Definition total_number_of_accounts (view : TransactionView) : Z :=
  saturating_add u16_MAX
    (saturating_add u16_MAX (View.num_static_account_keys view)
       (View.total_writable_lookup_accounts view))
    (View.total_readonly_lookup_accounts view).

Definition sanitize_signatures (view : TransactionView) : result unit TransactionViewError :=
  if negb (View.num_signatures view =? View.num_required_signatures view) then Err SanitizeError
  else if View.num_static_account_keys view <? View.num_signatures view then Err SanitizeError
  else Ok tt.

Definition sanitize_account_access (view : TransactionView) : result unit TransactionViewError :=
  if wrapping_sub 8 (View.num_static_account_keys view) (View.num_required_signatures view)
       <? View.num_readonly_unsigned_static_accounts view
  then Err SanitizeError
  else if View.num_required_signatures view <=? View.num_readonly_signed_static_accounts view
  then Err SanitizeError
  else if 256 <? total_number_of_accounts view then Err SanitizeError
  else Ok tt.

(** The body of the loop over the instructions. *)
Definition sanitize_instruction (max_program_id_index max_account_index : Z)
    (instruction : SVMInstruction) : result unit TransactionViewError :=
  if max_program_id_index <? program_id_index instruction then Err SanitizeError
  else if program_id_index instruction =? 0 then Err SanitizeError
  else if existsb (λ account_index, max_account_index <? account_index) (accounts instruction)
  then Err SanitizeError
  else Ok tt.

Definition sanitize_instructions (view : TransactionView)
    : outcome (result unit TransactionViewError) :=
  let max_program_id_index := wrapping_sub 8 (View.num_static_account_keys view) 1 in
  let max_account_index := as_u8 (wrapping_sub 16 (total_number_of_accounts view) 1) in
  for_in InstructionsIterator_next (View.ix_fuel view)
    (λ instruction _,
       Ret (sanitize_instruction max_program_id_index max_account_index instruction))
    (View.instructions_iter view) tt.

Definition sanitize_address_table_lookups (view : TransactionView)
    : outcome (result unit TransactionViewError) :=
  for_in AddressTableLookupIterator_next (View.atl_fuel view)
    (λ lookup _,
       Ret (if bool_decide (writable_indexes lookup = []) && bool_decide (readonly_indexes lookup = [])
            then Err SanitizeError else Ok tt))
    (View.address_table_lookup_iter view) tt.

Definition sanitize (view : TransactionView) : outcome (result unit TransactionViewError) :=
  _ ←? Ret (sanitize_signatures view);
  _ ←? Ret (sanitize_account_access view);
  _ ←? sanitize_instructions view;
  sanitize_address_table_lookups view.

End Sanitize.

Section constructors.
Context `{env : ViewEnv}.

Definition try_new_unsanitized (data : list Z) : result TransactionView TransactionViewError :=
  frame ←! TransactionFrame_try_new data;
  Ok {| view_data := data; view_frame := frame |}.

(** [TransactionView::sanitize]. *)
Definition sanitize (self : TransactionView) : outcome (result TransactionView TransactionViewError) :=
  _ ←? Sanitize.sanitize self;
  Ret (Ok {| view_data := view_data self; view_frame := view_frame self |}).

Definition try_new_sanitized (data : list Z) : outcome (result TransactionView TransactionViewError) :=
  unsanitized_view ←? Ret (try_new_unsanitized data);
  sanitize unsanitized_view.

(** * [resolved_transaction_view.rs] *)

Record ResolvedTransactionView := {
  view : TransactionView;
  resolved_addresses : option LoadedAddresses;
  writable_cache : list bool;
}.

(** [cache[index] = b], on an array of 256. *)
Definition set_cache (cache : list bool) (index : nat) (b : bool) : outcome (list bool) :=
  assert_ (bool_decide (index < length cache)%nat);; Ret (<[index := b]> cache).

(** The condition [is_requested_write] of the first loop. *)
Definition is_requested_write (view : TransactionView) (index : Z) : bool :=
  if View.num_static_account_keys view <=? index then
    wrapping_sub 64 index (View.num_static_account_keys view)
      <? View.total_writable_lookup_accounts view
  else if View.num_required_signatures view <=? index then
    wrapping_sub 64 index (View.num_required_signatures view)
      <? View.num_writable_unsigned_static_accounts view
  else index <? View.num_writable_signed_static_accounts view.

(** [for (index, key) in account_keys.iter().enumerate()]. *)
Fixpoint cache_requested (view : TransactionView) (reserved_account_keys : gset Pubkey)
    (index : nat) (keys : list Pubkey) (cache : list bool) : outcome (list bool) :=
  match keys with
  | [] => Ret cache
  | key :: keys =>
    cache ← set_cache cache index
              (is_requested_write view (Z.of_nat index)
               && negb (bool_decide (key ∈ reserved_account_keys)));
    cache_requested view reserved_account_keys (S index) keys cache
  end.

(** The body of the loop over the instructions; the second component is
    [is_upgradable_loader_present]. *)
Definition demote_program (account_keys : list Pubkey) (ix : SVMInstruction)
    (s : list bool * option bool) : outcome (result (list bool * option bool) TransactionViewError) :=
  let '(cache, is_upgradable_loader_present) := s in
  let program_id_index := Z.to_nat (program_id_index ix) in
  writable ← unwrap (cache !! program_id_index);
  if (writable : bool) then
    let present := default (existsb (λ key, key =? upgradeable_loader_id) account_keys)
                     is_upgradable_loader_present in
    if negb present then
      cache ← set_cache cache program_id_index false; Ret (Ok (cache, Some present))
    else Ret (Ok (cache, Some present))
  else Ret (Ok (cache, is_upgradable_loader_present)).

Definition cache_is_writable (view : TransactionView) (resolved_addresses : option LoadedAddresses)
    (reserved_account_keys : gset Pubkey) : outcome (list bool) :=
  static ← View.static_account_keys view;
  let account_keys := account_keys_iter static resolved_addresses in
  cache ← cache_requested view reserved_account_keys 0 account_keys (replicate 256 false);
  r ← for_in InstructionsIterator_next (View.ix_fuel view) (demote_program account_keys)
        (View.instructions_iter view) (cache, None);
  match r with Ok (cache, _) => Ret cache | Err _ => Panic end.

Definition ResolvedTransactionView_try_new (view : TransactionView)
    (resolved_addresses : option LoadedAddresses) (reserved_account_keys : gset Pubkey)
    : outcome (result ResolvedTransactionView TransactionViewError) :=
  if bool_decide (View.version view = V0) && negb (is_some resolved_addresses)
  then Ret (Err AddressLookupMismatch)
  else if
    match resolved_addresses with
    | Some loaded =>
      negb (len (loaded_writable loaded) =? View.total_writable_lookup_accounts view)
      || negb (len (loaded_readonly loaded) =? View.total_readonly_lookup_accounts view)
    | None =>
      negb (View.total_writable_lookup_accounts view =? 0)
      || negb (View.total_readonly_lookup_accounts view =? 0)
    end
  then Ret (Err AddressLookupMismatch)
  else
    writable_cache ← cache_is_writable view resolved_addresses reserved_account_keys;
    Ret (Ok {| view := view; resolved_addresses := resolved_addresses;
               writable_cache := writable_cache |}).

(** The methods of [SVMMessage] and [SVMTransaction] that are not those of the view. *)
Definition account_keys (self : ResolvedTransactionView) : outcome (list Pubkey) :=
  static ← View.static_account_keys (view self);
  Ret (account_keys_iter static (resolved_addresses self)).

Definition fee_payer (self : ResolvedTransactionView) : outcome Pubkey :=
  keys ← View.static_account_keys (view self); unwrap (head keys).

Definition is_writable (self : ResolvedTransactionView) (index : Z) : bool :=
  default false (writable_cache self !! Z.to_nat index).

Definition is_signer (self : ResolvedTransactionView) (index : Z) : bool :=
  index <? View.num_required_signatures (view self).

Definition is_invoked (self : ResolvedTransactionView) (key_index : Z) : outcome bool :=
  if key_index <=? u8_MAX then
    any_in InstructionsIterator_next (View.ix_fuel (view self))
      (λ ix, program_id_index ix =? key_index) (View.instructions_iter (view self))
  else Ret false.

Definition signature_ (self : ResolvedTransactionView) : outcome (list Z) :=
  sigs ← View.signatures (view self); unwrap (head sigs).

End constructors.
