(* ===== verification/TransactionViewSpec.v ===== *)
(** The wire format of a transaction, and that [TransactionFrame::try_new] accepts
    exactly the buffers that are the serialization of a well-formed transaction. *)

From S2P Require Import Prelude Bytes TransactionView.

(** * The format *)

(** A [u16] in seven-bit groups, the low one first; the top bit of a byte says
    that another follows. *)
Definition compress (n : Z) : list Z :=
  if n <? 2 ^ 7 then [n]
  else if n <? 2 ^ 14 then [n mod 2 ^ 7 + 2 ^ 7; n / 2 ^ 7]
  else [n mod 2 ^ 7 + 2 ^ 7; (n / 2 ^ 7) mod 2 ^ 7 + 2 ^ 7; n / 2 ^ 14].

Record Transaction := {
  tx_signatures : list (list Z);
  tx_version : TransactionVersion;
  tx_num_required_signatures : Z;
  tx_num_readonly_signed : Z;
  tx_num_readonly_unsigned : Z;
  tx_account_keys : list Pubkey;
  tx_recent_blockhash : Hash;
  tx_instructions : list SVMInstruction;
  tx_lookups : list SVMMessageAddressTableLookup;
}.

Definition bytes_vec (l : list Z) : list Z := compress (len l) ++ l.
Definition instruction_bytes (ix : SVMInstruction) : list Z :=
  [program_id_index ix] ++ bytes_vec (accounts ix) ++ bytes_vec (data ix).
Definition lookup_bytes (l : SVMMessageAddressTableLookup) : list Z :=
  key_bytes (account_key l) ++ bytes_vec (writable_indexes l) ++ bytes_vec (readonly_indexes l).

Definition header_bytes (tx : Transaction) : list Z :=
  match tx_version tx with V0 => [128] | Legacy => [] end ++
  [tx_num_required_signatures tx; tx_num_readonly_signed tx; tx_num_readonly_unsigned tx].

Definition lookups_bytes (tx : Transaction) : list Z :=
  match tx_version tx with
  | Legacy => []
  | V0 => [len (tx_lookups tx)] ++ concat (lookup_bytes <$> tx_lookups tx)
  end.

Definition signatures_bytes (tx : Transaction) : list Z :=
  [len (tx_signatures tx)] ++ concat (tx_signatures tx).
Definition keys_bytes (tx : Transaction) : list Z :=
  [len (tx_account_keys tx)] ++ concat (key_bytes <$> tx_account_keys tx).
Definition instructions_bytes (tx : Transaction) : list Z :=
  compress (len (tx_instructions tx)) ++ concat (instruction_bytes <$> tx_instructions tx).

(** The signed part of a transaction. *)
Definition message_bytes (tx : Transaction) : list Z :=
  header_bytes tx ++ keys_bytes tx ++ key_bytes (tx_recent_blockhash tx) ++
  instructions_bytes tx ++ lookups_bytes tx.

Definition serialize (tx : Transaction) : list Z := signatures_bytes tx ++ message_bytes tx.

(** * Well-formed transactions *)

(** A vector of bytes whose length has a two-byte compressed form. *)
Definition short_vec (l : list Z) : Prop := len l < 2 ^ 14 ∧ Bytes l.
Definition wf_signature (s : list Z) : Prop := length s = 64%nat ∧ Bytes s.
Definition wf_instruction (ix : SVMInstruction) : Prop :=
  is_byte (program_id_index ix) ∧ short_vec (accounts ix) ∧ short_vec (data ix).
Definition wf_lookup (l : SVMMessageAddressTableLookup) : Prop :=
  is_key (account_key l) ∧ short_vec (writable_indexes l) ∧ short_vec (readonly_indexes l).

Definition total_writable (ls : list SVMMessageAddressTableLookup) : Z :=
  sumZ ((λ l, len (writable_indexes l)) <$> ls).
Definition total_readonly (ls : list SVMMessageAddressTableLookup) : Z :=
  sumZ ((λ l, len (readonly_indexes l)) <$> ls).

Record wf_transaction (tx : Transaction) : Prop := {
  wf_signatures : 1 ≤ len (tx_signatures tx) ≤ 12 ∧ Forall wf_signature (tx_signatures tx);
  wf_header :
    is_byte (tx_num_required_signatures tx) ∧ is_byte (tx_num_readonly_signed tx) ∧
    is_byte (tx_num_readonly_unsigned tx);
  wf_keys : 1 ≤ len (tx_account_keys tx) ≤ 38 ∧ Forall is_key (tx_account_keys tx);
  wf_blockhash : is_key (tx_recent_blockhash tx);
  wf_instructions : len (tx_instructions tx) < 2 ^ 14 ∧ Forall wf_instruction (tx_instructions tx);
  wf_version :
    match tx_version tx with
    | Legacy => tx_num_required_signatures tx < 128 ∧ tx_lookups tx = []
    | V0 =>
      len (tx_lookups tx) ≤ 31 ∧ Forall wf_lookup (tx_lookups tx) ∧
      35 * len (tx_lookups tx) ≤ len (concat (lookup_bytes <$> tx_lookups tx)) ∧
      total_writable (tx_lookups tx) ≤ u16_MAX ∧ total_readonly (tx_lookups tx) ≤ u16_MAX
    end;
}.

(** * Arithmetic of the readers *)

(** Facts about the bits of a byte, by going through the 256 bytes. *)
Lemma byte_cases (P : Z → bool) : forallb P (seqZ 0 256) = true → ∀ b, is_byte b → P b = true.
Proof.
  intros HP b Hb. unfold is_byte in Hb. rewrite forallb_forall in HP. apply HP.
  apply list_elem_of_In, elem_of_seqZ. lia.
Qed.

Lemma land_127 b : is_byte b → Z.land b 127 = b mod 2 ^ 7.
Proof. intros. change 127 with (Z.ones 7). by rewrite Z.land_ones. Qed.

Lemma land_128 b : is_byte b → (Z.land b 128 =? 0) = (b <? 2 ^ 7).
Proof.
  intros Hb. apply eqb_prop.
  apply (byte_cases (λ b, Bool.eqb (Z.land b 128 =? 0) (b <? 2 ^ 7))); [by vm_compute|done].
Qed.

Lemma land_prefix b : is_byte b → 128 ≤ b → (Z.land b (not_u8 128) =? 0) = (b =? 128).
Proof.
  intros Hb Hge. assert (Bool.eqb (Z.land b 127 =? 0) ((b =? 128) || (b =? 0)) = true) as Heq.
  { apply (byte_cases (λ b, Bool.eqb (Z.land b 127 =? 0) ((b =? 128) || (b =? 0)))); [by vm_compute|done]. }
  change (not_u8 128) with 127. apply eqb_prop in Heq. rewrite Heq.
  destruct (Z.eqb_spec b 0); [lia|]. apply orb_false_r.
Qed.

(** Joining groups of bits. *)
Lemma lor_shiftl a b n : 0 ≤ n → 0 ≤ a < 2 ^ n → 0 ≤ b → Z.lor a (Z.shiftl b n) = a + 2 ^ n * b.
Proof.
  intros Hn Ha Hb. pose proof (Z.add_lor_land a (Z.shiftl b n)) as Hadd.
  assert (Z.land a (Z.shiftl b n) = 0) as Hland.
  { apply Z.bits_inj'. intros i Hi. rewrite Z.land_spec, Z.bits_0.
    destruct (Z.lt_ge_cases i n); [rewrite Z.shiftl_spec_low, andb_false_r by lia; done|].
    destruct (Z.eq_dec a 0) as [->|Hne]; [by rewrite Z.bits_0|].
    rewrite (Z.bits_above_log2 a i); [done|lia|]. apply Z.log2_lt_pow2; [lia|].
    apply Z.lt_le_trans with (2 ^ n); [lia|]. apply Z.pow_le_mono_r; lia. }
  rewrite Hland, Z.shiftl_mul_pow2 in Hadd by lia. rewrite Z.shiftl_mul_pow2 by lia. lia.
Qed.

Lemma compress_length n : 0 ≤ n < 2 ^ 14 → len (compress n) = if n <? 2 ^ 7 then 1 else 2.
Proof. intros Hn. unfold compress. repeat case_leb; simpl; lia. Qed.

Lemma compress_Bytes n : 0 ≤ n < 2 ^ 14 → Bytes (compress n).
Proof.
  intros Hn. unfold compress. pose proof (Z.mod_pos_bound n (2 ^ 7)).
  assert (n / 2 ^ 7 < 2 ^ 7) by (apply Z.div_lt_upper_bound; lia).
  pose proof (Z.div_pos n (2 ^ 7)).
  repeat case_leb; repeat constructor; unfold is_byte; lia.
Qed.

Lemma wrapping_small a b : 0 ≤ a → 0 ≤ b → a + b ≤ 2 ^ 63 → wrapping_add 64 a b = a + b.
Proof. intros. unfold wrapping_add. apply Z.mod_small. lia. Qed.

(** The length of the compressed form of a length, as the frame records it. *)
Lemma vec_length o n : 0 ≤ o → 0 ≤ n < 2 ^ 14 →
  as_u8 (wrapping_sub 64 (o + len (compress n)) o) = len (compress n).
Proof.
  intros Ho Hn. rewrite compress_length by done. unfold as_u8, wrapping_sub.
  rewrite Z.add_simpl_l. by destruct (_ <? _).
Qed.

Lemma instruction_bytes_length ix : wf_instruction ix → 3 ≤ len (instruction_bytes ix).
Proof.
  intros (_ & [Ha _] & [Hd _]). unfold instruction_bytes, bytes_vec. rewrite !length_app. simpl.
  pose proof (compress_length (len (accounts ix))). pose proof (compress_length (len (data ix))).
  destruct (len (accounts ix) <? _), (len (data ix) <? _); lia.
Qed.

Lemma len_concat_ge {A} (f : A → list Z) (k : Z) (l : list A) :
  (∀ x, x ∈ l → k ≤ len (f x)) → k * len l ≤ len (concat (f <$> l)).
Proof.
  induction l as [|x l IH]; intros Hf; [simpl; lia|]. rewrite fmap_cons. cbn [concat length].
  rewrite length_app. pose proof (Hf x (list_elem_of_here x l)).
  assert (k * len l ≤ len (concat (f <$> l))) by (apply IH; intros; apply Hf; by right). lia.
Qed.

Lemma lookup_bytes_length l : len (lookup_bytes l) =
  32 + len (compress (len (writable_indexes l))) + len (writable_indexes l) +
  len (compress (len (readonly_indexes l))) + len (readonly_indexes l).
Proof. unfold lookup_bytes, bytes_vec. rewrite !length_app, length_key_bytes. lia. Qed.

Lemma lookups_total_nonneg (f : SVMMessageAddressTableLookup → list Z) ls :
  0 ≤ sumZ ((λ l, len (f l)) <$> ls).
Proof. apply sumZ_nonneg. intros x (l & -> & _)%list_elem_of_fmap. lia. Qed.

(** An array of [n] elements of [k] bytes. *)
Lemma split_array n k (w : list Z) : Bytes w → length w = (n * k)%nat →
  ∃ parts, length parts = n ∧ Forall (λ p, length p = k ∧ Bytes p) parts ∧ w = concat parts.
Proof.
  intros Hb Hw. destruct (array_refs_spec (replicate n k) w Hb) as [Heq Hparts].
  { rewrite Hw, sum_list_replicate. lia. }
  exists (array_refs (replicate n k) w).
  assert (length (array_refs (replicate n k) w) = n) as Hl.
  { rewrite <-(Forall2_length _ _ _ Hparts). apply length_replicate. }
  split_and!; [done| |done]. clear Heq Hw Hl. revert Hparts. generalize (array_refs (replicate n k) w).
  induction n as [|n IH]; intros l Hl; inversion Hl; subst; constructor; eauto.
Qed.

Lemma len_concat {A} (f : A → list Z) k l : (∀ x, x ∈ l → len (f x) = k) →
  len (concat (f <$> l)) = len l * k.
Proof.
  induction l as [|x l IH]; intros Hf; [done|]. rewrite fmap_cons. cbn [concat length].
  rewrite length_app. pose proof (Hf x (list_elem_of_here x l)).
  assert (len (concat (f <$> l)) = len l * k) by (apply IH; intros; apply Hf; by right). lia.
Qed.

Lemma get_app (bytes pre : list Z) b rest : bytes = pre ++ b :: rest → get bytes (len pre) = Some b.
Proof. intros ->. unfold get. rewrite Nat2Z.id. by apply list_lookup_middle. Qed.

Lemma get_end (bytes pre : list Z) : bytes = pre → get bytes (len pre) = None.
Proof. intros ->. unfold get. rewrite Nat2Z.id. apply lookup_ge_None. lia. Qed.

(** * Readers as parsers *)

Section parse.
Context `{env : ViewEnv} `{laws : !ViewLaws env}.
Variable bytes : list Z.
Hypothesis Hbytes : Bytes bytes.
(** No slice is longer than [isize::MAX]. *)
Hypothesis Hlen : len bytes < 2 ^ 63.

(** [m] started at an offset of the buffer returns [a] exactly if the buffer
    goes on with some [w] that [P] relates to [a], and it stops after [w]. *)
Definition parses {A} (m : reader A) (P : Z → A → list Z → Prop) : Prop :=
  ∀ pre rest a offset, bytes = pre ++ rest →
    m (len pre) = (Ok a, offset) ↔
    ∃ w rest', rest = w ++ rest' ∧ P (len pre) a w ∧ offset = len pre + len w.

Lemma parses_iff {A} (m : reader A) (P Q : Z → A → list Z → Prop) :
  parses m P →
  (∀ o a w, 0 ≤ o → o + len w ≤ len bytes → Bytes w → P o a w ↔ Q o a w) →
  parses m Q.
Proof.
  intros Hm HPQ pre rest a offset Heq. rewrite (Hm pre rest a offset Heq).
  assert (∀ w rest', rest = w ++ rest' → P (len pre) a w ↔ Q (len pre) a w) as HPQ'.
  { intros w rest' ->. apply HPQ; [lia| |].
    - rewrite Heq, !length_app. lia.
    - rewrite Heq in Hbytes. by apply Forall_app in Hbytes as [_ [? _]%Forall_app]. }
  split; intros (w & rest' & Hr & HP & Ho); exists w, rest'; by rewrite (HPQ' w rest') in *.
Qed.

Lemma parses_ret {A} (a : A) : parses (mret a) (λ _ b w, b = a ∧ w = []).
Proof.
  intros pre rest b offset Heq. unfold mret, reader_ret. split.
  - intros [= <- <-]. exists [], rest. simpl. eauto with lia.
  - intros (w & rest' & _ & [-> ->] & ->). simpl. do 2 f_equal. lia.
Qed.

Lemma parses_bind {A B} (m : reader A) (k : A → reader B) P Q :
  parses m P → (∀ a o w, P o a w → Bytes w → parses (k a) (Q a)) →
  parses (m ≫= k) (λ o b w, ∃ a w1 w2, w = w1 ++ w2 ∧ P o a w1 ∧ Q a (o + len w1) b w2).
Proof.
  intros Hm Hk pre rest b offset Heq. unfold mbind, reader_bind. split.
  - destruct (m (len pre)) as [[a|e] o1] eqn:Em; [|done]. intros Hkb.
    apply (Hm pre rest a o1 Heq) in Em as (w1 & rest1 & -> & HP & ->).
    assert (len pre + len w1 = len (pre ++ w1)) as Ho by (rewrite length_app; lia).
    assert (Bytes w1) as Hb1.
    { rewrite Heq in Hbytes. by apply Forall_app in Hbytes as [_ [? _]%Forall_app]. }
    rewrite Ho in Hkb. apply (Hk a _ _ HP Hb1 (pre ++ w1) rest1) in Hkb as (w2 & rest2 & -> & HQ & ->);
      [|by rewrite <-app_assoc].
    exists (w1 ++ w2), rest2. rewrite <-app_assoc. split; [done|]. split.
    + exists a, w1, w2. by rewrite Ho.
    + rewrite !length_app. lia.
  - intros (w & rest' & -> & (a & w1 & w2 & -> & HP & HQ) & ->).
    assert (m (len pre) = (Ok a, len pre + len w1)) as ->.
    { eapply Hm; [done|]. exists w1, (w2 ++ rest'). by rewrite <-app_assoc. }
    assert (len pre + len w1 = len (pre ++ w1)) as Ho by (rewrite length_app; lia).
    assert (Bytes w1) as Hb1.
    { rewrite Heq in Hbytes. by apply Forall_app in Hbytes as [_ [[? _]%Forall_app _]%Forall_app]. }
    rewrite Ho in *. eapply (Hk a _ _ HP Hb1 (pre ++ w1) (w2 ++ rest')).
    + by rewrite Heq, <-!app_assoc.
    + exists w2, rest'. split; [done|]. split; [done|]. rewrite !length_app. lia.
Qed.

Lemma parses_offset : parses current_offset (λ o a w, a = o ∧ w = []).
Proof.
  intros pre rest a offset Heq. unfold current_offset. split.
  - intros [= <- <-]. exists [], rest. simpl. eauto with lia.
  - intros (w & rest' & _ & [-> ->] & ->). simpl. do 2 f_equal. lia.
Qed.

Lemma parses_fail {A} e : parses (@fail A e) (λ _ _ _, False).
Proof. intros pre rest a offset Heq. unfold fail. split; [done|naive_solver]. Qed.

(** A [Result] that does not depend on the offset. *)
Lemma parses_lift {A} (r : result A TransactionViewError) :
  parses (lift r) (λ _ a w, r = Ok a ∧ w = []).
Proof.
  intros pre rest a offset Heq. unfold lift. split.
  - intros [= -> <-]. exists [], rest. simpl. eauto with lia.
  - intros (w & rest' & _ & [-> ->] & ->). simpl. do 2 f_equal. lia.
Qed.

Lemma parses_if {A} (b : bool) (m1 m2 : reader A) P1 P2 :
  parses m1 P1 → parses m2 P2 → parses (if b then m1 else m2) (if b then P1 else P2).
Proof. by destruct b. Qed.

Lemma remaining_small o : 0 ≤ o ≤ len bytes → wrapping_sub 64 (len bytes) o = len bytes - o.
Proof. intros. unfold wrapping_sub. apply Z.mod_small. lia. Qed.

Lemma parses_byte : parses (read_byte bytes) (λ _ b w, w = [b]).
Proof.
  intros pre rest b offset Heq. unfold read_byte.
  assert (len pre ≤ len bytes) by (rewrite Heq, length_app; lia).
  rewrite wrapping_small by lia. destruct rest as [|b' rest].
  { rewrite app_nil_r in Heq. rewrite get_end by done. split; [done|].
    intros (w & rest' & Hw & -> & _). done. }
  rewrite (get_app bytes pre b' rest) by done. split.
  - intros [= <- <-]. by exists [b'], rest.
  - intros (w & rest' & Hw & -> & ->). simplify_eq/=. done.
Qed.

(** The two-byte reader, as a function of the bytes at the offset. *)
Lemma optimized_read_at pre rest :
  bytes = pre ++ rest →
  optimized_read_compressed_u16 bytes (len pre) =
  match rest with
  | [] => (Err ParseError, len pre)
  | b1 :: rest =>
    if b1 <? 2 ^ 7 then (Ok b1, len pre + 1)
    else
      match rest with
      | [] => (Err ParseError, len pre)
      | b2 :: _ =>
        if (b2 =? 0) || negb (b2 <? 2 ^ 7) then (Err ParseError, len pre)
        else (Ok (b1 - 2 ^ 7 + 2 ^ 7 * b2), len pre + 2)
      end
  end.
Proof.
  intros Heq. unfold optimized_read_compressed_u16.
  assert (len pre + len rest = len bytes) as Hl by (rewrite Heq, length_app; lia).
  destruct rest as [|b1 rest]; [by rewrite get_end by (by rewrite app_nil_r in Heq)|].
  cbn [length] in Hl. assert (is_byte b1) as Hb1.
  { rewrite Heq in Hbytes. by apply Forall_app in Hbytes as [_ [? _]%Forall_cons]. }
  rewrite (get_app bytes pre b1 rest Heq), land_128, land_127 by done. unfold is_byte in Hb1.
  destruct (Z.ltb_spec b1 (2 ^ 7)).
  { by rewrite Z.mod_small, wrapping_small by lia. }
  rewrite !wrapping_small by lia.
  assert (bytes = (pre ++ [b1]) ++ rest) as Heq2 by (by rewrite <-app_assoc).
  assert (len pre + 1 = len (pre ++ [b1])) as -> by (rewrite length_app; simpl; lia).
  destruct rest as [|b2 rest]; [by rewrite get_end by (by rewrite app_nil_r in Heq2)|].
  assert (is_byte b2) as Hb2.
  { rewrite Heq in Hbytes. by apply Forall_app in Hbytes as [_ [_ [? _]%Forall_cons]%Forall_cons]. }
  rewrite (get_app bytes _ b2 rest Heq2), land_128, land_127 by done. unfold is_byte in Hb2.
  destruct (Z.eqb_spec b2 0), (Z.ltb_spec b2 (2 ^ 7)); simpl; [done..| |done].
  rewrite (Z.mod_small b2) by lia. rewrite (Z.mod_eq b1) by lia.
  assert (b1 / 2 ^ 7 = 1) as -> by (symmetry; apply (Z.div_unique b1 (2 ^ 7) 1 (b1 - 2 ^ 7)); lia).
  unfold as_u16. rewrite Z.mod_small by (rewrite Z.shiftl_mul_pow2; lia).
  rewrite lor_shiftl by lia. done.
Qed.

Lemma parses_u16 :
  parses (optimized_read_compressed_u16 bytes) (λ _ n w, 0 ≤ n < 2 ^ 14 ∧ w = compress n).
Proof.
  intros pre rest n offset Heq. rewrite (optimized_read_at pre rest Heq).
  assert (Bytes rest) as Hr by (rewrite Heq in Hbytes; by apply Forall_app in Hbytes as [_ ?]).
  split.
  - destruct rest as [|b1 rest]; [done|]. apply Forall_cons in Hr as [Hb1 Hr]. unfold is_byte in Hb1.
    destruct (Z.ltb_spec b1 (2 ^ 7)) as [Hlt|Hge].
    { intros [= <- <-]. exists [b1], rest. unfold compress. rewrite (proj2 (Z.ltb_lt b1 _)) by done.
      split_and!; [done|lia|lia|done|done]. }
    destruct rest as [|b2 rest]; [done|]. apply Forall_cons in Hr as [Hb2 Hr]. unfold is_byte in Hb2.
    destruct (Z.eqb_spec b2 0), (Z.ltb_spec b2 (2 ^ 7)); simpl; [done..| |done].
    intros [= <- <-]. exists [b1; b2], rest. unfold compress.
    rewrite (proj2 (Z.ltb_ge _ (2 ^ 7))), (proj2 (Z.ltb_lt _ (2 ^ 14))) by lia.
    rewrite (Z.mul_comm (2 ^ 7) b2), Z.mod_add, Z.mod_small, Z.div_add, Z.div_small by lia.
    split_and!; [done|lia|lia| |done]. do 2 f_equal; lia.
  - intros (w & rest' & -> & [Hn ->] & ->). unfold compress.
    destruct (Z.ltb_spec n (2 ^ 7)) as [Hlt|Hge]; simpl.
    { by rewrite (proj2 (Z.ltb_lt n _)). }
    rewrite (proj2 (Z.ltb_lt n (2 ^ 14))) by lia. simpl.
    pose proof (Z.mod_pos_bound n (2 ^ 7)).
    assert (1 ≤ n / 2 ^ 7) by (apply Z.div_le_lower_bound; lia).
    assert (n / 2 ^ 7 < 2 ^ 7) by (apply Z.div_lt_upper_bound; lia).
    pose proof (Z.div_mod n (2 ^ 7)).
    rewrite (proj2 (Z.ltb_ge _ _)), (proj2 (Z.eqb_neq _ _)), (proj2 (Z.ltb_lt _ _)) by lia.
    simpl. do 2 f_equal. lia.
Qed.

Lemma check_remaining_spec o n : 0 ≤ o ≤ len bytes →
  check_remaining bytes o n = if len bytes - o <? n then Err ParseError else Ok tt.
Proof. intros. unfold check_remaining. by rewrite remaining_small. Qed.

(** Skipping a number of bytes. *)
Lemma parses_skip (m : reader unit) n : 0 ≤ n →
  (∀ o, m o = match check_remaining bytes o n with
              | Err e => (Err e, o)
              | Ok _ => (Ok tt, wrapping_add 64 o n)
              end) →
  parses m (λ _ _ w, len w = n).
Proof.
  intros Hn Hm pre rest [] offset Heq. rewrite Hm.
  assert (len pre + len rest = len bytes) as Hl by (rewrite Heq, length_app; lia).
  rewrite check_remaining_spec by lia. split.
  - destruct (Z.ltb_spec (len bytes - len pre) n); [done|]. intros [= <-].
    exists (take (Z.to_nat n) rest), (drop (Z.to_nat n) rest). rewrite take_drop, length_take.
    rewrite wrapping_small by lia. split_and!; [done|lia..].
  - intros (w & rest' & -> & Hw & ->). rewrite length_app in Hl.
    destruct (Z.ltb_spec (len bytes - len pre) n); [lia|]. rewrite wrapping_small by lia.
    do 2 f_equal. lia.
Qed.

Lemma parses_array {T} (ty : Sized T) n : 0 ≤ n < 2 ^ 16 → 0 ≤ size_of ty ≤ 64 →
  parses (advance_offset_for_array ty bytes n) (λ _ _ w, len w = n * size_of ty).
Proof.
  intros Hn Hs. apply parses_skip; [lia|]. intros o. unfold advance_offset_for_array, wrapping_mul.
  by rewrite Z.mod_small by nia.
Qed.

Lemma parses_type {T} (ty : Sized T) : 0 ≤ size_of ty →
  parses (advance_offset_for_type ty bytes) (λ _ _ w, len w = size_of ty).
Proof. intros Hs. apply parses_skip; [lia|done]. Qed.

(** * Frames *)

Definition frame_of (ix : SVMInstruction) : InstructionFrame :=
  {| num_accounts := len (accounts ix); num_accounts_len := len (compress (len (accounts ix)));
     data_len := len (data ix); data_len_len := len (compress (len (data ix))) |}.

(** The readers in front of a continuation. *)
Lemma parses_byte_bind {B} (k : Z → reader B) Q :
  (∀ a, is_byte a → parses (k a) (Q a)) →
  parses (read_byte bytes ≫= k)
    (λ o b w, ∃ a w', w = a :: w' ∧ is_byte a ∧ Q a (o + 1) b w').
Proof.
  intros Hk. eapply parses_iff; [eapply parses_bind; [apply parses_byte|]|].
  - intros a o w ->. intros [Ha _]%Forall_cons. by apply Hk.
  - intros o b w Ho Hw Hb. split.
    + intros (a & w1 & w2 & -> & -> & HQ). exists a, w2. apply Forall_cons in Hb as [? _]. eauto.
    + intros (a & w' & -> & Ha & HQ). exists a, [a], w'. eauto.
Qed.

Lemma parses_offset_bind {B} (k : Z → reader B) Q :
  (∀ a, 0 ≤ a → parses (k a) (Q a)) → parses (current_offset ≫= k) (λ o b w, Q o o b w).
Proof.
  intros Hk pre rest b offset Heq. unfold mbind, reader_bind, current_offset. apply Hk; [lia|done].
Qed.

(** A reader started at the front of the buffer. *)
Lemma parses_start {A} (m : reader A) P a : parses m P →
  fst (m 0) = Ok a ↔ ∃ w rest, bytes = w ++ rest ∧ P 0 a w.
Proof.
  intros Hm. specialize (Hm [] bytes a). simpl in Hm. change (Z.of_nat 0) with 0 in Hm. split.
  - destruct (m 0) as [r o]. simpl. intros ->. destruct (proj1 (Hm o eq_refl) eq_refl) as (w & rest & ? & ? & _). eauto.
  - intros (w & rest & Heq & HP). rewrite (proj2 (Hm (len w) eq_refl)); [done|].
    exists w, rest. split_and!; [done..|lia].
Qed.

#[local] Opaque parses.

Lemma parses_u16_bind {B} (k : Z → reader B) Q :
  (∀ n, 0 ≤ n < 2 ^ 14 → parses (k n) (Q n)) →
  parses (optimized_read_compressed_u16 bytes ≫= k)
    (λ o b w, ∃ n w', w = compress n ++ w' ∧ 0 ≤ n < 2 ^ 14 ∧ Q n (o + len (compress n)) b w').
Proof.
  intros Hk. eapply parses_iff; [eapply parses_bind; [apply parses_u16|]|].
  - intros n o w [Hn _] _. by apply Hk.
  - intros o b w Ho Hw Hb. split.
    + intros (n & w1 & w2 & -> & [Hn ->] & HQ). eauto.
    + intros (n & w' & -> & Hn & HQ). exists n, (compress n), w'. eauto.
Qed.

Lemma parses_skip_bind {B} (m : reader unit) n (k : reader B) Q :
  parses m (λ _ _ w, len w = n) → parses k Q →
  parses (m;; k) (λ o b w, ∃ v w', w = v ++ w' ∧ len v = n ∧ Q (o + n) b w').
Proof.
  intros Hm Hk. eapply parses_iff; [eapply parses_bind; [apply Hm|by intros; apply Hk]|].
  intros o b w Ho Hw Hb. split.
  - intros (_ & w1 & w2 & -> & <- & HQ). eauto.
  - intros (v & w' & -> & <- & HQ). by exists tt, v, w'.
Qed.

(** A check of the bytes that are left. *)
Lemma parses_check_bind {B} n (k : Z → reader B) Q :
  (∀ a, 0 ≤ a → parses (k a) (Q a)) →
  parses (offset ← current_offset; lift (check_remaining bytes offset n);; k offset)
    (λ o b w, n ≤ len bytes - o ∧ Q o o b w).
Proof.
  intros Hk. eapply parses_iff.
  { apply parses_offset_bind. intros a Ha. eapply (parses_bind _ _ _ (λ _, Q a)); [apply parses_lift|]. intros [] ? ? ? ?.
    by apply Hk. }
  intros o b w Ho Hw Hb. cbv beta. rewrite check_remaining_spec by lia. split.
  - intros ([] & w1 & w2 & -> & [Hc ->] & HQ). rewrite Z.add_0_r in HQ.
    destruct (Z.ltb_spec (len bytes - o) n); [done|]. split; [lia|done].
  - intros [Hn HQ]. exists tt, [], w. simpl. rewrite Z.add_0_r.
    rewrite (proj2 (Z.ltb_ge _ _)) by lia. eauto.
Qed.

(** Composes the readers of a body; what is left is to simplify the predicate. *)
Ltac parse_step :=
  lazymatch goal with
  | |- parses (read_byte _ ≫= _) _ => refine (parses_byte_bind _ _ _); intros
  | |- parses (optimized_read_compressed_u16 _ ≫= _) _ => refine (parses_u16_bind _ _ _); intros
  | |- parses (current_offset ≫= (λ o, lift (check_remaining _ o _);; @?k o)) _ =>
      refine (parses_check_bind _ k _ _); intros
  | |- parses (current_offset ≫= _) _ => refine (parses_offset_bind _ _ _); intros
  | |- parses (advance_offset_for_array _ _ _;; _) _ =>
      refine (parses_skip_bind _ _ _ _ (parses_array _ _ _ _) _); [lia|simpl; lia|]
  | |- parses (advance_offset_for_type _ _;; _) _ =>
      refine (parses_skip_bind _ _ _ _ (parses_type _ _) _); [simpl; lia|]
  | |- parses (mret _) _ => refine (parses_ret _)
  | |- parses (fail _) _ => refine (parses_fail _)
  | |- parses (lift _) _ => refine (parses_lift _)
  end.

Lemma parses_instruction_frame :
  parses (read_instruction_frame bytes)
    (λ _ f w, ∃ ix, wf_instruction ix ∧ w = instruction_bytes ix ∧ f = frame_of ix).
Proof.
  eapply parses_iff; [unfold read_instruction_frame; repeat parse_step|].
  intros o f w Ho Hw Hb. cbv beta. simpl size_of. split.
  - intros (p & w1 & -> & Hp & n & w2 & -> & Hn & acc & w3 & -> & Hacc & m & w4 & -> & Hm & dat & w5
      & -> & Hdat & -> & ->).
    exists {| program_id_index := p; accounts := acc; data := dat |}.
    rewrite Z.mul_1_r in *. subst n m. rewrite app_nil_r in *.
    unfold wf_instruction, short_vec, instruction_bytes, bytes_vec, frame_of. simpl.
    rewrite !vec_length by lia. rewrite !Forall_cons, !Forall_app in Hb. rewrite <-!app_assoc.
    split_and!; [naive_solver lia..].
  - intros ([p acc dat] & (Hp & [Hla Hba] & Hld & Hbd) & -> & ->). simpl in *.
    exists p, (bytes_vec acc ++ bytes_vec dat). split; [done|]. split; [done|]. exists (len acc), (acc ++ bytes_vec dat).
    split; [unfold bytes_vec; by rewrite <-!app_assoc|]. split; [lia|].
    exists acc, (bytes_vec dat). split; [done|]. split; [lia|].
    exists (len dat), dat. split; [done|]. split; [lia|]. exists dat, [].
    rewrite app_nil_r. split; [done|]. split; [lia|]. unfold frame_of. simpl.
    by rewrite !vec_length by lia.
Qed.

Lemma parses_instruction_frames n fs :
  parses (read_instruction_frames bytes n fs)
    (λ _ fs' w, ∃ ixs, length ixs = n ∧ Forall wf_instruction ixs ∧
       w = concat (instruction_bytes <$> ixs) ∧ fs' = fs ++ (frame_of <$> ixs)).
Proof.
  revert fs. induction n as [|n IH]; intros fs; cbn [read_instruction_frames].
  - eapply parses_iff; [apply parses_ret|]. intros o fs' w _ _ _. split.
    + intros [-> ->]. exists []. by rewrite app_nil_r.
    + intros ([|ix ixs] & ? & _ & -> & ->); [|done]. by rewrite app_nil_r.
  - eapply parses_iff; [eapply parses_bind; [apply parses_instruction_frame|intros; apply IH]|].
    intros o fs' w _ _ _. split.
    + intros (f & w1 & w2 & -> & (ix & Hix & -> & ->) & ixs & Hn & Hixs & -> & ->).
      exists (ix :: ixs). rewrite <-app_assoc. simpl. auto with f_equal.
    + intros ([|ix ixs] & Hn & Hixs & -> & ->); [done|]. apply Forall_cons in Hixs as [Hix Hixs]. simplify_eq/=.
      exists (frame_of ix), (instruction_bytes ix), (concat (instruction_bytes <$> ixs)).
      split; [done|]. split; [eauto|]. exists ixs. by rewrite <-app_assoc.
Qed.

Lemma parses_instructions :
  parses (InstructionsFrame_try_new bytes)
    (λ o fr w, ∃ ixs, len ixs < 2 ^ 14 ∧ Forall wf_instruction ixs ∧
       w = compress (len ixs) ++ concat (instruction_bytes <$> ixs) ∧
       fr = {| num_instructions := len ixs;
               instructions_offset := as_u16 (o + len (compress (len ixs)));
               frames := frame_of <$> ixs |}).
Proof.
  eapply parses_iff.
  { unfold InstructionsFrame_try_new. repeat parse_step.
    refine (parses_bind _ _ _ _ (parses_instruction_frames _ _) _). intros. parse_step. }
  intros o fr w Ho Hw Hb. cbv beta. split.
  - intros (n & w' & -> & Hn & Hc & fs & w1 & w2 & -> & (ixs & Hlx & Hixs & -> & ->) & -> & ->).
    rewrite app_nil_r. assert (n = len ixs) as -> by lia. exists ixs. split_and!; [lia|done..].
  - intros (ixs & Hn & Hixs & -> & ->). exists (len ixs), (concat (instruction_bytes <$> ixs)).
    split; [done|]. split; [lia|]. rewrite length_app in Hw.
    assert (3 * len ixs ≤ len (concat (instruction_bytes <$> ixs))).
    { apply len_concat_ge. intros ix Hix. rewrite Forall_forall in Hixs.
      by apply instruction_bytes_length, Hixs. }
    unfold wrapping_mul. rewrite Z.mod_small by lia. split; [lia|].
    exists (frame_of <$> ixs), (concat (instruction_bytes <$> ixs)), [].
    rewrite app_nil_r, Nat2Z.id. eauto 10.
Qed.

(** ** Address table lookups *)

Lemma parses_lookup {B} (k : Z → Z → reader B) Q :
  (∀ n m, 0 ≤ n < 2 ^ 14 → 0 ≤ m < 2 ^ 14 → parses (k n m) (Q n m)) →
  parses
    (advance_offset_for_type Pubkey_type bytes;;
     n ← optimized_read_compressed_u16 bytes; advance_offset_for_array u8_type bytes n;;
     m ← optimized_read_compressed_u16 bytes; advance_offset_for_array u8_type bytes m;;
     k n m)
    (λ o b w, ∃ l w', wf_lookup l ∧ w = lookup_bytes l ++ w' ∧
       Q (len (writable_indexes l)) (len (readonly_indexes l)) (o + len (lookup_bytes l)) b w').
Proof.
  intros Hk. eapply parses_iff.
  { repeat parse_step. refine (Hk _ _ _ _); lia. }
  intros o b w Ho Hw Hb. cbv beta. simpl size_of. split.
  - intros (kb & w1 & -> & Hkb & n & w2 & -> & Hn & wi & w3 & -> & Hwi & m & w4 & -> & Hm & ri & w5
      & -> & Hri & HQ). rewrite Z.mul_1_r in *. subst n m. rewrite !Forall_app in Hb.
    exists {| account_key := key_of_bytes kb; writable_indexes := wi; readonly_indexes := ri |}, w5.
    unfold wf_lookup, short_vec. rewrite lookup_bytes_length.
    cbn [account_key writable_indexes readonly_indexes]. split; [split_and!; [|naive_solver lia..]|split].
    + apply is_key_of_bytes; [naive_solver|lia].
    + unfold lookup_bytes, bytes_vec. cbn [account_key writable_indexes readonly_indexes].
      rewrite key_bytes_of_bytes by (naive_solver lia). by rewrite <-!app_assoc.
    + match goal with _ : Q _ _ ?x _ _ |- Q _ _ ?y _ _ => by replace y with x by lia end.
  - intros ([key wi ri] & w' & (Hkey & [Hw1 Hw2] & [Hr1 Hr2]) & -> & HQ).
    cbn [account_key writable_indexes readonly_indexes] in *.
    exists (key_bytes key), (bytes_vec wi ++ bytes_vec ri ++ w'). rewrite length_key_bytes.
    split; [unfold lookup_bytes; by rewrite <-!app_assoc|]. split; [done|].
    exists (len wi), (wi ++ bytes_vec ri ++ w').
    split; [unfold bytes_vec; by rewrite <-!app_assoc|]. split; [lia|].
    exists wi, (bytes_vec ri ++ w'). split; [done|]. split; [lia|].
    exists (len ri), (ri ++ w'). split; [unfold bytes_vec; by rewrite <-!app_assoc|]. split; [lia|].
    exists ri, w'. split; [done|]. split; [lia|].
    rewrite lookup_bytes_length in HQ. cbn [writable_indexes readonly_indexes] in HQ.
    match goal with _ : Q _ _ ?x _ _ |- Q _ _ ?y _ _ => by replace y with x by lia end.
Qed.

Lemma parses_lookup_totals n tw tr :
  0 ≤ tw → 0 ≤ tr → tw + 2 ^ 14 * Z.of_nat n < 2 ^ 32 → tr + 2 ^ 14 * Z.of_nat n < 2 ^ 32 →
  parses (read_lookup_totals bytes n tw tr)
    (λ _ t w, ∃ ls, length ls = n ∧ Forall wf_lookup ls ∧ w = concat (lookup_bytes <$> ls) ∧
       t = (tw + total_writable ls, tr + total_readonly ls)).
Proof.
  revert tw tr. induction n as [|n IH]; intros tw tr Htw Htr Hw Hr; cbn [read_lookup_totals].
  - eapply parses_iff; [apply parses_ret|]. intros o t w _ _ _. split.
    + intros [-> ->]. exists []. unfold total_writable, total_readonly. simpl.
      by rewrite !Z.add_0_r.
    + intros ([|l ls] & ? & _ & -> & ->); [|done]. unfold total_writable, total_readonly. simpl.
      by rewrite !Z.add_0_r.
  - eapply parses_iff.
    { refine (parses_lookup _ _ _). intros a b Ha Hb. unfold wrapping_add.
      rewrite !(Z.mod_small (_ + _)) by lia. apply IH; lia. }
    intros o t w _ _ _. split.
    + intros (l & w' & Hl & -> & ls & Hn & Hls & -> & ->). exists (l :: ls).
      unfold total_writable, total_readonly. rewrite !fmap_cons, !sumZ_cons. cbn [length concat].
      split_and!; [lia|by constructor|done|]. f_equal; lia.
    + intros ([|l ls] & Hn & Hls & -> & ->); [done|]. apply Forall_cons in Hls as [Hl Hls].
      exists l, (concat (lookup_bytes <$> ls)). split; [done|]. split; [done|].
      exists ls. unfold total_writable, total_readonly. rewrite !fmap_cons, !sumZ_cons.
      simplify_eq/=. split_and!; [done..|]. f_equal; lia.
Qed.

Lemma max_atls : MAX_ATLS_PER_PACKET = 31.
Proof. unfold MAX_ATLS_PER_PACKET. by rewrite packet_data_size. Qed.

Lemma parses_lift_bind {A B} (r : result A TransactionViewError) (k : A → reader B) Q :
  (∀ a, r = Ok a → parses (k a) (Q a)) →
  parses (lift r ≫= k) (λ o b w, ∃ a, r = Ok a ∧ Q a o b w).
Proof.
  intros Hk. eapply parses_iff; [eapply parses_bind; [apply parses_lift|]|].
  - intros a o w [Hr _] _. by apply Hk.
  - intros o b w Ho Hw Hb. split.
    + intros (a & w1 & w2 & -> & [Hr ->] & HQ). rewrite Z.add_0_r in HQ. eauto.
    + intros (a & Hr & HQ). exists a, [], w. simpl. rewrite Z.add_0_r. eauto.
Qed.

(** The totals of the frame fit a [u16]. *)
Lemma parses_totals {B} (t : Z * Z) (k : Z → Z → reader B) Q :
  (∀ a b, parses (k a b) (Q a b)) →
  parses (let '(writable, readonly) := t in
          writable ← lift (u16_try_from writable); readonly ← lift (u16_try_from readonly);
          k writable readonly)
    (λ o b w, t.1 ≤ u16_MAX ∧ t.2 ≤ u16_MAX ∧ Q t.1 t.2 o b w).
Proof.
  intros Hk. destruct t as [tw tr]. eapply parses_iff.
  { refine (parses_lift_bind _ _ _ _). intros a _. refine (parses_lift_bind _ _ _ _). intros b _.
    apply Hk. }
  intros o b w _ _ _. cbv beta. unfold u16_try_from. simpl. split.
  - intros (a & Ha & c & Hc & HQ). destruct (Z.leb_spec tw u16_MAX), (Z.leb_spec tr u16_MAX);
      simplify_eq; done.
  - intros (Ha & Hc & HQ). exists tw. rewrite (proj2 (Z.leb_le tw _)) by done. split; [done|].
    exists tr. by rewrite (proj2 (Z.leb_le tr _)).
Qed.

Lemma parses_lookups :
  parses (AddressTableLookupFrame_try_new bytes)
    (λ o fr w, ∃ ls, len ls ≤ 31 ∧ Forall wf_lookup ls ∧
       35 * len ls ≤ len bytes - (o + 1) ∧
       total_writable ls ≤ u16_MAX ∧ total_readonly ls ≤ u16_MAX ∧
       w = [len ls] ++ concat (lookup_bytes <$> ls) ∧
       fr = {| num_address_table_lookups := len ls;
               address_table_lookups_offset := as_u16 (o + 1);
               total_writable_lookup_accounts := total_writable ls;
               total_readonly_lookup_accounts := total_readonly ls |}).
Proof.
  eapply parses_iff.
  { unfold AddressTableLookupFrame_try_new. rewrite max_atls. parse_step.
    refine (parses_if _ _ _ _ _ (parses_fail _) _). parse_step. unfold is_byte in *.
    refine (parses_bind _ _ _ _ (parses_lookup_totals _ _ _ _ _ _ _) _); [lia..|].
    intros t _ _ _ _. refine (parses_totals t _ _ _). intros. parse_step. }
  intros o fr w Ho Hw Hb. cbv beta. unfold MIN_SIZED_ATL, wrapping_mul, is_byte. change (size_of Pubkey_type) with 32. split.
  - intros (n & w' & -> & Hn & HP). destruct (Z.ltb_spec 31 n); [done|].
    rewrite Z.mod_small in HP by lia.
    destruct HP as (Hc & t & w1 & w2 & -> & (ls & Hls & Hwf & -> & ->) & Htw & Htr & -> & ->).
    simpl in Htw, Htr. rewrite app_nil_r. assert (n = len ls) as -> by lia. exists ls.
    split_and!; [lia|done|lia..|done|done].
  - intros (ls & Hls & Hwf & Hc & Htw & Htr & -> & ->).
    exists (len ls), (concat (lookup_bytes <$> ls)). split; [done|]. split; [lia|].
    rewrite (proj2 (Z.ltb_ge _ _)), Z.mod_small by lia. split; [lia|].
    exists (total_writable ls, total_readonly ls), (concat (lookup_bytes <$> ls)), [].
    rewrite app_nil_r, Nat2Z.id. split; [done|]. split; [|done].
    exists ls. by rewrite !Z.add_0_l.
Qed.

(** ** Signatures, header and keys *)

Lemma max_signatures : MAX_SIGNATURES_PER_PACKET = 12.
Proof. unfold MAX_SIGNATURES_PER_PACKET. by rewrite packet_data_size. Qed.
Lemma max_static_accounts : MAX_STATIC_ACCOUNTS_PER_PACKET = 38.
Proof. unfold MAX_STATIC_ACCOUNTS_PER_PACKET. by rewrite packet_data_size. Qed.

Lemma parses_counted {T F} (ty : Sized T) (max : Z) (mk : Z → Z → F) :
  1 ≤ max < 128 → 1 ≤ size_of ty ≤ 64 →
  parses
    (n ← read_byte bytes;
     if (n =? 0) || (max <? n) then fail ParseError
     else offset ← current_offset; advance_offset_for_array ty bytes n;; mret (mk n offset))
    (λ o fr w, ∃ parts : list (list Z), 1 ≤ len parts ≤ max ∧
       Forall (λ p, len p = size_of ty ∧ Bytes p) parts ∧
       w = [len parts] ++ concat parts ∧ fr = mk (len parts) (o + 1)).
Proof.
  intros Hmax Hs. eapply parses_iff.
  { parse_step. refine (parses_if _ _ _ _ _ (parses_fail _) _). parse_step. unfold is_byte in *.
    refine (parses_skip_bind _ _ _ _ (parses_array _ _ _ _) _); [lia|lia|]. parse_step. }
  intros o fr w Ho Hw Hb. cbv beta. unfold is_byte. split.
  - intros (n & w' & -> & Hn & HP).
    destruct (Z.eqb_spec n 0), (Z.ltb_spec max n); simpl in HP; [done..|].
    destruct HP as (v & w2 & -> & Hv & -> & ->). rewrite app_nil_r in *.
    apply Forall_cons in Hb as [_ Hb].
    destruct (split_array (Z.to_nat n) (Z.to_nat (size_of ty)) v Hb) as (parts & Hl & Hp & ->).
    { rewrite <-Z2Nat.inj_mul by lia. lia. }
    exists parts. assert (n = len parts) as -> by lia. split_and!; [lia..| |done|done].
    eapply Forall_impl; [exact Hp|]. intros p [Hlp Hbp]. split; [lia|done].
  - intros (parts & Hl & Hp & -> & ->). exists (len parts), (concat parts). split; [done|].
    split; [lia|]. rewrite (proj2 (Z.eqb_neq _ _)), (proj2 (Z.ltb_ge _ _)) by lia. simpl.
    exists (concat parts), []. rewrite app_nil_r. split; [done|]. split; [|done].
    rewrite <-(list_fmap_id parts) at 1. apply len_concat. intros p Hin.
    rewrite Forall_forall in Hp. by apply Hp.
Qed.

Lemma parses_signatures :
  parses (SignatureFrame_try_new bytes)
    (λ o fr w, ∃ sigs, 1 ≤ len sigs ≤ 12 ∧ Forall wf_signature sigs ∧
       w = [len sigs] ++ concat sigs ∧
       fr = {| num_signatures := len sigs; signature_offset := as_u16 (o + 1) |}).
Proof.
  eapply parses_iff.
  { unfold SignatureFrame_try_new. rewrite max_signatures.
    apply (parses_counted Signature_type 12
             (λ n o, {| num_signatures := n; signature_offset := as_u16 o |})); simpl; lia. }
  intros o fr w Ho Hw Hb. cbv beta. unfold wf_signature. change (size_of Signature_type) with 64.
  split; intros (parts & Hn & Hp & -> & ->); exists parts; split_and!; try lia; try done;
    (eapply Forall_impl; [exact Hp|]); intros p [? ?]; (split; [lia|done]).
Qed.

Lemma parses_static_keys :
  parses (StaticAccountKeysFrame_try_new bytes)
    (λ o fr w, ∃ keys, 1 ≤ len keys ≤ 38 ∧ Forall is_key keys ∧
       w = [len keys] ++ concat (key_bytes <$> keys) ∧
       fr = {| num_static_accounts := len keys; static_accounts_offset := as_u16 (o + 1) |}).
Proof.
  eapply parses_iff.
  { unfold StaticAccountKeysFrame_try_new. rewrite max_static_accounts.
    apply (parses_counted Pubkey_type 38
             (λ n o, {| num_static_accounts := n; static_accounts_offset := as_u16 o |})); simpl; lia. }
  intros o fr w Ho Hw Hb. cbv beta. change (size_of Pubkey_type) with 32. split.
  - intros (parts & Hn & Hp & -> & ->). exists (key_of_bytes <$> parts). rewrite length_fmap.
    assert (key_bytes <$> (key_of_bytes <$> parts) = parts) as ->.
    { rewrite <-list_fmap_compose. rewrite <-(list_fmap_id parts) at 2. apply list_fmap_ext.
      intros i p Hi. rewrite Forall_lookup in Hp. destruct (Hp i p Hi). simpl.
      apply key_bytes_of_bytes; [done|lia]. }
    split_and!; try done; try lia. apply Forall_fmap. eapply Forall_impl; [exact Hp|].
    intros p [? ?]. apply is_key_of_bytes; [done|lia].
  - intros (keys & Hn & Hk & -> & ->). exists (key_bytes <$> keys). rewrite length_fmap.
    split_and!; try done; try lia. apply Forall_fmap, Forall_true. intros k. unfold compose.
    rewrite length_key_bytes. split; [done|apply key_bytes_Bytes].
Qed.

Lemma parses_header :
  parses (MessageHeaderFrame_try_new bytes)
    (λ o fr w, ∃ v req rs ru, is_byte req ∧ is_byte rs ∧ is_byte ru ∧ (v = Legacy → req < 128) ∧
       w = match v with V0 => [128] | Legacy => [] end ++ [req; rs; ru] ∧
       fr = {| message_offset := as_u16 o; version := v; num_required_signatures := req;
               num_readonly_signed_accounts := rs; num_readonly_unsigned_accounts := ru |}).
Proof.
  eapply parses_iff.
  { unfold MessageHeaderFrame_try_new. rewrite message_version_prefix. parse_step. parse_step.
    refine (parses_bind _ _ _ (λ t o fr w, ∃ rs ru, w = [rs; ru] ∧ is_byte rs ∧ is_byte ru ∧
      fr = {| message_offset := _; version := t.1; num_required_signatures := t.2;
              num_readonly_signed_accounts := rs; num_readonly_unsigned_accounts := ru |}) _ _).
    { refine (parses_if _ _ _ _ _ _ _); [|parse_step].
      refine (parses_if _ _ _ _ _ _ (parses_fail _)). repeat parse_step. }
    intros [v req] _ _ _ _. eapply parses_iff; [repeat parse_step|]. intros o fr w _ _ _. split.
    - intros (rs & w1 & -> & Hrs & ru & w2 & -> & Hru & -> & ->). by exists rs, ru.
    - intros (rs & ru & -> & Hrs & Hru & ->). exists rs, [ru]. do 2 (split; [done|]).
      exists ru, []. done. }
  intros o fr w Ho Hw Hb. cbv beta. split.
  - intros (p & w1 & -> & Hp & t & w2 & w3 & -> & HP & rs & ru & -> & Hrs & Hru & ->).
    rewrite land_128 in HP by done. destruct (Z.ltb_spec p (2 ^ 7)) as [Hlt|Hge]; simpl in HP.
    + destruct HP as [-> ->]. exists Legacy, p, rs, ru. done.
    + rewrite land_prefix in HP by done. destruct (Z.eqb_spec p 128) as [->|]; [|done].
      destruct HP as (req & w & -> & Hreq & -> & ->). by exists V0, req, rs, ru.
  - intros (v & req & rs & ru & Hreq & Hrs & Hru & Hv & -> & ->). destruct v.
    + exists req, [rs; ru]. do 2 (split; [done|]). exists (Legacy, req), [], [rs; ru].
      split; [done|]. specialize (Hv eq_refl). rewrite land_128 by done.
      rewrite (proj2 (Z.ltb_lt req _)) by lia. split; [done|]. by exists rs, ru.
    + exists 128, [req; rs; ru]. split; [done|]. split; [unfold is_byte; lia|].
      exists (V0, req), [req], [rs; ru]. split; [done|]. split; [|by exists rs, ru].
      simpl. by exists req, [].
Qed.

(** ** The whole transaction *)

(** Where the parts start. *)
Definition message_start (tx : Transaction) : Z := len (signatures_bytes tx).
Definition keys_start (tx : Transaction) : Z := message_start tx + len (header_bytes tx).
Definition blockhash_start (tx : Transaction) : Z := keys_start tx + len (keys_bytes tx).
Definition instructions_start (tx : Transaction) : Z := blockhash_start tx + 32.
Definition lookups_start (tx : Transaction) : Z := instructions_start tx + len (instructions_bytes tx).

(** The frame of a transaction. *)
Definition tx_frame (tx : Transaction) : TransactionFrame :=
  {| signature := {| num_signatures := len (tx_signatures tx); signature_offset := 1 |};
     message_header :=
       {| message_offset := as_u16 (message_start tx); version := tx_version tx;
          num_required_signatures := tx_num_required_signatures tx;
          num_readonly_signed_accounts := tx_num_readonly_signed tx;
          num_readonly_unsigned_accounts := tx_num_readonly_unsigned tx |};
     static_account_keys_frame :=
       {| num_static_accounts := len (tx_account_keys tx);
          static_accounts_offset := as_u16 (keys_start tx + 1) |};
     recent_blockhash_offset := as_u16 (blockhash_start tx);
     instructions :=
       {| num_instructions := len (tx_instructions tx);
          instructions_offset :=
            as_u16 (instructions_start tx + len (compress (len (tx_instructions tx))));
          frames := frame_of <$> tx_instructions tx |};
     address_table_lookup :=
       {| num_address_table_lookups := len (tx_lookups tx);
          address_table_lookups_offset :=
            match tx_version tx with Legacy => 0 | V0 => as_u16 (lookups_start tx + 1) end;
          total_writable_lookup_accounts := total_writable (tx_lookups tx);
          total_readonly_lookup_accounts := total_readonly (tx_lookups tx) |} |}.

(** The lookups of a transaction, by version. *)
Lemma parses_version_lookups v :
  parses
    (match v with
     | Legacy => mret {| num_address_table_lookups := 0; address_table_lookups_offset := 0;
                         total_writable_lookup_accounts := 0; total_readonly_lookup_accounts := 0 |}
     | V0 => AddressTableLookupFrame_try_new bytes
     end)
    (λ o fr w, ∃ ls,
       match v with
       | Legacy => ls = [] ∧ w = []
       | V0 => len ls ≤ 31 ∧ Forall wf_lookup ls ∧ 35 * len ls ≤ len bytes - (o + 1) ∧
               total_writable ls ≤ u16_MAX ∧ total_readonly ls ≤ u16_MAX ∧
               w = [len ls] ++ concat (lookup_bytes <$> ls)
       end ∧
       fr = {| num_address_table_lookups := len ls;
               address_table_lookups_offset := match v with Legacy => 0 | V0 => as_u16 (o + 1) end;
               total_writable_lookup_accounts := total_writable ls;
               total_readonly_lookup_accounts := total_readonly ls |}).
Proof.
  destruct v.
  - eapply parses_iff; [parse_step|]. intros o fr w _ _ _. split.
    + intros [-> ->]. by exists [].
    + by intros (ls & [-> ->] & ->).
  - eapply parses_iff; [apply parses_lookups|]. intros o fr w _ _ _. cbv beta. split.
    + intros (ls & ? & ? & ? & ? & ? & -> & ->). exists ls. done.
    + intros (ls & (? & ? & ? & ? & ? & ->) & ->). exists ls. done.
Qed.

Lemma parses_end {A} (a : A) :
  parses (offset ← current_offset; if negb (offset =? len bytes) then fail ParseError else mret a)
    (λ o b w, o = len bytes ∧ b = a ∧ w = []).
Proof.
  eapply parses_iff.
  { parse_step. refine (parses_if _ _ _ _ _ (parses_fail _) _). parse_step. }
  intros o b w _ _ _. cbv beta. destruct (Z.eqb_spec o (len bytes)); simpl; naive_solver.
Qed.

Definition frame_reader : reader TransactionFrame :=
  signature ← SignatureFrame_try_new bytes;
  message_header ← MessageHeaderFrame_try_new bytes;
  static_account_keys ← StaticAccountKeysFrame_try_new bytes;
  offset ← current_offset;
  let recent_blockhash_offset := as_u16 offset in
  advance_offset_for_type Hash_type bytes;;
  instructions ← InstructionsFrame_try_new bytes;
  address_table_lookup ←
    (match version message_header with
     | Legacy => mret {| num_address_table_lookups := 0; address_table_lookups_offset := 0;
                         total_writable_lookup_accounts := 0;
                         total_readonly_lookup_accounts := 0 |}
     | V0 => AddressTableLookupFrame_try_new bytes
     end);
  offset ← current_offset;
  if negb (offset =? len bytes) then fail ParseError
  else
    mret {| signature := signature; message_header := message_header;
            static_account_keys_frame := static_account_keys;
            recent_blockhash_offset := recent_blockhash_offset;
            instructions := instructions; address_table_lookup := address_table_lookup |}.

(** The composition of the frames' readers, and its grammar. *)
Definition frame_grammar : {P | parses frame_reader P}.
Proof.
  eexists. unfold frame_reader.
  refine (parses_bind _ _ _ _ parses_signatures _). intros.
  refine (parses_bind _ _ _ _ parses_header _). intros.
  refine (parses_bind _ _ _ _ parses_static_keys _). intros.
  parse_step. parse_step.
  refine (parses_bind _ _ _ _ parses_instructions _). intros.
  refine (parses_bind _ _ _ _ (parses_version_lookups _) _). intros.
  refine (parses_end _).
Defined.

Lemma try_new_grammar fr :
  TransactionFrame_try_new bytes = Ok fr ↔ ∃ w rest, bytes = w ++ rest ∧ `frame_grammar 0 fr w.
Proof. apply parses_start, (proj2_sig frame_grammar). Qed.

Lemma try_new_sound fr :
  TransactionFrame_try_new bytes = Ok fr →
  ∃ tx, wf_transaction tx ∧ bytes = serialize tx ∧ fr = tx_frame tx.
Proof.
  rewrite try_new_grammar. cbn [frame_grammar proj1_sig]. change (size_of Hash_type) with 32.
  intros (w & rest & Heq & sg & w1 & wa & -> & (sigs & Hns & Hsigs & -> & ->) & hd & w2 & wb & -> &
    (v & req & rs & ru & Hreq & Hrs & Hru & Hv & Ew2 & ->) & ky & w3 & wc & -> &
    (keys & Hnk & Hkeys & Ew3 & ->) & wh & wd & -> & Hh & ixf & w4 & we & -> &
    (ixs & Hnx & Hixs & Ew4 & ->) & af & w5 & w6 & -> & (ls & Hls & ->) & Hend & -> & ->).
  simpl version in *. rewrite app_nil_r in *.
  assert (rest = []) as ->.
  { apply nil_length_inv. apply (f_equal length) in Heq. rewrite !length_app in Heq. simpl in *. lia. }
  assert (Bytes wh) as Hbh.
  { rewrite Heq, !Forall_app in Hbytes. naive_solver. }
  set (tx := {| tx_signatures := sigs; tx_version := v; tx_num_required_signatures := req;
       tx_num_readonly_signed := rs; tx_num_readonly_unsigned := ru; tx_account_keys := keys;
       tx_recent_blockhash := key_of_bytes wh; tx_instructions := ixs; tx_lookups := ls |}).
  assert (w5 = lookups_bytes tx) as Ew5 by (unfold lookups_bytes; simpl; by destruct v; naive_solver).
  assert (wh = key_bytes (tx_recent_blockhash tx)) as Ewh
    by (symmetry; apply key_bytes_of_bytes; [done|lia]).
  exists tx. split; [|split].
  - split; simpl; [done..|by apply is_key_of_bytes; [|lia]|done|].
    destruct v; [naive_solver|]. destruct Hls as (? & ? & ? & ? & ? & ->).
    cbn [app length] in *. split_and!; [done|done|lia|done|done].
  - rewrite app_nil_r in Heq. unfold serialize, message_bytes. rewrite <-Ewh, <-Ew5, Heq.
    change (header_bytes tx) with (match v with V0 => [128] | Legacy => [] end ++ [req; rs; ru]).
    change (keys_bytes tx) with ([len keys] ++ concat (key_bytes <$> keys)).
    change (instructions_bytes tx) with (compress (len ixs) ++ concat (instruction_bytes <$> ixs)).
    by rewrite <-Ew2, <-Ew3, <-Ew4, <-!app_assoc.
  - subst w2 w3 w4. done.
Qed.

Lemma try_new_complete tx :
  wf_transaction tx → bytes = serialize tx → TransactionFrame_try_new bytes = Ok (tx_frame tx).
Proof.
  rewrite try_new_grammar. cbn [frame_grammar proj1_sig]. change (size_of Hash_type) with 32.
  intros [[? ?] (? & ? & ?) [? ?] ? [? ?] Hver] Heq.
  exists bytes, []. rewrite app_nil_r. split; [done|].
  exists (signature (tx_frame tx)), (signatures_bytes tx), (message_bytes tx).
  split; [done|]. split; [by exists (tx_signatures tx)|].
  exists (message_header (tx_frame tx)), (header_bytes tx). eexists _. split; [done|]. split.
  { exists (tx_version tx), (tx_num_required_signatures tx), (tx_num_readonly_signed tx),
      (tx_num_readonly_unsigned tx). split_and!; try done. intros Hl. rewrite Hl in Hver. by destruct Hver. }
  exists (static_account_keys_frame (tx_frame tx)), (keys_bytes tx). eexists _. split; [done|].
  split; [by exists (tx_account_keys tx)|].
  exists (key_bytes (tx_recent_blockhash tx)). eexists _. split; [done|].
  rewrite length_key_bytes. split; [done|].
  exists (instructions (tx_frame tx)), (instructions_bytes tx), (lookups_bytes tx). split; [done|].
  split; [by exists (tx_instructions tx)|].
  exists (address_table_lookup (tx_frame tx)), (lookups_bytes tx), [].
  rewrite app_nil_r. split; [done|].
  assert (len bytes = len (signatures_bytes tx) + len (header_bytes tx) + len (keys_bytes tx) + 32 +
    len (instructions_bytes tx) + len (lookups_bytes tx)) as Hl.
  { rewrite Heq. unfold serialize, message_bytes. rewrite !length_app, length_key_bytes. lia. }
  split; [|split; [lia|done]].
  exists (tx_lookups tx). split; [|done]. unfold lookups_bytes in *. simpl version.
  destruct (tx_version tx); [naive_solver|]. destruct Hver as (? & ? & ? & ? & ?).
  cbn [app length] in Hl. split_and!; [done|done|lia|done|done|done].
Qed.

End parse.
