(* ===== verification/TransactionViewProps.v ===== *)
(** The accessors and iterators of a transaction view, sanitization, and the
    resolved view's cache of writable accounts, on the frame of a transaction. *)

From S2P Require Import Prelude Bytes TransactionView TransactionViewSpec.

(** * Loops over iterators *)

(** [for x in l { s = body(x, s)? }]. *)
Fixpoint try_each {A S E} (body : A → S → outcome (result S E)) (l : list A) (s : S)
    : outcome (result S E) :=
  match l with
  | [] => Ret (Ok s)
  | x :: l => s ←? body x s; try_each body l s
  end.

Lemma for_in_collect {I A S E} (next : I → outcome (option A * I)) fuel
    (body : A → S → outcome (result S E)) it s l :
  collect next fuel it = Ret l → for_in next fuel body it s = try_each body l s.
Proof.
  revert it s l. induction fuel as [|fuel IH]; intros it s l; cbn [collect for_in]; [done|].
  destruct (next it) as [[[x|] it']| |]; simpl; [|by intros [= <-]|done..].
  destruct (collect next fuel it') as [l'| |] eqn:Hc; simpl; [|done..]. intros [= <-]. cbn [try_each].
  destruct (body x s) as [[s'|e]| |]; simpl; [by apply IH|done..].
Qed.

Lemma any_in_collect {I A} (next : I → outcome (option A * I)) fuel p it l :
  collect next fuel it = Ret l → any_in next fuel p it = Ret (existsb p l).
Proof.
  revert it l. induction fuel as [|fuel IH]; intros it l; cbn [collect any_in]; [done|].
  destruct (next it) as [[[x|] it']| |]; simpl; [|by intros [= <-]|done..].
  destruct (collect next fuel it') as [l'| |] eqn:Hc; simpl; [|done..]. intros [= <-]. cbn [existsb].
  destruct (p x); simpl; [done|]. by apply IH.
Qed.

(** * Slices of the buffer *)

Lemma array_refs_replicate k parts rest : Forall (λ p : list Z, length p = k) parts →
  array_refs (replicate (length parts) k) (concat parts ++ rest) = parts.
Proof.
  induction 1 as [|p parts Hp Hps IH]; [done|]. cbn [length replicate concat].
  rewrite <-app_assoc, array_refs_app by done. by rewrite IH.
Qed.

Section slices.
Variable bytes : list Z.
Hypothesis Hlen : len bytes < 2 ^ 63.

Lemma ptr_add_in pre rest : bytes = pre ++ rest → ptr_add bytes (len pre) = Ret (len pre).
Proof.
  intros ->. unfold ptr_add. rewrite (proj2 (Z.leb_le _ _)); [done|]. rewrite length_app. lia.
Qed.

Lemma from_raw_parts_in {T} (ty : Sized T) pre parts rest :
  0 ≤ size_of ty → bytes = pre ++ concat parts ++ rest →
  Forall (λ p : list Z, len p = size_of ty) parts →
  from_raw_parts ty bytes (len pre) (len parts) = Ret (of_bytes ty <$> parts).
Proof.
  intros Hs Heq Hp. unfold from_raw_parts.
  assert (len (concat parts) = len parts * size_of ty) as Hc.
  { rewrite <-(list_fmap_id parts) at 1. apply len_concat. intros p Hin.
    rewrite Forall_forall in Hp. by apply Hp. }
  rewrite (proj2 (Z.leb_le _ _)) by (rewrite Heq, !length_app; lia). simpl.
  rewrite !Nat2Z.id, Heq, drop_app_length, array_refs_replicate; [done|].
  eapply Forall_impl; [exact Hp|]. intros p. simpl. lia.
Qed.

(** Bytes read one by one. *)
Lemma from_raw_bytes pre w rest : bytes = pre ++ w ++ rest →
  from_raw_parts u8_type bytes (len pre) (len w) = Ret w.
Proof.
  intros Heq. assert (concat ((λ b, [b]) <$> w) = w) as Hw.
  { clear. induction w as [|b w IH]; [done|]. rewrite fmap_cons. cbn [concat]. by rewrite IH. }
  replace (len w) with (len ((λ b : Z, [b]) <$> w)) by (by rewrite length_fmap).
  rewrite (from_raw_parts_in u8_type pre _ rest); [|done|by rewrite Hw|].
  - rewrite <-list_fmap_compose. f_equal. rewrite <-(list_fmap_id w) at 2. by apply list_fmap_ext.
  - by apply Forall_fmap, Forall_true.
Qed.

Lemma unchecked_slice_in pre w rest : bytes = pre ++ w ++ rest → len w < 2 ^ 16 →
  unchecked_read_slice_data u8_type bytes (len pre) (len w) = Ret (w, len (pre ++ w)).
Proof.
  intros Heq Hw. unfold unchecked_read_slice_data. rewrite (ptr_add_in pre (w ++ rest)) by done.
  rewrite bind_Ret_l, (from_raw_bytes pre w rest), bind_Ret_l by done.
  unfold wrapping_mul. simpl size_of. rewrite Z.mul_1_r, Z.mod_small by lia.
  rewrite Heq, !length_app in Hlen. rewrite wrapping_small by lia.
  by rewrite length_app, Nat2Z.inj_add.
Qed.

Lemma unchecked_byte_in pre b rest : bytes = pre ++ b :: rest →
  unchecked_read_byte bytes (len pre) = Ret (b, len (pre ++ [b])).
Proof.
  intros Heq. unfold unchecked_read_byte. rewrite (get_app bytes pre b rest) by done. simpl.
  rewrite wrapping_small, length_app; simpl; [do 2 f_equal; lia|lia..|].
  rewrite Heq, length_app in Hlen. simpl in Hlen. lia.
Qed.

(** A vector whose length is skipped and not parsed again. *)
Lemma unchecked_vec_in pre w rest : bytes = pre ++ bytes_vec w ++ rest → len w < 2 ^ 14 →
  unchecked_read_slice_data u8_type bytes (wrapping_add 64 (len pre) (len (compress (len w)))) (len w)
  = Ret (w, len (pre ++ bytes_vec w)).
Proof.
  unfold bytes_vec. intros Heq Hw.
  assert (bytes = (pre ++ compress (len w)) ++ w ++ rest) as Heq' by (by rewrite Heq, <-!app_assoc).
  rewrite wrapping_small by (rewrite Heq, !length_app in Hlen; lia).
  rewrite <-Nat2Z.inj_add, <-length_app, (unchecked_slice_in _ w rest Heq') by lia.
  by rewrite <-app_assoc.
Qed.
End slices.

(** * The instructions iterator *)

Section iterators.
Variable bytes : list Z.
Hypothesis Hbytes : Bytes bytes.
Hypothesis Hlen : len bytes < 2 ^ 63.

Lemma InstructionsIterator_next_at pre ix rest don todo :
  bytes = pre ++ instruction_bytes ix ++ rest → wf_instruction ix →
  len (don ++ ix :: todo) < 2 ^ 14 →
  let it offset index :=
    {| ii_bytes := bytes; ii_offset := offset; ii_num_instructions := len (don ++ ix :: todo);
       ii_index := index; ii_frames := frame_of <$> (don ++ ix :: todo) |} in
  InstructionsIterator_next (it (len pre) (len don)) =
  Ret (Some ix, it (len (pre ++ instruction_bytes ix)) (len (don ++ [ix]))).
Proof.
  intros Heq (Hp & [Ha _] & [Hd _]) Hn it. unfold InstructionsIterator_next, it.
  cbn [ii_bytes ii_offset ii_num_instructions ii_index ii_frames].
  rewrite length_app in Hn. cbn [length] in Hn.
  rewrite (proj2 (Z.ltb_lt _ _)) by (rewrite length_app; cbn [length]; lia).
  rewrite Nat2Z.id, list_lookup_fmap, list_lookup_middle by done.
  cbn [fmap option_fmap option_map unwrap]. rewrite bind_Ret_l.
  unfold instruction_bytes in *. rewrite <-!app_assoc in Heq.
  rewrite (unchecked_byte_in bytes Hlen pre _ _ Heq), bind_Ret_l. cbn [frame_of num_accounts
    num_accounts_len data_len data_len_len].
  rewrite (app_assoc pre) in Heq. rewrite (unchecked_vec_in bytes Hlen _ _ _ Heq), bind_Ret_l by done.
  rewrite (app_assoc (pre ++ _)) in Heq. rewrite (unchecked_vec_in bytes Hlen _ _ _ Heq), bind_Ret_l by done.
  destruct ix as [p acc dat]. cbn [program_id_index accounts data]. do 3 f_equal.
  - by rewrite <-!app_assoc.
  - unfold wrapping_add. rewrite Z.mod_small by lia. rewrite length_app. simpl. lia.
Qed.

Lemma InstructionsIterator_collect ixs pre rest don fuel :
  bytes = pre ++ concat (instruction_bytes <$> ixs) ++ rest →
  Forall wf_instruction ixs → len (don ++ ixs) < 2 ^ 14 → (length ixs < fuel)%nat →
  collect InstructionsIterator_next fuel
    {| ii_bytes := bytes; ii_offset := len pre; ii_num_instructions := len (don ++ ixs);
       ii_index := len don; ii_frames := frame_of <$> (don ++ ixs) |} = Ret ixs.
Proof.
  revert pre don fuel. induction ixs as [|ix ixs IH]; intros pre don [|fuel] Heq Hwf Hn Hf;
    [simpl in Hf; lia| |simpl in Hf; lia|]; cbn [collect].
  - unfold InstructionsIterator_next. cbn [ii_index ii_num_instructions].
    by rewrite app_nil_r, Z.ltb_irrefl.
  - apply Forall_cons in Hwf as [Hix Hwf]. rewrite fmap_cons in Heq. cbn [concat] in Heq.
    rewrite <-app_assoc in Heq.
    rewrite (InstructionsIterator_next_at pre ix _ don ixs Heq Hix Hn), bind_Ret_l.
    rewrite (cons_middle ix don ixs), app_assoc in *.
    rewrite (IH (pre ++ instruction_bytes ix) (don ++ [ix])); [done|by rewrite Heq, <-!app_assoc|done..|].
    simpl in Hf. lia.
Qed.

(** * The lookups iterator *)

(** Reading at an offset of the buffer never leaves it, and stays at such an offset. *)
Definition in_bounds (o : Z) : Prop := 0 ≤ o ≤ len bytes.

Lemma in_bounds_split o : in_bounds o → ∃ pre rest, bytes = pre ++ rest ∧ o = len pre.
Proof.
  intros Ho. exists (take (Z.to_nat o) bytes), (drop (Z.to_nat o) bytes). unfold in_bounds in Ho.
  rewrite take_drop, length_take. split; [done|lia].
Qed.

Lemma optimized_read_bounds o r o' :
  in_bounds o → optimized_read_compressed_u16 bytes o = (r, o') →
  in_bounds o' ∧ ∀ n, r = Ok n → 0 ≤ n < 2 ^ 14.
Proof.
  intros Ho Hr. destruct (in_bounds_split o Ho) as (pre & rest & Heq & ->). destruct r as [n|e].
  - apply (parses_u16 bytes Hbytes Hlen pre rest n o' Heq) in Hr as (w & rest' & -> & [Hn ->] & ->).
    split; [|by intros ? [= <-]]. unfold in_bounds. rewrite Heq, !length_app. lia.
  - split; [|done]. rewrite (optimized_read_at bytes Hbytes Hlen pre rest Heq) in Hr.
    destruct rest as [|b1 [|b2 rest]]; repeat case_match; by simplify_eq.
Qed.

Lemma check_remaining_bounds o n : in_bounds o → 0 ≤ n →
  check_remaining bytes o n = Ok tt ↔ o + n ≤ len bytes.
Proof.
  intros Ho Hn. unfold in_bounds in Ho. rewrite check_remaining_spec by done. case_leb; split; try done; lia.
Qed.

Lemma check_remaining_in o n : 0 ≤ o → 0 ≤ n → o + n ≤ len bytes → check_remaining bytes o n = Ok tt.
Proof. intros. apply check_remaining_bounds; [unfold in_bounds|..]; lia. Qed.

Lemma read_type_bounds {T} (ty : Sized T) o : 0 ≤ size_of ty → in_bounds o →
  ∃ r o', read_type ty bytes o = Ret (r, o') ∧ in_bounds o'.
Proof.
  intros Hs Ho. unfold read_type, ptr_add, advance_offset_for_type. unfold in_bounds in *.
  rewrite (proj2 (Z.leb_le o _)) by lia. simpl.
  destruct (check_remaining _ _ _) as [[]|e] eqn:Hc; [|by eauto].
  apply check_remaining_bounds in Hc; [|done..]. unfold deref_type.
  rewrite (proj2 (Z.leb_le _ _)), wrapping_small by lia. simpl. eexists _, _. split; [done|lia].
Qed.

Lemma read_slice_bounds o n : 0 ≤ n < 2 ^ 16 → in_bounds o →
  ∃ r o', read_slice_data u8_type bytes o n = Ret (r, o') ∧ in_bounds o'.
Proof.
  intros Hn Ho. unfold read_slice_data, ptr_add, advance_offset_for_array. unfold in_bounds in *.
  rewrite (proj2 (Z.leb_le o _)) by lia. simpl.
  unfold wrapping_mul. rewrite Z.mul_1_r, Z.mod_small by lia.
  destruct (check_remaining _ _ _) as [[]|e] eqn:Hc; [|by eauto].
  apply check_remaining_bounds in Hc; [|done|lia]. unfold from_raw_parts. simpl size_of.
  rewrite Z.mul_1_r, (proj2 (Z.leb_le _ _)), wrapping_small by lia. simpl. eexists _, _. split; [done|lia].
Qed.

Lemma AddressTableLookupIterator_next_bounds it :
  ai_bytes it = bytes → in_bounds (ai_offset it) → 0 ≤ ai_index it →
  ai_num_address_table_lookups it < 2 ^ 8 →
  ∃ item it', AddressTableLookupIterator_next it = Ret (item, it') ∧
    ai_bytes it' = bytes ∧ in_bounds (ai_offset it') ∧
    ai_num_address_table_lookups it' = ai_num_address_table_lookups it ∧
    (item = None ∨ ai_index it < ai_num_address_table_lookups it ∧ ai_index it' = ai_index it + 1).
Proof.
  intros Eb Ho Hi Hn. unfold AddressTableLookupIterator_next. rewrite Eb.
  destruct (Z.ltb_spec (ai_index it) (ai_num_address_table_lookups it)) as [Hlt|Hge]; [|by eauto 10].
  destruct (read_type_bounds Pubkey_type (ai_offset it)) as (r1 & o1 & -> & Ho1); [done..|].
  rewrite bind_Ret_l. destruct r1 as [key|e]; [|by eauto 10].
  destruct (optimized_read_compressed_u16 bytes o1) as [r2 o2] eqn:E2.
  destruct (optimized_read_bounds o1 r2 o2 Ho1 E2) as [Ho2 Hn2].
  destruct r2 as [n|e]; [|by eauto 10]. specialize (Hn2 n eq_refl).
  destruct (read_slice_bounds o2 n) as (r3 & o3 & -> & Ho3); [lia|done|].
  rewrite bind_Ret_l. destruct r3 as [wi|e]; [|by eauto 10].
  destruct (optimized_read_compressed_u16 bytes o3) as [r4 o4] eqn:E4.
  destruct (optimized_read_bounds o3 r4 o4 Ho3 E4) as [Ho4 Hn4].
  destruct r4 as [m|e]; [|by eauto 10]. specialize (Hn4 m eq_refl).
  destruct (read_slice_bounds o4 m) as (r5 & o5 & -> & Ho5); [lia|done|].
  rewrite bind_Ret_l. destruct r5 as [ri|e]; [|by eauto 10].
  eexists _, _. split; [done|]. split_and!; [done..|]. right. split; [done|].
  simpl. unfold wrapping_add. rewrite Z.mod_small; lia.
Qed.

Lemma AddressTableLookupIterator_collects it fuel :
  ai_bytes it = bytes → in_bounds (ai_offset it) → 0 ≤ ai_index it →
  ai_num_address_table_lookups it < 2 ^ 8 →
  ai_num_address_table_lookups it - ai_index it < Z.of_nat fuel → (0 < fuel)%nat →
  ∃ ls, collect AddressTableLookupIterator_next fuel it = Ret ls.
Proof.
  revert it. induction fuel as [|fuel IH]; intros it Eb Ho Hi Hn Hf Hf0; [lia|]. cbn [collect].
  destruct (AddressTableLookupIterator_next_bounds it) as (item & it' & -> & Eb' & Ho' & Hn' & Hitem);
    [done..|]. rewrite bind_Ret_l. destruct item as [l|]; [|by eauto].
  destruct Hitem as [|[Hlt Hi']]; [done|].
  destruct (IH it') as [ls ->]; [done|done|lia..|]. simpl. eauto.
Qed.

Lemma read_type_in {T} (ty : Sized T) pre w rest :
  bytes = pre ++ w ++ rest → len w = size_of ty →
  read_type ty bytes (len pre) = Ret (Ok (of_bytes ty w), len (pre ++ w)).
Proof.
  intros Heq Hw. assert (len pre + len w ≤ len bytes) as Hl by (rewrite Heq, !length_app; lia).
  unfold read_type. rewrite (ptr_add_in bytes Hlen pre (w ++ rest)), bind_Ret_l by done.
  unfold advance_offset_for_type.
  rewrite check_remaining_in by lia.
  unfold deref_type. rewrite (proj2 (Z.leb_le _ _)), wrapping_small by lia. simpl.
  rewrite Nat2Z.id, Heq, drop_app_length. rewrite <-Hw, Nat2Z.id, take_app_length.
  by rewrite length_app, Nat2Z.inj_add.
Qed.

Lemma read_vec_in pre w rest : bytes = pre ++ bytes_vec w ++ rest → len w < 2 ^ 14 →
  optimized_read_compressed_u16 bytes (len pre) = (Ok (len w), len (pre ++ compress (len w))) ∧
  read_slice_data u8_type bytes (len (pre ++ compress (len w))) (len w) =
    Ret (Ok w, len (pre ++ bytes_vec w)).
Proof.
  unfold bytes_vec. intros Heq Hw. rewrite <-app_assoc in Heq. split.
  - eapply (parses_u16 bytes Hbytes Hlen); [exact Heq|]. exists (compress (len w)), (w ++ rest).
    split_and!; [done|lia|lia|done|]. rewrite length_app. lia.
  - rewrite (app_assoc pre) in Heq.
    assert (len (pre ++ compress (len w)) + len w ≤ len bytes) as Hl
      by (rewrite Heq, !length_app; lia).
    unfold read_slice_data. rewrite (ptr_add_in bytes Hlen _ (w ++ rest)), bind_Ret_l by done.
    unfold advance_offset_for_array, wrapping_mul. simpl size_of. rewrite Z.mul_1_r, Z.mod_small by lia.
    rewrite check_remaining_in by lia.
    rewrite (from_raw_bytes bytes _ w rest Heq), bind_Ret_l, wrapping_small by lia.
    by rewrite (app_assoc pre), (length_app _ w), Nat2Z.inj_add.
Qed.

Lemma AddressTableLookupIterator_next_at pre l rest n index :
  bytes = pre ++ lookup_bytes l ++ rest → wf_lookup l → 0 ≤ index < n → n < 2 ^ 8 →
  let it offset index :=
    {| ai_bytes := bytes; ai_offset := offset; ai_num_address_table_lookups := n;
       ai_index := index |} in
  AddressTableLookupIterator_next (it (len pre) index) =
  Ret (Some l, it (len (pre ++ lookup_bytes l)) (index + 1)).
Proof.
  intros Heq (Hkey & [Hw _] & [Hr _]) Hi Hn it. unfold AddressTableLookupIterator_next, it.
  cbn [ai_bytes ai_offset ai_num_address_table_lookups ai_index].
  rewrite (proj2 (Z.ltb_lt _ _)) by lia. unfold lookup_bytes in *. rewrite <-!app_assoc in Heq.
  rewrite (read_type_in Pubkey_type pre _ _ Heq), bind_Ret_l
    by (by rewrite length_key_bytes).
  rewrite (app_assoc pre) in Heq. destruct (read_vec_in _ _ _ Heq Hw) as [-> ->]. rewrite bind_Ret_l.
  rewrite (app_assoc (pre ++ _)) in Heq. destruct (read_vec_in _ _ _ Heq Hr) as [-> ->].
  rewrite bind_Ret_l. destruct l as [key wi ri]. cbn [account_key writable_indexes readonly_indexes of_bytes Pubkey_type].
  rewrite key_of_key_bytes by done. rewrite <-!app_assoc.
  unfold wrapping_add. by rewrite Z.mod_small by lia.
Qed.

Lemma AddressTableLookupIterator_collect ls pre rest n index fuel :
  bytes = pre ++ concat (lookup_bytes <$> ls) ++ rest → Forall wf_lookup ls →
  0 ≤ index → n = index + len ls → n < 2 ^ 8 → (length ls < fuel)%nat →
  collect AddressTableLookupIterator_next fuel
    {| ai_bytes := bytes; ai_offset := len pre; ai_num_address_table_lookups := n;
       ai_index := index |} = Ret ls.
Proof.
  revert pre index fuel. induction ls as [|l ls IH]; intros pre index [|fuel] Heq Hwf Hi Hn Hn8 Hf;
    [simpl in Hf; lia| |simpl in Hf; lia|]; cbn [collect].
  - unfold AddressTableLookupIterator_next. cbn [ai_index ai_num_address_table_lookups].
    by rewrite Hn, Z.add_0_r, Z.ltb_irrefl.
  - apply Forall_cons in Hwf as [Hl Hwf]. rewrite fmap_cons in Heq. cbn [concat] in Heq.
    rewrite <-app_assoc in Heq. cbn [length] in Hn, Hf.
    rewrite (AddressTableLookupIterator_next_at pre l _ n index Heq Hl), bind_Ret_l by lia.
    rewrite (IH (pre ++ lookup_bytes l)); [done|by rewrite Heq, <-!app_assoc|done|lia..].
Qed.
End iterators.

(** * The view of a transaction *)

(** What the methods of a view of [tx] return. The lookups start after the
    instructions, at an offset that a frame keeps as a [u16]: they are those of
    [tx] in a buffer of at most [u16::MAX] bytes, and reading them stays in the
    buffer in any case. *)
Record shows (v : TransactionView) (tx : Transaction) : Prop := {
  shows_num_signatures : View.num_signatures v = len (tx_signatures tx);
  shows_version : View.version v = tx_version tx;
  shows_required : View.num_required_signatures v = tx_num_required_signatures tx;
  shows_ro_signed : View.num_readonly_signed_static_accounts v = tx_num_readonly_signed tx;
  shows_ro_unsigned : View.num_readonly_unsigned_static_accounts v = tx_num_readonly_unsigned tx;
  shows_num_keys : View.num_static_account_keys v = len (tx_account_keys tx);
  shows_num_instructions : View.num_instructions v = len (tx_instructions tx);
  shows_num_lookups : View.num_address_table_lookups v = len (tx_lookups tx);
  shows_writable : View.total_writable_lookup_accounts v = total_writable (tx_lookups tx);
  shows_readonly : View.total_readonly_lookup_accounts v = total_readonly (tx_lookups tx);
  shows_signatures : View.signatures v = Ret (tx_signatures tx);
  shows_keys : View.static_account_keys v = Ret (tx_account_keys tx);
  shows_blockhash : View.recent_blockhash v = Ret (tx_recent_blockhash tx);
  shows_message : View.message_data v = Ret (message_bytes tx);
  shows_instructions :
    collect InstructionsIterator_next (View.ix_fuel v) (View.instructions_iter v) =
    Ret (tx_instructions tx);
  shows_lookups_safe : ∃ ls,
    collect AddressTableLookupIterator_next (View.atl_fuel v) (View.address_table_lookup_iter v) =
    Ret ls ∧ (len (view_data v) ≤ u16_MAX → ls = tx_lookups tx);
}.

Section view.
Context (tx : Transaction) (Hwf : wf_transaction tx).
Hypothesis Hlen : len (serialize tx) < 2 ^ 63.
Hypothesis Hbytes : Bytes (serialize tx).

Lemma starts_small :
  0 ≤ message_start tx ≤ keys_start tx ∧ keys_start tx + 1 ≤ blockhash_start tx ∧
  blockhash_start tx + 32 = instructions_start tx ∧
  instructions_start tx + len (compress (len (tx_instructions tx))) < 2 ^ 16.
Proof.
  destruct Hwf as [[Hs Hsig] _ [Hk _] _ [Hi _] _].
  unfold instructions_start, blockhash_start, keys_start, message_start.
  unfold signatures_bytes, header_bytes, keys_bytes. rewrite !length_app. cbn [length].
  assert (len (concat (tx_signatures tx)) = len (tx_signatures tx) * 64) as Hc.
  { rewrite <-(list_fmap_id (tx_signatures tx)) at 1. apply len_concat. intros s Hin.
    rewrite Forall_forall in Hsig. destruct (Hsig s Hin). simpl. lia. }
  assert (len (concat (key_bytes <$> tx_account_keys tx)) = len (tx_account_keys tx) * 32) as Hck.
  { apply len_concat. intros k _. by rewrite length_key_bytes. }
  pose proof (compress_length (len (tx_instructions tx))) as Hcl.
  destruct (tx_version tx); simpl length; destruct (_ <? _); lia.
Qed.

Lemma as_u16_small x : 0 ≤ x < 2 ^ 16 → as_u16 x = x.
Proof. intros. by apply Z.mod_small. Qed.

Lemma serialize_split :
  serialize tx =
  signatures_bytes tx ++ header_bytes tx ++ keys_bytes tx ++ key_bytes (tx_recent_blockhash tx) ++
  instructions_bytes tx ++ lookups_bytes tx.
Proof. done. Qed.

Local Abbreviation v := {| view_data := serialize tx; view_frame := tx_frame tx |}.

Lemma signatures_tx : View.signatures v = Ret (tx_signatures tx).
Proof.
  unfold View.signatures, Frame.signatures. simpl. change 1 with (len [len (tx_signatures tx)]).
  rewrite (ptr_add_in _ Hlen _ (concat (tx_signatures tx) ++ message_bytes tx)), bind_Ret_l by done.
  rewrite (from_raw_parts_in _ Signature_type _ (tx_signatures tx) (message_bytes tx)); [|done..|].
  - by rewrite list_fmap_id.
  - destruct Hwf as [[_ Hsig] _ _ _ _ _]. eapply Forall_impl; [exact Hsig|]. intros s [Hs _]. simpl. lia.
Qed.

Lemma keys_tx : View.static_account_keys v = Ret (tx_account_keys tx).
Proof.
  pose proof starts_small as Hst. destruct Hwf as [_ _ [_ Hkeys] _ _ _].
  unfold View.static_account_keys, Frame.static_account_keys. simpl. rewrite as_u16_small by lia.
  assert (keys_start tx + 1 =
    len (signatures_bytes tx ++ header_bytes tx ++ [len (tx_account_keys tx)])) as ->.
  { unfold keys_start, message_start. rewrite !length_app. simpl. lia. }
  assert (serialize tx = (signatures_bytes tx ++ header_bytes tx ++ [len (tx_account_keys tx)]) ++
    concat (key_bytes <$> tx_account_keys tx) ++ key_bytes (tx_recent_blockhash tx) ++
    instructions_bytes tx ++ lookups_bytes tx) as Heq.
  { rewrite serialize_split. unfold keys_bytes. by rewrite <-!app_assoc. }
  rewrite (ptr_add_in _ Hlen _ _ Heq), bind_Ret_l.
  pose proof (from_raw_parts_in _ Pubkey_type _ _ _ ltac:(done) Heq) as Hraw.
  rewrite length_fmap in Hraw. rewrite Hraw.
  - f_equal. rewrite <-list_fmap_compose. rewrite <-(list_fmap_id (tx_account_keys tx)) at 2.
    apply list_fmap_ext. intros i k Hi. rewrite Forall_lookup in Hkeys.
    by apply key_of_key_bytes, (Hkeys i).
  - apply Forall_fmap, Forall_true. intros k. unfold compose. by rewrite length_key_bytes.
Qed.

Lemma blockhash_tx : View.recent_blockhash v = Ret (tx_recent_blockhash tx).
Proof.
  pose proof starts_small as Hst. unfold View.recent_blockhash, Frame.recent_blockhash. simpl.
  rewrite as_u16_small by lia.
  assert (blockhash_start tx = len (signatures_bytes tx ++ header_bytes tx ++ keys_bytes tx)) as ->.
  { unfold blockhash_start, keys_start, message_start. rewrite !length_app. lia. }
  assert (serialize tx = (signatures_bytes tx ++ header_bytes tx ++ keys_bytes tx) ++
    key_bytes (tx_recent_blockhash tx) ++ instructions_bytes tx ++ lookups_bytes tx) as Heq.
  { rewrite serialize_split. by rewrite <-!app_assoc. }
  rewrite (ptr_add_in _ Hlen _ _ Heq), bind_Ret_l. unfold deref_type.
  change (size_of Hash_type) with 32.
  rewrite (proj2 (Z.leb_le _ _)) by (rewrite Heq, !length_app, length_key_bytes; lia).
  cbn [assert_]. rewrite bind_Ret_l, Nat2Z.id, Heq, drop_app_length, take_app_length' by (by rewrite length_key_bytes).
  f_equal. apply key_of_key_bytes. by destruct Hwf.
Qed.

Lemma message_tx : View.message_data v = Ret (message_bytes tx).
Proof.
  pose proof starts_small as Hst. unfold View.message_data.
  cbn [view_data view_frame tx_frame message_header message_offset]. rewrite as_u16_small by lia.
  assert (message_start tx ≤ len (serialize tx)) as Hle
    by (unfold message_start, serialize; rewrite length_app; lia).
  rewrite (proj2 (Z.leb_le _ _) Hle). cbn [assert_]. rewrite bind_Ret_l.
  unfold message_start, serialize. by rewrite Nat2Z.id, drop_app_length.
Qed.

Lemma instructions_tx :
  collect InstructionsIterator_next (View.ix_fuel v) (View.instructions_iter v) =
  Ret (tx_instructions tx).
Proof.
  pose proof starts_small as Hst. destruct Hwf as [_ _ _ _ [Hn Hixs] _].
  unfold View.instructions_iter, Frame.instructions_iter.
  cbn [view_data view_frame tx_frame instructions instructions_offset num_instructions frames].
  rewrite as_u16_small by lia.
  set (pre := signatures_bytes tx ++ header_bytes tx ++ keys_bytes tx ++
    key_bytes (tx_recent_blockhash tx) ++ compress (len (tx_instructions tx))).
  assert (instructions_start tx + len (compress (len (tx_instructions tx))) = len pre) as ->.
  { unfold pre, instructions_start, blockhash_start, keys_start, message_start.
    rewrite !length_app, length_key_bytes. lia. }
  apply (InstructionsIterator_collect (serialize tx) Hlen (tx_instructions tx) pre (lookups_bytes tx) []).
  - rewrite serialize_split. unfold pre, instructions_bytes. by rewrite <-!app_assoc.
  - done.
  - done.
  - unfold View.ix_fuel, View.num_instructions. simpl. lia.
Qed.

Lemma lookups_tx :
  ∃ ls, collect AddressTableLookupIterator_next (View.atl_fuel v) (View.address_table_lookup_iter v)
        = Ret ls ∧ (len (serialize tx) ≤ u16_MAX → ls = tx_lookups tx).
Proof.
  pose proof starts_small as Hst.
  assert (len (tx_lookups tx) < 2 ^ 8) as Hn8.
  { destruct Hwf as [_ _ _ _ _ Hver]. destruct (tx_version tx); [destruct Hver as [_ ->]; done|lia]. }
  assert (lookups_start tx ≤ len (serialize tx)) as Hle.
  { rewrite serialize_split. unfold lookups_start, instructions_start, blockhash_start, keys_start,
      message_start. rewrite !length_app, length_key_bytes. lia. }
  destruct (tx_version tx) eqn:Ever.
  { (* a legacy transaction has no lookups *)
    destruct Hwf as [_ _ _ _ _ Hver]. rewrite Ever in Hver. destruct Hver as [_ Hls].
    exists []. split; [|done]. unfold View.atl_fuel, View.address_table_lookup_iter,
      Frame.address_table_lookup_iter, View.num_address_table_lookups. simpl. by rewrite Hls. }
  destruct (Z.le_gt_cases (len (serialize tx)) u16_MAX) as [Hsmall|Hbig].
  - exists (tx_lookups tx). split; [|done]. destruct Hwf as [_ _ _ _ _ Hver]. rewrite Ever in Hver.
    destruct Hver as (_ & Hls & _).
    unfold View.address_table_lookup_iter, Frame.address_table_lookup_iter.
    cbn [view_data view_frame address_table_lookup tx_frame num_address_table_lookups
      address_table_lookups_offset]. rewrite Ever.
    set (pre := signatures_bytes tx ++ header_bytes tx ++ keys_bytes tx ++
      key_bytes (tx_recent_blockhash tx) ++ instructions_bytes tx ++ [len (tx_lookups tx)]).
    assert (lookups_start tx + 1 = len pre) as Hpre.
    { unfold pre, lookups_start, instructions_start, blockhash_start, keys_start, message_start.
      rewrite !length_app, length_key_bytes. simpl. lia. }
    assert (serialize tx = pre ++ concat (lookup_bytes <$> tx_lookups tx) ++ []) as Heq.
    { rewrite serialize_split. unfold pre, lookups_bytes. rewrite Ever, app_nil_r.
      by rewrite <-!app_assoc. }
    rewrite as_u16_small, Hpre
      by (rewrite Hpre; rewrite Heq, !length_app in Hsmall; unfold u16_MAX in *; lia).
    eapply (AddressTableLookupIterator_collect (serialize tx) Hbytes Hlen); [exact Heq|done|lia..|].
    unfold View.atl_fuel, View.num_address_table_lookups. simpl. lia.
  - edestruct (AddressTableLookupIterator_collects (serialize tx) Hbytes Hlen
      (View.address_table_lookup_iter v) (View.atl_fuel v)) as [ls Hls]; [done| |done|done|..].
    + unfold in_bounds, View.address_table_lookup_iter, Frame.address_table_lookup_iter.
      cbn [view_data view_frame tx_frame address_table_lookup address_table_lookups_offset ai_offset].
      rewrite Ever. unfold as_u16.
      pose proof (Z.mod_pos_bound (lookups_start tx + 1) (2 ^ 16)). unfold u16_MAX in Hbig. lia.
    + unfold View.atl_fuel, View.num_address_table_lookups. simpl. lia.
    + unfold View.atl_fuel. lia.
    + exists ls. split; [done|]. lia.
Qed.

Lemma shows_tx : shows v tx.
Proof.
  split; [done..|apply signatures_tx|apply keys_tx|apply blockhash_tx|apply message_tx|
    apply instructions_tx|apply lookups_tx].
Qed.
End view.
