(* ===== verification/TransactionViewTheorems.v ===== *)
(** Sanitization of a transaction view, and the resolved view's cache of writable
    accounts, against their declarative counterparts on the transaction. *)

From S2P Require Import Prelude Bytes TransactionView TransactionViewSpec.
From S2P Require Import TransactionViewProps.

(** * Sanitized transactions *)

Definition tx_num_accounts (tx : Transaction) : Z :=
  len (tx_account_keys tx) + total_writable (tx_lookups tx) + total_readonly (tx_lookups tx).

Record sanitary (tx : Transaction) : Prop := {
  san_signatures : len (tx_signatures tx) = tx_num_required_signatures tx;
  san_signers : tx_num_required_signatures tx ≤ len (tx_account_keys tx);
  san_unsigned :
    tx_num_readonly_unsigned tx ≤ len (tx_account_keys tx) - tx_num_required_signatures tx;
  san_fee_payer : tx_num_readonly_signed tx < tx_num_required_signatures tx;
  san_accounts : tx_num_accounts tx ≤ 256;
  san_programs : ∀ ix, ix ∈ tx_instructions tx →
    1 ≤ program_id_index ix < len (tx_account_keys tx);
  san_indexes : ∀ ix i, ix ∈ tx_instructions tx → i ∈ accounts ix → i < tx_num_accounts tx;
  san_lookups : ∀ l, l ∈ tx_lookups tx → writable_indexes l ≠ [] ∨ readonly_indexes l ≠ [];
}.

Lemma total_writable_nonneg ls : 0 ≤ total_writable ls.
Proof. apply lookups_total_nonneg. Qed.
Lemma total_readonly_nonneg ls : 0 ≤ total_readonly ls.
Proof. apply lookups_total_nonneg. Qed.

(** The lookups of a well-formed transaction, of either version. *)
Lemma wf_lookups_total tx : wf_transaction tx →
  total_writable (tx_lookups tx) ≤ u16_MAX ∧ total_readonly (tx_lookups tx) ≤ u16_MAX.
Proof.
  intros [_ _ _ _ _ Hver]. destruct (tx_version tx); [|naive_solver]. by destruct Hver as [_ ->].
Qed.

(** A loop whose body only checks its item. *)
Lemma try_each_check {A E} (check : A → result unit E) (P : A → Prop) (e : E) l :
  (∀ x, x ∈ l → check x = Ok tt ∧ P x ∨ check x = Err e ∧ ¬ P x) →
  try_each (λ x (_ : unit), Ret (check x)) l tt = Ret (Ok tt) ∧ (∀ x, x ∈ l → P x) ∨
  try_each (λ x (_ : unit), Ret (check x)) l tt = Ret (Err e) ∧ ¬ (∀ x, x ∈ l → P x).
Proof.
  induction l as [|x l IH]; intros Hc; cbn [try_each]; [left; split; [done|set_solver]|].
  destruct (Hc x (list_elem_of_here x l)) as [[-> HP]|[-> HP]].
  - rewrite try_Ok. destruct IH as [[-> Hl]|[-> Hl]]; [intros; apply Hc; by right| |].
    + left. split; [done|]. intros y [->|Hy]%elem_of_cons; auto.
    + right. split; [done|]. intros Hall. apply Hl. intros y Hy. apply Hall. by right.
  - right. split; [done|]. intros Hall. apply HP, Hall. by left.
Qed.

Section sanitize.
Context (v : TransactionView) (tx : Transaction).
Hypothesis Hwf : wf_transaction tx.
Hypothesis Hshows : shows v tx.

Definition signatures_ok : Prop :=
  len (tx_signatures tx) = tx_num_required_signatures tx ∧
  tx_num_required_signatures tx ≤ len (tx_account_keys tx).
Definition access_ok : Prop :=
  tx_num_readonly_unsigned tx ≤ len (tx_account_keys tx) - tx_num_required_signatures tx ∧
  tx_num_readonly_signed tx < tx_num_required_signatures tx ∧ tx_num_accounts tx ≤ 256.
Definition instruction_ok (ix : SVMInstruction) : Prop :=
  1 ≤ program_id_index ix < len (tx_account_keys tx) ∧
  ∀ i, i ∈ accounts ix → i < tx_num_accounts tx.
Definition lookup_ok (l : SVMMessageAddressTableLookup) : Prop :=
  writable_indexes l ≠ [] ∨ readonly_indexes l ≠ [].

(** A check passes exactly if its condition holds, and refuses with [SanitizeError]. *)
Definition decides (r : outcome (result unit TransactionViewError)) (P : Prop) : Prop :=
  r = Ret (Ok tt) ∧ P ∨ r = Ret (Err SanitizeError) ∧ ¬ P.

Lemma total_number_of_accounts_tx :
  Sanitize.total_number_of_accounts v = Z.min (tx_num_accounts tx) u16_MAX.
Proof.
  unfold Sanitize.total_number_of_accounts, saturating_add, tx_num_accounts.
  rewrite (shows_num_keys _ _ Hshows), (shows_writable _ _ Hshows), (shows_readonly _ _ Hshows).
  pose proof (total_readonly_nonneg (tx_lookups tx)). lia.
Qed.

Lemma sanitize_signatures_tx : decides (Ret (Sanitize.sanitize_signatures v)) signatures_ok.
Proof.
  unfold decides, Sanitize.sanitize_signatures, signatures_ok.
  rewrite (shows_num_signatures _ _ Hshows), (shows_required _ _ Hshows), (shows_num_keys _ _ Hshows).
  repeat case_leb; simpl; first [left; split; [done|lia]|right; split; [done|lia]].
Qed.

Lemma sanitize_account_access_tx : signatures_ok →
  decides (Ret (Sanitize.sanitize_account_access v)) access_ok.
Proof.
  intros [_ Hs]. unfold decides, Sanitize.sanitize_account_access, access_ok.
  rewrite total_number_of_accounts_tx, (shows_required _ _ Hshows), (shows_num_keys _ _ Hshows),
    (shows_ro_signed _ _ Hshows), (shows_ro_unsigned _ _ Hshows).
  destruct Hwf as [_ (Hr & _ & _) [Hk _] _ _ _]. unfold is_byte in Hr.
  unfold wrapping_sub. rewrite Z.mod_small by lia. unfold u16_MAX.
  repeat case_leb; simpl; first [left; split; [done|lia]|right; split; [done|lia]].
Qed.

Lemma existsb_above max l : existsb (λ i, max <? i) l = false ↔ ∀ i, i ∈ l → i ≤ max.
Proof.
  induction l as [|i l IH]; simpl; [set_solver|]. rewrite orb_false_iff, IH, Z.ltb_ge. set_solver.
Qed.

Lemma sanitize_instructions_tx : access_ok →
  decides (Sanitize.sanitize_instructions v) (∀ ix, ix ∈ tx_instructions tx → instruction_ok ix).
Proof.
  intros (_ & _ & Ha). unfold decides, Sanitize.sanitize_instructions.
  rewrite (for_in_collect _ _ _ _ _ _ (shows_instructions _ _ Hshows)). apply try_each_check.
  intros ix Hix. unfold Sanitize.sanitize_instruction.
  rewrite total_number_of_accounts_tx, (shows_num_keys _ _ Hshows).
  pose proof (total_writable_nonneg (tx_lookups tx)). pose proof (total_readonly_nonneg (tx_lookups tx)).
  destruct Hwf as [_ _ [Hk _] _ [_ Hixs] _]. unfold instruction_ok, tx_num_accounts in *.
  rewrite Z.min_l by (unfold u16_MAX; lia). unfold as_u8, wrapping_sub.
  rewrite (Z.mod_small _ (2 ^ 16)), !(Z.mod_small _ (2 ^ 8)) by lia.
  rewrite Forall_forall in Hixs. destruct (Hixs ix Hix) as [Hp _]. unfold is_byte in Hp.
  repeat case_leb; [right; split; [done|lia]..|].
  destruct (existsb _ _) eqn:He.
  - right. split; [done|]. intros [_ Hall]. apply not_false_iff_true in He.
    apply He, existsb_above. intros i Hi. specialize (Hall i Hi). lia.
  - left. split; [done|]. split; [lia|]. intros i Hi.
    pose proof (proj1 (existsb_above _ _) He i Hi). simpl in *. lia.
Qed.

Lemma sanitize_lookups_tx : len (view_data v) ≤ u16_MAX →
  decides (Sanitize.sanitize_address_table_lookups v) (∀ l, l ∈ tx_lookups tx → lookup_ok l).
Proof.
  intros Hlen. destruct (shows_lookups_safe _ _ Hshows) as (ls & Hls & Heq).
  rewrite (Heq Hlen) in Hls.
  unfold decides, Sanitize.sanitize_address_table_lookups.
  rewrite (for_in_collect _ _ _ _ _ _ Hls).
  apply try_each_check. intros l Hl. unfold lookup_ok.
  repeat case_bool_decide; simpl; naive_solver.
Qed.

Lemma sanitize_tx : len (view_data v) ≤ u16_MAX → decides (Sanitize.sanitize v) (sanitary tx).
Proof.
  intros Hlen. unfold decides, Sanitize.sanitize.
  destruct sanitize_signatures_tx as [[-> Hs]|[-> Hs]].
  2: { right. split; [done|]. intros [? ? ? ? ? ? ? ?]. by apply Hs. }
  rewrite try_Ok. destruct (sanitize_account_access_tx Hs) as [[-> Ha]|[-> Ha]].
  2: { right. split; [done|]. intros [? ? ? ? ? ? ? ?]. by apply Ha. }
  rewrite try_Ok. destruct (sanitize_instructions_tx Ha) as [[-> Hi]|[-> Hi]].
  2: { right. split; [done|]. intros [? ? ? ? ? Hp Hx ?]. apply Hi. intros ix Hix. split; [by apply Hp|].
       intros i. by apply Hx. }
  rewrite try_Ok. destruct (sanitize_lookups_tx Hlen) as [[-> Hl]|[-> Hl]].
  2: { right. split; [done|]. by intros [? ? ? ? ? ? ? ?]. }
  left. split; [done|]. destruct Hs, Ha as (? & ? & ?). split; try done.
  - intros ix Hix. apply (Hi ix Hix).
  - intros ix i Hix. apply (Hi ix Hix).
Qed.
End sanitize.

(** * Counts of a sanitized view *)

Section resolved.
Context `{env : ViewEnv} `{laws : !ViewLaws env}.
Context (v : TransactionView) (tx : Transaction).
Hypothesis Hwf : wf_transaction tx.
Hypothesis Hshows : shows v tx.
Hypothesis Hsan : sanitary tx.

(** The wrapping arithmetic of a sanitized view does not wrap. *)
Lemma counts_tx :
  View.num_writable_unsigned_static_accounts v =
    len (tx_account_keys tx) - tx_num_required_signatures tx - tx_num_readonly_unsigned tx ∧
  View.num_writable_signed_static_accounts v =
    tx_num_required_signatures tx - tx_num_readonly_signed tx ∧
  View.total_num_accounts v = tx_num_accounts tx ∧
  View.num_requested_write_locks v =
    len (tx_account_keys tx) - tx_num_readonly_signed tx - tx_num_readonly_unsigned tx +
    total_writable (tx_lookups tx).
Proof.
  destruct Hsan as [_ Hs Hu Hf Ha _ _ _]. destruct Hwf as [_ (Hr & Hrs & Hru) [Hk _] _ _ _].
  unfold is_byte, tx_num_accounts in *.
  pose proof (total_writable_nonneg (tx_lookups tx)). pose proof (total_readonly_nonneg (tx_lookups tx)).
  unfold View.num_writable_unsigned_static_accounts, View.num_static_unsigned_static_accounts,
    View.num_writable_signed_static_accounts, View.total_num_accounts, View.num_requested_write_locks.
  rewrite (shows_num_keys _ _ Hshows), (shows_required _ _ Hshows), (shows_ro_signed _ _ Hshows),
    (shows_ro_unsigned _ _ Hshows), (shows_writable _ _ Hshows), (shows_readonly _ _ Hshows).
  unfold wrapping_sub, wrapping_add.
  rewrite !(Z.mod_small (len (tx_account_keys tx) - _)) by lia.
  rewrite !(Z.mod_small (len (tx_account_keys tx) + _)) by lia.
  rewrite !(Z.mod_small (len (tx_account_keys tx) - _ - _)) by lia.
  rewrite !Z.mod_small by lia. split_and!; lia.
Qed.

(** * Writable accounts *)

Definition message_keys (loaded : option LoadedAddresses) : list Pubkey :=
  tx_account_keys tx ++
  match loaded with Some l => loaded_writable l ++ loaded_readonly l | None => [] end.

(** The loaded addresses are those the lookups of the transaction ask for. *)
Definition loads_match (loaded : option LoadedAddresses) : Prop :=
  match loaded with
  | Some l => len (loaded_writable l) = total_writable (tx_lookups tx) ∧
              len (loaded_readonly l) = total_readonly (tx_lookups tx)
  | None => tx_version tx = Legacy
  end.

Definition requested_write (i : Z) : Prop :=
  i < tx_num_required_signatures tx - tx_num_readonly_signed tx ∨
  tx_num_required_signatures tx ≤ i < len (tx_account_keys tx) - tx_num_readonly_unsigned tx ∨
  len (tx_account_keys tx) ≤ i < len (tx_account_keys tx) + total_writable (tx_lookups tx).

Definition invoked (i : Z) : Prop := ∃ ix, ix ∈ tx_instructions tx ∧ program_id_index ix = i.

(** The accounts a transaction may write: those it asks to write, except reserved
    keys and, without the upgradeable loader among the keys, the programs it calls. *)
Definition may_write (loaded : option LoadedAddresses) (reserved : gset Pubkey) (i : Z) : Prop :=
  requested_write i ∧
  (∃ key, message_keys loaded !! Z.to_nat i = Some key ∧ key ∉ reserved) ∧
  (invoked i → upgradeable_loader_id ∈ message_keys loaded).

Lemma is_requested_write_tx i : 0 ≤ i < 2 ^ 16 → is_requested_write v i = true ↔ requested_write i.
Proof.
  intros Hi. destruct counts_tx as (Hu & Hs & _ & _). unfold is_requested_write, requested_write.
  rewrite Hu, Hs, (shows_num_keys _ _ Hshows), (shows_required _ _ Hshows), (shows_writable _ _ Hshows).
  destruct Hsan as [_ Hsk Hun Hf _ _ _ _]. destruct Hwf as [_ (Hr & Hrs & Hru) [Hk _] _ _ _].
  unfold is_byte in *. unfold wrapping_sub.
  destruct (Z.leb_spec (len (tx_account_keys tx)) i).
  { rewrite Z.mod_small, Z.ltb_lt by lia. lia. }
  destruct (Z.leb_spec (tx_num_required_signatures tx) i).
  { rewrite Z.mod_small, Z.ltb_lt by lia. lia. }
  rewrite Z.ltb_lt. lia.
Qed.

Lemma cache_requested_at reserved index keys cache :
  (index + length keys ≤ length cache)%nat →
  ∃ cache', cache_requested v reserved index keys cache = Ret cache' ∧
    length cache' = length cache ∧
    ∀ i, cache' !! i =
      if decide (index ≤ i)%nat then
        match keys !! (i - index)%nat with
        | Some key => Some (is_requested_write v (Z.of_nat i) && negb (bool_decide (key ∈ reserved)))
        | None => cache !! i
        end
      else cache !! i.
Proof.
  revert index cache. induction keys as [|key keys IH]; intros index cache Hl; cbn [cache_requested].
  { exists cache. split_and!; [done..|]. intros i. rewrite lookup_nil. by case_decide. }
  simpl in Hl. unfold set_cache. rewrite (bool_decide_true (index < length cache)%nat) by lia. cbn [assert_].
  rewrite !bind_Ret_l. destruct (IH (S index) (<[index:=is_requested_write v (Z.of_nat index)
    && negb (bool_decide (key ∈ reserved))]> cache)) as (cache' & -> & Hlc & Hc).
  { rewrite length_insert. lia. }
  exists cache'. rewrite length_insert in Hlc. split_and!; [done..|]. intros i. rewrite Hc.
  destruct (decide (index = i)) as [<-|Hne].
  - rewrite decide_False, decide_True by lia. rewrite Nat.sub_diag, list_lookup_insert_eq by lia. done.
  - rewrite list_lookup_insert_ne by done. destruct (decide (index ≤ i)%nat) as [Hi|Hi].
    2: { by rewrite decide_False by lia. }
    rewrite decide_True by lia. by replace (i - index)%nat with (S (i - S index)) by lia.
Qed.

(** One step of the loop that takes the programs out of the cache. *)
Lemma demote_step keys ix cache flag :
  let present := existsb (λ key, key =? upgradeable_loader_id) keys in
  0 ≤ program_id_index ix < len cache →
  (flag = None ∨ flag = Some present) →
  ∃ cache' flag', demote_program keys ix (cache, flag) = Ret (Ok (cache', flag')) ∧
    length cache' = length cache ∧ (flag' = None ∨ flag' = Some present) ∧
    ∀ i, cache' !! i =
      (λ b, b && (present || negb (bool_decide (Z.of_nat i = program_id_index ix)))) <$> cache !! i.
Proof.
  intros present Hp Hf. unfold demote_program. set (p := Z.to_nat (program_id_index ix)).
  destruct (lookup_lt_is_Some_2 cache p) as [b Hb]; [lia|]. rewrite Hb. cbn [unwrap]. rewrite bind_Ret_l.
  assert (default present flag = present) as Hd by (by destruct Hf as [->| ->]).
  fold present. rewrite Hd. clearbody present.
  assert (∀ i, Z.of_nat i = program_id_index ix ↔ i = p) as Hi by (intros i; unfold p; lia).
  assert (cache = (λ b : bool, b && true) <$> cache) as Hid.
  { rewrite <-(list_fmap_id cache) at 1. apply list_fmap_ext. intros ? [] _; done. }
  destruct b; [destruct present; simpl|].
  - exists cache, (Some true). split_and!; [done..|by right|]. intros i. rewrite Hid at 1.
    by rewrite list_lookup_fmap.
  - unfold set_cache. rewrite bool_decide_true by lia. cbn [assert_]. rewrite !bind_Ret_l.
    exists (<[p:=false]> cache), (Some false). rewrite length_insert. split_and!; [done..|by right|].
    intros i. destruct (decide (i = p)) as [->|Hne].
    + rewrite list_lookup_insert_eq, Hb by lia. simpl. rewrite bool_decide_true by (by apply Hi). done.
    + rewrite list_lookup_insert_ne by done. rewrite bool_decide_false by (by rewrite Hi).
      rewrite Hid at 1. by rewrite list_lookup_fmap.
  - exists cache, flag. split_and!; [done..|]. intros i. destruct (decide (i = p)) as [->|Hne].
    + by rewrite Hb.
    + rewrite bool_decide_false by (by rewrite Hi). rewrite orb_true_r.
      rewrite Hid at 1. by rewrite list_lookup_fmap.
Qed.

Lemma demote_loop keys ixs cache flag :
  let present := existsb (λ key, key =? upgradeable_loader_id) keys in
  Forall (λ ix, 0 ≤ program_id_index ix < len cache) ixs →
  (flag = None ∨ flag = Some present) →
  ∃ cache' flag', try_each (demote_program keys) ixs (cache, flag) = Ret (Ok (cache', flag')) ∧
    ∀ i, cache' !! i = (λ b, b && (present ||
      negb (bool_decide (Z.of_nat i ∈ program_id_index <$> ixs)))) <$> cache !! i.
Proof.
  intros present. revert cache flag. induction ixs as [|ix ixs IH]; intros cache flag Hix Hf.
  { eexists _, _. split; [done|]. intros i. destruct (cache !! i) as [b|]; simpl; [|done].
    by rewrite orb_true_r, andb_true_r. }
  apply Forall_cons in Hix as [Hp Hix]. cbn [try_each].
  destruct (demote_step keys ix cache flag Hp Hf) as (c1 & f1 & -> & Hl1 & Hf1 & Hc1).
  rewrite try_Ok. destruct (IH c1 f1) as (c2 & f2 & -> & Hc2); [by rewrite Hl1|done|].
  exists c2, f2. split; [done|]. intros i. rewrite Hc2, Hc1, <-option_fmap_compose. fold present.
  destruct (cache !! i) as [b|]; simpl; [|done]. f_equal.
  destruct b, present; simpl; try done. rewrite <-negb_orb, <-bool_decide_or. f_equal.
  apply bool_decide_ext. by rewrite elem_of_cons.
Qed.

Lemma existsb_loader keys :
  existsb (λ key, key =? upgradeable_loader_id) keys = true ↔ upgradeable_loader_id ∈ keys.
Proof.
  induction keys as [|k keys IH]; simpl; [split; [done|set_solver]|].
  rewrite orb_true_iff, IH, Z.eqb_eq, elem_of_cons. naive_solver.
Qed.

Lemma message_keys_length loaded : loads_match loaded →
  len (message_keys loaded) ≤ 256 ∧ account_keys_iter (tx_account_keys tx) loaded = message_keys loaded.
Proof.
  intros Hm. rewrite account_keys_order. split; [|by destruct loaded].
  destruct Hsan as [_ _ _ _ Ha _ _ _]. unfold tx_num_accounts in Ha. unfold message_keys.
  pose proof (total_writable_nonneg (tx_lookups tx)). pose proof (total_readonly_nonneg (tx_lookups tx)).
  rewrite length_app. destruct loaded as [l|]; simpl; [|lia]. destruct Hm. rewrite length_app. lia.
Qed.

Lemma cache_is_writable_tx loaded reserved : loads_match loaded →
  ∃ cache, cache_is_writable v loaded reserved = Ret cache ∧
    ∀ i, 0 ≤ i → default false (cache !! Z.to_nat i) = true ↔ may_write loaded reserved i.
Proof.
  intros Hm. destruct (message_keys_length loaded Hm) as [Hl Hkeys].
  unfold cache_is_writable. rewrite (shows_keys _ _ Hshows), bind_Ret_l, Hkeys.
  assert (∀ j b, replicate 256 false !! j = Some b → b = false) as Hc0
    by (by intros j b [-> _]%lookup_replicate).
  assert (length (replicate 256 false) = 256%nat) as Hl0 by done.
  revert Hc0 Hl0. generalize (replicate 256 false). intros c0 Hc0 Hl0.
  destruct (cache_requested_at reserved 0 (message_keys loaded) c0)
    as (c1 & -> & Hl1 & Hc1); [lia|]. rewrite bind_Ret_l.
  rewrite (for_in_collect _ _ _ _ _ _ (shows_instructions _ _ Hshows)).
  destruct (demote_loop (message_keys loaded) (tx_instructions tx) c1 None)
    as (c2 & f2 & -> & Hc2); [|by left|].
  { rewrite Hl1. apply Forall_forall. intros ix Hix.
    destruct Hwf as [_ _ [Hk _] _ _ _]. pose proof (san_programs _ Hsan ix Hix). lia. }
  simpl. exists c2. split; [done|]. intros i Hi. rewrite Hc2, Hc1.
  rewrite decide_True by lia. rewrite Nat.sub_0_r, Z2Nat.id by done. unfold may_write.
  destruct (message_keys loaded !! Z.to_nat i) as [key|] eqn:Hkey; simpl.
  - assert (i < 2 ^ 16) as Hi16 by (apply lookup_lt_Some in Hkey; lia).
    rewrite !andb_true_iff, orb_true_iff, existsb_loader, !negb_true_iff, !bool_decide_eq_false.
    rewrite is_requested_write_tx by lia.
    assert (i ∈ program_id_index <$> tx_instructions tx ↔ invoked i) as ->.
    { unfold invoked. rewrite list_elem_of_fmap. naive_solver. }
    destruct (decide (upgradeable_loader_id ∈ message_keys loaded)); naive_solver.
  - split; [|by intros (_ & (? & ? & _) & _)].
    destruct (c0 !! Z.to_nat i) as [b|] eqn:Hr; simpl; [|done]. by rewrite (Hc0 _ b Hr).
Qed.

Lemma resolved_try_new_tx loaded reserved :
  (∃ cache, ResolvedTransactionView_try_new v loaded reserved =
      Ret (Ok {| view := v; resolved_addresses := loaded; writable_cache := cache |}) ∧
    loads_match loaded ∧
    ∀ i, 0 ≤ i → default false (cache !! Z.to_nat i) = true ↔ may_write loaded reserved i) ∨
  ResolvedTransactionView_try_new v loaded reserved = Ret (Err AddressLookupMismatch) ∧
  ¬ loads_match loaded.
Proof.
  unfold ResolvedTransactionView_try_new.
  rewrite (shows_version _ _ Hshows), (shows_writable _ _ Hshows), (shows_readonly _ _ Hshows).
  assert (loads_match loaded → ∃ cache, (writable_cache ← cache_is_writable v loaded reserved;
    Ret (Ok {| view := v; resolved_addresses := loaded; writable_cache := writable_cache |})) =
    Ret (Ok (E := TransactionViewError) {| view := v; resolved_addresses := loaded; writable_cache := cache |}) ∧
    loads_match loaded ∧
    ∀ i, 0 ≤ i → default false (cache !! Z.to_nat i) = true ↔ may_write loaded reserved i) as Hok.
  { intros Hm. destruct (cache_is_writable_tx loaded reserved Hm) as (cache & -> & Hc).
    exists cache. by rewrite bind_Ret_l. }
  destruct loaded as [l|]; simpl; rewrite ?andb_false_r, ?andb_true_r.
  - destruct (Z.eqb_spec (len (loaded_writable l)) (total_writable (tx_lookups tx)));
      [|right; split; [done|]; simpl; tauto].
    destruct (Z.eqb_spec (len (loaded_readonly l)) (total_readonly (tx_lookups tx)));
      [|right; split; [done|]; simpl; tauto]. left. by apply Hok.
  - case_bool_decide as Hv; [right; split; [done|]; simpl; congruence|].
    assert (tx_version tx = Legacy) as Hleg by (by destruct (tx_version tx)).
    destruct Hwf as [_ _ _ _ _ Hver]. rewrite Hleg in Hver. destruct Hver as [_ ->]. left. by apply Hok.
Qed.
End resolved.

(** * The theorems

    What holds of transaction views: a buffer is accepted exactly if it is the
    serialization of a well-formed transaction, every accessor then returns that
    transaction's part and stays in the buffer, sanitization accepts exactly the
    transactions whose indices are valid, and the resolved view's writable
    accounts are those the message asks for. *)


(** * The compressed integers *)

Section compressed.
Variable bytes : list Z.
Hypothesis Hbytes : Bytes bytes.
Hypothesis Hlen : len bytes < 2 ^ 63.

(** The group of seven bits a byte adds. *)
Lemma group_bits b shift : is_byte b → 0 ≤ shift → (b mod 2 ^ 7) * 2 ^ shift < 2 ^ 16 →
  as_u16 (Z.shiftl (Z.land b 127) shift) = Z.shiftl (b mod 2 ^ 7) shift.
Proof.
  intros Hb Hs Hlt. rewrite land_127 by done. unfold as_u16. rewrite Z.mod_small; [done|].
  rewrite Z.shiftl_mul_pow2 by done. pose proof (Z.mod_pos_bound b (2 ^ 7)). nia.
Qed.

(** One round of the loop, on the byte after those it has read. *)
Lemma read_compressed_step pre don rest i indices result shift :
  bytes = (pre ++ don) ++ rest → i = len don → (length don ≤ 2)%nat → shift = 7 * i →
  0 ≤ result < 2 ^ shift →
  read_compressed_loop bytes (i :: indices) result shift (len pre) =
  match rest with
  | [] => (Err ParseError, len pre)
  | b :: _ =>
    if ((0 <? i) && (b =? 0)) || ((i =? 2) && (3 <? b)) then (Err ParseError, len pre)
    else
      let result := result + 2 ^ shift * (b mod 2 ^ 7) in
      if b <? 2 ^ 7 then (Ok result, len pre + i + 1)
      else read_compressed_loop bytes indices result (shift + 7) (len pre)
  end.
Proof.
  intros Heq -> Hd Hs Hres. cbn [read_compressed_loop].
  assert (len pre + len don + len rest = len bytes) as Hl by (rewrite Heq, !length_app; lia).
  rewrite wrapping_small by lia. replace (len pre + len don) with (len (pre ++ don)) by (rewrite length_app; lia).
  destruct rest as [|b rest]; [by rewrite get_end by (by rewrite app_nil_r in Heq)|].
  rewrite (get_app bytes _ b rest Heq). assert (is_byte b) as Hb.
  { rewrite Heq in Hbytes. by apply Forall_app in Hbytes as [_ [? _]%Forall_cons]. }
  destruct (_ || _) eqn:Hguard; [done|]. cbv zeta. rewrite land_128 by done. cbn [length] in Hl.
  assert (b mod 2 ^ 7 * 2 ^ shift < 2 ^ 16) as Hsmall.
  { pose proof (Z.mod_pos_bound b (2 ^ 7)). unfold is_byte in Hb. rewrite Hs.
    destruct don as [|? [|? [|]]]; simpl in *; [lia|lia| |lia].
    apply orb_false_iff in Hguard as [_ Hb3]. bsimp. rewrite Z.mod_small by lia. lia. }
  rewrite group_bits, lor_shiftl by (done || (apply Z.mod_pos_bound; lia) || lia).
  rewrite length_app, Nat2Z.inj_add. unfold wrapping_add.
  rewrite (Z.mod_small (shift + 7)), (Z.mod_small (_ + 1)) by lia. done.
Qed.

(** The three-byte reader, as a function of the bytes at the offset. *)
Lemma read_compressed_at pre rest :
  bytes = pre ++ rest →
  read_compressed_u16 bytes (len pre) =
  match rest with
  | [] => (Err ParseError, len pre)
  | b1 :: rest =>
    if b1 <? 2 ^ 7 then (Ok b1, len pre + 1)
    else
      match rest with
      | [] => (Err ParseError, len pre)
      | b2 :: rest =>
        if b2 =? 0 then (Err ParseError, len pre)
        else if b2 <? 2 ^ 7 then (Ok (b1 - 2 ^ 7 + 2 ^ 7 * b2), len pre + 2)
        else
          match rest with
          | [] => (Err ParseError, len pre)
          | b3 :: _ =>
            if (b3 =? 0) || (3 <? b3) then (Err ParseError, len pre)
            else (Ok (b1 - 2 ^ 7 + 2 ^ 7 * (b2 - 2 ^ 7) + 2 ^ 14 * b3), len pre + 3)
          end
      end
  end.
Proof.
  intros Heq.
  assert (Bytes rest) as Hr by (rewrite Heq in Hbytes; by apply Forall_app in Hbytes as [_ ?]).
  unfold read_compressed_u16.
  rewrite (read_compressed_step pre [] rest 0 [1; 2]); [|by rewrite app_nil_r|done|simpl; lia..].
  destruct rest as [|b1 rest]; [done|]. apply Forall_cons in Hr as [Hb1 Hr]. unfold is_byte in Hb1.
  cbn [Z.ltb Z.eqb andb orb]. destruct (Z.ltb_spec b1 (2 ^ 7)).
  { rewrite Z.mod_small by lia. f_equal; [f_equal; lia|lia]. }
  assert (b1 mod 2 ^ 7 = b1 - 2 ^ 7) as E1 by (symmetry; apply (Z.mod_unique_pos _ _ 1); lia).
  change (0 + 7) with 7. rewrite E1, (read_compressed_step pre [b1] rest 1 [2]); [|by rewrite <-app_assoc|done|simpl; lia|lia|lia].
  destruct rest as [|b2 rest]; [done|]. apply Forall_cons in Hr as [Hb2 Hr]. unfold is_byte in Hb2.
  simpl (0 <? 1). simpl (1 =? 2). cbn [andb orb]. rewrite orb_false_r.
  destruct (Z.eqb_spec b2 0); [done|]. destruct (Z.ltb_spec b2 (2 ^ 7)).
  { rewrite Z.mod_small by lia. f_equal; [f_equal; lia|lia]. }
  assert (b2 mod 2 ^ 7 = b2 - 2 ^ 7) as E2 by (symmetry; apply (Z.mod_unique_pos _ _ 1); lia).
  change (7 + 7) with 14. rewrite E2, (read_compressed_step pre [b1; b2] rest 2 []); [|by rewrite <-app_assoc|done|simpl; lia|lia|lia].
  destruct rest as [|b3 rest]; [done|]. simpl (0 <? 2). simpl (2 =? 2). cbn [andb].
  destruct (Z.eqb_spec b3 0), (Z.ltb_spec 3 b3); cbn [orb]; [done..|].
  apply Forall_cons in Hr as [Hb3 _]. unfold is_byte in Hb3.
  rewrite (proj2 (Z.ltb_lt b3 _)), Z.mod_small by lia. f_equal; [f_equal; lia|lia].
Qed.

(** Wherever it is called in a buffer, the two-byte reader of lengths returns what
    the general reader of compressed integers returns, for the integers of up to
    fourteen bits, and refuses the larger ones and what the general reader refuses. *)
Theorem optimized_read_exact o n o' :
  0 ≤ o ≤ len bytes →
  optimized_read_compressed_u16 bytes o = (Ok n, o') ↔
  read_compressed_u16 bytes o = (Ok n, o') ∧ n < 2 ^ 14.
Proof.
  intros Ho. destruct (in_bounds_split bytes o Ho) as (pre & rest & Heq & ->).
  rewrite (optimized_read_at bytes Hbytes Hlen pre rest Heq), (read_compressed_at pre rest Heq).
  assert (Bytes rest) as Hr by (rewrite Heq in Hbytes; by apply Forall_app in Hbytes as [_ ?]).
  destruct rest as [|b1 [|b2 rest]]; [naive_solver|..]; apply Forall_cons in Hr as [Hb1 Hr];
    unfold is_byte in Hb1.
  - destruct (Z.ltb_spec b1 (2 ^ 7)); [|naive_solver]. split; [|naive_solver]. intros [= <- <-].
    split; [done|lia].
  - apply Forall_cons in Hr as [Hb2 Hr]. unfold is_byte in Hb2.
    destruct (Z.ltb_spec b1 (2 ^ 7)); [split; [|naive_solver]; intros [= <- <-]; split; [done|lia]|].
    destruct (Z.eqb_spec b2 0); simpl; [naive_solver|]. destruct (Z.ltb_spec b2 (2 ^ 7)); simpl.
    { split; [|naive_solver]. intros [= <- <-]. split; [done|lia]. }
    destruct rest as [|b3 rest]; [naive_solver|]. split; [done|]. apply Forall_cons in Hr as [Hb3 _].
    unfold is_byte in Hb3. destruct (Z.eqb_spec b3 0), (Z.ltb_spec 3 b3); simpl; [naive_solver..|].
    intros [[= <- _] ?]. lia.
Qed.
End compressed.

(** * Views *)

Section views.
Context `{env : ViewEnv} `{laws : !ViewLaws env}.

Lemma shows_inj v tx tx' : len (view_data v) ≤ u16_MAX → shows v tx → shows v tx' → tx = tx'.
Proof.
  intros Hl [? ? ? ? ? ? ? ? ? ? ? ? ? ? ? (ls & ? & ?)] [? ? ? ? ? ? ? ? ? ? ? ? ? ? ? (ls' & ? & ?)].
  destruct tx, tx'. simpl in *. f_equal; naive_solver congruence.
Qed.

(** A serialization of up to [u16::MAX] bytes determines the transaction. *)
Lemma serialize_inj tx tx' :
  wf_transaction tx → wf_transaction tx' → Bytes (serialize tx) → len (serialize tx) ≤ u16_MAX →
  serialize tx = serialize tx' → tx = tx'.
Proof.
  intros Hwf Hwf' Hb Hl Heq. assert (len (serialize tx) < 2 ^ 63) as Hl63 by (unfold u16_MAX in Hl; lia).
  pose proof (try_new_complete _ Hb Hl63 tx Hwf eq_refl) as H1.
  pose proof (try_new_complete _ Hb Hl63 tx' Hwf' Heq) as H2.
  assert (tx_frame tx = tx_frame tx') as Hf by congruence.
  pose proof (shows_tx tx Hwf Hl63 Hb) as Hs. rewrite Heq in Hb, Hl63.
  pose proof (shows_tx tx' Hwf' Hl63 Hb) as Hs'. rewrite <-Heq in Hs'.
  rewrite <-Hf in Hs'.
  by apply (shows_inj {| view_data := serialize tx; view_frame := tx_frame tx |}).
Qed.

(** The instructions with the keys of their programs. *)
Lemma program_instructions_collect v tx fuel it ixs :
  shows v tx → collect InstructionsIterator_next fuel it = Ret ixs →
  (∀ ix, ix ∈ ixs → 0 ≤ program_id_index ix < len (tx_account_keys tx)) →
  ∃ pis, collect (View.program_instructions_next v) fuel it = Ret pis ∧ pis.*2 = ixs ∧
    Forall (λ '(key, ix), tx_account_keys tx !! Z.to_nat (program_id_index ix) = Some key) pis.
Proof.
  intros Hs. revert it ixs. induction fuel as [|fuel IH]; intros it ixs; cbn [collect]; [done|].
  destruct (InstructionsIterator_next it) as [[[ix|] it']| |] eqn:En; simpl; [| |done..].
  2: { intros [= <-] _. exists [].
       assert (View.program_instructions_next v it = Ret (None, it')) as ->
         by (unfold View.program_instructions_next; by rewrite En).
       split_and!; [done..|constructor]. }
  destruct (collect InstructionsIterator_next fuel it') as [l| |] eqn:Hc; simpl; [|done..].
  intros [= <-] Hix.
  destruct (lookup_lt_is_Some_2 (tx_account_keys tx) (Z.to_nat (program_id_index ix))) as [key Hk].
  { pose proof (Hix ix (list_elem_of_here ix l)). lia. }
  assert (View.program_instructions_next v it = Ret (Some (key, ix), it')) as ->.
  { unfold View.program_instructions_next. rewrite En, bind_Ret_l, (shows_keys _ _ Hs), bind_Ret_l.
    by rewrite Hk. }
  rewrite bind_Ret_l. destruct (IH it' l Hc) as (pis & -> & <- & Hf); [intros; apply Hix; by right|].
  exists ((key, ix) :: pis). simpl. split_and!; [done..|by constructor].
Qed.

(** C7. A buffer is accepted exactly if it is the serialization of a well-formed
    transaction. Every accessor of the view then returns the part of that
    transaction it is named after, every unchecked read stays in the buffer, and
    the iterators yield exactly its instructions and its lookups (the lookups in
    a buffer of up to [u16::MAX] bytes, which a packet is; in a longer one the
    reads still stay in the buffer). *)
Theorem view_parses_exactly bytes :
  Bytes bytes → len bytes < 2 ^ 63 →
  (∀ v, try_new_unsanitized bytes = Ok v →
     ∃ tx, wf_transaction tx ∧ bytes = serialize tx ∧ shows v tx) ∧
  (∀ tx, wf_transaction tx → bytes = serialize tx →
     ∃ v, try_new_unsanitized bytes = Ok v ∧ shows v tx).
Proof.
  intros Hb Hl. unfold try_new_unsanitized. split.
  - intros v Hv. apply and_then_Ok_inv in Hv as (fr & Hfr & [= <-]).
    apply try_new_sound in Hfr as (tx & Hwf & -> & ->); [|done..]. exists tx.
    split_and!; [done..|by apply shows_tx].
  - intros tx Hwf ->. rewrite (try_new_complete _ Hb Hl tx Hwf eq_refl). simpl. eexists. split; [done|].
    by apply shows_tx.
Qed.

(** C17. Making a sanitized view of a buffer of up to [u16::MAX] bytes always
    returns, and succeeds exactly on the serializations of well-formed
    transactions whose header, program indices, account indices and lookups are
    valid. Every instruction's program is then one of the static keys, and the
    view's counts are those of the transaction: its wrapping arithmetic does not
    wrap. *)
Theorem sanitized_view_exact bytes :
  Bytes bytes → len bytes ≤ u16_MAX →
  ∃ r, try_new_sanitized bytes = Ret r ∧
    (∀ v, r = Ok v → ∃ tx, wf_transaction tx ∧ sanitary tx ∧ bytes = serialize tx ∧ shows v tx ∧
       (∃ pis, collect (View.program_instructions_next v) (View.ix_fuel v) (View.instructions_iter v)
                 = Ret pis ∧ pis.*2 = tx_instructions tx ∧
               Forall (λ '(key, ix),
                 tx_account_keys tx !! Z.to_nat (program_id_index ix) = Some key) pis) ∧
       View.total_num_accounts v = tx_num_accounts tx ∧
       View.num_requested_write_locks v =
         len (tx_account_keys tx) - tx_num_readonly_signed tx - tx_num_readonly_unsigned tx +
         total_writable (tx_lookups tx)) ∧
    (∀ tx, wf_transaction tx → sanitary tx → bytes = serialize tx → is_ok r = true).
Proof.
  intros Hb Hl. assert (len bytes < 2 ^ 63) as Hl63 by (unfold u16_MAX in Hl; lia).
  unfold try_new_sanitized, try_new_unsanitized.
  destruct (TransactionFrame_try_new bytes) as [fr|e] eqn:Hfr; cbn [and_then].
  2: { exists (Err e). split_and!; [done..|]. intros tx Hwf _ Heq.
       by rewrite (try_new_complete bytes Hb Hl63 tx Hwf Heq) in Hfr. }
  apply try_new_sound in Hfr as (tx & Hwf & -> & ->); [|done..].
  pose proof (shows_tx tx Hwf Hl63 Hb) as Hshows.
  rewrite try_Ok. unfold sanitize.
  destruct (sanitize_tx _ tx Hwf Hshows Hl) as [[Hs Hsan]|[Hs Hsan]]; rewrite Hs.
  2: { exists (Err SanitizeError). split_and!; [done..|]. intros tx' Hwf' Hsan' Heq. destruct Hsan.
       by rewrite (serialize_inj tx tx' Hwf Hwf' Hb Hl Heq). }
  eexists. split; [done|]. split; [|done]. intros v [= <-]. exists tx.
  destruct (counts_tx _ tx Hwf Hshows Hsan) as (_ & _ & Ht & Hw). split_and!; try done.
  eapply program_instructions_collect; [done|apply (shows_instructions _ _ Hshows)|].
  intros ix Hix. pose proof (san_programs _ Hsan ix Hix). lia.
Qed.

(** C25. Resolving a sanitized view never fails but for the wrong number of loaded
    addresses, and an account is then writable exactly if the message asks to
    write it, its key is not reserved, and it is not a program the transaction
    calls (unless the upgradeable loader is among the keys). *)
Theorem resolved_view_exact bytes v loaded reserved :
  Bytes bytes → len bytes ≤ u16_MAX → try_new_sanitized bytes = Ret (Ok v) →
  ∃ tx, bytes = serialize tx ∧ wf_transaction tx ∧ sanitary tx ∧
    ((∃ rv, ResolvedTransactionView_try_new v loaded reserved = Ret (Ok rv) ∧
        loads_match tx loaded ∧
        account_keys rv = Ret (message_keys tx loaded) ∧
        (∀ i, 0 ≤ i → is_writable rv i = true ↔ may_write tx loaded reserved i) ∧
        (∀ i, is_signer rv i = true ↔ i < tx_num_required_signatures tx) ∧
        (∀ i, ∃ b, is_invoked rv i = Ret b ∧ (b = true ↔ invoked tx i))) ∨
     ResolvedTransactionView_try_new v loaded reserved = Ret (Err AddressLookupMismatch) ∧
     ¬ loads_match tx loaded).
Proof.
  intros Hb Hl Hv. assert (len bytes < 2 ^ 63) as Hl63 by (unfold u16_MAX in Hl; lia).
  unfold try_new_sanitized, try_new_unsanitized in Hv.
  destruct (TransactionFrame_try_new bytes) as [fr|e] eqn:Hfr; [|done].
  apply try_new_sound in Hfr as (tx & Hwf & -> & ->); [|done..].
  pose proof (shows_tx tx Hwf Hl63 Hb) as Hshows. cbn [and_then] in Hv. rewrite try_Ok in Hv.
  unfold sanitize in Hv. apply try_Ok_inv in Hv as ([] & Hs & Hv).
  destruct (sanitize_tx _ tx Hwf Hshows Hl) as [[_ Hsan]|[Hs' _]]; [|congruence].
  assert (v = {| view_data := serialize tx; view_frame := tx_frame tx |}) as -> by (by injection Hv as <-).
  exists tx. split_and!; [done..|].
  destruct (resolved_try_new_tx _ tx Hwf Hshows Hsan loaded reserved)
    as [(cache & Hr & Hm & Hc)|Hr]; [left|by right].
  eexists. split; [exact Hr|]. split; [done|]. split; [|split; [exact Hc|split]].
  - unfold account_keys. cbn [view resolved_addresses]. rewrite (shows_keys _ _ Hshows), bind_Ret_l.
    by rewrite (proj2 (message_keys_length tx Hsan loaded Hm)).
  - intros i. unfold is_signer. cbn [view]. by rewrite (shows_required _ _ Hshows), Z.ltb_lt.
  - intros i. unfold is_invoked, invoked. cbn [view]. destruct (Z.leb_spec i u8_MAX).
    + rewrite (any_in_collect _ _ _ _ _ (shows_instructions _ _ Hshows)). eexists. split; [done|].
      rewrite existsb_exists. setoid_rewrite list_elem_of_In. setoid_rewrite Z.eqb_eq. done.
    + exists false. split; [done|]. split; [done|]. intros (ix & Hix & <-).
      destruct Hwf as [_ _ [Hk _] _ _ _]. pose proof (san_programs _ Hsan ix Hix).
      unfold u8_MAX in *. lia.
Qed.
End views.

(** * A transfer *)

Module ViewDemo.

#[export] Instance demo_env : ViewEnv := {|
  PACKET_DATA_SIZE := 1232; MESSAGE_VERSION_PREFIX := 128;
  account_keys_iter static loaded :=
    static ++ match loaded with Some l => loaded_writable l ++ loaded_readonly l | None => [] end;
  upgradeable_loader_id := 99 |}.

#[export] Instance demo_laws : ViewLaws demo_env.
Proof. by split. Qed.

(** A version-0 transaction with one signer, one program and one lookup table. *)
Definition tx : Transaction :=
  {| tx_signatures := [replicate 64 7]; tx_version := V0; tx_num_required_signatures := 1;
     tx_num_readonly_signed := 0; tx_num_readonly_unsigned := 1; tx_account_keys := [10; 11];
     tx_recent_blockhash := 5;
     tx_instructions := [{| program_id_index := 1; accounts := [0; 2]; data := [1; 2; 3] |}];
     tx_lookups :=
       [{| account_key := 20; writable_indexes := [4]; readonly_indexes := [6; 7] |}] |}.

Definition packet : list Z := Eval vm_compute in serialize tx.

Definition loaded : option LoadedAddresses :=
  Some {| loaded_writable := [30]; loaded_readonly := [31; 32] |}.

Lemma packet_eq : packet = serialize tx.
Proof. vm_compute. reflexivity. Qed.

Lemma packet_bytes : Bytes packet.
Proof.
  apply (Forall_forall is_byte). intros b Hb.
  assert (forallb (λ b, (0 <=? b) && (b <? 256)) packet = true) as Hall by (vm_compute; reflexivity).
  rewrite forallb_forall in Hall. apply list_elem_of_In, Hall in Hb. bsimp. done.
Qed.

Lemma packet_length : len packet ≤ u16_MAX.
Proof. by vm_compute. Qed.

Definition demo_view : TransactionView :=
  Eval vm_compute in
    match try_new_sanitized packet with
    | Ret (Ok v) => v
    | _ => {| view_data := []; view_frame := tx_frame tx |}
    end.

Lemma packet_sanitized : try_new_sanitized packet = Ret (Ok demo_view).
Proof. vm_compute. reflexivity. Qed.

Lemma packet_wf : wf_transaction tx.
Proof.
  split; simpl; unfold is_byte, is_key, wf_instruction, wf_lookup, short_vec, total_writable,
    total_readonly, u16_MAX; simpl.
  - split; [lia|]. repeat constructor; by vm_compute.
  - lia.
  - split; [lia|]. repeat constructor; unfold is_key; lia.
  - lia.
  - split; [lia|]. repeat constructor; unfold is_byte; simpl; lia.
  - split_and!; [lia| |by vm_compute|lia..]. repeat constructor; unfold is_key, is_byte; simpl; lia.
Qed.

Lemma view_parses_exactly_witness :
  Bytes packet ∧ ∃ v, try_new_unsanitized packet = Ok v ∧ shows v tx.
Proof.
  split; [exact packet_bytes|].
  refine (proj2 (view_parses_exactly packet packet_bytes _) tx packet_wf packet_eq).
  vm_compute. reflexivity.
Defined.

Lemma sanitized_view_exact_witness :
  len packet ≤ u16_MAX ∧ ∃ r, try_new_sanitized packet = Ret r ∧ is_ok r = true.
Proof.
  split; [exact packet_length|].
  destruct (sanitized_view_exact packet packet_bytes packet_length) as (r & Hr & _ & _).
  exists r. split; [exact Hr|]. rewrite packet_sanitized in Hr. by injection Hr as <-.
Defined.

Lemma resolved_view_exact_witness :
  try_new_sanitized packet = Ret (Ok demo_view) ∧
  ∃ rv, ResolvedTransactionView_try_new demo_view loaded ∅ = Ret (Ok rv) ∧
    (is_writable rv <$> [0; 1; 2; 3; 4; 5]) = [true; false; true; false; false; false].
Proof.
  split; [exact packet_sanitized|].
  destruct (resolved_view_exact packet demo_view loaded ∅ packet_bytes packet_length packet_sanitized)
    as (tx' & _ & _ & _ & [(rv & Hr & _)|[Hr _]]).
  - exists rv. split; [exact Hr|]. vm_compute in Hr. injection Hr as <-. vm_compute. reflexivity.
  - exfalso. vm_compute in Hr. discriminate Hr.
Defined.

End ViewDemo.
