(* ===== verification/SystemProgram.v ===== *)
(** The system program ([programs/system/src]), on the accounts of the runtime:
    creating, allocating and assigning accounts, transfers, and durable nonces. *)

From S2P Require Import Prelude Bytes TransactionContext.

(** * What the program takes from elsewhere *)

Inductive SystemError :=
| AccountAlreadyInUse
| ResultWithNegativeLamports
| InvalidAccountDataLength
| AddressWithSeedMismatch
| NonceNoRecentBlockhashes
| NonceBlockhashNotExpired.

(** [solana_system_interface::instruction::SystemInstruction]. *)
Inductive SystemInstruction :=
| CreateAccount (lamports space : Z) (owner : Pubkey)
| Assign (owner : Pubkey)
| Transfer (lamports : Z)
| CreateAccountWithSeed (base : Pubkey) (seed : list Z) (lamports space : Z) (owner : Pubkey)
| AdvanceNonceAccount
| WithdrawNonceAccount (lamports : Z)
| InitializeNonceAccount (authorized : Pubkey)
| AuthorizeNonceAccount (nonce_authority : Pubkey)
| Allocate (space : Z)
| AllocateWithSeed (base : Pubkey) (seed : list Z) (space : Z) (owner : Pubkey)
| AssignWithSeed (base : Pubkey) (seed : list Z) (owner : Pubkey)
| TransferWithSeed (lamports : Z) (from_seed : list Z) (from_owner : Pubkey)
| UpgradeNonceAccount.

(** The amounts of an instruction are [u64]s. *)
Definition wf_system_instruction (instruction : SystemInstruction) : Prop :=
  match instruction with
  | CreateAccount lamports space _ => is_u64 lamports ∧ is_u64 space
  | CreateAccountWithSeed _ _ lamports space _ => is_u64 lamports ∧ is_u64 space
  | Transfer lamports => is_u64 lamports
  | TransferWithSeed lamports _ _ => is_u64 lamports
  | WithdrawNonceAccount lamports => is_u64 lamports
  | Allocate space => is_u64 space
  | AllocateWithSeed _ _ space _ => is_u64 space
  | _ => True
  end.

(** [solana_nonce::state]. *)
Record NonceData := {
  authority : Pubkey;
  durable_nonce : Hash;
  lamports_per_signature : Z;
}.
Inductive NonceState := Uninitialized | Initialized (data : NonceData).
Inductive AuthorizeNonceError :=
| AuthorizeUninitialized
| AuthorizeMissingSignature (account_authority : Pubkey).

(** Crates outside the repository: identifiers, derived addresses, and the
    versioned nonce state with its encoding. *)
Class SystemSdk := {
  system_program_id : Pubkey;
  recent_blockhashes_id : Pubkey;
  rent_id : Pubkey;
  system_error : SystemError → InstructionError;
  create_with_seed : Pubkey → list Z → Pubkey → result Pubkey InstructionError;
  limited_deserialize : list Z → result SystemInstruction InstructionError;
  Versions : Type;
  versions_new : NonceState → Versions;
  versions_state : Versions → NonceState;
  versions_upgrade : Versions → option Versions;
  versions_authorize : Versions → gset Pubkey → Pubkey → result Versions AuthorizeNonceError;
  versions_serialize : Versions → list Z;
  versions_deserialize : list Z → option Versions;
  from_blockhash : Hash → Hash;
}.

(** What is relied on: amounts are decoded as [u64]s, no state is decoded from an account without data, a state
    reads back as it was written, [Versions::new] keeps the state, and an authority
    is only changed by the old one. *)
Class SystemLaws `(sdk : SystemSdk) : Prop := {
  deserialize_amounts data instruction :
    limited_deserialize data = Ok instruction → wf_system_instruction instruction;
  deserialize_empty : versions_deserialize [] = None;
  deserialize_serialize v rest : versions_deserialize (versions_serialize v ++ rest) = Some v;
  state_new s : versions_state (versions_new s) = s;
  authorize_Ok v signers k v' : versions_authorize v signers k = Ok v' →
    ∃ d, versions_state v = Initialized d ∧ authority d ∈ signers ∧
      versions_state v' = Initialized
        {| authority := k; durable_nonce := durable_nonce d;
           lamports_per_signature := lamports_per_signature d |};
  upgrade_Some v v' : versions_upgrade v = Some v' →
    ∃ d d', versions_state v = Initialized d ∧ versions_state v' = Initialized d' ∧
      authority d' = authority d;
}.

(** The part of [InvokeContext] that the program reads: [environment_config] and
    the sysvar cache. [Rent] is known by its [minimum_balance]. *)
Record Environment := {
  blockhash : Hash;
  blockhash_lamports_per_signature : Z;
  get_recent_blockhashes : result (list Hash) InstructionError;
  get_rent : result (nat → Z) InstructionError;
}.

Definition ok_or_else {A E} (o : option A) (e : E) : result A E :=
  match o with Some a => Ok a | None => Err e end.

(** * The instruction context *)

Section instruction_context.
Context (ctx : InstructionContext).

Definition check_number_of_instruction_accounts (expected_at_least : nat)
    : result unit InstructionError :=
  if (length (instruction_accounts ctx) <? expected_at_least)%nat then Err NotEnoughAccountKeys
  else Ok tt.

(** [get_key_of_account_at_index(get_index_of_instruction_account_in_transaction(i)?)?]. *)
Definition get_key_of_instruction_account (i : nat) : result Pubkey InstructionError :=
  a ←! ok_or_else (instruction_accounts ctx !! i) NotEnoughAccountKeys;
  Ok (key a).

(** One account is borrowed at a time, so that the borrow does not fail. *)
Definition try_borrow_instruction_account (i : nat) : result InstructionAccount InstructionError :=
  ok_or_else (instruction_accounts ctx !! i) NotEnoughAccountKeys.

Definition is_instruction_account_signer (i : nat) : result bool InstructionError :=
  a ←! ok_or_else (instruction_accounts ctx !! i) MissingAccount;
  Ok (is_signer a).

Definition get_signers : gset Pubkey :=
  foldl (λ (result : gset Pubkey) a, if is_signer a then {[ key a ]} ∪ result else result) ∅ (instruction_accounts ctx).

(** [get_sysvar_with_account_check]. *)
Definition check_sysvar_account (id : Pubkey) (i : nat) : result unit InstructionError :=
  k ←! get_key_of_instruction_account i;
  if negb (k =? id) then Err InvalidArgument else Ok tt.

End instruction_context.

Section system.
Context `{SystemSdk}.

(** [BorrowedAccount::get_state] and [set_state] of the nonce versions. *)
Definition get_state (this : InstructionAccount) (tc : TransactionContext)
    : result Versions InstructionError :=
  ok_or_else (versions_deserialize (Borrowed.get_data this tc)) InvalidAccountData.

Definition set_state (ctx : InstructionContext) (this : InstructionAccount) (state : Versions)
    (tc : TransactionContext) : result TransactionContext InstructionError :=
  '_ ←! Borrowed.can_data_be_changed ctx this tc;
  if (length (Borrowed.get_data this tc) <? length (versions_serialize state))%nat
  then Err AccountDataTooSmall
  else Borrowed.get_data_mut ctx this (versions_serialize state) tc.

(** * [system_instruction.rs] *)

Section nonce.
Context (ctx : InstructionContext) (env : Environment) (signers : gset Pubkey).

(** Addition that returns [InsufficientFunds] on overflow. *)
Definition checked_add_funds (a b : Z) : result Z InstructionError :=
  ok_or_else (checked_add u64_MAX a b) InsufficientFunds.

Definition advance_nonce_account (account : InstructionAccount) (tc : TransactionContext)
    : result TransactionContext InstructionError :=
  if negb (is_writable account) then Err InvalidArgument
  else
    state ←! get_state account tc;
    match versions_state state with
    | Initialized data =>
      if negb (bool_decide (authority data ∈ signers)) then Err MissingRequiredSignature
      else
        let next_durable_nonce := from_blockhash (blockhash env) in
        if durable_nonce data =? next_durable_nonce then Err (system_error NonceBlockhashNotExpired)
        else
          let new_data :=
            {| authority := authority data; durable_nonce := next_durable_nonce;
               lamports_per_signature := blockhash_lamports_per_signature env |} in
          set_state ctx account (versions_new (Initialized new_data)) tc
    | Uninitialized => Err InvalidAccountData
    end.

Definition withdraw_nonce_account (from_account_index : nat) (lamports : Z) (to_account_index : nat)
    (minimum_balance : nat → Z) (tc : TransactionContext) : result TransactionContext InstructionError :=
  from ←! try_borrow_instruction_account ctx from_account_index;
  if negb (is_writable from) then Err InvalidArgument
  else
    state ←! get_state from tc;
    '(signer, tc) ←!
      match versions_state state with
      | Uninitialized =>
        if Borrowed.get_lamports from tc <? lamports then Err InsufficientFunds
        else Ok (key from, tc)
      | Initialized data =>
        if lamports =? Borrowed.get_lamports from tc then
          let durable := from_blockhash (blockhash env) in
          if durable_nonce data =? durable then Err (system_error NonceBlockhashNotExpired)
          else
            tc ←! set_state ctx from (versions_new Uninitialized) tc;
            Ok (authority data, tc)
        else
          let min_balance := minimum_balance (length (Borrowed.get_data from tc)) in
          amount ←! checked_add_funds lamports min_balance;
          if Borrowed.get_lamports from tc <? amount then Err InsufficientFunds
          else Ok (authority data, tc)
      end;
    if negb (bool_decide (signer ∈ signers)) then Err MissingRequiredSignature
    else
      tc ←! Borrowed.checked_sub_lamports ctx from lamports tc;
      to ←! try_borrow_instruction_account ctx to_account_index;
      Borrowed.checked_add_lamports ctx to lamports tc.

Definition initialize_nonce_account (account : InstructionAccount) (nonce_authority : Pubkey)
    (minimum_balance : nat → Z) (tc : TransactionContext) : result TransactionContext InstructionError :=
  if negb (is_writable account) then Err InvalidArgument
  else
    state ←! get_state account tc;
    match versions_state state with
    | Uninitialized =>
      let min_balance := minimum_balance (length (Borrowed.get_data account tc)) in
      if Borrowed.get_lamports account tc <? min_balance then Err InsufficientFunds
      else
        let data :=
          {| authority := nonce_authority; durable_nonce := from_blockhash (blockhash env);
             lamports_per_signature := blockhash_lamports_per_signature env |} in
        set_state ctx account (versions_new (Initialized data)) tc
    | Initialized _ => Err InvalidAccountData
    end.

Definition authorize_nonce_account (account : InstructionAccount) (nonce_authority : Pubkey)
    (tc : TransactionContext) : result TransactionContext InstructionError :=
  if negb (is_writable account) then Err InvalidArgument
  else
    state ←! get_state account tc;
    match versions_authorize state signers nonce_authority with
    | Ok versions => set_state ctx account versions tc
    | Err AuthorizeUninitialized => Err InvalidAccountData
    | Err (AuthorizeMissingSignature _) => Err MissingRequiredSignature
    end.
End nonce.

(** * [system_processor.rs] *)

(** An address that may have been generated from a seed. *)
Record Address := { address : Pubkey; base : option Pubkey }.

Definition address_is_signer (self : Address) (signers : gset Pubkey) : bool :=
  match base self with
  | Some base => bool_decide (base ∈ signers)
  | None => bool_decide (address self ∈ signers)
  end.

Definition Address_create (k : Pubkey) (with_seed : option (Pubkey * list Z * Pubkey))
    : result Address InstructionError :=
  match with_seed with
  | Some (base, seed, owner) =>
    address_with_seed ←! create_with_seed base seed owner;
    if negb (k =? address_with_seed) then Err (system_error AddressWithSeedMismatch)
    else Ok {| address := k; base := Some base |}
  | None => Ok {| address := k; base := None |}
  end.

Section processor.
Context (ctx : InstructionContext) (signers : gset Pubkey).

Definition allocate (account : InstructionAccount) (address : Address) (space : Z)
    (tc : TransactionContext) : result TransactionContext InstructionError :=
  if negb (address_is_signer address signers) then Err MissingRequiredSignature
  else if negb (bool_decide (Borrowed.get_data account tc = []))
          || negb (Borrowed.get_owner account tc =? system_program_id)
  then Err (system_error AccountAlreadyInUse)
  else if MAX_PERMITTED_DATA_LENGTH <? space then Err (system_error InvalidAccountDataLength)
  else Borrowed.set_data_length ctx account (Z.to_nat space) tc.

Definition assign (account : InstructionAccount) (address : Address) (owner : Pubkey)
    (tc : TransactionContext) : result TransactionContext InstructionError :=
  if Borrowed.get_owner account tc =? owner then Ok tc
  else if negb (address_is_signer address signers) then Err MissingRequiredSignature
  else Borrowed.set_owner ctx account owner tc.

Definition allocate_and_assign (to : InstructionAccount) (to_address : Address) (space : Z)
    (owner : Pubkey) (tc : TransactionContext) : result TransactionContext InstructionError :=
  tc ←! allocate to to_address space tc;
  assign to to_address owner tc.

Definition transfer_verified (from_account_index to_account_index : nat) (lamports : Z)
    (tc : TransactionContext) : result TransactionContext InstructionError :=
  from ←! try_borrow_instruction_account ctx from_account_index;
  if negb (bool_decide (Borrowed.get_data from tc = [])) then Err InvalidArgument
  else if Borrowed.get_lamports from tc <? lamports
  then Err (system_error ResultWithNegativeLamports)
  else
    tc ←! Borrowed.checked_sub_lamports ctx from lamports tc;
    to ←! try_borrow_instruction_account ctx to_account_index;
    Borrowed.checked_add_lamports ctx to lamports tc.

Definition transfer (from_account_index to_account_index : nat) (lamports : Z)
    (tc : TransactionContext) : result TransactionContext InstructionError :=
  signed ←! is_instruction_account_signer ctx from_account_index;
  if negb signed then Err MissingRequiredSignature
  else transfer_verified from_account_index to_account_index lamports tc.

Definition create_account (from_account_index to_account_index : nat) (to_address : Address)
    (lamports space : Z) (owner : Pubkey) (tc : TransactionContext)
    : result TransactionContext InstructionError :=
  to ←! try_borrow_instruction_account ctx to_account_index;
  if 0 <? Borrowed.get_lamports to tc then Err (system_error AccountAlreadyInUse)
  else
    tc ←! allocate_and_assign to to_address space owner tc;
    transfer from_account_index to_account_index lamports tc.

Definition transfer_with_seed (from_account_index from_base_account_index : nat) (from_seed : list Z)
    (from_owner : Pubkey) (to_account_index : nat) (lamports : Z) (tc : TransactionContext)
    : result TransactionContext InstructionError :=
  signed ←! is_instruction_account_signer ctx from_base_account_index;
  if negb signed then Err MissingRequiredSignature
  else
    base ←! get_key_of_instruction_account ctx from_base_account_index;
    address_from_seed ←! create_with_seed base from_seed from_owner;
    from_key ←! get_key_of_instruction_account ctx from_account_index;
    if negb (from_key =? address_from_seed) then Err (system_error AddressWithSeedMismatch)
    else transfer_verified from_account_index to_account_index lamports tc.
End processor.

(** [get_sysvar_with_account_check::recent_blockhashes] and [rent]. *)
Definition sysvar_recent_blockhashes (ctx : InstructionContext) (env : Environment) (i : nat)
    : result (list Hash) InstructionError :=
  '_ ←! check_sysvar_account ctx recent_blockhashes_id i; get_recent_blockhashes env.
Definition sysvar_rent (ctx : InstructionContext) (env : Environment) (i : nat)
    : result (nat → Z) InstructionError :=
  '_ ←! check_sysvar_account ctx rent_id i; get_rent env.

(** The [match] of the entry point. *)
Definition process_system_instruction (ctx : InstructionContext) (env : Environment)
    (signers : gset Pubkey) (instruction : SystemInstruction) (tc : TransactionContext)
    : result TransactionContext InstructionError :=
  match instruction with
  | CreateAccount lamports space owner =>
    '_ ←! check_number_of_instruction_accounts ctx 2;
    k ←! get_key_of_instruction_account ctx 1;
    to_address ←! Address_create k None;
    create_account ctx signers 0 1 to_address lamports space owner tc
  | CreateAccountWithSeed base seed lamports space owner =>
    '_ ←! check_number_of_instruction_accounts ctx 2;
    k ←! get_key_of_instruction_account ctx 1;
    to_address ←! Address_create k (Some (base, seed, owner));
    create_account ctx signers 0 1 to_address lamports space owner tc
  | Assign owner =>
    '_ ←! check_number_of_instruction_accounts ctx 1;
    account ←! try_borrow_instruction_account ctx 0;
    k ←! get_key_of_instruction_account ctx 0;
    address ←! Address_create k None;
    assign ctx signers account address owner tc
  | Transfer lamports =>
    '_ ←! check_number_of_instruction_accounts ctx 2;
    transfer ctx 0 1 lamports tc
  | TransferWithSeed lamports from_seed from_owner =>
    '_ ←! check_number_of_instruction_accounts ctx 3;
    transfer_with_seed ctx 0 1 from_seed from_owner 2 lamports tc
  | AdvanceNonceAccount =>
    '_ ←! check_number_of_instruction_accounts ctx 1;
    me ←! try_borrow_instruction_account ctx 0;
    recent_blockhashes ←! sysvar_recent_blockhashes ctx env 1;
    if bool_decide (recent_blockhashes = []) then Err (system_error NonceNoRecentBlockhashes)
    else advance_nonce_account ctx env signers me tc
  | WithdrawNonceAccount lamports =>
    '_ ←! check_number_of_instruction_accounts ctx 2;
    _recent_blockhashes ←! sysvar_recent_blockhashes ctx env 2;
    rent ←! sysvar_rent ctx env 3;
    withdraw_nonce_account ctx env signers 0 lamports 1 rent tc
  | InitializeNonceAccount authorized =>
    '_ ←! check_number_of_instruction_accounts ctx 1;
    me ←! try_borrow_instruction_account ctx 0;
    recent_blockhashes ←! sysvar_recent_blockhashes ctx env 1;
    if bool_decide (recent_blockhashes = []) then Err (system_error NonceNoRecentBlockhashes)
    else
      rent ←! sysvar_rent ctx env 2;
      initialize_nonce_account ctx env me authorized rent tc
  | AuthorizeNonceAccount nonce_authority =>
    '_ ←! check_number_of_instruction_accounts ctx 1;
    me ←! try_borrow_instruction_account ctx 0;
    authorize_nonce_account ctx signers me nonce_authority tc
  | UpgradeNonceAccount =>
    '_ ←! check_number_of_instruction_accounts ctx 1;
    nonce_account ←! try_borrow_instruction_account ctx 0;
    if negb (Borrowed.get_owner nonce_account tc =? system_program_id) then Err InvalidAccountOwner
    else if negb (is_writable nonce_account) then Err InvalidArgument
    else
      nonce_versions ←! get_state nonce_account tc;
      match versions_upgrade nonce_versions with
      | None => Err InvalidArgument
      | Some nonce_versions => set_state ctx nonce_account nonce_versions tc
      end
  | Allocate space =>
    '_ ←! check_number_of_instruction_accounts ctx 1;
    account ←! try_borrow_instruction_account ctx 0;
    k ←! get_key_of_instruction_account ctx 0;
    address ←! Address_create k None;
    allocate ctx signers account address space tc
  | AllocateWithSeed base seed space owner =>
    '_ ←! check_number_of_instruction_accounts ctx 1;
    account ←! try_borrow_instruction_account ctx 0;
    k ←! get_key_of_instruction_account ctx 0;
    address ←! Address_create k (Some (base, seed, owner));
    allocate_and_assign ctx signers account address space owner tc
  | AssignWithSeed base seed owner =>
    '_ ←! check_number_of_instruction_accounts ctx 1;
    account ←! try_borrow_instruction_account ctx 0;
    k ←! get_key_of_instruction_account ctx 0;
    address ←! Address_create k (Some (base, seed, owner));
    assign ctx signers account address owner tc
  end.

(** [Entrypoint]. *)
Definition system_entrypoint (ctx : InstructionContext) (env : Environment) (data : list Z)
    (tc : TransactionContext) : result TransactionContext InstructionError :=
  instruction ←! limited_deserialize data;
  process_system_instruction ctx env (get_signers ctx) instruction tc.

End system.
