(* ===== verification/SystemProps.v ===== *)
(** What the system program does to accounts: every change is a sequence of the
    runtime's account operations, and is authorized by a signature of the account,
    of the base of its address, or of the authority of its nonce. *)

From S2P Require Import Prelude Bytes TransactionContext TransactionContextProps.
From S2P Require Import TransactionExec SystemProgram.

(** Splits the conditions of a call that succeeded, up to its next [?]. *)
Ltac conds H :=
  repeat match type of H with
  | (if ?b then _ else _) = Ok _ => let E := fresh "E" in destruct b eqn:E; try discriminate H
  end.

(** Peels the calls in front of the last one of a call that succeeded. *)
Ltac peel H :=
  repeat match type of H with
  | and_then _ _ = Ok _ =>
      let x := fresh "x" in let Hx := fresh "Hx" in apply and_then_Ok_inv in H as (x & Hx & H)
  | (if ?b then _ else _) = Ok _ => let E := fresh "E" in destruct b eqn:E; try discriminate H
  end.

Section props.
Context `{rsdk : RuntimeSdk} `{sdk : SystemSdk} `{laws : !SystemLaws sdk}.

(** The base, seed and owner that an instruction gives for the address of the
    account it works on. *)
Definition seed_of (ctx : InstructionContext) (instruction : SystemInstruction)
    : option (Pubkey * list Z * Pubkey) :=
  match instruction with
  | CreateAccountWithSeed base seed _ _ owner | AllocateWithSeed base seed _ owner
  | AssignWithSeed base seed owner => Some (base, seed, owner)
  | TransferWithSeed _ from_seed from_owner =>
    base ← instruction_accounts ctx !! 1%nat; Some (key base, from_seed, from_owner)
  | _ => None
  end.

Context (given : option (Pubkey * list Z * Pubkey)).

(** The account has signed, or its address is derived as the instruction says, from
    a base that has. *)
Definition approved (signers : gset Pubkey) (k : Pubkey) : Prop :=
  k ∈ signers ∨ ∃ base seed owner, given = Some (base, seed, owner) ∧ base ∈ signers ∧
    create_with_seed base seed owner = Ok k.

Definition nonce_of (a : AccountSharedData) : option NonceState :=
  versions_state <$> versions_deserialize (acc_data a).

(** What one system instruction may do to an account. *)
Inductive account_change (signers : gset Pubkey) (k : Pubkey) (a a' : AccountSharedData) : Prop :=
| change_credit :
    acc_data a' = acc_data a → acc_owner a' = acc_owner a → acc_executable a' = acc_executable a →
    acc_lamports a ≤ acc_lamports a' → account_change signers k a a'
| change_approved :
    approved signers k → acc_executable a' = acc_executable a → account_change signers k a a'
| change_nonce_authority d :
    nonce_of a = Some (Initialized d) → authority d ∈ signers →
    acc_owner a' = acc_owner a → acc_executable a' = acc_executable a →
    length (acc_data a') = length (acc_data a) → account_change signers k a a'
| change_nonce_initialize d :
    nonce_of a = Some Uninitialized → nonce_of a' = Some (Initialized d) →
    acc_lamports a' = acc_lamports a → acc_owner a' = acc_owner a →
    acc_executable a' = acc_executable a → account_change signers k a a'
| change_nonce_upgrade d d' :
    nonce_of a = Some (Initialized d) → nonce_of a' = Some (Initialized d') →
    authority d' = authority d → acc_lamports a' = acc_lamports a → acc_owner a' = acc_owner a →
    acc_executable a' = acc_executable a → account_change signers k a a'.

Lemma change_same signers k a : account_change signers k a a.
Proof. apply change_credit; done || lia. Qed.

(** Every account changes as allowed. *)
Definition changes (signers : gset Pubkey) (tc tc' : TransactionContext) : Prop :=
  ∀ k, account_change signers k (get_account tc k) (get_account tc' k).

(** A change of one account. *)
Lemma changes_one signers ctx this tc tc' :
  op_effect ctx this tc tc' →
  account_change signers (key this) (get_account tc (key this)) (get_account tc' (key this)) →
  changes signers tc tc'.
Proof.
  intros Heff Hc k. destruct (decide (k = key this)) as [->|Hk]; [done|].
  rewrite (effect_others _ _ _ _ Heff) by done. apply change_same.
Qed.

(** * The operations of the runtime *)

Lemma checked_add_lamports_Ok ctx this n tc tc' :
  Borrowed.checked_add_lamports ctx this n tc = Ok tc' →
  op_effect ctx this tc tc' ∧
  get_account tc' (key this) =
    set_acc_lamports (acc_lamports (get_account tc (key this)) + n) (get_account tc (key this)).
Proof.
  unfold Borrowed.checked_add_lamports, checked_add. intros H. destruct (_ <=? _); [|done].
  eauto using set_lamports_effect, set_lamports_Ok.
Qed.

Lemma checked_sub_lamports_Ok ctx this n tc tc' :
  Borrowed.checked_sub_lamports ctx this n tc = Ok tc' →
  op_effect ctx this tc tc' ∧ n ≤ acc_lamports (get_account tc (key this)) ∧
  get_account tc' (key this) =
    set_acc_lamports (acc_lamports (get_account tc (key this)) - n) (get_account tc (key this)).
Proof.
  unfold Borrowed.checked_sub_lamports, checked_sub. intros H.
  destruct (Z.leb_spec n (Borrowed.get_lamports this tc)); [|done].
  eauto using set_lamports_effect, set_lamports_Ok.
Qed.

Lemma set_data_length_Ok ctx this n tc tc' :
  Borrowed.set_data_length ctx this n tc = Ok tc' →
  op_effect ctx this tc tc' ∧ ∃ data,
    length data = n ∧ get_account tc' (key this) = set_acc_data data (get_account tc (key this)).
Proof.
  intros H. split; [by apply (run_op_effect ctx this (OpSetDataLength n))|].
  unfold Borrowed.set_data_length in H. guards H; injection H as <-.
  - exists (acc_data (get_account tc (key this))). split; [by apply Nat.eqb_eq in E|].
    by destruct (get_account tc (key this)).
  - eexists. rewrite get_account_update, decide_True by done. split; [|done].
    rewrite length_take, length_app, length_replicate. lia.
Qed.

(** Writing a state keeps the length of the data and reads back. *)
Lemma set_state_Ok ctx this v tc tc' :
  set_state ctx this v tc = Ok tc' →
  op_effect ctx this tc tc' ∧ ∃ data,
    get_account tc' (key this) = set_acc_data data (get_account tc (key this)) ∧
    length data = length (acc_data (get_account tc (key this))) ∧ versions_deserialize data = Some v.
Proof.
  unfold set_state. intros H. guards H. split; [by apply (run_op_effect ctx this (OpGetDataMut (versions_serialize v)))|].
  unfold Borrowed.get_data_mut in H. guards H. injection H as <-.
  rewrite get_account_update, decide_True by done. eexists. split; [done|].
  apply Nat.ltb_ge in E. unfold Borrowed.get_data in *. cbn [get_account touch accounts] in *.
  change (get_account (touch (key this) tc) (key this)) with (get_account tc (key this)).
  set (d := acc_data (get_account tc (key this))) in *. split.
  - rewrite length_take, length_app, length_drop. lia.
  - rewrite take_ge by (rewrite length_app, length_drop; lia). apply deserialize_serialize.
Qed.

(** * Signers *)

Lemma elem_of_get_signers ctx k :
  k ∈ get_signers ctx ↔ ∃ a, a ∈ instruction_accounts ctx ∧ is_signer a = true ∧ key a = k.
Proof.
  unfold get_signers.
  enough (∀ l (acc : gset Pubkey), k ∈ foldl (λ (result : gset Pubkey) a,
      if is_signer a then {[ key a ]} ∪ result else result) acc l ↔
    k ∈ acc ∨ ∃ a, a ∈ l ∧ is_signer a = true ∧ key a = k) as Hall by (rewrite Hall; set_solver).
  induction l as [|a l IH]; intros acc; simpl; [set_solver|]. rewrite IH.
  destruct (is_signer a) eqn:Hs.
  - rewrite elem_of_union, elem_of_singleton. split.
    + intros [[->|?]|(b & ? & ? & ?)]; [right; exists a|by left|right; exists b]; set_solver.
    + intros [?|(b & [->|?]%elem_of_cons & ? & <-)]; [by auto..|]. right. eauto.
  - split.
    + intros [?|(b & ? & ? & ?)]; [by left|right; exists b; set_solver].
    + intros [?|(b & [->|?]%elem_of_cons & ? & <-)]; [by auto|congruence|]. right. eauto.
Qed.

Lemma is_signer_approved ctx i :
  is_instruction_account_signer ctx i = Ok true →
  ∃ a, instruction_accounts ctx !! i = Some a ∧ key a ∈ get_signers ctx.
Proof.
  unfold is_instruction_account_signer, ok_or_else. intros (a & Ha & [= Hs])%and_then_Ok_inv.
  case_match; simplify_eq. eexists. split; [done|]. apply elem_of_get_signers.
  exists a. split; [by eapply list_elem_of_lookup_2|done].
Qed.

Lemma try_borrow_Ok ctx i a :
  try_borrow_instruction_account ctx i = Ok a → instruction_accounts ctx !! i = Some a.
Proof. unfold try_borrow_instruction_account, ok_or_else. by case_match; intros [= ->]. Qed.

Lemma get_key_Ok ctx i k :
  get_key_of_instruction_account ctx i = Ok k →
  ∃ a, instruction_accounts ctx !! i = Some a ∧ key a = k.
Proof.
  unfold get_key_of_instruction_account, ok_or_else. intros (a & Ha & [= <-])%and_then_Ok_inv.
  case_match; simplify_eq. eauto.
Qed.

(** An address that has signed approves its account. *)
Lemma address_approved signers k seed addr :
  seed = None ∨ seed = given → Address_create k seed = Ok addr →
  address addr = k ∧ (address_is_signer addr signers = true → approved signers k).
Proof.
  intros Hseed. unfold Address_create, address_is_signer, approved. destruct seed as [[[b s] o]|].
  - destruct Hseed as [|Hg]; [done|].
    intros (k' & Hk' & H)%and_then_Ok_inv. destruct (Z.eqb_spec k k') as [->|]; simpl in H; [|done].
    injection H as <-. simpl. split; [done|]. intros ?%bool_decide_eq_true. right. eauto 10.
  - intros [= <-]. simpl. split; [done|]. intros ?%bool_decide_eq_true. by left.
Qed.

(** * Configuring accounts *)

Section configure.
Context (ctx : InstructionContext) (signers : gset Pubkey) (this : InstructionAccount) (addr : Address).
Hypothesis Haddr : address_is_signer addr signers = true → approved signers (key this).

Lemma allocate_Ok space tc tc' :
  allocate ctx signers this addr space tc = Ok tc' →
  op_effect ctx this tc tc' ∧ approved signers (key this) ∧
  acc_data (get_account tc (key this)) = [] ∧
  acc_owner (get_account tc (key this)) = system_program_id ∧
  ∃ data, get_account tc' (key this) = set_acc_data data (get_account tc (key this)).
Proof.
  unfold allocate. intros H. conds H. bsimp. apply set_data_length_Ok in H as [Heff (d & _ & Hd)].
  unfold Borrowed.get_data, Borrowed.get_owner in *. eauto 10.
Qed.

Lemma assign_Ok owner tc tc' :
  assign ctx signers this addr owner tc = Ok tc' →
  op_effect ctx this tc tc' ∧
  (tc' = tc ∨ approved signers (key this) ∧
     get_account tc' (key this) = set_acc_owner owner (get_account tc (key this))).
Proof.
  unfold assign. intros H. conds H.
  - injection H as <-. split; [apply op_effect_refl|by left].
  - bsimp. eauto 10 using set_owner_effect, set_owner_Ok.
Qed.

Lemma allocate_and_assign_Ok space owner tc tc' :
  allocate_and_assign ctx signers this addr space owner tc = Ok tc' →
  op_effect ctx this tc tc' ∧ approved signers (key this) ∧
  acc_data (get_account tc (key this)) = [] ∧
  acc_owner (get_account tc (key this)) = system_program_id ∧
  acc_lamports (get_account tc' (key this)) = acc_lamports (get_account tc (key this)) ∧
  acc_executable (get_account tc' (key this)) = acc_executable (get_account tc (key this)).
Proof.
  unfold allocate_and_assign. intros (tc1 & H1 & H2)%and_then_Ok_inv.
  apply allocate_Ok in H1 as (He1 & Ha & Hd & Ho & (data & Hg1)).
  apply assign_Ok in H2 as (He2 & Hg2). split_and!; [by eapply op_effect_trans|done..| |];
    (destruct Hg2 as [->|[_ ->]]; by rewrite Hg1).
Qed.

Lemma approved_change tc tc' :
  approved signers (key this) → op_effect ctx this tc tc' →
  acc_executable (get_account tc' (key this)) = acc_executable (get_account tc (key this)) →
  changes signers tc tc'.
Proof. intros. eapply changes_one; [done|]. by apply change_approved. Qed.
End configure.

(** * Moving lamports *)

(** Accounts that differ in their lamports only. *)
Definition same_but_lamports (a a' : AccountSharedData) : Prop :=
  acc_data a' = acc_data a ∧ acc_owner a' = acc_owner a ∧ acc_executable a' = acc_executable a.

Lemma move_changes ctx signers from to n tc0 tc tc1 tc' :
  0 ≤ n →
  (∀ k, k ≠ key from → get_account tc k = get_account tc0 k) →
  (∀ a', same_but_lamports (get_account tc (key from)) a' →
     account_change signers (key from) (get_account tc0 (key from)) a') →
  Borrowed.checked_sub_lamports ctx from n tc = Ok tc1 →
  Borrowed.checked_add_lamports ctx to n tc1 = Ok tc' →
  changes signers tc0 tc'.
Proof.
  intros Hn Hsame Hfrom (He1 & Hle & H1)%checked_sub_lamports_Ok (He2 & H2)%checked_add_lamports_Ok k.
  destruct (decide (k = key from)) as [->|Hk].
  - apply Hfrom. destruct (decide (key from = key to)) as [E|Hne].
    + rewrite E, H2, <-E, H1. done.
    + rewrite (effect_others _ _ _ _ He2), H1 by done. done.
  - destruct (decide (k = key to)) as [->|Hk2].
    + rewrite H2, (effect_others _ _ _ _ He1), Hsame by done. apply change_credit; simpl; done || lia.
    + rewrite (effect_others _ _ _ _ He2), (effect_others _ _ _ _ He1), Hsame by done. apply change_same.
Qed.

Lemma transfer_verified_changes ctx signers i j n tc tc' :
  0 ≤ n → (∀ from, instruction_accounts ctx !! i = Some from → approved signers (key from)) →
  transfer_verified ctx i j n tc = Ok tc' → changes signers tc tc'.
Proof.
  intros Hn Hfrom. unfold transfer_verified. intros (from & Hb & H)%and_then_Ok_inv.
  apply try_borrow_Ok in Hb. conds H. apply and_then_Ok_inv in H as (tc1 & H1 & H).
  apply and_then_Ok_inv in H as (to & _ & H2). eapply move_changes; [done| |..|exact H1|exact H2]; [done|].
  intros a' (Hd & Ho & He). apply change_approved; [by apply Hfrom|done].
Qed.

Lemma transfer_changes ctx i j n tc tc' :
  0 ≤ n → transfer ctx i j n tc = Ok tc' → changes (get_signers ctx) tc tc'.
Proof.
  intros Hn. unfold transfer. intros (signed & Hs & H)%and_then_Ok_inv.
  destruct signed; [cbn [negb] in H|done].
  apply is_signer_approved in Hs as (a & Ha & Hk). eapply transfer_verified_changes; [done| |done].
  intros from Hf. left. congruence.
Qed.

Lemma transfer_with_seed_changes ctx i b seed owner j n tc tc' :
  0 ≤ n → (∀ base, instruction_accounts ctx !! b = Some base → Some (key base, seed, owner) = given) →
  transfer_with_seed ctx i b seed owner j n tc = Ok tc' → changes (get_signers ctx) tc tc'.
Proof.
  intros Hn Hg. unfold transfer_with_seed. intros (signed & Hs & H)%and_then_Ok_inv.
  destruct signed; [cbn [negb] in H|done].
  apply is_signer_approved in Hs as (a & Ha & Hk). apply and_then_Ok_inv in H as (base & Hb & H).
  apply and_then_Ok_inv in H as (k' & Hk' & H). apply and_then_Ok_inv in H as (fk & Hfk & H).
  destruct (Z.eqb_spec fk k') as [->|]; [|done].
  apply get_key_Ok in Hb as (a' & Ha' & <-). apply get_key_Ok in Hfk as (f & Hf & <-).
  eapply transfer_verified_changes; [done| |exact H]. intros from Hfrom. right.
  exists (key a'), seed, owner. rewrite <-(Hg _ Ha'). simplify_eq. done.
Qed.

(** The account an instruction creates was not in use, so what it is given afterwards
    leaves it changed with approval. *)
Lemma create_account_changes ctx i j addr n space owner tc tc' :
  0 ≤ n →
  (∀ to, instruction_accounts ctx !! j = Some to →
     address_is_signer addr (get_signers ctx) = true → approved (get_signers ctx) (key to)) →
  create_account ctx (get_signers ctx) i j addr n space owner tc = Ok tc' →
  changes (get_signers ctx) tc tc'.
Proof.
  intros Hn Hto. unfold create_account. intros (to & Hb & H)%and_then_Ok_inv. apply try_borrow_Ok in Hb.
  conds H. apply and_then_Ok_inv in H as (tc1 & H1 & H2).
  apply allocate_and_assign_Ok in H1 as (He & Hap & _ & _ & _ & Hx); [|by apply Hto].
  apply (transfer_changes ctx i j n) in H2 as Hc; [|done]. intros k.
  destruct (decide (k = key to)) as [->|Hk]; [|rewrite <-(effect_others _ _ _ _ He k Hk); apply Hc].
  apply change_approved; [done|]. rewrite <-Hx. destruct (Hc (key to)); done.
Qed.

(** * Nonces *)

Lemma get_state_Ok this tc v :
  get_state this tc = Ok v → versions_deserialize (acc_data (get_account tc (key this))) = Some v.
Proof. unfold get_state, ok_or_else, Borrowed.get_data. by case_match; intros [= ->]. Qed.

Lemma get_state_nonce this tc v :
  get_state this tc = Ok v → nonce_of (get_account tc (key this)) = Some (versions_state v).
Proof. intros Hv%get_state_Ok. unfold nonce_of. by rewrite Hv. Qed.

Lemma advance_changes ctx env signers this tc tc' :
  advance_nonce_account ctx env signers this tc = Ok tc' → changes signers tc tc'.
Proof.
  unfold advance_nonce_account. intros H. conds H. apply and_then_Ok_inv in H as (v & Hv & H).
  destruct (versions_state v) as [|d] eqn:Hs; [done|]. conds H. bsimp.
  apply set_state_Ok in H as (He & data & Hg & Hl & _). eapply changes_one; [done|].
  apply get_state_nonce in Hv. rewrite Hs in Hv. eapply change_nonce_authority; rewrite ?Hg; done.
Qed.

Lemma initialize_changes ctx env signers this k rent tc tc' :
  initialize_nonce_account ctx env this k rent tc = Ok tc' → changes signers tc tc'.
Proof.
  unfold initialize_nonce_account. intros H. conds H. apply and_then_Ok_inv in H as (v & Hv & H).
  destruct (versions_state v) as [|d] eqn:Hs; [|done]. conds H.
  apply set_state_Ok in H as (He & data & Hg & Hl & Hd). eapply changes_one; [done|].
  apply get_state_nonce in Hv. rewrite Hs in Hv. eapply change_nonce_initialize; rewrite ?Hg; try done.
  unfold nonce_of. simpl. rewrite Hd. simpl. by rewrite state_new.
Qed.

Lemma authorize_changes ctx signers this k tc tc' :
  authorize_nonce_account ctx signers this k tc = Ok tc' → changes signers tc tc'.
Proof.
  unfold authorize_nonce_account. intros H. conds H. apply and_then_Ok_inv in H as (v & Hv & H).
  destruct (versions_authorize v signers k) as [v'|[|]] eqn:Ha; [|done..].
  apply authorize_Ok in Ha as (d & Hs & Hd & _).
  apply set_state_Ok in H as (He & data & Hg & Hl & _). eapply changes_one; [done|].
  apply get_state_nonce in Hv. rewrite Hs in Hv. eapply change_nonce_authority; rewrite ?Hg; done.
Qed.

Lemma withdraw_changes ctx env signers i n j rent tc tc' :
  0 ≤ n → withdraw_nonce_account ctx env signers i n j rent tc = Ok tc' → changes signers tc tc'.
Proof.
  intros Hn. unfold withdraw_nonce_account. intros (from & Hb & H)%and_then_Ok_inv. conds H.
  apply and_then_Ok_inv in H as (v & Hv & H). apply get_state_nonce in Hv.
  apply and_then_Ok_inv in H as ([signer tc1] & Hm & H). conds H. bsimp.
  apply and_then_Ok_inv in H as (tc2 & H1 & H). apply and_then_Ok_inv in H as (to & _ & H2).
  destruct (versions_state v) as [|d].
  - conds Hm. injection Hm as <- <-. eapply move_changes; [done| |..|exact H1|exact H2]; [done|].
    intros a' (_ & _ & ?). apply change_approved; [by left|done].
  - assert (signer = authority d ∧ (∀ k, k ≠ key from → get_account tc1 k = get_account tc k) ∧
      acc_owner (get_account tc1 (key from)) = acc_owner (get_account tc (key from)) ∧
      acc_executable (get_account tc1 (key from)) = acc_executable (get_account tc (key from)) ∧
      length (acc_data (get_account tc1 (key from))) = length (acc_data (get_account tc (key from))))
      as (-> & Hsame & Ho & Hx & Hl).
    { destruct (_ =? _); [conds Hm; apply and_then_Ok_inv in Hm as (tc3 & Hw & [= <- <-])|].
      - apply set_state_Ok in Hw as (He & data & Hg & Hl & _). rewrite Hg.
        split_and!; try done. apply He.
      - apply and_then_Ok_inv in Hm as (amount & _ & Hm). conds Hm. by injection Hm as <- <-. }
    eapply move_changes; [done|exact Hsame| |exact H1|exact H2]. intros a' (Hd & Ho' & Hx').
    eapply change_nonce_authority; [done|done|congruence..].
Qed.

(** * Instructions *)

Lemma instruction_address ctx i k seed addr a :
  get_key_of_instruction_account ctx i = Ok k → Address_create k seed = Ok addr →
  instruction_accounts ctx !! i = Some a → seed = None ∨ seed = given →
  address_is_signer addr (get_signers ctx) = true → approved (get_signers ctx) (key a).
Proof.
  intros (a' & Ha' & <-)%get_key_Ok Haddr Ha Hg Hs.
  apply (address_approved (get_signers ctx)) in Haddr as [_ Hap]; [|done].
  simplify_eq. by apply Hap.
Qed.

Lemma configure_changes ctx signers this addr space owner tc tc' :
  (address_is_signer addr signers = true → approved signers (key this)) →
  (allocate ctx signers this addr space tc = Ok tc' ∨
   assign ctx signers this addr owner tc = Ok tc' ∨
   allocate_and_assign ctx signers this addr space owner tc = Ok tc') →
  changes signers tc tc'.
Proof.
  intros Hap [H|[H|H]].
  - apply allocate_Ok in H as (He & Ha & _ & _ & data & Hg); [|done].
    eapply approved_change; [done..|]. by rewrite Hg.
  - apply assign_Ok in H as (He & [->|[Ha Hg]]); [intros k; apply change_same| |done].
    eapply approved_change; [done..|]. by rewrite Hg.
  - apply allocate_and_assign_Ok in H as (He & Ha & _ & _ & _ & Hx); [|done].
    by eapply approved_change.
Qed.

Lemma upgrade_changes ctx signers this v v' tc tc' :
  get_state this tc = Ok v → versions_upgrade v = Some v' → set_state ctx this v' tc = Ok tc' →
  changes signers tc tc'.
Proof.
  intros Hv%get_state_nonce Hu H. apply upgrade_Some in Hu as (d & d' & Hd & Hd' & Ha).
  apply set_state_Ok in H as (He & data & Hg & Hl & Hdes). eapply changes_one; [done|].
  rewrite Hd in Hv. eapply (change_nonce_upgrade _ _ _ _ d d'); rewrite ?Hg; try done.
  unfold nonce_of. simpl. rewrite Hdes. simpl. by rewrite Hd'.
Qed.

Lemma process_changes ctx env ins tc tc' :
  wf_system_instruction ins → seed_of ctx ins = given →
  process_system_instruction ctx env (get_signers ctx) ins tc = Ok tc' →
  changes (get_signers ctx) tc tc'.
Proof.
  destruct ins; cbn [process_system_instruction wf_system_instruction seed_of]; intros Hwf Hg H; peel H;
    unfold is_u64 in *;
    repeat match goal with Hb : try_borrow_instruction_account _ _ = Ok _ |- _ => apply try_borrow_Ok in Hb end.
  - eapply create_account_changes; [|intros; eapply instruction_address; eauto|exact H]. lia.
  - eapply (configure_changes _ _ _ _ 0 owner); [intros; eapply instruction_address; eauto|]. eauto.
  - eapply transfer_changes; [|done]. lia.
  - eapply create_account_changes; [|intros; eapply instruction_address; eauto|exact H]. lia.
  - by eapply advance_changes.
  - eapply withdraw_changes; [|done]. lia.
  - by eapply initialize_changes.
  - by eapply authorize_changes.
  - eapply (configure_changes _ _ _ _ space 0); [intros; eapply instruction_address; eauto|]. eauto.
  - eapply (configure_changes _ _ _ _ space owner); [intros; eapply instruction_address; eauto|]. eauto.
  - eapply (configure_changes _ _ _ _ 0 owner); [intros; eapply instruction_address; eauto|]. eauto.
  - eapply transfer_with_seed_changes; [| |done]; [lia|]. intros base Hb. by rewrite Hb in Hg.
  - case_match; [|done]. by eapply upgrade_changes.
Qed.

(** * Instructions are sequences of the runtime's operations *)

Section steps.
Context (ctx : InstructionContext).
Abbreviation steps := (rtc (any_body ctx)).

Lemma op_steps i this op tc tc' :
  instruction_accounts ctx !! i = Some this → run_op ctx this op tc = Ok tc' → steps tc tc'.
Proof. intros Hi Hop. apply rtc_once. eapply body_op; [by eapply list_elem_of_lookup_2|done]. Qed.

Lemma set_state_steps i this v tc tc' :
  instruction_accounts ctx !! i = Some this → set_state ctx this v tc = Ok tc' → steps tc tc'.
Proof.
  intros Hi. unfold set_state. intros H. peel H.
  by apply (op_steps i this (OpGetDataMut (versions_serialize v))).
Qed.

Lemma allocate_steps i this signers addr space tc tc' :
  instruction_accounts ctx !! i = Some this → allocate ctx signers this addr space tc = Ok tc' →
  steps tc tc'.
Proof.
  intros Hi. unfold allocate. intros H. peel H. by apply (op_steps i this (OpSetDataLength (Z.to_nat space))).
Qed.

Lemma assign_steps i this signers addr owner tc tc' :
  instruction_accounts ctx !! i = Some this → assign ctx signers this addr owner tc = Ok tc' →
  steps tc tc'.
Proof.
  intros Hi. unfold assign. intros H. peel H; [by injection H as <-|].
  by apply (op_steps i this (OpSetOwner owner)).
Qed.

Lemma allocate_and_assign_steps i this signers addr space owner tc tc' :
  instruction_accounts ctx !! i = Some this →
  allocate_and_assign ctx signers this addr space owner tc = Ok tc' → steps tc tc'.
Proof.
  intros Hi. unfold allocate_and_assign. intros (tc1 & H1 & H2)%and_then_Ok_inv.
  etrans; [by eapply allocate_steps|by eapply assign_steps].
Qed.

Lemma move_steps from to n i tc tc1 tc2 j :
  instruction_accounts ctx !! i = Some from → Borrowed.checked_sub_lamports ctx from n tc = Ok tc1 →
  try_borrow_instruction_account ctx j = Ok to → Borrowed.checked_add_lamports ctx to n tc1 = Ok tc2 →
  steps tc tc2.
Proof.
  intros Hi H1 Hj%try_borrow_Ok H2. etrans.
  - by apply (op_steps i from (OpCheckedSubLamports n)).
  - by apply (op_steps j to (OpCheckedAddLamports n)).
Qed.

Lemma transfer_verified_steps i j n tc tc' : transfer_verified ctx i j n tc = Ok tc' → steps tc tc'.
Proof. unfold transfer_verified. intros H. peel H.
  apply try_borrow_Ok in Hx. by eapply move_steps. Qed.

Lemma withdraw_steps env signers i n j rent tc tc' :
  withdraw_nonce_account ctx env signers i n j rent tc = Ok tc' → steps tc tc'.
Proof.
  unfold withdraw_nonce_account. intros H. peel H. destruct x1 as [signer tc1]. peel H.
  apply try_borrow_Ok in Hx. etrans; [|by eapply move_steps].
  destruct (versions_state _); peel Hx1; simplify_eq; [done| |done]. by eapply set_state_steps.
Qed.

Lemma process_steps env signers ins tc tc' :
  process_system_instruction ctx env signers ins tc = Ok tc' → steps tc tc'.
Proof.
  destruct ins; cbn [process_system_instruction]; intros H;
    unfold create_account, transfer, transfer_with_seed, advance_nonce_account,
      initialize_nonce_account, authorize_nonce_account in H; peel H;
    repeat match goal with
    | Hb : try_borrow_instruction_account _ _ = Ok _ |- _ => apply try_borrow_Ok in Hb
    end;
    try (case_match; try discriminate H; []); peel H;
    eauto using allocate_steps, assign_steps, transfer_verified_steps, withdraw_steps,
      allocate_and_assign_steps, set_state_steps, rtc_trans.
  destruct (versions_authorize _ _ _) as [?|[|]]; [|done..]. eauto using set_state_steps.
Qed.
End steps.
End props.
