(* ===== verification/SystemTheorems.v ===== *)
(** What the system program guarantees, alone and under the runtime. *)

From S2P Require Import Prelude Bytes TransactionContext TransactionContextProps.
From S2P Require Import TransactionExec SystemProgram SystemProps.

Section theorems.
Context `{rsdk : RuntimeSdk} `{sdk : SystemSdk} `{laws : !SystemLaws sdk}.

(** C15. Whatever a system instruction does to an account is authorized: an account
    that neither signed nor has the signature of the base that the instruction
    derives its address from only receives lamports, unless it holds a nonce whose authority signed, or a nonce
    that is initialized or upgraded, which moves no lamports and leaves its owner. *)
Theorem system_changes_authorized ctx env data tc tc' k :
  system_entrypoint ctx env data tc = Ok tc' →
  ∃ instruction, limited_deserialize data = Ok instruction ∧
    account_change (seed_of ctx instruction) (get_signers ctx) k (get_account tc k) (get_account tc' k).
Proof.
  unfold system_entrypoint. intros (ins & Hins & H)%and_then_Ok_inv. exists ins. split; [done|].
  eapply process_changes; [|done..]. by eapply deserialize_amounts.
Qed.

(** Whether the lamports of an account may be set by the system program. *)
Definition may_set_lamports (this : InstructionAccount) (tc : TransactionContext) : Prop :=
  is_writable this = true ∧
  (remove_accounts_executable_flag_checks tc = true ∨
   acc_executable (get_account tc (key this)) = false).

Lemma set_lamports_iff ctx this n tc :
  is_ok (Borrowed.set_lamports ctx this n tc) = true ↔
  may_set_lamports this tc ∧
  (acc_owner (get_account tc (key this)) = program_id ctx ∨
   acc_lamports (get_account tc (key this)) ≤ n).
Proof.
  unfold Borrowed.set_lamports, may_set_lamports, Borrowed.is_executable_internal,
    Borrowed.is_executable, Borrowed.is_owned_by_current_program, Borrowed.get_owner, Borrowed.get_lamports.
  destruct (Z.eqb_spec (program_id ctx) (acc_owner (get_account tc (key this)))),
    (Z.ltb_spec n (acc_lamports (get_account tc (key this)))), (is_writable this),
    (remove_accounts_executable_flag_checks tc), (acc_executable (get_account tc (key this)));
    simpl; try (case_leb; simpl); split; intros; naive_solver lia.
Qed.

(** A transfer between two accounts succeeds exactly if the sender signed, holds no
    data and the lamports, belongs to the system program (unless nothing is moved),
    the receiver's balance does not overflow, and both may be written; it then moves
    exactly the lamports and changes nothing else. *)
Theorem system_transfer_exact ctx from to n tc :
  instruction_accounts ctx !! 0%nat = Some from → instruction_accounts ctx !! 1%nat = Some to →
  key from ≠ key to → 0 ≤ n →
  let a := get_account tc (key from) in let b := get_account tc (key to) in
  (is_ok (transfer ctx 0 1 n tc) = true ↔
     is_signer from = true ∧ acc_data a = [] ∧ n ≤ acc_lamports a ∧
     (acc_owner a = program_id ctx ∨ n = 0) ∧ acc_lamports b + n ≤ u64_MAX ∧
     may_set_lamports from tc ∧ may_set_lamports to tc) ∧
  (∀ tc', transfer ctx 0 1 n tc = Ok tc' →
     get_account tc' (key from) = set_acc_lamports (acc_lamports a - n) a ∧
     get_account tc' (key to) = set_acc_lamports (acc_lamports b + n) b ∧
     ∀ k, k ≠ key from → k ≠ key to → get_account tc' k = get_account tc k).
Proof.
  intros Hf Ht Hne Hn a b. unfold transfer, is_instruction_account_signer, transfer_verified,
    try_borrow_instruction_account. rewrite Hf, Ht. cbn [ok_or_else and_then].
  destruct (is_signer from); cbn [negb]; [|naive_solver].
  unfold Borrowed.get_data, Borrowed.get_lamports. fold a.
  case_bool_decide as Hd; cbn [negb]; [|naive_solver].
  destruct (Z.ltb_spec (acc_lamports a) n) as [Hlt|Hle]; [split; [split; [done|lia]|done]|].
  unfold Borrowed.checked_sub_lamports, checked_sub, Borrowed.get_lamports. fold a.
  rewrite (proj2 (Z.leb_le n _)) by done.
  pose proof (set_lamports_iff ctx from (acc_lamports a - n) tc) as Hsub. fold a in Hsub.
  destruct (Borrowed.set_lamports ctx from (acc_lamports a - n) tc) as [tc1|e] eqn:H1; cbn [and_then].
  2: { simpl in Hsub. split; [|done]. split; [done|]. naive_solver lia. }
  pose proof (set_lamports_Ok _ _ _ _ _ H1) as Hg1. apply set_lamports_effect in H1 as He1.
  assert (get_account tc1 (key to) = b) as Hb by (by apply He1).
  pose proof (same_flag _ _ (effect_stack _ _ _ _ He1)) as Hflag.
  unfold Borrowed.checked_add_lamports, checked_add, Borrowed.get_lamports. rewrite Hb.
  pose proof (set_lamports_iff ctx to (acc_lamports b + n) tc1) as Hadd.
  unfold may_set_lamports in Hadd at 1. rewrite Hb, Hflag in Hadd. fold (may_set_lamports to tc) in Hadd.
  simpl in Hsub. destruct (Z.leb_spec (acc_lamports b + n) u64_MAX) as [Hm|Hm].
  2: { split; [split; [done|lia]|done]. }
  split.
  - rewrite Hadd. unfold may_set_lamports. fold b. naive_solver lia.
  - intros tc' H2. pose proof (set_lamports_Ok _ _ _ _ _ H2) as Hg2. apply set_lamports_effect in H2 as He2.
    split_and!; [by rewrite (effect_others _ _ _ _ He2), Hg1|by rewrite Hg2, Hb|].
    intros k Hk1 Hk2. by rewrite (effect_others _ _ _ _ He2), (effect_others _ _ _ _ He1).
Qed.

(** * Transactions *)

(** Executions in which the system program runs its code and the other programs do
    what the runtime lets them do. No program signs for [w]: it is not one of their
    derived addresses; and no instruction of the system program derives [w] from a
    base that has signed it. *)
Section wallet.
Context (msg_signer msg_writable : nat → bool) (w : Pubkey).

Definition not_derived (current : InstructionContext) (data : list Z) : Prop :=
  ∀ instruction base seed owner, limited_deserialize data = Ok instruction →
    seed_of current instruction = Some (base, seed, owner) → base ∈ get_signers current →
    create_with_seed base seed owner ≠ Ok w.

Inductive wallet_step : TransactionContext → TransactionContext → Prop :=
| wallet_message program indices tc tc' :
    instruction_stack tc = [] →
    Forall (λ i, (i < length (account_keys tc))%nat) indices →
    push program (message_accounts (account_keys tc) msg_signer msg_writable [] indices) tc = Ok tc' →
    wallet_step tc tc'
| wallet_call caller stack program metas signers l tc tc' :
    instruction_stack tc = caller :: stack →
    prepare_instruction caller tc program metas signers = Ok l → w ∉ signers →
    push program l tc = Ok tc' →
    wallet_step tc tc'
| wallet_program current stack tc tc' :
    instruction_stack tc = current :: stack → program_id current ≠ system_program_id →
    any_body current tc tc' → wallet_step tc tc'
| wallet_system current stack env data tc tc' :
    instruction_stack tc = current :: stack → program_id current = system_program_id →
    not_derived current data →
    system_entrypoint current env data tc = Ok tc' → wallet_step tc tc'
| wallet_pop tc tc' :
    pop tc = Ok tc' → wallet_step tc tc'.

(** A sequence of operations of the current instruction. *)
Lemma body_steps current stack tc tc' :
  rtc (any_body current) tc tc' → instruction_stack tc = current :: stack →
  ∀ T, exec_inv msg_writable T tc →
  rtc (step any_body msg_signer msg_writable) tc tc' ∧ instruction_stack tc' = current :: stack ∧
  account_keys tc' = account_keys tc.
Proof.
  induction 1 as [tc|tc tc1 tc2 Hb _ IH]; intros Hst T Hinv; [done|].
  assert (exec_inv msg_writable T tc1) as Hinv1 by (by eapply exec_inv_body).
  pose proof (inv_frames _ _ _ Hinv) as Hf. rewrite Hst in Hf. apply Forall_cons in Hf as [[Hwf _ _ _] _].
  destruct (any_body_effect _ _ _ Hwf Hb) as ([Hkeys Hstk _ _] & _ & _).
  destruct (IH ltac:(congruence) T Hinv1) as (Hs & Hst2 & Hk2). split_and!; [|done|congruence].
  eapply rtc_l; [by eapply step_body|done].
Qed.

Lemma wallet_step_steps T tc tc' :
  exec_inv msg_writable T tc → wallet_step tc tc' →
  rtc (step any_body msg_signer msg_writable) tc tc'.
Proof.
  intros Hinv Hs. destruct Hs.
  - by eapply rtc_once, step_message.
  - by eapply rtc_once, step_call.
  - by eapply rtc_once, step_body.
  - apply and_then_Ok_inv in H2 as (ins & _ & Hp). apply process_steps in Hp.
    by eapply body_steps in Hp as (Hp & _ & _).
  - by eapply rtc_once, step_pop.
Qed.

(** [w] has not signed any instruction of the stack. *)
Definition unsigned (tc : TransactionContext) : Prop :=
  ∀ c a, c ∈ instruction_stack tc → a ∈ instruction_accounts c → key a = w → is_signer a = false.

(** An account of the system program that holds nothing but lamports. *)
Definition is_wallet (a : AccountSharedData) : Prop :=
  acc_owner a = system_program_id ∧ acc_data a = [].

(** The wallet and its flags are untouched, and no lamports are taken. *)
Definition kept (a a' : AccountSharedData) : Prop :=
  acc_owner a' = acc_owner a ∧ acc_data a' = acc_data a ∧ acc_lamports a ≤ acc_lamports a'.

#[local] Instance kept_preorder : PreOrder kept.
Proof.
  split; [intros a; split_and!; done || lia|]. intros a b c (? & ? & ?) (? & ? & ?).
  split_and!; congruence || lia.
Qed.

Record wallet_inv (T : Z) (K : list Pubkey) (tc : TransactionContext) : Prop := {
  wallet_exec : exec_inv msg_writable T tc;
  wallet_keys : account_keys tc = K;
  wallet_unsigned : unsigned tc;
}.

Context (T : Z) (K : list Pubkey).
Hypothesis Hmsg : ∀ i, K !! i = Some w → msg_signer i = false.
Hypothesis Hsysvar : w ≠ instructions_id.

(** A new instruction on the stack. *)
Lemma unsigned_push program l tc tc' :
  unsigned tc → push program l tc = Ok tc' → (∀ a, a ∈ l → key a = w → is_signer a = false) →
  unsigned tc' ∧ account_keys tc' = account_keys tc ∧ get_account tc' w = get_account tc w.
Proof.
  intros Hun Hp Hl. apply push_Ok in Hp as [Hk (s & _ & Hst) _ Hacc]. split_and!; [|done|].
  - intros c a Hc. rewrite Hst in Hc. apply elem_of_cons in Hc as [->|Hc]; [apply Hl|by apply Hun].
  - by destruct (Hacc w) as [?|[? _]].
Qed.

Lemma unsigned_same tc tc' :
  instruction_stack tc' = instruction_stack tc → unsigned tc → unsigned tc'.
Proof. unfold unsigned. by intros ->. Qed.

(** The system program on a wallet that has not signed. *)
Lemma system_keeps_wallet given current stack tc tc' :
  instruction_stack tc = current :: stack → unsigned tc → is_wallet (get_account tc w) →
  (∀ base seed owner, given = Some (base, seed, owner) → base ∈ get_signers current →
     create_with_seed base seed owner ≠ Ok w) →
  changes given (get_signers current) tc tc' → kept (get_account tc w) (get_account tc' w).
Proof.
  intros Hst Hun [Ho Hd] Hseed Hc.
  assert (nonce_of (get_account tc w) = None) as Hn by (unfold nonce_of; by rewrite Hd, deserialize_empty).
  destruct (Hc w); [by split_and!| |congruence..]. exfalso.
  match goal with H : approved _ _ _ |- _ => destruct H as [Hs|(b & sd & o & Hg & Hb & Hs)] end;
    [|by eapply Hseed].
  apply elem_of_get_signers in Hs as (a & Ha & Hsig & Hk).
  rewrite (Hun current a) in Hsig; [done|rewrite Hst; by left|done..].
Qed.

Lemma wallet_step_inv tc tc' :
  wallet_inv T K tc → is_wallet (get_account tc w) → wallet_step tc tc' →
  wallet_inv T K tc' ∧ kept (get_account tc w) (get_account tc' w).
Proof.
  intros [Hinv HK Hun] Hw Hs.
  assert (exec_inv msg_writable T tc') as Hinv'.
  { eapply exec_inv_steps; [by intros ???|exact Hinv|by eapply wallet_step_steps]. }
  destruct Hs as [program indices tc tc' Hst Hr Hp|caller stack program metas signers l tc tc' Hst Hl Hsg Hp
    |current stack tc tc' Hst Hne Hb|current stack env data tc tc' Hst He Hnd Hp|tc tc' Hp].
  - destruct (unsigned_push _ _ tc tc' Hun Hp) as (? & ? & ->);
      [|split; [split; [done|congruence|done]|done]].
    intros a [i Hi]%list_elem_of_lookup Ha.
    apply message_accounts_lookup in Hi as (x & Hx & Hk & _ & -> & _). apply Hmsg.
    rewrite <-HK, <-Ha, Hk. apply list_lookup_lookup_total_lt. rewrite Forall_forall in Hr.
    apply Hr. by eapply list_elem_of_lookup_2.
  - destruct (unsigned_push _ _ tc tc' Hun Hp) as (? & ? & ->);
      [|split; [split; [done|congruence|done]|done]].
    intros a Ha Hk. apply prepare_instruction_Ok in Hl as [_ Hfrom].
    destruct (Hfrom a Ha) as (b & Hb & Hkb & _ & Hsig). destruct (is_signer a); [|done].
    destruct (Hsig eq_refl) as [Hsb|Hin]; [|congruence].
    rewrite (Hun caller b) in Hsb; [done|rewrite Hst; by left|done|congruence].
  - pose proof (inv_frames _ _ _ Hinv) as Hf. rewrite Hst in Hf. apply Forall_cons in Hf as [[Hwf _ _ _] _].
    destruct (any_body_effect _ _ _ Hwf Hb) as ([Hkeys Hstk _ _] & _ & Heff).
    split; [split; [done|congruence|by eapply unsigned_same]|].
    destruct (Heff w) as [[Hfor _] _]. destruct Hw as [Ho _].
    destruct Hfor as (? & ? & _ & ?); [congruence|done].
  - unfold system_entrypoint in Hp. apply and_then_Ok_inv in Hp as (ins & Hins & Hp).
    pose proof (deserialize_amounts _ _ Hins) as Hwf. apply process_steps in Hp as Hsteps.
    eapply body_steps in Hsteps as (_ & Hstk & Hkeys); [|done..].
    eapply process_changes in Hp as Hc; [|done..]. split; [split; [done| |]|].
    + congruence.
    + eapply unsigned_same; [|done]. congruence.
    + eapply system_keeps_wallet; [done..| |exact Hc]. intros base seed owner Hg. by eapply Hnd.
  - apply pop_Ok in Hp as (Hkeys & Hacc & current & Hst & _).
    assert (get_account tc' w = get_account tc w) as -> by (unfold get_account; by rewrite Hacc).
    split; [split; [done|congruence|]|done]. intros c a Hc. apply Hun. rewrite Hst. by right.
Qed.

Lemma wallet_kept tc tc' :
  wallet_inv T K tc → is_wallet (get_account tc w) → rtc wallet_step tc tc' →
  kept (get_account tc w) (get_account tc' w).
Proof.
  intros Hinv Hw Hs. induction Hs as [tc|tc tc1 tc2 Hs _ IH]; [done|].
  destruct (wallet_step_inv tc tc1 Hinv Hw Hs) as [Hinv1 Hk]. etrans; [exact Hk|]. apply IH; [done|].
  destruct Hk as (Ho & Hd & _), Hw. split; congruence.
Qed.
End wallet.

(** C14. Nobody takes lamports from a wallet (an account of the system program without
    data) that has not signed the message: whatever the programs of the transaction
    do and however they call each other and the system program, the wallet keeps
    its owner and its lamports, as long as no program signs for it and no system
    instruction that ran derives its address from a base that signed. *)
Theorem wallet_needs_signature msg_signer msg_writable w tc tc' :
  instruction_stack tc = [] → NoDup (account_keys tc) → is_wallet (get_account tc w) →
  (∀ i, account_keys tc !! i = Some w → msg_signer i = false) →
  w ≠ instructions_id →
  rtc (wallet_step msg_signer msg_writable w) tc tc' →
  acc_owner (get_account tc' w) = system_program_id ∧ acc_data (get_account tc' w) = [] ∧
  acc_lamports (get_account tc w) ≤ acc_lamports (get_account tc' w).
Proof.
  intros Hst HK Hw Hmsg Hsys Hs.
  destruct (wallet_kept msg_signer msg_writable w (total_lamports tc) (account_keys tc) Hmsg Hsys tc tc')
    as (Ho & Hd & Hl); [|done..|].
  - split; [by apply exec_inv_start|done|]. intros c a Hc. rewrite Hst in Hc. set_solver.
  - destruct Hw. split_and!; congruence.
Qed.
End theorems.

(** * Durable nonces *)

Section nonces.
Context `{rsdk : RuntimeSdk} `{sdk : SystemSdk} `{laws : !SystemLaws sdk}.

(** C16. A durable nonce is used at most once per blockhash, and only by its authority:
    advancing stores the nonce of the current blockhash under the same authority,
    which then can neither be advanced again nor be emptied by a withdrawal until
    the blockhash changes, whoever signs. *)
Theorem nonce_advances_once ctx env signers i this tc tc' :
  instruction_accounts ctx !! i = Some this →
  advance_nonce_account ctx env signers this tc = Ok tc' →
  ∃ d, nonce_of (get_account tc (key this)) = Some (Initialized d) ∧ authority d ∈ signers ∧
    durable_nonce d ≠ from_blockhash (blockhash env) ∧
    nonce_of (get_account tc' (key this)) = Some (Initialized
      {| authority := authority d; durable_nonce := from_blockhash (blockhash env);
         lamports_per_signature := blockhash_lamports_per_signature env |}) ∧
    ∀ env' signers', blockhash env' = blockhash env →
      is_ok (advance_nonce_account ctx env' signers' this tc') = false ∧
      ∀ j rent, is_ok (withdraw_nonce_account ctx env' signers' i
        (acc_lamports (get_account tc' (key this))) j rent tc') = false.
Proof.
  intros Hi. unfold advance_nonce_account at 1. intros H. peel H.
  destruct (versions_state x) as [|d] eqn:Hs; [done|]. peel H. bsimp.
  apply set_state_Ok in H as (He & data & Hg & Hl & Hd).
  apply get_state_nonce in Hx. rewrite Hs in Hx.
  assert (nonce_of (get_account tc' (key this)) = Some (Initialized
    {| authority := authority d; durable_nonce := from_blockhash (blockhash env);
       lamports_per_signature := blockhash_lamports_per_signature env |})) as Hn.
  { unfold nonce_of. rewrite Hg. simpl. rewrite Hd. simpl. by rewrite state_new. }
  exists d. split_and!; [done..|]. intros env' signers' Hb.
  assert (∀ v, get_state this tc' = Ok v → versions_state v = Initialized
    {| authority := authority d; durable_nonce := from_blockhash (blockhash env');
       lamports_per_signature := blockhash_lamports_per_signature env |}) as Hst.
  { intros v Hv%get_state_nonce. rewrite Hb. congruence. }
  split.
  - unfold advance_nonce_account. destruct (negb _); [done|].
    destruct (get_state this tc') as [v|e]; [|done]. simpl. rewrite (Hst v) by done.
    destruct (negb _); [done|]. simpl. by rewrite Z.eqb_refl.
  - intros j rent. unfold withdraw_nonce_account, try_borrow_instruction_account. rewrite Hi. simpl.
    destruct (negb _); [done|]. destruct (get_state this tc') as [v|e]; [|done]. simpl.
    rewrite (Hst v) by done. unfold Borrowed.get_lamports. rewrite Z.eqb_refl. simpl. by rewrite Z.eqb_refl.
Qed.
End nonces.

(** * A transfer, a nonce *)

Module SystemDemo.

#[local] Instance runtime : RuntimeSdk := {|
  instructions_id := 99; sysvar_id := 98; store_current_index_checked data _ := Ok data;
  rent_is_exempt _ _ := true
|}.

Definition encode_state (v : bool * NonceState) : list Z :=
  let b := if v.1 then 1 else 0 in
  match v.2 with
  | Uninitialized => [b; 0; 0; 0; 0]
  | Initialized d => [b; 1; authority d; durable_nonce d; lamports_per_signature d]
  end.

Definition decode_state (data : list Z) : option (bool * NonceState) :=
  match data with
  | b :: t :: k :: n :: l :: _ =>
    Some (b =? 1, if t =? 1 then
      Initialized {| authority := k; durable_nonce := n; lamports_per_signature := l |}
      else Uninitialized)
  | _ => None
  end.

#[local] Instance demo_sdk : SystemSdk := {|
  system_program_id := 0; recent_blockhashes_id := 97; rent_id := 96;
  system_error _ := OtherError 1;
  create_with_seed base _ _ := Ok (1000 + Z.abs base);
  limited_deserialize data :=
    match data with
    | [n] => if (0 <=? n) && (n <=? u64_MAX) then Ok (Transfer n) else Err InvalidArgument
    | _ => Ok AdvanceNonceAccount
    end;
  Versions := bool * NonceState; versions_new s := (true, s); versions_state := snd;
  versions_upgrade v :=
    match v with (false, Initialized d) => Some (true, Initialized d) | _ => None end;
  versions_authorize v signers k :=
    match v.2 with
    | Initialized d =>
      if bool_decide (authority d ∈ signers) then
        Ok (v.1, Initialized {| authority := k; durable_nonce := durable_nonce d;
                                lamports_per_signature := lamports_per_signature d |})
      else Err (AuthorizeMissingSignature (authority d))
    | Uninitialized => Err AuthorizeUninitialized
    end;
  versions_serialize := encode_state; versions_deserialize := decode_state;
  from_blockhash h := h + 1 |}.

#[local] Instance demo_laws : SystemLaws demo_sdk.
Proof.
  split.
  - intros data ins. simpl. destruct data as [|n [|]]; [by intros [= <-]| |by intros [= <-]].
    destruct (_ && _) eqn:E; [|done]. intros [= <-]. bsimp. done.
  - done.
  - intros [[] [|[]]] rest; done.
  - done.
  - intros [b [|d]] signers k v'; simpl; [done|]. case_bool_decide; [|done]. intros [= <-]. eauto.
  - intros [[] [|d]] v'; simpl; [done..|]. intros [= <-]. eauto.
Qed.

Definition acc lamports data owner : AccountSharedData :=
  {| acc_lamports := lamports; acc_data := data; acc_owner := owner; acc_executable := false |}.

(** Wallets 10, which signs, and 20, which does not; 30 holds a nonce of 10. *)
Definition tc0 : TransactionContext := {|
  account_keys := [10; 20; 30];
  accounts := {[ 10 := acc 100 [] 0; 20 := acc 7 [] 0; 30 := acc 50 [1; 1; 10; 4; 5] 0 ]};
  touched_flags := ∅; resize_delta := 0; instruction_stack_capacity := 5;
  instruction_trace_capacity := 64; instruction_stack := []; instruction_trace_length := 0;
  top_level_instruction_index := 0; remove_accounts_executable_flag_checks := false
|}.

Definition signer (i : nat) : bool := (i =? 0)%nat.
Definition writable (i : nat) : bool := true.
Definition env : Environment := {|
  blockhash := 8; blockhash_lamports_per_signature := 5;
  get_recent_blockhashes := Ok [8]; get_rent := Ok (λ _, 3) |}.

Definition get (r : result TransactionContext InstructionError) : TransactionContext :=
  match r with Ok tc => tc | Err _ => tc0 end.
Definition current (tc : TransactionContext) : InstructionContext :=
  match instruction_stack tc with
  | c :: _ => c
  | [] => {| program_id := 0; instruction_accounts := []; instruction_accounts_lamport_sum := 0 |}
  end.

(** The system program moves 30 lamports from 10 to 20. *)
Definition tc1 := get (push 0 (message_accounts [10; 20; 30] signer writable [] [0; 1; 2]%nat) tc0).
Definition tc2 := get (system_entrypoint (current tc1) env [30] tc1).
Definition tc3 := get (pop tc2).

Lemma transferred : system_entrypoint (current tc1) env [30] tc1 = Ok tc2.
Proof. vm_compute. reflexivity. Qed.

Lemma system_changes_authorized_witness :
  system_entrypoint (current tc1) env [30] tc1 = Ok tc2 ∧
  ∃ instruction, limited_deserialize [30] = Ok instruction ∧
    account_change (seed_of (current tc1) instruction) (get_signers (current tc1)) 20
      (get_account tc1 20) (get_account tc2 20).
Proof.
  split; [exact transferred|]. exact (system_changes_authorized (current tc1) env [30] tc1 tc2 20 transferred).
Defined.

Lemma system_steps : rtc (wallet_step signer writable 20) tc0 tc3.
Proof.
  eapply rtc_l; [|eapply rtc_l; [|apply rtc_once]].
  - eapply (wallet_message _ _ _ 0 [0; 1; 2]%nat _ tc1); [reflexivity| |vm_compute; reflexivity].
    repeat constructor.
  - apply (wallet_system _ _ _ (current tc1) [] env [30]); [vm_compute; reflexivity..| |exact transferred].
    by intros instruction base seed owner [= <-].
  - apply wallet_pop. vm_compute. reflexivity.
Qed.

Lemma wallet_needs_signature_witness :
  rtc (wallet_step signer writable 20) tc0 tc3 ∧
  acc_lamports (get_account tc0 20) ≤ acc_lamports (get_account tc3 20).
Proof.
  split; [exact system_steps|].
  refine (proj2 (proj2 (wallet_needs_signature signer writable 20 tc0 tc3 _ _ _ _ _ system_steps))).
  - reflexivity.
  - apply (bool_decide_unpack _). vm_compute. exact I.
  - split; vm_compute; reflexivity.
  - intros [|[|[|i]]] Hi; vm_compute in Hi; try discriminate Hi. reflexivity.
  - discriminate.
Defined.

(** The nonce of account 30 is advanced. *)
Definition nonce_account : InstructionAccount :=
  {| key := 30; index_in_caller := 2; index_in_callee := 2; is_signer := false; is_writable := true |}.

Lemma nonce_advances_once_witness :
  ∃ tc', advance_nonce_account (current tc1) env {[ 10 ]} nonce_account tc1 = Ok tc' ∧
  ∃ d, nonce_of (get_account tc1 30) = Some (Initialized d) ∧ durable_nonce d ≠ 9.
Proof.
  eexists. split; [vm_compute; reflexivity|].
  edestruct (nonce_advances_once (current tc1) env {[ 10 ]} 2 nonce_account tc1) as (d & Hd & _ & Hn & _);
    [vm_compute; reflexivity|vm_compute; reflexivity|].
  exists d. split; [exact Hd|exact Hn].
Defined.

Definition wallet_account (i : nat) : InstructionAccount :=
  default nonce_account (instruction_accounts (current tc1) !! i).

Lemma system_transfer_exact_witness :
  is_ok (transfer (current tc1) 0 1 30 tc1) = true ∧ acc_lamports (get_account tc2 20) = 37.
Proof.
  assert (transfer (current tc1) 0 1 30 tc1 = Ok tc2) as Ht by (vm_compute; reflexivity).
  split; [rewrite Ht; reflexivity|].
  destruct (system_transfer_exact (current tc1) (wallet_account 0) (wallet_account 1) 30 tc1)
    as [_ Hok]; [vm_compute; reflexivity..|vm_compute; discriminate|lia|].
  destruct (Hok tc2 Ht) as (_ & Hto & _). exact (f_equal acc_lamports Hto).
Defined.
End SystemDemo.
