(* ===== verification/RollingBitField.v ===== *)
(** The rolling bit field (accounts-db/src/rolling_bit_field.rs): a set of slots
    kept as a window of bits over the recent keys and a hash set, the excess,
    for the keys below the window; and the ancestors of a bank
    (accounts-db/src/ancestors.rs), which are such a set.

    The bits are a [BitVec] of the crate bv, a parameter with the laws of a bit
    vector.  That the operations are those of sets is RollingBitFieldProps.v. *)
From S2P Require Import Prelude.

(** * The bit vector of the crate bv *)

Class BitVecOps := {
  BitVec : Type;
  (** [BitVec::new_fill(value, len)]. *)
  new_fill : bool → Z → BitVec;
  (** [bits.get(position)] and [bits.set(position, value)]. *)
  bit_get : BitVec → Z → bool;
  bit_set : BitVec → Z → bool → BitVec;
  bit_len : BitVec → Z;
}.

Class BitVecLaws `{!BitVecOps} := {
  new_fill_len b n : 0 ≤ n → bit_len (new_fill b n) = n;
  new_fill_get b n i : 0 ≤ i < n → bit_get (new_fill b n) i = b;
  bit_set_len v i b : 0 ≤ i < bit_len v → bit_len (bit_set v i b) = bit_len v;
  bit_get_set v i j b : 0 ≤ i < bit_len v → 0 ≤ j < bit_len v →
    bit_get (bit_set v i b) j = if i =? j then b else bit_get v j;
}.

Module Field.

Record RollingBitField `{!BitVecOps} := mkField {
  max_width : Z;
  min_ : Z;
  max_exclusive_ : Z;
  bits : BitVec;
  count : Z;
  excess : gset Z;
}.

(** [a..b]. *)
Definition range (a b : Z) : list Z := seqZ a (b - a).

Section field.
Context `{!BitVecOps}.
Implicit Types s : RollingBitField.

Definition set_bits s v : RollingBitField :=
  mkField _ (max_width s) (min_ s) (max_exclusive_ s) v (count s) (excess s).
Definition set_min s m : RollingBitField :=
  mkField _ (max_width s) m (max_exclusive_ s) (bits s) (count s) (excess s).
Definition set_max s m : RollingBitField :=
  mkField _ (max_width s) (min_ s) m (bits s) (count s) (excess s).
Definition set_count s n : RollingBitField :=
  mkField _ (max_width s) (min_ s) (max_exclusive_ s) (bits s) n (excess s).
Definition set_excess s e : RollingBitField :=
  mkField _ (max_width s) (min_ s) (max_exclusive_ s) (bits s) (count s) e.

(** * Operations *)

Definition is_power_of_two (n : Z) : bool := (0 <? n) && (2 ^ Z.log2 n =? n).

(** [RollingBitField::new]. *)
Definition new (max_width : Z) : outcome RollingBitField :=
  _ ← assert_ (0 <? max_width);
  _ ← assert_ (is_power_of_two max_width);
  Ret (mkField _ max_width 0 0 (new_fill false max_width) 0 ∅).

Definition get_address s (key : Z) : Z := key mod max_width s.

Definition range_width s : outcome Z := sub_ (max_exclusive_ s) (min_ s).

Definition len s : Z := count s.

Definition is_empty s : bool := len s =? 0.

Definition all_items_in_excess s : bool := Z.of_nat (size (excess s)) =? count s.

Definition contains_assume_in_range s (key : Z) : bool := bit_get (bits s) (get_address s key).

Definition contains s (key : Z) : bool :=
  if key <? max_exclusive_ s then
    if min_ s <=? key then contains_assume_in_range s key
    else bool_decide (key ∈ excess s)
  else false.

(** [.iter().min().copied()] of the excess. *)
Definition minimum (l : list Z) : option Z :=
  match l with [] => None | x :: l => Some (foldl Z.min x l) end.

(** [RollingBitField::min]. *)
Definition min s : option Z :=
  if is_empty s then None
  else if bool_decide (excess s = ∅) then Some (min_ s)
  else
    let excess_min := minimum (elements (excess s)) in
    if all_items_in_excess s then excess_min
    else Some (Z.min (min_ s) (default u64_MAX excess_min)).

(** The first key of a range that is set: the [for] loop of [purge]. *)
Definition first_in_range s (keys : list Z) : option Z :=
  head (filter (λ key, contains_assume_in_range s key = true) keys).

Definition purge s (key : Z) : outcome RollingBitField :=
  if (0 <? count s) && negb (all_items_in_excess s) then
    if key =? min_ s then
      start ← add_ u64_MAX (min_ s) 1;
      Ret match first_in_range s (range start (max_exclusive_ s)) with
          | Some key => set_min s key
          | None => s
          end
    else Ret s
  else Ret (set_min s (max_exclusive_ s)).

(** The loop of [insert] that makes room for [new_max]; the flag returned is
    whether the loop ended because the last bit was moved to the excess. *)
Fixpoint make_room (fuel : nat) s (new_max : Z) : outcome (bool * RollingBitField) :=
  match fuel with
  | O => OutOfFuel
  | S fuel =>
      let new_width := saturating_sub new_max (min_ s) in
      if new_width <=? max_width s then Ret (false, s)
      else
        let key := min_ s in
        _ ← assert_ (bool_decide (key ∉ excess s));
        let s := set_excess s ({[ key ]} ∪ excess s) in
        s ← purge (set_bits s (bit_set (bits s) (get_address s key) false)) key;
        if all_items_in_excess s then Ret (true, s) else make_room fuel s new_max
  end.

(** The last part of [insert]: sets the bit of [key]. *)
Definition update_bits s (key : Z) (bits_empty : bool) : outcome RollingBitField :=
  let address := get_address s key in
  if bit_get (bits s) address then Ret s
  else
    let s := set_bits s (bit_set (bits s) address true) in
    next ← add_ u64_MAX key 1;
    s ← (if bits_empty then Ret (set_max (set_min s key) next)
         else
           let s := set_max (set_min s (Z.min (min_ s) key)) (Z.max (max_exclusive_ s) next) in
           top ← add_ u64_MAX (min_ s) (max_width s);
           _ ← assert_ (max_exclusive_ s <=? top);
           Ret s);
    count' ← add_ usize_MAX (count s) 1;
    Ret (set_count s count').

(** [RollingBitField::insert]. *)
Definition insert s (key : Z) : outcome RollingBitField :=
  let bits_empty := (count s =? 0) || all_items_in_excess s in
  if bits_empty then update_bits s key true
  else if key <? min_ s then
    if bool_decide (key ∈ excess s) then Ret s
    else
      count' ← add_ usize_MAX (count s) 1;
      Ret (set_count (set_excess s ({[ key ]} ∪ excess s)) count')
  else if key <? max_exclusive_ s then update_bits s key false
  else
    new_max ← add_ u64_MAX key 1;
    '(bits_empty, s) ← make_room (S (Z.to_nat (max_width s))) s new_max;
    update_bits s key bits_empty.

(** [RollingBitField::remove]. *)
Definition remove s (key : Z) : outcome (bool * RollingBitField) :=
  if min_ s <=? key then
    if key <? max_exclusive_ s then
      let address := get_address s key in
      let get := bit_get (bits s) address in
      s ← (if get then
             count' ← sub_ (count s) 1;
             let s := set_count s count' in
             purge (set_bits s (bit_set (bits s) address false)) key
           else Ret s);
      Ret (get, s)
    else Ret (false, s)
  else if bool_decide (key ∈ excess s) then
    count' ← sub_ (count s) 1;
    Ret (true, set_count (set_excess s (excess s ∖ {[ key ]})) count')
  else Ret (false, s).

Definition max_exclusive s : Z := max_exclusive_ s.
Definition max_inclusive s : Z := saturating_sub (max_exclusive_ s) 1.

(** The keys of a range whose bits are set, as the loops collect them. *)
Definition set_keys s (keys : list Z) : list Z :=
  filter (λ key, contains_assume_in_range s key = true) keys.

Definition get_all s : list Z :=
  elements (excess s) ++ set_keys s (range (min_ s) (max_exclusive_ s)).

Definition get_all_less_than s (max_slot_exclusive : Slot) : list Z :=
  filter (λ slot, slot < max_slot_exclusive) (elements (excess s)) ++
  set_keys s (range (min_ s) (Z.min (max_exclusive_ s) max_slot_exclusive)).

(** The loop of [get_prior]. *)
Fixpoint prior_loop (fuel : nat) s (slot min : Slot) : outcome (option Slot) :=
  match fuel with
  | O => OutOfFuel
  | S fuel =>
      if contains s slot then Ret (Some slot)
      else
        let slot := saturating_sub slot 1 in
        if (slot =? 0) || (slot <? min) then Ret None else prior_loop fuel s slot min
  end.

Definition get_prior s (max_slot_exclusive : Slot) : outcome (option Slot) :=
  let slot := saturating_sub max_slot_exclusive 1 in
  match min s with
  | None => Ret None
  | Some min => prior_loop (S (Z.to_nat max_slot_exclusive)) s slot min
  end.

(** [eq]: the lengths agree and every item of the one is in the other. *)
Definition field_eq s s' : bool :=
  (len s =? len s') && forallb (λ item, contains s' item) (get_all s).

End field.

(** * Iteration over the set bits (rolling_bit_field/iterators.rs) *)

Record RollingBitFieldOnesIter `{!BitVecOps} := mkOnesIter {
  rolling_bit_field : RollingBitField;
  excess_iter : list Z;
  bit_range : list Z;
}.

Section ones.
Context `{!BitVecOps}.

Definition iter_ones (s : RollingBitField) : RollingBitFieldOnesIter :=
  mkOnesIter _ s (elements (excess s)) (range (min_ s) (max_exclusive_ s)).

(** The loop of [next] over what is left of the bit range. *)
Fixpoint next_bit (s : RollingBitField) (keys : list Z) : option Z * list Z :=
  match keys with
  | [] => (None, [])
  | bit :: keys => if contains_assume_in_range s bit then (Some bit, keys) else next_bit s keys
  end.

Definition ones_next (it : RollingBitFieldOnesIter) : option Z * RollingBitFieldOnesIter :=
  match excess_iter it with
  | e :: rest => (Some e, mkOnesIter _ (rolling_bit_field it) rest (bit_range it))
  | [] =>
      let '(bit, rest) := next_bit (rolling_bit_field it) (bit_range it) in
      (bit, mkOnesIter _ (rolling_bit_field it) [] rest)
  end.

End ones.

End Field.
Abbreviation RollingBitField := Field.RollingBitField.

(** * Ancestors (accounts-db/src/ancestors.rs) *)

Module Anc.

Definition ANCESTORS_HASH_MAP_SIZE : Z := 8192.

Record Ancestors `{!BitVecOps} := mkAncestors { ancestors : RollingBitField }.

Section ancestors.
Context `{!BitVecOps}.
Implicit Types a : Ancestors.

Definition default_ : outcome Ancestors :=
  field ← Field.new ANCESTORS_HASH_MAP_SIZE;
  Ret (mkAncestors _ field).

(** [From<Vec<Slot>>]: the slots are sorted and inserted in order. *)
Definition from (source : list Slot) : outcome Ancestors :=
  result ← default_;
  field ← for_each (λ slot s, Field.insert s slot) (merge_sort Z.le source) (ancestors result);
  Ret (mkAncestors _ field).

Definition keys a : list Slot := Field.get_all (ancestors a).

Definition remove a (slot : Slot) : outcome Ancestors :=
  '(_, field) ← Field.remove (ancestors a) slot;
  Ret (mkAncestors _ field).

Definition contains_key a (slot : Slot) : bool := Field.contains (ancestors a) slot.
Definition len a : Z := Field.len (ancestors a).
Definition is_empty a : bool := len a =? 0.
Definition min_slot a : Slot := default 0 (Field.min (ancestors a)).
Definition max_slot a : Slot := saturating_sub (Field.max_exclusive (ancestors a)) 1.

End ancestors.

End Anc.
Abbreviation Ancestors := Anc.Ancestors.
