(* ===== verification/RollingBitFieldProps.v ===== *)
(** The rolling bit field is a set.

    [wf] is the invariant of the field and [items] the set it stands for.
    [insert_exact_] gives the exact condition, [insertable], under which [insert]
    adds its key and nothing else changes; [remove_spec], [min_spec],
    [get_all_spec], [get_prior_exact] and [field_eq_spec] are the other
    operations.  A field that is only inserted into meets the condition at every
    insertion, so that the ancestors of a bank are exactly the slots they are
    built from ([from_items]). *)
From S2P Require Import Prelude RollingBitField.
Import Field.

(** * Arithmetic and ranges *)

Lemma mod_window w a b : 0 < w → a mod w = b mod w → Z.abs (a - b) < w → a = b.
Proof.
  intros Hw Hmod Habs.
  pose proof (Z.div_mod a w ltac:(lia)). pose proof (Z.div_mod b w ltac:(lia)).
  assert (a / w = b / w) by nia. nia.
Qed.

Lemma elem_of_range k a b : k ∈ range a b ↔ a ≤ k < b.
Proof. unfold range. rewrite elem_of_seqZ. lia. Qed.

Lemma NoDup_range a b : NoDup (range a b).
Proof. apply NoDup_seqZ. Qed.

Lemma range_cons a b : a < b → range a b = a :: range (a + 1) b.
Proof.
  intros. unfold range. rewrite seqZ_cons by lia. f_equal. unfold Z.succ. f_equal; lia.
Qed.

Lemma range_nil a b : b ≤ a → range a b = [].
Proof. intros. unfold range. by rewrite seqZ_nil by lia. Qed.

(** A set of keys below [n] has at most [n] elements. *)
Lemma size_bounded (X : gset Z) n : (∀ k, k ∈ X → 0 ≤ k < n) → Z.of_nat (size X) ≤ Z.max n 0.
Proof.
  intros HX. assert (X ⊆ list_to_set (range 0 n)) as Hsub.
  { intros k Hk. rewrite elem_of_list_to_set, elem_of_range. by apply HX. }
  apply subseteq_size in Hsub. rewrite size_list_to_set in Hsub by apply NoDup_range.
  unfold range in Hsub. rewrite length_seqZ in Hsub. lia.
Qed.

Lemma size_remove (X : gset Z) k : k ∈ X → size X = S (size (X ∖ {[ k ]})).
Proof.
  intros Hk. rewrite size_difference by set_solver. rewrite size_singleton.
  assert (size X ≠ 0%nat); [|lia]. apply size_non_empty_iff. set_solver.
Qed.

Lemma minimum_spec l :
  match minimum l with
  | None => l = []
  | Some m => m ∈ l ∧ ∀ x, x ∈ l → m ≤ x
  end.
Proof.
  destruct l as [|x l]; simpl; [done|].
  revert x. induction l as [|y l IH]; intros x; simpl; [set_solver by lia|].
  destruct (IH (Z.min x y)) as [Hin Hmin]. split.
  - apply elem_of_cons in Hin as [->|Hin]; [|set_solver].
    destruct (Z.min_spec x y) as [[_ ->]|[_ ->]]; set_solver.
  - intros z Hz. pose proof (Hmin (Z.min x y) ltac:(left)).
    apply elem_of_cons in Hz as [->|[->|Hz]%elem_of_cons]; [lia..|].
    apply Hmin. by right.
Qed.

(** * The invariant and the set *)

Section props.
Context `{!BitVecOps, !BitVecLaws}.
Implicit Types s : RollingBitField.

(** The keys of the window whose bits are set, and all items. *)
Definition window s : gset Z := list_to_set (set_keys s (range (min_ s) (max_exclusive_ s))).
Definition items s : gset Z := excess s ∪ window s.

Lemma elem_of_window k s :
  k ∈ window s ↔ min_ s ≤ k < max_exclusive_ s ∧ contains_assume_in_range s k = true.
Proof.
  unfold window, set_keys. rewrite elem_of_list_to_set, list_elem_of_filter, elem_of_range. tauto.
Qed.

(** What holds between clearing a bit and repairing [min]. *)
Record pre_wf s : Prop := {
  wf_width : 0 < max_width s;
  wf_len : bit_len (bits s) = max_width s;
  wf_range : 0 ≤ min_ s ≤ max_exclusive_ s;
  wf_fits : max_exclusive_ s ≤ min_ s + max_width s;
  wf_max : max_exclusive_ s + max_width s ≤ u64_MAX;
  (** Every set bit is the bit of a key of the window. *)
  wf_clean i : 0 ≤ i < max_width s → bit_get (bits s) i = true →
    ∃ k, min_ s ≤ k < max_exclusive_ s ∧ k mod max_width s = i;
  wf_excess k : k ∈ excess s → 0 ≤ k ≤ min_ s;
  wf_apart k : k ∈ excess s → k ∉ window s;
  wf_count : count s = Z.of_nat (size (items s));
}.

Record wf s : Prop := {
  wf_pre :> pre_wf s;
  wf_below k : k ∈ excess s → k < min_ s;
  (** [min] is an item, unless the window is empty. *)
  wf_min : min_ s < max_exclusive_ s → contains_assume_in_range s (min_ s) = true;
}.

Lemma address_range s k : pre_wf s → 0 ≤ get_address s k < max_width s.
Proof. intros []. unfold get_address. by apply Z.mod_pos_bound. Qed.

Lemma size_items s : pre_wf s → size (items s) = (size (excess s) + size (window s))%nat.
Proof. intros []. unfold items. apply size_union. set_solver. Qed.

Lemma all_in_excess s : pre_wf s → all_items_in_excess s = true ↔ window s = ∅.
Proof.
  intros Hwf. unfold all_items_in_excess. rewrite Z.eqb_eq, (wf_count s Hwf), size_items by done.
  rewrite <-leibniz_equiv_iff, <-size_empty_iff. lia.
Qed.

Lemma window_empty s : wf s → window s = ∅ ↔ min_ s = max_exclusive_ s.
Proof.
  intros Hwf. split.
  - intros Hw. destruct (decide (min_ s = max_exclusive_ s)) as [|Hne]; [done|].
    pose proof (wf_range s Hwf). assert (min_ s ∈ window s) as Hin; [|set_solver].
    apply elem_of_window. split; [lia|]. apply wf_min; [done|lia].
  - intros Heq. apply set_eq. intros k. rewrite elem_of_window. set_solver by lia.
Qed.

Lemma items_in_range s k : wf s → k ∈ items s → 0 ≤ k < max_exclusive_ s.
Proof.
  intros Hwf [Hk|Hk]%elem_of_union; pose proof (wf_range s Hwf).
  - pose proof (wf_below s Hwf k Hk). pose proof (wf_excess s Hwf k Hk). lia.
  - apply elem_of_window in Hk as [? _]. lia.
Qed.

Lemma contains_items s k : wf s → contains s k = bool_decide (k ∈ items s).
Proof.
  intros Hwf. symmetry. pose proof (wf_range s Hwf). unfold contains.
  destruct (Z.ltb_spec k (max_exclusive_ s)).
  - destruct (Z.leb_spec (min_ s) k).
    + destruct (contains_assume_in_range s k) eqn:E.
      * apply bool_decide_eq_true. unfold items. rewrite elem_of_union, elem_of_window. auto.
      * apply bool_decide_eq_false. unfold items. rewrite elem_of_union, elem_of_window.
        intros [Hk|[_ ?]]; [apply (wf_below s Hwf) in Hk; lia|congruence].
    + apply bool_decide_ext. unfold items. rewrite elem_of_union, elem_of_window.
      split; [intros [|[? _]]; [done|lia]|auto].
  - apply bool_decide_eq_false. intros ?%items_in_range; [lia|done].
Qed.

(** The bits are those of the keys of the window, as addresses do not collide. *)
Lemma in_range_set s v k j b :
  pre_wf s → v = bit_set (bits s) (get_address s k) b → Z.abs (j - k) < max_width s →
  contains_assume_in_range (set_bits s v) j = if j =? k then b else contains_assume_in_range s j.
Proof.
  intros Hwf -> Hjk. unfold contains_assume_in_range, get_address. simpl.
  pose proof (wf_width s Hwf) as Hw.
  pose proof (address_range s k Hwf). pose proof (address_range s j Hwf).
  rewrite bit_get_set by (rewrite wf_len by done; done).
  destruct (Z.eqb_spec (k mod max_width s) (j mod max_width s)) as [Heq|Hne], (Z.eqb_spec j k).
  - done.
  - by apply mod_window in Heq; [|lia..].
  - by subst.
  - done.
Qed.

(** ** Repairing the minimum *)

Lemma first_in_range_spec s a b :
  match first_in_range s (range a b) with
  | None => ∀ k, a ≤ k < b → contains_assume_in_range s k = false
  | Some m => a ≤ m < b ∧ contains_assume_in_range s m = true ∧
      ∀ k, a ≤ k < m → contains_assume_in_range s k = false
  end.
Proof.
  unfold first_in_range. remember (Z.to_nat (b - a)) as n eqn:Hn.
  revert a Hn. induction n as [|n IH]; intros a Hn.
  - rewrite range_nil by lia. simpl. lia.
  - rewrite range_cons, filter_cons by lia.
    destruct (decide (contains_assume_in_range s a = true)) as [Ha|Ha%not_true_is_false]; simpl.
    { split_and!; [lia..|done|lia]. }
    specialize (IH (a + 1) ltac:(lia)). destruct (head _) as [m|].
    + destruct IH as (? & ? & IH). split_and!; [lia..|done|].
      intros k ?. destruct (decide (k = a)) as [->|]; [done|]. apply IH. lia.
    + intros k ?. destruct (decide (k = a)) as [->|]; [done|]. apply IH. lia.
Qed.

(** Moving [min] over keys that are not set changes nothing else. *)
Lemma set_min_wf s m :
  pre_wf s → min_ s ≤ m ≤ max_exclusive_ s →
  (∀ k, min_ s ≤ k < m → contains_assume_in_range s k = false) →
  (∀ k, k ∈ excess s → k < m) →
  (m < max_exclusive_ s → contains_assume_in_range s m = true) →
  wf (set_min s m) ∧ window (set_min s m) = window s.
Proof.
  intros Hwf Hm Hclear Hbelow Hset.
  assert (window (set_min s m) = window s) as Hwin.
  { apply set_eq. intros k. rewrite !elem_of_window. simpl.
    change (contains_assume_in_range (set_min s m) k) with (contains_assume_in_range s k).
    split; [intros [? ?]; split; [lia|done]|].
    intros [? Hk]. split; [|done]. destruct (decide (k < m)) as [Hlt|]; [|lia].
    rewrite Hclear in Hk by lia. done. }
  split; [|done]. destruct Hwf as [Hw Hl Hr Hf Hx Hc He Ha Hn].
  constructor; [constructor; simpl|exact Hbelow|exact Hset]; [done..|lia|lia|done| | | |].
  - intros i Hi Hb. destruct (Hc i Hi Hb) as (k & Hk & Hki). exists k. split; [|done].
    destruct (decide (k < m)) as [Hlt|]; [|lia].
    specialize (Hclear k ltac:(lia)). unfold contains_assume_in_range, get_address in Hclear.
    congruence.
  - intros k Hk. specialize (Hbelow k Hk). specialize (He k Hk). lia.
  - by rewrite Hwin.
  - unfold items. simpl. rewrite Hwin. done.
Qed.

Lemma purge_spec s :
  pre_wf s → min_ s < max_exclusive_ s → contains_assume_in_range s (min_ s) = false →
  ∃ s', purge s (min_ s) = Ret s' ∧ wf s' ∧ window s' = window s ∧ excess s' = excess s ∧
    max_exclusive_ s' = max_exclusive_ s ∧ max_width s' = max_width s ∧ min_ s < min_ s'.
Proof.
  intros Hwf Hlt Hmin. unfold purge. rewrite Z.eqb_refl.
  pose proof (wf_range s Hwf) as Hr. pose proof (wf_max s Hwf) as Hx. pose proof (wf_width s Hwf).
  assert (∀ m, min_ s < m → (∀ k, k ∈ excess s → k < m)) as Hbelow.
  { intros m ? k Hk. pose proof (wf_excess s Hwf k Hk). lia. }
  destruct ((0 <? count s) && negb (all_items_in_excess s)) eqn:Hcond; bsimp.
  - rewrite add_Ret, bind_Ret_l by lia.
    pose proof (first_in_range_spec s (min_ s + 1) (max_exclusive_ s)) as Hfirst.
    destruct (first_in_range _ _) as [m|].
    + destruct Hfirst as (? & Hm & Hclear). eexists. split; [done|].
      destruct (set_min_wf s m) as [? ?]; [done|lia| |apply Hbelow; lia|done|].
      { intros k ?. destruct (decide (k = min_ s)) as [->|]; [done|]. apply Hclear. lia. }
      split_and!; simpl; [done..|lia].
    + assert (window s = ∅) as Hempty; [|apply all_in_excess in Hempty; [congruence|done]].
      apply set_eq. intros k. rewrite elem_of_window. split; [|set_solver]. intros [? Hk].
      destruct (decide (k = min_ s)) as [->|]; [congruence|]. rewrite Hfirst in Hk by lia. done.
  - assert (window s = ∅) as Hempty.
    { apply andb_false_iff in Hcond as [Hz|Hz]; bsimp; [|by apply all_in_excess].
      rewrite (wf_count s Hwf), size_items in Hz by done.
      apply leibniz_equiv, size_empty_iff. lia. }
    eexists. split; [done|].
    destruct (set_min_wf s (max_exclusive_ s)) as [? ?]; [done|lia| |apply Hbelow; lia|lia|].
    { intros k ?. apply not_true_is_false. intros Hk.
      assert (k ∈ window s) as Hin by (by apply elem_of_window). set_solver. }
    split_and!; simpl; [done..|lia].
Qed.

(** ** Clearing and setting a bit *)

(** Clearing the bit of an item of the window, with the excess and the count
    that the caller stores. *)
Definition cleared s (k : Z) (e : gset Z) (c : Z) : RollingBitField :=
  mkField _ (max_width s) (min_ s) (max_exclusive_ s)
    (bit_set (bits s) (get_address s k) false) c e.

Lemma cleared_bits s k e c j :
  wf s → k ∈ window s → min_ s ≤ j < max_exclusive_ s →
  contains_assume_in_range (cleared s k e c) j =
  if j =? k then false else contains_assume_in_range s j.
Proof.
  intros Hwf [Hk Hbit]%elem_of_window Hj. pose proof (wf_fits s Hwf).
  apply (in_range_set s _ k j false); [apply Hwf|done|lia].
Qed.

Lemma cleared_window s k e c :
  wf s → k ∈ window s → window (cleared s k e c) = window s ∖ {[ k ]}.
Proof.
  intros Hwf Hk. apply set_eq. intros j.
  rewrite elem_of_difference, elem_of_singleton, !elem_of_window.
  cbn [min_ max_exclusive_ cleared].
  destruct (decide (min_ s ≤ j < max_exclusive_ s)); [|tauto].
  rewrite cleared_bits by done. destruct (Z.eqb_spec j k); intuition congruence.
Qed.

Lemma cleared_pre_wf s k e c :
  wf s → k ∈ window s → (∀ j, j ∈ e → 0 ≤ j ≤ min_ s) → (∀ j, j ∈ e → j ∈ window s → j = k) →
  c = Z.of_nat (size (e ∪ window s ∖ {[ k ]})) → pre_wf (cleared s k e c).
Proof.
  intros Hwf Hk He Hone Hc. pose proof Hwf as [[Hw Hl Hr Hf Hx Hcl _ _ _] _ _].
  pose proof (address_range s k Hwf) as Hak.
  constructor; cbn [min_ max_exclusive_ max_width excess bits count cleared]; [done| |done..| |done| |].
  - by rewrite bit_set_len by (by rewrite Hl).
  - intros i Hi. rewrite bit_get_set by (by rewrite Hl). destruct (_ =? i); [done|]. by apply Hcl.
  - intros j Hj. rewrite cleared_window by done. intros [Hj' Hne]%elem_of_difference.
    specialize (Hone j Hj Hj'). set_solver.
  - unfold items. rewrite cleared_window by done. done.
Qed.

(** After clearing the bit of an item, [purge] restores the invariant. *)
Lemma purge_cleared s k e c :
  wf s → k ∈ window s → pre_wf (cleared s k e c) →
  (k = min_ s ∨ e = excess s) →
  ∃ s', purge (cleared s k e c) k = Ret s' ∧ wf s' ∧ window s' = window s ∖ {[ k ]} ∧
    excess s' = e ∧ max_exclusive_ s' = max_exclusive_ s ∧ max_width s' = max_width s ∧
    min_ s ≤ min_ s' ∧ (k = min_ s → min_ s < min_ s').
Proof.
  intros Hwf Hk Hpre Hcase. pose proof Hk as [Hkr Hbit]%elem_of_window.
  destruct (decide (k = min_ s)) as [->|Hne].
  - destruct (purge_spec (cleared s (min_ s) e c)) as (s' & Hp & Hwf' & Hwin & He & Hm & Hw & Hlt).
    + done.
    + simpl. lia.
    + cbn [min_ cleared]. by rewrite cleared_bits, Z.eqb_refl by (done || lia).
    + exists s'. rewrite Hwin, cleared_window by done. simpl in *. split_and!; [done..|lia|lia].
  - destruct Hcase as [?| ->]; [done|].
    assert (contains_assume_in_range (cleared s k (excess s) c) (min_ s) = true) as Hmin.
    { rewrite cleared_bits by (done || lia). destruct (Z.eqb_spec (min_ s) k); [congruence|].
      apply wf_min; [done|lia]. }
    assert (min_ s ∈ window (cleared s k (excess s) c)) as Hin.
    { apply elem_of_window. simpl. split; [lia|done]. }
    exists (cleared s k (excess s) c). unfold purge.
    replace (all_items_in_excess _) with false.
    2:{ symmetry. apply not_true_is_false. rewrite all_in_excess by done. set_solver. }
    rewrite (proj2 (Z.ltb_lt _ _)).
    2:{ rewrite (wf_count _ Hpre), size_items by done.
        assert (size (window (cleared s k (excess s) c)) ≠ 0%nat); [|lia].
        apply size_non_empty_iff. set_solver. }
    cbn [andb negb min_ cleared]. rewrite (proj2 (Z.eqb_neq _ _)) by done.
    rewrite cleared_window by done. split_and!; [done| |done..|lia].
    constructor; [done|intros j Hj; by apply (wf_below s Hwf)|done].
Qed.

(** [remove]: the key is not an item any more, and the answer is whether it was
    one. *)
Lemma remove_spec s k :
  wf s → ∃ s', remove s k = Ret (bool_decide (k ∈ items s), s') ∧ wf s' ∧
    items s' = items s ∖ {[ k ]} ∧ max_width s' = max_width s.
Proof.
  intros Hwf. pose proof (wf_range s Hwf) as Hr. pose proof (contains_items s k Hwf) as Hcon.
  destruct (decide (k ∈ items s)) as [Hin|Hin].
  2:{ rewrite bool_decide_false in Hcon |- * by done. exists s.
      rewrite (difference_disjoint_L (items s) {[ k ]}) by set_solver. split; [|done].
      unfold remove, contains in *.
      destruct (Z.leb_spec (min_ s) k), (Z.ltb_spec k (max_exclusive_ s)); [|done| |lia].
      - fold (contains_assume_in_range s k). by rewrite Hcon.
      - by rewrite Hcon. }
  rewrite bool_decide_true in Hcon |- * by done.
  pose proof (size_remove _ _ Hin) as Hsize. pose proof (wf_count s Hwf) as Hcount.
  unfold remove, contains in *. destruct (Z.leb_spec (min_ s) k) as [Hmin|Hmin].
  - destruct (Z.ltb_spec k (max_exclusive_ s)) as [Hmax|Hmax]; [|done].
    fold (contains_assume_in_range s k). rewrite Hcon.
    assert (k ∈ window s) as Hk by (by apply elem_of_window).
    assert (items s ∖ {[ k ]} = excess s ∪ window s ∖ {[ k ]}) as Hitems.
    { pose proof (wf_apart s Hwf k). unfold items. set_solver. }
    rewrite sub_Ret, bind_Ret_l by lia.
    change (set_bits _ _) with (cleared s k (excess s) (count s - 1)).
    destruct (purge_cleared s k (excess s) (count s - 1))
      as (s' & -> & Hwf' & Hwin & He & ? & ? & _); [done|done| |by right|].
    + apply cleared_pre_wf; [done|done| | |rewrite <-Hitems; lia].
      * intros j Hj. by apply (wf_excess s Hwf).
      * intros j Hj Hj'. by destruct (wf_apart s Hwf j Hj).
    + exists s'. unfold items at 1. rewrite He, Hwin. done.
  - rewrite (proj2 (Z.ltb_lt _ _)) in Hcon by lia. rewrite Hcon. bsimp.
    rewrite sub_Ret, bind_Ret_l by lia. eexists. split; [done|].
    set (s' := set_count _ _).
    assert (items s' = items s ∖ {[ k ]}) as Hitems.
    { pose proof (wf_apart s Hwf k Hcon). unfold items.
      change (window s') with (window s). change (excess s') with (excess s ∖ {[ k ]}). set_solver. }
    split_and!; [|done|done]. destruct Hwf as [[Hw Hl Hrg Hf Hx Hcl He Ha Hc] Hb Hm].
    constructor; [constructor|intros j Hj; apply Hb; set_solver|done]; [done..| | |].
    + intros j Hj. apply He. set_solver.
    + intros j Hj. apply Ha. set_solver.
    + rewrite Hitems. change (count s') with (count s - 1). lia.
Qed.

(** ** Insertion *)

(** The keys for which the additions of [insert] do not overflow. *)
Definition key_ok s (k : Z) : Prop := 0 ≤ k ∧ k + max_width s < u64_MAX.

(** Bits above the window are clear, as far as the window could reach. *)
Lemma beyond_clear s j :
  wf s → max_exclusive_ s ≤ j < min_ s + max_width s → contains_assume_in_range s j = false.
Proof.
  intros Hwf Hj. apply not_true_is_false. intros Hbit.
  destruct (wf_clean s Hwf (get_address s j)) as (k & Hk & Hmod); [by apply address_range, Hwf|done|].
  unfold get_address in Hmod. apply mod_window in Hmod; [lia|apply Hwf|]. lia.
Qed.

Lemma count_bound s k :
  wf s → key_ok s k → count s + 1 ≤ usize_MAX.
Proof.
  intros Hwf [_ Hk]. rewrite (wf_count s Hwf).
  pose proof (size_bounded (items s) (max_exclusive_ s) (λ k, items_in_range s k Hwf)).
  pose proof (wf_max s Hwf). pose proof (wf_width s Hwf). pose proof (wf_range s Hwf).
  unfold usize_MAX. lia.
Qed.

(** The state after setting the bit of [k]. *)
Definition marked s (k m x : Z) : RollingBitField :=
  mkField _ (max_width s) m x (bit_set (bits s) (get_address s k) true) (count s + 1) (excess s).

Lemma marked_wf s k m x :
  wf s → key_ok s k → contains_assume_in_range s k = false →
  m ≤ k < x → x ≤ m + max_width s → x ≤ u64_MAX - max_width s → 0 ≤ m →
  (∀ j, m ≤ j < x → contains_assume_in_range s j = true ↔ j ∈ window s) →
  (∀ j, j ∈ window s → m ≤ j < x) → (∀ j, j ∈ excess s → j < m) →
  (m = k ∨ m ∈ window s) →
  wf (marked s k m x) ∧ window (marked s k m x) = {[ k ]} ∪ window s.
Proof.
  intros Hwf Hok Hbit Hkx Hx Hmax Hm0 Hsame Hsub Hbelow Hmin.
  pose proof Hwf as [[Hw Hl Hr Hf Hxx Hcl He Ha Hc] _ _].
  pose proof (address_range s k Hwf) as Hak.
  assert (∀ j, m ≤ j < x → contains_assume_in_range (marked s k m x) j =
    if j =? k then true else contains_assume_in_range s j) as Hbits.
  { intros j Hj. apply (in_range_set s _ k j true); [apply Hwf|done|lia]. }
  assert (window (marked s k m x) = {[ k ]} ∪ window s) as Hwin.
  { apply set_eq. intros j. rewrite elem_of_union, elem_of_singleton, elem_of_window.
    cbn [min_ max_exclusive_ marked]. split.
    - intros [Hj Hb]. rewrite Hbits in Hb by done. destruct (Z.eqb_spec j k); [by left|].
      right. by apply Hsame.
    - intros Hj. assert (m ≤ j < x) as Hjr by (destruct Hj; [lia|by apply Hsub]).
      split; [done|]. rewrite Hbits by done. destruct (Z.eqb_spec j k); [done|].
      destruct Hj; [done|]. by apply Hsame. }
  assert (k ∉ items s) as Hnew.
  { intros [Hk%Hbelow|[? ?]%elem_of_window]%elem_of_union; [lia|congruence]. }
  split; [|done]. constructor; [constructor|done|];
    cbn [min_ max_exclusive_ max_width excess bits count marked]; [done| |lia|lia|lia| | | | |].
  - by rewrite bit_set_len by (by rewrite Hl).
  - intros i Hi. rewrite bit_get_set by (by rewrite Hl).
    destruct (Z.eqb_spec (get_address s k) i) as [<-|]; [intros _; exists k; done|].
    intros Hb. destruct (Hcl i Hi Hb) as (j & Hj & <-). exists j. split; [|done].
    apply Hsub, elem_of_window. done.
  - intros j Hj. specialize (Hbelow j Hj). specialize (He j Hj). lia.
  - intros j Hj. rewrite Hwin. specialize (Ha j Hj). specialize (Hbelow j Hj). set_solver by lia.
  - rewrite Hc. unfold items. cbn [excess marked]. rewrite Hwin.
    replace (excess s ∪ ({[ k ]} ∪ window s)) with ({[ k ]} ∪ items s) by (unfold items; set_solver).
    rewrite (size_union {[ k ]}) by set_solver. rewrite size_singleton. unfold items. lia.
  - intros _. rewrite Hbits by lia. destruct (Z.eqb_spec m k); [done|].
    destruct Hmin as [|Hm]; [done|]. apply elem_of_window in Hm. tauto.
Qed.

Lemma update_bits_nonempty s k :
  wf s → key_ok s k → min_ s < max_exclusive_ s → min_ s ≤ k < min_ s + max_width s →
  ∃ s', update_bits s k false = Ret s' ∧ wf s' ∧ items s' = {[ k ]} ∪ items s ∧
    max_width s' = max_width s ∧ min_ s' < max_exclusive_ s'.
Proof.
  intros Hwf Hok Hlt Hk. unfold update_bits. fold (contains_assume_in_range s k).
  pose proof (wf_range s Hwf). pose proof (wf_fits s Hwf). pose proof (wf_max s Hwf).
  destruct (contains_assume_in_range s k) eqn:Hbit.
  - exists s. split_and!; [done..| |done|done].
    assert (k ∈ window s); [|unfold items; set_solver].
    apply elem_of_window. split; [|done]. destruct (decide (k < max_exclusive_ s)); [lia|].
    rewrite beyond_clear in Hbit by (done || lia). done.
  - pose proof (count_bound s k Hwf Hok). pose proof Hok as [_ Hok'].
    cbn [min_ max_exclusive_ count max_width set_bits set_min set_max].
    rewrite (add_Ret _ k 1), bind_Ret_l by lia. rewrite add_Ret, bind_Ret_l by lia.
    rewrite (proj2 (Z.leb_le _ _)) by lia. cbn [assert_]. rewrite !bind_Ret_l.
    cbn [count set_min set_max]. rewrite add_Ret, bind_Ret_l by done.
    destruct (marked_wf s k (min_ s) (Z.max (max_exclusive_ s) (k + 1))) as [Hwf' Hwin];
      [done..|lia|lia|lia|lia| | | | |].
    + intros j Hj. rewrite elem_of_window. split; [|tauto]. intros Hb. split; [|done].
      destruct (decide (j < max_exclusive_ s)); [lia|].
      rewrite beyond_clear in Hb by (done || lia). done.
    + intros j [? _]%elem_of_window. lia.
    + intros j Hj. by apply (wf_below s Hwf).
    + right. apply elem_of_window. split; [lia|]. by apply wf_min.
    + exists (marked s k (min_ s) (Z.max (max_exclusive_ s) (k + 1))). split_and!.
      * unfold marked, set_count. cbn. do 2 f_equal. lia.
      * done.
      * unfold items. rewrite Hwin. cbn. set_solver.
      * done.
      * cbn. lia.
Qed.

Lemma update_bits_empty s k :
  wf s → key_ok s k → min_ s = max_exclusive_ s →
  update_bits s k true = Ret (marked s k k (k + 1)) ∧ contains_assume_in_range s k = false.
Proof.
  intros Hwf Hok Heq. assert (contains_assume_in_range s k = false) as Hbit.
  { apply not_true_is_false. intros Hbit.
    destruct (wf_clean s Hwf (get_address s k)) as (j & Hj & _); [by apply address_range, Hwf|done|].
    lia. }
  split; [|done]. unfold update_bits. fold (contains_assume_in_range s k). rewrite Hbit.
  pose proof (count_bound s k Hwf Hok). pose proof Hok as [_ Hok']. pose proof (wf_width s Hwf).
  cbn [min_ max_exclusive_ count max_width set_bits set_min set_max].
  rewrite add_Ret, !bind_Ret_l by lia. cbn [count set_bits set_min set_max].
  by rewrite add_Ret, bind_Ret_l by done.
Qed.

(** Above the excess, an insertion into an empty window is that of a set. *)
Lemma marked_empty_wf s k :
  wf s → key_ok s k → min_ s = max_exclusive_ s → (∀ e, e ∈ excess s → e < k) →
  wf (marked s k k (k + 1)) ∧ items (marked s k k (k + 1)) = {[ k ]} ∪ items s.
Proof.
  intros Hwf Hok Heq Habove. pose proof (proj2 (window_empty s Hwf) Heq) as Hempty.
  destruct (update_bits_empty s k Hwf Hok Heq) as [_ Hbit].
  pose proof (wf_width s Hwf). pose proof Hok as [? ?].
  destruct (marked_wf s k k (k + 1)) as [? Hwin]; [done..|lia|lia|lia|lia| | |done|by left|].
  - intros j Hj. replace j with k by lia. rewrite Hbit, Hempty. set_solver.
  - rewrite Hempty. set_solver.
  - split; [done|]. unfold items. rewrite Hwin. cbn. set_solver.
Qed.

Lemma make_room_spec fuel s k :
  wf s → min_ s < max_exclusive_ s ≤ k → max_exclusive_ s - min_ s < Z.of_nat fuel →
  ∃ be s', make_room fuel s (k + 1) = Ret (be, s') ∧ wf s' ∧ items s' = items s ∧
    max_width s' = max_width s ∧ max_exclusive_ s' = max_exclusive_ s ∧
    if be then min_ s' = max_exclusive_ s'
    else min_ s' < max_exclusive_ s' ∧ k < min_ s' + max_width s.
Proof.
  revert s. induction fuel as [|fuel IH]; intros s Hwf Hk Hfuel; [lia|]. cbn [make_room].
  unfold saturating_sub. pose proof (wf_range s Hwf).
  destruct (Z.leb_spec (Z.max (k + 1 - min_ s) 0) (max_width s)).
  { exists false, s. split_and!; [done..|lia|lia]. }
  assert (min_ s ∈ window s) as Hmin.
  { apply elem_of_window. split; [lia|]. apply wf_min; [done|lia]. }
  assert (min_ s ∉ excess s) as Hex by (intros Hx%(wf_below s Hwf); lia).
  rewrite bool_decide_true by done. cbn [assert_]. rewrite bind_Ret_l.
  change (set_bits _ _) with (cleared s (min_ s) ({[ min_ s ]} ∪ excess s) (count s)).
  assert (({[ min_ s ]} ∪ excess s) ∪ window s ∖ {[ min_ s ]} = items s) as Hitems.
  { unfold items. apply set_eq. intros j. destruct (decide (j = min_ s)); set_solver. }
  destruct (purge_cleared s (min_ s) ({[ min_ s ]} ∪ excess s) (count s))
    as (s' & -> & Hwf' & Hwin & He & Hx & Hw & _ & Hlt); [done|done| |by left|].
  { apply cleared_pre_wf; [done|done| | |rewrite Hitems; apply Hwf].
    - intros j [->%elem_of_singleton|Hj]%elem_of_union; [lia|]. by apply (wf_excess s Hwf).
    - intros j [->%elem_of_singleton|Hj]%elem_of_union Hj'; [done|].
      by destruct (wf_apart s Hwf j Hj). }
  assert (items s' = items s) as Hsame by (unfold items at 1; rewrite He, Hwin; done).
  rewrite bind_Ret_l. pose proof (wf_range s' Hwf').
  destruct (all_items_in_excess s') eqn:Hall.
  - apply all_in_excess in Hall; [|apply Hwf']. apply window_empty in Hall; [|done].
    by exists true, s'.
  - assert (min_ s' ≠ max_exclusive_ s').
    { intros Heq. apply window_empty in Heq; [|done]. apply all_in_excess in Heq; [congruence|apply Hwf']. }
    destruct (IH s') as (be & s2 & ? & ? & ? & Hw2 & ? & Hbe); [done|lia|lia|].
    exists be, s2. split_and!; [done..|congruence|congruence|congruence|].
    by rewrite <-Hw.
Qed.

(** What makes an insertion one of a set: into a window that has become empty
    by removals, only keys above the excess may go. *)
Definition insertable s (k : Z) : Prop := window s = ∅ → ∀ e, e ∈ excess s → e < k.

(** A field answers as a set does. *)
Definition refines s (X : gset Z) : Prop :=
  (∀ k, contains s k = bool_decide (k ∈ X)) ∧ len s = Z.of_nat (size X).

Lemma wf_refines s : wf s → refines s (items s).
Proof. intros Hwf. split; [intros; by apply contains_items|apply Hwf]. Qed.

Lemma bits_empty_iff s :
  wf s → (count s =? 0) || all_items_in_excess s = true ↔ min_ s = max_exclusive_ s.
Proof.
  intros Hwf. rewrite <-(window_empty s Hwf), orb_true_iff, (all_in_excess s Hwf), Z.eqb_eq.
  split; [|by right]. intros [Hc|]; [|done]. rewrite (wf_count s Hwf), size_items in Hc by apply Hwf.
  apply leibniz_equiv, size_empty_iff. lia.
Qed.

Lemma insert_nonempty s k :
  wf s → key_ok s k → min_ s < max_exclusive_ s →
  ∃ s', insert s k = Ret s' ∧ wf s' ∧ items s' = {[ k ]} ∪ items s ∧ max_width s' = max_width s ∧
    min_ s' < max_exclusive_ s'.
Proof.
  intros Hwf Hok Hlt. pose proof (wf_fits s Hwf). pose proof (wf_width s Hwf). pose proof Hok as [? ?].
  unfold insert. destruct (_ || _) eqn:Hempty; [apply bits_empty_iff in Hempty; [lia|done]|].
  destruct (Z.ltb_spec k (min_ s)).
  - case_bool_decide as Hin.
    { exists s. split_and!; [done..| |done|done]. unfold items. set_solver. }
    rewrite add_Ret, bind_Ret_l by (by eapply count_bound). eexists. split; [done|].
    set (s' := set_count _ _). pose proof (wf_range s Hwf).
    assert (items s' = {[ k ]} ∪ items s) as Hitems.
    { unfold items. change (window s') with (window s). cbn. set_solver. }
    assert (k ∉ window s) as Hk by (intros [? _]%elem_of_window; lia).
    split_and!; [|done|done|done]. destruct Hwf as [[Hw Hl Hrg Hf Hx Hcl He Ha Hc] Hb Hm].
    constructor; [constructor|intros j Hj|done]; [done..| | | |].
    + intros j Hj. cbn in Hj. apply elem_of_union in Hj as [->%elem_of_singleton|Hj]; [cbn; lia|].
      by apply He.
    + intros j Hj. cbn in Hj. apply elem_of_union in Hj as [->%elem_of_singleton|Hj]; [done|].
      by apply Ha.
    + rewrite Hitems, (size_union {[ k ]}) by (unfold items; set_solver).
      rewrite size_singleton. cbn. lia.
    + cbn in Hj. apply elem_of_union in Hj as [->%elem_of_singleton|Hj]; [done|]. by apply Hb.
  - destruct (Z.ltb_spec k (max_exclusive_ s)).
    { apply update_bits_nonempty; [done..|lia]. }
    rewrite add_Ret, bind_Ret_l by lia.
    destruct (make_room_spec (S (Z.to_nat (max_width s))) s k)
      as (be & s' & -> & Hwf' & Hitems & Hw & Hx & Hbe); [done|lia|lia|].
    rewrite bind_Ret_l. rewrite <-Hitems, <-Hw.
    assert (key_ok s' k) as Hok' by (split; rewrite ?Hw; done).
    destruct be; [|apply update_bits_nonempty; [done..|destruct Hbe|]; rewrite ?Hw; lia].
    destruct (marked_empty_wf s' k) as [? ?]; [done..| |].
    { intros e He%(wf_below s' Hwf'). lia. }
    destruct (update_bits_empty s' k Hwf' Hok' Hbe) as [-> _].
    eexists. split_and!; [done..|cbn; lia].
Qed.

(** [insert] returns, and the result is the field of the set with the key
    exactly if the key is [insertable]. *)
Lemma insert_exact_ s k :
  wf s → key_ok s k →
  ∃ s', insert s k = Ret s' ∧ max_width s' = max_width s ∧ min_ s' < max_exclusive_ s' ∧
    (insertable s k → wf s' ∧ items s' = {[ k ]} ∪ items s) ∧
    (refines s' ({[ k ]} ∪ items s) → insertable s k).
Proof.
  intros Hwf Hok. pose proof (wf_range s Hwf) as Hr.
  destruct (decide (min_ s = max_exclusive_ s)) as [Heq|Hne].
  2:{ destruct (insert_nonempty s k) as (s' & ? & ? & ? & ? & ?); [done|done|lia|].
      exists s'. split_and!; [done..|]. intros _ Hempty%window_empty; [lia|done]. }
  pose proof (proj2 (window_empty s Hwf) Heq) as Hwin.
  exists (marked s k k (k + 1)). split_and!; [|done|cbn; lia| |].
  - unfold insert. rewrite (proj2 (bits_empty_iff s Hwf) Heq).
    by destruct (update_bits_empty s k Hwf Hok Heq) as [-> _].
  - intros Hins. apply marked_empty_wf; auto.
  - intros [Hcon Hlen] _ e He. destruct (decide (e < k)) as [|Hge]; [done|exfalso].
    assert (e = k) as ->.
    { specialize (Hcon e). rewrite bool_decide_true in Hcon by (unfold items; set_solver).
      unfold contains in Hcon. cbn [max_exclusive_ marked] in Hcon.
      destruct (Z.ltb_spec e (k + 1)); [lia|done]. }
    assert ({[ k ]} ∪ items s = items s) as Hsame by (unfold items; set_solver).
    unfold len in Hlen. cbn [count marked] in Hlen.
    rewrite Hsame, (wf_count s Hwf) in Hlen. lia.
Qed.

Lemma new_wf w : is_power_of_two w = true → w ≤ u64_MAX →
  ∃ s, new w = Ret s ∧ wf s ∧ items s = ∅ ∧ max_width s = w.
Proof.
  intros Hpow Hw. unfold new. pose proof Hpow as [Hpos _]%andb_true_iff. rewrite Hpow, Hpos. bsimp.
  eexists. split; [done|]. set (s := mkField _ _ _ _ _ _ _).
  assert (window s = ∅) as Hwin by done.
  assert (items s = ∅) as Hitems by (unfold items; rewrite Hwin; set_solver).
  split_and!; [|done|done]. constructor; [constructor|set_solver|]; cbn; try lia; try set_solver.
  - by apply new_fill_len; lia.
  - intros i Hi. by rewrite new_fill_get.
Qed.

(** ** Queries *)

Lemma min_spec s : wf s →
  match min s with
  | None => items s = ∅
  | Some m => m ∈ items s ∧ ∀ k, k ∈ items s → m ≤ k
  end.
Proof.
  intros Hwf. unfold min, is_empty, len. rewrite (wf_count s Hwf).
  destruct (Z.eqb_spec (Z.of_nat (size (items s))) 0) as [Hz|Hz].
  { apply leibniz_equiv, size_empty_iff. lia. }
  pose proof (minimum_spec (elements (excess s))) as Hm.
  assert (window s ≠ ∅ → min_ s ∈ window s) as Hmin.
  { intros Hne. pose proof (wf_range s Hwf). rewrite (window_empty s Hwf) in Hne.
    apply elem_of_window. split; [lia|]. apply wf_min; [done|lia]. }
  assert (∀ k, k ∈ window s → min_ s ≤ k) as Hle by (intros k [? _]%elem_of_window; lia).
  assert (window s = ∅ → excess s ≠ ∅) as Hexc.
  { intros Hw He. unfold items in Hz. rewrite Hw, He in Hz. done. }
  case_bool_decide as He.
  - unfold items. rewrite He. split; [|set_solver]. destruct (decide (window s = ∅)); set_solver.
  - destruct (minimum _) as [m|].
    2:{ by apply elements_empty_inv, leibniz_equiv in Hm. }
    destruct Hm as [Hin Hall]. rewrite elem_of_elements in Hin.
    setoid_rewrite elem_of_elements in Hall.
    pose proof (wf_below s Hwf m Hin) as Hlt.
    destruct (all_items_in_excess s) eqn:E.
    + apply all_in_excess in E; [|apply Hwf]. unfold items. rewrite E. set_solver.
    + cbn [from_option id]. rewrite Z.min_r by lia. unfold items. split; [set_solver|].
      intros k [Hk|Hk]%elem_of_union; [by apply Hall|]. apply Hle in Hk. lia.
Qed.

Lemma get_all_spec s : wf s → get_all s ≡ₚ elements (items s).
Proof.
  intros Hwf. apply NoDup_Permutation; [|apply NoDup_elements|].
  - apply NoDup_app. split_and!; [apply NoDup_elements| |apply NoDup_filter, NoDup_range].
    intros k Hk Hw. rewrite elem_of_elements in Hk. apply (wf_apart s Hwf k Hk).
    by apply elem_of_list_to_set.
  - intros k. unfold get_all, items, window.
    by rewrite elem_of_app, !elem_of_elements, elem_of_union, elem_of_list_to_set.
Qed.

Lemma get_all_less_than_spec s x :
  wf s → get_all_less_than s x ≡ₚ filter (λ k, k < x) (elements (items s)).
Proof.
  intros Hwf. rewrite <-(get_all_spec s Hwf). unfold get_all, get_all_less_than.
  rewrite filter_app. apply Permutation_app_head. apply NoDup_Permutation.
  - apply NoDup_filter, NoDup_range.
  - apply NoDup_filter, NoDup_filter, NoDup_range.
  - intros k. unfold set_keys. rewrite !list_elem_of_filter, !elem_of_range.
    destruct (contains_assume_in_range s k); intuition lia.
Qed.

Lemma field_eq_spec s s' : wf s → wf s' → field_eq s s' = true ↔ items s = items s'.
Proof.
  intros Hwf Hwf'. unfold field_eq, len.
  rewrite andb_true_iff, Z.eqb_eq, forallb_forall, (wf_count s Hwf), (wf_count s' Hwf').
  setoid_rewrite <-list_elem_of_In. setoid_rewrite (get_all_spec s Hwf).
  setoid_rewrite elem_of_elements. setoid_rewrite (λ k, contains_items s' k Hwf').
  setoid_rewrite bool_decide_eq_true. split.
  - intros [Hsize Hsub]. apply leibniz_equiv, set_subseteq_size_equiv; [done|lia].
  - intros ->. done.
Qed.

(** [get_prior] scans downwards and does not look at slot 0, unless it starts
    there. *)
Lemma prior_loop_spec fuel s slot m :
  wf s → (∀ k, k ∈ items s → m ≤ k) → 0 ≤ slot < Z.of_nat fuel →
  ∃ r, prior_loop fuel s slot m = Ret r ∧
    match r with
    | Some k => k ∈ items s ∧ k ≤ slot ∧ (∀ j, j ∈ items s → j ≤ slot → j ≤ k) ∧ (k = 0 → slot = 0)
    | None => ∀ j, j ∈ items s → j ≤ slot → j = 0 ∧ slot ≠ 0
    end.
Proof.
  intros Hwf Hm. revert slot. induction fuel as [|fuel IH]; intros slot Hf; [lia|].
  cbn [prior_loop]. rewrite contains_items by done. unfold saturating_sub.
  case_bool_decide as Hin; [eexists; split; [done|]; simpl; split_and!; [done..|lia]|].
  assert (∀ j, j ∈ items s → j ≤ slot → 0 ≤ j ≤ slot - 1 ∧ m ≤ j) as Hdown.
  { intros j Hj Hle. pose proof (items_in_range s j Hwf Hj). pose proof (Hm j Hj).
    assert (j ≠ slot) by congruence. lia. }
  destruct (_ || _) eqn:Hstop.
  - eexists. split; [done|]. cbn. intros j Hj Hle. specialize (Hdown j Hj Hle).
    apply orb_true_iff in Hstop as [?|?]; bsimp; lia.
  - bsimp. destruct (IH (Z.max (slot - 1) 0)) as (r & -> & Hr); [lia|]. exists r. split; [done|].
    destruct r as [k|].
    + destruct Hr as (? & ? & Hmax & ?). split_and!; [done|lia| |lia].
      intros j Hj Hle. specialize (Hdown j Hj Hle). apply Hmax; [done|lia].
    + intros j Hj Hle. specialize (Hdown j Hj Hle). destruct (Hr j Hj); lia.
Qed.

Lemma get_prior_exact s x :
  wf s → 0 ≤ x → ∃ r, get_prior s x = Ret r ∧
    match r with
    | Some k => k ∈ items s ∧ (k < x ∨ x = 0) ∧ (∀ j, j ∈ items s → j < x → j ≤ k) ∧ (k = 0 → x ≤ 1)
    | None => ∀ j, j ∈ items s → (j < x → j = 0 ∧ 1 < x) ∧ (x = 0 → j ≠ 0)
    end.
Proof.
  intros Hwf Hx. unfold get_prior. pose proof (min_spec s Hwf) as Hmin.
  destruct (min s) as [m|]; [|exists None; split; [done|]; rewrite Hmin; set_solver].
  destruct Hmin as [_ Hmin]. unfold saturating_sub.
  destruct (prior_loop_spec (S (Z.to_nat x)) s (Z.max (x - 1) 0) m) as (r & -> & Hr); [done..|lia|].
  exists r. split; [done|]. destruct r as [k|].
  - destruct Hr as (? & ? & Hmax & ?). split_and!; [done|lia| |lia].
    intros j Hj ?. apply Hmax; [done|lia].
  - intros j Hj. pose proof (items_in_range s j Hwf Hj).
    split; [intros ?|intros -> ->]; destruct (Hr _ Hj); lia.
Qed.

(** ** Iteration *)

(** The iterator yields what [get_all] collects, in the same order. *)
Fixpoint take_ones (n : nat) (it : RollingBitFieldOnesIter) : list Z :=
  match n with
  | O => []
  | S n =>
      match ones_next it with
      | (Some k, it) => k :: take_ones n it
      | (None, _) => []
      end
  end.

Lemma take_bits s n l :
  (length l < n)%nat → take_ones n (mkOnesIter _ s [] l) = set_keys s l.
Proof.
  revert n. induction l as [|k l IH]; intros [|n] Hn; simpl in Hn; [lia|done|lia|].
  unfold set_keys. rewrite filter_cons. cbn [take_ones]. unfold ones_next.
  cbn [excess_iter rolling_bit_field bit_range next_bit].
  destruct (contains_assume_in_range s k) eqn:E; simpl.
  - f_equal. apply IH. lia.
  - fold (set_keys s l). rewrite <-(IH (S n)) by lia. done.
Qed.

Lemma iter_ones_spec s n :
  (length (excess_iter (iter_ones s)) + length (bit_range (iter_ones s)) < n)%nat →
  take_ones n (iter_ones s) = get_all s.
Proof.
  unfold iter_ones, get_all. cbn [excess_iter bit_range].
  generalize (elements (excess s)). intros l. revert n.
  induction l as [|k l IH]; intros [|n] Hn; simpl in Hn; [lia|by apply take_bits; lia|lia|].
  cbn. f_equal. apply IH. lia.
Qed.

(** ** Ancestors *)

Lemma insert_all l s :
  wf s → (items s = ∅ ∨ min_ s < max_exclusive_ s) → (∀ k, k ∈ l → key_ok s k) →
  ∃ s', for_each (λ slot s, insert s slot) l s = Ret s' ∧ wf s' ∧
    items s' = list_to_set l ∪ items s.
Proof.
  revert s. induction l as [|k l IH]; intros s Hwf Hne Hok; cbn [for_each].
  { exists s. split_and!; [done..|]. set_solver. }
  destruct (insert_exact_ s k) as (s1 & -> & Hw & Hlt1 & Hins & _); [done|apply Hok; left|].
  destruct Hins as [Hwf1 Hitems1].
  { intros Hempty. destruct Hne as [He|Hlt]; [unfold items in He; set_solver|].
    apply window_empty in Hempty; [lia|done]. }
  rewrite bind_Ret_l. destruct (IH s1) as (s' & -> & ? & Hitems); [done| | |].
  - by right.
  - intros j Hj. unfold key_ok. rewrite Hw. apply Hok. by right.
  - exists s'. split_and!; [done..|]. rewrite Hitems, Hitems1. set_solver.
Qed.

(** The slots that [Ancestors::from] accepts without an overflow. *)
Definition ancestor_slot (slot : Slot) : Prop :=
  0 ≤ slot ∧ slot + Anc.ANCESTORS_HASH_MAP_SIZE < u64_MAX.

(** The ancestors built from a list of slots are those slots. *)
Lemma from_items l :
  Forall ancestor_slot l →
  ∃ a, Anc.from l = Ret a ∧ wf (Anc.ancestors a) ∧ items (Anc.ancestors a) = list_to_set l.
Proof.
  intros Hl. unfold Anc.from, Anc.default_.
  destruct (new_wf Anc.ANCESTORS_HASH_MAP_SIZE) as (s & -> & Hwf & Hitems & Hw); [done|by cbv|].
  rewrite !bind_Ret_l. cbn [Anc.ancestors].
  destruct (insert_all (merge_sort Z.le l) s) as (s' & -> & Hwf' & Hitems'); [done|by left| |].
  { intros k Hk. rewrite merge_sort_Permutation in Hk. unfold key_ok. rewrite Hw.
    rewrite Forall_forall in Hl. by apply Hl. }
  rewrite bind_Ret_l. eexists. split; [done|]. split; [done|]. cbn [Anc.ancestors].
  rewrite Hitems', Hitems. apply set_eq. intros k.
  rewrite elem_of_union, !elem_of_list_to_set, merge_sort_Permutation. set_solver.
Qed.

(** ** Fields in use *)

(** The fields built by the operations, with the set they are to stand for:
    removals are free, insertions are of keys that are [insertable]. *)
Inductive field_run (w : Z) : RollingBitField → gset Z → Prop :=
| field_new s : new w = Ret s → field_run w s ∅
| field_insert s X k s' :
    field_run w s X → 0 ≤ k → k + w < u64_MAX → insertable s k → insert s k = Ret s' →
    field_run w s' ({[ k ]} ∪ X)
| field_remove s X k b s' :
    field_run w s X → remove s k = Ret (b, s') → field_run w s' (X ∖ {[ k ]}).

Lemma field_run_inv w s X :
  is_power_of_two w = true → w ≤ u64_MAX →
  field_run w s X → wf s ∧ items s = X ∧ max_width s = w.
Proof.
  intros Hpow Hw. induction 1 as [s Hnew|s X k s' _ (Hwf & <- & Hmw) Hk Hkw Hins Hi|s X k b s' _ (Hwf & <- & Hmw) Hr].
  - destruct (new_wf w Hpow Hw) as (s' & Hs' & ?). rewrite Hs' in Hnew. by simplify_eq.
  - destruct (insert_exact_ s k) as (s1 & Hs1 & Hw1 & _ & Hok & _); [done|split; lia|].
    rewrite Hs1 in Hi. simplify_eq. destruct (Hok Hins). by rewrite Hw1.
  - destruct (remove_spec s k Hwf) as (s1 & Hs1 & ? & ? & Hw1). rewrite Hs1 in Hr. simplify_eq.
    by rewrite Hw1.
Qed.

(** C24. The rolling bit field is a set: it contains, counts and lists what was
    inserted and not removed, [remove] answers whether the key was there, and
    [insert] returns a field of the set with the key exactly if the key is above
    the excess or the window holds a key. *)
Theorem rolling_field_exact w s X :
  is_power_of_two w = true → w ≤ u64_MAX → field_run w s X →
  refines s X ∧ get_all s ≡ₚ elements X ∧
  (match min s with None => X = ∅ | Some m => m ∈ X ∧ ∀ k, k ∈ X → m ≤ k end) ∧
  (∀ k, ∃ s', remove s k = Ret (bool_decide (k ∈ X), s') ∧ refines s' (X ∖ {[ k ]})) ∧
  ∀ k, 0 ≤ k → k + w < u64_MAX →
    ∃ s', insert s k = Ret s' ∧ (refines s' ({[ k ]} ∪ X) ↔ insertable s k).
Proof.
  intros Hpow Hw Hrun. destruct (field_run_inv w s X Hpow Hw Hrun) as (Hwf & <- & <-). split_and!.
  - by apply wf_refines.
  - by apply get_all_spec.
  - by apply min_spec.
  - intros k. destruct (remove_spec s k Hwf) as (s' & ? & ? & <- & _). eauto using wf_refines.
  - intros k Hk Hkw. destruct (insert_exact_ s k Hwf) as (s' & ? & _ & _ & Hok & Hno); [done|].
    exists s'. split; [done|]. split; [done|]. intros Hins. destruct (Hok Hins) as [? <-].
    by apply wf_refines.
Qed.

End props.

(** * An instance, and a field that loses a key *)

Module FieldDemo.

(** A bit vector as its length and its bits. *)
#[export] Instance bit_vec : BitVecOps := {|
  BitVec := Z * (Z → bool);
  new_fill b n := (n, λ _, b);
  bit_get v i := v.2 i;
  bit_set v i b := (v.1, λ j, if i =? j then b else v.2 j);
  bit_len v := v.1;
|}.

#[export] Instance bit_vec_laws : BitVecLaws.
Proof. split; done. Qed.

Definition empty_field : RollingBitField := mkField _ 4 0 0 (new_fill false 4) 0 ∅.

Definition get_field (m : outcome RollingBitField) : RollingBitField :=
  match m with Ret s => s | _ => empty_field end.

(** Width 4: the keys 1 and 10, of which 1 is moved to the excess, and then 10 is
    removed. *)
Definition field1 : RollingBitField := get_field (insert empty_field 1).
Definition field2 : RollingBitField := get_field (insert field1 10).
Definition field3 : RollingBitField := get_field ('(_, s) ← remove field2 10; Ret s).

Lemma field_steps :
  new 4 = Ret empty_field ∧ insert empty_field 1 = Ret field1 ∧ insert field1 10 = Ret field2 ∧
  remove field2 10 = Ret (true, field3).
Proof. split_and!; vm_compute; reflexivity. Qed.

Lemma field_sets :
  elements (excess empty_field) = [] ∧ elements (excess field1) = [] ∧
  elements (excess field3) = [1] ∧ elements (window field3) = [].
Proof. split_and!; vm_compute; reflexivity. Qed.

Lemma field3_run : field_run 4 field3 (({[ 10 ]} ∪ ({[ 1 ]} ∪ ∅)) ∖ {[ 10 ]}).
Proof.
  destruct field_steps as (Hnew & Hi1 & Hi2 & Hr). destruct field_sets as (He0 & He1 & _ & _).
  eapply field_remove; [|exact Hr].
  eapply field_insert; [|lia|unfold u64_MAX; lia| |exact Hi2].
  - eapply field_insert; [|lia|unfold u64_MAX; lia| |exact Hi1]; [by apply field_new|].
    intros _ e He. apply elem_of_elements in He. rewrite He0 in He. by apply not_elem_of_nil in He.
  - intros _ e He. apply elem_of_elements in He. rewrite He1 in He. by apply not_elem_of_nil in He.
Qed.

(** Inserting 0 now does not give the set of 0 and 1. *)
Lemma rolling_field_exact_witness :
  ∃ s', insert field3 0 = Ret s' ∧ ¬ refines s' ({[ 0 ]} ∪ ({[ 10 ]} ∪ ({[ 1 ]} ∪ ∅)) ∖ {[ 10 ]}).
Proof.
  destruct (rolling_field_exact 4 field3 (({[ 10 ]} ∪ ({[ 1 ]} ∪ ∅)) ∖ {[ 10 ]}))
    as (_ & _ & _ & _ & Hins); [reflexivity|unfold u64_MAX; lia|exact field3_run|].
  destruct (Hins 0) as (s' & Hs' & Hiff); [lia|unfold u64_MAX; lia|].
  exists s'. split; [exact Hs'|]. intros Href%Hiff. destruct field_sets as (_ & _ & He & Hw).
  assert (window field3 = ∅) as Hempty.
  { apply leibniz_equiv, elements_empty_inv. exact Hw. }
  specialize (Href Hempty 1). rewrite <-elem_of_elements, He in Href.
  specialize (Href ltac:(left)). lia.
Defined.

End FieldDemo.
