(* ===== verification/StatusCache.v ===== *)
(** The status cache (runtime/src/status_cache.rs): which transactions were
    processed, by the blockhash they use and a slice of their message hash or
    signature, in which slots and with which result.  The banks of all forks
    share one cache; [get_status] answers for the slots of one fork.

    A [HashMap] is a [gmap] and a [HashSet] a [gset]; the loops over them visit
    the entries in the order of [map_to_list] and [elements], and no theorem
    depends on it.  [insert] draws a random offset for a blockhash it has not
    seen; the draw is an argument.  The properties are in StatusCacheProps.v. *)
From S2P Require Import Prelude RollingBitField.

(** Constants of the crate solana-clock. *)
Class ClockConstants := {
  MAX_RECENT_BLOCKHASHES : Z;
  MAX_PROCESSING_AGE : Z;
}.

(** A transaction expires before the cache forgets it, and both limits are
    lengths. *)
Class ClockLaws `{!ClockConstants} := {
  processing_age_lt : MAX_PROCESSING_AGE < MAX_RECENT_BLOCKHASHES;
  processing_age_nonneg : 0 ≤ MAX_PROCESSING_AGE;
}.

Definition MAX_CACHE_ENTRIES `{!ClockConstants} : Z := MAX_RECENT_BLOCKHASHES.
Definition CACHED_KEY_SIZE : Z := 20.

Abbreviation KeySlice := (list Z) (only parsing).
Abbreviation ForkStatus T := (list (Slot * T)) (only parsing).
Abbreviation KeyMap T := (gmap KeySlice (ForkStatus T)) (only parsing).
Abbreviation Status T := (gmap Hash (Z * list (KeySlice * T))) (only parsing).
Abbreviation KeyStatusMap T := (gmap Hash (Slot * Z * KeyMap T)) (only parsing).
Abbreviation SlotDelta T := ((Slot * bool * Status T)%type) (only parsing).

Record StatusCache (T : Type) := mkStatusCache {
  cache : KeyStatusMap T;
  roots : gset Slot;
  slot_deltas : gmap Slot (Status T);
}.
Arguments mkStatusCache {T} _ _ _.
Arguments cache {T} _.
Arguments roots {T} _.
Arguments slot_deltas {T} _.

Module Cache.
Section cache.
Context `{!ClockConstants} {T : Type}.
Implicit Types c : StatusCache T.

(** [StatusCache::default]: 0 is always a root. *)
Definition default_ : StatusCache T := mkStatusCache ∅ {[ 0 ]} ∅.

(** ** Removing the entries of a slot *)

(** One key of [clear_slot_entries]: [all_hash_maps.entry(key_slice)]. *)
Definition clear_key (slot : Slot) (key : KeySlice * T) (all_hash_maps : KeyMap T)
    : outcome (KeyMap T) :=
  match all_hash_maps !! key.1 with
  | Some key_list =>
      let key_list := filter (λ e, e.1 ≠ slot) key_list in
      Ret (if bool_decide (key_list = []) then delete key.1 all_hash_maps
           else <[ key.1 := key_list ]> all_hash_maps)
  | None => Panic
  end.

(** One blockhash of [clear_slot_entries]: [self.cache.entry(blockhash)]. *)
Definition clear_blockhash (slot : Slot) (entry : Hash * (Z * list (KeySlice * T)))
    (ch : KeyStatusMap T) : outcome (KeyStatusMap T) :=
  let '(blockhash, (_, key_list)) := entry in
  match ch !! blockhash with
  | Some (max_slot, key_index, all_hash_maps) =>
      all_hash_maps ← for_each (clear_key slot) key_list all_hash_maps;
      Ret (if bool_decide (size all_hash_maps = 0%nat) then delete blockhash ch
           else <[ blockhash := (max_slot, key_index, all_hash_maps) ]> ch)
  | None => Panic
  end.

Definition clear_slot_entries c (slot : Slot) : outcome (StatusCache T) :=
  match slot_deltas c !! slot with
  | Some deltas =>
      ch ← for_each (clear_blockhash slot) (map_to_list deltas) (cache c);
      Ret (mkStatusCache ch (roots c) (delete slot (slot_deltas c)))
  | None => Ret c
  end.

(** ** Lookup *)

Definition max_key_index (key : list Z) : Z :=
  saturating_sub (Z.of_nat (length key)) (CACHED_KEY_SIZE + 1).

(** [array_ref![key, index, CACHED_KEY_SIZE]] and
    [key[index..index + CACHED_KEY_SIZE]], which panic out of range. *)
Definition slice_at (key : list Z) (index : Z) : outcome KeySlice :=
  if index + CACHED_KEY_SIZE <=? Z.of_nat (length key)
  then Ret (take (Z.to_nat CACHED_KEY_SIZE) (drop (Z.to_nat index) key))
  else Panic.

Definition get_status `{!BitVecOps} c (key : list Z) (transaction_blockhash : Hash)
    (ancestors : Ancestors) : outcome (option (Slot * T)) :=
  match cache c !! transaction_blockhash with
  | None => Ret None
  | Some (_, index, keymap) =>
      let index := Z.min index (max_key_index key) in
      key_slice ← slice_at key index;
      Ret match keymap !! key_slice with
          | Some stored_forks =>
              find (λ '(f, _), Anc.contains_key ancestors f || bool_decide (f ∈ roots c))
                stored_forks
          | None => None
          end
  end.

(** The loop of [get_status_any_blockhash]. *)
Fixpoint try_blockhashes `{!BitVecOps} c (key : list Z) (ancestors : Ancestors)
    (keys : list Hash) : outcome (option (Slot * T)) :=
  match keys with
  | [] => Ret None
  | blockhash :: keys =>
      status ← get_status c key blockhash ancestors;
      match status with
      | Some _ => Ret status
      | None => try_blockhashes c key ancestors keys
      end
  end.

Definition get_status_any_blockhash `{!BitVecOps} c (key : list Z) (ancestors : Ancestors)
    : outcome (option (Slot * T)) :=
  try_blockhashes c key ancestors ((map_to_list (cache c)).*1).

(** ** Roots *)

(** [self.roots.iter().min().cloned()]. *)
Definition min_root c : option Slot := Field.minimum (elements (roots c)).

Definition purge_roots c : StatusCache T :=
  if MAX_CACHE_ENTRIES <? Z.of_nat (size (roots c)) then
    match min_root c with
    | Some min =>
        mkStatusCache (filter (λ e, min < e.2.1.1) (cache c)) (roots c ∖ {[ min ]})
          (filter (λ e, min < e.1) (slot_deltas c))
    | None => c
    end
  else c.

Definition add_root c (fork : Slot) : StatusCache T :=
  purge_roots (mkStatusCache (cache c) ({[ fork ]} ∪ roots c) (slot_deltas c)).

(** ** Insertion *)

Definition add_to_slot_delta c (transaction_blockhash : Hash) (slot : Slot) (key_index : Z)
    (key_slice : KeySlice) (res : T) : StatusCache T :=
  let fork_entry := default ∅ (slot_deltas c !! slot) in
  let '(index, hash_entry) := default (key_index, []) (fork_entry !! transaction_blockhash) in
  let fork_entry :=
    <[ transaction_blockhash := (index, hash_entry ++ [(key_slice, res)]) ]> fork_entry in
  mkStatusCache (cache c) (roots c) (<[ slot := fork_entry ]> (slot_deltas c)).

(** Pushes a status to the entry of a blockhash in the cache. *)
Definition push_status c (transaction_blockhash : Hash) (max_slot : Slot) (key_index : Z)
    (hash_map : KeyMap T) (key_slice : KeySlice) (slot : Slot) (res : T) : StatusCache T :=
  let forks := default [] (hash_map !! key_slice) in
  let hash_map := <[ key_slice := forks ++ [(slot, res)] ]> hash_map in
  mkStatusCache (<[ transaction_blockhash := (max_slot, key_index, hash_map) ]> (cache c))
    (roots c) (slot_deltas c).

(** [insert]; [draw] is [thread_rng().gen_range(0..max_key_index + 1)]. *)
Definition insert c (transaction_blockhash : Hash) (key : list Z) (slot : Slot) (res : T)
    (draw : Z) : outcome (StatusCache T) :=
  let max_key_index := max_key_index key in
  let '(max_slot, key_index, hash_map) :=
    default (slot, draw, ∅) (cache c !! transaction_blockhash) in
  let max_slot := Z.max slot max_slot in
  let index := Z.min key_index max_key_index in
  key_slice ← slice_at key index;
  let c := push_status c transaction_blockhash max_slot key_index hash_map key_slice slot res in
  Ret (add_to_slot_delta c transaction_blockhash slot index key_slice res).

Definition insert_with_slice c (transaction_blockhash : Hash) (slot : Slot) (key_index : Z)
    (key_slice : KeySlice) (res : T) : StatusCache T :=
  let '(max_slot, index, hash_map) :=
    default (slot, key_index, ∅) (cache c !! transaction_blockhash) in
  let max_slot := Z.max slot max_slot in
  let c := push_status c transaction_blockhash max_slot index hash_map key_slice slot res in
  add_to_slot_delta c transaction_blockhash slot key_index key_slice res.

(** ** Snapshots *)

(** [clear], for testing. *)
Definition clear c : StatusCache T :=
  mkStatusCache ((λ '(max_slot, key_index, _), (max_slot, key_index, ∅)) <$> cache c) (roots c)
    ((λ _, ∅) <$> slot_deltas c).

Definition root_slot_deltas c : list (SlotDelta T) :=
  (λ root, (root, true, default ∅ (slot_deltas c !! root))) <$> elements (roots c).

(** The statuses of one blockhash of a slot, in [append]. *)
Definition append_blockhash (slot : Slot) (entry : Hash * (Z * list (KeySlice * T)))
    c : StatusCache T :=
  let '(tx_hash, (key_index, statuses)) := entry in
  foldl (λ c '(key_slice, res), insert_with_slice c tx_hash slot key_index key_slice res)
    c statuses.

Definition append_delta c (delta : SlotDelta T) : StatusCache T :=
  let '(slot, is_root, statuses) := delta in
  let c := foldl (λ c entry, append_blockhash slot entry c) c (map_to_list statuses) in
  if is_root : bool then add_root c slot else c.

Definition append c (deltas : list (SlotDelta T)) : StatusCache T := foldl append_delta c deltas.

Definition from_slot_deltas (deltas : list (SlotDelta T)) : StatusCache T := append default_ deltas.

End cache.
End Cache.
