(* ===== verification/StatusCacheProps.v ===== *)
(** Properties of the status cache.

    [forks_of] and [delta_of] are the two views of the cache: the statuses of a
    key slice, over all slots, and the statuses of a slot, over all keys.
    [wf_cache] is the invariant every operation keeps: what is recorded for a
    slot is recorded for its key.  The sections after it are removal of a slot,
    with the exact condition under which [clear_slot_entries] does not panic;
    what a root forgets; and the round trip of the cache through a snapshot. *)
From S2P Require Import Prelude RollingBitField RollingBitFieldProps StatusCache.
Import Cache.

Section props.
Context `{!ClockConstants, !ClockLaws} {T : Type}.
Implicit Types (c : StatusCache T) (b : Hash) (s : Slot) (sl : KeySlice) (k : KeySlice * T).

(** * Views *)

Definition forks_in (km : KeyMap T) sl : list (Slot * T) := default [] (km !! sl).

Definition forks_at (ch : KeyStatusMap T) b sl : list (Slot * T) :=
  match ch !! b with Some (_, _, km) => forks_in km sl | None => [] end.

Definition forks_of c b sl : list (Slot * T) := forks_at (cache c) b sl.

Definition delta_in (st : Status T) b : list (KeySlice * T) :=
  match st !! b with Some (_, l) => l | None => [] end.

Definition delta_of c s b : list (KeySlice * T) := delta_in (default ∅ (slot_deltas c !! s)) b.

Record wf_cache c : Prop := {
  wf_forks b mx ki km sl fs : cache c !! b = Some (mx, ki, km) → km !! sl = Some fs →
    fs ≠ [] ∧ ∀ e, e ∈ fs → e.1 ≤ mx;
  wf_deltas s st b i l : slot_deltas c !! s = Some st → st !! b = Some (i, l) → l ≠ [];
  wf_agree s b sl t : (sl, t) ∈ delta_of c s b → (s, t) ∈ forks_of c b sl;
  wf_index b mx ki km : cache c !! b = Some (mx, ki, km) → 0 ≤ ki;
  wf_roots : Z.of_nat (size (roots c)) ≤ MAX_CACHE_ENTRIES;
}.

(** A blockhash of a slot is in the cache. *)
Lemma wf_delta_cache c s st b i l :
  wf_cache c → slot_deltas c !! s = Some st → st !! b = Some (i, l) → is_Some (cache c !! b).
Proof.
  intros Hwf Hst Hb. destruct l as [|[sl t] l]; [by destruct (wf_deltas c Hwf s st b i [])|].
  assert ((s, t) ∈ forks_of c b sl) as Hin.
  { apply (wf_agree c Hwf). unfold delta_of, delta_in. rewrite Hst. cbn. rewrite Hb. left. }
  unfold forks_of, forks_at in Hin. destruct (cache c !! b); [done|set_solver].
Qed.

Lemma default_wf : wf_cache default_.
Proof.
  constructor; cbn [cache roots slot_deltas default_].
  - intros ??????. rewrite lookup_empty. done.
  - intros ?????. rewrite lookup_empty. done.
  - intros ????. unfold delta_of, delta_in. cbn [slot_deltas default_].
    rewrite lookup_empty. cbn. rewrite lookup_empty. set_solver.
  - intros ????. by rewrite lookup_empty.
  - rewrite size_singleton. unfold MAX_CACHE_ENTRIES.
    pose proof processing_age_lt. pose proof processing_age_nonneg. lia.
Qed.

(** * Insertion *)

(** What [insert] and [insert_with_slice] share: the entry of the blockhash, new
    with offset [ki] if it is not there, gets the status, and so does the slot,
    with offset [di] if it is new there. *)
Definition put c b s ki di sl (t : T) : StatusCache T :=
  let '(max_slot, index, hash_map) := default (s, ki, ∅) (cache c !! b) in
  add_to_slot_delta (push_status c b (Z.max s max_slot) index hash_map sl s t) b s di sl t.

(** The offset a blockhash has, or gets from [draw]. *)
Definition index_of c b (draw : Z) : Z :=
  match cache c !! b with Some (_, ki, _) => ki | None => draw end.

Lemma insert_put c b key s t draw :
  insert c b key s t draw =
  (let index := Z.min (index_of c b draw) (max_key_index key) in
   sl ← slice_at key index; Ret (put c b s draw index sl t)).
Proof.
  unfold insert, put, index_of. by destruct (cache c !! b) as [[[mx ki] km]|].
Qed.

Lemma insert_with_slice_put c b s ki sl t :
  insert_with_slice c b s ki sl t = put c b s ki ki sl t.
Proof. unfold insert_with_slice, put. by destruct (cache c !! b) as [[[mx i] km]|]. Qed.

Lemma slice_at_Ret key ki :
  (20 ≤ length key)%nat → 0 ≤ ki →
  slice_at key (Z.min ki (max_key_index key)) =
  Ret (take 20 (drop (Z.to_nat (Z.min ki (max_key_index key))) key)).
Proof.
  intros Hlen Hki. unfold slice_at, max_key_index, saturating_sub, CACHED_KEY_SIZE.
  by rewrite (proj2 (Z.leb_le _ _)) by lia.
Qed.

Lemma put_cache c b s ki di sl t :
  cache (put c b s ki di sl t) =
  <[ b := (match cache c !! b with Some (mx, _, _) => Z.max s mx | None => s end, index_of c b ki,
           <[ sl := forks_of c b sl ++ [(s, t)] ]>
             match cache c !! b with Some (_, _, km) => km | None => ∅ end) ]> (cache c).
Proof.
  unfold put, index_of, forks_of, forks_at, add_to_slot_delta, push_status.
  destruct (cache c !! b) as [[[mx i] km]|] eqn:E; cbn; destruct (default _ _ : _ * _); cbn.
  - done.
  - by rewrite Z.max_id, lookup_empty.
Qed.

Lemma put_roots c b s ki di sl t : roots (put c b s ki di sl t) = roots c.
Proof.
  unfold put, add_to_slot_delta, push_status.
  destruct (cache c !! b) as [[[mx i] km]|]; cbn; by destruct (default _ _ : _ * _).
Qed.

Lemma put_deltas c b s ki di sl t :
  slot_deltas (put c b s ki di sl t) =
  <[ s := <[ b := (default di (fst <$> (default ∅ (slot_deltas c !! s) !! b)),
                   delta_of c s b ++ [(sl, t)]) ]> (default ∅ (slot_deltas c !! s)) ]>
    (slot_deltas c).
Proof.
  unfold put, add_to_slot_delta, push_status, delta_of, delta_in.
  destruct (cache c !! b) as [[[mx i] km]|]; cbn;
    by destruct (default ∅ (slot_deltas c !! s) !! b) as [[]|].
Qed.

Lemma put_forks_of c b s ki di sl t b' sl' :
  forks_of (put c b s ki di sl t) b' sl' =
  forks_of c b' sl' ++ if decide (b' = b ∧ sl' = sl) then [(s, t)] else [].
Proof.
  unfold forks_of at 1, forks_at at 1. rewrite put_cache.
  destruct (decide (b' = b)) as [->|Hne].
  - rewrite lookup_insert_eq. unfold forks_in at 1.
    destruct (decide (sl' = sl)) as [->|Hne].
    + rewrite lookup_insert_eq, decide_True by done. done.
    + rewrite lookup_insert_ne, decide_False, app_nil_r by (done || naive_solver).
      unfold forks_of, forks_at, forks_in. destruct (cache c !! b) as [[[mx i] km]|]; [done|].
      by rewrite lookup_empty.
  - rewrite lookup_insert_ne, decide_False, app_nil_r by (done || naive_solver). done.
Qed.

Lemma put_delta_of c b s ki di sl t s' b' :
  delta_of (put c b s ki di sl t) s' b' =
  delta_of c s' b' ++ if decide (s' = s ∧ b' = b) then [(sl, t)] else [].
Proof.
  unfold delta_of at 1. rewrite put_deltas.
  destruct (decide (s' = s)) as [->|Hne].
  - rewrite lookup_insert_eq. cbn. unfold delta_in. destruct (decide (b' = b)) as [->|Hne].
    + rewrite lookup_insert_eq, decide_True by done. done.
    + by rewrite lookup_insert_ne, decide_False, app_nil_r by (done || naive_solver).
  - by rewrite lookup_insert_ne, decide_False, app_nil_r by (done || naive_solver).
Qed.

Lemma put_wf c b s ki di sl t : wf_cache c → 0 ≤ ki → wf_cache (put c b s ki di sl t).
Proof.
  intros Hwf Hki. constructor.
  - intros b' mx ki' km sl' fs. rewrite put_cache. intros Hc Hfs.
    destruct (decide (b' = b)) as [->|Hne];
      [|rewrite lookup_insert_ne in Hc by done; by eapply wf_forks].
    rewrite lookup_insert_eq in Hc. simplify_eq. unfold forks_of, forks_at, forks_in in Hfs.
    destruct (cache c !! b) as [[[mx i] km]|] eqn:E.
    + destruct (decide (sl' = sl)) as [->|Hne].
      * rewrite lookup_insert_eq in Hfs. simplify_eq. split; [by destruct (default _ _)|].
        intros e [He|He%list_elem_of_singleton]%elem_of_app; [|subst; cbn; lia].
        destruct (km !! sl) as [fs|] eqn:Ekm; cbn in He; [|set_solver].
        destruct (wf_forks c Hwf b mx i km sl fs E Ekm) as [_ Hle]. specialize (Hle e He). lia.
      * rewrite lookup_insert_ne in Hfs by done.
        destruct (wf_forks c Hwf b mx i km sl' fs E Hfs) as [? Hle]. split; [done|].
        intros e He. specialize (Hle e He). lia.
    + destruct (decide (sl' = sl)) as [->|Hne]; [|by rewrite lookup_insert_ne in Hfs].
      rewrite lookup_insert_eq in Hfs. simplify_eq. split; [done|].
      intros e ->%list_elem_of_singleton. cbn. lia.
  - intros s' st b' i l. rewrite put_deltas. intros Hst Hl.
    destruct (decide (s' = s)) as [->|]; [|rewrite lookup_insert_ne in Hst by done; by eapply wf_deltas].
    rewrite lookup_insert_eq in Hst. simplify_eq.
    destruct (decide (b' = b)) as [->|]; [rewrite lookup_insert_eq in Hl|rewrite lookup_insert_ne in Hl by done].
    + simplify_eq. by destruct (delta_of c s b).
    + destruct (slot_deltas c !! s) as [st|] eqn:E; [|done]. by eapply wf_deltas.
  - intros s' b' sl' t'. rewrite put_delta_of, put_forks_of, !elem_of_app.
    intros [Hin|Hin]; [left; by eapply wf_agree|right]. case_decide as Hd; [|set_solver].
    destruct Hd as [-> ->]. apply list_elem_of_singleton in Hin as [= -> ->].
    rewrite decide_True by done. set_solver.
  - intros b' mx ki' km. rewrite put_cache. intros [[<- [= _ <- _]]|[_ Hb]]%lookup_insert_Some.
    + unfold index_of. destruct (cache c !! b) as [[[]]|] eqn:E; [by eapply wf_index|done].
    + by eapply wf_index.
  - rewrite put_roots. apply Hwf.
Qed.

(** * Removing a slot *)

(** What is left of a list of statuses without those of slot [s]. *)
Definition without s (fs : list (Slot * T)) : list (Slot * T) := filter (λ e, e.1 ≠ s) fs.

Lemma without_idemp s fs : without s (without s fs) = without s fs.
Proof. apply list_filter_all_in. intros e [He _]%list_elem_of_filter. done. Qed.

(** The keys of a slot can be removed one after the other if each of them is in
    the map, and one that is listed twice keeps a status of another slot. *)
Definition clearable s (kl : list KeySlice) (km : KeyMap T) : Prop :=
  (∀ sl, sl ∈ kl → is_Some (km !! sl)) ∧ ∀ sl, 2 ≤ cnt kl sl → without s (forks_in km sl) ≠ [].

Lemma clearable_Forall s kl km :
  clearable s kl km ↔
  Forall (λ sl, is_Some (km !! sl) ∧ (2 ≤ cnt kl sl → without s (forks_in km sl) ≠ [])) kl.
Proof.
  rewrite Forall_forall. split.
  - intros [Hin Htwo] sl Hsl. split; [by apply Hin|apply Htwo].
  - intros Hall. split; [intros sl Hsl; by apply Hall|].
    intros sl Hsl. apply Hall; [|done]. apply cnt_pos. lia.
Qed.

#[local] Instance clearable_dec s kl km : Decision (clearable s kl km).
Proof.
  destruct (decide (Forall (λ sl, is_Some (km !! sl) ∧
    (2 ≤ cnt kl sl → without s (forks_in km sl) ≠ [])) kl)) as [H1|H1].
  - left. by apply clearable_Forall.
  - right. by rewrite clearable_Forall.
Defined.

Lemma clear_key_Some s k km fs :
  km !! k.1 = Some fs →
  ∃ km', clear_key s k km = Ret km' ∧
    (is_Some (km' !! k.1) ↔ without s fs ≠ []) ∧
    (∀ sl, sl ≠ k.1 → km' !! sl = km !! sl) ∧
    (∀ sl, forks_in km' sl = if decide (sl = k.1) then without s fs else forks_in km sl) ∧
    (∀ sl fs', km' !! sl = Some fs' → sl = k.1 ∧ fs' = without s fs ∧ fs' ≠ [] ∨ km !! sl = Some fs').
Proof.
  intros Hk. unfold clear_key. rewrite Hk. eexists. split; [done|].
  fold (without s fs). unfold forks_in. case_bool_decide as Hnil.
  - rewrite lookup_delete_eq. split_and!.
    + rewrite Hnil. split; [by intros []|done].
    + intros sl Hne. by rewrite lookup_delete_ne.
    + intros sl. case_decide as Hd; [subst; by rewrite lookup_delete_eq|by rewrite lookup_delete_ne].
    + intros sl fs' Hsl. right. apply lookup_delete_Some in Hsl. tauto.
  - rewrite lookup_insert_eq. split_and!.
    + split; [done|eauto].
    + intros sl Hne. by rewrite lookup_insert_ne.
    + intros sl. case_decide as Hd; [subst; by rewrite lookup_insert_eq|by rewrite lookup_insert_ne].
    + intros sl fs' [[<- <-]|[_ ?]]%lookup_insert_Some; [by left|by right].
Qed.

Lemma clearable_step s k kl km km' fs :
  km !! k.1 = Some fs → (is_Some (km' !! k.1) ↔ without s fs ≠ []) →
  (∀ sl, sl ≠ k.1 → km' !! sl = km !! sl) →
  (∀ sl, forks_in km' sl = if decide (sl = k.1) then without s fs else forks_in km sl) →
  clearable s (k.1 :: kl) km ↔ clearable s kl km'.
Proof.
  intros Hk Hsome Hother Hforks.
  assert (∀ sl, without s (forks_in km' sl) = without s (forks_in km sl)) as Hsame.
  { intros sl. rewrite Hforks. case_decide as Hd; [|done]. subst. rewrite without_idemp.
    unfold forks_in. by rewrite Hk. }
  assert (without s (forks_in km k.1) = without s fs) as Hfk by (unfold forks_in; by rewrite Hk).
  unfold clearable. setoid_rewrite Hsame. setoid_rewrite cnt_cons. split; intros [Hin Htwo]; split.
  - intros sl Hsl. destruct (decide (sl = k.1)) as [->|Hne].
    + apply Hsome. rewrite <-Hfk. apply Htwo. rewrite decide_True by done.
      apply cnt_pos in Hsl. lia.
    + rewrite Hother by done. apply Hin. by right.
  - intros sl Hsl. apply Htwo. case_decide; lia.
  - intros sl Hsl. destruct (decide (sl = k.1)) as [->|Hne]; [by rewrite Hk|].
    apply elem_of_cons in Hsl as [->|Hsl]; [done|]. rewrite <-Hother by done. by apply Hin.
  - intros sl Hsl. case_decide as Hd; [subst|by apply Htwo; lia].
    rewrite Hfk. apply Hsome, Hin, cnt_pos. lia.
Qed.

(** The loop over the keys of a blockhash returns exactly for a clearable map. *)
Lemma clear_keys_spec s kl km :
  (clearable s kl.*1 km → ∃ km', for_each (clear_key s) kl km = Ret km' ∧
    (∀ sl, forks_in km' sl = if decide (sl ∈ kl.*1) then without s (forks_in km sl) else forks_in km sl) ∧
    (∀ sl fs, km' !! sl = Some fs → (∀ fs, km !! sl = Some fs → fs ≠ []) → fs ≠ [] ∧
      fs ⊆ forks_in km sl)) ∧
  (¬ clearable s kl.*1 km → for_each (clear_key s) kl km = Panic).
Proof.
  revert km. induction kl as [|k kl IH]; intros km; cbn [for_each fmap list_fmap].
  { split.
    - intros _. exists km. split_and!; [done|done|]. intros sl fs Hsl Hne. split; [by apply Hne|].
      unfold forks_in. by rewrite Hsl.
    - intros []. split; [set_solver|]. intros sl. unfold cnt. cbn. lia. }
  destruct (km !! k.1) as [fs|] eqn:Hk.
  2:{ split; [|unfold clear_key; by rewrite Hk].
      intros [Hin _]. destruct (Hin k.1 ltac:(left)). congruence. }
  destruct (clear_key_Some s k km fs Hk) as (km1 & -> & Hsome & Hother & Hforks & Hsub).
  rewrite bind_Ret_l. destruct (IH km1) as [IHok IHno].
  pose proof (clearable_step s k kl.*1 km km1 fs Hk Hsome Hother Hforks) as Hiff.
  split; [|intros Hnot; apply IHno; tauto].
  intros Hc%Hiff. destruct (IHok Hc) as (km' & -> & Hf' & Hs'). exists km'. split_and!; [done| |].
  - intros sl. rewrite Hf', Hforks.
    destruct (decide (sl = k.1)) as [->|Hne].
    + rewrite (decide_True (P := k.1 ∈ k.1 :: kl.*1)), without_idemp by left.
      unfold forks_in. rewrite Hk. by case_decide.
    + destruct (decide (sl ∈ kl.*1)) as [Hin|Hin];
        [rewrite decide_True by (by right)|rewrite decide_False by set_solver]; done.
  - intros sl fs' Hsl Hne. destruct (Hs' sl fs' Hsl) as [? Hsubs].
    { intros fs1 Hfs1. destruct (Hsub sl fs1 Hfs1) as [(_ & _ & ?)|]; eauto. }
    split; [done|]. intros e He. specialize (Hsubs e He). rewrite Hforks in Hsubs.
    case_decide; [subst|done]. unfold forks_in. rewrite Hk. cbn.
    unfold without in Hsubs. apply list_elem_of_filter in Hsubs. tauto.
Qed.

(** One cache after the statuses of slot [s] with keys [kl] were removed. *)
Definition swept s b (kl : list KeySlice) (ch ch' : KeyStatusMap T) : Prop :=
  (∀ sl, forks_at ch' b sl =
    if decide (sl ∈ kl) then without s (forks_at ch b sl) else forks_at ch b sl) ∧
  (∀ mx ki km', ch' !! b = Some (mx, ki, km') → ∃ km, ch !! b = Some (mx, ki, km) ∧
    ∀ sl fs, km' !! sl = Some fs → (∀ fs, km !! sl = Some fs → fs ≠ []) →
      fs ≠ [] ∧ fs ⊆ forks_in km sl).

Definition clearable_at s b (kl : list KeySlice) (ch : KeyStatusMap T) : Prop :=
  ∃ mx ki km, ch !! b = Some (mx, ki, km) ∧ clearable s kl km.

#[local] Instance clearable_at_dec s b kl ch : Decision (clearable_at s b kl ch).
Proof.
  unfold clearable_at. destruct (ch !! b) as [[[mx ki] km]|].
  - destruct (decide (clearable s kl km)); [left; eauto|].
    right. by intros (? & ? & ? & [= <- <- <-] & ?).
  - right. by intros (? & ? & ? & ? & _).
Defined.

Lemma clear_blockhash_spec s b i kl ch :
  (clearable_at s b kl.*1 ch → ∃ ch', clear_blockhash s (b, (i, kl)) ch = Ret ch' ∧
    swept s b kl.*1 ch ch' ∧ ∀ b', b' ≠ b → ch' !! b' = ch !! b') ∧
  (¬ clearable_at s b kl.*1 ch → clear_blockhash s (b, (i, kl)) ch = Panic).
Proof.
  unfold clear_blockhash, clearable_at. destruct (ch !! b) as [[[mx ki] km]|] eqn:E.
  2:{ split; [by intros (? & ? & ? & ? & _)|done]. }
  destruct (clear_keys_spec s kl km) as [Hok Hno]. split.
  2:{ intros Hnot. rewrite Hno; [done|]. intros Hc. apply Hnot. eauto. }
  intros (? & ? & ? & [= <- <- <-] & Hc). destruct (Hok Hc) as (km' & -> & Hf & Hs).
  rewrite bind_Ret_l. eexists. split; [done|]. unfold swept, forks_at. rewrite E.
  case_bool_decide as Hsize.
  - apply map_size_empty_iff in Hsize. subst. split_and!.
    + intros sl. specialize (Hf sl). unfold forks_in in Hf at 1. rewrite lookup_empty in Hf.
      by rewrite lookup_delete_eq.
    + intros ???. by rewrite lookup_delete_eq.
    + intros b' Hne. by rewrite lookup_delete_ne.
  - rewrite lookup_insert_eq. split_and!; [done| |].
    + intros ??? [= <- <- <-]. eauto.
    + intros b' Hne. by rewrite lookup_insert_ne.
Qed.

Lemma clear_blockhashes_spec s l ch :
  NoDup l.*1 →
  (Forall (λ e, clearable_at s e.1 e.2.2.*1 ch) l →
    ∃ ch', for_each (clear_blockhash s) l ch = Ret ch' ∧
      Forall (λ e, swept s e.1 e.2.2.*1 ch ch') l ∧ ∀ b, b ∉ l.*1 → ch' !! b = ch !! b) ∧
  (¬ Forall (λ e, clearable_at s e.1 e.2.2.*1 ch) l → for_each (clear_blockhash s) l ch = Panic).
Proof.
  revert ch. induction l as [|[b [i kl]] l IH]; intros ch Hnd; cbn [for_each].
  { split; [|by intros []]. intros _. by exists ch. }
  rewrite fmap_cons in Hnd. apply NoDup_cons in Hnd as [Hb Hnd]. cbn [fst] in Hb.
  destruct (clear_blockhash_spec s b i kl ch) as [Hok Hno]. rewrite Forall_cons. cbn [fst snd].
  split.
  - intros [Hc Hl]. destruct (Hok Hc) as (ch1 & -> & Hsw & Hother). rewrite bind_Ret_l.
    assert (∀ e, e ∈ l → ch1 !! e.1 = ch !! e.1) as Hsame.
    { intros e He. apply Hother. intros <-. apply Hb. by apply list_elem_of_fmap_2. }
    destruct (IH ch1 Hnd) as [IHok _]. destruct IHok as (ch' & -> & Hf & Hrest).
    { rewrite Forall_forall in Hl |- *. intros e He. unfold clearable_at. rewrite Hsame by done.
      by apply Hl. }
    exists ch'. split_and!; [done| |].
    + rewrite Forall_cons. cbn [fst snd]. split.
      * unfold swept, forks_at in *. by rewrite (Hrest b).
      * rewrite Forall_forall in Hf |- *. intros e He. specialize (Hf e He). cbn beta in *.
        unfold swept, forks_at in *. by rewrite <-(Hsame e).
    + intros b' Hb'. rewrite fmap_cons in Hb'. cbn [fst] in Hb'. rewrite Hrest, Hother by set_solver. done.
  - intros Hnot. destruct (decide (clearable_at s b kl.*1 ch)) as [Hc|Hc]; [|by rewrite Hno].
    destruct (Hok Hc) as (ch1 & -> & _ & Hother). rewrite bind_Ret_l.
    apply (IH ch1 Hnd). intros Hl. apply Hnot. split; [done|].
    rewrite Forall_forall in Hl |- *. intros e He. specialize (Hl e He).
    unfold clearable_at in *. rewrite Hother in Hl; [done|].
    intros <-. apply Hb. by apply list_elem_of_fmap_2.
Qed.

(** The condition of [clear_slot_entries], on the views. *)
Definition slot_clearable c s : Prop :=
  ∀ b sl, 2 ≤ cnt (delta_of c s b).*1 sl → ∃ e, e ∈ forks_of c b sl ∧ e.1 ≠ s.

Lemma without_nonempty s fs : without s fs ≠ [] ↔ ∃ e, e ∈ fs ∧ e.1 ≠ s.
Proof.
  split.
  - intros Hne. destruct (without s fs) as [|e l] eqn:E; [done|]. exists e.
    assert (e ∈ without s fs) as He by (rewrite E; left).
    apply list_elem_of_filter in He. tauto.
  - intros (e & He & Hs) Hnil. assert (e ∈ without s fs) as Hin by (by apply list_elem_of_filter).
    rewrite Hnil in Hin. set_solver.
Qed.

Lemma slot_clearable_iff c s st :
  wf_cache c → slot_deltas c !! s = Some st →
  slot_clearable c s ↔ Forall (λ e, clearable_at s e.1 e.2.2.*1 (cache c)) (map_to_list st).
Proof.
  intros Hwf Hst. unfold slot_clearable, delta_of. rewrite Hst. cbn [default from_option id].
  rewrite Forall_forall. split.
  - intros Hall [b [i kl]] He%elem_of_map_to_list. cbn [fst snd].
    assert (delta_in st b = kl) as Hd by (unfold delta_in; by rewrite He).
    assert (∀ sl, sl ∈ kl.*1 → ∃ t, (s, t) ∈ forks_of c b sl) as Hagree.
    { intros sl ([? t] & -> & Ht)%list_elem_of_fmap. exists t. eapply wf_agree; [done|].
      unfold delta_of. rewrite Hst. cbn. by rewrite Hd. }
    destruct (wf_delta_cache c s st b i kl Hwf Hst He) as [[[mx ki] km] Hb].
    exists mx, ki, km. split; [done|].
    unfold forks_of, forks_at in Hagree, Hall. split.
    + intros sl Hsl. destruct (Hagree sl Hsl) as [t Ht]. rewrite Hb in Ht. unfold forks_in in Ht.
      destruct (km !! sl); [done|set_solver].
    + intros sl Hsl. rewrite <-Hd in Hsl. specialize (Hall b sl Hsl). rewrite Hb in Hall.
      by apply without_nonempty.
  - intros Hall b sl Hsl. unfold delta_in in Hsl.
    destruct (st !! b) as [[i kl]|] eqn:Hb; [|unfold cnt in Hsl; cbn in Hsl; lia].
    destruct (Hall (b, (i, kl))) as (mx & ki & km & Hkm & Hc); [by apply elem_of_map_to_list|].
    apply without_nonempty. unfold forks_of, forks_at. cbn [fst] in Hkm. rewrite Hkm. by apply Hc.
Qed.

(** The cache after the loop, for every blockhash. *)
Lemma swept_all c s st ch :
  wf_cache c → slot_deltas c !! s = Some st →
  Forall (λ e, swept s e.1 e.2.2.*1 (cache c) ch) (map_to_list st) →
  (∀ b, b ∉ (map_to_list st).*1 → ch !! b = cache c !! b) →
  ∀ b, swept s b (delta_of c s b).*1 (cache c) ch.
Proof.
  intros Hwf Hst Hsw Hrest b. rewrite Forall_forall in Hsw.
  unfold delta_of, delta_in. rewrite Hst. cbn [default from_option id].
  destruct (st !! b) as [[i kl]|] eqn:Hb.
  - apply (Hsw (b, (i, kl))). by apply elem_of_map_to_list.
  - assert (ch !! b = cache c !! b) as Hsame.
    { apply Hrest. intros ([? p] & -> & Hp%elem_of_map_to_list)%list_elem_of_fmap.
      cbn in Hb. congruence. }
    split.
    + intros sl. rewrite decide_False by set_solver. unfold forks_at. by rewrite Hsame.
    + intros mx ki km Hkm. rewrite Hsame in Hkm. exists km. split; [done|].
      intros sl fs Hfs Hne. split; [by apply Hne|]. unfold forks_in. by rewrite Hfs.
Qed.

Lemma delta_of_delete c s ch r s' b :
  s' ≠ s → delta_of (mkStatusCache ch r (delete s (slot_deltas c))) s' b = delta_of c s' b.
Proof. intros Hne. unfold delta_of. cbn [slot_deltas]. by rewrite lookup_delete_ne. Qed.

Lemma swept_wf c s ch :
  wf_cache c → (∀ b, swept s b (delta_of c s b).*1 (cache c) ch) →
  wf_cache (mkStatusCache ch (roots c) (delete s (slot_deltas c))).
Proof.
  intros Hwf Hsw. constructor; cbn [cache roots slot_deltas].
  - intros b mx ki km' sl fs Hkm Hfs. destruct (Hsw b) as [_ Hb].
    destruct (Hb mx ki km' Hkm) as (km & Hc & Hsub).
    destruct (Hsub sl fs Hfs) as [? Hin].
    { intros fs' Hfs'. by eapply wf_forks. }
    split; [done|]. intros e He. specialize (Hin e He). unfold forks_in in Hin.
    destruct (km !! sl) as [fs'|] eqn:E; [|cbn in Hin; set_solver].
    by eapply (wf_forks c Hwf).
  - intros s' st b i l Hst. apply lookup_delete_Some in Hst as [_ Hst]. by eapply wf_deltas.
  - intros s' b sl t Hin. destruct (decide (s' = s)) as [->|Hne].
    { unfold delta_of, delta_in in Hin. cbn [slot_deltas] in Hin.
      rewrite lookup_delete_eq in Hin. cbn in Hin. rewrite lookup_empty in Hin. set_solver. }
    rewrite delta_of_delete in Hin by done. apply (wf_agree c Hwf) in Hin.
    unfold forks_of in *. cbn [cache]. destruct (Hsw b) as [-> _].
    case_decide; [|done]. by apply list_elem_of_filter.
  - intros b mx ki km' Hkm. destruct (Hsw b) as [_ Hb]. destruct (Hb mx ki km' Hkm) as (km & Hc & _).
    by eapply wf_index.
  - apply Hwf.
Qed.

(** [clear_slot_entries] removes the statuses of the slot from the keys it
    recorded for it, and panics if a key slice was recorded twice for the slot
    and is recorded for no other slot. *)
Lemma clear_slot_entries_spec c s :
  wf_cache c →
  (slot_clearable c s → ∃ c', clear_slot_entries c s = Ret c' ∧ wf_cache c' ∧
    roots c' = roots c ∧ slot_deltas c' = delete s (slot_deltas c) ∧
    (∀ b sl, forks_of c' b sl = if decide (sl ∈ (delta_of c s b).*1)
       then without s (forks_of c b sl) else forks_of c b sl) ∧
    (∀ b mx ki km', cache c' !! b = Some (mx, ki, km') → ∃ km, cache c !! b = Some (mx, ki, km))) ∧
  (¬ slot_clearable c s → clear_slot_entries c s = Panic).
Proof.
  intros Hwf. unfold clear_slot_entries. destruct (slot_deltas c !! s) as [st|] eqn:Hst.
  2:{ assert (∀ b, delta_of c s b = []) as Hd.
      { intros b. unfold delta_of, delta_in. rewrite Hst. cbn. by rewrite lookup_empty. }
      split.
      - intros _. exists c. split_and!; [done..| | |eauto].
        + by rewrite delete_id.
        + intros b sl. rewrite Hd. rewrite decide_False by set_solver. done.
      - intros []. intros b sl. rewrite Hd. unfold cnt. cbn. lia. }
  rewrite (slot_clearable_iff c s st Hwf Hst).
  destruct (clear_blockhashes_spec s (map_to_list st) (cache c)) as [Hok Hno];
    [apply NoDup_fst_map_to_list|]. split; [|intros; by rewrite Hno].
  intros Hc. destruct (Hok Hc) as (ch & -> & Hsw & Hrest). rewrite bind_Ret_l.
  eexists. split; [done|].
  pose proof (swept_all c s st ch Hwf Hst Hsw Hrest) as Hall.
  split_and!; [by apply swept_wf|done|done| |].
  - intros b sl. apply Hall.
  - intros b mx ki km' Hkm. destruct (Hall b) as [_ Hb].
    destruct (Hb mx ki km' Hkm) as (km & ? & _). eauto.
Qed.

Lemma clear_Ret_inv c s c' :
  wf_cache c → clear_slot_entries c s = Ret c' →
  slot_clearable c s ∧ wf_cache c' ∧
    roots c' = roots c ∧ slot_deltas c' = delete s (slot_deltas c) ∧
    (∀ b sl, forks_of c' b sl = if decide (sl ∈ (delta_of c s b).*1)
       then without s (forks_of c b sl) else forks_of c b sl) ∧
    (∀ b mx ki km', cache c' !! b = Some (mx, ki, km') → ∃ km, cache c !! b = Some (mx, ki, km)).
Proof.
  intros Hwf Hc. destruct (clear_slot_entries_spec c s Hwf) as [Hok Hno].
  assert (slot_clearable c s ∨ ¬ slot_clearable c s) as [Hcl|Hcl].
  { destruct (slot_deltas c !! s) as [st|] eqn:Hst.
    - rewrite (slot_clearable_iff c s st Hwf Hst).
      destruct (decide (Forall (λ e, clearable_at s e.1 e.2.2.*1 (cache c)) (map_to_list st))); auto.
    - left. intros b sl. unfold delta_of, delta_in. rewrite Hst. cbn. rewrite lookup_empty.
      unfold cnt. cbn. lia. }
  - split; [done|]. destruct (Hok Hcl) as (c1 & Hc1 & Hrest). rewrite Hc1 in Hc. by simplify_eq.
  - rewrite Hno in Hc by done. done.
Qed.

(** * Roots *)

Lemma min_root_spec c :
  match min_root c with
  | None => roots c = ∅
  | Some m => m ∈ roots c ∧ ∀ x, x ∈ roots c → m ≤ x
  end.
Proof.
  unfold min_root. pose proof (minimum_spec (elements (roots c))) as Hm.
  destruct (Field.minimum _) as [m|].
  - rewrite elem_of_elements in Hm. setoid_rewrite elem_of_elements in Hm. done.
  - by apply leibniz_equiv, elements_empty_inv.
Qed.

(** The cache that drops what is not above [m]. *)
Definition drop_to c (m : Slot) (rs : gset Slot) : StatusCache T :=
  mkStatusCache (filter (λ e, m < e.2.1.1) (cache c)) rs (filter (λ e, m < e.1) (slot_deltas c)).

(** Adding a root keeps everything, or, when the roots are too many, forgets
    the lowest of them and what is not above it. *)
Lemma add_root_cases c r :
  wf_cache c →
  add_root c r = mkStatusCache (cache c) ({[ r ]} ∪ roots c) (slot_deltas c) ∧
    Z.of_nat (size ({[ r ]} ∪ roots c)) ≤ MAX_CACHE_ENTRIES ∨
  ∃ m, m ∈ {[ r ]} ∪ roots c ∧ (∀ x, x ∈ {[ r ]} ∪ roots c → m ≤ x) ∧
    add_root c r = drop_to c m (({[ r ]} ∪ roots c) ∖ {[ m ]}) ∧
    Z.of_nat (size (({[ r ]} ∪ roots c) ∖ {[ m ]})) = MAX_CACHE_ENTRIES ∧ r ∉ roots c.
Proof.
  intros Hwf. pose proof (wf_roots c Hwf) as Hsz. unfold add_root, purge_roots. cbn [roots cache slot_deltas].
  destruct (Z.ltb_spec MAX_CACHE_ENTRIES (Z.of_nat (size ({[ r ]} ∪ roots c)))) as [Hlt|]; [|by left].
  right. pose proof (min_root_spec (mkStatusCache (cache c) ({[ r ]} ∪ roots c) (slot_deltas c))) as Hm.
  destruct (min_root _) as [m|]; [|cbn in Hm; set_solver]. cbn [roots] in Hm. destruct Hm as [Hin Hmin].
  exists m. split_and!; [done..| |].
  - pose proof (size_union_alt {[ r ]} (roots c)) as Hu. rewrite size_singleton in Hu.
    pose proof (subseteq_size (roots c ∖ {[ r ]}) (roots c) ltac:(set_solver)).
    pose proof (size_remove _ _ Hin). lia.
  - intros Hr. replace ({[ r ]} ∪ roots c) with (roots c) in Hlt by set_solver. lia.
Qed.

Lemma drop_to_forks_of c m rs b sl s :
  wf_cache c → m < s →
  filter (λ e, e.1 = s) (forks_of (drop_to c m rs) b sl) = filter (λ e, e.1 = s) (forks_of c b sl).
Proof.
  intros Hwf Hs. unfold forks_of, forks_at. cbn [cache drop_to]. rewrite map_lookup_filter.
  destruct (cache c !! b) as [[[mx ki] km]|] eqn:E; [|done].
  cbn [mbind option_bind fst snd]. case_guard as Hg; [done|]. cbn [mbind option_bind mfail option_mfail].
  symmetry. apply list_filter_none_in. intros e He. unfold forks_in in He.
  destruct (km !! sl) as [fs|] eqn:Ef; [|cbn in He; set_solver].
  destruct (wf_forks c Hwf b mx ki km sl fs E Ef) as [_ Hle]. specialize (Hle e He). lia.
Qed.

Lemma drop_to_delta_of c m rs s b :
  delta_of (drop_to c m rs) s b = if decide (m < s) then delta_of c s b else [].
Proof.
  unfold delta_of, delta_in. cbn [slot_deltas drop_to]. rewrite map_lookup_filter.
  destruct (slot_deltas c !! s) as [st|]; cbn [mbind option_bind fst snd].
  - case_decide; [by rewrite option_guard_True|by rewrite option_guard_False].
  - by case_decide.
Qed.

Lemma drop_to_wf c m rs :
  wf_cache c → Z.of_nat (size rs) ≤ MAX_CACHE_ENTRIES → wf_cache (drop_to c m rs).
Proof.
  intros Hwf Hsz. constructor; cbn [cache roots slot_deltas drop_to].
  - intros b mx ki km sl fs [Hc _]%map_lookup_filter_Some. by eapply wf_forks.
  - intros s st b i l [Hc _]%map_lookup_filter_Some. by eapply wf_deltas.
  - intros s b sl t. rewrite drop_to_delta_of. case_decide as Hs; [|set_solver].
    intros Hin%(wf_agree c Hwf).
    assert ((s, t) ∈ filter (λ e, e.1 = s) (forks_of c b sl)) as Hf by (by apply list_elem_of_filter).
    rewrite <-(drop_to_forks_of c m rs) in Hf by done. apply list_elem_of_filter in Hf. tauto.
  - intros b mx ki km [Hc _]%map_lookup_filter_Some. by eapply wf_index.
  - done.
Qed.

Lemma add_root_wf c r : wf_cache c → wf_cache (add_root c r).
Proof.
  intros Hwf. destruct (add_root_cases c r Hwf) as [[-> Hsz]|(m & _ & _ & -> & Hsz & _)].
  - destruct Hwf. by constructor.
  - apply drop_to_wf; [done|lia].
Qed.

(** * What the cache remembers *)

(** A status of [key] with blockhash [b] at slot [s] is there to be found. *)
Definition recorded c b (key : list Z) s : Prop :=
  ∃ mx ki km sl, cache c !! b = Some (mx, ki, km) ∧
    slice_at key (Z.min ki (max_key_index key)) = Ret sl ∧ s ∈ (forks_in km sl).*1.

(** How many roots are above a slot. *)
Definition roots_above (rs : gset Slot) s : Z := Z.of_nat (size (filter (λ r, s < r) rs)).

Lemma roots_above_mono (X Y : gset Slot) s : X ⊆ Y → roots_above X s ≤ roots_above Y s.
Proof. intros HXY. unfold roots_above. apply inj_le, subseteq_size. set_solver. Qed.

Lemma roots_above_all (X : gset Slot) s :
  (∀ r, r ∈ X → s < r) → roots_above X s = Z.of_nat (size X).
Proof. intros Hall. unfold roots_above. f_equal. f_equal. set_solver. Qed.

(** A recorded key is found for a fork with its slot, or when its slot is a
    root. *)
Lemma get_status_recorded `{!BitVecOps} c b key s anc :
  recorded c b key s → Anc.contains_key anc s = true ∨ s ∈ roots c →
  ∃ st, get_status c key b anc = Ret (Some st).
Proof.
  intros (mx & ki & km & sl & Hb & Hsl & Hs) Hanc. unfold get_status. rewrite Hb, Hsl, bind_Ret_l.
  unfold forks_in in Hs. destruct (km !! sl) as [fs|]; [|cbn in Hs; set_solver]. cbn in Hs.
  apply list_elem_of_fmap in Hs as ([? t] & -> & Hin). cbn [fst] in Hanc.
  destruct (find _ fs) as [st|] eqn:E; [eauto|]. exfalso.
  apply list_elem_of_In in Hin. pose proof (find_none _ _ E _ Hin) as Hno. cbn in Hno.
  apply orb_false_iff in Hno as [? ?]. bsimp. destruct Hanc; congruence.
Qed.

(** [get_status] finds a status exactly if the key is recorded at a slot of the
    fork or at a root. *)
Lemma get_status_exact `{!BitVecOps} c b key anc :
  wf_cache c → (20 ≤ length key)%nat →
  ∃ r, get_status c key b anc = Ret r ∧
    (is_Some r ↔ ∃ s, recorded c b key s ∧ (Anc.contains_key anc s = true ∨ s ∈ roots c)).
Proof.
  intros Hwf Hlen.
  assert (∃ r, get_status c key b anc = Ret r ∧ (is_Some r →
    ∃ s, recorded c b key s ∧ (Anc.contains_key anc s = true ∨ s ∈ roots c))) as (r & Hr & Hsome).
  { unfold get_status, recorded. destruct (cache c !! b) as [[[mx ki] km]|] eqn:E.
    2:{ exists None. split; [done|]. by intros []. }
    rewrite slice_at_Ret; [|done|by eapply (wf_index c Hwf)]. rewrite bind_Ret_l.
    eexists. split; [done|]. destruct (km !! _) as [fs|] eqn:Efs; [|by intros []].
    intros [[s t] [Hin Hcond]%find_some]. exists s. split.
    - eexists _, _, _, _. split_and!; [done|apply slice_at_Ret; [done|by eapply (wf_index c Hwf)]|].
      unfold forks_in. rewrite Efs. cbn.
      apply list_elem_of_fmap. exists (s, t). split; [done|]. by apply list_elem_of_In.
    - apply orb_true_iff in Hcond as [|Hroot]; [by left|right]. by bsimp. }
  exists r. split; [done|]. split; [done|]. intros (s & Hrec & Hs).
  destruct (get_status_recorded c b key s anc Hrec Hs) as (st & Hst). rewrite Hst in Hr. by simplify_eq.
Qed.

Lemma put_recorded c b s ki di sl t b' key s' :
  recorded c b' key s' → recorded (put c b s ki di sl t) b' key s'.
Proof.
  intros (mx & i & km & sl' & Hb & Hsl & Hs).
  assert (s' ∈ (forks_of (put c b s ki di sl t) b' sl').*1) as Hin.
  { rewrite put_forks_of, fmap_app. apply elem_of_app. left. unfold forks_of, forks_at. by rewrite Hb. }
  unfold forks_of, forks_at in Hin. destruct (cache (put c b s ki di sl t) !! b') as [[[mx' i'] km']|] eqn:E;
    [|cbn in Hin; set_solver].
  exists mx', i', km', sl'. split_and!; [done| |done].
  rewrite put_cache in E. apply lookup_insert_Some in E as [[<- [= _ <- _]]|[_ E]]; [|by simplify_eq].
  unfold index_of. by rewrite Hb.
Qed.

Lemma insert_recorded c b key s t draw c' :
  insert c b key s t draw = Ret c' → recorded c' b key s.
Proof.
  rewrite insert_put. cbn. intros (sl & Hsl & [= <-])%bind_Ret_inv.
  unfold recorded. rewrite put_cache. eexists _, _, _, sl. rewrite lookup_insert_eq.
  split_and!; [done|done|]. unfold forks_in. rewrite lookup_insert_eq. cbn.
  rewrite fmap_app. set_solver.
Qed.

(** The entry of a blockhash changes only by what is removed from it. *)
Lemma recorded_sub c c' b key s :
  recorded c b key s →
  (∀ sl, s ∈ (forks_of c b sl).*1 → s ∈ (forks_of c' b sl).*1) →
  (∀ mx ki km', cache c' !! b = Some (mx, ki, km') → ∃ km, cache c !! b = Some (mx, ki, km)) →
  recorded c' b key s.
Proof.
  intros (mx & i & km & sl & Hb & Hsl & Hs) Hsub Hsame.
  assert (s ∈ (forks_of c' b sl).*1) as Hin.
  { apply Hsub. unfold forks_of, forks_at. by rewrite Hb. }
  unfold forks_of, forks_at in Hin. destruct (cache c' !! b) as [[[mx' i'] km']|] eqn:E;
    [|cbn in Hin; set_solver].
  destruct (Hsame mx' i' km' eq_refl) as (km0 & Hkm). rewrite Hb in Hkm. injection Hkm as <- <- <-. by exists mx, i, km', sl.
Qed.

Lemma clear_recorded c s c' b key s' :
  wf_cache c → clear_slot_entries c s = Ret c' → s' ≠ s → recorded c b key s' → recorded c' b key s'.
Proof.
  intros Hwf Hc Hne Hr. destruct (clear_Ret_inv c s c' Hwf Hc) as (_ & _ & _ & _ & Hf & Hsame).
  eapply recorded_sub; [done| |apply Hsame].
  intros sl. rewrite Hf. case_decide; [|done].
  intros (e & -> & He)%list_elem_of_fmap. apply list_elem_of_fmap. exists e. split; [done|].
  by apply list_elem_of_filter.
Qed.

Lemma drop_to_recorded c m rs b key s :
  wf_cache c → recorded c b key s → m < s → recorded (drop_to c m rs) b key s.
Proof.
  intros Hwf Hr Hs. eapply recorded_sub; [done| |].
  - intros sl (e & -> & He)%list_elem_of_fmap. apply list_elem_of_fmap. exists e. split; [done|].
    assert (e ∈ filter (λ e', e'.1 = e.1) (forks_of c b sl)) as Hf by (by apply list_elem_of_filter).
    rewrite <-(drop_to_forks_of c m rs) in Hf by done. apply list_elem_of_filter in Hf. tauto.
  - intros mx ki km [Hc _]%map_lookup_filter_Some. eauto.
Qed.

(** A root makes the cache forget a key, or stop treating a slot as a root, only
    if [MAX_CACHE_ENTRIES] roots are above its slot. *)
Lemma add_root_recorded c r b key s :
  wf_cache c → recorded c b key s →
  recorded (add_root c r) b key s ∨ roots_above (roots (add_root c r)) s = MAX_CACHE_ENTRIES.
Proof.
  intros Hwf Hr. destruct (add_root_cases c r Hwf) as [[-> Hsz]|(m & Hm & Hmin & -> & Hsz & _)].
  - by left.
  - destruct (decide (m < s)) as [|Hle]; [left; by apply drop_to_recorded|right].
    cbn [roots drop_to]. rewrite roots_above_all; [done|].
    intros x [Hx Hne]%elem_of_difference. specialize (Hmin x Hx). set_solver by lia.
Qed.

Lemma add_root_roots c r s :
  wf_cache c → s ∈ {[ r ]} ∪ roots c →
  s ∈ roots (add_root c r) ∨ roots_above (roots (add_root c r)) s = MAX_CACHE_ENTRIES.
Proof.
  intros Hwf Hs. destruct (add_root_cases c r Hwf) as [[-> Hsz]|(m & Hm & Hmin & -> & Hsz & _)].
  - by left.
  - destruct (decide (s = m)) as [->|Hne]; [right|left; cbn; set_solver].
    cbn [roots drop_to]. rewrite roots_above_all; [done|].
    intros x [Hx Hne]%elem_of_difference. specialize (Hmin x Hx). set_solver by lia.
Qed.

(** Once [MAX_CACHE_ENTRIES] roots are above a slot, this stays so. *)
Lemma add_root_above c r s :
  wf_cache c → roots_above (roots c) s = MAX_CACHE_ENTRIES →
  roots_above (roots (add_root c r)) s = MAX_CACHE_ENTRIES.
Proof.
  intros Hwf Hab. pose proof (wf_roots _ (add_root_wf c r Hwf)) as Hle.
  assert (roots_above (roots (add_root c r)) s ≤ Z.of_nat (size (roots (add_root c r)))) as Hup.
  { unfold roots_above. apply inj_le, subseteq_size. set_solver. }
  destruct (add_root_cases c r Hwf) as [[Heq Hsz]|(m & Hm & Hmin & Heq & Hsz & Hr)];
    rewrite Heq in *; cbn [roots drop_to] in *.
  - pose proof (roots_above_mono (roots c) ({[ r ]} ∪ roots c) s ltac:(set_solver)). lia.
  - assert (∀ x, x ∈ roots c → s < x) as Hall.
    { intros x Hx. pose proof (wf_roots c Hwf). unfold roots_above in Hab.
      assert (filter (λ r, s < r) (roots c) ≡ roots c) as Hsame
        by (apply set_subseteq_size_equiv; [set_solver|lia]).
      rewrite <-Hsame in Hx. apply elem_of_filter in Hx. tauto. }
    rewrite roots_above_all; [done|]. intros x [Hx Hne]%elem_of_difference.
    apply elem_of_union in Hx as [->%elem_of_singleton|Hx]; [|by apply Hall].
    apply elem_of_union in Hm as [->%elem_of_singleton|Hm]; [set_solver|].
    specialize (Hmin r ltac:(set_solver)). specialize (Hall m Hm). lia.
Qed.

End props.
