(* ===== verification/StatusCacheTheorems.v ===== *)
(** The status cache through a snapshot: [from_slot_deltas] of the deltas of the
    roots answers for the rooted slots as the cache does.

    [full_cache] is the invariant behind it: for the slots that are not below all
    roots, the two views of the cache agree in both directions, and the offset
    stored with a slot is that of the blockhash. *)
From S2P Require Import Prelude RollingBitField RollingBitFieldProps StatusCache.
From S2P Require Import StatusCacheProps.
Import Cache.

Section snapshot.
Context `{!ClockConstants, !ClockLaws} {T : Type}.
Implicit Types (c : StatusCache T) (b : Hash) (s : Slot) (sl : KeySlice).

(** * The invariant *)

(** The results recorded at one slot, and those of one key slice. *)
Definition at_slot s (fs : list (Slot * T)) : list T := (filter (λ e, e.1 = s) fs).*2.
Definition with_slice sl (l : list (KeySlice * T)) : list T := (filter (λ e, e.1 = sl) l).*2.

Lemma at_slot_app s l l' : at_slot s (l ++ l') = at_slot s l ++ at_slot s l'.
Proof. unfold at_slot. by rewrite filter_app, fmap_app. Qed.

Lemma with_slice_app sl l l' : with_slice sl (l ++ l') = with_slice sl l ++ with_slice sl l'.
Proof. unfold with_slice. by rewrite filter_app, fmap_app. Qed.

Lemma at_slot_nil s fs : at_slot s fs = [] ↔ s ∉ fs.*1.
Proof.
  unfold at_slot. induction fs as [|e fs IH]; [cbn; set_solver|].
  rewrite fmap_cons, filter_cons. case_decide; rewrite ?fmap_cons; set_solver.
Qed.

Lemma with_slice_nil sl l : with_slice sl l = [] ↔ sl ∉ l.*1.
Proof.
  unfold with_slice. induction l as [|e l IH]; [cbn; set_solver|].
  rewrite fmap_cons, filter_cons. case_decide; rewrite ?fmap_cons; set_solver.
Qed.

Definition complete c s : Prop :=
  ∀ b sl, at_slot s (forks_of c b sl) = with_slice sl (delta_of c s b).

(** The slots of which the cache has forgotten nothing. *)
Definition covered c s : Prop :=
  Z.of_nat (size (roots c)) < MAX_CACHE_ENTRIES ∨ ∃ r, r ∈ roots c ∧ r ≤ s.

Record full_cache c : Prop := {
  full_wf :> wf_cache c;
  full_complete s : covered c s → complete c s;
  full_index s st b i l mx ki km :
    slot_deltas c !! s = Some st → st !! b = Some (i, l) → cache c !! b = Some (mx, ki, km) → i = ki;
}.

Lemma default_full : full_cache default_.
Proof.
  constructor; [apply default_wf| |].
  - intros s _ b sl. unfold forks_of, forks_at, delta_of, delta_in. cbn [cache slot_deltas default_].
    done.
  - intros ????????. cbn. by rewrite lookup_empty.
Qed.

Lemma put_complete c b s ki di sl t s' :
  complete c s' → complete (put c b s ki di sl t) s'.
Proof.
  intros Hc b' sl'. rewrite put_forks_of, put_delta_of, at_slot_app, with_slice_app, Hc. f_equal.
  unfold at_slot, with_slice. repeat case_decide; rewrite ?filter_cons; cbn [fst];
    repeat case_decide; naive_solver.
Qed.

Lemma full_index_of c s st b i l draw :
  full_cache c → slot_deltas c !! s = Some st → st !! b = Some (i, l) → index_of c b draw = i.
Proof.
  intros Hf Hst Hb. destruct (wf_delta_cache c s st b i l) as [[[mx ki] km] Hc]; [apply Hf|done..|].
  unfold index_of. rewrite Hc. symmetry. by eapply full_index.
Qed.

Lemma put_full c b s ki sl t :
  full_cache c → 0 ≤ ki → full_cache (put c b s ki (index_of c b ki) sl t).
Proof.
  intros Hf Hki. constructor; [by apply put_wf; [apply Hf|]| |].
  - intros s' Hcov. apply put_complete, Hf. unfold covered in *. by rewrite put_roots in Hcov.
  - intros s' st b' i l mx ki' km. rewrite put_deltas, put_cache. intros Hst Hl Hc.
    assert (∀ st0, slot_deltas c !! s' = Some st0 → st0 !! b' = Some (i, l) → i = ki') as Hold.
    { intros st0 Hst0 Hl0. apply lookup_insert_Some in Hc as [[<- [= _ <- _]]|[_ Hc]].
      - symmetry. by eapply full_index_of.
      - by eapply (full_index c Hf). }
    apply lookup_insert_Some in Hst as [[<- <-]|[_ Hst]]; [|by eapply Hold].
    destruct (slot_deltas c !! s) as [st|] eqn:E; cbn [default from_option id] in Hl.
    + apply lookup_insert_Some in Hl as [[<- [= <- _]]|[_ Hl]]; [|by eapply Hold].
      rewrite lookup_insert_eq in Hc. injection Hc as _ <- _.
      destruct (st !! b) as [[i0 l0]|] eqn:E2; cbn; [|done]. symmetry. by eapply full_index_of.
    + apply lookup_insert_Some in Hl as [[<- [= <- _]]|[_ Hl]]; [|by rewrite lookup_empty in Hl].
      rewrite lookup_insert_eq in Hc. injection Hc as _ <- _. by rewrite lookup_empty.
Qed.

Lemma drop_to_full c m rs :
  full_cache c → Z.of_nat (size rs) = MAX_CACHE_ENTRIES →
  (∀ r s, r ∈ rs → r ≤ s → m < s ∧ covered c s) → full_cache (drop_to c m rs).
Proof.
  intros Hf Hsz Hrs. constructor; [apply drop_to_wf; [apply Hf|lia]| |].
  - intros s [Hlt|(r & Hr & Hle)]; [cbn in Hlt; lia|]. destruct (Hrs r s Hr Hle) as [Hms Hcov].
    intros b sl. unfold at_slot. rewrite drop_to_forks_of by (apply Hf || done).
    rewrite drop_to_delta_of, decide_True by done. by apply Hf.
  - intros s st b i l mx ki km [Hst _]%map_lookup_filter_Some Hl [Hc _]%map_lookup_filter_Some.
    by eapply (full_index c Hf).
Qed.

Lemma add_root_full c r : full_cache c → full_cache (add_root c r).
Proof.
  intros Hf. destruct (add_root_cases c r Hf) as [[Heq Hsz]|(m & Hm & Hmin & Heq & Hsz & Hr)].
  - pose proof (add_root_wf c r Hf) as Hwf. rewrite Heq in *. constructor; [done| |].
    + intros s Hcov. assert (covered c s) as Hc; [|by apply Hf]. pose proof (wf_roots c Hf).
      destruct (decide (Z.of_nat (size (roots c)) < MAX_CACHE_ENTRIES)) as [|Hfull]; [by left|].
      assert (roots c ≡ {[ r ]} ∪ roots c) as Hsame by (apply set_subseteq_size_equiv; [set_solver|lia]).
      apply leibniz_equiv in Hsame.
      destruct Hcov as [Hlt|(r' & Hr' & Hle)]; cbn [roots] in *; rewrite <-Hsame in *; [lia|].
      right. by exists r'.
    + apply Hf.
  - rewrite Heq. apply drop_to_full; [done..|]. intros r' s [Hr' Hne]%elem_of_difference Hle.
    pose proof (Hmin r' Hr'). assert (r' ≠ m) by set_solver. split; [lia|].
    right. destruct (decide (r' = r)) as [->|]; [|exists r'; set_solver].
    exists m. split; [set_solver|lia].
Qed.

Lemma clear_full c s c' : full_cache c → clear_slot_entries c s = Ret c' → full_cache c'.
Proof.
  intros Hf Hc. destruct (clear_Ret_inv c s c' Hf Hc) as (_ & Hwf & Hroots & Hdel & Hforks & Hsame).
  constructor; [done| |].
  - intros s' Hcov b sl. unfold covered in Hcov. rewrite Hroots in Hcov.
    pose proof (full_complete c Hf s' Hcov b sl) as Hcomp. rewrite Hforks.
    assert (delta_of c' s' b = if decide (s' = s) then [] else delta_of c s' b) as ->.
    { unfold delta_of, delta_in. rewrite Hdel. case_decide as Hd.
      - subst. by rewrite lookup_delete_eq.
      - by rewrite lookup_delete_ne. }
    destruct (decide (s' = s)) as [->|Hne].
    + apply at_slot_nil. case_decide as Hin.
      * intros (e & -> & [? _]%list_elem_of_filter)%list_elem_of_fmap. done.
      * apply at_slot_nil. rewrite Hcomp. by apply with_slice_nil.
    + rewrite <-Hcomp. case_decide; [|done].
      unfold at_slot, without. rewrite list_filter_filter. f_equal. apply list_filter_iff. naive_solver.
  - intros s' st b i l mx ki km' Hst Hl Hkm. rewrite Hdel in Hst.
    apply lookup_delete_Some in Hst as [_ Hst]. destruct (Hsame b mx ki km' Hkm) as (km & Hc0).
    by eapply (full_index c Hf).
Qed.

(** * Snapshots *)

(** ** The statuses of a slot *)

Lemma append_blockhash_spec s b i l c :
  wf_cache c → 0 ≤ i →
  let c' := append_blockhash s (b, (i, l)) c in
  wf_cache c' ∧ roots c' = roots c ∧
  (∀ b' sl, forks_of c' b' sl = forks_of c b' sl ++
     if decide (b' = b) then (λ t, (s, t)) <$> with_slice sl l else []) ∧
  (∀ b' mx ki km, cache c' !! b' = Some (mx, ki, km) →
     index_of c b' i = ki ∧ (b' ≠ b → is_Some (cache c !! b'))).
Proof.
  intros Hwf Hi. cbn. revert c Hwf. induction l as [|[sl t] l IH]; intros c Hwf; cbn [foldl].
  { split_and!; [done|done| |].
    - intros b' sl. case_decide; by rewrite app_nil_r.
    - intros b' mx ki km Hc. unfold index_of. by rewrite Hc. }
  rewrite insert_with_slice_put. set (c1 := put c b s i i sl t).
  destruct (IH c1) as (Hwf1 & Hr1 & Hf1 & Hi1); [by apply put_wf|]. split_and!; [done| | |].
  - rewrite Hr1. apply put_roots.
  - intros b' sl'. rewrite Hf1. unfold c1. rewrite put_forks_of, <-app_assoc. f_equal.
    unfold with_slice. rewrite filter_cons. cbn [fst].
    destruct (decide (b' = b)) as [->|]; [|by rewrite decide_False by naive_solver].
    destruct (decide (sl' = sl)) as [->|];
      [rewrite !decide_True by done|rewrite !decide_False by naive_solver]; done.
  - intros b' mx ki km Hc. destruct (Hi1 b' mx ki km Hc) as [Hidx Hne]. unfold c1, index_of in *.
    rewrite put_cache in *. destruct (decide (b' = b)) as [->|].
    + rewrite lookup_insert_eq in Hidx. done.
    + rewrite lookup_insert_ne in * by done. done.
Qed.

Lemma append_statuses_spec s (l : list (Hash * (Z * list (KeySlice * T)))) c :
  NoDup l.*1 → (∀ e, e ∈ l → 0 ≤ e.2.1) → wf_cache c →
  let c' := foldl (λ c entry, append_blockhash s entry c) c l in
  wf_cache c' ∧ roots c' = roots c ∧
  (∀ b sl, forks_of c' b sl =
     forks_of c b sl ++ ((λ t, (s, t)) <$> with_slice sl (delta_in (list_to_map l) b))) ∧
  (∀ b mx ki km, cache c' !! b = Some (mx, ki, km) →
     (∃ mx0 km0, cache c !! b = Some (mx0, ki, km0)) ∨ ∃ kl, (b, (ki, kl)) ∈ l).
Proof.
  cbn. revert c. induction l as [|[b0 [i kl]] l IH]; intros c Hnd Hi Hwf; cbn [foldl].
  { split_and!; [done..| |].
    - intros b sl. unfold delta_in. cbn. by rewrite app_nil_r.
    - intros b mx ki km Hc. left. eauto. }
  rewrite fmap_cons in Hnd. apply NoDup_cons in Hnd as [Hb0 Hnd]. cbn [fst] in Hb0.
  destruct (append_blockhash_spec s b0 i kl c) as (Hwf1 & Hr1 & Hf1 & Hi1);
    [done|by apply (Hi (b0, (i, kl))); left|].
  destruct (IH (append_blockhash s (b0, (i, kl)) c)) as (Hwf2 & Hr2 & Hf2 & Hi2);
    [done|intros e He; apply Hi; by right|done|].
  split_and!; [done|congruence| |].
  - intros b sl. rewrite Hf2, Hf1, <-app_assoc. f_equal. unfold delta_in. cbn [list_to_map foldr].
    destruct (decide (b = b0)) as [->|Hne].
    + unfold list_to_map at 2. cbn. rewrite lookup_insert_eq, (not_elem_of_list_to_map_1 l b0 Hb0).
      cbn. by rewrite app_nil_r.
    + unfold list_to_map at 2. cbn. by rewrite lookup_insert_ne by done.
  - intros b mx ki km Hc. destruct (Hi2 b mx ki km Hc) as [(mx0 & km0 & Hc0)|(kl' & Hin)].
    + destruct (Hi1 b mx0 ki km0 Hc0) as [Hidx Hne]. unfold index_of in Hidx.
      destruct (cache c !! b) as [[[mx1 ki1] km1]|] eqn:E; [subst; left; eauto|].
      right. destruct (decide (b = b0)) as [->|Hnb]; [subst; exists kl; left|].
      by destruct (Hne Hnb).
    + right. exists kl'. by right.
Qed.

(** ** The fold over the roots *)

Context (c : StatusCache T) (Hfull : full_cache c) (Hslots : ∀ r, r ∈ roots c → 0 ≤ r).

Definition status_at s : Status T := default ∅ (slot_deltas c !! s).

Lemma status_at_index s b i kl draw :
  status_at s !! b = Some (i, kl) → index_of c b draw = i ∧ 0 ≤ i.
Proof.
  unfold status_at. destruct (slot_deltas c !! s) as [st|] eqn:E; cbn; [|by rewrite lookup_empty].
  intros Hb. destruct (wf_delta_cache c s st b i kl) as [[[mx ki] km] Hc]; [apply Hfull|done..|].
  pose proof (full_index c Hfull s st b i kl mx ki km E Hb Hc). subst.
  unfold index_of. rewrite Hc. split; [done|]. by eapply (wf_index c Hfull).
Qed.

(** What the restored cache is after the roots [don]. *)
Record restored (don : list Slot) (c' : StatusCache T) : Prop := {
  re_wf : wf_cache c';
  re_forks s b sl : at_slot s (forks_of c' b sl) =
    if decide (s ∈ don) then with_slice sl (delta_in (status_at s) b) else [];
  re_index b mx ki km : cache c' !! b = Some (mx, ki, km) →
    ∃ s kl, s ∈ don ∧ status_at s !! b = Some (ki, kl);
  re_roots : roots c' = {[ 0 ]} ∪ list_to_set don ∨ ((0 ∉ don) ∧ roots c' = list_to_set don);
}.

Lemma restored_nil : restored [] default_.
Proof.
  constructor.
  - apply default_wf.
  - done.
  - intros b mx ki km. cbn. by rewrite lookup_empty.
  - left. cbn. set_solver.
Qed.

Lemma at_slot_pairs s s' (l : list T) :
  at_slot s' ((λ t, (s, t)) <$> l) = if decide (s' = s) then l else [].
Proof.
  unfold at_slot. induction l as [|t l IH]; [by case_decide|].
  rewrite fmap_cons, filter_cons. cbn [fst]. repeat case_decide; try congruence; cbn; by rewrite IH.
Qed.

(** The statuses of one more root, before it is added to the roots. *)
Lemma restored_statuses don s c' :
  restored don c' → s ∉ don →
  let c1 := foldl (λ c entry, append_blockhash s entry c) c' (map_to_list (status_at s)) in
  wf_cache c1 ∧ roots c1 = roots c' ∧
  (∀ s' b sl, at_slot s' (forks_of c1 b sl) =
    if decide (s' ∈ don ++ [s]) then with_slice sl (delta_in (status_at s') b) else []) ∧
  (∀ b mx ki km, cache c1 !! b = Some (mx, ki, km) →
    ∃ s' kl, s' ∈ don ++ [s] ∧ status_at s' !! b = Some (ki, kl)).
Proof.
  intros [Hwf Hforks Hidx Hroots] Hs.
  destruct (append_statuses_spec s (map_to_list (status_at s)) c') as (Hwf1 & Hr1 & Hf1 & Hi1);
    [apply NoDup_fst_map_to_list| |done|].
  { intros [b [i kl]] He%elem_of_map_to_list. by eapply (status_at_index s b i kl 0). }
  rewrite list_to_map_to_list in Hf1. cbn. split_and!; [done|done| |].
  - intros s' b sl. rewrite Hf1, at_slot_app, Hforks, at_slot_pairs.
    destruct (decide (s' = s)) as [->|Hne].
    + rewrite decide_False, decide_True by set_solver. done.
    + rewrite app_nil_r. destruct (decide (s' ∈ don));
        [rewrite decide_True by set_solver|rewrite decide_False by set_solver]; done.
  - intros b mx ki km Hc. destruct (Hi1 b mx ki km Hc) as [(mx0 & km0 & Hc0)|(kl & Hkl)].
    + destruct (Hidx b mx0 ki km0 Hc0) as (s' & kl & ? & ?). exists s', kl. set_solver.
    + exists s, kl. apply elem_of_map_to_list in Hkl. set_solver.
Qed.

Lemma drop_to_forks_cases c' m rs b sl :
  forks_of (drop_to c' m rs) b sl = forks_of c' b sl ∨ forks_of (drop_to c' m rs) b sl = [].
Proof.
  unfold forks_of, forks_at. cbn [cache drop_to]. rewrite map_lookup_filter.
  destruct (cache c' !! b) as [[[mx ki] km]|]; [|by left].
  cbn [mbind option_bind fst snd]. case_guard; [by left|by right].
Qed.

(** The roots of the restored cache are too many only if 0 is one of them that
    the snapshot does not have. *)
Lemma purged_zero don s (R : gset Slot) m :
  list_to_set (don ++ [s]) ⊆ roots c →
  R = {[ s ]} ∪ ({[ 0 ]} ∪ list_to_set don) ∨ R = {[ s ]} ∪ list_to_set don →
  m ∈ R → (∀ x, x ∈ R → m ≤ x) → Z.of_nat (size (R ∖ {[ m ]})) = MAX_CACHE_ENTRIES →
  m = 0 ∧ (0 ∉ don ++ [s]) ∧ R ∖ {[ m ]} = list_to_set (don ++ [s]).
Proof.
  intros Hsub HR Hm Hmin Hsz. pose proof (wf_roots c Hfull) as Hmax.
  pose proof (size_remove R m Hm) as Hrm.
  assert (¬ R ⊆ roots c) as Hnot by (intros Hle%subseteq_size; lia).
  assert (0 ∉ don ++ [s]) as Hzero.
  { intros Hzero. apply Hnot. destruct HR as [-> | ->]; intros x Hx; apply Hsub; set_solver. }
  destruct HR as [-> | ->]; [|destruct Hnot; set_solver].
  assert (m = 0) as ->.
  { specialize (Hmin 0 ltac:(set_solver)). apply elem_of_union in Hm as [Hm|[Hm|Hm]%elem_of_union].
    - pose proof (Hslots m ltac:(set_solver)). lia.
    - set_solver.
    - pose proof (Hslots m ltac:(set_solver)). lia. }
  split_and!; [done|done|]. apply set_eq. intros x. rewrite list_to_set_app. set_solver.
Qed.

Lemma restored_step don s c' :
  restored don c' → s ∉ don → list_to_set (don ++ [s]) ⊆ roots c →
  restored (don ++ [s]) (append_delta c' (s, true, status_at s)).
Proof.
  intros Hre Hs Hdon. unfold append_delta.
  destruct (restored_statuses don s c' Hre Hs) as (Hwf1 & Hr1 & Hf1 & Hi1). set (c1 := foldl _ _ _) in *.
  pose proof (add_root_wf c1 s Hwf1) as Hwf2.
  pose proof (re_roots _ _ Hre) as Hroots. rewrite <-Hr1 in Hroots.
  destruct (add_root_cases c1 s Hwf1) as [[Heq _]|(m & Hm & Hmin & Heq & Hsz & _)]; rewrite Heq in *.
  - constructor; [done|done|done|]. cbn [roots]. destruct Hroots as [->|[? ->]].
    + left. rewrite list_to_set_app_L. set_solver.
    + rewrite list_to_set_app_L. destruct (decide (s = 0)) as [->|]; [left|right]; set_solver.
  - destruct (purged_zero don s ({[ s ]} ∪ roots c1) m) as (-> & Hzero & HR); [done| |done..|].
    { destruct Hroots as [->|[_ ->]]; auto. }
    rewrite HR in *. constructor; [done| | |by right].
    + intros s' b sl. destruct (decide (0 < s')) as [Hpos|Hneg].
      * unfold at_slot. rewrite drop_to_forks_of by done. apply Hf1.
      * rewrite decide_False.
        2:{ intros Hin. pose proof (Hslots s' (Hdon s' ltac:(by apply elem_of_list_to_set))).
            assert (s' = 0) by lia. congruence. }
        destruct (drop_to_forks_cases c1 0 (list_to_set (don ++ [s])) b sl) as [-> | ->]; [|done].
        rewrite Hf1, decide_False; [done|]. intros Hin.
        pose proof (Hslots s' (Hdon s' ltac:(by apply elem_of_list_to_set))).
        assert (s' = 0) by lia. congruence.
    + intros b mx ki km [Hc _]%map_lookup_filter_Some. eauto.
Qed.

Lemma restored_all rs :
  NoDup rs → list_to_set rs ⊆ roots c →
  restored rs (from_slot_deltas ((λ r, (r, true, status_at r)) <$> rs)).
Proof.
  unfold from_slot_deltas, append. induction rs as [|s rs IH] using rev_ind; intros Hnd Hsub.
  - apply restored_nil.
  - rewrite fmap_app, foldl_app. cbn [fmap list_fmap foldl].
    apply NoDup_app in Hnd as (Hnd & Hdisj & _). apply restored_step; [|set_solver|done].
    apply IH; [done|]. rewrite list_to_set_app in Hsub. set_solver.
Qed.

(** The restored cache records for the rooted slots what the cache does. *)
Lemma restored_recorded rs c' :
  restored rs c' → (∀ s, s ∈ rs ↔ s ∈ roots c) →
  ∀ b key s, s ∈ roots c → recorded c' b key s ↔ recorded c b key s.
Proof.
  intros Hre Hrs b key s Hs.
  assert (∀ sl, s ∈ (forks_of c' b sl).*1 ↔ s ∈ (forks_of c b sl).*1) as Hf.
  { intros sl. assert (covered c s) as Hcov by (right; exists s; split; [done|lia]).
    pose proof (full_complete c Hfull s Hcov b sl) as Hc. pose proof (re_forks _ _ Hre s b sl) as Hc'.
    rewrite decide_True in Hc' by (by apply Hrs).
    change (delta_in (status_at s) b) with (delta_of c s b) in Hc'. rewrite <-Hc in Hc'.
    pose proof (at_slot_nil s (forks_of c' b sl)) as H1. pose proof (at_slot_nil s (forks_of c b sl)) as H2.
    rewrite Hc' in H1. destruct (decide (s ∈ (forks_of c' b sl).*1)), (decide (s ∈ (forks_of c b sl).*1)); tauto. }
  unfold forks_of, forks_at in Hf. unfold recorded.
  destruct (cache c' !! b) as [[[mx' ki'] km']|] eqn:E'.
  - destruct (re_index _ _ Hre b mx' ki' km' E') as (s0 & kl & _ & Hb).
    destruct (status_at_index s0 b ki' kl (-1) Hb) as [Hidx ?]. unfold index_of in Hidx.
    destruct (cache c !! b) as [[[mx ki] km]|] eqn:E; [subst|lia].
    split; intros (? & ? & ? & sl & [= <- <- <-] & Hsl & Hin); eexists _, _, _, sl;
      (split_and!; [done|done|by apply Hf]).
  - split; [by intros (? & ? & ? & ? & ? & _)|].
    intros (mx & ki & km & sl & E & _ & Hin). rewrite E in Hf. apply Hf in Hin. set_solver.
Qed.

End snapshot.

(** * What the status cache promises: removing a slot, and a snapshot *)

Section theorems.
Context `{!ClockConstants, !ClockLaws} {T : Type}.
Implicit Types c : StatusCache T.

(** The caches that the banks produce: a transaction is recorded with its message
    hash, of 32 bytes, and then with its signature, of 64; [d1] and [d2] are the
    draws of the two insertions. *)
Inductive cache_run : StatusCache T → Prop :=
| run_default : cache_run default_
| run_transaction c b hash signature s t d1 d2 c1 c2 :
    cache_run c → length hash = 32%nat → length signature = 64%nat →
    0 ≤ d1 ≤ max_key_index hash → 0 ≤ d2 ≤ max_key_index signature →
    insert c b hash s t d1 = Ret c1 → insert c1 b signature s t d2 = Ret c2 → cache_run c2
| run_root c r : cache_run c → 0 ≤ r → cache_run (add_root c r)
| run_clear c s c' : cache_run c → clear_slot_entries c s = Ret c' → cache_run c'.

(** The offsets fit a message hash. *)
Definition hash_offsets c : Prop :=
  ∀ b mx ki km, cache c !! b = Some (mx, ki, km) → ki ≤ 11.

Lemma insert_run c b key s t draw c' :
  full_cache c → hash_offsets c → 0 ≤ draw → index_of c b draw ≤ 11 → (32 ≤ length key)%nat →
  insert c b key s t draw = Ret c' → full_cache c' ∧ hash_offsets c' ∧ roots c' = roots c ∧
    ∀ d, index_of c' b d ≤ 11.
Proof.
  intros Hf Ho Hd Hidx Hlen. rewrite insert_put. cbn.
  rewrite Z.min_l by (unfold max_key_index, saturating_sub, CACHED_KEY_SIZE; lia).
  intros (sl & _ & [= <-])%bind_Ret_inv. split_and!.
  - by apply put_full.
  - intros b' mx ki km. rewrite put_cache. intros [[<- [= _ <- _]]|[_ ?]]%lookup_insert_Some; eauto.
  - apply put_roots.
  - intros d. unfold index_of at 1. rewrite put_cache. by rewrite lookup_insert_eq.
Qed.

Lemma cache_run_inv c :
  cache_run c → full_cache c ∧ hash_offsets c ∧ ∀ r, r ∈ roots c → 0 ≤ r.
Proof.
  induction 1 as [|c b hash sig s t d1 d2 c1 c2 _ (Hf & Ho & Hr) Hh Hs Hd1 Hd2 Hi1 Hi2
    |c r _ (Hf & Ho & Hr) Hnn|c s c' _ (Hf & Ho & Hr) Hc].
  - split_and!; [apply default_full| |]; cbn; [|set_solver by lia].
    intros ????. cbn. by rewrite lookup_empty.
  - destruct (insert_run c b hash s t d1 c1) as (Hf1 & Ho1 & Hr1 & Hidx1); [done|done|lia| |lia|done|].
    { unfold index_of. destruct (cache c !! b) as [[[]]|] eqn:E; [by eapply Ho|].
      unfold max_key_index, saturating_sub, CACHED_KEY_SIZE in Hd1. lia. }
    destruct (insert_run c1 b sig s t d2 c2) as (Hf2 & Ho2 & Hr2 & _); [done|done|lia|done|lia|done|].
    rewrite Hr2, Hr1. done.
  - split_and!; [by apply add_root_full| |].
    + intros b mx ki km. destruct (add_root_cases c r Hf) as [[-> _]|(m & _ & _ & -> & _)]; [apply Ho|].
      intros [Hc _]%map_lookup_filter_Some. by eapply Ho.
    + intros r'. destruct (add_root_cases c r Hf) as [[-> _]|(m & _ & _ & -> & _)]; cbn; set_solver.
  - destruct (clear_Ret_inv c s c' Hf Hc) as (_ & _ & Hroots & _ & _ & Hsame).
    split_and!; [by eapply clear_full| |by rewrite Hroots].
    intros b mx ki km' Hkm. destruct (Hsame b mx ki km' Hkm) as (km & ?). by eapply Ho.
Qed.

(** After the removal nothing is recorded at the slot. *)
Lemma clear_not_recorded c s c' b key :
  full_cache c → clear_slot_entries c s = Ret c' → covered c s → ¬ recorded c' b key s.
Proof.
  intros Hf Hc Hcov (mx & ki & km & sl & Hb & _ & Hin).
  destruct (clear_Ret_inv c s c' Hf Hc) as (_ & _ & Hroots & Hdel & _).
  assert (covered c' s) as Hcov' by (unfold covered in *; by rewrite Hroots).
  pose proof (full_complete c' (clear_full c s c' Hf Hc) s Hcov' b sl) as Hcomp.
  unfold delta_of, delta_in in Hcomp. rewrite Hdel, lookup_delete_eq in Hcomp. cbn in Hcomp.
  apply at_slot_nil in Hcomp. apply Hcomp. unfold forks_of, forks_at. by rewrite Hb.
Qed.

Lemma clear_sub_recorded c s c' b key s' :
  wf_cache c → clear_slot_entries c s = Ret c' → recorded c' b key s' → recorded c b key s'.
Proof.
  intros Hwf Hc (mx & ki & km' & sl & Hb & Hsl & Hin).
  destruct (clear_Ret_inv c s c' Hwf Hc) as (_ & _ & _ & _ & Hf & Hsame).
  destruct (Hsame b mx ki km' Hb) as (km & Hkm). exists mx, ki, km, sl. split_and!; [done..|].
  specialize (Hf b sl). unfold forks_of, forks_at in Hf. rewrite Hb, Hkm in Hf. rewrite Hf in Hin.
  case_decide; [|done]. apply list_elem_of_fmap in Hin as (e & -> & [_ He]%list_elem_of_filter).
  by apply list_elem_of_fmap_2.
Qed.

(** C23. [clear_slot_entries] exactly: it removes what is recorded at the slot (all
    of it, for a slot that is not behind purged roots) and nothing else, unless a key slice was recorded twice at the slot with one
    blockhash, and at no other slot; then it panics. *)
Theorem clear_slot_entries_exact c s :
  cache_run c →
  (slot_clearable c s → ∃ c', clear_slot_entries c s = Ret c' ∧ roots c' = roots c ∧
    ∀ b key s', s' ≠ s ∨ covered c s →
      recorded c' b key s' ↔ s' ≠ s ∧ recorded c b key s') ∧
  (¬ slot_clearable c s → clear_slot_entries c s = Panic).
Proof.
  intros (Hf & _ & _)%cache_run_inv. destruct (clear_slot_entries_spec c s Hf) as [Hok Hno].
  split; [|done]. intros Hcl. destruct (Hok Hcl) as (c' & Hc & _ & Hroots & _).
  exists c'. split_and!; [done..|]. intros b key s' Hs. split.
  - intros Hrec. split; [|by eapply (clear_sub_recorded c s c'); [apply Hf|..]]. intros ->.
    destruct Hs as [|Hcov]; [done|]. exact (clear_not_recorded c s c' b key Hf Hc Hcov Hrec).
  - intros [Hne Hrec]. by eapply (clear_recorded c s c'); [apply Hf|..].
Qed.

(** C22. A cache restored from the deltas of its roots, in any order, knows the
    rooted transactions: for a fork that starts at the roots, [get_status] finds
    a status in it exactly if it does in the original. *)
Theorem snapshot_keeps_statuses `{!BitVecOps} c deltas b key anc :
  cache_run c → deltas ≡ₚ root_slot_deltas c → (20 ≤ length key)%nat →
  (∀ s, Anc.contains_key anc s = true → s ∈ roots c) →
  ∃ r r', get_status c key b anc = Ret r ∧
    get_status (from_slot_deltas deltas) key b anc = Ret r' ∧ is_some r' = is_some r.
Proof.
  intros (Hf & _ & Hnn)%cache_run_inv (rs & -> & Hrs)%Permutation_map_inv Hlen Hanc.
  assert (∀ s, s ∈ rs ↔ s ∈ roots c) as Hin by (intros s; by rewrite <-Hrs, elem_of_elements).
  assert (restored c rs (from_slot_deltas ((λ r, (r, true, status_at c r)) <$> rs))) as Hre.
  { apply restored_all; [done|done|rewrite <-Hrs; apply NoDup_elements|]. set_solver. }
  set (c' := from_slot_deltas _) in *. change (from_slot_deltas _) with c'.
  destruct (get_status_exact c b key anc) as (r & Hr & Hiff); [apply Hf|done|].
  destruct (get_status_exact c' b key anc) as (r' & Hr' & Hiff'); [apply Hre|done|].
  exists r, r'. split_and!; [done..|]. enough (is_Some r' ↔ is_Some r) as Henough.
  { destruct r, r'; cbn; try done; exfalso; destruct Henough as [Hl Hr''];
      [by destruct Hr''|by destruct Hl]. }
  rewrite Hiff, Hiff'.
  pose proof (restored_recorded c Hf Hnn rs c' Hre Hin b key) as Hrec.
  assert (∀ s, recorded c' b key s → s ∈ roots c) as Honly.
  { intros s (mx & ki & km & sl & Hb & _ & Hs). apply Hin.
    pose proof (re_forks _ _ _ Hre s b sl) as Hat. destruct (decide (s ∈ rs)); [done|].
    apply at_slot_nil in Hat. destruct Hat. unfold forks_of, forks_at. by rewrite Hb. }
  split.
  - intros (s & Hs & _). exists s. split; [apply Hrec; auto|]. right. by apply Honly.
  - intros (s & Hs & Hcase). assert (s ∈ roots c) as Hroot by (destruct Hcase; auto).
    exists s. split; [by apply Hrec|]. destruct Hcase as [|_]; [by left|right].
    destruct (re_roots _ _ _ Hre) as [->|[_ ->]]; set_solver.
Qed.

End theorems.

Module CacheDemo.

Import FieldDemo.

#[export] Instance clock : ClockConstants := {|
  MAX_RECENT_BLOCKHASHES := 300;
  MAX_PROCESSING_AGE := 150;
|}.

#[export] Instance clock_laws : ClockLaws.
Proof. split; [exact (eq_refl : (150 ?= 300) = Lt)|discriminate]. Qed.

(** Two transactions with blockhash 7 in slot 5, whose signatures have the same
    first half. *)
Definition hash1 : list Z := replicate 32 1.
Definition hash2 : list Z := replicate 32 2.
Definition sig1 : list Z := replicate 32 9 ++ replicate 32 1.
Definition sig2 : list Z := replicate 32 9 ++ replicate 32 2.

Definition get_cache (m : outcome (StatusCache Z)) : StatusCache Z :=
  match m with Ret c => c | _ => default_ end.

Definition cache1 : StatusCache Z := get_cache (insert default_ 7 hash1 5 0 3).
Definition cache2 : StatusCache Z := get_cache (insert cache1 7 sig1 5 0 3).
Definition cache3 : StatusCache Z := get_cache (insert cache2 7 hash2 5 0 3).
Definition cache4 : StatusCache Z := get_cache (insert cache3 7 sig2 5 0 3).

Lemma cache_steps :
  insert default_ 7 hash1 5 0 3 = Ret cache1 ∧ insert cache1 7 sig1 5 0 3 = Ret cache2 ∧
  insert cache2 7 hash2 5 0 3 = Ret cache3 ∧ insert cache3 7 sig2 5 0 3 = Ret cache4.
Proof. split_and!; vm_compute; reflexivity. Qed.

Lemma cache2_run : cache_run cache2.
Proof.
  destruct cache_steps as (H1 & H2 & _ & _).
  eapply (run_transaction _ 7 hash1 sig1 5 0 3 3);
    [apply run_default|reflexivity|reflexivity| | |exact H1|exact H2];
    vm_compute; split; discriminate.
Qed.

Lemma cache4_run : cache_run cache4.
Proof.
  destruct cache_steps as (_ & _ & H3 & H4).
  eapply (run_transaction _ 7 hash2 sig2 5 0 3 3);
    [apply cache2_run|reflexivity|reflexivity| | |exact H3|exact H4];
    vm_compute; split; discriminate.
Qed.

Lemma cache4_views :
  cnt (delta_of cache4 5 7).*1 (replicate 20 9) = 2 ∧
  forks_of cache4 7 (replicate 20 9) = [(5, 0); (5, 0)].
Proof. split; vm_compute; reflexivity. Qed.

(** Removing the slot panics. *)
Lemma clear_slot_entries_exact_witness :
  clear_slot_entries cache4 5 = Panic.
Proof.
  apply (clear_slot_entries_exact cache4 5 cache4_run). intros Hc.
  destruct cache4_views as [Hcnt Hforks]. specialize (Hc 7 (replicate 20 9)).
  rewrite Hcnt, Hforks in Hc. destruct Hc as (e & He & Hne); [lia|].
  apply elem_of_cons in He as [->|He]; [done|].
  apply elem_of_cons in He as [->|He]; [done|]. by apply not_elem_of_nil in He.
Defined.

Definition no_ancestors : Ancestors := Anc.mkAncestors _ empty_field.

Lemma no_ancestor s : Anc.contains_key no_ancestors s = false.
Proof.
  unfold Anc.contains_key, Field.contains.
  cbn [Anc.ancestors no_ancestors empty_field Field.max_exclusive_ Field.min_ Field.excess].
  destruct (Z.ltb_spec s 0), (Z.leb_spec 0 s); [lia| |done..].
  apply bool_decide_eq_false, not_elem_of_empty.
Qed.

Lemma cache4_found : get_status (add_root cache4 5) hash1 7 no_ancestors = Ret (Some (5, 0)).
Proof. vm_compute. reflexivity. Qed.

(** After slot 5 is a root, a cache restored from a snapshot finds the first
    transaction. *)
Lemma snapshot_keeps_statuses_witness :
  ∃ st, get_status (from_slot_deltas (root_slot_deltas (add_root cache4 5))) hash1 7 no_ancestors =
    Ret (Some st).
Proof.
  destruct (snapshot_keeps_statuses (add_root cache4 5) (root_slot_deltas (add_root cache4 5)) 7
    hash1 no_ancestors) as (r & r' & Hr & Hr' & Hsame).
  - apply run_root; [exact cache4_run|lia].
  - reflexivity.
  - vm_compute. lia.
  - intros s Hs. rewrite no_ancestor in Hs. discriminate.
  - rewrite cache4_found in Hr. injection Hr as <-. destruct r' as [st|]; [|discriminate].
    exists st. exact Hr'.
Defined.

End CacheDemo.
