(* ===== verification/BlockhashQueue.v ===== *)
(** The queue of recent blockhashes (accounts-db/src/blockhash_queue.rs), which
    decides whether a transaction has expired: the model and, after it, the
    theorem that a hash is valid for an age exactly if it is among that many
    last registered hashes and the one before them. *)
From S2P Require Import Prelude.

(** [FeeCalculator] has the one field that is used. *)
Record HashInfo := mkHashInfo {
  lamports_per_signature : Z;
  hash_index : Z;
  timestamp : Z;
}.

Record BlockhashQueue := mkQueue {
  last_hash_index : Z;
  last_hash_ : option Hash;
  hashes : gmap Hash HashInfo;
  max_age : Z;
}.

Module Queue.

Definition new (max_age : Z) : BlockhashQueue := mkQueue 0 None ∅ max_age.

Section queue.
Implicit Types (q : BlockhashQueue) (h : Hash).

(** [.expect(..)]. *)
Definition last_hash q : outcome Hash := unwrap (last_hash_ q).

Definition get_lamports_per_signature q h : option Z := lamports_per_signature <$> hashes q !! h.

Definition is_hash_valid q h : bool := is_some (hashes q !! h).

Definition is_hash_index_valid (last_hash_index max_age hash_index : Z) : outcome bool :=
  d ← sub_ last_hash_index hash_index;
  Ret (d <=? max_age).

Definition get_hash_info_if_valid q h (max_age : Z) : outcome (option HashInfo) :=
  match hashes q !! h with
  | None => Ret None
  | Some info =>
      valid ← is_hash_index_valid (last_hash_index q) max_age (hash_index info);
      Ret (if valid : bool then Some info else None)
  end.

Definition is_hash_valid_for_age q h (max_age : Z) : outcome bool :=
  info ← get_hash_info_if_valid q h max_age;
  Ret (is_some info).

Definition get_hash_age q h : outcome (option Z) :=
  match hashes q !! h with
  | None => Ret None
  | Some info => d ← sub_ (last_hash_index q) (hash_index info); Ret (Some d)
  end.

(** [genesis_hash]; [now] is the clock, [timestamp()]. *)
Definition genesis_hash q h (lamports_per_signature now : Z) : BlockhashQueue :=
  mkQueue (last_hash_index q) (Some h)
    (<[ h := mkHashInfo lamports_per_signature 0 now ]> (hashes q)) (max_age q).

(** [retain] with the condition of [register_hash]. *)
Definition retain_valid (last_hash_index max_age : Z) (m : gmap Hash HashInfo)
    : outcome (gmap Hash HashInfo) :=
  for_each (λ '(h, info) m',
      valid ← is_hash_index_valid last_hash_index max_age (hash_index info);
      Ret (if valid : bool then <[ h := info ]> m' else m'))
    (map_to_list m) ∅.

Definition register_hash q h (lamports_per_signature now : Z) : outcome BlockhashQueue :=
  last ← add_ u64_MAX (last_hash_index q) 1;
  kept ← (if max_age q <=? Z.of_nat (size (hashes q))
          then retain_valid last (max_age q) (hashes q) else Ret (hashes q));
  Ret (mkQueue last (Some h) (<[ h := mkHashInfo lamports_per_signature last now ]> kept) (max_age q)).

Definition get_recent_blockhashes q : list (Z * Hash * Z) :=
  (λ '(k, v), (hash_index v, k, lamports_per_signature v)) <$> map_to_list (hashes q).

Definition get_max_age q : Z := max_age q.

(** * Properties *)

Lemma retain_valid_spec last age m :
  (∀ h info, m !! h = Some info → hash_index info ≤ last) →
  retain_valid last age m = Ret (filter (λ e, last - hash_index e.2 ≤ age) m).
Proof.
  intros Hle. unfold retain_valid. set (f := λ '(h, info) m', _).
  destruct (for_each_inv (λ don (m' : gmap Hash HashInfo), ∀ h info,
      m' !! h = Some info ↔ (h, info) ∈ don ∧ last - hash_index info ≤ age) f (map_to_list m) ∅)
    as (m' & -> & Hm').
  - intros h info. rewrite lookup_empty. set_solver.
  - intros don [h info] todo m' Hsplit Hm'. unfold f.
    assert (m !! h = Some info) as Hin.
    { apply elem_of_map_to_list. rewrite Hsplit. set_solver. }
    unfold is_hash_index_valid. rewrite sub_Ret by (by eapply Hle). rewrite !bind_Ret_l.
    eexists. split; [done|]. intros h' info'. rewrite elem_of_app, list_elem_of_singleton.
    assert ((h, info') ∉ don) as Hfresh.
    { pose proof (NoDup_fst_map_to_list m) as Hnd. rewrite Hsplit, fmap_app, fmap_cons in Hnd.
      apply NoDup_app in Hnd as (_ & Hd & _). intros Hh. apply (Hd h); [|left].
      apply list_elem_of_fmap. eexists. split; [|exact Hh]. done. }
    case_leb; [|rewrite Hm'; intuition (simplify_eq; lia)].
    destruct (decide (h' = h)) as [->|Hne].
    + rewrite lookup_insert_eq. intuition congruence.
    + rewrite lookup_insert_ne, Hm' by done. intuition congruence.
  - f_equal. apply map_eq. intros h. apply option_eq. intros info.
    by rewrite map_lookup_filter_Some, Hm', elem_of_map_to_list.
Qed.

(** [q] is the queue after the registrations of [l], the newest first. *)
Record reflects q (l : list Hash) : Prop := {
  re_bound h info : hashes q !! h = Some info →
    ∃ p, hash_index info = last_hash_index q - Z.of_nat p ∧ l !! p = Some h ∧ h ∉ take p l;
  re_recent p h : l !! p = Some h → h ∉ take p l → Z.of_nat p ≤ max_age q →
    ∃ info, hashes q !! h = Some info ∧ hash_index info = last_hash_index q - Z.of_nat p;
  re_last : last_hash_ q = head l;
}.

Lemma new_reflects age : reflects (new age) [].
Proof. split; cbn; [by intros ?? ?%lookup_empty_Some|done|done]. Qed.

Lemma genesis_reflects age h lps now : reflects (genesis_hash (new age) h lps now) [h].
Proof.
  split; cbn; [| |done].
  - intros h' info [[<- <-]|[_ ?]]%lookup_insert_Some; [|by rewrite lookup_empty in *].
    exists 0%nat. cbn. split_and!; [lia|done|set_solver].
  - intros [|p] h' Hl _ _; [|by destruct p]. cbn in Hl. injection Hl as <-.
    eexists. rewrite lookup_insert_eq. split; [done|]. cbn. lia.
Qed.

Lemma register_reflects q l h lps now :
  reflects q l → 0 ≤ max_age q → last_hash_index q < u64_MAX →
  ∃ q', register_hash q h lps now = Ret q' ∧ reflects q' (h :: l) ∧ max_age q' = max_age q ∧
    last_hash_index q' = last_hash_index q + 1.
Proof.
  intros [Hb Hr Hl] Hage Hmax. unfold register_hash. rewrite add_Ret, bind_Ret_l by lia.
  set (last := last_hash_index q + 1).
  assert (∃ kept, (if max_age q <=? Z.of_nat (size (hashes q))
      then retain_valid last (max_age q) (hashes q) else Ret (hashes q)) = Ret kept ∧
    (∀ h info, kept !! h = Some info → hashes q !! h = Some info) ∧
    (∀ h info, hashes q !! h = Some info → last - hash_index info ≤ max_age q → kept !! h = Some info))
    as (kept & -> & Hsub & Hkeep).
  { case_leb; [|by eexists]. rewrite retain_valid_spec.
    - eexists. split; [done|]. split.
      + intros h' info Hh'. apply map_lookup_filter_Some in Hh'. tauto.
      + intros h' info ? ?. by apply map_lookup_filter_Some.
    - intros h' info Hh'. destruct (Hb h' info Hh') as (p & ? & _). lia. }
  rewrite bind_Ret_l. eexists. split; [done|]. split_and!; [|done|done].
  split; cbn [hashes last_hash_index max_age last_hash_]; [| |done].
  - intros h' info [[<- <-]|[Hne Hh']]%lookup_insert_Some.
    { exists 0%nat. cbn. split_and!; [lia|done|set_solver]. }
    destruct (Hb h' info (Hsub h' info Hh')) as (p & ? & ? & ?). exists (S p).
    cbn. split_and!; [lia|done|set_solver].
  - intros [|p] h' Hp Hfresh Hle; cbn in Hp.
    { injection Hp as <-. eexists. rewrite lookup_insert_eq. split; [done|]. cbn. lia. }
    cbn in Hfresh. apply not_elem_of_cons in Hfresh as [Hne Hfresh].
    destruct (Hr p h' Hp Hfresh) as (info & Hinfo & Hidx); [lia|]. exists info.
    rewrite lookup_insert_ne by done. split; [apply Hkeep; [done|lia]|lia].
Qed.

(** A hash of the list has a first position. *)
Lemma first_position (l : list Hash) h :
  h ∈ l → ∃ p, l !! p = Some h ∧ h ∉ take p l.
Proof.
  induction l as [|x l IH]; [set_solver|]. intros Hin. destruct (decide (x = h)) as [->|Hne].
  - exists 0%nat. split; [done|set_solver].
  - destruct IH as (p & ? & ?); [set_solver|]. exists (S p). split; [done|]. cbn. set_solver.
Qed.

Lemma elem_of_take_first (l : list Hash) h p n :
  l !! p = Some h → h ∉ take p l → h ∈ take n l ↔ (p < n)%nat.
Proof.
  intros Hp Hfresh. split.
  - intros Hin. destruct (decide (p < n)%nat) as [|Hge]; [done|]. exfalso. apply Hfresh.
    rewrite list_elem_of_lookup in Hin |- *. destruct Hin as [i Hi].
    apply lookup_take_Some in Hi as [Hi Hlt]. exists i. apply lookup_take_Some. split; [done|lia].
  - intros Hlt. apply list_elem_of_lookup. exists p. apply lookup_take_Some. done.
Qed.

Lemma valid_for_age_spec q l h age :
  reflects q l → 0 ≤ age ≤ max_age q →
  is_hash_valid_for_age q h age = Ret (bool_decide (h ∈ take (S (Z.to_nat age)) l)).
Proof.
  intros [Hb Hr _] Hage. unfold is_hash_valid_for_age, get_hash_info_if_valid.
  destruct (hashes q !! h) as [info|] eqn:E.
  - destruct (Hb h info E) as (p & Hidx & Hp & Hfresh). unfold is_hash_index_valid.
    rewrite sub_Ret, !bind_Ret_l by lia. f_equal. symmetry.
    case_leb; cbn [is_some]; [apply bool_decide_eq_true|apply bool_decide_eq_false];
      rewrite (elem_of_take_first l h p) by done; lia.
  - rewrite bind_Ret_l. f_equal. symmetry. apply bool_decide_eq_false. intros Hin.
    destruct (first_position l h) as (p & Hp & Hfresh).
    { apply list_elem_of_lookup in Hin as [i Hi]. apply lookup_take_Some in Hi as [Hi _].
      by eapply list_elem_of_lookup_2. }
    apply (elem_of_take_first l h p) in Hin; [|done..].
    destruct (Hr p h Hp Hfresh) as (info & ? & _); [lia|congruence].
Qed.

Lemma last_hash_spec q h l : reflects q (h :: l) → last_hash q = Ret h.
Proof. intros [_ _ Hl]. unfold last_hash. by rewrite Hl. Qed.

(** The last hash is in the queue. *)
Lemma last_hash_info q h l :
  reflects q (h :: l) → 0 ≤ max_age q → is_Some (get_lamports_per_signature q h).
Proof.
  intros [_ Hr _] Hage. destruct (Hr 0%nat h) as (info & Hi & _); [done|set_solver|lia|].
  unfold get_lamports_per_signature. by rewrite Hi.
Qed.

End queue.
End Queue.
