(* ===== verification/Bank.v ===== *)
(** Banks and their forks: the part of a bank (runtime/src/bank.rs) that decides
    whether a transaction is processed again, the transaction checks
    (runtime/src/bank/check_transactions.rs), the tree of banks
    (runtime/src/bank_forks.rs) with the roots that are set in it
    (runtime/src/snapshot_controller.rs), and the removal of a duplicate slot
    (core/src/replay_stage.rs).

    A bank is shared by its children and by [BankForks], and squashing changes it
    in place: the banks live in a heap, by their [bank_id], and [Node] is the
    heap with what the banks share.  The accounts of a bank are a function that
    its transactions replace; their storage, the fees and the sysvars are not
    part of the model. *)
From S2P Require Import Prelude Bytes TransactionView.
From S2P Require Import RollingBitField StatusCache BlockhashQueue.

(** What banks use of the crates solana-nonce, solana-nonce-account and
    solana-sdk-ids, of the features and of the compute budget. *)
Class BankSdk := {
  Account : Type;
  NonceData : Type;
  (** [SVMTransactionExecutionAndFeeBudgetLimits], and the same with
      [FeeDetails::default()]. *)
  BudgetAndLimits : Type;
  without_fee_details : BudgetAndLimits → BudgetAndLimits;
  system_program_id : Pubkey;
  (** [DurableNonce::from_blockhash(..).as_hash()]. *)
  durable_nonce : Hash → Hash;
  (** [nonce_account::verify_nonce_account]. *)
  verify_nonce_account : Account → Hash → option NonceData;
  nonce_authority : NonceData → Pubkey;
  nonce_lamports_per_signature : NonceData → Z;
  (** The account with [NonceState::new_initialized(authority, nonce, lamports)],
      unless [set_state] fails. *)
  set_nonce_state : Account → Pubkey → Hash → Z → option Account;
}.

(** The errors of [TransactionError] that are returned here, and the others. *)
Inductive TransactionError :=
| BlockhashNotFound
| AlreadyProcessed
| OtherTransactionError (code : Z).

Abbreviation BankId := Z (only parsing).

(** [RuntimeTransaction]: the message, its hash and the limits that its compute
    budget instructions ask for. *)
Record Tx `{!BankSdk} := mkTx {
  message_hash : Hash;
  recent_blockhash : Hash;
  signature : list Z;
  account_keys : list Pubkey;
  num_static_account_keys : Z;
  instructions : list SVMInstruction;
  is_writable : Z → bool;
  is_signer : Z → bool;
  compute_budget_and_limits : result BudgetAndLimits TransactionError;
}.

(** [NonceInfo] and [CheckedTransactionDetails] (svm/src). *)
Record CheckedTransactionDetails `{!BankSdk} := mkDetails {
  nonce : option (Pubkey * Account);
  limits : result BudgetAndLimits TransactionError;
}.

Record Bank `{!BitVecOps, !BankSdk} := mkBank {
  slot : Slot;
  parent : option BankId;
  ancestors : Ancestors;
  blockhash_queue : BlockhashQueue;
  ticks_per_slot : Z;
  tick_height : Z;
  max_tick_height : Z;
  block_height : Z;
  freeze_started : bool;
  governor_lamports_per_signature : Z;
  require_static_nonce_account : bool;
  get_account : Pubkey → option Account;
}.

Record BankForks := mkForks {
  banks : gmap Slot BankId;
  descendants : gmap Slot (gset Slot);
  root : Slot;
}.

Abbreviation BankStatusCache := (StatusCache (result unit TransactionError)) (only parsing).

Record Node `{!BitVecOps, !BankSdk} := mkNode {
  heap : gmap BankId Bank;
  bank_id_generator : Z;
  status_cache : BankStatusCache;
  forks : BankForks;
  latest_abs_request_slot : Slot;
}.

Section bank.
Context `{!ClockConstants, !BitVecOps, !BankSdk}.
Implicit Types (n : Node) (b : Bank) (tx : Tx).

Definition set_heap n h : Node :=
  mkNode _ _ h (bank_id_generator n) (status_cache n) (forks n) (latest_abs_request_slot n).
Definition set_status_cache n c : Node :=
  mkNode _ _ (heap n) (bank_id_generator n) c (forks n) (latest_abs_request_slot n).
Definition set_forks n f : Node :=
  mkNode _ _ (heap n) (bank_id_generator n) (status_cache n) f (latest_abs_request_slot n).
Definition set_latest n s : Node :=
  mkNode _ _ (heap n) (bank_id_generator n) (status_cache n) (forks n) s.

Definition get_bank n (id : BankId) : outcome Bank := unwrap (heap n !! id).
Definition put_bank n (id : BankId) b : Node := set_heap n (<[ id := b ]> (heap n)).

Definition set_parent b p : Bank :=
  mkBank _ _ (slot b) p (ancestors b) (blockhash_queue b) (ticks_per_slot b) (tick_height b)
    (max_tick_height b) (block_height b) (freeze_started b) (governor_lamports_per_signature b)
    (require_static_nonce_account b) (get_account b).
Definition set_frozen b : Bank :=
  mkBank _ _ (slot b) (parent b) (ancestors b) (blockhash_queue b) (ticks_per_slot b) (tick_height b)
    (max_tick_height b) (block_height b) true (governor_lamports_per_signature b)
    (require_static_nonce_account b) (get_account b).
Definition set_tick b q t : Bank :=
  mkBank _ _ (slot b) (parent b) (ancestors b) q (ticks_per_slot b) t
    (max_tick_height b) (block_height b) (freeze_started b) (governor_lamports_per_signature b)
    (require_static_nonce_account b) (get_account b).
Definition set_accounts b f : Bank :=
  mkBank _ _ (slot b) (parent b) (ancestors b) (blockhash_queue b) (ticks_per_slot b) (tick_height b)
    (max_tick_height b) (block_height b) (freeze_started b) (governor_lamports_per_signature b)
    (require_static_nonce_account b) f.

(** * The life of a bank *)

(** The loop of [parents]. *)
Fixpoint parents_from (fuel : nat) n (bank : option BankId) : outcome (list BankId) :=
  match bank with
  | None => Ret []
  | Some id =>
      match fuel with
      | O => OutOfFuel
      | S fuel =>
          b ← get_bank n id;
          rest ← parents_from fuel n (parent b);
          Ret (id :: rest)
      end
  end.

Definition parents n (id : BankId) : outcome (list BankId) :=
  b ← get_bank n id;
  parents_from (size (heap n)) n (parent b).

(** The slots of banks. *)
Fixpoint slots_of n (ids : list BankId) : outcome (list Slot) :=
  match ids with
  | [] => Ret []
  | id :: ids =>
      b ← get_bank n id;
      rest ← slots_of n ids;
      Ret (slot b :: rest)
  end.

Definition freeze n (id : BankId) : outcome Node :=
  b ← get_bank n id;
  Ret (put_bank n id (set_frozen b)).

Definition is_block_boundary b (tick_height : Z) : bool := tick_height =? max_tick_height b.

Definition is_complete b : bool := tick_height b =? max_tick_height b.

(** [process_genesis_config] and [new_with_paths], for slot 0. *)
Definition genesis_bank (genesis_hash : Hash) (lamports now ticks : Z) (static : bool)
    (accounts : Pubkey → option Account) : outcome Bank :=
  anc ← Anc.from [0];
  Ret (mkBank _ _ 0 None anc
    (Queue.genesis_hash (Queue.new MAX_RECENT_BLOCKHASHES) genesis_hash lamports now)
    ticks 0 ((0 + 1) * ticks) 0 false lamports static accounts).

(** [_new_from_parent]: returns the new bank's id.  [lamports] is what the fee
    governor derives. *)
Definition new_from_parent n (pid : BankId) (new_slot : Slot) (lamports : Z) (static : bool)
    : outcome (BankId * Node) :=
  n ← freeze n pid;
  p ← get_bank n pid;
  _ ← assert_ (negb (new_slot =? slot p));
  id ← add_ u64_MAX (bank_id_generator n) 1;
  slot1 ← unwrap (checked_add u64_MAX new_slot 1);
  max_tick ← (if slot1 * ticks_per_slot p <=? u64_MAX then Ret (slot1 * ticks_per_slot p) else Panic);
  height ← unwrap (checked_add u64_MAX (block_height p) 1);
  ps ← parents_from (size (heap n)) n (Some pid);
  slots ← slots_of n ps;
  anc ← Anc.from (new_slot :: slots);
  let b := mkBank _ _ new_slot (Some pid) anc (blockhash_queue p) (ticks_per_slot p) (tick_height p)
             max_tick height false lamports static (get_account p) in
  Ret (id, mkNode _ _ (<[ id := b ]> (heap n)) id (status_cache n) (forks n)
             (latest_abs_request_slot n)).

Definition register_recent_blockhash b (blockhash : Hash) (now : Z) : outcome BlockhashQueue :=
  Queue.register_hash (blockhash_queue b) blockhash (governor_lamports_per_signature b) now.

Definition register_tick n (id : BankId) (hash : Hash) (now : Z) : outcome Node :=
  b ← get_bank n id;
  _ ← assert_ (negb (freeze_started b));
  next ← add_ u64_MAX (tick_height b) 1;
  queue ← (if is_block_boundary b next then register_recent_blockhash b hash now
           else Ret (blockhash_queue b));
  Ret (put_bank n id (set_tick b queue next)).

(** [squash]: the bank and all its parents are roots of the status cache; it has
    no parent any more.  The roots of the accounts are not modelled. *)
Definition squash n (id : BankId) : outcome Node :=
  n ← freeze n id;
  b ← get_bank n id;
  ps ← parents n id;
  parent_slots ← slots_of n ps;
  let roots := slot b :: parent_slots in
  let n := put_bank n id (set_parent b None) in
  Ret (set_status_cache n (foldl Cache.add_root (status_cache n) roots)).

(** * Checking transactions *)

(** [SVMMessage::get_durable_nonce] (svm-transaction/src/svm_message.rs). *)
Definition NONCED_TX_MARKER_IX_INDEX : nat := 0.

Definition is_advance_nonce tx (ix : SVMInstruction) : bool :=
  match account_keys tx !! Z.to_nat (program_id_index ix) with
  | Some program_id => program_id =? system_program_id
  | None => false
  end && bool_decide (4 ≤ length (data ix))%nat &&
  bool_decide (take 4 (data ix) = to_le_bytes 4 4).

Definition get_durable_nonce tx (require_static_nonce_account : bool) : option Pubkey :=
  match instructions tx !! NONCED_TX_MARKER_IX_INDEX with
  | Some ix =>
      if is_advance_nonce tx ix then
        match accounts ix with
        | [] => None
        | index :: _ =>
            if (require_static_nonce_account && (num_static_account_keys tx <=? index))
               || negb (is_writable tx index) then None
            else account_keys tx !! Z.to_nat index
        end
      else None
  | None => None
  end.

Definition get_ix_signers tx (index : nat) : list Pubkey :=
  match instructions tx !! index with
  | None => []
  | Some ix =>
      omap (λ i, account_keys tx !! Z.to_nat i) (filter (λ i, is_signer tx i = true) (accounts ix))
  end.

Definition load_message_nonce_account b tx : option (Pubkey * Account * NonceData) :=
  nonce_address ← get_durable_nonce tx (require_static_nonce_account b);
  nonce_account ← get_account b nonce_address;
  nonce_data ← verify_nonce_account nonce_account (recent_blockhash tx);
  if bool_decide (nonce_authority nonce_data ∈ get_ix_signers tx NONCED_TX_MARKER_IX_INDEX)
  then Some (nonce_address, nonce_account, nonce_data) else None.

Definition check_load_and_advance_message_nonce_account b tx (next_durable_nonce : Hash)
    (next_lamports_per_signature : Z) : option ((Pubkey * Account) * Z) :=
  if recent_blockhash tx =? next_durable_nonce then None
  else
    '(nonce_address, nonce_account, nonce_data) ← load_message_nonce_account b tx;
    account ← set_nonce_state nonce_account (nonce_authority nonce_data) next_durable_nonce
                next_lamports_per_signature;
    Some ((nonce_address, account), nonce_lamports_per_signature nonce_data).

Definition checked_transactions_details_with_test_override (nonce : option (Pubkey * Account))
    (lamports_per_signature : Z) (limits : result BudgetAndLimits TransactionError)
    : CheckedTransactionDetails :=
  mkDetails _ nonce
    (if lamports_per_signature =? 0 then
       match limits with Ok v => Ok (without_fee_details v) | Err e => Err e end
     else limits).

Definition check_transaction_age b tx (max_age : Z) (next_durable_nonce : Hash)
    (next_lamports_per_signature : Z)
    : outcome (result CheckedTransactionDetails TransactionError) :=
  info ← Queue.get_hash_info_if_valid (blockhash_queue b) (recent_blockhash tx) max_age;
  Ret match info with
      | Some hash_info =>
          Ok (checked_transactions_details_with_test_override None
                (lamports_per_signature hash_info) (compute_budget_and_limits tx))
      | None =>
          match check_load_and_advance_message_nonce_account b tx next_durable_nonce
                  next_lamports_per_signature with
          | Some (nonce, previous_lamports_per_signature) =>
              Ok (checked_transactions_details_with_test_override (Some nonce)
                    previous_lamports_per_signature (compute_budget_and_limits tx))
          | None => Err BlockhashNotFound
          end
      end.

(** [zip] and [map] with a body that can panic. *)
Fixpoint map_zip {A B C} (f : A → B → outcome C) (l : list A) (l' : list B) : outcome (list C) :=
  match l, l' with
  | a :: l, x :: l' => c ← f a x; rest ← map_zip f l l'; Ret (c :: rest)
  | _, _ => Ret []
  end.

Definition check_age_and_compute_budget_limits b (txs : list Tx)
    (lock_results : list (result unit TransactionError)) (max_age : Z)
    : outcome (list (result CheckedTransactionDetails TransactionError)) :=
  let hash_queue := blockhash_queue b in
  last_blockhash ← Queue.last_hash hash_queue;
  let next_durable_nonce := durable_nonce last_blockhash in
  next_lamports_per_signature ← unwrap (Queue.get_lamports_per_signature hash_queue last_blockhash);
  map_zip (λ tx lock_res,
      match lock_res with
      | Ok _ => check_transaction_age b tx max_age next_durable_nonce next_lamports_per_signature
      | Err e => Ret (Err e)
      end) txs lock_results.

Definition is_transaction_already_processed n b tx : outcome bool :=
  status ← Cache.get_status (status_cache n) (key_bytes (message_hash tx)) (recent_blockhash tx)
             (ancestors b);
  Ret (is_some status).

Definition check_status_cache n b (txs : list Tx)
    (lock_results : list (result CheckedTransactionDetails TransactionError))
    : outcome (list (result CheckedTransactionDetails TransactionError)) :=
  map_zip (λ tx lock_result,
      match lock_result with
      | Ok details =>
          processed ← is_transaction_already_processed n b tx;
          Ret (if processed : bool then Err AlreadyProcessed else Ok details)
      | Err e => Ret (Err e)
      end) txs lock_results.

Definition check_transactions n b (txs : list Tx)
    (lock_results : list (result unit TransactionError)) (max_age : Z)
    : outcome (list (result CheckedTransactionDetails TransactionError)) :=
  results ← check_age_and_compute_budget_limits b txs lock_results max_age;
  check_status_cache n b txs results.

(** * Recording transactions *)

(** One transaction of [update_transaction_statuses]: the message hash and the
    signature, with the draws of the two insertions. *)
Definition record_transaction (bank_slot : Slot) tx (status : result unit TransactionError)
    (draws : Z * Z) (c : BankStatusCache) : outcome BankStatusCache :=
  c ← Cache.insert c (recent_blockhash tx) (key_bytes (message_hash tx)) bank_slot status draws.1;
  Cache.insert c (recent_blockhash tx) (signature tx) bank_slot status draws.2.

(** [update_transaction_statuses]: a processing result is the status of a
    processed transaction, or why it was not processed.  Lists of different
    lengths panic, as [assert_eq!] does. *)
Fixpoint update_transaction_statuses (bank_slot : Slot) (txs : list Tx)
    (processing_results : list (result (result unit TransactionError) TransactionError))
    (draws : list (Z * Z)) (c : BankStatusCache) : outcome BankStatusCache :=
  match txs, processing_results, draws with
  | tx :: txs, res :: results, d :: draws =>
      c ← match res with
          | Ok status => record_transaction bank_slot tx status d c
          | Err _ => Ret c
          end;
      update_transaction_statuses bank_slot txs results draws c
  | [], [], [] => Ret c
  | _, _, _ => Panic
  end.

Definition clear_slot_signatures n (s : Slot) : outcome Node :=
  c ← Cache.clear_slot_entries (status_cache n) s;
  Ret (set_status_cache n c).

(** * The tree of banks *)

Definition proper_ancestors b : list Slot := filter (λ s, s ≠ slot b) (Anc.keys (ancestors b)).

(** [descendants.entry(parent).or_default().insert(slot)]. *)
Definition add_descendant (s : Slot) (d : gmap Slot (gset Slot)) (p : Slot) : gmap Slot (gset Slot) :=
  <[ p := {[ s ]} ∪ default ∅ (d !! p) ]> d.

Definition insert_bank n (id : BankId) : outcome Node :=
  b ← get_bank n id;
  let f := forks n in
  _ ← assert_ (negb (is_some (banks f !! slot b)));
  let d := <[ slot b := default ∅ (descendants f !! slot b) ]> (descendants f) in
  let d := foldl (add_descendant (slot b)) d (proper_ancestors b) in
  Ret (set_forks n (mkForks (<[ slot b := id ]> (banks f)) d (root f))).

(** One ancestor of [remove]. *)
Definition drop_descendant (bs : gmap Slot BankId) (s p : Slot) (d : gmap Slot (gset Slot))
    : outcome (gmap Slot (gset Slot)) :=
  entry ← unwrap (d !! p : option (gset Slot));
  let entry := entry ∖ {[ s ]} in
  Ret (if bool_decide (entry = ∅) && negb (is_some (bs !! p)) then delete p d
       else <[ p := entry ]> d).

Definition remove_bank n (s : Slot) : outcome (option BankId * Node) :=
  let f := forks n in
  match banks f !! s with
  | None => Ret (None, n)
  | Some id =>
      b ← get_bank n id;
      let bs := delete s (banks f) in
      d ← for_each (drop_descendant bs s) (proper_ancestors b) (descendants f);
      entry ← unwrap (d !! s : option (gset Slot));
      let d := if bool_decide (entry = ∅) then delete s d else d in
      Ret (Some id, set_forks n (mkForks bs d (root f)))
  end.

(** [dump_slots]. *)
Fixpoint dump_slots n (slots : list Slot) : outcome (list BankId * Node) :=
  match slots with
  | [] => Ret ([], n)
  | s :: slots =>
      '(removed, n) ← remove_bank n s;
      id ← unwrap removed;
      '(ids, n) ← dump_slots n slots;
      Ret (id :: ids, n)
  end.

(** The slots that [prune_non_rooted] keeps. *)
Definition keep_slot (f : BankForks) (r highest : Slot) (s : Slot) : outcome bool :=
  if s =? r then Ret true
  else
    of_root ← unwrap (descendants f !! r : option (gset Slot));
    if bool_decide (s ∈ of_root) then Ret true
    else if (s <? r) && (highest <=? s) then
      of_slot ← unwrap (descendants f !! s : option (gset Slot));
      Ret (bool_decide (r ∈ of_slot))
    else Ret false.

Fixpoint slots_to_prune (f : BankForks) (r highest : Slot) (slots : list Slot) : outcome (list Slot) :=
  match slots with
  | [] => Ret []
  | s :: slots =>
      keep ← keep_slot f r highest s;
      rest ← slots_to_prune f r highest slots;
      Ret (if keep : bool then rest else s :: rest)
  end.

Definition prune_non_rooted n (r : Slot) (highest_super_majority_root : option Slot) : outcome Node :=
  let highest := default r highest_super_majority_root in
  prune ← slots_to_prune (forks n) r highest ((map_to_list (banks (forks n))).*1);
  for_each (λ s n, '(_, n) ← remove_bank n s; Ret n) prune n.

(** [SnapshotInterval::Slots(interval)], or disabled; the intervals are not 0. *)
Definition at_interval (interval : option Z) (height : Z) : bool :=
  match interval with Some i => height mod i =? 0 | None => false end.

(** [find_map] of [handle_new_roots]: the first bank to take a snapshot of. *)
Fixpoint snapshot_bank n (full incremental : option Z) (ids : list BankId) : outcome (option BankId) :=
  match ids with
  | [] => Ret None
  | id :: ids =>
      b ← get_bank n id;
      if (latest_abs_request_slot n <? slot b) &&
         (at_interval full (block_height b) || at_interval incremental (block_height b))
      then Ret (Some id) else snapshot_bank n full incremental ids
  end.

(** [handle_new_roots]: returns whether the root bank was squashed. *)
Definition handle_new_roots n (intervals : option (option Z * option Z)) (r : Slot)
    (ids : list BankId) : outcome (bool * Node) :=
  match intervals with
  | None => Ret (false, n)
  | Some (full, incremental) =>
      found ← snapshot_bank n full incremental ids;
      match found with
      | None => Ret (false, n)
      | Some id =>
          b ← get_bank n id;
          n ← squash (set_latest n (slot b)) id;
          Ret (slot b =? r, n)
      end
  end.

(** [do_set_root_return_metrics]; [controller] is the snapshot controller, with
    the intervals if snapshots are generated. *)
Definition set_root n (r : Slot) (controller : option (option (option Z * option Z)))
    (highest_super_majority_root : option Slot) : outcome Node :=
  _ ← unwrap (banks (forks n) !! root (forks n));
  let n := set_forks n (mkForks (banks (forks n)) (descendants (forks n)) r) in
  id ← unwrap (banks (forks n) !! r);
  ps ← parents n id;
  '(is_root_bank_squashed, n) ←
    match controller with
    | Some intervals => handle_new_roots n intervals r (id :: ps)
    | None => Ret (false, n)
    end;
  n ← (if is_root_bank_squashed : bool then Ret n else squash n id);
  prune_non_rooted n r highest_super_majority_root.

(** [BankForks::relationship]. *)
Inductive BlockRelation := Ancestor | Equal | Descendant | Unrelated | Unknown.

Definition highest_slot n : outcome Slot :=
  unwrap (match (map_to_list (banks (forks n))).*1 with
          | [] => None
          | s :: l => Some (foldl Z.max s l)
          end).

Definition relationship n (a b : Slot) : outcome BlockRelation :=
  highest ← highest_slot n;
  let known x := (root (forks n) <=? x) && (x <=? highest) in
  if known a && known b then
    if a =? b then Ret Equal
    else
      ancestor ← match banks (forks n) !! b with
                 | Some id => bank ← get_bank n id; Ret (Anc.contains_key (ancestors bank) a)
                 | None => Ret false
                 end;
      if ancestor : bool then Ret Ancestor
      else
        match descendants (forks n) !! b with
        | Some slots => Ret (if bool_decide (a ∈ slots) then Descendant else Unrelated)
        | None => Ret Unrelated
        end
  else Ret Unknown.

(** * Purging a duplicate slot (core/src/replay_stage.rs) *)

(** [purge_unconfirmed_duplicate_slot]: the banks of the slot and of its
    descendants are dumped, and then what the status cache has of them.  The map
    of descendants is the one that the replay stage took from the bank forks.  The
    accounts, the program cache and the blockstore are not modelled. *)
Definition purge_unconfirmed_duplicate_slot n (duplicate_slot : Slot) : outcome Node :=
  match descendants (forks n) !! duplicate_slot with
  | None => Ret n
  | Some slot_descendants =>
      let slots := elements slot_descendants ++ [duplicate_slot] in
      '(_, n) ← dump_slots n slots;
      for_each (λ s n, clear_slot_signatures n s) slots n
  end.

End bank.
