(* ===== verification/BankSteps.v ===== *)
(** What happens to the banks of a node, as a relation on states: banks are
    created on complete parents, tick, record batches of transactions, are frozen,
    become roots, and are purged as duplicates.

    The state carries a history besides the node: the line of banks that each
    bank was created on, the blockhash each bank registered, and the transactions
    that were recorded on each bank after their blockhash was found recent.  The
    code does not keep the history (squashing forgets the parents); the theorems
    are stated with it. *)
From S2P Require Import Prelude Bytes RollingBitField RollingBitFieldProps StatusCache.
From S2P Require Import StatusCacheProps BlockhashQueue Bank.

Record History := mkHistory {
  (** A bank, its parent, and so on to the genesis bank. *)
  lineage : gmap BankId (list BankId);
  block_hash : gmap BankId Hash;
  committed : list (BankId * Hash * Hash);
}.

(** The line of a bank. *)
Definition lin (g : History) (id : BankId) : list BankId := default [] (lineage g !! id).

(** The blockhashes registered on the line of a bank, the newest first, down to
    the hash of the genesis. *)
Definition chain_hashes (genesis : Hash) (g : History) (id : BankId) : list Hash :=
  omap (λ x, block_hash g !! x) (lin g id) ++ [genesis].

Section steps.
Context `{!ClockConstants, !BitVecOps, !BankSdk}.
Implicit Types (n : Node) (b : Bank) (g : History).

Context (genesis : Hash).

(** The transactions of a batch that were processed, and were accepted for their
    blockhash and not for a nonce. *)
Fixpoint recorded_by (id : BankId) (txs : list Tx)
    (checks : list (result CheckedTransactionDetails TransactionError))
    (results : list (result (result unit TransactionError) TransactionError))
    : list (BankId * Hash * Hash) :=
  match txs, checks, results with
  | tx :: txs, chk :: checks, res :: results =>
      match chk, res with
      | Ok det, Ok _ =>
          if is_some (nonce det) then [] else [(id, message_hash tx, recent_blockhash tx)]
      | _, _ => []
      end ++ recorded_by id txs checks results
  | _, _, _ => []
  end.

(** Only transactions that pass the checks are processed. *)
Definition only_checked (chk : result CheckedTransactionDetails TransactionError)
    (res : result (result unit TransactionError) TransactionError) : Prop :=
  is_ok res = true → is_ok chk = true.

(** The draws of the two insertions of a transaction are in range. *)
Definition draws_ok (tx : Tx) (d : Z * Z) : Prop :=
  0 ≤ d.1 ≤ Cache.max_key_index (key_bytes (message_hash tx)) ∧
  0 ≤ d.2 ≤ Cache.max_key_index (signature tx).

Inductive step : Node * History → Node * History → Prop :=
(** A child of a complete bank of the tree that is not below the root. *)
| step_new n g pslot pid p s lamports static id n1 n2 :
    root (forks n) ≤ pslot → banks (forks n) !! pslot = Some pid → heap n !! pid = Some p →
    is_complete p = true → slot p < s → ancestor_slot s →
    new_from_parent n pid s lamports static = Ret (id, n1) → insert_bank n1 id = Ret n2 →
    step (n, g)
      (n2, mkHistory (<[ id := id :: lin g pid ]> (lineage g)) (block_hash g) (committed g))
(** A tick; the hash of the last tick of a block is new on the line of the bank. *)
| step_tick n g id b hash now n' :
    heap n !! id = Some b → register_tick n id hash now = Ret n' →
    (tick_height b + 1 = max_tick_height b → hash ∉ chain_hashes genesis g id) →
    step (n, g)
      (n', if tick_height b + 1 =? max_tick_height b
           then mkHistory (lineage g) (<[ id := hash ]> (block_hash g)) (committed g) else g)
| step_freeze n g id n' :
    freeze n id = Ret n' → step (n, g) (n', g)
(** A batch of transactions that is checked, processed and recorded on a bank. *)
| step_commit n g id b txs locks max_age checks results draws accounts c :
    heap n !! id = Some b → freeze_started b = false → 0 ≤ max_age ≤ MAX_PROCESSING_AGE →
    check_transactions n b txs locks max_age = Ret checks →
    Forall2 only_checked checks results → Forall2 draws_ok txs draws →
    Forall (λ tx, length (signature tx) = 64%nat) txs →
    update_transaction_statuses (slot b) txs results draws (status_cache n) = Ret c →
    step (n, g)
      (set_status_cache (put_bank n id (set_accounts b accounts)) c,
       mkHistory (lineage g) (block_hash g) (recorded_by id txs checks results ++ committed g))
(** A complete bank that descends from the root is the new root. *)
| step_root n g r id b controller highest n' :
    banks (forks n) !! r = Some id → heap n !! id = Some b → is_complete b = true →
    r = root (forks n) ∨ r ∈ default ∅ (descendants (forks n) !! root (forks n)) →
    set_root n r controller highest = Ret n' → step (n, g) (n', g)
| step_purge n g s n' :
    root (forks n) < s → purge_unconfirmed_duplicate_slot n s = Ret n' → step (n, g) (n', g).

(** The node that starts with the genesis bank. *)
Definition genesis_node (bank : Bank) : Node :=
  mkNode _ _ {[ 0 := bank ]} 0 Cache.default_ (mkForks {[ 0 := 0 ]} {[ 0 := ∅ ]} 0) 0.

Definition genesis_history : History := mkHistory {[ 0 := [0] ]} ∅ [].

Inductive reachable : Node * History → Prop :=
| reach_genesis lamports now ticks static accounts bank :
    0 < ticks → genesis_bank genesis lamports now ticks static accounts = Ret bank →
    reachable (genesis_node bank, genesis_history)
| reach_step w w' : reachable w → step w w' → reachable w'.

(** * The invariant *)

(** The statuses of a slot are found, or are behind [MAX_CACHE_ENTRIES] roots. *)
Definition is_root (c : BankStatusCache) (s : Slot) : Prop :=
  s ∈ roots c ∨ roots_above (roots c) s = MAX_CACHE_ENTRIES.

Definition remembers (c : BankStatusCache) (bh m : Hash) (s : Slot) : Prop :=
  recorded c bh (key_bytes m) s ∨ roots_above (roots c) s = MAX_CACHE_ENTRIES.

(** The bank at the root. *)
Definition root_id n : BankId := default 0 (banks (forks n) !! root (forks n)).

(** A bank of the line of [id], with slot [s]. *)
Definition on_line n g (id : BankId) (s : Slot) : Prop :=
  ∃ x xb, x ∈ lin g id ∧ heap n !! x = Some xb ∧ slot xb = s.

(** The line of a bank goes down to the genesis bank over complete and frozen
    banks of lower slots. *)
Record tree_ok n g : Prop := {
  t_line id b : heap n !! id = Some b →
    ∃ L, lineage g !! id = Some (id :: L) ∧
      match L with
      | [] => id = 0
      | p :: _ => lineage g !! p = Some L ∧ ∃ pb, heap n !! p = Some pb ∧ slot pb < slot b ∧
          is_complete pb = true ∧ freeze_started pb = true
      end;
  t_genesis : lineage g !! 0 = Some [0];
  t_dom id L : lineage g !! id = Some L → is_Some (heap n !! id);
  t_ids id b : heap n !! id = Some b → 0 ≤ id ≤ bank_id_generator n;
  t_slot id b : heap n !! id = Some b → ancestor_slot (slot b);
  t_parent id b p : heap n !! id = Some b → parent b = Some p →
    lin g id = id :: lin g p ∧ is_Some (heap n !! p);
  t_ticks id b : heap n !! id = Some b →
    0 < ticks_per_slot b ∧ max_tick_height b = (slot b + 1) * ticks_per_slot b;
  t_hash id b : heap n !! id = Some b →
    (tick_height b < max_tick_height b → block_hash g !! id = None) ∧
    (tick_height b = max_tick_height b → is_Some (block_hash g !! id));
  t_hash_dom id h : block_hash g !! id = Some h → is_Some (heap n !! id);
}.

Record queue_ok n g : Prop := {
  q_reflects id b : heap n !! id = Some b →
    Queue.reflects (blockhash_queue b) (chain_hashes genesis g id);
  q_age id b : heap n !! id = Some b → max_age (blockhash_queue b) = MAX_RECENT_BLOCKHASHES;
  q_fresh id b : heap n !! id = Some b → NoDup (chain_hashes genesis g id);
}.

(** The ancestors of a bank are its line, at least down to the root, and further
    down to what the status cache has as a root. *)
Record ancestors_ok n g : Prop := {
  a_wf id b : heap n !! id = Some b → wf (Anc.ancestors (ancestors b));
  a_line id b s : heap n !! id = Some b → s ∈ items (Anc.ancestors (ancestors b)) → on_line n g id s;
  a_above id b x xb : heap n !! id = Some b → x ∈ lin g id → heap n !! x = Some xb →
    root_id n ∈ lin g x → slot xb ∈ items (Anc.ancestors (ancestors b));
  a_below id b x xb : heap n !! id = Some b → x ∈ lin g id → heap n !! x = Some xb →
    slot xb ∈ items (Anc.ancestors (ancestors b)) ∨ is_root (status_cache n) (slot xb);
  a_none id b : heap n !! id = Some b → parent b = None → id ∈ lin g (root_id n);
}.

(** The tree of banks holds the root and banks on its line or above it. *)
Record forks_ok n g : Prop := {
  f_root : is_Some (banks (forks n) !! root (forks n));
  f_done b : heap n !! root_id n = Some b →
    is_complete b = true ∧ freeze_started b = true ∨ root_id n = 0;
  f_bank s id : banks (forks n) !! s = Some id → ∃ b, heap n !! id = Some b ∧ slot b = s;
  f_line s id : banks (forks n) !! s = Some id → root_id n ∈ lin g id ∨ id ∈ lin g (root_id n);
  f_closed s id x xb : banks (forks n) !! s = Some id → x ∈ lin g id → heap n !! x = Some xb →
    root_id n ∈ lin g x → banks (forks n) !! slot xb = Some x;
  f_desc a s : s ∈ default ∅ (descendants (forks n) !! a) ↔
    ∃ id b, banks (forks n) !! s = Some id ∧ heap n !! id = Some b ∧ a ∈ proper_ancestors b;
  f_keys a : is_Some (descendants (forks n) !! a) ↔
    is_Some (banks (forks n) !! a) ∨ default ∅ (descendants (forks n) !! a) ≠ ∅;
}.

Record cache_ok n g : Prop := {
  c_wf : wf_cache (status_cache n);
  c_roots s : s ∈ roots (status_cache n) → on_line n g (root_id n) s;
  c_root x xb : x ∈ lin g (root_id n) → heap n !! x = Some xb → is_root (status_cache n) (slot xb);
  c_hash x m bh : (x, m, bh) ∈ committed g → bh ∈ chain_hashes genesis g x ∧ is_Some (heap n !! x);
  c_remembers x m bh xb s d : (x, m, bh) ∈ committed g → heap n !! x = Some xb →
    banks (forks n) !! s = Some d → x ∈ lin g d → remembers (status_cache n) bh m (slot xb);
}.

Record node_ok (w : Node * History) : Prop := {
  ok_tree : tree_ok w.1 w.2;
  ok_queue : queue_ok w.1 w.2;
  ok_ancestors : ancestors_ok w.1 w.2;
  ok_forks : forks_ok w.1 w.2;
  ok_cache : cache_ok w.1 w.2;
}.

End steps.

(** * Lines *)

(** The lines of banks: what the invariant of the tree says about two banks of
    one line, and about the blockhashes that are registered between them. *)

Section lines.
Context `{!ClockConstants, !ClockLaws, !BitVecOps, !BitVecLaws, !BankSdk}.
Implicit Types (b : Bank).
Context (n : Node) (g : History) (Ht : tree_ok n g).

(** A bank is the genesis bank or has a parent on its line. *)
Lemma line_cases id b :
  heap n !! id = Some b →
  lin g id = [id] ∧ id = 0 ∨
  ∃ p pb, lin g id = id :: lin g p ∧ heap n !! p = Some pb ∧ slot pb < slot b ∧
    is_complete pb = true ∧ freeze_started pb = true.
Proof.
  intros Hb. destruct (t_line n g Ht id b Hb) as ([|p L] & Hlin & HL); unfold lin; rewrite Hlin.
  - by left.
  - right. destruct HL as (Hp & pb & Hpb). exists p, pb. rewrite Hp. tauto.
Qed.

Lemma line_ind (P : BankId → Prop) :
  (∀ b, heap n !! 0 = Some b → lin g 0 = [0] → P 0) →
  (∀ id b p pb, heap n !! id = Some b → heap n !! p = Some pb → lin g id = id :: lin g p →
     slot pb < slot b → is_complete pb = true → freeze_started pb = true → P p → P id) →
  ∀ id b, heap n !! id = Some b → P id.
Proof.
  intros Hbase Hstep.
  assert (∀ k id b, heap n !! id = Some b → (length (lin g id) < k)%nat → P id) as Hall; [|eauto].
  induction k as [|k IH]; intros id b Hb Hk; [lia|].
  destruct (line_cases id b Hb) as [[Hl ->]|(p & pb & Hl & Hp & Hs & Hc & Hf)].
  - by eapply Hbase.
  - eapply Hstep; [done..|]. eapply IH; [done|]. rewrite Hl in Hk. cbn in Hk. lia.
Qed.

Lemma line_self id b : heap n !! id = Some b → id ∈ lin g id.
Proof. intros Hb. destruct (line_cases id b Hb) as [[-> _]|(p & pb & -> & _)]; left. Qed.

(** The banks of a line are in the heap, and their lines are the rest of it. *)
Lemma line_suffix id b x :
  heap n !! id = Some b → x ∈ lin g id →
  ∃ xb L, heap n !! x = Some xb ∧ lin g id = L ++ lin g x ∧ slot xb ≤ slot b ∧
    (x = id ∨ slot xb < slot b ∧ is_complete xb = true ∧ freeze_started xb = true) ∧
    ∀ y yb, y ∈ L → heap n !! y = Some yb → slot xb < slot yb.
Proof.
  revert b. pattern id. intros b Hb. revert b Hb.
  refine (λ b Hb, line_ind (λ id, ∀ b, heap n !! id = Some b → x ∈ lin g id → _) _ _ id b Hb b Hb).
  - intros b0 _ Hl b1 Hb1 Hx. rewrite Hl in Hx. apply list_elem_of_singleton in Hx as ->.
    exists b1, []. split_and!; [done..|lia|by left|set_solver].
  - intros id' b' p pb Hb' Hp Hl Hs Hc Hf IH b1 Hb1 Hx.
    assert (b1 = b') as -> by congruence. clear Hb1.
    rewrite Hl in Hx. apply elem_of_cons in Hx as [->|Hx].
    + exists b', []. split_and!; [done..|lia|by left|set_solver].
    + destruct (IH pb Hp Hx) as (xb & L & Hxb & HL & Hle & Hcase & Hbefore).
      exists xb, (id' :: L). split_and!; [done|by rewrite Hl, HL|lia| |].
      * right. destruct Hcase as [->|(? & ? & ?)]; [|split_and!; done || lia].
        assert (xb = pb) as -> by congruence. done.
      * intros y yb [->|Hy]%elem_of_cons Hyb; [|by eapply Hbefore].
        assert (yb = b') as -> by congruence. lia.
Qed.

Lemma line_heap id b x : heap n !! id = Some b → x ∈ lin g id → is_Some (heap n !! x).
Proof. intros Hb Hx. destruct (line_suffix id b x Hb Hx) as (xb & L & -> & _). done. Qed.

Lemma line_trans id b x y :
  heap n !! id = Some b → x ∈ lin g id → y ∈ lin g x → y ∈ lin g id.
Proof. intros Hb Hx Hy. destruct (line_suffix id b x Hb Hx) as (xb & L & _ & -> & _). set_solver. Qed.

(** Of two banks of a line, the one with the lower slot is on the line of the
    other. *)
Lemma line_order id b x xb y yb :
  heap n !! id = Some b → x ∈ lin g id → y ∈ lin g id →
  heap n !! x = Some xb → heap n !! y = Some yb → slot xb ≤ slot yb → x ∈ lin g y.
Proof.
  intros Hb Hx Hy Hxb Hyb Hle.
  destruct (line_suffix id b x Hb Hx) as (xb' & L & ? & HL & _ & _ & Hbefore).
  destruct (line_suffix id b y Hb Hy) as (yb' & L' & Hyb' & HL' & _ & _ & Hbefore').
  assert (yb' = yb) as -> by congruence.
  rewrite HL' in Hx. apply elem_of_app in Hx as [Hx|Hx]; [|done].
  pose proof (Hbefore' x xb Hx Hxb). lia.
Qed.

Lemma line_slot_inj id b x xb y yb :
  heap n !! id = Some b → x ∈ lin g id → y ∈ lin g id →
  heap n !! x = Some xb → heap n !! y = Some yb → slot xb = slot yb → x = y.
Proof.
  intros Hb Hx Hy Hxb Hyb Heq.
  assert (x ∈ lin g y) as Hxy by (by eapply (line_order id b x xb y yb); [..|lia]).
  destruct (line_suffix y yb x Hyb Hxy) as (xb' & L & ? & _ & _ & Hcase & _).
  assert (xb' = xb) as -> by congruence. destruct Hcase as [|(? & _)]; [done|lia].
Qed.

Lemma line_slot_le id b x xb :
  heap n !! id = Some b → x ∈ lin g id → heap n !! x = Some xb → slot xb ≤ slot b.
Proof. intros Hb Hx Hxb. destruct (line_suffix id b x Hb Hx) as (? & ? & ? & _ & ? & _). by simplify_eq. Qed.

(** A bank below another one of a line is complete and frozen. *)
Lemma line_proper id b x xb :
  heap n !! id = Some b → x ∈ lin g id → heap n !! x = Some xb → x ≠ id →
  slot xb < slot b ∧ is_complete xb = true ∧ freeze_started xb = true.
Proof.
  intros Hb Hx Hxb Hne. destruct (line_suffix id b x Hb Hx) as (? & ? & ? & _ & _ & Hcase & _).
  simplify_eq. by destruct Hcase.
Qed.

Lemma line_NoDup id b : heap n !! id = Some b → NoDup (lin g id).
Proof.
  intros Hb. refine (line_ind (λ id, NoDup (lin g id)) _ _ id b Hb).
  - intros _ _ ->. apply NoDup_singleton.
  - intros id' b' p pb Hb' Hp Hl Hs _ _ IH. rewrite Hl. apply NoDup_cons. split; [|done].
    intros Hin. pose proof (line_slot_le p pb id' b' Hp Hin Hb'). lia.
Qed.

(** ** Blockhashes *)

Lemma chain_hashes_app genesis id b x :
  heap n !! id = Some b → x ∈ lin g id →
  ∃ L, lin g id = L ++ lin g x ∧
    chain_hashes genesis g id = omap (λ y, block_hash g !! y) L ++ chain_hashes genesis g x.
Proof.
  intros Hb Hx. destruct (line_suffix id b x Hb Hx) as (xb & L & _ & HL & _). exists L.
  split; [done|]. unfold chain_hashes. by rewrite HL, omap_app, app_assoc.
Qed.

Lemma complete_hash id b : heap n !! id = Some b → is_complete b = true → is_Some (block_hash g !! id).
Proof. intros Hb Hc. apply (t_hash n g Ht id b Hb). unfold is_complete in Hc. by bsimp. Qed.

(** A blockhash that was known on [x] is behind the hashes of the banks of [Y]
    on a line above [x]. *)
Lemma hash_behind genesis id b x xb bh (Y : gset BankId) age :
  heap n !! id = Some b → x ∈ lin g id → heap n !! x = Some xb →
  NoDup (chain_hashes genesis g id) → bh ∈ chain_hashes genesis g x →
  (∀ y, y ∈ Y → y ∈ lin g id ∧ is_Some (block_hash g !! y) ∧ y ∉ lin g x) →
  (age < size Y)%nat → bh ∉ take (S age) (chain_hashes genesis g id).
Proof.
  intros Hb Hx Hxb Hnd Hbh HY Hsize.
  destruct (chain_hashes_app genesis id b x Hb Hx) as (L & HL & Hchain).
  set (hs := omap _ L) in Hchain.
  assert (size Y ≤ length hs)%nat as Hlen.
  { assert (length (filter (λ y, is_Some (block_hash g !! y)) L) = length hs) as <-.
    { unfold hs. clear. induction L as [|y L IH]; [done|]. rewrite filter_cons. cbn.
      destruct (block_hash g !! y) as [h|] eqn:E; [rewrite decide_True by eauto|rewrite decide_False by (by intros [])];
        cbn; [f_equal|]; done. }
    rewrite <-(size_list_to_set (C := gset BankId)).
    - apply subseteq_size. intros y Hy. destruct (HY y Hy) as (Hin & Hh & Hnot).
      rewrite elem_of_list_to_set, list_elem_of_filter. rewrite HL in Hin. set_solver.
    - apply NoDup_filter. pose proof (line_NoDup id b Hb) as HndL. rewrite HL in HndL.
      apply NoDup_app in HndL. tauto. }
  rewrite Hchain, take_app_le by lia. rewrite Hchain in Hnd. apply NoDup_app in Hnd as (_ & Hd & _).
  intros Hin. apply (Hd bh); [|done]. apply list_elem_of_lookup in Hin as [i Hi].
  apply lookup_take_Some in Hi as [Hi _]. by eapply list_elem_of_lookup_2.
Qed.

End lines.

(** The bank at the root. *)
Lemma root_bank `{!ClockConstants, !BitVecOps, !BankSdk} (n : Node) (g : History) :
  forks_ok n g → ∃ rb, heap n !! root_id n = Some rb ∧ slot rb = root (forks n) ∧
    banks (forks n) !! root (forks n) = Some (root_id n).
Proof.
  intros Hf. destruct (f_root n g Hf) as [rid Hrid]. unfold root_id. rewrite Hrid. cbn.
  destruct (f_bank n g Hf _ rid Hrid) as (rb & ? & ?). eauto.
Qed.
