(* ===== verification/BankInv.v ===== *)
(** Every step that does not set a root or purge a slot keeps the invariant. *)
From S2P Require Import Prelude Bytes RollingBitField RollingBitFieldProps StatusCache.
From S2P Require Import StatusCacheProps BlockhashQueue Bank BankSteps.

Section inv.
Context `{!ClockConstants, !ClockLaws, !BitVecOps, !BitVecLaws, !BankSdk}.
Context (genesis : Hash).
Implicit Types (n : Node) (b : Bank) (g : History).

(** * Changes that keep the tree *)

(** What no operation changes of a bank, and of a frozen bank. *)
Record bank_le b b' : Prop := {
  le_slot : slot b' = slot b;
  le_ancestors : ancestors b' = ancestors b;
  le_frozen : freeze_started b = true →
    freeze_started b' = true ∧ is_complete b' = is_complete b;
  le_parent : parent b' = parent b ∨ parent b' = None;
}.

#[export] Instance bank_le_preorder : PreOrder bank_le.
Proof.
  split.
  - intros b. constructor; auto.
  - intros b1 b2 b3 [S1 A1 F1 P1] [S2 A2 F2 P2]. constructor; [congruence|congruence| |].
    + intros Hf. destruct (F1 Hf) as [Hf2 Hc2]. rewrite <-Hc2. by apply F2.
    + destruct P1, P2; [left; congruence|by right|right; congruence|by right].
Qed.

(** The same banks, changed in that way. *)
Record evolves n n' : Prop := {
  ev_fwd id b : heap n !! id = Some b → ∃ b', heap n' !! id = Some b' ∧ bank_le b b';
  ev_bwd id b' : heap n' !! id = Some b' → ∃ b, heap n !! id = Some b ∧ bank_le b b';
  ev_gen : bank_id_generator n' = bank_id_generator n;
}.

(** No bank has ticked. *)
Definition no_ticks n n' : Prop :=
  ∀ id b b', heap n !! id = Some b → heap n' !! id = Some b' →
    blockhash_queue b' = blockhash_queue b ∧ ticks_per_slot b' = ticks_per_slot b ∧
    tick_height b' = tick_height b ∧ max_tick_height b' = max_tick_height b.

Lemma no_ticks_trans n1 n2 n3 : evolves n1 n2 → no_ticks n1 n2 → no_ticks n2 n3 → no_ticks n1 n3.
Proof.
  intros Hev H12 H23 id b1 b3 Hb1 Hb3. destruct (ev_fwd n1 n2 Hev id b1 Hb1) as (b2 & Hb2 & _).
  destruct (H12 id b1 b2 Hb1 Hb2) as (<- & <- & <- & <-). by apply (H23 id).
Qed.

#[export] Instance evolves_preorder : PreOrder evolves.
Proof.
  split.
  - intros n. constructor; [| |done].
    + intros id b Hb. exists b. split; [done|reflexivity].
    + intros id b Hb. exists b. split; [done|reflexivity].
  - intros n1 n2 n3 [F1 B1 G1] [F2 B2 G2]. constructor; [| |congruence].
    + intros id b Hb. destruct (F1 id b Hb) as (b2 & E2 & L2). destruct (F2 id b2 E2) as (b3 & E3 & L3).
      exists b3. split; [done|by etrans].
    + intros id b Hb. destruct (B2 id b Hb) as (b2 & E2 & L2). destruct (B1 id b2 E2) as (b1 & E1 & L1).
      exists b1. split; [done|by etrans].
Qed.

Lemma put_bank_evolves n id b b' :
  heap n !! id = Some b → bank_le b b' → evolves n (put_bank n id b').
Proof.
  intros Hb Hle. constructor; cbn; [| |done].
  - intros id' b0 Hb0. destruct (decide (id' = id)) as [->|Hne].
    + exists b'. rewrite lookup_insert_eq. split; [done|]. by replace b0 with b by congruence.
    + exists b0. rewrite lookup_insert_ne by done. split; [done|reflexivity].
  - intros id' b0 [[<- <-]|[Hne Hb0]]%lookup_insert_Some; [by exists b|].
    exists b0. split; [done|reflexivity].
Qed.

Lemma on_line_evolves n n' g id s : evolves n n' → on_line n g id s → on_line n' g id s.
Proof.
  intros Hev (x & xb & Hx & Hxb & <-). destruct (ev_fwd n n' Hev x xb Hxb) as (xb' & ? & Hle).
  exists x, xb'. split_and!; [done..|]. apply Hle.
Qed.

(** The tree, when the hashes of the banks are consistent with their ticks. *)
Lemma tree_evolves n n' g hash com :
  evolves n n' → tree_ok n g →
  (∀ id b, heap n' !! id = Some b →
     0 < ticks_per_slot b ∧ max_tick_height b = (slot b + 1) * ticks_per_slot b ∧
     (tick_height b < max_tick_height b → hash !! id = None) ∧
     (tick_height b = max_tick_height b → is_Some (hash !! id))) →
  (∀ id h, hash !! id = Some h → is_Some (heap n !! id)) →
  tree_ok n' (mkHistory (lineage g) hash com).
Proof.
  intros Hev Ht Hticks Hdom. constructor; cbn [lineage block_hash].
  - intros id b' Hb'. destruct (ev_bwd n n' Hev id b' Hb') as (b & Hb & Hle).
    destruct (t_line n g Ht id b Hb) as (L & HL & Hrest). exists L. split; [done|].
    destruct L as [|p L]; [done|]. destruct Hrest as (Hp & pb & Hpb & Hs & Hc & Hf).
    split; [done|]. destruct (ev_fwd n n' Hev p pb Hpb) as (pb' & Hpb' & Hle'). exists pb'.
    rewrite (le_slot _ _ Hle), (le_slot _ _ Hle').
    destruct (le_frozen _ _ Hle' Hf) as [-> ->]. done.
  - apply Ht.
  - intros id L HL. destruct (t_dom n g Ht id L HL) as [b Hb].
    destruct (ev_fwd n n' Hev id b Hb) as (b' & ? & _). eauto.
  - intros id b' Hb'. destruct (ev_bwd n n' Hev id b' Hb') as (b & Hb & _).
    rewrite (ev_gen n n' Hev). by eapply t_ids.
  - intros id b' Hb'. destruct (ev_bwd n n' Hev id b' Hb') as (b & Hb & Hle).
    rewrite (le_slot _ _ Hle). by eapply t_slot.
  - intros id b' p Hb' Hp. destruct (ev_bwd n n' Hev id b' Hb') as (b & Hb & Hle).
    destruct (t_parent n g Ht id b p Hb) as [? [pb Hpb]]; [destruct (le_parent _ _ Hle); congruence|].
    destruct (ev_fwd n n' Hev p pb Hpb) as (pb' & ? & _). eauto.
  - intros id b' Hb'. by destruct (Hticks id b' Hb') as (? & ? & _).
  - intros id b' Hb'. by destruct (Hticks id b' Hb') as (_ & _ & ?).
  - intros id h Hh. destruct (Hdom id h Hh) as [b Hb].
    destruct (ev_fwd n n' Hev id b Hb) as (b' & ? & _). eauto.
Qed.

Lemma tree_no_ticks n n' g com :
  evolves n n' → no_ticks n n' → tree_ok n g → tree_ok n' (mkHistory (lineage g) (block_hash g) com).
Proof.
  intros Hev Hno Ht. apply (tree_evolves n n' g); [done..| |apply Ht].
  intros id b' Hb'. destruct (ev_bwd n n' Hev id b' Hb') as (b & Hb & Hle).
  destruct (Hno id b b' Hb Hb') as (_ & -> & -> & ->). rewrite (le_slot _ _ Hle).
  destruct (t_ticks n g Ht id b Hb). destruct (t_hash n g Ht id b Hb). done.
Qed.

Lemma queue_no_ticks n n' g com :
  evolves n n' → no_ticks n n' → queue_ok genesis n g →
  queue_ok genesis n' (mkHistory (lineage g) (block_hash g) com).
Proof.
  intros Hev Hno Hq. constructor; intros id b' Hb';
    destruct (ev_bwd n n' Hev id b' Hb') as (b & Hb & _);
    destruct (Hno id b b' Hb Hb') as (Hqq & _); rewrite ?Hqq.
  - by apply (q_reflects genesis n g Hq).
  - by apply (q_age genesis n g Hq id).
  - by apply (q_fresh genesis n g Hq id b).
Qed.

(** The root may move up and the cache may learn roots. *)
Lemma ancestors_evolves n n' g hash com :
  evolves n n' → ancestors_ok n g →
  (∀ s, is_root (status_cache n) s → is_root (status_cache n') s) →
  (∀ x xb, heap n !! x = Some xb → root_id n' ∈ lin g x → root_id n ∈ lin g x) →
  (∀ id b, heap n' !! id = Some b → parent b = None → id ∈ lin g (root_id n')) →
  ancestors_ok n' (mkHistory (lineage g) hash com).
Proof.
  intros Hev Ha Hroot Hup Hnone. constructor; [| | | |done].
  - intros id b' Hb'. destruct (ev_bwd n n' Hev id b' Hb') as (b & Hb & Hle).
    rewrite (le_ancestors _ _ Hle). by eapply a_wf.
  - intros id b' s Hb' Hs. destruct (ev_bwd n n' Hev id b' Hb') as (b & Hb & Hle).
    rewrite (le_ancestors _ _ Hle) in Hs. apply (on_line_evolves n n' g); [done|].
    by apply (a_line n g Ha id b).
  - intros id b' x xb' Hb' Hx Hxb' Hr. destruct (ev_bwd n n' Hev id b' Hb') as (b & Hb & Hle).
    destruct (ev_bwd n n' Hev x xb' Hxb') as (xb & Hxb & Hlex).
    rewrite (le_ancestors _ _ Hle), (le_slot _ _ Hlex). eapply (a_above n g Ha); eauto.
  - intros id b' x xb' Hb' Hx Hxb'. destruct (ev_bwd n n' Hev id b' Hb') as (b & Hb & Hle).
    destruct (ev_bwd n n' Hev x xb' Hxb') as (xb & Hxb & Hlex).
    rewrite (le_ancestors _ _ Hle), (le_slot _ _ Hlex).
    destruct (a_below n g Ha id b x xb Hb Hx Hxb); eauto.
Qed.

Lemma proper_ancestors_le b b' : bank_le b b' → proper_ancestors b' = proper_ancestors b.
Proof. intros Hle. unfold proper_ancestors. by rewrite (le_ancestors _ _ Hle), (le_slot _ _ Hle). Qed.

Lemma forks_evolves n n' g hash com :
  evolves n n' → forks n' = forks n → forks_ok n g → forks_ok n' (mkHistory (lineage g) hash com).
Proof.
  intros Hev Hfs Hf. assert (root_id n' = root_id n) as Hr by (unfold root_id; by rewrite Hfs).
  constructor; rewrite ?Hfs, ?Hr.
  - apply Hf.
  - intros b' Hb'. destruct (ev_bwd n n' Hev _ b' Hb') as (b & Hb & Hle).
    destruct (f_done n g Hf b Hb) as [[? Hfr]|?]; [left|by right].
    destruct (le_frozen _ _ Hle Hfr) as [-> ->]. done.
  - intros s id Hid. destruct (f_bank n g Hf s id Hid) as (b & Hb & <-).
    destruct (ev_fwd n n' Hev id b Hb) as (b' & ? & Hle). exists b'. split; [done|apply Hle].
  - apply Hf.
  - intros s id x xb' Hid Hx Hxb' Hrx. destruct (ev_bwd n n' Hev x xb' Hxb') as (xb & Hxb & Hle).
    rewrite (le_slot _ _ Hle). by eapply (f_closed n g Hf).
  - intros a s. rewrite (f_desc n g Hf). split.
    + intros (id & b & ? & Hb & ?). destruct (ev_fwd n n' Hev id b Hb) as (b' & ? & Hle).
      exists id, b'. by rewrite (proper_ancestors_le _ _ Hle).
    + intros (id & b' & ? & Hb' & ?). destruct (ev_bwd n n' Hev id b' Hb') as (b & ? & Hle).
      exists id, b. by rewrite <-(proper_ancestors_le _ _ Hle).
  - apply Hf.
Qed.

(** The cache and the commits of an evolved node, for an unchanged tree. *)
Lemma cache_evolves n n' g hash com :
  evolves n n' → root_id n' = root_id n → cache_ok genesis n g → wf_cache (status_cache n') →
  roots (status_cache n') = roots (status_cache n) →
  (∀ bh key s, recorded (status_cache n) bh key s → recorded (status_cache n') bh key s) →
  (∀ s d, banks (forks n') !! s = Some d → banks (forks n) !! s = Some d) →
  (∀ x h, is_Some (heap n !! x) → h ∈ chain_hashes genesis g x →
     h ∈ chain_hashes genesis (mkHistory (lineage g) hash (com ++ committed g)) x) →
  (∀ x m bh, (x, m, bh) ∈ com → bh ∈ chain_hashes genesis g x ∧
     ∃ xb, heap n !! x = Some xb ∧ recorded (status_cache n') bh (key_bytes m) (slot xb)) →
  cache_ok genesis n' (mkHistory (lineage g) hash (com ++ committed g)).
Proof.
  intros Hev Hr Hc Hwf Hroots Hrec Hbanks Hchain Hcom.
  constructor; cbn [committed]; rewrite ?Hr.
  - done.
  - intros s. rewrite Hroots. intros Hs. apply (on_line_evolves n n' g); [done|]. by apply (c_roots genesis n g Hc).
  - intros x xb' Hx Hxb'. destruct (ev_bwd n n' Hev x xb' Hxb') as (xb & Hxb & Hle).
    rewrite (le_slot _ _ Hle). unfold is_root. rewrite Hroots. by eapply (c_root genesis n g Hc).
  - intros x m bh [Hin|Hin]%elem_of_app.
    + destruct (Hcom x m bh Hin) as (? & xb & Hxb & _). split; [eauto|].
      destruct (ev_fwd n n' Hev x xb Hxb) as (? & ? & _). eauto.
    + destruct (c_hash genesis n g Hc x m bh Hin) as [? [xb Hxb]]. split; [eauto|].
      destruct (ev_fwd n n' Hev x xb Hxb) as (? & ? & _). eauto.
  - intros x m bh xb' s d Hin Hxb' Hd Hx. destruct (ev_bwd n n' Hev x xb' Hxb') as (xb & Hxb & Hle).
    rewrite (le_slot _ _ Hle). apply elem_of_app in Hin as [Hin|Hin].
    + destruct (Hcom x m bh Hin) as (_ & xb0 & Hxb0 & ?). replace xb with xb0 by congruence. by left.
    + unfold remembers. rewrite Hroots.
      destruct (c_remembers genesis n g Hc x m bh xb s d) as [|]; eauto.
Qed.

Lemma freeze_evolves n id n' : freeze n id = Ret n' →
  evolves n n' ∧ no_ticks n n' ∧ forks n' = forks n ∧
  status_cache n' = status_cache n ∧ latest_abs_request_slot n' = latest_abs_request_slot n ∧
  ∃ b, heap n !! id = Some b ∧ heap n' !! id = Some (set_frozen b).
Proof.
  unfold freeze, get_bank. intros Hfr. outcome_inv. split_and!; [| |done..|].
  - eapply put_bank_evolves; [done|]. constructor; cbn; auto.
  - intros id' b b' Hb. cbn. intros [[<- <-]|[_ ?]]%lookup_insert_Some; cbn; [|by simplify_eq].
    by replace b with x by congruence.
  - eexists. split; [done|]. cbn. by rewrite lookup_insert_eq.
Qed.

Lemma freeze_ok n g id n' :
  node_ok genesis (n, g) → freeze n id = Ret n' → node_ok genesis (n', g).
Proof.
  intros [Ht Hq Ha Hf Hc] Hfr. cbn in *.
  assert (∀ id b', heap n' !! id = Some b' → ∃ b, heap n !! id = Some b ∧ parent b' = parent b) as Hpar.
  { unfold freeze, get_bank in Hfr. outcome_inv. intros id' b'. cbn.
    intros [[<- <-]|[_ ?]]%lookup_insert_Some; eauto. }
  destruct (freeze_evolves n id n' Hfr) as (Hev & Hno & Hfs & Hcs & _).
  assert (root_id n' = root_id n) as Hr by (unfold root_id; by rewrite Hfs).
  destruct g as [l h com]. constructor; cbn.
  - by apply (tree_no_ticks n n' (mkHistory l h com)).
  - by apply (queue_no_ticks n n' (mkHistory l h com)).
  - apply (ancestors_evolves n n' (mkHistory l h com)); [done..| | |].
    + by rewrite Hcs.
    + by rewrite Hr.
    + rewrite Hr. intros id' b' Hb' Hp. destruct (Hpar id' b' Hb') as (b & ? & ?).
      eapply (a_none n _ Ha); [done|congruence].
  - by apply (forks_evolves n n' (mkHistory l h com)).
  - apply (cache_evolves n n' (mkHistory l h com) h []); [done..| | | | | |]; rewrite ?Hcs, ?Hfs; try done.
    + apply Hc.
    + intros x m bh Hin. by apply not_elem_of_nil in Hin.
Qed.

(** * Checking and recording transactions *)

Lemma map_zip_lookup {A B C} (f : A → B → outcome C) l l' r i c :
  map_zip f l l' = Ret r → r !! i = Some c →
  ∃ a x, l !! i = Some a ∧ l' !! i = Some x ∧ f a x = Ret c.
Proof.
  revert l' r i. induction l as [|a l IH]; intros l' r i Hr Hi.
  { destruct l'; cbn in Hr; by simplify_eq. }
  destruct l' as [|x l']; cbn in Hr; [by simplify_eq|]. outcome_inv.
  destruct i as [|i]; cbn in *; [simplify_eq; eauto|]. by eapply IH.
Qed.

(** What it takes for a transaction to pass the checks. *)
Lemma check_accepted n b txs locks age checks i tx det :
  check_transactions n b txs locks age = Ret checks →
  txs !! i = Some tx → checks !! i = Some (Ok det) →
  is_transaction_already_processed n b tx = Ret false ∧
  (nonce det = None → Queue.is_hash_valid_for_age (blockhash_queue b) (recent_blockhash tx) age = Ret true).
Proof.
  unfold check_transactions, check_age_and_compute_budget_limits, check_status_cache.
  intros (ages & Hages & Hck)%bind_Ret_inv Htx Hdet.
  apply bind_Ret_inv in Hages as (last & _ & Hages). apply bind_Ret_inv in Hages as (lps & _ & Hages).
  destruct (map_zip_lookup _ _ _ _ _ _ Hck Hdet) as (tx1 & res & Htx1 & Hres & Hstatus).
  assert (tx1 = tx) as -> by congruence. destruct res as [det1|]; [|by simplify_eq].
  apply bind_Ret_inv in Hstatus as (processed & Hprocessed & Hstatus).
  destruct processed; [by simplify_eq|]. injection Hstatus as ->. split; [done|].
  destruct (map_zip_lookup _ _ _ _ _ _ Hages Hres) as (tx2 & lock & Htx2 & _ & Hage).
  assert (tx2 = tx) as -> by congruence. destruct lock; [|by simplify_eq].
  unfold check_transaction_age in Hage. apply bind_Ret_inv in Hage as (info & Hinfo & Hage).
  intros Hnone. unfold Queue.is_hash_valid_for_age. rewrite Hinfo. cbn.
  destruct info as [info|]; [done|]. exfalso.
  destruct (check_load_and_advance_message_nonce_account _ _ _ _) as [[]|]; by simplify_eq.
Qed.

Lemma insert_keeps (c c' : BankStatusCache) bh key s t draw :
  wf_cache c → 0 ≤ draw → Cache.insert c bh key s t draw = Ret c' →
  wf_cache c' ∧ roots c' = roots c ∧
  (∀ bh' key' s', recorded c bh' key' s' → recorded c' bh' key' s').
Proof.
  intros Hwf Hd. rewrite insert_put. cbn. intros (sl & _ & [= <-])%bind_Ret_inv. split_and!.
  - by apply put_wf.
  - apply put_roots.
  - intros. by apply put_recorded.
Qed.

Lemma update_statuses_spec s txs results draws (c c' : BankStatusCache) :
  wf_cache c → Forall2 draws_ok txs draws →
  update_transaction_statuses s txs results draws c = Ret c' →
  wf_cache c' ∧ roots c' = roots c ∧
  (∀ bh key s', recorded c bh key s' → recorded c' bh key s') ∧
  (∀ i tx st, txs !! i = Some tx → results !! i = Some (Ok st) →
     recorded c' (recent_blockhash tx) (key_bytes (message_hash tx)) s) ∧
  length results = length txs.
Proof.
  intros Hwf Hd. revert results c Hwf. induction Hd as [|tx d txs draws Hdraw _ IH]; intros results c Hwf Hup.
  { destruct results; cbn in Hup; simplify_eq. by split_and!. }
  destruct results as [|res results]; cbn in Hup; [done|]. destruct Hdraw as [Hd1 Hd2].
  apply bind_Ret_inv in Hup as (c1 & Hc1 & Hup).
  assert (wf_cache c1 ∧ roots c1 = roots c ∧
    (∀ bh key s', recorded c bh key s' → recorded c1 bh key s') ∧
    (∀ st, res = Ok st → recorded c1 (recent_blockhash tx) (key_bytes (message_hash tx)) s))
    as (Hwf1 & Hr1 & Hrec1 & Hnew).
  { destruct res as [st|]; [|outcome_inv; naive_solver].
    unfold record_transaction in Hc1. apply bind_Ret_inv in Hc1 as (c0 & Hi1 & Hi2).
    pose proof (insert_recorded _ _ _ _ _ _ _ Hi1) as Hrec.
    destruct (insert_keeps c c0 _ _ _ _ _ Hwf (proj1 Hd1) Hi1) as (Hwf0 & Hr0 & Hk0).
    destruct (insert_keeps c0 c1 _ _ _ _ _ Hwf0 (proj1 Hd2) Hi2) as (Hwf1 & Hr1 & Hk1).
    split_and!; [done|congruence|auto|]. intros _ _. by apply Hk1. }
  destruct (IH results c1 Hwf1 Hup) as (? & Hr & Hk & Hall & Hlen).
  split_and!; [done|congruence|auto| |cbn; lia].
  intros [|i] tx' st Htx Hres; cbn in *; [simplify_eq|by eapply Hall]. apply Hk. by eapply Hnew.
Qed.

Lemma recorded_by_lookup id txs checks results x m bh :
  (x, m, bh) ∈ recorded_by id txs checks results →
  x = id ∧ ∃ i tx det st, txs !! i = Some tx ∧ checks !! i = Some (Ok det) ∧
    results !! i = Some (Ok st) ∧ nonce det = None ∧ message_hash tx = m ∧ recent_blockhash tx = bh.
Proof.
  revert checks results. induction txs as [|tx txs IH]; intros [|chk checks] [|res results]; cbn;
    try (intros Hin; by apply not_elem_of_nil in Hin).
  intros [Hin|Hin]%elem_of_app.
  - destruct chk as [det|], res as [st|]; try (by apply not_elem_of_nil in Hin).
    destruct (nonce det) eqn:E; cbn in Hin; [by apply not_elem_of_nil in Hin|].
    apply list_elem_of_singleton in Hin as [= -> -> ->]. split; [done|].
    exists 0%nat, tx, det, st. done.
  - destruct (IH checks results Hin) as (-> & i & rest). split; [done|]. by exists (S i).
Qed.

Lemma commit_ok n g id b txs locks age checks results draws accounts c :
  node_ok genesis (n, g) →
  heap n !! id = Some b → 0 ≤ age ≤ MAX_PROCESSING_AGE →
  check_transactions n b txs locks age = Ret checks → Forall2 draws_ok txs draws →
  update_transaction_statuses (slot b) txs results draws (status_cache n) = Ret c →
  node_ok genesis (set_status_cache (put_bank n id (set_accounts b accounts)) c,
    mkHistory (lineage g) (block_hash g) (recorded_by id txs checks results ++ committed g)).
Proof.
  intros [Ht Hq Ha Hf Hc] Hb Hage Hck Hdraws Hup. cbn in *.
  set (n' := set_status_cache _ c). set (com := recorded_by _ _ _ _).
  assert (evolves n n') as Hev.
  { destruct (put_bank_evolves n id b (set_accounts b accounts) Hb) as [F B G]; [constructor; cbn; auto|].
    by constructor. }
  destruct (update_statuses_spec _ _ _ _ _ _ (c_wf _ _ _ Hc) Hdraws Hup) as (Hwf & Hr & Hk & Hall & _).
  assert (∀ s, is_root (status_cache n) s → is_root (status_cache n') s) as Hroot.
  { intros s. unfold is_root, n'. cbn. by rewrite Hr. }
  assert (no_ticks n n') as Hno.
  { intros id' b1 b2 Hb1 Hb2. unfold n' in Hb2. cbn in Hb2.
    apply lookup_insert_Some in Hb2 as [[<- <-]|[_ ?]]; [|by simplify_eq].
    by replace b1 with b by congruence. }
  constructor; cbn.
  - by apply (tree_no_ticks n n' g).
  - by apply (queue_no_ticks n n' g).
  - apply (ancestors_evolves n n' g); [done..|].
    intros id' b' Hb' Hp. unfold n' in Hb'. cbn in Hb'.
    apply lookup_insert_Some in Hb' as [[<- <-]|[_ Hb']]; cbn in Hp; by eapply (a_none n g Ha).
  - by apply (forks_evolves n n' g).
  - apply (cache_evolves n n' g _ com); [done..|].
    intros x m bh (-> & i & tx & det & st & Htx & Hdet & Hst & Hnone & <- & <-)%recorded_by_lookup.
    destruct (check_accepted _ _ _ _ _ _ _ _ _ Hck Htx Hdet) as [_ Hvalid]. specialize (Hvalid Hnone).
    split; [|exists b; split; [done|by eapply Hall]].
    pose proof processing_age_lt. pose proof (q_reflects _ _ _ Hq id b Hb) as Hre.
    rewrite (Queue.valid_for_age_spec _ (chain_hashes genesis g id)) in Hvalid;
      [|done|rewrite (q_age _ _ _ Hq id b Hb); lia].
    injection Hvalid as Hvalid. bsimp. apply list_elem_of_lookup in Hvalid as [j Hj].
    apply lookup_take_Some in Hj as [Hj _]. by eapply list_elem_of_lookup_2.
Qed.

(** * Ticks *)

Lemma register_tick_inv n id hash now n' :
  register_tick n id hash now = Ret n' →
  ∃ b q, heap n !! id = Some b ∧ freeze_started b = false ∧
    n' = put_bank n id (set_tick b q (tick_height b + 1)) ∧
    if tick_height b + 1 =? max_tick_height b
    then register_recent_blockhash b hash now = Ret q else q = blockhash_queue b.
Proof.
  unfold register_tick, get_bank. intros (b & Hb%unwrap_Ret_inv & Ht)%bind_Ret_inv.
  apply bind_Ret_inv in Ht as (u & Hfr%assert_Ret_inv & Ht). bsimp.
  apply bind_Ret_inv in Ht as (next & [-> _]%add_Ret_inv & Ht).
  apply bind_Ret_inv in Ht as (q & Hq & Ht). injection Ht as <-. exists b, q.
  unfold is_block_boundary in Hq. split_and!; [done..|]. destruct (_ =? _); [done|by injection Hq].
Qed.

(** The hash of a bank that is not frozen is on no other line. *)
Lemma chain_hashes_tick n g id b hash com y yb :
  tree_ok n g → heap n !! id = Some b → freeze_started b = false → heap n !! y = Some yb →
  tick_height b < max_tick_height b →
  chain_hashes genesis (mkHistory (lineage g) (<[ id := hash ]> (block_hash g)) com) y =
  (if decide (y = id) then [hash] else []) ++ chain_hashes genesis g y.
Proof.
  intros Ht Hb Hfr Hyb Htick. unfold chain_hashes. change (lin (mkHistory _ _ _) y) with (lin g y).
  cbn [block_hash].
  assert (∀ l : list BankId, id ∉ l → omap (λ x, <[ id := hash ]> (block_hash g) !! x) l = omap (λ x, block_hash g !! x) l)
    as Hother.
  { intros l Hl. induction l as [|x l IH]; [done|]. cbn.
    rewrite lookup_insert_ne, IH by set_solver. done. }
  assert (∀ z zb, heap n !! z = Some zb → z ≠ id → id ∉ lin g z) as Hnot.
  { intros z zb Hzb Hne Hin. destruct (line_proper n g Ht z zb id b) as (_ & _ & ?); congruence. }
  case_decide as Hy; [subst|by rewrite Hother by eauto].
  destruct (line_cases n g Ht id b Hb) as [[-> _]|(p & pb & -> & Hp & Hs & _)].
  - cbn. rewrite lookup_insert_eq. destruct (t_hash n g Ht id b Hb) as [-> _]; done.
  - cbn. rewrite lookup_insert_eq. destruct (t_hash n g Ht id b Hb) as [-> _]; [|done].
    rewrite Hother; [done|]. eapply Hnot; [done|]. intros ->. simplify_eq. lia.
Qed.

Lemma register_queue b l hash now q :
  Queue.reflects (blockhash_queue b) l → 0 ≤ max_age (blockhash_queue b) →
  register_recent_blockhash b hash now = Ret q →
  max_age q = max_age (blockhash_queue b) ∧ Queue.reflects q (hash :: l).
Proof.
  intros Hre Hage Hq. unfold register_recent_blockhash in Hq.
  assert (last_hash_index (blockhash_queue b) < u64_MAX) as Hlt.
  { unfold Queue.register_hash in Hq. apply bind_Ret_inv in Hq as (last & [_ ?]%add_Ret_inv & _). lia. }
  destruct (Queue.register_reflects _ l hash (governor_lamports_per_signature b) now Hre Hage Hlt)
    as (q' & Hq' & ? & ? & _). rewrite Hq' in Hq. by simplify_eq.
Qed.

(** A tick of the bank [id]; [ticked] is the node after it and [hashes] the hashes
    that are then registered. *)
Section tick.
Context (n : Node) (g : History) (id : BankId) (b : Bank) (hash : Hash) (now : Z) (q : BlockhashQueue).
Context (Ht : tree_ok n g) (Hq : queue_ok genesis n g) (Hb : heap n !! id = Some b).
Context (Hopen : freeze_started b = false).
Context (Hnext : if tick_height b + 1 =? max_tick_height b
  then register_recent_blockhash b hash now = Ret q else q = blockhash_queue b).
Context (Hfresh : tick_height b + 1 = max_tick_height b → hash ∉ chain_hashes genesis g id).

Definition ticked : Node := put_bank n id (set_tick b q (tick_height b + 1)).

Definition hashes : gmap BankId Hash :=
  if tick_height b + 1 =? max_tick_height b then <[ id := hash ]> (block_hash g) else block_hash g.

Definition tick_history (com : list (BankId * Hash * Hash)) : History := mkHistory (lineage g) hashes com.

Lemma ticked_evolves : evolves n ticked.
Proof. apply (put_bank_evolves n id b); [done|]. constructor; cbn; auto. congruence. Qed.

Lemma ticked_heap x xb :
  heap ticked !! x = Some xb →
  x = id ∧ xb = set_tick b q (tick_height b + 1) ∨ x ≠ id ∧ heap n !! x = Some xb.
Proof. cbn. intros [[<- <-]|[? ?]]%lookup_insert_Some; auto. Qed.

Lemma ticked_chain com y yb :
  heap n !! y = Some yb →
  chain_hashes genesis (tick_history com) y =
  (if decide (y = id ∧ tick_height b + 1 = max_tick_height b) then [hash] else []) ++ chain_hashes genesis g y.
Proof.
  clear Hnext Hfresh. intros Hyb. unfold tick_history, hashes.
  destruct (Z.eqb_spec (tick_height b + 1) (max_tick_height b)) as [Heq|Hne].
  - rewrite (chain_hashes_tick n g id b hash _ y yb) by (done || lia).
    destruct (decide (y = id)); [rewrite decide_True by done|rewrite decide_False by tauto]; done.
  - rewrite decide_False by tauto. done.
Qed.

Lemma ticked_tree com : tree_ok ticked (tick_history com).
Proof.
  apply (tree_evolves n ticked g); [apply ticked_evolves|done| |].
  - intros x xb Hx. destruct (ticked_heap x xb Hx) as [[-> ->]|[Hne Hxb]].
    + destruct (t_ticks n g Ht id b Hb). destruct (t_hash n g Ht id b Hb) as [Hlt Heq].
      unfold hashes. cbn. split_and!; [done..| |]; case_leb; rewrite ?lookup_insert_eq; try lia; eauto.
      intros. apply Hlt. lia.
    + destruct (t_ticks n g Ht x xb Hxb). destruct (t_hash n g Ht x xb Hxb) as [Hlt Heq].
      unfold hashes. split_and!; [done..| |]; case_leb; rewrite ?lookup_insert_ne by done; done.
  - intros x h. unfold hashes. case_leb; [|apply Ht].
    intros [[<- _]|[_ ?]]%lookup_insert_Some; [eauto|by eapply t_hash_dom].
Qed.

Lemma ticked_reflects com x xb :
  heap ticked !! x = Some xb →
  ∃ xb0, heap n !! x = Some xb0 ∧ max_age (blockhash_queue xb) = max_age (blockhash_queue xb0) ∧
    Queue.reflects (blockhash_queue xb) (chain_hashes genesis (tick_history com) x).
Proof.
  intros Hx. destruct (ticked_heap x xb Hx) as [[-> ->]|[Hne Hxb]].
  - exists b. rewrite (ticked_chain com id b Hb). cbn. split; [done|].
    pose proof (q_reflects genesis n g Hq id b Hb) as Hre.
    destruct (Z.eqb_spec (tick_height b + 1) (max_tick_height b)).
    + rewrite decide_True by done. eapply register_queue; [done| |done].
      rewrite (q_age genesis n g Hq id b Hb).
      pose proof processing_age_lt. pose proof processing_age_nonneg. lia.
    + rewrite decide_False by tauto. by rewrite Hnext.
  - exists xb. rewrite (ticked_chain com x xb Hxb), decide_False by tauto.
    split_and!; [done..|]. by apply (q_reflects genesis n g Hq).
Qed.

Lemma ticked_queue com : queue_ok genesis ticked (tick_history com).
Proof.
  constructor; intros x xb Hx; destruct (ticked_reflects com x xb Hx) as (xb0 & Hxb0 & Hage & Hre).
  - done.
  - rewrite Hage. by apply (q_age genesis n g Hq x).
  - rewrite (ticked_chain com x xb0 Hxb0). pose proof (q_fresh genesis n g Hq x xb0 Hxb0) as Hnd.
    destruct (decide (x = id ∧ _)) as [[-> ?]|]; [|done]. apply NoDup_cons. split; [by apply Hfresh|done].
Qed.

End tick.

Lemma tick_ok n g id b hash now n' :
  node_ok genesis (n, g) → heap n !! id = Some b → register_tick n id hash now = Ret n' →
  (tick_height b + 1 = max_tick_height b → hash ∉ chain_hashes genesis g id) →
  node_ok genesis (n', if tick_height b + 1 =? max_tick_height b
    then mkHistory (lineage g) (<[ id := hash ]> (block_hash g)) (committed g) else g).
Proof.
  intros [Ht Hq Ha Hf Hc] Hb Htick Hfresh. cbn in *.
  destruct (register_tick_inv n id hash now n' Htick) as (b0 & q & Hb0 & Hfr & -> & Hqq).
  assert (b0 = b) as -> by congruence. clear Hb0. fold (ticked n id b q).
  replace (if (_ : bool) then mkHistory _ _ _ else g) with (tick_history g id b hash ([] ++ committed g)).
  2:{ unfold tick_history, hashes. case_leb; [done|by destruct g]. }
  pose proof (ticked_evolves n id b q Hb Hfr) as Hev. constructor; cbn [fst snd].
  - by eapply ticked_tree.
  - by eapply ticked_queue.
  - apply (ancestors_evolves n _ g); [done..|]. intros x xb Hx Hp.
    destruct (ticked_heap n id b q x xb Hx) as [[-> ->]|[Hne Hxb]]; by eapply (a_none n g Ha).
  - by apply (forks_evolves n _ g).
  - apply (cache_evolves n _ g _ []); [done..|apply Hc|done|done|done| |].
    + intros x h [xb Hxb] Hh. fold (tick_history g id b hash ([] ++ committed g)).
      rewrite (ticked_chain n g id b hash Ht Hb Hfr _ x xb Hxb). set_solver.
    + intros x m bh Hin. by apply not_elem_of_nil in Hin.
Qed.

End inv.
