(* ===== verification/BankNew.v ===== *)
(** A new bank keeps the invariant. *)
From S2P Require Import Prelude Bytes RollingBitField RollingBitFieldProps StatusCache.
From S2P Require Import StatusCacheProps BlockhashQueue Bank BankSteps BankInv.

Section new.
Context `{!ClockConstants, !ClockLaws, !BitVecOps, !BitVecLaws, !BankSdk}.
Context (genesis : Hash).
Implicit Types (n : Node) (b : Bank) (g : History).

(** * Parents *)

Lemma get_bank_inv n id b : get_bank n id = Ret b → heap n !! id = Some b.
Proof. apply unwrap_Ret_inv. Qed.

(** [parents] walks the line of a bank down to one without a parent. *)
Lemma parents_from_spec n g fuel id ps :
  tree_ok n g → parents_from fuel n (Some id) = Ret ps →
  ∃ ps' z zb, ps = ps' ++ [z] ∧ heap n !! z = Some zb ∧ parent zb = None ∧
    lin g id = ps' ++ lin g z.
Proof.
  intros Ht. revert id ps. induction fuel as [|fuel IH]; intros id ps Hps; [done|]. cbn in Hps.
  apply bind_Ret_inv in Hps as (b & Hb%get_bank_inv & Hps).
  apply bind_Ret_inv in Hps as (rest & Hrest & Hps). injection Hps as <-.
  destruct (parent b) as [p|] eqn:Hp.
  - destruct (IH p rest Hrest) as (ps' & z & zb & -> & Hz & Hnone & Hlin).
    exists (id :: ps'), z, zb. split_and!; [done..|].
    destruct (t_parent n g Ht id b p Hb Hp) as [-> _]. by rewrite Hlin.
  - assert (rest = []) as -> by (destruct fuel; by injection Hrest).
    exists [], id, b. done.
Qed.

Lemma slots_of_spec n ids l :
  slots_of n ids = Ret l →
  ∀ s, s ∈ l ↔ ∃ x xb, x ∈ ids ∧ heap n !! x = Some xb ∧ slot xb = s.
Proof.
  revert l. induction ids as [|id ids IH]; intros l Hl s; cbn in Hl.
  { injection Hl as <-. split; [by intros ?%not_elem_of_nil|].
    intros (? & ? & ?%not_elem_of_nil & _). done. }
  apply bind_Ret_inv in Hl as (b & Hb%get_bank_inv & Hl).
  apply bind_Ret_inv in Hl as (rest & Hrest & Hl). injection Hl as <-.
  rewrite elem_of_cons, (IH rest Hrest). split.
  - intros [->|(x & xb & ? & ? & ?)]; [exists id, b; split_and!; [left|done..]|].
    exists x, xb. split_and!; [by right|done..].
  - intros (x & xb & [->|Hx]%elem_of_cons & Hxb & <-); [left; congruence|right; eauto].
Qed.

Lemma proper_ancestors_spec b s :
  wf (Anc.ancestors (ancestors b)) →
  s ∈ proper_ancestors b ↔ s ∈ items (Anc.ancestors (ancestors b)) ∧ s ≠ slot b.
Proof.
  intros Hwf. unfold proper_ancestors, Anc.keys.
  rewrite list_elem_of_filter, (get_all_spec _ Hwf), elem_of_elements. tauto.
Qed.

(** ** The map of descendants *)

Lemma add_descendants_spec s l (d : gmap Slot (gset Slot)) a :
  default ∅ (foldl (add_descendant s) d l !! a) =
    (if decide (a ∈ l) then {[ s ]} else ∅) ∪ default ∅ (d !! a) ∧
  (is_Some (foldl (add_descendant s) d l !! a) ↔ a ∈ l ∨ is_Some (d !! a)).
Proof.
  revert d. induction l as [|p l IH]; intros d; cbn [foldl].
  { rewrite decide_False by apply not_elem_of_nil. split; [set_solver|].
    split; [by right|]. intros [?%not_elem_of_nil|]; done. }
  destruct (IH (add_descendant s d p)) as [-> ->]. unfold add_descendant.
  destruct (decide (a = p)) as [->|Hne].
  - rewrite lookup_insert_eq, (decide_True (P := p ∈ p :: l)) by left. cbn. split.
    + case_decide; set_solver.
    + split; [intros _; left; left|eauto].
  - rewrite lookup_insert_ne by done. split.
    + destruct (decide (a ∈ l)); [rewrite decide_True by (by right)|rewrite decide_False by set_solver]; done.
    + rewrite elem_of_cons. tauto.
Qed.

Lemma insert_bank_inv n id n' :
  insert_bank n id = Ret n' →
  ∃ b, heap n !! id = Some b ∧ banks (forks n) !! slot b = None ∧
    n' = set_forks n (mkForks (<[ slot b := id ]> (banks (forks n)))
      (foldl (add_descendant (slot b))
         (<[ slot b := default ∅ (descendants (forks n) !! slot b) ]> (descendants (forks n)))
         (proper_ancestors b)) (root (forks n))).
Proof.
  unfold insert_bank. intros (b & Hb%get_bank_inv & Hi)%bind_Ret_inv.
  apply bind_Ret_inv in Hi as (u & Ha%assert_Ret_inv & Hi). bsimp. injection Hi as <-.
  exists b. split_and!; [done| |done]. by destruct (banks (forks n) !! slot b).
Qed.

(** ** The new bank *)

(** A bank on top of a complete and frozen bank [p] that has its line and
    queue. *)
Record child_of n g (pid id : BankId) (p b : Bank) : Prop := {
  ch_parent : heap n !! pid = Some p;
  ch_done : is_complete p = true ∧ freeze_started p = true;
  ch_fresh : heap n !! id = None ∧ id = bank_id_generator n + 1;
  ch_slot : slot p < slot b ∧ ancestor_slot (slot b);
  ch_queue : blockhash_queue b = blockhash_queue p;
  ch_ticks : ticks_per_slot b = ticks_per_slot p ∧ tick_height b = tick_height p ∧
    max_tick_height b = (slot b + 1) * ticks_per_slot p;
  ch_link : parent b = Some pid;
  ch_wf : wf (Anc.ancestors (ancestors b));
  ch_items : ∃ ps z zb, lin g pid = ps ++ lin g z ∧ heap n !! z = Some zb ∧ parent zb = None ∧
    ∀ s, s ∈ items (Anc.ancestors (ancestors b)) ↔
      s = slot b ∨ ∃ x xb, x ∈ ps ++ [z] ∧ heap n !! x = Some xb ∧ slot xb = s;
}.

(** The heap with the bank. *)
Definition with_bank n (id : BankId) b : Node :=
  mkNode _ _ (<[ id := b ]> (heap n)) id (status_cache n) (forks n) (latest_abs_request_slot n).

Lemma new_from_parent_inv n g pid p s lamports static id n1 :
  node_ok genesis (n, g) → heap n !! pid = Some p → is_complete p = true → slot p < s → ancestor_slot s →
  new_from_parent n pid s lamports static = Ret (id, n1) →
  ∃ n0 p0 b, freeze n pid = Ret n0 ∧ child_of n0 g pid id p0 b ∧ slot b = s ∧ n1 = with_bank n0 id b.
Proof.
  intros Hok Hp Hcomp Hs Hanc. unfold new_from_parent.
  intros (n0 & Hn0 & Hnew)%bind_Ret_inv. pose proof (freeze_ok genesis n g pid n0 Hok Hn0) as [Ht0 _ _ _ _].
  cbn in Ht0. destruct (freeze_evolves n pid n0 Hn0) as (_ & _ & _ & _ & _ & p' & Hp' & Hp0).
  assert (p' = p) as -> by congruence.
  apply bind_Ret_inv in Hnew as (p1 & Hp1%get_bank_inv & Hnew). rewrite Hp0 in Hp1. injection Hp1 as <-.
  apply bind_Ret_inv in Hnew as (u & _ & Hnew).
  apply bind_Ret_inv in Hnew as (id' & [-> _]%add_Ret_inv & Hnew).
  apply bind_Ret_inv in Hnew as (s1 & Hs1%unwrap_Ret_inv & Hnew). unfold checked_add in Hs1.
  destruct (s + 1 <=? u64_MAX); [|done]. injection Hs1 as <-.
  apply bind_Ret_inv in Hnew as (mt & Hmt & Hnew). destruct (_ <=? _) in Hmt; [|done]. injection Hmt as <-.
  apply bind_Ret_inv in Hnew as (height & _ & Hnew). apply bind_Ret_inv in Hnew as (ps & Hps & Hnew).
  apply bind_Ret_inv in Hnew as (slots & Hslots & Hnew). apply bind_Ret_inv in Hnew as (anc & Hfrom & Hnew).
  injection Hnew as <- <-. cbn [slot set_frozen] in *.
  eexists n0, (set_frozen p), _. split; [done|]. split; [|split; [|reflexivity]; done].
  destruct (parents_from_spec n0 g _ pid ps Ht0 Hps) as (ps' & z & zb & -> & Hz & Hnone & Hlin).
  pose proof (slots_of_spec n0 _ _ Hslots) as Hspec.
  destruct (from_items (s :: slots)) as (anc' & Hanc' & Hwf & Hitems).
  { apply Forall_cons. split; [done|]. apply Forall_forall. intros s' (x & xb & _ & Hxb & <-)%Hspec.
    by apply (t_slot n0 g Ht0 x). }
  rewrite Hfrom in Hanc'. injection Hanc' as <-.
  constructor; cbn [slot parent blockhash_queue ticks_per_slot tick_height max_tick_height ancestors
    freeze_started set_frozen]; try done.
  - split; [|done]. destruct (heap n0 !! (bank_id_generator n0 + 1)) as [b0|] eqn:E; [|done].
    pose proof (t_ids n0 g Ht0 _ b0 E). lia.
  - exists ps', z, zb. split_and!; [done..|]. intros s'. rewrite Hitems.
    rewrite elem_of_list_to_set, elem_of_cons, Hspec. done.
Qed.

Section child.
Context (n : Node) (g : History) (pid id : BankId) (p b : Bank).
Context (Hok : node_ok genesis (n, g)) (Hch : child_of n g pid id p b).

Definition child_history : History :=
  mkHistory (<[ id := id :: lin g pid ]> (lineage g)) (block_hash g) (committed g).

Let Ht : tree_ok n g := ok_tree genesis _ Hok.
Let Hq : queue_ok genesis n g := ok_queue genesis _ Hok.
Let Ha : ancestors_ok n g := ok_ancestors genesis _ Hok.
Let Hf : forks_ok n g := ok_forks genesis _ Hok.
Let Hc : cache_ok genesis n g := ok_cache genesis _ Hok.

Lemma child_heap x xb :
  heap (with_bank n id b) !! x = Some xb → x = id ∧ xb = b ∨ x ≠ id ∧ heap n !! x = Some xb.
Proof. cbn. intros [[<- <-]|[? ?]]%lookup_insert_Some; auto. Qed.

Lemma child_heap_old x xb :
  heap n !! x = Some xb → heap (with_bank n id b) !! x = Some xb ∧ x ≠ id.
Proof.
  intros Hx. destruct (ch_fresh _ _ _ _ _ _ Hch) as [Hfresh _].
  assert (x ≠ id) by congruence. cbn. by rewrite lookup_insert_ne.
Qed.

Lemma child_line : lin child_history id = id :: lin g pid.
Proof. unfold lin at 1, child_history. cbn. by rewrite lookup_insert_eq. Qed.

Lemma child_line_old x : x ≠ id → lin child_history x = lin g x.
Proof. intros Hne. unfold lin, child_history. cbn. by rewrite lookup_insert_ne. Qed.

Lemma child_line_elem x y :
  y ∈ lin child_history x → x = id ∧ (y = id ∨ y ∈ lin g pid) ∨ x ≠ id ∧ y ∈ lin g x.
Proof.
  destruct (decide (x = id)) as [->|Hne].
  - rewrite child_line. intros [->|Hy]%elem_of_cons; auto.
  - rewrite child_line_old by done. auto.
Qed.

(** The banks of the line of the parent are old. *)
Lemma parent_line_old x : x ∈ lin g pid → x ≠ id ∧ is_Some (heap n !! x).
Proof.
  intros Hx. destruct (line_heap n g Ht pid p x (ch_parent _ _ _ _ _ _ Hch) Hx) as [xb Hxb].
  destruct (child_heap_old x xb Hxb). eauto.
Qed.

Lemma child_chain x : is_Some (heap n !! x) →
  chain_hashes genesis child_history x = chain_hashes genesis g x.
Proof.
  intros [xb Hxb]. destruct (child_heap_old x xb Hxb) as [_ Hne].
  unfold chain_hashes. by rewrite child_line_old.
Qed.

Lemma child_no_hash : block_hash g !! id = None.
Proof.
  destruct (block_hash g !! id) as [h|] eqn:E; [|done].
  destruct (t_hash_dom n g Ht id h E) as [b0 Hb0]. destruct (ch_fresh _ _ _ _ _ _ Hch). congruence.
Qed.

Lemma child_chain_new : chain_hashes genesis child_history id = chain_hashes genesis g pid.
Proof. unfold chain_hashes. rewrite child_line. cbn. by rewrite child_no_hash. Qed.

Lemma child_tree : tree_ok (with_bank n id b) child_history.
Proof.
  pose proof Hch as [Hp [Hdone Hfr] [Hfresh Hid] [Hs Hanc] _ (Htps & Htick & Hmax) Hlink _ _].
  assert (0 < ticks_per_slot p ∧ max_tick_height p = (slot p + 1) * ticks_per_slot p) as [Hpos Hpmax]
    by (by apply (t_ticks n g Ht pid)).
  assert (0 ≤ slot p) by (by apply (t_slot n g Ht pid)).
  pose proof (t_ids n g Ht pid p Hp).
  constructor.
  - intros x xb Hx. destruct (child_heap x xb Hx) as [[-> ->]|[Hne Hxb]].
    + exists (lin g pid). cbn. rewrite lookup_insert_eq. split; [done|].
      destruct (t_line n g Ht pid p Hp) as (L & HL & _). unfold lin. rewrite HL. cbn.
      rewrite lookup_insert_ne by lia. split; [done|]. exists p.
      rewrite lookup_insert_ne by lia. done.
    + destruct (t_line n g Ht x xb Hxb) as (L & HL & Hrest). exists L. cbn.
      rewrite lookup_insert_ne by done. split; [done|]. destruct L as [|y L]; [done|].
      destruct Hrest as (Hy & yb & Hyb & Hyrest). destruct (child_heap_old y yb Hyb) as [? Hyne].
      rewrite lookup_insert_ne by done. split; [done|]. exists yb. done.
  - cbn. rewrite lookup_insert_ne by lia. apply Ht.
  - intros x L. cbn. intros [[<- _]|[Hne HL]]%lookup_insert_Some.
    + rewrite lookup_insert_eq. eauto.
    + rewrite lookup_insert_ne by done. by eapply t_dom.
  - intros x xb Hx. cbn. destruct (child_heap x xb Hx) as [[-> ->]|[Hne Hxb]]; [lia|].
    pose proof (t_ids n g Ht x xb Hxb). lia.
  - intros x xb Hx. destruct (child_heap x xb Hx) as [[-> ->]|[Hne Hxb]]; [done|].
    by apply (t_slot n g Ht x).
  - intros x xb q Hx Hxq. destruct (child_heap x xb Hx) as [[-> ->]|[Hne Hxb]].
    + assert (q = pid) as -> by congruence. rewrite child_line, child_line_old by congruence.
      destruct (child_heap_old pid p Hp). eauto.
    + destruct (t_parent n g Ht x xb q Hxb Hxq) as [Hlin [qb Hqb]].
      destruct (child_heap_old q qb Hqb). rewrite !child_line_old by done. eauto.
  - intros x xb Hx. destruct (child_heap x xb Hx) as [[-> ->]|[Hne Hxb]].
    + rewrite Htps, Hmax. done.
    + by apply (t_ticks n g Ht x).
  - intros x xb Hx. destruct (child_heap x xb Hx) as [[-> ->]|[Hne Hxb]].
    + cbn. rewrite child_no_hash. split; [done|]. rewrite Htick, Hmax.
      unfold is_complete in Hdone. bsimp. intros Heq. exfalso. nia.
    + by apply (t_hash n g Ht x).
  - intros x h Hh. destruct (t_hash_dom n g Ht x h Hh) as [xb Hxb].
    destruct (child_heap_old x xb Hxb). eauto.
Qed.

Lemma child_queue : queue_ok genesis (with_bank n id b) child_history.
Proof.
  pose proof (ch_parent _ _ _ _ _ _ Hch) as Hp. pose proof (ch_queue _ _ _ _ _ _ Hch) as Hqueue.
  constructor; intros x xb Hx; destruct (child_heap x xb Hx) as [[-> ->]|[Hne Hxb]].
  - rewrite child_chain_new, Hqueue. by apply (q_reflects genesis n g Hq).
  - rewrite child_chain by eauto. by apply (q_reflects genesis n g Hq).
  - rewrite Hqueue. by apply (q_age genesis n g Hq pid).
  - by apply (q_age genesis n g Hq x).
  - rewrite child_chain_new. by apply (q_fresh genesis n g Hq pid p).
  - rewrite child_chain by eauto. by apply (q_fresh genesis n g Hq x xb).
Qed.

Context (Hpforks : banks (forks n) !! slot p = Some pid) (Hproot : root (forks n) ≤ slot p).

(** The root is on the line of the parent. *)
Lemma root_on_parent : root_id n ∈ lin g pid.
Proof.
  destruct (root_bank n g Hf) as (rb & Hrb & Hrs & _). pose proof (ch_parent _ _ _ _ _ _ Hch) as Hp.
  destruct (f_line n g Hf _ pid Hpforks) as [|Hin]; [done|].
  pose proof (line_slot_le n g Ht _ rb pid p Hrb Hin Hp).
  assert (pid = root_id n) as <-; [|by eapply line_self].
  eapply (line_slot_inj n g Ht (root_id n) rb); [done|done|by eapply line_self|done|done|lia].
Qed.

Lemma child_on_line x s :
  on_line n g x s → x ≠ id → on_line (with_bank n id b) child_history x s.
Proof.
  intros (y & yb & Hy & Hyb & <-) Hne. exists y, yb. rewrite child_line_old by done.
  destruct (child_heap_old y yb Hyb). done.
Qed.

(** A bank on the line of another: the child, its parent's line, or old banks. *)
Lemma child_line_cases x xb y yb :
  heap (with_bank n id b) !! x = Some xb → heap (with_bank n id b) !! y = Some yb →
  y ∈ lin child_history x →
  (x = id ∧ xb = b ∧ y = id ∧ yb = b) ∨
  (x = id ∧ xb = b ∧ y ∈ lin g pid ∧ y ≠ id ∧ heap n !! y = Some yb) ∨
  (x ≠ id ∧ heap n !! x = Some xb ∧ y ∈ lin g x ∧ y ≠ id ∧ heap n !! y = Some yb).
Proof.
  intros Hx Hyb Hy. destruct (child_line_elem x y Hy) as [[-> Hcase]|[Hne Hyx]].
  - destruct (child_heap id xb Hx) as [[_ ->]|[? _]]; [|done]. destruct Hcase as [->|Hyp].
    + destruct (child_heap id yb Hyb) as [[_ ->]|[? _]]; [|done]. by left.
    + destruct (parent_line_old y Hyp) as [Hyne _].
      destruct (child_heap y yb Hyb) as [[? _]|[_ Hyb']]; [done|]. right. left. done.
  - destruct (child_heap x xb Hx) as [[? _]|[_ Hxb]]; [done|].
    destruct (line_heap n g Ht x xb y Hxb Hyx) as [yb' Hyb'].
    destruct (child_heap_old y yb' Hyb') as [Hyb2 Hyne]. assert (yb' = yb) as -> by congruence.
    right. right. done.
Qed.

Lemma child_ancestors : ancestors_ok (with_bank n id b) child_history.
Proof.
  pose proof Hch as [Hp _ [Hfresh Hid] _ _ _ Hlink Hwf (ps & z & zb & Hlin & Hz & Hnone & Hitems)].
  destruct (root_bank n g Hf) as (rb & Hrb & Hrs & _).
  assert (root_id n ≠ id) as Hrne by congruence.
  change (root_id n) with (root_id (with_bank n id b)) in Hrne.
  pose proof (a_none n g Ha z zb Hz Hnone) as Hzroot.
  constructor.
  - intros x xb Hx. destruct (child_heap x xb Hx) as [[-> ->]|[Hne Hxb]]; [done|by apply (a_wf n g Ha x)].
  - intros x xb s Hx Hs. destruct (child_heap x xb Hx) as [[-> ->]|[Hne Hxb]].
    + apply Hitems in Hs as [->|(y & yb & Hy & Hyb & <-)].
      * exists id, b. rewrite child_line. split_and!; [left|done..].
      * destruct (child_heap_old y yb Hyb). exists y, yb. rewrite child_line. split_and!; [|done..].
        right. rewrite Hlin. pose proof (line_self n g Ht z zb Hz). set_solver.
    + apply child_on_line; [|done]. by apply (a_line n g Ha x xb).
  - intros x xb y yb Hx Hy Hyb Hr. change (root_id (with_bank n id b)) with (root_id n) in *.
    destruct (child_line_cases x xb y yb Hx Hyb Hy)
      as [(-> & -> & -> & ->)|[(-> & -> & Hyp & Hyne & Hyb')|(Hne & Hxb & Hyx & Hyne & Hyb')]].
    + apply Hitems. by left.
    + rewrite child_line_old in Hr by done. apply Hitems. right. exists y, yb. split_and!; [|done..].
      rewrite Hlin in Hyp. apply elem_of_app in Hyp as [Hyp|Hyz]; [set_solver|].
      assert (y = z) as ->; [|set_solver].
      pose proof (line_slot_le n g Ht z zb y yb Hz Hyz Hyb').
      pose proof (line_slot_le n g Ht _ rb z zb Hrb Hzroot Hz).
      pose proof (line_slot_le n g Ht y yb _ rb Hyb' Hr Hrb).
      eapply (line_slot_inj n g Ht z zb); [done|done|by eapply line_self|done|done|lia].
    + rewrite child_line_old in Hr by done. by apply (a_above n g Ha x xb y yb).
  - intros x xb y yb Hx Hy Hyb. cbn [status_cache with_bank].
    destruct (child_line_cases x xb y yb Hx Hyb Hy)
      as [(-> & -> & -> & ->)|[(-> & -> & Hyp & Hyne & Hyb')|(Hne & Hxb & Hyx & Hyne & Hyb')]].
    + left. apply Hitems. by left.
    + rewrite Hlin in Hyp. apply elem_of_app in Hyp as [Hyp|Hyz].
      * left. apply Hitems. right. exists y, yb. set_solver.
      * right. apply (c_root genesis n g Hc y); [|done]. by eapply (line_trans n g Ht _ rb z).
    + by apply (a_below n g Ha x xb y yb).
  - intros x xb Hx Hpar. change (root_id (with_bank n id b)) with (root_id n).
    destruct (child_heap x xb Hx) as [[-> ->]|[Hne Hxb]]; [congruence|].
    rewrite child_line_old by done. by apply (a_none n g Ha x xb).
Qed.

Context (n2 : Node) (Hins : insert_bank (with_bank n id b) id = Ret n2).

Lemma child_insert :
  banks (forks n) !! slot b = None ∧
  heap n2 = heap (with_bank n id b) ∧ bank_id_generator n2 = id ∧ status_cache n2 = status_cache n ∧
  banks (forks n2) = <[ slot b := id ]> (banks (forks n)) ∧ root (forks n2) = root (forks n) ∧
  (∀ a, default ∅ (descendants (forks n2) !! a) =
    (if decide (a ∈ proper_ancestors b) then {[ slot b ]} else ∅) ∪
      default ∅ (descendants (forks n) !! a)) ∧
  (∀ a, is_Some (descendants (forks n2) !! a) ↔
    a ∈ proper_ancestors b ∨ a = slot b ∨ is_Some (descendants (forks n) !! a)) ∧
  root_id n2 = root_id n.
Proof.
  destruct (insert_bank_inv _ _ _ Hins) as (b0 & Hb0 & Hnone & ->).
  cbn in Hb0. rewrite lookup_insert_eq in Hb0. injection Hb0 as <-. cbn in Hnone.
  destruct (root_bank n g Hf) as (rb & _ & _ & Hroot).
  split_and!; cbn; [done..| | |].
  - intros a. destruct (add_descendants_spec (slot b) (proper_ancestors b)
      (<[ slot b := default ∅ (descendants (forks n) !! slot b) ]> (descendants (forks n))) a) as [-> _].
    f_equal. destruct (decide (a = slot b)) as [->|]; [by rewrite lookup_insert_eq|by rewrite lookup_insert_ne].
  - intros a. destruct (add_descendants_spec (slot b) (proper_ancestors b)
      (<[ slot b := default ∅ (descendants (forks n) !! slot b) ]> (descendants (forks n))) a) as [_ ->].
    destruct (decide (a = slot b)) as [->|]; [rewrite lookup_insert_eq; naive_solver|].
    rewrite lookup_insert_ne by done. naive_solver.
  - unfold root_id. cbn. rewrite lookup_insert_ne by congruence. done.
Qed.

Lemma child_banks s x :
  banks (forks n2) !! s = Some x →
  s = slot b ∧ x = id ∨ s ≠ slot b ∧ banks (forks n) !! s = Some x ∧ x ≠ id ∧
    ∃ xb, heap n !! x = Some xb ∧ heap n2 !! x = Some xb ∧ slot xb = s.
Proof.
  destruct child_insert as (_ & Hheap & _ & _ & -> & _).
  intros [[<- <-]|[Hne Hx]]%lookup_insert_Some; [by left|right].
  destruct (f_bank n g Hf s x Hx) as (xb & Hxb & Hs). destruct (child_heap_old x xb Hxb).
  rewrite Hheap. eauto 10.
Qed.

Lemma child_forks : forks_ok n2 child_history.
Proof.
  destruct child_insert as (Hnone & Hheap & _ & _ & Hbanks & Hroot & Hdesc & Hkeys & Hrid).
  destruct (root_bank n g Hf) as (rb & Hrb & Hrs & Hrbank).
  assert (heap n2 !! id = Some b) as Hid by (rewrite Hheap; cbn; by rewrite lookup_insert_eq).
  constructor; rewrite ?Hroot, ?Hrid.
  - rewrite Hbanks, lookup_insert_ne by congruence. eauto.
  - intros b0 Hb0. rewrite Hheap in Hb0. destruct (child_heap_old _ _ Hrb) as [Hrb2 _].
    apply (f_done n g Hf). congruence.
  - intros s x Hx. destruct (child_banks s x Hx) as [[-> ->]|(_ & _ & _ & xb & _ & ? & ?)]; eauto.
  - intros s x Hx. destruct (child_heap_old _ _ Hrb) as [_ Hrne].
    destruct (child_banks s x Hx) as [[-> ->]|(_ & Hx' & Hne & _)].
    + left. rewrite child_line. right. apply root_on_parent.
    + rewrite !child_line_old by done. by apply (f_line n g Hf s).
  - intros s x y yb Hx Hy Hyb Hr. rewrite Hbanks.
    assert (∀ x s, banks (forks n) !! s = Some x → y ∈ lin g x → y ≠ id → heap n !! y = Some yb →
      <[ slot b := id ]> (banks (forks n)) !! slot yb = Some y) as Hold.
    { intros x0 s0 Hx0 Hyx Hyne Hyb0. rewrite child_line_old in Hr by done.
      pose proof (f_closed n g Hf s0 x0 y yb Hx0 Hyx Hyb0 Hr).
      rewrite lookup_insert_ne by congruence. done. }
    rewrite Hheap in Hyb.
    destruct (child_banks s x Hx) as [[-> ->]|(_ & Hx' & Hne & xb & Hxb & Hxb2 & _)].
    + rewrite Hheap in Hid. destruct (child_line_cases id b y yb Hid Hyb Hy)
        as [(_ & _ & -> & ->)|[(_ & _ & Hyp & Hyne & Hyb')|(? & _)]]; [by rewrite lookup_insert_eq| |done].
      by apply (Hold pid (slot p)).
    + rewrite Hheap in Hxb2. destruct (child_line_cases x xb y yb Hxb2 Hyb Hy)
        as [(? & _)|[(? & _)|(_ & _ & Hyx & Hyne & Hyb')]]; [done..|]. by apply (Hold x s).
  - intros a s. rewrite Hdesc, elem_of_union, (f_desc n g Hf). split.
    + intros [Hin|(x & xb & Hx & Hxb & Hpa)].
      * case_decide as Hpa; [|set_solver]. apply elem_of_singleton in Hin as ->.
        exists id, b. rewrite Hbanks, lookup_insert_eq. done.
      * exists x, xb. destruct (child_heap_old x xb Hxb) as [? _]. rewrite Hheap.
        rewrite Hbanks, lookup_insert_ne by congruence. done.
    + intros (x & xb & Hx & Hxb & Hpa). destruct (child_banks s x Hx) as [[-> ->]|(_ & Hx' & _ & xb' & Hxb' & Hxb2 & _)].
      * left. assert (xb = b) as -> by congruence. rewrite decide_True by done. set_solver.
      * right. assert (xb' = xb) as -> by congruence. eauto.
  - intros a. rewrite Hkeys, Hdesc, (f_keys n g Hf). rewrite Hbanks.
    destruct (decide (a = slot b)) as [->|Hne]; [rewrite lookup_insert_eq; naive_solver|].
    rewrite lookup_insert_ne by done. case_decide; [|rewrite (left_id_L ∅ (∪)); tauto].
    split; [|tauto]. intros _. right. set_solver.
Qed.

Lemma child_cache : cache_ok genesis n2 child_history.
Proof.
  destruct child_insert as (Hnone & Hheap & _ & Hcache & Hbanks & Hroot & _ & _ & Hrid).
  destruct (root_bank n g Hf) as (rb & Hrb & _). destruct (child_heap_old _ _ Hrb) as [_ Hrne].
  constructor; rewrite ?Hcache, ?Hrid.
  - apply Hc.
  - intros s Hs. destruct (c_roots genesis n g Hc s Hs) as (y & yb & Hy & Hyb & Hys).
    destruct (child_heap_old y yb Hyb). exists y, yb. rewrite child_line_old, Hheap by done. done.
  - intros x xb Hx Hxb. rewrite child_line_old in Hx by done. rewrite Hheap in Hxb.
    destruct (line_heap n g Ht _ rb x Hrb Hx) as [xb' Hxb'].
    destruct (child_heap_old x xb' Hxb'). assert (xb' = xb) as -> by congruence.
    by apply (c_root genesis n g Hc x).
  - intros x m bh Hin. destruct (c_hash genesis n g Hc x m bh Hin) as [Hh [xb Hxb]].
    rewrite child_chain by eauto. split; [done|]. rewrite Hheap.
    destruct (child_heap_old x xb Hxb). eauto.
  - intros x m bh xb s d Hin Hxb Hd Hx. rewrite Hheap in Hxb.
    destruct (c_hash genesis n g Hc x m bh Hin) as [_ [xb' Hxb']].
    destruct (child_heap_old x xb' Hxb') as [? Hxne]. assert (xb' = xb) as -> by congruence.
    destruct (child_line_elem d x Hx) as [[-> [?|Hxp]]|[Hne Hxd]]; [done| |].
    + by apply (c_remembers genesis n g Hc x m bh xb (slot p) pid).
    + rewrite Hbanks in Hd. apply lookup_insert_Some in Hd as [[_ ?]|[_ Hd]]; [done|].
      by apply (c_remembers genesis n g Hc x m bh xb s d).
Qed.

Lemma child_ok : node_ok genesis (n2, child_history).
Proof.
  destruct child_insert as (_ & Hheap & Hgen & Hcache & _ & _ & _ & _ & Hrid).
  constructor; cbn [fst snd].
  - destruct child_tree as [T1 T2 T3 T4 T5 T6 T7 T8 T9].
    constructor; rewrite ?Hheap, ?Hgen; assumption.
  - destruct child_queue. constructor; rewrite ?Hheap; assumption.
  - destruct child_ancestors as [A1 A2 A3 A4 A5].
    change (root_id (with_bank n id b)) with (root_id n) in *. cbn [status_cache with_bank] in *.
    constructor; unfold on_line in *; rewrite ?Hheap, ?Hcache, ?Hrid; assumption.
  - apply child_forks.
  - apply child_cache.
Qed.

End child.

Lemma new_ok n g pslot pid p s lamports static id n1 n2 :
  node_ok genesis (n, g) → root (forks n) ≤ pslot → banks (forks n) !! pslot = Some pid →
  heap n !! pid = Some p → is_complete p = true → slot p < s → ancestor_slot s →
  new_from_parent n pid s lamports static = Ret (id, n1) → insert_bank n1 id = Ret n2 →
  node_ok genesis
    (n2, mkHistory (<[ id := id :: lin g pid ]> (lineage g)) (block_hash g) (committed g)).
Proof.
  intros Hok Hroot Hpid Hp Hcomp Hs Hanc Hnew Hins.
  destruct (new_from_parent_inv n g pid p s lamports static id n1 Hok Hp Hcomp Hs Hanc Hnew)
    as (n0 & p0 & b & Hn0 & Hch & _ & ->).
  pose proof (freeze_ok genesis n g pid n0 Hok Hn0) as Hok0.
  destruct (freeze_evolves n pid n0 Hn0) as (Hev & _ & Hforks & _).
  destruct (f_bank n g (ok_forks _ _ Hok) pslot pid Hpid) as (p' & Hp' & <-). cbn in Hp'.
  assert (p' = p) as -> by congruence.
  destruct (ev_fwd n n0 Hev pid p Hp) as (p1 & Hp1 & Hle).
  assert (p1 = p0) as -> by (pose proof (ch_parent _ _ _ _ _ _ Hch); congruence).
  apply (child_ok n0 g pid id p0 b Hok0 Hch); rewrite ?Hforks, ?(le_slot _ _ Hle); done.
Qed.

End new.
