(* ===== verification/BankRoot.v ===== *)
(** Removing banks from the tree: [remove_bank] never panics where the map of
    descendants is right, and keeps it right; so do [dump_slots] and the pruning
    of a new root.  And what squashing does to the status cache, and setting a root
    does before it prunes the tree. *)
From S2P Require Import Prelude Bytes RollingBitField RollingBitFieldProps StatusCache.
From S2P Require Import StatusCacheProps BlockhashQueue Bank BankSteps BankInv BankNew.

Section forks.
Context `{!ClockConstants, !ClockLaws, !BitVecOps, !BitVecLaws, !BankSdk}.
Implicit Types (n : Node) (b : Bank) (g : History).

(** * Removal *)

(** The banks of the tree are in the heap at their slots, and the map of
    descendants is that of their ancestors. *)
Record desc_ok n : Prop := {
  d_bank s id : banks (forks n) !! s = Some id →
    ∃ b, heap n !! id = Some b ∧ slot b = s ∧ wf (Anc.ancestors (ancestors b));
  d_desc a s : s ∈ default ∅ (descendants (forks n) !! a) ↔
    ∃ id b, banks (forks n) !! s = Some id ∧ heap n !! id = Some b ∧ a ∈ proper_ancestors b;
  d_keys a : is_Some (descendants (forks n) !! a) ↔
    is_Some (banks (forks n) !! a) ∨ default ∅ (descendants (forks n) !! a) ≠ ∅;
}.

(** [n'] is [n] with a smaller tree. *)
Record smaller n n' : Prop := {
  sm_heap : heap n' = heap n;
  sm_gen : bank_id_generator n' = bank_id_generator n;
  sm_cache : status_cache n' = status_cache n;
  sm_root : root (forks n') = root (forks n);
}.

#[export] Instance smaller_preorder : PreOrder smaller.
Proof. split; [by constructor|]. intros n1 n2 n3 [] []. constructor; congruence. Qed.

(** The entry of an ancestor of the bank at [s] after the bank is removed. *)
Definition dropped (bs : gmap Slot BankId) (s : Slot) (d : gmap Slot (gset Slot)) (a : Slot)
    : option (gset Slot) :=
  let e := default ∅ (d !! a) ∖ {[ s ]} in
  if decide (e = ∅ ∧ bs !! a = None) then None else Some e.

Lemma drop_descendants_spec bs s l (d : gmap Slot (gset Slot)) :
  NoDup l → (∀ a, a ∈ l → is_Some (d !! a)) →
  ∃ d', for_each (drop_descendant bs s) l d = Ret d' ∧
    ∀ a, d' !! a = if decide (a ∈ l) then dropped bs s d a else d !! a.
Proof.
  intros Hnd Hin.
  destruct (for_each_inv (λ don d', ∀ a, d' !! a = if decide (a ∈ don) then dropped bs s d a else d !! a)
    (drop_descendant bs s) l d) as (d' & Hd' & Hspec); [| |by exists d'].
  - intros a. by rewrite decide_False by apply not_elem_of_nil.
  - intros don p todo d1 -> Hd1. apply NoDup_app in Hnd as (_ & Hdisj & _).
    assert (p ∉ don) as Hp by (intros Hp; apply (Hdisj p Hp); left).
    destruct (Hin p) as [e He]; [set_solver|].
    unfold drop_descendant. rewrite (Hd1 p), decide_False, He by done. cbn.
    eexists. split; [done|]. intros a.
    assert (dropped bs s d p = if bool_decide (e ∖ {[ s ]} = ∅) && negb (is_some (bs !! p)) then None
      else Some (e ∖ {[ s ]})) as Hdrop.
    { unfold dropped. rewrite He. cbn. case_bool_decide; destruct (bs !! p); cbn;
        [rewrite decide_False by naive_solver|rewrite decide_True by done
        |rewrite decide_False by naive_solver..]; done. }
    destruct (decide (a = p)) as [->|Hne].
    + rewrite decide_True by set_solver. rewrite Hdrop.
      destruct (_ && _); [by rewrite lookup_delete_eq|by rewrite lookup_insert_eq].
    + transitivity (d1 !! a); [destruct (_ && _); [by rewrite lookup_delete_ne|by rewrite lookup_insert_ne]|].
      rewrite Hd1. destruct (decide (a ∈ don));
        [rewrite decide_True by set_solver|rewrite decide_False by set_solver]; done.
Qed.

Lemma NoDup_proper_ancestors b : wf (Anc.ancestors (ancestors b)) → NoDup (proper_ancestors b).
Proof.
  intros Hwf. unfold proper_ancestors, Anc.keys. apply NoDup_filter.
  rewrite (get_all_spec _ Hwf). apply NoDup_elements.
Qed.

Lemma remove_bank_spec n s id :
  desc_ok n → banks (forks n) !! s = Some id →
  ∃ n', remove_bank n s = Ret (Some id, n') ∧ smaller n n' ∧ desc_ok n' ∧
    banks (forks n') = delete s (banks (forks n)).
Proof.
  intros Hd Hs. destruct (d_bank n Hd s id Hs) as (b & Hb & Hslot & Hwf).
  assert (s ∉ proper_ancestors b) as Hself by (rewrite proper_ancestors_spec by done; naive_solver).
  assert (∀ a, s ∈ default ∅ (descendants (forks n) !! a) ↔ a ∈ proper_ancestors b) as Hmem.
  { intros a. rewrite (d_desc n Hd). split; [|eauto]. intros (id' & b' & ? & ? & ?). naive_solver. }
  destruct (drop_descendants_spec (delete s (banks (forks n))) s (proper_ancestors b)
    (descendants (forks n)) (NoDup_proper_ancestors b Hwf)) as (d' & Hd' & Hspec).
  { intros a Ha. apply Hmem in Ha. destruct (descendants (forks n) !! a); [eauto|set_solver]. }
  destruct (proj2 (d_keys n Hd s) ltac:(left; eauto)) as [es Hes].
  assert (d' !! s = Some es) as Hds by (rewrite Hspec, decide_False by done; done).
  unfold remove_bank. rewrite Hs. unfold get_bank. rewrite Hb. cbn. rewrite Hd'. cbn. rewrite Hds. cbn.
  set (d2 := if bool_decide (es = ∅) then delete s d' else d').
  assert (∀ a, default ∅ (d2 !! a) = default ∅ (descendants (forks n) !! a) ∖ {[ s ]}) as Hdef.
  { intros a. transitivity (default ∅ (d' !! a)).
    - unfold d2. case_bool_decide as He; [|done]. destruct (decide (a = s)) as [->|Hne];
        [by rewrite lookup_delete_eq, Hds, He|by rewrite lookup_delete_ne].
    - rewrite Hspec. destruct (decide (a ∈ proper_ancestors b)) as [Ha|Ha].
      + unfold dropped. case_decide as Hc; [by destruct Hc as [-> _]|done].
      + rewrite <-Hmem in Ha. set_solver. }
  eexists. split; [done|]. split; [by constructor|]. split; [|done].
  constructor; cbn [forks banks descendants set_forks heap].
  - intros s' id' [_ Hs']%lookup_delete_Some. by apply (d_bank n Hd s').
  - intros a s'. rewrite Hdef, elem_of_difference, elem_of_singleton, (d_desc n Hd). split.
    + intros [(id' & b' & ? & ? & ?) Hne]. exists id', b'. by rewrite lookup_delete_ne.
    + intros (id' & b' & [? ?]%lookup_delete_Some & ? & ?). naive_solver.
  - intros a. rewrite Hdef. unfold d2. destruct (decide (a = s)) as [->|Hne].
    + rewrite lookup_delete_eq, Hes. cbn.
      assert (s ∉ es) as Hse.
      { intros Hin. apply Hself, Hmem. by rewrite Hes. }
      replace (es ∖ {[ s ]}) with es by set_solver.
      case_bool_decide as He; [rewrite lookup_delete_eq|rewrite Hds].
      * subst. split; [by intros []|intros [[]|]; done].
      * naive_solver.
    + transitivity (is_Some (d' !! a)); [case_bool_decide; [by rewrite lookup_delete_ne|done]|].
      rewrite Hspec, (lookup_delete_ne _ s a) by done.
      destruct (decide (a ∈ proper_ancestors b)) as [Ha|Ha].
      * unfold dropped. rewrite lookup_delete_ne by done. case_decide as Hc.
        -- destruct Hc as [-> ->]. split; [by intros []|intros [[]|]; done].
        -- split; [intros _|eauto]. destruct (banks (forks n) !! a) eqn:E; [eauto|]. naive_solver.
      * rewrite <-Hmem in Ha.
        replace (default ∅ (descendants (forks n) !! a) ∖ {[ s ]})
          with (default ∅ (descendants (forks n) !! a)) by set_solver. apply (d_keys n Hd).
Qed.

(** The tree without a set of slots. *)
Definition without_slots (bs : gmap Slot BankId) (l : list Slot) : gmap Slot BankId :=
  filter (λ e, e.1 ∉ l) bs.

Lemma without_slots_cons bs s l : without_slots bs (s :: l) = without_slots (delete s bs) l.
Proof.
  apply map_eq. intros a. apply option_eq. intros id. unfold without_slots.
  rewrite !map_lookup_filter_Some, lookup_delete_Some. cbn. set_solver.
Qed.

Lemma dump_slots_spec n l :
  desc_ok n → NoDup l → (∀ s, s ∈ l → is_Some (banks (forks n) !! s)) →
  ∃ ids n', dump_slots n l = Ret (ids, n') ∧ smaller n n' ∧ desc_ok n' ∧
    banks (forks n') = without_slots (banks (forks n)) l.
Proof.
  revert n. induction l as [|s l IH]; intros n Hd Hnd Hin; cbn [dump_slots].
  { exists [], n. split_and!; [done|reflexivity|done|].
    apply map_eq. intros a. apply option_eq. intros id. unfold without_slots.
    rewrite map_lookup_filter_Some. set_solver. }
  apply NoDup_cons in Hnd as [Hs Hnd]. destruct (Hin s) as [id Hid]; [left|].
  destruct (remove_bank_spec n s id Hd Hid) as (n1 & -> & Hsm1 & Hd1 & Hb1). cbn.
  destruct (IH n1) as (ids & n2 & -> & Hsm2 & Hd2 & Hb2); [done..| |].
  { intros s' Hs'. rewrite Hb1, lookup_delete_ne by set_solver. apply Hin. by right. }
  cbn. eexists _, n2. split_and!; [done|by etrans|done|].
  by rewrite Hb2, Hb1, without_slots_cons.
Qed.

Lemma prune_loop_spec n l :
  desc_ok n → NoDup l → (∀ s, s ∈ l → is_Some (banks (forks n) !! s)) →
  ∃ n', for_each (λ s n, '(_, n) ← remove_bank n s; Ret n) l n = Ret n' ∧ smaller n n' ∧ desc_ok n' ∧
    banks (forks n') = without_slots (banks (forks n)) l.
Proof.
  revert n. induction l as [|s l IH]; intros n Hd Hnd Hin; cbn [for_each].
  { exists n. split_and!; [done|reflexivity|done|].
    apply map_eq. intros a. apply option_eq. intros id. unfold without_slots.
    rewrite map_lookup_filter_Some. set_solver. }
  apply NoDup_cons in Hnd as [Hs Hnd]. destruct (Hin s) as [id Hid]; [left|].
  destruct (remove_bank_spec n s id Hd Hid) as (n1 & -> & Hsm1 & Hd1 & Hb1). cbn.
  destruct (IH n1) as (n2 & Hn2 & Hsm2 & Hd2 & Hb2); [done..| |].
  { intros s' Hs'. rewrite Hb1, lookup_delete_ne by set_solver. apply Hin. by right. }
  exists n2. split_and!; [done|by etrans|done|]. by rewrite Hb2, Hb1, without_slots_cons.
Qed.

(** The slots that a new root keeps. *)
Definition kept (f : BankForks) (r highest s : Slot) : Prop :=
  s = r ∨ s ∈ default ∅ (descendants f !! r) ∨
  s < r ∧ highest ≤ s ∧ r ∈ default ∅ (descendants f !! s).

#[export] Instance kept_dec f r highest s : Decision (kept f r highest s).
Proof. unfold kept. apply _. Defined.

Lemma keep_slot_spec n r highest s :
  desc_ok n → is_Some (banks (forks n) !! r) → is_Some (banks (forks n) !! s) →
  keep_slot (forks n) r highest s = Ret (bool_decide (kept (forks n) r highest s)).
Proof.
  intros Hd Hr Hs. unfold keep_slot.
  destruct (proj2 (d_keys n Hd r) (or_introl Hr)) as [er Her].
  destruct (proj2 (d_keys n Hd s) (or_introl Hs)) as [es Hes].
  assert (kept (forks n) r highest s ↔ s = r ∨ s ∈ er ∨ s < r ∧ highest ≤ s ∧ r ∈ es) as Hk.
  { unfold kept. by rewrite Her, Hes. }
  rewrite Her, Hes. cbn. destruct (Z.eqb_spec s r) as [->|Hne].
  { f_equal. symmetry. apply bool_decide_eq_true. tauto. }
  case_bool_decide as Hin; [f_equal; symmetry; apply bool_decide_eq_true; tauto|].
  destruct (Z.ltb_spec s r), (Z.leb_spec highest s); cbn; f_equal;
    [apply bool_decide_ext; naive_solver|symmetry; apply bool_decide_eq_false; rewrite Hk; naive_solver lia..].
Qed.

Lemma slots_to_prune_spec n r highest l :
  desc_ok n → is_Some (banks (forks n) !! r) → (∀ s, s ∈ l → is_Some (banks (forks n) !! s)) →
  slots_to_prune (forks n) r highest l = Ret (filter (λ s, ¬ kept (forks n) r highest s) l).
Proof.
  intros Hd Hr. induction l as [|s l IH]; intros Hin; cbn [slots_to_prune]; [done|].
  rewrite keep_slot_spec by (done || apply Hin; left). rewrite bind_Ret_l, IH by (intros; apply Hin; by right).
  rewrite bind_Ret_l, filter_cons. case_bool_decide; [rewrite decide_False by tauto|rewrite decide_True by done]; done.
Qed.

Lemma prune_spec n r highest :
  desc_ok n → is_Some (banks (forks n) !! r) →
  ∃ n', prune_non_rooted n r highest = Ret n' ∧ smaller n n' ∧ desc_ok n' ∧
    ∀ s id, banks (forks n') !! s = Some id ↔
      banks (forks n) !! s = Some id ∧ kept (forks n) r (default r highest) s.
Proof.
  intros Hd Hr. unfold prune_non_rooted. set (l := (map_to_list (banks (forks n))).*1).
  assert (∀ s, s ∈ l ↔ is_Some (banks (forks n) !! s)) as Hl.
  { intros s. unfold l. rewrite list_elem_of_fmap. split.
    - intros ([s' id] & -> & ?%elem_of_map_to_list). eauto.
    - intros [id Hid]. exists (s, id). by rewrite elem_of_map_to_list. }
  rewrite slots_to_prune_spec by (done || intros; by apply Hl). cbn [mbind outcome_bind].
  destruct (prune_loop_spec n (filter (λ s, ¬ kept (forks n) r (default r highest) s) l))
    as (n' & Hn' & Hsm & Hd' & Hb'); [done|apply NoDup_filter, NoDup_fst_map_to_list| |].
  { intros s [_ Hs]%list_elem_of_filter. by apply Hl. }
  exists n'. split_and!; [done..|]. intros s id. rewrite Hb'. unfold without_slots.
  rewrite map_lookup_filter_Some. cbn. rewrite list_elem_of_filter, Hl.
  split; intros [Hid Hk]; (split; [done|]).
  - destruct (decide (kept (forks n) r (default r highest) s)); naive_solver.
  - naive_solver.
Qed.

(** * Roots of the status cache *)

Lemma is_root_add (c : BankStatusCache) r s :
  wf_cache c → is_root c s ∨ s = r → is_root (Cache.add_root c r) s.
Proof.
  intros Hwf [[Hin|Hab]| ->].
  - destruct (add_root_roots c r s Hwf); [set_solver|by left|by right].
  - right. by apply add_root_above.
  - destruct (add_root_roots c r r Hwf); [set_solver|by left|by right].
Qed.

Lemma remembers_add (c : BankStatusCache) r bh m s :
  wf_cache c → remembers c bh m s → remembers (Cache.add_root c r) bh m s.
Proof.
  intros Hwf [Hrec|Hab].
  - destruct (add_root_recorded c r bh (key_bytes m) s Hwf Hrec); [by left|by right].
  - right. by apply add_root_above.
Qed.

Lemma roots_add (c : BankStatusCache) r s :
  wf_cache c → s ∈ roots (Cache.add_root c r) → s ∈ roots c ∨ s = r.
Proof.
  intros Hwf. destruct (add_root_cases c r Hwf) as [[-> _]|(m & _ & _ & -> & _)]; cbn; set_solver.
Qed.

Lemma add_roots_spec l (c : BankStatusCache) :
  wf_cache c →
  let c' := foldl Cache.add_root c l in
  wf_cache c' ∧ (∀ s, is_root c s ∨ s ∈ l → is_root c' s) ∧
  (∀ bh m s, remembers c bh m s → remembers c' bh m s) ∧
  (∀ s, s ∈ roots c' → s ∈ roots c ∨ s ∈ l).
Proof.
  cbn. revert c. induction l as [|r l IH]; intros c Hwf; cbn [foldl].
  { split_and!; [done| |done|auto]. intros s [|?%not_elem_of_nil]; done. }
  destruct (IH (Cache.add_root c r) (add_root_wf c r Hwf)) as (Hwf' & Hroot & Hrem & Hback).
  split_and!; [done| | |].
  - intros s [Hs|[->|Hs]%elem_of_cons]; apply Hroot; [left; apply is_root_add; auto..|by right].
  - intros bh m s Hs. by apply Hrem, remembers_add.
  - intros s [Hs|Hs]%Hback; [|right; by right].
    apply roots_add in Hs as [?| ->]; [by left|right; left|done].
Qed.

End forks.

(** * Squashing a bank and setting a root *)

Lemma history_eta g : mkHistory (lineage g) (block_hash g) (committed g) = g.
Proof. by destruct g. Qed.

Section root.
Context `{!ClockConstants, !ClockLaws, !BitVecOps, !BitVecLaws, !BankSdk}.
Context (genesis : Hash).
Implicit Types (n : Node) (b : Bank) (g : History).

(** What depends on the heap only. *)
Lemma tree_same n n' g :
  heap n' = heap n → bank_id_generator n' = bank_id_generator n → tree_ok n g → tree_ok n' g.
Proof. intros Hh Hg []. constructor; rewrite ?Hh, ?Hg; assumption. Qed.

(** * The walks over parents end *)

Lemma line_length n g id b : tree_ok n g → heap n !! id = Some b → (length (lin g id) ≤ size (heap n))%nat.
Proof.
  intros Ht Hb. rewrite <-size_dom, <-(size_list_to_set (C := gset BankId)) by (by eapply line_NoDup).
  apply subseteq_size. intros x Hx%elem_of_list_to_set. apply elem_of_dom. by eapply line_heap.
Qed.

Lemma parents_from_total n g fuel p :
  tree_ok n g → (∀ q, p = Some q → is_Some (heap n !! q) ∧ (length (lin g q) ≤ fuel)%nat) →
  ∃ ps, parents_from fuel n p = Ret ps.
Proof.
  intros Ht. revert p. induction fuel as [|fuel IH]; intros [q|] Hp; cbn; [|by eexists| |by eexists].
  - destruct (Hp q eq_refl) as [[b Hb] Hlen]. pose proof (line_self n g Ht q b Hb) as Hin.
    destruct (lin g q); [by apply not_elem_of_nil in Hin|cbn in Hlen; lia].
  - destruct (Hp q eq_refl) as [[b Hb] Hlen]. unfold get_bank. rewrite Hb. cbn.
    destruct (IH (parent b)) as [ps ->]; [|by eexists].
    intros z Hz. destruct (t_parent n g Ht q b z Hb Hz) as [Hlin ?]. split; [done|].
    rewrite Hlin in Hlen. cbn in Hlen. lia.
Qed.

Lemma parents_total n g id b : tree_ok n g → heap n !! id = Some b → ∃ ps, parents n id = Ret ps.
Proof.
  intros Ht Hb. unfold parents, get_bank. rewrite Hb. cbn. apply (parents_from_total n g); [done|].
  intros z Hz. destruct (t_parent n g Ht id b z Hb Hz) as [_ [zb Hzb]]. split; [eauto|].
  by eapply line_length.
Qed.

Lemma slots_of_total n ids : (∀ x, x ∈ ids → is_Some (heap n !! x)) → ∃ l, slots_of n ids = Ret l.
Proof.
  induction ids as [|x ids IH]; intros Hin; cbn; [by eexists|].
  destruct (Hin x) as [xb Hxb]; [left|]. unfold get_bank. rewrite Hxb. cbn.
  destruct IH as [l ->]; [intros; apply Hin; by right|by eexists].
Qed.

Lemma snapshot_bank_total n full incr ids :
  (∀ x, x ∈ ids → is_Some (heap n !! x)) → ∃ found, snapshot_bank n full incr ids = Ret found.
Proof.
  induction ids as [|x ids IH]; intros Hin; cbn; [by eexists|].
  destruct (Hin x) as [xb Hxb]; [left|]. unfold get_bank. rewrite Hxb. cbn.
  destruct (_ && _); [by eexists|]. apply IH. intros. apply Hin. by right.
Qed.

Lemma snapshot_bank_in n full incr ids id :
  snapshot_bank n full incr ids = Ret (Some id) → id ∈ ids.
Proof.
  induction ids as [|y ids IH]; cbn; [done|]. intros (b & _ & Hs)%bind_Ret_inv.
  destruct (_ && _); [injection Hs as ->; left|right; by apply IH].
Qed.

Lemma parents_in n g id b ps :
  tree_ok n g → heap n !! id = Some b → parents n id = Ret ps → ∀ x, x ∈ id :: ps → x ∈ lin g id.
Proof.
  intros Ht Hb Hps x [->|Hx]%elem_of_cons; [by eapply line_self|].
  unfold parents, get_bank in Hps. rewrite Hb in Hps. cbn in Hps. destruct (parent b) as [p|] eqn:Hp.
  - destruct (parents_from_spec n g _ p ps Ht Hps) as (qs & z & zb & -> & Hz & _ & Hlin).
    destruct (t_parent n g Ht id b p Hb Hp) as [-> _]. right. rewrite Hlin.
    assert (z ∈ lin g z) by (by eapply line_self). set_solver.
  - destruct (size (heap n)); cbn in Hps; injection Hps as <-; by apply not_elem_of_nil in Hx.
Qed.

(** * Squashing *)

(** The lines of the banks without a parent are roots of the status cache. *)
Definition ends_rooted n g : Prop :=
  ∀ z zb x xb, heap n !! z = Some zb → parent zb = None → x ∈ lin g z → heap n !! x = Some xb →
    is_root (status_cache n) (slot xb).

(** What squashing the bank [id] does. *)
Record squashed n g id n' : Prop := {
  sq_evolves : evolves n n';
  sq_no_ticks : no_ticks n n';
  sq_forks : forks n' = forks n;
  sq_cache : ∃ l, status_cache n' = foldl Cache.add_root (status_cache n) l ∧
    ∀ s, s ∈ l → on_line n g id s;
  sq_ends : ends_rooted n' g;
  sq_line x xb : x ∈ lin g id → heap n' !! x = Some xb → is_root (status_cache n') (slot xb);
  sq_parent x xb : heap n' !! x = Some xb → parent xb = None →
    x = id ∨ ∃ xb0, heap n !! x = Some xb0 ∧ parent xb0 = None;
  sq_frozen xb : heap n' !! id = Some xb → freeze_started xb = true;
}.

(** The bank and its parents are the line down to a bank without a parent. *)
Lemma parents_line n g id b ps :
  tree_ok n g → heap n !! id = Some b → parents n id = Ret ps →
  ∃ qs z zb, id :: ps = qs ++ [z] ∧ heap n !! z = Some zb ∧ parent zb = None ∧ lin g id = qs ++ lin g z.
Proof.
  intros Ht Hb. unfold parents, get_bank. rewrite Hb. cbn. destruct (parent b) as [p|] eqn:Hp; intros Hps.
  - destruct (parents_from_spec n g _ p ps Ht Hps) as (qs & z & zb & -> & Hz & Hnone & Hlin).
    exists (id :: qs), z, zb. split_and!; [done..|].
    destruct (t_parent n g Ht id b p Hb Hp) as [-> _]. by rewrite Hlin.
  - exists [], id, b. destruct (size (heap n)); cbn in Hps; injection Hps as <-; done.
Qed.

(** What [squash] does, seen from the node before it: [ids] are the bank and its
    parents, down to [z]. *)
Lemma squash_inv n g id n' :
  tree_ok n g → squash n id = Ret n' →
  ∃ b ids z zb l, heap n !! id = Some b ∧ heap n !! z = Some zb ∧ parent zb = None ∧
    lin g id = ids ++ lin g z ∧
    (∀ s, s ∈ l ↔ ∃ x xb, x ∈ ids ++ [z] ∧ heap n !! x = Some xb ∧ slot xb = s) ∧
    heap n' = <[ id := set_parent (set_frozen b) None ]> (heap n) ∧
    bank_id_generator n' = bank_id_generator n ∧ forks n' = forks n ∧
    status_cache n' = foldl Cache.add_root (status_cache n) l.
Proof.
  intros Ht. unfold squash. intros (n1 & Hn1 & Hsq)%bind_Ret_inv.
  destruct (freeze_evolves n id n1 Hn1) as (Hev1 & Hno1 & Hf1 & Hc1 & _ & b & Hb & Hb1).
  assert (n1 = put_bank n id (set_frozen b)) as Hn1'.
  { unfold freeze, get_bank in Hn1. rewrite Hb in Hn1. by injection Hn1 as <-. }
  apply bind_Ret_inv in Hsq as (b1 & Hb1'%get_bank_inv & Hsq). rewrite Hb1 in Hb1'. injection Hb1' as <-.
  apply bind_Ret_inv in Hsq as (ps & Hps & Hsq). apply bind_Ret_inv in Hsq as (slots & Hslots & Hsq).
  injection Hsq as <-.
  assert (tree_ok n1 g) as Ht1 by (rewrite <-(history_eta g); by apply (tree_no_ticks n n1)).
  destruct (parents_line n1 g id _ ps Ht1 Hb1 Hps) as (qs & z & zb1 & Hqs & Hz1 & Hnone1 & Hlin).
  destruct (ev_bwd n n1 Hev1 z zb1 Hz1) as (zb & Hz & _).
  exists b, qs, z, zb, (slot (set_frozen b) :: slots). split_and!; try done.
  - rewrite Hn1' in Hz1. cbn in Hz1. apply lookup_insert_Some in Hz1 as [[<- <-]|[_ ?]]; [|by simplify_eq].
    cbn in Hnone1. by replace zb with b by congruence.
  - intros s. rewrite elem_of_cons, (slots_of_spec n1 ps slots Hslots), <-Hqs. setoid_rewrite elem_of_cons.
    split.
    + intros [->|(x & xb1 & ? & Hx1 & <-)]; [exists id, b; auto|].
      destruct (ev_bwd n n1 Hev1 x xb1 Hx1) as (xb & ? & Hle). exists x, xb. rewrite (le_slot _ _ Hle). auto.
    + intros (x & xb & [->|Hx] & Hxb & <-); [left; by replace xb with b by congruence|right].
      destruct (ev_fwd n n1 Hev1 x xb Hxb) as (xb1 & ? & Hle). exists x, xb1. by rewrite (le_slot _ _ Hle).
  - rewrite Hn1'. cbn. by rewrite insert_insert_eq.
  - by rewrite Hn1'.
  - by rewrite Hn1'.
Qed.

Lemma squash_spec n g id n' :
  tree_ok n g → wf_cache (status_cache n) → ends_rooted n g → squash n id = Ret n' → squashed n g id n'.
Proof.
  intros Ht Hwf Hends Hsq.
  destruct (squash_inv n g id n' Ht Hsq)
    as (b & ids & z & zb & l & Hb & Hz & Hnone & Hlin & Hl & Hheap & Hgen & Hforks & Hcache).
  assert (evolves n n') as Hev.
  { destruct (put_bank_evolves n id b (set_parent (set_frozen b) None) Hb) as [F B _];
      [constructor; cbn; auto|]. by constructor; rewrite ?Hheap. }
  destruct (add_roots_spec l (status_cache n) Hwf) as (_ & Hroot & _ & _). rewrite <-Hcache in Hroot.
  assert (∀ x xb, x ∈ lin g id → heap n' !! x = Some xb → is_root (status_cache n') (slot xb)) as Hline.
  { intros x xb' Hx Hxb'. destruct (ev_bwd n n' Hev x xb' Hxb') as (xb & Hxb & Hle).
    rewrite (le_slot _ _ Hle). apply Hroot. rewrite Hlin in Hx. apply elem_of_app in Hx as [Hx|Hx].
    - right. apply Hl. exists x, xb. set_solver.
    - left. by apply (Hends z zb x xb). }
  constructor; [done| |done|exists l; split; [done|]| |done| |].
  - intros x xb xb'. rewrite Hheap. intros Hx [[<- <-]|[_ ?]]%lookup_insert_Some; [|by simplify_eq].
    by replace xb with b by congruence.
  - intros s (x & xb & Hx & Hxb & <-)%Hl. exists x, xb. split_and!; [|done..]. rewrite Hlin.
    assert (z ∈ lin g z) by (by eapply line_self). set_solver.
  - intros y yb x xb' Hy Hpar Hx Hxb'. rewrite Hheap in Hy.
    apply lookup_insert_Some in Hy as [[<- _]|[Hne Hy]]; [by eapply Hline|].
    destruct (ev_bwd n n' Hev x xb' Hxb') as (xb & Hxb & Hle). rewrite (le_slot _ _ Hle).
    apply Hroot. left. by apply (Hends y yb x xb).
  - intros x xb. rewrite Hheap. intros [[<- _]|[Hne Hx]]%lookup_insert_Some Hp; [by left|right; eauto].
  - intros xb. rewrite Hheap, lookup_insert_eq. by intros [= <-].
Qed.

(** * The squashing of a new root *)

(** The banks of the line of [id] become roots, some of them first. *)
Record settled n g id n' : Prop := {
  st_evolves : evolves n n';
  st_no_ticks : no_ticks n n';
  st_forks : forks n' = forks n;
  st_cache : ∃ l, status_cache n' = foldl Cache.add_root (status_cache n) l ∧
    ∀ s, s ∈ l → on_line n g id s;
  st_line x xb : x ∈ lin g id → heap n' !! x = Some xb → is_root (status_cache n') (slot xb);
  st_parent x xb : heap n' !! x = Some xb → parent xb = None →
    x ∈ lin g id ∨ ∃ xb0, heap n !! x = Some xb0 ∧ parent xb0 = None;
  st_frozen xb : heap n' !! id = Some xb → freeze_started xb = true;
}.

Lemma squashed_settled n g id b n' :
  tree_ok n g → heap n !! id = Some b → squashed n g id n' → settled n g id n'.
Proof.
  intros Ht Hb []. constructor; try done. intros x xb Hx Hp.
  destruct (sq_parent0 x xb Hx Hp) as [->|]; [left; by eapply line_self|by right].
Qed.

Lemma on_line_back n n' g id s : evolves n n' → on_line n' g id s → on_line n g id s.
Proof.
  intros Hev (x & xb' & Hx & Hxb' & <-). destruct (ev_bwd n n' Hev x xb' Hxb') as (xb & ? & Hle).
  exists x, xb. split_and!; [done..|]. by rewrite (le_slot _ _ Hle).
Qed.

Lemma squashed_twice n g id b y n1 n2 :
  tree_ok n g → heap n !! id = Some b → y ∈ lin g id →
  squashed n g y n1 → squashed n1 g id n2 → settled n g id n2.
Proof.
  intros Ht Hb Hy Hs1 Hs2. pose proof (sq_evolves _ _ _ _ Hs1) as Hev1.
  destruct (sq_cache _ _ _ _ Hs1) as (l1 & Hc1 & Hl1). destruct (sq_cache _ _ _ _ Hs2) as (l2 & Hc2 & Hl2).
  constructor.
  - etrans; [done|apply Hs2].
  - eapply no_ticks_trans; [done|apply Hs1|apply Hs2].
  - rewrite (sq_forks _ _ _ _ Hs2). apply Hs1.
  - exists (l1 ++ l2). rewrite foldl_app, <-Hc1. split; [done|]. intros s [Hs|Hs]%elem_of_app.
    + destruct (Hl1 s Hs) as (x & xb & Hx & ? & ?). exists x, xb. split_and!; [|done..].
      by eapply (line_trans n g Ht id b y).
    + eapply on_line_back; [done|]. by apply Hl2.
  - apply Hs2.
  - intros x xb Hx Hp. destruct (sq_parent _ _ _ _ Hs2 x xb Hx Hp) as [->|(xb1 & Hx1 & Hp1)].
    { left. by eapply line_self. }
    destruct (sq_parent _ _ _ _ Hs1 x xb1 Hx1 Hp1) as [->|]; [by left|by right].
  - apply Hs2.
Qed.

Lemma squash_total n g id b : tree_ok n g → heap n !! id = Some b → ∃ n', squash n id = Ret n'.
Proof.
  intros Ht Hb. unfold squash, freeze, get_bank. rewrite Hb. cbn [unwrap mbind outcome_bind].
  set (n1 := put_bank n id (set_frozen b)).
  assert (freeze n id = Ret n1) as Hn1 by (unfold freeze, get_bank; by rewrite Hb).
  destruct (freeze_evolves n id n1 Hn1) as (Hev1 & Hno1 & _ & _ & _ & b' & Hb' & Hb1).
  assert (tree_ok n1 g) as Ht1 by (rewrite <-(history_eta g); by apply (tree_no_ticks n n1)).
  rewrite Hb1. cbn [unwrap mbind outcome_bind].
  destruct (parents_total n1 g id _ Ht1 Hb1) as [ps Hps]. rewrite Hps. cbn [mbind outcome_bind].
  destruct (slots_of_total n1 ps) as [l ->]; [|by eexists].
  intros x Hx. apply (line_heap n1 g Ht1 id _ x Hb1).
  apply (parents_in n1 g id _ ps Ht1 Hb1 Hps). by right.
Qed.

(** The snapshot controller squashes nothing or one bank of the line. *)
Lemma handle_new_roots_spec n g r id b ps controller :
  tree_ok n g → wf_cache (status_cache n) → ends_rooted n g → heap n !! id = Some b →
  parents n id = Ret ps →
  ∃ flag n1,
    match controller with
    | Some intervals => handle_new_roots n intervals r (id :: ps)
    | None => Ret (false, n)
    end = Ret (flag, n1) ∧
    ((flag = false ∧ n1 = n) ∨
     ∃ y yb, y ∈ lin g id ∧ heap n !! y = Some yb ∧ squashed n g y n1 ∧ flag = (slot yb =? r)).
Proof.
  intros Ht Hwf Hends Hb Hps. pose proof (parents_in n g id b ps Ht Hb Hps) as Hin.
  destruct controller as [[[full incr]|]|]; cbn [handle_new_roots]; [|by eexists _, _; auto..].
  destruct (snapshot_bank_total n full incr (id :: ps)) as [found Hfound].
  { intros x Hx. by apply (line_heap n g Ht id b x Hb), Hin. }
  rewrite Hfound. cbn [mbind outcome_bind]. destruct found as [y|]; [|by eexists _, _; auto].
  apply snapshot_bank_in, Hin in Hfound. destruct (line_heap n g Ht id b y Hb Hfound) as [yb Hyb].
  unfold get_bank. rewrite Hyb. cbn [unwrap mbind outcome_bind].
  assert (tree_ok (set_latest n (slot yb)) g) as Ht' by (by apply (tree_same n)).
  destruct (squash_total (set_latest n (slot yb)) g y yb Ht' Hyb) as [n1 Hn1]. rewrite Hn1.
  exists (slot yb =? r), n1. split; [done|]. right. exists y, yb. split_and!; [done..| |done].
  destruct (squash_spec _ g y n1 Ht' Hwf Hends Hn1) as [[F B G] N Fk C En Li Pa Fr].
  constructor; [by constructor|done..].
Qed.

(** [set_root] squashes the line of the new root and prunes the tree. *)
Lemma set_root_eq n g r id b controller highest :
  tree_ok n g → wf_cache (status_cache n) → ends_rooted n g →
  is_Some (banks (forks n) !! root (forks n)) →
  banks (forks n) !! r = Some id → heap n !! id = Some b → slot b = r →
  ∃ n3, settled (set_forks n (mkForks (banks (forks n)) (descendants (forks n)) r)) g id n3 ∧
    set_root n r controller highest = prune_non_rooted n3 r highest.
Proof.
  intros Ht Hwf Hends [rid Hrid] Hid Hb Hslot. unfold set_root. rewrite Hrid. cbn [unwrap mbind outcome_bind].
  set (n0 := set_forks n _). change (banks (forks n0)) with (banks (forks n)). rewrite Hid.
  cbn [unwrap mbind outcome_bind].
  assert (tree_ok n0 g) as Ht0 by (by apply (tree_same n)).
  destruct (parents_total n0 g id b Ht0 Hb) as [ps Hps]. rewrite Hps. cbn [mbind outcome_bind].
  destruct (handle_new_roots_spec n0 g r id b ps controller Ht0 Hwf Hends Hb Hps)
    as (flag & n1 & -> & Hcase). cbn [mbind outcome_bind].
  destruct Hcase as [[-> ->]|(y & yb & Hy & Hyb & Hs1 & ->)].
  { destruct (squash_total n0 g id b Ht0 Hb) as [n3 Hn3]. rewrite Hn3. exists n3. split; [|done].
    eapply squashed_settled; [done|exact Hb|]. by apply squash_spec. }
  destruct (Z.eqb_spec (slot yb) r) as [Heq|Hne].
  - assert (y = id) as ->.
    { eapply (line_slot_inj n0 g Ht0 id b); [done|done|by eapply (line_self n0 g Ht0)|done|done|congruence]. }
    exists n1. split; [|done]. by eapply squashed_settled.
  - assert (tree_ok n1 g) as Ht1.
    { rewrite <-(history_eta g). apply (tree_no_ticks n0 n1); [apply Hs1..|done]. }
    destruct (ev_fwd n0 n1 (sq_evolves _ _ _ _ Hs1) id b Hb) as (b1 & Hb1 & _).
    destruct (squash_total n1 g id b1 Ht1 Hb1) as [n3 Hn3]. rewrite Hn3. exists n3. split; [|done].
    eapply squashed_twice; [done|exact Hb|done|done|]. apply squash_spec; [done| |apply Hs1|done].
    destruct (sq_cache _ _ _ _ Hs1) as (l & -> & _). by apply add_roots_spec.
Qed.

End root.
