(* ===== verification/BankPrune.v ===== *)
(** Setting a root and purging a duplicate slot keep the invariant. *)
From S2P Require Import Prelude Bytes RollingBitField RollingBitFieldProps StatusCache.
From S2P Require Import StatusCacheProps BlockhashQueue Bank BankSteps BankInv BankNew.
From S2P Require Import BankRoot.

Section tree.
Context `{!ClockConstants, !ClockLaws, !BitVecOps, !BitVecLaws, !BankSdk}.
Context (genesis : Hash) (n : Node) (g : History) (Hok : node_ok genesis (n, g)).
Implicit Types (b : Bank).

Let Ht := ok_tree _ _ Hok : tree_ok n g.
Let Hq := ok_queue _ _ Hok : queue_ok genesis n g.
Let Ha := ok_ancestors _ _ Hok : ancestors_ok n g.
Let Hf := ok_forks _ _ Hok : forks_ok n g.
Let Hc := ok_cache _ _ Hok : cache_ok genesis n g.

Lemma node_desc_ok : desc_ok n.
Proof.
  constructor; [|apply Hf..]. intros s id Hid. destruct (f_bank n g Hf s id Hid) as (b & Hb & Hs).
  exists b. split_and!; [done..|]. by apply (a_wf n g Ha id).
Qed.

Lemma node_ends_rooted : ends_rooted n g.
Proof.
  intros z zb x xb Hz Hp Hx Hxb. destruct (root_bank n g Hf) as (rb & Hrb & _).
  apply (c_root genesis n g Hc x); [|done].
  apply (line_trans n g Ht _ rb z); [done| |done]. by apply (a_none n g Ha z zb).
Qed.

(** A bank with [s] among its proper ancestors has a bank of slot [s] below it. *)
Lemma proper_ancestor_line id b s :
  heap n !! id = Some b → s ∈ proper_ancestors b →
  ∃ x xb, x ∈ lin g id ∧ heap n !! x = Some xb ∧ slot xb = s ∧ s < slot b.
Proof.
  intros Hb [Hs Hne]%(proper_ancestors_spec _ _ (a_wf n g Ha id b Hb)).
  destruct (a_line n g Ha id b s Hb Hs) as (x & xb & Hx & Hxb & <-). exists x, xb. split_and!; [done..|].
  pose proof (line_slot_le n g Ht id b x xb Hb Hx Hxb). lia.
Qed.

(** A bank of the line of a bank of the tree that is not below the root is in the
    tree. *)
Lemma line_in_tree s id b x xb :
  banks (forks n) !! s = Some id → heap n !! id = Some b → root_id n ∈ lin g id →
  x ∈ lin g id → heap n !! x = Some xb → root (forks n) ≤ slot xb →
  root_id n ∈ lin g x ∧ banks (forks n) !! slot xb = Some x.
Proof.
  intros Hid Hb Hr Hx Hxb Hle. destruct (root_bank n g Hf) as (rb & Hrb & Hrs & _).
  assert (root_id n ∈ lin g x) as Hrx by (by eapply (line_order n g Ht id b _ rb x xb); [..|lia]).
  split; [done|]. by apply (f_closed n g Hf s id).
Qed.

(** A bank above the root has the banks down to the root as its descendants' map
    says. *)
Lemma line_descendant s id b x xb :
  banks (forks n) !! s = Some id → heap n !! id = Some b → x ∈ lin g id → heap n !! x = Some xb →
  root_id n ∈ lin g x → x = id ∨ s ∈ default ∅ (descendants (forks n) !! slot xb).
Proof.
  intros Hid Hb Hx Hxb Hr. destruct (decide (x = id)) as [|Hne]; [by left|right].
  apply (f_desc n g Hf). exists id, b. split_and!; [done..|].
  apply (proper_ancestors_spec _ _ (a_wf n g Ha id b Hb)). split.
  - by apply (a_above n g Ha id b x xb).
  - destruct (line_proper n g Ht id b x xb Hb Hx Hxb Hne). lia.
Qed.

(** What the descendants' map says of a slot of the tree. *)
Lemma descendant_line a s id b :
  s ∈ default ∅ (descendants (forks n) !! a) → banks (forks n) !! s = Some id →
  heap n !! id = Some b → ∃ x xb, x ∈ lin g id ∧ heap n !! x = Some xb ∧ slot xb = a ∧ a < slot b.
Proof.
  intros (id' & b' & Hid' & Hb' & Hp)%(f_desc n g Hf) Hid Hb.
  assert (id' = id) as -> by congruence. assert (b' = b) as -> by congruence.
  by apply proper_ancestor_line.
Qed.

(** ** A new root *)

Section new_root.
Context (r : Slot) (id : BankId) (b : Bank) (highest : option Slot).
Context (Hid : banks (forks n) !! r = Some id) (Hb : heap n !! id = Some b) (Hcomp : is_complete b = true).
Context (Hdesc : r = root (forks n) ∨ r ∈ default ∅ (descendants (forks n) !! root (forks n))).

Lemma new_root_slot : slot b = r.
Proof. destruct (f_bank n g Hf r id Hid) as (b' & ? & <-). congruence. Qed.

Lemma root_below : root_id n ∈ lin g id.
Proof.
  destruct (root_bank n g Hf) as (rb & Hrb & Hrs & Hroot). destruct Hdesc as [Heq|Hin].
  { assert (root_id n = id) as -> by congruence. by eapply line_self. }
  destruct (descendant_line _ r id b Hin Hid Hb) as (x & xb & Hx & Hxb & Hs & Hlt).
  destruct (f_line n g Hf r id Hid) as [|Hbelow]; [done|].
  pose proof (line_slot_le n g Ht _ rb id b Hrb Hbelow Hb). lia.
Qed.

Lemma below_new_root x xb : heap n !! x = Some xb → id ∈ lin g x → root_id n ∈ lin g x.
Proof. intros Hx Hin. apply (line_trans n g Ht x xb id); [done..|apply root_below]. Qed.

Lemma old_root_line x : x ∈ lin g (root_id n) → x ∈ lin g id.
Proof. intros Hx. apply (line_trans n g Ht id b (root_id n)); [done|apply root_below|done]. Qed.

Lemma new_root_slot_le rb : heap n !! root_id n = Some rb → slot rb ≤ r.
Proof.
  intros Hrb. rewrite <-new_root_slot. by apply (line_slot_le n g Ht id b (root_id n)); [|apply root_below|].
Qed.

(** A slot of the tree with the new root among its ancestors is above it. *)
Lemma descendant_above s x xb :
  banks (forks n) !! s = Some x → heap n !! x = Some xb → s ∈ default ∅ (descendants (forks n) !! r) →
  id ∈ lin g x.
Proof.
  intros Hx Hxb Hin. destruct (root_bank n g Hf) as (rb & Hrb & Hrs & _).
  pose proof (new_root_slot_le rb Hrb) as Hrr.
  destruct (descendant_line r s x xb Hin Hx Hxb) as (y & yb & Hy & Hyb & Hys & Hlt).
  destruct (f_line n g Hf s x Hx) as [Hline|Hline].
  - destruct (line_in_tree s x xb y yb Hx Hxb Hline Hy Hyb) as [_ Hyt]; [lia|].
    rewrite Hys in Hyt. by assert (y = id) as <- by congruence.
  - apply old_root_line in Hline. pose proof (line_slot_le n g Ht id b x xb Hb Hline Hxb) as Hle.
    rewrite new_root_slot in Hle. lia.
Qed.

(** A slot of the tree among the ancestors of the new root is below it. *)
Lemma ancestor_line s x :
  banks (forks n) !! s = Some x → r ∈ default ∅ (descendants (forks n) !! s) → x ∈ lin g id.
Proof.
  intros Hx Hin. destruct (f_bank n g Hf s x Hx) as (xb & Hxb & Hxs).
  destruct (root_bank n g Hf) as (rb & Hrb & Hrs & _).
  destruct (f_line n g Hf s x Hx) as [Hline|Hline]; [|by apply old_root_line].
  destruct (descendant_line s r id b Hin Hid Hb) as (y & yb & Hy & Hyb & Hys & _).
  pose proof (line_slot_le n g Ht x xb _ rb Hxb Hline Hrb).
  destruct (line_in_tree r id b y yb Hid Hb root_below Hy Hyb) as [_ Hyt]; [lia|].
  rewrite Hys in Hyt. by assert (y = x) as <- by congruence.
Qed.

Lemma same_slot s : banks (forks n) !! s = Some id → s = r.
Proof. intros Hs. destruct (f_bank n g Hf s id Hs) as (b' & ? & <-). rewrite <-new_root_slot. congruence. Qed.

(** The banks that stay are the new root, those above it, and those below it from
    the highest slot on that are among its ancestors. *)
Lemma kept_exact s x :
  banks (forks n) !! s = Some x →
  kept (forks n) r (default r highest) s ↔
    id ∈ lin g x ∨ x ∈ lin g id ∧ default r highest ≤ s ∧ Anc.contains_key (ancestors b) s = true.
Proof.
  intros Hx. destruct (f_bank n g Hf s x Hx) as (xb & Hxb & Hxs). pose proof (a_wf n g Ha id b Hb) as Hwf.
  assert (Anc.contains_key (ancestors b) s = true ↔ s ∈ items (Anc.ancestors (ancestors b))) as ->.
  { unfold Anc.contains_key. rewrite (contains_items _ _ Hwf). apply bool_decide_eq_true. }
  split; [intros [->|[Hin|(Hlt & Hle & Hin)]]|].
  - assert (x = id) as -> by congruence. left. by eapply line_self.
  - left. by apply (descendant_above s x xb).
  - right. split_and!; [by apply (ancestor_line s x)|done|].
    apply (f_desc n g Hf) in Hin as (id' & b' & ? & ? & Hp).
    assert (id' = id) as -> by congruence. assert (b' = b) as -> by congruence.
    by apply (proper_ancestors_spec _ _ Hwf) in Hp as [? _].
  - intros [Hup|(Hdown & Hle & Hin)].
    + destruct (line_descendant s x xb id b Hx Hxb Hup Hb root_below) as [Heq|?].
      * left. apply same_slot. by rewrite Heq.
      * right. left. by rewrite <-new_root_slot.
    + destruct (decide (x = id)) as [->|Hne]; [left; by apply same_slot|]. right. right.
      destruct (line_proper n g Ht id b x xb Hb Hdown Hxb Hne) as [Hlt _].
      rewrite new_root_slot, Hxs in Hlt. split_and!; [done..|].
      apply (f_desc n g Hf). exists id, b. split_and!; [done..|].
      apply (proper_ancestors_spec _ _ Hwf). split; [done|]. rewrite new_root_slot. lia.
Qed.

Context (n3 n' : Node).
Context (Hset : settled (set_forks n (mkForks (banks (forks n)) (descendants (forks n)) r)) g id n3).
Context (Hprune : prune_non_rooted n3 r highest = Ret n').

Lemma settled_desc_ok : desc_ok n3.
Proof.
  destruct node_desc_ok as [D1 D2 D3]. pose proof (st_forks _ _ _ _ Hset) as Hfs. cbn in Hfs.
  pose proof (st_evolves _ _ _ _ Hset) as Hev.
  constructor; rewrite Hfs; cbn [banks descendants].
  - intros s x Hx. destruct (D1 s x Hx) as (xb & Hxb & <- & Hwf).
    destruct (ev_fwd _ _ Hev x xb Hxb) as (xb' & ? & Hle). exists xb'.
    by rewrite (le_slot _ _ Hle), (le_ancestors _ _ Hle).
  - intros a s. rewrite D2. split.
    + intros (x & xb & ? & Hxb & ?). destruct (ev_fwd _ _ Hev x xb Hxb) as (xb' & ? & Hle).
      exists x, xb'. by rewrite (proper_ancestors_le _ _ Hle).
    + intros (x & xb' & ? & Hxb' & ?). destruct (ev_bwd _ _ Hev x xb' Hxb') as (xb & ? & Hle).
      exists x, xb. by rewrite <-(proper_ancestors_le _ _ Hle).
  - done.
Qed.

Lemma pruned_spec :
  smaller n3 n' ∧ desc_ok n' ∧
  ∀ s x, banks (forks n') !! s = Some x ↔
    banks (forks n) !! s = Some x ∧ kept (forks n) r (default r highest) s.
Proof.
  destruct (prune_spec n3 r highest settled_desc_ok) as (n'' & Hn'' & Hsm & Hd' & Hbanks).
  { rewrite (st_forks _ _ _ _ Hset). by exists id. }
  assert (n'' = n') as -> by congruence. split_and!; [done..|].
  intros s x. rewrite Hbanks, (st_forks _ _ _ _ Hset). done.
Qed.

Lemma pruned_evolves : evolves n n'.
Proof.
  destruct pruned_spec as ([Hh Hg _ _] & _). destruct (st_evolves _ _ _ _ Hset) as [F B G].
  constructor; rewrite ?Hh, ?Hg; [apply F|apply B|apply G].
Qed.

Lemma pruned_no_ticks : no_ticks n n'.
Proof.
  destruct pruned_spec as ([Hh _ _ _] & _). unfold no_ticks. rewrite Hh. apply (st_no_ticks _ _ _ _ Hset).
Qed.

Lemma pruned_root : root (forks n') = r.
Proof. destruct pruned_spec as ([_ _ _ ->] & _). by rewrite (st_forks _ _ _ _ Hset). Qed.

Lemma pruned_root_id : root_id n' = id.
Proof.
  destruct pruned_spec as (_ & _ & Hbanks). unfold root_id. rewrite pruned_root.
  by rewrite (proj2 (Hbanks r id)) by (split; [done|by left]).
Qed.

Lemma pruned_ancestors : ancestors_ok n' g.
Proof.
  rewrite <-(history_eta g). destruct pruned_spec as ([Hh _ Hcs _] & _).
  apply (ancestors_evolves n n' g); [apply pruned_evolves|done| | |]; rewrite ?pruned_root_id.
  - intros s Hs. rewrite Hcs. destruct (st_cache _ _ _ _ Hset) as (l & -> & _).
    apply add_roots_spec; [apply Hc|by left].
  - apply below_new_root.
  - intros x xb Hx Hp. rewrite Hh in Hx.
    destruct (st_parent _ _ _ _ Hset x xb Hx Hp) as [|(xb0 & Hx0 & Hp0)]; [done|].
    apply old_root_line. by apply (a_none n g Ha x xb0).
Qed.

Lemma pruned_forks : forks_ok n' g.
Proof.
  pose proof pruned_evolves as Hev. destruct pruned_spec as ([Hh _ _ _] & Hd & Hbanks).
  constructor; rewrite ?pruned_root_id, ?pruned_root.
  - exists id. apply Hbanks. split; [done|by left].
  - intros b' Hb'. left. split.
    + destruct (pruned_no_ticks id b b' Hb Hb') as (_ & _ & E1 & E2).
      unfold is_complete in *. by rewrite E1, E2.
    + apply (st_frozen _ _ _ _ Hset). by rewrite <-Hh.
  - intros s x Hx. destruct (d_bank n' Hd s x Hx) as (xb & ? & ? & _). eauto.
  - intros s x [Hx Hk]%Hbanks. apply (kept_exact s x Hx) in Hk as [|[? _]]; auto.
  - intros s x y yb' [Hx Hk]%Hbanks Hy Hyb' Hidy.
    destruct (ev_bwd n n' Hev y yb' Hyb') as (yb & Hyb & Hle). rewrite (le_slot _ _ Hle).
    assert (banks (forks n) !! slot yb = Some y) as Hys.
    { apply (f_closed n g Hf s x); [done..|]. by apply (below_new_root y yb). }
    apply Hbanks. split; [done|].
    destruct (line_descendant (slot yb) y yb id b Hys Hyb Hidy Hb root_below) as [<-|Hin].
    + left. replace yb with b by congruence. apply new_root_slot.
    + right. left. by rewrite <-new_root_slot.
  - apply Hd.
  - apply Hd.
Qed.

Lemma pruned_cache : cache_ok genesis n' g.
Proof.
  pose proof pruned_evolves as Hev. destruct pruned_spec as ([Hh _ Hcs _] & Hd & Hbanks).
  destruct (st_cache _ _ _ _ Hset) as (l & Hl & Hon). cbn in Hl.
  destruct (add_roots_spec l (status_cache n) (c_wf genesis n g Hc)) as (Hwf & Hroot & Hrem & Hback).
  constructor; rewrite ?pruned_root_id, ?Hcs, ?Hl.
  - done.
  - intros s Hs. apply (on_line_evolves n n' g); [done|]. apply Hback in Hs as [Hs|Hs]; [|by apply Hon].
    destruct (c_roots genesis n g Hc s Hs) as (x & xb & Hx & ? & ?). exists x, xb.
    split_and!; [by apply old_root_line|done..].
  - intros x xb Hx Hxb. rewrite <-Hl. apply (st_line _ _ _ _ Hset x xb Hx). by rewrite <-Hh.
  - intros x m bh Hin. destruct (c_hash genesis n g Hc x m bh Hin) as [? [xb Hxb]]. split; [done|].
    destruct (ev_fwd n n' Hev x xb Hxb) as (? & ? & _). eauto.
  - intros x m bh xb' s d Hin Hxb' [Hdt _]%Hbanks Hx.
    destruct (ev_bwd n n' Hev x xb' Hxb') as (xb & Hxb & Hle). rewrite (le_slot _ _ Hle).
    apply Hrem. by apply (c_remembers genesis n g Hc x m bh xb s d).
Qed.

Lemma pruned_ok : node_ok genesis (n', g).
Proof.
  constructor; cbn [fst snd].
  - rewrite <-(history_eta g). apply (tree_no_ticks n n' g); [apply pruned_evolves|apply pruned_no_ticks|done].
  - rewrite <-(history_eta g). apply (queue_no_ticks genesis n n' g);
      [apply pruned_evolves|apply pruned_no_ticks|done].
  - apply pruned_ancestors.
  - apply pruned_forks.
  - apply pruned_cache.
Qed.

End new_root.

Lemma root_ok r id b controller highest n' :
  banks (forks n) !! r = Some id → heap n !! id = Some b → is_complete b = true →
  r = root (forks n) ∨ r ∈ default ∅ (descendants (forks n) !! root (forks n)) →
  set_root n r controller highest = Ret n' → node_ok genesis (n', g).
Proof.
  intros Hid Hb Hcomp Hdesc Hsr.
  assert (slot b = r) as Hslot by (destruct (f_bank n g Hf r id Hid) as (b' & ? & <-); congruence).
  destruct (set_root_eq n g r id b controller highest Ht (c_wf genesis n g Hc) node_ends_rooted
    (f_root n g Hf) Hid Hb Hslot) as (n3 & Hset & Heq). rewrite Heq in Hsr.
  by apply (pruned_ok r id b highest Hid Hb Hcomp Hdesc n3 n').
Qed.

(** A new root leaves the banks on its line. *)
Lemma set_root_spec r id b controller highest :
  banks (forks n) !! r = Some id → heap n !! id = Some b →
  r = root (forks n) ∨ r ∈ default ∅ (descendants (forks n) !! root (forks n)) →
  ∃ n', set_root n r controller highest = Ret n' ∧ root (forks n') = r ∧ desc_ok n' ∧
    ∀ s x, banks (forks n') !! s = Some x ↔ banks (forks n) !! s = Some x ∧
      (id ∈ lin g x ∨
       x ∈ lin g id ∧ default r highest ≤ s ∧ Anc.contains_key (ancestors b) s = true).
Proof.
  intros Hid Hb Hdesc.
  assert (slot b = r) as Hslot by (destruct (f_bank n g Hf r id Hid) as (b' & ? & <-); congruence).
  destruct (set_root_eq n g r id b controller highest Ht (c_wf genesis n g Hc) node_ends_rooted
    (f_root n g Hf) Hid Hb Hslot) as (n3 & Hset & ->).
  destruct (prune_spec n3 r highest (settled_desc_ok r id n3 Hset)) as (n' & Hn' & _).
  { rewrite (st_forks _ _ _ _ Hset). by exists id. }
  exists n'. destruct (pruned_spec r id highest Hid n3 n' Hset Hn') as (_ & Hd & Hbanks).
  split_and!; [done|by eapply pruned_root|done|]. intros s x. rewrite Hbanks.
  split; intros [Hx Hk]; (split; [done|]); by apply (kept_exact r id b highest Hid Hb Hdesc s x Hx).
Qed.

(** ** A purged slot *)

(** Clearing the statuses of some slots. *)
Lemma clear_slots_inv (m m' : Node) l :
  wf_cache (status_cache m) → for_each (λ s m, clear_slot_signatures m s) l m = Ret m' →
  heap m' = heap m ∧ bank_id_generator m' = bank_id_generator m ∧ forks m' = forks m ∧
  wf_cache (status_cache m') ∧ roots (status_cache m') = roots (status_cache m) ∧
  ∀ bh key s, s ∉ l → recorded (status_cache m) bh key s → recorded (status_cache m') bh key s.
Proof.
  revert m. induction l as [|a l IH]; intros m Hwf; cbn [for_each].
  { intros [= ->]. split_and!; done. }
  intros (m1 & Hm1 & Hl)%bind_Ret_inv. unfold clear_slot_signatures in Hm1.
  apply bind_Ret_inv in Hm1 as (c & Hclear & [= <-]).
  destruct (clear_Ret_inv _ a c Hwf Hclear) as (_ & Hwf1 & Hr & _).
  destruct (IH (set_status_cache m c) Hwf1 Hl) as (-> & -> & -> & Hwf' & -> & Hrec).
  split_and!; [done..|]. intros bh key s [Hne Hs]%not_elem_of_cons Hrs. apply Hrec; [done|].
  by apply (clear_recorded (status_cache m) a).
Qed.

Section purge.
Context (s : Slot) (ds : gset Slot) (n' : Node).
Context (Hroot : root (forks n) < s) (Hds : descendants (forks n) !! s = Some ds).
Let l : list Slot := elements ds ++ [s].

Lemma purged_in a id b :
  banks (forks n) !! a = Some id → heap n !! id = Some b → a ∈ ds →
  root_id n ∈ lin g id ∧
  ∃ x xb, x ∈ lin g id ∧ heap n !! x = Some xb ∧ slot xb = s ∧ s < a ∧ root_id n ∈ lin g x ∧
    banks (forks n) !! s = Some x.
Proof.
  intros Hid Hb Hin. destruct (f_bank n g Hf a id Hid) as (b' & Hb' & Hs). replace b' with b in Hs by congruence.
  destruct (descendant_line s a id b) as (x & xb & Hx & Hxb & Hxs & Hlt); [by rewrite Hds|done..|].
  destruct (root_bank n g Hf) as (rb & Hrb & Hrs & _).
  destruct (f_line n g Hf a id Hid) as [Hline|Hline].
  - split; [done|]. exists x, xb.
    destruct (line_in_tree a id b x xb Hid Hb Hline Hx Hxb) as [? Hxt]; [lia|]. rewrite Hxs in Hxt.
    split_and!; [done..|lia|done|done].
  - pose proof (line_slot_le n g Ht _ rb id b Hrb Hline Hb). lia.
Qed.

Lemma descendant_in a : a ∈ ds → ∃ id b, banks (forks n) !! a = Some id ∧ heap n !! id = Some b.
Proof.
  intros Hin. destruct (proj1 (f_desc n g Hf s a)) as (id & b & ? & ? & _); [by rewrite Hds|eauto].
Qed.

Lemma purged_slots a : a ∈ l → s ≤ a ∧ is_Some (banks (forks n) !! a).
Proof.
  unfold l. rewrite elem_of_app, elem_of_elements, list_elem_of_singleton. intros [Hin| ->].
  - destruct (descendant_in a Hin) as (id & b & Hid & Hb).
    destruct (purged_in a id b Hid Hb Hin) as (_ & x & xb & ? & ? & ? & ? & _). split; [lia|eauto].
  - split; [lia|]. destruct (proj1 (f_keys n g Hf s)) as [|Hne]; [eauto|done|].
    rewrite Hds in Hne. cbn in Hne. apply set_choose_L in Hne as [a Hin].
    destruct (descendant_in a Hin) as (id & b & Hid & Hb).
    destruct (purged_in a id b Hid Hb Hin) as (_ & x & xb & _ & _ & _ & _ & _ & ?). eauto.
Qed.

Lemma purged_NoDup : NoDup l.
Proof.
  unfold l. apply NoDup_app. split; [apply NoDup_elements|]. split; [|apply NoDup_singleton].
  intros a Hin%elem_of_elements ->%list_elem_of_singleton.
  destruct (descendant_in s Hin) as (id & b & Hid & Hb).
  destruct (purged_in s id b Hid Hb Hin) as (_ & x & xb & ? & ? & ? & ? & _). lia.
Qed.

(** The purged slots are closed under what is built on them. *)
Lemma purged_closed a id b x xb :
  banks (forks n) !! a = Some id → heap n !! id = Some b → x ∈ lin g id → heap n !! x = Some xb →
  root_id n ∈ lin g x → slot xb ∈ l → a ∈ l.
Proof.
  intros Hid Hb Hx Hxb Hr Hin.
  assert (∃ y yb, y ∈ lin g id ∧ heap n !! y = Some yb ∧ slot yb = s ∧ root_id n ∈ lin g y) as
    (y & yb & Hy & Hyb & Hys & Hry).
  { unfold l in Hin. apply elem_of_app in Hin as [Hin%elem_of_elements|Hin%list_elem_of_singleton]; [|eauto 10].
    destruct (purged_in (slot xb) x xb) as (_ & y & yb & Hy & Hyb & Hys & _ & Hry & _); [|done..|].
    - by apply (f_closed n g Hf a id).
    - exists y, yb. split_and!; [|done..]. by apply (line_trans n g Ht id b x). }
  destruct (line_descendant a id b y yb Hid Hb Hy Hyb Hry) as [->|Hdesc].
  - destruct (f_bank n g Hf a id Hid) as (b' & Hb' & <-). apply elem_of_app. right.
    apply list_elem_of_singleton. congruence.
  - rewrite Hys, Hds in Hdesc. apply elem_of_app. left. by apply elem_of_elements.
Qed.

(** The banks of a line of the tree that is left are not purged. *)
Lemma left_line a id b x xb :
  banks (forks n) !! a = Some id → a ∉ l → heap n !! id = Some b → x ∈ lin g id → heap n !! x = Some xb →
  slot xb ∉ l.
Proof.
  intros Hid Hal Hb Hx Hxb Hin. destruct (root_bank n g Hf) as (rb & Hrb & Hrs & _).
  destruct (purged_slots _ Hin) as [Hle _].
  destruct (f_line n g Hf a id Hid) as [Hline|Hline].
  - apply Hal. apply (purged_closed a id b x xb); [done..| |done].
    eapply line_in_tree; [done..|lia].
  - pose proof (line_slot_le n g Ht _ rb id b Hrb Hline Hb).
    pose proof (line_slot_le n g Ht id b x xb Hb Hx Hxb). lia.
Qed.

Section left.
Context (n1 : Node) (Hsm : smaller n n1) (Hd1 : desc_ok n1).
Context (Hbanks : banks (forks n1) = without_slots (banks (forks n)) l).
Context (Hclear : for_each (λ s m, clear_slot_signatures m s) l n1 = Ret n').

Lemma left_banks a x : banks (forks n') !! a = Some x ↔ banks (forks n) !! a = Some x ∧ a ∉ l.
Proof.
  destruct (clear_slots_inv n1 n' l) as (_ & _ & -> & _); [rewrite (sm_cache _ _ Hsm); apply Hc|done|].
  rewrite Hbanks. unfold without_slots. by rewrite map_lookup_filter_Some.
Qed.

Lemma left_same :
  heap n' = heap n ∧ bank_id_generator n' = bank_id_generator n ∧ forks n' = forks n1 ∧
  wf_cache (status_cache n') ∧ roots (status_cache n') = roots (status_cache n) ∧
  ∀ bh key a, a ∉ l → recorded (status_cache n) bh key a → recorded (status_cache n') bh key a.
Proof.
  destruct Hsm as [Hh Hg Hcs _]. rewrite <-Hh, <-Hg, <-Hcs. apply clear_slots_inv; [|done].
  rewrite Hcs. apply Hc.
Qed.

Lemma left_root : root (forks n') = root (forks n) ∧ root_id n' = root_id n.
Proof.
  destruct left_same as (_ & _ & Hfs & _). assert (root (forks n') = root (forks n)) as Hr.
  { rewrite Hfs. apply Hsm. }
  split; [done|]. destruct (root_bank n g Hf) as (_ & _ & _ & Hrid). unfold root_id at 1. rewrite Hr.
  rewrite (proj2 (left_banks (root (forks n)) (root_id n))); [done|]. split; [done|].
  intros [Hle _]%purged_slots. lia.
Qed.

Lemma left_forks : forks_ok n' g.
Proof.
  destruct left_same as (Hh & _ & Hfs & _). destruct left_root as [Hr Hrid].
  destruct Hd1 as [D1 D2 D3]. pose proof (sm_heap n n1 Hsm) as Hh1.
  rewrite <-Hfs in D2, D3. setoid_rewrite Hh1 in D2.
  constructor; rewrite ?Hrid, ?Hr, ?Hh; [| |..].
  - destruct (root_bank n g Hf) as (_ & _ & _ & ?). exists (root_id n). apply left_banks.
    split; [done|]. intros [Hle _]%purged_slots. lia.
  - apply Hf.
  - intros a x [Hx _]%left_banks. by apply (f_bank n g Hf).
  - intros a x [Hx _]%left_banks. by apply (f_line n g Hf a).
  - intros a x y yb [Hx Hal]%left_banks Hy Hyb Hry. apply left_banks. split.
    + by apply (f_closed n g Hf a x).
    + destruct (f_bank n g Hf a x Hx) as (xb & Hxb & _). by apply (left_line a x xb y).
  - apply D2.
  - apply D3.
Qed.

Lemma left_ok : node_ok genesis (n', g).
Proof.
  destruct left_same as (Hh & Hg & _ & Hwf & Hroots & Hrec). destruct left_root as [Hr Hrid].
  assert (evolves n n') as Hev.
  { constructor; rewrite ?Hh, ?Hg; [intros x xb Hx; exists xb; split; [done|reflexivity]..|done]. }
  assert (no_ticks n n') as Hno by (intros x xb xb'; rewrite Hh; intros; simplify_eq; done).
  constructor; cbn [fst snd].
  - by apply (tree_same n).
  - rewrite <-(history_eta g). by apply (queue_no_ticks genesis n n' g).
  - rewrite <-(history_eta g). apply (ancestors_evolves n n' g); [done..| | |]; rewrite ?Hrid, ?Hh.
    + intros a. unfold is_root. by rewrite Hroots.
    + done.
    + apply Ha.
  - apply left_forks.
  - destruct Hc as [C1 C2 C3 C4 C5]. unfold on_line, is_root, remembers in C2, C3, C5.
    constructor; unfold on_line, is_root, remembers; rewrite ?Hrid, ?Hroots, ?Hh; [done..|].
    intros x m bh xb a d Hin Hxb [Hd Hal]%left_banks Hx.
    destruct (C5 x m bh xb a d Hin Hxb Hd Hx) as [Hre|]; [left|by right]. apply Hrec; [|done].
    destruct (f_bank n g Hf a d Hd) as (db & Hdb & _). by apply (left_line a d db x).
Qed.

End left.

Lemma purged_ok : purge_unconfirmed_duplicate_slot n s = Ret n' → node_ok genesis (n', g).
Proof.
  unfold purge_unconfirmed_duplicate_slot. rewrite Hds. fold l.
  destruct (dump_slots_spec n l node_desc_ok purged_NoDup) as (ids & n1 & -> & Hsm & Hd1 & Hb1).
  { intros a Ha'. by apply purged_slots. }
  cbn. by apply left_ok.
Qed.

End purge.

Lemma purge_ok s n' :
  root (forks n) < s → purge_unconfirmed_duplicate_slot n s = Ret n' → node_ok genesis (n', g).
Proof.
  intros Hroot Hp. destruct (descendants (forks n) !! s) as [ds|] eqn:Hds; [by eapply purged_ok|].
  unfold purge_unconfirmed_duplicate_slot in Hp. rewrite Hds in Hp. by injection Hp as <-.
Qed.

End tree.
