(* ===== verification/BankTheorems.v ===== *)
(** The theorems about banks: no transaction is processed twice on a fork, and
    what a new root leaves of the tree of banks. *)
From S2P Require Import Prelude Bytes RollingBitField RollingBitFieldProps StatusCache.
From S2P Require Import StatusCacheProps StatusCacheTheorems BlockhashQueue Bank BankSteps.
From S2P Require Import BankInv BankNew BankRoot BankPrune.

(** A list has at least as many elements as its set. *)
Lemma size_list_to_set_le (l : list Z) : (size (list_to_set l : gset Z) ≤ length l)%nat.
Proof.
  induction l as [|x l IH]; [done|]. cbn [list_to_set length].
  rewrite size_union_alt, size_singleton.
  assert (size (list_to_set l ∖ {[x]} : gset Z) ≤ size (list_to_set l : gset Z))%nat
    by (apply subseteq_size; set_solver). lia.
Qed.

Section theorems.
Context `{!ClockConstants, !ClockLaws, !BitVecOps, !BitVecLaws, !BankSdk}.
Context (genesis : Hash).
Implicit Types (n : Node) (b : Bank) (g : History).

(** * The invariant holds *)

Section genesis.
Context (bank : Bank) (lamports now ticks : Z) (static : bool) (accounts : Pubkey → option Account).
Context (Hticks : 0 < ticks)
  (Hbank : genesis_bank genesis lamports now ticks static accounts = Ret bank).
Let n := genesis_node bank.

Lemma genesis_bank_inv :
  ∃ anc, wf (Anc.ancestors anc) ∧ items (Anc.ancestors anc) = {[ 0 ]} ∧
    bank = mkBank _ _ 0 None anc
      (Queue.genesis_hash (Queue.new MAX_RECENT_BLOCKHASHES) genesis lamports now)
      ticks 0 ((0 + 1) * ticks) 0 false lamports static accounts.
Proof.
  unfold genesis_bank in Hbank. apply bind_Ret_inv in Hbank as (anc & Hanc & Hb).
  destruct (from_items [0]) as (a & Ha & Hwf & Hitems).
  { constructor; [|done]. split; [lia|by cbv]. }
  assert (a = anc) as -> by congruence. exists anc. injection Hb as <-.
  split_and!; [done| |done]. rewrite Hitems. set_solver.
Qed.

Lemma genesis_heap x xb : heap n !! x = Some xb → x = 0 ∧ xb = bank.
Proof. cbn. intros [? ?]%lookup_singleton_Some. auto. Qed.

Lemma genesis_banks s x : banks (forks n) !! s = Some x → s = 0 ∧ x = 0.
Proof. cbn. intros [? ?]%lookup_singleton_Some. auto. Qed.

Lemma genesis_tree : tree_ok n genesis_history.
Proof.
  destruct genesis_bank_inv as (anc & _ & _ & Hb).
  constructor.
  - intros x xb [-> ->]%genesis_heap. by exists [].
  - done.
  - intros x L. cbn. intros [<- _]%lookup_singleton_Some. eexists. apply lookup_singleton_eq.
  - intros x xb [-> ->]%genesis_heap. cbn. lia.
  - intros x xb [-> ->]%genesis_heap. rewrite Hb. split; cbn; [lia|by cbv].
  - intros x xb p [-> ->]%genesis_heap. by rewrite Hb.
  - intros x xb [-> ->]%genesis_heap. rewrite Hb. cbn. lia.
  - intros x xb [-> ->]%genesis_heap. rewrite Hb. cbn. split; [done|lia].
  - intros x h. cbn. by rewrite lookup_empty.
Qed.

Lemma genesis_queue : queue_ok genesis n genesis_history.
Proof.
  destruct genesis_bank_inv as (anc & _ & _ & Hb). constructor; intros x xb [-> ->]%genesis_heap; rewrite ?Hb;
    [apply Queue.genesis_reflects|done|apply NoDup_singleton].
Qed.

Lemma genesis_ancestors : ancestors_ok n genesis_history.
Proof.
  destruct genesis_bank_inv as (anc & Hwf & Hitems & Hb).
  constructor; intros x xb; [|intros s|intros y yb..|]; intros [-> ->]%genesis_heap.
  - by rewrite Hb.
  - rewrite Hb at 1. cbn. rewrite Hitems. intros ->%elem_of_singleton. exists 0, bank.
    split_and!; [left|apply lookup_singleton_eq|by rewrite Hb].
  - intros _ [-> ->]%genesis_heap _. rewrite Hb. cbn. rewrite Hitems. set_solver.
  - intros _ [-> ->]%genesis_heap. left. rewrite Hb. cbn. rewrite Hitems. set_solver.
  - intros _. left.
Qed.

Lemma genesis_forks : forks_ok n genesis_history.
Proof.
  destruct genesis_bank_inv as (anc & Hwf & Hitems & Hb).
  assert (∀ a, a ∉ proper_ancestors bank) as Hproper.
  { intros a. rewrite Hb, proper_ancestors_spec by done. cbn. rewrite Hitems. set_solver. }
  constructor.
  - eexists. apply lookup_singleton_eq.
  - intros b' _. by right.
  - intros s x [-> ->]%genesis_banks. exists bank. split; [apply lookup_singleton_eq|by rewrite Hb].
  - intros s x [-> ->]%genesis_banks. left. left.
  - intros s x y yb _ _ [-> ->]%genesis_heap _. rewrite Hb. apply lookup_singleton_eq.
  - intros a s. cbn. split.
    + destruct (decide (a = 0)) as [->|Hne];
        [rewrite lookup_singleton_eq|rewrite lookup_singleton_ne by done]; cbn; set_solver.
    + intros (x & xb & _ & [-> ->]%genesis_heap & Hin). by apply Hproper in Hin.
  - intros a. cbn. destruct (decide (a = 0)) as [->|Hne].
    + rewrite !lookup_singleton_eq. naive_solver.
    + rewrite !lookup_singleton_ne by done. cbn. split; [by intros []|by intros [[]|]].
Qed.

Lemma genesis_cache : cache_ok genesis n genesis_history.
Proof.
  destruct genesis_bank_inv as (anc & _ & _ & Hb). constructor.
  - apply default_wf.
  - intros s. cbn. intros ->%elem_of_singleton. exists 0, bank.
    split_and!; [left|apply lookup_singleton_eq|by rewrite Hb].
  - intros x xb _ [-> ->]%genesis_heap. left. rewrite Hb. cbn. set_solver.
  - intros x m bh Hin. by apply not_elem_of_nil in Hin.
  - intros x m bh xb s d Hin. by apply not_elem_of_nil in Hin.
Qed.

Lemma genesis_ok : node_ok genesis (n, genesis_history).
Proof.
  constructor; [apply genesis_tree|apply genesis_queue|apply genesis_ancestors|apply genesis_forks
    |apply genesis_cache].
Qed.

End genesis.

Lemma step_ok w w' : node_ok genesis w → step genesis w w' → node_ok genesis w'.
Proof.
  intros Hok Hstep. destruct Hstep.
  - by eapply new_ok.
  - by eapply tick_ok.
  - by eapply freeze_ok.
  - by eapply commit_ok.
  - by eapply root_ok.
  - by eapply purge_ok.
Qed.

Lemma reachable_ok w : reachable genesis w → node_ok genesis w.
Proof. induction 1; [by eapply genesis_ok|by eapply step_ok]. Qed.

(** * No replay *)

(** The roots above a bank of a line of the tree registered blockhashes on it. *)
Lemma roots_behind n g s d db x xb bh age :
  node_ok genesis (n, g) → banks (forks n) !! s = Some d → heap n !! d = Some db →
  root_id n ∈ lin g d → x ∈ lin g d → heap n !! x = Some xb → bh ∈ chain_hashes genesis g x →
  (age < Z.to_nat (roots_above (roots (status_cache n)) (slot xb)))%nat →
  bh ∉ take (S age) (chain_hashes genesis g d).
Proof.
  intros [Ht Hq Ha Hf Hc] Hs Hdb Hr Hx Hxb Hbh Hage; cbn [fst snd] in *.
  set (R := filter (λ r, slot xb < r) (roots (status_cache n))).
  set (slot_of y := match heap n !! y with Some yb => slot yb | None => 0 end).
  set (Y := filter (λ y, slot_of y ∈ R) (list_to_set (lin g (root_id n)) : gset BankId)).
  destruct (root_bank n g Hf) as (rb & Hrb & _).
  assert (∀ r, r ∈ R → ∃ y, y ∈ Y ∧ slot_of y = r) as HR.
  { intros r Hin. pose proof Hin as [_ Hroot]%elem_of_filter.
    destruct (c_roots genesis n g Hc r Hroot) as (y & yb & Hy & Hyb & Hys). exists y.
    assert (slot_of y = r) as Hsl by (unfold slot_of; by rewrite Hyb).
    split; [|done]. apply elem_of_filter. rewrite Hsl. split; [done|]. by apply elem_of_list_to_set. }
  assert (size R ≤ size Y)%nat as Hsize.
  { transitivity (length (slot_of <$> elements Y)); [|by rewrite length_fmap].
    etrans; [|apply size_list_to_set_le].
    apply subseteq_size. intros r (y & Hy & <-)%HR. apply elem_of_list_to_set, list_elem_of_fmap.
    exists y. by rewrite elem_of_elements. }
  apply (hash_behind n g Ht genesis d db x xb bh Y); [done..|by apply (q_fresh genesis n g Hq d db)|done| |].
  2:{ unfold roots_above in Hage. fold R in Hage. lia. }
  intros y [HyR Hy%elem_of_list_to_set]%elem_of_filter.
  destruct (line_heap n g Ht _ rb y Hrb Hy) as [yb Hyb].
  assert (slot xb < slot yb) as Hlt.
  { apply elem_of_filter in HyR as [Hlt _]. unfold slot_of in Hlt. by rewrite Hyb in Hlt. }
  assert (y ∈ lin g d) as Hyd by (by apply (line_trans n g Ht d db (root_id n))).
  split_and!; [done| |].
  - destruct (decide (y = root_id n)) as [->|Hne].
    2:{ apply (complete_hash n g Ht y yb Hyb). by apply (line_proper n g Ht (root_id n) rb y yb). }
    destruct (f_done n g Hf yb Hyb) as [[? _]|Hzero]; [by apply (complete_hash n g Ht (root_id n) yb)|].
    assert (x ∈ lin g (root_id n)) as Hxr by (by apply (line_order n g Ht d db x xb _ yb); [..|lia]).
    unfold lin in Hxr. rewrite Hzero, (t_genesis n g Ht) in Hxr.
    apply list_elem_of_singleton in Hxr as ->. rewrite Hzero in Hyb. simplify_eq. lia.
  - intros Hyx. pose proof (line_slot_le n g Ht x xb y yb Hxb Hyx Hyb). lia.
Qed.

(** A bank of the tree that takes transactions is on a line with the root. *)
Lemma open_bank_line n g s d db :
  tree_ok n g → forks_ok n g → banks (forks n) !! s = Some d → heap n !! d = Some db →
  freeze_started db = false → root_id n ∈ lin g d.
Proof.
  intros Ht Hf Hs Hdb Hopen. destruct (f_line n g Hf s d Hs) as [|Hd]; [done|].
  destruct (root_bank n g Hf) as (rb & Hrb & _). destruct (decide (d = root_id n)) as [->|Hne].
  - by eapply line_self.
  - destruct (line_proper n g Ht _ rb d db Hrb Hd Hdb Hne) as (_ & _ & ?). congruence.
Qed.

(** The transaction at [i] is accepted for its blockhash, and not for a nonce. *)
Definition accepted_by_blockhash (checks : list (result CheckedTransactionDetails TransactionError))
    (i : nat) : Prop :=
  ∃ det, checks !! i = Some (Ok det) ∧ nonce det = None.

(** C5. No transaction is processed twice on a fork.  In every state that a node
    reaches from its genesis bank by creating banks, ticking, freezing, recording
    batches, setting roots (with and without snapshots) and purging duplicate
    slots: when a transaction was recorded on a bank after its blockhash was found
    recent, and a bank of the tree that is built on that bank (or is that bank)
    still takes transactions, [check_transactions] of that bank never accepts a
    transaction with the same message and blockhash for its blockhash again,
    whatever the batch around it: the status cache still finds it, or the cache has
    forgotten it behind so many roots that the blockhash is too old. *)
Theorem no_replay n g x m bh s d db txs locks age checks i tx :
  reachable genesis (n, g) → (x, m, bh) ∈ committed g →
  banks (forks n) !! s = Some d → heap n !! d = Some db → freeze_started db = false → x ∈ lin g d →
  0 ≤ age ≤ MAX_PROCESSING_AGE → check_transactions n db txs locks age = Ret checks →
  txs !! i = Some tx → message_hash tx = m → recent_blockhash tx = bh →
  ¬ accepted_by_blockhash checks i.
Proof.
  intros Hreach Hin Hs Hdb Hopen Hx Hage Hchk Htx <- <- (det & Hdet & Hnone).
  pose proof (reachable_ok _ Hreach) as Hok. pose proof Hok as [Ht Hq Ha Hf Hc]; cbn [fst snd] in *.
  destruct (check_accepted n db txs locks age checks i tx det Hchk Htx Hdet) as [Hnot Hvalid].
  specialize (Hvalid Hnone).
  rewrite (Queue.valid_for_age_spec _ _ _ _ (q_reflects genesis n g Hq d db Hdb)) in Hvalid
    by (rewrite (q_age genesis n g Hq d db Hdb); pose proof processing_age_lt; lia).
  injection Hvalid as Hvalid%bool_decide_eq_true.
  destruct (c_hash genesis n g Hc x _ _ Hin) as [Hbh [xb Hxb]].
  pose proof (open_bank_line n g s d db Ht Hf Hs Hdb Hopen) as Hr.
  destruct (decide (roots_above (roots (status_cache n)) (slot xb) = MAX_CACHE_ENTRIES)) as [Hall|Hall].
  { apply (roots_behind n g s d db x xb (recent_blockhash tx) (Z.to_nat age)) in Hvalid; [done..|].
    rewrite Hall. unfold MAX_CACHE_ENTRIES. pose proof processing_age_lt. lia. }
  destruct (c_remembers genesis n g Hc x _ _ xb s d Hin Hxb Hs Hx) as [Hrec|]; [|done].
  destruct (get_status_recorded (status_cache n) _ _ _ (ancestors db) Hrec) as [st Hst].
  - destruct (a_below n g Ha d db x xb Hdb Hx Hxb) as [Hitem|[Hroot|]]; [left|by right|done].
    unfold Anc.contains_key. rewrite (contains_items _ _ (a_wf n g Ha d db Hdb)).
    by apply bool_decide_eq_true.
  - unfold is_transaction_already_processed in Hnot. rewrite Hst in Hnot. done.
Qed.

(** * A new root *)

(** C21. In every reachable state, a slot of the tree that descends from the root
    can be made the root: [set_root] returns (the walks over parents end, and no
    entry of the tree is missing), whatever the snapshot intervals, and the banks it
    leaves are exactly the new root bank, the banks built on it, and those banks of
    its line that are not below the highest supermajority root and are still among
    its ancestors.  The map of descendants is then that of the banks that are left. *)
Theorem set_root_exact n g r id b controller highest :
  reachable genesis (n, g) → banks (forks n) !! r = Some id → heap n !! id = Some b →
  r = root (forks n) ∨ r ∈ default ∅ (descendants (forks n) !! root (forks n)) →
  ∃ n', set_root n r controller highest = Ret n' ∧ root (forks n') = r ∧
    (∀ s x, banks (forks n') !! s = Some x ↔ banks (forks n) !! s = Some x ∧
       (id ∈ lin g x ∨
        x ∈ lin g id ∧ default r highest ≤ s ∧ Anc.contains_key (ancestors b) s = true)) ∧
    (∀ a s, s ∈ default ∅ (descendants (forks n') !! a) ↔
       ∃ x xb, banks (forks n') !! s = Some x ∧ heap n' !! x = Some xb ∧ a ∈ proper_ancestors xb).
Proof.
  intros Hreach Hid Hb Hdesc.
  destruct (set_root_spec genesis n g (reachable_ok _ Hreach) r id b controller highest Hid Hb Hdesc)
    as (n' & Hn' & Hroot & Hd & Hbanks).
  exists n'. split_and!; [done..|apply Hd].
Qed.

(** * Relations of slots *)

Lemma foldl_max_le l m s : s ≤ m ∨ s ∈ l → s ≤ foldl Z.max m l.
Proof.
  revert m. induction l as [|x l IH]; intros m Hs; cbn.
  - by destruct Hs as [|Hs%not_elem_of_nil].
  - apply IH. destruct Hs as [?|[->|?]%elem_of_cons]; [left; lia|left; lia|by right].
Qed.

Lemma highest_slot_spec n s id :
  banks (forks n) !! s = Some id → ∃ highest, highest_slot n = Ret highest ∧ s ≤ highest.
Proof.
  intros Hs. unfold highest_slot. assert (s ∈ (map_to_list (banks (forks n))).*1) as Hin.
  { apply list_elem_of_fmap. exists (s, id). by rewrite elem_of_map_to_list. }
  destruct ((map_to_list (banks (forks n))).*1) as [|m l]; [by apply not_elem_of_nil in Hin|].
  cbn. eexists. split; [done|]. apply foldl_max_le. apply elem_of_cons in Hin as [->|?]; [left; lia|by right].
Qed.

(** Of two banks of the tree that are not below the root, the ancestors of the one
    have the slot of the other exactly if it is on its line. *)
Lemma tree_ancestor n g a x (b : Slot) y yb :
  node_ok genesis (n, g) → banks (forks n) !! a = Some x → banks (forks n) !! b = Some y →
  root (forks n) ≤ a → root (forks n) ≤ b → heap n !! y = Some yb →
  a ∈ items (Anc.ancestors (ancestors yb)) ↔ x ∈ lin g y.
Proof.
  intros Hok Hx Hy Ha Hb Hyb. pose proof Hok as [Ht _ Han Hf _]; cbn [fst snd] in *.
  destruct (root_bank n g Hf) as (rb & Hrb & Hrs & Hroot).
  assert (root_id n ∈ lin g y) as Hry.
  { destruct (f_bank n g Hf b y Hy) as (yb' & ? & <-). assert (yb' = yb) as -> by congruence.
    destruct (f_line n g Hf _ y Hy) as [|Hline]; [done|]. destruct (decide (y = root_id n)) as [->|Hne].
    - by eapply line_self.
    - destruct (line_proper n g Ht _ rb y yb Hrb Hline Hyb Hne). lia. }
  destruct (f_bank n g Hf a x Hx) as (xb & Hxb & Hxs). split.
  - intros Hin. destruct (a_line n g Han y yb a Hyb Hin) as (z & zb & Hz & Hzb & Hzs).
    destruct (line_in_tree genesis n g Hok b y yb z zb Hy Hyb Hry Hz Hzb) as [_ Hzt]; [lia|].
    rewrite Hzs in Hzt. by assert (z = x) as <- by congruence.
  - intros Hin. rewrite <-Hxs. apply (a_above n g Han y yb x xb); [done..|].
    eapply (line_in_tree genesis n g Hok b y yb x xb); [done..|lia].
Qed.

(** [relationship], which the program cache asks: for two slots of the tree from
    the root on, it is how their banks are related. *)
Theorem relationship_exact n g a x (b : Slot) y :
  reachable genesis (n, g) → banks (forks n) !! a = Some x → banks (forks n) !! b = Some y →
  root (forks n) ≤ a → root (forks n) ≤ b →
  ∃ r, relationship n a b = Ret r ∧
    match r with
    | Equal => a = b
    | Ancestor => a ≠ b ∧ x ∈ lin g y
    | Descendant => a ≠ b ∧ y ∈ lin g x
    | Unrelated => (x ∉ lin g y) ∧ y ∉ lin g x
    | Unknown => False
    end.
Proof.
  intros Hreach Hx Hy Ha Hb. pose proof (reachable_ok _ Hreach) as Hok. pose proof Hok as [Ht _ Han Hf _]; cbn [fst snd] in *.
  destruct (highest_slot_spec n a x Hx) as (highest & Hh & Hah).
  destruct (highest_slot_spec n b y Hy) as (highest' & Hh' & Hbh). assert (highest' = highest) as -> by congruence.
  destruct (f_bank n g Hf a x Hx) as (xb & Hxb & Hxs). destruct (f_bank n g Hf b y Hy) as (yb & Hyb & Hys).
  pose proof (tree_ancestor n g a x b y yb Hok Hx Hy Ha Hb Hyb) as Hxy.
  pose proof (tree_ancestor n g b y a x xb Hok Hy Hx Hb Ha Hxb) as Hyx.
  unfold relationship. rewrite Hh, bind_Ret_l.
  rewrite (proj2 (Z.leb_le _ _) Ha), (proj2 (Z.leb_le _ _) Hah), (proj2 (Z.leb_le _ _) Hb),
    (proj2 (Z.leb_le _ _) Hbh). cbn [andb].
  destruct (Z.eqb_spec a b) as [Heq|Hne]; [by exists Equal|].
  rewrite Hy. unfold get_bank. rewrite Hyb. cbn [unwrap mbind outcome_bind].
  unfold Anc.contains_key. rewrite (contains_items _ _ (a_wf n g Han y yb Hyb)).
  case_bool_decide as Hanc; [exists Ancestor; tauto|].
  destruct (proj2 (f_keys n g Hf b)) as [ds Hds]; [left; eauto|]. rewrite Hds.
  eexists. split; [done|].
  assert (a ∈ ds ↔ y ∈ lin g x) as Hd.
  { pose proof (f_desc n g Hf b a) as Hdesc. rewrite Hds in Hdesc. cbn in Hdesc. rewrite Hdesc, <-Hyx. split.
    - intros (x' & xb' & ? & ? & Hp). assert (x' = x) as -> by congruence. assert (xb' = xb) as -> by congruence.
      by apply (proper_ancestors_spec _ _ (a_wf n g Han x xb Hxb)) in Hp as [? _].
    - intros Hin. exists x, xb. split_and!; [done..|].
      apply (proper_ancestors_spec _ _ (a_wf n g Han x xb Hxb)). split; [done|congruence]. }
  case_bool_decide; tauto.
Qed.

End theorems.

(** * A node with a recorded transaction *)

Module BankDemo.

Import FieldDemo CacheDemo.

#[export] Instance bank_sdk : BankSdk := {|
  Account := Z;
  NonceData := Z;
  BudgetAndLimits := Z;
  without_fee_details v := v;
  system_program_id := 0;
  durable_nonce h := h + 1000;
  verify_nonce_account account hash := if account =? hash then Some account else None;
  nonce_authority _ := 1;
  nonce_lamports_per_signature _ := 5;
  set_nonce_state _ _ hash _ := Some hash;
|}.

(** The genesis hash is 7 and a slot has one tick. *)
Definition bank0 : outcome Bank := genesis_bank 7 5000 0 1 false (λ _, None).

Definition get_node (m : outcome Node) : Node :=
  match m with Ret n => n | _ => mkNode _ _ ∅ 0 Cache.default_ (mkForks ∅ ∅ 0) 0 end.
Definition get_bank0 : Bank :=
  match bank0 with Ret b => b | _ => mkBank _ _ 0 None (Anc.mkAncestors _ empty_field) (Queue.new 0) 0 0 0 0 false 0 false (λ _, None) end.

Definition tx1 : Tx := mkTx _ 11 7 (replicate 64 3) [1; 2] 2 [] (λ _, true) (λ _, true) (Ok 1).

Definition node0 : Node := genesis_node get_bank0.

Definition cache1' : BankStatusCache :=
  match update_transaction_statuses 0 [tx1] [Ok (Ok ())] [(0, 0)] (status_cache node0) with
  | Ret c => c | _ => Cache.default_ end.

Definition node1 : Node :=
  set_status_cache (put_bank node0 0 (set_accounts get_bank0 (λ _, None))) cache1'.
Definition node2 : Node := get_node (register_tick node1 0 8 0).
Definition node3 : Node :=
  get_node ('(_, n) ← new_from_parent node2 0 1 5000 false; Ret n).
Definition node4 : Node := get_node (insert_bank node3 1).

Definition checks1 : list (result CheckedTransactionDetails TransactionError) :=
  [Ok (mkDetails _ None (Ok 1))].

Definition history1 : History :=
  mkHistory (lineage genesis_history) ∅ (recorded_by 0 [tx1] checks1 [Ok (Ok ())] ++ []).
Definition history2 : History := mkHistory (lineage history1) (<[ 0 := 8 ]> ∅) (committed history1).
Definition history4 : History :=
  mkHistory (<[ 1 := 1 :: lin history2 0 ]> (lineage history2)) (block_hash history2) (committed history2).

(** The bank of a node. *)
Definition bank_of (n : Node) (id : BankId) : Bank := default get_bank0 (heap n !! id).

Lemma node1_reachable : reachable 7 (node1, history1).
Proof.
  apply (reach_step 7 (node0, genesis_history)).
  - apply (reach_genesis 7 5000 0 1 false (λ _, None)); [reflexivity|vm_compute; reflexivity].
  - refine (step_commit 7 node0 genesis_history 0 get_bank0 [tx1] [Ok ()] 150 checks1
      [Ok (Ok ())] [(0, 0)] (λ _, None) cache1' _ _ _ _ _ _ _ _);
      try (vm_compute; reflexivity); [split; vm_compute; discriminate| | |].
    + constructor; [|constructor]. by intros _.
    + constructor; [|constructor]. repeat split; vm_compute; discriminate.
    + constructor; [|constructor]. reflexivity.
Qed.

Lemma node2_reachable : reachable 7 (node2, history2).
Proof.
  apply (reach_step 7 (node1, history1)); [apply node1_reachable|].
  refine (step_tick 7 node1 history1 0 (bank_of node1 0) 8 0 node2 _ _ _); [vm_compute; reflexivity..|].
  intros _ Hin. apply (bool_decide_eq_true_2 _) in Hin. vm_compute in Hin. discriminate.
Qed.

Lemma node4_reachable : reachable 7 (node4, history4).
Proof.
  apply (reach_step 7 (node2, history2)); [apply node2_reachable|].
  refine (step_new 7 node2 history2 0 0 (bank_of node2 0) 1 5000 false 1 node3 node4 _ _ _ _ _ _ _ _);
    try (vm_compute; reflexivity); [vm_compute; discriminate|split; [lia|reflexivity]].
Qed.

(** The transaction is sent again to the child of the bank that recorded it. *)
Lemma no_replay_witness :
  check_transactions node4 (bank_of node4 1) [tx1] [Ok ()] 150 = Ret [Err AlreadyProcessed] ∧
  ¬ accepted_by_blockhash [Err AlreadyProcessed] 0.
Proof.
  assert (check_transactions node4 (bank_of node4 1) [tx1] [Ok ()] 150 = Ret [Err AlreadyProcessed])
    as Hchecks by (vm_compute; reflexivity).
  split; [exact Hchecks|].
  apply (no_replay 7 node4 history4 0 11 7 1 1 (bank_of node4 1) [tx1] [Ok ()] 150
    [Err AlreadyProcessed] 0 tx1 node4_reachable);
    try exact Hchecks; try (vm_compute; reflexivity);
    [vm_compute; left|vm_compute; right; left|split; vm_compute; discriminate].
Defined.

(** The child becomes the root, with a snapshot of it, and its parent is pruned. *)
Definition node5 : Node := get_node (set_root node4 1 (Some (Some (Some 1, None))) None).

Lemma set_root_exact_witness :
  set_root node4 1 (Some (Some (Some 1, None))) None = Ret node5 ∧
  banks (forks node5) !! 0 = None ∧ banks (forks node5) !! 1 = Some 1 ∧
  ∃ n', set_root node4 1 (Some (Some (Some 1, None))) None = Ret n' ∧ root (forks n') = 1.
Proof.
  split; [vm_compute; reflexivity|]. split; [vm_compute; reflexivity|]. split; [vm_compute; reflexivity|].
  destruct (set_root_exact 7 node4 history4 1 1 (bank_of node4 1) (Some (Some (Some 1, None))) None
    node4_reachable) as (n' & Hn' & Hroot & _);
    [vm_compute; reflexivity|vm_compute; reflexivity|right; vm_compute; reflexivity|].
  exists n'. split; [exact Hn'|exact Hroot].
Defined.

End BankDemo.
